(* ===== verification/_CoqProject ===== *)
-Q . S2P
Prelude.v
Floats.v
StateMachine.v
SessionState.v
SandboxState.v
SlotState.v
SessionApi.v
SessionStore.v
SessionRuns.v
WarmPlan.v
Redis.v
RedisKeys.v
TreeBudget.v
LeaseStore.v
SlotCounter.v
SlotReserve.v
Upgrade.v
EventBuffer.v
Coordination.v
Delegation.v
Breakers.v
Text.v
Scopes.v
Interceptors.v
InterceptorRuns.v
ExportScan.v
Exports.v
LeaseExtension.v
LeaseRuns.v
Consent.v
Episodes.v
EpisodeRuns.v
DelegationService.v
DelegationRuns.v
TokenExchange.v
IssuedTokens.v
Idempotency.v
IdempotencyRuns.v
TokenService.v
RateLimit.v
InputWait.v
SessionInbox.v
Recovery.v
Deadlock.v
DeadlockSweep.v
Calendar.v
Quota.v
QuotaRuns.v
StorageQuota.v
Uploads.v
Credentials.v
CredentialRuns.v
CredRenewal.v
Jcs.v
AuditChain.v
Elicitation.v
Interactions.v
ElicitationTools.v
AuditStore.v
AuditPolicy.v
Cron.v
