(* ===== verification/Prelude.v ===== *)
(** * Verification of the Lenny control plane

    Lenny runs agent sessions in pods.  A replicated gateway admits and
    coordinates sessions, a token service issues and exchanges their
    credentials, controllers keep pools of warm pods, and Redis and Postgres
    hold the state the replicas share.  This library models the decision logic
    and the shared state of that control plane, from the Go sources under
    [src/pkg], and proves what makes each part correct.

    ** Files, and what they model

    Shared:
    - [Prelude]: Go results, 64-bit integers with wrap-around, instants and
      durations, binary64, strings, the development's tactics and hints.
    - [Floats]: what binary64 division and multiplication do to integers below
      2^53.
    - [Text]: the parts of Go's [strings] the token code uses, with Unicode
      white space on bytes.
    - [StateMachine]: the transition-table interface four packages repeat.
    - [Redis]: the interface [RedisServer], one field per command with its
      documented law, the monad of Lua scripts, transport failures and the
      passage of time; [map_server] is a concrete instance.

    Session and pod lifecycle:
    - [SessionState] ([session/state]), [SandboxState] ([sandbox/state]),
      [SlotState] ([sandbox/slotstate]: the sub-states and the [Registry]).
    - [SessionApi] ([api/v1/session]): identifiers, the states each endpoint
      admits, visibility and messaging scopes.
    - [SessionStore] ([gateway/session/sessionstore] and its [memstore]): session
      rows, the fence creations pass, reservations of identifiers and slots,
      terminal and release marks; [SessionRuns]: its histories.
    - [WarmPlan] ([controller/warmpool/plan], and from [controller/warmpool] the
      sizing part of a pass of the controller): how many pods to create and
      which to drain, and what a pass does to the pool.
    - [Upgrade]: [RuntimeUpgrade] ([runtime/upgrade/state]) and
      [PlatformUpgrade] ([upgrade]).

    State shared through Redis:
    - [RedisKeys] ([gateway/storage/rediskeys]): the guard that keeps a
      command inside its tenant.
    - [TreeBudget] ([gateway/mcpfabric/delegationtree/treebudget]): the budget
      counters of a delegation tree.
    - [LeaseStore] ([gateway/storage/leasestore]): which replica coordinates a
      session.
    - [SlotCounter] ([gateway/storage/slotcounter]): slot occupancy, the
      outage ledger and the recovery.
    - [SlotReserve] (the same package): [Reserve], [Release] and [rehydrate]
      with their Postgres records, retries and fallback.

    Budgets:
    - [Quota] ([quota], [gateway/policy/policy/quotaevaluator.go],
      [gateway/quota/quotabudget]): the arithmetic, the evaluator over the
      interface [UsageReader], and the tracker that enforces a tenant's budget
      from slices; [QuotaRuns]: replicas that share the table.
    - [StorageQuota] ([gateway/quota/storagequota]): the byte counters behind the
      interface [Counter], with what a reachable one promises in [CounterLaws]
      and what lost calls and answers can do in [LostCalls].
    - [Uploads] ([gateway/sessionserver/upload.go], [upload_limits.go]): the
      upload pipeline, proved against [CounterLaws] and [LostCalls].

    Gateway logic:
    - [EventBuffer] ([gateway/eventbuffer]): the ring of operational events.
    - [Coordination]: [CoordLease] and [CoordFence] ([gateway/coordination]).
    - [Delegation]: [Lease] ([delegation/lease]) and [Cycle]
      ([delegation/cycle]).
    - [Breakers]: [Admission] ([circuitbreaker]) and [SDKWarm]
      ([controller/poolscaling/circuitbreaker.go]).
    - [Interceptors] ([gateway/policy/interceptor]): the chain of policy
      interceptors with its fail-open counters and its rules for modified
      content; [InterceptorRuns]: its theorems.
    - [ExportScan] ([interceptor/export.go]) and [Exports]
      ([mcpfabric/delegation/export], [fileexport]): files handed to a child.
    - [DelegationService] ([mcpfabric/delegation/service.go], with
      [sandbox/isolation], [delegationpolicystore], [runtimestore]): a delegation
      from the request to the child row, over [Delegation], [TreeBudget],
      [SessionStore] and [Exports]; [DelegationRuns]: the trees they build.

    Extending a budget ([gateway/mcpfabric/delegationtree/leasecontrol]):
    - [LeaseExtension] ([leaseextension], [leasecontrol.go], [storebudget.go],
      [memdenial.go], [ratelimit.go]): the grant of one request, split where it
      reads and where it commits; [LeaseRuns]: requests in any order.
    - [Consent] ([elicitation.go]): one prompt per tree, its batches, windows
      and timers.
    - [Episodes] ([budgetextension.go], [session/sessionbudget],
      [llmproxy_usage.go]): the token counters of sessions, and the episodes in
      which the exhausted sessions of a tree ask for more; [EpisodeRuns]: their
      runs.

    Tokens:
    - [Scopes] ([common/scopes], and [intersectScope] of
      [gateway/mcpfabric/playground/token.go] as [Playground]).
    - [TokenExchange] ([tokenexchange]): the RFC 8693 validator.
    - [IssuedTokens] ([gateway/storage/issuedtokenstore], [pgtenant.InTx]):
      the table of issued tokens and its transactions.
    - [TokenService] ([tokenservice]): the endpoint, which calls the validator
      and, through the interface [TokenStore], the table; [RateLimit]
      ([tokenservice/ratelimit.go]): its rate limiter.

    Credentials:
    - [Credentials] ([credential], [gateway/credentials]): leases and how they
      are minted, the choice of a credential, the lease store, the deny list
      with its sweep, assignment, release and revocation, and the check of a
      request at the proxy; [CredentialRuns]: their histories.
    - [CredRenewal] ([gateway/credentials/credfallback], [credrenewal]): the
      fallback along pools, and the worker that renews leases, with its objects
      on a heap and other goroutines between its steps.

    Requests and messages:
    - [Idempotency] ([idempotency], [gateway/middleware/idempotency] with its
      Postgres store and gate, [gateway/mcpfabric/mcp/idempotency.go]): the
      keys, both stores behind the interface [IdemStore], the middleware with
      its capturing writer, and the dispatch of tools.
    - [IdempotencyRuns]: any number of requests at once, with operations that
      are still running, replicas that are lost and the sweep.
    - [SessionInbox] ([gateway/session/sessioninbox]): the in-memory and the
      durable inbox, the dead-letter queue and the coordinator, over the
      interfaces [QueueServer], [Codec] and [Inbox].

    Prompts to people:
    - [Elicitation] ([gateway/mcpfabric/elicitation],
      [gateway/mcpfabric/elicitationfloor]): enforcement modes and their
      floor, the depth policy, content digests, the walk over the hops of a
      prompt and the rules for URLs.
    - [Interactions] ([gateway/session/interactionstore]): prompts and their
      answers, in memory and in Postgres, behind [InteractionStore].
    - [ElicitationTools] ([gateway/mcpfabric/mcptools]: [elicitation.go] and
      the elicitation tools): the dispatcher, and asking, answering and
      dismissing a prompt.

    Waiting, deadlocks and recovery:
    - [Recovery] ([delegation/recovery]): the traversal that reattaches the
      failed nodes of a tree, level by level.
    - [InputWait] ([gateway/session/inputwait]): tasks that wait for an answer.
    - [Deadlock], [DeadlockSweep]
      ([gateway/mcpfabric/delegationtree/deadlock]): the detector, and the
      await tracker and manager that run it and act on what it finds.

    Audit and schedules:
    - [Calendar]: dates and clocks of Go's [time].
    - [Jcs] ([audit/jcs]): canonical JSON.
    - [AuditChain] ([audit/chain.go], [audit/integrity/continuity.go]): the
      hash chain and its verifiers.
    - [AuditStore] ([gateway/audit/auditstore], [audit/integrity],
      [gateway/storage/deadletterredaction]): the persisted log, redaction,
      retention and the continuity checks.
    - [AuditPolicy] ([audit/audit.go]): retention settings.
    - [Cron] ([cron]): schedules.

    ** How the code is represented

    A struct is a record, an enum of strings is its strings, an error is a
    value of an inductive type or the error's fields, a map is a [gmap], and a
    loop is a structural recursion over the list it ranges over.  A call that
    changes state returns the new state.  A mutex, a Lua script or a
    transaction makes a call one step; where the code has no such protection
    the interleaving is explicit: the events between the steps of the slot
    recovery, the other replicas between two commands of a reservation, the
    two commands of a lease read, the window between the re-read and the insert
    of an issuing transaction ([IssuedTokens.Race], [TokenService.overlap]).  What
    may come out differently in each operation, such as a canonical text that
    follows the order of a map, is an argument of that operation.  Integers
    that can overflow are wrapped where Go wraps them.  Redis, Postgres
    faults, clocks, signatures and hashes enter as interfaces or arguments
    with their laws; each theorem that has such a hypothesis is applied to a
    concrete instance in its witness.

    ** What the theorems show

    - Safety of shared state: a tree counter whose calls pass natural deltas
      and caps stays between zero and the largest cap over every interleaving of
      calls and expirations ([TreeBudget.tree_budget_invariant]); a held lease cannot be taken
      ([LeaseStore.lease_exclusive]); the recovery after an outage loses no
      slot ([SlotCounter.rebuild_loses_nothing]), and reservations and
      releases stay accounted for under failures of Redis and Postgres
      ([SlotReserve]); a guarded command touches
      one tenant ([RedisKeys.guard_isolates_tenants]).
    - Tokens: no token is returned before its row and audit row are durable
      ([TokenService.write_before_issue], for every store that satisfies
      [AuditedStore]); a recursive revocation is exact
      ([IssuedTokens.cascade_exact]) and final over all later, overlapping
      requests but for mints that were in flight
      ([TokenService.revocation_is_final]); what an exchange does to each claim
      ([TokenExchange.exchange_bounds_claims]), and that lists narrow in chains; scope claims intersect exactly and what an omitted or
      disjoint scope means is stated as it is.
    - Credentials: a revoked credential serves no request and backs no new lease,
      sweeps of the deny list included ([CredentialRuns.revoked_credential_stays_out]);
      a token finds exactly its lease ([CredentialRuns.token_index_exact]); the
      strategies choose as they promise ([CredentialRuns.selection_exact]); session
      counts are exact as long as no sweep removes a lease
      ([CredentialRuns.sessions_counted_exactly], [CredentialRuns.Demo.sweep_leaks_session]);
      fallback is decided by the history of faults alone and within the budget
      ([CredRenewal.fallback_refines_history]); an outage extends a lease within its
      cap ([CredRenewal.extension_bounded]); a sweep of the worker leaves usable
      leases and reports the others ([CredRenewal.sweep_exact]).
    - Requests: an operation with an idempotency key never runs twice at once
      while handlers finish within the retention time
      ([IdempotencyRuns.one_execution_at_a_time]) and its first response is the
      one every retry sees ([IdempotencyRuns.retry_sees_first_response]); a
      client that disconnects is locked out until the entry expires
      ([IdempotencyRuns.disconnected_client_locked_out]).
    - Messages: the two inboxes answer alike ([SessionInbox.inboxes_agree]),
      the dead-letter queue hands out its messages in the order of expiry, which
      is that of acceptance for one time to live ([SessionInbox.dlq_by_expiry],
      [SessionInbox.mixed_ttls_overtake]), and a session that ends reports every message it drops.
    - Prompts: the digest of a prompt identifies its content up to the order
      of members ([Elicitation.digest_exact]), so a hop that changes it is
      found and handled as its tenant's mode says
      ([ElicitationTools.dispatch_integrity]); the route always ends at a
      person ([ElicitationTools.buildHops_complete]); an agent reaches only
      listed hosts ([Elicitation.agent_url_boundary]); an answer comes from
      the addressed user and is final ([Interactions.answer_is_final]).  What
      a lost ancestor row, a reused identifier, a timeout and the budget of a
      delegated session do is stated as it is.
    - Sessions: a listing after a marker was set, or after a parent ended, misses
      no session that can still exist ([SessionRuns.drain_is_complete],
      [SessionRuns.cascade_is_complete]); an erasure defeats creations under way
      ([SessionRuns.erasure_outruns_create]); rows only move forward
      ([SessionRuns.row_history]) and the first terminal write stands
      ([SessionRuns.terminal_write_wins]); pods are not overbooked under the
      outage gate ([SessionRuns.outage_gate_bounds_pod]).
    - Quotas: how far a tenant can pass its budget while Postgres comes and goes
      ([QuotaRuns.budget_overshoot_bounded]); with Postgres reachable admission is
      exact ([QuotaRuns.connected_admission_exact]); the storage counter never
      holds less than what is accepted and in flight, and exactly that when every
      call is answered ([Uploads.storage_quota_conserved]), for every counter that
      satisfies [CounterLaws] and [LostCalls]; upload caps hold
      ([Uploads.upload_caps_hold]).  What a window boundary, a lost
      acknowledgement and an outage do to the counts is stated as it is.
    - Interceptors and exports: content that passes the chain was let pass by
      every interceptor, in order ([InterceptorRuns.admitted_by_all]), with its
      protected fields as they were ([InterceptorRuns.immutable_fields_survive]),
      and an interceptor is escalated exactly when it fails too often
      ([InterceptorRuns.fail_open_exact]); an export gives the child exactly what
      was placed and let pass ([Exports.materialize_exact]).
    - Delegations: every row of a tree is at least as restricted as the rows
      above it were when it was delegated, also when the registries change
      ([DelegationRuns.delegated_rows_narrow]); a delegation inserts its
      child and takes its reservation, or leaves the counters as they were and
      no object without a reservation ([DelegationRuns.delegation_all_or_nothing]).
      What the walk cap, unset and negative slices, inherited policies, lost
      replies and experiment routing do is stated as it is
      ([DelegationRuns.DelegationDemo]).
    - Extensions: a tree never gets more than its ceiling leaves, and nothing
      while it is denied ([LeaseRuns.extensions_within_ceiling]); consents rest on
      an approval and refusals are persisted ([Consent.consent_sound]); what an
      episode decides is applied once ([EpisodeRuns.resolution_applied_once]).
      That a delegated child has no room ([LeaseRuns.delegated_child_refused]),
      and what a late denial and a stale budget do to an extended session
      ([EpisodeRuns.EpisodeDemo]), is stated as it is.
    - Lifecycles: terminal states have no way out, every live state can be
      ended, records of rollouts stay well formed.
    - Refinement: the event ring answers as the log of all events restricted
      to the ring's length; the lease mirror's query is exact for every
      history; a pass of the warm-pool controller never moves the pool
      away from its target, and one that gets through reaches it as far as no
      more pods are warming ([WarmPlan.Reconcile_converges]).
    - Deadlocks: the detector computes the inductive notion of a blocked
      subtree for every iteration order ([Deadlock.Detect_exact]), its snapshot
      is the closure of the await edges, and a task is failed only after its
      subtree was stuck for the whole waiting time ([DeadlockSweep]); a wait is
      settled once ([InputWait]).
    - Audit: canonical texts are equal exactly for equal values
      ([Jcs.canonical_text_exact]); equal tail hashes mean equal chains or a
      hash collision between two of their rows ([AuditChain.tamper_evidence]); a
      written log verifies as long as its payloads have one canonical text
      ([AuditStore.written_log_verifies], [AuditStore.colliding_payload_breaks]).  Where redaction and retention do
      not fit the verifiers, that is stated as it is
      ([AuditChain.redaction_unprotects_prefix],
      [AuditStore.redaction_breaks_continuity],
      [AuditStore.redacting_tail_breaks_chain],
      [AuditStore.sweep_splits_the_checks]).
    - Schedules: [Cron.Next_earliest] and the mask of a field; the search
      window is a day too short for leap days ([Cron.leap_day_missed]).
    - Limits and recovery: the rate limiter of the token endpoint decides from the
      requests of the current windows ([RateLimit.limiter_exact]); a tree is
      recovered bottom up within its budget ([Recovery.recovery_bottom_up]).
    - Bounds: delegation budgets and depth only narrow; attempts, grace
      windows and token lifetimes stay within their limits.

    ** Bounds and fuel

    Scores of the dead-letter queue are kept in units of 2^-12 ms, which is
    what binary64 resolves between 2^40 and 2^41 ms (the years 2004 to 2039).
    Numbers in Lua are binary64; the budget theorems are about
    numbers for which every sum the scripts form is an integer that binary64
    represents (below 2^53); the quota theorems assume totals in the same range.  The
    fence loop and the recovery loops take their attempt
    count as fuel, which is the bound the code has.  The recursive query of a
    cascade is iterated as often as the table has rows, which
    [IssuedTokens.subtree_spec] shows to be enough.  The deadlock search has
    one more unit of fuel than the snapshot has nodes, the loop over the values
    of a cron term 200, the search for the next minute 2^22 turns; each is
    proved to suffice.  The walk to the root of a delegation tree has three
    more units than there are sessions, which is enough also on a cycle; the walk of a
    delegation up its tree has the cap of the code as its fuel.

    ** What is not modelled

    HTTP, JSON, gRPC and Kubernetes plumbing, metrics and rendered messages,
    key material, generated code, command-line tools and the user interface;
    the Redis [SCAN]-based purges.  The registries of runtimes and policies, the
    experiment router and the composition of workspace defaults are arguments
    of the delegation service.
    Candidates for more work: the Redis token counters and their checkpoints. *)

From Stdlib Require Export Ascii.
From Stdlib Require Import ZArith Lia SpecFloat.
From stdpp Require Export prelude sorting fin_maps gmap strings.
From stdpp Require Export list.

#[global] Set Default Goal Selector "!".
#[global] Set Warnings "-clear-no-such-hyp".

(** ** Scope of the development's notations *)

Declare Scope lenny_scope.
Delimit Scope lenny_scope with lenny.
#[global] Open Scope lenny_scope.

(** ** Results: a Go [(T, error)] pair *)

(** The Go convention returns either a value with a nil error, or an error;
    [result E A] keeps the two cases apart. *)
Inductive result (E A : Type) : Type :=
| Ok (a : A)
| Err (e : E).
Arguments Ok {E A} a.
Arguments Err {E A} e.

Definition is_ok {E A} (r : result E A) : bool :=
  match r with Ok _ => true | Err _ => false end.

Definition rbind {E A B} (r : result E A) (f : A -> result E B) : result E B :=
  match r with
  | Ok a => f a
  | Err e => Err e
  end.

Notation "'let*' x ':=' r 'in' k" := (rbind r (fun x => k))
  (at level 10, x pattern, k at level 200) : lenny_scope.

Lemma rbind_Ok {E A B} (r : result E A) (f : A -> result E B) b :
  rbind r f = Ok b <-> exists a, r = Ok a /\ f a = Ok b.
Proof. destruct r; simpl; split; [eauto | by intros (? & [= ->] & ?) | done | by intros (? & ? & ?)]. Qed.

(** ** Machine integers *)

(** Go's [int] and [int64] are 64-bit two's complement on every platform the
    project builds for; [wrap64] is the wrap-around of an arithmetic result. *)
Definition two63 : Z := 9223372036854775808.
Definition two64 : Z := 18446744073709551616.
Definition max_int64 : Z := two63 - 1.
Definition min_int64 : Z := - two63.

Definition wrap64 (x : Z) : Z := (x + two63) mod two64 - two63.
Definition wrap_u64 (x : Z) : Z := x mod two64.

Definition in_int64 (x : Z) : Prop := (min_int64 <= x <= max_int64)%Z.
Definition in_u64 (x : Z) : Prop := (0 <= x < two64)%Z.

Ltac unfold_int64 :=
  unfold in_int64, in_u64, wrap64, wrap_u64, min_int64, max_int64, two63, two64 in *.

Lemma wrap64_id x : in_int64 x -> wrap64 x = x.
Proof. unfold_int64. intros. rewrite Z.mod_small; lia. Qed.

Lemma wrap64_range x : in_int64 (wrap64 x).
Proof.
  unfold_int64.
  pose proof (Z.mod_pos_bound (x + 9223372036854775808) 18446744073709551616). lia.
Qed.

Lemma wrap_u64_id x : in_u64 x -> wrap_u64 x = x.
Proof. unfold_int64. apply Z.mod_small. Qed.

Lemma wrap_u64_range x : in_u64 (wrap_u64 x).
Proof. unfold_int64. apply Z.mod_pos_bound. lia. Qed.

(** ** Instants and durations *)

(** A [time.Time] is its wall reading, in nanoseconds since the zero time
    (1 January of year 1, UTC), so [time.Time{}.IsZero] is [t = 0]; a
    [time.Duration] is a signed 64-bit nanosecond count. *)
Abbreviation Time := Z (only parsing).
Abbreviation Duration := Z (only parsing).

Definition zero_time : Time := 0%Z.
Definition time_is_zero (t : Time) : bool := (t =? 0)%Z.
Definition time_before (t u : Time) : bool := (t <? u)%Z.
Definition time_after (t u : Time) : bool := (u <? t)%Z.
Definition time_add (t : Time) (d : Duration) : Time := (t + d)%Z.

(** [time.Time.Sub] saturates at the [Duration] bounds. *)
Definition time_sub (t u : Time) : Duration :=
  (Z.max min_int64 (Z.min max_int64 (t - u)))%Z.

Definition Nanosecond : Duration := 1%Z.
Definition Millisecond : Duration := 1000000%Z.
Definition Second : Duration := 1000000000%Z.
Definition Minute : Duration := (60 * Second)%Z.
Definition Hour : Duration := (60 * Minute)%Z.

Lemma time_sub_id t u : in_int64 (t - u) -> time_sub t u = (t - u)%Z.
Proof. unfold time_sub, in_int64. lia. Qed.

(** ** IEEE 754 binary64, by the executable specification *)

Module F64.
Definition t := spec_float.
Definition prec : Z := 53.
Definition emax : Z := 1024.
Definition of_Z (z : Z) : t := binary_normalize prec emax z 0 false.
Definition add : t -> t -> t := SFadd prec emax.
Definition mul : t -> t -> t := SFmul prec emax.
Definition div : t -> t -> t := SFdiv prec emax.
Definition leb : t -> t -> bool := SFleb.
Definition ltb : t -> t -> bool := SFltb.
Definition zero : t := S754_zero false.
(** [time.Duration.Seconds]: whole seconds plus the sub-second rest. *)
Definition of_duration_seconds (d : Z) : t :=
  add (of_Z (Z.quot d Second)) (div (of_Z (Z.rem d Second)) (of_Z 1000000000)).
End F64.

(** ** Strings *)

Definition is_empty (s : string) : bool := bool_decide (s = "").

Lemma is_empty_spec s : is_empty s = true <-> s = "".
Proof. unfold is_empty. apply bool_decide_eq_true. Qed.

Lemma is_empty_false s : s <> "" -> is_empty s = false.
Proof. unfold is_empty. apply bool_decide_eq_false_2. Qed.

(** [sort.Strings]: Go orders strings bytewise. *)
Definition sort_strings (l : list string) : list string := merge_sort String.le l.

Lemma sort_strings_perm l : sort_strings l ≡ₚ l.
Proof. apply merge_sort_Permutation. Qed.

Lemma sort_strings_sorted l : StronglySorted String.le (sort_strings l).
Proof. apply StronglySorted_merge_sort; apply _. Qed.

Lemma sort_strings_length l : length (sort_strings l) = length l.
Proof. by rewrite sort_strings_perm. Qed.

(** The result of [sort.Strings] does not depend on the input order. *)
Lemma sort_strings_proper l1 l2 : l1 ≡ₚ l2 -> sort_strings l1 = sort_strings l2.
Proof.
  intros Hp. apply (StronglySorted_unique String.le); try apply sort_strings_sorted.
  by rewrite !sort_strings_perm.
Qed.

Lemma StronglySorted_snoc {A} (R : A -> A -> Prop) l x :
  StronglySorted R l -> Forall (fun y => R y x) l -> StronglySorted R (l ++ [x]).
Proof.
  induction 1 as [|y l Hs IH Hy]; intros Hx; [repeat constructor|]. apply Forall_cons in Hx as [? ?].
  cbn. constructor; [by apply IH|]. apply Forall_app. split; [done|]. by constructor.
Qed.

Lemma append_assoc3 (a b c : string) : (a +:+ b) +:+ c = a +:+ (b +:+ c).
Proof.
  induction a as [|x a IH]; [done|].
  change (String x ((a +:+ b) +:+ c) = String x (a +:+ (b +:+ c))). by rewrite IH.
Qed.

Lemma append_cancel (p a b : string) : p +:+ a = p +:+ b -> a = b.
Proof.
  induction p as [|x p IH]; [done|].
  change (String x (p +:+ a) = String x (p +:+ b) -> a = b). intros [= E]. by apply IH.
Qed.

Lemma append_length (a b : string) : String.length (a +:+ b) = String.length a + String.length b.
Proof.
  induction a as [|x a IH]; [done|].
  change (S (String.length (a +:+ b)) = S (String.length a + String.length b)). by rewrite IH.
Qed.

Lemma append_cancel_r (p a b : string) : a +:+ p = b +:+ p -> a = b.
Proof.
  revert b. induction a as [|x a IH]; intros b E.
  - destruct b as [|y b]; [done|]. apply (f_equal String.length) in E.
    rewrite !append_length in E. simpl in E. lia.
  - destruct b as [|y b].
    + apply (f_equal String.length) in E. rewrite !append_length in E. simpl in E. lia.
    + change (String x (a +:+ p) = String y (b +:+ p)) in E. injection E as -> E.
      f_equal. by apply IH.
Qed.

(** [strings.CutPrefix]: the rest of [s] after [p]. *)
Fixpoint cut_prefix (p s : string) : option string :=
  match p, s with
  | EmptyString, _ => Some s
  | String a p, String b s => if Ascii.eqb a b then cut_prefix p s else None
  | _, _ => None
  end.

Definition has_prefix (s p : string) : bool := bool_decide (is_Some (cut_prefix p s)).

(** [strings.Cut]: the text before and after the first occurrence of [sep];
    with it, [strings.Index] is the length of the first part. *)
Fixpoint cut (sep s : string) : option (string * string) :=
  match cut_prefix sep s with
  | Some r => Some ("", r)
  | None => match s with
            | EmptyString => None
            | String c s => match cut sep s with
                            | Some (b, a) => Some (String c b, a)
                            | None => None
                            end
            end
  end.

Lemma append_cons x (a b : string) : String x a +:+ b = String x (a +:+ b).
Proof. reflexivity. Qed.

Lemma append_nil_l (b : string) : "" +:+ b = b.
Proof. reflexivity. Qed.

Lemma cut_prefix_Some p s r : cut_prefix p s = Some r <-> s = p +:+ r.
Proof.
  revert s. induction p as [|a p IH]; intros s.
  - rewrite append_nil_l. simpl. split; [by intros [= ->] | by intros ->].
  - rewrite append_cons. destruct s as [|b s]; simpl; [by split|].
    destruct (Ascii.eqb_spec a b) as [->|Hne].
    + rewrite IH. split; [by intros -> | by intros [= ->]].
    + split; [done|]. by intros [= -> _].
Qed.

Lemma has_prefix_spec s p : has_prefix s p = true <-> exists r, s = p +:+ r.
Proof.
  unfold has_prefix. rewrite bool_decide_eq_true. unfold is_Some.
  split; intros [r Hr]; exists r; by apply cut_prefix_Some.
Qed.

Lemma cut_sound sep s b a : cut sep s = Some (b, a) -> s = b +:+ sep +:+ a.
Proof.
  revert b a. induction s as [|c s IH]; intros b a; simpl.
  - destruct (cut_prefix sep "") as [r|] eqn:E; [|done].
    intros [= <- <-]. by apply cut_prefix_Some in E.
  - destruct (cut_prefix sep (String c s)) as [r|] eqn:E.
    + intros [= <- <-]. by apply cut_prefix_Some in E.
    + destruct (cut sep s) as [[b' a']|] eqn:E'; [|done].
      intros [= <- <-]. rewrite append_cons. f_equal. by apply IH.
Qed.

(** Does [s] contain the character [c]? *)
Fixpoint has_char (c : Ascii.ascii) (s : string) : bool :=
  match s with
  | EmptyString => false
  | String d s => Ascii.eqb c d || has_char c s
  end.

(** A separator whose first character does not occur in [b] is found right
    after [b]. *)
Lemma cut_first c sep b a :
  has_char c b = false -> cut (String c sep) (b +:+ String c sep +:+ a) = Some (b, a).
Proof.
  induction b as [|d b IH].
  - intros _. rewrite append_nil_l.
    destruct (String c sep +:+ a) as [|x l] eqn:E; [done|].
    assert (cut_prefix (String c sep) (String x l) = Some a) as Hc by (by apply cut_prefix_Some).
    simpl in *. by rewrite Hc.
  - intros [Hd Hb]%orb_false_iff. rewrite append_cons. simpl. rewrite Hd.
    by rewrite IH.
Qed.

Lemma slash_split (a b x y : string) : has_char "/" a = false -> has_char "/" b = false ->
  a +:+ "/" +:+ x = b +:+ "/" +:+ y -> a = b /\ x = y.
Proof.
  intros Ha Hb E. pose proof (cut_first "/" "" a x Ha) as Ca. pose proof (cut_first "/" "" b y Hb) as Cb.
  rewrite E, Cb in Ca. by injection Ca as -> ->.
Qed.

Lemma Forall_snoc_1 {A} (P : A -> Prop) l x : Forall P (l ++ [x]) -> Forall P l /\ P x.
Proof. intros [? H]%Forall_app. split; [done|]. by inversion H. Qed.

(** ** Booleans *)

Ltac bdestruct_all :=
  repeat match goal with
         | |- context [bool_decide ?P] => destruct (bool_decide_reflect P)
         | H : context [bool_decide ?P] |- _ => destruct (bool_decide_reflect P)
         end.

(** [simplify_bool] turns boolean guards of the code into propositions. *)
Ltac simplify_bool :=
  repeat match goal with
         | H : _ && _ = true |- _ => apply andb_true_iff in H as [? ?]
         | H : _ || _ = false |- _ => apply orb_false_iff in H as [? ?]
         | H : _ || _ = true |- _ => apply orb_true_iff in H
         | H : _ && _ = false |- _ => apply andb_false_iff in H
         | H : negb _ = true |- _ => apply negb_true_iff in H
         | H : negb _ = false |- _ => apply negb_false_iff in H
         | H : bool_decide _ = true |- _ => apply bool_decide_eq_true in H
         | H : bool_decide _ = false |- _ => apply bool_decide_eq_false in H
         | H : (_ <=? _)%Z = true |- _ => apply Z.leb_le in H
         | H : (_ <=? _)%Z = false |- _ => apply Z.leb_gt in H
         | H : (_ <? _)%Z = true |- _ => apply Z.ltb_lt in H
         | H : (_ <? _)%Z = false |- _ => apply Z.ltb_ge in H
         | H : (_ =? _)%Z = true |- _ => apply Z.eqb_eq in H
         | H : (_ =? _)%Z = false |- _ => apply Z.eqb_neq in H
         end.

Create HintDb lenny.
#[export] Hint Resolve wrap64_range wrap_u64_range sort_strings_perm sort_strings_sorted : lenny.
