(* ===== verification/Floats.v ===== *)
(** * Facts about binary64

    What the code relies on when it compares ratios of integers that binary64
    represents: a quotient reaches one exactly when the dividend reaches the
    divisor, and four fifths of an amount do not exceed it. *)

From Stdlib Require Import ZArith Lia SpecFloat.
From S2P Require Import Prelude.

Local Open Scope Z_scope.

Definition exact_max : Z := 2 ^ 53.

(** The value one, and the constant [0.80]. *)
Definition one : F64.t := S754_finite false 4503599627370496 (-52).
Definition four_fifths : F64.t := S754_finite false 7205759403792794 (-53).

(** A float's integer part, Go's conversion to [int] of a value in range. *)
Definition float_trunc (f : spec_float) : Z :=
  match f with
  | S754_finite sgn m ex =>
      let a := if (0 <=? ex)%Z then (Zpos m * 2 ^ ex)%Z else (Zpos m / 2 ^ (- ex))%Z in
      if sgn then (- a)%Z else a
  | _ => 0%Z
  end.

(** ** Digits and shifts *)

Lemma digits2_pos_spec m : 2 ^ (Z.pos (digits2_pos m) - 1) <= Z.pos m < 2 ^ Z.pos (digits2_pos m).
Proof.
  induction m as [m IH|m IH|]; cbn [digits2_pos]; [| |lia].
  all: rewrite Pos2Z.inj_succ; replace (Z.succ (Z.pos (digits2_pos m)) - 1) with (Z.pos (digits2_pos m)) by lia;
    rewrite Z.pow_succ_r by lia; replace (Z.pos (digits2_pos m)) with (Z.succ (Z.pos (digits2_pos m) - 1)) at 1 by lia;
    rewrite Z.pow_succ_r by lia; lia.
Qed.

Lemma Zdigits2_unique m d : 0 < d -> 2 ^ (d - 1) <= m < 2 ^ d -> Zdigits2 m = d.
Proof.
  intros Hd Hm. assert (0 < 2 ^ (d - 1)) by (apply Z.pow_pos_nonneg; lia).
  destruct m as [|m|m]; [lia| |lia]. cbn. pose proof (digits2_pos_spec m) as Hs.
  destruct (Z.lt_trichotomy (Z.pos (digits2_pos m)) d) as [H1|[H1|H1]]; [|done|].
  - pose proof (Z.pow_le_mono_r 2 (Z.pos (digits2_pos m)) (d - 1)). lia.
  - pose proof (Z.pow_le_mono_r 2 d (Z.pos (digits2_pos m) - 1)). lia.
Qed.

Lemma shr_1_m mrs : 0 <= shr_m mrs -> shr_m (shr_1 mrs) = shr_m mrs / 2.
Proof.
  destruct mrs as [[|[p|p|]|p] r s]; cbn; try done; intros _.
  - rewrite (Pos2Z.inj_xI p). apply (Z.div_unique _ _ _ 1); lia.
  - rewrite (Pos2Z.inj_xO p). apply (Z.div_unique _ _ _ 0); lia.
Qed.

Lemma iter_shr p mrs : 0 <= shr_m mrs -> shr_m (SpecFloat.iter_pos shr_1 p mrs) = shr_m mrs / 2 ^ Z.pos p.
Proof.
  revert mrs. induction p as [p IH|p IH|]; intros mrs Hm; cbn [SpecFloat.iter_pos].
  - assert (0 <= shr_m (shr_1 mrs)) by (rewrite shr_1_m by done; apply Z.div_pos; lia).
    rewrite IH by (rewrite IH by done; apply Z.div_pos; [done|apply Z.pow_pos_nonneg; lia]).
    rewrite IH, shr_1_m, !Z.div_div by (done || lia || (apply Z.pow_pos_nonneg; lia)).
    rewrite <- Z.pow_add_r, <- (Z.pow_succ_r 2) by lia. f_equal. f_equal. lia.
  - rewrite IH by (rewrite IH by done; apply Z.div_pos; [done|apply Z.pow_pos_nonneg; lia]).
    rewrite IH, Z.div_div by (done || lia || (apply Z.pow_pos_nonneg; lia)).
    rewrite <- Z.pow_add_r by lia. f_equal. f_equal. lia.
  - by rewrite shr_1_m.
Qed.

Lemma shr_spec m l e n : 0 <= m -> 0 <= n ->
  shr_m (shr (shr_record_of_loc m l) e n).1 = m / 2 ^ n /\ (shr (shr_record_of_loc m l) e n).2 = e + n /\
  (n = 0 -> loc_of_shr_record (shr (shr_record_of_loc m l) e n).1 = l).
Proof.
  intros Hm Hn. assert (shr_m (shr_record_of_loc m l) = m) as Em by (by destruct l as [|[]]).
  destruct n as [|n|n]; [| |lia]; unfold shr; cbn [fst snd].
  - rewrite Em, Z.div_1_r. split_and!; [done|lia|]. intros _. by destruct l as [|[]].
  - rewrite iter_shr, Em by (by rewrite Em). split_and!; [done..|lia].
Qed.

Lemma round_even_cases m l : round_nearest_even m l = m \/ round_nearest_even m l = m + 1.
Proof. destruct l as [|[]]; cbn; auto. destruct (Z.even m); auto. Qed.

(** ** Rounding a mantissa of at least 53 digits *)

Definition fin (m e : Z) : F64.t := S754_finite false (Z.to_pos m) e.

(** A mantissa after rounding, renormalised when it reached 2^53. *)
Definition carried (r e : Z) : F64.t := if r <? exact_max then fin r e else fin (2 ^ 52) (e + 1).

Lemma fexp_normal d e : -1074 <= d + e - 53 -> fexp F64.prec F64.emax (d + e) = d + e - 53.
Proof. intros H. unfold fexp, F64.prec, F64.emax, emin. lia. Qed.

Lemma carried_step r e : 2 ^ 52 <= r <= exact_max -> -1074 <= e <= 970 ->
  (let '(mrs, e') := shr_fexp F64.prec F64.emax r e loc_Exact in
   match shr_m mrs with
   | Z0 => S754_zero false
   | Zpos m => if e' <=? F64.emax - F64.prec then S754_finite false m e' else S754_infinity false
   | _ => S754_nan
   end) = carried r e.
Proof.
  intros Hr He. unfold carried, shr_fexp, exact_max in *. destruct (Z.ltb_spec r (2 ^ 53)) as [Hlt|Hge].
  - rewrite (Zdigits2_unique r 53), fexp_normal by lia. replace (53 + e - 53 - e) with 0 by lia. cbn [shr].
    destruct r as [|r|r]; [lia| |lia]. cbn [shr_record_of_loc shr_m].
    rewrite (proj2 (Z.leb_le _ _)) by (unfold F64.emax, F64.prec; lia). done.
  - assert (r = 2 ^ 53) as -> by lia. rewrite (Zdigits2_unique (2 ^ 53) 54), fexp_normal by lia.
    replace (54 + e - 53 - e) with 1 by lia. cbn [shr Z.pow]. vm_compute (SpecFloat.iter_pos _ _ _).
    cbn [shr_m]. rewrite (proj2 (Z.leb_le _ _)) by (unfold F64.emax, F64.prec; lia). done.
Qed.

Lemma round_aux m e l d : 53 <= d -> 2 ^ (d - 1) <= m < 2 ^ d -> -1074 <= e + (d - 53) <= 970 ->
  exists r, m / 2 ^ (d - 53) <= r <= m / 2 ^ (d - 53) + 1 /\ (d = 53 -> l = loc_Exact -> r = m) /\
    binary_round_aux F64.prec F64.emax false m e l = carried r (e + (d - 53)).
Proof.
  intros Hd Hm He. assert (0 <= m) by (pose proof (Z.pow_nonneg 2 (d - 1)); lia).
  destruct (shr_spec m l e (d - 53)) as (E1 & E2 & E3); [done|lia|].
  unfold binary_round_aux, shr_fexp at 1. rewrite (Zdigits2_unique m d), fexp_normal by lia.
  replace (d + e - 53 - e) with (d - 53) by lia.
  destruct (shr (shr_record_of_loc m l) e (d - 53)) as [mrs e'] eqn:Es. cbn [fst snd] in *. rewrite E1, E2.
  assert (2 ^ 52 <= m / 2 ^ (d - 53) < exact_max) as Hb.
  { assert (0 < 2 ^ (d - 53)) by (apply Z.pow_pos_nonneg; lia). split.
    - apply Z.div_le_lower_bound; [done|]. rewrite <- Z.pow_add_r by lia. replace (d - 53 + 52) with (d - 1) by lia. lia.
    - apply Z.div_lt_upper_bound; [done|]. unfold exact_max. rewrite <- Z.pow_add_r by lia. replace (d - 53 + 53) with d by lia. lia. }
  set (r := round_nearest_even (m / 2 ^ (d - 53)) (loc_of_shr_record mrs)).
  exists r. assert (r = m / 2 ^ (d - 53) \/ r = m / 2 ^ (d - 53) + 1) as Hr by apply round_even_cases.
  split; [lia|]. split.
  - intros -> ->. subst r. rewrite E3 by lia. cbn. by rewrite Z.div_1_r.
  - apply carried_step; lia.
Qed.

Lemma iter_xO z k : Z.pos (Pos.iter xO z k) = Z.pos z * 2 ^ Z.pos k.
Proof.
  induction k as [|k IH] using Pos.peano_ind; [cbn; lia|].
  rewrite Pos.iter_succ, Pos2Z.inj_xO, IH, Pos2Z.inj_succ, Z.pow_succ_r by lia. lia.
Qed.

Lemma scaled_range z d : 0 < d <= 53 -> 2 ^ (d - 1) <= z < 2 ^ d -> 2 ^ 52 <= z * 2 ^ (53 - d) < 2 ^ 53.
Proof.
  intros Hd Hz. assert (2 ^ 52 = 2 ^ (d - 1) * 2 ^ (53 - d)) as -> by (rewrite <- Z.pow_add_r by lia; f_equal; lia).
  assert (2 ^ 53 = 2 ^ d * 2 ^ (53 - d)) as -> by (rewrite <- Z.pow_add_r by lia; f_equal; lia).
  assert (0 < 2 ^ (53 - d)) by (apply Z.pow_pos_nonneg; lia).
  split; [apply Z.mul_le_mono_nonneg_r; lia|apply Z.mul_lt_mono_pos_r; lia].
Qed.

(** Integers below 2^53 are exact: the mantissa is the number, shifted. *)
Lemma of_Z_exact z d : 0 < d <= 53 -> 2 ^ (d - 1) <= z < 2 ^ d -> F64.of_Z z = fin (z * 2 ^ (53 - d)) (d - 53).
Proof.
  intros Hd Hz. assert (0 < 2 ^ (d - 1)) by (apply Z.pow_pos_nonneg; lia).
  destruct z as [|z|z]; [lia| |lia]. unfold F64.of_Z, binary_normalize, binary_round.
  assert (Z.pos (digits2_pos z) = d) as Ed by (exact (Zdigits2_unique (Z.pos z) d ltac:(lia) Hz)).
  rewrite Ed, fexp_normal by lia. unfold shl_align. replace (d + 0 - 53 - 0) with (d - 53) by lia.
  assert (exists p, Z.pos p = Z.pos z * 2 ^ (53 - d) /\
    match d - 53 with Zneg k => (Pos.iter xO z k, d + 0 - 53) | _ => (z, 0) end = (p, d - 53)) as (p & Ep & ->).
  { destruct (d - 53) as [|k|k] eqn:Ek; [|lia|].
    - exists z. replace (53 - d) with 0 by lia. split; [lia|done].
    - exists (Pos.iter xO z k). replace (53 - d) with (Z.pos k) by lia. split; [|f_equal; lia].
      apply iter_xO. }
  assert (2 ^ 52 <= Z.pos p < 2 ^ 53) as Hp by (rewrite Ep; by apply scaled_range).
  destruct (round_aux (Z.pos p) (d - 53) loc_Exact 53) as (r & _ & Er & ->); [lia|exact Hp|lia|].
  rewrite Er by done. unfold carried, exact_max. rewrite (proj2 (Z.ltb_lt _ _)) by lia.
  replace (d - 53 + (53 - 53)) with (d - 53) by lia. by rewrite Ep.
Qed.

Lemma digits_exist z : 0 < z < exact_max -> exists d, 0 < d <= 53 /\ 2 ^ (d - 1) <= z < 2 ^ d.
Proof.
  intros Hz. destruct z as [|z|z]; [lia| |lia]. exists (Z.pos (digits2_pos z)).
  pose proof (digits2_pos_spec z) as Hs. split; [|done]. split; [lia|].
  destruct (Z.le_gt_cases (Z.pos (digits2_pos z)) 53) as [|Hgt]; [done|]. unfold exact_max in Hz.
  pose proof (Z.pow_le_mono_r 2 53 (Z.pos (digits2_pos z) - 1)). lia.
Qed.

(** ** Comparing *)

Lemma leb_fin m1 e1 m2 e2 : 0 < m1 -> 0 < m2 ->
  F64.leb (fin m1 e1) (fin m2 e2) = (e1 <? e2) || ((e1 =? e2) && (m1 <=? m2)).
Proof.
  intros H1 H2. unfold F64.leb, SFleb, fin, SFcompare.
  destruct (Z.compare_spec e1 e2) as [->|Hlt|Hgt].
  - rewrite Z.ltb_irrefl, Z.eqb_refl. cbn [orb andb].
    change (Pos.compare_cont Eq (Z.to_pos m1) (Z.to_pos m2)) with (Pos.compare (Z.to_pos m1) (Z.to_pos m2)).
    rewrite <- Z2Pos.inj_compare by done. unfold Z.leb. by destruct (m1 ?= m2).
  - by rewrite (proj2 (Z.ltb_lt _ _) Hlt).
  - rewrite (proj2 (Z.ltb_ge _ _)) by lia. rewrite (proj2 (Z.eqb_neq _ _)) by lia. done.
Qed.

(** ** The two comparisons *)

(** The integer mantissa and remainder of a quotient of two normal numbers. *)
Lemma div_fin m1 e1 m2 e2 : 2 ^ 52 <= m1 < 2 ^ 53 -> 2 ^ 52 <= m2 < 2 ^ 53 -> -52 <= e1 <= 0 -> -52 <= e2 <= 0 ->
  exists l, F64.div (fin m1 e1) (fin m2 e2) =
    binary_round_aux F64.prec F64.emax false (m1 * 2 ^ 53 / m2) (e1 - e2 - 53) l.
Proof.
  intros H1 H2 He1 He2. unfold F64.div, fin, SFdiv. rewrite !Z2Pos.id by lia.
  unfold SFdiv_core_binary. rewrite (Zdigits2_unique m1 53), (Zdigits2_unique m2 53) by lia.
  replace (53 + e1 - (53 + e2)) with (e1 - e2 + 0) by lia. rewrite fexp_normal by lia.
  replace (Z.min (e1 - e2 + 0 - 53) (e1 - e2)) with (e1 - e2 - 53) by lia.
  replace (e1 - e2 - (e1 - e2 - 53)) with 53 by lia. rewrite Z.shiftl_mul_pow2 by lia.
  unfold Z.div. destruct (Z.div_eucl (m1 * 2 ^ 53) m2) as [q r]. by eexists.
Qed.

(** The quotient of two integers, as its rounded mantissa and exponent. *)
Lemma quotient_rounded a b : 0 < a < exact_max -> 0 < b < exact_max ->
  exists da db q n r, 0 < da <= 53 /\ 0 < db <= 53 /\ 2 ^ (da - 1) <= a < 2 ^ da /\ 2 ^ (db - 1) <= b < 2 ^ db /\
    q = a * 2 ^ (53 - da) * 2 ^ 53 / (b * 2 ^ (53 - db)) /\ (n = 0 \/ n = 1) /\ 2 ^ (52 + n) <= q < 2 ^ (53 + n) /\
    q / 2 ^ n <= r <= q / 2 ^ n + 1 /\
    F64.div (F64.of_Z a) (F64.of_Z b) = carried r (da - db - 53 + n).
Proof.
  intros Ha Hb. destruct (digits_exist a Ha) as (da & Hda & Ra), (digits_exist b Hb) as (db & Hdb & Rb).
  rewrite (of_Z_exact a da), (of_Z_exact b db) by done.
  pose proof (scaled_range a da Hda Ra) as Ma. pose proof (scaled_range b db Hdb Rb) as Mb.
  destruct (div_fin (a * 2 ^ (53 - da)) (da - 53) (b * 2 ^ (53 - db)) (db - 53)) as (l & ->); [done|done|lia|lia|].
  set (m1 := a * 2 ^ (53 - da)) in *. set (m2 := b * 2 ^ (53 - db)) in *.
  assert (2 ^ 52 <= m1 * 2 ^ 53 / m2 < 2 ^ 54) as Hq.
  { split; [apply Z.div_le_lower_bound; lia|apply Z.div_lt_upper_bound; lia]. }
  assert (exists n, (n = 0 \/ n = 1) /\ 2 ^ (52 + n) <= m1 * 2 ^ 53 / m2 < 2 ^ (53 + n)) as (n & Hn01 & Hqn).
  { destruct (Z.lt_ge_cases (m1 * 2 ^ 53 / m2) (2 ^ 53)); [exists 0|exists 1]; split; auto; lia. }
  destruct (round_aux (m1 * 2 ^ 53 / m2) (da - 53 - (db - 53) - 53) l (53 + n)) as (r & Hr & _ & ->); [lia| |lia|].
  { replace (53 + n - 1) with (52 + n) by lia. exact Hqn. }
  replace (53 + n - 53) with n in * by lia. exists da, db, (m1 * 2 ^ 53 / m2), n, r. split_and!; try done; try lia.
  f_equal. lia.
Qed.

Lemma digits_mono a b da db : 2 ^ (da - 1) <= a -> b < 2 ^ db -> a <= b -> 0 < da -> 0 < db -> da <= db.
Proof.
  intros Ha Hb Hab Hda Hdb. destruct (Z.le_gt_cases da db); [done|].
  pose proof (Z.pow_le_mono_r 2 db (da - 1)). lia.
Qed.

Lemma carried_ge_one r e : 2 ^ 52 <= r <= exact_max ->
  F64.leb one (carried r e) = (-52 <=? e) || ((-53 =? e) && (r =? exact_max)).
Proof.
  intros Hr. unfold carried. change one with (fin (2 ^ 52) (-52)).
  destruct (Z.ltb_spec r exact_max); rewrite leb_fin by lia.
  - rewrite (proj2 (Z.eqb_neq r _)), andb_false_r, orb_false_r by lia. rewrite (proj2 (Z.leb_le (2 ^ 52) r)), andb_true_r by lia.
    destruct (Z.ltb_spec (-52) e), (Z.eqb_spec (-52) e), (Z.leb_spec (-52) e); try done; lia.
  - rewrite (proj2 (Z.eqb_eq r _)), andb_true_r by lia. change (2 ^ 52 <=? 2 ^ 52) with true. rewrite andb_true_r.
    destruct (Z.ltb_spec (-52) (e + 1)), (Z.eqb_spec (-52) (e + 1)), (Z.leb_spec (-52) e), (Z.eqb_spec (-53) e); try done; lia.
Qed.

(** The ratio of two integers below 2^53 reaches one exactly when the first
    reaches the second: rounding neither hides nor invents the crossing. *)
Theorem ratio_reaches_one a b : 0 <= a < exact_max -> 0 < b < exact_max ->
  F64.leb one (F64.div (F64.of_Z a) (F64.of_Z b)) = (b <=? a).
Proof.
  intros Ha Hb. destruct (Z.eq_dec a 0) as [->|Hz].
  { destruct (digits_exist b Hb) as (db & Hdb & Rb). rewrite (of_Z_exact b db) by done. cbn. symmetry. apply Z.leb_gt. lia. }
  destruct (quotient_rounded a b) as (da & db & q & n & r & Hda & Hdb & Ra & Rb & Eq & Hn & Hq & Hr & ->); [lia|done|].
  assert (2 ^ 52 <= q / 2 ^ n /\ q / 2 ^ n < exact_max) as [Hlo Hhi].
  { destruct Hn as [-> | ->]; unfold exact_max.
    - change (2 ^ 0) with 1. change (52 + 0) with 52 in Hq. change (53 + 0) with 53 in Hq. rewrite Z.div_1_r. lia.
    - change (2 ^ 1) with 2. change (52 + 1) with 53 in Hq. change (53 + 1) with 54 in Hq.
      pose proof (Z.div_mod q 2). pose proof (Z.mod_pos_bound q 2). lia. }
  rewrite carried_ge_one by lia. assert (0 < 2 ^ (53 - db)) by (apply Z.pow_pos_nonneg; lia).
  destruct (Z.leb_spec b a) as [Hba|Hab].
  - pose proof (digits_mono b a db da ltac:(lia) ltac:(lia) Hba ltac:(lia) ltac:(lia)).
    apply orb_true_iff. left. apply Z.leb_le. destruct (Z.eq_dec da db) as [->|]; [|lia].
    enough (2 ^ 53 <= q) by (destruct Hn as [-> | ->]; [change (53 + 0) with 53 in Hq|]; lia). subst q. apply Z.div_le_lower_bound; nia.
  - pose proof (digits_mono a b da db ltac:(lia) ltac:(lia) ltac:(lia) ltac:(lia) ltac:(lia)).
    apply orb_false_iff. destruct (Z.eq_dec da db) as [->|Hne].
    + assert (q < 2 ^ 53 - 1) as Hq1.
      { subst q. apply Z.div_lt_upper_bound; [nia|]. unfold exact_max in *. nia. }
      assert (n = 0) as -> by (destruct Hn as [| ->]; [done|change (52 + 1) with 53 in Hq; lia]).
      change (2 ^ 0) with 1 in *. rewrite Z.div_1_r in *.
      split; [apply Z.leb_gt; lia|]. apply andb_false_iff. right. apply Z.eqb_neq. unfold exact_max. lia.
    + split; [apply Z.leb_gt; lia|]. apply andb_false_iff. destruct (Z.eq_dec da (db - 1)) as [->|]; [|left; apply Z.eqb_neq; lia].
      destruct Hn as [->| ->]; [left; apply Z.eqb_neq; lia|right]. apply Z.eqb_neq.
      assert (q < 2 ^ 54 - 2) as Hq1.
      { subst q. apply Z.div_lt_upper_bound; [nia|]. replace (53 - (db - 1)) with (1 + (53 - db)) by lia.
        rewrite Z.pow_add_r by lia. unfold exact_max in *. nia. }
      change (2 ^ 1) with 2 in *. unfold exact_max. pose proof (Z.div_mod q 2). pose proof (Z.mod_pos_bound q 2). lia.
Qed.

(** Four fifths of an amount do not exceed it, nor anything above it. *)
Theorem four_fifths_below s c : 0 < s <= c -> c < exact_max ->
  F64.leb (F64.mul four_fifths (F64.of_Z s)) (F64.of_Z c) = true.
Proof.
  intros Hs Hc. destruct (digits_exist s) as (d & Hd & Rs); [lia|]. destruct (digits_exist c) as (dc & Hdc & Rc); [lia|].
  rewrite (of_Z_exact s d), (of_Z_exact c dc) by done.
  pose proof (scaled_range s d Hd Rs) as Ms. pose proof (scaled_range c dc Hdc Rc) as Mc.
  pose proof (digits_mono s c d dc ltac:(lia) ltac:(lia) ltac:(lia) ltac:(lia) ltac:(lia)) as Hdd.
  assert (d = dc -> s * 2 ^ (53 - d) <= c * 2 ^ (53 - dc)) as Hm.
  { intros ->. apply Z.mul_le_mono_nonneg_r; [apply Z.pow_nonneg|]; lia. }
  set (m := s * 2 ^ (53 - d)) in *. set (mc := c * 2 ^ (53 - dc)) in *.
  unfold F64.mul, four_fifths, fin at 1, SFmul. cbn [xorb]. rewrite Pos2Z.inj_mul, Z2Pos.id by lia.
  set (p := Z.pos 7205759403792794 * m).
  assert (exists D, (D = 105 \/ D = 106) /\ 2 ^ (D - 1) <= p < 2 ^ D) as (D & HD & Hp).
  { subst p. destruct (Z.lt_ge_cases (Z.pos 7205759403792794 * m) (2 ^ 105)); [exists 105|exists 106]; split; auto; lia. }
  destruct (round_aux p (-53 + (d - 53)) loc_Exact D) as (r & Hr & _ & ->); [lia|done|lia|].
  assert (p / 2 ^ (D - 53) < exact_max) as Hhi.
  { apply Z.div_lt_upper_bound; [apply Z.pow_pos_nonneg; lia|]. unfold exact_max. rewrite <- Z.pow_add_r by lia.
    replace (D - 53 + 53) with D by lia. lia. }
  assert (2 ^ 52 <= p / 2 ^ (D - 53)) as Hlo.
  { apply Z.div_le_lower_bound; [apply Z.pow_pos_nonneg; lia|]. rewrite <- Z.pow_add_r by lia.
    replace (D - 53 + 52) with (D - 1) by lia. lia. }
  destruct HD as [-> | ->].
  - unfold carried. destruct (Z.ltb_spec r exact_max); rewrite leb_fin by lia; apply orb_true_iff.
    + left. apply Z.ltb_lt. lia.
    + destruct (Z.eq_dec d dc) as [->|]; [right|left; apply Z.ltb_lt; lia].
      apply andb_true_iff. rewrite Z.eqb_eq, Z.leb_le. lia.
  - change (106 - 53) with 53 in *. assert (r <= m) as Hrm.
    { enough (p / 2 ^ 53 < m) by lia. apply Z.div_lt_upper_bound; [lia|]. subst p. lia. }
    unfold carried. rewrite (proj2 (Z.ltb_lt r exact_max)) by (unfold exact_max in *; lia).
    rewrite leb_fin by lia. apply orb_true_iff. destruct (Z.eq_dec d dc) as [->|]; [right|left; apply Z.ltb_lt; lia].
    apply andb_true_iff. rewrite Z.eqb_eq, Z.leb_le. lia.
Qed.
