(* ===== verification/StateMachine.v ===== *)
(** * Transition tables

    Four packages declare their lifecycle the same way: a string-typed state
    enum, a list [ValidTransitions] that is the authoritative edge contract, a
    [validSet] map built from it at start-up, and [IsValid], which looks an
    edge up in that map.  They are [pkg/session/state], [pkg/sandbox/state],
    [pkg/sandbox/slotstate] and [pkg/runtime/upgrade/state].

    [TransitionTable] is the interface: the enum and the edge list.  The
    section derives [validSet] and [IsValid] once, the step relation of the
    machine, and an executable reachability test with its soundness lemma. *)

From S2P Require Import Prelude.
From stdpp Require Import relations.

(** Go's state types are strings: a value outside the declared constants is
    representable, and so is the empty string. *)
Abbreviation State := string.

Record Transition := mkTransition { From : State; To : State }.

#[export] Instance Transition_eq_dec : EqDecision Transition.
Proof. solve_decision. Defined.

#[export] Program Instance Transition_countable : Countable Transition :=
  inj_countable' (fun t => (From t, To t)) (fun p => mkTransition p.1 p.2) _.
Next Obligation. by intros []. Qed.

(** What a state package declares. *)
Class TransitionTable := {
  all_states : list State;
  valid_transitions : list Transition;
  endpoints_known :
    Forall (fun t => From t ∈ all_states /\ To t ∈ all_states) valid_transitions
}.

Record InvalidTransitionError := mkInvalid { err_from : State; err_to : State }.

Section Table.
Context (T : TransitionTable).

Definition validSet : gset Transition := list_to_set valid_transitions.

Definition IsValid (from to : State) : result InvalidTransitionError unit :=
  if bool_decide (mkTransition from to ∈ validSet) then Ok tt
  else Err (mkInvalid from to).

Lemma IsValid_Ok from to :
  IsValid from to = Ok tt <-> mkTransition from to ∈ valid_transitions.
Proof.
  unfold IsValid, validSet. rewrite <- (elem_of_list_to_set (C := gset Transition)).
  by case_bool_decide.
Qed.

Lemma IsValid_Err from to e :
  IsValid from to = Err e <->
  mkTransition from to ∉ valid_transitions /\ e = mkInvalid from to.
Proof.
  unfold IsValid, validSet. rewrite <- (elem_of_list_to_set (C := gset Transition)).
  case_bool_decide; naive_solver.
Qed.

(** One legal move of the machine. *)
Inductive step : State -> State -> Prop :=
| step_edge from to : IsValid from to = Ok tt -> step from to.

Lemma step_iff from to : step from to <-> mkTransition from to ∈ valid_transitions.
Proof. rewrite <- IsValid_Ok. split; [by destruct 1 | by constructor]. Qed.

Lemma step_known from to : step from to -> from ∈ all_states /\ to ∈ all_states.
Proof.
  rewrite step_iff. intros Hin.
  pose proof endpoints_known as Hk. rewrite Forall_forall in Hk.
  exact (Hk _ Hin).
Qed.

(** The states one step away, and [n] rounds of closure. *)
Definition successors (s : State) : list State :=
  To <$> filter (fun t => From t = s) valid_transitions.

Fixpoint reach (n : nat) (s : State) : list State :=
  match n with
  | O => [s]
  | S n => let r := reach n s in remove_dups (r ++ (r ≫= successors))
  end.

Lemma successors_step s s' : s' ∈ successors s <-> step s s'.
Proof.
  unfold successors. rewrite step_iff, list_elem_of_fmap. split.
  - intros (t & -> & [<- Hin]%list_elem_of_filter). by destruct t.
  - intros Hin. exists (mkTransition s s'). by rewrite list_elem_of_filter.
Qed.

Lemma reach_sound n s s' : s' ∈ reach n s -> rtc step s s'.
Proof.
  revert s'. induction n as [|n IH]; intros s'; simpl.
  - intros ->%list_elem_of_singleton. reflexivity.
  - rewrite elem_of_remove_dups, elem_of_app, list_elem_of_bind.
    intros [Hin|(m & Hm & Hin)]; [by apply IH|].
    eapply rtc_r; [by apply IH | by apply successors_step].
Qed.

(** A state with no outgoing edge is where every run that enters it stays. *)
Definition irreducible (s : State) : Prop := forall s', ~ step s s'.

Lemma irreducible_successors s : successors s = [] -> irreducible s.
Proof. intros Hs s' Hst%successors_step. rewrite Hs in Hst. by apply elem_of_nil in Hst. Qed.

Lemma irreducible_rtc s s' : irreducible s -> rtc step s s' -> s' = s.
Proof. intros Hi Hr. destruct Hr as [|? ? ? Hst]; [done|]. by destruct (Hi _ Hst). Qed.
End Table.

(** Only evaluation, never conversion during unification, opens the tables
    built from an edge list. *)
#[global] Strategy 1000 [IsValid validSet successors reach].

(** A property of every listed edge, checked by evaluation of [P]. *)
Lemma step_forall (T : TransitionTable) (P : State -> State -> bool) :
  forallb (fun e => P (From e) (To e)) (@valid_transitions T) = true ->
  forall from to, step T from to -> P from to = true.
Proof.
  intros Hf from to Hst%step_iff. rewrite forallb_forall in Hf.
  apply list_elem_of_In in Hst. exact (Hf _ Hst).
Qed.

#[export] Hint Resolve successors_step reach_sound : lenny.
