(* ===== verification/SessionState.v ===== *)
(** * The session lifecycle ([pkg/session/state/state.go])

    The states of a session, the edge list [ValidTransitions] with its
    any-state terminal edges, [IsValid], and the MCP projection of a state. *)

From S2P Require Import Prelude StateMachine.

Definition Created : State := "created".
Definition Finalizing : State := "finalizing".
Definition Ready : State := "ready".
Definition Starting : State := "starting".
Definition Running : State := "running".
Definition InputRequired : State := "input_required".
Definition Suspended : State := "suspended".
Definition ResumePending : State := "resume_pending".
Definition AwaitingClientAction : State := "awaiting_client_action".
Definition Resuming : State := "resuming".
Definition Completed : State := "completed".
Definition Failed : State := "failed".
Definition Cancelled : State := "cancelled".
Definition Expired : State := "expired".

Definition All : list State :=
  [Created; Finalizing; Ready; Starting; Running; InputRequired;
   Suspended; ResumePending; AwaitingClientAction; Resuming;
   Completed; Failed; Cancelled; Expired].

Definition Terminal : list State := [Completed; Failed; Cancelled; Expired].

(** A range loop that returns [true] at the first match. *)
Definition IsTerminal (s : State) : bool :=
  existsb (fun t => bool_decide (s = t)) Terminal.

(** The targets every non-terminal state may be written to. *)
Definition anyStateTerminalTargets : list State := [Failed; Expired; Cancelled].

(** The loop body over a target: append the edge unless it is listed, and
    record it in [listed]. *)
Definition appendEdge (from : State)
    (acc : list Transition * gset Transition) (to : State)
    : list Transition * gset Transition :=
  let e := mkTransition from to in
  if bool_decide (e ∈ acc.2) then acc else (acc.1 ++ [e], {[e]} ∪ acc.2).

(** The loop body over a source state: terminal sources are skipped. *)
Definition appendEdgesFrom (acc : list Transition * gset Transition) (from : State)
    : list Transition * gset Transition :=
  if IsTerminal from then acc
  else foldl (appendEdge from) acc anyStateTerminalTargets.

Definition appendAnyStateTerminalEdges (edges : list Transition) : list Transition :=
  (foldl appendEdgesFrom (edges, list_to_set edges) All).1.

Definition baseEdges : list Transition :=
  [ mkTransition Created Failed;
    (* happy path *)
    mkTransition Created Finalizing;
    mkTransition Finalizing Ready;
    mkTransition Ready Starting;
    mkTransition Starting Running;
    (* /start failure and expiry paths *)
    mkTransition Starting Failed;
    mkTransition Starting Expired;
    (* running: agent-driven transitions *)
    mkTransition Running InputRequired;
    mkTransition Running Suspended;
    mkTransition Running Completed;
    mkTransition Running ResumePending;
    mkTransition Running AwaitingClientAction;
    mkTransition Running Failed;
    mkTransition Running Cancelled;
    mkTransition Running Expired;
    (* input_required exits *)
    mkTransition InputRequired Running;
    mkTransition InputRequired Completed;
    mkTransition InputRequired Cancelled;
    mkTransition InputRequired Expired;
    mkTransition InputRequired Failed;
    mkTransition InputRequired ResumePending;
    mkTransition InputRequired AwaitingClientAction;
    (* suspended exits *)
    mkTransition Suspended Running;
    mkTransition Suspended ResumePending;
    mkTransition Suspended Completed;
    mkTransition Suspended Cancelled;
    mkTransition Suspended Expired;
    mkTransition Suspended Failed;
    mkTransition Suspended AwaitingClientAction;
    (* resume path *)
    mkTransition ResumePending Resuming;
    mkTransition ResumePending AwaitingClientAction;
    mkTransition ResumePending Cancelled;
    mkTransition ResumePending Completed;
    mkTransition ResumePending Expired;
    mkTransition Resuming Running;
    mkTransition Resuming ResumePending;
    mkTransition Resuming AwaitingClientAction;
    mkTransition Resuming Cancelled;
    mkTransition Resuming Completed;
    mkTransition Resuming Expired;
    (* awaiting-client-action exits *)
    mkTransition AwaitingClientAction ResumePending;
    mkTransition AwaitingClientAction Completed;
    mkTransition AwaitingClientAction Cancelled;
    mkTransition AwaitingClientAction Expired ].

Definition ValidTransitions : list Transition := appendAnyStateTerminalEdges baseEdges.

#[export, refine] Instance session_table : TransitionTable :=
  {| all_states := All; valid_transitions := ValidTransitions |}.
Proof.
  apply (bool_decide_unpack (Forall (fun t => From t ∈ All /\ To t ∈ All) ValidTransitions)).
  vm_compute. exact I.
Defined.

Definition IsValid : State -> State -> result InvalidTransitionError unit :=
  StateMachine.IsValid session_table.

(** The metadata map of the MCP surface: nil, or one boolean annotation. *)
Definition MCPProtocolState (s : State) : string * option (string * bool) :=
  if bool_decide (s = Created) || bool_decide (s = Finalizing)
     || bool_decide (s = Ready) || bool_decide (s = Starting) then ("submitted", None)
  else if bool_decide (s = Running) then ("working", None)
  else if bool_decide (s = InputRequired) then ("input_required", None)
  else if bool_decide (s = Suspended) then ("working", Some ("suspended", true))
  else if bool_decide (s = ResumePending) || bool_decide (s = Resuming)
  then ("working", Some ("resuming", true))
  else if bool_decide (s = AwaitingClientAction) then ("input_required", None)
  else if bool_decide (s = Completed) then ("completed", None)
  else if bool_decide (s = Failed) then ("failed", None)
  else if bool_decide (s = Cancelled) then ("canceled", None)
  else if bool_decide (s = Expired) then ("failed", None)
  else ("", None).

(** ** The terminal-edge closure *)

Lemma IsTerminal_iff s : IsTerminal s = true <-> s ∈ Terminal.
Proof.
  unfold IsTerminal. rewrite existsb_exists. setoid_rewrite bool_decide_eq_true.
  setoid_rewrite <- list_elem_of_In. naive_solver.
Qed.

(** What the two loops maintain: the accumulator extends the input, [listed]
    is exactly its edge set, and duplicates are never introduced. *)
Definition acc_wf (edges : list Transition) (acc : list Transition * gset Transition) : Prop :=
  acc.2 = list_to_set acc.1 /\ edges `prefix_of` acc.1 /\ (NoDup edges -> NoDup acc.1).

Lemma appendEdge_wf edges from acc to :
  acc_wf edges acc -> acc_wf edges (appendEdge from acc to).
Proof.
  intros (Hset & Hpre & Hnd). unfold appendEdge. case_bool_decide as Hin; [done|].
  rewrite Hset, elem_of_list_to_set in Hin. repeat split; simpl.
  - rewrite list_to_set_app_L, Hset. set_solver.
  - by apply prefix_app_r.
  - intros Hedges. apply NoDup_app. split_and!; [by apply Hnd| |apply NoDup_singleton].
    intros e He ->%list_elem_of_singleton. done.
Qed.

Lemma appendEdge_elem from acc to e :
  acc.2 = list_to_set acc.1 ->
  e ∈ (appendEdge from acc to).1 <-> e ∈ acc.1 \/ e = mkTransition from to.
Proof.
  intros Hset. unfold appendEdge. case_bool_decide as Hin; simpl.
  - rewrite Hset, elem_of_list_to_set in Hin. naive_solver.
  - rewrite elem_of_app, list_elem_of_singleton. done.
Qed.

(** Folding a body that adds the edges [P] describes adds the union. *)
Lemma fold_elem {A} (body : list Transition * gset Transition -> A ->
                            list Transition * gset Transition)
      (P : A -> Transition -> Prop) edges :
  (forall acc a, acc_wf edges acc -> acc_wf edges (body acc a)) ->
  (forall acc a e, acc_wf edges acc -> e ∈ (body acc a).1 <-> e ∈ acc.1 \/ P a e) ->
  forall l acc, acc_wf edges acc ->
    acc_wf edges (foldl body acc l) /\
    (forall e, e ∈ (foldl body acc l).1 <-> e ∈ acc.1 \/ exists a, a ∈ l /\ P a e).
Proof.
  intros Hwf Hel l. induction l as [|a l IH]; intros acc Hacc; simpl.
  - split; [done|]. set_solver.
  - destruct (IH (body acc a)) as [Hw He]; [by apply Hwf|]. split; [done|].
    intros e. rewrite He, Hel by done. set_solver.
Qed.

Lemma appendEdgesFrom_spec edges acc from :
  acc_wf edges acc ->
  acc_wf edges (appendEdgesFrom acc from) /\
  (forall e, e ∈ (appendEdgesFrom acc from).1 <->
     e ∈ acc.1 \/ (IsTerminal from = false /\ From e = from /\
                   To e ∈ anyStateTerminalTargets)).
Proof.
  intros Hacc. unfold appendEdgesFrom. destruct (IsTerminal from).
  { split; [done|]. naive_solver. }
  destruct (fold_elem (appendEdge from) (fun to e => e = mkTransition from to) edges)
    with (l := anyStateTerminalTargets) (acc := acc) as [Hw He]; [| |done|].
  - intros ? ?. apply appendEdge_wf.
  - intros ? ? ? (Hset & _). by apply appendEdge_elem.
  - split; [done|]. intros e. etransitivity; [exact (He e)|].
    apply or_iff_compat_l. destruct e as [f t]; simpl. split.
    + intros (a & Ha & [= -> ->]). exact (conj eq_refl (conj eq_refl Ha)).
    + intros (_ & -> & Ha). exact (ex_intro _ t (conj Ha eq_refl)).
Qed.

(** [appendAnyStateTerminalEdges] computes exactly the closure its
    comment describes: for every edge list, the result starts with that list,
    keeps it duplicate-free, and its edges are those of the list together
    with an edge to failed, expired and cancelled from every non-terminal
    state. *)
Lemma appendAnyStateTerminalEdges_closure (edges : list Transition) :
  edges `prefix_of` appendAnyStateTerminalEdges edges /\
  (NoDup edges -> NoDup (appendAnyStateTerminalEdges edges)) /\
  (forall e, e ∈ appendAnyStateTerminalEdges edges <->
     e ∈ edges \/ (From e ∈ All /\ IsTerminal (From e) = false /\
                   To e ∈ anyStateTerminalTargets)).
Proof.
  destruct (fold_elem appendEdgesFrom
              (fun from e => IsTerminal from = false /\ From e = from /\
                             To e ∈ anyStateTerminalTargets) edges)
    with (l := All) (acc := (edges, list_to_set edges : gset Transition))
    as [(_ & Hpre & Hnd) He].
  - intros ? ? ?. by apply appendEdgesFrom_spec.
  - intros ? ? ? Hacc. by apply (appendEdgesFrom_spec edges).
  - unfold acc_wf. simpl. split_and!; [reflexivity|reflexivity|tauto].
  - split_and!; [exact Hpre|exact Hnd|]. intros e. unfold appendAnyStateTerminalEdges.
    etransitivity; [exact (He e)|]. apply or_iff_compat_l. clear. split.
    + intros (a & Ha & Ht & <- & Hto). exact (conj Ha (conj Ht Hto)).
    + intros (Ha & Ht & Hto). exact (ex_intro _ (From e) (conj Ha (conj Ht (conj eq_refl Hto)))).
Qed.

#[global] Strategy 2000 [appendAnyStateTerminalEdges].

(** ** Runs of the session machine *)

Abbreviation session_step := (StateMachine.step session_table).

(** Facts about the finite edge list are checked by evaluation. *)
Lemma terminal_no_successors :
  Forall (fun s => successors session_table s = []) Terminal.
Proof. repeat (constructor; [vm_compute; reflexivity|]). constructor. Qed.

Lemma created_reaches_all :
  Forall (fun s => s ∈ reach session_table 6 Created) All.
Proof.
  apply (bool_decide_unpack (Forall (fun s => s ∈ reach session_table 6 Created) All)).
  vm_compute. exact I.
Qed.

Lemma terminal_irreducible s : IsTerminal s = true -> irreducible session_table s.
Proof.
  intros Hs%IsTerminal_iff. apply irreducible_successors.
  pose proof terminal_no_successors as Hf. rewrite Forall_forall in Hf. by apply Hf.
Qed.

Lemma table_edges : @valid_transitions session_table = ValidTransitions.
Proof. reflexivity. Qed.

Lemma nonterminal_to_target s t :
  s ∈ All -> IsTerminal s = false -> t ∈ anyStateTerminalTargets ->
  session_step s t.
Proof.
  intros Hs Ht Hin. apply step_iff. rewrite table_edges. unfold ValidTransitions.
  destruct (appendAnyStateTerminalEdges_closure baseEdges) as (_ & _ & He).
  apply He. right. exact (conj Hs (conj Ht Hin)).
Qed.

(** C36. The session machine: a legal edge never leaves a terminal state, so a
    run that enters one stays there; from every non-terminal state one legal
    step leads to failed, expired and cancelled; and every declared state is
    reachable from created. *)
Theorem session_lifecycle (s t : State) :
  (IsValid s t = Ok tt -> IsTerminal s = false /\ s ∈ All /\ t ∈ All) /\
  (IsTerminal s = true -> rtc session_step s t -> t = s) /\
  (s ∈ All -> IsTerminal s = false -> t ∈ anyStateTerminalTargets -> IsValid s t = Ok tt) /\
  (s ∈ All -> rtc session_step Created s).
Proof.
  split_and!.
  - intros Hv. pose proof (step_edge session_table s t Hv) as Hst.
    split; [|exact (step_known session_table s t Hst)].
    destruct (IsTerminal s) eqn:Hs; [|reflexivity].
    destruct (terminal_irreducible s Hs t Hst).
  - intros Hs. exact (irreducible_rtc session_table s t (terminal_irreducible s Hs)).
  - intros Hs Ht Hin. destruct (nonterminal_to_target s t Hs Ht Hin) as [? ? Hv]. exact Hv.
  - intros Hs. apply (reach_sound session_table 6). pose proof created_reaches_all as Hf.
    rewrite Forall_forall in Hf. exact (Hf s Hs).
Qed.

(** The MCP surface shows a terminal task state exactly for the terminal
    session states, so a client never sees a live session as finished nor a
    finished one as live. *)
Theorem mcp_terminal_iff (s : State) :
  (MCPProtocolState s).1 ∈ ["completed"; "failed"; "canceled"] <-> IsTerminal s = true.
Proof.
  rewrite IsTerminal_iff. unfold MCPProtocolState.
  repeat (case_bool_decide; [subst; vm_compute; set_solver|]). simpl.
  unfold Terminal. set_solver.
Qed.
