(* ===== verification/SandboxState.v ===== *)
(** * The coarse pod-occupancy phases ([pkg/sandbox/state/state.go])

    The phases the warm-pool controller writes to [Sandbox.status.phase], the
    edge list, and the projection to the pod label. *)

From S2P Require Import Prelude StateMachine.
From stdpp Require Import relations.

Definition RuntimeProcessKeep : string := "keep".
Definition RuntimeProcessRestart : string := "restart".

Definition RuntimeProcessLifetime (poolValue : string) : string :=
  if bool_decide (poolValue = RuntimeProcessRestart) then RuntimeProcessRestart
  else RuntimeProcessKeep.

Definition CoarseIdle : string := "idle".
Definition CoarseActive : string := "active".
Definition CoarseDraining : string := "draining".

Definition Warming : State := "warming".
Definition SDKConnecting : State := "sdk_connecting".
Definition Idle : State := "idle".
Definition Reserved : State := "reserved".
Definition Claimed : State := "claimed".
Definition Failed : State := "failed".
Definition Draining : State := "draining".
Definition Terminated : State := "terminated".

(** The Go function returns the label and whether there is one. *)
Definition CoarseState (s : State) : string * bool :=
  if bool_decide (s = Idle) then (CoarseIdle, true)
  else if bool_decide (s = Draining) then (CoarseDraining, true)
  else if bool_decide (s = Claimed) || bool_decide (s = Reserved) then (CoarseActive, true)
  else ("", false).

Definition All : list State :=
  [Warming; SDKConnecting; Idle; Reserved; Claimed; Failed; Draining; Terminated].

Definition Terminal : list State := [Failed; Terminated].

Definition IsTerminal (s : State) : bool :=
  existsb (fun t => bool_decide (s = t)) Terminal.

Definition ValidTransitions : list Transition :=
  [ mkTransition Warming Idle;
    mkTransition Warming Failed;
    mkTransition Warming SDKConnecting;
    mkTransition SDKConnecting Idle;
    mkTransition SDKConnecting Failed;
    mkTransition SDKConnecting Terminated;
    mkTransition Idle Claimed;
    mkTransition Claimed Claimed;
    mkTransition Idle Draining;
    mkTransition Claimed Draining;
    mkTransition Failed Draining;
    mkTransition Draining Terminated;
    mkTransition Claimed SDKConnecting;
    mkTransition Claimed Reserved;
    mkTransition SDKConnecting Reserved;
    mkTransition Reserved Claimed;
    mkTransition Reserved Idle ].

#[export, refine] Instance sandbox_table : TransitionTable :=
  {| all_states := All; valid_transitions := ValidTransitions |}.
Proof.
  apply (bool_decide_unpack (Forall (fun t => From t ∈ All /\ To t ∈ All) ValidTransitions)).
  vm_compute. exact I.
Defined.

Definition IsValid : State -> State -> result InvalidTransitionError unit :=
  StateMachine.IsValid sandbox_table.

Abbreviation sandbox_step := (StateMachine.step sandbox_table).

(** ** Lemmas *)

(** A phase from which reclamation can no longer be undone. *)
Definition reclaiming (s : State) : bool :=
  bool_decide (s = Failed) || bool_decide (s = Draining) || bool_decide (s = Terminated).

Lemma sandbox_edges_known from to :
  sandbox_step from to -> IsValid from to = Ok tt.
Proof. intros Hst. destruct Hst as [? ? Hv]. exact Hv. Qed.

Lemma sandbox_reclaiming_closed from to :
  sandbox_step from to -> reclaiming from = true -> reclaiming to = true.
Proof.
  intros Hst.
  pose proof (step_forall sandbox_table
    (fun f t => implb (reclaiming f) (reclaiming t)) eq_refl from to Hst) as Hb.
  simpl in Hb. intros Hf. rewrite Hf in Hb. exact Hb.
Qed.

Lemma sandbox_reclaiming_rtc from to :
  rtc sandbox_step from to -> reclaiming from = true -> reclaiming to = true.
Proof.
  induction 1 as [|x y z Hxy _ IH]; [auto|]. intros Hx.
  exact (IH (sandbox_reclaiming_closed x y Hxy Hx)).
Qed.

(** The phases a pod can be in while it has not been claimed since its last
    return to the idle inventory, or ever. *)
Lemma sandbox_idle_entry from to :
  sandbox_step from to -> to = Idle -> from ∈ [Warming; SDKConnecting; Reserved].
Proof.
  intros Hst ->.
  pose proof (step_forall sandbox_table
    (fun f t => implb (bool_decide (t = Idle))
                  (bool_decide (f ∈ [Warming; SDKConnecting; Reserved]))) eq_refl
    from Idle Hst) as Hb.
  simpl in Hb. apply bool_decide_eq_true in Hb. exact Hb.
Qed.

Lemma sandbox_all_drain : Forall (fun s => Terminated ∈ reach sandbox_table 4 s) All.
Proof.
  apply (bool_decide_unpack (Forall (fun s => Terminated ∈ reach sandbox_table 4 s) All)).
  vm_compute. exact I.
Qed.

Lemma CoarseState_idle_iff s : CoarseState s = (CoarseIdle, true) <-> s = Idle.
Proof.
  unfold CoarseState, CoarseIdle, CoarseActive, CoarseDraining.
  repeat case_bool_decide; simpl; subst; split; intros; simplify_eq; try done.
Qed.

(** Pod phases: a failed or draining pod never serves again (every run
    from it stays in failed, draining or terminated); no phase is stuck, each
    can still reach terminated; the idle inventory is entered only from
    warming, from sdk_connecting or by the end of a hold, never straight from
    claimed; and the pod label is [idle] exactly for the idle phase, so the
    disruption budget never selects a claimed or reserved pod. *)
Theorem sandbox_phases (s t : State) :
  (rtc sandbox_step s t -> reclaiming s = true -> reclaiming t = true) /\
  (s ∈ All -> rtc sandbox_step s Terminated) /\
  (IsValid s Idle = Ok tt -> s ∈ [Warming; SDKConnecting; Reserved]) /\
  (CoarseState s = (CoarseIdle, true) <-> s = Idle).
Proof.
  split_and!.
  - apply sandbox_reclaiming_rtc.
  - intros Hs. apply (reach_sound sandbox_table 4).
    pose proof sandbox_all_drain as Hf. rewrite Forall_forall in Hf. exact (Hf s Hs).
  - intros Hv. exact (sandbox_idle_entry s Idle (step_edge sandbox_table s Idle Hv) eq_refl).
  - exact (CoarseState_idle_iff s).
Qed.
