(* ===== verification/SlotState.v ===== *)
(** * Per-slot sub-states and their registry ([pkg/sandbox/slotstate])

    The sub-state machine of one slot of a multi-session pod, and [Registry],
    the gateway's in-process record of every slot's sub-state. *)

From S2P Require Import Prelude StateMachine.
From stdpp Require Import relations.

Definition SlotAssigned : State := "slot_assigned".
Definition ReceivingUploads : State := "receiving_uploads".
Definition Running : State := "running".
Definition SlotCleanup : State := "slot_cleanup".
Definition Released : State := "released".
Definition Leaked : State := "leaked".
Definition Failed : State := "failed".

Definition All : list State :=
  [SlotAssigned; ReceivingUploads; Running; SlotCleanup; Released; Leaked; Failed].

Definition IsValidState (s : State) : bool :=
  bool_decide (s = SlotAssigned) || bool_decide (s = ReceivingUploads)
  || bool_decide (s = Running) || bool_decide (s = SlotCleanup)
  || bool_decide (s = Released) || bool_decide (s = Leaked) || bool_decide (s = Failed).

Definition Terminal (s : State) : bool :=
  bool_decide (s = Released) || bool_decide (s = Leaked) || bool_decide (s = Failed).

Definition OccupiesSlot (s : State) : bool := negb (bool_decide (s = Released)).

Definition ValidTransitions : list Transition :=
  [ mkTransition SlotAssigned ReceivingUploads;
    mkTransition ReceivingUploads Running;
    mkTransition ReceivingUploads SlotCleanup;
    mkTransition Running SlotCleanup;
    mkTransition Running Failed;
    mkTransition SlotCleanup Released;
    mkTransition SlotCleanup Leaked ].

#[export, refine] Instance slot_table : TransitionTable :=
  {| all_states := All; valid_transitions := ValidTransitions |}.
Proof.
  apply (bool_decide_unpack (Forall (fun t => From t ∈ All /\ To t ∈ All) ValidTransitions)).
  vm_compute. exact I.
Defined.

Definition IsValid : State -> State -> result InvalidTransitionError unit :=
  StateMachine.IsValid slot_table.

Abbreviation slot_step := (StateMachine.step slot_table).

(** ** The registry *)

Record slotRecord := mkSlotRecord { pod : string; pool : string; state : State }.

(** The zero value a Go map read returns for an absent key. *)
Definition zero_slotRecord : slotRecord := mkSlotRecord "" "" "".

(** Every method is guarded by [r == nil]: [None] is the nil receiver. *)
Definition Registry : Type := option (gmap string slotRecord).

Definition NewRegistry : Registry := Some ∅.

Inductive TransitionError :=
| errUnknownSlot
| errInvalidTransition (e : InvalidTransitionError).

Definition Assign (r : Registry) (slotID pod pool : string) : Registry :=
  match r with
  | None => None
  | Some slots =>
      match slots !! slotID with
      | Some _ => Some slots
      | None => Some (<[slotID := mkSlotRecord pod pool SlotAssigned]> slots)
      end
  end.

Definition RegistryTransition (r : Registry) (slotID : string) (to : State)
    : result TransitionError Registry :=
  match r with
  | None => Err errUnknownSlot
  | Some slots =>
      match slots !! slotID with
      | None => Err errUnknownSlot
      | Some rec =>
          match IsValid (state rec) to with
          | Err e => Err (errInvalidTransition e)
          | Ok _ =>
              if bool_decide (to = Released) then Ok (Some (delete slotID slots))
              else Ok (Some (<[slotID := mkSlotRecord (pod rec) (pool rec) to]> slots))
          end
      end
  end.

Definition MarkReleased (r : Registry) (slotID : string) : Registry :=
  match r with
  | None => None
  | Some slots => Some (delete slotID slots)
  end.

(** The counting loop over the map; its result does not depend on Go's
    unspecified iteration order because it counts. *)
Definition is_leaked_on (p : string) (rec : slotRecord) : bool :=
  bool_decide (pod rec = p) && bool_decide (state rec = Leaked).

Definition leakedCountLocked (slots : gmap string slotRecord) (p : string) : Z :=
  map_fold (fun _ rec n => if is_leaked_on p rec then (n + 1)%Z else n) 0%Z slots.

Definition MarkLeaked (r : Registry) (slotID p q : string) : Registry * Z :=
  match r with
  | None => (None, 0%Z)
  | Some slots =>
      let rec0 := default zero_slotRecord (slots !! slotID) in
      let pod' := if is_empty (pod rec0) then p else pod rec0 in
      let pool' := if is_empty (pool rec0) then q else pool rec0 in
      let slots' := <[slotID := mkSlotRecord pod' pool' Leaked]> slots in
      (Some slots', leakedCountLocked slots' pod')
  end.

Definition RegistryState (r : Registry) (slotID : string) : State * bool :=
  match r with
  | None => ("", false)
  | Some slots =>
      match slots !! slotID with
      | Some rec => (state rec, true)
      | None => ("", false)
      end
  end.

Definition LeakedCount (r : Registry) (p : string) : Z :=
  match r with
  | None => 0%Z
  | Some slots => leakedCountLocked slots p
  end.

Definition ForgetPod (r : Registry) (p : string) : Registry :=
  match r with
  | None => None
  | Some slots => Some (filter (fun kv => pod kv.2 <> p) slots)
  end.

(** ** Slot runs *)

Lemma slot_terminal_no_successors :
  Forall (fun s => successors slot_table s = []) [Released; Leaked; Failed].
Proof. repeat (constructor; [vm_compute; reflexivity|]). constructor. Qed.

Lemma slot_terminal_irreducible s : Terminal s = true -> irreducible slot_table s.
Proof.
  intros Hs. apply irreducible_successors.
  pose proof slot_terminal_no_successors as Hf. rewrite Forall_forall in Hf. apply Hf.
  unfold Terminal in Hs. rewrite !orb_true_iff, !bool_decide_eq_true in Hs. set_solver.
Qed.

(** [Released] is entered only from [slot_cleanup]. *)
Lemma slot_released_entry from to :
  slot_step from to -> to = Released -> from = SlotCleanup.
Proof.
  intros Hst ->.
  pose proof (step_forall slot_table
    (fun f t => implb (bool_decide (t = Released)) (bool_decide (f = SlotCleanup))) eq_refl
    from Released Hst) as Hb.
  simpl in Hb. apply bool_decide_eq_true in Hb. exact Hb.
Qed.

(** ** The leaked count *)

(** The slots that count as leaked for a pod, as a set of slot ids. *)
Definition leaked_slots (slots : gmap string slotRecord) (p : string) : gset string :=
  dom (filter (fun kv => is_leaked_on p kv.2 = true) slots).

Lemma leakedCountLocked_insert slots id rec p :
  slots !! id = None ->
  leakedCountLocked (<[id := rec]> slots) p =
  (leakedCountLocked slots p + (if is_leaked_on p rec then 1 else 0))%Z.
Proof.
  intros Hn. unfold leakedCountLocked.
  rewrite map_fold_insert_L; [destruct (is_leaked_on p rec); lia| |done].
  intros. do 2 destruct (is_leaked_on p _); lia.
Qed.

Lemma leakedCountLocked_delete slots id rec p :
  slots !! id = Some rec ->
  leakedCountLocked slots p =
  (leakedCountLocked (delete id slots) p + (if is_leaked_on p rec then 1 else 0))%Z.
Proof.
  intros Hs. rewrite <- (insert_delete_id slots id rec) at 1 by done.
  apply leakedCountLocked_insert. apply lookup_delete_eq.
Qed.

Lemma leakedCountLocked_size slots p :
  leakedCountLocked slots p = Z.of_nat (size (leaked_slots slots p)).
Proof.
  induction slots as [|id rec slots Hn IH] using map_ind.
  - unfold leakedCountLocked, leaked_slots.
    rewrite map_fold_empty, map_filter_empty, dom_empty_L, size_empty. done.
  - rewrite leakedCountLocked_insert, IH by done. unfold leaked_slots.
    destruct (is_leaked_on p rec) eqn:Hl.
    + rewrite map_filter_insert_True by done.
      rewrite dom_insert_L, size_union, size_singleton; [lia|].
      rewrite disjoint_singleton_l, elem_of_dom. intros [x [Hx _]%map_lookup_filter_Some].
      congruence.
    + rewrite map_filter_insert_False by (simpl; congruence).
      rewrite delete_id by done. lia.
Qed.

Lemma leaked_slots_elem slots id rec p :
  slots !! id = Some rec ->
  bool_decide (id ∈ leaked_slots slots p) = is_leaked_on p rec.
Proof.
  intros Hs. apply eq_true_iff_eq. rewrite bool_decide_eq_true. unfold leaked_slots.
  rewrite elem_of_dom. split.
  - intros [x [Hx Hl]%map_lookup_filter_Some]. rewrite Hs in Hx. by injection Hx as ->.
  - intros Hl. exists rec. by apply map_lookup_filter_Some.
Qed.

(** ** Registry runs *)

(** One call of a mutating method; a rejected [Transition] changes nothing. *)
Inductive op :=
| OpAssign (slotID pod pool : string)
| OpTransition (slotID : string) (to : State)
| OpMarkReleased (slotID : string)
| OpMarkLeaked (slotID pod pool : string)
| OpForgetPod (pod : string).

Definition apply_op (r : Registry) (o : op) : Registry :=
  match o with
  | OpAssign s p q => Assign r s p q
  | OpTransition s to => match RegistryTransition r s to with Ok r' => r' | Err _ => r end
  | OpMarkReleased s => MarkReleased r s
  | OpMarkLeaked s p q => (MarkLeaked r s p q).1
  | OpForgetPod p => ForgetPod r p
  end.

Definition run_ops (r : Registry) (l : list op) : Registry := foldl apply_op r l.

(** Tracked slots are in a declared sub-state that occupies a slot. *)
Definition registry_wf (r : Registry) : Prop :=
  match r with
  | None => True
  | Some slots => map_Forall (fun _ rec => state rec ∈ All /\ OccupiesSlot (state rec) = true) slots
  end.

Lemma valid_target from to : IsValid from to = Ok tt -> to ∈ All.
Proof.
  intros Hv. exact (proj2 (step_known slot_table from to (step_edge slot_table from to Hv))).
Qed.

Lemma SlotAssigned_wf : SlotAssigned ∈ All /\ OccupiesSlot SlotAssigned = true.
Proof. split; [unfold All; set_solver | reflexivity]. Qed.

Lemma Leaked_wf : Leaked ∈ All /\ OccupiesSlot Leaked = true.
Proof. split; [unfold All; set_solver | reflexivity]. Qed.

Lemma RegistryTransition_wf r id to r' :
  registry_wf r -> RegistryTransition r id to = Ok r' -> registry_wf r'.
Proof.
  destruct r as [slots|]; simpl; [|done]. intros Hwf.
  destruct (slots !! id) as [rec|] eqn:Hl; [|done].
  destruct (IsValid (state rec) to) as [[]|] eqn:Hv; [|done].
  case_bool_decide as Hr; intros [= <-]; simpl.
  - by apply map_Forall_delete.
  - apply map_Forall_insert_2; [|exact Hwf]. simpl.
    split; [exact (valid_target _ _ Hv)|]. unfold OccupiesSlot. by rewrite bool_decide_eq_false_2.
Qed.

Lemma registry_op_wf r o : registry_wf r -> registry_wf (apply_op r o).
Proof.
  intros Hwf. destruct o as [id p q|id to|id|id p q|p]; simpl.
  - destruct r as [slots|]; simpl; [|done]. destruct (slots !! id) eqn:Hl; [exact Hwf|].
    apply map_Forall_insert_2; [exact SlotAssigned_wf | exact Hwf].
  - destruct (RegistryTransition r id to) eqn:Ht; [|exact Hwf].
    exact (RegistryTransition_wf r id to _ Hwf Ht).
  - destruct r as [slots|]; simpl; [|done]. by apply map_Forall_delete.
  - destruct r as [slots|]; simpl; [|done].
    apply map_Forall_insert_2; [exact Leaked_wf | exact Hwf].
  - destruct r as [slots|]; simpl; [|done].
    intros k rec [Hk _]%map_lookup_filter_Some. exact (Hwf k rec Hk).
Qed.

Lemma run_ops_wf l r : registry_wf r -> registry_wf (run_ops r l).
Proof.
  revert r. induction l as [|o l IH]; intros r Hwf; simpl; [exact Hwf|].
  apply IH, registry_op_wf, Hwf.
Qed.

(** ** Leaked slots stay *)

(** The calls that may take slot [id] of pod [p] out of the registry. *)
Definition reclaims (id p : string) (o : op) : bool :=
  match o with
  | OpMarkReleased s => bool_decide (s = id)
  | OpForgetPod p' => bool_decide (p' = p)
  | _ => false
  end.

Definition tracked_leaked (r : Registry) (id p : string) : Prop :=
  exists slots rec, r = Some slots /\ slots !! id = Some rec /\ pod rec = p /\ state rec = Leaked.

Lemma leaked_no_exit to e : IsValid Leaked to = Ok e -> False.
Proof.
  destruct e. intros Hv.
  exact (slot_terminal_irreducible Leaked eq_refl to (step_edge slot_table Leaked to Hv)).
Qed.

Lemma apply_op_leaked r o id p :
  p <> "" -> reclaims id p o = false -> tracked_leaked r id p ->
  tracked_leaked (apply_op r o) id p.
Proof.
  intros Hp Hrec Hself. destruct Hself as (slots & rec & -> & Hl & Hpod & Hst) eqn:E; clear E.
  assert (tracked_leaked (Some slots) id p) as Hsame by (by exists slots, rec).
  destruct o as [s p' q|s to|s|s p' q|p']; simpl in *; simplify_bool.
  - destruct (slots !! s) eqn:Hs; [exact Hsame|].
    exists (<[s := mkSlotRecord p' q SlotAssigned]> slots), rec.
    rewrite lookup_insert_ne by congruence. done.
  - destruct (slots !! s) as [rec'|] eqn:Hs; [|exact Hsame].
    destruct (decide (s = id)) as [->|Hne].
    + rewrite Hl in Hs. injection Hs as <-. rewrite Hst.
      destruct (IsValid Leaked to) as [e|] eqn:Hv; [by destruct (leaked_no_exit to e)|].
      exact Hsame.
    + destruct (IsValid (state rec') to); [|exact Hsame].
      case_bool_decide.
      * exists (delete s slots), rec. by rewrite lookup_delete_ne.
      * eexists _, rec. split; [done|]. by rewrite lookup_insert_ne.
  - exists (delete s slots), rec. by rewrite lookup_delete_ne.
  - destruct (decide (s = id)) as [->|Hne].
    + eexists _, _. split; [done|]. rewrite lookup_insert_eq, Hl. simpl.
      unfold is_empty. rewrite Hpod. by rewrite bool_decide_eq_false_2.
    + eexists _, rec. split; [done|]. by rewrite lookup_insert_ne.
  - eexists _, rec. split; [done|]. rewrite map_lookup_filter_Some. simpl. naive_solver.
Qed.

(** C37. The registry is well formed after every sequence of calls from the
    empty registry: no tracked slot is in an undeclared sub-state or in
    [released], so every tracked slot still occupies its place on the pod. *)
Theorem registry_reachable_wf (l : list op) : registry_wf (run_ops NewRegistry l).
Proof. apply run_ops_wf. simpl. apply map_Forall_empty. Qed.

(** A leaked slot stays tracked as leaked on its pod through every
    sequence of calls that neither releases that slot nor forgets that pod:
    no transition, re-assignment or repeated leak report frees it. *)
Theorem leaked_slot_sticky (r : Registry) (l : list op) (id p : string) :
  p <> "" ->
  Forall (fun o => reclaims id p o = false) l ->
  tracked_leaked r id p ->
  tracked_leaked (run_ops r l) id p.
Proof.
  intros Hp Hl. revert r. induction Hl as [|o l Ho _ IH]; intros r Hr; [exact Hr|].
  exact (IH _ (apply_op_leaked r o id p Hp Ho Hr)).
Qed.

Lemma leaked_slot_sticky_witness :
  tracked_leaked
    (run_ops (Some {["s1" := mkSlotRecord "pod-a" "pool" Leaked]})
       [OpAssign "s1" "pod-b" "pool"; OpTransition "s1" Released;
        OpForgetPod "pod-b"; OpMarkReleased "s2"]) "s1" "pod-a".
Proof.
  apply leaked_slot_sticky.
  - discriminate.
  - repeat constructor.
  - exists {["s1" := mkSlotRecord "pod-a" "pool" Leaked]}, (mkSlotRecord "pod-a" "pool" Leaked).
    repeat split.
Defined.

Definition leaked_pod (slots : gmap string slotRecord) (id p : string) : string :=
  match slots !! id with
  | Some rec => if is_empty (pod rec) then p else pod rec
  | None => p
  end.

(** [MarkLeaked] reports the gauge it publishes: the number it returns is
    the leaked count of the slot's pod after the call, that count is the size
    of the set of the pod's leaked slots, and a report for a slot that was
    not yet leaked raises it by exactly one while a repeated report leaves it
    as it was. *)
Theorem MarkLeaked_count (slots : gmap string slotRecord) (id p q : string) :
  let p' := leaked_pod slots id p in
  let r' := (MarkLeaked (Some slots) id p q).1 in
  let n := (MarkLeaked (Some slots) id p q).2 in
  n = LeakedCount r' p' /\
  (exists slots', r' = Some slots' /\ n = Z.of_nat (size (leaked_slots slots' p'))) /\
  n = (LeakedCount (Some slots) p' +
       (if bool_decide (id ∈ leaked_slots slots p') then 0 else 1))%Z.
Proof.
  set (rec0 := default zero_slotRecord (slots !! id)).
  assert (leaked_pod slots id p = if is_empty (pod rec0) then p else pod rec0) as Hp.
  { unfold leaked_pod, rec0. by destruct (slots !! id). }
  simpl. fold rec0. rewrite <- Hp. set (p' := leaked_pod slots id p) in *.
  set (rec' := mkSlotRecord _ _ Leaked).
  split_and!; [done| |].
  - eexists. split; [done|]. apply leakedCountLocked_size.
  - assert (is_leaked_on p' rec' = true) as Hl'.
    { unfold is_leaked_on, rec'. simpl. by rewrite !bool_decide_eq_true_2. }
    rewrite (leakedCountLocked_delete (<[id:=rec']> slots) id rec') by apply lookup_insert_eq.
    rewrite delete_insert_eq, Hl'.
    destruct (slots !! id) as [rec|] eqn:Hs.
    + rewrite (leakedCountLocked_delete slots id rec) by done.
      rewrite (leaked_slots_elem slots id rec p' Hs). destruct (is_leaked_on p' rec); lia.
    + rewrite delete_id by done. rewrite bool_decide_eq_false_2; [done|].
      unfold leaked_slots. rewrite elem_of_dom. intros [x [Hx _]%map_lookup_filter_Some]. congruence.
Qed.
