(* ===== verification/SessionApi.v ===== *)
(** * The session API surface ([api/v1/session])

    Identifiers with their routing prefix, the states the REST API shows, the
    precondition table of the state-changing endpoints, and the visibility and
    messaging scopes of a delegation tree ([session.go],
    [tree_visibility.go]).  The theorems relate the table to the lifecycle of
    [SessionState]. *)

From S2P Require Import Prelude StateMachine SessionState.

(** ** Identifiers *)

(** Bytes are numbers below 256; [%x] and [hex.EncodeToString] write them in
    lower case, [hex.Decode] reads both cases. *)
Definition hexDigit (n : Z) : ascii := default "0"%char (String.get (Z.to_nat n) "0123456789abcdef").

Definition fromHexChar (c : ascii) : option Z :=
  let n := Z.of_N (N_of_ascii c) in
  if (48 <=? n)%Z && (n <=? 57)%Z then Some (n - 48)%Z
  else if (97 <=? n)%Z && (n <=? 102)%Z then Some (n - 87)%Z
  else if (65 <=? n)%Z && (n <=? 70)%Z then Some (n - 55)%Z
  else None.

Fixpoint hexString (bs : list Z) : string :=
  match bs with
  | [] => ""
  | b :: bs => String (hexDigit (Z.shiftr b 4)) (String (hexDigit (Z.land b 15)) (hexString bs))
  end.

(** The bytes of [n] pairs of digits. *)
Fixpoint hexDecode (n : nat) (s : string) : option (list Z) :=
  match n, s with
  | 0, _ => Some []
  | S n, String a (String b s) =>
      hi ← fromHexChar a; lo ← fromHexChar b; rest ← hexDecode n s;
      Some (Z.lor (Z.shiftl hi 4) lo :: rest)
  | S _, _ => None
  end.

Definition formatUUID (b : list Z) : string :=
  hexString (take 4 b) +:+ "-" +:+ hexString (take 2 (drop 4 b)) +:+ "-" +:+ hexString (take 2 (drop 6 b))
    +:+ "-" +:+ hexString (take 2 (drop 8 b)) +:+ "-" +:+ hexString (take 6 (drop 10 b)).

(** Version 8 and the RFC variant, set in the sixteen random bytes. *)
Definition stampVersion (b : list Z) : list Z :=
  let b := <[6 := Z.lor (Z.land (nth 6 b 0%Z) 15) 128]> b in
  <[8 := Z.lor (Z.land (nth 8 b 0%Z) 63) 128]> b.

Definition NewID (random : list Z) : string := formatUUID (stampVersion random).

Fixpoint indexByte (c : ascii) (s : string) : option nat :=
  match s with
  | EmptyString => None
  | String x s => if Ascii.eqb x c then Some 0 else S <$> indexByte c s
  end.

Inductive IDError := NotRoutable | MalformedPrefix.

Definition routingPrefix (id : string) : result IDError (list Z) :=
  match indexByte "-" id with
  | Some 8 => match hexDecode 4 id with
              | Some p => Ok p
              | None => Err MalformedPrefix
              end
  | _ => Err NotRoutable
  end.

Definition RoutingPrefix (id : string) : result IDError string :=
  let* p := routingPrefix id in Ok (hexString p).

Definition NewChildID (rootID : string) (random : list Z) : result IDError string :=
  let* prefix := routingPrefix rootID in
  Ok (formatUUID (stampVersion (prefix ++ drop 4 random))).

(** ** States *)

Definition StateCreated : State := "created".
Definition StateFinalizing : State := "finalizing".
Definition StateReady : State := "ready".
Definition StateStarting : State := "starting".
Definition StateRunning : State := "running".
Definition StateInputRequired : State := "input_required".
Definition StateSuspended : State := "suspended".
Definition StateResumePending : State := "resume_pending".
Definition StateAwaitingClientAction : State := "awaiting_client_action".
Definition StateCompleted : State := "completed".
Definition StateFailed : State := "failed".
Definition StateCancelled : State := "cancelled".
Definition StateExpired : State := "expired".
Definition StateResuming : State := "resuming".

Definition AllStates : list State :=
  [ StateCreated; StateFinalizing; StateReady; StateStarting;
    StateRunning; StateInputRequired; StateSuspended; StateResumePending;
    StateAwaitingClientAction; StateCompleted; StateFailed;
    StateCancelled; StateExpired ].

Definition TerminalStates : list State := [StateCompleted; StateFailed; StateCancelled; StateExpired].

Definition mem (s : string) (l : list string) : bool := existsb (String.eqb s) l.

Definition IsTerminal (s : State) : bool := mem s TerminalStates.

Definition CountsTowardConcurrencyCaps (s : State) : bool :=
  negb (IsTerminal s) && negb (String.eqb s StateSuspended).

Definition RecoveryStates : list State := [StateResumePending; StateResuming; StateAwaitingClientAction].
Definition IsRecovery (s : State) : bool := mem s RecoveryStates.

Definition nonTerminalStates : list State := filter (fun s => IsTerminal s = false) AllStates.

(** ** What happens to the children of a session that ends *)

Definition CascadeCancelAll : string := "cancel_all".
Definition CascadeAwaitCompletion : string := "await_completion".
Definition CascadeDetach : string := "detach".
Definition DefaultCascadePolicy : string := CascadeCancelAll.
Definition AllCascadePolicies : list string := [CascadeCancelAll; CascadeAwaitCompletion; CascadeDetach].
Definition cascadeIsValid (p : string) : bool := mem p AllCascadePolicies.
Definition cascadeResolve (p : string) : string := if cascadeIsValid p then p else DefaultCascadePolicy.

Definition FailureClassDeriveFailure : string := "derive_failure".

(** ** Preconditions of the endpoints *)

Definition EndpointUpload : string := "POST /v1/sessions/{id}/upload".
Definition EndpointFinalize : string := "POST /v1/sessions/{id}/finalize".
Definition EndpointStart : string := "POST /v1/sessions/{id}/start".
Definition EndpointInterrupt : string := "POST /v1/sessions/{id}/interrupt".
Definition EndpointTerminate : string := "POST /v1/sessions/{id}/terminate".
Definition EndpointResume : string := "POST /v1/sessions/{id}/resume".
Definition EndpointMessages : string := "POST /v1/sessions/{id}/messages".
Definition EndpointDerive : string := "POST /v1/sessions/{id}/derive".
Definition EndpointDelete : string := "DELETE /v1/sessions/{id}".

Definition CapabilityMidSessionUpload : string := "midSessionUpload".
Definition CapabilityAllowStaleDerive : string := "allowStaleDerive".

Record gatedStates := mkGated { flag : string; states : list State }.
Record endpointRule := mkRule { baseStates : list State; gated : list gatedStates }.

Definition preconditionTable : gmap string endpointRule :=
  list_to_map
    [ (EndpointUpload, mkRule [StateCreated] [mkGated CapabilityMidSessionUpload [StateRunning]]);
      (EndpointFinalize, mkRule [StateCreated] []);
      (EndpointStart, mkRule [StateReady] []);
      (EndpointInterrupt, mkRule [StateRunning] []);
      (EndpointTerminate, mkRule
         [ StateCreated; StateFinalizing; StateReady; StateStarting;
           StateRunning; StateInputRequired; StateSuspended; StateResumePending;
           StateAwaitingClientAction; StateResuming ] []);
      (EndpointResume, mkRule [StateAwaitingClientAction; StateSuspended] []);
      (EndpointMessages, mkRule nonTerminalStates []);
      (EndpointDerive, mkRule [StateCompleted; StateFailed; StateCancelled; StateExpired]
         [mkGated CapabilityAllowStaleDerive
            [StateRunning; StateSuspended; StateResumePending; StateAwaitingClientAction]]);
      (EndpointDelete, mkRule (nonTerminalStates ++ [StateResuming]) []) ].

Definition Capabilities : Type := gset string.

Record PreconditionRequest := mkRequest { Endpoint : string; CurrentState : State; Caps : Capabilities }.

Inductive ApiError :=
| UnknownEndpoint (endpoint : string)
| PreconditionError (endpoint : string) (currentState : State) (allowedStates : list State).

(** The base states and the ones the held capabilities add. *)
Definition allowed (rule : endpointRule) (caps : Capabilities) : list State :=
  foldl (fun acc g => if bool_decide (flag g ∈ caps) then acc ++ states g else acc) (baseStates rule) (gated rule).

Definition externallyVisible (l : list State) : list State :=
  sort_strings (filter (fun s => mem s AllStates = true) l).

Definition Validate (r : PreconditionRequest) : result ApiError () :=
  match preconditionTable !! Endpoint r with
  | None => Err (UnknownEndpoint (Endpoint r))
  | Some rule =>
      let a := allowed rule (Caps r) in
      if mem (CurrentState r) a then Ok ()
      else Err (PreconditionError (Endpoint r) (CurrentState r) (externallyVisible a))
  end.

Definition AllowedStates (endpoint : string) (caps : Capabilities) : list State :=
  match preconditionTable !! endpoint with
  | None => []
  | Some rule => externallyVisible (allowed rule caps)
  end.

(** ** Visibility of a delegation tree *)

Definition VisibilityFull : string := "full".
Definition VisibilityParentAndSelf : string := "parent-and-self".
Definition VisibilitySelfOnly : string := "self-only".

Definition visIsValid (v : string) : bool :=
  mem v [VisibilityFull; VisibilityParentAndSelf; VisibilitySelfOnly].
Definition visOrDefault (v : string) : string := if visIsValid v then v else VisibilityFull.
Definition rank (v : string) : Z :=
  if String.eqb v VisibilityParentAndSelf then 1 else if String.eqb v VisibilitySelfOnly then 2 else 0.
Definition AtLeastAsNarrow (v parent : string) : bool := (rank (visOrDefault parent) <=? rank (visOrDefault v))%Z.

(** ** Messaging scope *)

Definition MessagingScopeDirect : string := "direct".
Definition MessagingScopeSiblings : string := "siblings".

Definition scopeOrDefault (s : string) : string :=
  if String.eqb s MessagingScopeSiblings then MessagingScopeSiblings else MessagingScopeDirect.
Definition restrictiveness (s : string) : Z :=
  if String.eqb (scopeOrDefault s) MessagingScopeSiblings then 1 else 0.
Definition narrowerMessagingScope (a b : string) : string :=
  if (restrictiveness b <? restrictiveness a)%Z then scopeOrDefault b else scopeOrDefault a.

Definition ResolveEffectiveMessagingScope (deploymentDefault deploymentMax tenantScope runtimeScope : string) : string :=
  let base := scopeOrDefault deploymentDefault in
  let base := if is_empty tenantScope then base else narrowerMessagingScope base tenantScope in
  let base := if is_empty runtimeScope then base else narrowerMessagingScope base runtimeScope in
  if String.eqb deploymentMax MessagingScopeDirect then MessagingScopeDirect else base.

(** ** Properties *)

Lemma mem_spec s l : mem s l = true <-> s ∈ l.
Proof.
  unfold mem. rewrite existsb_exists, list_elem_of_In. setoid_rewrite String.eqb_eq.
  split; [by intros (x & ? & <-)|eauto].
Qed.

Lemma externallyVisible_elem l x : x ∈ externallyVisible l <-> x ∈ AllStates /\ x ∈ l.
Proof. unfold externallyVisible. rewrite sort_strings_perm, list_elem_of_filter, mem_spec. done. Qed.

Lemma Validate_ok r :
  Validate r = Ok () <-> exists rule, preconditionTable !! Endpoint r = Some rule /\ CurrentState r ∈ allowed rule (Caps r).
Proof.
  unfold Validate. destruct (preconditionTable !! Endpoint r) as [rule|]; [|naive_solver].
  destruct (mem (CurrentState r) (allowed rule (Caps r))) eqn:E.
  - apply mem_spec in E. naive_solver.
  - split; [done|]. intros (? & [= <-] & H%mem_spec). congruence.
Qed.

(** An endpoint admits a session exactly in the states its rule and the
    held capabilities give.  A refusal names the endpoint and the state, and
    lists in order exactly the visible states in which the same call would be
    admitted.  An endpoint without a rule admits nothing. *)
Theorem preconditions_exact (r : PreconditionRequest) :
  match Validate r with
  | Ok _ => CurrentState r ∈ AllowedStates (Endpoint r) (Caps r) \/ CurrentState r ∉ AllStates
  | Err (UnknownEndpoint e) => e = Endpoint r /\ preconditionTable !! e = None
  | Err (PreconditionError e s l) =>
      e = Endpoint r /\ s = CurrentState r /\ l = AllowedStates e (Caps r) /\ StronglySorted String.le l /\
      forall x, x ∈ l <-> x ∈ AllStates /\ Validate (mkRequest e x (Caps r)) = Ok ()
  end.
Proof.
  pose proof (fun x => Validate_ok (mkRequest (Endpoint r) x (Caps r))) as Hv. cbn [Endpoint CurrentState Caps] in Hv.
  unfold Validate at 1, AllowedStates. destruct (preconditionTable !! Endpoint r) as [rule|] eqn:E; [|split; [reflexivity|exact E]].
  destruct (mem _ _) eqn:Em.
  - apply mem_spec in Em. setoid_rewrite externallyVisible_elem. destruct (decide (CurrentState r ∈ AllStates)); auto.
  - rewrite E. split_and!; [done..|apply sort_strings_sorted|]. intros x.
    rewrite externallyVisible_elem, Hv. split; [intros []; eauto|].
    intros (? & ? & E' & ?). injection E' as <-. auto.
Qed.

(** The state a handler writes: [transitionFinalizing], [handleStart],
    [transitionInterrupt], [transitionTerminate], [handleDelete]. *)
Definition endpoint_target (e : string) : option State :=
  if String.eqb e EndpointFinalize then Some StateFinalizing
  else if String.eqb e EndpointStart then Some StateStarting
  else if String.eqb e EndpointInterrupt then Some StateSuspended
  else if String.eqb e EndpointTerminate then Some StateCompleted
  else if String.eqb e EndpointDelete then Some StateCancelled
  else None.

Definition pre_running : list State := [StateCreated; StateFinalizing; StateReady; StateStarting].

Definition writing_endpoints : list string :=
  [EndpointFinalize; EndpointStart; EndpointInterrupt; EndpointTerminate; EndpointDelete].

Lemma endpoint_target_writing e t : endpoint_target e = Some t -> e ∈ writing_endpoints.
Proof. unfold endpoint_target. repeat case_match; intros ?; simplify_eq; repeat
  match goal with H : String.eqb _ _ = true |- _ => apply String.eqb_eq in H as -> end; set_solver. Qed.

(** Without capability-gated states the rule decides, whatever is held. *)
Lemma writing_rules_ungated e : e ∈ writing_endpoints ->
  exists base, preconditionTable !! e = Some (mkRule base []) /\ base ⊆ All.
Proof.
  assert (Forall (fun e => exists base, preconditionTable !! e = Some (mkRule base []) /\
                   bool_decide (Forall (.∈ All) base) = true) writing_endpoints) as F.
  { repeat constructor; eexists; (split; [vm_compute; reflexivity|vm_compute; reflexivity]). }
  rewrite Forall_forall in F. intros (base & E & Hb)%F. exists base. split; [done|].
  apply bool_decide_eq_true in Hb. rewrite Forall_forall in Hb. exact Hb.
Qed.

Definition edge_agrees (e : string) (s : State) : bool :=
  match endpoint_target e, preconditionTable !! e with
  | Some t, Some rule =>
      implb (mem s (baseStates rule))
        (Bool.eqb (bool_decide (mkTransition s t ∈ ValidTransitions)) (negb (String.eqb e EndpointTerminate && mem s pre_running)))
  | _, _ => true
  end.

Lemma edges_of_rules e s : e ∈ writing_endpoints -> s ∈ All -> edge_agrees e s = true.
Proof.
  assert (forallb (fun e => forallb (edge_agrees e) All) writing_endpoints = true) as F by (vm_compute; reflexivity).
  rewrite forallb_forall in F. setoid_rewrite forallb_forall in F. rewrite !list_elem_of_In. eauto.
Qed.

(** What an endpoint writes is an edge of the session lifecycle from every
    state the endpoint admits, with one exception: terminating a session that
    has not started yet writes [completed], and the lifecycle has no such
    edge. *)
Theorem endpoints_follow_lifecycle (e : string) (s t : State) (caps : Capabilities)
    (Ht : endpoint_target e = Some t) (Hv : Validate (mkRequest e s caps) = Ok ()) :
  IsValid s t = Ok () <-> ~ (e = EndpointTerminate /\ s ∈ pre_running).
Proof.
  pose proof (endpoint_target_writing e t Ht) as He.
  destruct (writing_rules_ungated e He) as (base & Er & Hb). apply Validate_ok in Hv as (rule & E & Hs).
  cbn [Endpoint CurrentState Caps] in E, Hs. rewrite Er in E. injection E as <-. cbn in Hs.
  pose proof (edges_of_rules e s He (Hb s Hs)) as F. unfold edge_agrees in F. rewrite Ht, Er in F.
  apply mem_spec in Hs. cbn [baseStates] in F. rewrite Hs in F. cbn [implb] in F. apply Bool.eqb_prop in F.
  rewrite <- String.eqb_eq, <- (mem_spec s pre_running), <- andb_true_iff. unfold IsValid.
  rewrite (IsValid_Ok session_table). change (@valid_transitions session_table) with ValidTransitions.
  destruct (String.eqb e EndpointTerminate && mem s pre_running).
  - apply bool_decide_eq_false in F. split; [intros ?; by destruct F|intros H; by destruct H].
  - apply bool_decide_eq_true in F. split; [intros _; discriminate|intros _; exact F].
Qed.

Lemma endpoints_follow_lifecycle_witness :
  IsValid StateRunning StateCompleted = Ok () /\ IsValid StateReady StateCompleted <> Ok ().
Proof.
  split.
  - apply (endpoints_follow_lifecycle EndpointTerminate StateRunning StateCompleted ∅); [reflexivity|vm_compute; reflexivity|].
    intros [_ H%mem_spec]. vm_compute in H. discriminate H.
  - intros H. apply (endpoints_follow_lifecycle EndpointTerminate StateReady StateCompleted ∅ eq_refl) in H;
      [|vm_compute; reflexivity].
    apply H. split; [reflexivity|]. apply mem_spec. vm_compute. reflexivity.
Defined.

(** *** Identifiers of one tree share their prefix *)

Definition bytes (l : list Z) : Prop := Forall (fun b => 0 <= b < 256)%Z l.

Lemma fromHexChar_digit n : (0 <= n < 16)%Z -> fromHexChar (hexDigit n) = Some n.
Proof.
  intros H. assert (n ∈ seqZ 0 16) as Hn by (apply elem_of_seqZ; lia).
  assert (Forall (fun n => fromHexChar (hexDigit n) = Some n) (seqZ 0 16)) as F by (repeat constructor).
  rewrite Forall_forall in F. by apply F.
Qed.

Lemma nibbles b : (0 <= b < 256)%Z ->
  (0 <= Z.shiftr b 4 < 16)%Z /\ (0 <= Z.land b 15 < 16)%Z /\ Z.lor (Z.shiftl (Z.shiftr b 4) 4) (Z.land b 15) = b.
Proof.
  intros H. change 15%Z with (Z.ones 4). split_and!.
  1-2: rewrite Z.shiftr_div_pow2 by lia; change (2 ^ 4)%Z with 16%Z; pose proof (Z.div_mod b 16); pose proof (Z.mod_pos_bound b 16); lia.
  1-2: rewrite Z.land_ones by lia; pose proof (Z.mod_pos_bound b (2 ^ 4)); lia.
  rewrite <- Z.ldiff_ones_r by lia. apply Z.lor_ldiff_and.
Qed.

Lemma hexDecode_hexString bs rest : bytes bs -> hexDecode (length bs) (hexString bs +:+ rest) = Some bs.
Proof.
  induction 1 as [|b bs Hb Hbs IH]; [done|]. destruct (nibbles b Hb) as (? & ? & E).
  cbn [hexString length]. rewrite !append_cons. cbn [hexDecode]. rewrite !fromHexChar_digit by done.
  cbn [mbind option_bind]. rewrite IH. cbn [mbind option_bind]. by rewrite E.
Qed.

Lemma hexDigit_dash n : Ascii.eqb (hexDigit n) "-" = false.
Proof.
  unfold hexDigit. generalize (Z.to_nat n). intros k. do 16 (destruct k as [|k]; [reflexivity|]). reflexivity.
Qed.

Lemma indexByte_hexString bs rest :
  indexByte "-" (hexString bs +:+ String "-" rest) = Some (2 * length bs).
Proof.
  induction bs as [|b bs IH]; [done|].
  cbn [hexString length]. rewrite !append_cons. cbn [indexByte]. rewrite !hexDigit_dash, IH. cbn. f_equal. lia.
Qed.

Lemma stampVersion_prefix b : take 4 (stampVersion b) = take 4 b.
Proof. unfold stampVersion. by rewrite !take_insert_ge by lia. Qed.

Lemma formatUUID_prefix b : length b = 16 -> bytes (take 4 b) -> routingPrefix (formatUUID b) = Ok (take 4 b).
Proof.
  intros Hl Hb. unfold routingPrefix, formatUUID. rewrite append_cons, append_nil_l.
  rewrite indexByte_hexString, length_take, Hl. cbn [Nat.min Nat.mul Nat.add].
  replace 4 with (length (take 4 b)) at 1 by (rewrite length_take; lia). by rewrite hexDecode_hexString.
Qed.

(** The identifiers of a delegation tree: the root's, and one for every
    child, made from the identifier of a member. *)
Inductive tree_id (p : list Z) : string -> Prop :=
| root_id random : length random = 16 -> bytes random -> take 4 random = p -> tree_id p (NewID random)
| child_id parent random id : tree_id p parent -> length random = 16 -> bytes random ->
    NewChildID parent random = Ok id -> tree_id p id.

Lemma tree_id_prefix p id : tree_id p id -> routingPrefix id = Ok p.
Proof.
  assert (forall b, length (stampVersion b) = length b) as Hlen by (intros; unfold stampVersion; by rewrite !length_insert).
  induction 1 as [random Hl Hb <-|parent random id Hp IH Hl Hb E].
  - unfold NewID. rewrite formatUUID_prefix; rewrite ?Hlen, ?stampVersion_prefix; [done..|]. by apply Forall_take.
  - assert (length p = 4 /\ bytes p) as [Hp4 Hpb].
    { clear -Hp. induction Hp as [r Hl Hb <-|]; [|done]. rewrite length_take, Hl. split; [done|]. by apply Forall_take. }
    unfold NewChildID in E. rewrite IH in E. cbn [rbind] in E. injection E as <-.
    rewrite formatUUID_prefix; rewrite ?Hlen, ?stampVersion_prefix, ?take_app_length' by done; try done.
    rewrite length_app, length_drop. lia.
Qed.

(** C40. The identifier of a child carries the routing prefix of its tree, so
    identifiers can be made from any member, never fail, and all members of a
    tree have one prefix. *)
Theorem child_ids_colocate (p : list Z) (parent : string) (random : list Z)
    (Hp : tree_id p parent) (Hl : length random = 16) (Hb : bytes random) :
  RoutingPrefix parent = Ok (hexString p) /\
  exists id, NewChildID parent random = Ok id /\ RoutingPrefix id = RoutingPrefix parent.
Proof.
  pose proof (tree_id_prefix p parent Hp) as E. unfold RoutingPrefix. rewrite E. split; [done|].
  destruct (NewChildID parent random) as [id|e] eqn:Ec.
  - exists id. split; [done|]. by rewrite (tree_id_prefix p id (child_id p parent random id Hp Hl Hb Ec)).
  - unfold NewChildID in Ec. by rewrite E in Ec.
Qed.

Lemma child_ids_colocate_witness :
  RoutingPrefix (NewID (repeat 171%Z 16)) = Ok "abababab" /\
  exists id, NewChildID (NewID (repeat 171%Z 16)) (repeat 7%Z 16) = Ok id /\
    RoutingPrefix id = RoutingPrefix (NewID (repeat 171%Z 16)).
Proof.
  apply (child_ids_colocate (repeat 171%Z 4)).
  - apply root_id; [reflexivity|repeat (constructor; [lia|]); constructor|reflexivity].
  - reflexivity.
  - repeat (constructor; [lia|]). constructor.
Defined.

(** *** Scopes *)

(** The resolved scope is [siblings] exactly when no ceiling forbids it, the
    default has it and every level that is set has it. *)
Lemma resolved_siblings dflt max tenant runtime :
  ResolveEffectiveMessagingScope dflt max tenant runtime = MessagingScopeSiblings <->
  max <> MessagingScopeDirect /\ dflt = MessagingScopeSiblings /\
  (tenant = "" \/ tenant = MessagingScopeSiblings) /\ (runtime = "" \/ runtime = MessagingScopeSiblings).
Proof.
  rewrite <- !is_empty_spec, <- !String.eqb_eq. unfold ResolveEffectiveMessagingScope, narrowerMessagingScope, restrictiveness, scopeOrDefault.
  destruct (String.eqb dflt MessagingScopeSiblings), (String.eqb tenant MessagingScopeSiblings),
    (String.eqb runtime MessagingScopeSiblings), (String.eqb max MessagingScopeDirect), (is_empty tenant), (is_empty runtime);
    cbn; naive_solver.
Qed.

(** A tenant that sets its own scope replaces the deployment default according
    to the documentation; the code takes the narrower of the two. *)
Lemma tenant_scope_cannot_widen max runtime :
  ResolveEffectiveMessagingScope MessagingScopeDirect max MessagingScopeSiblings runtime <> MessagingScopeSiblings.
Proof. rewrite resolved_siblings. naive_solver. Qed.

Lemma narrow_refl v : AtLeastAsNarrow v v = true.
Proof. apply Z.leb_refl. Qed.

Lemma narrow_trans u v w : AtLeastAsNarrow u v = true -> AtLeastAsNarrow v w = true -> AtLeastAsNarrow u w = true.
Proof. unfold AtLeastAsNarrow. rewrite !Z.leb_le. lia. Qed.
