(* ===== verification/SessionStore.v ===== *)
(** * The session store ([gateway/session/sessionstore])

    The session row, the creation fence ([creation_fence.go],
    [marker_reader.go]), the terminal writes and the pod-holding window
    ([terminal_mark.go]), the accrual of the session age, and the store of
    [memstore] ([memstore.go], [fence.go]) with every operation; [last_seq.go],
    [cascade_listing.go], [VisibleTree] and the guarded terminal write of
    [gateway/sessionserver/session_transitions.go] use them.

    Every call holds the store's mutex, so a call is one step.  Rows are
    values, which is what [cloneRow] achieves in Go.  Ranging over a map is
    ranging over its list of entries; [sort.Slice] then fixes the order except
    between rows created at the same instant. *)

From S2P Require Import Prelude StateMachine SessionApi.

(** ** Rows *)

Section Rows.
Context {Rest : Type}.

(** The columns the store reads or writes; the others are one value [Other]. *)
Record Session := mkSession {
  ID : string; TenantID : string; UserID : string; SState : State;
  RuntimeRef : string; PoolRef : string; ScrubPolicy : string; FailureClass : string;
  ParentSessionID : string; RootSessionID : string; DelegationDepth : Z;
  PodAssignment : string; PodReleasedAt : Time; Labels : gmap string string;
  CreatedAt : Time; UpdatedAt : Time; StateEnteredAt : Time; AccumulatedSessionAgeSeconds : F64.t;
  RecoveryGeneration : Z; CoordinationGeneration : Z; RetryCount : Z; LastSeq : Z; SchemaVersion : Z;
  TerminatedAt : Time; TerminatedReason : string; Other : Rest }.

Definition with_state (st : State) (r : Session) : Session :=
  mkSession r.(ID) r.(TenantID) r.(UserID) st r.(RuntimeRef) r.(PoolRef) r.(ScrubPolicy) r.(FailureClass)
    r.(ParentSessionID) r.(RootSessionID) r.(DelegationDepth) r.(PodAssignment) r.(PodReleasedAt) r.(Labels)
    r.(CreatedAt) r.(UpdatedAt) r.(StateEnteredAt) r.(AccumulatedSessionAgeSeconds) r.(RecoveryGeneration)
    r.(CoordinationGeneration) r.(RetryCount) r.(LastSeq) r.(SchemaVersion) r.(TerminatedAt) r.(TerminatedReason) r.(Other).

Definition with_released (t : Time) (r : Session) : Session :=
  mkSession r.(ID) r.(TenantID) r.(UserID) r.(SState) r.(RuntimeRef) r.(PoolRef) r.(ScrubPolicy) r.(FailureClass)
    r.(ParentSessionID) r.(RootSessionID) r.(DelegationDepth) r.(PodAssignment) t r.(Labels)
    r.(CreatedAt) r.(UpdatedAt) r.(StateEnteredAt) r.(AccumulatedSessionAgeSeconds) r.(RecoveryGeneration)
    r.(CoordinationGeneration) r.(RetryCount) r.(LastSeq) r.(SchemaVersion) r.(TerminatedAt) r.(TerminatedReason) r.(Other).

Definition with_last_seq (n : Z) (r : Session) : Session :=
  mkSession r.(ID) r.(TenantID) r.(UserID) r.(SState) r.(RuntimeRef) r.(PoolRef) r.(ScrubPolicy) r.(FailureClass)
    r.(ParentSessionID) r.(RootSessionID) r.(DelegationDepth) r.(PodAssignment) r.(PodReleasedAt) r.(Labels)
    r.(CreatedAt) r.(UpdatedAt) r.(StateEnteredAt) r.(AccumulatedSessionAgeSeconds) r.(RecoveryGeneration)
    r.(CoordinationGeneration) r.(RetryCount) n r.(SchemaVersion) r.(TerminatedAt) r.(TerminatedReason) r.(Other).

Definition with_terminated (gen : Z) (at_ : Time) (reason : string) (r : Session) : Session :=
  mkSession r.(ID) r.(TenantID) r.(UserID) r.(SState) r.(RuntimeRef) r.(PoolRef) r.(ScrubPolicy) r.(FailureClass)
    r.(ParentSessionID) r.(RootSessionID) r.(DelegationDepth) r.(PodAssignment) r.(PodReleasedAt) r.(Labels)
    r.(CreatedAt) r.(UpdatedAt) r.(StateEnteredAt) r.(AccumulatedSessionAgeSeconds) r.(RecoveryGeneration)
    gen r.(RetryCount) r.(LastSeq) r.(SchemaVersion) at_ reason r.(Other).

(** ** The creation fence *)

Definition RefusalUserInvalidated : string := "USER_INVALIDATED".
Definition RefusalErasureInProgress : string := "ERASURE_IN_PROGRESS".
Definition RefusalTenantSuspended : string := "TENANT_SUSPENDED".
Definition RefusalTenantNotActive : string := "TENANT_NOT_ACTIVE".
Definition RefusalDelegationParentRevoked : string := "DELEGATION_PARENT_REVOKED".

Record CreationMarkers := mkMarkers {
  TenantFound : bool; TenantSuspended : bool; TenantState : string;
  UserFound : bool; UserDisabled : bool; UserDeleted : bool;
  ProcessingRestricted : bool; ErasureJobID : string;
  IsDelegatedChild : bool; MarkerParent : string; ParentTerminal : bool }.

Definition noMarkers : CreationMarkers := mkMarkers false false "" false false false false "" false "" false.

Record CreationRefusal := mkRefusal { Code : string; Details : list (string * string) }.

(** [tenantstore.Tenant.AcceptsNewWork]. *)
Definition AcceptsNewWork (state : string) : bool := is_empty state || String.eqb state "active".

Definition Refusal (m : CreationMarkers) (tenantID userID : string) : option CreationRefusal :=
  if m.(UserFound) && (m.(UserDeleted) || (m.(UserDisabled) && negb m.(IsDelegatedChild)))
  then Some (mkRefusal RefusalUserInvalidated [])
  else if m.(UserFound) && m.(ProcessingRestricted)
  then Some (mkRefusal RefusalErasureInProgress [("userId", userID); ("jobId", m.(ErasureJobID))])
  else if m.(TenantFound) && m.(TenantSuspended)
  then Some (mkRefusal RefusalTenantSuspended [("tenantId", tenantID)])
  else if m.(TenantFound) && negb (AcceptsNewWork m.(TenantState))
  then Some (mkRefusal RefusalTenantNotActive [("tenantId", tenantID); ("state", m.(TenantState))])
  else if m.(IsDelegatedChild) && m.(ParentTerminal)
  then Some (mkRefusal RefusalDelegationParentRevoked [("parentSessionId", m.(MarkerParent))])
  else None.

Definition ReservationEndedRefusal (userID : string) : CreationRefusal :=
  mkRefusal RefusalErasureInProgress [("userId", userID)].

(** What a read of the tenant or user store returns. *)
Inductive RowRead (A : Type) := Found (a : A) | Missing | ReadFailed.
Arguments Found {A}. Arguments Missing {A}. Arguments ReadFailed {A}.

Record TenantRow := mkTenantRow { Suspended : bool; LifeState : string }.
Record UserRow := mkUserRow { Disabled : bool; DeletedAt : Time; Restricted : bool; JobID : string }.

(** [StoreMarkers]; a store that is not wired is [None]. *)
Definition StoreMarkers (tenants : option (string -> RowRead TenantRow))
    (users : option (string -> string -> RowRead UserRow)) (tenantID userID : string) : option CreationMarkers :=
  let tenant := match tenants with None => Missing | Some get => get tenantID end in
  let user := match users with
              | None => Missing
              | Some get => if is_empty userID then Missing else get tenantID userID
              end in
  match tenant, user with
  | ReadFailed, _ | _, ReadFailed => None
  | _, _ =>
      let '(tf, ts, tst) := match tenant with Found t => (true, t.(Suspended), t.(LifeState)) | _ => (false, false, "") end in
      let '(uf, ud, udel, ur, uj) :=
        match user with
        | Found u => (true, u.(Disabled), negb (time_is_zero u.(DeletedAt)), u.(Restricted), u.(JobID))
        | _ => (false, false, false, false, "")
        end in
      Some (mkMarkers tf ts tst uf ud udel ur uj false "" false)
  end.

(** ** Terminal writes and the pods rows hold *)

Definition terminatedReason (st : State) : string :=
  if String.eqb st StateCompleted then "Completed"
  else if String.eqb st StateFailed then "Failed"
  else if String.eqb st StateCancelled then "Cancelled"
  else if String.eqb st StateExpired then "Expired"
  else "".

Definition MarkTerminated (r : Session) (from : State) (now : Time) : Session :=
  let reason := terminatedReason r.(SState) in
  if is_empty reason then r
  else with_terminated
         (if String.eqb from StateResuming then wrap64 (r.(CoordinationGeneration) + 1) else r.(CoordinationGeneration))
         (if time_is_zero r.(TerminatedAt) then now else r.(TerminatedAt)) reason r.

Definition InPostTerminalWindow (s : Session) (now : Time) (cap : Duration) : bool :=
  if (cap <=? 0)%Z || negb (IsTerminal s.(SState)) then false
  else if is_empty s.(PodAssignment) || negb (time_is_zero s.(PodReleasedAt)) || time_is_zero s.(TerminatedAt) then false
  else time_before now (time_add s.(TerminatedAt) cap).

Definition HoldsPod (s : Session) (now : Time) (cap : Duration) : bool :=
  if is_empty s.(PodAssignment) then false
  else negb (IsTerminal s.(SState)) || InPostTerminalWindow s now cap.

(** ** What a write accrues *)

Definition SessionAgeCounts (st : State) : bool :=
  mem st [StateStarting; StateRunning; StateInputRequired].

(** The age after a write at [now] of a row in state [prev] since
    [prevUpdatedAt]. *)
Definition AccrueSessionAge (prev : State) (prevUpdatedAt : Time) (age : F64.t) (now : Time) : F64.t :=
  if negb (SessionAgeCounts prev) || negb (time_after now prevUpdatedAt) then age
  else F64.add age (F64.of_duration_seconds (time_sub now prevUpdatedAt)).

Definition StampStateEntry (prev : State) (prevEntered : Time) (st : State) (now : Time) : Time :=
  if String.eqb st prev then prevEntered else now.

(** ** Errors *)

Inductive StoreErr :=
| ErrNotFound | ErrAlreadyExists | ErrGenerationAdvanced | ErrTranscriptCopierUnwired | ErrSuperseded
| ErrRefused (r : CreationRefusal) | ErrMarkerRead | ErrCopy | ErrArgument
| ErrPrecondition (e : ApiError) | ErrMutate.

Definition Mutate : Type := Session -> result StoreErr Session.

Definition MarkPodReleased (now : Time) : Mutate := fun r =>
  if negb (IsTerminal r.(SState)) || negb (time_is_zero r.(PodReleasedAt)) then Err ErrSuperseded
  else Ok (with_released now r).

(** The mutator of [handleTerminalWrite]. *)
Definition guardedTerminal (endpoint : string) (transition : Session -> Session) (now : Time) : Mutate := fun locked =>
  match Validate (mkRequest endpoint locked.(SState) ∅) with
  | Err e => Err (ErrPrecondition e)
  | Ok _ => Ok (MarkTerminated (transition locked) locked.(SState) now)
  end.

Definition transitionTerminate : Session -> Session := with_state StateCompleted.
Definition transitionDelete : Session -> Session := with_state StateCancelled.

(** The mutator of [AdvanceLastSeq]. *)
Definition raiseLastSeq (seq : Z) : Mutate := fun row =>
  Ok (if (row.(LastSeq) <? seq)%Z then with_last_seq seq row else row).
End Rows.
Arguments Session : clear implicits.
Arguments Mutate : clear implicits.

(** ** The store *)

Definition wrap32 (x : Z) : Z := ((x + 2 ^ 31) mod 2 ^ 32 - 2 ^ 31)%Z.

Section Store.
Context {Rest : Type}.
#[local] Abbreviation Session := (Session Rest).
#[local] Abbreviation Mutate := (Mutate Rest).

Record reservation := mkReservation { RTenant : string; RSession : string; RUser : string; RCreatedAt : Time }.

Record Store := mkStore {
  sessions : gmap string Session;
  reservations : gmap string reservation;
  slotReservations : gmap string (gmap string Time);
  postTerminalCap : Duration }.

(** What one call reads from outside: the clock, the marker reader
    ([WithCreationMarkers], [None] for a read that fails) and whether copying a
    transcript succeeds ([WithTranscriptCopier]). *)
Record Call := mkCall {
  now : Time;
  markers : option (string -> string -> option CreationMarkers);
  copyTranscript : option (string -> string -> string -> bool) }.

Definition New (cap : Duration) : Store := mkStore ∅ ∅ ∅ cap.

Definition with_rows (m : gmap string Session) (s : Store) : Store :=
  mkStore m s.(reservations) s.(slotReservations) s.(postTerminalCap).
Definition with_reservations (m : gmap string reservation) (s : Store) : Store :=
  mkStore s.(sessions) m s.(slotReservations) s.(postTerminalCap).
Definition with_slots (m : gmap string (gmap string Time)) (s : Store) : Store :=
  mkStore s.(sessions) s.(reservations) m s.(postTerminalCap).

Definition reservationKey (tenantID sessionID : string) : string := tenantID +:+ "/" +:+ sessionID.

Definition holdsPodLocked (c : Call) (s : Store) (row : Session) : bool := HoldsPod row c.(now) s.(postTerminalCap).

(** *** Creating *)

Definition parentTerminalLocked (s : Store) (tenantID parentSessionID : string) : bool :=
  if is_empty parentSessionID then true
  else match s.(sessions) !! parentSessionID with
       | None => true
       | Some parent => negb (String.eqb parent.(TenantID) tenantID) || IsTerminal parent.(SState)
       end.

Definition fenceLocked (c : Call) (s : Store) (tenantID ownerUserID : string) (delegatedChild checkParent : bool)
    (parentSessionID : string) : option StoreErr :=
  match (match c.(markers) with None => Some noMarkers | Some read => read tenantID ownerUserID end) with
  | None => Some ErrMarkerRead
  | Some m =>
      let parent := delegatedChild && checkParent in
      let m := mkMarkers m.(TenantFound) m.(TenantSuspended) m.(TenantState) m.(UserFound) m.(UserDisabled)
                 m.(UserDeleted) m.(ProcessingRestricted) m.(ErasureJobID) delegatedChild
                 (if parent then parentSessionID else m.(MarkerParent))
                 (if parent then parentTerminalLocked s tenantID parentSessionID else m.(ParentTerminal)) in
      ErrRefused <$> Refusal m tenantID ownerUserID
  end.

Definition rootOf (s : Store) (sess : Session) : string :=
  if negb (is_empty sess.(RootSessionID)) then sess.(RootSessionID)
  else let inherited :=
         if is_empty sess.(ParentSessionID) then ""
         else match s.(sessions) !! sess.(ParentSessionID) with
              | Some parent =>
                  if String.eqb parent.(TenantID) sess.(TenantID)
                  then if is_empty parent.(RootSessionID) then parent.(ID) else parent.(RootSessionID)
                  else ""
              | None => ""
              end in
       if is_empty inherited then sess.(ID) else inherited.

(** The defaults of a new row. *)
Definition fresh_row (c : Call) (s : Store) (sess : Session) : Session :=
  let created := if time_is_zero sess.(CreatedAt) then c.(now) else sess.(CreatedAt) in
  let updated := if time_is_zero sess.(UpdatedAt) then created else sess.(UpdatedAt) in
  mkSession sess.(ID) sess.(TenantID) sess.(UserID) sess.(SState) sess.(RuntimeRef) sess.(PoolRef) sess.(ScrubPolicy)
    sess.(FailureClass) sess.(ParentSessionID) (rootOf s sess) sess.(DelegationDepth) sess.(PodAssignment)
    sess.(PodReleasedAt) sess.(Labels) created updated created sess.(AccumulatedSessionAgeSeconds)
    sess.(RecoveryGeneration) (if (sess.(CoordinationGeneration) =? 0)%Z then 1 else sess.(CoordinationGeneration))
    sess.(RetryCount) sess.(LastSeq) (if (sess.(SchemaVersion) =? 0)%Z then 1 else sess.(SchemaVersion))
    sess.(TerminatedAt) sess.(TerminatedReason) sess.(Other).

Definition deleteOwnReservationLocked (sess : Session) (m : gmap string reservation) : gmap string reservation :=
  let k := reservationKey sess.(TenantID) sess.(ID) in
  if is_empty sess.(UserID) then m
  else match m !! k with
       | Some r => if String.eqb r.(RUser) sess.(UserID) then delete k m else m
       | None => m
       end.

Definition createLocked (c : Call) (s : Store) (sess : Session) (before : Session -> option StoreErr)
    : Store * result StoreErr () :=
  match fenceLocked c s sess.(TenantID) sess.(UserID) (0 <? sess.(DelegationDepth))%Z true sess.(ParentSessionID) with
  | Some e => (s, Err e)
  | None =>
      match s.(sessions) !! sess.(ID) with
      | Some _ => (s, Err ErrAlreadyExists)
      | None =>
          let sess := fresh_row c s sess in
          match before sess with
          | Some e => (s, Err e)
          | None => (mkStore (<[sess.(ID) := sess]> s.(sessions))
                       (deleteOwnReservationLocked sess s.(reservations)) s.(slotReservations) s.(postTerminalCap), Ok ())
          end
      end
  end.

Definition Create (c : Call) (s : Store) (sess : Session) : Store * result StoreErr () :=
  createLocked c s sess (fun _ => None).

Definition CreateIfGeneration (c : Call) (s : Store) (sess : Session) (sourceTenantID sourceID : string) (wantGen : Z)
    : Store * result StoreErr () :=
  createLocked c s sess (fun _ =>
    match s.(sessions) !! sourceID with
    | None => Some ErrNotFound
    | Some src =>
        if negb (String.eqb src.(TenantID) sourceTenantID) then Some ErrNotFound
        else if negb (src.(CoordinationGeneration) =? wantGen)%Z then Some ErrGenerationAdvanced
        else None
    end).

Definition requireReservationLocked (s : Store) (row : Session) : option StoreErr :=
  if is_empty row.(UserID) then None
  else match s.(reservations) !! reservationKey row.(TenantID) row.(ID) with
       | Some r => if String.eqb r.(RUser) row.(UserID) then None
                   else Some (ErrRefused (ReservationEndedRefusal row.(UserID)))
       | None => Some (ErrRefused (ReservationEndedRefusal row.(UserID)))
       end.

Definition CreateReserved (c : Call) (s : Store) (sess : Session) : Store * result StoreErr () :=
  createLocked c s sess (requireReservationLocked s).

Definition CreateWithTranscript (c : Call) (s : Store) (sess : Session) (transcriptSourceID : string)
    : Store * result StoreErr () :=
  match c.(copyTranscript) with
  | None => (s, Err ErrTranscriptCopierUnwired)
  | Some copy =>
      createLocked c s sess (fun row =>
        match requireReservationLocked s row with
        | Some e => Some e
        | None => if copy row.(TenantID) transcriptSourceID row.(ID) then None else Some ErrCopy
        end)
  end.

Definition Reserve (c : Call) (s : Store) (tenantID ownerUserID sessionID : string) (delegatedChild : bool)
    : Store * result StoreErr () :=
  match fenceLocked c s tenantID ownerUserID delegatedChild false "" with
  | Some e => (s, Err e)
  | None =>
      if is_empty ownerUserID then (s, Ok ())
      else let k := reservationKey tenantID sessionID in
           match s.(reservations) !! k with
           | Some _ => (s, Err ErrAlreadyExists)
           | None => (with_reservations (<[k := mkReservation tenantID sessionID ownerUserID c.(now)]> s.(reservations)) s, Ok ())
           end
  end.

Definition ReleaseReservation (s : Store) (tenantID sessionID : string) : Store :=
  with_reservations (delete (reservationKey tenantID sessionID) s.(reservations)) s.

Definition reserved_le (a b : reservation) : Prop :=
  (a.(RCreatedAt) < b.(RCreatedAt))%Z \/ (a.(RCreatedAt) = b.(RCreatedAt) /\ String.le a.(RSession) b.(RSession)).
#[export] Instance reserved_le_dec : RelDecision reserved_le.
Proof. intros a b. unfold reserved_le. apply _. Defined.

Definition ReservedSessionIDs (s : Store) (tenantID userID : string) : list string :=
  RSession <$> merge_sort reserved_le
    (filter (fun r => String.eqb r.(RTenant) tenantID && String.eqb r.(RUser) userID = true)
       ((map_to_list s.(reservations)).*2)).

(** *** Reading *)

Definition Get (s : Store) (tenantID id : string) : result StoreErr Session :=
  match s.(sessions) !! id with
  | Some row => if String.eqb row.(TenantID) tenantID then Ok row else Err ErrNotFound
  | None => Err ErrNotFound
  end.

Definition GetByID (s : Store) (id : string) : result StoreErr Session :=
  match s.(sessions) !! id with Some row => Ok row | None => Err ErrNotFound end.

Record ListFilter := mkFilter {
  FState : State; FRuntimeRef : string; FFailureClass : string; FUserID : string;
  FLabels : gmap string string; FExcludeDeriveFailures : bool; FPrimary : bool }.

Definition labelsContain (have want : gmap string string) : bool :=
  forallb (fun kv => bool_decide (have !! kv.1 = Some kv.2)) (map_to_list want).

Definition listed (tenantID : string) (f : ListFilter) (row : Session) : bool :=
  String.eqb row.(TenantID) tenantID
  && (is_empty f.(FState) || String.eqb row.(SState) f.(FState))
  && (is_empty f.(FRuntimeRef) || String.eqb row.(RuntimeRef) f.(FRuntimeRef))
  && (is_empty f.(FFailureClass) || String.eqb row.(FailureClass) f.(FFailureClass))
  && (is_empty f.(FUserID) || String.eqb row.(UserID) f.(FUserID))
  && labelsContain row.(Labels) f.(FLabels)
  && negb (f.(FExcludeDeriveFailures) && String.eqb row.(FailureClass) FailureClassDeriveFailure).

Definition created_ge (a b : Session) : Prop := (b.(CreatedAt) <= a.(CreatedAt))%Z.
#[export] Instance created_ge_dec : RelDecision created_ge.
Proof. intros a b. unfold created_ge. apply _. Defined.
Definition created_le (a b : Session) : Prop := (a.(CreatedAt) <= b.(CreatedAt))%Z.
#[export] Instance created_le_dec : RelDecision created_le.
Proof. intros a b. unfold created_le. apply _. Defined.
Definition id_le (a b : Session) : Prop := String.le a.(ID) b.(ID).
#[export] Instance id_le_dec : RelDecision id_le.
Proof. intros a b. unfold id_le. apply _. Defined.

Definition rows_where (p : Session -> bool) (s : Store) : list Session :=
  filter (fun r => p r = true) ((map_to_list s.(sessions)).*2).

Definition List_ (s : Store) (tenantID : string) (f : ListFilter) : list Session :=
  merge_sort created_ge (rows_where (listed tenantID f) s).

Definition ListPodlessSuspended (s : Store) (tenantID afterID : string) (limit : Z) : list Session :=
  let out := merge_sort id_le (rows_where (fun row =>
    String.eqb row.(TenantID) tenantID && String.eqb row.(SState) StateSuspended && is_empty row.(PodAssignment)
    && (is_empty afterID || negb (String.leb row.(ID) afterID))) s) in
  if (0 <? limit)%Z && (limit <? Z.of_nat (length out))%Z then take (Z.to_nat limit) out else out.

Definition ListByRoot (s : Store) (tenantID rootSessionID : string) : list Session :=
  if is_empty rootSessionID then []
  else merge_sort created_le (rows_where (fun row =>
         String.eqb row.(TenantID) tenantID
         && String.eqb (if is_empty row.(RootSessionID) then row.(ID) else row.(RootSessionID)) rootSessionID) s).

(** *** Updating *)

Definition monotonicNext (prev now : Time) : Time :=
  if negb (time_after now prev) then time_add prev Nanosecond else now.

(** What [Update] stores of the row a mutator returned, the stored row being
    [prev]: generations, counters and the sequence number do not go down, and
    the age, the entry instant and the write instant are the store's. *)
Definition written (at_ : Time) (prev row : Session) : Session :=
  mkSession row.(ID) row.(TenantID) row.(UserID) row.(SState) row.(RuntimeRef) row.(PoolRef) row.(ScrubPolicy)
    row.(FailureClass) row.(ParentSessionID) row.(RootSessionID) row.(DelegationDepth) row.(PodAssignment)
    row.(PodReleasedAt) row.(Labels) row.(CreatedAt) at_
    (StampStateEntry prev.(SState) prev.(StateEnteredAt) row.(SState) at_)
    (AccrueSessionAge prev.(SState) prev.(UpdatedAt) prev.(AccumulatedSessionAgeSeconds) at_)
    (if (row.(RecoveryGeneration) <? prev.(RecoveryGeneration))%Z then prev.(RecoveryGeneration) else row.(RecoveryGeneration))
    (if (row.(CoordinationGeneration) <? prev.(CoordinationGeneration))%Z then prev.(CoordinationGeneration)
     else row.(CoordinationGeneration))
    (if (row.(RetryCount) <? prev.(RetryCount))%Z then prev.(RetryCount) else row.(RetryCount))
    (if (row.(LastSeq) <? prev.(LastSeq))%Z then prev.(LastSeq) else row.(LastSeq))
    (if (row.(SchemaVersion) =? 0)%Z then 1 else row.(SchemaVersion))
    row.(TerminatedAt) row.(TerminatedReason) row.(Other).

Definition Update (c : Call) (s : Store) (tenantID id : string) (mutate : Mutate) : Store * result StoreErr Session :=
  match s.(sessions) !! id with
  | None => (s, Err ErrNotFound)
  | Some prev =>
      if negb (String.eqb prev.(TenantID) tenantID) then (s, Err ErrNotFound)
      else match mutate prev with
           | Err e => (s, Err e)
           | Ok row =>
               let row := written (monotonicNext prev.(UpdatedAt) c.(now)) prev row in
               (with_rows (<[id := row]> s.(sessions)) s, Ok row)
           end
  end.

(** *** Deleting *)

Definition Delete (s : Store) (tenantID id : string) : Store * result StoreErr () :=
  match s.(sessions) !! id with
  | None => (s, Err ErrNotFound)
  | Some row => if String.eqb row.(TenantID) tenantID then (with_rows (delete id s.(sessions)) s, Ok ())
                else (s, Err ErrNotFound)
  end.

Definition erase (p : Session -> bool) (q : reservation -> bool) (s : Store) : Store * Z :=
  (mkStore (filter (fun kv => p kv.2 = false) s.(sessions)) (filter (fun kv => q kv.2 = false) s.(reservations))
     s.(slotReservations) s.(postTerminalCap),
   Z.of_nat (size (filter (fun kv => p kv.2 = true) s.(sessions)))).

Definition DeleteByUser (s : Store) (tenantID userID : string) : Store * Z :=
  erase (fun row => String.eqb row.(TenantID) tenantID && String.eqb row.(UserID) userID)
        (fun r => String.eqb r.(RTenant) tenantID && String.eqb r.(RUser) userID) s.

Definition DeleteByTenant (s : Store) (tenantID : string) : Store * Z :=
  erase (fun row => String.eqb row.(TenantID) tenantID) (fun r => String.eqb r.(RTenant) tenantID) s.

(** *** Slots *)

Definition holders (c : Call) (s : Store) (podID : string) : list string :=
  ID <$> rows_where (fun row => String.eqb row.(PodAssignment) podID && holdsPodLocked c s row) s.

Definition GetActiveSlotsByPod (c : Call) (s : Store) (podID : string) : list string :=
  if is_empty podID then [] else sort_strings (holders c s podID).

Definition ListPodsWithActiveSlots (c : Call) (s : Store) : list string :=
  sort_strings (elements (C := gset string) (list_to_set
    (PodAssignment <$> rows_where (fun row =>
       String.eqb row.(ScrubPolicy) "best-effort-per-slot" && holdsPodLocked c s row) s))).

(** [uuid_ok] is [uuid.Parse]. *)
Definition ListStaleTerminalSessions (uuid_ok : string -> bool) (s : Store) (ids : list string) (terminatedBefore : Time)
    : list string :=
  filter (fun id => uuid_ok id &&
    match s.(sessions) !! id with
    | None => false
    | Some row => IsTerminal row.(SState) && negb (time_is_zero row.(TerminatedAt))
                  && time_before row.(TerminatedAt) terminatedBefore
    end = true) ids.

Definition ListAbsentSessions (s : Store) (ids : list string) : list string :=
  filter (fun id => s.(sessions) !! id = None) ids.

Definition reserved_on (s : Store) (podID : string) : gmap string Time := default ∅ (s.(slotReservations) !! podID).

Definition occupancy (c : Call) (s : Store) (podID : string) : gset string :=
  list_to_set (holders c s podID) ∪ dom (reserved_on s podID).

Definition occupancyLocked (c : Call) (s : Store) (podID sessionID : string) : Z :=
  wrap32 (Z.of_nat (size (occupancy c s podID ∖ {[sessionID]}))).

Definition recordSlotReservationLocked (c : Call) (s : Store) (podID sessionID : string) : Store * bool :=
  let byPod := reserved_on s podID in
  match byPod !! sessionID with
  | Some _ => (s, false)
  | None => (with_slots (<[podID := <[sessionID := c.(now)]> byPod]> s.(slotReservations)) s, true)
  end.

Definition ReserveSlotUnderLock (c : Call) (s : Store) (podID sessionID : string) (maxConcurrent : Z)
    : Store * result StoreErr (Z * bool) :=
  if is_empty podID then (s, Ok (0%Z, false))
  else if (maxConcurrent <? 1)%Z then (s, Err ErrArgument)
  else if is_empty sessionID then (s, Err ErrArgument)
  else let current := occupancyLocked c s podID sessionID in
       if (maxConcurrent <=? current)%Z then (s, Ok (current, false))
       else ((recordSlotReservationLocked c s podID sessionID).1, Ok (wrap32 (current + 1), true)).

Definition RecordSlotReservation (c : Call) (s : Store) (podID sessionID : string) : Store * result StoreErr bool :=
  if is_empty podID || is_empty sessionID then (s, Err ErrArgument)
  else let '(s, b) := recordSlotReservationLocked c s podID sessionID in (s, Ok b).

Definition DeleteSlotReservation (s : Store) (podID sessionID : string) : Store :=
  match s.(slotReservations) !! podID with
  | None => s
  | Some byPod =>
      let byPod := delete sessionID byPod in
      with_slots (if bool_decide (byPod = ∅) then delete podID s.(slotReservations)
                  else <[podID := byPod]> s.(slotReservations)) s
  end.

Definition reservationSessionLive (s : Store) (pod id : string) (cutoff : Time) : bool :=
  match s.(sessions) !! id with
  | None => false
  | Some row =>
      if negb (IsTerminal row.(SState)) then is_empty row.(PodAssignment) || String.eqb row.(PodAssignment) pod
      else time_is_zero row.(TerminatedAt) || negb (time_before row.(TerminatedAt) cutoff)
  end.

Definition reclaimable (s : Store) (cutoff : Time) (pod id : string) (at_ : Time) : bool :=
  time_before at_ cutoff && negb (reservationSessionLive s pod id cutoff).

Definition ReclaimSlotReservations (s : Store) (cutoff : Time) : Store * Z :=
  let kept := map_imap (fun pod byPod =>
    let byPod := filter (fun kv => reclaimable s cutoff pod kv.1 kv.2 = false) byPod in
    if bool_decide (byPod = ∅) then None else Some byPod) s.(slotReservations) in
  (with_slots kept s,
   foldr Z.add 0%Z ((fun pb : string * gmap string Time =>
     Z.of_nat (size (filter (fun kv => reclaimable s cutoff pb.1 kv.1 kv.2 = true) pb.2)))
       <$> map_to_list s.(slotReservations))).

(** *** Counting *)

Definition count (p : Session -> bool) (s : Store) : Z := Z.of_nat (length (rows_where p s)).

Definition PoolDrainStats (s : Store) (poolRef : string) : Z * Time :=
  if is_empty poolRef then (0%Z, zero_time)
  else foldl (fun '(n, oldest) row =>
         ((n + 1)%Z, if time_is_zero oldest || time_before row.(CreatedAt) oldest then row.(CreatedAt) else oldest))
       (0%Z, zero_time) (rows_where (fun row => String.eqb row.(PoolRef) poolRef && negb (IsTerminal row.(SState))) s).

Definition CountActiveSessions (s : Store) (tenantID : string) : Z :=
  if is_empty tenantID then 0
  else count (fun row => String.eqb row.(TenantID) tenantID && CountsTowardConcurrencyCaps row.(SState)) s.

Definition CountActiveSessionsByUser (s : Store) (tenantID userID : string) : Z :=
  if is_empty tenantID || is_empty userID then 0
  else count (fun row => String.eqb row.(TenantID) tenantID && String.eqb row.(UserID) userID
                         && CountsTowardConcurrencyCaps row.(SState)) s.

Definition CountActiveSessionsByRuntime (s : Store) (tenantID runtimeRef : string) : Z :=
  if is_empty tenantID || is_empty runtimeRef then 0
  else count (fun row => String.eqb row.(TenantID) tenantID && String.eqb row.(RuntimeRef) runtimeRef
                         && CountsTowardConcurrencyCaps row.(SState)) s.

Definition CountActiveSessionsGlobal (s : Store) : Z := count (fun row => CountsTowardConcurrencyCaps row.(SState)) s.

Definition CountActiveSessionsInRecoveryGlobal (s : Store) : Z := count (fun row => IsRecovery row.(SState)) s.

Definition CountActiveDelegatedChildrenByUser (s : Store) (tenantID userID : string) : Z :=
  if is_empty tenantID || is_empty userID then 0
  else count (fun row => String.eqb row.(TenantID) tenantID && String.eqb row.(UserID) userID
                         && negb (is_empty row.(ParentSessionID)) && negb (IsTerminal row.(SState))) s.

(** *** Over the store *)

Definition LoadLastSeq (s : Store) (tenantID sessionID : string) : Z :=
  match Get s tenantID sessionID with Ok row => row.(LastSeq) | Err _ => 0 end.

Definition AdvanceLastSeq (c : Call) (s : Store) (tenantID sessionID : string) (seq : Z) : Store * result StoreErr () :=
  let '(s, r) := Update c s tenantID sessionID (raiseLastSeq seq) in
  (s, match r with Ok _ | Err ErrNotFound => Ok () | Err e => Err e end).

Definition RecordPodRelease (c : Call) (s : Store) (tenantID sessionID : string) (at_ : Time) : Store * result StoreErr () :=
  let '(s, r) := Update c s tenantID sessionID (MarkPodReleased at_) in
  (s, match r with Ok _ | Err ErrNotFound | Err ErrSuperseded => Ok () | Err e => Err e end).

Definition primary : ListFilter := mkFilter "" "" "" "" ∅ false true.

(** The children of one parent in [ChildrenByParent]. *)
Definition ChildrenByParent (s : Store) (tenantID : string) (parentID : string) : list Session :=
  filter (fun row => row.(ParentSessionID) <> "" /\ row.(ParentSessionID) = parentID) (List_ s tenantID primary).

(** The session that roots the response and the identifiers it may show,
    [None] for no restriction. *)
Definition VisibleTree (caller : Session) (all : list Session) (vis : string) : Session * option (gset string) :=
  let vis := visOrDefault vis in
  let find id := head (filter (fun s => s.(ID) = id) all) in
  if String.eqb vis VisibilitySelfOnly then (caller, Some {[caller.(ID)]})
  else if String.eqb vis VisibilityParentAndSelf then
    if is_empty caller.(ParentSessionID) then (caller, Some {[caller.(ID)]})
    else match find caller.(ParentSessionID) with
         | Some s => (s, Some {[s.(ID); caller.(ID)]})
         | None => (caller, Some {[caller.(ID)]})
         end
  else match find (if is_empty caller.(RootSessionID) then caller.(ID) else caller.(RootSessionID)) with
       | Some s => (s, None)
       | None => (caller, None)
       end.
End Store.
Arguments Store : clear implicits.
