(* ===== verification/SessionRuns.v ===== *)
(** * Histories of the session store

    Any sequence of calls of [SessionStore], each with its own clock reading,
    marker reads and mutator.  The theorems: what a row's writes do to it over
    its whole life, that a drain or a cascade sees every row that can still
    exist, that an erasure reaches every reserved identifier, and that the
    outage gate keeps a pod within its capacity. *)

From S2P Require Import Prelude StateMachine SessionApi SessionStore.

Section Runs.
Context {Rest : Type}.
#[local] Abbreviation Session := (Session Rest).
#[local] Abbreviation Store := (Store Rest).

(** The calls that change the store. *)
Inductive op :=
| OCreate (sess : Session)
| OCreateIfGeneration (sess : Session) (sourceTenantID sourceID : string) (wantGen : Z)
| OCreateReserved (sess : Session)
| OCreateWithTranscript (sess : Session) (source : string)
| OReserve (tenantID ownerUserID sessionID : string) (delegatedChild : bool)
| ORelease (tenantID sessionID : string)
| OUpdate (tenantID id : string) (mutate : Mutate Rest)
| ODelete (tenantID id : string)
| ODeleteByUser (tenantID userID : string)
| ODeleteByTenant (tenantID : string)
| OReserveSlot (podID sessionID : string) (maxConcurrent : Z)
| ORecordSlot (podID sessionID : string)
| ODeleteSlot (podID sessionID : string)
| OReclaim (cutoff : Time).

Definition apply_op (s : Store) (co : Call * op) : Store :=
  let c := co.1 in
  match co.2 with
  | OCreate sess => (Create c s sess).1
  | OCreateIfGeneration sess t i g => (CreateIfGeneration c s sess t i g).1
  | OCreateReserved sess => (CreateReserved c s sess).1
  | OCreateWithTranscript sess src => (CreateWithTranscript c s sess src).1
  | OReserve t u i d => (Reserve c s t u i d).1
  | ORelease t i => ReleaseReservation s t i
  | OUpdate t i f => (Update c s t i f).1
  | ODelete t i => (Delete s t i).1
  | ODeleteByUser t u => (DeleteByUser s t u).1
  | ODeleteByTenant t => (DeleteByTenant s t).1
  | OReserveSlot p i n => (ReserveSlotUnderLock c s p i n).1
  | ORecordSlot p i => (RecordSlotReservation c s p i).1
  | ODeleteSlot p i => DeleteSlotReservation s p i
  | OReclaim t => (ReclaimSlotReservations s t).1
  end.

Definition run (ops : list (Call * op)) (s : Store) : Store := foldl apply_op s ops.

Lemma run_snoc ops co s : run (ops ++ [co]) s = apply_op (run ops s) co.
Proof. unfold run. by rewrite foldl_app. Qed.

(** The session a creating call inserts. *)
Definition creates (o : op) : option Session :=
  match o with
  | OCreate sess | OCreateIfGeneration sess _ _ _ | OCreateReserved sess | OCreateWithTranscript sess _ => Some sess
  | _ => None
  end.

(** *** One call *)

Lemma createLocked_cases c (s : Store) sess before s' r :
  createLocked c s sess before = (s', r) ->
  (s' = s /\ exists e, r = Err e) \/
  (r = Ok () /\ s.(sessions) !! sess.(ID) = None /\ before (fresh_row c s sess) = None /\
   fenceLocked c s sess.(TenantID) sess.(UserID) (0 <? sess.(DelegationDepth))%Z true sess.(ParentSessionID) = None /\
   s' = mkStore (<[sess.(ID) := fresh_row c s sess]> s.(sessions))
          (deleteOwnReservationLocked (fresh_row c s sess) s.(reservations)) s.(slotReservations) s.(postTerminalCap)).
Proof.
  unfold createLocked. intros E.
  destruct (fenceLocked _ _ _ _ _ _ _) eqn:Ef; [naive_solver|].
  destruct (s.(sessions) !! sess.(ID)) eqn:El; [naive_solver|].
  destruct (before _) eqn:Eb; [naive_solver|]. right. injection E as <- <-. auto.
Qed.

(** A creating call changes nothing, or inserts the row with its defaults
    after the fence admitted it. *)
Lemma apply_create c o (s : Store) sess : creates o = Some sess ->
  apply_op s (c, o) = s \/
  (s.(sessions) !! sess.(ID) = None /\
   fenceLocked c s sess.(TenantID) sess.(UserID) (0 <? sess.(DelegationDepth))%Z true sess.(ParentSessionID) = None /\
   apply_op s (c, o) = mkStore (<[sess.(ID) := fresh_row c s sess]> s.(sessions))
     (deleteOwnReservationLocked (fresh_row c s sess) s.(reservations)) s.(slotReservations) s.(postTerminalCap)).
Proof.
  assert (forall before, (createLocked c s sess before).1 = s \/
    (s.(sessions) !! sess.(ID) = None /\
     fenceLocked c s sess.(TenantID) sess.(UserID) (0 <? sess.(DelegationDepth))%Z true sess.(ParentSessionID) = None /\
     (createLocked c s sess before).1 = mkStore (<[sess.(ID) := fresh_row c s sess]> s.(sessions))
       (deleteOwnReservationLocked (fresh_row c s sess) s.(reservations)) s.(slotReservations) s.(postTerminalCap))) as H.
  { intros before. destruct (createLocked c s sess before) as [s' r] eqn:E.
    destruct (createLocked_cases _ _ _ _ _ _ E) as [[-> _]|(_ & ? & _ & ? & ->)]; auto. }
  destruct o; cbn [creates]; intros [= <-]; unfold apply_op; cbn [fst snd]; try apply H.
  unfold CreateWithTranscript. destruct (copyTranscript c); [apply H|by left].
Qed.

Lemma Update_cases c (s : Store) t id f :
  (Update c s t id f).1 = s \/
  exists prev row, s.(sessions) !! id = Some prev /\ prev.(TenantID) = t /\ f prev = Ok row /\
    Update c s t id f = (with_rows (<[id := written (monotonicNext prev.(UpdatedAt) c.(now)) prev row]> s.(sessions)) s,
                         Ok (written (monotonicNext prev.(UpdatedAt) c.(now)) prev row)).
Proof.
  unfold Update. destruct (sessions s !! id) as [prev|]; [|by left].
  destruct (String.eqb_spec prev.(TenantID) t) as [|]; [|by left]. cbn [negb].
  destruct (f prev) as [row|] eqn:E; [|by left]. right. eauto 10.
Qed.

Lemma Update_ok c (s : Store) t id f s1 r1 : Update c s t id f = (s1, Ok r1) ->
  exists prev row, s.(sessions) !! id = Some prev /\ prev.(TenantID) = t /\ f prev = Ok row /\
    s1 = with_rows (<[id := r1]> s.(sessions)) s /\ r1 = written (monotonicNext prev.(UpdatedAt) c.(now)) prev row.
Proof.
  unfold Update. destruct (sessions s !! id) as [prev|]; [|done].
  destruct (String.eqb_spec prev.(TenantID) t) as [|]; [|done]. cbn [negb].
  destruct (f prev) as [row|] eqn:E; [|done]. intros [= <- <-]. eauto 10.
Qed.

(** What one call does to the row stored under an identifier. *)
Inductive row_step (c : Call) (o : op) (s : Store) (id : string) : option Session -> Prop :=
| row_kept : row_step c o s id (s.(sessions) !! id)
| row_deleted r : s.(sessions) !! id = Some r ->
    (o = ODelete r.(TenantID) id \/ o = ODeleteByTenant r.(TenantID) \/ o = ODeleteByUser r.(TenantID) r.(UserID)) ->
    row_step c o s id None
| row_created sess : creates o = Some sess -> id = sess.(ID) -> s.(sessions) !! id = None ->
    fenceLocked c s sess.(TenantID) sess.(UserID) (0 <? sess.(DelegationDepth))%Z true sess.(ParentSessionID) = None ->
    row_step c o s id (Some (fresh_row c s sess))
| row_written t f prev row : o = OUpdate t id f -> s.(sessions) !! id = Some prev -> f prev = Ok row ->
    row_step c o s id (Some (written (monotonicNext prev.(UpdatedAt) c.(now)) prev row)).

(** Deleting by a predicate keeps a row or removes it. *)
Lemma lookup_erased {A} (q : A -> bool) (m : gmap string A) k :
  filter (fun kv : string * A => q kv.2 = false) m !! k = m !! k \/
  exists r, m !! k = Some r /\ q r = true /\ filter (fun kv : string * A => q kv.2 = false) m !! k = None.
Proof.
  destruct (m !! k) as [r|] eqn:E; [|left; by apply map_lookup_filter_None_2; left].
  destruct (q r) eqn:Eq; [right; exists r; split_and!; [done..|]|left; by apply map_lookup_filter_Some_2].
  apply map_lookup_filter_None_2. right. intros x Hx HP. cbn in HP. rewrite E in Hx. injection Hx as <-. congruence.
Qed.

Lemma erased_row c o (s : Store) (p : Session -> bool) id :
  (forall r, p r = true -> o = ODeleteByTenant r.(TenantID) \/ o = ODeleteByUser r.(TenantID) r.(UserID)) ->
  row_step c o s id (filter (fun kv : string * Session => p kv.2 = false) s.(sessions) !! id).
Proof.
  intros Hp. destruct (lookup_erased p s.(sessions) id) as [->|(r & E & Hr & ->)]; [constructor|].
  eapply row_deleted; [done|]. right. by apply Hp.
Qed.

Lemma apply_row c o (s : Store) id : row_step c o s id ((apply_op s (c, o)).(sessions) !! id).
Proof.
  destruct (creates o) as [sess|] eqn:Ec.
  { destruct (apply_create c o s sess Ec) as [->|(? & ? & ->)]; [constructor|]. cbn.
    destruct (decide (sess.(ID) = id)) as [<-|]; [rewrite lookup_insert_eq; by econstructor|].
    rewrite lookup_insert_ne by done. constructor. }
  destruct o as [| | | | | |t i f|t i|t u|t|p i n|p i|p i|t]; try discriminate Ec; unfold apply_op; cbn [fst snd].
  - unfold Reserve. repeat case_match; exact (row_kept _ _ _ _).
  - exact (row_kept _ _ _ _).
  - destruct (Update_cases c s t i f) as [->|(prev & row & ? & ? & ? & ->)]; [constructor|]. cbn.
    destruct (decide (i = id)) as [<-|]; [rewrite lookup_insert_eq; by econstructor|].
    rewrite lookup_insert_ne by done. exact (row_kept _ _ _ _).
  - unfold Delete. repeat case_match; try exact (row_kept _ _ _ _). cbn. destruct (decide (i = id)) as [<-|].
    + rewrite lookup_delete_eq. eapply row_deleted; [done|]. left. f_equal. symmetry. by apply String.eqb_eq.
    + rewrite lookup_delete_ne by done. exact (row_kept _ _ _ _).
  - apply erased_row. intros r. rewrite andb_true_iff, !String.eqb_eq. intros [-> ->]. by right.
  - apply erased_row. intros r. rewrite String.eqb_eq. intros ->. by left.
  - unfold ReserveSlotUnderLock, recordSlotReservationLocked. repeat case_match; exact (row_kept _ _ _ _).
  - unfold RecordSlotReservation, recordSlotReservationLocked. repeat case_match; simplify_eq; exact (row_kept _ _ _ _).
  - unfold DeleteSlotReservation. repeat case_match; exact (row_kept _ _ _ _).
  - exact (row_kept _ _ _ _).
Qed.

(** *** The life of a row *)

(** One write of a row: it is stamped later than the one before, no generation
    or counter goes down, the entry instant moves with the state, and the time
    since the last write is added to the age when the timer ran in the state
    the row was in. *)
Record write (prev r : Session) : Prop := mkWrite {
  w_later : (prev.(UpdatedAt) < r.(UpdatedAt))%Z;
  w_recovery : (prev.(RecoveryGeneration) <= r.(RecoveryGeneration))%Z;
  w_coordination : (prev.(CoordinationGeneration) <= r.(CoordinationGeneration))%Z;
  w_retries : (prev.(RetryCount) <= r.(RetryCount))%Z;
  w_seq : (prev.(LastSeq) <= r.(LastSeq))%Z;
  w_entered : r.(StateEnteredAt) = if String.eqb r.(SState) prev.(SState) then prev.(StateEnteredAt) else r.(UpdatedAt);
  w_age : r.(AccumulatedSessionAgeSeconds) =
            if SessionAgeCounts prev.(SState)
            then F64.add prev.(AccumulatedSessionAgeSeconds)
                   (F64.of_duration_seconds (time_sub r.(UpdatedAt) prev.(UpdatedAt)))
            else prev.(AccumulatedSessionAgeSeconds) }.

Lemma monotonicNext_later prev t : (prev < monotonicNext prev t)%Z.
Proof. unfold monotonicNext, time_after, time_add, Nanosecond. destruct (Z.ltb_spec prev t); cbn; lia. Qed.

Lemma floor_le a b : (a <= if (b <? a)%Z then a else b)%Z.
Proof. destruct (Z.ltb_spec b a); lia. Qed.

Lemma written_write t prev row : write prev (written (monotonicNext prev.(UpdatedAt) t) prev row).
Proof.
  pose proof (monotonicNext_later prev.(UpdatedAt) t).
  constructor; cbn -[monotonicNext SessionAgeCounts]; try apply floor_le; [done|done|].
  unfold AccrueSessionAge, time_after. rewrite (proj2 (Z.ltb_lt _ _)) by done. by destruct (SessionAgeCounts _).
Qed.

(** C12. As long as a row is not deleted, every history of calls, whatever the
    clocks say and whatever the mutators return, takes it through a chain of
    writes: instants strictly increase, generations, retry counts and the event
    sequence never go back, the entry instant is that of the last change of
    state, and the age sums the intervals spent in a counting state. *)
Theorem row_history (ops : list (Call * op)) (s : Store) (id : string) (r : Session)
    (Hr : s.(sessions) !! id = Some r)
    (Hkept : forall pre, pre `prefix_of` ops -> is_Some ((run pre s).(sessions) !! id)) :
  exists r', (run ops s).(sessions) !! id = Some r' /\ rtc write r r' /\
    (r' = r \/ (r.(UpdatedAt) < r'.(UpdatedAt))%Z) /\
    (r.(RecoveryGeneration) <= r'.(RecoveryGeneration))%Z /\
    (r.(CoordinationGeneration) <= r'.(CoordinationGeneration))%Z /\
    (r.(RetryCount) <= r'.(RetryCount))%Z /\ (r.(LastSeq) <= r'.(LastSeq))%Z.
Proof.
  assert (exists r', (run ops s).(sessions) !! id = Some r' /\ rtc write r r') as (r' & El & Hw).
  { induction ops as [|[c o] ops IH] using rev_ind; [by exists r|].
    destruct IH as (r1 & E1 & H1). { intros pre Hp. apply Hkept. by apply prefix_app_r. }
    destruct (Hkept (ops ++ [(c, o)]) ltac:(done)) as [r2 E2]. exists r2. split; [done|].
    rewrite run_snoc in E2. pose proof (apply_row c o (run ops s) id) as Hs. rewrite E2 in Hs.
    inversion Hs as [Ek| |sess ? ? En|t f prev row ? Ep]; simplify_eq.
    - done.
    - eapply rtc_r; [done|]. apply written_write. }
  exists r'. split; [done|]. split; [done|]. clear -Hw.
  induction Hw as [|x y z Hxy _ IH]; [split_and!; [by left|lia..]|]. destruct Hxy, IH as (? & ? & ? & ? & ?).
  split_and!; [right|lia..]. destruct H; [by subst|lia].
Qed.

(** *** Rows that can no longer appear *)

(** What says whose a row is; no mutator of the code changes it. *)
Definition ident (r : Session) : string * string * Z * string :=
  (r.(TenantID), r.(UserID), r.(DelegationDepth), r.(ParentSessionID)).

Definition keeps_ident (o : op) : Prop :=
  match o with OUpdate _ _ f => forall r r', f r = Ok r' -> ident r' = ident r | _ => True end.

Definition admitted (c : Call) (s : Store) (sess : Session) : Prop :=
  fenceLocked c s sess.(TenantID) sess.(UserID) (0 <? sess.(DelegationDepth))%Z true sess.(ParentSessionID) = None.

(** A call does not bring in a row of [P]. *)
Definition blocked (P : string * string * Z * string -> Prop) (s : Store) (co : Call * op) : Prop :=
  forall sess, creates co.2 = Some sess -> P (ident sess) -> ~ admitted co.1 s sess.

Lemma no_new_rows P ops (s : Store) id r' :
  Forall (fun co => keeps_ident co.2) ops ->
  (forall pre co, pre ++ [co] `prefix_of` ops -> blocked P (run pre s) co) ->
  (run ops s).(sessions) !! id = Some r' -> P (ident r') ->
  exists r, s.(sessions) !! id = Some r /\ ident r = ident r'.
Proof.
  revert r'. induction ops as [|[c o] ops IH] using rev_ind; [eauto|].
  intros r' [Hk Hk1]%Forall_snoc_1 Hb E HP. cbn in Hk1.
  rewrite run_snoc in E. pose proof (apply_row c o (run ops s) id) as Hs. rewrite E in Hs.
  assert (forall r, (run ops s).(sessions) !! id = Some r -> P (ident r) ->
            exists r0, s.(sessions) !! id = Some r0 /\ ident r0 = ident r) as IH'.
  { intros r Er Pr. apply IH; [done| |done..]. intros pre co Hp. apply Hb. by apply prefix_app_r. }
  inversion Hs as [Ek| |sess Hc ? En Hf|t f prev row -> Ep Ef]; simplify_eq.
  - by apply IH'.
  - exfalso. by apply (Hb ops (c, o) ltac:(done) sess Hc).
  - specialize (Hk1 _ _ Ef). change (ident (written _ prev row)) with (ident row) in *.
    rewrite Hk1 in *. by apply IH'.
Qed.

(** The listing of a scope. *)
Inductive scope := UserScope (tenantID userID : string) | TenantScope (tenantID : string).

Definition scope_tenant (sc : scope) : string := match sc with UserScope t _ | TenantScope t => t end.

Definition scope_filter (sc : scope) : ListFilter :=
  mkFilter "" "" "" (match sc with UserScope _ u => u | TenantScope _ => "" end) ∅ false true.

Definition in_scope (sc : scope) (r : Session) : Prop :=
  r.(TenantID) = scope_tenant sc /\ match sc with UserScope _ u => r.(UserID) = u | TenantScope _ => True end.

(** The marker of the scope is set, or cannot be read: an invalidated or
    restricted user, a suspended tenant or one that is being removed. *)
Definition marked (sc : scope) (c : Call) : Prop :=
  exists read, c.(markers) = Some read /\
  match sc with
  | UserScope t u => forall m, read t u = Some m ->
      m.(UserFound) = true /\ (m.(UserDeleted) = true \/ m.(ProcessingRestricted) = true)
  | TenantScope t => forall u m, read t u = Some m ->
      m.(TenantFound) = true /\ (m.(TenantSuspended) = true \/ AcceptsNewWork m.(TenantState) = false)
  end.

Lemma marked_refuses sc c (s : Store) sess : marked sc c -> in_scope sc sess -> ~ admitted c s sess.
Proof.
  intros (read & Er & Hm) [Ht Hu] Ha. unfold admitted, fenceLocked in Ha. rewrite Er in Ha.
  destruct (read sess.(TenantID) sess.(UserID)) as [m|] eqn:Em; [|done].
  apply fmap_None in Ha. unfold Refusal in Ha.
  cbn [UserFound UserDeleted UserDisabled IsDelegatedChild ProcessingRestricted TenantFound TenantSuspended
       TenantState ErasureJobID MarkerParent ParentTerminal] in Ha.
  destruct sc as [t u|t]; cbn in Ht, Hu; rewrite Ht in Em; rewrite ?Hu in Em.
  - destruct (Hm _ Em) as [Hf [Hd|Hd]]; rewrite Hf, Hd in Ha; cbn in Ha; repeat case_match; done.
  - destruct (Hm _ _ Em) as [Hf [Hd|Hd]]; rewrite Hf, Hd in Ha; cbn in Ha; repeat case_match; done.
Qed.

Lemma List_elem (s : Store) t f r :
  r ∈ List_ s t f <-> listed t f r = true /\ exists id, s.(sessions) !! id = Some r.
Proof.
  unfold List_, rows_where. rewrite merge_sort_Permutation, list_elem_of_filter, list_elem_of_fmap.
  setoid_rewrite elem_of_map_to_list'. split; [intros [? ([] & -> & ?)]; eauto|].
  intros [? [id ?]]. split; [done|]. by exists (id, r).
Qed.

Lemma listed_scope sc (r : Session) : listed (scope_tenant sc) (scope_filter sc) r = true <->
  r.(TenantID) = scope_tenant sc /\ (match sc with UserScope _ u => u = "" \/ r.(UserID) = u | _ => True end).
Proof.
  assert (labelsContain r.(Labels) ∅ = true) as El by (unfold labelsContain; by rewrite map_to_list_empty).
  unfold listed. cbn [FState FRuntimeRef FFailureClass FUserID FLabels FExcludeDeriveFailures scope_filter].
  rewrite El. change (is_empty "") with true. cbn [orb andb negb]. rewrite !andb_true_r, !andb_true_iff, String.eqb_eq.
  destruct sc as [t u|t]; cbn [scope_tenant]; [|by intuition]. rewrite orb_true_iff, String.eqb_eq, is_empty_spec. tauto.
Qed.

(** C10. Once the marker of a user or a tenant is set, a listing of the scope
    shows every session that can exist from then on: whatever calls follow
    while the marker stays, each row of the scope is one the listing had. *)
Theorem drain_is_complete (sc : scope) (ops : list (Call * op)) (s : Store) (id : string) (r' : Session)
    (Hm : Forall (fun co => marked sc co.1) ops) (Hk : Forall (fun co => keeps_ident co.2) ops)
    (Hr : (run ops s).(sessions) !! id = Some r') (Hsc : in_scope sc r') :
  exists r, s.(sessions) !! id = Some r /\ ident r = ident r' /\
    r ∈ List_ s (scope_tenant sc) (scope_filter sc).
Proof.
  set (P := fun i : string * string * Z * string =>
    i.1.1.1 = scope_tenant sc /\ match sc with UserScope _ u => i.1.1.2 = u | TenantScope _ => True end).
  destruct (no_new_rows P ops s id r') as (r & Er & Ei); [done| |done|exact Hsc|].
  { intros pre co Hp sess Hc HP. apply marked_refuses with sc; [|exact HP].
    rewrite Forall_forall in Hm. apply Hm. destruct Hp as [rest ->]. set_solver. }
  exists r. split; [done|]. split; [done|]. apply List_elem. split; [|eauto].
  apply listed_scope. assert (P (ident r)) as [H1 H2] by (rewrite Ei; exact Hsc). destruct sc; cbn in *; auto.
Qed.

(** *** The children of a session that ended *)

Definition keeps_terminal (o : op) : Prop :=
  match o with OUpdate _ _ f => forall r r', f r = Ok r' -> IsTerminal r.(SState) = true -> IsTerminal r'.(SState) = true
             | _ => True end.

Lemma parent_stays_ended ops (s : Store) t p :
  Forall (fun co => keeps_ident co.2) ops -> Forall (fun co => keeps_terminal co.2) ops ->
  Forall (fun co => forall sess, creates co.2 = Some sess -> sess.(ID) <> p) ops ->
  parentTerminalLocked s t p = true -> parentTerminalLocked (run ops s) t p = true.
Proof.
  intros Hk Ht Hc Hp. induction ops as [|[c o] ops IH] using rev_ind; [done|].
  apply Forall_snoc_1 in Hk as [Hk Hk1], Ht as [Ht Ht1], Hc as [Hc Hc1].
  specialize (IH Hk Ht Hc). rewrite run_snoc. unfold parentTerminalLocked in *.
  destruct (is_empty p); [done|]. pose proof (apply_row c o (run ops s) p) as Hs. cbn [snd] in *.
  inversion Hs as [Ek|Ek|sess Hcr ? En Hf Ek|tn f prev row -> Ep Ef Ek]; [by rewrite Ek in *|done|by destruct (Hc1 sess Hcr)|].
  rewrite Ep in IH. specialize (Hk1 _ _ Ef). specialize (Ht1 _ _ Ef).
  cbn [written TenantID SState].
  assert (row.(TenantID) = prev.(TenantID)) as -> by (by injection Hk1).
  apply orb_true_iff in IH as [->|IH]; [done|]. rewrite (Ht1 IH). apply orb_true_r.
Qed.

(** C11. A cascade that lists the children of a session after the session ended
    misses none: whatever calls follow, every delegated child the store then
    has was in the listing. *)
Theorem cascade_is_complete (t p : string) (ops : list (Call * op)) (s : Store) (id : string) (r' : Session)
    (Hp : p <> "") (Hend : parentTerminalLocked s t p = true)
    (Hk : Forall (fun co => keeps_ident co.2) ops) (Ht : Forall (fun co => keeps_terminal co.2) ops)
    (Hc : Forall (fun co => forall sess, creates co.2 = Some sess -> sess.(ID) <> p) ops)
    (Hr : (run ops s).(sessions) !! id = Some r')
    (Hchild : r'.(TenantID) = t /\ r'.(ParentSessionID) = p /\ (0 < r'.(DelegationDepth))%Z) :
  exists r, s.(sessions) !! id = Some r /\ ident r = ident r' /\ r ∈ ChildrenByParent s t p.
Proof.
  set (P := fun i : string * string * Z * string => i.1.1.1 = t /\ i.2 = p /\ (0 < i.1.2)%Z).
  destruct (no_new_rows P ops s id r') as (r & Er & Ei); [done| |done|exact Hchild|].
  { intros pre co [rest ->] sess Hcr (Et & Epar & Hd) Ha. cbn in Et, Epar, Hd.
    assert (parentTerminalLocked (run pre s) t p = true) as Hpt.
    { rewrite !Forall_app in Hk, Ht, Hc. apply parent_stays_ended; tauto. }
    unfold admitted, fenceLocked in Ha. rewrite Et, Epar, (proj2 (Z.ltb_lt _ _) Hd) in Ha. cbn [andb] in Ha.
    destruct (match markers co.1 with None => _ | Some _ => _ end); [|done]. apply fmap_None in Ha.
    unfold Refusal in Ha. cbn in Ha. rewrite Hpt in Ha. repeat case_match; done. }
  exists r. split; [done|]. split; [done|]. assert (P (ident r)) as (E1 & E2 & _) by (rewrite Ei; exact Hchild). cbn in E1, E2.
  unfold ChildrenByParent. apply list_elem_of_filter. split; [by rewrite E2|]. apply List_elem. split; [|eauto].
  apply (listed_scope (TenantScope t)). auto.
Qed.

(** *** Reservations *)

(** What one call does to a reservation. *)
Inductive res_step (c : Call) (o : op) (s : Store) (k : string) : option reservation -> Prop :=
| res_kept : res_step c o s k (s.(reservations) !! k)
| res_released t i : o = ORelease t i -> k = reservationKey t i -> res_step c o s k None
| res_consumed sess r : creates o = Some sess -> k = reservationKey sess.(TenantID) sess.(ID) ->
    s.(reservations) !! k = Some r -> r.(RUser) = sess.(UserID) ->
    (apply_op s (c, o)).(sessions) !! sess.(ID) = Some (fresh_row c s sess) -> res_step c o s k None
| res_erased r : s.(reservations) !! k = Some r ->
    (o = ODeleteByTenant r.(RTenant) \/ o = ODeleteByUser r.(RTenant) r.(RUser)) -> res_step c o s k None
| res_made t u i d : o = OReserve t u i d -> k = reservationKey t i -> u <> "" ->
    s.(reservations) !! k = None -> res_step c o s k (Some (mkReservation t i u c.(now))).

Lemma erased_reservation c o (s : Store) (q : reservation -> bool) k :
  (forall r, q r = true -> o = ODeleteByTenant r.(RTenant) \/ o = ODeleteByUser r.(RTenant) r.(RUser)) ->
  res_step c o s k (filter (fun kv : string * reservation => q kv.2 = false) s.(reservations) !! k).
Proof.
  intros Hq. destruct (lookup_erased q s.(reservations) k) as [->|(r & E & Hr & ->)]; [apply res_kept|].
  by apply (res_erased c o s k r), Hq.
Qed.

Lemma apply_reservation c o (s : Store) k : res_step c o s k ((apply_op s (c, o)).(reservations) !! k).
Proof.
  destruct (creates o) as [sess|] eqn:Ec.
  { destruct (apply_create c o s sess Ec) as [->|(? & ? & E)]; [apply res_kept|]. rewrite E. cbn.
    unfold deleteOwnReservationLocked. cbn [fresh_row UserID TenantID ID].
    repeat case_match; try apply res_kept. rename select (reservation) into r.
    destruct (decide (reservationKey sess.(TenantID) sess.(ID) = k)) as [<-|];
      [rewrite lookup_delete_eq|rewrite lookup_delete_ne by done; apply res_kept].
    eapply res_consumed; [done..|by apply String.eqb_eq|]. rewrite E. apply lookup_insert_eq. }
  destruct o as [| | | |t u i d|t i|t i f|t i|t u|t|p i n|p i|p i|t]; try discriminate Ec; unfold apply_op; cbn [fst snd].
  - unfold Reserve. repeat case_match; try exact (res_kept _ _ _ _). cbn.
    destruct (decide (reservationKey t i = k)) as [<-|]; [rewrite lookup_insert_eq|rewrite lookup_insert_ne by done; apply res_kept].
    eapply res_made; [done..| |done]. by intros ->.
  - cbn. destruct (decide (reservationKey t i = k)) as [<-|]; [rewrite lookup_delete_eq|rewrite lookup_delete_ne by done; apply res_kept].
    by eapply res_released.
  - destruct (Update_cases c s t i f) as [->|(prev & row & ? & ? & ? & ->)]; [apply res_kept|exact (res_kept _ _ _ _)].
  - unfold Delete. repeat case_match; exact (res_kept _ _ _ _).
  - apply erased_reservation. intros r. rewrite andb_true_iff, !String.eqb_eq. intros [-> ->]. by right.
  - apply erased_reservation. intros r. rewrite String.eqb_eq. intros ->. by left.
  - unfold ReserveSlotUnderLock, recordSlotReservationLocked. repeat case_match; exact (res_kept _ _ _ _).
  - unfold RecordSlotReservation, recordSlotReservationLocked. repeat case_match; simplify_eq; exact (res_kept _ _ _ _).
  - unfold DeleteSlotReservation. repeat case_match; exact (res_kept _ _ _ _).
  - exact (res_kept _ _ _ _).
Qed.

(** Reservations are stored under their own key, for tenants whose name has no
    slash, which the format of tenant identifiers guarantees. *)
Definition reservations_wf (s : Store) : Prop :=
  forall k r, s.(reservations) !! k = Some r ->
    k = reservationKey r.(RTenant) r.(RSession) /\ has_char "/" r.(RTenant) = false.

Definition clean_tenant (o : op) : Prop :=
  match o with
  | OReserve t _ _ _ | ORelease t _ => has_char "/" t = false
  | _ => forall sess, creates o = Some sess -> has_char "/" sess.(TenantID) = false
  end.

Lemma reservations_wf_run ops (s : Store) :
  Forall (fun co => clean_tenant co.2) ops -> reservations_wf s -> reservations_wf (run ops s).
Proof.
  intros Hc Hs. induction ops as [|[c o] ops IH] using rev_ind; [done|].
  apply Forall_snoc_1 in Hc as [Hc Hc1]. specialize (IH Hc). rewrite run_snoc. intros k r E.
  pose proof (apply_reservation c o (run ops s) k) as Hr. rewrite E in Hr. inversion Hr; simplify_eq; [by apply IH|done].
Qed.

(** After the sessions and reservations of a user were erased, no creation
    that was still under way for the user succeeds, also when the marker that
    fenced the erasure has been lifted, until an identifier is reserved anew. *)
Theorem erasure_outruns_create (t u : string) (ops : list (Call * op)) (s : Store) (c : Call) (sess : Session) (source : string)
    (Hu : u <> "") (Ht : has_char "/" t = false) (Hwf : reservations_wf s)
    (Hc : Forall (fun co => clean_tenant co.2) ops)
    (Hn : Forall (fun co => forall i d, co.2 <> OReserve t u i d) ops)
    (Hs : sess.(TenantID) = t /\ sess.(UserID) = u) :
  let s' := run ops (DeleteByUser s t u).1 in
  (exists e, CreateReserved c s' sess = (s', Err e)) /\ (exists e, CreateWithTranscript c s' sess source = (s', Err e)).
Proof.
  intros s'.
  assert (forall k r, s'.(reservations) !! k = Some r -> r.(RTenant) = t -> r.(RUser) <> u) as Hgone.
  { subst s'. induction ops as [|[c1 o] ops IH] using rev_ind.
    - intros k r E Er Eu. cbn in E. apply map_lookup_filter_Some in E as [_ E].
      cbn in E. by rewrite Er, Eu, !String.eqb_refl in E.
    - apply Forall_snoc_1 in Hc as [Hc Hc1], Hn as [Hn Hn1]. rewrite run_snoc. intros k r E Er Eu.
      pose proof (apply_reservation c1 o (run ops (DeleteByUser s t u).1) k) as Hr. rewrite E in Hr.
      inversion Hr; simplify_eq; [by eapply IH|]. cbn in Hn1. by eapply Hn1. }
  assert (reservations_wf s') as Hwf'.
  { apply reservations_wf_run; [done|]. intros k r E. apply map_lookup_filter_Some in E as [E _]. by apply Hwf. }
  assert (forall row, row.(TenantID) = t -> row.(UserID) = u -> requireReservationLocked s' row <> None) as Hreq.
  { intros row Er Eu Hnone. unfold requireReservationLocked in Hnone. rewrite Er, Eu, is_empty_false in Hnone by done.
    destruct (s'.(reservations) !! _) as [r|] eqn:E; [|done]. destruct (String.eqb_spec r.(RUser) u) as [Eru|]; [|done].
    destruct (Hwf' _ _ E) as [Ek Hcl]. apply slash_split in Ek as [Ek _]; [|done..]. by apply (Hgone _ _ E). }
  assert (forall before, before (fresh_row c s' sess) <> None ->
            exists e, createLocked c s' sess before = (s', Err e)) as Hcreate.
  { intros before Hb. destruct (createLocked c s' sess before) as [s1 r1] eqn:E.
    destruct (createLocked_cases _ _ _ _ _ _ E) as [[-> [e ->]]|(_ & _ & Hn' & _)]; [by exists e|done]. }
  destruct Hs as [Hst Hsu]. split; [apply Hcreate; by apply Hreq|].
  unfold CreateWithTranscript. destruct (copyTranscript c) as [copy|]; [|by eexists]. apply Hcreate.
  specialize (Hreq (fresh_row c s' sess) Hst Hsu). by destruct (requireReservationLocked _ _).
Qed.

Lemma ReservedSessionIDs_elem (s : Store) t u i :
  i ∈ ReservedSessionIDs s t u <-> exists k r, s.(reservations) !! k = Some r /\ r.(RTenant) = t /\ r.(RUser) = u /\ r.(RSession) = i.
Proof.
  unfold ReservedSessionIDs. rewrite list_elem_of_fmap. setoid_rewrite merge_sort_Permutation.
  setoid_rewrite list_elem_of_filter. setoid_rewrite list_elem_of_fmap. setoid_rewrite elem_of_map_to_list'.
  setoid_rewrite andb_true_iff. setoid_rewrite String.eqb_eq. split.
  - intros (r & -> & [? ?] & [k ?] & -> & ?). cbn in *. eauto 10.
  - intros (k & r & ? & ? & ? & <-). exists r. split_and!; [done..|]. by exists (k, r).
Qed.

(** From the moment an identifier is reserved, and until it is released or
    the data of its owner or tenant is erased, the identifier is listed as
    reserved or a session of the owner exists under it, so an erasure finds
    whatever was written under it. *)
Theorem reserved_ids_tracked (t u i : string) (d : bool) (c : Call) (ops : list (Call * op)) (s s1 : Store)
    (Hu : u <> "") (Ht : has_char "/" t = false) (Hres : Reserve c s t u i d = (s1, Ok ()))
    (Hc : Forall (fun co => clean_tenant co.2) ops) (Hk : Forall (fun co => keeps_ident co.2) ops)
    (Hn : Forall (fun co => forall t', co.2 <> ORelease t' i /\ co.2 <> ODelete t' i /\
                            co.2 <> ODeleteByUser t u /\ co.2 <> ODeleteByTenant t) ops) :
  i ∈ ReservedSessionIDs (run ops s1) t u \/
  exists r, (run ops s1).(sessions) !! i = Some r /\ r.(TenantID) = t /\ r.(UserID) = u.
Proof.
  set (k := reservationKey t i).
  assert ((exists r, (run ops s1).(reservations) !! k = Some r /\ r.(RTenant) = t /\ r.(RUser) = u /\ r.(RSession) = i) \/
          exists r, (run ops s1).(sessions) !! i = Some r /\ r.(TenantID) = t /\ r.(UserID) = u) as [(r & E & ?)|H];
    [|left; apply ReservedSessionIDs_elem; eauto|by right].
  induction ops as [|[c1 o] ops IH] using rev_ind.
  { left. unfold Reserve in Hres. rewrite is_empty_false in Hres by done. repeat case_match; simplify_eq. cbn.
    rewrite lookup_insert_eq. eauto. }
  apply Forall_snoc_1 in Hc as [Hc Hc1], Hn as [Hn Hn1], Hk as [Hk Hk1]. cbn [snd] in *. rewrite run_snoc.
  destruct (IH Hc Hk Hn) as [(r & Er & Et & Eu & Ei)|(r & Er & Et & Eu)].
  - pose proof (apply_reservation c1 o (run ops s1) k) as Hs.
    inversion Hs as [Ek|t' i' -> Ekey Ek|sess r1 Hcr Ekey Er1 Eu1 Erow Ek|r1 Er1 Ho Ek|t' u' i' d' -> Ekey ? En Ek]; [left; eauto| | | |congruence].
    + apply slash_split in Ekey as [-> ->]; [|done..]. by destruct (Hn1 t').
    + assert (clean_tenant o = forall sess, creates o = Some sess -> has_char "/" sess.(TenantID) = false) as Hcl by (by destruct o).
      rewrite Hcl in Hc1. apply slash_split in Ekey as [-> ->]; [|done|by apply Hc1]. right. eexists.
      split; [exact Erow|]. split; [done|]. cbn. congruence.
    + rewrite Er in Er1. injection Er1 as <-. rewrite Et, Eu in Ho. destruct (Hn1 t) as (? & ? & ? & ?), Ho; congruence.
  - right. pose proof (apply_row c1 o (run ops s1) i) as Hs.
    inversion Hs as [Ek|r1 Er1 Ho Ek|sess ? ? En|t' f prev row -> Ep Ef Ek]; [eauto| |congruence|].
    + rewrite Er in Er1. injection Er1 as <-. rewrite Et, Eu in Ho.
      destruct (Hn1 t) as (? & ? & ? & ?), Ho as [?|[?|?]]; congruence.
    + eexists. split; [done|]. specialize (Hk1 _ _ Ef). rewrite Er in Ep. injection Ep as <-.
      cbn. by injection Hk1 as -> -> _ _.
Qed.

(** *** Slots of a pod *)

Lemma holders_elem c (s : Store) p i :
  i ∈ holders c s p <-> exists id r, s.(sessions) !! id = Some r /\ r.(ID) = i /\ r.(PodAssignment) = p /\
    HoldsPod r c.(now) s.(postTerminalCap) = true.
Proof.
  unfold holders, rows_where, holdsPodLocked. rewrite list_elem_of_fmap. setoid_rewrite list_elem_of_filter.
  setoid_rewrite list_elem_of_fmap. setoid_rewrite elem_of_map_to_list'. setoid_rewrite andb_true_iff.
  setoid_rewrite String.eqb_eq. split.
  - intros (r & -> & [? ?] & [k ?] & -> & ?). cbn in *. eauto 10.
  - intros (k & r & ? & <- & ? & ?). exists r. split_and!; [done..|]. by exists (k, r).
Qed.

(** A row that holds its pod later held it before, unless it was written. *)
Lemma HoldsPod_earlier (r : Session) t t' cap : (t <= t')%Z -> HoldsPod r t' cap = true -> HoldsPod r t cap = true.
Proof.
  intros Ht. unfold HoldsPod, InPostTerminalWindow, time_before, time_add.
  destruct (is_empty _); [done|]. destruct (IsTerminal _); [|done]. cbn [negb orb].
  repeat case_match; try done. rewrite !Z.ltb_lt. lia.
Qed.

Lemma occupancy_earlier c c' (s : Store) p : (c.(now) <= c'.(now))%Z -> occupancy c' s p ⊆ occupancy c s p.
Proof.
  intros Ht. unfold occupancy. apply union_mono_r. intros i. rewrite !elem_of_list_to_set, !holders_elem.
  intros (k & r & ? & ? & ? & ?). exists k, r. split_and!; [done..|]. by eapply HoldsPod_earlier.
Qed.

(** A call binds sessions only to slots they have: whoever holds the pod
    afterwards held it before or had reserved it. *)
Definition binds_reserved (p : string) (s : Store) (co : Call * op) : Prop :=
  forall i, i ∈ holders co.1 (apply_op s co) p -> i ∈ occupancy co.1 s p.

Definition admits_at_most (p : string) (limit : Z) (o : op) : Prop :=
  match o with
  | OReserveSlot p' _ n => p' = p -> (n <= limit)%Z
  | ORecordSlot p' _ => p' <> p
  | _ => True
  end.

Lemma wrap32_id x : (0 <= x < 2 ^ 31)%Z -> wrap32 x = x.
Proof. intros H. unfold wrap32. rewrite Z.mod_small; lia. Qed.

(** The reservations a call leaves on a pod. *)
Lemma apply_slots c o (s : Store) p i :
  i ∈ dom (reserved_on (apply_op s (c, o)) p) ->
  i ∈ dom (reserved_on s p) \/ o = ORecordSlot p i \/
  exists n, o = OReserveSlot p i n /\ (occupancyLocked c s p i < n)%Z.
Proof.
  assert (forall (s' : Store), s'.(slotReservations) = s.(slotReservations) -> i ∈ dom (reserved_on s' p) -> i ∈ dom (reserved_on s p)) as Hsame.
  { intros s' E. unfold reserved_on. by rewrite E. }
  assert (forall p' i', i ∈ dom (reserved_on (recordSlotReservationLocked c s p' i').1 p) ->
            i ∈ dom (reserved_on s p) \/ (p' = p /\ i' = i)) as Hrec.
  { intros p' i'. unfold recordSlotReservationLocked. destruct (reserved_on s p' !! i'); [by left|].
    unfold reserved_on at 1. cbn. destruct (decide (p' = p)) as [->|]; [rewrite lookup_insert_eq|rewrite lookup_insert_ne by done; by left].
    cbn. rewrite dom_insert. set_solver. }
  destruct (creates o) as [sess|] eqn:Ec.
  { destruct (apply_create c o s sess Ec) as [->|(? & ? & ->)]; [by left|]. intros Hin. left. by eapply Hsame, Hin. }
  destruct o as [| | | |t u i0 d|t i0|t i0 f|t i0|t u|t|p' i' n|p' i'|p' i'|t]; try discriminate Ec; unfold apply_op; cbn [fst snd].
  - intros Hin. left. eapply Hsame, Hin. unfold Reserve. by repeat case_match.
  - intros Hin. left. by eapply Hsame, Hin.
  - intros Hin. left. eapply Hsame, Hin. by destruct (Update_cases c s t i0 f) as [->|(prev & row & ? & ? & ? & ->)].
  - intros Hin. left. eapply Hsame, Hin. unfold Delete. by repeat case_match.
  - intros Hin. left. by eapply Hsame, Hin.
  - intros Hin. left. by eapply Hsame, Hin.
  - unfold ReserveSlotUnderLock. repeat case_match; try (by left). intros [?|[-> ->]]%Hrec; [by left|].
    right; right. exists n. split; [done|]. by apply Z.leb_gt.
  - unfold RecordSlotReservation. case_match; [by left|]. specialize (Hrec p' i'). destruct (recordSlotReservationLocked c s p' i').
    intros [?|[-> ->]]%Hrec; [by left|]. right; by left.
  - unfold DeleteSlotReservation. destruct (s.(slotReservations) !! p') as [byPod|] eqn:E; [|by left]. intros Hin. left.
    unfold reserved_on in *. cbn in Hin. destruct (decide (p' = p)) as [->|].
    + rewrite E. cbn. case_bool_decide; [rewrite lookup_delete_eq in Hin; cbn in Hin; set_solver|].
      rewrite lookup_insert_eq in Hin. cbn in Hin. rewrite dom_delete in Hin. set_solver.
    + case_bool_decide; [rewrite lookup_delete_ne in Hin by done|rewrite lookup_insert_ne in Hin by done]; done.
  - intros Hin. left. unfold reserved_on in *. cbn in Hin. rewrite map_lookup_imap in Hin.
    destruct (s.(slotReservations) !! p) as [byPod|]; [|done]. cbn in *. case_bool_decide; [set_solver|]. cbn in Hin.
    apply elem_of_dom in Hin as [x Hx]. apply map_lookup_filter_Some in Hx as [Hx _]. apply elem_of_dom. by exists x.
Qed.

Lemma not_subseteq_elem (X Y : gset string) : ~ X ⊆ Y -> exists i, i ∈ X /\ i ∉ Y.
Proof. intros Hn. destruct (set_choose_or_empty (X ∖ Y)) as [[i Hi]|He].
  - exists i. by apply elem_of_difference in Hi.
  - destruct Hn. intros i Hi. destruct (decide (i ∈ Y)); [done|]. exfalso. apply (not_elem_of_empty (C := gset string) i).
    rewrite <- He. by apply elem_of_difference.
Qed.

(** One call keeps the bound. *)
Lemma apply_occupancy p limit c o (s : Store) :
  (limit < 2 ^ 31)%Z -> admits_at_most p limit o -> binds_reserved p s (c, o) ->
  (Z.of_nat (size (occupancy c s p)) <= limit)%Z ->
  (Z.of_nat (size (occupancy c (apply_op s (c, o)) p)) <= limit)%Z.
Proof.
  intros Hlim Ha Hb Hs.
  assert (forall i, i ∈ occupancy c (apply_op s (c, o)) p ->
            i ∈ occupancy c s p \/ exists n, o = OReserveSlot p i n /\ (occupancyLocked c s p i < n)%Z) as Hin.
  { intros i Hi. unfold occupancy at 1 in Hi. apply elem_of_union in Hi as [Hi|Hi]; [left; apply Hb; by apply elem_of_list_to_set in Hi|].
    destruct (apply_slots c o s p i Hi) as [?|[->|?]]; [left; by apply elem_of_union_r|by destruct Ha|by right]. }
  destruct (decide (occupancy c (apply_op s (c, o)) p ⊆ occupancy c s p)) as [Hsub|Hnew].
  { pose proof (subseteq_size _ _ Hsub). lia. }
  apply not_subseteq_elem in Hnew as (i & Hi1 & Hi2). destruct (Hin i Hi1) as [?|(n & -> & Hn)]; [done|].
  assert (occupancy c (apply_op s (c, OReserveSlot p i n)) p ⊆ {[i]} ∪ (occupancy c s p ∖ {[i]})) as Hsub.
  { intros j Hj. apply elem_of_union. rewrite elem_of_singleton, elem_of_difference, elem_of_singleton.
    destruct (decide (j = i)) as [->|]; [by left|right]. destruct (Hin j Hj) as [?|(? & ? & _)]; [done|congruence]. }
  apply subseteq_size in Hsub. rewrite size_union, size_singleton in Hsub by (clear; set_solver).
  pose proof (subseteq_size (occupancy c s p ∖ {[i]}) (occupancy c s p) ltac:(apply subseteq_difference_l; done)).
  unfold occupancyLocked in Hn. rewrite wrap32_id in Hn by lia. specialize (Ha eq_refl). lia.
Qed.

(** Admitting a slot binds nobody. *)
Lemma admission_binds_nothing p (s : Store) co :
  (exists c p' i n, co = (c, OReserveSlot p' i n)) -> binds_reserved p s co.
Proof.
  intros (c & p' & i & n & ->) j Hj. apply elem_of_union_l, elem_of_list_to_set. rewrite holders_elem in *. cbn [fst] in *.
  destruct Hj as (k & r & E & ? & ? & Hh). exists k, r.
  assert ((apply_op s (c, OReserveSlot p' i n)).(sessions) = s.(sessions) /\
          (apply_op s (c, OReserveSlot p' i n)).(postTerminalCap) = s.(postTerminalCap)) as [E1 E2].
  { unfold apply_op, ReserveSlotUnderLock, recordSlotReservationLocked. cbn [fst snd]. repeat case_match; done. }
  rewrite E1, E2 in *. done.
Qed.

(** While slots of a pod are admitted by the outage gate with a limit of at
    most [limit], and sessions bind only to slots they hold or reserved, the
    sessions that hold or reserve the pod never exceed the limit, over every
    history in which the clock does not run backwards. *)
Theorem outage_gate_bounds_pod (p : string) (limit : Z) (ops : list (Call * op)) (s : Store) (c0 c1 : Call)
    (Hlim : (limit < 2 ^ 31)%Z)
    (Hclock : StronglySorted Z.le ((fun c => c.(now)) <$> c0 :: ops.*1 ++ [c1]))
    (Ha : Forall (fun co => admits_at_most p limit co.2) ops)
    (Hb : forall pre co, pre ++ [co] `prefix_of` ops -> binds_reserved p (run pre s) co)
    (H0 : (Z.of_nat (size (occupancy c0 s p)) <= limit)%Z) :
  (Z.of_nat (size (occupancy c1 (run ops s) p)) <= limit)%Z.
Proof.
  revert c1 Hclock. induction ops as [|[c o] ops IH] using rev_ind; intros c1 Hclock.
  { cbn in Hclock. apply StronglySorted_inv in Hclock as [_ Hle]. rewrite Forall_singleton in Hle.
    pose proof (subseteq_size _ _ (occupancy_earlier c0 c1 s p Hle)). cbn. lia. }
  apply Forall_snoc_1 in Ha as [Ha Ha1]. cbn [snd] in Ha1. rewrite run_snoc.
  assert (StronglySorted Z.le ((fun c => c.(now)) <$> c0 :: ops.*1 ++ [c]) /\ (c.(now) <= c1.(now))%Z) as [Hcl Hle].
  { rewrite fmap_app, app_comm_cons, fmap_app in Hclock. cbn [fmap list_fmap fst] in Hclock. split.
    - by apply StronglySorted_app_1_l in Hclock.
    - eapply StronglySorted_app_1_elem_of; [exact Hclock|set_solver|set_solver]. }
  pose proof (subseteq_size _ _ (occupancy_earlier c c1 (apply_op (run ops s) (c, o)) p Hle)).
  enough (Z.of_nat (size (occupancy c (apply_op (run ops s) (c, o)) p)) <= limit)%Z by lia.
  apply apply_occupancy; [done..|apply Hb; done|]. apply IH; [done| |done].
  intros pre co Hp. apply Hb. by apply prefix_app_r.
Qed.

(** *** Terminal writes *)

(** The terminal writes of the REST handlers, with the state each writes. *)
Inductive ending : string -> (Session -> Session) -> State -> Prop :=
| ending_terminate : ending EndpointTerminate transitionTerminate StateCompleted
| ending_delete : ending EndpointDelete transitionDelete StateCancelled.

(** The mutators of the code that is modelled. *)
Inductive code_mutator : Mutate Rest -> Prop :=
| mut_ending e f st at_ : ending e f st -> code_mutator (guardedTerminal e f at_)
| mut_release at_ : code_mutator (MarkPodReleased at_)
| mut_seq n : code_mutator (raiseLastSeq n).

Lemma terminal_reason_spec st : IsTerminal st = true <-> terminatedReason st <> "".
Proof.
  unfold IsTerminal. rewrite mem_spec. unfold TerminalStates, terminatedReason.
  split; [intros H; set_unfold; repeat case_match; naive_solver|].
  repeat case_match; intros ?; try done; repeat match goal with H : String.eqb _ _ = true |- _ => apply String.eqb_eq in H as -> end; set_solver.
Qed.

(** A terminal session passes neither precondition. *)
Lemma ending_refused e f st s : ending e f st -> IsTerminal s = true -> exists err, Validate (mkRequest e s ∅) = Err err.
Proof.
  intros He Hs. apply mem_spec in Hs. unfold TerminalStates in Hs.
  assert (Forall (fun e => Forall (fun s => exists err, Validate (mkRequest e s ∅) = Err err) TerminalStates)
            [EndpointTerminate; EndpointDelete]) as F by (repeat constructor; eexists; vm_compute; reflexivity).
  rewrite Forall_forall in F. setoid_rewrite Forall_forall in F. destruct He; apply F; set_solver.
Qed.

Lemma MarkTerminated_ident (r : Session) from at_ : ident (MarkTerminated r from at_) = ident r.
Proof. unfold MarkTerminated. by destruct (is_empty _). Qed.

Lemma code_mutator_keeps_ident f (r r' : Session) : code_mutator f -> f r = Ok r' -> ident r' = ident r.
Proof.
  intros [e g st at_ He|at_|n]; unfold guardedTerminal, MarkPodReleased, raiseLastSeq.
  - destruct (Validate _); [|done]. intros [= <-]. rewrite MarkTerminated_ident. by destruct He.
  - case_match; [done|]. by intros [= <-].
  - intros [= <-]. by case_match.
Qed.

(** What stays of a row that is terminal. *)
Definition frozen (r r' : Session) : Prop :=
  r'.(SState) = r.(SState) /\ r'.(TerminatedAt) = r.(TerminatedAt) /\ r'.(TerminatedReason) = r.(TerminatedReason) /\
  r'.(CoordinationGeneration) = r.(CoordinationGeneration) /\ r'.(PodAssignment) = r.(PodAssignment) /\
  (time_is_zero r.(PodReleasedAt) = false -> r'.(PodReleasedAt) = r.(PodReleasedAt)).

Lemma code_mutator_freezes f (r row : Session) t :
  code_mutator f -> IsTerminal r.(SState) = true -> f r = Ok row -> frozen r (written t r row).
Proof.
  intros [e g st at_ He|at_|n] Ht; unfold guardedTerminal, MarkPodReleased, raiseLastSeq.
  - destruct (ending_refused e g st r.(SState) He Ht) as [err ->]. done.
  - rewrite Ht. cbn [negb orb]. destruct (time_is_zero r.(PodReleasedAt)) eqn:Ez; [|done]. intros [= <-].
    unfold frozen. cbn -[time_is_zero]. rewrite Z.ltb_irrefl, Ez. done.
  - intros [= <-]. unfold frozen. destruct (r.(LastSeq) <? n)%Z; cbn -[time_is_zero]; rewrite Z.ltb_irrefl; done.
Qed.

Definition code_op (o : op) : Prop := match o with OUpdate _ _ f => code_mutator f | _ => True end.

(** The row a terminal write leaves. *)
Lemma ending_row e f st (r : Session) at_ : ending e f st -> in_int64 (r.(CoordinationGeneration) + 1) ->
  let row := MarkTerminated (f r) r.(SState) at_ in
  row.(SState) = st /\ row.(TerminatedReason) = terminatedReason st /\
  row.(TerminatedAt) = (if time_is_zero r.(TerminatedAt) then at_ else r.(TerminatedAt)) /\
  row.(CoordinationGeneration) = (r.(CoordinationGeneration) + if String.eqb r.(SState) StateResuming then 1 else 0)%Z.
Proof.
  intros He Hg. unfold MarkTerminated.
  assert ((f r).(SState) = st /\ (f r).(TerminatedAt) = r.(TerminatedAt) /\
          (f r).(CoordinationGeneration) = r.(CoordinationGeneration) /\ is_empty (terminatedReason st) = false)
    as (E1 & E2 & E3 & E4) by (by destruct He).
  rewrite E1, E2, E3, E4. cbn [with_terminated SState TerminatedReason TerminatedAt CoordinationGeneration].
  rewrite E1. destruct (String.eqb r.(SState) StateResuming); rewrite ?wrap64_id by done; split_and!; done || lia.
Qed.

Lemma frozen_trans (r1 r2 r3 : Session) : frozen r1 r2 -> frozen r2 r3 -> frozen r1 r3.
Proof.
  intros (? & ? & ? & ? & ? & Hp) (? & ? & ? & ? & ? & Hq). unfold frozen. split_and!; try congruence.
  intros Hz. rewrite Hq by (by rewrite Hp). by apply Hp.
Qed.

Lemma frozen_run ops (s : Store) id r :
  Forall (fun co => code_op co.2) ops -> IsTerminal r.(SState) = true -> s.(sessions) !! id = Some r ->
  (forall pre, pre `prefix_of` ops -> is_Some ((run pre s).(sessions) !! id)) ->
  exists r2, (run ops s).(sessions) !! id = Some r2 /\ frozen r r2.
Proof.
  intros Hops Ht Hr. induction ops as [|[c o] ops IH] using rev_ind; intros Hkept; [by exists r|].
  apply Forall_snoc_1 in Hops as [Hops Ho]. cbn [snd] in Ho.
  destruct (IH Hops) as (r1 & E1 & F1). { intros pre Hp. apply Hkept. by apply prefix_app_r. }
  destruct (Hkept (ops ++ [(c, o)]) ltac:(done)) as [r2 E2]. exists r2. split; [done|].
  rewrite run_snoc in E2. pose proof (apply_row c o (run ops s) id) as Hs. rewrite E2 in Hs.
  inversion Hs as [Ek| |sess ? ? En|t f prev row -> Ep Ef]; simplify_eq; [done|].
  eapply frozen_trans; [done|]. apply code_mutator_freezes with f; [done| |done]. by rewrite (proj1 F1).
Qed.

(** The first terminal write of a session wins.  It sets the state the
    endpoint asked for, the reason and, once, the instant, and raises the
    coordination generation by one exactly when it interrupts a resume; from
    then on no terminate, delete, release or event write changes them, and the
    release of the pod is recorded at most once. *)
Theorem terminal_write_wins (c : Call) (s s1 : Store) (t id e : string) (f : Session -> Session) (st : State) (at_ : Time)
    (r r1 : Session) (ops : list (Call * op))
    (He : ending e f st) (Hr : s.(sessions) !! id = Some r) (Hgen : in_int64 (r.(CoordinationGeneration) + 1))
    (Hw : Update c s t id (guardedTerminal e f at_) = (s1, Ok r1))
    (Hops : Forall (fun co => code_op co.2) ops)
    (Hkept : forall pre, pre `prefix_of` ops -> is_Some ((run pre s1).(sessions) !! id)) :
  IsTerminal r.(SState) = false /\ r1.(SState) = st /\ r1.(TerminatedReason) = terminatedReason st /\
  r1.(TerminatedAt) = (if time_is_zero r.(TerminatedAt) then at_ else r.(TerminatedAt)) /\
  r1.(CoordinationGeneration) = (r.(CoordinationGeneration) + if String.eqb r.(SState) StateResuming then 1 else 0)%Z /\
  exists r2, (run ops s1).(sessions) !! id = Some r2 /\ frozen r1 r2.
Proof.
  destruct (Update_ok _ _ _ _ _ _ _ Hw) as (prev & row & Ep & _ & Ef & -> & ->).
  rewrite Hr in Ep. injection Ep as <-.
  unfold guardedTerminal in Ef. destruct (Validate _) eqn:Ev; [|done]. injection Ef as <-.
  assert (IsTerminal r.(SState) = false) as Hlive.
  { destruct (IsTerminal r.(SState)) eqn:Et; [|done]. destruct (ending_refused e f st _ He Et). congruence. }
  pose proof (ending_row e f st r at_ He Hgen) as (E1 & E2 & E3 & E4).
  cbn [SState TerminatedReason TerminatedAt CoordinationGeneration written]. rewrite E1, E2, E3, E4.
  split_and!; [done..| |].
  { rewrite (proj2 (Z.ltb_ge _ _)); [done|]. destruct (String.eqb r.(SState) StateResuming); lia. }
  eapply frozen_run; [done| |apply lookup_insert_eq|done]. cbn [SState written]. rewrite E1. by destruct He.
Qed.

(** *** What a session sees of its tree *)

Definition shown (caller : Session) (all : list Session) (vis : string) : gset string :=
  match (VisibleTree caller all vis).2 with Some ids => ids | None => list_to_set (ID <$> all) end.

Definition parent_and_self (caller : Session) (all : list Session) : gset string :=
  match (if is_empty caller.(ParentSessionID) then None else head (filter (fun s => s.(ID) = caller.(ParentSessionID)) all)) with
  | Some s => {[s.(ID); caller.(ID)]}
  | None => {[caller.(ID)]}
  end.

Lemma shown_by_rank caller all vis :
  shown caller all vis =
  if (rank (visOrDefault vis) =? 0)%Z then list_to_set (ID <$> all)
  else if (rank (visOrDefault vis) =? 1)%Z then parent_and_self caller all else {[caller.(ID)]}.
Proof.
  unfold shown, VisibleTree, rank, parent_and_self.
  destruct (String.eqb_spec (visOrDefault vis) VisibilitySelfOnly) as [->|]; [done|].
  destruct (String.eqb (visOrDefault vis) VisibilityParentAndSelf).
  - destruct (is_empty _); [done|]. by destruct (head _).
  - by destruct (head _).
Qed.

(** A child whose visibility is no wider than its parent's sees no more, and
    every session sees itself. *)
Theorem narrower_sees_less (caller : Session) (all : list Session) (v w : string)
    (Hc : caller ∈ all) (Hn : AtLeastAsNarrow v w = true) :
  {[caller.(ID)]} ⊆ shown caller all v /\ shown caller all v ⊆ shown caller all w /\
  shown caller all w ⊆ list_to_set (ID <$> all).
Proof.
  assert (forall x, x ∈ all -> x.(ID) ∈ (list_to_set (ID <$> all) : gset string)) as Hin.
  { intros x Hx. apply elem_of_list_to_set, list_elem_of_fmap. eauto. }
  assert ({[caller.(ID)]} ⊆ parent_and_self caller all /\ parent_and_self caller all ⊆ list_to_set (ID <$> all)) as [Hp1 Hp2].
  { unfold parent_and_self. pose proof (Hin caller Hc).
    destruct (is_empty _); [set_solver|]. destruct (head _) as [x|] eqn:E; [|set_solver].
    apply head_Some_elem_of, list_elem_of_filter in E as [_ E%Hin]. set_solver. }
  apply Z.leb_le in Hn. pose proof (Hin caller Hc). rewrite !shown_by_rank.
  assert (forall u, (0 <= rank u <= 2)%Z) as Hr by (intros u; unfold rank; repeat case_match; lia).
  pose proof (Hr (visOrDefault v)). pose proof (Hr (visOrDefault w)). generalize dependent (rank (visOrDefault v)).
  generalize dependent (rank (visOrDefault w)). clear -Hp1 Hp2. intros b Hb a Hab Ha. revert Hp1 Hp2.
  generalize (parent_and_self caller all). intros P Hp1 Hp2.
  destruct (Z.eqb_spec a 0), (Z.eqb_spec b 0), (Z.eqb_spec a 1), (Z.eqb_spec b 1); try lia; split_and!; set_solver.
Qed.

(** A property of all prefixes, checked one by one. *)
Lemma all_prefixes {A} (P : list A -> Prop) (l : list A) :
  Forall (fun n => P (take n l)) (seq 0 (S (length l))) -> forall pre, pre `prefix_of` l -> P pre.
Proof.
  intros F pre [rest ->]. rewrite Forall_forall in F. specialize (F (length pre)).
  rewrite take_app_length in F. apply F. apply elem_of_seq. rewrite length_app. lia.
Qed.
End Runs.
Arguments op : clear implicits.

(** ** A small deployment *)

Module Demo.
Definition session (id parent : string) (depth : Z) (st : State) (pod : string) : Session () :=
  mkSession id "acme" "ann" st "rt" "pool" "" "" parent "" depth pod 0 ∅ 0 0 0 F64.zero 0 0 0 0 0 0 "" ().

Definition open_markers : string -> string -> option CreationMarkers := fun _ _ => Some noMarkers.
Definition suspended_tenant : string -> string -> option CreationMarkers := fun _ _ =>
  Some (mkMarkers true true "active" false false false false "" false "" false).

Definition at_ (t : Time) : Call := mkCall t (Some open_markers) None.
Definition at_suspended (t : Time) : Call := mkCall t (Some suspended_tenant) None.

Definition start : Store () :=
  run [(at_ 100, OCreate (session "root" "" 0 StateRunning "p1"));
       (at_ 200, OCreate (session "kid" "root" 1 StateRunning ""))] (New 50).

Definition stored (s : Store ()) (id : string) : Session () := default (session "" "" 0 "" "") (s.(sessions) !! id).

Definition writes : list (Call * op ()) :=
  [(at_ 150, OUpdate "acme" "root" (raiseLastSeq 7)); (at_ 150, OUpdate "acme" "root" (raiseLastSeq 3))].

(** Two writes with a clock that stands still. *)
Lemma row_history_witness :
  exists r', (run writes start).(sessions) !! "root" = Some r' /\ rtc write (stored start "root") r' /\
    (r' = stored start "root" \/ ((stored start "root").(UpdatedAt) < r'.(UpdatedAt))%Z) /\
    ((stored start "root").(RecoveryGeneration) <= r'.(RecoveryGeneration))%Z /\
    ((stored start "root").(CoordinationGeneration) <= r'.(CoordinationGeneration))%Z /\
    ((stored start "root").(RetryCount) <= r'.(RetryCount))%Z /\ ((stored start "root").(LastSeq) <= r'.(LastSeq))%Z.
Proof.
  apply (row_history writes start "root" (stored start "root")); [vm_compute; reflexivity|].
  apply all_prefixes. repeat constructor; vm_compute; eexists; reflexivity.
Defined.

Definition late_create : list (Call * op ()) := [(at_suspended 300, OCreate (session "late" "" 0 StateCreated ""))].

Lemma drain_is_complete_witness :
  exists r, start.(sessions) !! "kid" = Some r /\ ident r = ident (stored start "kid") /\
    r ∈ List_ start "acme" (scope_filter (TenantScope "acme")).
Proof.
  apply (drain_is_complete (TenantScope "acme") late_create start "kid" (stored start "kid")).
  - repeat constructor. exists suspended_tenant. split; [reflexivity|]. intros u m [= <-]. split; [reflexivity|by left].
  - repeat constructor.
  - vm_compute. reflexivity.
  - split; [vm_compute; reflexivity|exact I].
Defined.

Definition ended : Store () :=
  run [(at_ 300, OUpdate "acme" "root" (guardedTerminal EndpointDelete transitionDelete 300))] start.
Definition late_child : list (Call * op ()) := [(at_ 400, OCreate (session "late" "root" 1 StateCreated ""))].

Lemma cascade_is_complete_witness :
  exists r, ended.(sessions) !! "kid" = Some r /\ ident r = ident (stored ended "kid") /\
    r ∈ ChildrenByParent ended "acme" "root".
Proof.
  apply (cascade_is_complete "acme" "root" late_child ended "kid" (stored ended "kid")).
  - discriminate.
  - vm_compute. reflexivity.
  - repeat constructor.
  - repeat constructor.
  - repeat constructor. intros sess [= <-]. discriminate.
  - vm_compute. reflexivity.
  - vm_compute. repeat split.
Defined.

Definition reserved : Store () := (Reserve (at_ 300) start "acme" "ann" "new" false).1.

Lemma erasure_outruns_create_witness :
  let s' := run [(at_ 500, ODelete "acme" "kid")] (DeleteByUser reserved "acme" "ann").1 in
  (exists e, CreateReserved (at_ 600) s' (session "new" "" 0 StateCreated "") = (s', Err e)) /\
  (exists e, CreateWithTranscript (at_ 600) s' (session "new" "" 0 StateCreated "") "root" = (s', Err e)).
Proof.
  apply (erasure_outruns_create "acme" "ann" [(at_ 500, ODelete "acme" "kid")] reserved (at_ 600)
           (session "new" "" 0 StateCreated "") "root").
  - discriminate.
  - reflexivity.
  - intros k r E. assert (reserved.(reservations) = {["acme/new" := mkReservation "acme" "new" "ann" 300]}) as Em
      by (vm_compute; reflexivity).
    rewrite Em in E. apply lookup_singleton_Some in E as [<- <-]. split; reflexivity.
  - repeat constructor. intros sess. discriminate.
  - repeat constructor. intros i d. discriminate.
  - split; reflexivity.
Defined.

Definition after_reserve : list (Call * op ()) := [(at_ 400, OCreateReserved (session "new" "" 0 StateCreated ""))].

Lemma reserved_ids_tracked_witness :
  "new" ∈ ReservedSessionIDs (run after_reserve reserved) "acme" "ann" \/
  exists r, (run after_reserve reserved).(sessions) !! "new" = Some r /\ r.(TenantID) = "acme" /\ r.(UserID) = "ann".
Proof.
  apply (reserved_ids_tracked "acme" "ann" "new" false (at_ 300) after_reserve start reserved).
  - discriminate.
  - reflexivity.
  - vm_compute. reflexivity.
  - repeat constructor. intros sess [= <-]. reflexivity.
  - repeat constructor.
  - repeat constructor; discriminate.
Defined.

Definition admissions : list (Call * op ()) :=
  [(at_ 300, OReserveSlot "p1" "kid" 2); (at_ 310, OReserveSlot "p1" "other" 2)].

Lemma outage_gate_bounds_pod_witness :
  (Z.of_nat (size (occupancy (at_ 400) (run admissions start) "p1")) <= 2)%Z.
Proof.
  apply (outage_gate_bounds_pod "p1" 2 admissions start (at_ 200) (at_ 400)).
  - lia.
  - repeat constructor; cbn; lia.
  - repeat constructor; cbn; lia.
  - intros pre co [rest E]. assert (co ∈ admissions) as Hco by (rewrite E; set_solver).
    apply admission_binds_nothing. unfold admissions in Hco. rewrite !elem_of_cons in Hco.
    destruct Hco as [-> |[-> |Hco]]; [eauto 6..|by apply not_elem_of_nil in Hco].
  - vm_compute. discriminate.
Defined.

Definition ended_row : Session () := stored ended "root".
Definition later : list (Call * op ()) :=
  [(at_ 400, OUpdate "acme" "root" (guardedTerminal EndpointTerminate transitionTerminate 400));
   (at_ 410, OUpdate "acme" "root" (MarkPodReleased 410))].

Lemma terminal_write_wins_witness :
  IsTerminal (stored start "root").(SState) = false /\ ended_row.(SState) = StateCancelled /\
  ended_row.(TerminatedReason) = terminatedReason StateCancelled /\
  ended_row.(TerminatedAt) = (if time_is_zero (stored start "root").(TerminatedAt) then 300%Z else (stored start "root").(TerminatedAt)) /\
  ended_row.(CoordinationGeneration) = ((stored start "root").(CoordinationGeneration)
    + if String.eqb (stored start "root").(SState) StateResuming then 1 else 0)%Z /\
  exists r2, (run later ended).(sessions) !! "root" = Some r2 /\ frozen ended_row r2.
Proof.
  apply (terminal_write_wins (at_ 300) start ended "acme" "root" EndpointDelete transitionDelete StateCancelled 300
           (stored start "root") ended_row later).
  - constructor.
  - vm_compute. reflexivity.
  - vm_compute. split; discriminate.
  - vm_compute. reflexivity.
  - repeat constructor. by econstructor; constructor.
  - apply all_prefixes. repeat constructor; vm_compute; eexists; reflexivity.
Defined.
End Demo.
