(* ===== verification/WarmPlan.v ===== *)
(** * The warm pool ([pkg/controller/warmpool]: [plan/plan.go], [controller.go], [pinned.go])

    [Compute] decides how many sandboxes to create and which idle ones to
    drain from the observed phases of a pool.  [Reconcile] is the controller's
    pass over a pool as far as it sizes it: reading the pods, the plan, the
    check of the runtime class, the creates and the drains, each of which may
    fail.  The status writes, the mirror, the disruption budget and the metrics
    of a pass are left out.  The theorems are about one pass, whatever fails in
    it, and about the passes that follow it. *)

From S2P Require Import Prelude StateMachine SandboxState.

Record Pod := mkPod { Name : string; Phase : State; Pinned : bool }.

Record Inputs := mkInputs { MinWarm : Z; MaxWarm : Z; Pods : list Pod }.

Record Plan := mkPlan {
  Create : Z;
  Drain : list string;
  WarmCount : Z;
  ReadyCount : Z;
  ReservedCount : Z;
  PinnedIdleCount : Z;
  DrainPinned : list string
}.

Definition isWarming (s : State) : bool :=
  bool_decide (s = Warming) || bool_decide (s = SDKConnecting).

Definition clampZero (n : Z) : Z := if (n <? 0)%Z then 0%Z else n.

Definition warmTarget (minWarm maxWarm : Z) : Z :=
  let minWarm := if (minWarm <? 0)%Z then 0%Z else minWarm in
  let maxWarm := if (maxWarm <? 0)%Z then 0%Z else maxWarm in
  if (maxWarm <? minWarm)%Z then maxWarm else minWarm.

(** [pinned[:len(pinned)-bound]] of the sorted names. *)
Definition pinnedOverBound (pinned : list string) (bound : Z) : list string :=
  let bound := if (bound <? 0)%Z then 0%Z else bound in
  if (Z.of_nat (length pinned) <=? bound)%Z then []
  else take (Z.to_nat (Z.of_nat (length pinned) - bound)) (sort_strings pinned).

(** The five accumulators of the loop over the pods. *)
Record Tally := mkTally {
  warmCount : Z; readyCount : Z; reservedCount : Z;
  idleNames : list string; pinnedNames : list string
}.

Definition tally_pod (t : Tally) (p : Pod) : Tally :=
  if bool_decide (Phase p = Idle) && Pinned p then
    mkTally (warmCount t) (readyCount t) (reservedCount t) (idleNames t)
            (pinnedNames t ++ [Name p])
  else if bool_decide (Phase p = Idle) then
    mkTally (warmCount t + 1) (readyCount t + 1) (reservedCount t)
            (idleNames t ++ [Name p]) (pinnedNames t)
  else if isWarming (Phase p) then
    mkTally (warmCount t + 1) (readyCount t) (reservedCount t) (idleNames t) (pinnedNames t)
  else if bool_decide (Phase p = Reserved) then
    mkTally (warmCount t) (readyCount t) (reservedCount t + 1) (idleNames t) (pinnedNames t)
  else t.

Definition tally (pods : list Pod) : Tally :=
  foldl tally_pod (mkTally 0 0 0 [] []) pods.

Definition Compute (inp : Inputs) : Plan :=
  let target := warmTarget (MinWarm inp) (MaxWarm inp) in
  let t := tally (Pods inp) in
  let create := if (warmCount t <? target)%Z then (target - warmCount t)%Z else 0%Z in
  let drain :=
    if (warmCount t <? target)%Z then []
    else if (target <? warmCount t)%Z then
      let excess := (warmCount t - target)%Z in
      let excess := if (Z.of_nat (length (idleNames t)) <? excess)%Z
                    then Z.of_nat (length (idleNames t)) else excess in
      take (Z.to_nat excess) (sort_strings (idleNames t))
    else [] in
  mkPlan create drain (warmCount t) (readyCount t) (reservedCount t)
         (Z.of_nat (length (pinnedNames t)))
         (pinnedOverBound (pinnedNames t) (clampZero (MaxWarm inp) - target)).

(** ** A pass ([controller.go]) *)

(** A sandbox in the cluster; [sb_Phase] is [None] until it reports one.
    [sb_Tenant]: its pod carries a tenant's label; [sb_Claimed]: a claim holds it. *)
Record Sandbox := mkSandbox { sb_Name : string; sb_Phase : option State; sb_Tenant : bool; sb_Claimed : bool }.

Definition observedPhase (sb : Sandbox) : State := default Warming (sb_Phase sb).

(** What one call to the API server does: it is done, it is not, or it is done
    and the answer is lost. *)
Inductive Outcome := Done | Failed | DoneLost.

Definition answered (o : Outcome) : bool := match o with Done => true | _ => false end.
Definition effective (o : Outcome) : bool := match o with Failed => false | _ => true end.

(** What a pass meets: whether pins are looked at (no [APIReader], or a pool of
    services), whether they could be read, the degraded condition ([None] when
    the check fails), and each create, with the name the server generates, and
    each patch. *)
Record PassEnv := mkPass {
  skipPins : bool; pinsRead : bool; degraded : option bool;
  creates : nat -> string * Outcome; patches : string -> Outcome }.

(** [markPinnedIdle], when its reads succeed. *)
Definition markPinnedIdle (skip : bool) (sb : Sandbox) : Pod :=
  mkPod (sb_Name sb) (observedPhase sb)
    (negb skip && bool_decide (observedPhase sb = Idle) && sb_Tenant sb && negb (sb_Claimed sb)).

(** The loop over [decision.Create] in [Reconcile]; [createSandbox] leaves the
    name to the server and the phase unset. *)
Fixpoint createSandboxes (n i : nat) (env : PassEnv) (sbs : list Sandbox) : list Sandbox * bool :=
  match n with
  | O => (sbs, true)
  | S n => let '(name, o) := creates env i in
           let sbs := if effective o then sbs ++ [mkSandbox name None false false] else sbs in
           if answered o then createSandboxes n (S i) env sbs else (sbs, false)
  end.

(** [patchSandboxDraining] of the sandbox with that name, if there is one. *)
Definition patchSandboxDraining (name : string) (sb : Sandbox) : Sandbox :=
  if String.eqb (sb_Name sb) name then mkSandbox (sb_Name sb) (Some Draining) (sb_Tenant sb) (sb_Claimed sb) else sb.

(** [drainSandbox] for each of the names to drain; [items] is the list the pass
    read. *)
Fixpoint drainSandboxes (names : list string) (env : PassEnv) (items sbs : list Sandbox) : list Sandbox * bool :=
  match names with
  | [] => (sbs, true)
  | name :: names =>
      if negb (bool_decide (name ∈ sb_Name <$> items)) then drainSandboxes names env items sbs
      else let o := patches env name in
           let sbs := if effective o then patchSandboxDraining name <$> sbs else sbs in
           if answered o then drainSandboxes names env items sbs else (sbs, false)
  end.

Definition poolInputs (env : PassEnv) (minWarm maxWarm : Z) (sbs : list Sandbox) : Inputs :=
  mkInputs minWarm maxWarm (markPinnedIdle (skipPins env) <$> sbs).

(** The cluster after the pass, and whether the pass got through. *)
Definition Reconcile (env : PassEnv) (minWarm maxWarm : Z) (sbs : list Sandbox) : list Sandbox * bool :=
  if negb (skipPins env) && negb (pinsRead env) then (sbs, false)
  else
    let decision := Compute (poolInputs env minWarm maxWarm sbs) in
    match degraded env with
    | None => (sbs, false)
    | Some d =>
        let create := if d then 0%Z else Create decision in
        let '(sbs', ok) := createSandboxes (Z.to_nat create) 0 env sbs in
        if ok then drainSandboxes (Drain decision ++ DrainPinned decision) env sbs sbs' else (sbs', false)
    end.

(** ** What the loop counts *)

Definition is_pinned_idle (p : Pod) : bool := bool_decide (Phase p = Idle) && Pinned p.
Definition is_free_idle (p : Pod) : bool := bool_decide (Phase p = Idle) && negb (Pinned p).
Definition is_warming (p : Pod) : bool := isWarming (Phase p).
Definition is_reserved (p : Pod) : bool := bool_decide (Phase p = Reserved).

(** The pods a test selects, and how many. *)
Definition sel (b : Pod -> bool) (pods : list Pod) : list Pod := filter (fun p => b p = true) pods.
Definition cnt (b : Pod -> bool) (pods : list Pod) : Z := Z.of_nat (length (sel b pods)).
Definition names (b : Pod -> bool) (pods : list Pod) : list string := Name <$> sel b pods.

Lemma sel_app b l1 l2 : sel b (l1 ++ l2) = sel b l1 ++ sel b l2.
Proof. apply filter_app. Qed.

Lemma sel_snoc b l p : sel b (l ++ [p]) = sel b l ++ (if b p then [p] else []).
Proof.
  rewrite sel_app. f_equal. unfold sel. rewrite filter_cons. destruct (b p); by simpl.
Qed.

Lemma cnt_app b l1 l2 : cnt b (l1 ++ l2) = (cnt b l1 + cnt b l2)%Z.
Proof. unfold cnt. rewrite sel_app, length_app. lia. Qed.

Lemma cnt_snoc b l p : cnt b (l ++ [p]) = (cnt b l + (if b p then 1 else 0))%Z.
Proof. unfold cnt. rewrite sel_snoc, length_app. destruct (b p); simpl; lia. Qed.

Lemma names_snoc b l p : names b (l ++ [p]) = names b l ++ (if b p then [Name p] else []).
Proof. unfold names. rewrite sel_snoc, fmap_app. by destruct (b p). Qed.

Lemma names_length b l : Z.of_nat (length (names b l)) = cnt b l.
Proof. unfold names, cnt. by rewrite length_fmap. Qed.

Lemma tally_spec pods :
  tally pods = mkTally (cnt is_free_idle pods + cnt is_warming pods) (cnt is_free_idle pods)
                 (cnt is_reserved pods) (names is_free_idle pods) (names is_pinned_idle pods).
Proof.
  induction pods as [|p pods IH] using rev_ind; [reflexivity|].
  unfold tally in *. rewrite foldl_app, IH. simpl.
  rewrite !cnt_snoc, !names_snoc. unfold tally_pod; simpl.
  unfold is_pinned_idle, is_free_idle, is_warming, is_reserved, isWarming.
  destruct (decide (Phase p = Idle)) as [->|Hi].
  - destruct (Pinned p); simpl; rewrite ?app_nil_r; f_equal; lia.
  - rewrite (bool_decide_eq_false_2 _ Hi). simpl.
    destruct (decide (Phase p = Warming)) as [->|Hw];
      [|destruct (decide (Phase p = SDKConnecting)) as [->|Hs];
        [|destruct (decide (Phase p = Reserved)) as [->|Hr]]];
      rewrite ?bool_decide_eq_false_2 by done; simpl; rewrite ?app_nil_r; f_equal; lia.
Qed.

(** The number of drained idle pods. *)
Definition excess_of (warm idle target : Z) : Z := Z.max 0 (Z.min idle (warm - target)).

Lemma Compute_spec inp :
  let target := warmTarget (MinWarm inp) (MaxWarm inp) in
  let pods := Pods inp in
  let warm := (cnt is_free_idle pods + cnt is_warming pods)%Z in
  Compute inp =
  mkPlan (Z.max 0 (target - warm))
    (take (Z.to_nat (excess_of warm (cnt is_free_idle pods) target))
       (sort_strings (names is_free_idle pods)))
    warm (cnt is_free_idle pods) (cnt is_reserved pods) (cnt is_pinned_idle pods)
    (pinnedOverBound (names is_pinned_idle pods) (clampZero (MaxWarm inp) - target)).
Proof.
  cbv zeta. unfold Compute. rewrite tally_spec. simpl.
  set (target := warmTarget _ _). rewrite !names_length. unfold excess_of.
  assert (0 <= cnt is_free_idle (Pods inp))%Z by (unfold cnt; lia).
  repeat case_match; simplify_bool; f_equal; try lia.
  - replace (Z.to_nat _) with 0 by lia. done.
  - f_equal. lia.
  - f_equal. lia.
  - replace (Z.to_nat _) with 0 by lia. done.
Qed.

Lemma warmTarget_bounds mn mx :
  (0 <= warmTarget mn mx <= clampZero mx)%Z /\
  ((0 <= mn <= mx)%Z -> warmTarget mn mx = mn).
Proof. unfold warmTarget, clampZero. repeat case_match; simplify_bool; lia. Qed.

Lemma pinnedOverBound_spec pinned bound :
  pinnedOverBound pinned bound =
  take (Z.to_nat (Z.of_nat (length pinned) - Z.max 0 bound)) (sort_strings pinned).
Proof.
  unfold pinnedOverBound. repeat case_match; simplify_bool.
  all: first [replace (Z.to_nat _) with 0 by lia; done | f_equal; lia].
Qed.

(** ** The effect of a pass on what is observed *)

(** The pods named in [dl] are draining, and the [fresh] ones start warming. *)
Definition carried_out (dl fresh : list string) (pods : list Pod) : list Pod :=
  ((fun p => if bool_decide (Name p ∈ dl) then mkPod (Name p) Draining false else p) <$> pods)
  ++ ((fun n => mkPod n Warming false) <$> fresh).

Lemma sorted_prefix_elem k l x : x ∈ take k (sort_strings l) -> x ∈ l.
Proof. intros Hx. rewrite <- (sort_strings_perm l). apply elem_of_take in Hx as (i & Hi & _).
  by eapply list_elem_of_lookup_2. Qed.

Lemma names_elem b pods x : x ∈ names b pods <-> exists p, p ∈ pods /\ b p = true /\ Name p = x.
Proof.
  unfold names, sel. rewrite list_elem_of_fmap. setoid_rewrite list_elem_of_filter. naive_solver.
Qed.

Lemma Drain_elem inp x : x ∈ Drain (Compute inp) -> x ∈ names is_free_idle (Pods inp).
Proof. rewrite (Compute_spec inp). simpl. apply sorted_prefix_elem. Qed.

Lemma DrainPinned_elem inp x : x ∈ DrainPinned (Compute inp) -> x ∈ names is_pinned_idle (Pods inp).
Proof.
  rewrite (Compute_spec inp). simpl. rewrite pinnedOverBound_spec. apply sorted_prefix_elem.
Qed.

Lemma NoDup_name_inj pods p q :
  NoDup (Name <$> pods) -> p ∈ pods -> q ∈ pods -> Name p = Name q -> p = q.
Proof.
  induction pods as [|r pods IH]; simpl; [set_solver|].
  intros [Hr Hnd]%NoDup_cons Hp Hq Hn.
  apply elem_of_cons in Hp as [->|Hp]; apply elem_of_cons in Hq as [->|Hq]; try done.
  - destruct Hr. rewrite Hn. by apply list_elem_of_fmap_2.
  - destruct Hr. rewrite <- Hn. by apply list_elem_of_fmap_2.
  - by apply IH.
Qed.

(** Removing a sub-multiset of the selected names leaves the difference. *)
Lemma cnt_remaining (b : Pod -> bool) (D : list string) pods :
  NoDup (Name <$> pods) -> NoDup D -> (forall x, x ∈ D -> x ∈ names b pods) ->
  cnt (fun p => b p && negb (bool_decide (Name p ∈ D))) pods
  = (cnt b pods - Z.of_nat (length D))%Z.
Proof.
  intros Hnd HD Hsub.
  assert (cnt b pods = cnt (fun p => b p && negb (bool_decide (Name p ∈ D))) pods
          + cnt (fun p => b p && bool_decide (Name p ∈ D)) pods)%Z as ->.
  { clear. induction pods as [|p pods IH] using rev_ind; [reflexivity|].
    rewrite !cnt_snoc, IH. destruct (b p), (bool_decide (Name p ∈ D)); simpl; lia. }
  rewrite <- (names_length (fun p => b p && bool_decide (Name p ∈ D))).
  enough (names (fun p => b p && bool_decide (Name p ∈ D)) pods ≡ₚ D) as Hp
    by (rewrite Hp; lia).
  apply NoDup_Permutation; [|done|].
  - unfold names. eapply sublist_NoDup; [exact Hnd|]. apply fmap_sublist, sublist_filter.
  - intros x. rewrite names_elem. split.
    + intros (p & _ & [_ Hx]%andb_true_iff & <-). by apply bool_decide_eq_true in Hx.
    + intros Hx. pose proof (Hsub x Hx) as (p & Hp & Hb & <-)%names_elem.
      exists p. rewrite Hb, (bool_decide_eq_true_2 _ Hx). done.
Qed.

Lemma NoDup_sorted_prefix k (b : Pod -> bool) pods :
  NoDup (Name <$> pods) -> NoDup (take k (sort_strings (names b pods))).
Proof.
  intros Hnd. apply (sublist_NoDup _ (sort_strings (names b pods))).
  - rewrite sort_strings_perm. unfold names.
    eapply sublist_NoDup; [exact Hnd|]. apply fmap_sublist, sublist_filter.
  - apply sublist_take.
Qed.

(** ** The pool after a pass *)

Section Pass.
Context (inp : Inputs) (dl fresh : list string).
Context (Hnames : NoDup (Name <$> Pods inp)).

Abbreviation pl := (Compute inp).
Abbreviation pods' := (carried_out dl fresh (Pods inp)).

(** The names that were drained are names of the plan. *)
Context (free pinned : list string) (Hdl : forall x, x ∈ dl <-> x ∈ free \/ x ∈ pinned).
Context (Hfree : NoDup free /\ forall x, x ∈ free -> x ∈ Drain pl) (Hpinned : NoDup pinned /\ forall x, x ∈ pinned -> x ∈ DrainPinned pl).

(** A test that no draining or fresh pod passes counts the undrained pods. *)
Lemma cnt_carried_out (b : Pod -> bool) (l : list string) :
  (forall n q, b (mkPod n Draining q) = false) ->
  (forall p, p ∈ Pods inp -> b p = true -> (Name p ∈ dl <-> Name p ∈ l)) ->
  cnt b pods' =
  (cnt (fun p => b p && negb (bool_decide (Name p ∈ l))) (Pods inp)
   + cnt b ((fun n => mkPod n Warming false) <$> fresh))%Z.
Proof using Type.
  intros Hd Heq. unfold carried_out. rewrite cnt_app. f_equal. clear Hnames Hdl Hfree Hpinned.
  induction (Pods inp) as [|p pods IH]; [reflexivity|].
  change (p :: pods) with ([p] ++ pods). rewrite fmap_app, !cnt_app, IH; [|set_solver]. f_equal.
  specialize (Heq p ltac:(set_solver)). unfold cnt, sel. simpl.
  rewrite !filter_cons, !filter_nil. destruct (b p) eqn:Hb; simpl.
  - rewrite (bool_decide_ext _ _ (Heq eq_refl)). destruct (bool_decide (Name p ∈ l)); simpl; [by rewrite Hd|by rewrite Hb].
  - destruct (bool_decide (Name p ∈ dl)); [by rewrite Hd | by rewrite Hb].
Qed.

Lemma named_free p : p ∈ Pods inp -> Name p ∈ names is_free_idle (Pods inp) -> is_free_idle p = true.
Proof using Hnames. intros Hp (q & Hq & Hb & Hn)%names_elem. by rewrite <- (NoDup_name_inj _ q p Hnames Hq Hp Hn). Qed.

Lemma named_pinned p : p ∈ Pods inp -> Name p ∈ names is_pinned_idle (Pods inp) -> is_pinned_idle p = true.
Proof using Hnames. intros Hp (q & Hq & Hb & Hn)%names_elem. by rewrite <- (NoDup_name_inj _ q p Hnames Hq Hp Hn). Qed.

Lemma cnt_fresh_none (b : Pod -> bool) :
  (forall n, b (mkPod n Warming false) = false) ->
  cnt b ((fun n => mkPod n Warming false) <$> fresh) = 0%Z.
Proof using Type.
  intros Hb. induction fresh as [|n l IH] using rev_ind; [reflexivity|].
  rewrite fmap_app. simpl. rewrite cnt_snoc, IH, Hb. lia.
Qed.

Lemma cnt_fresh_all (b : Pod -> bool) :
  (forall n, b (mkPod n Warming false) = true) ->
  cnt b ((fun n => mkPod n Warming false) <$> fresh) = Z.of_nat (length fresh).
Proof using Type.
  intros Hb. induction fresh as [|n l IH] using rev_ind; [reflexivity|].
  rewrite fmap_app, length_app. simpl. rewrite cnt_snoc, IH, Hb. lia.
Qed.

Lemma after_free : cnt is_free_idle pods' = (cnt is_free_idle (Pods inp) - Z.of_nat (length free))%Z.
Proof using Hnames Hdl Hfree Hpinned.
  destruct Hfree as [Hnd Hf], Hpinned as [_ Hp]. rewrite (cnt_carried_out is_free_idle free).
  - rewrite cnt_remaining, cnt_fresh_none; [lia|done|exact Hnames|done|]. intros x Hx. by apply Drain_elem, Hf.
  - done.
  - intros p Hin Hb. rewrite Hdl. split; [|tauto]. intros [?|Hx]; [done|]. exfalso.
    pose proof (named_pinned p Hin (DrainPinned_elem _ _ (Hp _ Hx))). unfold is_pinned_idle, is_free_idle in *. simplify_bool. congruence.
Qed.

Lemma after_pinned : cnt is_pinned_idle pods' = (cnt is_pinned_idle (Pods inp) - Z.of_nat (length pinned))%Z.
Proof using Hnames Hdl Hfree Hpinned.
  destruct Hfree as [_ Hf], Hpinned as [Hnd Hp]. rewrite (cnt_carried_out is_pinned_idle pinned).
  - rewrite cnt_remaining, cnt_fresh_none; [lia|done|exact Hnames|done|]. intros x Hx. by apply DrainPinned_elem, Hp.
  - done.
  - intros p Hin Hb. rewrite Hdl. split; [|tauto]. intros [Hx|?]; [|done]. exfalso.
    pose proof (named_free p Hin (Drain_elem _ _ (Hf _ Hx))). unfold is_pinned_idle, is_free_idle in *. simplify_bool. congruence.
Qed.

Lemma after_warming : cnt is_warming pods' = (cnt is_warming (Pods inp) + Z.of_nat (length fresh))%Z.
Proof using Hnames Hdl Hfree Hpinned.
  rewrite (cnt_carried_out is_warming []).
  - rewrite cnt_fresh_all by done. f_equal. unfold cnt, sel. f_equal.
    f_equal. apply list_filter_iff. intros p. by rewrite bool_decide_eq_false_2, andb_true_r by apply not_elem_of_nil.
  - done.
  - intros p Hin Hb. split; [|by intros ?%not_elem_of_nil]. rewrite Hdl. unfold is_warming in Hb. intros [Hx|Hx]; exfalso.
    + pose proof (named_free p Hin (Drain_elem _ _ (proj2 Hfree _ Hx))) as Hi. unfold is_free_idle in Hi. apply andb_true_iff in Hi as [Hi%bool_decide_eq_true _]. by rewrite Hi in Hb.
    + pose proof (named_pinned p Hin (DrainPinned_elem _ _ (proj2 Hpinned _ Hx))) as Hi. unfold is_pinned_idle in Hi. apply andb_true_iff in Hi as [Hi%bool_decide_eq_true _]. by rewrite Hi in Hb.
Qed.
End Pass.

Lemma Create_spec inp :
  Create (Compute inp) =
  Z.max 0 (warmTarget (MinWarm inp) (MaxWarm inp) -
           (cnt is_free_idle (Pods inp) + cnt is_warming (Pods inp))).
Proof. by rewrite Compute_spec. Qed.

Lemma Drain_length inp :
  Z.of_nat (length (Drain (Compute inp))) =
  excess_of (cnt is_free_idle (Pods inp) + cnt is_warming (Pods inp))
    (cnt is_free_idle (Pods inp)) (warmTarget (MinWarm inp) (MaxWarm inp)).
Proof.
  rewrite Compute_spec. simpl. rewrite length_take, sort_strings_length.
  pose proof (names_length is_free_idle (Pods inp)). unfold excess_of. lia.
Qed.

Lemma DrainPinned_length inp :
  Z.of_nat (length (DrainPinned (Compute inp))) =
  Z.max 0 (cnt is_pinned_idle (Pods inp) -
           (clampZero (MaxWarm inp) - warmTarget (MinWarm inp) (MaxWarm inp))).
Proof.
  rewrite Compute_spec. simpl. rewrite pinnedOverBound_spec, length_take, sort_strings_length.
  pose proof (names_length is_pinned_idle (Pods inp)).
  pose proof (warmTarget_bounds (MinWarm inp) (MaxWarm inp)). lia.
Qed.

Lemma sorted_take k l : StronglySorted String.le (take k (sort_strings l)).
Proof. eapply StronglySorted_app_1_l. rewrite take_drop. apply sort_strings_sorted. Qed.

Lemma names_perm b l1 l2 : l1 ≡ₚ l2 -> names b l1 ≡ₚ names b l2.
Proof. intros Hp. unfold names, sel. by rewrite Hp. Qed.

Lemma cnt_perm b l1 l2 : l1 ≡ₚ l2 -> cnt b l1 = cnt b l2.
Proof. intros Hp. unfold cnt, sel. by rewrite Hp. Qed.

(** A plan only ever sheds idle pods: each name in [Drain] is an unpinned
    idle pod of the pool and each name in [DrainPinned] a pinned idle one, the
    lists are sorted, a pass never both creates and drains, the warm target is
    never crossed from above by draining nor from below by creating, and no
    plan lets the created pods exceed the ceiling [MaxWarm]. *)
Theorem Compute_safe (inp : Inputs) :
  let plan := Compute inp in
  let target := warmTarget (MinWarm inp) (MaxWarm inp) in
  (forall x, x ∈ Drain plan ->
     exists p, p ∈ Pods inp /\ Name p = x /\ Phase p = Idle /\ Pinned p = false) /\
  (forall x, x ∈ DrainPinned plan ->
     exists p, p ∈ Pods inp /\ Name p = x /\ Phase p = Idle /\ Pinned p = true) /\
  StronglySorted String.le (Drain plan) /\
  (Create plan = 0%Z \/ Drain plan = []) /\
  (0 <= Create plan)%Z /\
  (WarmCount plan + Create plan - Z.of_nat (length (Drain plan)) >=
     Z.min target (WarmCount plan))%Z /\
  (0 < Create plan -> WarmCount plan + Create plan <= clampZero (MaxWarm inp))%Z.
Proof.
  cbv zeta. pose proof (Drain_length inp) as HD.
  pose proof (warmTarget_bounds (MinWarm inp) (MaxWarm inp)) as [HT _].
  assert (0 <= cnt is_free_idle (Pods inp))%Z by (unfold cnt; lia).
  assert (0 <= cnt is_warming (Pods inp))%Z by (unfold cnt; lia).
  split_and!.
  - intros x (p & Hp & Hb & Hn)%Drain_elem%names_elem. exists p.
    unfold is_free_idle in Hb. by simplify_bool.
  - intros x (p & Hp & Hb & Hn)%DrainPinned_elem%names_elem. exists p.
    unfold is_pinned_idle in Hb. by simplify_bool.
  - rewrite Compute_spec. apply sorted_take.
  - destruct (decide (Create (Compute inp) = 0%Z)) as [|Hc]; [by left|right].
    apply length_zero_iff_nil. rewrite Compute_spec in Hc. simpl in Hc.
    unfold excess_of in HD. lia.
  - rewrite Compute_spec. simpl. lia.
  - rewrite HD, Compute_spec. simpl. unfold excess_of. lia.
  - rewrite Compute_spec. simpl. lia.
Qed.

(** ** What [Reconcile] does *)

Definition fresh_sandbox (n : string) : Sandbox := mkSandbox n None false false.

(** The names the server generates are new. *)
Definition names_new (env : PassEnv) (sbs : list Sandbox) : Prop := forall j, (creates env j).1 ∉ sb_Name <$> sbs.

(** Nothing fails. *)
Definition faultless (env : PassEnv) : Prop :=
  pinsRead env = true /\ is_Some (degraded env) /\ (forall j, (creates env j).2 = Done) /\ forall n, patches env n = Done.

(** Time passes: every sandbox that was warming is idle. *)
Definition warmed (sb : Sandbox) : Sandbox :=
  if isWarming (observedPhase sb) then mkSandbox (sb_Name sb) (Some Idle) (sb_Tenant sb) (sb_Claimed sb) else sb.

Lemma creates_effect n i env sbs sbs' ok : createSandboxes n i env sbs = (sbs', ok) ->
  exists fresh, sbs' = sbs ++ (fresh_sandbox <$> fresh) /\ length fresh <= n /\ (ok = true -> length fresh = n) /\
    (forall x, x ∈ fresh -> exists j, x = (creates env j).1) /\ ((forall j, (creates env j).2 = Done) -> ok = true).
Proof.
  revert i sbs. induction n as [|n IH]; intros i sbs; cbn.
  { intros [= <- <-]. exists []. rewrite app_nil_r. split_and!; try done. by intros x ?%not_elem_of_nil. }
  destruct (creates env i) as [name o] eqn:Ei. destruct o; cbn.
  - intros H. destruct (IH _ _ H) as (fresh & -> & Hle & Hok & Hx & Hd). exists (name :: fresh). rewrite <- app_assoc. cbn.
    split_and!; [done|lia|intros ?; specialize (Hok ltac:(done)); lia| |done].
    intros x [->|Hin]%elem_of_cons; [exists i; by rewrite Ei|by apply Hx].
  - intros [= <- <-]. exists []. rewrite app_nil_r. split_and!; [done|cbn; lia|done|by intros x ?%not_elem_of_nil|].
    intros Hd. specialize (Hd i). by rewrite Ei in Hd.
  - intros [= <- <-]. exists [name]. split_and!; [done|cbn; lia|done| |].
    + intros x ->%list_elem_of_singleton. exists i. by rewrite Ei.
    + intros Hd. specialize (Hd i). by rewrite Ei in Hd.
Qed.

Definition drain_named (dl : list string) (sb : Sandbox) : Sandbox :=
  if bool_decide (sb_Name sb ∈ dl) then mkSandbox (sb_Name sb) (Some Draining) (sb_Tenant sb) (sb_Claimed sb) else sb.

Lemma drain_named_cons x dl (sbs : list Sandbox) : drain_named dl <$> (patchSandboxDraining x <$> sbs) = drain_named (x :: dl) <$> sbs.
Proof.
  rewrite <- list_fmap_compose. apply list_fmap_ext. intros i sb _. unfold drain_named, patchSandboxDraining. cbn.
  destruct (String.eqb_spec (sb_Name sb) x) as [->|Hne]; cbn.
  - rewrite (bool_decide_eq_true_2 (x ∈ x :: dl)) by set_solver. by case_bool_decide.
  - rewrite (bool_decide_ext (sb_Name sb ∈ x :: dl) (sb_Name sb ∈ dl)) by set_solver. done.
Qed.

Lemma drain_named_nil (sbs : list Sandbox) : drain_named [] <$> sbs = sbs.
Proof. rewrite <- (list_fmap_id sbs) at 2. apply list_fmap_ext. intros i sb _. unfold drain_named. by rewrite bool_decide_eq_false_2 by apply not_elem_of_nil. Qed.

Lemma drain_effect names env items sbs sbs' ok : (forall x, x ∈ names -> x ∈ sb_Name <$> items) ->
  drainSandboxes names env items sbs = (sbs', ok) ->
  exists k, sbs' = drain_named (take k names) <$> sbs /\ (ok = true -> length names <= k) /\ ((forall n, patches env n = Done) -> ok = true).
Proof.
  revert sbs. induction names as [|x names IH]; intros sbs Hin; cbn.
  { intros [= <- <-]. exists 0. by rewrite drain_named_nil. }
  rewrite bool_decide_eq_true_2 by (apply Hin; set_solver). cbn.
  destruct (patches env x) eqn:Ex; cbn.
  - intros H. destruct (IH _ ltac:(intros; apply Hin; set_solver) H) as (k & -> & Hok & Hd). exists (S k). cbn [take].
    rewrite drain_named_cons. split_and!; [done|intros ?; specialize (Hok ltac:(done)); cbn; lia|done].
  - intros [= <- <-]. exists 0. rewrite drain_named_nil. split_and!; [done|done|]. intros Hd. by rewrite Hd in Ex.
  - intros [= <- <-]. exists 1. cbn [take]. rewrite <- drain_named_cons, take_0, drain_named_nil. split_and!; [done|done|]. intros Hd. by rewrite Hd in Ex.
Qed.

Lemma observe_names skip (sbs : list Sandbox) : Name <$> (markPinnedIdle skip <$> sbs) = sb_Name <$> sbs.
Proof. by rewrite <- list_fmap_compose. Qed.

(** What is observed after a create and a drain. *)
Lemma observe_carried skip dl fresh sbs : (forall x, x ∈ fresh -> x ∉ dl) ->
  markPinnedIdle skip <$> (drain_named dl <$> (sbs ++ (fresh_sandbox <$> fresh))) = carried_out dl fresh (markPinnedIdle skip <$> sbs).
Proof.
  intros Hf. unfold carried_out. rewrite !fmap_app, <- !list_fmap_compose. f_equal.
  - apply list_fmap_ext. intros i sb _. unfold drain_named. cbn. case_bool_decide; [|done].
    unfold markPinnedIdle. cbn. by rewrite andb_false_r.
  - apply list_fmap_ext. intros i n Hi. unfold drain_named. cbn. rewrite bool_decide_eq_false_2 by (apply Hf; by eapply list_elem_of_lookup_2).
    unfold markPinnedIdle. cbn. by rewrite andb_false_r.
Qed.

Lemma carried_out_nil pods : carried_out [] [] pods = pods.
Proof.
  unfold carried_out. cbn. rewrite app_nil_r. rewrite <- (list_fmap_id pods) at 2. apply list_fmap_ext. intros i q _.
  by rewrite bool_decide_eq_false_2 by apply not_elem_of_nil.
Qed.

Lemma plan_names inp x : x ∈ Drain (Compute inp) ++ DrainPinned (Compute inp) -> x ∈ Name <$> Pods inp.
Proof.
  rewrite elem_of_app. intros [Hx%Drain_elem|Hx%DrainPinned_elem]; apply names_elem in Hx as (p & Hp & _ & <-); by apply list_elem_of_fmap_2.
Qed.

Lemma Reconcile_effect env mn mx sbs sbs' ok : names_new env sbs -> Reconcile env mn mx sbs = (sbs', ok) ->
  let inp := poolInputs env mn mx sbs in
  let dl := Drain (Compute inp) ++ DrainPinned (Compute inp) in
  (exists fresh k, Pods (poolInputs env mn mx sbs') = carried_out (take k dl) fresh (Pods inp) /\
    (Z.of_nat (length fresh) <= Create (Compute inp))%Z /\ (degraded env = Some true -> fresh = []) /\
    (ok = true -> length dl <= k /\ (degraded env = Some false -> Z.of_nat (length fresh) = Create (Compute inp)))) /\
  (faultless env -> ok = true).
Proof.
  intros Hnew HR inp dl. assert (0 <= Create (Compute inp))%Z as Hc by (rewrite Compute_spec; cbn; lia).
  assert (forall sbs1, sbs1 = sbs -> Pods (poolInputs env mn mx sbs1) = carried_out (take 0 dl) [] (Pods inp)) as Hsame
    by (intros ? ->; by rewrite take_0, carried_out_nil).
  revert HR. unfold Reconcile. destruct (negb (skipPins env) && _) eqn:Ep.
  { intros [= <- <-]. split; [exists [], 0; by split_and!; [apply Hsame|..]|]. intros (Hr & _). rewrite Hr, andb_false_r in Ep. done. }
  destruct (degraded env) as [d|] eqn:Ed; [|intros [= <- <-]; split; [exists [], 0; by split_and!; [apply Hsame|..]|]; intros (_ & [? ?] & _); congruence].
  fold inp. fold dl. destruct (createSandboxes _ 0 env sbs) as [sbs1 ok1] eqn:E1.
  destruct (creates_effect _ _ _ _ _ _ E1) as (fresh & -> & Hle & Hok1 & Hfr & Hd1).
  assert (forall (l : list string) x, x ∈ fresh -> (forall y, y ∈ l -> y ∈ dl) -> x ∉ l) as Hnot.
  { intros l x Hx Hl Hxl. apply Hl, plan_names in Hxl. cbn in Hxl. rewrite observe_names in Hxl. destruct (Hfr x Hx) as [j ->]. by apply (Hnew j). }
  assert (Z.of_nat (length fresh) <= Create (Compute inp))%Z as Hle' by (destruct d; cbv iota in Hle; lia).
  assert (Some d = Some true -> fresh = []) as Hdeg by (intros [= ->]; apply length_zero_iff_nil; cbv iota in Hle; lia).
  assert (forall x, x ∈ dl -> x ∈ sb_Name <$> sbs) as Hitems by (intros x Hx; rewrite <- (observe_names (skipPins env)); by apply plan_names in Hx).
  destruct ok1.
  - intros E2. destruct (drain_effect _ _ _ _ _ _ Hitems E2) as (k & -> & Hk & Hd2).
    split; [|intros (_ & _ & _ & Hp); auto]. exists fresh, k. split_and!; [| done|done|].
    + cbn [poolInputs Pods]. apply observe_carried. intros x Hx. apply Hnot; [done|]. intros y Hy. apply elem_of_take in Hy as (i & Hi & _). by eapply list_elem_of_lookup_2.
    + intros ->. split; [auto|]. intros [= ->]. rewrite Hok1 by done. lia.
  - intros [= <- <-]. split; [|intros (_ & _ & Hcr & _); by apply Hd1]. exists fresh, 0. split_and!; [|done|done|done].
    rewrite take_0. cbn [poolInputs Pods]. rewrite <- (drain_named_nil (sbs ++ _)). apply observe_carried. intros x _. apply not_elem_of_nil.
Qed.

(** The counts after a pass. *)
Lemma Reconcile_counts env mn mx sbs sbs' ok : NoDup (sb_Name <$> sbs) -> names_new env sbs -> Reconcile env mn mx sbs = (sbs', ok) ->
  let before := poolInputs env mn mx sbs in let after := poolInputs env mn mx sbs' in
  exists made freed unpinned,
    cnt is_free_idle (Pods after) = (cnt is_free_idle (Pods before) - freed)%Z /\
    cnt is_pinned_idle (Pods after) = (cnt is_pinned_idle (Pods before) - unpinned)%Z /\
    cnt is_warming (Pods after) = (cnt is_warming (Pods before) + made)%Z /\
    (0 <= made <= Create (Compute before) /\ 0 <= freed <= Z.of_nat (length (Drain (Compute before))) /\
     0 <= unpinned <= Z.of_nat (length (DrainPinned (Compute before))))%Z /\
    (degraded env = Some true -> made = 0%Z) /\
    (ok = true -> freed = Z.of_nat (length (Drain (Compute before))) /\ unpinned = Z.of_nat (length (DrainPinned (Compute before))) /\
       (degraded env = Some false -> made = Create (Compute before))).
Proof.
  intros Hnd Hnew HR before after.
  destruct (Reconcile_effect env mn mx sbs sbs' ok Hnew HR) as [(fresh & k & Hpods & Hle & Hdeg & Hok) _].
  fold before after in Hpods, Hle, Hok.
  set (free := take k (Drain (Compute before))). set (pinned := take (k - length (Drain (Compute before))) (DrainPinned (Compute before))).
  assert (NoDup (Name <$> Pods before)) as Hnames by (cbn [before poolInputs Pods]; by rewrite observe_names).
  assert (forall x, x ∈ take k (Drain (Compute before) ++ DrainPinned (Compute before)) <-> x ∈ free \/ x ∈ pinned) as Hdl
    by (intros x; rewrite take_app, elem_of_app; done).
  assert (forall (l : list string) j x, x ∈ take j l -> x ∈ l) as Htake.
  { intros l j x (i & Hi & _)%elem_of_take. by eapply list_elem_of_lookup_2. }
  assert (NoDup free /\ forall x, x ∈ free -> x ∈ Drain (Compute before)) as Hfree.
  { split; [|apply Htake]. eapply sublist_NoDup; [|apply sublist_take]. rewrite Compute_spec. by apply NoDup_sorted_prefix. }
  assert (NoDup pinned /\ forall x, x ∈ pinned -> x ∈ DrainPinned (Compute before)) as Hpinned.
  { split; [|apply Htake]. eapply sublist_NoDup; [|apply sublist_take]. rewrite Compute_spec. cbn [DrainPinned]. rewrite pinnedOverBound_spec. by apply NoDup_sorted_prefix. }
  exists (Z.of_nat (length fresh)), (Z.of_nat (length free)), (Z.of_nat (length pinned)). rewrite Hpods.
  split_and!; [by eapply after_free|by eapply after_pinned|by eapply after_warming|lia|done|lia|unfold free; rewrite length_take; lia|lia
    |unfold pinned; rewrite length_take; lia|by intros ->%Hdeg|].
  intros Ho. destruct (Hok Ho) as [Hk Hc]. rewrite length_app in Hk. unfold free, pinned. rewrite !length_take. split_and!; [lia|lia|done].
Qed.

Lemma Reconcile_pass env mn mx sbs sbs' ok : NoDup (sb_Name <$> sbs) -> names_new env sbs -> Reconcile env mn mx sbs = (sbs', ok) ->
  let target := warmTarget mn mx in let before := Compute (poolInputs env mn mx sbs) in let next := Compute (poolInputs env mn mx sbs') in
  let warming := cnt is_warming (Pods (poolInputs env mn mx sbs)) in
  (Z.min target (WarmCount before) <= WarmCount next <= Z.max target (WarmCount before))%Z /\
  (ok = true -> Drain next = [] /\ DrainPinned next = [] /\ (PinnedIdleCount next <= clampZero mx - target)%Z /\
   (degraded env = Some false -> Create next = 0%Z /\ WarmCount next = Z.max target warming) /\
   (degraded env = Some true -> WarmCount next = Z.min (WarmCount before) (Z.max target warming))).
Proof.
  intros Hnd Hnew HR target before next warming.
  destruct (Reconcile_counts env mn mx sbs sbs' ok Hnd Hnew HR) as (made & freed & unpinned & Hf & Hp & Hw & Hb & Hdeg & Hok).
  pose proof (warmTarget_bounds mn mx) as [HT _]. fold target in HT.
  pose proof (Drain_length (poolInputs env mn mx sbs)) as HD. pose proof (DrainPinned_length (poolInputs env mn mx sbs)) as HP.
  pose proof (Create_spec (poolInputs env mn mx sbs)) as HC.
  pose proof (Drain_length (poolInputs env mn mx sbs')) as HD'. pose proof (DrainPinned_length (poolInputs env mn mx sbs')) as HP'.
  pose proof (Create_spec (poolInputs env mn mx sbs')) as HC'.
  assert (WarmCount before = cnt is_free_idle (Pods (poolInputs env mn mx sbs)) + warming /\
    WarmCount next = cnt is_free_idle (Pods (poolInputs env mn mx sbs')) + cnt is_warming (Pods (poolInputs env mn mx sbs')) /\
    PinnedIdleCount next = cnt is_pinned_idle (Pods (poolInputs env mn mx sbs')))%Z as (HW & HW' & HI') by (unfold before, next; rewrite !Compute_spec; done).
  fold before in HD, HP, HC, Hb, Hok. fold next in HD', HP', HC'. cbn [MinWarm MaxWarm poolInputs] in HD, HP, HC, HD', HP', HC'.
  fold target in HD, HP, HC, HD', HP', HC'. fold warming in HD, HC, Hw, HW. unfold excess_of in HD, HD'. rewrite HW, HW'.
  assert (0 <= cnt is_free_idle (Pods (poolInputs env mn mx sbs)) /\ 0 <= warming)%Z as [? ?] by (unfold warming, cnt; lia).
  split; [lia|]. intros Ho. destruct (Hok Ho) as (-> & -> & Hm).
  destruct (degraded env) as [[]|] eqn:Ed.
  - rewrite (Hdeg eq_refl) in *. split_and!; [apply length_zero_iff_nil; lia|apply length_zero_iff_nil; lia|lia|done|lia].
  - rewrite (Hm eq_refl) in *. split_and!; [apply length_zero_iff_nil; lia|apply length_zero_iff_nil; lia|lia|lia|done].
  - exfalso. revert HR. unfold Reconcile. rewrite Ed. subst ok. by destruct (_ && _).
Qed.


(** A pool that should hold three, with one pod idle and one claimed.  A create is
    made and its answer lost; a later pass finishes the work. *)
Definition pool : list Sandbox := [mkSandbox "a" (Some Idle) false false; mkSandbox "b" (Some Claimed) true true].
Definition lossy : PassEnv := mkPass false true (Some false) (fun _ => ("c", DoneLost)) (fun _ => Done).
Definition smooth : PassEnv := mkPass false true (Some false) (fun j => (if j is O then "d" else "e", Done)) (fun _ => Done).


(** The plan does not depend on the order in which the pods were listed,
    so two reconcile passes over the same pool agree. *)
Theorem Compute_order_independent (mn mx : Z) (l1 l2 : list Pod) :
  l1 ≡ₚ l2 -> Compute (mkInputs mn mx l1) = Compute (mkInputs mn mx l2).
Proof.
  intros Hp. rewrite !Compute_spec. simpl. rewrite !pinnedOverBound_spec.
  pose proof (names_perm is_free_idle l1 l2 Hp) as Hf.
  pose proof (names_perm is_pinned_idle l1 l2 Hp) as Hq.
  rewrite !(cnt_perm _ l1 l2 Hp), (sort_strings_proper _ _ Hf), (sort_strings_proper _ _ Hq), Hq.
  done.
Qed.

Lemma Compute_order_independent_witness :
  Compute (mkInputs 1 3 [mkPod "a" Idle false; mkPod "b" Idle false]) =
  Compute (mkInputs 1 3 [mkPod "b" Idle false; mkPod "a" Idle false]).
Proof. apply Compute_order_independent. apply Permutation_swap. Defined.
