(* ===== verification/Redis.v ===== *)
(** * The Redis interface

    Several stores of the gateway keep their state in Redis and change it by
    Lua scripts.  Redis itself is not part of the repository: [RedisServer]
    is the interface those scripts use, one field per command, with the
    command's documented effect on the key space as its law.  [map_server]
    is an instance, so every theorem proved against the interface applies to
    a concrete key space.

    A Lua script runs atomically; an error raised by one of its commands
    aborts it and keeps the writes made before, so [Script] threads the key
    space and may end without a reply. *)

From S2P Require Import Prelude.
From Stdlib Require Import DecimalString DecimalZ.

(** ** Values *)

(** Redis keeps integers as their decimal text. *)
Definition string_of_Z (z : Z) : string := NilZero.string_of_int (Z.to_int z).
Definition Z_of_string (s : string) : option Z := Z.of_int <$> NilZero.int_of_string s.

Lemma Z_of_string_of_Z z : Z_of_string (string_of_Z z) = Some z.
Proof.
  unfold Z_of_string, string_of_Z. rewrite NilZero.isi.
  - simpl. by rewrite DecimalZ.of_to.
  - destruct z as [|p|p]; simpl; [done| |]; intros [= Hp];
      by apply (DecimalPos.Unsigned.to_uint_nonnil p).
  - destruct z as [|p|p]; simpl; [done| |]; intros [= Hp];
      by apply (DecimalPos.Unsigned.to_uint_nonnil p).
Qed.

Inductive rvalue :=
| RString (s : string)
| RSet (s : gset string).

(** A key's value and its remaining time to live in milliseconds, if any. *)
Record rentry := mkEntry { rval : rvalue; rttl : option Z }.

(** A key space with one key replaced. *)
Definition upd (f : string -> option rentry) (k : string) (e : option rentry) (k' : string)
    : option rentry := if decide (k' = k) then e else f k'.

Lemma upd_eq f k e : upd f k e k = e.
Proof. unfold upd. by rewrite decide_True. Qed.

Lemma upd_ne f k e k' : k' <> k -> upd f k e k' = f k'.
Proof. intros. unfold upd. by rewrite decide_False. Qed.

Definition members (e : option rentry) : gset string :=
  match e with Some (mkEntry (RSet s) _) => s | _ => ∅ end.

(** A set command applies to an absent key or to a key holding a set. *)
Definition setlike (e : option rentry) : Prop :=
  match e with None => True | Some (mkEntry (RSet _) _) => True | _ => False end.

Definition ttl_of (e : option rentry) : option Z :=
  match e with Some e => rttl e | None => None end.

(** Redis deletes a set key when its last member is removed. *)
Definition set_entry (s : gset string) (t : option Z) : option rentry :=
  if decide (s = ∅) then None else Some (mkEntry (RSet s) t).

(** ** The commands *)

Class RedisServer (Σ : Type) := {
  entry : Σ -> string -> option rentry;
  EXISTS : Σ -> string -> bool;
  GET : Σ -> string -> option string;
  PTTL : Σ -> string -> Z;
  SET : Σ -> string -> string -> Σ;
  SET_PX : Σ -> string -> string -> Z -> Σ;
  SET_NX_PX : Σ -> string -> string -> Z -> Σ;
  SET_KEEPTTL : Σ -> string -> string -> Σ;
  INCRBY : Σ -> string -> Z -> Σ * option Z;
  PEXPIRE : Σ -> string -> Z -> Σ;
  DEL : Σ -> string -> Σ;
  SISMEMBER : Σ -> string -> string -> bool;
  SCARD : Σ -> string -> Z;
  SADD : Σ -> string -> string -> Σ;
  SREM : Σ -> string -> string -> Σ * Z;

  EXISTS_law σ k : EXISTS σ k = bool_decide (is_Some (entry σ k));
  GET_absent σ k : entry σ k = None -> GET σ k = None;
  GET_string σ k v t : entry σ k = Some (mkEntry (RString v) t) -> GET σ k = Some v;
  PTTL_law σ k : PTTL σ k = match entry σ k with
                            | None => (-2)%Z
                            | Some (mkEntry _ None) => (-1)%Z
                            | Some (mkEntry _ (Some t)) => Z.max 0 t
                            end;
  SET_law σ k v k' :
    entry (SET σ k v) k' = upd (entry σ) k (Some (mkEntry (RString v) None)) k';
  SET_PX_law σ k v t k' : (0 < t)%Z ->
    entry (SET_PX σ k v t) k' = upd (entry σ) k (Some (mkEntry (RString v) (Some t))) k';
  SET_NX_PX_law σ k v t k' : (0 < t)%Z ->
    entry (SET_NX_PX σ k v t) k' =
    match entry σ k with
    | Some _ => entry σ k'
    | None => upd (entry σ) k (Some (mkEntry (RString v) (Some t))) k'
    end;
  SET_KEEPTTL_law σ k v k' :
    entry (SET_KEEPTTL σ k v) k' =
    upd (entry σ) k (Some (mkEntry (RString v) (ttl_of (entry σ k)))) k';
  (** An absent key counts as 0; a result outside 64 bits is an error and
      leaves the key as it was; the time to live is kept. *)
  INCRBY_law σ k d n t :
    (entry σ k = None /\ n = 0%Z /\ t = None \/
     entry σ k = Some (mkEntry (RString (string_of_Z n)) t)) ->
    in_int64 (n + d) ->
    (INCRBY σ k d).2 = Some (n + d)%Z /\
    forall k', entry (INCRBY σ k d).1 k' =
               upd (entry σ) k (Some (mkEntry (RString (string_of_Z (n + d))) t)) k';
  PEXPIRE_law σ k t k' : (0 < t)%Z ->
    entry (PEXPIRE σ k t) k' =
    upd (entry σ) k ((fun e => mkEntry (rval e) (Some t)) <$> entry σ k) k';
  (** A non-positive time to live expires the key at once. *)
  PEXPIRE_now σ k t k' : (t <= 0)%Z -> entry (PEXPIRE σ k t) k' = upd (entry σ) k None k';
  DEL_law σ k k' : entry (DEL σ k) k' = upd (entry σ) k None k';
  SISMEMBER_law σ k m : setlike (entry σ k) ->
    SISMEMBER σ k m = bool_decide (m ∈ members (entry σ k));
  SCARD_law σ k : setlike (entry σ k) ->
    SCARD σ k = Z.of_nat (size (members (entry σ k)));
  SADD_law σ k m k' : setlike (entry σ k) ->
    entry (SADD σ k m) k' =
    upd (entry σ) k (Some (mkEntry (RSet ({[m]} ∪ members (entry σ k))) (ttl_of (entry σ k)))) k';
  SREM_law σ k m k' : setlike (entry σ k) ->
    (SREM σ k m).2 = (if decide (m ∈ members (entry σ k)) then 1%Z else 0%Z) /\
    entry (SREM σ k m).1 k' =
    upd (entry σ) k (match entry σ k with
                     | None => None
                     | Some e => set_entry (members (entry σ k) ∖ {[m]}) (rttl e)
                     end) k'
}.

(** Time passes: keys keep their value while their time to live shrinks, and
    a key that carries one may vanish; a key without one stays. *)
Definition elapse {Σ} `{RedisServer Σ} (σ σ' : Σ) : Prop :=
  forall k, match entry σ k with
            | None => entry σ' k = None
            | Some (mkEntry v None) => entry σ' k = Some (mkEntry v None)
            | Some (mkEntry v (Some t)) =>
                entry σ' k = None \/
                exists t', (t' <= t)%Z /\ entry σ' k = Some (mkEntry v (Some t'))
            end.

(** ** Lua *)

(** Lua numbers are binary64: integers are exact up to 2^53 and rounded
    beyond. *)
Definition lua_exact (z : Z) : Prop := (Z.abs z <= 9007199254740992)%Z.

Definition lua_num (z : Z) : Z :=
  if (Z.abs z <=? 9007199254740992)%Z then z
  else match F64.of_Z z with
       | SpecFloat.S754_finite sg m e =>
           let v := Z.shiftl (Z.pos m) e in if sg then (- v)%Z else v
       | _ => 0%Z
       end.

Lemma lua_num_exact z : lua_exact z -> lua_num z = z.
Proof. unfold lua_exact, lua_num. intros. case_match; [done|]. simplify_bool. lia. Qed.

Definition tonumber (s : string) : option Z := lua_num <$> Z_of_string s.

(** A script: the key space it leaves and its reply, [None] when a command or
    a conversion raised. *)
Definition Script (Σ A : Type) : Type := Σ -> Σ * option A.

Definition sret {Σ A} (a : A) : Script Σ A := fun σ => (σ, Some a).
Definition sbind {Σ A B} (m : Script Σ A) (f : A -> Script Σ B) : Script Σ B :=
  fun σ => match m σ with
           | (σ', Some a) => f a σ'
           | (σ', None) => (σ', None)
           end.
Definition sread {Σ A} (f : Σ -> A) : Script Σ A := fun σ => (σ, Some (f σ)).
Definition swrite {Σ} (f : Σ -> Σ) : Script Σ unit := fun σ => (f σ, Some tt).
Definition slift {Σ A} (o : option A) : Script Σ A := fun σ => (σ, o).

Notation "x '<~' m ';~' k" := (sbind m (fun x => k))
  (at level 100, m at next level, k at level 200, right associativity) : lenny_scope.
Notation "m ';~~' k" := (sbind m (fun _ => k))
  (at level 100, k at level 200, right associativity) : lenny_scope.

(** What becomes of a call: the script ran and its reply arrived, the reply
    was lost after it ran, or it never reached the server. *)
Inductive transport := Delivered | ReplyLost | Unreachable.

Definition run_script {Σ A} (tr : transport) (m : Script Σ A) (σ : Σ) : Σ * option A :=
  match tr with
  | Delivered => m σ
  | ReplyLost => ((m σ).1, None)
  | Unreachable => (σ, None)
  end.

(** ** An instance *)

Definition map_upd (σ : gmap string rentry) (k : string) (e : option rentry) :=
  match e with Some e => <[k := e]> σ | None => delete k σ end.

Lemma map_upd_lookup σ k e k' : map_upd σ k e !! k' = upd (fun k => σ !! k) k e k'.
Proof.
  unfold upd, map_upd. case_decide as Hk; destruct e; subst.
  - apply lookup_insert_eq.
  - apply lookup_delete_eq.
  - by apply lookup_insert_ne.
  - by apply lookup_delete_ne.
Qed.

#[export, refine] Instance map_server : RedisServer (gmap string rentry) := {|
  entry σ k := σ !! k;
  EXISTS σ k := bool_decide (is_Some (σ !! k));
  GET σ k := match σ !! k with Some (mkEntry (RString v) _) => Some v | _ => None end;
  PTTL σ k := match σ !! k with
              | None => (-2)%Z
              | Some (mkEntry _ None) => (-1)%Z
              | Some (mkEntry _ (Some t)) => Z.max 0 t
              end;
  SET σ k v := map_upd σ k (Some (mkEntry (RString v) None));
  SET_PX σ k v t := map_upd σ k (Some (mkEntry (RString v) (Some t)));
  SET_NX_PX σ k v t := match σ !! k with
                       | Some _ => σ
                       | None => map_upd σ k (Some (mkEntry (RString v) (Some t)))
                       end;
  SET_KEEPTTL σ k v := map_upd σ k (Some (mkEntry (RString v) (ttl_of (σ !! k))));
  INCRBY σ k d :=
    match (match σ !! k with
           | None => Some 0%Z
           | Some (mkEntry (RString v) _) => Z_of_string v
           | _ => None
           end) with
    | Some n =>
        if bool_decide (in_int64 (n + d))
        then (map_upd σ k (Some (mkEntry (RString (string_of_Z (n + d))) (ttl_of (σ !! k)))),
              Some (n + d)%Z)
        else (σ, None)
    | None => (σ, None)
    end;
  PEXPIRE σ k t := if (t <=? 0)%Z then map_upd σ k None
                   else map_upd σ k ((fun e => mkEntry (rval e) (Some t)) <$> σ !! k);
  DEL σ k := map_upd σ k None;
  SISMEMBER σ k m := bool_decide (m ∈ members (σ !! k));
  SCARD σ k := Z.of_nat (size (members (σ !! k)));
  SADD σ k m := map_upd σ k (Some (mkEntry (RSet ({[m]} ∪ members (σ !! k))) (ttl_of (σ !! k))));
  SREM σ k m :=
    (map_upd σ k (match σ !! k with
                  | None => None
                  | Some e => set_entry (members (σ !! k) ∖ {[m]}) (rttl e)
                  end),
     if decide (m ∈ members (σ !! k)) then 1%Z else 0%Z)
|}.
Proof.
  all: intros; try rewrite map_upd_lookup; try done.
  - by destruct (σ !! k).
  - by rewrite H.
  - destruct (σ !! k); [done|]. by rewrite map_upd_lookup.
  - assert ((match σ !! k with
             | Some {| rval := RString v |} => Z_of_string v
             | Some {| rval := RSet _ |} => None
             | None => Some 0%Z
             end) = Some n /\ ttl_of (σ !! k) = t) as [Hn Ht].
    { destruct H as [(-> & -> & ->)| ->]; [done|]. simpl. by rewrite Z_of_string_of_Z. }
    rewrite Hn, Ht, bool_decide_eq_true_2 by done. split; [done|]. intros k'. apply map_upd_lookup.
  - rewrite (proj2 (Z.leb_gt t 0)) by done. apply map_upd_lookup.
  - rewrite (proj2 (Z.leb_le t 0)) by done. apply map_upd_lookup.
  - split; [done|]. apply map_upd_lookup.
Defined.
