(* ===== verification/RedisKeys.v ===== *)
(** * Tenant key isolation ([pkg/gateway/storage/rediskeys])

    The Redis wrapper that validates the key arguments of a command against
    the tenant scope of its context. *)

From S2P Require Import Prelude.

Record Scope := mkScope { tenantID : string; ownedRoots : gset string }.

Definition TenantScope (t : string) : Scope := mkScope t ∅.

Definition DelegationScope (t : string) (roots : list string) : Scope :=
  mkScope t (list_to_set roots).

Definition ownsRoot (s : Scope) (root : string) : bool := bool_decide (root ∈ ownedRoots s).

Inductive KeyError := ErrCrossTenant | ErrNoPrefix | ErrDelegationOwnership.

Definition tenantKeyOpen : string := "t:{".
Definition tenantKeyClose : string := "}:".

Definition TenantPrefix (t : string) : string := tenantKeyOpen +:+ t +:+ tenantKeyClose.

(** [idx <= 0] rejects both a missing closer and an empty tenant. *)
Definition tenantOf (key : string) : option string :=
  match cut_prefix tenantKeyOpen key with
  | None => None
  | Some rest =>
      match cut tenantKeyClose rest with
      | None => None
      | Some (t, _) => if is_empty t then None else Some t
      end
  end.

Definition TenantOf (key : string) : option string := tenantOf key.

Definition trimPrefix (s p : string) : string := default s (cut_prefix p s).

Fixpoint trimSuffixBrace (s : string) : string :=
  match s with
  | EmptyString => EmptyString
  | String c EmptyString => if Ascii.eqb c "}"%char then "" else s
  | String c s => String c (trimSuffixBrace s)
  end.

Definition delegationRoot (key : string) : option string :=
  match cut ":dlg:" key with
  | None => None
  | Some (before, _) =>
      if is_empty before then None
      else
        let root := trimPrefix before "{" in
        let root := trimSuffixBrace root in
        if is_empty root then None else Some root
  end.

Definition ValidateKey (scope : Scope) (key : string) : result KeyError unit :=
  if is_empty key then Ok tt
  else if has_prefix key "cb:" then Ok tt
  else if has_prefix key "lenny:pod:" then Ok tt
  else if has_prefix key "t:" then
    match tenantOf key with
    | None => Err ErrNoPrefix
    | Some t =>
        if negb (is_empty (tenantID scope)) && negb (bool_decide (t = tenantID scope))
        then Err ErrCrossTenant
        else Ok tt
    end
  else match delegationRoot key with
       | Some root => if ownsRoot scope root then Ok tt else Err ErrDelegationOwnership
       | None => Err ErrNoPrefix
       end.

(** [Guard.check] over a command's keys (which arguments are keys is the
    client library's table); without a scope every command passes. *)
Fixpoint check_keys (scope : Scope) (ks : list string) : result KeyError unit :=
  match ks with
  | [] => Ok tt
  | k :: ks => let* _ := ValidateKey scope k in check_keys scope ks
  end.

Definition check (scope : option Scope) (ks : list string) : result KeyError unit :=
  match scope with
  | None => Ok tt
  | Some scope => check_keys scope ks
  end.

(** A pipeline is rejected as a whole, before any command is issued. *)
Fixpoint check_pipeline (scope : option Scope) (cmds : list (list string))
    : result KeyError unit :=
  match cmds with
  | [] => Ok tt
  | ks :: cmds => let* _ := check scope ks in check_pipeline scope cmds
  end.

(** ** Lemmas *)

Lemma tenantOf_sound key t :
  tenantOf key = Some t -> t <> "" /\ exists rest, key = TenantPrefix t +:+ rest.
Proof.
  unfold tenantOf. destruct (cut_prefix tenantKeyOpen key) as [rest|] eqn:E; [|done].
  apply cut_prefix_Some in E as ->. destruct (cut tenantKeyClose rest) as [[b a]|] eqn:E; [|done].
  destruct (is_empty b) eqn:Hb; [done|]. intros [= <-]. split.
  - intros ->. done.
  - exists a. apply cut_sound in E as ->. unfold TenantPrefix. by rewrite !append_assoc3.
Qed.

Lemma tenantOf_prefix t rest :
  t <> "" -> has_char "}"%char t = false -> tenantOf (TenantPrefix t +:+ rest) = Some t.
Proof.
  intros Ht Hc. unfold tenantOf, TenantPrefix. rewrite !append_assoc3.
  assert (cut_prefix tenantKeyOpen (tenantKeyOpen +:+ t +:+ tenantKeyClose +:+ rest) =
          Some (t +:+ tenantKeyClose +:+ rest)) as -> by (by apply cut_prefix_Some).
  unfold tenantKeyClose. rewrite cut_first by done. by rewrite is_empty_false.
Qed.

Lemma check_keys_Ok scope ks :
  check_keys scope ks = Ok tt <-> Forall (fun k => ValidateKey scope k = Ok tt) ks.
Proof.
  induction ks as [|k ks IH]; simpl; [by split|].
  rewrite Forall_cons, <- IH. destruct (ValidateKey scope k) as [[]|]; simpl; naive_solver.
Qed.

Lemma check_pipeline_Ok scope cmds :
  check_pipeline scope cmds = Ok tt <-> Forall (fun ks => check scope ks = Ok tt) cmds.
Proof.
  induction cmds as [|k ks IH]; simpl; [by split|].
  rewrite Forall_cons, <- IH. destruct (check scope k) as [[]|]; simpl; naive_solver.
Qed.

Lemma tenant_key_classes t rest :
  is_empty (TenantPrefix t +:+ rest) = false /\
  has_prefix (TenantPrefix t +:+ rest) "cb:" = false /\
  has_prefix (TenantPrefix t +:+ rest) "lenny:pod:" = false /\
  has_prefix (TenantPrefix t +:+ rest) "t:" = true.
Proof. unfold TenantPrefix. rewrite !append_assoc3. split_and!; reflexivity. Qed.

Lemma ValidateKey_sound scope key :
  tenantID scope <> "" -> ValidateKey scope key = Ok tt ->
  key = "" \/ has_prefix key "cb:" = true \/ has_prefix key "lenny:pod:" = true \/
  (exists rest, key = TenantPrefix (tenantID scope) +:+ rest) \/
  (exists root, delegationRoot key = Some root /\ root ∈ ownedRoots scope).
Proof.
  intros Ht. unfold ValidateKey. destruct (is_empty key) eqn:He.
  { apply is_empty_spec in He. tauto. }
  destruct (has_prefix key "cb:"); [tauto|]. destruct (has_prefix key "lenny:pod:"); [tauto|].
  destruct (has_prefix key "t:").
  - destruct (tenantOf key) as [t|] eqn:E; [|done]. rewrite (is_empty_false _ Ht). simpl.
    case_bool_decide as Hd; [|done]. intros _. apply tenantOf_sound in E as [_ E]. subst t. tauto.
  - destruct (delegationRoot key) as [root|] eqn:E; [|done].
    unfold ownsRoot. case_bool_decide; [|done]. intros _. do 4 right. eauto.
Qed.

(** Key isolation: whatever the key bytes are, a command pipeline that
    passes the guard under a tenant's scope touches only keys of the
    platform's exception classes, keys that literally lead with that tenant's
    own prefix, and budget keys of a root session the scope owns; and a key
    of another tenant is refused as cross-tenant for tenant ids without a
    closing brace, while the tenant's own keys pass. *)
Theorem guard_isolates_tenants (scope : Scope) (cmds : list (list string)) :
  tenantID scope <> "" ->
  (check_pipeline (Some scope) cmds = Ok tt ->
   forall ks key, ks ∈ cmds -> key ∈ ks ->
   key = "" \/ has_prefix key "cb:" = true \/ has_prefix key "lenny:pod:" = true \/
   (exists rest, key = TenantPrefix (tenantID scope) +:+ rest) \/
   (exists root, delegationRoot key = Some root /\ root ∈ ownedRoots scope)) /\
  (forall t rest, t <> "" -> has_char "}"%char t = false ->
   ValidateKey scope (TenantPrefix t +:+ rest) =
   if bool_decide (t = tenantID scope) then Ok tt else Err ErrCrossTenant).
Proof.
  intros Ht. split.
  - intros Hp ks key Hks Hkey. apply check_pipeline_Ok in Hp. rewrite Forall_forall in Hp.
    specialize (Hp ks Hks). simpl in Hp. apply check_keys_Ok in Hp. rewrite Forall_forall in Hp.
    by apply ValidateKey_sound, Hp.
  - intros t rest Hne Hc. destruct (tenant_key_classes t rest) as (E1 & E2 & E3 & E4).
    unfold ValidateKey. rewrite E1, E2, E3, E4, tenantOf_prefix, (is_empty_false _ Ht) by done.
    simpl. by case_bool_decide.
Qed.

Lemma guard_isolates_tenants_witness :
  ValidateKey (TenantScope "acme") "t:{globex}:lease:session:s1" = Err ErrCrossTenant.
Proof.
  refine (proj2 (guard_isolates_tenants (TenantScope "acme") [] _) "globex" "lease:session:s1" _ _).
  - discriminate.
  - discriminate.
  - reflexivity.
Defined.
