(* ===== verification/TreeBudget.v ===== *)
(** * The delegation-tree budget ([pkg/gateway/mcpfabric/delegationtree/treebudget])

    [Reserve] and [Return] run the two Lua scripts of the package against the
    [RedisServer] interface.  The theorems state the reservation contract
    (caps, all-or-nothing rejection, the sentinel) and an invariant of every
    interleaving of calls and expirations. *)

From S2P Require Import Prelude Redis.

Definition DefaultTTL : Duration := (8 * 24 * Hour)%Z.
Definition DefaultMaxTreeMemoryBytes : Z := 2097152.
Definition PerNodeMemoryBytes : Z := (12 * 1024)%Z.

Record Reservation := mkReservation {
  RootSessionID : string;
  ParentSessionID : string;
  TreeSizeCap : Z; TreeSizeDelta : Z;
  TreeMemoryCap : Z; TreeMemoryDelta : Z;
  ParallelChildrenCap : Z; ParallelChildrenDelta : Z;
  ChildrenTotalCap : Z; ChildrenTotalDelta : Z;
  TokenCap : Z; TokenDelta : Z;
  CreateTree : bool
}.

Record Totals := mkTotals {
  TreeSize : Z; TreeMemory : Z; ParallelChildren : Z; ChildrenTotal : Z; Tokens : Z
}.

Definition axisName : list string :=
  ["maxTreeSize"; "maxTreeMemoryBytes"; "maxParallelChildren"; "maxChildrenTotal";
   "maxTokenBudget"].

Record BudgetExhaustedError := mkExhausted { Axis : string; Current : Z; Cap : Z; Delta : Z }.

Inductive BudgetError :=
| ErrEmptyRoot
| ErrBudgetUnavailable
| ErrBudgetKeysExpired
| ErrBudgetExhausted (e : BudgetExhaustedError).

(** [New]: a non-positive ttl selects the default. *)
Definition NewTTL (ttl : Duration) : Duration := if (ttl <=? 0)%Z then DefaultTTL else ttl.

Definition statusRejected : Z := 0.
Definition statusAdmitted : Z := 1.
Definition statusKeysExpired : Z := 2.

Definition root_prefix (root : string) : string := "{" +:+ root +:+ "}:dlg:".

Definition keys (r : Reservation) : list string :=
  let root := root_prefix (RootSessionID r) in
  [ root +:+ "tree_size";
    root +:+ "tree_memory";
    root +:+ "parallel_children:" +:+ ParentSessionID r;
    root +:+ "children_total:" +:+ ParentSessionID r;
    root +:+ "tokens" ].

Definition hwmKey (root : string) : string := "{" +:+ root +:+ "}:dlg:parallel_children_hwm".

Definition reserveKeys (r : Reservation) : list string := keys r ++ [hwmKey (RootSessionID r)].

Definition boolArg (b : bool) : Z := if b then 1%Z else 0%Z.

Definition axisDelta (r : Reservation) (idx : Z) : Z :=
  if (idx =? 1)%Z then TreeSizeDelta r
  else if (idx =? 2)%Z then TreeMemoryDelta r
  else if (idx =? 3)%Z then ParallelChildrenDelta r
  else if (idx =? 4)%Z then ChildrenTotalDelta r
  else if (idx =? 5)%Z then TokenDelta r
  else 0%Z.

(** The five (cap, delta) pairs of [ARGV]. *)
Definition caps_deltas (r : Reservation) : list (Z * Z) :=
  [ (TreeSizeCap r, TreeSizeDelta r);
    (TreeMemoryCap r, TreeMemoryDelta r);
    (ParallelChildrenCap r, ParallelChildrenDelta r);
    (ChildrenTotalCap r, ChildrenTotalDelta r);
    (TokenCap r, TokenDelta r) ].

(** ** The scripts *)

Section Scripts.
Context {Σ : Type} `{RedisServer Σ}.

(** [tonumber(redis.call('GET', k) or '0')]; a value that is no number ends
    the script. *)
Definition read_number (k : string) : Script Σ Z :=
  v <~ sread (fun σ => GET σ k);~
  slift (tonumber (default "0" v)).

Fixpoint read_all (ks : list string) : Script Σ (list Z) :=
  match ks with
  | [] => sret []
  | k :: ks => n <~ read_number k;~ ns <~ read_all ks;~ sret (n :: ns)
  end.

(** The cap check of the second loop, from axis [i] on: the first axis over
    its cap, as (index, current, cap). *)
Fixpoint first_over (i : Z) (axes : list (Z * (Z * Z))) : option (Z * Z * Z) :=
  match axes with
  | [] => None
  | (cur, (cap, delta)) :: axes =>
      let cap := lua_num cap in
      let delta := lua_num delta in
      if (0 <? cap)%Z && (0 <? delta)%Z && (cap <? lua_num (cur + delta))%Z
      then Some (i, cur, cap)
      else first_over (i + 1) axes
  end.

(** The third loop: increment, and arm the TTL of a key that has none. *)
Fixpoint apply_deltas (ttl : Z) (axes : list (string * (Z * Z))) : Script Σ (list Z) :=
  match axes with
  | [] => sret []
  | (k, (cur, delta)) :: axes =>
      let delta := lua_num delta in
      v <~ (if (delta =? 0)%Z then sret cur
            else v <~ (fun σ => INCRBY σ k delta);~
                 t <~ sread (fun σ => PTTL σ k);~
                 (if (t =? -1)%Z then swrite (fun σ => PEXPIRE σ k (ttl * 1000)) else sret tt);~~
                 sret (lua_num v));~
      vs <~ apply_deltas ttl axes;~
      sret (v :: vs)
  end.

(** The creation of the tree-wide keys, [SET k 0 NX EX ttl] for axes 1, 2, 5. *)
Definition create_tree (ks : list string) (ttl : Z) : Script Σ unit :=
  swrite (fun σ => SET_NX_PX σ (nth 0 ks "") "0" (ttl * 1000));~~
  swrite (fun σ => SET_NX_PX σ (nth 1 ks "") "0" (ttl * 1000));~~
  swrite (fun σ => SET_NX_PX σ (nth 4 ks "") "0" (ttl * 1000)).

Definition update_hwm (hwm : string) (pc ttl : Z) : Script Σ unit :=
  cur <~ read_number hwm;~
  if (cur <? pc)%Z then
    swrite (fun σ => SET σ hwm (string_of_Z pc));~~
    swrite (fun σ => PEXPIRE σ hwm (ttl * 1000))
  else sret tt.

(** The part of the script after the sentinel check. *)
Definition reserve_body (ks : list string) (hwm : string) (cds : list (Z * Z)) (ttl : Z)
    : Script Σ (list Z) :=
  cur <~ read_all ks;~
  match first_over 1 (zip cur cds) with
  | Some (i, c, cap) => sret [statusRejected; i; c; cap]
  | None =>
      out <~ apply_deltas ttl (zip ks (zip cur cds.*2));~
      update_hwm hwm (nth 2 out 0%Z) ttl;~~
      sret (statusAdmitted :: out)
  end.

Definition reserveScript (ks : list string) (hwm : string) (cds : list (Z * Z)) (ttl create : Z)
    : Script Σ (list Z) :=
  present <~ sread (fun σ => EXISTS σ (nth 4 ks ""));~
  if negb present then
    if negb (lua_num create =? 1)%Z then sret [statusKeysExpired]
    else create_tree ks ttl;~~ reserve_body ks hwm cds ttl
  else reserve_body ks hwm cds ttl.

(** The loop of the return script, [DECRBY] being an increment by [-delta]. *)
Fixpoint return_loop (axes : list (string * Z)) : Script Σ unit :=
  match axes with
  | [] => sret tt
  | (k, delta) :: axes =>
      let delta := lua_num delta in
      present <~ sread (fun σ => EXISTS σ k);~
      (if negb (delta =? 0)%Z && present then
         v <~ (fun σ => INCRBY σ k (- delta)%Z);~
         if (lua_num v <? 0)%Z then swrite (fun σ => SET_KEEPTTL σ k "0") else sret tt
       else sret tt);~~
      return_loop axes
  end.

Definition returnScript (ks : list string) (deltas : list Z) : Script Σ Z :=
  present <~ sread (fun σ => EXISTS σ (nth 4 ks ""));~
  if negb present then sret statusKeysExpired
  else return_loop (zip ks deltas);~~ sret 1%Z.

(** ** The Go operations *)

(** [int64(s.ttl.Seconds())] is the whole seconds of a positive ttl. *)
Definition ttl_seconds (ttl : Duration) : Z := Z.quot ttl Second.

Definition Reserve (ttl : Duration) (tr : transport) (r : Reservation) (σ : Σ)
    : Σ * result BudgetError Totals :=
  if is_empty (RootSessionID r) then (σ, Err ErrEmptyRoot)
  else
    let (σ', res) := run_script tr
      (reserveScript (keys r) (hwmKey (RootSessionID r)) (caps_deltas r) (ttl_seconds ttl)
         (boolArg (CreateTree r))) σ in
    (σ', match res with
         | None => Err ErrBudgetUnavailable
         | Some [] => Err ErrBudgetUnavailable
         | Some (st :: rest) =>
             if (st =? statusKeysExpired)%Z then Err ErrBudgetKeysExpired
             else if (st =? statusRejected)%Z then
               match rest with
               | idx :: cur :: cap :: _ =>
                   Err (ErrBudgetExhausted (mkExhausted
                     (if (1 <=? idx)%Z && (idx <=? 5)%Z
                      then nth (Z.to_nat (idx - 1)) axisName "unknown" else "unknown")
                     cur cap (axisDelta r idx)))
               | _ => Err ErrBudgetUnavailable
               end
             else match rest with
                  | a :: b :: c :: d :: e :: _ => Ok (mkTotals a b c d e)
                  | _ => Err ErrBudgetUnavailable
                  end
         end).

Definition Return (tr : transport) (r : Reservation) (σ : Σ) : Σ * result BudgetError unit :=
  if is_empty (RootSessionID r) then (σ, Err ErrEmptyRoot)
  else
    let (σ', res) := run_script tr (returnScript (keys r) (caps_deltas r).*2) σ in
    (σ', match res with
         | None => Err ErrBudgetUnavailable
         | Some st => if (st =? statusKeysExpired)%Z then Err ErrBudgetKeysExpired else Ok tt
         end).

(** [GETDEL] is a read and a delete in one command; [None] is a transport
    failure, an absent key is not an error. *)
Definition ObserveHighWatermark (tr : transport) (root : string) (σ : Σ)
    : Σ * result BudgetError (Z * bool) :=
  if is_empty root then (σ, Err ErrEmptyRoot)
  else
    let (σ', res) := run_script tr
      (fun σ => (DEL σ (hwmKey root), Some (GET σ (hwmKey root)))) σ in
    (σ', match res with
         | None => Err ErrBudgetUnavailable
         | Some None => Ok (0%Z, false)
         | Some (Some v) => match Z_of_string v with
                            | Some n => Ok (n, true)
                            | None => Err ErrBudgetUnavailable
                            end
         end).

(** The pipeline is not atomic: the first [sent] commands take effect, and
    the call succeeds when every one was acknowledged. *)
Definition RearmTree (ttl : Duration) (root : string) (parentIDs : list string)
    (sent : nat) (acked : bool) (σ : Σ) : Σ * result BudgetError unit :=
  if is_empty root then (σ, Err ErrEmptyRoot)
  else
    let p := root_prefix root in
    let ks := [p +:+ "tree_size"; p +:+ "tree_memory"; p +:+ "tokens"; hwmKey root]
      ++ (parentIDs ≫= fun q => [p +:+ "parallel_children:" +:+ q; p +:+ "children_total:" +:+ q]) in
    (foldl (fun σ k => PEXPIRE σ k (ttl_seconds ttl * 1000)) σ (take sent ks),
     if acked then Ok tt else Err ErrBudgetUnavailable).
End Scripts.

(** ** Counters *)

Section Counters.
Context {Σ : Type} `{RedisServer Σ}.

(** Key [k] holds counter value [n]; an absent key counts as zero. *)
Definition counter (σ : Σ) (k : string) (n : Z) : Prop :=
  entry σ k = None /\ n = 0%Z \/
  exists t, entry σ k = Some (mkEntry (RString (string_of_Z n)) t).

(** The two key spaces agree outside [ks]. *)
Definition same_outside (ks : list string) (σ σ' : Σ) : Prop :=
  forall k, k ∉ ks -> entry σ' k = entry σ k.

Lemma string_of_Z_inj n m : string_of_Z n = string_of_Z m -> n = m.
Proof.
  intros E. pose proof (Z_of_string_of_Z n) as Hn. rewrite E, Z_of_string_of_Z in Hn. congruence.
Qed.

Lemma counter_fun σ k n m : counter σ k n -> counter σ k m -> n = m.
Proof.
  intros [[Hn ->]|[t Hn]] [[Hm ->]|[t' Hm]]; try congruence.
  rewrite Hn in Hm. injection Hm as Hm _. by apply string_of_Z_inj.
Qed.

Lemma counter_ext σ σ' k n : entry σ' k = entry σ k -> counter σ k n -> counter σ' k n.
Proof. unfold counter. by intros ->. Qed.

Lemma read_number_counter σ k n :
  counter σ k n -> lua_exact n -> read_number k σ = (σ, Some n).
Proof.
  intros Hc He. unfold read_number, sbind, sread, slift, tonumber. f_equal.
  destruct Hc as [[Hk ->]|[t Hk]].
  - by rewrite (GET_absent _ _ Hk).
  - rewrite (GET_string _ _ _ _ Hk). simpl. rewrite Z_of_string_of_Z. simpl.
    by rewrite lua_num_exact.
Qed.

Lemma read_all_counters σ ks ns :
  Forall2 (fun k n => counter σ k n /\ lua_exact n) ks ns -> read_all ks σ = (σ, Some ns).
Proof.
  induction 1 as [|k n ks ns [Hc He] _ IH]; [reflexivity|]. simpl. unfold sbind at 1.
  rewrite (read_number_counter σ k n Hc He). unfold sbind at 1. by rewrite IH.
Qed.

Lemma lua_exact_int64 z : lua_exact z -> in_int64 z.
Proof. unfold lua_exact. unfold_int64. lia. Qed.

Lemma incrby_counter σ k n d :
  counter σ k n -> in_int64 (n + d) ->
  exists σ' t, INCRBY σ k d = (σ', Some (n + d)%Z) /\ same_outside [k] σ σ' /\
    entry σ' k = Some (mkEntry (RString (string_of_Z (n + d))) t) /\ t = ttl_of (entry σ k).
Proof.
  intros Hc Hr. destruct (INCRBY σ k d) as [σ' v] eqn:E.
  assert (exists t, entry σ k = None /\ n = 0%Z /\ t = None \/
                    entry σ k = Some (mkEntry (RString (string_of_Z n)) t)) as [t Ht].
  { destruct Hc as [[Hk ->]|[t Hk]]; [exists None; tauto|]. exists t. tauto. }
  destruct (INCRBY_law σ k d n t Ht Hr) as [Hv He]. rewrite E in Hv, He. simpl in *. subst v.
  exists σ', t. split; [done|]. split_and!.
  - intros k' Hk'. rewrite He. apply upd_ne. set_solver.
  - rewrite He. apply upd_eq.
  - destruct Ht as [(-> & _ & ->)| ->]; done.
Qed.

Lemma same_outside_refl ks σ : same_outside ks σ σ.
Proof. done. Qed.

Lemma same_outside_trans ks ks' σ σ' σ'' :
  same_outside ks σ σ' -> same_outside ks' σ' σ'' -> same_outside (ks ++ ks') σ σ''.
Proof. intros H1 H2 k Hk. rewrite elem_of_app in Hk. rewrite H2, H1 by tauto. done. Qed.

Lemma same_outside_mono ks ks' σ σ' : ks ⊆ ks' -> same_outside ks σ σ' -> same_outside ks' σ σ'.
Proof. intros Hs H1 k Hk. apply H1. set_solver. Qed.

(** One round of the increment loop. *)
Lemma incr_step_spec (ttl : Z) σ k n d :
  (0 < ttl)%Z -> counter σ k n -> lua_exact d -> lua_exact (n + d) ->
  exists σ',
    (if (d =? 0)%Z then sret n
     else v <~ (fun σ => INCRBY σ k d);~
          t <~ sread (fun σ => PTTL σ k);~
          (if (t =? -1)%Z then swrite (fun σ => PEXPIRE σ k (ttl * 1000)) else sret tt);~~
          sret (lua_num v)) σ = (σ', Some (n + d)%Z) /\
    counter σ' k (n + d) /\ same_outside [k] σ σ'.
Proof.
  intros Ht Hc Hd Hs. destruct (d =? 0)%Z eqn:Hz; simplify_bool.
  { subst d. exists σ. rewrite Z.add_0_r. split_and!; [done|done|apply same_outside_refl]. }
  destruct (incrby_counter σ k n d Hc (lua_exact_int64 _ Hs)) as (σ1 & t & E & Hout & Hk & _).
  unfold sbind, sread. rewrite E, (lua_num_exact _ Hs). simpl.
  destruct (_ =? -1)%Z; simpl; eexists; split; [done| |done|].
  - split.
    + right. exists (Some (ttl * 1000)%Z). rewrite PEXPIRE_law by lia. rewrite upd_eq, Hk. done.
    + intros k' Hk'. rewrite PEXPIRE_law, upd_ne by (lia || set_solver). by apply Hout.
  - split; [|done]. right. by exists t.
Qed.
End Counters.

(** ** The scripts on counters *)

Section ScriptSpecs.
Context {Σ : Type} `{RedisServer Σ}.

Lemma apply_deltas_spec (ttl : Z) axes σ :
  (0 < ttl)%Z -> NoDup axes.*1 ->
  Forall (fun a => counter σ a.1 a.2.1 /\ lua_exact a.2.2 /\ lua_exact (a.2.1 + a.2.2)) axes ->
  exists σ', apply_deltas ttl axes σ = (σ', Some ((fun a => a.2.1 + a.2.2)%Z <$> axes)) /\
    Forall (fun a => counter σ' a.1 (a.2.1 + a.2.2)) axes /\ same_outside axes.*1 σ σ'.
Proof.
  intros Ht. revert σ. induction axes as [|[k [n d]] axes IH]; intros σ Hnd Hall; simpl.
  { exists σ. split_and!; [done|done|apply same_outside_refl]. }
  apply NoDup_cons in Hnd as [Hk Hnd]. apply Forall_cons in Hall as [(Hc & Hd & Hs) Hall].
  simpl in *. rewrite (lua_num_exact d Hd).
  destruct (incr_step_spec ttl σ k n d Ht Hc Hd Hs) as (σ1 & E1 & Hc1 & Ho1).
  destruct (IH σ1) as (σ2 & E2 & Hc2 & Ho2); [done| |].
  { rewrite Forall_forall in Hall |- *. intros [k' [n' d']] Hin.
    destruct (Hall _ Hin) as (Hc' & He'). split; [|done].
    eapply counter_ext; [|exact Hc']. apply Ho1. simpl.
    rewrite list_elem_of_singleton. intros ->. apply Hk. by apply (list_elem_of_fmap_2' fst _ _ _ Hin). }
  exists σ2. unfold sbind at 1. rewrite E1. unfold sbind. rewrite E2.
  split_and!; [done| |].
  - apply Forall_cons. split; [|exact Hc2]. simpl. eapply counter_ext; [|exact Hc1]. by apply Ho2.
  - apply (same_outside_mono ([k] ++ axes.*1)); [set_solver|]. by eapply same_outside_trans.
Qed.

(** The decrement of one axis: clamped at zero, never creating a key and
    never touching a time to live. *)
Lemma return_step_spec σ k n d :
  counter σ k n -> (0 <= n)%Z -> (0 <= d)%Z -> lua_exact n -> lua_exact d ->
  exists σ',
    (present <~ sread (fun σ => EXISTS σ k);~
     (if negb (d =? 0)%Z && present then
        v <~ (fun σ => INCRBY σ k (- d)%Z);~
        if (lua_num v <? 0)%Z then swrite (fun σ => SET_KEEPTTL σ k "0") else sret tt
      else sret tt)) σ = (σ', Some tt) /\
    counter σ' k (Z.max 0 (n - d)) /\ same_outside [k] σ σ' /\
    (is_Some (entry σ' k) <-> is_Some (entry σ k)) /\ ttl_of (entry σ' k) = ttl_of (entry σ k).
Proof.
  intros Hc Hn Hd Hen Hed. unfold sbind at 1, sread. simpl. rewrite EXISTS_law.
  destruct (d =? 0)%Z eqn:Hz; simplify_bool; simpl.
  { subst d. exists σ. rewrite Z.sub_0_r, Z.max_r by done.
    split_and!; [done|done|apply same_outside_refl|done|done]. }
  case_bool_decide as Hsome.
  2:{ exists σ. destruct Hc as [[Hk ->]|[t Hk]]; [|destruct Hsome; eauto].
      rewrite Z.max_l by lia. split_and!; [done|by left|apply same_outside_refl|done|done]. }
  assert (lua_exact (n + - d)) as Hs by (unfold lua_exact in *; lia).
  destruct (incrby_counter σ k n (- d) Hc (lua_exact_int64 _ Hs)) as (σ1 & t & E & Hout & Hk & Ht).
  unfold sbind. rewrite E, (lua_num_exact _ Hs). destruct (_ <? 0)%Z eqn:Hneg; simplify_bool.
  - unfold swrite. eexists; split; [done|].
    assert (entry (SET_KEEPTTL σ1 k "0") k = Some (mkEntry (RString "0") t)) as E0.
    { rewrite SET_KEEPTTL_law, upd_eq, Hk. done. }
    split_and!.
    + rewrite Z.max_l by lia. right. by exists t.
    + intros k' Hk'. rewrite SET_KEEPTTL_law, upd_ne by set_solver. by apply Hout.
    + rewrite E0. split; [done|eauto].
    + rewrite E0. simpl. done.
  - exists σ1. split_and!; [done| |done| |].
    + rewrite Z.max_r by lia. right. exists t. by rewrite Hk.
    + rewrite Hk. split; [done|eauto].
    + by rewrite Hk.
Qed.

(** No key appears or disappears and every time to live is kept. *)
Definition keeps_keys (σ σ' : Σ) : Prop :=
  forall k, (is_Some (entry σ' k) <-> is_Some (entry σ k)) /\
            ttl_of (entry σ' k) = ttl_of (entry σ k).

Lemma keeps_keys_step k σ σ' :
  same_outside [k] σ σ' -> (is_Some (entry σ' k) <-> is_Some (entry σ k)) ->
  ttl_of (entry σ' k) = ttl_of (entry σ k) -> keeps_keys σ σ'.
Proof.
  intros Ho He Ht k'. destruct (decide (k' = k)) as [->|Hne]; [done|].
  rewrite (Ho k') by set_solver. done.
Qed.

Lemma sbind_assoc {A B C} (m : Script Σ A) (f : A -> Script Σ B) (g : B -> Script Σ C) σ :
  sbind m (fun x => sbind (f x) g) σ = sbind (sbind m f) g σ.
Proof. unfold sbind. by destruct (m σ) as [? []]. Qed.

Lemma sbind_Some {A B} (m : Script Σ A) (f : A -> Script Σ B) σ σ' a :
  m σ = (σ', Some a) -> sbind m f σ = f a σ'.
Proof. intros E. unfold sbind. by rewrite E. Qed.

Lemma keeps_keys_trans σ σ' σ'' : keeps_keys σ σ' -> keeps_keys σ' σ'' -> keeps_keys σ σ''.
Proof.
  intros H1 H2 k. destruct (H1 k) as [He1 Ht1], (H2 k) as [He2 Ht2].
  split; [by rewrite He2 | congruence].
Qed.

(** Axes carry (key, (value, delta)); the loop is given (key, delta). *)
Lemma return_loop_spec (axes : list (string * (Z * Z))) σ :
  NoDup axes.*1 ->
  Forall (fun a => counter σ a.1 a.2.1 /\ (0 <= a.2.1)%Z /\ (0 <= a.2.2)%Z /\
                   lua_exact a.2.1 /\ lua_exact a.2.2) axes ->
  exists σ', return_loop ((fun a => (a.1, a.2.2)) <$> axes) σ = (σ', Some tt) /\
    Forall (fun a => counter σ' a.1 (Z.max 0 (a.2.1 - a.2.2))) axes /\
    same_outside axes.*1 σ σ' /\ keeps_keys σ σ'.
Proof.
  revert σ. induction axes as [|[k [n d]] axes IH]; intros σ Hnd Hall; simpl.
  { exists σ. split_and!; [done|done|apply same_outside_refl|done]. }
  apply NoDup_cons in Hnd as [Hk Hnd].
  apply Forall_cons in Hall as [(Hc & Hn & Hd & Hen & Hed) Hall]. simpl in *.
  rewrite (lua_num_exact d Hed).
  destruct (return_step_spec σ k n d Hc Hn Hd Hen Hed) as (σ1 & E1 & Hc1 & Ho1 & Hs1 & Ht1).
  destruct (IH σ1) as (σ2 & E2 & Hc2 & Ho2 & Hk2); [done| |].
  { rewrite Forall_forall in Hall |- *. intros [k' [n' d']] Hin.
    destruct (Hall _ Hin) as (Hc' & He'). split; [|done].
    eapply counter_ext; [|exact Hc']. apply Ho1. simpl.
    rewrite list_elem_of_singleton. intros ->. apply Hk. by apply (list_elem_of_fmap_2' fst _ _ _ Hin). }
  exists σ2. rewrite sbind_assoc, (sbind_Some _ _ _ _ _ E1). split_and!; [exact E2| | |].
  - apply Forall_cons. split; [|exact Hc2]. simpl. eapply counter_ext; [|exact Hc1]. by apply Ho2.
  - apply (same_outside_mono ([k] ++ axes.*1)); [set_solver|]. by eapply same_outside_trans.
  - eapply keeps_keys_trans; [|exact Hk2]. by eapply keeps_keys_step.
Qed.

(** Whatever the sign of the value and of the delta, the decrement of an axis
    leaves a counter there; natural ones do not grow. *)
Lemma return_step_any σ k n d :
  counter σ k n -> lua_exact n -> lua_exact d ->
  exists σ' m,
    (present <~ sread (fun σ => EXISTS σ k);~
     (if negb (d =? 0)%Z && present then
        v <~ (fun σ => INCRBY σ k (- d)%Z);~
        if (lua_num v <? 0)%Z then swrite (fun σ => SET_KEEPTTL σ k "0") else sret tt
      else sret tt)) σ = (σ', Some tt) /\
    counter σ' k m /\ same_outside [k] σ σ' /\ ((0 <= n)%Z -> (0 <= d)%Z -> (0 <= m <= n)%Z).
Proof.
  intros Hc Hen Hed.
  destruct (decide (0 <= n /\ 0 <= d)%Z) as [[Hn Hd]|Hneg].
  { destruct (return_step_spec σ k n d Hc Hn Hd Hen Hed) as (σ' & E & Hc' & Ho & _).
    exists σ', (Z.max 0 (n - d)). split_and!; [exact E|done|done|lia]. }
  unfold sbind at 1, sread. simpl. destruct (negb _ && _); [|exists σ, n; split_and!; [done|done|done|tauto]].
  assert (in_int64 (n + - d)) as Hi by (unfold lua_exact in *; unfold_int64; lia).
  destruct (incrby_counter σ k n (- d) Hc Hi) as (σ1 & t & E & Hout & Hk & _).
  unfold sbind. rewrite E. destruct (_ <? 0)%Z.
  - exists (SET_KEEPTTL σ1 k "0"), 0%Z. split_and!; [done| | |tauto].
    + right. exists t. by rewrite SET_KEEPTTL_law, upd_eq, Hk.
    + intros k' Hk'. rewrite SET_KEEPTTL_law, upd_ne by set_solver. by apply Hout.
  - exists σ1, (n + - d)%Z. split_and!; [done|right; by exists t|done|tauto].
Qed.

Lemma return_loop_any (axes : list (string * (Z * Z))) σ :
  NoDup axes.*1 ->
  Forall (fun a => counter σ a.1 a.2.1 /\ lua_exact a.2.1 /\ lua_exact a.2.2) axes ->
  exists σ', return_loop ((fun a => (a.1, a.2.2)) <$> axes) σ = (σ', Some tt) /\ same_outside axes.*1 σ σ' /\
    Forall (fun a => exists m, counter σ' a.1 m /\ ((0 <= a.2.1)%Z -> (0 <= a.2.2)%Z -> (0 <= m <= a.2.1)%Z)) axes.
Proof.
  revert σ. induction axes as [|[k [n d]] axes IH]; intros σ Hnd Hall; simpl.
  { exists σ. split_and!; [done|apply same_outside_refl|done]. }
  apply NoDup_cons in Hnd as [Hk Hnd]. apply Forall_cons in Hall as [(Hc & Hen & Hed) Hall]. simpl in *.
  rewrite (lua_num_exact d Hed). destruct (return_step_any σ k n d Hc Hen Hed) as (σ1 & m & E1 & Hc1 & Ho1 & Hm).
  destruct (IH σ1) as (σ2 & E2 & Ho2 & Hc2); [done| |].
  { rewrite Forall_forall in Hall |- *. intros [k' [n' d']] Hin. destruct (Hall _ Hin) as (Hc' & He'). split; [|done].
    eapply counter_ext; [|exact Hc']. apply Ho1. simpl.
    rewrite list_elem_of_singleton. intros ->. apply Hk. by apply (list_elem_of_fmap_2' fst _ _ _ Hin). }
  exists σ2. rewrite sbind_assoc, (sbind_Some _ _ _ _ _ E1). split_and!; [exact E2| |].
  - apply (same_outside_mono ([k] ++ axes.*1)); [set_solver|]. by eapply same_outside_trans.
  - apply Forall_cons. split; [|exact Hc2]. exists m. split; [|done]. eapply counter_ext; [|exact Hc1]. by apply Ho2.
Qed.

Lemma update_hwm_spec (ttl : Z) σ hwm h pc :
  (0 < ttl)%Z -> counter σ hwm h -> lua_exact h ->
  exists σ', update_hwm hwm pc ttl σ = (σ', Some tt) /\
    counter σ' hwm (Z.max h pc) /\ same_outside [hwm] σ σ'.
Proof.
  intros Ht Hc He. unfold update_hwm.
  rewrite (sbind_Some _ _ _ _ _ (read_number_counter σ hwm h Hc He)).
  destruct (h <? pc)%Z eqn:Hlt; simplify_bool.
  - eexists. split; [unfold sbind, swrite; done|]. rewrite Z.max_r by lia. split.
    + right. exists (Some (ttl * 1000)%Z).
      rewrite PEXPIRE_law, upd_eq, SET_law, upd_eq by lia. done.
    + intros k Hk. rewrite PEXPIRE_law, upd_ne, SET_law, upd_ne by (lia || set_solver). done.
  - exists σ. rewrite Z.max_l by lia. split_and!; [done|done|apply same_outside_refl].
Qed.

(** Creating the tree-wide keys changes no counter value. *)
Lemma set_nx_counters (ttl : Z) σ k :
  (0 < ttl)%Z ->
  (forall k' n, counter σ k' n -> counter (SET_NX_PX σ k "0" (ttl * 1000)) k' n) /\
  same_outside [k] σ (SET_NX_PX σ k "0" (ttl * 1000)).
Proof.
  intros Ht. split.
  - intros k' n Hc. unfold counter in *. rewrite SET_NX_PX_law by lia.
    destruct (entry σ k) eqn:Hk; [exact Hc|].
    destruct (decide (k' = k)) as [->|Hne]; [|by rewrite upd_ne].
    rewrite upd_eq. destruct Hc as [[_ ->]|[t Hc]]; [|congruence]. right. eauto.
  - intros k' Hk'. rewrite SET_NX_PX_law by lia. destruct (entry σ k); [done|].
    apply upd_ne. set_solver.
Qed.

Lemma create_tree_spec (ttl : Z) ks σ :
  (0 < ttl)%Z -> 4 < length ks ->
  exists σ', create_tree ks ttl σ = (σ', Some tt) /\
    (forall k n, counter σ k n -> counter σ' k n) /\ same_outside ks σ σ'.
Proof.
  intros Ht Hl. unfold create_tree, sbind, swrite. eexists. split; [done|].
  assert (forall i, i < length ks -> nth i ks "" ∈ ks) as Hin.
  { intros i Hi. apply list_elem_of_In. by apply nth_In. }
  split.
  - intros k n Hc. do 3 apply (proj1 (set_nx_counters ttl _ _ Ht)). exact Hc.
  - apply (same_outside_mono ([nth 0 ks ""] ++ [nth 1 ks ""] ++ [nth 4 ks ""])).
    + intros k. rewrite !elem_of_app, !list_elem_of_singleton.
      intros [->|[->| ->]]; apply Hin; lia.
    + eapply same_outside_trans; [by apply set_nx_counters|].
      eapply same_outside_trans; by apply set_nx_counters.
Qed.

(** Values of a reservation's axes: (key, (value, delta)). *)
Definition axes_of (r : Reservation) (ns : list Z) : list (string * (Z * Z)) :=
  zip (keys r) (zip ns (caps_deltas r).*2).

(** The counters of [r]'s axes are [ns] and the high-watermark is [h], all
    small enough for Lua arithmetic to be exact. *)
Record budget (σ : Σ) (r : Reservation) (ns : list Z) (h : Z) : Prop := mkBudget {
  b_len : length ns = 5;
  b_counters : Forall2 (counter σ) (keys r) ns;
  b_hwm : counter σ (hwmKey (RootSessionID r)) h;
  b_exact : Forall lua_exact ns;
  b_hwm_exact : lua_exact h;
  b_deltas : Forall (fun cd => lua_exact cd.1 /\ lua_exact cd.2) (caps_deltas r);
  b_sums : Forall (fun p => lua_exact (p.1 + p.2)) (zip ns (caps_deltas r).*2)
}.

Lemma reserveKeys_suffixes r :
  reserveKeys r = (fun s => root_prefix (RootSessionID r) +:+ s) <$>
    ["tree_size"; "tree_memory"; "parallel_children:" +:+ ParentSessionID r;
     "children_total:" +:+ ParentSessionID r; "tokens"; "parallel_children_hwm"].
Proof.
  assert (hwmKey (RootSessionID r) = root_prefix (RootSessionID r) +:+ "parallel_children_hwm") as E.
  { unfold hwmKey, root_prefix. by rewrite !append_assoc3. }
  unfold reserveKeys. rewrite E. reflexivity.
Qed.

Lemma reserveKeys_NoDup r : NoDup (reserveKeys r).
Proof.
  rewrite reserveKeys_suffixes. apply NoDup_fmap_2.
  { intros a b E. by eapply append_cancel. }
  repeat (apply NoDup_cons; split; [rewrite ?elem_of_cons, elem_of_nil|]); [..|apply NoDup_nil_2].
  all: intros HH; repeat (destruct HH as [HH|HH]; [revert HH; vm_compute; discriminate|]); done.
Qed.

Lemma keys_NoDup r : NoDup (keys r) /\ hwmKey (RootSessionID r) ∉ keys r.
Proof.
  pose proof (reserveKeys_NoDup r) as Hn. unfold reserveKeys in Hn.
  apply NoDup_app in Hn as (H1 & H2 & _). split; [done|].
  intros Hin. apply (H2 _ Hin). by apply list_elem_of_singleton.
Qed.

Lemma axes_of_keys r ns : length ns = 5 -> (axes_of r ns).*1 = keys r.
Proof. intros Hl. do 6 (destruct ns as [|? ns]; try discriminate). reflexivity. Qed.

Lemma axes_of_sums r ns :
  length ns = 5 ->
  (fun a => a.2.1 + a.2.2)%Z <$> axes_of r ns =
  zip_with Z.add ns (caps_deltas r).*2.
Proof. intros Hl. do 6 (destruct ns as [|? ns]; try discriminate). reflexivity. Qed.

Lemma budget_axes σ r ns h :
  budget σ r ns h ->
  Forall (fun a => counter σ a.1 a.2.1 /\ lua_exact a.2.2 /\ lua_exact (a.2.1 + a.2.2)) (axes_of r ns).
Proof.
  intros [Hl Hc _ He _ Hd Hs]. do 6 (destruct ns as [|? ns]; try discriminate).
  unfold axes_of, keys, caps_deltas in *. simpl in *.
  rewrite !Forall2_cons in Hc. rewrite !Forall_cons, ?Forall_nil in *. simpl in *. tauto.
Qed.

(** Within the exact range the Lua checks are the mathematical ones. *)
Fixpoint first_over_spec (i : Z) (axes : list (Z * (Z * Z))) : option (Z * Z * Z) :=
  match axes with
  | [] => None
  | (cur, (cap, delta)) :: axes =>
      if (0 <? cap)%Z && (0 <? delta)%Z && (cap <? cur + delta)%Z then Some (i, cur, cap)
      else first_over_spec (i + 1) axes
  end.

Lemma first_over_exact i axes :
  Forall (fun a => lua_exact a.2.1 /\ lua_exact a.2.2 /\ lua_exact (a.1 + a.2.2)) axes ->
  first_over i axes = first_over_spec i axes.
Proof.
  intros Ha. revert i. induction Ha as [|[c [cap d]] axes (H1 & H2 & H3) _ IH]; intros i; [done|].
  simpl in *. rewrite !lua_num_exact by done. by rewrite IH.
Qed.

Lemma budget_checks σ r ns h :
  budget σ r ns h ->
  first_over 1 (zip ns (caps_deltas r)) = first_over_spec 1 (zip ns (caps_deltas r)).
Proof.
  intros [Hl _ _ _ _ Hd Hs]. apply first_over_exact.
  do 6 (destruct ns as [|? ns]; try discriminate). unfold caps_deltas in *. simpl in *.
  rewrite !Forall_cons, ?Forall_nil in *. simpl in *. tauto.
Qed.

(** The script after the sentinel check, on counters. *)
Lemma reserve_body_spec (ttl : Z) σ r ns h :
  (0 < ttl)%Z -> budget σ r ns h ->
  match first_over_spec 1 (zip ns (caps_deltas r)) with
  | Some (i, c, cap) =>
      reserve_body (keys r) (hwmKey (RootSessionID r)) (caps_deltas r) ttl σ
      = (σ, Some [statusRejected; i; c; cap])
  | None =>
      let ns' := zip_with Z.add ns (caps_deltas r).*2 in
      exists σ',
        reserve_body (keys r) (hwmKey (RootSessionID r)) (caps_deltas r) ttl σ
        = (σ', Some (statusAdmitted :: ns')) /\
        Forall2 (counter σ') (keys r) ns' /\
        counter σ' (hwmKey (RootSessionID r)) (Z.max h (nth 2 ns' 0%Z)) /\
        same_outside (reserveKeys r) σ σ'
  end.
Proof.
  intros Ht Hb. pose proof (budget_checks _ _ _ _ Hb) as Hchk. pose proof Hb as [Hl Hc Hh He Hhe Hd Hs].
  destruct (keys_NoDup r) as [Hnd Hhk]. unfold reserve_body.
  assert (read_all (keys r) σ = (σ, Some ns)) as Hr.
  { apply read_all_counters. clear -Hl He Hc. do 6 (destruct ns as [|? ns]; try discriminate).
    unfold keys in *. rewrite !Forall_cons in He. rewrite !Forall2_cons in Hc.
    rewrite !Forall2_cons. split_and!; first [tauto | constructor]. }
  rewrite (sbind_Some _ _ _ _ _ Hr), Hchk.
  destruct (first_over_spec 1 (zip ns (caps_deltas r))) as [[[i c] cap]|] eqn:E; [done|].
  destruct (apply_deltas_spec ttl (axes_of r ns) σ Ht) as (σ1 & E1 & Hc1 & Ho1).
  { by rewrite axes_of_keys. }
  { by eapply budget_axes. }
  rewrite axes_of_sums in E1 by done. rewrite axes_of_keys in Ho1 by done.
  rewrite (sbind_Some _ _ _ _ _ E1).
  destruct (update_hwm_spec ttl σ1 (hwmKey (RootSessionID r)) h
              (nth 2 (zip_with Z.add ns (caps_deltas r).*2) 0%Z) Ht) as (σ2 & E2 & Hh2 & Ho2).
  { eapply counter_ext; [|exact Hh]. by apply Ho1. }
  { done. }
  exists σ2. rewrite (sbind_Some _ _ _ _ _ E2). split_and!; [done| |exact Hh2|].
  - assert (Forall (fun a => counter σ2 a.1 (a.2.1 + a.2.2)) (axes_of r ns)) as Hf.
    { rewrite Forall_forall in Hc1 |- *. intros a Ha. eapply counter_ext; [|by apply Hc1].
      apply Ho2. rewrite list_elem_of_singleton. intros Hk. apply Hhk.
      rewrite <- Hk, <- (axes_of_keys r ns Hl). by apply list_elem_of_fmap_2. }
    clear -Hl Hf. do 6 (destruct ns as [|? ns]; try discriminate).
    unfold axes_of, keys, caps_deltas in *. simpl in *. rewrite !Forall_cons in Hf. simpl in Hf.
    rewrite !Forall2_cons. split_and!; first [tauto | constructor].
  - by eapply same_outside_trans.
Qed.

Lemma budget_create σ σ' r ns h :
  (forall k n, counter σ k n -> counter σ' k n) -> budget σ r ns h -> budget σ' r ns h.
Proof.
  intros Hcr [Hl Hc Hh He Hhe Hd Hs]. constructor; try done; [|by apply Hcr].
  eapply Forall2_impl; [exact Hc|]. auto.
Qed.

Lemma sentinel_nth r : nth 4 (keys r) "" = root_prefix (RootSessionID r) +:+ "tokens".
Proof. reflexivity. Qed.

(** The reservation is admissible: no capped axis would be exceeded. *)
Definition fits (r : Reservation) (ns : list Z) : Prop :=
  Forall (fun a => (0 < a.2.1)%Z -> (0 < a.2.2)%Z -> (a.1 + a.2.2 <= a.2.1)%Z)
    (zip ns (caps_deltas r)).

Lemma first_over_spec_None i axes :
  first_over_spec i axes = None <->
  Forall (fun a => (0 < a.2.1)%Z -> (0 < a.2.2)%Z -> (a.1 + a.2.2 <= a.2.1)%Z) axes.
Proof.
  revert i. induction axes as [|[c [cap d]] axes IH]; intros i; simpl; [by split|].
  rewrite Forall_cons. simpl. rewrite <- (IH (i + 1)%Z). case_match; simplify_bool; split; try done.
  - lia.
  - intros E. split; [|done]. naive_solver lia.
  - tauto.
Qed.

Lemma first_over_spec_Some i axes j c cap :
  first_over_spec i axes = Some (j, c, cap) ->
  exists a, axes !! Z.to_nat (j - i) = Some a /\ (i <= j < i + Z.of_nat (length axes))%Z /\
    a.1 = c /\ a.2.1 = cap /\ (0 < cap)%Z /\ (0 < a.2.2)%Z /\ (cap < c + a.2.2)%Z.
Proof.
  revert i. induction axes as [|[c' [cap' d]] axes IH]; intros i; simpl; [done|].
  case_match; simplify_bool.
  - intros [= <- <- <-]. exists (c', (cap', d)). rewrite Z.sub_diag. simpl. split_and!; try done; lia.
  - intros E. destruct (IH _ E) as (a & Ha & Hr & Hrest). exists a.
    replace (Z.to_nat (j - i)) with (S (Z.to_nat (j - (i + 1)))) by lia.
    split_and!; try done; try lia; tauto.
Qed.
End ScriptSpecs.

(** ** The Go operations on counters *)

Section Contract.
Context {Σ : Type} `{RedisServer Σ}.

Definition totals_of (ns : list Z) : Totals :=
  mkTotals (nth 0 ns 0%Z) (nth 1 ns 0%Z) (nth 2 ns 0%Z) (nth 3 ns 0%Z) (nth 4 ns 0%Z).

Definition sentinel (r : Reservation) : string := root_prefix (RootSessionID r) +:+ "tokens".

(** What a reservation adds, axis by axis. *)
Definition added (r : Reservation) (ns : list Z) : list Z :=
  zip_with Z.add ns (caps_deltas r).*2.

Lemma ttl_seconds_pos ttl : (Second <= ttl)%Z -> (0 < ttl_seconds ttl)%Z.
Proof. unfold ttl_seconds, Second. intros. apply Z.quot_str_pos. lia. Qed.

Lemma boolArg_exact b : lua_num (boolArg b) = boolArg b.
Proof. by destruct b. Qed.

(** The whole script, given that the run may proceed. *)
Lemma reserveScript_proceeds (ttl : Z) σ r ns h :
  (0 < ttl)%Z -> budget σ r ns h ->
  is_Some (entry σ (sentinel r)) \/ CreateTree r = true ->
  exists σ0, budget σ0 r ns h /\ same_outside (keys r) σ σ0 /\
    reserveScript (keys r) (hwmKey (RootSessionID r)) (caps_deltas r) ttl (boolArg (CreateTree r)) σ
    = reserve_body (keys r) (hwmKey (RootSessionID r)) (caps_deltas r) ttl σ0.
Proof.
  intros Ht Hb Hp. unfold reserveScript, sbind at 1, sread. rewrite sentinel_nth, EXISTS_law, boolArg_exact.
  fold (sentinel r). case_bool_decide as Hs; simpl.
  - exists σ. split_and!; [done|apply same_outside_refl|done].
  - destruct Hp as [|Hp]; [done|]. rewrite Hp. simpl.
    destruct (create_tree_spec ttl (keys r) σ Ht) as (σ0 & E0 & Hc0 & Ho0); [simpl; lia|].
    exists σ0. rewrite (sbind_Some _ _ _ _ _ E0). split_and!; [|done|done]. by eapply budget_create.
Qed.

Lemma reserveKeys_keys r : keys r ⊆ reserveKeys r.
Proof. unfold reserveKeys. set_solver. Qed.

Lemma same_outside_keys r σ σ0 σ1 :
  same_outside (keys r) σ σ0 -> same_outside (reserveKeys r) σ0 σ1 ->
  same_outside (reserveKeys r) σ σ1.
Proof.
  intros H1 H2. apply (same_outside_mono (keys r ++ reserveKeys r)).
  - pose proof (reserveKeys_keys r). set_solver.
  - by eapply same_outside_trans.
Qed.

Lemma Reserve_cases (ttl : Duration) σ r ns h :
  (Second <= ttl)%Z -> RootSessionID r <> "" -> budget σ r ns h ->
  is_Some (entry σ (sentinel r)) \/ CreateTree r = true ->
  exists σ', same_outside (reserveKeys r) σ σ' /\
    ((fits r ns /\ Reserve ttl Delivered r σ = (σ', Ok (totals_of (added r ns))) /\
      Forall2 (counter σ') (keys r) (added r ns) /\
      counter σ' (hwmKey (RootSessionID r)) (Z.max h (nth 2 (added r ns) 0%Z))) \/
     (exists i a, zip ns (caps_deltas r) !! i = Some a /\ (0 < a.2.2)%Z /\ (0 < a.2.1 < a.1 + a.2.2)%Z /\
        Reserve ttl Delivered r σ =
          (σ', Err (ErrBudgetExhausted (mkExhausted (nth i axisName "unknown") a.1 a.2.1 a.2.2))) /\
        budget σ' r ns h)).
Proof.
  intros Ht Hr Hb Hp. pose proof (ttl_seconds_pos ttl Ht) as Ht'.
  destruct (reserveScript_proceeds _ σ r ns h Ht' Hb Hp) as (σ0 & Hb0 & Ho0 & E0).
  pose proof (reserve_body_spec _ σ0 r ns h Ht' Hb0) as Hbody.
  pose proof (b_len _ _ _ _ Hb) as Hl.
  unfold Reserve. rewrite (is_empty_false _ Hr).
  simpl. rewrite E0.
  destruct (first_over_spec 1 (zip ns (caps_deltas r))) as [[[i c] cap]|] eqn:Ef.
  - exists σ0. rewrite Hbody. split.
    { eapply same_outside_mono; [apply reserveKeys_keys|exact Ho0]. }
    right. apply first_over_spec_Some in Ef as ([a1 [a2 a3]] & Ha & Hi & <- & <- & Hpos & Hdp & Hov).
    simpl in *. exists (Z.to_nat (i - 1)), (a1, (a2, a3)). split_and!; try done.
    rewrite length_zip, Hl in Hi. simpl in Hi. f_equal. f_equal. f_equal.
    rewrite (proj2 (Z.leb_le 1 i)), (proj2 (Z.leb_le i 5)) by lia. f_equal. simpl.
    clear -Ha Hi Hl. do 6 (destruct ns as [|? ns]; try discriminate).
    assert (i = 1 \/ i = 2 \/ i = 3 \/ i = 4 \/ i = 5)%Z as Hc by lia.
    destruct Hc as [->|[->|[->|[->| ->]]]]; unfold caps_deltas in Ha; simpl in Ha;
      injection Ha; intros; subst; reflexivity.
  - destruct Hbody as (σ1 & E1 & Hc1 & Hh1 & Ho1). exists σ1. rewrite E1.
    split; [by eapply same_outside_keys|]. left.
    split; [by apply (first_over_spec_None 1)|]. split; [|done].
    unfold added. clear -Hl. do 6 (destruct ns as [|? ns]; try discriminate). reflexivity.
Qed.
(** A reservation that is granted leaves the sentinel in place. *)
Definition grows (σ σ' : Σ) : Prop := forall k, is_Some (entry σ k) -> is_Some (entry σ' k).

Lemma pexpire_grows σ k t : (0 < t)%Z -> grows σ (PEXPIRE σ k t).
Proof.
  intros Ht k' Hk'. rewrite PEXPIRE_law by done. destruct (decide (k' = k)) as [->|Hne]; [|by rewrite upd_ne].
  rewrite upd_eq. by apply fmap_is_Some.
Qed.

Lemma apply_deltas_grows (ttl : Z) axes σ :
  (0 < ttl)%Z -> NoDup axes.*1 ->
  Forall (fun a => counter σ a.1 a.2.1 /\ lua_exact a.2.2 /\ lua_exact (a.2.1 + a.2.2)) axes ->
  grows σ (apply_deltas ttl axes σ).1.
Proof.
  intros Ht. revert σ. induction axes as [|[k [n d]] axes IH]; intros σ Hnd Hall; [by intros k|].
  apply NoDup_cons in Hnd as [Hk Hnd]. apply Forall_cons in Hall as [(Hc & Hd & Hs) Hall]. cbn [fst snd] in *.
  cbn [apply_deltas]. rewrite (lua_num_exact d Hd).
  destruct (incr_step_spec ttl σ k n d Ht Hc Hd Hs) as (σ1 & E1 & _ & Ho1). unfold sbind at 1. rewrite E1.
  assert (grows σ σ1) as H1.
  { intros k' Hk'. destruct (decide (k' = k)) as [->|Hne]; [|rewrite Ho1; [done|set_solver]]. revert E1.
    destruct (d =? 0)%Z; [by intros [= <-]|].
    destruct (incrby_counter σ k n d Hc (lua_exact_int64 _ Hs)) as (σ2 & t & E & _ & Hk2 & _). unfold sbind, sread. rewrite E. simpl.
    destruct (_ =? -1)%Z; simpl; intros [= <-]; [apply pexpire_grows; [lia|]|]; rewrite Hk2; eauto. }
  specialize (IH σ1). unfold sbind. destruct (apply_deltas ttl axes σ1) as [σ2 [vs|]] eqn:E2; intros k' Hk'; apply IH; auto.
  all: rewrite Forall_forall in Hall |- *; intros [k0 [n0 d0]] Hin; destruct (Hall _ Hin) as (Hc' & He'); (split; [|done]).
  all: eapply counter_ext; [|exact Hc']; apply Ho1; simpl; rewrite list_elem_of_singleton; intros ->; apply Hk; by apply (list_elem_of_fmap_2' fst _ _ _ Hin).
Qed.

Lemma update_hwm_grows (ttl : Z) σ hwm h pc : (0 < ttl)%Z -> counter σ hwm h -> lua_exact h -> grows σ (update_hwm hwm pc ttl σ).1.
Proof.
  intros Ht Hc He. unfold update_hwm. rewrite (sbind_Some _ _ _ _ _ (read_number_counter σ hwm h Hc He)).
  destruct (h <? pc)%Z; [|by intros k]. unfold sbind, swrite. cbn. intros k Hk. apply pexpire_grows; [lia|]. rewrite SET_law.
  destruct (decide (k = hwm)) as [->|Hne]; [rewrite upd_eq; eauto|by rewrite upd_ne].
Qed.

Lemma reserve_body_grows (ttl : Z) σ r ns h : (0 < ttl)%Z -> budget σ r ns h ->
  grows σ (reserve_body (keys r) (hwmKey (RootSessionID r)) (caps_deltas r) ttl σ).1.
Proof.
  intros Ht Hb. pose proof Hb as [Hl Hc Hh He Hhe Hd Hs]. destruct (keys_NoDup r) as [Hnd Hhk]. unfold reserve_body.
  assert (read_all (keys r) σ = (σ, Some ns)) as Hr.
  { apply read_all_counters. clear -Hl He Hc. do 6 (destruct ns as [|? ns]; try discriminate).
    unfold keys in *. rewrite !Forall_cons in He. rewrite !Forall2_cons in Hc. rewrite !Forall2_cons. split_and!; first [tauto | constructor]. }
  rewrite (sbind_Some _ _ _ _ _ Hr). destruct (first_over _ _) as [[[? ?] ?]|]; [by intros k|].
  destruct (apply_deltas_spec ttl (axes_of r ns) σ Ht) as (σ1 & E1 & _ & Ho1); [by rewrite axes_of_keys|by eapply budget_axes|].
  pose proof (apply_deltas_grows ttl (axes_of r ns) σ Ht ltac:(by rewrite axes_of_keys) ltac:(by eapply budget_axes)) as H1. rewrite E1 in H1.
  change (zip (keys r) (zip ns (caps_deltas r).*2)) with (axes_of r ns). rewrite (sbind_Some _ _ _ _ _ E1).
  rewrite axes_of_keys in Ho1 by done.
  pose proof (update_hwm_grows ttl σ1 (hwmKey (RootSessionID r)) h (nth 2 ((fun a => (a.2.1 + a.2.2)%Z) <$> axes_of r ns) 0%Z) Ht) as H2.
  unfold sbind. destruct (update_hwm _ _ _ _) as [σ2 [[]|]] eqn:E2; cbn in *; intros k Hk; apply H2; auto; (eapply counter_ext; [|exact Hh]; by apply Ho1).
Qed.

Lemma Reserve_sentinel (ttl : Duration) σ r ns h σ' t :
  (Second <= ttl)%Z -> RootSessionID r <> "" -> budget σ r ns h -> Reserve ttl Delivered r σ = (σ', Ok t) -> is_Some (entry σ' (sentinel r)).
Proof.
  intros Ht Hr Hb. pose proof (ttl_seconds_pos ttl Ht) as Ht'. unfold Reserve. rewrite (is_empty_false _ Hr). cbn [run_script].
  unfold reserveScript, sbind at 1, sread. rewrite sentinel_nth, EXISTS_law, boolArg_exact. fold (sentinel r). case_bool_decide as Hs; cbn [negb].
  - pose proof (reserve_body_grows _ σ r ns h Ht' Hb (sentinel r) Hs) as Hg. destruct (reserve_body _ _ _ _ σ) as [σ1 x]. intros [= <- _]. exact Hg.
  - destruct (CreateTree r); simpl; [|by intros [= _ ?]].
    destruct (create_tree_spec (ttl_seconds ttl) (keys r) σ Ht') as (σ0 & E0 & Hc0 & _); [simpl; lia|].
    rewrite (sbind_Some _ _ _ _ _ E0). pose proof (budget_create _ _ _ _ _ Hc0 Hb) as Hb0.
    assert (is_Some (entry σ0 (sentinel r))) as Hs0.
    { revert E0. unfold create_tree, sbind, swrite. rewrite sentinel_nth. fold (sentinel r). intros [= <-]. rewrite SET_NX_PX_law by lia.
      case_match; [eauto|rewrite upd_eq; eauto]. }
    pose proof (reserve_body_grows _ σ0 r ns h Ht' Hb0 (sentinel r) Hs0) as Hg. destruct (reserve_body _ _ _ _ σ0) as [σ1 x]. intros [= <- _]. exact Hg.
Qed.
End Contract.

Section Claims.
Context {Σ : Type} `{RedisServer Σ}.

Lemma over_not_fits r ns i (a : Z * (Z * Z)) :
  zip ns (caps_deltas r) !! i = Some a -> (0 < a.2.2)%Z -> (0 < a.2.1 < a.1 + a.2.2)%Z ->
  ~ fits r ns.
Proof.
  intros Hi Hd Ho Hf. unfold fits in Hf. rewrite Forall_lookup in Hf.
  specialize (Hf _ _ Hi). lia.
Qed.

Lemma Return_body σ r ns :
  RootSessionID r <> "" -> length ns = 5 ->
  Forall2 (counter σ) (keys r) ns -> Forall (fun n => (0 <= n)%Z /\ lua_exact n) ns ->
  Forall (fun d => (0 <= d)%Z /\ lua_exact d) (caps_deltas r).*2 ->
  is_Some (entry σ (sentinel r)) ->
  exists σ', returnScript (keys r) (caps_deltas r).*2 σ = (σ', Some 1%Z) /\
    Forall2 (counter σ') (keys r) (zip_with (fun n d => Z.max 0 (n - d)) ns (caps_deltas r).*2) /\
    same_outside (keys r) σ σ' /\ keeps_keys σ σ'.
Proof.
  intros Hr Hl Hc Hn Hd Hs. destruct (return_loop_spec (axes_of r ns) σ) as (σ' & E & Hc' & Ho & Hk).
  { rewrite axes_of_keys by done. apply keys_NoDup. }
  { do 6 (destruct ns as [|? ns]; try discriminate). unfold axes_of, keys, caps_deltas in *.
    simpl in *. rewrite !Forall2_cons in Hc. rewrite !Forall_cons, ?Forall_nil in *. simpl in *. tauto. }
  exists σ'. unfold returnScript, sbind at 1, sread.
  rewrite sentinel_nth, EXISTS_law. fold (sentinel r). rewrite bool_decide_eq_true_2 by done.
  cbn [negb]. rewrite axes_of_keys in Ho by done.
  assert (zip (keys r) (caps_deltas r).*2 = (fun a => (a.1, a.2.2)) <$> axes_of r ns) as Ez.
  { do 6 (destruct ns as [|? ns]; try discriminate). reflexivity. }
  rewrite Ez, (sbind_Some _ _ _ _ _ E). split_and!; [done| |done|done].
  clear -Hl Hc'. do 6 (destruct ns as [|? ns]; try discriminate). unfold axes_of, keys, caps_deltas in *.
  simpl in *. rewrite !Forall_cons in Hc'. simpl in Hc'.
  rewrite !Forall2_cons. split_and!; first [tauto | constructor].
Qed.

(** ** Every interleaving of calls on one tree *)

(** The counters of a tree by their key suffix; the axes of a reservation, each
    with its cap and its delta. *)
Definition suffixes (r : Reservation) : list string :=
  ["tree_size"; "tree_memory"; "parallel_children:" +:+ ParentSessionID r;
   "children_total:" +:+ ParentSessionID r; "tokens"].

Definition axes (r : Reservation) : list (string * (Z * Z)) := zip (suffixes r) (caps_deltas r).

(** What is claimed of a counter: nothing, that it is a natural number, or that
    it is one up to [B]. *)
Inductive Limit := Unruled | Natural | Upto (B : Z).

Definition within (l : Limit) (n : Z) : Prop :=
  match l with Unruled => True | Natural => (0 <= n)%Z | Upto B => (0 <= n <= B)%Z end.

(** What every call must pass for it: for [Natural] a natural delta, whatever
    the cap, for [Upto B] also a cap, which may differ from call to call and is
    at most [B]. *)
Definition obeys (l : Limit) (cd : Z * Z) : Prop :=
  match l with Unruled => True | Natural => (0 <= cd.2)%Z | Upto B => (0 <= cd.2)%Z /\ (0 < cd.1 <= B)%Z end.

(** The calls made on a tree and the claims on its counters.  The high watermark
    follows the counters of the parallel children. *)
Record limits_ok (calls : Reservation -> Prop) (limit : string -> Limit) : Prop := {
  limits_zero : forall s, within (limit s) 0;
  limits_hwm : forall p n, within (limit ("parallel_children:" +:+ p)) n -> within (limit "parallel_children_hwm") n;
  limits_calls : forall r s cd, calls r -> (s, cd) ∈ axes r -> obeys (limit s) cd
}.

Definition tree_wf (limit : string -> Limit) (root : string) (σ : Σ) : Prop :=
  forall s, exists n, counter σ (root_prefix root +:+ s) n /\ within (limit s) n.

(** One event: a call by some replica, whatever becomes of its transport,
    time passing, or anything that leaves this tree's keys alone.  Lua computes
    exactly with what a call meets ([budget]). *)
Inductive tree_step (calls : Reservation -> Prop) (root : string) : Σ -> Σ -> Prop :=
| tree_reserve ttl tr r ns h σ :
    (Second <= ttl)%Z -> calls r -> RootSessionID r = root -> budget σ r ns h ->
    tree_step calls root σ (Reserve ttl tr r σ).1
| tree_return tr r ns h σ :
    calls r -> RootSessionID r = root -> budget σ r ns h -> tree_step calls root σ (Return tr r σ).1
| tree_observe tr σ : tree_step calls root σ (ObserveHighWatermark tr root σ).1
| tree_rearm ttl parents sent acked σ :
    (Second <= ttl)%Z -> tree_step calls root σ (RearmTree ttl root parents sent acked σ).1
| tree_elapse σ σ' : elapse σ σ' -> tree_step calls root σ σ'
| tree_other σ σ' :
    (forall s, entry σ' (root_prefix root +:+ s) = entry σ (root_prefix root +:+ s)) ->
    tree_step calls root σ σ'.

Lemma keys_suffixes r : keys r = (fun s => root_prefix (RootSessionID r) +:+ s) <$> suffixes r.
Proof. reflexivity. Qed.

Lemma hwmKey_suffix root : hwmKey root = root_prefix root +:+ "parallel_children_hwm".
Proof. unfold hwmKey, root_prefix. by rewrite !append_assoc3. Qed.

Lemma reserveKeys_elem r s :
  root_prefix (RootSessionID r) +:+ s ∈ reserveKeys r ->
  s ∈ suffixes r \/ s = "parallel_children_hwm".
Proof.
  rewrite reserveKeys_suffixes. intros (s' & E & Hs')%list_elem_of_fmap.
  apply append_cancel in E as ->. unfold suffixes. set_solver.
Qed.

Lemma Reserve_transport ttl tr r σ :
  (Reserve ttl tr r σ).1 = σ \/ (Reserve ttl tr r σ).1 = (Reserve ttl Delivered r σ).1.
Proof.
  unfold Reserve. destruct (is_empty (RootSessionID r)); [by left|].
  destruct tr; simpl; [by right| |by left]. right.
  by destruct (reserveScript _ _ _ _ _ σ).
Qed.

Lemma Return_transport tr r σ :
  (Return tr r σ).1 = σ \/ (Return tr r σ).1 = (Return Delivered r σ).1.
Proof.
  unfold Return. destruct (is_empty (RootSessionID r)); [by left|].
  destruct tr; simpl; [by right| |by left]. right. by destruct (returnScript _ _ σ).
Qed.

Lemma Reserve_unmarked ttl r σ :
  RootSessionID r <> "" -> entry σ (sentinel r) = None -> CreateTree r = false ->
  Reserve ttl Delivered r σ = (σ, Err ErrBudgetKeysExpired).
Proof.
  intros Hr Hs Hc. unfold Reserve. rewrite (is_empty_false _ Hr). simpl.
  unfold reserveScript, sbind at 1, sread. rewrite sentinel_nth, EXISTS_law. fold (sentinel r).
  rewrite Hs, Hc, bool_decide_eq_false_2 by (intros [? ?]; done). done.
Qed.

Lemma Return_absent r σ :
  RootSessionID r <> "" -> entry σ (sentinel r) = None ->
  Return Delivered r σ = (σ, Err ErrBudgetKeysExpired).
Proof.
  intros Hr Hs. unfold Return. rewrite (is_empty_false _ Hr). simpl.
  unfold returnScript, sbind at 1, sread. rewrite sentinel_nth, EXISTS_law. fold (sentinel r).
  rewrite Hs, bool_decide_eq_false_2 by (intros [? ?]; done). done.
Qed.

(** The values a well-formed tree has on the axes of a reservation. *)
Lemma tree_wf_within limit root σ r ns h :
  RootSessionID r = root -> tree_wf limit root σ -> budget σ r ns h ->
  Forall2 (fun s n => within (limit s) n) (suffixes r) ns /\ within (limit "parallel_children_hwm") h.
Proof.
  intros Hr Hwf Hb. split.
  - pose proof (b_counters _ _ _ _ Hb) as Hc. rewrite keys_suffixes, Forall2_fmap_l in Hc.
    eapply Forall2_impl; [exact Hc|]. cbn. intros s n Hn. destruct (Hwf s) as (m & Hm & Hw). rewrite <- Hr in Hm.
    by rewrite (counter_fun _ _ _ _ Hn Hm).
  - destruct (Hwf "parallel_children_hwm") as (m & Hm & Hw). rewrite <- hwmKey_suffix, <- Hr in Hm.
    by rewrite (counter_fun _ _ _ _ (b_hwm _ _ _ _ Hb) Hm).
Qed.

(** New values for the axes of [r] that are as claimed keep the tree well formed. *)
Lemma tree_wf_update limit root σ σ' r ms h :
  RootSessionID r = root -> tree_wf limit root σ -> same_outside (reserveKeys r) σ σ' ->
  Forall2 (counter σ') (keys r) ms -> Forall2 (fun s n => within (limit s) n) (suffixes r) ms ->
  counter σ' (hwmKey root) h -> within (limit "parallel_children_hwm") h ->
  tree_wf limit root σ'.
Proof.
  intros Hr Hwf Ho Hc Hb Hh Hhb s. subst root.
  destruct (decide (root_prefix (RootSessionID r) +:+ s ∈ reserveKeys r)) as [Hin|Hout].
  - apply reserveKeys_elem in Hin as [Hin| ->].
    + rewrite keys_suffixes, Forall2_fmap_l in Hc.
      apply list_elem_of_lookup in Hin as [i Hi].
      destruct (Forall2_lookup_l _ _ _ _ _ Hc Hi) as (n & Hn & Hcn). exists n. split; [exact Hcn|].
      by apply (Forall2_lookup_lr _ _ _ _ _ _ Hb Hi Hn).
    + exists h. rewrite <- hwmKey_suffix. done.
  - destruct (Hwf s) as (n & Hn & Hnb). exists n. split; [|done].
    eapply counter_ext; [|exact Hn]. by apply Ho.
Qed.

(** An axis that fits takes its delta and stays as claimed. *)
Lemma within_added l n cap d :
  within l n -> obeys l (cap, d) -> ((0 < cap)%Z -> (0 < d)%Z -> (n + d <= cap)%Z) -> within l (n + d).
Proof. destruct l; cbn; [done|lia|]. intros Hn [Hd Hc] Hf. destruct (decide (d = 0)%Z) as [->|]; lia. Qed.

Lemma added_within calls limit r ns :
  length ns = 5 -> limits_ok calls limit -> calls r ->
  Forall2 (fun s n => within (limit s) n) (suffixes r) ns -> fits r ns ->
  Forall2 (fun s n => within (limit s) n) (suffixes r) (added r ns).
Proof.
  intros Hl Hok Hcall Hb Hf. assert (Forall (fun a => obeys (limit a.1) a.2) (axes r)) as Ho.
  { apply Forall_forall. intros [s cd] Hin. by eapply limits_calls. }
  do 6 (destruct ns as [|? ns]; try discriminate). unfold fits, added, axes, suffixes, caps_deltas in *. simpl in *.
  rewrite !Forall_cons in *. rewrite !Forall2_cons in *. simpl in *. destruct_and!.
  split_and!; first [constructor | eapply within_added; eassumption].
Qed.

Lemma within_max l a b : within l a -> within l b -> within l (Z.max a b).
Proof. destruct (Z.max_spec a b) as [[_ ->]|[_ ->]]; done. Qed.

Lemma Reserve_wf calls limit root ttl r ns h σ :
  root <> "" -> limits_ok calls limit -> (Second <= ttl)%Z -> calls r -> RootSessionID r = root -> budget σ r ns h ->
  tree_wf limit root σ -> tree_wf limit root (Reserve ttl Delivered r σ).1.
Proof.
  intros Hroot Hok Ht Hcall Hr Hb Hwf.
  destruct (tree_wf_within limit root σ r ns h Hr Hwf Hb) as [Hns Hhb]. pose proof (b_len _ _ _ _ Hb) as Hl.
  destruct (entry σ (sentinel r)) eqn:Hs, (CreateTree r) eqn:Hc.
  4:{ rewrite Reserve_unmarked; [done|congruence|done|done]. }
  all: destruct (Reserve_cases ttl σ r ns h) as
    (σ' & Ho & [(Hf & E & Hcs & Hh)|(i & a & Hi & _ & _ & E & Hb')]);
    [done|congruence|done|rewrite Hs; eauto| |]; rewrite E; simpl.
  all: try (eapply (tree_wf_update limit root σ σ' r ns h); try done;
            [by apply b_counters in Hb' | rewrite <- Hr; by apply b_hwm in Hb']).
  all: pose proof (added_within calls limit r ns Hl Hok Hcall Hns Hf) as Hb2.
  all: eapply (tree_wf_update limit root σ σ' r _ _ Hr Hwf Ho Hcs Hb2); [rewrite <- Hr; exact Hh|].
  all: apply within_max; [done|]; apply (limits_hwm _ _ Hok (ParentSessionID r)).
  all: clear -Hl Hb2; do 6 (destruct ns as [|? ns]; try discriminate); unfold added, suffixes, caps_deltas in *.
  all: simpl in *; rewrite !Forall2_cons in Hb2; tauto.
Qed.

Lemma Return_any r ns h σ :
  RootSessionID r <> "" -> budget σ r ns h -> is_Some (entry σ (sentinel r)) ->
  exists ms, Forall2 (counter (Return Delivered r σ).1) (keys r) ms /\ same_outside (keys r) σ (Return Delivered r σ).1 /\
    Forall2 (fun nd m => (0 <= nd.1)%Z -> (0 <= nd.2)%Z -> (0 <= m <= nd.1)%Z) (zip ns (caps_deltas r).*2) ms.
Proof.
  intros Hr Hb Hs. pose proof Hb as [Hl Hcs _ He _ Hde _]. destruct (return_loop_any (axes_of r ns) σ) as (σ' & E & Ho & Hm).
  { rewrite axes_of_keys by done. apply keys_NoDup. }
  { do 6 (destruct ns as [|? ns]; try discriminate). unfold axes_of, keys, caps_deltas in *.
    simpl in *. rewrite !Forall2_cons in Hcs. rewrite !Forall_cons, ?Forall_nil in *. simpl in *. tauto. }
  assert ((Return Delivered r σ).1 = σ') as ->.
  { unfold Return, run_script, returnScript, sbind at 1, sread. rewrite (is_empty_false _ Hr), sentinel_nth, EXISTS_law.
    fold (sentinel r). rewrite bool_decide_eq_true_2 by done. cbn [negb].
    replace (zip (keys r) (caps_deltas r).*2) with ((fun a => (a.1, a.2.2)) <$> axes_of r ns)
      by (do 6 (destruct ns as [|? ns]; try discriminate); reflexivity).
    by rewrite (sbind_Some _ _ _ _ _ E). }
  rewrite axes_of_keys in Ho by done. clear -Hl Hm Ho. do 6 (destruct ns as [|? ns]; try discriminate).
  unfold axes_of, keys, caps_deltas in *. simpl in *. rewrite !Forall_cons in Hm. simpl in Hm.
  destruct Hm as ((m1 & ? & ?) & (m2 & ? & ?) & (m3 & ? & ?) & (m4 & ? & ?) & (m5 & ? & ?) & _).
  exists [m1; m2; m3; m4; m5]. rewrite !Forall2_cons. split_and!; first [done | constructor].
Qed.

Lemma within_less l n cap d m :
  within l n -> obeys l (cap, d) -> ((0 <= n)%Z -> (0 <= d)%Z -> (0 <= m <= n)%Z) -> within l m.
Proof. destruct l; cbn; [done|lia|lia]. Qed.

Lemma Return_wf calls limit root r ns h σ :
  root <> "" -> limits_ok calls limit -> calls r -> RootSessionID r = root -> budget σ r ns h ->
  tree_wf limit root σ -> tree_wf limit root (Return Delivered r σ).1.
Proof.
  intros Hroot Hok Hcall Hr Hb Hwf.
  destruct (tree_wf_within limit root σ r ns h Hr Hwf Hb) as [Hns Hhb]. pose proof Hb as [Hl _ Hh _ _ _ _].
  destruct (entry σ (sentinel r)) eqn:Hs; [|rewrite Return_absent; [done|congruence|done]].
  destruct (Return_any r ns h σ) as (ms & Hc & Ho & Hm); [congruence|done|eauto|].
  destruct (keys_NoDup r) as [_ Hnk].
  eapply (tree_wf_update limit root σ _ r _ h Hr Hwf); [|exact Hc| | |done].
  - eapply same_outside_mono; [apply reserveKeys_keys|exact Ho].
  - assert (Forall (fun a => obeys (limit a.1) a.2) (axes r)) as Hob.
    { apply Forall_forall. intros [s cd] Hin. by eapply limits_calls. }
    clear -Hl Hns Hob Hm. do 6 (destruct ns as [|? ns]; try discriminate). unfold axes, suffixes, caps_deltas in *.
    simpl in *. do 5 (apply Forall2_cons_inv_l in Hm as (? & ? & ? & Hm & ->)). apply Forall2_nil_inv_l in Hm as ->.
    rewrite !Forall_cons in Hob. rewrite !Forall2_cons in *. simpl in *. destruct_and!.
    split_and!; first [constructor | eapply within_less; eassumption].
  - rewrite <- Hr. eapply counter_ext; [|exact Hh]. by apply Ho.
Qed.

(** A step that keeps each counter or makes it zero. *)
Lemma tree_wf_reset limit root σ σ' :
  (forall s, within (limit s) 0) ->
  (forall k n, counter σ k n -> counter σ' k n \/ counter σ' k 0) -> tree_wf limit root σ -> tree_wf limit root σ'.
Proof. intros Hz Hk Hwf s. destruct (Hwf s) as (n & Hn & Hw). destruct (Hk _ _ Hn); eauto. Qed.

Lemma elapse_counter σ σ' k n : elapse σ σ' -> counter σ k n -> counter σ' k n \/ counter σ' k 0.
Proof.
  intros Hel Hn. specialize (Hel k). destruct Hn as [[Hk ->]|[t Hk]]; rewrite Hk in Hel; [by left; left|].
  destruct t as [t|]; [destruct Hel as [Hel|(t' & _ & Hel)]|]; [by right; left| |]; left; right; eauto.
Qed.

Lemma pexpire_counter σ k t k' n : (0 < t)%Z -> counter σ k' n -> counter (PEXPIRE σ k t) k' n.
Proof.
  intros Ht Hc. unfold counter. rewrite PEXPIRE_law by done. destruct (decide (k' = k)) as [->|Hne]; [|by rewrite upd_ne].
  rewrite upd_eq. destruct Hc as [[-> ->]|[t' ->]]; [by left|]. right. cbn. eauto.
Qed.

Lemma observe_counter tr root σ k n :
  counter σ k n -> counter (ObserveHighWatermark tr root σ).1 k n \/ counter (ObserveHighWatermark tr root σ).1 k 0.
Proof.
  intros Hc. unfold ObserveHighWatermark. destruct (is_empty root); [by left|].
  destruct tr; cbn; [| |by left].
  all: unfold counter; rewrite DEL_law; destruct (decide (k = hwmKey root)) as [->|Hne]; [rewrite upd_eq; by right; left|rewrite upd_ne by done; by left].
Qed.

Lemma rearm_counter ttl root parents sent acked σ k n :
  (Second <= ttl)%Z -> counter σ k n -> counter (RearmTree ttl root parents sent acked σ).1 k n.
Proof.
  intros Ht Hc. unfold RearmTree. destruct (is_empty root); [done|]. cbn [fst].
  pose proof (ttl_seconds_pos ttl Ht). generalize (take sent ([root_prefix root +:+ "tree_size"; root_prefix root +:+ "tree_memory"; root_prefix root +:+ "tokens"; hwmKey root]
      ++ (parents ≫= fun q => [root_prefix root +:+ "parallel_children:" +:+ q; root_prefix root +:+ "children_total:" +:+ q]))).
  intros ks. revert σ Hc. induction ks as [|k' ks IH]; intros σ Hc; [done|]. cbn. apply IH. apply pexpire_counter; [lia|done].
Qed.

Lemma tree_step_wf calls limit root σ σ' :
  root <> "" -> limits_ok calls limit -> tree_step calls root σ σ' ->
  tree_wf limit root σ -> tree_wf limit root σ'.
Proof.
  intros Hroot Hok Hst Hwf.
  destruct Hst as [ttl tr r ns h σ Ht Hc Hr Hb|tr r ns h σ Hc Hr Hb|tr σ|ttl ps sent acked σ Ht|σ σ' Hel|σ σ' Hsame].
  - destruct (Reserve_transport ttl tr r σ) as [-> | ->]; [done|]. by eapply Reserve_wf.
  - destruct (Return_transport tr r σ) as [-> | ->]; [done|]. by eapply Return_wf.
  - eapply tree_wf_reset; [apply (limits_zero _ _ Hok)| |exact Hwf]. intros k n. apply observe_counter.
  - eapply tree_wf_reset; [apply (limits_zero _ _ Hok)| |exact Hwf]. intros k n Hn. left. by apply rearm_counter.
  - eapply tree_wf_reset; [apply (limits_zero _ _ Hok)| |exact Hwf]. intros k n. by apply elapse_counter.
  - intros s. destruct (Hwf s) as (n & Hn & Hb). exists n. split; [|done].
    eapply counter_ext; [|exact Hn]. apply Hsame.
Qed.

(** A reservation is all or nothing. When the run may proceed, it is
    admitted exactly if no capped axis would pass its cap: then every counter
    of the five axes grows by its delta, the totals returned are the new
    values and the high-watermark follows the parallel children. Otherwise it
    is refused with the name, value, cap and delta of an axis that would
    overflow, and no counter value has changed. In both cases no key outside
    the tree's own six is touched. *)
Theorem Reserve_contract (ttl : Duration) (σ : Σ) (r : Reservation) (ns : list Z) (h : Z) :
  (Second <= ttl)%Z -> RootSessionID r <> "" -> budget σ r ns h ->
  is_Some (entry σ (sentinel r)) \/ CreateTree r = true ->
  exists σ', same_outside (reserveKeys r) σ σ' /\
    (fits r ns ->
       Reserve ttl Delivered r σ = (σ', Ok (totals_of (added r ns))) /\
       Forall2 (counter σ') (keys r) (added r ns) /\
       counter σ' (hwmKey (RootSessionID r)) (Z.max h (nth 2 (added r ns) 0%Z))) /\
    (~ fits r ns ->
       exists i a, zip ns (caps_deltas r) !! i = Some a /\ (0 < a.2.1 < a.1 + a.2.2)%Z /\
       Reserve ttl Delivered r σ =
         (σ', Err (ErrBudgetExhausted (mkExhausted (nth i axisName "unknown") a.1 a.2.1 a.2.2))) /\
       Forall2 (counter σ') (keys r) ns).
Proof.
  intros Ht Hr Hb Hp.
  destruct (Reserve_cases ttl σ r ns h Ht Hr Hb Hp)
    as (σ' & Ho & [(Hf & E & Hc & Hh)|(i & a & Hi & Hd & Hov & E & Hb')]);
    exists σ'; (split; [exact Ho|]); split.
  - done.
  - done.
  - intros Hf. by destruct (over_not_fits r ns i a Hi Hd Hov).
  - intros _. exists i, a. split_and!; [done|lia|lia|done|by apply b_counters in Hb'].
Qed.

(** Budget admission fails closed: a reservation that is not the tree's
    first and finds the sentinel key gone is refused as expired with nothing
    written, and a call Redis did not answer is refused as unavailable,
    whether or not the script ran. *)
Theorem Reserve_fail_closed (ttl : Duration) (σ : Σ) (r : Reservation) :
  RootSessionID r <> "" ->
  (entry σ (sentinel r) = None -> CreateTree r = false ->
   Reserve ttl Delivered r σ = (σ, Err ErrBudgetKeysExpired)) /\
  Reserve ttl Unreachable r σ = (σ, Err ErrBudgetUnavailable) /\
  (Reserve ttl ReplyLost r σ).2 = Err ErrBudgetUnavailable.
Proof.
  intros Hr. split; [by apply Reserve_unmarked|].
  unfold Reserve. rewrite (is_empty_false _ Hr). done.
Qed.

(** Returning a budget decrements every counter by its delta, clamped at
    zero, so a double or excessive return never makes a counter negative; it
    creates no key, removes none, keeps every time to live and touches only
    the five axes. *)
Theorem Return_contract (σ : Σ) (r : Reservation) (ns : list Z) :
  RootSessionID r <> "" -> length ns = 5 -> Forall2 (counter σ) (keys r) ns ->
  Forall (fun n => (0 <= n)%Z /\ lua_exact n) ns ->
  Forall (fun d => (0 <= d)%Z /\ lua_exact d) (caps_deltas r).*2 ->
  is_Some (entry σ (sentinel r)) ->
  exists σ', Return Delivered r σ = (σ', Ok tt) /\
    Forall2 (counter σ') (keys r) (zip_with (fun n d => Z.max 0 (n - d)) ns (caps_deltas r).*2) /\
    same_outside (keys r) σ σ' /\ keeps_keys σ σ'.
Proof.
  intros Hr Hl Hc Hn Hd Hs.
  destruct (Return_body σ r ns Hr Hl Hc Hn Hd Hs) as (σ' & E & Hrest).
  exists σ'. split; [|done]. unfold Return, run_script. rewrite (is_empty_false _ Hr), E. done.
Qed.

(** C1. Under every interleaving of reservations, returns, re-armings and reads
    of the high watermark by any replicas, lost replies and unreachable servers
    included, of key expirations and of work on other trees, and as long as Lua
    computes exactly with the counters, caps and deltas: a counter on which every
    call passes a natural delta stays natural, and one on which every call also
    passes a cap, not always the same, stays within the largest of them.  What
    the calls pass on other counters, no cap or a negative delta, does not
    matter. *)
Theorem tree_budget_invariant (calls : Reservation -> Prop) (limit : string -> Limit) (root : string) (σ σ' : Σ) :
  root <> "" -> limits_ok calls limit -> tree_wf limit root σ ->
  rtc (tree_step calls root) σ σ' -> tree_wf limit root σ'.
Proof.
  intros Hroot Hok Hwf Hrun. revert Hwf.
  induction Hrun as [|σ σ1 σ2 Hst _ IH]; [done|]. intros Hwf.
  apply IH. by eapply tree_step_wf.
Qed.
End Claims.

(** ** Witnesses on the concrete key space *)

Definition example_reservation : Reservation :=
  mkReservation "root" "p1" 3 1 30000 12288 2 1 5 1 1000 400 true.

Lemma empty_budget : budget (∅ : gmap string rentry) example_reservation [0; 0; 0; 0; 0]%Z 0.
Proof.
  constructor; try (by left); try (unfold lua_exact; simpl; repeat constructor; simpl; lia); done.
Qed.

Lemma Reserve_contract_witness :
  exists σ', Reserve DefaultTTL Delivered example_reservation (∅ : gmap string rentry) =
             (σ', Ok (mkTotals 1 12288 1 1 400)).
Proof.
  destruct (Reserve_contract DefaultTTL (∅ : gmap string rentry) example_reservation
              [0; 0; 0; 0; 0]%Z 0) as (σ' & _ & Hok & _).
  - vm_compute. discriminate.
  - discriminate.
  - exact empty_budget.
  - right. reflexivity.
  - exists σ'. apply Hok. unfold fits. repeat constructor; simpl; lia.
Defined.

Lemma Reserve_fail_closed_witness :
  Reserve DefaultTTL Unreachable example_reservation (∅ : gmap string rentry) =
  (∅, Err ErrBudgetUnavailable).
Proof.
  refine (proj1 (proj2 (Reserve_fail_closed DefaultTTL (∅ : gmap string rentry)
                          example_reservation _))). discriminate.
Defined.

(** The key space with the sentinel alone. *)
Definition example_store : gmap string rentry :=
  {["{root}:dlg:tokens" := mkEntry (RString "7") (Some 5000%Z)]}.

Lemma example_counters :
  Forall2 (counter example_store) (keys example_reservation) [0; 0; 0; 0; 7]%Z.
Proof.
  unfold keys. rewrite !Forall2_cons. split_and!; try (by left).
  right. exists (Some 5000%Z). reflexivity.
Qed.

Lemma Return_contract_witness :
  exists σ', Return Delivered example_reservation example_store = (σ', Ok tt) /\
    counter σ' "{root}:dlg:tokens" 0.
Proof.
  destruct (Return_contract example_store example_reservation [0; 0; 0; 0; 7]%Z)
    as (σ' & E & Hc & _).
  - discriminate.
  - reflexivity.
  - exact example_counters.
  - unfold lua_exact. repeat constructor; simpl; lia.
  - unfold lua_exact. repeat constructor; simpl; lia.
  - vm_compute. eauto.
  - exists σ'. split; [exact E|]. exact (Forall2_lookup_lr _ _ _ 4 _ _ Hc eq_refl eq_refl).
Defined.

(** Two parents of one tree with caps of their own; the second has no cap on
    its children and its tokens, and its slice is negative. *)
Definition call1 : Reservation := mkReservation "root" "p1" 3 1 30000 12288 2 1 5 1 1000 400 true.
Definition call2 : Reservation := mkReservation "root" "p2" 2 1 30000 12288 0 1 0 1 0 (-50) false.
Definition two_calls (r : Reservation) : Prop := r = call1 \/ r = call2.

Definition two_limits (s : string) : Limit :=
  if String.eqb s "tree_size" then Upto 3
  else if String.eqb s "tree_memory" then Upto 30000
  else if String.eqb s "parallel_children:p1" then Upto 2
  else if String.eqb s "parallel_children:p2" then Natural
  else Unruled.

(** The first call, the second with its reply lost, the second again, which its
    own cap on the tree refuses, and the return of the first. *)
Definition run1 : gmap string rentry := (Reserve DefaultTTL Delivered call1 (∅ : gmap string rentry)).1.
Definition run2 : gmap string rentry := (Reserve DefaultTTL ReplyLost call2 run1).1.
Definition run3 : gmap string rentry := (Reserve DefaultTTL Delivered call2 run2).1.
Definition run4 : gmap string rentry := (Return Delivered call1 run3).1.

Ltac concrete_counter := first [left; split; vm_compute; reflexivity | right; eexists; vm_compute; reflexivity].

Ltac concrete_budget :=
  constructor; [reflexivity | unfold keys; rewrite !Forall2_cons; split_and!; first [constructor; fail | concrete_counter | constructor]
               | concrete_counter | | | | ];
  unfold lua_exact; simpl; repeat constructor; simpl; lia.

Lemma limits_two : limits_ok two_calls two_limits.
Proof.
  constructor.
  - intros s. unfold two_limits. repeat case_match; cbn; lia.
  - intros p n _. exact I.
  - intros r s [c d] [-> | ->] Hin; unfold axes in Hin; simpl in Hin; rewrite !elem_of_cons in Hin.
    all: destruct Hin as [[= -> -> ->]|[[= -> -> ->]|[[= -> -> ->]|[[= -> -> ->]|[[= -> -> ->]|[]%elem_of_nil]]]]]; vm_compute; repeat split; first [exact I | discriminate].
Qed.

Lemma two_run : rtc (tree_step two_calls "root") ∅ run4.
Proof.
  apply rtc_l with run1. { apply (tree_reserve two_calls "root" DefaultTTL Delivered call1 [0; 0; 0; 0; 0]%Z 0 ∅); [vm_compute; discriminate|by left|done|concrete_budget]. }
  apply rtc_l with run2. { apply (tree_reserve two_calls "root" DefaultTTL ReplyLost call2 [1; 12288; 0; 0; 400]%Z 1 run1); [vm_compute; discriminate|by right|done|concrete_budget]. }
  apply rtc_l with run3. { apply (tree_reserve two_calls "root" DefaultTTL Delivered call2 [2; 24576; 1; 1; 350]%Z 1 run2); [vm_compute; discriminate|by right|done|concrete_budget]. }
  apply rtc_once, (tree_return two_calls "root" Delivered call1 [2; 24576; 1; 1; 350]%Z 1 run3); [by left|done|concrete_budget].
Qed.

Lemma tree_budget_invariant_witness :
  tree_wf two_limits "root" run4 /\ GET run3 "{root}:dlg:tree_size" = Some "2" /\ GET run4 "{root}:dlg:tree_size" = Some "1".
Proof.
  split; [|split; vm_compute; reflexivity].
  apply (tree_budget_invariant two_calls two_limits "root" (∅ : gmap string rentry)); [discriminate|exact limits_two| |exact two_run].
  intros s. exists 0%Z. split; [by left|]. apply (limits_zero _ _ limits_two).
Defined.
