(* ===== verification/LeaseStore.v ===== *)
(** * Session-coordination leases ([pkg/gateway/storage/leasestore])

    One Redis key per session holds the replica that coordinates it; three
    Lua scripts acquire, renew and release it. *)

From S2P Require Import Prelude Redis RedisKeys.

Inductive LeaseError :=
| ErrHeld
| ErrNotHeld
| ErrNotFound
| ErrEmptyScope
| ErrTTL
| ErrTransport.

Record Lease := mkLease {
  LeaseTenantID : string;
  LeaseSessionID : string;
  Holder : string;
  ExpiresAt : Time
}.

Definition TenantKeyPrefix (tenant : string) : string := TenantPrefix tenant +:+ "lease:session:".

Definition Key (tenant session : string) : string := TenantKeyPrefix tenant +:+ session.

(** [ttl.Milliseconds()] *)
Definition milliseconds (ttl : Duration) : Z := Z.quot ttl Millisecond.

Section Store.
Context {Σ : Type} `{RedisServer Σ}.

(** [SET k v PX 0] is an error in Redis; it raises. *)
Definition acquireScript (k holder : string) (px : Z) : Script Σ Z :=
  cur <~ sread (fun σ => GET σ k);~
  if bool_decide (cur = None) || bool_decide (cur = Some holder) then
    if (px <=? 0)%Z then slift None
    else swrite (fun σ => SET_PX σ k holder px);~~ sret 1%Z
  else sret 0%Z.

Definition renewScript (k holder : string) (px : Z) : Script Σ Z :=
  cur <~ sread (fun σ => GET σ k);~
  if bool_decide (cur = Some holder) then
    swrite (fun σ => PEXPIRE σ k px);~~ sret 1%Z
  else sret 0%Z.

Definition releaseScript (k holder : string) : Script Σ Z :=
  cur <~ sread (fun σ => GET σ k);~
  if bool_decide (cur = Some holder) then
    swrite (fun σ => DEL σ k);~~ sret 1%Z
  else sret 0%Z.

Definition Acquire (now : Time) (tr : transport) (tenant session holder : string)
    (ttl : Duration) (σ : Σ) : Σ * result LeaseError Lease :=
  if (ttl <=? 0)%Z then (σ, Err ErrTTL)
  else
    let (σ', res) := run_script tr
      (acquireScript (Key tenant session) holder (milliseconds ttl)) σ in
    (σ', match res with
         | None => Err ErrTransport
         | Some n => if negb (n =? 1)%Z then Err ErrHeld
                     else Ok (mkLease tenant session holder (time_add now ttl))
         end).

Definition Renew (now : Time) (tr : transport) (tenant session holder : string)
    (ttl : Duration) (σ : Σ) : Σ * result LeaseError Lease :=
  if (ttl <=? 0)%Z then (σ, Err ErrTTL)
  else
    let (σ', res) := run_script tr
      (renewScript (Key tenant session) holder (milliseconds ttl)) σ in
    (σ', match res with
         | None => Err ErrTransport
         | Some n => if negb (n =? 1)%Z then Err ErrNotHeld
                     else Ok (mkLease tenant session holder (time_add now ttl))
         end).

Definition Release (tr : transport) (tenant session holder : string) (σ : Σ)
    : Σ * result LeaseError unit :=
  let (σ', res) := run_script tr (releaseScript (Key tenant session) holder) σ in
  (σ', match res with None => Err ErrTransport | Some _ => Ok tt end).

(** Two commands: the key may vanish between [GET] on [σ1] and [PTTL] on
    [σ2]; [None] is a failed command. *)
Definition Get (now : Time) (tenant session : string) (σ1 : option Σ) (σ2 : option Σ)
    : result LeaseError Lease :=
  match σ1 with
  | None => Err ErrTransport
  | Some σ1 =>
      match GET σ1 (Key tenant session) with
      | None => Err ErrNotFound
      | Some holder =>
          match σ2 with
          | None => Err ErrTransport
          | Some σ2 =>
              let pttl := PTTL σ2 (Key tenant session) in
              if (pttl <? 0)%Z then Err ErrNotFound
              else Ok (mkLease tenant session holder (time_add now (pttl * Millisecond)))
          end
      end
  end.

Definition DeleteByUser (tenant user : string) : result LeaseError Z :=
  if is_empty tenant || is_empty user then Err ErrEmptyScope else Ok 0%Z.

(** ** Lemmas *)

(** Key [k] is a lease held by [h] for at most [t] more milliseconds. *)
Definition held (σ : Σ) (k h : string) : Prop :=
  exists t, entry σ k = Some (mkEntry (RString h) (Some t)).

(** Every lease key is absent or holds a replica name with a time to live. *)
Definition lease_wf (σ : Σ) : Prop :=
  forall tenant session, let k := Key tenant session in entry σ k = None \/ exists h, held σ k h.

Lemma held_GET σ k h : held σ k h -> GET σ k = Some h.
Proof. intros [t Ht]. by eapply GET_string. Qed.

Lemma held_fun σ k h h' : held σ k h -> held σ k h' -> h = h'.
Proof. intros [t Ht] [t' Ht']. rewrite Ht in Ht'. by injection Ht'. Qed.

Lemma acquireScript_spec σ k h px :
  (0 < px)%Z -> entry σ k = None \/ (exists h0, held σ k h0) ->
  (exists h0, held σ k h0 /\ h0 <> h /\ acquireScript k h px σ = (σ, Some 0%Z)) \/
  ((forall h0, held σ k h0 -> h0 = h) /\
   exists σ', acquireScript k h px σ = (σ', Some 1%Z) /\ held σ' k h /\
              forall k', k' <> k -> entry σ' k' = entry σ k').
Proof.
  intros Hpx Hk.
  assert ((exists σ', acquireScript k h px σ = (σ', Some 1%Z) /\ held σ' k h /\
           forall k', k' <> k -> entry σ' k' = entry σ k') \/
          bool_decide (GET σ k = None) || bool_decide (GET σ k = Some h) = false) as Hset.
  { destruct (bool_decide (GET σ k = None) || bool_decide (GET σ k = Some h)) eqn:E; [left|by right].
    exists (SET_PX σ k h px). split_and!.
    - unfold acquireScript, sbind, sread. rewrite E, (proj2 (Z.leb_gt px 0)) by lia. done.
    - exists px. by rewrite SET_PX_law, upd_eq.
    - intros k' Hne. by rewrite SET_PX_law, upd_ne. }
  destruct Hk as [Hk|[h0 Hh0]].
  - right. split; [intros h0 [t Ht]; congruence|]. destruct Hset as [Hset|E]; [done|].
    rewrite (GET_absent _ _ Hk) in E. done.
  - destruct (decide (h0 = h)) as [->|Hne].
    + right. split; [intros h1 Hh1; by eapply held_fun|]. destruct Hset as [Hset|E]; [done|].
      rewrite (held_GET _ _ _ Hh0), (bool_decide_eq_true_2 (Some h = Some h)), orb_true_r in E; done.
    + left. exists h0. split_and!; [done|done|]. unfold acquireScript, sbind, sread.
      rewrite (held_GET _ _ _ Hh0), !bool_decide_eq_false_2 by congruence. done.
Qed.

Lemma acquireScript_frame k h px σ k' :
  (0 < px)%Z -> k' <> k -> entry (acquireScript k h px σ).1 k' = entry σ k'.
Proof.
  intros Hpx Hne. unfold acquireScript, sbind, sread.
  destruct (_ || _); [|done]. rewrite (proj2 (Z.leb_gt px 0)) by lia. simpl.
  by rewrite SET_PX_law, upd_ne.
Qed.

Lemma renewScript_frame k h px σ k' :
  k' <> k -> entry (renewScript k h px σ).1 k' = entry σ k'.
Proof.
  intros Hne. unfold renewScript, sbind, sread. destruct (bool_decide _); [|done]. simpl.
  destruct (decide (0 < px)%Z).
  - by rewrite PEXPIRE_law, upd_ne.
  - rewrite PEXPIRE_now, upd_ne; [done|done|lia].
Qed.

Lemma releaseScript_frame k h σ k' :
  k' <> k -> entry (releaseScript k h σ).1 k' = entry σ k'.
Proof.
  intros Hne. unfold releaseScript, sbind, sread. destruct (bool_decide _); [|done]. simpl.
  by rewrite DEL_law, upd_ne.
Qed.

Lemma acquire_keeps_held k A h px σ :
  (0 < px)%Z -> held σ k A -> held (acquireScript k h px σ).1 k A.
Proof.
  intros Hpx Hh. destruct (acquireScript_spec σ k h px Hpx) as
    [(h0 & _ & _ & E)|(Heq & σ' & E & Hh' & _)]; [eauto|by rewrite E|].
  rewrite E. by rewrite (Heq A Hh).
Qed.

Lemma renew_keeps_held k A h px σ :
  (0 < px)%Z -> held σ k A -> held (renewScript k h px σ).1 k A.
Proof.
  intros Hpx [t Ht]. unfold renewScript, sbind, sread. destruct (bool_decide _); simpl; [|by exists t].
  exists px. by rewrite PEXPIRE_law, upd_eq, Ht.
Qed.

Lemma release_keeps_held k A h σ :
  h <> A -> held σ k A -> held (releaseScript k h σ).1 k A.
Proof.
  intros Hne Hh. unfold releaseScript, sbind, sread.
  by rewrite (held_GET _ _ _ Hh), bool_decide_eq_false_2 by congruence.
Qed.

(** Anything that can happen to the leases while replica [A] keeps the lease
    of one session: every call by every replica on every session, lost or
    not, time passing, other writes. Left out are [A]'s own release and the
    expiry of this one key. *)
Inductive lease_step (tenant session A : string) : Σ -> Σ -> Prop :=
| ls_acquire now tr t s h ttl σ :
    (Millisecond <= ttl)%Z ->
    lease_step tenant session A σ (Acquire now tr t s h ttl σ).1
| ls_renew now tr t s h ttl σ :
    (Millisecond <= ttl)%Z ->
    lease_step tenant session A σ (Renew now tr t s h ttl σ).1
| ls_release tr t s h σ :
    Key t s <> Key tenant session \/ h <> A ->
    lease_step tenant session A σ (Release tr t s h σ).1
| ls_elapse σ σ' :
    elapse σ σ' -> is_Some (entry σ' (Key tenant session)) -> lease_step tenant session A σ σ'
| ls_other σ σ' :
    entry σ' (Key tenant session) = entry σ (Key tenant session) -> lease_step tenant session A σ σ'.

Lemma fst_let {A B C} (p : A * B) (f : B -> C) : (let (a, b) := p in (a, f b)).1 = p.1.
Proof. by destruct p. Qed.

Lemma held_ext σ σ' k A : entry σ' k = entry σ k -> held σ k A -> held σ' k A.
Proof. unfold held. by intros ->. Qed.

Lemma run_script_state {A} tr (m : Script Σ A) σ :
  (run_script tr m σ).1 = σ \/ (run_script tr m σ).1 = (m σ).1.
Proof. destruct tr; simpl; tauto. Qed.

Lemma milliseconds_pos ttl : (Millisecond <= ttl)%Z -> (0 < milliseconds ttl)%Z.
Proof. unfold milliseconds, Millisecond. intros. apply Z.quot_str_pos. lia. Qed.

Lemma script_keeps_held {A} tr (m : Script Σ A) σ k k0 h :
  (forall k', k' <> k0 -> entry (m σ).1 k' = entry σ k') ->
  (k = k0 -> held σ k h -> held (m σ).1 k h) ->
  held σ k h -> held (run_script tr m σ).1 k h.
Proof.
  intros Hf Hk Hh. destruct (run_script_state tr m σ) as [-> | ->]; [done|].
  destruct (decide (k = k0)) as [E|Hne]; [by apply Hk|]. eapply held_ext; [|exact Hh]. by apply Hf.
Qed.

Lemma lease_step_held tenant session A σ σ' :
  lease_step tenant session A σ σ' ->
  held σ (Key tenant session) A -> held σ' (Key tenant session) A.
Proof.
  intros Hst Hh. destruct Hst as [now tr t s h ttl σ Ht|now tr t s h ttl σ Ht|tr t s h σ Hne|σ σ' Hel Hs|σ σ' E].
  - pose proof (milliseconds_pos ttl Ht). unfold Acquire, Millisecond in *.
    rewrite (proj2 (Z.leb_gt ttl 0)) by lia. rewrite fst_let. apply (script_keeps_held _ _ _ _ (Key t s)); [| |done].
    + intros. by apply acquireScript_frame.
    + intros ->. by apply acquire_keeps_held.
  - pose proof (milliseconds_pos ttl Ht). unfold Renew, Millisecond in *.
    rewrite (proj2 (Z.leb_gt ttl 0)) by lia. rewrite fst_let. apply (script_keeps_held _ _ _ _ (Key t s)); [| |done].
    + intros. by apply renewScript_frame.
    + intros ->. by apply renew_keeps_held.
  - unfold Release. rewrite fst_let. apply (script_keeps_held _ _ _ _ (Key t s)); [| |done].
    + intros. by apply releaseScript_frame.
    + intros Ek. rewrite Ek. apply release_keeps_held. destruct Hne; congruence.
  - destruct Hh as [t Ht]. specialize (Hel (Key tenant session)). rewrite Ht in Hel.
    destruct Hel as [Hel|(t' & _ & Hel)]; [rewrite Hel in Hs; by destruct Hs|]. by exists t'.
  - by eapply held_ext.
Qed.

Lemma lease_run_held tenant session A σ σ' :
  rtc (lease_step tenant session A) σ σ' ->
  held σ (Key tenant session) A -> held σ' (Key tenant session) A.
Proof. induction 1 as [|? ? ? Hst _ IH]; [done|]. intros Hh. by eapply IH, lease_step_held. Qed.

(** C2. The lease is exclusive: through every interleaving of calls of all
    replicas, time passing and other writes, as long as its holder does not
    release it and its key does not expire, the holder keeps it; every other
    replica's acquire is refused as held, its renew as not held, its release
    is a no-op, and the holder can still renew. *)
Theorem lease_exclusive (tenant session A B : string) (now : Time) (ttl : Duration) (σ σ' : Σ) :
  held σ (Key tenant session) A -> rtc (lease_step tenant session A) σ σ' ->
  (Millisecond <= ttl)%Z -> B <> A ->
  Acquire now Delivered tenant session B ttl σ' = (σ', Err ErrHeld) /\
  Renew now Delivered tenant session B ttl σ' = (σ', Err ErrNotHeld) /\
  Release Delivered tenant session B σ' = (σ', Ok tt) /\
  (Renew now Delivered tenant session A ttl σ').2 =
    Ok (mkLease tenant session A (time_add now ttl)).
Proof.
  intros Hh Hrun Ht Hne. pose proof (lease_run_held _ _ _ _ _ Hrun Hh) as Hh'.
  pose proof (held_GET _ _ _ Hh') as Hg. pose proof (milliseconds_pos ttl Ht).
  unfold Acquire, Renew, Release, run_script, acquireScript, renewScript, releaseScript, sbind, sread, Millisecond in *.
  rewrite (proj2 (Z.leb_gt ttl 0)), Hg by lia.
  rewrite !(bool_decide_eq_false_2 (Some A = Some B)), (bool_decide_eq_false_2 (Some A = None)),
    (bool_decide_eq_true_2 (Some A = Some A)) by congruence.
  done.
Qed.

(** Acquiring a free lease, or one's own, succeeds and leaves the caller
    as holder with every other key as it was; whoever holds the lease after
    the call is the caller or, when it is refused, the earlier holder. *)
Theorem Acquire_contract (now : Time) (tenant session holder : string) (ttl : Duration) (σ : Σ) :
  (Millisecond <= ttl)%Z -> lease_wf σ ->
  let k := Key tenant session in
  let (σ', res) := Acquire now Delivered tenant session holder ttl σ in
  (forall k', k' <> k -> entry σ' k' = entry σ k') /\
  match res with
  | Ok l => (forall h, held σ k h -> h = holder) /\ held σ' k holder /\
            l = mkLease tenant session holder (time_add now ttl)
  | Err e => e = ErrHeld /\ σ' = σ /\ exists h, held σ k h /\ h <> holder
  end.
Proof.
  intros Ht Hwf k. pose proof (milliseconds_pos ttl Ht) as Hms.
  unfold Acquire, Millisecond in *. rewrite (proj2 (Z.leb_gt ttl 0)) by lia. simpl.
  destruct (acquireScript_spec σ (Key tenant session) holder (milliseconds ttl) Hms (Hwf _ _))
    as [(h0 & Hh0 & Hne & E)|(Heq & σ' & E & Hh' & Hf)]; rewrite E; simpl; fold k; eauto 10.
Qed.
End Store.

(** ** Witnesses *)

Definition example_lease : gmap string rentry :=
  {["t:{acme}:lease:session:s1" := mkEntry (RString "gw-0") (Some 30000%Z)]}.

Lemma example_lease_held : held example_lease (Key "acme" "s1") "gw-0".
Proof. exists 30000%Z. reflexivity. Qed.

Lemma lease_exclusive_witness :
  Acquire 0 Delivered "acme" "s1" "gw-1" (30 * Second) example_lease
  = (example_lease, Err ErrHeld).
Proof.
  refine (proj1 (lease_exclusive "acme" "s1" "gw-0" "gw-1" 0 (30 * Second)
                   example_lease example_lease example_lease_held _ _ _)).
  - apply rtc_refl.
  - vm_compute. discriminate.
  - discriminate.
Defined.

Lemma Acquire_contract_witness :
  held (Acquire 0 Delivered "acme" "s1" "gw-0" (30 * Second) (∅ : gmap string rentry)).1
       (Key "acme" "s1") "gw-0".
Proof.
  pose proof (Acquire_contract 0 "acme" "s1" "gw-0" (30 * Second) (∅ : gmap string rentry)) as Hc.
  destruct Hc as [_ (_ & Hh & _)].
  - vm_compute. discriminate.
  - intros t s. left. reflexivity.
  - exact Hh.
Defined.

(** A positive lifetime below one millisecond becomes [PEXPIRE k 0], which
    deletes the key: the renewal reports success and the lease is gone. *)
Lemma Renew_submillisecond_drops :
  Renew 5 Delivered "acme" "s1" "gw-0" 999999 example_lease
  = (∅, Ok (mkLease "acme" "s1" "gw-0" (5 + 999999)%Z)).
Proof. vm_compute. reflexivity. Qed.
