(* ===== verification/SlotCounter.v ===== *)
(** * The per-pod slot set ([pkg/gateway/storage/slotcounter])

    A pod's occupancy is a Redis set with one member per session that holds
    a slot and one [leaked:] member per slot whose cleanup was not confirmed.
    Module [Scripts] models the Lua scripts and the calls that run one of
    them; module [Outage] models the outage clock, the ledger of members that
    the recovery adds when Redis returns, and the recovery itself. *)

From S2P Require Import Prelude Redis.

Definition resultExhausted : Z := -1.
Definition resultRehydrate : Z := -2.
Definition maxReserveAttempts : nat := 4.

Definition LeakedMember (sessionID : string) : string := "leaked:" +:+ sessionID.

Definition podKey (podID suffix : string) : string := "lenny:pod:{" +:+ podID +:+ "}:" +:+ suffix.
Definition activeSlotsKey (podID : string) : string := podKey podID "active_slots".
Definition rehydratedKey (podID : string) : string := podKey podID "rehydrated".
Definition rehydratingKey (podID : string) : string := podKey podID "rehydrating".

Section Scripts.
Context {Σ : Type} `{RedisServer Σ}.

(** [KEYS[1]] is the set, [KEYS[2]] the flag. *)
Definition reserveScript (set flag sessionID : string) (maxConcurrent : Z) : Script Σ Z :=
  present <~ sread (fun σ => EXISTS σ flag);~
  if negb present then sret resultRehydrate
  else
    m <~ sread (fun σ => SISMEMBER σ set sessionID);~
    n <~ sread (fun σ => SCARD σ set);~
    if (m : bool) then sret n
    else if (lua_num maxConcurrent <=? n)%Z then sret resultExhausted
    else swrite (fun σ => SADD σ set sessionID);~~ sret (n + 1)%Z.

Fixpoint sadd_all (set : string) (ids : list string) : Script Σ unit :=
  match ids with
  | [] => sret tt
  | i :: ids => swrite (fun σ => SADD σ set i);~~ sadd_all set ids
  end.

Definition seedScript (set flag : string) (ids : list string) : Script Σ Z :=
  sadd_all set ids;~~ swrite (fun σ => SET σ flag "1");~~ sret 1%Z.

Definition releaseScript (set flag sessionID : string) (leaked : bool) : Script Σ (Z * Z) :=
  present <~ sread (fun σ => EXISTS σ flag);~
  if negb present then sret (resultRehydrate, 0%Z)
  else
    r <~ (fun σ => let (σ', r) := SREM σ set sessionID in (σ', Some r));~
    (if leaked then swrite (fun σ => SADD σ set (LeakedMember sessionID)) else sret tt);~~
    n <~ sread (fun σ => SCARD σ set);~
    sret (r, n).

Definition reapScript (set flag sessionID : string) : Script Σ Z :=
  present <~ sread (fun σ => EXISTS σ flag);~
  if negb present then sret resultRehydrate
  else
    m <~ sread (fun σ => SISMEMBER σ set sessionID);~
    if negb m then sret 0%Z
    else
      n <~ sread (fun σ => SCARD σ set);~
      if (n <=? 1)%Z then sret (-3)%Z
      else (fun σ => ((SREM σ set sessionID).1, Some 1%Z)).

Definition rebuildScript (set flag : string) (listed : bool) (ids : list string) : Script Σ Z :=
  sadd_all set ids;~~
  (if listed then swrite (fun σ => DEL σ flag) else sret tt);~~
  sret 1%Z.

Definition unlockScript (k token : string) : Script Σ Z :=
  cur <~ sread (fun σ => GET σ k);~
  if bool_decide (cur = Some token) then swrite (fun σ => DEL σ k);~~ sret 1%Z else sret 0%Z.

(** [seed] drops empty identifiers before running the script. *)
Definition seed (podID : string) (ids : list string) (extra : string) : Script Σ Z :=
  let args := filter (fun i => i <> "") ids ++ (if is_empty extra then [] else [extra]) in
  seedScript (activeSlotsKey podID) (rehydratedKey podID) args.

Inductive ReapError := errEmptySessionID | errLeakedMember | errReapTransport.

Definition Reap (tr : transport) (podID sessionID : string) (σ : Σ) : Σ * result ReapError bool :=
  if is_empty sessionID then (σ, Err errEmptySessionID)
  else if has_prefix sessionID (LeakedMember "") then (σ, Err errLeakedMember)
  else
    let (σ', res) := run_script tr
      (reapScript (activeSlotsKey podID) (rehydratedKey podID) sessionID) σ in
    (σ', match res with
         | None => Err errReapTransport
         | Some n => Ok (n =? 1)%Z
         end).

(** [Reset]: one DEL of three keys. *)
Definition Reset (podID : string) (σ : Σ) : Σ :=
  DEL (DEL (DEL σ (activeSlotsKey podID)) (rehydratedKey podID)) (rehydratingKey podID).

(** ** Keys *)

Fixpoint last_char (s : string) : option Ascii.ascii :=
  match s with
  | EmptyString => None
  | String c EmptyString => Some c
  | String _ s => last_char s
  end.

Lemma last_char_app a s : s <> "" -> last_char (a +:+ s) = last_char s.
Proof.
  intros Hs. induction a as [|c a IH]; [done|]. rewrite append_cons.
  destruct (a +:+ s) as [|d l] eqn:E.
  - destruct a; [by destruct Hs|discriminate].
  - exact IH.
Qed.

Lemma podKey_suffix_ne p q s1 s2 :
  s1 <> "" -> s2 <> "" -> last_char s1 <> last_char s2 -> podKey p s1 <> podKey q s2.
Proof.
  intros H1 H2 Hne E. apply Hne. unfold podKey in E.
  rewrite <- (last_char_app ("lenny:pod:{" +:+ p +:+ "}:") s1 H1).
  rewrite <- (last_char_app ("lenny:pod:{" +:+ q +:+ "}:") s2 H2).
  rewrite !append_assoc3. by rewrite E.
Qed.

Lemma slots_flag_ne p q : activeSlotsKey p <> rehydratedKey q.
Proof. by apply podKey_suffix_ne. Qed.

(** The members of pod [p]'s set. *)
Definition slots (σ : Σ) (p : string) : gset string := members (entry σ (activeSlotsKey p)).

Definition slots_ok (σ : Σ) (p : string) : Prop := setlike (entry σ (activeSlotsKey p)).

Definition flagged (σ : Σ) (p : string) : Prop := is_Some (entry σ (rehydratedKey p)).

Lemma SADD_members σ k m :
  setlike (entry σ k) ->
  members (entry (SADD σ k m) k) = {[m]} ∪ members (entry σ k) /\
  setlike (entry (SADD σ k m) k) /\
  (forall k', k' <> k -> entry (SADD σ k m) k' = entry σ k').
Proof.
  intros Hs. split_and!.
  - by rewrite SADD_law, upd_eq.
  - by rewrite SADD_law, upd_eq.
  - intros k' Hk. by rewrite SADD_law, upd_ne.
Qed.

Lemma set_entry_members s t : members (set_entry s t) = s /\ setlike (set_entry s t).
Proof. unfold set_entry. case_decide; subst; done. Qed.

Lemma SREM_members σ k m :
  setlike (entry σ k) ->
  members (entry (SREM σ k m).1 k) = members (entry σ k) ∖ {[m]} /\
  setlike (entry (SREM σ k m).1 k) /\
  (SREM σ k m).2 = (if decide (m ∈ members (entry σ k)) then 1%Z else 0%Z) /\
  (forall k', k' <> k -> entry (SREM σ k m).1 k' = entry σ k').
Proof.
  intros Hs. destruct (SREM_law σ k m k Hs) as [Hr He]. rewrite upd_eq in He. rewrite He.
  assert (members (match entry σ k with
                   | None => None
                   | Some e => set_entry (members (entry σ k) ∖ {[m]}) (rttl e)
                   end) = members (entry σ k) ∖ {[m]} /\
          setlike (match entry σ k with
                   | None => None
                   | Some e => set_entry (members (entry σ k) ∖ {[m]}) (rttl e)
                   end)) as [H1 H2].
  { destruct (entry σ k) as [e|]; [apply set_entry_members|]. simpl. split; [set_solver|done]. }
  split_and!; [done|done|done|]. intros k' Hk. destruct (SREM_law σ k m k' Hs) as [_ E].
  by rewrite E, upd_ne.
Qed.

Lemma sadd_all_spec set ids σ :
  setlike (entry σ set) ->
  exists σ', sadd_all set ids σ = (σ', Some tt) /\
    members (entry σ' set) = list_to_set ids ∪ members (entry σ set) /\
    setlike (entry σ' set) /\ (forall k, k <> set -> entry σ' k = entry σ k).
Proof.
  revert σ. induction ids as [|i ids IH]; intros σ Hs.
  { exists σ. split_and!; [done|set_solver|done|done]. }
  destruct (SADD_members σ set i Hs) as (Hm & Hs1 & Hf1).
  destruct (IH (SADD σ set i) Hs1) as (σ' & E & Hm' & Hs' & Hf'). exists σ'.
  split_and!; [exact E| |done|].
  - rewrite Hm', Hm. simpl. set_solver.
  - intros k Hk. by rewrite Hf', Hf1.
Qed.

(** The slot cap: without the rehydrated flag a reservation changes
    nothing and asks for rehydration. With it, a session that already holds a
    slot keeps it and adds nothing, a pod at its cap refuses and changes
    nothing, and otherwise exactly this session is added, the reply is the
    new occupancy and it is within the cap. Other pods are never touched. *)
Lemma reserveScript_spec (podID sessionID : string) (maxConcurrent : Z) (σ : Σ) :
  slots_ok σ podID -> lua_exact maxConcurrent ->
  exists σ' n,
    reserveScript (activeSlotsKey podID) (rehydratedKey podID) sessionID maxConcurrent σ
      = (σ', Some n) /\
    slots_ok σ' podID /\
    (forall k, k <> activeSlotsKey podID -> entry σ' k = entry σ k) /\
    (~ flagged σ podID -> n = resultRehydrate /\ σ' = σ) /\
    (flagged σ podID ->
       (sessionID ∈ slots σ podID -> n = Z.of_nat (size (slots σ podID)) /\ σ' = σ) /\
       (sessionID ∉ slots σ podID -> (maxConcurrent <= Z.of_nat (size (slots σ podID)))%Z ->
          n = resultExhausted /\ σ' = σ) /\
       (sessionID ∉ slots σ podID -> (Z.of_nat (size (slots σ podID)) < maxConcurrent)%Z ->
          slots σ' podID = {[sessionID]} ∪ slots σ podID /\
          n = Z.of_nat (size (slots σ' podID)) /\ (1 <= n <= maxConcurrent)%Z)).
Proof.
  intros Hok Hex. unfold slots, flagged, slots_ok in *.
  unfold reserveScript, sbind, sread. rewrite EXISTS_law, (lua_num_exact _ Hex).
  case_bool_decide as Hfl; simpl.
  2:{ exists σ, resultRehydrate. naive_solver. }
  rewrite (SISMEMBER_law _ _ _ Hok), (SCARD_law _ _ Hok).
  case_bool_decide as Hin.
  { exists σ, (Z.of_nat (size (members (entry σ (activeSlotsKey podID))))). naive_solver. }
  destruct (_ <=? _)%Z eqn:Hle; simplify_bool.
  { exists σ, resultExhausted. split_and!; try done; intros; split_and!; try done. intros; lia. }
  destruct (SADD_members σ _ sessionID Hok) as (Hm & Hs & Hf). simpl.
  eexists _, _. split; [done|]. split_and!; [done|done|done|]. intros _.
  split_and!; [done|intros; lia|]. intros _ Hlt.
  rewrite Hm, size_union, size_singleton by set_solver.
  split_and!; [done|lia|lia|lia].
Qed.

Lemma releaseScript_spec podID sessionID (leaked : bool) σ :
  slots_ok σ podID -> flagged σ podID ->
  exists σ', slots_ok σ' podID /\ flagged σ' podID /\
    slots σ' podID = (if leaked then {[LeakedMember sessionID]} else ∅) ∪ (slots σ podID ∖ {[sessionID]}) /\
    releaseScript (activeSlotsKey podID) (rehydratedKey podID) sessionID leaked σ
    = (σ', Some ((if decide (sessionID ∈ slots σ podID) then 1%Z else 0%Z),
                 Z.of_nat (size (slots σ' podID)))).
Proof.
  intros Hok Hfl. unfold slots, flagged, slots_ok in *.
  unfold releaseScript, sbind, sread. rewrite EXISTS_law, bool_decide_eq_true_2 by done. simpl.
  destruct (SREM_members σ _ sessionID Hok) as (Hm & Hs & Hr & Hf).
  pose proof (slots_flag_ne podID podID) as Hne.
  destruct (SREM σ (activeSlotsKey podID) sessionID) as [σ1 r] eqn:E. simpl in *.
  destruct leaked; simpl.
  - destruct (SADD_members σ1 _ (LeakedMember sessionID) Hs) as (Hm2 & Hs2 & Hf2).
    eexists. split; [exact Hs2|]. rewrite Hm2, Hf2, Hf by congruence.
    split_and!; [done|by rewrite Hm|]. by rewrite SCARD_law, Hm2, Hr.
  - exists σ1. split; [exact Hs|]. rewrite Hf, Hm by congruence.
    split_and!; [done|set_solver|]. by rewrite SCARD_law, Hm, Hr.
Qed.

(** The reaper never empties a pod's set, never removes a leaked member
    and never acts on a pod whose set is not rehydrated; what it removes is
    exactly the session it was asked about. *)
Theorem reap_safe (tr : transport) (podID sessionID : string) (σ : Σ) :
  slots_ok σ podID ->
  let (σ', res) := Reap tr podID sessionID σ in
  slots σ' podID = slots σ podID \/
  (slots σ' podID = slots σ podID ∖ {[sessionID]} /\ slots σ' podID <> ∅ /\
   has_prefix sessionID "leaked:" = false /\ flagged σ podID /\
   (forall s, LeakedMember s ∈ slots σ podID -> LeakedMember s ∈ slots σ' podID)).
Proof.
  intros Hok. unfold Reap. destruct (is_empty sessionID); [by left|].
  change (LeakedMember "") with "leaked:". destruct (has_prefix sessionID "leaked:") eqn:Hp; [by left|].
  assert (forall s, LeakedMember s <> sessionID) as Hlm.
  { intros s <-. apply not_true_iff_false in Hp. apply Hp, has_prefix_spec. by exists s. }
  rewrite (surjective_pairing (run_script _ _ _)).
  destruct tr; simpl; [| |by left].
  all: unfold reapScript, sbind, sread; rewrite EXISTS_law.
  all: unfold slots, flagged, slots_ok in *; case_bool_decide as Hfl; simpl; [|by left].
  all: rewrite (SISMEMBER_law _ _ _ Hok); case_bool_decide as Hin; simpl; [|by left].
  all: rewrite (SCARD_law _ _ Hok).
  all: destruct (_ <=? 1)%Z eqn:Hle; simplify_bool; simpl; [by left|right].
  all: destruct (SREM_members σ _ sessionID Hok) as (-> & _).
  all: split_and!; [done| |done|done|intros s; specialize (Hlm s); set_solver].
  all: intros E; assert (size (members (entry σ (activeSlotsKey podID)) ∖ {[sessionID]}) = 0) as Hz
    by (rewrite E; apply size_empty).
  all: rewrite size_difference, size_singleton in Hz by set_solver; lia.
Qed.
End Scripts.

(** ** The outage ledger and its recovery *)

Inductive entryKind := entryAdmission | entryLeaked.

Record ledgerEntry := mkLedgerEntry { kind : entryKind; podID : string; sessionID : string }.

#[export] Instance entryKind_eq_dec : EqDecision entryKind.
Proof. solve_decision. Defined.

#[export] Instance ledgerEntry_eq_dec : EqDecision ledgerEntry.
Proof. solve_decision. Defined.

#[export] Program Instance ledgerEntry_countable : Countable ledgerEntry :=
  inj_countable' (fun e => (bool_decide (kind e = entryLeaked), podID e, sessionID e))
    (fun t => mkLedgerEntry (if t.1.1 : bool then entryLeaked else entryAdmission) t.1.2 t.2) _.
Next Obligation. by intros [[] ? ?]. Qed.

Definition member (e : ledgerEntry) : string :=
  match kind e with entryLeaked => LeakedMember (sessionID e) | entryAdmission => sessionID e end.

Definition DefaultPostgresFallbackMaxWindow : Duration := (60 * Second)%Z.

(** The fields of [Counter] the mutex [outageMu] guards. *)
Record Outage := mkOutage {
  outageSince : Time;
  ledger : gmap ledgerEntry Z;
  ledgerSeq : Z
}.

Definition record (k : entryKind) (pod session : string) (c : Outage) : Outage :=
  let s := wrap_u64 (ledgerSeq c + 1) in
  mkOutage (outageSince c) (<[mkLedgerEntry k pod session := s]> (ledger c)) s.

Definition needsRebuild (c : Outage) : bool :=
  negb (time_is_zero (outageSince c)) || negb (bool_decide (ledger c = ∅)).

Definition outageKnown (c : Outage) : bool := negb (time_is_zero (outageSince c)).

Definition stampOutage (now : Time) (c : Outage) : Outage :=
  if time_is_zero (outageSince c) then mkOutage now (ledger c) (ledgerSeq c) else c.

Definition outageExceeded (maxWindow : Duration) (now : Time) (c : Outage) : Outage * bool :=
  if time_is_zero (outageSince c) then (mkOutage now (ledger c) (ledgerSeq c), false)
  else (c, (maxWindow <? time_sub now (outageSince c))%Z).

(** [dropEntries]: the entries of [pod] that still carry the number read. *)
Definition dropEntries (pod : string) (read : gmap ledgerEntry Z) (c : Outage) : Outage :=
  mkOutage (outageSince c)
    (filter (fun kv => ~ (podID kv.1 = pod /\ read !! kv.1 = Some kv.2)) (ledger c))
    (ledgerSeq c).

Definition clearOutage (since : Time) (c : Outage) : Outage :=
  if bool_decide (ledger c = ∅) && (outageSince c =? since)%Z
  then mkOutage zero_time (ledger c) (ledgerSeq c) else c.

(** The listing of pods; it runs only with the clock set and a source wired. *)
Inductive SlotError := errSlotSourceRead | errScript | ErrFailClosed | ErrSlotsExhausted.

Definition listedPods (source : option (result unit (list string))) (clockSet : bool)
    : result SlotError (gset string) :=
  match source with
  | None => Ok ∅
  | Some answer =>
      if negb clockSet then Ok ∅
      else match answer with
           | Err _ => Err errSlotSourceRead
           | Ok pods => Ok (list_to_set (filter (fun p => p <> "") pods))
           end
  end.

Definition rebuildPods (listed : gset string) (entries : gmap ledgerEntry Z) : list string :=
  sort_strings (elements (listed ∪ list_to_set (podID <$> (map_to_list entries).*1))).

(** The members one pod's script is given. *)
Definition pod_members (pod : string) (entries : gmap ledgerEntry Z) : list string :=
  member <$> filter (fun e => podID e = pod) (map_to_list entries).*1.

(** What other goroutines may do to the ledger while a rebuild runs: the
    mutex is free between its steps. *)
Inductive event := EvRecord (k : entryKind) (pod session : string) | EvStamp (now : Time).

Definition apply_event (c : Outage) (ev : event) : Outage :=
  match ev with
  | EvRecord k p s => record k p s c
  | EvStamp now => stampOutage now c
  end.

Section Recovery.
Context {Σ : Type} `{RedisServer Σ}.

Definition rebuildPod (pod : string) (listed : bool) (entries : gmap ledgerEntry Z) : Script Σ Z :=
  rebuildScript (activeSlotsKey pod) (rehydratedKey pod) listed (pod_members pod entries).

(** The loop of [rebuildAfterOutage]; [tr] says what becomes of each pod's
    script and [during] what the others do before its entries are dropped. *)
Fixpoint rebuild_loop (tr : string -> transport) (during : string -> list event)
    (listed : gset string) (entries : gmap ledgerEntry Z) (pods : list string)
    (c : Outage) (σ : Σ) : Outage * Σ * result SlotError unit :=
  match pods with
  | [] => (c, σ, Ok tt)
  | pod :: pods =>
      let (σ', res) := run_script (tr pod) (rebuildPod pod (bool_decide (pod ∈ listed)) entries) σ in
      let c := foldl apply_event c (during pod) in
      match res with
      | None => (c, σ', Err errScript)
      | Some _ => rebuild_loop tr during listed entries pods (dropEntries pod entries c) σ'
      end
  end.

Definition rebuildAfterOutage (source : option (result unit (list string)))
    (tr : string -> transport) (during : string -> list event) (c : Outage) (σ : Σ)
    : Outage * Σ * result SlotError unit :=
  let since := outageSince c in
  let entries := ledger c in
  if time_is_zero since && bool_decide (entries = ∅) then (c, σ, Ok tt)
  else
    match listedPods source (negb (time_is_zero since)) with
    | Err e => (c, σ, Err e)
    | Ok listed =>
        match rebuild_loop tr during listed entries (rebuildPods listed entries) c σ with
        | (c', σ', Ok _) => (clearOutage since c', σ', Ok tt)
        | (c', σ', Err e) => (c', σ', Err e)
        end
    end.

(** [fallbackReserve], against the Postgres gate's answer: (count, admitted)
    or an error; [None] is no gate wired. *)
Definition fallbackReserve (gate : option (result unit (Z * bool))) (maxWindow : Duration)
    (now : Time) (pod session : string) (c : Outage) : Outage * result SlotError Z :=
  let (c, exceeded) := outageExceeded maxWindow now c in
  match gate with
  | None => (c, Err ErrFailClosed)
  | Some answer =>
      if (exceeded : bool) then (c, Err ErrFailClosed)
      else match answer with
           | Err _ => (c, Err ErrFailClosed)
           | Ok (count, admitted) =>
               if negb admitted then (c, Err ErrSlotsExhausted)
               else (record entryAdmission pod session c, Ok count)
           end
  end.

(** One probe tick of the recovery loop. *)
Definition probeTick (reachable : bool) (now : Time) (source : option (result unit (list string)))
    (tr : string -> transport) (during : string -> list event) (c : Outage) (σ : Σ) : Outage * Σ :=
  if negb reachable then (stampOutage now c, σ)
  else if negb (needsRebuild c) then (c, σ)
  else (rebuildAfterOutage source tr during c σ).1.

(** ** Lemmas *)

Lemma podKey_inj p q sfx : podKey p sfx = podKey q sfx -> p = q.
Proof.
  unfold podKey. intros E%append_cancel. by apply append_cancel_r in E.
Qed.

Lemma activeSlotsKey_inj p q : activeSlotsKey p = activeSlotsKey q -> p = q.
Proof. apply podKey_inj. Qed.

Lemma rebuildPod_spec pod listed entries σ :
  (forall p, slots_ok σ p) ->
  exists σ', rebuildPod pod listed entries σ = (σ', Some 1%Z) /\
    (forall p, slots_ok σ' p) /\
    slots σ' pod = list_to_set (pod_members pod entries) ∪ slots σ pod /\
    (forall p, p <> pod -> slots σ' p = slots σ p).
Proof.
  intros Hok. destruct (sadd_all_spec (activeSlotsKey pod) (pod_members pod entries) σ (Hok pod))
    as (σ1 & E & Hm & Hs & Hf).
  assert (forall p, slots_ok σ1 p) as Hok1.
  { intros p. unfold slots_ok. destruct (decide (p = pod)) as [->|Hne]; [done|].
    rewrite Hf; [apply Hok|]. by intros ?%activeSlotsKey_inj. }
  assert (forall p, p <> pod -> slots σ1 p = slots σ p) as Hother.
  { intros p Hne. unfold slots. rewrite Hf; [done|]. by intros ?%activeSlotsKey_inj. }
  unfold rebuildPod, rebuildScript, sbind, swrite, sret. rewrite E. destruct listed.
  - exists (DEL σ1 (rehydratedKey pod)). split; [done|].
    assert (forall p, entry (DEL σ1 (rehydratedKey pod)) (activeSlotsKey p) =
                      entry σ1 (activeSlotsKey p)) as Hd.
    { intros p. rewrite DEL_law, upd_ne; [done|apply slots_flag_ne]. }
    unfold slots_ok, slots in *. split_and!; intros; rewrite Hd; auto.
  - exists σ1. split_and!; auto.
Qed.

Lemma run_rebuildPod_spec tr pod listed entries σ :
  (forall p, slots_ok σ p) ->
  let (σ', res) := run_script tr (rebuildPod pod listed entries) σ in
  (forall p, slots_ok σ' p) /\ (forall p, slots σ p ⊆ slots σ' p) /\
  (is_Some res -> forall m, m ∈ pod_members pod entries -> m ∈ slots σ' pod).
Proof.
  intros Hok. destruct (rebuildPod_spec pod listed entries σ Hok) as (σ' & E & Hok' & Hm & Hf).
  assert (forall p, slots σ p ⊆ slots σ' p) as Hsub.
  { intros p. destruct (decide (p = pod)) as [->|Hne]; [|by rewrite Hf]. rewrite Hm. set_solver. }
  destruct tr; unfold run_script; rewrite ?E; simpl.
  - split_and!; [done|done|]. intros _ m Hin. rewrite Hm, elem_of_union, elem_of_list_to_set. by left.
  - split_and!; [done|done|by intros []].
  - split_and!; [done|done|by intros []].
Qed.

Lemma pod_members_elem e n entries :
  entries !! e = Some n -> member e ∈ pod_members (podID e) entries.
Proof.
  intros He. unfold pod_members. apply list_elem_of_fmap_2. apply list_elem_of_filter. split; [done|].
  apply (list_elem_of_fmap_2' fst _ (e, n)); [|done]. by apply elem_of_map_to_list.
Qed.

Definition fresh_after (seq0 : Z) (c : Outage) (e : ledgerEntry) : Prop :=
  exists n, ledger c !! e = Some n /\ (seq0 < n)%Z.

Lemma apply_event_spec c ev :
  (0 <= ledgerSeq c)%Z -> (ledgerSeq c + 1 < two64)%Z ->
  let c' := apply_event c ev in
  (ledgerSeq c <= ledgerSeq c' <= ledgerSeq c + 1)%Z /\
  (forall seq0 e, (seq0 <= ledgerSeq c)%Z -> fresh_after seq0 c e -> fresh_after seq0 c' e) /\
  (forall e n, ledger c !! e = Some n -> ledger c' !! e = Some n \/ fresh_after (ledgerSeq c) c' e) /\
  (forall k p s, ev = EvRecord k p s -> fresh_after (ledgerSeq c) c' (mkLedgerEntry k p s)).
Proof.
  intros H0 Hw. destruct ev as [k p s|now]; simpl.
  - unfold fresh_after, record. simpl. rewrite wrap_u64_id by (unfold_int64; lia).
    split_and!; try lia.
    + intros seq0 e Hs (n & Hn & Hlt). destruct (decide (e = mkLedgerEntry k p s)) as [->|Hne].
      * exists (ledgerSeq c + 1)%Z. rewrite lookup_insert_eq. split; [done|lia].
      * exists n. rewrite lookup_insert_ne by congruence. done.
    + intros e n Hn. destruct (decide (e = mkLedgerEntry k p s)) as [->|Hne].
      * right. exists (ledgerSeq c + 1)%Z. rewrite lookup_insert_eq. split; [done|lia].
      * left. by rewrite lookup_insert_ne by congruence.
    + intros k' p' s' [= <- <- <-]. exists (ledgerSeq c + 1)%Z. rewrite lookup_insert_eq. split; [done|lia].
  - unfold stampOutage, fresh_after. destruct (time_is_zero _); simpl; split_and!; try lia; eauto; done.
Qed.

Lemma apply_events_spec evs c :
  (0 <= ledgerSeq c)%Z -> (ledgerSeq c + Z.of_nat (length evs) < two64)%Z ->
  let c' := foldl apply_event c evs in
  (ledgerSeq c <= ledgerSeq c' <= ledgerSeq c + Z.of_nat (length evs))%Z /\
  (forall seq0 e, (seq0 <= ledgerSeq c)%Z -> fresh_after seq0 c e -> fresh_after seq0 c' e) /\
  (forall e n, ledger c !! e = Some n -> ledger c' !! e = Some n \/ fresh_after (ledgerSeq c) c' e) /\
  (forall k p s, EvRecord k p s ∈ evs -> fresh_after (ledgerSeq c) c' (mkLedgerEntry k p s)).
Proof.
  revert c. induction evs as [|ev evs IH]; intros c H0 Hw; simpl.
  { split_and!; [lia|lia|done|eauto|set_solver]. }
  simpl in Hw. destruct (apply_event_spec c ev H0) as ([Hl Hu] & Hf & Hk & Hr); [lia|].
  destruct (IH (apply_event c ev)) as ([Hl' Hu'] & Hf' & Hk' & Hr'); [lia|lia|].
  split_and!; [lia|lia| | |].
  - intros seq0 e Hs Hfr. apply Hf'; [lia|]. by apply Hf.
  - intros e n Hn. destruct (Hk e n Hn) as [Hn'|Hfr].
    + destruct (Hk' e n Hn') as [?|(m & Hm & Hlt)]; [by left|]. right. exists m. split; [done|lia].
    + right. apply Hf'; [lia|done].
  - intros k p s [E|Hin]%elem_of_cons.
    + apply Hf'; [lia|]. by apply Hr.
    + destruct (Hr' k p s Hin) as (m & Hm & Hlt). exists m. split; [done|lia].
Qed.

Lemma dropEntries_lookup pod read c e n :
  ledger (dropEntries pod read c) !! e = Some n <->
  ledger c !! e = Some n /\ ~ (podID e = pod /\ read !! e = Some n).
Proof. unfold dropEntries. simpl. apply map_lookup_filter_Some. Qed.

(** The number of ledger events while the listed pods are processed. *)
Definition total_events (during : string -> list event) (pods : list string) : Z :=
  Z.of_nat (length (pods ≫= during)).

Lemma total_events_cons during pod pods :
  total_events during (pod :: pods) =
  (Z.of_nat (length (during pod)) + total_events during pods)%Z.
Proof. unfold total_events. rewrite bind_cons, length_app. lia. Qed.

(** What a (partial) recovery keeps: the sets only grow, and every entry the
    ledger loses has its member in its pod's set; entries newer than the
    snapshot stay. *)
Record keeps (seq0 : Z) (c : Outage) (σ : Σ) (c' : Outage) (σ' : Σ) : Prop := mkKeeps {
  keeps_ok : forall p, slots_ok σ' p;
  keeps_sub : forall p, slots σ p ⊆ slots σ' p;
  keeps_fresh : forall e, fresh_after seq0 c e -> fresh_after seq0 c' e;
  keeps_entries : forall e, e ∈ dom (ledger c) ->
    e ∈ dom (ledger c') \/ member e ∈ slots σ' (podID e)
}.

Lemma keeps_trans seq0 c σ c1 σ1 c2 σ2 :
  keeps seq0 c σ c1 σ1 -> keeps seq0 c1 σ1 c2 σ2 -> keeps seq0 c σ c2 σ2.
Proof.
  intros [Hok1 Hs1 Hf1 He1] [Hok2 Hs2 Hf2 He2]. constructor; [done| |auto|].
  - intros p. etrans; [apply Hs1|apply Hs2].
  - intros e He. destruct (He1 e He) as [He'|Hm]; [by apply He2|]. right. by apply Hs2.
Qed.

(** One round: the pod's script ran, others acted, its entries are dropped. *)
Lemma rebuild_round seq0 tr during pod listed entries c σ :
  (forall e n, entries !! e = Some n -> (n <= seq0)%Z) ->
  (0 <= seq0 <= ledgerSeq c)%Z -> (ledgerSeq c + Z.of_nat (length (during pod)) < two64)%Z ->
  (forall p, slots_ok σ p) ->
  let (σ', res) := run_script (tr pod) (rebuildPod pod listed entries) σ in
  let c1 := foldl apply_event c (during pod) in
  let c2 := match res with Some _ => dropEntries pod entries c1 | None => c1 end in
  keeps seq0 c σ c2 σ' /\
  (ledgerSeq c <= ledgerSeq c2 <= ledgerSeq c + Z.of_nat (length (during pod)))%Z /\
  (forall k p s, EvRecord k p s ∈ during pod -> fresh_after seq0 c2 (mkLedgerEntry k p s)).
Proof.
  intros Hent Hseq Hw Hok. pose proof (run_rebuildPod_spec (tr pod) pod listed entries σ Hok) as Hrun.
  destruct (run_script (tr pod) (rebuildPod pod listed entries) σ) as [σ' res].
  destruct Hrun as (Hok' & Hsub & Hmem). cbv zeta.
  destruct (apply_events_spec (during pod) c) as (Hb & Hf & Hk & Hr); [lia|lia|].
  set (c1 := foldl apply_event c (during pod)) in *.
  assert (forall e, fresh_after seq0 c1 e ->
            fresh_after seq0 (match res with Some _ => dropEntries pod entries c1 | None => c1 end) e) as Hkeep.
  { intros e (n & Hn & Hlt). exists n. split; [|done]. destruct res; [|done].
    apply dropEntries_lookup. split; [done|]. intros [_ Hread]. apply Hent in Hread. lia. }
  assert (forall e, fresh_after (ledgerSeq c) c1 e -> fresh_after seq0 c1 e) as Hweak.
  { intros e (n & Hn & Hlt). exists n. split; [done|lia]. }
  split_and!.
  - constructor; [done|done|intros e He; apply Hkeep, Hf; [lia|done]|].
    intros e [n Hn]%elem_of_dom. destruct (Hk e n Hn) as [Hn1|Hfr].
    2:{ left. destruct (Hkeep e (Hweak e Hfr)) as (m & Hm & _). rewrite elem_of_dom. by exists m. }
    destruct res as [v|]; [|left; rewrite elem_of_dom; by exists n].
    destruct (decide (podID e = pod /\ entries !! e = Some n)) as [[<- Hread]|Hnot].
    + right. apply Hmem; [by eexists|]. by eapply pod_members_elem.
    + left. rewrite elem_of_dom. exists n. by apply dropEntries_lookup.
  - destruct res; simpl; lia.
  - destruct res; simpl; lia.
  - intros k p s Hin. apply Hkeep, Hweak. by apply Hr.
Qed.

Lemma rebuild_loop_spec seq0 tr during listed entries pods c σ :
  (forall e n, entries !! e = Some n -> (n <= seq0)%Z) ->
  (0 <= seq0 <= ledgerSeq c)%Z -> (ledgerSeq c + total_events during pods < two64)%Z ->
  (forall p, slots_ok σ p) ->
  let '(c', σ', res) := rebuild_loop tr during listed entries pods c σ in
  keeps seq0 c σ c' σ' /\
  (res = Ok tt -> forall q k p s, q ∈ pods -> EvRecord k p s ∈ during q ->
     fresh_after seq0 c' (mkLedgerEntry k p s)).
Proof.
  intros Hent. revert c σ. induction pods as [|pod pods IH]; intros c σ Hseq Hw Hok; simpl.
  { split; [|set_solver]. constructor; auto. }
  rewrite total_events_cons in Hw.
  pose proof (rebuild_round seq0 tr during pod (bool_decide (pod ∈ listed)) entries c σ Hent Hseq) as Hround.
  destruct (run_script _ _ σ) as [σ1 [v|]]; cbv zeta in Hround.
  - destruct Hround as (Hk1 & Hs1 & Hr1); [unfold total_events in *; lia|done|].
    specialize (IH (dropEntries pod entries (foldl apply_event c (during pod))) σ1).
    destruct (rebuild_loop _ _ _ _ pods _ σ1) as [[c' σ'] res].
    destruct IH as [Hk2 Hr2]; [lia|lia|apply Hk1|]. split; [by eapply keeps_trans|].
    intros Hres q k p s [->|Hq]%elem_of_cons Hin; [|by eapply Hr2].
    eapply keeps_fresh; [exact Hk2|]. by apply Hr1.
  - destruct Hround as (Hk1 & _); [unfold total_events in *; lia|done|]. split; [exact Hk1|done].
Qed.

Lemma apply_events_clock evs c :
  outageSince c <> 0%Z -> outageSince (foldl apply_event c evs) = outageSince c.
Proof.
  revert c. induction evs as [|ev evs IH]; intros c Hc; [done|]. simpl.
  assert (outageSince (apply_event c ev) = outageSince c) as E.
  { destruct ev as [k p s|now]; [done|]. simpl. unfold stampOutage, time_is_zero.
    by rewrite (proj2 (Z.eqb_neq _ _)). }
  rewrite IH; [done|congruence].
Qed.

Lemma rebuild_loop_clock tr during listed entries pods c σ :
  outageSince c <> 0%Z ->
  outageSince (rebuild_loop tr during listed entries pods c σ).1.1 = outageSince c.
Proof.
  revert c σ. induction pods as [|pod pods IH]; intros c σ Hc; [done|]. simpl.
  destruct (run_script _ _ σ) as [σ1 [v|]]; simpl; [rewrite IH|]; simpl; by rewrite ?apply_events_clock.
Qed.

Lemma clearOutage_ledger since c :
  ledger (clearOutage since c) = ledger c /\
  (outageSince (clearOutage since c) = 0%Z -> outageSince c = 0%Z \/ ledger c = ∅).
Proof.
  unfold clearOutage. destruct (_ && _) eqn:E; [|naive_solver].
  apply andb_true_iff in E as [E _]. apply bool_decide_eq_true in E. simpl. tauto.
Qed.

Lemma rebuildPods_NoDup listed entries : NoDup (rebuildPods listed entries).
Proof. unfold rebuildPods. rewrite sort_strings_perm. apply NoDup_elements. Qed.

Lemma rebuildPods_elem listed entries q :
  q ∈ podID <$> (map_to_list entries).*1 -> q ∈ rebuildPods listed entries.
Proof.
  intros Hq. unfold rebuildPods. rewrite sort_strings_perm, elem_of_elements, elem_of_union.
  right. by apply elem_of_list_to_set.
Qed.

(** C28. Outage recovery loses no slot: whatever becomes of each script and
    whatever other goroutines record meanwhile, the recovery removes no member
    of any set; every entry of the ledger is afterwards either still in the
    ledger or counted in its pod's set; an entry recorded while a successful
    recovery runs is still in the ledger; and the outage clock is cleared
    only with an empty ledger. *)
Theorem rebuild_loses_nothing (source : option (result unit (list string)))
    (tr : string -> transport) (during : string -> list event) (c : Outage) (σ : Σ) :
  (forall e n, ledger c !! e = Some n -> (n <= ledgerSeq c)%Z) ->
  (0 <= ledgerSeq c)%Z ->
  (forall pods, NoDup pods -> ledgerSeq c + total_events during pods < two64)%Z ->
  (forall p, slots_ok σ p) ->
  let '(c', σ', res) := rebuildAfterOutage source tr during c σ in
  (forall p, slots σ p ⊆ slots σ' p) /\
  (forall e, e ∈ dom (ledger c) -> e ∈ dom (ledger c') \/ member e ∈ slots σ' (podID e)) /\
  (res = Ok tt -> forall q k p s, q ∈ podID <$> (map_to_list (ledger c)).*1 ->
     EvRecord k p s ∈ during q -> mkLedgerEntry k p s ∈ dom (ledger c')) /\
  (outageSince c <> 0%Z -> outageSince c' = 0%Z -> ledger c' = ∅).
Proof.
  intros Hent H0 Hw Hok. unfold rebuildAfterOutage.
  destruct (time_is_zero (outageSince c) && bool_decide (ledger c = ∅)) eqn:Hz.
  { apply andb_true_iff in Hz as [Hz He]. apply bool_decide_eq_true in He. rewrite He.
    split_and!; try done. intros _ q k p s. rewrite map_to_list_empty. set_solver. }
  destruct (listedPods source _) as [listed|err]; [|split_and!; [done|by left|done|done]].
  pose proof (rebuild_loop_spec (ledgerSeq c) tr during listed (ledger c)
                (rebuildPods listed (ledger c)) c σ Hent) as Hloop.
  pose proof (rebuild_loop_clock tr during listed (ledger c) (rebuildPods listed (ledger c)) c σ) as Hclk.
  destruct (rebuild_loop _ _ _ _ _ c σ) as [[c' σ'] [[]|err]];
    destruct Hloop as [[_ Hsub _ Hent'] Hrec]; try done; try lia.
  all: try (apply Hw, rebuildPods_NoDup).
  - destruct (clearOutage_ledger (outageSince c) c') as [Hl Hc]. rewrite Hl.
    split_and!; [done|done| |].
    2:{ intros Hne Hz'. destruct (Hc Hz') as [Hz2|Hem]; [|done]. specialize (Hclk Hne). simpl in Hclk. congruence. }
    intros _ q k p s Hq Hin. destruct (Hrec eq_refl q k p s) as (n & Hn & _); [|done|].
    + by apply rebuildPods_elem.
    + rewrite elem_of_dom. by exists n.
  - split_and!; [done|done|done|]. intros Hne Hz'. specialize (Hclk Hne). simpl in Hclk. congruence.
Qed.
End Recovery.

(** ** Witnesses *)

Definition example_slots : gmap string rentry :=
  {["lenny:pod:{p1}:active_slots" := mkEntry (RSet {["s1"; "s2"]}) None;
    "lenny:pod:{p1}:rehydrated" := mkEntry (RString "1") None]}.

Lemma example_slots_ok : slots_ok example_slots "p1".
Proof. vm_compute. exact I. Qed.

Lemma reap_safe_witness :
  slots (Reap Delivered "p1" "s1" example_slots).1 "p1" = slots example_slots "p1" \/
  slots (Reap Delivered "p1" "s1" example_slots).1 "p1" <> ∅.
Proof.
  pose proof (reap_safe Delivered "p1" "s1" example_slots example_slots_ok) as Hr.
  destruct (Reap Delivered "p1" "s1" example_slots) as [σ' res].
  destruct Hr as [Hr|(_ & Hr & _)]; [left; exact Hr|right; exact Hr].
Defined.

Definition example_outage : Outage :=
  mkOutage 5 {[mkLedgerEntry entryLeaked "p1" "s9" := 1%Z]} 1.

Lemma rebuild_loses_nothing_witness :
  mkLedgerEntry entryLeaked "p1" "s9" ∈
    dom (ledger (rebuildAfterOutage None (fun _ => Delivered) (fun _ => []) example_outage
                   (∅ : gmap string rentry)).1.1) \/
  "leaked:s9" ∈ slots (rebuildAfterOutage None (fun _ => Delivered) (fun _ => []) example_outage
                         (∅ : gmap string rentry)).1.2 "p1".
Proof.
  pose proof (rebuild_loses_nothing None (fun _ => Delivered) (fun _ => []) example_outage
                (∅ : gmap string rentry)) as Hr.
  destruct (rebuildAfterOutage _ _ _ _ _) as [[c' σ'] res]. simpl in Hr.
  destruct Hr as (_ & He & _).
  - intros e n [<- <-]%lookup_singleton_Some. reflexivity.
  - discriminate.
  - intros pods _. unfold total_events.
    assert (pods ≫= (fun _ => []) = ([] : list event)) as -> by (by induction pods). reflexivity.
  - intros p. exact I.
  - apply (He (mkLedgerEntry entryLeaked "p1" "s9")). vm_compute. reflexivity.
Defined.
