(* ===== verification/SlotReserve.v ===== *)
(** * Reserving and releasing a slot ([pkg/gateway/storage/slotcounter])

    The Go calls around the scripts of [SlotCounter]: [Reserve] with its
    Postgres record, its retry loop and its fallback, [Release], and
    [rehydrate] with the cross-replica lock.  Other replicas act on Redis
    between any two commands: each command consumes an [Ext], which says what
    the others did before it and what became of it.  Postgres answers, the
    clock and the lock token are the record [Conf]. *)

From S2P Require Import Prelude Redis SlotCounter.

(** [int32(res)] *)
Definition wrap32 (x : Z) : Z := ((x + 2147483648) mod 4294967296 - 2147483648)%Z.

(** ** Errors *)

(** A Go error as the package inspects it: what [errors.Is] and [errors.As]
    find in its chain, and its text. *)
Record GoError := mkGoError {
  isRedisNil : bool;
  isSlotSourceRead : bool;
  isCanceled : bool;
  isDeadlineExceeded : bool;
  asNetError : bool;
  isErrClosed : bool;
  isECONNREFUSED : bool;
  isEOF : bool;
  isUnexpectedEOF : bool;
  errText : string }.

Definition plainError (msg : string) : GoError :=
  mkGoError false false false false false false false false false msg.

(** [fmt.Errorf("<prefix>%w", e)] keeps the chain. *)
Definition wrapf (prefix : string) (e : GoError) : GoError :=
  mkGoError (isRedisNil e) (isSlotSourceRead e) (isCanceled e) (isDeadlineExceeded e) (asNetError e)
    (isErrClosed e) (isECONNREFUSED e) (isEOF e) (isUnexpectedEOF e) (prefix +:+ errText e).

(** [strings.Contains] *)
Definition contains (s sub : string) : bool := bool_decide (is_Some (cut sub s)).

Definition redisUnavailableFragments : list string :=
  ["connection refused"; "connect: connection refused"; "no such host"; "i/o timeout";
   "connection reset by peer"; "redis: client is closed"; "connection pool timeout"; "broken pipe"].

Definition isRedisUnavailable (e : GoError) : bool :=
  if isRedisNil e || isSlotSourceRead e then false
  else if isCanceled e || isDeadlineExceeded e then false
  else if asNetError e then true
  else if isErrClosed e || isECONNREFUSED e then true
  else if isEOF e || isUnexpectedEOF e then true
  else existsb (contains (errText e)) redisUnavailableFragments.

(** Redis reports a Lua or type error as text. *)
Definition scriptError : GoError :=
  plainError "WRONGTYPE Operation against a key holding the wrong kind of value".

(** [ctx.Err()] *)
Definition ctxCanceled : GoError :=
  mkGoError false false true false false false false false false "context canceled".

Section Calls.
Context {Σ : Type} `{RedisServer Σ}.

(** The fate of a command: it ran and its reply arrived, it ran and the reply
    was lost, or it did not reach the server. *)
Inductive Outcome := Replied | Lost (e : GoError) | NotSent (e : GoError).

Record Ext := mkExt { others : Σ -> Σ; outcome : Outcome }.

(** The Redis instance, this replica's outage state, the reservation records
    in Postgres, and the commands to come. *)
Record CState := mkCState {
  redis : Σ;
  outage : Outage;
  records : gset (string * string);
  exts : list Ext }.

Record Conf := mkConf {
  source : option (string -> result unit (list string));    (* GetActiveSlotsByPod *)
  podList : result unit (list string);                      (* ListPodsWithActiveSlots *)
  fallback : bool;                                          (* a FallbackSource is wired *)
  recordFault : option bool;            (* RecordSlotReservation fails; [true]: the row was written *)
  deleteFault : option bool;            (* DeleteSlotReservation fails; [true]: the row was deleted *)
  gateAnswer : result bool (Z * bool);  (* ReserveSlotUnderLock; [Err true]: its commit took effect *)
  token : result GoError string;                            (* lockToken *)
  rehydrationTimeoutMs : Z;
  waits : list bool;  (* before the deadline: [true] a tick, [false] the context ended *)
  nowTime : Time;
  maxWindow : Duration;
  rebuildTr : string -> transport;
  rebuildDuring : string -> list event;
  rebuildError : GoError }.                                 (* a rebuild script's error *)

Definition with_redis (st : CState) (σ : Σ) (l : list Ext) : CState :=
  mkCState σ (outage st) (records st) l.
Definition with_outage (st : CState) (c : Outage) : CState :=
  mkCState (redis st) c (records st) (exts st).
Definition with_records (st : CState) (r : gset (string * string)) : CState :=
  mkCState (redis st) (outage st) r (exts st).

(** One command or script. *)
Definition call {A} (m : Script Σ A) (st : CState) : CState * result GoError A :=
  let '(x, rest) := match exts st with
                    | [] => (mkExt (fun σ => σ) Replied, [])
                    | x :: rest => (x, rest)
                    end in
  let σ := others x (redis st) in
  match outcome x with
  | NotSent e => (with_redis st σ rest, Err e)
  | Lost e => (with_redis st (m σ).1 rest, Err e)
  | Replied => let '(σ', r) := m σ in
               (with_redis st σ' rest, match r with Some a => Ok a | None => Err scriptError end)
  end.

(** ** Rehydration *)

Inductive CallError :=
| CRedis (e : GoError)
| CSlotSourceRead
| CStalled
| CExhausted
| CFailClosed
| CInvalid
| CUnexpected.

(** [isRedisUnavailable] on the errors the calls return. *)
Definition unavailable (e : CallError) : bool :=
  match e with CRedis e => isRedisUnavailable e | _ => false end.

Definition flagSet (podID : string) : CState -> CState * result GoError bool :=
  fun st => let '(st, r) := call (sread (fun σ => EXISTS σ (rehydratedKey podID))) st in
            (st, match r with
                 | Ok b => Ok b
                 | Err e => Err (wrapf ("slotcounter: check rehydrated flag " +:+ podID +:+ ": ") e)
                 end).

(** The error [seed] returns. *)
Definition seedError (podID : string) (e : GoError) : CallError :=
  CRedis (wrapf ("slotcounter: seed " +:+ podID +:+ ": ") e).

Definition setNX (k v : string) (ms : Z) : Script Σ bool :=
  fun σ => if EXISTS σ k then (σ, Some false) else (SET_NX_PX σ k v ms, Some true).

Fixpoint waitForFlag (waits : list bool) (podID : string) (st : CState) : CState * result CallError unit :=
  let '(st, r) := flagSet podID st in
  match r with
  | Err e => (st, Err (CRedis e))
  | Ok true => (st, Ok tt)
  | Ok false =>
      match waits with
      | [] => (st, Ok tt)
      | tick :: waits => if tick then waitForFlag waits podID st else (st, Err (CRedis ctxCanceled))
      end
  end.

Definition unlock (podID tok : string) (st : CState) : CState :=
  (call (unlockScript (rehydratingKey podID) tok) st).1.

(** The part of [rehydrate] under the cross-replica lock. *)
Definition rehydrate_locked (read : string -> result unit (list string)) (podID extra tok : string)
    (st : CState) : CState * result CallError bool :=
  let '(st, r) := flagSet podID st in
  match r with
  | Err e => (unlock podID tok st, Err (CRedis e))
  | Ok true => (unlock podID tok st, Ok false)
  | Ok false =>
      match read podID with
      | Err _ => (unlock podID tok st, Err CSlotSourceRead)
      | Ok ids =>
          let '(st, r) := call (seed podID ids extra) st in
          (unlock podID tok st, match r with Err e => Err (seedError podID e) | Ok _ => Ok true end)
      end
  end.

Definition rehydrate (conf : Conf) (podID extra : string) (st : CState) : CState * result CallError bool :=
  let '(st, r) := flagSet podID st in
  match r with
  | Err e => (st, Err (CRedis e))
  | Ok true => (st, Ok false)
  | Ok false =>
      match source conf with
      | None => let '(st, r) := call (seed podID [] extra) st in
                (st, match r with Err e => Err (seedError podID e) | Ok _ => Ok false end)
      | Some read =>
          match token conf with
          | Err e => (st, Err (CRedis (wrapf "slotcounter: lock token: " e)))
          | Ok tok =>
              let '(st, r) := call (setNX (rehydratingKey podID) tok (rehydrationTimeoutMs conf)) st in
              match r with
              | Err e => (st, Err (CRedis (wrapf ("slotcounter: acquire rehydrating lock " +:+ podID +:+ ": ") e)))
              | Ok false => let '(st, r) := waitForFlag (waits conf) podID st in
                            (st, match r with Err e => Err e | Ok _ => Ok false end)
              | Ok true => rehydrate_locked read podID extra tok st
              end
          end
      end
  end.

(** ** Postgres records *)

(** Was the record inserted, or did the write fail closed. *)
Definition recordReservation (conf : Conf) (podID sessionID : string) (st : CState) :
    CState * result CallError bool :=
  if negb (fallback conf) then (st, Ok false)
  else
    let written := with_records st ({[(podID, sessionID)]} ∪ records st) in
    match recordFault conf with
    | Some effect => (if effect then written else st, Err CFailClosed)
    | None => if bool_decide ((podID, sessionID) ∈ records st) then (st, Ok false) else (written, Ok true)
    end.

Definition dropReservation (conf : Conf) (podID sessionID : string) (st : CState) : CState :=
  if negb (fallback conf) then st
  else
    match deleteFault conf with
    | Some false => st
    | _ => with_records st (records st ∖ {[(podID, sessionID)]})
    end.

(** The gate records the admission under its lock. *)
Definition gate_records (conf : Conf) (podID sessionID : string) (st : CState) : CState :=
  match gateAnswer conf with
  | Ok (_, true) | Err true => with_records st ({[(podID, sessionID)]} ∪ records st)
  | _ => st
  end.

Definition gate_result (conf : Conf) : option (result unit (Z * bool)) :=
  if fallback conf then Some (match gateAnswer conf with Ok a => Ok a | Err _ => Err tt end) else None.

(** [fallbackReserve]; the gate is asked only inside the outage window. *)
Definition fallbackCall (conf : Conf) (podID sessionID : string) (rehydrated : bool) (st : CState) :
    CState * result CallError (Z * bool) :=
  let '(c, r) := fallbackReserve (gate_result conf) (maxWindow conf) (nowTime conf) podID sessionID (outage st) in
  let asked := fallback conf && negb (outageExceeded (maxWindow conf) (nowTime conf) (outage st)).2 in
  let st := with_outage (if asked then gate_records conf podID sessionID st else st) c in
  (st, match r with
       | Ok count => Ok (count, rehydrated)
       | Err ErrSlotsExhausted => Err CExhausted
       | Err _ => Err CFailClosed
       end).

(** ** Release *)

Definition rebuild (conf : Conf) (st : CState) : CState * result CallError unit :=
  let '(c, σ, r) := rebuildAfterOutage (match source conf with Some _ => Some (podList conf) | None => None end)
                      (rebuildTr conf) (rebuildDuring conf) (outage st) (redis st) in
  (mkCState σ c (records st) (exts st),
   match r with
   | Ok _ => Ok tt
   | Err errSlotSourceRead => Err CSlotSourceRead
   | Err _ => Err (CRedis (rebuildError conf))
   end).

Fixpoint release_loop (conf : Conf) (attempts : nat) (podID sessionID : string) (leaked rehydrated : bool)
    (st : CState) : CState * result (bool * CallError) (bool * Z * bool) :=
  match attempts with
  | O => (st, Err (rehydrated, CStalled))
  | S attempts =>
      let '(st, r) := call (releaseScript (activeSlotsKey podID) (rehydratedKey podID) sessionID leaked) st in
      match r with
      | Err e => (st, Err (rehydrated, CRedis e))
      | Ok (removed, remaining) =>
          if negb (removed =? resultRehydrate)%Z then (st, Ok ((removed =? 1)%Z, wrap32 remaining, rehydrated))
          else
            let '(st, r) := rehydrate conf podID sessionID st in
            match r with
            | Err e => (st, Err (rehydrated, e))
            | Ok did => release_loop conf attempts podID sessionID leaked (rehydrated || did) st
            end
      end
  end.

Definition release (conf : Conf) (podID sessionID : string) (leaked : bool) (st : CState) :
    CState * result (bool * CallError) (bool * Z * bool) :=
  let '(st, r) := if needsRebuild (outage st) then rebuild conf st else (st, Ok tt) in
  match r with
  | Err e => (st, Err (false, e))
  | Ok _ => release_loop conf maxReserveAttempts podID sessionID leaked false st
  end.

Definition Release (conf : Conf) (podID sessionID : string) (leaked : bool) (st : CState) :
    CState * result CallError (bool * Z * bool) :=
  if is_empty sessionID then (st, Err CInvalid)
  else
    let '(st, r) := release conf podID sessionID leaked st in
    let st := if negb leaked then dropReservation conf podID sessionID st else st in
    match r with
    | Ok a => (st, Ok a)
    | Err (_, e) =>
        let st := if leaked then with_outage st (record entryLeaked podID sessionID (outage st)) else st in
        let st := if unavailable e then with_outage st (stampOutage (nowTime conf) (outage st)) else st in
        (st, Err e)
    end.

(** ** Reserve *)

(** [reservation.recorded] and [reservation.inserted]. *)
Record reservation := mkReservation { recorded : bool; inserted : bool }.

(** The bool is the reservation's [inserted] after the call. *)
Definition toGate (conf : Conf) (podID sessionID : string) (r : reservation) (rehydrated : bool) (st : CState) :
    CState * bool * result CallError (Z * bool) :=
  let st := if inserted r then dropReservation conf podID sessionID st else st in
  let '(st, res) := fallbackCall conf podID sessionID rehydrated st in
  (st, false, res).

Definition admitted (conf : Conf) (podID sessionID : string) (r : reservation) (st : CState) :
    CState * option CallError :=
  if recorded r then (st, None)
  else
    let '(st, res) := recordReservation conf podID sessionID st in
    match res with
    | Ok _ => (st, None)
    | Err e => ((release conf podID sessionID false st).1, Some e)
    end.

Fixpoint reserve_loop (conf : Conf) (attempts : nat) (podID sessionID : string) (maxConcurrent : Z)
    (r : reservation) (rehydrated : bool) (st : CState) : CState * bool * result CallError (Z * bool) :=
  match attempts with
  | O => (st, inserted r, Err CStalled)
  | S attempts =>
      let '(st, res) := call (reserveScript (activeSlotsKey podID) (rehydratedKey podID) sessionID maxConcurrent) st in
      match res with
      | Err e => if isRedisUnavailable e then toGate conf podID sessionID r rehydrated st
                 else (st, inserted r, Err (CRedis e))
      | Ok n =>
          if (1 <=? n)%Z then
            let '(st, err) := admitted conf podID sessionID r st in
            (st, inserted r, match err with Some e => Err e | None => Ok (wrap32 n, rehydrated) end)
          else if (n =? resultExhausted)%Z then (st, inserted r, Err CExhausted)
          else if (n =? resultRehydrate)%Z then
            let '(st, did) := rehydrate conf podID "" st in
            match did with
            | Err e => if unavailable e then toGate conf podID sessionID r rehydrated st
                       else (st, inserted r, Err e)
            | Ok did => reserve_loop conf attempts podID sessionID maxConcurrent r (rehydrated || did) st
            end
          else (st, inserted r, Err CUnexpected)
      end
  end.

Definition reserve (conf : Conf) (podID sessionID : string) (maxConcurrent : Z) (r : reservation) (st : CState) :
    CState * bool * result CallError (Z * bool) :=
  let '(st, rb) := if needsRebuild (outage st) then rebuild conf st else (st, Ok tt) in
  match rb with
  | Err e => if unavailable e then toGate conf podID sessionID r false st else (st, inserted r, Err CFailClosed)
  | Ok _ => reserve_loop conf maxReserveAttempts podID sessionID maxConcurrent r false st
  end.

Definition Reserve (conf : Conf) (podID sessionID : string) (maxConcurrent : Z) (st : CState) :
    CState * result CallError (Z * bool) :=
  if is_empty sessionID then (st, Err CInvalid)
  else if (maxConcurrent <? 1)%Z then (st, Err CInvalid)
  else
    let '(st, rec) := if negb (outageKnown (outage st))
                      then let '(st, ins) := recordReservation conf podID sessionID st in
                           (st, match ins with Ok b => Ok (mkReservation true b) | Err e => Err e end)
                      else (st, Ok (mkReservation false false)) in
    match rec with
    | Err e => (st, Err e)
    | Ok r =>
        let '(st, ins, res) := reserve conf podID sessionID maxConcurrent r st in
        match res with
        | Err e => ((if ins then dropReservation conf podID sessionID st else st), Err e)
        | Ok a => (st, Ok a)
        end
    end.

End Calls.

(** ** Lemmas: what the calls leave alone *)

Section Frames.
Context {Σ : Type} `{RedisServer Σ}.
Implicit Types (st : CState (Σ := Σ)) (conf : Conf).

Definition all_ok (σ : Σ) : Prop := forall p, slots_ok σ p.

(** The other replicas keep slot sets sets. *)
Definition good st : Prop :=
  all_ok (redis st) /\ Forall (fun x => forall σ, all_ok σ -> all_ok (others x σ)) (exts st).

Definition ok_script {A} (m : Script Σ A) : Prop := forall σ, all_ok σ -> all_ok (m σ).1.

(** [st'] differs from [st] in Redis only. *)
Definition redis_step st st' : Prop :=
  outage st' = outage st /\ records st' = records st /\ (good st -> good st').

Lemma redis_step_refl st : redis_step st st.
Proof. done. Qed.

Lemma redis_step_trans st1 st2 st3 : redis_step st1 st2 -> redis_step st2 st3 -> redis_step st1 st3.
Proof. intros (E1 & E2 & E3) (F1 & F2 & F3). split_and!; [congruence|congruence|auto]. Qed.

Lemma call_step {A} (m : Script Σ A) st : ok_script m -> redis_step st (call m st).1.
Proof.
  intros Hm. unfold call. destruct (exts st) as [|[f o] rest] eqn:E; cbn [others outcome].
  - destruct (m (redis st)) as [σ r] eqn:Em. cbn. split_and!; [done|done|]. intros [Hok _].
    split; [|constructor]. cbn. specialize (Hm _ Hok). by rewrite Em in Hm.
  - assert (good st -> all_ok (f (redis st)) /\
      Forall (fun x => forall σ, all_ok σ -> all_ok (others x σ)) rest) as Hg.
    { intros [Hok Hf]. rewrite E in Hf. apply Forall_cons in Hf as [Hf Hrest]. split; [|done]. by apply (Hf _ Hok). }
    destruct o as [|e|e]; cbn.
    + destruct (m (f (redis st))) as [σ r] eqn:Em. cbn. split_and!; [done|done|].
      intros [Hok Hrest]%Hg. split; [|done]. specialize (Hm _ Hok). by rewrite Em in Hm.
    + split_and!; [done|done|]. intros [Hok Hrest]%Hg. split; [|done]. by apply Hm.
    + split_and!; [done|done|]. intros [Hok Hrest]%Hg. by split.
Qed.

(** A reply means the script ran on a state the others left. *)
Lemma call_Ok {A} (m : Script Σ A) st st' a : call m st = (st', Ok a) ->
  exists σ, m σ = (redis st', Some a) /\ (good st -> all_ok σ).
Proof.
  unfold call. destruct (exts st) as [|[f o] rest] eqn:E; cbn [others outcome].
  - destruct (m (redis st)) as [σ [b|]] eqn:Em; [|done]. intros [= <- <-]. exists (redis st).
    split; [done|]. by intros [? _].
  - destruct o as [|e|e]; [|done..]. destruct (m (f (redis st))) as [σ [b|]] eqn:Em; [|done].
    intros [= <- <-]. exists (f (redis st)). split; [done|]. intros [Hok Hf]. rewrite E in Hf.
    apply Forall_cons in Hf as [Hf _]. by apply (Hf _ Hok).
Qed.

(** *** Scripts keep slot sets sets *)

Lemma all_ok_frame σ σ' k : all_ok σ -> setlike (entry σ' k) ->
  (forall k', k' <> k -> entry σ' k' = entry σ k') -> all_ok σ'.
Proof.
  intros Hok Hk Hf p. unfold slots_ok. destruct (decide (activeSlotsKey p = k)) as [->|Hne]; [done|].
  rewrite (Hf _ Hne). apply Hok.
Qed.

Lemma all_ok_other σ σ' k : all_ok σ -> (forall p, activeSlotsKey p <> k) ->
  (forall k', k' <> k -> entry σ' k' = entry σ k') -> all_ok σ'.
Proof. intros Hok Hk Hf p. unfold slots_ok. rewrite Hf; [apply Hok|apply Hk]. Qed.

Lemma rehydrating_ne p q : activeSlotsKey p <> rehydratingKey q.
Proof. by apply podKey_suffix_ne. Qed.

Lemma ok_sadd_all p ids : ok_script (sadd_all (activeSlotsKey p) ids).
Proof.
  intros σ Hok. destruct (sadd_all_spec (activeSlotsKey p) ids σ (Hok p)) as (σ' & -> & _ & Hs & Hf).
  by apply (all_ok_frame σ σ' (activeSlotsKey p)).
Qed.

Lemma ok_flag p : ok_script (sread (fun σ : Σ => EXISTS σ (rehydratedKey p))).
Proof. intros σ Hok. exact Hok. Qed.

Lemma ok_setNX p v ms : (0 < ms)%Z -> ok_script (setNX (rehydratingKey p) v ms).
Proof.
  intros Hms σ Hok. unfold setNX. destruct (EXISTS σ _); [done|].
  eapply all_ok_other; [exact Hok|apply (fun q => rehydrating_ne q p)|].
  intros k Hk. cbn. rewrite SET_NX_PX_law by done. destruct (entry σ (rehydratingKey p)); [done|]. by apply upd_ne.
Qed.

Lemma ok_unlock p tok : ok_script (unlockScript (Σ := Σ) (rehydratingKey p) tok).
Proof.
  intros σ Hok. unfold unlockScript, sbind, sread. case_bool_decide; [|done]. cbn.
  eapply all_ok_other; [exact Hok|apply (fun q => rehydrating_ne q p)|]. intros k Hk. by rewrite DEL_law, upd_ne.
Qed.

Lemma ok_seed p ids extra : ok_script (seed p ids extra).
Proof.
  intros σ Hok. unfold seed, seedScript, sbind.
  match goal with |- context [sadd_all ?k ?l σ] =>
    pose proof (ok_sadd_all p l σ Hok) as H1; destruct (sadd_all k l σ) as [σ1 [u|]] end; [|done].
  cbn in *. eapply all_ok_other; [exact H1|apply (fun q => slots_flag_ne q p)|].
  intros k Hk. by rewrite SET_law, upd_ne.
Qed.

Lemma ok_release p s leaked : ok_script (releaseScript (Σ := Σ) (activeSlotsKey p) (rehydratedKey p) s leaked).
Proof.
  intros σ Hok. unfold releaseScript, sbind, sread. destruct (negb _); [done|].
  destruct (SREM_members σ (activeSlotsKey p) s (Hok p)) as (_ & Hs & _ & Hf).
  destruct (SREM σ (activeSlotsKey p) s) as [σ1 r]. cbn in *.
  assert (all_ok σ1) as Hok1 by (by eapply all_ok_frame).
  destruct leaked; cbn; [|done].
  destruct (SADD_members σ1 (activeSlotsKey p) (LeakedMember s) (Hok1 p)) as (_ & Hs2 & Hf2).
  by eapply all_ok_frame.
Qed.

Lemma ok_reserve p s n : lua_exact n -> ok_script (reserveScript (Σ := Σ) (activeSlotsKey p) (rehydratedKey p) s n).
Proof.
  intros Hn σ Hok. destruct (reserveScript_spec p s n σ (Hok p) Hn) as (σ' & r & -> & Hs & Hf & _).
  by eapply all_ok_frame.
Qed.

Lemma ok_rebuildPod p listed entries : ok_script (rebuildPod (Σ := Σ) p listed entries).
Proof. intros σ Hok. by destruct (rebuildPod_spec p listed entries σ Hok) as (σ' & -> & Hok' & _). Qed.

Lemma rebuild_loop_ok tr during listed entries pods c (σ : Σ) : all_ok σ ->
  all_ok (rebuild_loop tr during listed entries pods c σ).1.2.
Proof.
  revert c σ. induction pods as [|p pods IH]; intros c σ Hok; cbn [rebuild_loop]; [done|].
  assert (all_ok (run_script (tr p) (rebuildPod p (bool_decide (p ∈ listed)) entries) σ).1) as H1.
  { destruct (tr p); cbn; [by apply ok_rebuildPod|by apply ok_rebuildPod|done]. }
  destruct (run_script _ _ σ) as [σ' [r|]]; cbn in *; [|done]. by apply IH.
Qed.

Lemma rebuild_step conf st :
  records (rebuild conf st).1 = records st /\ (good st -> good (rebuild conf st).1).
Proof.
  unfold rebuild. set (src := match source conf with Some _ => _ | None => _ end).
  assert (all_ok (redis st) ->
    all_ok (rebuildAfterOutage src (rebuildTr conf) (rebuildDuring conf) (outage st) (redis st)).1.2) as Hok.
  { intros Hok. unfold rebuildAfterOutage. destruct (_ && _); [done|].
    destruct (listedPods src _) as [listed|e]; [|done].
    match goal with |- context [rebuild_loop ?a ?b ?c ?d ?e ?f ?g] =>
      pose proof (rebuild_loop_ok a b c d e f g Hok) as H1; destruct (rebuild_loop a b c d e f g) as [[c' σ'] [u|e']] end;
      done. }
  destruct (rebuildAfterOutage _ _ _ _ _) as [[c σ] r]. cbn in *. split; [done|]. intros [? ?]. split; auto.
Qed.

(** *** Rehydration is a Redis step *)

Definition conf_ok conf : Prop := (0 < rehydrationTimeoutMs conf)%Z.

Lemma flagSet_step p st : redis_step st (flagSet p st).1.
Proof.
  unfold flagSet. pose proof (call_step (sread (fun σ => EXISTS σ (rehydratedKey p))) st (ok_flag p)) as Hs.
  by destruct (call _ st) as [st1 r].
Qed.

Lemma waitForFlag_step ws p st : redis_step st (waitForFlag ws p st).1.
Proof.
  revert st. induction ws as [|tick ws IH]; intros st; cbn [waitForFlag];
    pose proof (flagSet_step p st) as Hs; destruct (flagSet p st) as [st1 [[|]|e]]; cbn in *; try done.
  destruct tick; [|done]. by eapply redis_step_trans.
Qed.

Lemma unlock_step p tok st : redis_step st (unlock p tok st).
Proof. apply call_step, ok_unlock. Qed.

Lemma rehydrate_locked_step read p extra tok st : redis_step st (rehydrate_locked read p extra tok st).1.
Proof.
  unfold rehydrate_locked. pose proof (flagSet_step p st) as Hs.
  destruct (flagSet p st) as [st1 [[|]|e]]; cbn in *; try (eapply redis_step_trans; [exact Hs|apply unlock_step]).
  destruct (read p) as [ids|u]; cbn; [|eapply redis_step_trans; [exact Hs|apply unlock_step]].
  pose proof (call_step (seed p ids extra) st1 (ok_seed p ids extra)) as Hs2.
  destruct (call (seed p ids extra) st1) as [st2 r]. cbn in *.
  eapply redis_step_trans; [exact Hs|]. eapply redis_step_trans; [exact Hs2|]. apply unlock_step.
Qed.

Lemma rehydrate_step conf p extra st : conf_ok conf -> redis_step st (rehydrate conf p extra st).1.
Proof.
  intros Hc. unfold rehydrate. pose proof (flagSet_step p st) as Hs.
  destruct (flagSet p st) as [st1 [[|]|e]]; cbn in *; try done.
  destruct (source conf) as [read|].
  2: { pose proof (call_step (seed p [] extra) st1 (ok_seed p [] extra)) as Hs2.
       destruct (call (seed p [] extra) st1) as [st2 r]. by eapply redis_step_trans. }
  destruct (token conf) as [tok|u]; [|done].
  pose proof (call_step (setNX (rehydratingKey p) tok (rehydrationTimeoutMs conf)) st1 (ok_setNX p tok _ Hc)) as Hs2.
  destruct (call (setNX _ _ _) st1) as [st2 [[|]|e]]; cbn in *.
  - eapply redis_step_trans; [exact Hs|]. eapply redis_step_trans; [exact Hs2|]. apply rehydrate_locked_step.
  - pose proof (waitForFlag_step (waits conf) p st2) as Hs3.
    destruct (waitForFlag (waits conf) p st2) as [st3 r]. cbn in *.
    eapply redis_step_trans; [exact Hs|]. by eapply redis_step_trans.
  - by eapply redis_step_trans.
Qed.

(** ** Lemmas: records *)

Lemma release_loop_records conf n p s leaked reh st : conf_ok conf ->
  records (release_loop conf n p s leaked reh st).1 = records st.
Proof.
  intros Hc. revert reh st. induction n as [|n IH]; intros reh st; cbn [release_loop]; [done|].
  pose proof (call_step (releaseScript (activeSlotsKey p) (rehydratedKey p) s leaked) st (ok_release p s leaked))
    as (_ & Hr & _).
  destruct (call _ st) as [st1 [[a b]|e]]; cbn in *; [|done]. destruct (negb _); [done|].
  pose proof (rehydrate_step conf p s st1 Hc) as (_ & Hr2 & _).
  destruct (rehydrate conf p s st1) as [st2 [did|e]]; cbn in *; [|congruence]. rewrite IH. congruence.
Qed.

Lemma release_records conf p s leaked st : conf_ok conf ->
  records (release conf p s leaked st).1 = records st.
Proof.
  intros Hc. unfold release. destruct (needsRebuild (outage st)).
  - destruct (rebuild_step conf st) as [Hr _]. destruct (rebuild conf st) as [st1 [u|e]]; cbn [fst] in *; [|done].
    by rewrite release_loop_records.
  - by apply release_loop_records.
Qed.

(** After an error: no record was lost, at most this reservation's was added,
    and none unless a failed write took effect or a failed deletion did not. *)
Definition err_records conf (ps : string * string) (R0 : gset (string * string)) st : Prop :=
  R0 ⊆ records st /\ records st ⊆ {[ps]} ∪ R0 /\
  (deleteFault conf <> Some false -> gateAnswer conf <> Err true -> recordFault conf <> Some true ->
   records st = R0).

(** The records while a reservation decides. *)
Definition deciding (ps : string * string) (R0 : gset (string * string)) (r : reservation) st : Prop :=
  (inserted r = true -> ps ∉ R0 /\ records st = {[ps]} ∪ R0) /\
  (inserted r = false -> records st = R0) /\ (recorded r = true -> ps ∈ records st) /\
  (recorded r = false -> inserted r = false).

Lemma deciding_records ps R0 r st st' : records st' = records st -> deciding ps R0 r st -> deciding ps R0 r st'.
Proof. unfold deciding. by intros ->. Qed.

Lemma err_records_same conf ps R0 st : records st = R0 -> err_records conf ps R0 st.
Proof. intros <-. split_and!; [done|set_solver|done]. Qed.

Lemma dropped_records conf p s R0 st : fallback conf = true ->
  (p, s) ∉ R0 -> records st = {[(p, s)]} ∪ R0 ->
  let st' := dropReservation conf p s st in
  R0 ⊆ records st' /\ records st' ⊆ {[(p, s)]} ∪ R0 /\ (deleteFault conf <> Some false -> records st' = R0) /\
  outage st' = outage st.
Proof.
  intros Hf Hn Hr. unfold dropReservation. rewrite Hf. cbn [negb]. destruct (deleteFault conf) as [[|]|]; cbn.
  2: { rewrite Hr. by split_and!; [set_solver|set_solver|..]. }
  all: rewrite Hr; split_and!; [set_solver|set_solver|set_solver|done].
Qed.

(** A failed write of the record. *)
Lemma record_failed_err conf p s st st' e : recordReservation conf p s st = (st', Err e) ->
  err_records conf (p, s) (records st) st'.
Proof.
  unfold recordReservation. destruct (negb _); [done|]. destruct (recordFault conf) as [[|]|] eqn:E.
  - intros [= <- _]. split_and!; cbn; [set_solver|set_solver|]. by rewrite E.
  - intros [= <- _]. by apply err_records_same.
  - by destruct (bool_decide _).
Qed.

Lemma err_records_step conf ps R0 st st' : records st' = records st ->
  err_records conf ps R0 st -> err_records conf ps R0 st'.
Proof. unfold err_records. by intros ->. Qed.

(** The record of a successful write is there, and nothing else changed. *)
Lemma record_written conf p s st st' ins : fallback conf = true ->
  recordReservation conf p s st = (st', Ok ins) ->
  redis st' = redis st /\ exts st' = exts st /\
  deciding (p, s) (records st) (mkReservation true ins) st'.
Proof.
  intros Hf. unfold recordReservation. rewrite Hf. cbn [negb]. destruct (recordFault conf); [done|].
  case_bool_decide as Hin; intros [= <- <-]; (split; [done|]; split; [done|]); split_and!; try done.
  intros _. cbn. set_solver.
Qed.

(** The reservation is counted by Postgres and by the recovery. *)
Definition in_ledger (p s : string) st : Prop := is_Some (ledger (outage st) !! mkLedgerEntry entryAdmission p s).

Lemma fallbackCall_spec conf p s reh R0 st st' res : fallback conf = true ->
  R0 ⊆ records st -> records st ⊆ {[(p, s)]} ∪ R0 -> (deleteFault conf <> Some false -> records st = R0) ->
  fallbackCall conf p s reh st = (st', res) ->
  match res with
  | Ok _ => (p, s) ∈ records st' /\ in_ledger p s st'
  | Err _ => err_records conf (p, s) R0 st'
  end.
Proof.
  intros Hf H1 H2 H3. unfold fallbackCall, fallbackReserve, gate_result, gate_records. rewrite Hf. cbn [andb].
  destruct (outageExceeded (maxWindow conf) (nowTime conf) (outage st)) as [c exceeded]. cbn [snd].
  destruct exceeded; cbn [negb].
  { intros [= <- <-]. cbn. split_and!; auto. }
  destruct (gateAnswer conf) as [[count [|]]|[|]] eqn:Eg; cbn; intros [= <- <-]; cbn.
  - split; [set_solver|]. unfold in_ledger, record. cbn. rewrite lookup_insert_eq. eauto.
  - split_and!; auto.
  - split_and!; cbn; [set_solver|set_solver|]. by rewrite Eg.
  - split_and!; auto.
Qed.

Lemma toGate_spec conf p s r reh R0 st st' ins res : fallback conf = true ->
  deciding (p, s) R0 r st -> toGate conf p s r reh st = (st', ins, res) ->
  ins = false /\
  match res with
  | Ok _ => (p, s) ∈ records st' /\ in_ledger p s st'
  | Err _ => err_records conf (p, s) R0 st'
  end.
Proof.
  intros Hf (Hi & Hn & _ & _). unfold toGate. destruct (inserted r) eqn:Er.
  - destruct (Hi eq_refl) as [Hnot Hrec]. pose proof (dropped_records conf p s R0 st Hf Hnot Hrec) as (D1 & D2 & D3 & _).
    destruct (fallbackCall conf p s reh (dropReservation conf p s st)) as [st1 res1] eqn:E.
    intros [= <- <- <-]. split; [done|]. by eapply fallbackCall_spec.
  - specialize (Hn eq_refl). destruct (fallbackCall conf p s reh st) as [st1 res1] eqn:E.
    intros [= <- <- <-]. split; [done|]. eapply fallbackCall_spec; [done|..|exact E]; rewrite Hn; set_solver.
Qed.

(** ** What a script's admission means *)

(** The member is in the set the script left, which is within the cap unless
    the session already held its slot. *)
Definition in_redis (p s : string) (maxc count : Z) st : Prop :=
  exists σ0, slots (redis st) p = {[s]} ∪ slots σ0 p /\ count = wrap32 (Z.of_nat (size (slots (redis st) p))) /\
    (s ∈ slots σ0 p \/ (Z.of_nat (size (slots (redis st) p)) <= maxc)%Z).

Lemma script_admits p s maxc st st1 n : lua_exact maxc -> good st ->
  call (reserveScript (activeSlotsKey p) (rehydratedKey p) s maxc) st = (st1, Ok n) -> (1 <= n)%Z ->
  in_redis p s maxc (wrap32 n) st1.
Proof.
  intros Hm Hg (σ & E & Hok)%call_Ok Hn. specialize (Hok Hg).
  destruct (reserveScript_spec p s maxc σ (Hok p) Hm) as (σ' & n' & E' & _ & _ & Hno & Hyes).
  rewrite E in E'. injection E' as <- <-. exists σ.
  destruct (decide (flagged σ p)) as [Hfl|Hfl]; [|destruct (Hno Hfl) as [-> _]; unfold resultRehydrate in Hn; lia].
  destruct (Hyes Hfl) as (Ha & Hb & Hc). destruct (decide (s ∈ slots σ p)) as [Hin|Hin].
  - destruct (Ha Hin) as [-> ->]. split_and!; [set_solver|done|by left].
  - destruct (Z_lt_le_dec (Z.of_nat (size (slots σ p))) maxc) as [Hlt|Hge].
    + destruct (Hc Hin Hlt) as (-> & -> & ?). split_and!; [done|done|]. right. lia.
    + destruct (Hb Hin Hge) as [-> _]. unfold resultExhausted in Hn. lia.
Qed.

Definition outcome_ok conf (p s : string) (maxc : Z) (R0 : gset (string * string)) st' (ins : bool)
    (res : result CallError (Z * bool)) : Prop :=
  match res with
  | Ok (count, _) => (p, s) ∈ records st' /\ (in_ledger p s st' \/ in_redis p s maxc count st')
  | Err _ => if ins then (p, s) ∉ R0 /\ records st' = {[(p, s)]} ∪ R0 else err_records conf (p, s) R0 st'
  end.

(** A plain error keeps the records of a deciding reservation. *)
Lemma outcome_err conf p s maxc R0 r st e : deciding (p, s) R0 r st ->
  outcome_ok conf p s maxc R0 st (inserted r) (Err e).
Proof.
  intros (Hi & Hn & _). cbn. destruct (inserted r); [by apply Hi|]. apply err_records_same. by apply Hn.
Qed.

Lemma toGate_outcome conf p s maxc r reh R0 st : fallback conf = true -> deciding (p, s) R0 r st ->
  let '(st', ins, res) := toGate conf p s r reh st in outcome_ok conf p s maxc R0 st' ins res.
Proof.
  intros Hf Hd. destruct (toGate conf p s r reh st) as [[st' ins] res] eqn:E.
  apply (toGate_spec conf p s r reh R0) in E as [-> E]; [|done|done].
  destruct res as [[count b]|e]; cbn; [|done]. destruct E. auto.
Qed.

Lemma admitted_outcome conf p s maxc r R0 st st1 err n reh : fallback conf = true -> conf_ok conf ->
  deciding (p, s) R0 r st -> in_redis p s maxc (wrap32 n) st ->
  admitted conf p s r st = (st1, err) ->
  outcome_ok conf p s maxc R0 st1 (inserted r) (match err with Some e => Err e | None => Ok (wrap32 n, reh) end).
Proof.
  intros Hf Hc (Hi & Hn & Hrec & Hri) Hr. unfold admitted. destruct (recorded r).
  { intros [= <- <-]. cbn. auto. }
  specialize (Hri eq_refl). rewrite Hri in *. specialize (Hn eq_refl).
  destruct (recordReservation conf p s st) as [st2 [ins|e]] eqn:E; intros [= <- <-]; cbn.
  - destruct (record_written conf p s st st2 ins Hf E) as (Hred & _ & _ & _ & Hin & _).
    split; [by apply Hin|]. right. unfold in_redis. by rewrite Hred.
  - apply record_failed_err in E. rewrite Hn in E. eapply err_records_step; [|exact E]. by apply release_records.
Qed.

Lemma reserve_loop_outcome conf n p s maxc r reh R0 st : fallback conf = true -> conf_ok conf ->
  lua_exact maxc -> good st -> deciding (p, s) R0 r st ->
  let '(st', ins, res) := reserve_loop conf n p s maxc r reh st in outcome_ok conf p s maxc R0 st' ins res.
Proof.
  intros Hf Hc Hm. revert reh st. induction n as [|n IH]; intros reh st Hg Hd; cbn [reserve_loop].
  { by apply outcome_err. }
  pose proof (call_step (reserveScript (activeSlotsKey p) (rehydratedKey p) s maxc) st (ok_reserve p s maxc Hm))
    as (_ & Hr1 & Hg1). specialize (Hg1 Hg).
  destruct (call _ st) as [st1 [k|e]] eqn:Ecall; cbn [fst] in *;
    pose proof (deciding_records _ _ _ _ _ Hr1 Hd) as Hd1.
  2: { destruct (isRedisUnavailable e); [by apply toGate_outcome|by apply outcome_err]. }
  destruct (Z.leb_spec 1 k) as [Hk|Hk].
  { pose proof (script_admits p s maxc st st1 k Hm Hg Ecall Hk) as Hin.
    destruct (admitted conf p s r st1) as [st2 err] eqn:Ea. by eapply admitted_outcome. }
  destruct (_ =? resultExhausted)%Z; [by apply outcome_err|].
  destruct (_ =? resultRehydrate)%Z; [|by apply outcome_err].
  pose proof (rehydrate_step conf p "" st1 Hc) as (_ & Hr2 & Hg2). specialize (Hg2 Hg1).
  destruct (rehydrate conf p "" st1) as [st2 [did|e]]; cbn [fst] in *;
    pose proof (deciding_records _ _ _ _ _ Hr2 Hd1) as Hd2; [by apply IH|].
  destruct (unavailable e); [by apply toGate_outcome|by apply outcome_err].
Qed.

Lemma reserve_outcome conf p s maxc r R0 st : fallback conf = true -> conf_ok conf ->
  lua_exact maxc -> good st -> deciding (p, s) R0 r st ->
  let '(st', ins, res) := reserve conf p s maxc r st in outcome_ok conf p s maxc R0 st' ins res.
Proof.
  intros Hf Hc Hm Hg Hd. unfold reserve. destruct (needsRebuild (outage st)).
  - destruct (rebuild_step conf st) as [Hr Hg1]. destruct (rebuild conf st) as [st1 [u|e]]; cbn [fst] in *;
      pose proof (deciding_records _ _ _ _ _ Hr Hd) as Hd1.
    + by apply reserve_loop_outcome; auto.
    + destruct (unavailable e); [by apply toGate_outcome|by apply outcome_err].
  - by apply reserve_loop_outcome.
Qed.

(** C29. Every reservation is accounted for on both sides.  With the Postgres
    fallback wired, whatever the other replicas do between two commands and
    whichever commands, replies, writes or cleanups fail, a successful
    [Reserve] leaves the reservation's Postgres record in place, and either
    the member in the Redis set (within the cap, unless the session held its
    slot already, and counted in the reply) or, when the Postgres gate
    admitted it, the ledger entry from which the recovery adds it.  A failed
    [Reserve] loses no record, and leaves none behind unless a failed
    Postgres call wrote its row or a failed deletion did not. *)
Theorem reserve_is_accounted conf p s maxc st : fallback conf = true -> conf_ok conf -> good st ->
  lua_exact maxc ->
  match Reserve conf p s maxc st with
  | (st', Ok (count, _)) => (p, s) ∈ records st' /\ (in_ledger p s st' \/ in_redis p s maxc count st')
  | (st', Err _) => err_records conf (p, s) (records st) st'
  end.
Proof.
  intros Hf Hc Hg Hm. unfold Reserve.
  destruct (is_empty s); [by apply err_records_same|]. destruct (_ <? 1)%Z; [by apply err_records_same|].
  set (first := if negb _ then _ else _).
  assert (match first.2 with
          | Ok r => deciding (p, s) (records st) r first.1 /\ good first.1
          | Err _ => err_records conf (p, s) (records st) first.1
          end) as Hfirst.
  { subst first. destruct (outageKnown (outage st)); cbn; [by split_and!|].
    destruct (recordReservation conf p s st) as [st1 [ins|e]] eqn:E; cbn.
    - destruct (record_written conf p s st st1 ins Hf E) as (H1 & H2 & Hd). split; [done|].
      unfold good. by rewrite H1, H2.
    - by eapply record_failed_err. }
  destruct first as [st1 [r|e]]; cbn [fst snd] in Hfirst; [|done].
  destruct Hfirst as [Hd Hg1]. pose proof (reserve_outcome conf p s maxc r (records st) st1 Hf Hc Hm Hg1 Hd) as Ho. cbn zeta in Ho.
  destruct (reserve conf p s maxc r st1) as [[st2 ins] [[count b]|e]]; cbn in Ho; [done|].
  destruct ins; [|done]. destruct Ho as [Hnot Hrec].
  destruct (dropped_records conf p s (records st) st2 Hf Hnot Hrec) as (D1 & D2 & D3 & _).
  split_and!; [done|done|]. intros Hdel _ _. by apply D3.
Qed.

(** ** What a release leaves *)

Lemma LeakedMember_ne s : LeakedMember s <> s.
Proof. unfold LeakedMember. intros E%(f_equal String.length). rewrite append_length in E. cbn in E. lia. Qed.

(** The session's member is gone, a leak is counted, and [remaining] is the
    occupancy. *)
Definition released (p s : string) (leaked : bool) (remaining : Z) st : Prop :=
  s ∉ slots (redis st) p /\ (leaked = true -> LeakedMember s ∈ slots (redis st) p) /\
  remaining = wrap32 (Z.of_nat (size (slots (redis st) p))).

Lemma script_releases p s leaked st st1 a b : good st ->
  call (releaseScript (activeSlotsKey p) (rehydratedKey p) s leaked) st = (st1, Ok (a, b)) ->
  (a =? resultRehydrate)%Z = false -> released p s leaked (wrap32 b) st1.
Proof.
  intros Hg (σ & E & Hok)%call_Ok Ha. specialize (Hok Hg p).
  destruct (decide (flagged σ p)) as [Hfl|Hfl].
  - destruct (releaseScript_spec p s leaked σ Hok Hfl) as (σ' & _ & _ & Hm & E'). rewrite E in E'.
    injection E' as <- -> ->. unfold released. rewrite Hm. pose proof (LeakedMember_ne s) as Hne.
    split_and!; [destruct leaked; set_solver|intros Hl; rewrite Hl; set_solver|done].
  - unfold releaseScript, sbind, sread in E. rewrite EXISTS_law, bool_decide_eq_false_2 in E by done.
    cbn in E. by injection E as _ <- _.
Qed.

Lemma release_loop_outcome conf n p s leaked reh st : conf_ok conf -> good st ->
  match release_loop conf n p s leaked reh st with
  | (st', Ok (_, remaining, _)) => released p s leaked remaining st'
  | _ => True
  end.
Proof.
  intros Hc. revert reh st. induction n as [|n IH]; intros reh st Hg; cbn [release_loop]; [done|].
  pose proof (call_step (releaseScript (activeSlotsKey p) (rehydratedKey p) s leaked) st (ok_release p s leaked))
    as (_ & _ & Hg1). specialize (Hg1 Hg).
  destruct (call _ st) as [st1 [[a b]|e]] eqn:E; cbn [fst] in *; [|done].
  destruct (a =? resultRehydrate)%Z eqn:Ea; cbn [negb]; [|exact (script_releases p s leaked st st1 a b Hg E Ea)].
  pose proof (rehydrate_step conf p s st1 Hc) as (_ & _ & Hg2). specialize (Hg2 Hg1).
  destruct (rehydrate conf p s st1) as [st2 [did|e]]; cbn [fst] in *; [by apply IH|done].
Qed.

Lemma release_outcome conf p s leaked st : conf_ok conf -> good st ->
  match release conf p s leaked st with
  | (st', Ok (_, remaining, _)) => released p s leaked remaining st'
  | _ => True
  end.
Proof.
  intros Hc Hg. unfold release. destruct (needsRebuild (outage st)); [|by apply release_loop_outcome].
  destruct (rebuild_step conf st) as [_ Hg1]. specialize (Hg1 Hg).
  destruct (rebuild conf st) as [st1 [u|e]]; cbn [fst] in *; [by apply release_loop_outcome|done].
Qed.

(** The record after a release: kept by a leaked one, deleted by a clean one
    unless the deletion failed, and no other is touched. *)
Definition release_record conf (ps : string * string) (leaked : bool) st st' : Prop :=
  if leaked then records st' = records st
  else records st' ⊆ records st /\ records st ⊆ {[ps]} ∪ records st' /\
       (fallback conf = true -> deleteFault conf <> Some false -> ps ∉ records st').

Lemma drop_release_record conf p s st :
  release_record conf (p, s) false st (dropReservation conf p s st) /\
  redis (dropReservation conf p s st) = redis st /\ outage (dropReservation conf p s st) = outage st.
Proof.
  unfold dropReservation, release_record. destruct (fallback conf); cbn [negb].
  - assert (records st ⊆ {[(p, s)]} ∪ records st ∖ {[(p, s)]}) as Hsub.
    { intros x Hx. destruct (decide (x = (p, s))); set_solver. }
    destruct (deleteFault conf) as [[|]|]; cbn; split_and!; try done; set_solver.
  - split_and!; try done. set_solver.
Qed.

Lemma stampOutage_starts now c : now <> 0%Z -> outageSince (stampOutage now c) <> 0%Z.
Proof. intros Hn. unfold stampOutage, time_is_zero. by destruct (Z.eqb_spec (outageSince c) 0). Qed.

Lemma stampOutage_ledger now c : ledger (stampOutage now c) = ledger c.
Proof. unfold stampOutage. by destruct (time_is_zero _). Qed.

(** Every release is accounted for.  Whatever the other replicas do
    between two commands and whichever commands, replies or deletions fail: a
    successful [Release] leaves the session's member out of the set and
    reports the occupancy; a leaked one leaves the leaked member in the set
    or, when it fails for any reason, the ledger entry from which the recovery
    adds it, and keeps the Postgres record; a clean one deletes the record
    even when Redis failed; a failure that means Redis is unreachable starts
    the outage clock. *)
Theorem release_is_accounted conf p s leaked st : conf_ok conf -> good st -> s <> "" ->
  nowTime conf <> 0%Z ->
  let '(st', res) := Release conf p s leaked st in
  release_record conf (p, s) leaked st st' /\
  match res with
  | Ok (_, remaining, _) => released p s leaked remaining st'
  | Err e => (leaked = true -> is_Some (ledger (outage st') !! mkLedgerEntry entryLeaked p s)) /\
             (unavailable e = true -> outageSince (outage st') <> 0%Z)
  end.
Proof.
  intros Hc Hg Hs Hnow. unfold Release. rewrite is_empty_false by done.
  pose proof (release_outcome conf p s leaked st Hc Hg) as Ho.
  pose proof (release_records conf p s leaked st Hc) as Hr.
  destruct (release conf p s leaked st) as [st1 res]. cbn [fst] in Hr. cbv zeta.
  destruct (drop_release_record conf p s st1) as (Hd & Hred & Hout).
  unfold release_record in *. rewrite <- Hr.
  destruct leaked; cbn [negb]; destruct res as [[[rm rem] reh]|[reh e]].
  - done.
  - split; [by destruct (unavailable e)|]. destruct (unavailable e); cbn; (split; [intros _|intros ?; try done]).
    + rewrite stampOutage_ledger. cbn. rewrite lookup_insert_eq. eauto.
    + by apply stampOutage_starts.
    + rewrite lookup_insert_eq. eauto.
  - split; [exact Hd|]. unfold released in *. by rewrite Hred.
  - split; [by destruct (unavailable e)|]. split; [done|]. intros ->. cbn. by apply stampOutage_starts.
Qed.

End Frames.

(** ** Witnesses *)

(** Redis drops the connection under the script, and the gate admits. *)
Definition example_conf : Conf :=
  mkConf None (Ok []) true None None (Ok (1%Z, true)) (Ok "t") 2000 [] 1700000000000000000 60000000000
    (fun _ => Delivered) (fun _ => []) (plainError "").

Definition example_call : CState (Σ := gmap string rentry) :=
  mkCState example_slots (mkOutage 0 ∅ 0) ∅
    [mkExt (fun σ => σ) (Lost (mkGoError false false false false false false false true false "EOF"))].

Lemma example_good : good example_call.
Proof.
  split.
  - intros p. unfold slots_ok. cbn. unfold setlike, example_slots. destruct (_ !! _) as [e|] eqn:E; [|exact I].
    apply lookup_insert_Some in E as [[_ <-]|[_ E]]; [exact I|].
    apply lookup_singleton_Some in E as [E _]. destruct (slots_flag_ne p "p1"). symmetry. exact E.
  - repeat constructor. intros σ Hσ. exact Hσ.
Qed.

Lemma reserve_is_accounted_witness :
  (Reserve example_conf "p1" "s3" 5 example_call).2 = Ok (1%Z, false) /\
  ("p1", "s3") ∈ records (Reserve example_conf "p1" "s3" 5 example_call).1.
Proof.
  pose proof (reserve_is_accounted example_conf "p1" "s3" 5 example_call) as Hr.
  assert ((Reserve example_conf "p1" "s3" 5 example_call).2 = Ok (1%Z, false)) as E by (vm_compute; reflexivity).
  split; [exact E|].
  destruct (Reserve example_conf "p1" "s3" 5 example_call) as [st' res]. cbn in E. subst res.
  apply Hr; [reflexivity|reflexivity| |unfold lua_exact; lia].
  exact example_good.
Defined.

Lemma release_is_accounted_witness :
  is_Some (ledger (outage (Release example_conf "p1" "s1" true example_call).1)
             !! mkLedgerEntry entryLeaked "p1" "s1").
Proof.
  pose proof (release_is_accounted example_conf "p1" "s1" true example_call) as Hr.
  assert (exists e, (Release example_conf "p1" "s1" true example_call).2 = Err e) as [e E]
    by (eexists; vm_compute; reflexivity).
  destruct (Release example_conf "p1" "s1" true example_call) as [st' res]. cbn in E. subst res.
  destruct Hr as (_ & Hl & _); [reflexivity|exact example_good|discriminate|discriminate|].
  exact (Hl eq_refl).
Defined.
