(* ===== verification/Upgrade.v ===== *)
(** * Upgrades

    [RuntimeUpgrade] is the pauseable rollout of a runtime image for one pool
    ([pkg/runtime/upgrade/state]); [PlatformUpgrade] is the phase sequence of
    a platform upgrade with its rollback rule ([pkg/upgrade]). *)

From S2P Require Import Prelude StateMachine.
From stdpp Require Import relations.

Module RuntimeUpgrade.

Definition Pending : State := "pending".
Definition Expanding : State := "expanding".
Definition Draining : State := "draining".
Definition Contracting : State := "contracting".
Definition Complete : State := "complete".
Definition Paused : State := "paused".

Definition All : list State := [Pending; Expanding; Draining; Contracting; Complete; Paused].
Definition Terminal : list State := [Complete].
Definition IsTerminal (s : State) : bool := bool_decide (s = Complete).

Definition ValidTransitions : list Transition :=
  [ mkTransition Pending Expanding;
    mkTransition Expanding Draining;
    mkTransition Draining Contracting;
    mkTransition Contracting Complete;
    mkTransition Pending Paused;
    mkTransition Expanding Paused;
    mkTransition Draining Paused;
    mkTransition Contracting Paused ].

#[export, refine] Instance upgrade_table : TransitionTable :=
  {| all_states := All; valid_transitions := ValidTransitions |}.
Proof.
  apply (bool_decide_unpack (Forall (fun t => From t ∈ All /\ To t ∈ All) ValidTransitions)).
  vm_compute. exact I.
Defined.

Definition IsValid : State -> State -> result InvalidTransitionError unit :=
  StateMachine.IsValid upgrade_table.

Record Record_ := mkRecord { current : State; priorPaused : State }.

Inductive UpgradeError :=
| errUsePause
| ErrAlreadyPaused
| ErrNotPaused
| ErrCannotPauseTerminal
| ErrCurrentlyPaused
| errInvalid (e : InvalidTransitionError)
| errUnknownState
| errBadPrior
| errPriorNotEmpty.

Definition isKnown (s : State) : bool := existsb (fun x => bool_decide (s = x)) All.

Definition NewRecord : Record_ := mkRecord Pending "".

Definition NewRecordAt (s priorIfPaused : State) : result UpgradeError Record_ :=
  if negb (isKnown s) then Err errUnknownState
  else if bool_decide (s = Paused) then
    if negb (isKnown priorIfPaused) || bool_decide (priorIfPaused = Paused)
       || bool_decide (priorIfPaused = Complete)
    then Err errBadPrior
    else Ok (mkRecord Paused priorIfPaused)
  else if negb (is_empty priorIfPaused) then Err errPriorNotEmpty
  else Ok (mkRecord s "").

Definition Current (r : Record_) : State := current r.

Definition PriorPaused (r : Record_) : State :=
  if negb (bool_decide (current r = Paused)) then "" else priorPaused r.

Definition RecordTransition (to : State) (r : Record_) : result UpgradeError Record_ :=
  if bool_decide (to = Paused) then Err errUsePause
  else if bool_decide (current r = Paused) then Err ErrCurrentlyPaused
  else match IsValid (current r) to with
       | Err e => Err (errInvalid e)
       | Ok _ => Ok (mkRecord to (priorPaused r))
       end.

Definition Pause (r : Record_) : result UpgradeError Record_ :=
  if bool_decide (current r = Paused) then Err ErrAlreadyPaused
  else if bool_decide (current r = Complete) then Err ErrCannotPauseTerminal
  else match IsValid (current r) Paused with
       | Err e => Err (errInvalid e)
       | Ok _ => Ok (mkRecord Paused (current r))
       end.

Definition Resume (r : Record_) : result UpgradeError Record_ :=
  if negb (bool_decide (current r = Paused)) then Err ErrNotPaused
  else Ok (mkRecord (priorPaused r) "").

(** ** Runs *)

Inductive op := OpTransition (to : State) | OpPause | OpResume.

Definition try_op (o : op) (r : Record_) : result UpgradeError Record_ :=
  match o with
  | OpTransition to => RecordTransition to r
  | OpPause => Pause r
  | OpResume => Resume r
  end.

(** A rejected call leaves the record as it was. *)
Definition apply_op (r : Record_) (o : op) : Record_ :=
  match try_op o r with Ok r' => r' | Err _ => r end.

Definition run (l : list op) (r : Record_) : Record_ := foldl apply_op r l.

(** The working phases in rollout order. *)
Definition working : list State := [Pending; Expanding; Draining; Contracting].

(** Position of a phase in the rollout; a paused record is where it paused. *)
Definition rank (s : State) : Z :=
  if bool_decide (s = Pending) then 0 else if bool_decide (s = Expanding) then 1
  else if bool_decide (s = Draining) then 2 else if bool_decide (s = Contracting) then 3
  else if bool_decide (s = Complete) then 4 else (-1)%Z.

Definition progress (r : Record_) : Z :=
  rank (if bool_decide (current r = Paused) then priorPaused r else current r).

Definition record_wf (r : Record_) : Prop :=
  (current r = Paused /\ priorPaused r ∈ working) \/
  ((current r ∈ working \/ current r = Complete) /\ priorPaused r = "").

Lemma IsValid_edges from to :
  IsValid from to = Ok tt -> mkTransition from to ∈ ValidTransitions.
Proof. exact (proj1 (IsValid_Ok upgrade_table from to)). Qed.

Lemma edges_rank from to :
  IsValid from to = Ok tt -> to <> Paused ->
  rank to = (rank from + 1)%Z /\ from ∈ working /\ (to ∈ working \/ to = Complete).
Proof.
  intros Hv%IsValid_edges Hp. unfold ValidTransitions in Hv.
  repeat (apply elem_of_cons in Hv as [[= -> ->]|Hv];
    [first [done | unfold working; split_and!; [reflexivity|set_solver|set_solver]]|]).
  by apply elem_of_nil in Hv.
Qed.

Lemma IsValid_Paused s : s ∈ working -> IsValid s Paused = Ok tt.
Proof.
  intros Hs. unfold working in Hs. rewrite !elem_of_cons, elem_of_nil in Hs.
  destruct Hs as [->|[->|[->|[->|[]]]]]; vm_compute; reflexivity.
Qed.

Lemma working_cases s : s ∈ working -> s <> Paused /\ s <> Complete /\ isKnown s = true.
Proof.
  intros Hs. unfold working in Hs. rewrite !elem_of_cons, elem_of_nil in Hs.
  destruct Hs as [->|[->|[->|[->|[]]]]]; split_and!; done.
Qed.

Lemma try_op_wf o r r' :
  record_wf r -> try_op o r = Ok r' ->
  record_wf r' /\ (progress r <= progress r' <= progress r + 1)%Z.
Proof.
  intros Hwf. destruct o as [to| |]; simpl.
  - unfold RecordTransition. case_bool_decide as Hto; [done|]. case_bool_decide as Hc; [done|].
    destruct (IsValid (current r) to) as [[]|] eqn:Hv; [|done]. intros [= <-].
    destruct (edges_rank _ _ Hv Hto) as (Hr & _ & Ht). destruct Hwf as [[? _]|[_ Hp]]; [done|].
    split; [right; done|]. unfold progress. simpl.
    rewrite (bool_decide_eq_false_2 (to = Paused)), (bool_decide_eq_false_2 (current r = Paused)) by done.
    lia.
  - unfold Pause. case_bool_decide as Hc; [done|]. case_bool_decide as Hd; [done|].
    destruct (IsValid (current r) Paused) as [[]|] eqn:Hv; [|done]. intros [= <-].
    destruct Hwf as [[? _]|[[Hw|?] Hp]]; [done| |done]. split; [left; done|].
    unfold progress. simpl. rewrite (bool_decide_eq_false_2 (current r = Paused)) by done. lia.
  - unfold Resume. case_bool_decide as Hc; [|done]. simpl. intros [= <-].
    destruct Hwf as [[_ Hw]|[[Hw|Hcc] _]].
    + split; [right; simpl; tauto|]. unfold progress. simpl.
      rewrite (bool_decide_eq_true_2 _ Hc), bool_decide_eq_false_2 by (by apply working_cases). lia.
    + by destruct (working_cases _ Hw).
    + by rewrite Hcc in Hc.
Qed.

Lemma apply_op_wf r o :
  record_wf r -> record_wf (apply_op r o) /\ (progress r <= progress (apply_op r o) <= progress r + 1)%Z.
Proof.
  intros Hwf. unfold apply_op. destruct (try_op o r) as [r'|] eqn:E; [by eapply try_op_wf|].
  split; [done|lia].
Qed.

Lemma run_wf l r : record_wf r -> record_wf (run l r) /\ (progress r <= progress (run l r))%Z.
Proof.
  revert r. induction l as [|o l IH]; intros r Hwf; [split; [done|simpl; lia]|].
  destruct (apply_op_wf r o Hwf) as [Hwf' Hp]. destruct (IH _ Hwf') as [Hwf2 Hp2].
  split; [done|]. simpl. unfold run in *. simpl. lia.
Qed.

(** The rollout record, after any sequence of calls: it is in a known
    phase, a paused record remembers a resumable phase and no other record
    remembers one; the rollout never goes back and no call skips a phase;
    pausing and resuming restores the record exactly; and persisting and
    reloading it through [NewRecordAt] gives it back. *)
Theorem rollout_record_invariant (l : list op) (o : op) :
  let r := run l NewRecord in
  record_wf r /\
  (progress r <= progress (apply_op r o) <= progress r + 1)%Z /\
  (forall r', Pause r = Ok r' -> Resume r' = Ok r) /\
  NewRecordAt (Current r) (PriorPaused r) = Ok r.
Proof.
  cbv zeta. destruct (run_wf l NewRecord) as [Hwf _].
  { right. split; [left; unfold working; set_solver|done]. }
  generalize dependent (run l NewRecord). intros r Hwf.
  split_and!; [done|by apply apply_op_wf..| |].
  - intros r'. unfold Pause. case_bool_decide as Hc; [done|]. case_bool_decide; [done|].
    destruct (IsValid _ _); [|done]. intros [= <-]. unfold Resume. simpl. f_equal.
    destruct Hwf as [[? _]|[_ Hp]]; [done|]. destruct r as [c p]. simpl in *. by subst.
  - unfold NewRecordAt, Current, PriorPaused. destruct r as [c p].
    unfold record_wf in Hwf. simpl in *. destruct Hwf as [[-> Hw]|[Hc ->]]; simpl in *.
    + destruct (working_cases _ Hw) as (Hp & Hcc & Hk). rewrite Hk. simpl.
      by rewrite (bool_decide_eq_false_2 _ Hp), (bool_decide_eq_false_2 _ Hcc).
    + assert (c <> Paused /\ isKnown c = true) as [Hne Hk].
      { destruct Hc as [Hw|Hcc]; [split; by apply working_cases|]. simpl in Hcc. by subst. }
      rewrite Hk, (bool_decide_eq_false_2 _ Hne). done.
Qed.
End RuntimeUpgrade.

Module PlatformUpgrade.

Definition Preflight : State := "Preflight".
Definition OpsRoll : State := "OpsRoll".
Definition CRDUpdate : State := "CRDUpdate".
Definition SchemaMigration : State := "SchemaMigration".
Definition GatewayRoll : State := "GatewayRoll".
Definition ControllerRoll : State := "ControllerRoll".
Definition Verification : State := "Verification".
Definition Complete : State := "Complete".
Definition RolledBack : State := "RolledBack".

Definition TotalSteps : Z := 7.

Definition sequence : list State :=
  [Preflight; OpsRoll; CRDUpdate; SchemaMigration; GatewayRoll; ControllerRoll; Verification; Complete].

Inductive PhaseError := errFinal | errTerminal | errUnknownPhase | errNoRollback.

(** The range loop over [sequence] returns at the first match. *)
Fixpoint next_in (seq : list State) (p : State) : option (result PhaseError State) :=
  match seq with
  | [] => None
  | q :: rest =>
      if bool_decide (q = p) then
        Some (match rest with n :: _ => Ok n | [] => Err errFinal end)
      else next_in rest p
  end.

Definition Next (p : State) : result PhaseError State :=
  match next_in sequence p with
  | Some r => r
  | None => if bool_decide (p = RolledBack) then Err errTerminal else Err errUnknownPhase
  end.

Definition CanRollBack (p : State) : bool :=
  bool_decide (p = Preflight) || bool_decide (p = OpsRoll) || bool_decide (p = CRDUpdate).

Definition Rollback (p : State) : result PhaseError State :=
  if negb (CanRollBack p) then Err errNoRollback else Ok RolledBack.

Definition IsTerminal (p : State) : bool :=
  bool_decide (p = Complete) || bool_decide (p = RolledBack).

Fixpoint step_in (i : Z) (seq : list State) (p : State) : Z * bool :=
  match seq with
  | [] => (0%Z, false)
  | q :: rest => if bool_decide (q = p) then ((i + 1)%Z, true) else step_in (i + 1) rest p
  end.

Definition StepNumber (p : State) : Z * bool :=
  if bool_decide (p = Complete) || bool_decide (p = RolledBack) then (0%Z, false)
  else step_in 0 sequence p.

(** The event an emitter receives: pool, old and new phase, digest, severity. *)
Record Progressed := mkProgressed {
  evPool : string; oldPhase : State; newPhase : State; imageDigest : string; severity : string
}.

(** [em] is whether an emitter is wired; the result lists what it was given. *)
Definition emitProgressed (em : bool) (pool : string) (old new : State) (digest : string)
    : list Progressed :=
  if negb em then []
  else [mkProgressed pool old new digest
          (if bool_decide (new = RolledBack) then "warning" else "info")].

Definition Advance (em : bool) (pool : string) (cur : State) (digest : string)
    : list Progressed * result PhaseError State :=
  match Next cur with
  | Err e => ([], Err e)
  | Ok next => (emitProgressed em pool cur next digest, Ok next)
  end.

Definition AdvanceRollback (em : bool) (pool : string) (cur : State) (digest : string)
    : list Progressed * result PhaseError State :=
  match Rollback cur with
  | Err e => ([], Err e)
  | Ok next => (emitProgressed em pool cur next digest, Ok next)
  end.

(** ** Runs *)

(** One accepted call of the orchestrator. *)
Inductive phase_step : State -> State -> Prop :=
| ps_advance em pool p d evs p' : Advance em pool p d = (evs, Ok p') -> phase_step p p'
| ps_rollback em pool p d evs p' : AdvanceRollback em pool p d = (evs, Ok p') -> phase_step p p'.

Definition committed : list State :=
  [SchemaMigration; GatewayRoll; ControllerRoll; Verification; Complete].

Lemma Next_Ok p p' : Next p = Ok p' <-> (p, p') ∈ zip sequence (tail sequence).
Proof.
  unfold Next, sequence. simpl. rewrite !elem_of_cons, elem_of_nil.
  repeat case_bool_decide; subst; split; intros Hp;
    first [injection Hp as <-; tauto | discriminate
          | repeat destruct Hp as [Hp|Hp]; by simplify_eq].
Qed.

Lemma phase_step_iff p p' :
  phase_step p p' <-> Next p = Ok p' \/ (CanRollBack p = true /\ p' = RolledBack).
Proof.
  split.
  - intros [em pool q d evs q' E|em pool q d evs q' E]; revert E; unfold Advance, AdvanceRollback, Rollback.
    + destruct (Next q); intros [= _ <-]. by left.
    + destruct (CanRollBack q); intros [= _ <-]. by right.
  - intros [Hn|[Hr ->]].
    + apply (ps_advance false "" p "" []). unfold Advance. by rewrite Hn.
    + apply (ps_rollback false "" p "" []). unfold AdvanceRollback, Rollback. by rewrite Hr.
Qed.

Lemma committed_step p p' : p ∈ committed -> phase_step p p' -> p' ∈ committed.
Proof.
  intros Hp [Hn|[Hr ->]]%phase_step_iff.
  - apply Next_Ok in Hn. unfold committed, sequence in *. simpl in Hn. set_solver.
  - exfalso. unfold committed in Hp. rewrite !elem_of_cons, elem_of_nil in Hp.
    destruct Hp as [->|[->|[->|[->|[->|[]]]]]]; discriminate.
Qed.

Lemma committed_rtc p p' : rtc phase_step p p' -> p ∈ committed -> p' ∈ committed.
Proof. induction 1 as [|? ? ? Hst _ IH]; [done|]. intros Hp. by eapply IH, committed_step. Qed.

Fixpoint advance_n (n : nat) (p : State) : result PhaseError State :=
  match n with
  | O => Ok p
  | S n => match Next p with Ok q => advance_n n q | Err e => Err e end
  end.

(** Platform upgrades: once the schema migration has started no sequence
    of accepted calls leads to a rollback; advancing from preflight passes
    the working phases as progress steps 1 to [TotalSteps] in order and
    completes after exactly that many advances; nothing leaves a terminal
    phase; and each accepted advance emits exactly one event, a rollback one
    of severity warning. *)
Theorem platform_upgrade_sequence (p q pool digest : string) :
  (p ∈ committed -> rtc phase_step p q -> q <> RolledBack) /\
  (forall k, k < 7 -> exists ph, advance_n k Preflight = Ok ph /\
                      StepNumber ph = (Z.of_nat k + 1, true)%Z) /\
  advance_n (Z.to_nat TotalSteps) Preflight = Ok Complete /\
  (IsTerminal p = true -> ~ phase_step p q) /\
  (Next p = Ok q -> Advance true pool p digest =
     ([mkProgressed pool p q digest "info"], Ok q)) /\
  (CanRollBack p = true -> AdvanceRollback true pool p digest =
     ([mkProgressed pool p RolledBack digest "warning"], Ok RolledBack)).
Proof.
  split_and!.
  - intros Hp Hr. pose proof (committed_rtc _ _ Hr Hp) as Hq. intros ->.
    unfold committed in Hq. set_solver.
  - intros k Hk. do 7 (destruct k as [|k]; [eexists; split; vm_compute; reflexivity|]). lia.
  - reflexivity.
  - intros Ht [Hn|[Hr ->]]%phase_step_iff; unfold IsTerminal in Ht; simplify_bool;
      destruct Ht as [Ht|Ht]; apply bool_decide_eq_true in Ht; subst; discriminate.
  - intros Hn. unfold Advance. rewrite Hn. unfold emitProgressed. simpl.
    rewrite bool_decide_eq_false_2; [done|]. intros ->. apply Next_Ok in Hn.
    unfold sequence in Hn. simpl in Hn. set_solver.
  - intros Hr. unfold AdvanceRollback, Rollback. by rewrite Hr.
Qed.
End PlatformUpgrade.
