(* ===== verification/EventBuffer.v ===== *)
(** * The operational event buffer ([pkg/gateway/eventbuffer/buffer.go])

    A ring of the last [cap] events with monotonic ids used as polling
    cursors.  The specification is the list of all events ever appended; the
    theorems say that a query of the ring answers what a query of that list
    restricted to its last [cap] entries answers. *)

From S2P Require Import Prelude.
From stdpp Require Import list_numbers.

Definition DefaultBufferCapacity : Z := 500.

Section Buffer.
(** The event, its CloudEvents id and time; [matches] is a filter. *)
Context {E : Type} (zeroE : E) (evID : E -> string) (evTime : E -> Time).

Record BufferedEvent := mkBuffered { ID : Z; Event : E }.

Record EventBuffer := mkBuffer { cap : Z; ring : list BufferedEvent; head : Z }.

Definition zero_entry : BufferedEvent := mkBuffered 0 zeroE.

Definition NewEventBuffer (capacity : Z) : EventBuffer :=
  let capacity := if (capacity <=? 0)%Z then DefaultBufferCapacity else capacity in
  mkBuffer capacity (replicate (Z.to_nat capacity) zero_entry) 0.

(** [b.ring[id%b.cap]]; the index is in range, the ring has [cap] slots. *)
Definition slot (b : EventBuffer) (id : Z) : nat := Z.to_nat (id mod cap b).
Definition at_id (b : EventBuffer) (id : Z) : BufferedEvent :=
  default zero_entry (ring b !! slot b id).

(** The new buffer, the id assigned and the length the gauge is set to. *)
Definition Append (e : E) (b : EventBuffer) : EventBuffer * Z * Z :=
  let id := wrap_u64 (head b + 1) in
  let b' := mkBuffer (cap b) (<[slot b id := mkBuffered id e]> (ring b)) id in
  (b', id, if (cap b <? id)%Z then cap b else id).

Definition oldestID (b : EventBuffer) : Z :=
  if (head b =? 0)%Z then 0%Z
  else if (head b <=? cap b)%Z then 1%Z
  else wrap_u64 (head b - cap b + 1).

Record Page := mkPage {
  Events : list BufferedEvent;
  Cursor : Z;
  Limit : Z;
  HeadCursor : Z;
  GapDetected : bool;
  OldestAvailableCursor : Z;
  HasMore : bool;
  BufferAge : option Duration
}.

(** The ids a loop [for id := start; id <= head; id++] visits. *)
Definition ids_from (start head : Z) : list Z := seqZ start (head - start + 1).

(** The collecting loop: entries, last cursor, has-more. *)
Fixpoint query_loop (matches : E -> bool) (limit : Z) (b : EventBuffer) (ids : list Z)
    (acc : list BufferedEvent) (cursor : Z) : list BufferedEvent * Z * bool :=
  match ids with
  | [] => (acc, cursor, false)
  | id :: ids =>
      let entry := at_id b id in
      if negb (ID entry =? id)%Z then query_loop matches limit b ids acc cursor
      else if negb (matches (Event entry)) then query_loop matches limit b ids acc cursor
      else
        let acc := acc ++ [entry] in
        if (limit <=? Z.of_nat (length acc))%Z then (acc, id, (id <? head b)%Z)
        else query_loop matches limit b ids acc id
  end.

Definition Query (now : Time) (since : Z) (matches : E -> bool) (limit : Z) (b : EventBuffer) : Page :=
  let limit := if (limit <=? 0)%Z then 100%Z else limit in
  if (head b =? 0)%Z then mkPage [] since limit 0 false 0 false None
  else
    let oldest := oldestID b in
    let gap := (wrap_u64 (since + 1) <? oldest)%Z in
    let start := wrap_u64 (since + 1) in
    let start := if (start <? oldest)%Z then oldest else start in
    let '(evs, cursor, more) := query_loop matches limit b (ids_from start (head b)) [] since in
    mkPage evs cursor limit (head b) gap (if gap then oldest else 0%Z) more
      (Some (time_sub now (evTime (Event (at_id b oldest))))).

Fixpoint lookup_loop (key : string) (b : EventBuffer) (ids : list Z) : Z * bool :=
  match ids with
  | [] => (0%Z, false)
  | id :: ids =>
      let entry := at_id b id in
      if (ID entry =? id)%Z && bool_decide (evID (Event entry) = key) then (id, true)
      else lookup_loop key b ids
  end.

Definition Lookup (key : string) (b : EventBuffer) : Z * bool :=
  if is_empty key then (0%Z, false)
  else lookup_loop key b (ids_from (oldestID b) (head b)).

Definition Bounds (b : EventBuffer) : Z * Z * string * string * bool :=
  if (head b =? 0)%Z then (0%Z, 0%Z, "", "", false)
  else (oldestID b, head b, evID (Event (at_id b (oldestID b))), evID (Event (at_id b (head b))), true).

(** ** Specification: the log of all appended events *)

Definition append_all (log : list E) (b : EventBuffer) : EventBuffer :=
  foldl (fun b e => (Append e b).1.1) b log.

(** The log entry with id [id], as it was buffered. *)
Definition log_entry (log : list E) (id : Z) : option BufferedEvent :=
  mkBuffered id <$> (if (id <=? 0)%Z then None else log !! Z.to_nat (id - 1)).

Definition oldest_spec (c : Z) (log : list E) : Z := Z.max 1 (Z.of_nat (length log) - c + 1).

(** The buffer holds exactly the last [cap] entries of the log. *)
Record represents (b : EventBuffer) (log : list E) : Prop := mkRep {
  rep_cap : (0 < cap b)%Z;
  rep_ring : length (ring b) = Z.to_nat (cap b);
  rep_head : head b = Z.of_nat (length log);
  rep_small : (Z.of_nat (length log) < two64)%Z;
  rep_entries : forall id, (oldest_spec (cap b) log <= id <= head b)%Z ->
    log_entry log id = Some (at_id b id)
}.

Lemma slot_inj b i j :
  (0 < cap b)%Z -> slot b i = slot b j -> (Z.abs (i - j) < cap b)%Z -> i = j.
Proof.
  intros Hc Hs Hd. unfold slot in Hs.
  pose proof (Z.mod_pos_bound i (cap b) Hc). pose proof (Z.mod_pos_bound j (cap b) Hc).
  apply Z2Nat.inj in Hs as Hm; [|tauto..].
  pose proof (Z.div_mod i (cap b)) as Hi. pose proof (Z.div_mod j (cap b)) as Hj.
  rewrite Hm in Hi. assert (i - j = cap b * (i / cap b - j / cap b))%Z as Hij by lia.
  assert (i / cap b - j / cap b = 0)%Z as Hz by nia. rewrite Hz in Hij. lia.
Qed.

Lemma slot_bound b id : (0 < cap b)%Z -> slot b id < Z.to_nat (cap b).
Proof. intros Hc. unfold slot. pose proof (Z.mod_pos_bound id (cap b) Hc). lia. Qed.

Lemma represents_new c : represents (NewEventBuffer c) [].
Proof.
  unfold NewEventBuffer. constructor; simpl.
  - destruct (c <=? 0)%Z eqn:Hc; simplify_bool; [reflexivity|lia].
  - apply length_replicate.
  - done.
  - done.
  - unfold oldest_spec. simpl. lia.
Qed.

Lemma log_entry_snoc log e id :
  log_entry (log ++ [e]) id =
  if decide (id = Z.of_nat (length log) + 1)%Z then Some (mkBuffered id e) else
  if decide (id <= Z.of_nat (length log))%Z then log_entry log id else None.
Proof.
  unfold log_entry. destruct (id <=? 0)%Z eqn:Hz; simplify_bool.
  { rewrite decide_False by lia. by case_decide. }
  case_decide as Heq; [|case_decide].
  - rewrite lookup_app_r by lia. replace (_ - _) with 0 by lia. done.
  - by rewrite lookup_app_l by lia.
  - rewrite lookup_app_r by lia. destruct (Z.to_nat (id - 1) - length log) as [|k] eqn:Hk; [lia|]. done.
Qed.

Lemma represents_append b log e :
  represents b log -> (Z.of_nat (length log) + 1 < two64)%Z ->
  represents (Append e b).1.1 (log ++ [e]) /\ (Append e b).1.2 = (Z.of_nat (length log) + 1)%Z.
Proof.
  intros [Hc Hr Hh Hs He] Hw. unfold Append. simpl. rewrite Hh, wrap_u64_id by (unfold_int64; lia).
  split; [|done]. set (n := (Z.of_nat (length log) + 1)%Z).
  constructor; simpl; [done|by rewrite length_insert|rewrite length_app; simpl; lia
                      |rewrite length_app; simpl; lia|].
  intros id Hid. unfold oldest_spec in *. rewrite length_app in Hid. simpl in Hid.
  rewrite log_entry_snoc. unfold at_id. simpl. unfold slot in *. simpl.
  change (Z.to_nat (id mod cap b)) with (slot b id). change (Z.to_nat (n mod cap b)) with (slot b n).
  case_decide as Heq.
  - fold n in Heq. subst id. rewrite list_lookup_insert_eq; [done|]. rewrite Hr. by apply slot_bound.
  - rewrite decide_True by lia. rewrite list_lookup_insert_ne.
    + apply He. lia.
    + intros Hsl. apply Heq. fold n. symmetry. apply (slot_inj b n id Hc Hsl). lia.
Qed.

Lemma represents_append_all b log l :
  represents b log -> (Z.of_nat (length (log ++ l)) < two64)%Z ->
  represents (append_all l b) (log ++ l).
Proof.
  revert b log. induction l as [|e l IH]; intros b log Hb Hw; simpl.
  { by rewrite app_nil_r. }
  rewrite length_app in Hw. simpl in Hw.
  destruct (represents_append b log e Hb) as [Hb' _]; [lia|].
  specialize (IH _ _ Hb'). rewrite <- app_assoc in IH. apply IH. rewrite length_app. simpl. lia.
Qed.

(** ** Queries *)

(** The retained log entries with an id above [since]. *)
Definition retained (c since : Z) (log : list E) : list BufferedEvent :=
  omap (log_entry log) (ids_from (Z.max (since + 1) (oldest_spec c log)) (Z.of_nat (length log))).

Definition matching (matches : E -> bool) (l : list BufferedEvent) : list BufferedEvent :=
  filter (fun e => matches (Event e) = true) l.

Lemma at_id_ID b log id :
  represents b log -> (oldest_spec (cap b) log <= id <= head b)%Z -> ID (at_id b id) = id.
Proof.
  intros Hb Hid. pose proof (rep_entries _ _ Hb id Hid) as He. unfold log_entry in He.
  destruct (if (id <=? 0)%Z then None else log !! Z.to_nat (id - 1)); [|done].
  simpl in He. injection He as <-. done.
Qed.

Lemma retained_ring b log since :
  represents b log ->
  retained (cap b) since log =
  at_id b <$> ids_from (Z.max (since + 1) (oldest_spec (cap b) log)) (head b).
Proof.
  intros Hb. unfold retained. rewrite <- (rep_head _ _ Hb).
  assert (forall id, id ∈ ids_from (Z.max (since + 1) (oldest_spec (cap b) log)) (head b) ->
            log_entry log id = Some (at_id b id)) as He.
  { intros id Hid. unfold ids_from in Hid. apply elem_of_seqZ in Hid.
    apply (rep_entries _ _ Hb). lia. }
  induction (ids_from _ _) as [|id ids IH]; [done|]. simpl.
  rewrite (He id) by set_solver. f_equal. apply IH. set_solver.
Qed.

(** The loop, over ids whose slots are current. *)
Lemma query_loop_spec matches limit b ids acc cursor :
  (forall id, id ∈ ids -> ID (at_id b id) = id) -> (Z.of_nat (length acc) < limit)%Z ->
  let taken := take (Z.to_nat limit - length acc) (matching matches (at_id b <$> ids)) in
  (query_loop matches limit b ids acc cursor).1 =
  (acc ++ taken, default cursor (ID <$> last taken)).
Proof.
  revert acc cursor. induction ids as [|id ids IH]; intros acc cursor Hid Hl; simpl.
  { unfold matching. rewrite filter_nil, take_nil, app_nil_r. done. }
  assert (ID (at_id b id) = id) as Hi by (apply Hid; set_solver).
  assert (forall i, i ∈ ids -> ID (at_id b i) = i) as Hids by (intros; apply Hid; set_solver).
  rewrite Hi, Z.eqb_refl. simpl. unfold matching. rewrite filter_cons. fold (matching matches (at_id b <$> ids)).
  destruct (matches (Event (at_id b id))) eqn:Hm; simpl.
  - destruct (Z.to_nat limit - length acc) as [|k] eqn:Hk; [lia|]. simpl.
    destruct (limit <=? _)%Z eqn:Hle; simplify_bool; rewrite length_app in Hle; simpl in Hle.
    + assert (k = 0) as -> by lia. rewrite take_0. simpl. by rewrite Hi.
    + rewrite IH by (rewrite ?length_app; simpl; auto; lia). rewrite length_app. simpl.
      replace (Z.to_nat limit - (length acc + 1)) with k by lia.
      rewrite <- app_assoc. simpl. f_equal. rewrite last_cons.
      by destruct (last (take k _)); simpl; rewrite ?Hi.
  - by apply IH.
Qed.

Lemma oldestID_spec b log :
  represents b log -> log <> [] -> oldestID b = oldest_spec (cap b) log.
Proof.
  intros [Hc _ Hh Hs _] Hne. unfold oldestID, oldest_spec. rewrite Hh.
  destruct log as [|e log]; [done|]. simpl length in *.
  destruct (_ =? 0)%Z eqn:E0; simplify_bool; [lia|].
  destruct (_ <=? _)%Z eqn:E1; simplify_bool; [lia|].
  rewrite wrap_u64_id by (unfold_int64; lia). lia.
Qed.

Definition limit_of (limit : Z) : Z := if (limit <=? 0)%Z then 100%Z else limit.

Lemma Query_spec now since matches limit b log :
  represents b log -> log <> [] -> (0 <= since)%Z -> (since + 1 < two64)%Z ->
  let page := Query now since matches limit b in
  let evs := take (Z.to_nat (limit_of limit)) (matching matches (retained (cap b) since log)) in
  Events page = evs /\ Cursor page = default since (ID <$> last evs) /\
  HeadCursor page = Z.of_nat (length log) /\
  GapDetected page = (since + 1 <? oldest_spec (cap b) log)%Z.
Proof.
  intros Hb Hne Hs Hw. pose proof (rep_head _ _ Hb) as Hh.
  unfold Query. rewrite (proj2 (Z.eqb_neq (head b) 0)) by (destruct log; [done|simpl in Hh; lia]).
  rewrite (oldestID_spec b log Hb Hne), wrap_u64_id by (unfold_int64; lia). fold (limit_of limit).
  set (start := if (since + 1 <? oldest_spec (cap b) log)%Z then _ else _).
  assert (start = Z.max (since + 1) (oldest_spec (cap b) log)) as ->.
  { unfold start. destruct (_ <? _)%Z eqn:E0; simplify_bool; lia. }
  rewrite (retained_ring b log since Hb).
  pose proof (query_loop_spec matches (limit_of limit) b
    (ids_from (Z.max (since + 1) (oldest_spec (cap b) log)) (head b)) [] since) as Hq.
  destruct (query_loop _ _ _ _ [] since) as [[evs cursor] more]. simpl in *.
  rewrite Nat.sub_0_r in Hq.
  assert (forall id, id ∈ ids_from (Z.max (since + 1) (oldest_spec (cap b) log)) (head b) ->
            ID (at_id b id) = id) as Hids.
  { intros id Hid. apply (at_id_ID b log id Hb). unfold ids_from in Hid. apply elem_of_seqZ in Hid. lia. }
  assert (0 < limit_of limit)%Z as Hlim.
  { unfold limit_of. destruct (limit <=? 0)%Z eqn:E0; simplify_bool; lia. }
  injection (Hq Hids Hlim) as -> ->. done.
Qed.

(** The ring refines the log: after any sequence of appends, a query
    answers exactly the first [limit] matching events among the last [cap]
    ones whose id is above the cursor, in order, with their ids; the returned
    cursor is the id of the last event answered, or the caller's own; and a
    gap is reported exactly when events above the cursor were overwritten. *)
Theorem Query_refines_log (capacity : Z) (log : list E) (now : Time) (since : Z)
    (matches : E -> bool) (limit : Z) :
  log <> [] -> (Z.of_nat (length log) < two64)%Z -> (0 <= since)%Z -> (since + 1 < two64)%Z ->
  let b := append_all log (NewEventBuffer capacity) in
  let page := Query now since matches limit b in
  let evs := take (Z.to_nat (limit_of limit)) (matching matches (retained (cap b) since log)) in
  cap b = cap (NewEventBuffer capacity) /\
  Events page = evs /\ Cursor page = default since (ID <$> last evs) /\
  HeadCursor page = Z.of_nat (length log) /\
  GapDetected page = (since + 1 <? Z.max 1 (Z.of_nat (length log) - cap b + 1))%Z.
Proof.
  intros Hne Hw Hs Hsw b page evs.
  assert (represents b log) as Hb.
  { apply (represents_append_all _ [] log); [apply represents_new|done]. }
  split; [|by apply Query_spec].
  unfold b. clear. generalize (NewEventBuffer capacity). induction log as [|e log IH]; [done|].
  intros b. simpl. by rewrite IH.
Qed.
End Buffer.

(** Events "a".."d" in a ring of three, polled from cursor 2. *)
Lemma Query_refines_log_witness :
  Events (Query (E := string) "" (fun _ => 0%Z) 0 2 (fun _ => true) 1
            (append_all ["a"; "b"; "c"; "d"] (NewEventBuffer "" 3)))
  = [mkBuffered 3 "c"].
Proof.
  pose proof (Query_refines_log "" (fun s => s) (fun _ => 0%Z) 3 ["a"; "b"; "c"; "d"] 0 2 (fun _ => true) 1) as Hq.
  cbv zeta in Hq. destruct Hq as (_ & He & _).
  - discriminate.
  - vm_compute. reflexivity.
  - discriminate.
  - vm_compute. reflexivity.
  - rewrite He. vm_compute. reflexivity.
Defined.
