(* ===== verification/Coordination.v ===== *)
(** * Session coordination

    [CoordLease] is the in-memory mirror of coordination leases
    ([pkg/gateway/coordination/coordlease]); [CoordFence] is the policy loop
    that announces a coordination generation to a pod, retries and gives the
    session up ([pkg/gateway/coordination/coordfence]). *)

From S2P Require Import Prelude.

Module CoordLease.

Record Lease := mkLease {
  TenantID : string;
  SessionID : string;
  CoordinatorReplica : string;
  CoordinationGeneration : Z
}.

Record memRow := mkRow { lease : Lease; released : bool }.

(** [rows], keyed by (tenant, session). *)
Abbreviation MemoryStore := (gmap (string * string) memRow).

Definition NewMemoryStore : MemoryStore := ∅.

Inductive LeaseError := errIDsRequired | ErrEmptyScope.

Definition Upsert (l : Lease) (m : MemoryStore) : result LeaseError MemoryStore :=
  if is_empty (TenantID l) || is_empty (SessionID l) || is_empty (CoordinatorReplica l)
  then Err errIDsRequired
  else Ok (<[(TenantID l, SessionID l) := mkRow l false]> m).

Definition Release (tenant session : string) (m : MemoryStore) : MemoryStore :=
  match m !! (tenant, session) with
  | Some row => <[(tenant, session) := mkRow (lease row) true]> m
  | None => m
  end.

(** The order of Go's map iteration is unspecified: a list up to permutation. *)
Definition ListHeldByReplica (replica : string) (m : MemoryStore) : list Lease :=
  lease <$> filter (fun row => negb (released row) && bool_decide (CoordinatorReplica (lease row) = replica) = true)
              (map_to_list m).*2.

Definition DeleteByUser (tenant : string) (sessionIDs : list string) (m : MemoryStore)
    : result LeaseError MemoryStore :=
  if is_empty tenant then Err ErrEmptyScope
  else Ok (foldl (fun (m : MemoryStore) s => delete (tenant, s) m) m sessionIDs).

Definition DeleteByTenant (tenant : string) (m : MemoryStore) : result LeaseError MemoryStore :=
  if is_empty tenant then Err ErrEmptyScope
  else Ok (filter (fun kv => kv.1.1 <> tenant) m).

(** ** Histories *)

Inductive op :=
| OpUpsert (l : Lease)
| OpRelease (tenant session : string)
| OpDeleteByUser (tenant : string) (sessions : list string)
| OpDeleteByTenant (tenant : string).

Definition apply_op (m : MemoryStore) (o : op) : MemoryStore :=
  match o with
  | OpUpsert l => match Upsert l m with Ok m' => m' | Err _ => m end
  | OpRelease t s => Release t s m
  | OpDeleteByUser t ss => match DeleteByUser t ss m with Ok m' => m' | Err _ => m end
  | OpDeleteByTenant t => match DeleteByTenant t m with Ok m' => m' | Err _ => m end
  end.

Definition run (l : list op) : MemoryStore := foldl apply_op NewMemoryStore l.

(** The specification reads a history backwards: the lease of a session is
    that of its last effective upsert, unless a release or an erasure of the
    session came later. *)
Fixpoint active_lease (t s : string) (rev_history : list op) : option Lease :=
  match rev_history with
  | [] => None
  | OpUpsert l :: h =>
      if bool_decide (TenantID l = t) && bool_decide (SessionID l = s)
         && negb (is_empty t) && negb (is_empty s) && negb (is_empty (CoordinatorReplica l))
      then Some l else active_lease t s h
  | OpRelease t' s' :: h =>
      if bool_decide (t' = t) && bool_decide (s' = s) then None else active_lease t s h
  | OpDeleteByUser t' ss :: h =>
      if bool_decide (t' = t) && negb (is_empty t) && bool_decide (s ∈ ss) then None
      else active_lease t s h
  | OpDeleteByTenant t' :: h =>
      if bool_decide (t' = t) && negb (is_empty t) then None else active_lease t s h
  end.

(** What a row contributes to the active leases. *)
Definition active_row (r : option memRow) : option Lease :=
  match r with
  | Some row => if released row then None else Some (lease row)
  | None => None
  end.

Lemma foldl_delete_lookup (t : string) (ss : list string) (m : MemoryStore) (k : string * string) :
  foldl (fun (m : MemoryStore) s => delete (t, s) m) m ss !! k =
  if decide (k.1 = t /\ k.2 ∈ ss) then None else m !! k.
Proof.
  revert m. induction ss as [|s ss IH]; intros m; simpl.
  { case_decide; [set_solver|done]. }
  rewrite IH. destruct k as [kt ks]. simpl.
  destruct (decide (kt = t /\ ks ∈ ss)) as [[-> Hin]|Hout].
  { rewrite decide_True by set_solver. done. }
  destruct (decide (kt = t /\ ks = s)) as [[-> ->]|Hne].
  - rewrite decide_True by set_solver. apply lookup_delete_eq.
  - rewrite decide_False by set_solver. apply lookup_delete_ne. naive_solver.
Qed.

Lemma apply_op_active m o t s h :
  active_row (m !! (t, s)) = active_lease t s h ->
  active_row (apply_op m o !! (t, s)) = active_lease t s (o :: h).
Proof.
  intros Hm. destruct o as [l|t' s'|t' ss|t']; simpl.
  - unfold Upsert. destruct l as [lt ls lr lg]; simpl.
    destruct (is_empty lt) eqn:Et; [|destruct (is_empty ls) eqn:Es; [|destruct (is_empty lr) eqn:Er]]; simpl.
    + apply is_empty_spec in Et as ->. case_bool_decide as E; [subst t|done].
      simpl. by destruct (bool_decide (ls = s)).
    + apply is_empty_spec in Es as ->. case_bool_decide; [|done]. case_bool_decide as E; [subst s|done].
      simpl. by rewrite andb_false_r.
    + by rewrite andb_false_r.
    + case_bool_decide as E1; [subst lt; case_bool_decide as E2; [subst ls|]|]; simpl.
      * rewrite Et, Es. cbn [negb andb]. by rewrite lookup_insert_eq.
      * rewrite lookup_insert_ne by congruence. done.
      * rewrite lookup_insert_ne by congruence. done.
  - unfold Release. case_bool_decide as E1; [subst t'; case_bool_decide as E2; [subst s'|]|]; cbn [andb].
    + destruct (m !! (t, s)) eqn:E; [by rewrite lookup_insert_eq|by rewrite E].
    + destruct (m !! (t, s')) eqn:E; [rewrite lookup_insert_ne by congruence|]; done.
    + destruct (m !! (t', s')) eqn:E; [rewrite lookup_insert_ne by congruence|]; done.
  - unfold DeleteByUser. destruct (is_empty t') eqn:Et.
    + case_bool_decide as E; [subst t'; rewrite Et|]; done.
    + rewrite foldl_delete_lookup. simpl. repeat case_bool_decide; subst; rewrite ?Et; simpl.
      * by rewrite decide_True.
      * rewrite decide_False; [done|naive_solver].
      * rewrite decide_False; [done|naive_solver].
      * rewrite decide_False; [done|naive_solver].
  - unfold DeleteByTenant. destruct (is_empty t') eqn:Et.
    + case_bool_decide as E; [subst t'; rewrite Et|]; done.
    + case_bool_decide as E; simpl.
      * subst t'. rewrite Et. simpl. destruct (filter _ m !! (t, s)) eqn:El; [|done].
        apply map_lookup_filter_Some in El as [_ Hne]. done.
      * assert (filter (fun kv : string * string * memRow => kv.1.1 <> t') m !! (t, s) = m !! (t, s)) as ->; [|done].
        apply option_eq. intros row. rewrite map_lookup_filter_Some. simpl. naive_solver.
Qed.

Lemma run_active l t s : active_row (run l !! (t, s)) = active_lease t s (reverse l).
Proof.
  induction l as [|o l IH] using rev_ind; [done|].
  unfold run in *. rewrite foldl_snoc, reverse_snoc. by apply apply_op_active.
Qed.

(** The barrier-target query is exact: after any history of calls, the
    leases listed for a replica are precisely those whose session was last
    upserted for that replica and neither released nor erased since; an
    erasure with an empty tenant is refused and so never erases anything. *)
Theorem ListHeldByReplica_exact (history : list op) (replica : string) (l : Lease) :
  l ∈ ListHeldByReplica replica (run history) <->
  exists t s, active_lease t s (reverse history) = Some l /\ CoordinatorReplica l = replica.
Proof.
  unfold ListHeldByReplica. rewrite list_elem_of_fmap. split.
  - intros (row & -> & Hr). apply list_elem_of_filter in Hr as [Hc Hin].
    apply list_elem_of_fmap in Hin as ([[t s] row'] & -> & Hin). apply elem_of_map_to_list in Hin.
    simpl in *. apply andb_true_iff in Hc as [Hrel Hrep]. apply bool_decide_eq_true in Hrep.
    exists t, s. rewrite <- run_active, Hin. simpl. apply negb_true_iff in Hrel. by rewrite Hrel.
  - intros (t & s & Ha & Hr). rewrite <- run_active in Ha.
    destruct (run history !! (t, s)) as [row|] eqn:E; [|done]. simpl in Ha.
    destruct (released row) eqn:Hrel; [done|]. injection Ha as <-. exists row. split; [done|].
    apply list_elem_of_filter. rewrite Hrel, bool_decide_eq_true_2 by done. split; [done|].
    apply (list_elem_of_fmap_2' snd _ ((t, s), row)); [|done]. by apply elem_of_map_to_list.
Qed.
End CoordLease.

Module CoordFence.

Definition DefaultMaxAttempts : Z := 3.

(** What one CoordinatorFence call comes back with: accepted, answered but
    not accepted, a FailedPrecondition status, or any other fault. *)
Inductive FenceReply := FAccepted | FNotAccepted | FFailedPrecondition | FOtherError.

(** The three collaborators of the fencer and its context. *)
Class FenceEnv (W : Type) := {
  ctx_done : W -> bool;
  CoordinatorFence : W -> string -> Z -> W * FenceReply;
  CoordinationGeneration : W -> string -> string -> W * option Z;
  LeaseRelease : W -> string -> string -> string -> W * bool
}.

(** What the loop did, in order: calls and counter increments. *)
Inductive action :=
| ActFence (gen : Z) (r : FenceReply)
| ActRead (g : option Z)
| ActStale
| ActRetry
| ActRelinquished
| ActRelease (tenant session replica : string).

Inductive FenceResult :=
| Fenced
| ErrContext
| ErrReadGeneration
| ErrRelinquished.

#[export] Instance FenceResult_eq_dec : EqDecision FenceResult.
Proof. solve_decision. Defined.

Definition maxAttempts_of (opt : Z) : Z := if (opt <? 1)%Z then DefaultMaxAttempts else opt.

Section Fencer.
Context {W : Type} `{FenceEnv W}.
Context (replicaID tenantID sessionID : string).

Definition relinquish (w : W) : W * list action * FenceResult :=
  let (w, _) := LeaseRelease w tenantID sessionID replicaID in
  (w, [ActRelinquished; ActRelease tenantID sessionID replicaID], ErrRelinquished).

(** The attempts that remain are the loop's fuel. *)
Fixpoint attempts (n : nat) (reread : bool) (gen : Z) (w : W) : W * list action * FenceResult :=
  match n with
  | O => relinquish w
  | S n =>
      if ctx_done w then (w, [], ErrContext)
      else
        let (w, r) := CoordinatorFence w sessionID gen in
        let done_ := fun '(w, acts, res) => (w, ActFence gen r :: acts, res) : W * list action * FenceResult in
        match r with
        | FAccepted => done_ (w, [], Fenced)
        | FNotAccepted | FFailedPrecondition =>
            if reread then
              let (w, g) := CoordinationGeneration w tenantID sessionID in
              match g with
              | Some newGen =>
                  if (gen <? newGen)%Z then
                    let '(w, acts, res) := attempts n reread newGen w in
                    done_ (w, ActStale :: ActRead g :: ActRetry :: acts, res)
                  else
                    let '(w, acts, res) := relinquish w in
                    done_ (w, ActStale :: ActRead g :: acts, res)
              | None =>
                  let '(w, acts, res) := relinquish w in
                  done_ (w, ActStale :: ActRead g :: acts, res)
              end
            else
              let '(w, acts, res) := relinquish w in
              done_ (w, ActStale :: acts, res)
        | FOtherError =>
            let '(w, acts, res) := attempts n reread gen w in
            done_ (w, ActRetry :: acts, res)
        end
  end.

Definition loop (maxAttempts : Z) (gen : Z) (reread : bool) (w : W) : W * list action * FenceResult :=
  attempts (Z.to_nat maxAttempts) reread (if (gen <=? 0)%Z then 1%Z else gen) w.

Definition fence (maxAttempts : Z) (w : W) : W * list action * FenceResult :=
  let (w, g) := CoordinationGeneration w tenantID sessionID in
  match g with
  | None => (w, [ActRead None], ErrReadGeneration)
  | Some gen =>
      let '(w, acts, res) := loop maxAttempts gen true w in
      (w, ActRead g :: acts, res)
  end.

Definition Fence := fence.

Definition FenceAt (maxAttempts generation : Z) (w : W) : W * list action * FenceResult :=
  loop maxAttempts generation false w.

(** ** Lemmas *)

(** The generations announced, in order, and the leases released. *)
Definition fenced_gens (acts : list action) : list Z :=
  omap (fun a => match a with ActFence g _ => Some g | _ => None end) acts.

Definition releases (acts : list action) : list (string * string * string) :=
  omap (fun a => match a with ActRelease t s r => Some (t, s, r) | _ => None end) acts.

Definition accepted (acts : list action) : list Z :=
  omap (fun a => match a with ActFence g FAccepted => Some g | _ => None end) acts.

(** What one run of the loop from generation [gen] guarantees. *)
Record loop_ok (n : nat) (reread : bool) (gen : Z) (acts : list action) (res : FenceResult) : Prop := {
  lo_budget : length (fenced_gens acts) <= n;
  lo_sorted : Sorted Z.le (gen :: fenced_gens acts);
  lo_fixed : reread = false -> Forall (eq gen) (fenced_gens acts);
  lo_release : releases acts = if bool_decide (res = ErrRelinquished)
                               then [(tenantID, sessionID, replicaID)] else [];
  lo_accepted : match res with
                | Fenced => exists g, accepted acts = [g] /\ last (fenced_gens acts) = Some g
                | _ => accepted acts = []
                end
}.

Lemma relinquish_ok n reread gen w :
  let '(_, acts, res) := relinquish w in loop_ok n reread gen acts res.
Proof.
  unfold relinquish. destruct (LeaseRelease w tenantID sessionID replicaID) as [w' b].
  constructor; simpl; try done; [lia|by constructor].
Qed.

(** One more announcement, not accepted, in front of a run. *)
Lemma loop_ok_cons n reread gen gen' r pre acts res :
  r <> FAccepted -> (gen <= gen')%Z -> (reread = false -> gen' = gen) ->
  fenced_gens pre = [] -> releases pre = [] -> accepted pre = [] ->
  loop_ok n reread gen' acts res ->
  loop_ok (S n) reread gen (ActFence gen r :: pre ++ acts) res.
Proof.
  intros Hr Hle Hfix Hg Hrel Hacc [Hb Hs Hf Hre Ha].
  assert (fenced_gens (ActFence gen r :: pre ++ acts) = gen :: fenced_gens acts) as Eg.
  { unfold fenced_gens in *. simpl. rewrite omap_app, Hg. done. }
  assert (releases (ActFence gen r :: pre ++ acts) = releases acts) as Er.
  { unfold releases in *. simpl. rewrite omap_app, Hrel. done. }
  assert (accepted (ActFence gen r :: pre ++ acts) = accepted acts) as Ea.
  { unfold accepted in *. simpl. destruct r; [done|..]; rewrite omap_app, Hacc; done. }
  constructor; rewrite ?Eg, ?Er, ?Ea; simpl.
  - lia.
  - inversion Hs as [|? ? Hs' Hh]; subst. constructor; [|by constructor].
    constructor; [done|]. inversion Hh as [|? ? Hle']; constructor. lia.
  - intros E. constructor; [done|]. rewrite <- (Hfix E). by apply Hf.
  - done.
  - destruct res; try done. destruct Ha as (g & Hacc' & Hl). exists g. split; [done|].
    rewrite last_cons, Hl. done.
Qed.

Lemma attempts_ok n reread gen w :
  let '(_, acts, res) := attempts n reread gen w in loop_ok n reread gen acts res.
Proof.
  revert gen w. induction n as [|n IH]; intros gen w; cbn [attempts]; [apply relinquish_ok|].
  destruct (ctx_done w).
  { constructor; simpl; try done; [lia|by constructor]. }
  destruct (CoordinatorFence w sessionID gen) as [w1 r].
  assert (forall pre acts res gen', r <> FAccepted -> (gen <= gen')%Z -> (reread = false -> gen' = gen) ->
    fenced_gens pre = [] -> releases pre = [] -> accepted pre = [] ->
    loop_ok n reread gen' acts res -> loop_ok (S n) reread gen (ActFence gen r :: pre ++ acts) res) as Hcons.
  { intros. by eapply loop_ok_cons. }
  pose proof (fun w => relinquish_ok n reread gen w) as Hrel.
  destruct r.
  1:{ constructor; simpl; try done; [lia|repeat constructor; lia|by intros; constructor|].
      exists gen. done. }
  3:{ specialize (IH gen w1). destruct (attempts n reread gen w1) as [[w3 acts] res].
      by apply (Hcons [ActRetry] acts res gen). }
  all: destruct reread;
    [|specialize (Hrel w1); destruct (relinquish w1) as [[w3 acts] res];
      by apply (Hcons [ActStale] acts res gen)].
  all: destruct (CoordinationGeneration w1 tenantID sessionID) as [w2 [g|]];
    [|specialize (Hrel w2); destruct (relinquish w2) as [[w3 acts] res];
      by apply (Hcons [ActStale; ActRead None] acts res gen)].
  all: destruct (gen <? g)%Z eqn:Hlt; simplify_bool;
    [|specialize (Hrel w2); destruct (relinquish w2) as [[w3 acts] res];
      by apply (Hcons [ActStale; ActRead (Some g)] acts res gen)].
  all: specialize (IH g w2); destruct (attempts n true g w2) as [[w3 acts] res].
  all: apply (Hcons [ActStale; ActRead (Some g); ActRetry] acts res g); try done; lia.
Qed.

Lemma loop_ok_loop maxAttempts gen reread w :
  let '(_, acts, res) := loop maxAttempts gen reread w in
  loop_ok (Z.to_nat maxAttempts) reread (if (gen <=? 0)%Z then 1%Z else gen) acts res.
Proof. apply attempts_ok. Qed.

(** The fence policy, whatever the pod, the stores and the context do: at
    most [maxAttempts] announcements are made, at generations that are
    positive and never decrease, and [FenceAt] never announces another
    generation than its caller's. The run succeeds exactly with its last
    announcement accepted; when it gives the session up it releases the
    session's own lease for this replica exactly once, and in every other
    case it releases nothing. *)
Theorem fence_policy (maxAttempts generation : Z) (w : W) :
  (let '(_, acts, res) := FenceAt maxAttempts generation w in
   length (fenced_gens acts) <= Z.to_nat maxAttempts /\
   Forall (fun g => g = Z.max 1 generation) (fenced_gens acts) /\
   releases acts = (if bool_decide (res = ErrRelinquished)
                    then [(tenantID, sessionID, replicaID)] else []) /\
   match res with
   | Fenced => accepted acts = [Z.max 1 generation] /\
               last (fenced_gens acts) = Some (Z.max 1 generation)
   | _ => accepted acts = []
   end) /\
  (let '(_, acts, res) := Fence maxAttempts w in
   length (fenced_gens acts) <= Z.to_nat maxAttempts /\
   Sorted Z.le (fenced_gens acts) /\ Forall (fun g => 1 <= g)%Z (fenced_gens acts) /\
   releases acts = (if bool_decide (res = ErrRelinquished)
                    then [(tenantID, sessionID, replicaID)] else []) /\
   match res with
   | Fenced => exists g, accepted acts = [g] /\ last (fenced_gens acts) = Some g
   | _ => accepted acts = []
   end).
Proof.
  split.
  - unfold FenceAt. pose proof (loop_ok_loop maxAttempts generation false w) as Hl.
    destruct (loop maxAttempts generation false w) as [[w' acts] res].
    assert ((if (generation <=? 0)%Z then 1%Z else generation) = Z.max 1 generation) as Eg.
    { destruct (generation <=? 0)%Z eqn:Hle; simplify_bool; lia. }
    rewrite Eg in Hl. destruct Hl as [Hb _ Hf Hr Ha]. specialize (Hf eq_refl).
    split_and!; [done|by eapply Forall_impl|done|].
    destruct res; try done. destruct Ha as (g & Hacc & Hlast).
    assert (g = Z.max 1 generation) as ->; [|done].
    apply last_Some_elem_of in Hlast. rewrite Forall_forall in Hf. symmetry. by apply Hf.
  - unfold Fence, fence. destruct (CoordinationGeneration w tenantID sessionID) as [w1 [gen|]].
    2:{ simpl. split_and!; try done. lia. }
    pose proof (loop_ok_loop maxAttempts gen true w1) as Hl.
    destruct (loop maxAttempts gen true w1) as [[w' acts] res].
    destruct Hl as [Hb Hs _ Hr Ha]. simpl in *. split_and!; [done|by inversion Hs| |done|done].
    apply Sorted_StronglySorted in Hs; [|intros ? ? ?; lia]. inversion Hs as [|? ? _ Hall]; subst.
    eapply Forall_impl; [exact Hall|]. intros g Hg. simpl.
    destruct (gen <=? 0)%Z eqn:Hle; simplify_bool; lia.
Qed.
End Fencer.
End CoordFence.
