(* ===== verification/Delegation.v ===== *)
(** * Delegation admission

    [Lease] is the budget slice and depth arithmetic of a delegation lease
    ([pkg/delegation/lease]); [Cycle] is the self-recursion gate over a
    session's lineage ([pkg/delegation/cycle]). *)

From S2P Require Import Prelude.

Module Lease.

Record LeaseSlice := mkSlice {
  MaxTokenBudget : Z;
  MaxChildrenTotal : Z;
  MaxTreeSize : Z;
  MaxTreeMemoryBytes : Z;
  MaxParallelChildren : Z;
  PerChildMaxAge : Z
}.

(** The Go violations are formatted sentences; each is its axis, the child's
    value and the parent's bound. *)
Inductive Violation :=
| VTokenBudget (child remaining : Z)
| VChildrenTotal (child remaining : Z)
| VTreeSize (child remaining : Z)
| VParallelChildren (child parent : Z)
| VPerChildMaxAge (child parent : Z).

Definition axis_check (parent child bound : Z) (v : Violation) : list Violation :=
  if (0 <? parent)%Z && (0 <? child)%Z then
    if (bound <? child)%Z then [v] else []
  else [].

Definition ValidateChildSlice (parent child : LeaseSlice)
    (remainingTokenBudget remainingChildren remainingTreeSize : Z) : result (list Violation) unit :=
  let violations :=
    axis_check (MaxTokenBudget parent) (MaxTokenBudget child) remainingTokenBudget
      (VTokenBudget (MaxTokenBudget child) remainingTokenBudget)
    ++ axis_check (MaxChildrenTotal parent) (MaxChildrenTotal child) remainingChildren
         (VChildrenTotal (MaxChildrenTotal child) remainingChildren)
    ++ axis_check (MaxTreeSize parent) (MaxTreeSize child) remainingTreeSize
         (VTreeSize (MaxTreeSize child) remainingTreeSize)
    ++ axis_check (MaxParallelChildren parent) (MaxParallelChildren child) (MaxParallelChildren parent)
         (VParallelChildren (MaxParallelChildren child) (MaxParallelChildren parent))
    ++ axis_check (PerChildMaxAge parent) (PerChildMaxAge child) (PerChildMaxAge parent)
         (VPerChildMaxAge (PerChildMaxAge child) (PerChildMaxAge parent)) in
  match violations with
  | [] => Ok tt
  | _ => Err violations
  end.

Record MaxDepthInputs := mkDepthInputs {
  ExplicitClient : Z;
  PresetEntry : Z;
  RuntimeDefault : Z;
  PolicyCeiling : Z;
  HelmFallback : Z
}.

Inductive DepthError := ErrUnresolvedMaxDepth | DepthExceededError (current max : Z).

Fixpoint first_positive (l : list Z) : option Z :=
  match l with
  | [] => None
  | v :: l => if (0 <? v)%Z then Some v else first_positive l
  end.

Definition ResolveMaxDepth (i : MaxDepthInputs) : result DepthError Z :=
  match first_positive [ExplicitClient i; PresetEntry i; RuntimeDefault i; PolicyCeiling i; HelmFallback i] with
  | Some v => Ok v
  | None => Err ErrUnresolvedMaxDepth
  end.

Definition EnforcePolicyCeiling (resolved policyCeiling : Z) : Z :=
  if (policyCeiling <=? 0)%Z then resolved
  else if (resolved <? policyCeiling)%Z then resolved
  else policyCeiling.

Definition CheckDepth (currentDepth maxDepth : Z) : result DepthError unit :=
  if (maxDepth <=? 0)%Z then Err ErrUnresolvedMaxDepth
  else if (maxDepth <? wrap64 (currentDepth + 1))%Z then Err (DepthExceededError currentDepth maxDepth)
  else Ok tt.

Definition ApprovalModePolicy : string := "policy".
Definition ApprovalModeApproval : string := "approval".
Definition ApprovalModeDeny : string := "deny".

Definition ValidateApprovalMode (m : string) : result string unit :=
  if is_empty m || bool_decide (m = ApprovalModePolicy) || bool_decide (m = ApprovalModeApproval)
     || bool_decide (m = ApprovalModeDeny)
  then Ok tt else Err m.

Definition EffectiveApprovalMode (declared : string) : string :=
  if bool_decide (declared = ApprovalModeDeny) then ApprovalModeDeny else ApprovalModePolicy.

Definition CredentialPropagationInherit : string := "inherit".
Definition CredentialPropagationIndependent : string := "independent".
Definition CredentialPropagationDeny : string := "deny".

Definition ValidateCredentialPropagation (m : string) : result string unit :=
  if is_empty m || bool_decide (m = CredentialPropagationInherit)
     || bool_decide (m = CredentialPropagationIndependent)
     || bool_decide (m = CredentialPropagationDeny)
  then Ok tt else Err m.

(** The loop over [a], with the [seen] set. *)
Fixpoint intersect_loop (inB seen : gset string) (a : list string) : list string :=
  match a with
  | [] => []
  | p :: a =>
      if bool_decide (p ∈ inB) then
        if bool_decide (p ∈ seen) then intersect_loop inB seen a
        else p :: intersect_loop inB ({[p]} ∪ seen) a
      else intersect_loop inB seen a
  end.

Definition IntersectProviders (a b : list string) : list string :=
  intersect_loop (list_to_set b) ∅ a.

(** ** Lemmas *)

Lemma axis_check_nil parent child bound v :
  axis_check parent child bound v = [] <-> ((0 < parent)%Z -> (0 < child)%Z -> (child <= bound)%Z).
Proof.
  unfold axis_check.
  destruct (0 <? parent)%Z eqn:E1, (0 <? child)%Z eqn:E2, (bound <? child)%Z eqn:E3;
    simpl; simplify_bool; split; intros; try done; try lia.
Qed.

Lemma ValidateChildSlice_Ok parent child rt rc rs :
  ValidateChildSlice parent child rt rc rs = Ok tt <->
  ((0 < MaxTokenBudget parent)%Z -> (0 < MaxTokenBudget child)%Z -> (MaxTokenBudget child <= rt)%Z) /\
  ((0 < MaxChildrenTotal parent)%Z -> (0 < MaxChildrenTotal child)%Z -> (MaxChildrenTotal child <= rc)%Z) /\
  ((0 < MaxTreeSize parent)%Z -> (0 < MaxTreeSize child)%Z -> (MaxTreeSize child <= rs)%Z) /\
  ((0 < MaxParallelChildren parent)%Z -> (0 < MaxParallelChildren child)%Z ->
     (MaxParallelChildren child <= MaxParallelChildren parent)%Z) /\
  ((0 < PerChildMaxAge parent)%Z -> (0 < PerChildMaxAge child)%Z ->
     (PerChildMaxAge child <= PerChildMaxAge parent)%Z).
Proof.
  rewrite <- (axis_check_nil (MaxTokenBudget parent) (MaxTokenBudget child) rt
                (VTokenBudget (MaxTokenBudget child) rt)).
  rewrite <- (axis_check_nil (MaxChildrenTotal parent) (MaxChildrenTotal child) rc
                (VChildrenTotal (MaxChildrenTotal child) rc)).
  rewrite <- (axis_check_nil (MaxTreeSize parent) (MaxTreeSize child) rs
                (VTreeSize (MaxTreeSize child) rs)).
  rewrite <- (axis_check_nil (MaxParallelChildren parent) (MaxParallelChildren child)
                (MaxParallelChildren parent)
                (VParallelChildren (MaxParallelChildren child) (MaxParallelChildren parent))).
  rewrite <- (axis_check_nil (PerChildMaxAge parent) (PerChildMaxAge child) (PerChildMaxAge parent)
                (VPerChildMaxAge (PerChildMaxAge child) (PerChildMaxAge parent))).
  unfold ValidateChildSlice. rewrite <- !app_nil. destruct (_ ++ _); by split.
Qed.

(** A path of admitted hops from a lease down, each checked against a full
    remaining budget of its parent. *)
Inductive admitted_path : LeaseSlice -> list LeaseSlice -> Prop :=
| path_nil s : admitted_path s []
| path_cons s c rt rc rs rest :
    (rt <= MaxTokenBudget s)%Z -> (rc <= MaxChildrenTotal s)%Z -> (rs <= MaxTreeSize s)%Z ->
    ValidateChildSlice s c rt rc rs = Ok tt -> admitted_path c rest ->
    admitted_path s (c :: rest).

(** Every axis of a slice is set. *)
Definition positive (s : LeaseSlice) : Prop :=
  (0 < MaxTokenBudget s)%Z /\ (0 < MaxChildrenTotal s)%Z /\ (0 < MaxTreeSize s)%Z /\
  (0 < MaxParallelChildren s)%Z /\ (0 < PerChildMaxAge s)%Z.

Definition narrower (c s : LeaseSlice) : Prop :=
  (MaxTokenBudget c <= MaxTokenBudget s)%Z /\ (MaxChildrenTotal c <= MaxChildrenTotal s)%Z /\
  (MaxTreeSize c <= MaxTreeSize s)%Z /\ (MaxParallelChildren c <= MaxParallelChildren s)%Z /\
  (PerChildMaxAge c <= PerChildMaxAge s)%Z.

(** Depths of a chain of hops: each hop was checked at its parent's depth. *)
Fixpoint hops (n : nat) (depth maxDepth : Z) : result DepthError Z :=
  match n with
  | O => Ok depth
  | S n => let* _ := CheckDepth depth maxDepth in hops n (depth + 1) maxDepth
  end.

Lemma hops_bound n depth maxDepth d :
  (0 <= depth <= maxDepth)%Z -> (maxDepth < max_int64)%Z -> hops n depth maxDepth = Ok d ->
  d = (depth + Z.of_nat n)%Z /\ (d <= maxDepth)%Z.
Proof.
  revert depth. induction n as [|n IH]; intros depth H0 Hm; simpl.
  { intros [= <-]. lia. }
  unfold CheckDepth. destruct (maxDepth <=? 0)%Z eqn:E0; simplify_bool; [done|].
  rewrite wrap64_id by (unfold_int64; lia).
  destruct (maxDepth <? depth + 1)%Z eqn:E1; simplify_bool; [done|]. simpl.
  intros Hh. destruct (IH (depth + 1)%Z) as [-> Hle]; [lia|done|done|]. lia.
Qed.

Lemma first_positive_Some l v : first_positive l = Some v -> v ∈ l /\ (0 < v)%Z.
Proof.
  induction l as [|x l IH]; simpl; [done|]. destruct (0 <? x)%Z eqn:E; simplify_bool.
  - intros [= <-]. set_solver.
  - intros Hv. destruct (IH Hv). set_solver.
Qed.

Lemma intersect_loop_spec inB seen a :
  NoDup (intersect_loop inB seen a) /\
  (forall p, p ∈ intersect_loop inB seen a <-> p ∈ a /\ p ∈ inB /\ p ∉ seen) /\
  intersect_loop inB seen a `sublist_of` a.
Proof.
  revert seen. induction a as [|p a IH]; intros seen; simpl.
  { split_and!; [constructor|set_solver|constructor]. }
  case_bool_decide as HB; [case_bool_decide as HS|].
  - destruct (IH seen) as (Hn & He & Hs). split_and!; [done| |by constructor].
    intros q. rewrite He. set_solver.
  - destruct (IH ({[p]} ∪ seen)) as (Hn & He & Hs). split_and!.
    + apply NoDup_cons. split; [|done]. rewrite He. set_solver.
    + intros q. rewrite elem_of_cons, He. destruct (decide (q = p)); set_solver.
    + by constructor.
  - destruct (IH seen) as (Hn & He & Hs). split_and!; [done| |by constructor].
    intros q. rewrite He. set_solver.
Qed.

(** Budgets narrow along a delegation path: on a path of admitted hops
    whose slices are all set, every descendant's slice is at most its
    ancestor's on every axis, however long the path. *)
Theorem slices_narrow (s : LeaseSlice) (path : list LeaseSlice) :
  admitted_path s path -> positive s -> Forall positive path -> Forall (fun c => narrower c s) path.
Proof.
  intros Hp. induction Hp as [|s c rt rc rs rest H1 H2 H3 Hv _ IH]; intros Hs Hall; [constructor|].
  apply Forall_cons in Hall as [Hc Hall].
  apply ValidateChildSlice_Ok in Hv. unfold positive in Hs, Hc.
  assert (narrower c s) as Hn by (unfold narrower; lia).
  constructor; [done|]. eapply Forall_impl; [exact (IH Hc Hall)|].
  unfold narrower in *. intros x Hx. simpl in Hx. lia.
Qed.

Lemma slices_narrow_witness :
  Forall (fun c => narrower c (mkSlice 100 5 5 0 2 60)) [mkSlice 40 2 2 0 1 30].
Proof.
  apply slices_narrow.
  - apply (path_cons _ _ 100 5 5); [simpl; lia|simpl; lia|simpl; lia|reflexivity|constructor].
  - unfold positive; simpl; lia.
  - repeat constructor; simpl; lia.
Defined.

(** The depth of a delegation chain is bounded: the resolved limit is a
    positive value of one of the layers, capping it by the policy never
    exceeds the policy's ceiling, and a chain of hops from the root that were
    each checked against the limit is never deeper than it. *)
Theorem depth_bounded (i : MaxDepthInputs) (resolved ceiling d : Z) (n : nat) :
  ResolveMaxDepth i = Ok resolved ->
  (0 < ceiling)%Z -> (EnforcePolicyCeiling resolved ceiling < max_int64)%Z ->
  hops n 0 (EnforcePolicyCeiling resolved ceiling) = Ok d ->
  (0 < resolved)%Z /\
  resolved ∈ [ExplicitClient i; PresetEntry i; RuntimeDefault i; PolicyCeiling i; HelmFallback i] /\
  EnforcePolicyCeiling resolved ceiling = Z.min resolved ceiling /\
  Z.of_nat n = d /\ (d <= ceiling)%Z /\ (d <= resolved)%Z.
Proof.
  unfold ResolveMaxDepth. destruct (first_positive _) as [v|] eqn:E; [|done]. intros [= <-] Hc Hm Hh.
  apply first_positive_Some in E as [Hin Hv].
  assert (EnforcePolicyCeiling v ceiling = Z.min v ceiling) as Em.
  { unfold EnforcePolicyCeiling. destruct (ceiling <=? 0)%Z eqn:E0; simplify_bool; [lia|].
    destruct (v <? ceiling)%Z eqn:E1; simplify_bool; lia. }
  rewrite Em in *. destruct (hops_bound n 0 (Z.min v ceiling) d) as [-> Hle]; [lia|done|done|].
  split_and!; [done|done|done|lia|lia|lia].
Qed.

Lemma depth_bounded_witness : (2 <= 3)%Z /\ hops 2 0 (EnforcePolicyCeiling 10 3) = Ok 2%Z.
Proof.
  split; [|reflexivity].
  destruct (depth_bounded (mkDepthInputs 0 10 0 3 10) 10 3 2 2) as (_ & _ & _ & _ & Hd & _).
  - reflexivity.
  - reflexivity.
  - reflexivity.
  - reflexivity.
  - exact Hd.
Defined.
End Lease.

Module Cycle.

Definition ModeEnforce : string := "enforce".
Definition ModeWarn : string := "warn".
Definition ModePermissive : string := "permissive".

Definition AllModes : list string := [ModeEnforce; ModeWarn; ModePermissive].

Definition ModeIsValid (m : string) : bool := existsb (fun v => bool_decide (m = v)) AllModes.

Definition LayerPlatform : string := "platform".
Definition LayerRuntime : string := "runtime".
Definition LayerPolicy : string := "policy".

Definition LayerOrder : list string := [LayerPlatform; LayerRuntime; LayerPolicy].

Record Identity := mkIdentity { RuntimeName : string; PoolName : string }.

#[export] Instance Identity_eq_dec : EqDecision Identity.
Proof. solve_decision. Defined.

Definition Equals (i o : Identity) : bool :=
  bool_decide (RuntimeName i = RuntimeName o) && bool_decide (PoolName i = PoolName o).

Definition Depth (l : list Identity) : Z := Z.of_nat (length l).

Definition Contains (l : list Identity) (target : Identity) : bool :=
  existsb (fun x => Equals x target) l.

Record Settings := mkSettings {
  Mode : string;
  PlatformAllowSelfRec : bool;
  RuntimeAllowSelfRec : bool;
  PolicyAllowSelfRec : bool
}.

Definition OutcomeAdmitted : string := "admitted".
Definition OutcomeWouldHaveBlocked : string := "would_have_blocked".
Definition OutcomeRejected : string := "rejected".

Record Decision_ := mkDecision {
  Outcome : string;
  IsSelfRecursive : bool;
  BlockedBy : string;
  WouldHaveBlockedLayers : list string;
  EffectiveSettings : Settings
}.

Definition whichLayersWouldBlock (s : Settings) : list string :=
  (if negb (PlatformAllowSelfRec s) then [LayerPlatform] else [])
  ++ (if negb (RuntimeAllowSelfRec s) then [LayerRuntime] else [])
  ++ (if negb (PolicyAllowSelfRec s) then [LayerPolicy] else []).

Definition Decide (lineage : list Identity) (target : Identity) (settings : Settings) : Decision_ :=
  if negb (Contains lineage target) then mkDecision OutcomeAdmitted false "" [] settings
  else
    let failing := whichLayersWouldBlock settings in
    if bool_decide (Mode settings = ModePermissive) then mkDecision OutcomeAdmitted true "" [] settings
    else if bool_decide (Mode settings = ModeWarn) then
      match failing with
      | [] => mkDecision OutcomeAdmitted true "" [] settings
      | f :: _ => mkDecision OutcomeWouldHaveBlocked true f failing settings
      end
    else if bool_decide (Mode settings = ModeEnforce) then
      match failing with
      | [] => mkDecision OutcomeAdmitted true "" [] settings
      | f :: _ => mkDecision OutcomeRejected true f failing settings
      end
    else
      mkDecision OutcomeRejected true (match failing with f :: _ => f | [] => "" end) failing settings.

Record Rejection := mkRejection {
  RejBlockedBy : string;
  RejSettings : Settings;
  CycleRuntimeName : string;
  CyclePoolName : string
}.

Definition ToError (d : Decision_) (target : Identity) : option Rejection :=
  if negb (bool_decide (Outcome d = OutcomeRejected)) then None
  else Some (mkRejection (BlockedBy d) (EffectiveSettings d) (RuntimeName target) (PoolName target)).

(** ** Lemmas *)

Lemma Equals_spec i o : Equals i o = true <-> i = o.
Proof.
  unfold Equals. rewrite andb_true_iff, !bool_decide_eq_true.
  destruct i, o; simpl. split; [by intros [-> ->] | by intros [= -> ->]].
Qed.

Lemma Contains_spec l t : Contains l t = true <-> t ∈ l.
Proof.
  unfold Contains. rewrite existsb_exists. setoid_rewrite Equals_spec.
  setoid_rewrite <- list_elem_of_In. naive_solver.
Qed.

(** The layers allow self-recursion. *)
Definition layers_allow (s : Settings) : bool :=
  PlatformAllowSelfRec s && RuntimeAllowSelfRec s && PolicyAllowSelfRec s.

Lemma whichLayersWouldBlock_nil s : whichLayersWouldBlock s = [] <-> layers_allow s = true.
Proof. destruct s as [m [] [] []]; by split. Qed.

(** A lineage grown by hops the gate did not reject. *)
Inductive grown (s : Settings) : list Identity -> Prop :=
| grown_nil : grown s []
| grown_hop l t : grown s l -> ToError (Decide l t s) t = None -> grown s (l ++ [t]).

Lemma Decide_enforce l t s :
  Mode s <> ModePermissive -> Mode s <> ModeWarn -> layers_allow s = false ->
  (Outcome (Decide l t s) = OutcomeRejected <-> t ∈ l).
Proof.
  intros H1 H2 Hl. rewrite <- Contains_spec. unfold Decide. destruct (Contains l t); simpl; [|done].
  rewrite !(bool_decide_eq_false_2 (Mode s = _)) by done.
  destruct (whichLayersWouldBlock s) eqn:E; [apply whichLayersWouldBlock_nil in E; congruence|].
  by case_bool_decide.
Qed.

(** The gate stops delegation cycles: outside the warn and permissive
    modes, if any layer denies self-recursion then every lineage grown by hops
    the gate lets through is free of repetitions, so it is no longer than the
    number of (runtime, pool) identities there are; and a rejection names the
    first denying layer in the declared order together with the target. *)
Theorem gate_stops_cycles (s : Settings) (l : list Identity) (universe : list Identity) (t : Identity) :
  Mode s <> ModePermissive -> Mode s <> ModeWarn -> layers_allow s = false ->
  grown s l ->
  NoDup l /\ (l ⊆ universe -> length l <= length universe) /\
  (t ∈ l -> exists f rest, whichLayersWouldBlock s = f :: rest /\
     ToError (Decide l t s) t = Some (mkRejection f s (RuntimeName t) (PoolName t))).
Proof.
  intros H1 H2 Hl Hg.
  assert (NoDup l) as Hnd.
  { induction Hg as [|l' t' _ IH He]; [constructor|]. apply NoDup_app. split_and!; [done| |apply NoDup_singleton].
    intros x Hx ->%list_elem_of_singleton. apply (Decide_enforce l' t' s H1 H2 Hl) in Hx.
    unfold ToError in He. by rewrite (bool_decide_eq_true_2 _ Hx) in He. }
  split_and!; [done| |].
  - intros Hsub. by apply submseteq_length, NoDup_submseteq.
  - intros Ht. destruct (whichLayersWouldBlock s) as [|f rest] eqn:E.
    { apply whichLayersWouldBlock_nil in E. congruence. }
    exists f, rest. split; [done|]. apply Contains_spec in Ht.
    unfold ToError, Decide. rewrite Ht, E. simpl.
    rewrite (bool_decide_eq_false_2 _ H1), (bool_decide_eq_false_2 _ H2).
    destruct (bool_decide (Mode s = ModeEnforce)); reflexivity.
Qed.

Lemma gate_stops_cycles_witness :
  NoDup [mkIdentity "agent" "gpu"; mkIdentity "agent" "cpu"].
Proof.
  refine (proj1 (gate_stops_cycles (mkSettings ModeEnforce true false true)
    [mkIdentity "agent" "gpu"; mkIdentity "agent" "cpu"] [] (mkIdentity "agent" "gpu") _ _ _ _)).
  - discriminate.
  - discriminate.
  - reflexivity.
  - apply (grown_hop _ [mkIdentity "agent" "gpu"]); [apply (grown_hop _ []); [constructor|]|];
      vm_compute; reflexivity.
Defined.

(** In an unrecognised mode the gate is stricter than enforce: it rejects
    a self-recursive hop even when every layer allows it, which enforce
    admits. *)
Theorem unknown_mode_stricter_than_enforce (l : list Identity) (t : Identity) (m : string) :
  ModeIsValid m = false -> t ∈ l ->
  Outcome (Decide l t (mkSettings m true true true)) = OutcomeRejected /\
  Outcome (Decide l t (mkSettings ModeEnforce true true true)) = OutcomeAdmitted.
Proof.
  intros Hm Ht. apply Contains_spec in Ht. unfold Decide. rewrite Ht. simpl.
  unfold ModeIsValid, AllModes in Hm. simpl in Hm. simplify_bool.
  rewrite !(bool_decide_eq_false_2 (m = _)) by done. done.
Qed.

Lemma unknown_mode_stricter_than_enforce_witness :
  Outcome (Decide [mkIdentity "a" "p"] (mkIdentity "a" "p") (mkSettings "strict" true true true))
  = OutcomeRejected.
Proof.
  refine (proj1 (unknown_mode_stricter_than_enforce [mkIdentity "a" "p"] (mkIdentity "a" "p") "strict" _ _)).
  - vm_compute. reflexivity.
  - constructor.
Defined.
End Cycle.
