(* ===== verification/Breakers.v ===== *)
(** * Circuit breakers

    [Admission] is the operator-managed breaker that rejects requests by
    scope ([pkg/circuitbreaker]); [SDKWarm] is the pool-scaling controller's
    automatic breaker on the demotion rate
    ([pkg/controller/poolscaling/circuitbreaker.go]). *)

From S2P Require Import Prelude.
From Stdlib Require Import SpecFloat.

Module Admission.

Definition StateClosed : string := "closed".
Definition StateOpen : string := "open".
Definition AllStates : list string := [StateClosed; StateOpen].
Definition StateIsValid (s : string) : bool :=
  bool_decide (s = StateClosed) || bool_decide (s = StateOpen).

Definition TierRuntime : string := "runtime".
Definition TierPool : string := "pool".
Definition TierConnector : string := "connector".
Definition TierOperationType : string := "operation_type".
Definition AllTiers : list string := [TierRuntime; TierPool; TierConnector; TierOperationType].
Definition TierIsValid (t : string) : bool := existsb (fun v => bool_decide (t = v)) AllTiers.

Definition OpUploads : string := "uploads".
Definition OpDelegationDepth : string := "delegation_depth".
Definition OpSessionCreation : string := "session_creation".
Definition OpMessageInjection : string := "message_injection".
Definition AllOperationTypes : list string :=
  [OpUploads; OpDelegationDepth; OpSessionCreation; OpMessageInjection].
Definition OperationIsValid (o : string) : bool :=
  existsb (fun v => bool_decide (o = v)) AllOperationTypes.

Record Scope := mkScope {
  Runtime : string; Pool : string; Connector : string; OperationType : string
}.

#[export] Instance Scope_eq_dec : EqDecision Scope.
Proof. solve_decision. Defined.

Record Breaker := mkBreaker {
  Name : string;
  State : string;
  Reason : string;
  OpenedAt : Time;
  OpenedBySub : string;
  OpenedByTenantID : string;
  LimitTier : string;
  BScope : Scope
}.

(** The field a scope error names. *)
Record ScopeError := mkScopeError { Field : string }.

Definition ValidateForTier (s : Scope) (t : string) : result ScopeError unit :=
  if bool_decide (t = TierRuntime) then
    if is_empty (Runtime s) then Err (mkScopeError "scope.runtime")
    else if negb (is_empty (Pool s)) || negb (is_empty (Connector s)) || negb (is_empty (OperationType s))
    then Err (mkScopeError "scope") else Ok tt
  else if bool_decide (t = TierPool) then
    if is_empty (Pool s) then Err (mkScopeError "scope.pool")
    else if negb (is_empty (Runtime s)) || negb (is_empty (Connector s)) || negb (is_empty (OperationType s))
    then Err (mkScopeError "scope") else Ok tt
  else if bool_decide (t = TierConnector) then
    if is_empty (Connector s) then Err (mkScopeError "scope.connector")
    else if negb (is_empty (Runtime s)) || negb (is_empty (Pool s)) || negb (is_empty (OperationType s))
    then Err (mkScopeError "scope") else Ok tt
  else if bool_decide (t = TierOperationType) then
    if is_empty (OperationType s) then Err (mkScopeError "scope.operation_type")
    else if negb (OperationIsValid (OperationType s)) then Err (mkScopeError "scope.operation_type")
    else if negb (is_empty (Runtime s)) || negb (is_empty (Pool s)) || negb (is_empty (Connector s))
    then Err (mkScopeError "scope") else Ok tt
  else Err (mkScopeError "limit_tier").

Definition Validate (b : Breaker) : result ScopeError unit :=
  if is_empty (Name b) then Err (mkScopeError "name")
  else if negb (StateIsValid (State b)) then Err (mkScopeError "state")
  else if negb (TierIsValid (LimitTier b)) then Err (mkScopeError "limit_tier")
  else ValidateForTier (BScope b) (LimitTier b).

(** A request snapshot has the fields of a scope. *)
Definition Request : Type := Scope.

Definition Match (b : Breaker) (r : Request) : bool :=
  if negb (bool_decide (State b = StateOpen)) then false
  else if bool_decide (LimitTier b = TierRuntime) then
    negb (is_empty (Runtime (BScope b))) && bool_decide (Runtime (BScope b) = Runtime r)
  else if bool_decide (LimitTier b = TierPool) then
    negb (is_empty (Pool (BScope b))) && bool_decide (Pool (BScope b) = Pool r)
  else if bool_decide (LimitTier b = TierConnector) then
    negb (is_empty (Connector (BScope b))) && bool_decide (Connector (BScope b) = Connector r)
  else if bool_decide (LimitTier b = TierOperationType) then
    negb (is_empty (OperationType (BScope b))) && bool_decide (OperationType (BScope b) = OperationType r)
  else false.

Fixpoint FirstMatch (breakers : list Breaker) (r : Request) : option Breaker :=
  match breakers with
  | [] => None
  | b :: breakers => if Match b r then Some b else FirstMatch breakers r
  end.

Definition ScopeMatches (a b : Breaker) : bool :=
  bool_decide (LimitTier a = LimitTier b)
  && bool_decide (Runtime (BScope a) = Runtime (BScope b))
  && bool_decide (Pool (BScope a) = Pool (BScope b))
  && bool_decide (Connector (BScope a) = Connector (BScope b))
  && bool_decide (OperationType (BScope a) = OperationType (BScope b)).

(** ** Lemmas *)

(** The value of the field a tier compares. *)
Definition tier_field (t : string) (s : Scope) : string :=
  if bool_decide (t = TierRuntime) then Runtime s
  else if bool_decide (t = TierPool) then Pool s
  else if bool_decide (t = TierConnector) then Connector s
  else if bool_decide (t = TierOperationType) then OperationType s
  else "".

(** The scope with only that field set. *)
Definition tier_scope (t v : string) : Scope :=
  mkScope (if bool_decide (t = TierRuntime) then v else "")
    (if bool_decide (t = TierPool) then v else "")
    (if bool_decide (t = TierConnector) then v else "")
    (if bool_decide (t = TierOperationType) then v else "").

Lemma Match_spec b r :
  Match b r = bool_decide (State b = StateOpen) && negb (is_empty (tier_field (LimitTier b) (BScope b)))
              && bool_decide (tier_field (LimitTier b) (BScope b) = tier_field (LimitTier b) r).
Proof.
  unfold Match, tier_field. destruct (bool_decide (State b = StateOpen)); [|done]. simpl.
  by repeat case_match.
Qed.

Lemma Validate_scope b :
  Validate b = Ok tt ->
  tier_field (LimitTier b) (BScope b) <> "" /\
  BScope b = tier_scope (LimitTier b) (tier_field (LimitTier b) (BScope b)).
Proof.
  unfold Validate. destruct (is_empty (Name b)); [done|]. destruct (StateIsValid (State b)); [|done].
  destruct (TierIsValid (LimitTier b)); [|done]. cbn [negb]. destruct (BScope b) as [ru po co op].
  unfold ValidateForTier, tier_field, tier_scope; simpl.
  destruct (decide (LimitTier b = TierRuntime)) as [->|H1];
    [|destruct (decide (LimitTier b = TierPool)) as [->|H2];
      [|destruct (decide (LimitTier b = TierConnector)) as [->|H3];
        [|destruct (decide (LimitTier b = TierOperationType)) as [->|H4]]]].
  all: rewrite ?bool_decide_eq_false_2 by done; simpl.
  all: unfold is_empty; repeat case_bool_decide; simpl; try done; subst; try done.
  all: destruct (OperationIsValid op); done.
Qed.

Lemma FirstMatch_Some l r b :
  FirstMatch l r = Some b <->
  exists l1 l2, l = l1 ++ b :: l2 /\ Match b r = true /\ Forall (fun x => Match x r = false) l1.
Proof.
  induction l as [|x l IH]; simpl.
  { split; [done|]. intros (l1 & l2 & Hl & _). by destruct l1. }
  destruct (Match x r) eqn:Hx.
  - split.
    + intros [= <-]. by exists [], l.
    + intros ([|y l1] & l2 & Hl & Hb & Hall); injection Hl as -> ->; [done|].
      apply Forall_cons in Hall as [Hy _]. congruence.
  - rewrite IH. split.
    + intros (l1 & l2 & -> & Hb & Hall). exists (x :: l1), l2. split_and!; [done|done|by constructor].
    + intros ([|y l1] & l2 & Hl & Hb & Hall); injection Hl as -> ->; [congruence|].
      apply Forall_cons in Hall as [_ Hall]. by exists l1, l2.
Qed.

Lemma FirstMatch_None l r : FirstMatch l r = None <-> Forall (fun x => Match x r = false) l.
Proof.
  induction l as [|x l IH]; simpl; [by split|]. rewrite Forall_cons, <- IH.
  destruct (Match x r); naive_solver.
Qed.

(** Admission by breakers: for admissible breakers, a request is rejected
    exactly when some open breaker's single scope value equals the request's
    field of that breaker's tier, and the breaker reported is the first such;
    neither the name nor any other field matters, so re-opening a breaker
    with the same tier and scope rejects the same requests. *)
Theorem breaker_admission (breakers : list Breaker) (r : Request) (a b : Breaker) :
  Forall (fun x => Validate x = Ok tt) breakers ->
  (FirstMatch breakers r <> None <->
     exists x v, x ∈ breakers /\ State x = StateOpen /\ v <> "" /\
       BScope x = tier_scope (LimitTier x) v /\ tier_field (LimitTier x) r = v) /\
  (forall x, FirstMatch breakers r = Some x ->
     exists l1 l2, breakers = l1 ++ x :: l2 /\ Forall (fun y => Match y r = false) l1) /\
  (ScopeMatches a b = true -> State a = State b -> Match a r = Match b r).
Proof.
  intros Hval. split_and!.
  - rewrite FirstMatch_None. rewrite Forall_forall in Hval. split.
    + intros Hn. apply not_Forall_Exists in Hn; [|intros x; apply _].
      apply Exists_exists in Hn as (x & Hx & Hm). apply not_false_iff_true in Hm.
      rewrite Match_spec in Hm. simplify_bool. destruct (Validate_scope x (Hval x Hx)) as [Hne Hs].
      exists x, (tier_field (LimitTier x) (BScope x)). done.
    + intros (x & v & Hx & Ho & Hv & Hs & Hf). rewrite Forall_forall. intros Hall.
      specialize (Hall x Hx). destruct (Validate_scope x (Hval x Hx)) as [Hne Hs'].
      assert (tier_field (LimitTier x) (BScope x) = v) as Ev.
      { revert Hne. rewrite Hs. unfold tier_field, tier_scope. simpl. by repeat case_bool_decide. }
      rewrite Match_spec, Ev, Hf, Ho, !bool_decide_eq_true_2, is_empty_false in Hall by done. done.
  - intros x (l1 & l2 & -> & _ & Hall)%FirstMatch_Some. by exists l1, l2.
  - intros Hsm Hst. unfold ScopeMatches in Hsm. simplify_bool.
    assert (BScope a = BScope b) as Es by (destruct (BScope a), (BScope b); simpl in *; congruence).
    assert (LimitTier a = LimitTier b) as Et by done. by rewrite !Match_spec, Es, Et, Hst.
Qed.

Lemma breaker_admission_witness :
  FirstMatch [mkBreaker "b" StateOpen "" 0 "" "" TierPool (mkScope "" "gpu" "" "")]
    (mkScope "r" "gpu" "" "") <> None.
Proof.
  refine (proj2 (proj1 (breaker_admission
    [mkBreaker "b" StateOpen "" 0 "" "" TierPool (mkScope "" "gpu" "" "")]
    (mkScope "r" "gpu" "" "") _ _ _)) _).
  - exact (mkBreaker "b" StateOpen "" 0 "" "" TierPool (mkScope "" "gpu" "" "")).
  - exact (mkBreaker "b" StateOpen "" 0 "" "" TierPool (mkScope "" "gpu" "" "")).
  - repeat constructor.
  - exists (mkBreaker "b" StateOpen "" 0 "" "" TierPool (mkScope "" "gpu" "" "")), "gpu".
    split; [constructor|]. repeat split. discriminate.
Defined.
End Admission.

Module SDKWarm.

(** The binary64 nearest to 0.90. *)
Definition SDKWarmDemotionRateTripThreshold : F64.t := S754_finite false 8106479329266893 (-53).

Definition defaultSDKWarmCircuitBreakerMinOpen : Duration := (30 * Minute)%Z.

Definition breakerReasonDemotionRate : string := "demotion_rate_exceeded".
Definition breakerReasonOperatorManual : string := "operator_manual".

Record BreakerState := mkState {
  Open : bool;
  OpenedAt : option Time;
  OpenedReason : string;
  MinOpenUntil : option Time
}.

Definition closed_state : BreakerState := mkState false None "" None.

Record BreakerInputs := mkInputs {
  DemotionRate : F64.t;
  HasWindowSample : bool;
  Current : BreakerState;
  MinOpenDuration : Duration;
  Now : Time
}.

Record BreakerDecision := mkDecision { State : BreakerState; SDKWarmDisabled : bool }.

Definition tripDecision (now : Time) (minOpen : Duration) : BreakerDecision :=
  mkDecision (mkState true (Some now) breakerReasonDemotionRate (Some (time_add now minOpen))) true.

Definition openDecision (cur : BreakerState) : BreakerDecision := mkDecision cur true.

Definition closedDecision : BreakerDecision := mkDecision closed_state false.

Definition EvaluateBreaker (i : BreakerInputs) : BreakerDecision :=
  let minOpen := if (MinOpenDuration i <? 0)%Z then defaultSDKWarmCircuitBreakerMinOpen
                 else MinOpenDuration i in
  let tripped := F64.leb SDKWarmDemotionRateTripThreshold (DemotionRate i) in
  if negb (Open (Current i)) then
    if tripped then tripDecision (Now i) minOpen else closedDecision
  else if (match MinOpenUntil (Current i) with
           | Some u => time_before (Now i) u
           | None => false
           end) then openDecision (Current i)
  else if negb (HasWindowSample i) then openDecision (Current i)
  else if tripped then tripDecision (Now i) minOpen
  else closedDecision.

Definition operatorDisabledDecision (cur : BreakerState) (now : Time) : BreakerDecision :=
  let openedAt := match OpenedAt cur with
                  | Some t => if Open cur && bool_decide (OpenedReason cur = breakerReasonOperatorManual)
                              then t else now
                  | None => now
                  end in
  mkDecision (mkState true (Some openedAt) breakerReasonOperatorManual None) true.

(** The persisted carve-out; [None] is the nil status. *)
Record Status := mkStatus {
  StOpenedAt : option Time; StOpenedReason : string; StMinOpenUntil : option Time
}.

Definition breakerStateFromStatus (s : option Status) : BreakerState :=
  match s with
  | None => closed_state
  | Some s =>
      match StOpenedAt s with
      | None => closed_state
      | Some t => mkState true (Some t) (StOpenedReason s) (StMinOpenUntil s)
      end
  end.

Definition breakerStatusFromState (st : BreakerState) : option Status :=
  if negb (Open st) then None
  else Some (mkStatus (OpenedAt st) (OpenedReason st) (MinOpenUntil st)).

(** An unset policy or field is [None]. *)
Definition scalePolicyMinOpenDuration (secs : option Z) : Duration :=
  match secs with
  | None => defaultSDKWarmCircuitBreakerMinOpen
  | Some secs => if (secs <=? 0)%Z then 0%Z else wrap64 (secs * Second)
  end.

(** ** Reconciles and failovers *)

(** One reconcile by whichever leader: the state is read back from the
    persisted status, so nothing else survives. *)
Record Observation := mkObs { rate : F64.t; sample : bool; minOpen : Duration; now : Time }.

Definition reconcile (st : option Status) (o : Observation) : option Status :=
  breakerStatusFromState (State (EvaluateBreaker
    (mkInputs (rate o) (sample o) (breakerStateFromStatus st) (minOpen o) (now o)))).

Definition state_wf (st : BreakerState) : Prop :=
  if Open st then is_Some (OpenedAt st) else st = closed_state.

Lemma status_roundtrip st :
  state_wf st -> breakerStateFromStatus (breakerStatusFromState st) = st.
Proof.
  unfold state_wf. destruct st as [[] oa re mu]; simpl; [|by intros [= -> -> ->]].
  intros [t Ht]. subst oa. done.
Qed.

Lemma Evaluate_wf i : state_wf (Current i) -> state_wf (State (EvaluateBreaker i)) /\
  SDKWarmDisabled (EvaluateBreaker i) = Open (State (EvaluateBreaker i)).
Proof.
  intros Hwf. unfold EvaluateBreaker. destruct (Open (Current i)) eqn:Ho; simpl.
  - repeat case_match; simpl; split; try done; by eexists.
  - repeat case_match; simpl; split; try done; by eexists.
Qed.

Lemma reconcile_in_grace st u o :
  Open st = true -> state_wf st -> MinOpenUntil st = Some u -> time_before (now o) u = true ->
  reconcile (breakerStatusFromState st) o = breakerStatusFromState st.
Proof.
  intros Ho Hwf Hu Hn. unfold reconcile. rewrite (status_roundtrip st Hwf).
  unfold EvaluateBreaker. simpl. rewrite Ho, Hu, Hn. done.
Qed.

(** The grace window survives failover: once the breaker has tripped at
    [t], every sequence of reconciles by any leaders before [t] plus the
    grace window leaves the persisted status unchanged, whatever rates they
    measure; and when a reconcile closes an open breaker, the window has
    elapsed, the leader has a usable sample and the rate is below the
    threshold. *)
Theorem grace_window_survives_failover (t : Time) (grace : Duration) (obs : list Observation)
    (st : BreakerState) (o : Observation) :
  (0 <= grace)%Z -> Forall (fun o => now o < t + grace)%Z obs ->
  let tripped := breakerStatusFromState (State (tripDecision t grace)) in
  foldl reconcile tripped obs = tripped /\
  (state_wf st -> Open st = true -> reconcile (breakerStatusFromState st) o = None ->
   (forall u, MinOpenUntil st = Some u -> u <= now o)%Z /\ sample o = true /\
   F64.leb SDKWarmDemotionRateTripThreshold (rate o) = false).
Proof.
  intros Hg Hobs tripped. split.
  - induction Hobs as [|x obs Hx _ IH]; [done|]. simpl.
    assert (reconcile tripped x = tripped) as ->; [|exact IH].
    apply (reconcile_in_grace _ (t + grace)%Z); try done; [by eexists|]. unfold time_before. lia.
  - intros Hwf Ho. unfold reconcile. rewrite (status_roundtrip st Hwf).
    unfold EvaluateBreaker. simpl. rewrite Ho. simpl.
    destruct (match MinOpenUntil st with Some u => time_before (now o) u | None => false end) eqn:Hu.
    { simpl. unfold breakerStatusFromState. by rewrite Ho. }
    destruct (sample o); simpl; [|unfold breakerStatusFromState; by rewrite Ho].
    destruct (F64.leb _ _); [done|]. intros _. split_and!; [|done|done].
    intros u E. rewrite E in Hu. unfold time_before in Hu. simplify_bool. lia.
Qed.

Lemma grace_window_survives_failover_witness :
  foldl reconcile (breakerStatusFromState (State (tripDecision 1000 500)))
    [mkObs F64.zero true 500 1200] = breakerStatusFromState (State (tripDecision 1000 500)).
Proof.
  refine (proj1 (grace_window_survives_failover 1000 500 [mkObs F64.zero true 500 1200]
                   closed_state (mkObs F64.zero true 500 1200) _ _)).
  - discriminate.
  - repeat constructor.
Defined.
End SDKWarm.
