(* ===== verification/Text.v ===== *)
(** * Text: the parts of Go's [strings] package the token code uses

    Go strings are byte strings.  [space_len] recognises the UTF-8 encoding of
    the runes [unicode.IsSpace] accepts; because a leading byte is never a
    continuation byte, scanning bytewise finds exactly the runes the decoder
    finds, also in text that is not valid UTF-8.  On it stand [TrimSpace],
    [Fields], [Split] on one character and [Join], with the lemmas that relate
    them; then [unicode/utf8] on byte strings. *)

From S2P Require Import Prelude.

(** ** White space *)

(** The byte length of the white-space rune at the head of [s], zero if there
    is none. *)
Definition space_len (s : string) : nat :=
  match s with
  | EmptyString => 0
  | String a s1 =>
      let a := N_of_ascii a in
      if (N.leb 9 a && N.leb a 13) || N.eqb a 32 then 1
      else match s1 with
           | EmptyString => 0
           | String b s2 =>
               let b := N_of_ascii b in
               if N.eqb a 194 && (N.eqb b 133 || N.eqb b 160) then 2
               else match s2 with
                    | EmptyString => 0
                    | String c _ =>
                        let c := N_of_ascii c in
                        if (N.eqb a 225 && N.eqb b 154 && N.eqb c 128)
                           || (N.eqb a 226 && N.eqb b 128
                               && ((N.leb 128 c && N.leb c 138) || N.eqb c 168 || N.eqb c 169 || N.eqb c 175))
                           || (N.eqb a 226 && N.eqb b 129 && N.eqb c 159)
                           || (N.eqb a 227 && N.eqb b 128 && N.eqb c 128)
                        then 3 else 0
                    end
           end
  end.

(** [strings.TrimLeftFunc(s, unicode.IsSpace)]; [skip] counts the bytes left
    of a white-space rune already recognised. *)
Fixpoint trim_left (skip : nat) (s : string) : string :=
  match s with
  | EmptyString => ""
  | String c s' =>
      match skip with
      | S k => trim_left k s'
      | O => match space_len s with
             | O => s
             | S k => trim_left k s'
             end
      end
  end.

(** [strings.TrimRightFunc(s, unicode.IsSpace)]: cut at the first point after
    which only white space remains. *)
Fixpoint trim_right (s : string) : string :=
  match s with
  | EmptyString => ""
  | String c s' => if is_empty (trim_left 0 s) then "" else String c (trim_right s')
  end.

Definition trim_space (s : string) : string := trim_right (trim_left 0 s).

(** ** Fields *)

Definition flush (r : string * list string) : list string :=
  if is_empty r.1 then r.2 else r.1 :: r.2.

(** The token that continues at the head of [s], and the tokens after it. *)
Fixpoint fields_go (skip : nat) (s : string) : string * list string :=
  match s with
  | EmptyString => ("", [])
  | String c s' =>
      match skip with
      | S k => fields_go k s'
      | O => match space_len s with
             | O => let r := fields_go 0 s' in (String c r.1, r.2)
             | S k => ("", flush (fields_go k s'))
             end
      end
  end.

Definition fields (s : string) : list string := flush (fields_go 0 s).

(** No white space anywhere. *)
Fixpoint no_space (s : string) : bool :=
  match s with
  | EmptyString => true
  | String _ s' => (space_len s =? 0)%nat && no_space s'
  end.

(** ** Split and Join *)

Fixpoint split (sep : ascii) (s : string) : list string :=
  match s with
  | EmptyString => [""]
  | String d s' =>
      if Ascii.eqb sep d then "" :: split sep s'
      else match split sep s' with
           | h :: t => String d h :: t
           | [] => [String d ""]
           end
  end.

Fixpoint join (sep : string) (l : list string) : string :=
  match l with
  | [] => ""
  | [x] => x
  | x :: l' => x +:+ sep +:+ join sep l'
  end.

(** ** Runes of a byte string *)

(** The byte length of the valid UTF-8 sequence at the head of [s]; [None] when
    there is none, which Go's decoder treats as one invalid byte. *)
Definition rune_size (s : string) : option nat :=
  let in_ (lo hi : N) (c : ascii) := N.leb lo (N_of_ascii c) && N.leb (N_of_ascii c) hi in
  let cont := in_ 128%N 191%N in
  match s with
  | EmptyString => None
  | String a s1 =>
      if in_ 0%N 127%N a then Some 1
      else match s1 with
           | EmptyString => None
           | String b s2 =>
               if in_ 194%N 223%N a then (if cont b then Some 2 else None)
               else match s2 with
                    | EmptyString => None
                    | String c s3 =>
                        let b_ok :=
                          if in_ 224%N 224%N a then in_ 160%N 191%N b
                          else if in_ 237%N 237%N a then in_ 128%N 159%N b
                          else in_ 225%N 239%N a && cont b in
                        if in_ 224%N 239%N a then (if b_ok && cont c then Some 3 else None)
                        else match s3 with
                             | EmptyString => None
                             | String d _ =>
                                 let b_ok :=
                                   if in_ 240%N 240%N a then in_ 144%N 191%N b
                                   else if in_ 244%N 244%N a then in_ 128%N 143%N b
                                   else in_ 241%N 243%N a && cont b in
                                 if b_ok && cont c && cont d then Some 4 else None
                             end
                    end
           end
  end.

(** [utf8.RuneCountInString]; [skip] counts the bytes left of a rune already
    counted. *)
Fixpoint rune_count_go (skip : nat) (s : string) : nat :=
  match s with
  | EmptyString => 0
  | String _ s' =>
      match skip with
      | S k => rune_count_go k s'
      | O => S (rune_count_go (match rune_size s with Some n => pred n | None => 0 end) s')
      end
  end.

Definition rune_count (s : string) : nat := rune_count_go 0 s.

(** [utf8.ValidString]. *)
Fixpoint valid_utf8_go (skip : nat) (s : string) : bool :=
  match s with
  | EmptyString => true
  | String _ s' =>
      match skip with
      | S k => valid_utf8_go k s'
      | O => match rune_size s with
             | Some n => valid_utf8_go (pred n) s'
             | None => false
             end
      end
  end.

Definition valid_utf8 (s : string) : bool := valid_utf8_go 0 s.

(** [strings.ToValidUTF8] with U+FFFD for each invalid byte, which is how
    [encoding/json] writes a string. *)
Definition RuneError : string := String "239" (String "191" (String "189" "")).

Fixpoint to_valid_go (skip : nat) (s : string) : string :=
  match s with
  | EmptyString => ""
  | String c s' =>
      match skip with
      | S k => String c (to_valid_go k s')
      | O => match rune_size s with
             | Some n => String c (to_valid_go (pred n) s')
             | None => RuneError +:+ to_valid_go 0 s'
             end
      end
  end.

Definition to_valid (s : string) : string := to_valid_go 0 s.

(** The rune at the head of [s], U+FFFD for an invalid byte, and the runes of
    [s] as a [range] loop over it yields them. *)
Definition byte (c : ascii) : Z := Z.of_N (N_of_ascii c).

Definition rune_at (s : string) : Z :=
  match rune_size s, s with
  | Some 1%nat, String a _ => byte a
  | Some 2%nat, String a (String b _) => (byte a - 192) * 64 + (byte b - 128)
  | Some 3%nat, String a (String b (String c _)) => (byte a - 224) * 4096 + (byte b - 128) * 64 + (byte c - 128)
  | Some 4%nat, String a (String b (String c (String d _))) =>
      (byte a - 240) * 262144 + (byte b - 128) * 4096 + (byte c - 128) * 64 + (byte d - 128)
  | _, _ => 65533
  end%Z.

Fixpoint runes_go (skip : nat) (s : string) : list Z :=
  match s with
  | EmptyString => []
  | String _ s' =>
      match skip with
      | S k => runes_go k s'
      | O => rune_at s :: runes_go (match rune_size s with Some n => pred n | None => 0 end) s'
      end
  end.

Definition utf8_runes (s : string) : list Z := runes_go 0 s.

(** [strings.HasSuffix]. *)
Fixpoint has_suffix (s suffix : string) : bool :=
  bool_decide (s = suffix) || match s with EmptyString => false | String _ s' => has_suffix s' suffix end.

(** ** Lemmas *)

Lemma to_valid_go_id s : forall k, valid_utf8_go k s = true -> to_valid_go k s = s.
Proof.
  induction s as [|c s IH]; intros k; [done|]. cbn [valid_utf8_go to_valid_go].
  destruct k as [|k]; [|intros H; by rewrite IH].
  destruct (rune_size (String c s)) as [n|]; [|done]. intros H. by rewrite IH.
Qed.

Lemma to_valid_id s : valid_utf8 s = true -> to_valid s = s.
Proof. apply to_valid_go_id. Qed.

(** Valid text is a sequence of encoded runes. *)
Inductive encoded : string -> list Z -> Prop :=
| enc_nil : encoded "" []
| enc_1 a s l : (0 <= byte a < 128)%Z -> encoded s l -> encoded (String a s) (byte a :: l)
| enc_2 a b s l : (194 <= byte a < 224)%Z -> (128 <= byte b < 192)%Z -> encoded s l ->
    encoded (String a (String b s)) (((byte a - 192) * 64 + (byte b - 128))%Z :: l)
| enc_3 a b c s l : (224 <= byte a < 240)%Z -> (128 <= byte b < 192)%Z -> (128 <= byte c < 192)%Z ->
    (byte a = 224 -> 160 <= byte b)%Z -> (byte a = 237 -> byte b < 160)%Z -> encoded s l ->
    encoded (String a (String b (String c s)))
      (((byte a - 224) * 4096 + (byte b - 128) * 64 + (byte c - 128))%Z :: l)
| enc_4 a b c d s l : (240 <= byte a < 245)%Z -> (128 <= byte b < 192)%Z -> (128 <= byte c < 192)%Z ->
    (128 <= byte d < 192)%Z -> (byte a = 240 -> 144 <= byte b)%Z -> (byte a = 244 -> byte b < 144)%Z -> encoded s l ->
    encoded (String a (String b (String c (String d s))))
      (((byte a - 240) * 262144 + (byte b - 128) * 4096 + (byte c - 128) * 64 + (byte d - 128))%Z :: l).

Lemma byte_range lo hi c : N.leb lo (N_of_ascii c) && N.leb (N_of_ascii c) hi = true <->
  (Z.of_N lo <= byte c <= Z.of_N hi)%Z.
Proof. unfold byte. rewrite andb_true_iff, !N.leb_le. lia. Qed.

Lemma byte_range_false lo hi c : N.leb lo (N_of_ascii c) && N.leb (N_of_ascii c) hi = false <->
  ~ (Z.of_N lo <= byte c <= Z.of_N hi)%Z.
Proof. rewrite <- byte_range, not_true_iff_false. done. Qed.

Lemma byte_inj a b : byte a = byte b -> a = b.
Proof. unfold byte. intros E%N2Z.inj. rewrite <- (ascii_N_embedding a), <- (ascii_N_embedding b). by f_equal. Qed.

Lemma valid_encoded_len n s : String.length s <= n -> valid_utf8 s = true -> encoded s (utf8_runes s).
Proof.
  unfold valid_utf8, utf8_runes. revert s. induction n as [|n IH]; intros [|a s] Hn; [by constructor|cbn in Hn; lia|by constructor|].
  cbn [String.length] in Hn. cbn [valid_utf8_go runes_go].
  destruct (rune_size (String a s)) as [k|] eqn:Ek; [|done]. pose proof Ek as Er. revert Ek.
  assert (0 <= byte a < 256)%Z as Ha by (unfold byte; pose proof (N_ascii_bounded a); lia).
  destruct s as [|b [|c [|d s]]]; cbn [rune_size]; cbv zeta; repeat case_match; try done; intros [= <-];
    repeat match goal with
    | H : _ && _ && _ && _ = true |- _ => apply andb_true_iff in H as [??]
    | H : (_ && _) && (_ && _) = true |- _ => apply andb_true_iff in H as [??]
    end;
    repeat match goal with
    | H : N.leb _ _ && N.leb _ _ = true |- _ => apply byte_range in H
    | H : N.leb _ _ && N.leb _ _ = false |- _ => apply byte_range_false in H
    | H : _ && _ = true |- _ => apply andb_true_iff in H as [??]
    end; unfold rune_at; rewrite Er; cbn [pred valid_utf8_go runes_go]; intros Hv; constructor; try lia;
    apply IH; cbn [String.length] in *; try lia; done.
Qed.

Lemma valid_encoded s : valid_utf8 s = true -> encoded s (utf8_runes s).
Proof. by apply (valid_encoded_len (String.length s)). Qed.

Lemma encoded_inj s t l : encoded s l -> encoded t l -> s = t.
Proof.
  intros Hs. revert t. induction Hs; intros t Ht; inversion Ht; subst; try lia; [done|..];
    repeat match goal with |- String ?a _ = String ?b _ =>
      replace b with a by (apply byte_inj; lia); f_equal end; auto.
Qed.

Lemma encoded_range s l : encoded s l -> Forall (fun r => 0 <= r < 55296 \/ 57344 <= r <= 1114111)%Z l.
Proof. induction 1; constructor; try done; lia. Qed.

(** Decoding is exact on valid text. *)
Lemma utf8_runes_inj s t : valid_utf8 s = true -> valid_utf8 t = true -> utf8_runes s = utf8_runes t -> s = t.
Proof. intros Hs%valid_encoded Ht%valid_encoded E. rewrite E in Hs. by eapply encoded_inj. Qed.

Lemma utf8_runes_range s : valid_utf8 s = true -> Forall (fun r => 0 <= r < 55296 \/ 57344 <= r <= 1114111)%Z (utf8_runes s).
Proof. intros H%valid_encoded. by eapply encoded_range. Qed.

Lemma has_suffix_spec s t : has_suffix s t = true <-> exists p, s = p +:+ t.
Proof.
  induction s as [|c s IH]; cbn [has_suffix]; rewrite orb_true_iff, bool_decide_eq_true.
  - split; [intros [<-|]; [by exists ""|done]|]. intros [[|c p] E]; [by left|done].
  - rewrite IH. split; [intros [<-|[p ->]]; [by exists ""|by exists (String c p)]|].
    intros [[|d p] E]; [left; exact E|]. rewrite append_cons in E. injection E as <- E. right. by exists p.
Qed.

Lemma rune_count_go_le s : forall k, rune_count_go k s <= String.length s.
Proof.
  induction s as [|c s IH]; intros k; [done|]. cbn [rune_count_go String.length].
  destruct k as [|k]; [|specialize (IH k); lia].
  match goal with |- context [rune_count_go ?n s] => specialize (IH n); lia end.
Qed.

Lemma rune_count_le s : rune_count s <= String.length s.
Proof. apply rune_count_go_le. Qed.

(** An ASCII prefix is counted byte by byte. *)
Definition ascii_only (s : string) : bool :=
  forallb (fun c => N.leb (N_of_ascii c) 127) (String.list_ascii_of_string s).

Lemma rune_count_ascii_app p s :
  ascii_only p = true -> rune_count (p +:+ s) = String.length p + rune_count s.
Proof.
  unfold rune_count, ascii_only. induction p as [|c p IH]; [done|].
  cbn [String.list_ascii_of_string forallb]. intros [Hc Hp]%andb_true_iff.
  rewrite append_cons. cbn [rune_count_go String.length].
  replace (rune_size (String c (p +:+ s))) with (Some 1); [cbn [pred]; by rewrite IH|].
  cbn [rune_size]. rewrite Hc. by destruct (N_of_ascii c).
Qed.

Lemma join_split c s : join (String c "") (split c s) = s.
Proof.
  induction s as [|d s IH]; [done|].
  cbn [split]. destruct (Ascii.eqb_spec c d) as [->|_].
  - destruct (split d s) as [|h t] eqn:E.
    + destruct s as [|e s]; [done|]. cbn [split] in E.
      destruct (Ascii.eqb d e); [done|]. by destruct (split d s).
    + cbn [join]. rewrite append_nil_l, append_cons, append_nil_l. cbn [join] in IH. by rewrite IH.
  - destruct (split c s) as [|h t] eqn:E.
    + cbn [join] in *. by rewrite <- IH.
    + destruct t; cbn [join] in *; [by rewrite IH|].
      rewrite append_cons. by rewrite IH.
Qed.

Lemma space_len_app p q : space_len p <> 0 -> space_len (p +:+ q) = space_len p.
Proof.
  destruct p as [|a [|b [|c p]]]; [done| | |done].
  - rewrite append_cons, append_nil_l. cbn [space_len].
    destruct (_ || _); [done|]. done.
  - rewrite !append_cons, append_nil_l. cbn [space_len].
    destruct (_ || _); [done|]. destruct (_ && _); done.
Qed.

(** A space character ends every white-space rune before it. *)
Lemma space_len_sp c p q :
  space_len (String c (p +:+ String " " q)) = space_len (String c p).
Proof.
  destruct p as [|b [|d p]]; [| |done].
  - rewrite append_nil_l. cbn [space_len]. destruct (_ || _); [done|].
    change (N_of_ascii " ") with 32%N.
    replace (_ && (N.eqb 32 133 || N.eqb 32 160)) with false by (by destruct (N.eqb (N_of_ascii c) 194)).
    destruct q as [|e q]; [done|].
    change (N.eqb 32 154) with false. change (N.eqb 32 128) with false. change (N.eqb 32 129) with false.
    by rewrite !andb_false_r.
  - rewrite append_cons, append_nil_l. cbn [space_len]. destruct (_ || _); [done|].
    destruct (_ && _); [done|]. change (N_of_ascii " ") with 32%N.
    change (N.leb 128 32) with false. change (N.eqb 32 168) with false. change (N.eqb 32 169) with false.
    change (N.eqb 32 175) with false. change (N.eqb 32 128) with false. change (N.eqb 32 159) with false.
    by rewrite !andb_false_r.
Qed.

Lemma space_len_le s : space_len s <= String.length s.
Proof.
  destruct s as [|a [|b [|c s]]]; cbn [space_len String.length]; repeat case_match; lia.
Qed.

(** *** Words: non-empty text without white space *)

Definition word (t : string) : Prop := t <> "" /\ no_space t = true.

Lemma no_space_prefix p q : no_space (p +:+ q) = true -> no_space p = true.
Proof.
  induction p as [|c p IH]; [done|]. rewrite append_cons. cbn [no_space].
  intros [Hs Hp]%andb_true_iff. apply andb_true_iff. split; [|by apply IH].
  apply Nat.eqb_eq. apply Nat.eqb_eq in Hs.
  destruct (decide (space_len (String c p) = 0)) as [|Hne]; [done|].
  rewrite <- append_cons, (space_len_app _ q Hne) in Hs. done.
Qed.

Lemma fields_go_words s : forall k,
  (k = 0 -> exists q, s = (fields_go k s).1 +:+ q) /\
  no_space (fields_go k s).1 = true /\
  Forall word (fields_go k s).2.
Proof.
  induction s as [|c s IH]; intros k.
  { simpl. split; [by exists ""|]. done. }
  cbn [fields_go]. destruct k as [|k].
  2: { destruct (IH k) as (_ & ? & ?). done. }
  destruct (space_len (String c s)) as [|m] eqn:Es.
  - destruct (IH 0) as (Hq & Hn & Hw). cbn [fst snd].
    destruct (Hq eq_refl) as [q Eq]. split; [intros _; exists q; rewrite append_cons; by rewrite <- Eq|].
    split; [|done]. cbn [no_space]. rewrite Hn, andb_true_r. apply Nat.eqb_eq.
    destruct (decide (space_len (String c (fields_go 0 s).1) = 0)) as [|Hne]; [done|].
    pose proof (space_len_app _ q Hne) as H. rewrite append_cons, <- Eq, Es in H. done.
  - destruct (IH m) as (_ & Hn & Hw). cbn [fst snd]. split; [by intros _; exists (String c s)|].
    split; [done|]. unfold flush. destruct (is_empty _) eqn:E; [done|].
    constructor; [|done]. split; [|done]. intros E'. rewrite E' in E. done.
Qed.

Lemma fields_words s : Forall word (fields s).
Proof.
  destruct (fields_go_words s 0) as (_ & Hn & Hw). unfold fields, flush.
  destruct (is_empty _) eqn:E; [done|]. constructor; [|done].
  split; [|done]. intros E'. rewrite E' in E. done.
Qed.

Lemma word_is_empty t : word t -> is_empty t = false.
Proof. intros [? _]. by apply is_empty_false. Qed.

Lemma fields_go_word t rest :
  no_space t = true -> rest = "" \/ (exists r, rest = String " " r) ->
  fields_go 0 (t +:+ rest) = (t +:+ (fields_go 0 rest).1, (fields_go 0 rest).2).
Proof.
  intros Hn Hr. induction t as [|c t IH].
  { rewrite !append_nil_l. by destruct (fields_go 0 rest). }
  cbn [no_space] in Hn. apply andb_true_iff in Hn as [Hs Hn]. apply Nat.eqb_eq in Hs.
  rewrite !append_cons. cbn [fields_go].
  assert (space_len (String c (t +:+ rest)) = 0) as ->.
  { destruct Hr as [-> | [r ->]]; [|by rewrite space_len_sp].
    rewrite <- Hs. f_equal. f_equal. clear. induction t as [|d t IH]; [done|].
    by rewrite append_cons, IH. }
  rewrite (IH Hn). done.
Qed.

(** [Fields] inverts [Join] on words. *)
Lemma fields_join ts : Forall word ts -> fields (join " " ts) = ts.
Proof.
  induction ts as [|t ts IH]; [done|]. intros [Hw Hws]%Forall_cons. pose proof (proj2 Hw) as Hn.
  destruct ts as [|u ts].
  - cbn [join]. assert (t = t +:+ "") as E.
    { clear. induction t as [|d t IH]; [done|]. by rewrite append_cons, <- IH. }
    rewrite E at 1. unfold fields. rewrite (fields_go_word t "" Hn); [|by left].
    cbn [fields_go fst snd]. rewrite <- E. unfold flush. cbn [fst snd]. by rewrite (word_is_empty _ Hw).
  - change (join " " (t :: u :: ts)) with (t +:+ " " +:+ join " " (u :: ts)).
    rewrite append_cons, append_nil_l.
    unfold fields. rewrite (fields_go_word t _ Hn); [|right; eauto].
    change (fields_go 0 (String " " (join " " (u :: ts)))) with ("", flush (fields_go 0 (join " " (u :: ts)))).
    cbn [fst snd]. fold (fields (join " " (u :: ts))). rewrite (IH Hws).
    assert (t +:+ "" = t) as E.
    { clear. induction t as [|d t IH]; [done|]. by rewrite append_cons, IH. }
    rewrite E. unfold flush. cbn [fst snd]. by rewrite (word_is_empty _ Hw).
Qed.

Lemma trim_left_word t : word t -> trim_left 0 t = t.
Proof.
  destruct t as [|c t]; [by intros [? _]|]. intros [_ Hn]. cbn [no_space] in Hn.
  apply andb_true_iff in Hn as [Hs _]. apply Nat.eqb_eq in Hs. cbn [trim_left]. by rewrite Hs.
Qed.

Lemma trim_right_no_space t : no_space t = true -> trim_right t = t.
Proof.
  induction t as [|c t IH]; [done|]. intros Hn. cbn [trim_right].
  rewrite (trim_left_word (String c t)); [|by split].
  rewrite is_empty_false by done. cbn [no_space] in Hn. apply andb_true_iff in Hn as [_ Hn].
  by rewrite IH.
Qed.

Lemma trim_left_nonblank a t : forall k,
  k <= String.length a -> word t -> trim_left k (a +:+ String " " t) <> "".
Proof.
  induction a as [|c a IH]; intros k Hk Hw.
  - simpl in Hk. assert (k = 0) as -> by lia. rewrite append_nil_l.
    change (trim_left 0 (String " " t)) with (trim_left 0 t).
    rewrite (trim_left_word t Hw). apply Hw.
  - rewrite append_cons. cbn [trim_left]. destruct k as [|k].
    + rewrite space_len_sp. destruct (space_len (String c a)) as [|m] eqn:Es; [done|].
      apply IH; [|done]. pose proof (space_len_le (String c a)) as Hle. rewrite Es in Hle. simpl in Hle. lia.
    + apply IH; [|done]. simpl in Hk. lia.
Qed.

Lemma trim_right_last a t : word t -> trim_right (a +:+ String " " t) = a +:+ String " " t.
Proof.
  intros Hw. induction a as [|c a IH].
  - rewrite append_nil_l. cbn [trim_right].
    pose proof (trim_left_nonblank "" t 0 (Nat.le_0_l _) Hw) as Hb. rewrite append_nil_l in Hb.
    rewrite (is_empty_false _ Hb). by rewrite (trim_right_no_space t (proj2 Hw)).
  - rewrite append_cons. cbn [trim_right].
    pose proof (trim_left_nonblank (String c a) t 0 (Nat.le_0_l _) Hw) as Hb. rewrite append_cons in Hb.
    rewrite (is_empty_false _ Hb). by rewrite IH.
Qed.

Lemma join_snoc sep t ts u : join sep ((t :: ts) ++ [u]) = join sep (t :: ts) +:+ sep +:+ u.
Proof.
  revert t. induction ts as [|v ts IH]; intros t; [done|].
  change ((t :: v :: ts) ++ [u]) with (t :: (v :: ts) ++ [u]).
  change (join sep (t :: v :: ts)) with (t +:+ sep +:+ join sep (v :: ts)).
  rewrite !append_assoc3, <- IH. by destruct ts.
Qed.

(** A joined list of words carries no surrounding white space. *)
Lemma trim_space_join ts : Forall word ts -> trim_space (join " " ts) = join " " ts.
Proof.
  destruct ts as [|t ts]; [done|]. intros Hw.
  assert (trim_left 0 (join " " (t :: ts)) = join " " (t :: ts)) as Hl.
  { apply Forall_cons in Hw as [Hw _]. destruct ts as [|u ts]; [by apply trim_left_word|].
    change (join " " (t :: u :: ts)) with (t +:+ String " " (join " " (u :: ts))).
    destruct t as [|c t]; [by destruct Hw|]. rewrite append_cons. cbn [trim_left].
    rewrite space_len_sp. destruct Hw as [_ Hn]. cbn [no_space] in Hn.
    apply andb_true_iff in Hn as [Hs _]. apply Nat.eqb_eq in Hs. by rewrite Hs. }
  unfold trim_space. rewrite Hl. clear Hl.
  destruct ts as [|v ts _] using rev_ind.
  - apply trim_right_no_space. by apply Forall_cons in Hw as [[_ ?] _].
  - change (t :: ts ++ [v]) with ((t :: ts) ++ [v]) in *. rewrite join_snoc.
    rewrite append_cons, append_nil_l. apply trim_right_last.
    apply Forall_app in Hw as [_ Hv]. by apply Forall_cons in Hv as [? _].
Qed.

Lemma join_nonempty ts : Forall word ts -> ts <> [] -> join " " ts <> "".
Proof.
  destruct ts as [|t ts]; [done|]. intros [[Ht _] _]%Forall_cons _ E.
  destruct t as [|c t]; [done|]. by destruct ts.
Qed.
