(* ===== verification/Scopes.v ===== *)
(** * Scopes: the OAuth scope claim

    Models [pkg/common/scopes/scopes.go] (parsing, matching and intersecting
    the space-separated [tools:<domain>:<action>] claim) and, in [Playground],
    [intersectScope] of [pkg/gateway/mcpfabric/playground/token.go], which
    narrows a subject's claim to the playground ceiling.  The theorems: the
    intersection permits exactly what both operands permit, its text parses
    back to it, and what the playground translation makes of an empty
    intersection. *)

From S2P Require Import Prelude Text.

Definition Wildcard : string := "*".
Definition scopePrefix : string := "tools".

Definition Domains : gset string := list_to_set
    ["pool"; "health"; "diagnostics"; "recommendations"; "runbooks"; "events"; "audit";
     "drift"; "backup"; "restore"; "upgrade"; "locks"; "escalation"; "logs"; "me";
     "operations"; "tenant"; "credential_pool"; "credential"; "runtime"; "quota"; "config";
     "circuit_breaker"; "artifact_replication"; "billing_correction"; "bootstrap";
     "ca_rotation"; "connector"; "credential_rekey"; "delegation_policy"; "deployment";
     "environment"; "erasure_job"; "experiment"; "external_adapter"; "impersonation";
     "interceptor"; "issued_token"; "legal_hold"; "platform"; "preflight"; "rbac"; "schema";
     "sessions"; "tree"; "user"; "runtimes"; "pools"].

Inductive ScopeError := ErrInvalidScope.

Record Scope := mkScope { Domain : string; Action : string }.

#[export] Instance Scope_eq_dec : EqDecision Scope.
Proof. solve_decision. Defined.

Definition String_ (s : Scope) : string :=
  scopePrefix +:+ ":" +:+ Domain s +:+ ":" +:+ Action s.

Definition ParseScope (v : string) : result ScopeError Scope :=
  if is_empty v || negb (bool_decide (v = trim_space v)) then Err ErrInvalidScope
  else match split ":" v with
       | [p; domain; action] =>
           if negb (bool_decide (p = scopePrefix)) then Err ErrInvalidScope
           else if is_empty domain || is_empty action then Err ErrInvalidScope
           else if bool_decide (domain = Wildcard) then
             if negb (bool_decide (action = Wildcard)) then Err ErrInvalidScope
             else Ok (mkScope Wildcard Wildcard)
           else if negb (bool_decide (domain ∈ Domains)) then Err ErrInvalidScope
           else Ok (mkScope domain action)
       | _ => Err ErrInvalidScope
       end.

Record Set_ := mkSet { Raw : string; scopes : list Scope }.

#[export] Instance Set_eq_dec : EqDecision Set_.
Proof. solve_decision. Defined.

(** The body of [Parse]'s loop over the fields of the claim. *)
Fixpoint parse_loop (fs : list string) (seen : gset string) (acc : list Scope) :
    result ScopeError (list Scope) :=
  match fs with
  | [] => Ok acc
  | raw :: fs =>
      let* s := ParseScope raw in
      let key := String_ s in
      if bool_decide (key ∈ seen) then parse_loop fs seen acc
      else parse_loop fs ({[key]} ∪ seen) (acc ++ [s])
  end.

Definition Parse (claim : string) : result ScopeError Set_ :=
  let trimmed := trim_space claim in
  if is_empty trimmed then Ok (mkSet trimmed [])
  else let* l := parse_loop (fields trimmed) ∅ [] in Ok (mkSet trimmed l).

Definition Present (s : Set_) : bool := negb (is_empty (Raw s)).

Definition Scopes (s : Set_) : list Scope := scopes s.

Fixpoint matches_loop (req : Scope) (gs : list Scope) : bool :=
  match gs with
  | [] => false
  | g :: gs =>
      if bool_decide (Domain g = Wildcard) then true
      else if negb (bool_decide (Domain g = Domain req)) then matches_loop req gs
      else if bool_decide (Action g = Wildcard) || bool_decide (Action g = Action req) then true
      else matches_loop req gs
  end.

Definition Matches (s : Set_) (required : string) : bool :=
  if negb (Present s) then true
  else match ParseScope required with
       | Err _ => false
       | Ok req => matches_loop req (scopes s)
       end.

Definition emptyIntersectionSentinel : string := "tools:__none__".

(** One of [Intersect]'s two loops: keep the scopes of [gs] the other side
    matches, unless already kept. *)
Fixpoint keep_loop (other : Set_) (gs : list Scope) (out : list Scope) (seen : gset string) :
    list Scope * gset string :=
  match gs with
  | [] => (out, seen)
  | g :: gs =>
      if Matches other (String_ g) && negb (bool_decide (String_ g ∈ seen))
      then keep_loop other gs (out ++ [g]) ({[String_ g]} ∪ seen)
      else keep_loop other gs out seen
  end.

Definition Intersect (s other : Set_) : Set_ :=
  if negb (Present s) then other
  else if negb (Present other) then s
  else
    let '(out, seen) := keep_loop other (scopes s) [] ∅ in
    let '(out, seen) := keep_loop s (scopes other) out seen in
    match out with
    | [] => mkSet emptyIntersectionSentinel []
    | _ => mkSet (join " " (map String_ out)) out
    end.

(** ** Well-formed sets: what [Parse] produces and [Intersect] preserves *)

Definition scope_ok (g : Scope) : Prop := ParseScope (String_ g) = Ok g.

Definition set_ok (s : Set_) : Prop :=
  Forall scope_ok (scopes s) /\ Forall (fun g => word (String_ g)) (scopes s) /\
  NoDup (map String_ (scopes s)).

(** Printing inverts parsing. *)
Lemma ParseScope_String v s : ParseScope v = Ok s -> String_ s = v.
Proof.
  unfold ParseScope. destruct (_ || _); [done|].
  pose proof (join_split ":" v) as J. revert J.
  destruct (split ":" v) as [|p [|d [|a [|? ?]]]]; try done. intros J.
  destruct (bool_decide_reflect (p = scopePrefix)) as [->|]; [|done]. cbn [negb].
  destruct (_ || _); [done|].
  destruct (bool_decide_reflect (d = Wildcard)) as [->|].
  - destruct (bool_decide_reflect (a = Wildcard)) as [->|]; [|done].
    intros [= <-]. by rewrite <- J.
  - destruct (negb _); [done|]. intros [= <-]. by rewrite <- J.
Qed.

Lemma ParseScope_ok v s : ParseScope v = Ok s -> scope_ok s.
Proof. intros H. unfold scope_ok. by rewrite (ParseScope_String _ _ H). Qed.

Lemma scope_ok_inj g h : scope_ok g -> scope_ok h -> String_ g = String_ h -> g = h.
Proof. unfold scope_ok. intros Hg Hh E. rewrite E, Hh in Hg. by injection Hg. Qed.

(** ** Matching *)

Definition grants (req g : Scope) : Prop :=
  Domain g = Wildcard \/ (Domain g = Domain req /\ (Action g = Wildcard \/ Action g = Action req)).

Lemma matches_loop_spec req gs :
  matches_loop req gs = true <-> exists g, g ∈ gs /\ grants req g.
Proof.
  induction gs as [|g gs IH]; cbn [matches_loop].
  { split; [done|]. intros (g & Hg & _). by apply elem_of_nil in Hg. }
  assert (matches_loop req (g :: gs) = true <-> grants req g \/ matches_loop req gs = true) as Hc.
  { unfold grants. cbn [matches_loop]. bdestruct_all; simpl; intuition congruence. }
  cbn [matches_loop] in Hc. rewrite Hc, IH. split.
  - intros [Hg | (h & Hh & Hg)]; [exists g | exists h]; split; try done; set_solver.
  - intros (h & Hh & Hg). apply elem_of_cons in Hh as [->|Hh]; eauto.
Qed.

Lemma Matches_present s r : Present s = true ->
  Matches s r = true <-> exists req g, ParseScope r = Ok req /\ g ∈ scopes s /\ grants req g.
Proof.
  intros Hp. unfold Matches. rewrite Hp. cbn [negb].
  destruct (ParseScope r) as [req|]; [|by split; [|intros (? & ? & ? & _)]].
  rewrite matches_loop_spec. split; [naive_solver|].
  intros (? & g & [= <-] & ?). eauto.
Qed.

(** ** Parsing yields well-formed sets *)

Lemma parse_loop_ok fs seen acc l :
  Forall word fs ->
  set_ok (mkSet "" acc) -> (forall k, k ∈ seen <-> k ∈ map String_ acc) ->
  parse_loop fs seen acc = Ok l -> set_ok (mkSet "" l).
Proof.
  revert seen acc. induction fs as [|f fs IH]; intros seen acc Hw Hok Hs H; cbn [parse_loop] in H.
  { by injection H as <-. }
  apply Forall_cons in Hw as [Hf Hw]. apply rbind_Ok in H as (s & Ef & H).
  pose proof (ParseScope_String _ _ Ef) as Es. destruct (bool_decide_reflect (String_ s ∈ seen)) as [Hin|Hin].
  { by apply (IH _ _ Hw Hok Hs). }
  apply (IH _ _ Hw) in H; [done| |].
  - destruct Hok as (H1 & H2 & H3). unfold set_ok. cbn [scopes] in *. rewrite map_app.
    split; [apply Forall_app; split; [done|]; constructor; [by eapply ParseScope_ok|done]|].
    split; [apply Forall_app; split; [done|]; constructor; [by rewrite Es|done]|].
    apply NoDup_app. split; [done|]. split; [|apply NoDup_singleton].
    intros k Hk Hk'. apply list_elem_of_singleton in Hk' as ->. by apply Hin, Hs.
  - intros k. rewrite map_app, elem_of_app, elem_of_union, elem_of_singleton, Hs. simpl.
    rewrite list_elem_of_singleton. tauto.
Qed.

Lemma set_ok_raw r r' l : set_ok (mkSet r l) -> set_ok (mkSet r' l).
Proof. done. Qed.

Lemma set_ok_nil r : set_ok (mkSet r []).
Proof. repeat split; constructor. Qed.

Lemma Parse_ok claim s : Parse claim = Ok s -> set_ok s.
Proof.
  unfold Parse. destruct (is_empty _).
  { intros [= <-]. apply set_ok_nil. }
  intros (l & H & [= <-])%rbind_Ok. eapply set_ok_raw, parse_loop_ok, H.
  - apply fields_words.
  - apply set_ok_nil.
  - intros k. split; set_solver.
Qed.

(** The parsed list holds exactly the parsed fields. *)
Lemma parse_loop_members fs seen acc l :
  Forall scope_ok acc -> (forall k, k ∈ seen <-> k ∈ map String_ acc) ->
  parse_loop fs seen acc = Ok l ->
  (forall f, f ∈ fs -> exists g, ParseScope f = Ok g) /\
  (forall g, g ∈ l <-> g ∈ acc \/ exists f, f ∈ fs /\ ParseScope f = Ok g).
Proof.
  revert seen acc. induction fs as [|f fs IH]; intros seen acc Ha Hs H; cbn [parse_loop] in H.
  { injection H as <-. split; [intros f Hf; by apply elem_of_nil in Hf|].
    intros g. split; [by left|]. intros [?|(f & Hf & _)]; [done|by apply elem_of_nil in Hf]. }
  apply rbind_Ok in H as (s & Ef & H).
  destruct (bool_decide_reflect (String_ s ∈ seen)) as [Hin|Hin].
  - destruct (IH _ _ Ha Hs H) as [H1 H2]. split.
    { intros f' Hf. apply elem_of_cons in Hf as [->|?]; eauto. }
    intros g. rewrite H2. split.
    + intros [?|(f' & ? & ?)]; [by left|right]. exists f'. split; [by right|done].
    + intros [?|(f' & Hf & Eg)]; [by left|]. apply elem_of_cons in Hf as [->|?]; [|eauto].
      left. rewrite Ef in Eg. injection Eg as <-.
      apply Hs, list_elem_of_fmap in Hin as (g' & E & Hg'). rewrite Forall_forall in Ha.
      by rewrite (scope_ok_inj s g' (ParseScope_ok _ _ Ef) (Ha _ Hg') E).
  - apply IH in H as [H1 H2].
    + split; [intros f' Hf; apply elem_of_cons in Hf as [->|?]; eauto|].
      intros g. rewrite H2, elem_of_app, list_elem_of_singleton. split.
      * intros [[?| ->]|(f' & ? & ?)]; [by left| |]; right; [exists f; split; [left|done]|].
        exists f'. split; [by right|done].
      * intros [?|(f' & Hf & Eg)]; [by left; left|]. apply elem_of_cons in Hf as [->|?]; [|eauto].
        left. right. congruence.
    + apply Forall_app. split; [done|]. constructor; [by eapply ParseScope_ok|constructor].
    + intros k. rewrite map_app, elem_of_app, elem_of_union, elem_of_singleton, Hs. simpl.
      rewrite list_elem_of_singleton. tauto.
Qed.

Lemma parse_loop_total fs seen acc :
  (forall f, f ∈ fs -> exists g, ParseScope f = Ok g) -> exists l, parse_loop fs seen acc = Ok l.
Proof.
  revert seen acc. induction fs as [|f fs IH]; intros seen acc H; cbn [parse_loop]; [eauto|].
  destruct (H f) as [g ->]; [left|]. cbn [rbind]. case_bool_decide; apply IH; intros f' Hf; apply H; by right.
Qed.

Lemma seen_nil (k : string) : k ∈ (∅ : gset string) <-> k ∈ map String_ [].
Proof. split; set_solver. Qed.

(** A claim made of words of another claim is narrower than it. *)
Lemma Parse_narrower (claim : string) (ts : list string) s :
  Parse claim = Ok s -> ts <> [] -> (forall t, t ∈ ts -> t ∈ fields (trim_space claim)) ->
  exists m, Parse (join " " ts) = Ok m /\ Present m = true /\
    forall r, Matches m r = true -> Matches s r = true.
Proof.
  intros Hc Hne Hsub. assert (Forall word ts) as Hw.
  { apply Forall_forall. intros t Ht. pose proof (fields_words (trim_space claim)) as H.
    rewrite Forall_forall in H. by apply H, Hsub. }
  unfold Parse in Hc. destruct (is_empty (trim_space claim)) eqn:E.
  { exfalso. apply is_empty_spec in E. rewrite E in Hsub. destruct ts as [|t ts]; [done|].
    specialize (Hsub t (list_elem_of_here _ _)). by apply elem_of_nil in Hsub. }
  apply rbind_Ok in Hc as (l & Hl & [= <-]).
  destruct (parse_loop_members _ _ _ _ ltac:(constructor) seen_nil Hl) as [Hp Hm].
  destruct (parse_loop_total ts ∅ []) as [l' Hl']; [intros t Ht; by apply Hp, Hsub|].
  pose proof (join_nonempty ts Hw Hne) as Hj.
  assert (Present (mkSet (join " " ts) l') = true) as Hpr.
  { unfold Present. cbn [Raw]. by rewrite is_empty_false. }
  exists (mkSet (join " " ts) l'). split_and!; [|done|].
  { unfold Parse. rewrite (trim_space_join _ Hw), (is_empty_false _ Hj), (fields_join _ Hw), Hl'. done. }
  intros r. rewrite Matches_present by done. intros (req & g & Er & Hg & Hgr).
  apply Matches_present; [unfold Present; cbn [Raw]; by rewrite E|].
  exists req, g. split; [done|]. split; [|done]. cbn [scopes] in *.
  destruct (parse_loop_members _ _ _ _ ltac:(constructor) seen_nil Hl') as [_ Hm'].
  apply Hm' in Hg as [Hg|(f & Hf & Eg)]; [by apply elem_of_nil in Hg|].
  apply Hm. right. exists f. split; [|done]. by apply Hsub.
Qed.

(** ** The intersection's loops *)

Lemma keep_loop_spec other gs out seen :
  Forall scope_ok gs -> Forall scope_ok out ->
  Forall (fun g => word (String_ g)) gs ->
  set_ok (mkSet "" out) -> (forall k, k ∈ seen <-> k ∈ map String_ out) ->
  let '(out', seen') := keep_loop other gs out seen in
  set_ok (mkSet "" out') /\
  (forall k, k ∈ seen' <-> k ∈ map String_ out') /\
  (forall g, g ∈ out' <-> g ∈ out \/ (g ∈ gs /\ Matches other (String_ g) = true)).
Proof.
  revert out seen. induction gs as [|g gs IH]; intros out seen Hg Ho Hw Hok Hs; cbn [keep_loop].
  { split; [done|]. split; [done|]. set_solver. }
  apply Forall_cons in Hg as [Hg Hgs]. apply Forall_cons in Hw as [Hwg Hw].
  destruct (Matches other (String_ g)) eqn:Em; cbn [andb].
  2: { specialize (IH out seen Hgs Ho Hw Hok Hs). destruct (keep_loop other gs out seen) as [out' seen'].
       destruct IH as (? & ? & Hm). split; [done|]. split; [done|]. intros h. rewrite Hm.
       split; [set_solver|]. intros [?|[Hh Hmh]]; [by left|].
       apply elem_of_cons in Hh as [->|]; [congruence|by right]. }
  destruct (bool_decide_reflect (String_ g ∈ seen)) as [Hin|Hin]; cbn [negb].
  - specialize (IH out seen Hgs Ho Hw Hok Hs). destruct (keep_loop other gs out seen) as [out' seen'].
    destruct IH as (? & ? & Hm). split; [done|]. split; [done|]. intros h. rewrite Hm.
    split; [set_solver|]. intros [?|[Hh Hmh]]; [by left|].
    apply elem_of_cons in Hh as [->|]; [|by right]. left.
    apply Hs, list_elem_of_fmap in Hin as (g' & E & Hg').
    rewrite Forall_forall in Ho. by rewrite (scope_ok_inj g g' Hg (Ho _ Hg') E).
  - destruct Hok as (H1 & H2 & H3).
    specialize (IH (out ++ [g]) ({[String_ g]} ∪ seen) Hgs).
    destruct (keep_loop other gs (out ++ [g]) _) as [out' seen'].
    assert (Forall scope_ok (out ++ [g])) as Ho' by (apply Forall_app; split; [done|by constructor]).
    destruct IH as (? & ? & Hm); [done|done| | |].
    + unfold set_ok. cbn [scopes] in *. rewrite map_app. split; [done|].
      split; [apply Forall_app; split; [done|by constructor]|].
      apply NoDup_app. split; [done|]. split; [|apply NoDup_singleton].
      intros k Hk Hk'. apply list_elem_of_singleton in Hk' as ->. by apply Hin, Hs.
    + intros k. rewrite map_app, elem_of_app, elem_of_union, elem_of_singleton, Hs. simpl.
      rewrite list_elem_of_singleton. tauto.
    + split; [done|]. split; [done|]. intros h. rewrite Hm. clear -Em. set_solver.
Qed.

(** What the two loops together keep. *)
Lemma Intersect_members s other :
  set_ok s -> set_ok other -> Present s = true -> Present other = true ->
  set_ok (Intersect s other) /\ Present (Intersect s other) = true /\
  (forall g, g ∈ scopes (Intersect s other) <->
     (g ∈ scopes s /\ Matches other (String_ g) = true) \/
     (g ∈ scopes other /\ Matches s (String_ g) = true)) /\
  Raw (Intersect s other) =
    (if bool_decide (scopes (Intersect s other) = []) then emptyIntersectionSentinel
     else join " " (map String_ (scopes (Intersect s other)))).
Proof.
  intros (H1 & H2 & _) (H3 & H4 & _) Hp Hp'. unfold Intersect. rewrite Hp, Hp'. cbn [negb].
  pose proof (keep_loop_spec other (scopes s) [] ∅ H1) as K1.
  destruct (keep_loop other (scopes s) [] ∅) as [out seen].
  destruct K1 as (Hok & Hs & Hm); [constructor|done|apply set_ok_nil|set_solver|].
  pose proof (keep_loop_spec s (scopes other) out seen H3) as K2.
  destruct (keep_loop s (scopes other) out seen) as [out' seen'].
  destruct K2 as (Hok' & _ & Hm'); [apply Hok|done|done|done|].
  assert (forall g, g ∈ out' <-> (g ∈ scopes s /\ Matches other (String_ g) = true) \/
     (g ∈ scopes other /\ Matches s (String_ g) = true)) as Hmem.
  { intros g. rewrite Hm', Hm. set_solver. }
  destruct out' as [|g out'].
  - split; [apply set_ok_nil|]. done.
  - cbn [scopes Raw]. split; [done|]. split; [|done].
    unfold Present. cbn [Raw]. rewrite is_empty_false; [done|].
    apply join_nonempty; [|done]. apply Forall_map. apply Hok'.
Qed.

Lemma grants_trans r g h : grants r g -> grants g h -> grants r h.
Proof. unfold grants. intros [E1|[E1 [E2|E2]]] [F1|[F1 [F2|F2]]]; rewrite ?E1, ?F1, ?E2, ?F2; intuition congruence. Qed.

(** Two scopes that grant the same request: one of them grants the other, and
    both grant the request. *)
Lemma grants_meet r g h : scope_ok g -> scope_ok h -> grants r g -> grants r h -> grants g h \/ grants h g.
Proof.
  intros Hg Hh. unfold grants. intros [E1|[E1 [E2|E2]]] [F1|[F1 [F2|F2]]]; rewrite ?E1, ?F1, ?E2, ?F2; intuition congruence.
Qed.

Lemma Matches_own s g : Present s = true -> scope_ok g ->
  Matches s (String_ g) = true -> exists h, h ∈ scopes s /\ grants g h.
Proof.
  intros Hp Hg (g' & h & E & Hh & Hgh)%Matches_present; [|done].
  rewrite Hg in E. injection E as <-. eauto.
Qed.

Lemma Intersect_matches s1 s2 : set_ok s1 -> set_ok s2 ->
  forall r, Matches (Intersect s1 s2) r = Matches s1 r && Matches s2 r.
Proof.
  intros H1 H2 r. destruct (Present s1) eqn:P1.
  2: { unfold Intersect, Matches. rewrite P1. done. }
  destruct (Present s2) eqn:P2.
  2: { unfold Intersect. rewrite P1, P2. cbn [negb].
       unfold Matches at 3. rewrite P2. cbn [negb]. by rewrite andb_true_r. }
  destruct (Intersect_members s1 s2 H1 H2 P1 P2) as (Hok & Hp & Hm & _).
  destruct H1 as (G1 & _), H2 as (G2 & _). rewrite Forall_forall in G1, G2.
  apply eq_true_iff_eq. rewrite andb_true_iff, !Matches_present by done. split.
  - intros (req & g & Er & Hg & Hgr).
    apply Hm in Hg as [[Hg Hg'] | [Hg Hg']].
    + destruct (Matches_own s2 g P2 (G1 _ Hg) Hg') as (h & Hh & Hgh).
      split; [exists req, g | exists req, h]; eauto using grants_trans.
    + destruct (Matches_own s1 g P1 (G2 _ Hg) Hg') as (h & Hh & Hgh).
      split; [exists req, h | exists req, g]; eauto using grants_trans.
  - intros [(req & g & Er & Hg & Hgr) (req' & h & Er' & Hh & Hhr)].
    rewrite Er in Er'. injection Er' as <-. exists req.
    destruct (grants_meet req g h (G1 _ Hg) (G2 _ Hh) Hgr Hhr) as [Hgh|Hgh].
    + exists g. split; [done|]. split; [|done]. apply Hm. left. split; [done|].
      apply Matches_present; [done|]. exists g, h. split; [by apply G1|]. done.
    + exists h. split; [done|]. split; [|done]. apply Hm. right. split; [done|].
      apply Matches_present; [done|]. exists h, g. split; [by apply G2|]. done.
Qed.

Lemma Intersect_set_ok s1 s2 : set_ok s1 -> set_ok s2 -> set_ok (Intersect s1 s2).
Proof.
  intros H1 H2. destruct (Present s1) eqn:P1; [|unfold Intersect; by rewrite P1].
  destruct (Present s2) eqn:P2; [|unfold Intersect; by rewrite P1, P2].
  by apply Intersect_members.
Qed.

(** Intersecting two parsed claims is exact: for every required scope, the
    intersection permits it precisely when both operands do, with the absent
    claim as the neutral element and disjoint claims permitting nothing.  The
    result is again well formed, so the statement composes over any number of
    narrowings. *)
Theorem Intersect_exact c1 c2 s1 s2 :
  Parse c1 = Ok s1 -> Parse c2 = Ok s2 ->
  (forall r, Matches (Intersect s1 s2) r = Matches s1 r && Matches s2 r) /\
  set_ok (Intersect s1 s2).
Proof.
  intros H1%Parse_ok H2%Parse_ok. auto using Intersect_matches, Intersect_set_ok.
Qed.

Lemma Intersect_exact_witness :
  Matches (Intersect (mkSet "tools:pool:*" [mkScope "pool" "*"])
                     (mkSet "tools:pool:read  tools:me:read" [mkScope "pool" "read"; mkScope "me" "read"]))
    "tools:pool:read" = true /\
  set_ok (Intersect (mkSet "tools:pool:*" [mkScope "pool" "*"])
                     (mkSet "tools:pool:read  tools:me:read" [mkScope "pool" "read"; mkScope "me" "read"])).
Proof.
  assert (Parse " tools:pool:*" = Ok (mkSet "tools:pool:*" [mkScope "pool" "*"])) as E1 by (vm_compute; reflexivity).
  assert (Parse "tools:pool:read  tools:me:read " =
          Ok (mkSet "tools:pool:read  tools:me:read" [mkScope "pool" "read"; mkScope "me" "read"])) as E2
    by (vm_compute; reflexivity).
  destruct (Intersect_exact _ _ _ _ E1 E2) as [H1 H2].
  split; [rewrite H1; vm_compute; reflexivity | exact H2].
Defined.

(** ** The printed intersection *)

Lemma parse_loop_print l seen acc :
  Forall scope_ok l -> NoDup (map String_ l) ->
  (forall k, k ∈ map String_ l -> k ∉ seen) ->
  parse_loop (map String_ l) seen acc = Ok (acc ++ l).
Proof.
  revert seen acc. induction l as [|g l IH]; intros seen acc Hok Hnd Hd; cbn [map parse_loop].
  { by rewrite app_nil_r. }
  apply Forall_cons in Hok as [Hg Hok]. apply NoDup_cons in Hnd as [Hn Hnd].
  rewrite Hg. cbn [rbind]. rewrite bool_decide_eq_false_2 by (apply Hd; left).
  rewrite IH; [by rewrite <- app_assoc|done|done|].
  intros k Hk. rewrite not_elem_of_union, not_elem_of_singleton. split; [by intros ->|].
  apply Hd. by right.
Qed.

(** The canonical text of a non-empty well-formed list parses back to it. *)
Lemma Parse_print l : l <> [] -> set_ok (mkSet "" l) ->
  Parse (join " " (map String_ l)) = Ok (mkSet (join " " (map String_ l)) l).
Proof.
  intros Hne (H1 & H2 & H3). assert (Forall word (map String_ l)) as Hw by (by apply Forall_map).
  unfold Parse. rewrite (trim_space_join _ Hw).
  rewrite is_empty_false; [|apply join_nonempty; [done|]; by destruct l].
  rewrite (fields_join _ Hw), parse_loop_print; [done|done|done|]. set_solver.
Qed.

(** The text of an intersection round-trips: when both claims are present
    and overlap, parsing the intersection's [Raw] gives back exactly the
    intersection; when they do not overlap, [Raw] is the sentinel, which every
    later parse rejects. *)
Theorem Intersect_roundtrip c1 c2 s1 s2 :
  Parse c1 = Ok s1 -> Parse c2 = Ok s2 -> Present s1 = true -> Present s2 = true ->
  Parse (Raw (Intersect s1 s2)) =
    (if bool_decide (scopes (Intersect s1 s2) = []) then Err ErrInvalidScope
     else Ok (Intersect s1 s2)).
Proof.
  intros H1%Parse_ok H2%Parse_ok P1 P2.
  destruct (Intersect_members s1 s2 H1 H2 P1 P2) as (Hok & _ & _ & Hr).
  destruct (Intersect s1 s2) as [raw l]. cbn [Raw scopes] in *. rewrite Hr. clear Hr.
  destruct (bool_decide_reflect (l = [])) as [->|Hne]; [vm_compute; reflexivity|].
  by apply Parse_print.
Qed.

Lemma Intersect_roundtrip_witness :
  Parse "tools:pool:read" = Ok (mkSet "tools:pool:read" [mkScope "pool" "read"]).
Proof.
  assert (Parse "tools:pool:*" = Ok (mkSet "tools:pool:*" [mkScope "pool" "*"])) as E1 by (vm_compute; reflexivity).
  assert (Parse "tools:pool:read  tools:me:read " =
          Ok (mkSet "tools:pool:read  tools:me:read" [mkScope "pool" "read"; mkScope "me" "read"])) as E2
    by (vm_compute; reflexivity).
  pose proof (Intersect_roundtrip _ _ _ _ E1 E2 eq_refl eq_refl) as H.
  vm_compute in H. vm_compute. exact H.
Defined.

(** ** The playground ceiling *)

Module Playground.

Definition playgroundAllowedScope : list string :=
  ["tools:sessions:*"; "tools:me:read"; "tools:runtimes:read"; "tools:pools:read";
   "tools:operations:read"; "tools:events:read"].

Definition intersectScope (subjectScope : string) (allowed : list string) : string :=
  match Parse subjectScope with
  | Err _ => ""
  | Ok subjectSet =>
      match Parse (join " " allowed) with
      | Err _ => ""
      | Ok allowedSet =>
          let narrowed := Intersect subjectSet allowedSet in
          if bool_decide (length (Scopes narrowed) = 0) then "" else Raw narrowed
      end
  end.

Definition ceiling : Set_ :=
  mkSet (join " " playgroundAllowedScope)
    [mkScope "sessions" "*"; mkScope "me" "read"; mkScope "runtimes" "read"; mkScope "pools" "read";
     mkScope "operations" "read"; mkScope "events" "read"].

Lemma ceiling_parses : Parse (join " " playgroundAllowedScope) = Ok ceiling.
Proof. vm_compute. reflexivity. Qed.

Lemma ceiling_present : Present ceiling = true.
Proof. reflexivity. Qed.

Lemma empty_claim_unrestricted r : Parse "" = Ok (mkSet "" []) /\ Matches (mkSet "" []) r = true.
Proof. split; reflexivity. Qed.

(** What the playground mint puts in the scope claim.  Where the subject's
    claim is absent or overlaps the ceiling, the minted claim parses and
    permits exactly what both the subject and the ceiling permit.  Where the
    subject's claim is malformed or lies wholly outside the ceiling, the
    minted claim is the empty string, which the matching rules read as an
    absent claim: it permits every scope. *)
Theorem minted_scope claim :
  let minted := intersectScope claim playgroundAllowedScope in
  match Parse claim with
  | Ok s =>
      if bool_decide (scopes (Intersect s ceiling) = [])
      then minted = "" /\ (exists m, Parse minted = Ok m /\ forall r, Matches m r = true)
      else exists m, Parse minted = Ok m /\ forall r, Matches m r = Matches s r && Matches ceiling r
  | Err _ => minted = "" /\ (exists m, Parse minted = Ok m /\ forall r, Matches m r = true)
  end.
Proof.
  cbn zeta. unfold intersectScope. rewrite ceiling_parses.
  destruct (Parse claim) as [s|e] eqn:E.
  2: { split; [done|]. exists (mkSet "" []). split; [done|]. apply empty_claim_unrestricted. }
  rewrite (bool_decide_ext (length (Scopes (Intersect s ceiling)) = 0) (scopes (Intersect s ceiling) = []))
    by (apply length_zero_iff_nil).
  destruct (bool_decide_reflect (scopes (Intersect s ceiling) = [])) as [He|He].
  { split; [done|]. exists (mkSet "" []). split; [done|]. apply empty_claim_unrestricted. }
  exists (Intersect s ceiling). split.
  - destruct (Present s) eqn:P.
    + pose proof (Intersect_members s ceiling (Parse_ok _ _ E) (Parse_ok _ _ ceiling_parses) P ceiling_present)
        as (Hok & _ & _ & Hr).
      destruct (Intersect s ceiling) as [raw l]. cbn [Raw scopes] in *.
      rewrite bool_decide_eq_false_2 in Hr by done. rewrite Hr. by apply Parse_print.
    + unfold Intersect. rewrite P. cbn [negb Raw]. apply ceiling_parses.
  - apply (Intersect_matches s ceiling); [by eapply Parse_ok|by eapply Parse_ok, ceiling_parses].
Qed.

End Playground.
