(* ===== verification/Interceptors.v ===== *)
(** * The chain of policy hooks ([gateway/policy/interceptor])

    The order in which the interceptors of a phase run, what their answers and
    failures come to ([interceptor.go]), the fields a modification may not touch
    ([immutability.go]), the escalation of interceptors that keep failing open
    ([failopen.go]), and the cap on delegated input
    ([policy/delegationpolicyevaluator.go]).  What an interceptor answers and
    when is an argument of a run; so is the decoder of JSON objects. *)

From S2P Require Import Prelude Text.

#[local] Set Warnings "-register-all".

(** ** Phases and actions *)

Definition PhasePreAuth : string := "PreAuth".
Definition PhasePostAuth : string := "PostAuth".
Definition PhasePreRoute : string := "PreRoute".
Definition PhasePreDelegation : string := "PreDelegation".
Definition PhasePreExportMaterialization : string := "PreExportMaterialization".
Definition PhasePreMessageDelivery : string := "PreMessageDelivery".
Definition PhasePostRoute : string := "PostRoute".
Definition PhasePreToolResult : string := "PreToolResult".
Definition PhasePostAgentOutput : string := "PostAgentOutput".
Definition PhasePreLLMRequest : string := "PreLLMRequest".
Definition PhasePostLLMResponse : string := "PostLLMResponse".
Definition PhasePreConnectorRequest : string := "PreConnectorRequest".
Definition PhasePostConnectorResponse : string := "PostConnectorResponse".

Definition AllPhases : list string :=
  [PhasePreAuth; PhasePostAuth; PhasePreRoute; PhasePreDelegation; PhasePreExportMaterialization; PhasePreMessageDelivery; PhasePostRoute;
   PhasePreToolResult; PhasePostAgentOutput; PhasePreLLMRequest; PhasePostLLMResponse; PhasePreConnectorRequest; PhasePostConnectorResponse].

Definition phaseIsValid (p : string) : bool := existsb (String.eqb p) AllPhases.

(** An answer outside the enumeration is neither of the three. *)
Inductive Action := ActionAllow | ActionReject | ActionModify | ActionOther (n : Z).

Definition FailClosed : string := "fail-closed".
Definition FailOpen : string := "fail-open".

Definition ReservedPriorityCeiling : Z := 100.

Definition DefaultTimeout : Duration := (500 * Millisecond)%Z.
Definition DefaultLLMTimeout : Duration := (100 * Millisecond)%Z.
Definition DefaultConnectorTimeout : Duration := (200 * Millisecond)%Z.

Definition phaseDefaultTimeout (phase : string) : Duration :=
  if existsb (String.eqb phase) [PhasePreLLMRequest; PhasePostLLMResponse] then DefaultLLMTimeout
  else if existsb (String.eqb phase) [PhasePreConnectorRequest; PhasePostConnectorResponse] then DefaultConnectorTimeout
  else DefaultTimeout.

Definition CodeInterceptorTimeout : string := "INTERCEPTOR_TIMEOUT".
Definition CodeInterceptorImmutableFieldViolation : string := "INTERCEPTOR_IMMUTABLE_FIELD_VIOLATION".

(** A byte slice; [None] is the nil slice. *)
Abbreviation Bytes := (option string).

Record Request := mkRequest { Phase : string; SessionID : string; TenantID : string; Content : Bytes; Metadata : gmap string string }.

Record FailOpenSkip := mkSkip { skipped : string; skipReason : string }.

(** [reason] stands for the rendered text: which of the cases it describes. *)
Inductive Reason := NoReason | GivenReason (text : string) | FailedClosed | Escalated | AlteredFields | Unregistered.

Record Result_ := mkResult {
  r_Action : Action; r_Reason : Reason; Code : string; ModifiedContent : Bytes; RejectedBy : string; TimeoutMs : Z;
  ViolatedFields : list string; FailOpenSkips : list FailOpenSkip }.

(** What the chain reads of an interceptor. *)
Record Interceptor := mkInterceptor { Name : string; Priority : Z; Builtin : bool; FailPolicy : string; Timeout : Duration }.

(** An error of a call; the deadline of the context is told apart. *)
Inductive CallError := DeadlineExceeded | OtherError (text : string).

(** ** Registration *)

Record entry := mkEntry { ic : Interceptor; order : nat }.

Record failOpenState := mkFailState { errs : list Time; escalated : bool }.

Record FailOpenEvent := mkFailOpenEvent {
  ev_TenantID : string; InterceptorName : string; ev_Phase : string; Consecutive : Z; WindowSeconds : Z; MaxConsecutive : Z }.

(** What the observer has been told. *)
Inductive Notice := FailOpenEscalated (ev : FailOpenEvent) | FailOpenRestored (ev : FailOpenEvent).

(** [failObserver] says whether there is an observer, [notices] what it was
    told, the latest last. *)
Record Chain := mkChain {
  byPhase : gmap string (list entry); count : nat;
  failEnabled : bool; failOpenMax : Z; failOpenWindow : Duration; failObserver : bool; failStates : gmap string failOpenState;
  notices : list Notice }.

Definition NewChain : Chain := mkChain ∅ 0 false 0 0 false ∅ [].

Inductive RegisterError := ErrUnknownPhase | ErrInvalidPriority | ErrInvalidPhase.

Definition RegistrationErrorCode (e : RegisterError) : option (string * Z) :=
  match e with
  | ErrInvalidPriority => Some ("INVALID_INTERCEPTOR_PRIORITY", 400%Z)
  | ErrInvalidPhase => Some ("INVALID_INTERCEPTOR_PHASE", 400%Z)
  | ErrUnknownPhase => None
  end.

Definition entries (c : Chain) (phase : string) : list entry := default [] (byPhase c !! phase).

Definition Register (phase : string) (i : Interceptor) (c : Chain) : result RegisterError Chain :=
  if negb (phaseIsValid phase) then Err ErrUnknownPhase
  else if negb (Builtin i) && (Priority i <=? ReservedPriorityCeiling)%Z then Err ErrInvalidPriority
  else if negb (Builtin i) && String.eqb phase PhasePreAuth then Err ErrInvalidPhase
  else Ok (mkChain (<[phase := entries c phase ++ [mkEntry i (count c)]]> (byPhase c)) (S (count c))
             (failEnabled c) (failOpenMax c) (failOpenWindow c) (failObserver c) (failStates c) (notices c)).

Definition Len (c : Chain) (phase : string) : nat := length (entries c phase).

Definition inRange (lo hi : Z) (i : Interceptor) : bool := (lo <=? Priority i)%Z && (Priority i <? hi)%Z.

Definition LenRange (c : Chain) (phase : string) (lo hi : Z) : nat := length (filter (fun e => inRange lo hi (ic e) = true) (entries c phase)).

(** The order of execution: no two entries of a chain have one [order]. *)
Definition exec_le (a b : entry) : Prop :=
  if decide (Priority (ic a) = Priority (ic b)) then
    if decide (Builtin (ic a) = Builtin (ic b)) then order a <= order b else Builtin (ic a) = true
  else (Priority (ic a) < Priority (ic b))%Z.
#[export] Instance exec_le_dec a b : Decision (exec_le a b).
Proof. unfold exec_le. repeat case_decide; apply _. Defined.

Definition ordered (c : Chain) (phase : string) : list entry := merge_sort exec_le (entries c phase).

(** ** Failing open ([failopen.go]) *)

Definition DefaultFailOpenMaxConsecutive : Z := 10.
Definition DefaultFailOpenWindow : Duration := (5 * Minute)%Z.

Definition SetFailOpenEscalation (maxConsecutive : Z) (window : Duration) (observer : bool) (c : Chain) : Chain :=
  mkChain (byPhase c) (count c) true (if (maxConsecutive <=? 0)%Z then DefaultFailOpenMaxConsecutive else maxConsecutive)
    (if (window <=? 0)%Z then DefaultFailOpenWindow else window) observer (failStates c) (notices c).

Definition failConfig (c : Chain) : Z * Duration :=
  (if (failOpenMax c <=? 0)%Z then DefaultFailOpenMaxConsecutive else failOpenMax c,
   if (failOpenWindow c <=? 0)%Z then DefaultFailOpenWindow else failOpenWindow c).

Fixpoint pruneBefore (ts : list Time) (cutoff : Time) : list Time :=
  match ts with
  | [] => []
  | t :: rest => if time_before t cutoff then pruneBefore rest cutoff else ts
  end.

Definition set_fail (name : string) (st : failOpenState) (c : Chain) : Chain :=
  mkChain (byPhase c) (count c) (failEnabled c) (failOpenMax c) (failOpenWindow c) (failObserver c) (<[name := st]> (failStates c)) (notices c).

Definition notify (n : Notice) (c : Chain) : Chain :=
  if failObserver c
  then mkChain (byPhase c) (count c) (failEnabled c) (failOpenMax c) (failOpenWindow c) (failObserver c) (failStates c) (notices c ++ [n])
  else c.

Definition fail_error (maxN : Z) (window : Duration) (now : Time) (st : failOpenState) : failOpenState :=
  let es := pruneBefore (errs st) (time_add now (- window)) ++ [now] in
  mkFailState es (escalated st || (maxN <? Z.of_nat (length es))%Z).

(** [true] when the interceptor is escalated, so that the chain must reject. *)
Definition recordFailOpenError (i : Interceptor) (req : Request) (now : Time) (c : Chain) : Chain * bool :=
  if negb (failEnabled c) then (c, false)
  else
    let '(maxN, window) := failConfig c in
    let prior := default (mkFailState [] false) (failStates c !! Name i) in
    let st := fail_error maxN window now prior in
    let c := set_fail (Name i) st c in
    let ev := mkFailOpenEvent (TenantID req) (Name i) (Phase req) (Z.of_nat (length (errs st))) (window / Second)%Z maxN in
    (if escalated st && negb (escalated prior) then notify (FailOpenEscalated ev) c else c, escalated st).

Definition recordFailOpenSuccess (i : Interceptor) (req : Request) (c : Chain) : Chain :=
  match failStates c !! Name i with
  | Some st =>
      if escalated st then
        let ev := mkFailOpenEvent (TenantID req) (Name i) (Phase req) 0 ((failConfig c).2 / Second)%Z (failOpenMax c) in
        notify (FailOpenRestored ev) (set_fail (Name i) (mkFailState [] false) c)
      else c
  | None => c
  end.

(** ** Immutable fields ([immutability.go]) *)

Definition phaseImmutableFields (phase : string) : list string :=
  if String.eqb phase PhasePostAuth then ["metadata.user_id"; "metadata.tenant_id"]
  else if String.eqb phase PhasePreRoute then ["tenant_id"; "user_id"]
  else if String.eqb phase PhasePostRoute then ["resolved_runtime_name"; "credential_pool_id"]
  else if String.eqb phase PhasePreToolResult then ["id"]
  else if String.eqb phase PhasePreConnectorRequest || String.eqb phase PhasePostConnectorResponse then ["tool_name"; "connector_id"]
  else [].

(** A decoded value; the members of an object are listed by key, so that two
    values are deeply equal when they are equal. *)
Inductive Value := VObject (m : list (string * Value)) | VOther (text : string).

#[export] Instance Value_eq_dec : EqDecision Value.
Proof.
  refine (fix go (a b : Value) : Decision (a = b) :=
    match a, b with
    | VObject m, VObject n =>
        cast_if ((fix gol (m n : list (string * Value)) : Decision (m = n) :=
           match m, n with
           | [], [] => left eq_refl
           | (k, v) :: m, (k', v') :: n =>
               match decide (k = k'), go v v', gol m n with left _, left _, left _ => left _ | _, _, _ => right _ end
           | _, _ => right _
           end) m n)
    | VOther s, VOther t => cast_if (decide (s = t))
    | _, _ => right _
    end); congruence.
Defined.

Fixpoint member (seg : string) (m : list (string * Value)) : option Value :=
  match m with [] => None | (k, v) :: m => if String.eqb k seg then Some v else member seg m end.

Fixpoint lookupSegments (segs : list string) (cur : Value) : option Value :=
  match segs with
  | [] => Some cur
  | seg :: segs => match cur with
                   | VObject m => match member seg m with Some next => lookupSegments segs next | None => None end
                   | VOther _ => None
                   end
  end.

Definition lookupPath (obj : Value) (path : string) : option Value := lookupSegments (split "." path) obj.

(** ** A run *)

Definition classifyFailOpenReason (e : CallError) : string := match e with DeadlineExceeded => "timeout" | OtherError _ => "grpc_error" end.

Definition effectiveTimeout (i : Interceptor) (phase : string) : Duration := if (0 <? Timeout i)%Z then Timeout i else phaseDefaultTimeout phase.

Definition with_content (content : Bytes) (req : Request) : Request := mkRequest (Phase req) (SessionID req) (TenantID req) content (Metadata req).

Section runs.
Context (decode : Bytes -> option (list (string * Value))).

(** [json.Unmarshal] into a map: the members of an object, or nothing. *)
Definition checkModifyImmutability (phase : string) (pre post : Bytes) : list string :=
  match phaseImmutableFields phase with
  | [] => []
  | fields =>
      match decode pre with
      | None => []
      | Some preObj =>
          match decode post with
          | None => fields
          | Some postObj => filter (fun path => lookupPath (VObject preObj) path <> lookupPath (VObject postObj) path) fields
          end
      end
  end.

(** What the calls of one run come to, and the clock each failure reads. *)
Record Calls := mkCalls { answer : entry -> Request -> result CallError Result_; failClock : entry -> Time }.

Definition rejected_by (reason : Reason) (content : Bytes) (i : Interceptor) (phase : string) : Result_ :=
  mkResult ActionReject reason CodeInterceptorTimeout content (Name i) (effectiveTimeout i phase / Millisecond)%Z [] [].

(** What one interceptor does to the run: an end, or the state it goes on with. *)
Inductive Turn := Stop (res : Result_) | Next (content : Bytes) (modified : bool) (skips : list FailOpenSkip).

Definition turn (k : Calls) (req : Request) (e : entry) (content : Bytes) (modified : bool) (skips : list FailOpenSkip) (c : Chain) : Chain * Turn :=
  let i := ic e in
  match answer k e (with_content content req) with
  | Err err =>
      if String.eqb (FailPolicy i) FailOpen then
        let '(c, esc) := recordFailOpenError i (with_content content req) (failClock k e) c in
        (c, if esc then Stop (rejected_by Escalated content i (Phase req))
            else Next content modified (skips ++ [mkSkip (Name i) (classifyFailOpenReason err)]))
      else (c, Stop (rejected_by FailedClosed content i (Phase req)))
  | Ok res =>
      let c := if String.eqb (FailPolicy i) FailOpen then recordFailOpenSuccess i (with_content content req) c else c in
      (c,
       match r_Action res with
       | ActionReject =>
           Stop (mkResult ActionReject (r_Reason res) (Code res) (match ModifiedContent res with None => content | m => m end)
                   (if is_empty (RejectedBy res) then Name i else RejectedBy res) (TimeoutMs res) (ViolatedFields res) (FailOpenSkips res))
       | ActionModify =>
           match checkModifyImmutability (Phase req) content (ModifiedContent res) with
           | [] => Next (ModifiedContent res) true skips
           | violations => Stop (mkResult ActionReject AlteredFields CodeInterceptorImmutableFieldViolation content (Name i) 0 violations [])
           end
       | ActionAllow | ActionOther _ => Next content modified skips
       end)
  end.

Fixpoint walk (k : Calls) (req : Request) (es : list entry) (content : Bytes) (modified : bool) (skips : list FailOpenSkip) (c : Chain) : Chain * Result_ :=
  match es with
  | [] => (c, mkResult (if modified then ActionModify else ActionAllow) NoReason "" content "" 0 [] skips)
  | e :: es =>
      let '(c, t) := turn k req e content modified skips c in
      match t with
      | Stop res => (c, res)
      | Next content modified skips => walk k req es content modified skips c
      end
  end.

(** [accept] restricts the interceptors; a nil one accepts all. *)
Definition run (k : Calls) (req : Request) (accept : Interceptor -> bool) (c : Chain) : Chain * Result_ :=
  walk k req (filter (fun e => accept (ic e) = true) (ordered c (Phase req))) (Content req) false [] c.

Definition Run (k : Calls) (req : Request) := run k req (fun _ => true).

Definition RunRange (k : Calls) (req : Request) (lo hi : Z) := run k req (inRange lo hi).

Definition HasExternalNamed (c : Chain) (phase ref : string) : bool :=
  if is_empty ref then false else existsb (fun e => negb (Builtin (ic e)) && String.eqb (Name (ic e)) ref) (entries c phase).

Definition scoped (ref : string) (i : Interceptor) : bool := Builtin i || (negb (is_empty ref) && String.eqb (Name i) ref).

Definition RunPolicyScoped (k : Calls) (req : Request) (ref : string) (c : Chain) : Chain * Result_ :=
  if negb (is_empty ref) && negb (HasExternalNamed c (Phase req) ref)
  then (c, mkResult ActionReject Unregistered CodeInterceptorTimeout (Content req) ref 0 [] [])
  else run k req (scoped ref) c.
End runs.

(** ** The cap on delegated input ([delegationpolicyevaluator.go]) *)

Definition DelegationPolicyEvaluatorPriority : Z := 250.
Definition DelegationPolicyEvaluatorName : string := "DelegationPolicyEvaluator".
Definition CodeInputTooLarge : string := "INPUT_TOO_LARGE".
Definition DefaultMaxInputSize : Z := 131072.

Definition DelegationPolicyEvaluator : Interceptor := mkInterceptor DelegationPolicyEvaluatorName DelegationPolicyEvaluatorPriority true FailClosed 0.

(** [resolve] is the resolver, when there is one. *)
Definition evaluateInput (resolve : string -> string -> option Z) (defaultMaxSize : Z) (req : Request) : result CallError Result_ :=
  let limit := match resolve (TenantID req) (SessionID req) with Some r => if (0 <? r)%Z then r else defaultMaxSize | None => defaultMaxSize end in
  let size := Z.of_nat (String.length (default "" (Content req))) in
  if (limit <? size)%Z then Ok (mkResult ActionReject (GivenReason "size") CodeInputTooLarge None "" 0 [] [])
  else Ok (mkResult ActionAllow NoReason "" None "" 0 [] []).

Definition NewDelegationPolicyEvaluator (defaultMaxSize : Z) : Z := if (defaultMaxSize <=? 0)%Z then DefaultMaxInputSize else defaultMaxSize.
