(* ===== verification/InterceptorRuns.v ===== *)
(** * What a chain of policy hooks guarantees ([gateway/policy/interceptor])

    Which interceptors a decision of the chain rests on, what an admitted request
    still says, and how long an interceptor may fail open. *)

From S2P Require Import Prelude Text Interceptors.

(** ** The order of execution *)

#[export] Instance exec_le_total : Total exec_le.
Proof.
  intros a b. unfold exec_le. destruct (decide (Priority (ic a) = Priority (ic b))) as [E|E].
  - rewrite (decide_True _ _ (eq_sym E)). destruct (decide (Builtin (ic a) = Builtin (ic b))) as [B|B].
    + rewrite (decide_True _ _ (eq_sym B)). lia.
    + rewrite decide_False by congruence. destruct (Builtin (ic a)), (Builtin (ic b)); naive_solver.
  - rewrite decide_False by congruence. lia.
Qed.

#[export] Instance exec_le_trans : Transitive exec_le.
Proof.
  intros a b c. unfold exec_le. repeat case_decide; intros; try congruence; try lia.
  all: destruct (Builtin (ic a)), (Builtin (ic b)), (Builtin (ic c)); congruence.
Qed.

Lemma sorted_filter {A} (R : relation A) (P : A -> Prop) `{!forall x, Decision (P x)} l : StronglySorted R l -> StronglySorted R (filter P l).
Proof.
  induction 1 as [|x l _ IH Hx]; [constructor|]. destruct (decide (P x)); [rewrite filter_cons_True by done|by rewrite filter_cons_False].
  constructor; [done|]. rewrite Forall_forall in Hx |- *. intros y [_ Hy]%list_elem_of_filter. by apply Hx.
Qed.

Lemma ordered_perm c phase : ordered c phase ≡ₚ entries c phase.
Proof. apply merge_sort_Permutation. Qed.

Lemma ordered_sorted c phase : StronglySorted exec_le (ordered c phase).
Proof. apply (StronglySorted_merge_sort exec_le). Qed.

(** ** What a decision rests on *)

Section decisions.
Context (decode : Bytes -> option (list (string * Value))) (k : Calls) (req : Request).
Abbreviation walk := (walk decode k req).
Abbreviation turn := (turn decode k req).
Abbreviation check := (checkModifyImmutability decode (Phase req)).

(** The answer lets the request pass. *)
Definition lets_pass (content : Bytes) (e : entry) : Prop :=
  match answer k e (with_content content req) with
  | Err _ => FailPolicy (ic e) = FailOpen
  | Ok res => match r_Action res with
              | ActionReject => False
              | ActionModify => check content (ModifiedContent res) = []
              | ActionAllow | ActionOther _ => True
              end
  end.

(** The content the next interceptor sees. *)
Definition passed_on (content : Bytes) (e : entry) : Bytes :=
  match answer k e (with_content content req) with
  | Ok res => match r_Action res with ActionModify => ModifiedContent res | _ => content end
  | Err _ => content
  end.

Definition content_after (es : list entry) : Bytes -> Bytes := fun c0 => foldl passed_on c0 es.

Definition modifies (content : Bytes) (e : entry) : bool :=
  match answer k e (with_content content req) with Ok res => match r_Action res with ActionModify => true | _ => false end | Err _ => false end.

Definition is_stop (t : Turn) : Prop := match t with Stop _ => True | Next _ _ _ => False end.

Lemma turn_next e content m sk c c' content' m' sk' : turn e content m sk c = (c', Next content' m' sk') ->
  lets_pass content e /\ content' = passed_on content e /\ m' = m || modifies content e /\
  (forall err, answer k e (with_content content req) = Err err -> sk' = sk ++ [mkSkip (Name (ic e)) (classifyFailOpenReason err)]) /\
  (forall r, answer k e (with_content content req) = Ok r -> sk' = sk).
Proof using Type.
  unfold Interceptors.turn, lets_pass, passed_on, modifies. destruct (answer k e (with_content content req)) as [res|err].
  - destruct (r_Action res); [by intros [= <- <- <- <-]; rewrite orb_false_r; split_and!; try done; intros ? [= <-]|done| |by intros [= <- <- <- <-]; rewrite orb_false_r; split_and!].
    destruct (check content (ModifiedContent res)) eqn:E; [|done]. intros [= <- <- <- <-]. rewrite orb_true_r. by split_and!.
  - destruct (String.eqb_spec (FailPolicy (ic e)) FailOpen) as [Hf|]; [|done]. destruct (recordFailOpenError _ _ _ _) as [c1 esc]. destruct esc; [done|].
    intros [= <- <- <- <-]. rewrite orb_false_r. split_and!; try done. by intros ? [= ->].
Qed.

Lemma turn_stop e content m sk c c' res : turn e content m sk c = (c', Stop res) -> r_Action res = ActionReject /\
  (RejectedBy res = Name (ic e) \/ exists r, answer k e (with_content content req) = Ok r /\ RejectedBy res = RejectedBy r) /\
  (ModifiedContent res = content \/ exists r, answer k e (with_content content req) = Ok r /\ r_Action r = ActionReject /\ ModifiedContent res = ModifiedContent r).
Proof using Type.
  unfold Interceptors.turn. destruct (answer k e (with_content content req)) as [r|err].
  - destruct (r_Action r) eqn:Ea; try done.
    + intros [= <- <-]. cbn. split; [done|]. split; [destruct (is_empty (RejectedBy r)); eauto|]. destruct (ModifiedContent r) eqn:Em; eauto.
    + destruct (check content (ModifiedContent r)); [done|]. intros [= <- <-]. cbn. eauto.
  - destruct (String.eqb _ _); [destruct (recordFailOpenError _ _ _ _) as [c1 []]; [|done]|]; intros [= <- <-]; cbn; eauto.
Qed.

(** A run that is not rejected asked every interceptor, each on what the ones
    before it made of the request, and each let it pass.  A rejected run was
    stopped by one, after all before it let the request pass. *)
Lemma walk_exact es content m sk c : let res := (walk es content m sk c).2 in
  (r_Action res <> ActionReject /\
   (forall pre e post, es = pre ++ e :: post -> lets_pass (content_after pre content) e) /\
   ModifiedContent res = content_after es content /\
   (forall s, s ∈ sk -> s ∈ FailOpenSkips res) /\
   (forall pre e post err, es = pre ++ e :: post -> answer k e (with_content (content_after pre content) req) = Err err ->
      mkSkip (Name (ic e)) (classifyFailOpenReason err) ∈ FailOpenSkips res)) \/
  (r_Action res = ActionReject /\ exists pre e post m' sk' c' c'', es = pre ++ e :: post /\
   (forall pre' e' post', pre = pre' ++ e' :: post' -> lets_pass (content_after pre' content) e') /\
   turn e (content_after pre content) m' sk' c' = (c'', Stop res)).
Proof using Type.
  revert content m sk c. induction es as [|e es IH]; intros content m sk c; cbn [Interceptors.walk].
  { left. cbn [snd r_Action ModifiedContent FailOpenSkips]. split; [by destruct m|]. split; [by intros [|? ?] ? ?|]. split; [done|]. split; [done|]. by intros [|? ?] ? ? ?. }
  destruct (turn e content m sk c) as [c1 t] eqn:Et. destruct t as [res|content1 m1 sk1].
  { right. cbn [snd]. split; [by apply turn_stop in Et as [? _]|]. exists [], e, es, m, sk, c, c1. split; [done|]. split; [by intros [|? ?] ? ?|done]. }
  apply turn_next in Et as (Hp & -> & -> & Hskip & Hkeep).
  assert (forall s, s ∈ sk -> s ∈ sk1) as Hsub.
  { intros s Hs. destruct (answer k e (with_content content req)) as [r|err] eqn:Ea; [by rewrite (Hkeep _ eq_refl)|]. rewrite (Hskip _ eq_refl). set_solver. }
  destruct (IH (passed_on content e) (m || modifies content e) sk1 c1) as [(Hn & Hall & Hc & Hs & Herr)|(Hr & pre & e' & post & m' & sk' & c' & c'' & -> & Hpre & Hstop)].
  - left. split; [done|]. split; [|split; [done|split; [by auto|]]].
    + intros [|a pre] e' post [= <- E]; [by rewrite E in *|]. exact (Hall pre e' post E).
    + intros [|a pre] e' post err [= <- E] Hans; [|exact (Herr pre e' post err E Hans)]. cbn in Hans. apply Hs. rewrite (Hskip err Hans). set_solver.
  - right. split; [done|]. exists (e :: pre), e', post, m', sk', c', c''. split; [done|]. split; [|done].
    intros [|a pre'] e1 post' [= <- E]; [done|]. exact (Hpre pre' e1 post' E).
Qed.
End decisions.

(** ** Immutable fields *)

Section immutable.
Context (decode : Bytes -> option (list (string * Value))) (k : Calls) (req : Request).

(** The fields of the phase read the same in both contents. *)
Definition fields_agree (a b : Bytes) : Prop :=
  forall obj, decode a = Some obj -> phaseImmutableFields (Phase req) <> [] ->
  exists obj', decode b = Some obj' /\ forall path, path ∈ phaseImmutableFields (Phase req) -> lookupPath (VObject obj') path = lookupPath (VObject obj) path.

Lemma fields_agree_refl a : fields_agree a a.
Proof using Type. intros obj Hobj _. by exists obj. Qed.

Lemma fields_agree_trans a b c : fields_agree a b -> fields_agree b c -> fields_agree a c.
Proof using Type.
  intros Hab Hbc obj Hobj Hf. destruct (Hab obj Hobj Hf) as (ob & Hb & Eb). destruct (Hbc ob Hb Hf) as (oc & Hc & Ec).
  exists oc. split; [done|]. intros path Hp. by rewrite Ec, Eb.
Qed.

Lemma check_agrees a b : checkModifyImmutability decode (Phase req) a b = [] -> fields_agree a b.
Proof using Type.
  intros Hc obj Hobj Hf. unfold checkModifyImmutability in Hc. destruct (phaseImmutableFields (Phase req)) as [|f fs]; [done|].
  rewrite Hobj in Hc. destruct (decode b) as [ob|]; [|done]. exists ob. split; [done|]. intros path Hp.
  destruct (decide (lookupPath (VObject obj) path = lookupPath (VObject ob) path)) as [|Hne]; [done|exfalso].
  apply (not_elem_of_nil path). rewrite <- Hc. by apply list_elem_of_filter.
Qed.

Lemma passed_on_agrees content e : lets_pass decode k req content e -> fields_agree content (passed_on k req content e).
Proof using Type.
  unfold lets_pass, passed_on. destruct (answer k e (with_content content req)) as [r|]; [|intros _; apply fields_agree_refl].
  destruct (r_Action r); [intros _; apply fields_agree_refl|done|apply check_agrees|intros _; apply fields_agree_refl].
Qed.

Lemma content_after_agrees es content : (forall pre e post, es = pre ++ e :: post -> lets_pass decode k req (content_after k req pre content) e) ->
  fields_agree content (content_after k req es content).
Proof using Type.
  revert content. induction es as [|e es IH]; intros content Hall; [apply fields_agree_refl|].
  eapply fields_agree_trans; [by apply passed_on_agrees, (Hall [] e es)|]. apply IH. intros pre e' post ->. by apply (Hall (e :: pre) e' post).
Qed.
End immutable.

(** C18. A request that the chain lets through, whichever interceptors it asks and
    whatever they answer, names the same identity, routing and correlation as the
    request it was given: every immutable field of the phase reads the same. *)
Theorem immutable_fields_survive decode k req accept c obj path : let res := (run decode k req accept c).2 in
  r_Action res <> ActionReject -> decode (Content req) = Some obj -> path ∈ phaseImmutableFields (Phase req) ->
  exists obj', decode (ModifiedContent res) = Some obj' /\ lookupPath (VObject obj') path = lookupPath (VObject obj) path.
Proof.
  intros res Hn Hobj Hp. subst res. unfold run in *. set (es := filter _ _) in *.
  destruct (walk_exact decode k req es (Content req) false [] c) as [(_ & Hall & Hc & _)|[Hr _]]; [|done].
  destruct (content_after_agrees decode k req es (Content req) Hall obj Hobj) as (ob & Hob & Eob).
  { intros E. rewrite E in Hp. by apply not_elem_of_nil in Hp. }
  exists ob. rewrite Hc. split; [done|]. by apply Eob.
Qed.

(** C19. When a scoped run admits a request, the scanner the policy names is
    registered, and every built-in and that scanner, in the order of priorities
    and on what those before it made of the request, has let it pass; an
    interceptor that failed open on the way is reported.  A rejection names the
    request as the rejecting interceptor left it. *)
Theorem admitted_by_all decode k req ref c : let res := (RunPolicyScoped decode k req ref c).2 in
  r_Action res <> ActionReject ->
  (ref = "" \/ exists e, e ∈ entries c (Phase req) /\ Builtin (ic e) = false /\ Name (ic e) = ref) /\
  exists es, StronglySorted exec_le es /\ ModifiedContent res = content_after k req es (Content req) /\
    (forall e, e ∈ es <-> e ∈ entries c (Phase req) /\ (Builtin (ic e) = true \/ (ref <> "" /\ Name (ic e) = ref))) /\
    forall pre e post, es = pre ++ e :: post ->
      lets_pass decode k req (content_after k req pre (Content req)) e /\
      (forall err, answer k e (with_content (content_after k req pre (Content req)) req) = Err err ->
         mkSkip (Name (ic e)) (classifyFailOpenReason err) ∈ FailOpenSkips res).
Proof.
  intros res Hn. subst res. unfold RunPolicyScoped in *. destruct (negb (is_empty ref) && negb (HasExternalNamed c (Phase req) ref)) eqn:E; [done|].
  split.
  - destruct (is_empty ref) eqn:Er; [left; by apply is_empty_spec|right]. apply negb_false_iff in E. unfold HasExternalNamed in E. rewrite Er in E.
    apply existsb_exists in E as (e & He%list_elem_of_In & [Hb%negb_true_iff Hname%String.eqb_eq]%andb_true_iff). eauto.
  - unfold run in *. set (es := filter _ _) in *. exists es.
    destruct (walk_exact decode k req es (Content req) false [] c) as [(_ & Hall & Hc & _ & Herr)|[Hr _]]; [|done].
    split; [apply sorted_filter, ordered_sorted|]. split; [done|]. split.
    + intros e. unfold es. rewrite list_elem_of_filter, ordered_perm. unfold scoped. rewrite orb_true_iff, andb_true_iff, negb_true_iff, String.eqb_eq.
      assert (is_empty ref = false <-> ref <> "") as -> by (rewrite <- not_true_iff_false, is_empty_spec; done). tauto.
    + intros pre e post Hes. split; [by eapply Hall|]. intros err. by eapply Herr.
Qed.

(** ** Failing open *)

(** What happens to the interceptors of one name, the latest first. *)
Inductive FailEvent := FailedAt (t : Time) | Succeeded.

(** The failures in the window that ends at [t]. *)
Definition in_window (window : Duration) (t : Time) (es : list Time) : list Time := filter (fun u => (t - window <= u)%Z) es.

(** All failures since the interceptor was last restored, latest first, and
    whether it is escalated. *)
Fixpoint account (maxN : Z) (window : Duration) (h : list FailEvent) : list Time * bool :=
  match h with
  | [] => ([], false)
  | Succeeded :: h => let '(es, esc) := account maxN window h in if esc then ([], false) else (es, esc)
  | FailedAt t :: h =>
      let '(es, esc) := account maxN window h in
      (t :: es, esc || (maxN <? Z.of_nat (length (in_window window t (t :: es))))%Z)
  end.

(** The same over the state the chain keeps. *)
Fixpoint tracked (maxN : Z) (window : Duration) (h : list FailEvent) : failOpenState :=
  match h with
  | [] => mkFailState [] false
  | Succeeded :: h => let st := tracked maxN window h in if escalated st then mkFailState [] false else st
  | FailedAt t :: h => fail_error maxN window t (tracked maxN window h)
  end.

(** No failure is later than [t]; the clock does not run backwards. *)
Fixpoint clock_ok (t : Time) (h : list FailEvent) : Prop :=
  match h with [] => True | Succeeded :: h => clock_ok t h | FailedAt u :: h => (u <= t)%Z /\ clock_ok u h end.

Lemma clock_ok_later t t' h : (t <= t')%Z -> clock_ok t h -> clock_ok t' h.
Proof. revert t t'. induction h as [|[u|] h IH]; intros t t' Hle; cbn [clock_ok]; [done| |by apply IH]. intros [? ?]. split; [lia|done]. Qed.

Lemma account_times maxN window t h : clock_ok t h -> StronglySorted Z.ge (account maxN window h).1 /\ Forall (fun u => (u <= t)%Z) (account maxN window h).1.
Proof.
  revert t. induction h as [|[u|] h IH]; intros t; cbn [clock_ok account]; [intros _; split; constructor| |].
  - intros [Hu Hok]. destruct (IH u Hok) as [Hs Hf]. destruct (account maxN window h) as [es esc]. cbn [fst] in *. split.
    + constructor; [done|]. eapply Forall_impl; [done|]. cbn. lia.
    + constructor; [done|]. eapply Forall_impl; [done|]. cbn. lia.
  - intros Hok. destruct (IH t Hok) as [Hs Hf]. destruct (account maxN window h) as [es [|]]; cbn [fst] in *; [split; constructor|done].
Qed.

Lemma filter_keeps_all {A} (P : A -> Prop) `{!forall x, Decision (P x)} l : Forall P l -> filter P l = l.
Proof. induction 1 as [|x l Hx _ IH]; [done|]. rewrite filter_cons_True by done. by rewrite IH. Qed.

(** On a list in order, dropping the first stale entries drops all of them. *)
Lemma prune_filter ts cutoff : StronglySorted Z.le ts -> pruneBefore ts cutoff = filter (fun u => (cutoff <= u)%Z) ts.
Proof.
  induction 1 as [|t ts Hs IH Ht]; [done|]. cbn [pruneBefore]. unfold time_before. destruct (Z.ltb_spec t cutoff).
  - rewrite filter_cons_False by lia. done.
  - symmetry. rewrite filter_cons_True by done. f_equal. apply filter_keeps_all. eapply Forall_impl; [done|]. cbn. lia.
Qed.

Lemma reverse_sorted (l : list Z) : StronglySorted Z.ge l -> StronglySorted Z.le (reverse l).
Proof.
  induction 1 as [|x l _ IH Hx]; [constructor|]. rewrite reverse_cons. apply StronglySorted_app_2; [|done|repeat constructor].
  intros y z Hy ->%list_elem_of_singleton. rewrite Forall_forall in Hx. rewrite elem_of_reverse in Hy. specialize (Hx y Hy). lia.
Qed.

(** The state is the account, cut to the window of the last failure. *)
Lemma tracked_account maxN window t h : clock_ok t h -> (0 <= window)%Z ->
  escalated (tracked maxN window h) = (account maxN window h).2 /\
  exists last, (last <= t)%Z /\ errs (tracked maxN window h) = reverse (in_window window last (account maxN window h).1).
Proof.
  intros Hok Hw. revert t Hok. induction h as [|[u|] h IH]; intros t; cbn [clock_ok].
  - intros _. split; [done|]. by exists t.
  - intros [Hu Hok]. destruct (IH u Hok) as (He & last & Hlast & Hes). destruct (account_times maxN window u h Hok) as [Hs Hf].
    cbn [tracked account]. unfold fail_error. rewrite He, Hes. destruct (account maxN window h) as [es esc]. cbn [fst snd] in *.
    assert (pruneBefore (reverse (in_window window last es)) (time_add u (- window)) ++ [u] = reverse (in_window window u (u :: es))) as Hnew.
    { unfold in_window. rewrite prune_filter by (apply reverse_sorted, sorted_filter; done). rewrite filter_cons_True by lia. rewrite reverse_cons. f_equal.
      rewrite <- filter_reverse, list_filter_filter. unfold time_add. rewrite <- filter_reverse. apply list_filter_iff. intros v. lia. }
    cbn [escalated errs]. rewrite Hnew, length_reverse. split; [done|]. exists u. split; [lia|done].
  - intros Hok. destruct (IH t Hok) as (He & last & Hlast & Hes). cbn [tracked account]. rewrite He. destruct (account maxN window h) as [es esc]. cbn [snd fst] in *.
    destruct esc; [split; [done|]; by exists t|]. split; [done|]. by exists last.
Qed.

(** The records a chain makes, of any interceptors and in any runs, latest first. *)
Definition record (x : Interceptor * Request * FailEvent) (c : Chain) : Chain :=
  match x.2 with FailedAt t => (recordFailOpenError x.1.1 x.1.2 t c).1 | Succeeded => recordFailOpenSuccess x.1.1 x.1.2 c end.

Definition recorded (c : Chain) (h : list (Interceptor * Request * FailEvent)) : Chain := foldr record c h.

Definition history_of (name : string) (h : list (Interceptor * Request * FailEvent)) : list FailEvent :=
  omap (fun x => if decide (Name x.1.1 = name) then Some x.2 else None) h.

Definition state_of (c : Chain) (name : string) : failOpenState := default (mkFailState [] false) (failStates c !! name).

(** Whether the last notice about the name is of an escalation. *)
Definition heard (name : string) (b : bool) (n : Notice) : bool :=
  match n with
  | FailOpenEscalated ev => if decide (InterceptorName ev = name) then true else b
  | FailOpenRestored ev => if decide (InterceptorName ev = name) then false else b
  end.

Definition announced (name : string) (ns : list Notice) : bool := foldl (heard name) false ns.

(** The settings of a chain stay; its states are those of the histories, and with
    an observer the escalated interceptors are the announced ones. *)
Definition recorded_ok (c0 c : Chain) (h : list (Interceptor * Request * FailEvent)) : Prop :=
  failEnabled c = true /\ failConfig c = failConfig c0 /\ failObserver c = failObserver c0 /\
  (forall name, state_of c name = tracked (failConfig c0).1 (failConfig c0).2 (history_of name h)) /\
  (failObserver c0 = true -> forall name, announced name (notices c) = escalated (state_of c name)).

Lemma state_of_set name st c n : state_of (set_fail name st c) n = if decide (name = n) then st else state_of c n.
Proof. unfold state_of, set_fail. cbn. destruct (decide _) as [<-|]; [by rewrite lookup_insert_eq|by rewrite lookup_insert_ne]. Qed.

Lemma history_cons i rq ev h name :
  history_of name ((i, rq, ev) :: h) = if decide (Name i = name) then ev :: history_of name h else history_of name h.
Proof. unfold history_of. cbn [omap list_omap fst snd]. by destruct (decide _). Qed.

Lemma notify_frame n c : failEnabled (notify n c) = failEnabled c /\ failConfig (notify n c) = failConfig c /\ failObserver (notify n c) = failObserver c /\
  (forall name, state_of (notify n c) name = state_of c name) /\ (failObserver c = true -> notices (notify n c) = notices c ++ [n]).
Proof. unfold notify. destruct (failObserver c) eqn:E; by split_and!. Qed.

(** A step sets the state of one name: silently when it stays escalated or not,
    and with a notice that says so otherwise. *)
Lemma recorded_set c0 c h i rq ev st : recorded_ok c0 c h -> st = tracked (failConfig c0).1 (failConfig c0).2 (ev :: history_of (Name i) h) ->
  forall name, state_of (set_fail (Name i) st c) name = tracked (failConfig c0).1 (failConfig c0).2 (history_of name ((i, rq, ev) :: h)).
Proof.
  intros (_ & _ & _ & Hst & _) -> name. rewrite state_of_set, history_cons. destruct (decide (Name i = name)) as [<-|]; [done|apply Hst].
Qed.

Lemma recorded_silent c0 c h i rq ev st : recorded_ok c0 c h -> st = tracked (failConfig c0).1 (failConfig c0).2 (ev :: history_of (Name i) h) ->
  escalated st = escalated (state_of c (Name i)) -> recorded_ok c0 (set_fail (Name i) st c) ((i, rq, ev) :: h).
Proof.
  intros Hok Heq He. pose proof Hok as (Hen & Hcfg & Hobs & _ & Hann). do 3 (split; [done|]). split; [by apply recorded_set|].
  intros Ho name. rewrite state_of_set. cbn [set_fail notices]. rewrite (Hann Ho). by destruct (decide (Name i = name)) as [<-|].
Qed.

Lemma recorded_notice c0 c h i rq ev st n : recorded_ok c0 c h -> st = tracked (failConfig c0).1 (failConfig c0).2 (ev :: history_of (Name i) h) ->
  (forall name b, heard name b n = if decide (Name i = name) then escalated st else b) ->
  recorded_ok c0 (notify n (set_fail (Name i) st c)) ((i, rq, ev) :: h).
Proof.
  intros Hok Heq Hn. pose proof Hok as (Hen & Hcfg & Hobs & _ & Hann). destruct (notify_frame n (set_fail (Name i) st c)) as (E1 & E2 & E3 & E4 & E5).
  unfold recorded_ok. rewrite E1, E2, E3. do 3 (split; [done|]). split; [intros name; rewrite E4; by apply recorded_set|].
  intros Ho name. rewrite E4, E5 by (cbn; by rewrite Hobs). unfold announced. rewrite foldl_app. cbn [foldl]. rewrite Hn, state_of_set.
  destruct (decide (Name i = name)); [done|by apply Hann].
Qed.

(** A step that leaves the chain alone. *)
Lemma recorded_idle c0 c h i rq ev : recorded_ok c0 c h ->
  tracked (failConfig c0).1 (failConfig c0).2 (ev :: history_of (Name i) h) = state_of c (Name i) -> recorded_ok c0 c ((i, rq, ev) :: h).
Proof.
  intros (Hen & Hcfg & Hobs & Hst & Hann) Heq. do 3 (split; [done|]). split; [|done]. intros name. rewrite history_cons.
  destruct (decide (Name i = name)) as [<-|]; [by rewrite Heq|apply Hst].
Qed.

Lemma recorded_failure c0 c h i rq t : recorded_ok c0 c h -> recorded_ok c0 (recordFailOpenError i rq t c).1 ((i, rq, FailedAt t) :: h).
Proof.
  intros IH. pose proof IH as (Hen & Hcfg & _ & Hst & _). unfold recordFailOpenError. rewrite Hen, Hcfg. cbn [negb]. fold (state_of c (Name i)).
  destruct (failConfig c0) as [m w] eqn:Ec. set (prior := state_of c (Name i)). set (st := fail_error m w t prior).
  assert (st = tracked (failConfig c0).1 (failConfig c0).2 (FailedAt t :: history_of (Name i) h)) as Heq.
  { unfold st, prior. by rewrite Hst, Ec. }
  destruct (escalated st && negb (escalated prior)) eqn:Eb; cbn [fst].
  - apply andb_true_iff in Eb as [Es _]. apply recorded_notice; [done|done|]. intros name b. rewrite Es. done.
  - apply recorded_silent; [done|done|]. unfold st, fail_error, prior in *. cbn in *. destruct (escalated (state_of c (Name i))); [done|].
    cbn in Eb |- *. by rewrite andb_true_r in Eb.
Qed.

Lemma recorded_success c0 c h i rq : recorded_ok c0 c h -> recorded_ok c0 (recordFailOpenSuccess i rq c) ((i, rq, Succeeded) :: h).
Proof.
  intros IH. pose proof IH as (_ & _ & _ & Hst & _). specialize (Hst (Name i)). unfold recordFailOpenSuccess.
  destruct (failStates c !! Name i) as [st|] eqn:E.
  - assert (state_of c (Name i) = st) as Hsi by (unfold state_of; by rewrite E). destruct (escalated st) eqn:Es.
    + apply recorded_notice; [done| |done]. cbn [tracked]. by rewrite <- Hst, Hsi, Es.
    + apply recorded_idle; [done|]. cbn [tracked]. by rewrite <- Hst, Hsi, Es.
  - assert (state_of c (Name i) = mkFailState [] false) as Hsi by (unfold state_of; by rewrite E).
    apply recorded_idle; [done|]. cbn [tracked]. by rewrite <- Hst, Hsi.
Qed.

Lemma recorded_state c0 h : failEnabled c0 = true -> failStates c0 = ∅ -> notices c0 = [] -> recorded_ok c0 (recorded c0 h) h.
Proof.
  intros He H0 Hno. induction h as [|[[i rq] [t|]] h IH]; cbn [recorded foldr]; [|by apply recorded_failure|by apply recorded_success].
  unfold recorded_ok, state_of. rewrite H0, Hno. split_and!; try done; intros; by rewrite lookup_empty.
Qed.

(** C21. The chain keeps only the failures of the last window, and yet decides as if it
    remembered every failure since the interceptor was last restored: a failure is
    skipped exactly while no failure since then had more than the ceiling in the
    window that ends at it.  So within a window at most that many failures of an
    interceptor admit a request, and an observer has been told of exactly the
    interceptors that are escalated. *)
Theorem fail_open_exact c maxN window observer h i req t : let c0 := SetFailOpenEscalation maxN window observer c in
  failStates c = ∅ -> notices c = [] -> clock_ok t (history_of (Name i) h) ->
  let '(m, w) := failConfig c0 in let past := account m w (history_of (Name i) h) in
  (recordFailOpenError i req t (recorded c0 h)).2 = (past.2 || (m <? Z.of_nat (length (in_window w t (t :: past.1))))%Z) /\
  ((recordFailOpenError i req t (recorded c0 h)).2 = false -> (Z.of_nat (length (in_window w t (t :: past.1))) <= m)%Z) /\
  (observer = true -> announced (Name i) (notices (recorded c0 h)) = past.2).
Proof.
  intros c0 H0 Hno Hok. destruct (recorded_state c0 h) as (Hen & Hcfg & Hobs & Hst & Hann); [done|done|done|].
  assert (0 <= (failConfig c0).2)%Z as Hw.
  { unfold c0, failConfig. cbn. repeat case_match; try (vm_compute; discriminate); lia. }
  destruct (failConfig c0) as [m w] eqn:Ec. cbn [fst snd] in *.
  assert ((recordFailOpenError i req t (recorded c0 h)).2 = (account m w (FailedAt t :: history_of (Name i) h)).2) as Hdec.
  { unfold recordFailOpenError. rewrite Hen, Hcfg. cbn [negb snd]. fold (state_of (recorded c0 h) (Name i)). rewrite Hst.
    change (fail_error m w t (tracked m w (history_of (Name i) h))) with (tracked m w (FailedAt t :: history_of (Name i) h)).
    apply (tracked_account m w t); [by split|done]. }
  assert (observer = true -> announced (Name i) (notices (recorded c0 h)) = (account m w (history_of (Name i) h)).2) as Hheard.
  { intros ->. rewrite (Hann eq_refl), Hst. by apply (tracked_account m w t). }
  cbn [account] in Hdec. destruct (account m w (history_of (Name i) h)) as [es esc]. cbn [fst snd] in *. split; [done|]. split; [|done].
  rewrite Hdec. intros [_ Hlt%Z.ltb_ge]%orb_false_iff. done.
Qed.

(** ** Concrete chains *)

Module ChainDemo.

Definition allow : Result_ := mkResult ActionAllow NoReason "" None "" 0 [] [].
Definition rewrite_to (s : string) : Result_ := mkResult ActionModify NoReason "" (Some s) "" 0 [] [].
Definition scanner : Interceptor := mkInterceptor "scanner" 500 false FailOpen 0.
Definition registered : Chain :=
  match Register PhasePreDelegation DelegationPolicyEvaluator NewChain with
  | Ok c => match Register PhasePreDelegation scanner c with Ok c => c | Err _ => NewChain end
  | Err _ => NewChain
  end.
Definition request (s : string) : Request := mkRequest PhasePreDelegation "parent" "acme" (Some s) ∅.
Definition no_objects : Bytes -> option (list (string * Value)) := fun _ => None.

(** The evaluator caps input at four bytes; the scanner rewrites. *)
Definition calls (rewritten : string) : Calls :=
  mkCalls (fun e r => if Builtin (ic e) then evaluateInput (fun _ _ => Some 4%Z) 10 r else Ok (rewrite_to rewritten)) (fun _ => 0%Z).

Lemma admitted_by_all_witness : let res := (RunPolicyScoped no_objects (calls "****") (request "text") "scanner" registered).2 in
  r_Action res = ActionModify /\ (exists e, e ∈ entries registered PhasePreDelegation /\ Name (ic e) = "scanner") /\
  exists es, StronglySorted exec_le es /\ ModifiedContent res = content_after (calls "****") (request "text") es (Some "text").
Proof.
  destruct (admitted_by_all no_objects (calls "****") (request "text") "scanner" registered) as [Href (es & Hs & Hc & _)].
  { vm_compute. discriminate. }
  split; [vm_compute; reflexivity|]. split.
  - destruct Href as [|(e & He & _ & Hn)]; [discriminate|]. by exists e.
  - exists es. by split.
Defined.

(** The cap is checked before the scanner runs, so what the scanner makes of the
    input is not capped. *)
Lemma rewritten_input_uncapped :
  ModifiedContent (RunPolicyScoped no_objects (calls "a longer text") (request "text") "scanner" registered).2 = Some "a longer text".
Proof. vm_compute. reflexivity. Qed.

(** A decoder that knows two texts. *)
Definition decode2 : Bytes -> option (list (string * Value)) := fun b =>
  match b with
  | Some "A" => Some [("id", VOther "7"); ("body", VOther "x")]
  | Some "B" => Some [("id", VOther "7"); ("body", VOther "y")]
  | _ => None
  end.
Definition tool_chain : Chain := match Register PhasePreToolResult scanner NewChain with Ok c => c | Err _ => NewChain end.
Definition tool_request : Request := mkRequest PhasePreToolResult "s" "acme" (Some "A") ∅.

Lemma immutable_fields_survive_witness : let res := (Run decode2 (calls "B") tool_request tool_chain).2 in
  ModifiedContent res = Some "B" /\ exists obj', decode2 (ModifiedContent res) = Some obj' /\ lookupPath (VObject obj') "id" = Some (VOther "7").
Proof.
  split; [vm_compute; reflexivity|].
  destruct (immutable_fields_survive decode2 (calls "B") tool_request (fun _ => true) tool_chain [("id", VOther "7"); ("body", VOther "x")] "id")
    as (obj & Ho & Hl); [vm_compute; discriminate|reflexivity|vm_compute; left|].
  exists obj. split; [exact Ho|]. rewrite Hl. reflexivity.
Defined.

Definition failures : list (Interceptor * Request * FailEvent) := [(scanner, tool_request, FailedAt 20%Z); (scanner, tool_request, FailedAt 10%Z)].

Lemma fail_open_exact_witness : clock_ok 30 (history_of "scanner" failures) /\
  (recordFailOpenError scanner tool_request 30 (recorded (SetFailOpenEscalation 2 100 true registered) failures)).2 = true.
Proof.
  assert (clock_ok 30 (history_of "scanner" failures)) as Hok by (vm_compute; repeat split; discriminate).
  split; [exact Hok|]. etransitivity; [exact (proj1 (fail_open_exact registered 2 100 true failures scanner tool_request 30 eq_refl eq_refl Hok))|]. vm_compute. reflexivity.
Defined.

End ChainDemo.
