(* ===== verification/ExportScan.v ===== *)
(** * Files a delegation exports to its child
      ([policy/interceptor/export.go], [mcpfabric/delegation/export],
      [mcpfabric/delegation/fileexport])

    The scan of each exported file by the interceptor the policy names, and the
    pipeline around it: the entries of the export in their order with later ones
    overwriting earlier ones, the limits on what is left, the scan, and the
    sources of the workspace of the child.  SHA-256, the JSON of a file record
    and [strings.ToLower] are arguments, as are the answers of the parent pod,
    of the interceptors and of the blob store. *)

From S2P Require Import Prelude Text Interceptors InterceptorRuns.

#[local] Set Warnings "-register-all".

(** ** The scan of one file ([interceptor/export.go]) *)

Definition CodeExportFileScanRejected : string := "EXPORT_FILE_SCAN_REJECTED".
Definition CodeExportFileScanSizeExceeded : string := "EXPORT_FILE_SCAN_SIZE_EXCEEDED".
Definition CodeExportFileScanUnavailable : string := "EXPORT_FILE_SCAN_UNAVAILABLE".
Definition CodeExportFileHashMismatch : string := "EXPORT_FILE_HASH_MISMATCH".

Record ExportDelegationContext := mkContext { ParentPod : string; ChildSessionPlanDigest : string }.
#[export] Instance ExportDelegationContext_eq_dec : EqDecision ExportDelegationContext.
Proof. solve_decision. Defined.

Record ExportFile := mkExportFile { Path : string; FContent : Bytes; DelegationContext : ExportDelegationContext; Hash : string }.

Record exportFileRecord := mkRecord {
  FilePath : string; FileSize : Z; SHA256 : string; ContentBytes : Bytes; RecordContext : ExportDelegationContext }.

(** The text of a rejection: that of the chain, or which check it names. *)
Inductive ScanReason := ChainReason (r : Reason) | NoScanReason | HashReason (expected actual : string) | PathReason (altered : string) | ContextReason.

(** An [*ExportScanError], or the error of a record that does not decode. *)
Inductive ScanError := ExportScanError (code path : string) (reason : ScanReason) | MalformedRecord (path : string).

Definition size_of (b : Bytes) : Z := Z.of_nat (String.length (default "" b)).

Definition fold_byte (c : ascii) : ascii :=
  let n := N_of_ascii c in if (65 <=? n)%N && (n <=? 90)%N then ascii_of_N (n + 32) else c.

Fixpoint equalFoldASCII (a b : string) : bool :=
  match a, b with
  | EmptyString, EmptyString => true
  | String c a, String d b => Ascii.eqb (fold_byte c) (fold_byte d) && equalFoldASCII a b
  | _, _ => false
  end.

Definition OutcomeAdmitted : string := "admitted".
Definition OutcomeModified : string := "modified".
Definition OutcomeRejected : string := "rejected".
Definition OutcomeFailedOpen : string := "failed_open".
Definition OutcomeFailedClosed : string := "failed_closed".

Inductive EventReason := ScanText (r : ScanReason) | SkipText (s : string) | NoText.

Record ExportScanContext := mkScanContext { Pool : string; PolicyName : string; InterceptorRef : string; Observer : bool }.

Record ExportScanEvent := mkScanEvent {
  se_Pool : string; se_TenantID : string; se_SessionID : string; se_PolicyName : string; se_InterceptorRef : string;
  se_FilePath : string; se_FileSize : Z; Outcome : string; se_Reason : EventReason; ScanDuration : Duration }.

(** The interceptor a policy names runs alone, in a chain made for the export. *)
Definition ExportScanChainFor (ref : string) (c : Chain) : option Chain :=
  if is_empty ref then None
  else match list_find (fun e => Name (ic e) = ref) (entries c PhasePreDelegation) with
       | None => None
       | Some (_, e) =>
           let sub := match Register PhasePreExportMaterialization (ic e) NewChain with Ok sub => sub | Err _ => NewChain end in
           Some (if failEnabled c then SetFailOpenEscalation (failOpenMax c) (failOpenWindow c) (failObserver c) sub else sub)
       end.

Section scan.
Context (sha256_hex : string -> string) (marshal : exportFileRecord -> string) (unmarshal : Bytes -> option exportFileRecord)
        (decode : Bytes -> option (list (string * Value))).

Definition ComputeExportFileHash (content : Bytes) : string := sha256_hex (default "" content).

Definition VerifyExportFileHash (path : string) (content : Bytes) (expected : string) : option ScanError :=
  if is_empty expected then None
  else let got := ComputeExportFileHash content in
       if negb (equalFoldASCII got expected) then Some (ExportScanError CodeExportFileHashMismatch path (HashReason expected got)) else None.

Definition applyExportModify (orig : ExportFile) (modified : Bytes) : result ScanError ExportFile :=
  match unmarshal modified with
  | None => Err (MalformedRecord (Path orig))
  | Some record =>
      if negb (String.eqb (FilePath record) (Path orig))
      then Err (ExportScanError CodeInterceptorImmutableFieldViolation (Path orig) (PathReason (FilePath record)))
      else if negb (bool_decide (RecordContext record = DelegationContext orig))
      then Err (ExportScanError CodeInterceptorImmutableFieldViolation (Path orig) ContextReason)
      else Ok (mkExportFile (Path orig) (ContentBytes record) (DelegationContext orig) "")
  end.

Definition file_record (f : ExportFile) : exportFileRecord :=
  mkRecord (Path f) (size_of (FContent f)) (ComputeExportFileHash (FContent f)) (FContent f) (DelegationContext f).

Definition scan_request (tenantID sessionID : string) (f : ExportFile) : Request :=
  mkRequest PhasePreExportMaterialization sessionID tenantID (Some (marshal (file_record f))) ∅.

Definition scanExportFile (k : Calls) (tenantID sessionID : string) (f : ExportFile) (c : Chain) : Chain * (Result_ * result ScanError ExportFile) :=
  let '(c, res) := Run decode k (scan_request tenantID sessionID f) c in
  (c, (res,
   match r_Action res with
   | ActionReject =>
       Err (ExportScanError (if String.eqb (Code res) CodeInterceptorTimeout then CodeExportFileScanUnavailable else CodeExportFileScanRejected)
              (Path f) (ChainReason (r_Reason res)))
   | ActionModify => applyExportModify f (ModifiedContent res)
   | ActionAllow | ActionOther _ => Ok f
   end)).

Definition scan_event (sc : ExportScanContext) (tenantID sessionID : string) (f : ExportFile) (dur : Duration) (outcome : string) (reason : EventReason) :
  ExportScanEvent :=
  mkScanEvent (Pool sc) tenantID sessionID (PolicyName sc) (InterceptorRef sc) (Path f) (size_of (FContent f)) outcome reason dur.

Definition emit (sc : ExportScanContext) (ev : ExportScanEvent) : list ExportScanEvent := if Observer sc then [ev] else [].

Definition failed_outcome (e : ScanError) : string * EventReason :=
  match e with
  | ExportScanError code _ reason => (if String.eqb code CodeExportFileScanUnavailable then OutcomeFailedClosed else OutcomeRejected, ScanText reason)
  | MalformedRecord _ => (OutcomeRejected, NoText)
  end.

Definition passed_outcome (res : Result_) : string * EventReason :=
  match FailOpenSkips res with
  | s :: _ => (OutcomeFailedOpen, SkipText (skipReason s))
  | [] => (match r_Action res with ActionModify => OutcomeModified | _ => OutcomeAdmitted end, NoText)
  end.

(** A file with what the interceptors answer for it and how long they take. *)
Abbreviation ScanInput := (ExportFile * (Calls * Duration))%type.

Fixpoint RunPreExportMaterialization (sc : ExportScanContext) (tenantID sessionID : string) (maxSize : Z) (files : list ScanInput) (c : Chain) :
  Chain * list ExportScanEvent * result ScanError (list ExportFile) :=
  match files with
  | [] => (c, [], Ok [])
  | (f, (k, dur)) :: files =>
      match VerifyExportFileHash (Path f) (FContent f) (Hash f) with
      | Some err => (c, [], Err err)
      | None =>
          if (0 <? maxSize)%Z && (maxSize <? size_of (FContent f))%Z
          then (c, [], Err (ExportScanError CodeExportFileScanSizeExceeded (Path f) NoScanReason))
          else
            let '(c, (res, r)) := scanExportFile k tenantID sessionID f c in
            match r with
            | Err err =>
                let '(outcome, reason) := failed_outcome err in
                (c, emit sc (scan_event sc tenantID sessionID f dur outcome reason), Err err)
            | Ok g =>
                let '(outcome, reason) := passed_outcome res in
                let g := mkExportFile (Path g) (FContent g) (DelegationContext g) (ComputeExportFileHash (FContent g)) in
                let '(c, evs, rest) := RunPreExportMaterialization sc tenantID sessionID maxSize files c in
                (c, emit sc (scan_event sc tenantID sessionID f dur outcome reason) ++ evs,
                 match rest with Ok out => Ok (g :: out) | Err err => Err err end)
            end
      end
  end.
End scan.

(** ** What a scanned export guarantees *)

Lemma equalFold_refl s : equalFoldASCII s s = true.
Proof. induction s as [|a s IH]; [done|]. cbn. by rewrite Ascii.eqb_refl. Qed.

Section scan_facts.
Context (sha256_hex : string -> string) (marshal : exportFileRecord -> string) (unmarshal : Bytes -> option exportFileRecord)
        (decode : Bytes -> option (list (string * Value))) (tenantID sessionID : string).
Abbreviation verify := (VerifyExportFileHash sha256_hex).
Abbreviation request := (scan_request sha256_hex marshal tenantID sessionID).

(** Every interceptor in [es] has seen the record of the file, as those before it
    left it, and let it pass; [g] is what they made of the file. *)
Definition scanned_by (es : list entry) (k : Calls) (f g : ExportFile) : Prop :=
  (forall pre e post, es = pre ++ e :: post -> lets_pass decode k (request f) (content_after k (request f) pre (Content (request f))) e) /\
  Path g = Path f /\ DelegationContext g = DelegationContext f /\
  (FContent g = FContent f \/
   exists r, unmarshal (content_after k (request f) es (Content (request f))) = Some r /\ FilePath r = Path f /\
     RecordContext r = DelegationContext f /\ FContent g = ContentBytes r).

(** Some interceptor in [es] did not answer. *)
Definition uninspected (es : list entry) (k : Calls) (f : ExportFile) : Prop :=
  exists pre e post err, es = pre ++ e :: post /\ answer k e (with_content (content_after k (request f) pre (Content (request f))) (request f)) = Err err.

Definition fits (maxSize : Z) (f : ExportFile) : Prop := (0 < maxSize -> size_of (FContent f) <= maxSize)%Z.

(** The entries of the phase in their order. *)
Definition scanners (c : Chain) : list entry := ordered c PhasePreExportMaterialization.

Lemma record_keeps i rq t c : byPhase (recordFailOpenError i rq t c).1 = byPhase c.
Proof using Type. unfold recordFailOpenError, notify. destruct (failEnabled c); [|done]. cbn. destruct (failConfig c). cbn. repeat case_match; done. Qed.

Lemma success_keeps i rq c : byPhase (recordFailOpenSuccess i rq c) = byPhase c.
Proof using Type. unfold recordFailOpenSuccess, notify. repeat case_match; done. Qed.

Lemma turn_keeps k req e content m sk c : byPhase (turn decode k req e content m sk c).1 = byPhase c.
Proof using Type.
  unfold turn. destruct (answer k e _) as [res|err]; cbn [fst].
  - destruct (String.eqb _ _); [apply success_keeps|done].
  - destruct (String.eqb _ _); [|done]. destruct (recordFailOpenError _ _ _ _) as [c1 esc] eqn:E. cbn [fst]. change c1 with (c1, esc).1. rewrite <- E. apply record_keeps.
Qed.

Lemma walk_keeps k req es content m sk c : byPhase (walk decode k req es content m sk c).1 = byPhase c.
Proof using Type.
  revert content m sk c. induction es as [|e es IH]; intros content m sk c; [done|]. cbn [walk].
  pose proof (turn_keeps k req e content m sk c) as Hk. destruct (turn decode k req e content m sk c) as [c1 [res|content1 m1 sk1]]; cbn [fst] in *; [done|].
  by rewrite IH.
Qed.

Lemma scanners_same c c' : byPhase c = byPhase c' -> scanners c = scanners c'.
Proof using Type. intros E. unfold scanners, ordered, entries. by rewrite E. Qed.

Lemma applyExportModify_ok f modified g : applyExportModify unmarshal f modified = Ok g ->
  exists r, unmarshal modified = Some r /\ FilePath r = Path f /\ RecordContext r = DelegationContext f /\
    Path g = Path f /\ DelegationContext g = DelegationContext f /\ FContent g = ContentBytes r.
Proof using Type.
  unfold applyExportModify. destruct (unmarshal modified) as [r|]; [|done]. destruct (String.eqb_spec (FilePath r) (Path f)); [|done]. cbn [negb].
  case_bool_decide; [|done]. intros [= <-]. exists r. by split_and!.
Qed.

(** A file that passes was seen by every interceptor of the phase, and one that
    did not answer is reported with the result. *)
Lemma scanExportFile_ok k f c c' res g : scanExportFile sha256_hex marshal unmarshal decode k tenantID sessionID f c = (c', (res, Ok g)) ->
  scanned_by (scanners c) k f g /\ (uninspected (scanners c) k f -> FailOpenSkips res <> []).
Proof using Type.
  unfold scanExportFile, Run, run. rewrite (filter_keeps_all _ (ordered _ _)) by (by apply Forall_true). fold (request f).
  change (Phase (request f)) with PhasePreExportMaterialization. fold (scanners c).
  destruct (walk decode k (request f) (scanners c) (Content (request f)) false [] c) as [c1 res1] eqn:Ew.
  destruct (walk_exact decode k (request f) (scanners c) (Content (request f)) false [] c) as [(Hn & Hall & Hc & _ & Herr)|[Hr _]]; rewrite Ew in *; cbn [snd] in *; last first.
  { rewrite Hr. by intros [= _ _ ?]. }
  intros [= _ <- Hg]. split.
  - split; [exact Hall|]. destruct (r_Action res1); simplify_eq; [by split_and!; auto| |by split_and!; auto].
    apply applyExportModify_ok in Hg as (r & Hr & H1 & H2 & H3 & H4 & H5). split; [done|]. split; [done|]. right. exists r. rewrite <- Hc. by split_and!.
  - intros (pre & e & post & err & Hes & Hans) Hnil. specialize (Herr pre e post err Hes Hans). rewrite Hnil in Herr. by apply not_elem_of_nil in Herr.
Qed.

(** The error names the file. *)
Lemma scanExportFile_err k f c c' res err : scanExportFile sha256_hex marshal unmarshal decode k tenantID sessionID f c = (c', (res, Err err)) ->
  match err with ExportScanError _ path _ | MalformedRecord path => path = Path f end.
Proof using Type.
  unfold scanExportFile. destruct (Run _ _ _ _) as [c1 res1]. intros [= _ _ He]. unfold applyExportModify in He. repeat case_match; by simplify_eq.
Qed.

Lemma scanExportFile_keeps k f c : byPhase (scanExportFile sha256_hex marshal unmarshal decode k tenantID sessionID f c).1 = byPhase c.
Proof using Type.
  unfold scanExportFile, Run, run. pose proof (walk_keeps k (request f) (filter (fun e => true = true) (ordered c (Phase (request f)))) (Content (request f)) false [] c) as Hk.
  fold (request f). destruct (walk _ _ _ _ _ _ _ _) as [c1 res]. exact Hk.
Qed.
End scan_facts.

(** An export whose scan succeeds gives back the files in their order, each with
    its path and delegation context, intact on arrival, within the size limit,
    passed by every interceptor of the phase, and stamped with a hash that the
    delivered bytes verify against; every file is reported, and none as admitted
    or modified when an interceptor did not answer.  When it fails, the files
    before the named one had all passed, and every file that entered the chain is
    reported. *)
Lemma export_scan_exact sha256_hex marshal unmarshal decode sc tenantID sessionID maxSize files c :
  let '(_, evs, r) := RunPreExportMaterialization sha256_hex marshal unmarshal decode sc tenantID sessionID maxSize files c in
  match r with
  | Ok out =>
      Forall2 (fun x g => let '(f, (k, _)) := x in
        VerifyExportFileHash sha256_hex (Path f) (FContent f) (Hash f) = None /\ fits maxSize f /\
        scanned_by sha256_hex marshal unmarshal decode tenantID sessionID (scanners c) k f g /\
        VerifyExportFileHash sha256_hex (Path g) (FContent g) (Hash g) = None) files out /\
      (Observer sc = true -> Forall2 (fun x ev => let '(f, (k, _)) := x in
        se_FilePath ev = Path f /\ se_TenantID ev = tenantID /\
        (uninspected sha256_hex marshal tenantID sessionID (scanners c) k f -> Outcome ev = OutcomeFailedOpen)) files evs)
  | Err err =>
      exists pre f k dur post, files = pre ++ (f, (k, dur)) :: post /\
        match err with ExportScanError _ path _ | MalformedRecord path => path = Path f end /\
        Forall (fun x => fits maxSize x.1) pre /\
        (Observer sc = true -> length pre <= length evs <= S (length pre))
  end.
Proof.
  revert c. induction files as [|[f [k dur]] files IH]; intros c; cbn [RunPreExportMaterialization].
  { by split; [|intros _]. }
  destruct (VerifyExportFileHash sha256_hex (Path f) (FContent f) (Hash f)) as [err|] eqn:Ev.
  { exists [], f, k, dur, files. split; [done|]. split; [|split; [done|cbn; lia]]. unfold VerifyExportFileHash in Ev. repeat case_match; by simplify_eq. }
  destruct ((0 <? maxSize)%Z && (maxSize <? size_of (FContent f))%Z) eqn:Es.
  { exists [], f, k, dur, files. split; [done|]. split; [done|]. split; [done|cbn; lia]. }
  assert (fits maxSize f) as Hfit by (intros Hpos; apply andb_false_iff in Es as [?%Z.ltb_ge|?%Z.ltb_ge]; lia).
  destruct (scanExportFile sha256_hex marshal unmarshal decode k tenantID sessionID f c) as [c1 [res [g|err]]] eqn:Escan; last first.
  { destruct (failed_outcome err) as [outcome reason]. exists [], f, k, dur, files. split; [done|]. split; [by eapply scanExportFile_err|]. split; [done|].
    intros Ho. unfold emit. rewrite Ho. cbn. lia. }
  pose proof (scanExportFile_keeps sha256_hex marshal unmarshal decode tenantID sessionID k f c) as Hkeep. rewrite Escan in Hkeep. cbn [fst] in Hkeep.
  apply scanExportFile_ok in Escan as [Hby Hskip]. specialize (IH c1). rewrite (scanners_same c1 c Hkeep) in IH.
  destruct (passed_outcome res) as [outcome reason] eqn:Eo.
  destruct (RunPreExportMaterialization _ _ _ _ sc tenantID sessionID maxSize files c1) as [[c2 evs] [out|err]].
  - destruct IH as [Hout Hevs]. split.
    + constructor; [|done]. split; [done|]. split; [done|]. split; [exact Hby|]. cbn. unfold VerifyExportFileHash. cbn.
      rewrite equalFold_refl. by destruct (is_empty _).
    + intros Ho. unfold emit. rewrite Ho. cbn [app]. constructor; [|by apply Hevs]. split; [done|]. split; [done|]. intros Hun%Hskip.
      unfold passed_outcome in Eo. destruct (FailOpenSkips res); [done|]. by injection Eo as <- _.
  - destruct IH as (pre & f' & k' & dur' & post & -> & Hp & Hf & Hlen). exists ((f, (k, dur)) :: pre), f', k', dur', post. split; [done|]. split; [done|].
    split; [by constructor|]. intros Ho. specialize (Hlen Ho). unfold emit. rewrite Ho. cbn. lia.
Qed.
