(* ===== verification/Exports.v ===== *)
(** * The export pipeline of a delegation ([mcpfabric/delegation/export],
      [mcpfabric/delegation/fileexport])

    What [Materialize] does with the files the parent pod returns: the checks on
    the entries, the collapse of colliding paths, the limits, the scan of
    [ExportScan], the persisted files and the sources of the child's workspace
    plan.  Lengths of slices are added without wrapping, as they fit a process. *)

From S2P Require Import Prelude Text Interceptors InterceptorRuns ExportScan.

#[local] Set Warnings "-register-all".

(** ** Paths of the standard library *)

Definition is_slash (s : string) : bool := match s with String "/" _ => true | _ => false end.

(** [path.Clean]: the segments of the path, the last kept one first. *)
Fixpoint clean_segments (rooted : bool) (segs acc : list string) : list string :=
  match segs with
  | [] => reverse acc
  | s :: segs =>
      if is_empty s || String.eqb s "." then clean_segments rooted segs acc
      else if String.eqb s ".." then
        match acc with
        | a :: acc' => if String.eqb a ".." then clean_segments rooted segs (s :: acc) else clean_segments rooted segs acc'
        | [] => clean_segments rooted segs (if rooted then [] else [s])
        end
      else clean_segments rooted segs (s :: acc)
  end.

Definition path_clean (p : string) : string :=
  let segs := clean_segments (is_slash p) (split "/" p) [] in
  if is_slash p then String "/" (join "/" segs) else match segs with [] => "." | _ => join "/" segs end.

(** [path.Dir]: what comes up to the last slash, cleaned. *)
Definition path_dir (p : string) : string :=
  path_clean (match removelast (split "/" p) with [] => "" | segs => join "/" segs +:+ "/" end).

Fixpoint filepathToSlash (p : string) : string :=
  match p with EmptyString => "" | String c p => String (if Ascii.eqb c "\" then "/"%char else c) (filepathToSlash p) end.

Definition trim_dot_slash (p : string) : string := match p with String "." (String "/" p') => p' | _ => p end.

Definition clean_child (p : string) : string := path_clean (trim_dot_slash (filepathToSlash p)).

(** ** The checks of [fileexport] *)

Inductive ExportError :=
  | ErrDestPrefixAbsolute (p : string) | ErrDestPrefixParentSegment (p : string) | ErrTooManyFiles (n limit : Z) | ErrTotalSizeExceeded (n limit : Z)
  | ErrNotConfigured | ErrNoScanChain | ErrParentExport (source : string) | ErrScan (e : ScanError) | ErrPersist (path : string).

Definition ContainsParentSegment (p : string) : bool := existsb (String.eqb "..") (split "/" p).

Definition ValidateDestPrefix (destPrefix : string) : option ExportError :=
  if is_empty destPrefix then None
  else if is_slash destPrefix then Some (ErrDestPrefixAbsolute destPrefix)
  else if ContainsParentSegment destPrefix then Some (ErrDestPrefixParentSegment destPrefix)
  else None.

Record FileExportLimits := mkLimits { MaxFiles : Z; MaxTotalSize : Z }.

Definition DefaultFileExportLimits : FileExportLimits := mkLimits 100 (100 * 1024 * 1024).

Definition limitsCheck (l : FileExportLimits) (fileCount totalBytes : Z) : option ExportError :=
  if (0 <? MaxFiles l)%Z && (MaxFiles l <? fileCount)%Z then Some (ErrTooManyFiles fileCount (MaxFiles l))
  else if (0 <? MaxTotalSize l)%Z && (MaxTotalSize l <? totalBytes)%Z then Some (ErrTotalSizeExceeded totalBytes (MaxTotalSize l))
  else None.

(** ** The pipeline ([export/export.go]) *)

Record Spec := mkSpec { Source : string; DestPrefix : string }.

Record ExportedFile := mkExported { x_Path : string; x_Content : Bytes; x_SHA256 : string; x_Size : Z }.

Record ContentScan := mkScan { Enabled : bool; MaxFileSize : Z; ScanChain : option Chain; ScanCtx : ExportScanContext }.

Record Params := mkParams {
  ParentSessionID : string; ChildSessionID : string; p_TenantID : string; Specs : list Spec; Limits : FileExportLimits; Scan : ContentScan }.

Record Overwrite := mkOverwrite { o_Path : string; SpecIndex : nat; o_Source : string }.

Inductive ChildSource := UploadFile (path uploadRef : string) | UploadArchive (pathPrefix uploadRef format : string).

Record ExportResult := mkExportResult { Sources : list ChildSource; FileCount : Z; TotalBytes : Z; Overwrites : list Overwrite }.

(** [order] lists the child paths as they are first seen, [byPath] has the file
    that was placed at each last. *)
Record Merge := mkMerge { order : list string; byPath : gmap string ExportedFile; overwrites : list Overwrite }.

Definition merge_file (i : nat) (spec : Spec) (m : Merge) (f : ExportedFile) : Merge :=
  let clean := clean_child (x_Path f) in
  let f := mkExported clean (x_Content f) (x_SHA256 f) (x_Size f) in
  match byPath m !! clean with
  | Some _ => mkMerge (order m) (<[clean := f]> (byPath m)) (overwrites m ++ [mkOverwrite clean i (Source spec)])
  | None => mkMerge (order m ++ [clean]) (<[clean := f]> (byPath m)) (overwrites m)
  end.

(** [exports] is what the parent pod answers for an entry of the export. *)
Fixpoint merge_specs (exports : Spec -> option (list ExportedFile)) (i : nat) (specs : list Spec) (m : Merge) : Merge * option ExportError :=
  match specs with
  | [] => (m, None)
  | spec :: specs =>
      match ValidateDestPrefix (DestPrefix spec) with
      | Some err => (m, Some err)
      | None =>
          match exports spec with
          | None => (m, Some (ErrParentExport (Source spec)))
          | Some files => merge_specs exports (S i) specs (foldl (merge_file i spec) m files)
          end
      end
  end.

Definition content_at (m : gmap string ExportedFile) (p : string) : Bytes := m !! p ≫= x_Content.

Definition total_bytes (m : gmap string ExportedFile) (paths : list string) : Z := foldr (fun p n => size_of (content_at m p) + n)%Z 0%Z paths.

Section pipeline.
Context (sha256_hex : string -> string) (marshal : exportFileRecord -> string) (unmarshal : Bytes -> option exportFileRecord)
        (decode : Bytes -> option (list (string * Value))) (to_lower : string -> string).

Definition archiveFormat (p : string) : option string :=
  let lower := to_lower p in
  if has_suffix lower ".tar.gz" || has_suffix lower ".tgz" then Some "tar.gz"
  else if has_suffix lower ".tar" then Some "tar"
  else if has_suffix lower ".zip" then Some "zip"
  else None.

Definition archivePathPrefix (childPath : string) : string :=
  let dir := path_dir childPath in if String.eqb dir "." || String.eqb dir "/" then "" else dir.

Definition childSource (childPath uploadRef : string) : ChildSource :=
  match archiveFormat childPath with
  | Some format => UploadArchive (archivePathPrefix childPath) uploadRef format
  | None => UploadFile childPath uploadRef
  end.

(** What the parent pod, the interceptors and the blob store answer. *)
Record World := mkWorld {
  configured : bool; auditor : bool; exports : Spec -> option (list ExportedFile); scans : string -> Calls * Duration;
  persist : ExportedFile -> option string }.

(** What was done: the audited overwrites, the scans reported, the chain after
    them, and the files written to the blob store. *)
Record Effects := mkEffects { audited : list Overwrite; reported : list ExportScanEvent; chain_after : option Chain; persisted : list ExportedFile }.

Definition apply_scanned (m : gmap string ExportedFile) (sf : ExportFile) : gmap string ExportedFile :=
  <[Path sf := mkExported (default "" (x_Path <$> m !! Path sf)) (FContent sf) (ComputeExportFileHash sha256_hex (FContent sf)) (size_of (FContent sf))]> m.

Definition scan_input (w : World) (m : Merge) (p : string) : ExportFile * (Calls * Duration) :=
  (mkExportFile p (content_at (byPath m) p) (mkContext "" "") "", scans w p).

(** The loop over the paths that writes the files. *)
Fixpoint persist_all (w : World) (m : gmap string ExportedFile) (paths : list string) : list ExportedFile * result ExportError (list ChildSource * Z) :=
  match paths with
  | [] => ([], Ok ([], 0%Z))
  | p :: paths =>
      let f := default (mkExported "" None "" 0) (m !! p) in
      match persist w f with
      | None => ([], Err (ErrPersist p))
      | Some ref =>
          let '(done, r) := persist_all w m paths in
          (f :: done, match r with Ok (srcs, n) => Ok (childSource p ref :: srcs, (size_of (x_Content f) + n)%Z) | Err e => Err e end)
      end
  end.

Definition Materialize (w : World) (p : Params) : Effects * result ExportError ExportResult :=
  let none := mkEffects [] [] (ScanChain (Scan p)) [] in
  if negb (configured w) then (none, Err ErrNotConfigured)
  else if Enabled (Scan p) && bool_decide (ScanChain (Scan p) = None) then (none, Err ErrNoScanChain)
  else
    let '(m, err) := merge_specs (exports w) 0 (Specs p) (mkMerge [] ∅ []) in
    let audit := if auditor w then overwrites m else [] in
    match err with
    | Some e => (mkEffects audit [] (ScanChain (Scan p)) [], Err e)
    | None =>
        match limitsCheck (Limits p) (Z.of_nat (length (order m))) (total_bytes (byPath m) (order m)) with
        | Some e => (mkEffects audit [] (ScanChain (Scan p)) [], Err e)
        | None =>
            let '(evs, chain, scanned) :=
              match (if Enabled (Scan p) then ScanChain (Scan p) else None) with
              | Some c =>
                  let '(c, evs, r) := RunPreExportMaterialization sha256_hex marshal unmarshal decode (ScanCtx (Scan p)) (p_TenantID p) (ChildSessionID p)
                                        (MaxFileSize (Scan p)) (scan_input w m <$> order m) c in
                  (evs, Some c, match r with Ok out => Ok (foldl apply_scanned (byPath m) out) | Err e => Err (ErrScan e) end)
              | None => ([], ScanChain (Scan p), Ok (byPath m))
              end in
            match scanned with
            | Err e => (mkEffects audit evs chain [], Err e)
            | Ok files =>
                let '(done, r) := persist_all w files (order m) in
                (mkEffects audit evs chain done,
                 match r with
                 | Ok (srcs, n) => Ok (mkExportResult srcs (Z.of_nat (length (order m))) n (overwrites m))
                 | Err e => Err e
                 end)
            end
        end
    end.
End pipeline.

(** The plan of the child, as its wire fields: type, path, prefix, reference and
    format. *)
Record wireSource := mkWire { w_Type : string; w_Path : string; w_PathPrefix : string; w_UploadRef : string; w_Format : string }.

Definition TypeUploadFile : string := "uploadFile".
Definition TypeUploadArchive : string := "uploadArchive".

Definition wire_source (s : ChildSource) : wireSource :=
  match s with
  | UploadFile path ref => mkWire TypeUploadFile path "" ref ""
  | UploadArchive prefix ref format => mkWire TypeUploadArchive "" (if is_empty prefix then "." else prefix) ref format
  end.

Definition SchemaVersion : Z := 1.

(** The version of the schema and the sources; nothing without files. *)
Definition WorkspacePlan (r : ExportResult) : option (Z * list wireSource) :=
  match Sources r with [] => None | srcs => Some (SchemaVersion, wire_source <$> srcs) end.

(** ** What reaches the child *)

(** The files the pod returned, in their order, at their cleaned paths. *)
Definition cleaned (f : ExportedFile) : ExportedFile := mkExported (clean_child (x_Path f)) (x_Content f) (x_SHA256 f) (x_Size f).

(** The last file placed at a path. *)
Definition last_write (p : string) (all : list ExportedFile) : option ExportedFile :=
  foldl (fun acc f => if decide (x_Path f = p) then Some f else acc) None all.

Lemma last_write_snoc p all f : last_write p (all ++ [f]) = if decide (x_Path f = p) then Some f else last_write p all.
Proof. unfold last_write. by rewrite foldl_app. Qed.

Lemma last_write_path p all f : last_write p all = Some f -> f ∈ all /\ x_Path f = p.
Proof.
  induction all as [|g all IH] using rev_ind; [done|]. rewrite last_write_snoc, elem_of_app, list_elem_of_singleton.
  destruct (decide (x_Path g = p)); [intros [= <-]; auto|]. intros H%IH. tauto.
Qed.

(** The merge is the collapse of what has been placed so far. *)
Definition merged (m : Merge) (all : list ExportedFile) : Prop :=
  NoDup (order m) /\ (forall p, byPath m !! p = last_write p all) /\ (forall p, p ∈ order m <-> is_Some (byPath m !! p)) /\
  (forall p, p ∈ order m <-> exists f, f ∈ all /\ x_Path f = p) /\ length (overwrites m) + length (order m) = length all.

Lemma merged_nil : merged (mkMerge [] ∅ []) [].
Proof.
  split; [constructor|]. split; [done|]. split; [|split; [|done]]; intros p; cbn.
  - rewrite lookup_empty. split; [by intros ?%not_elem_of_nil|by intros []].
  - split; [by intros ?%not_elem_of_nil|by intros (? & ?%not_elem_of_nil & _)].
Qed.

Lemma merge_file_merged i spec m all f : merged m all -> merged (merge_file i spec m f) (all ++ [cleaned f]).
Proof.
  intros (Hnd & Hlast & Hdom & Hord & Hlen). set (q := clean_child (x_Path f)).
  assert (forall p, <[q := cleaned f]> (byPath m) !! p = last_write p (all ++ [cleaned f])) as Hlast'.
  { intros p. rewrite last_write_snoc. change (x_Path (cleaned f)) with q. destruct (decide (q = p)) as [<-|]; [by rewrite lookup_insert_eq|by rewrite lookup_insert_ne]. }
  assert (forall p, (p ∈ order m \/ p = q) <-> exists g, g ∈ all ++ [cleaned f] /\ x_Path g = p) as Hord'.
  { intros p. setoid_rewrite elem_of_app. setoid_rewrite list_elem_of_singleton. rewrite Hord. split.
    - intros [(g & Hg & <-)| ->]; [by exists g; auto|]. exists (cleaned f). auto.
    - intros (g & [Hg| ->] & <-); [left; by exists g|by right]. }
  assert (forall p, (p ∈ order m \/ p = q) <-> is_Some (<[q := cleaned f]> (byPath m) !! p)) as Hdom'.
  { intros p. rewrite Hdom. destruct (decide (p = q)) as [->|]; [rewrite lookup_insert_eq|rewrite lookup_insert_ne by done]; naive_solver. }
  unfold merge_file. fold q. change (mkExported q _ _ _) with (cleaned f).
  destruct (byPath m !! q) as [g|] eqn:Eq; unfold merged; cbn [order byPath overwrites].
  - assert (q ∈ order m) as Hq by (apply Hdom; by eexists).
    assert (forall p, p ∈ order m <-> p ∈ order m \/ p = q) as Hin by (intros p; naive_solver).
    split; [done|]. split; [done|]. split; [intros p; by rewrite Hin|]. split; [intros p; by rewrite Hin|]. rewrite !length_app. cbn. lia.
  - assert (q ∉ order m) as Hq by (rewrite Hdom, Eq; by intros []).
    assert (forall p, p ∈ order m ++ [q] <-> p ∈ order m \/ p = q) as Hin by (intros p; set_solver).
    split; [apply NoDup_app; split_and!; [done|set_solver|apply NoDup_singleton]|]. split; [done|]. split; [intros p; by rewrite Hin|].
    split; [intros p; by rewrite Hin|]. rewrite !length_app. cbn. lia.
Qed.

Lemma merge_files_merged i spec m all files : merged m all -> merged (foldl (merge_file i spec) m files) (all ++ (cleaned <$> files)).
Proof.
  revert m all. induction files as [|f files IH]; intros m all Hm; [by rewrite app_nil_r|]. cbn [foldl fmap list_fmap].
  change (cleaned f :: ?l) with ([cleaned f] ++ l). rewrite (assoc (++)). by apply IH, merge_file_merged.
Qed.

Lemma merge_specs_merged exports specs m : forall i all m', merged m all -> merge_specs exports i specs m = (m', None) ->
  exists outs, mapM exports specs = Some outs /\ Forall (fun s => ValidateDestPrefix (DestPrefix s) = None) specs /\
    merged m' (all ++ (cleaned <$> concat outs)).
Proof.
  revert m. induction specs as [|spec specs IH]; intros m i all m' Hm; cbn [merge_specs].
  { intros [= <-]. exists []. by rewrite app_nil_r. }
  destruct (ValidateDestPrefix (DestPrefix spec)) eqn:Ev; [done|]. destruct (exports spec) as [files|] eqn:Ee; [|done]. intros Hr.
  destruct (IH _ _ _ _ (merge_files_merged i spec m all files Hm) Hr) as (outs & Houts & Hv & Hm'). exists (files :: outs). split.
  - cbn. rewrite Ee. cbn. by rewrite Houts.
  - split; [by constructor|]. cbn [concat]. by rewrite fmap_app, (assoc (++)).
Qed.

Section delivered.
Context (sha256_hex : string -> string) (marshal : exportFileRecord -> string) (unmarshal : Bytes -> option exportFileRecord)
        (decode : Bytes -> option (list (string * Value))) (to_lower : string -> string).
Abbreviation apply_scanned := (apply_scanned sha256_hex).

Definition file_at (m : gmap string ExportedFile) (p : string) : ExportedFile := default (mkExported "" None "" 0) (m !! p).

(** The file at a path once its scanned content has been taken over. *)
Definition rescanned (m : gmap string ExportedFile) (sf : ExportFile) : ExportedFile :=
  mkExported (default "" (x_Path <$> m !! Path sf)) (FContent sf) (ComputeExportFileHash sha256_hex (FContent sf)) (size_of (FContent sf)).

Lemma apply_other m out p : p ∉ Path <$> out -> foldl apply_scanned m out !! p = m !! p.
Proof using Type.
  revert m. induction out as [|sf out IH]; intros m; [done|]. cbn. rewrite not_elem_of_cons. intros [Hne Hp]. rewrite IH by done.
  unfold Exports.apply_scanned. by rewrite lookup_insert_ne.
Qed.

Lemma apply_own m out sf : NoDup (Path <$> out) -> sf ∈ out -> foldl apply_scanned m out !! Path sf = Some (rescanned m sf).
Proof using Type.
  revert m. induction out as [|g out IH]; intros m; cbn [fmap list_fmap]; [by intros _ ?%not_elem_of_nil|].
  intros [Hg Hnd]%NoDup_cons [->|Hin]%elem_of_cons; cbn [foldl].
  - rewrite apply_other by done. unfold Exports.apply_scanned. by rewrite lookup_insert_eq.
  - rewrite IH by done. unfold rescanned, Exports.apply_scanned. rewrite lookup_insert_ne; [done|]. intros E. apply Hg. rewrite E. by apply list_elem_of_fmap_2.
Qed.

Lemma persist_all_exact w m paths : let '(done, r) := persist_all to_lower w m paths in
  match r with
  | Ok (srcs, n) => done = file_at m <$> paths /\ n = foldr (fun g k => size_of (x_Content g) + k)%Z 0%Z done /\
      Forall2 (fun p s => exists ref, persist w (file_at m p) = Some ref /\ s = childSource to_lower p ref) paths srcs
  | Err e => exists p, p ∈ paths /\ e = ErrPersist p
  end.
Proof using Type.
  induction paths as [|p paths IH]; cbn [persist_all]; [by split_and!|]. fold (file_at m p). destruct (persist w (file_at m p)) as [ref|] eqn:Ep.
  - destruct (persist_all to_lower w m paths) as [dn [[srcs n]|e]]; [|destruct IH as (q & Hq & ->); exists q; split; [by right|done]].
    destruct IH as (-> & -> & HF). split; [done|]. split; [done|]. constructor; [by exists ref|done].
  - exists p. split; [by left|done].
Qed.

Lemma limitsCheck_none l n b : limitsCheck l n b = None -> ((0 < MaxFiles l -> n <= MaxFiles l) /\ (0 < MaxTotalSize l -> b <= MaxTotalSize l))%Z.
Proof using Type.
  unfold limitsCheck. destruct ((0 <? MaxFiles l)%Z && _) eqn:E1; [done|]. destruct ((0 <? MaxTotalSize l)%Z && _) eqn:E2; [done|]. intros _.
  apply andb_false_iff in E1, E2. rewrite !Z.ltb_ge in E1, E2. lia.
Qed.

(** What the child gets at a path of the collapsed export. *)
Definition delivers (w : World) (p : Params) (all : list ExportedFile) (q : string) (g : ExportedFile) : Prop :=
  exists f, last_write q all = Some f /\ x_Path g = q /\
  if Enabled (Scan p) then
    exists c, ScanChain (Scan p) = Some c /\ x_SHA256 g = ComputeExportFileHash sha256_hex (x_Content g) /\ x_Size g = size_of (x_Content g) /\
      let sent := mkExportFile q (x_Content f) (mkContext "" "") "" in
      fits (MaxFileSize (Scan p)) sent /\
      scanned_by sha256_hex marshal unmarshal decode (p_TenantID p) (ChildSessionID p) (scanners c) (scans w q).1 sent
        (mkExportFile q (x_Content g) (mkContext "" "") "")
  else g = f.

(** The scan, seen from the pipeline: each path keeps its place and its file
    becomes what the interceptors made of it. *)
Lemma scan_delivers w p m all c c' evs out : merged m all -> Enabled (Scan p) = true -> ScanChain (Scan p) = Some c ->
  RunPreExportMaterialization sha256_hex marshal unmarshal decode (ScanCtx (Scan p)) (p_TenantID p) (ChildSessionID p)
    (MaxFileSize (Scan p)) (scan_input w m <$> order m) c = (c', evs, Ok out) ->
  forall q, q ∈ order m -> delivers w p all q (file_at (foldl apply_scanned (byPath m) out) q).
Proof using Type.
  intros (Hnd & Hlast & Hdom & Hord & _) Hen Hc Hrun.
  pose proof (export_scan_exact sha256_hex marshal unmarshal decode (ScanCtx (Scan p)) (p_TenantID p) (ChildSessionID p) (MaxFileSize (Scan p)) (scan_input w m <$> order m) c) as H.
  rewrite Hrun in H. destruct H as [Hout _]. rewrite Forall2_fmap_l in Hout. intros q Hq.
  assert (Path <$> out = order m) as Hpaths.
  { clear -Hout. induction Hout as [|q sf qs out Hq _ IH]; [done|]. cbn in Hq |- *. destruct (scans w q) as [k d]. destruct Hq as (_ & _ & (_ & Hp & _) & _). cbn in Hp. by rewrite Hp, IH. }
  apply list_elem_of_lookup_1 in Hq as [i Hi]. destruct (Forall2_lookup_l _ _ _ _ _ Hout Hi) as (sf & Hsf & Hok).
  unfold compose, scan_input in Hok. cbn beta in Hok. destruct (scans w q) as [k d] eqn:Ek. cbn beta iota in Hok. destruct Hok as (_ & Hfit & Hby & _).
  assert (Path sf = q) as Epath by apply Hby. assert (q ∈ order m) as Hq by (by eapply list_elem_of_lookup_2).
  pose proof (proj1 (Hdom q) Hq) as [f Hf]. assert (last_write q all = Some f) as Hl by (by rewrite <- Hlast).
  assert (file_at (foldl apply_scanned (byPath m) out) q = mkExported q (FContent sf) (ComputeExportFileHash sha256_hex (FContent sf)) (size_of (FContent sf))) as ->.
  { unfold file_at. rewrite <- Epath, apply_own; [|by rewrite Hpaths|by eapply list_elem_of_lookup_2]. cbn [default id]. unfold rescanned. rewrite Epath, Hf. cbn.
    by rewrite (proj2 (last_write_path _ _ _ Hl)). }
  exists f. split; [done|]. split; [done|]. rewrite Hen. exists c. split; [done|]. split; [done|]. split; [done|].
  unfold content_at in *. rewrite Hf in Hfit, Hby. cbn in Hfit, Hby. split; [done|]. rewrite Ek. cbn [fst x_Content].
  destruct Hby as (H1 & H2 & H3 & H4). split; [exact H1|]. by split_and!.
Qed.

(** The report on the file at a path. *)
Definition reports (w : World) (p : Params) (all : list ExportedFile) (q : string) (ev : ExportScanEvent) : Prop :=
  se_FilePath ev = q /\
  forall c f, ScanChain (Scan p) = Some c -> last_write q all = Some f ->
  uninspected sha256_hex marshal (p_TenantID p) (ChildSessionID p) (scanners c) (scans w q).1 (mkExportFile q (x_Content f) (mkContext "" "") "") ->
  Outcome ev = OutcomeFailedOpen.

Lemma scan_reports w p m all c c' evs out : merged m all -> ScanChain (Scan p) = Some c -> Observer (ScanCtx (Scan p)) = true ->
  RunPreExportMaterialization sha256_hex marshal unmarshal decode (ScanCtx (Scan p)) (p_TenantID p) (ChildSessionID p)
    (MaxFileSize (Scan p)) (scan_input w m <$> order m) c = (c', evs, Ok out) ->
  Forall2 (reports w p all) (order m) evs.
Proof using Type.
  intros (_ & Hlast & _) Hc Hobs Hrun.
  pose proof (export_scan_exact sha256_hex marshal unmarshal decode (ScanCtx (Scan p)) (p_TenantID p) (ChildSessionID p) (MaxFileSize (Scan p)) (scan_input w m <$> order m) c) as H.
  rewrite Hrun in H. destruct H as [_ Hev]. specialize (Hev Hobs). rewrite Forall2_fmap_l in Hev. eapply Forall2_impl; [exact Hev|].
  intros q ev Hq. unfold reports. cbn in Hq. destruct (scans w q) as [k d]. destruct Hq as (Hp & _ & Ho). cbn in Hp. split; [done|].
  intros c1 f Hc1 Hf Hun. rewrite Hc in Hc1. injection Hc1 as <-. apply Ho. unfold content_at. by rewrite Hlast, Hf.
Qed.

(** What is left of the files the pod returned: one file for each path, in the
    order of first appearance, within the limits, each delivered and reported, and
    every collision counted. *)
Definition exported (w : World) (p : Params) (eff : Effects) (res : ExportResult) : Prop :=
  exists outs paths, let all := cleaned <$> concat outs in
  mapM (exports w) (Specs p) = Some outs /\ Forall (fun s => ValidateDestPrefix (DestPrefix s) = None) (Specs p) /\
  NoDup paths /\ (forall q, q ∈ paths <-> exists f, f ∈ all /\ x_Path f = q) /\
  (0 < MaxFiles (Limits p) -> FileCount res <= MaxFiles (Limits p))%Z /\
  (0 < MaxTotalSize (Limits p) -> foldr (fun q n => size_of (last_write q all ≫= x_Content) + n) 0 paths <= MaxTotalSize (Limits p))%Z /\
  Forall2 (delivers w p all) paths (persisted eff) /\
  Forall2 (fun g s => exists ref, persist w g = Some ref /\ s = childSource to_lower (x_Path g) ref) (persisted eff) (Sources res) /\
  FileCount res = Z.of_nat (length (persisted eff)) /\ TotalBytes res = foldr (fun g n => size_of (x_Content g) + n)%Z 0%Z (persisted eff) /\
  length (Overwrites res) + length paths = length all /\ (auditor w = true -> audited eff = Overwrites res) /\
  (Enabled (Scan p) = true -> Observer (ScanCtx (Scan p)) = true -> Forall2 (reports w p all) paths (reported eff)).

Lemma delivers_path w p all q g : delivers w p all q g -> x_Path g = q.
Proof using Type. by intros (f & _ & ? & _). Qed.

(** The last stage, once the files to write are known. *)
Lemma persist_exports w p m outs evs chain files : let all := cleaned <$> concat outs in
  mapM (exports w) (Specs p) = Some outs -> Forall (fun s => ValidateDestPrefix (DestPrefix s) = None) (Specs p) -> merged m all ->
  limitsCheck (Limits p) (Z.of_nat (length (order m))) (total_bytes (byPath m) (order m)) = None ->
  (forall q, q ∈ order m -> delivers w p all q (file_at files q)) ->
  (Enabled (Scan p) = true -> Observer (ScanCtx (Scan p)) = true -> Forall2 (reports w p all) (order m) evs) ->
  let '(dn, r) := persist_all to_lower w files (order m) in
  match r with
  | Ok (srcs, n) => exported w p (mkEffects (if auditor w then overwrites m else []) evs chain dn) (mkExportResult srcs (Z.of_nat (length (order m))) n (overwrites m))
  | Err e => exists q, e = ErrPersist q
  end.
Proof using Type.
  intros all Houts Hv (Hnd & Hlast & _ & Hord & Hlen) [Hcount Hbytes]%limitsCheck_none Hdel Hrep. pose proof (persist_all_exact w files (order m)) as Hp.
  destruct (persist_all to_lower w files (order m)) as [dn [[srcs n]|e]]; [|destruct Hp as (q & _ & ->); by exists q]. destruct Hp as (-> & -> & HF).
  assert (total_bytes (byPath m) (order m) = foldr (fun q n => size_of (last_write q all ≫= x_Content) + n)%Z 0%Z (order m)) as Htotal.
  { unfold total_bytes, content_at. apply foldr_ext; [|done|done]. intros q n. by rewrite Hlast. }
  rewrite Htotal in Hbytes. exists outs, (order m). do 6 (split; [done|]). cbn [persisted Sources FileCount TotalBytes Overwrites audited reported].
  split; [rewrite Forall2_fmap_r; apply Forall2_same_length_lookup_2; [done|]; intros i q q' Hq Hq'; simplify_eq; apply Hdel; by eapply list_elem_of_lookup_2|].
  split.
  { rewrite Forall2_fmap_l. apply Forall2_same_length_lookup. split; [by eapply Forall2_length|]. intros i q s Hq Hs.
    destruct (Forall2_lookup_lr _ _ _ _ _ _ HF Hq Hs) as (ref & Href & ->). exists ref. split; [done|].
    unfold compose. by rewrite (delivers_path w p all q) by (apply Hdel; by eapply list_elem_of_lookup_2). }
  split; [by rewrite length_fmap|]. do 2 (split; [done|]). split; [by intros ->|done].
Qed.

(** C20. An export that succeeds gives the child exactly one source for each path the
    pod returned, in the order of their first appearance: the content placed there
    last, and with scanning on what the interceptors of the chain, which all let
    it pass, made of it, under the hash of the delivered bytes.  The number of
    files and their size before the scan respect the limits, every collision is
    audited, and a scan that an interceptor did not answer is reported as failed
    open.  An export that fails before the blob store refuses a file has written
    none. *)
Theorem materialize_exact w p : let '(eff, r) := Materialize sha256_hex marshal unmarshal decode to_lower w p in
  match r with Ok res => exported w p eff res | Err e => persisted eff = [] \/ exists q, e = ErrPersist q end.
Proof using Type.
  unfold Materialize. destruct (configured w); [|by left]. cbn [negb]. destruct (Enabled (Scan p) && _) eqn:Echain; [by left|].
  destruct (merge_specs (exports w) 0 (Specs p) (mkMerge [] ∅ [])) as [m [err|]] eqn:Em; [by left|].
  destruct (limitsCheck _ _ _) eqn:El; [by left|].
  destruct (merge_specs_merged _ _ _ _ [] _ merged_nil Em) as (outs & Houts & Hv & Hm). cbn [app] in Hm.
  destruct (Enabled (Scan p)) eqn:Een; cbn [andb] in Echain.
  - destruct (ScanChain (Scan p)) as [c|] eqn:Ec; [|by rewrite bool_decide_true in Echain].
    destruct (RunPreExportMaterialization _ _ _ _ _ _ _ _ _ _) as [[c' evs] [out|err]] eqn:Er; [|by left].
    pose proof (persist_exports w p m outs evs (Some c') (foldl apply_scanned (byPath m) out) Houts Hv Hm El (scan_delivers w p m _ c c' evs out Hm Een Ec Er)
      (fun _ Ho => scan_reports w p m _ c c' evs out Hm Ec Ho Er)) as Hfin.
    destruct (persist_all _ _ _ _) as [dn [[srcs n]|e]]; [done|by right].
  - pose proof (persist_exports w p m outs [] (ScanChain (Scan p)) (byPath m) Houts Hv Hm El) as Hfin. rewrite Een in Hfin. specialize (fun H => Hfin H ltac:(done)).
    assert (forall q, q ∈ order m -> delivers w p (cleaned <$> concat outs) q (file_at (byPath m) q)) as Hdel.
    { intros q Hq. destruct Hm as (_ & Hlast & Hdom & _). destruct (proj1 (Hdom q) Hq) as [f Hf]. exists f. rewrite <- Hlast. split; [done|]. unfold file_at. rewrite Hf.
      cbn. rewrite Een. split; [|done]. rewrite Hlast in Hf. by destruct (last_write_path _ _ _ Hf). }
    specialize (Hfin Hdel). destruct (persist_all _ _ _ _) as [dn [[srcs n]|e]]; [done|by right].
Qed.
End delivered.

(** ** Concrete exports *)

Module ExportDemo.

Definition spec (src prefix : string) : Spec := mkSpec src prefix.
Definition file (p c : string) : ExportedFile := mkExported p (Some c) "not a digest" 0.

(** Two entries place a file at one path. *)
Definition pod (s : Spec) : option (list ExportedFile) :=
  if String.eqb (Source s) "*.txt" then Some [file "./in/a.txt" "old"; file "in\b.zip" "zip"] else Some [file "in//x/../a.txt" "new"].

Definition scanner : Interceptor := mkInterceptor "scanner" 500 false FailOpen 0.
Definition chain : Chain :=
  match Register PhasePreDelegation scanner (SetFailOpenEscalation 1 100 false NewChain) with Ok c => c | Err _ => NewChain end.

(** A record of a file is rendered as its path and content. *)
Definition marshal (r : exportFileRecord) : string := FilePath r +:+ "|" +:+ default "" (ContentBytes r).
Definition unmarshal (b : Bytes) : option exportFileRecord :=
  match b ≫= fun s => Some (split "|" s) with
  | Some [p; c] => Some (mkRecord p 0 "" (Some c) (mkContext "" ""))
  | _ => None
  end.

(** The scanner appends to each file, or does not answer. *)
Definition padding (r : Request) : result CallError Result_ :=
  Ok (mkResult ActionModify NoReason "" ((fun s => s +:+ " and more") <$> Content r) "" 0 [] []).
Definition padded (_ : string) : Calls * Duration := (mkCalls (fun _ r => padding r) (fun _ => 0%Z), 0%Z).
Definition silent (_ : string) : Calls * Duration := (mkCalls (fun _ _ => Err DeadlineExceeded) (fun _ => 0%Z), 0%Z).

Definition world (answers : string -> Calls * Duration) : World := mkWorld true true pod answers (fun f => Some ("ref:" +:+ x_Path f)).
Definition params (limit : Z) (scan : ContentScan) : Params := mkParams "parent" "child" "acme" [spec "*.txt" "in/"; spec "x" ""] (mkLimits 10 limit) scan.
Definition off : ContentScan := mkScan false 0 None (mkScanContext "" "" "" false).
Definition on (max : Z) : ContentScan := mkScan true max (ExportScanChainFor "scanner" chain) (mkScanContext "pool" "policy" "scanner" true).

Definition ran (answers : string -> Calls * Duration) (p : Params) := Materialize (fun s => s) marshal unmarshal (fun _ => None) (fun s => s) (world answers) p.

Lemma collision_keeps_last : let '(eff, r) := ran silent (params 100 off) in
  (fun f => (x_Path f, x_Content f)) <$> persisted eff = [("in/a.txt", Some "new"); ("in/b.zip", Some "zip")] /\
  audited eff = [mkOverwrite "in/a.txt" 1 "x"] /\
  match r with Ok res => Sources res = [UploadFile "in/a.txt" "ref:in/a.txt"; UploadArchive "in" "ref:in/b.zip" "zip"] | Err _ => False end.
Proof. vm_compute. repeat split. Qed.

(** The limits are checked before the scan: what the scanner adds passes both the
    limit on the export and the limit on a file. *)
Lemma rewritten_export_uncapped : let '(eff, r) := ran padded (params 6 (on 3)) in
  match r with Ok res => TotalBytes res = 24%Z /\ (size_of ∘ x_Content) <$> persisted eff = [12%Z; 12%Z] | Err _ => False end.
Proof. vm_compute. repeat split. Qed.

(** The digests the pod states are not compared with the files. *)
Lemma stated_digest_ignored : let '(eff, r) := ran silent (params 100 off) in is_ok r = true /\ x_SHA256 <$> persisted eff = ["not a digest"; "not a digest"].
Proof. vm_compute. repeat split. Qed.

(** An interceptor that is escalated in the chain of the gateway fails open again
    in the chain made for an export. *)
Definition escalated_chain : Chain :=
  (recordFailOpenError scanner (mkRequest PhasePreDelegation "s" "acme" None ∅) 1
     (recordFailOpenError scanner (mkRequest PhasePreDelegation "s" "acme" None ∅) 0 chain).1).1.

Lemma escalation_restarts : escalated (state_of escalated_chain "scanner") = true /\
  match ExportScanChainFor "scanner" escalated_chain with
  | Some sub => (recordFailOpenError scanner (mkRequest PhasePreExportMaterialization "s" "acme" None ∅) 2 sub).2 = false
  | None => False
  end.
Proof. vm_compute. repeat split. Qed.

End ExportDemo.
