(* ===== verification/LeaseExtension.v ===== *)
(** * Extension of a tree's budget ([pkg/leaseextension],
      [mcpfabric/delegationtree/leasecontrol])

    The grant arithmetic ([leaseextension.go]), the seven dimensions that can be
    extended and the dispatch of one request ([leasecontrol.go]), the session rows
    and ceilings it reads ([storebudget.go]), the denials and cumulative grants of
    the trees ([memdenial.go]) and the limit on automatic approvals
    ([ratelimit.go]).  A request reads the state of its tree, waits for consent,
    and commits later: the two halves are separate, and what other requests do in
    between is any sequence of them.  The user's decision is an argument here;
    [Consent] has the coordinator that collects it. *)

From S2P Require Import Prelude StateMachine SessionState.

#[local] Set Warnings "-register-all".

(** ** The arithmetic of one dimension ([leaseextension.go]) *)

Inductive Outcome := Granted | PartiallyGranted | CeilingReached.
#[export] Instance Outcome_eq_dec : EqDecision Outcome.
Proof. solve_decision. Defined.

Definition Grant (current requested ceiling : Z) : Z * Outcome :=
  if (requested <=? 0)%Z then (0%Z, Granted)
  else
    let headroom := wrap64 (ceiling - current) in
    if (headroom <=? 0)%Z then (0%Z, CeilingReached)
    else if (requested <=? headroom)%Z then (requested, Granted)
    else (headroom, PartiallyGranted).

Definition ResolveEffectiveMax (deploymentDefault deploymentMax tenantBase tenantMax runtimeBase : Z) : Z :=
  let v := deploymentDefault in
  let v := if (0 <? tenantBase)%Z then tenantBase else v in
  let v := if (0 <? runtimeBase)%Z then runtimeBase else v in
  let v := if (0 <? tenantMax)%Z && (tenantMax <? v)%Z then tenantMax else v in
  if (0 <? deploymentMax)%Z && (deploymentMax <? v)%Z then deploymentMax else v.

(** ** Dimensions ([leasecontrol.go]) *)

Record Dimensions := mkDims {
  Tokens : Z; Seconds : Z; Children : Z; ParallelChildren : Z; TreeSize : Z; FileExportFiles : Z; FileExportBytes : Z }.

Inductive Dim := dTokens | dSeconds | dChildren | dParallelChildren | dTreeSize | dFileExportFiles | dFileExportBytes.

Definition allDims : list Dim := [dTokens; dSeconds; dChildren; dParallelChildren; dTreeSize; dFileExportFiles; dFileExportBytes].

(** A [dimLens]: reading a dimension, and a value built dimension by dimension. *)
Definition get (d : Dim) (x : Dimensions) : Z :=
  match d with
  | dTokens => Tokens x | dSeconds => Seconds x | dChildren => Children x | dParallelChildren => ParallelChildren x
  | dTreeSize => TreeSize x | dFileExportFiles => FileExportFiles x | dFileExportBytes => FileExportBytes x
  end.

Definition dims (f : Dim -> Z) : Dimensions :=
  mkDims (f dTokens) (f dSeconds) (f dChildren) (f dParallelChildren) (f dTreeSize) (f dFileExportFiles) (f dFileExportBytes).

Definition no_dims : Dimensions := dims (fun _ => 0%Z).

Definition anyPositive (x : Dimensions) : bool := existsb (fun d => (0 <? get d x)%Z) allDims.

Definition add (x y : Dimensions) : Dimensions := dims (fun d => wrap64 (get d x + get d y)).

(** ** Denials and grants of the trees ([memdenial.go]) *)

Definition ClampGrant (cumulative requested limit : Dimensions) : Dimensions :=
  dims (fun d =>
    let req := get d requested in
    let head := wrap64 (get d limit - get d cumulative) in
    if (req <=? 0)%Z || (head <=? 0)%Z then 0%Z else if (req <? head)%Z then req else head).

(** A tree is named by its tenant and its root session. *)
Abbreviation Tree := (string * string)%type.

Record memDenialRow := mkRow { denied : bool; expiry : Time; grants : Dimensions }.
Abbreviation MemoryDenialStore := (gmap Tree memDenialRow).

Definition row_of (m : MemoryDenialStore) (k : Tree) : memDenialRow := default (mkRow false zero_time no_dims) (m !! k).

Definition deniedLocked (now : Time) (r : memDenialRow) : bool := denied r && negb (time_is_zero (expiry r)) && time_before now (expiry r).

Definition Deny (k : Tree) (coolOff : Duration) (now : Time) (m : MemoryDenialStore) : MemoryDenialStore :=
  <[k := mkRow true (time_add now (if (coolOff <? 0)%Z then 0%Z else coolOff)) (grants (row_of m k))]> m.

Definition Denied (k : Tree) (now : Time) (m : MemoryDenialStore) : bool * Time :=
  match m !! k with None => (false, zero_time) | Some r => (deniedLocked now r, expiry r) end.

Inductive BudgetError := ErrSessionNotFound | ErrSessionTerminal | ErrExtensionDenied | ErrRead.

Record GrantResult := mkGrantResult { Applied : Dimensions; Total : Dimensions }.

Definition GrantTree (k : Tree) (requested limit : Dimensions) (now : Time) (m : MemoryDenialStore) : MemoryDenialStore * result BudgetError GrantResult :=
  let r := row_of m k in
  if deniedLocked now r then (<[k := r]> m, Err ErrExtensionDenied)
  else
    let applied := ClampGrant (grants r) requested limit in
    let total := add (grants r) applied in
    (<[k := mkRow (denied r) (expiry r) total]> m, Ok (mkGrantResult applied total)).

Definition Grants (k : Tree) (m : MemoryDenialStore) : Dimensions := match m !! k with Some r => grants r | None => no_dims end.

Definition Clear (k : Tree) (m : MemoryDenialStore) : MemoryDenialStore :=
  match m !! k with Some r => <[k := mkRow false zero_time (grants r)]> m | None => m end.

(** ** The rows and ceilings of a request ([storebudget.go]) *)

Inductive ApprovalMode := ApprovalModeUnspecified | ApprovalModeAuto | ApprovalModeElicitation.
#[export] Instance ApprovalMode_eq_dec : EqDecision ApprovalMode.
Proof. solve_decision. Defined.

Definition DefaultApprovalMode : ApprovalMode := ApprovalModeElicitation.

Definition ResolveApprovalMode (deployment tenant runtime : ApprovalMode) : ApprovalMode :=
  let v := if bool_decide (tenant <> ApprovalModeUnspecified) then tenant else deployment in
  let v := if bool_decide (runtime <> ApprovalModeUnspecified) then runtime else v in
  if bool_decide (v = ApprovalModeUnspecified) then DefaultApprovalMode else v.

Definition DefaultRejectionCoolOff : Duration := (300 * Second)%Z.
Definition DefaultSuccessCoolOff : Duration := (5 * Second)%Z.

Definition ResolveSuccessCoolOff (deployment tenant runtime : Duration) : Duration :=
  let v := if (0 <? tenant)%Z then tenant else deployment in
  let v := if (0 <? runtime)%Z then runtime else v in
  if (v <=? 0)%Z then DefaultSuccessCoolOff else v.

Record ExtensionConfig := mkConfig {
  DeploymentBudget : Z; DeploymentMaxBudget : Z; DimensionCeilings : Dimensions; cfg_ApprovalMode : ApprovalMode;
  cfg_SuccessCoolOff : Duration; cfg_RejectionCoolOff : Duration; AutoMaxPerMinute : Z }.

Definition effectiveMax (c : ExtensionConfig) : Dimensions :=
  dims (fun d => match d with
                 | dTokens => ResolveEffectiveMax (DeploymentBudget c) (DeploymentMaxBudget c) 0 0 0
                 | d => get d (DimensionCeilings c)
                 end).

(** The lease of a session and what is read of its row. *)
Record DelegationLease := mkLease { MaxTokenBudget : Z; PerChildMaxAge : Z; MaxChildrenTotal : Z; MaxParallelChildren : Z; MaxTreeSize : Z }.

Record SessionRow := mkSessionRow {
  rowID : string; rowState : State; rowRoot : string; rowParent : string; rowDepth : Z; rowLease : option DelegationLease }.

Inductive ReadError := ReadNotFound | ReadFailed.
Abbreviation SessionReader := (string -> string -> result ReadError SessionRow).

Definition leaseLimits (l : option DelegationLease) : Dimensions :=
  match l with
  | None => no_dims
  | Some l => mkDims (MaxTokenBudget l) (PerChildMaxAge l) (MaxChildrenTotal l) (MaxParallelChildren l) (MaxTreeSize l) 0 0
  end.

Record treeView := mkView { v_root : string; v_base : Dimensions; v_effectiveMax : Dimensions; v_parentCeiling : Dimensions }.

Definition clampLimit (v : treeView) : Dimensions :=
  dims (fun d => let l := wrap64 (get d (v_effectiveMax v) - get d (v_base v)) in if (l <? 0)%Z then 0%Z else l).

Definition read (rows : SessionReader) (tenantID id : string) : result BudgetError SessionRow :=
  match rows tenantID id with Ok r => Ok r | Err ReadNotFound => Err ErrSessionNotFound | Err ReadFailed => Err ErrRead end.

Definition resolve (c : ExtensionConfig) (rows : SessionReader) (tenantID sessionID : string) : result BudgetError treeView :=
  let* row := read rows tenantID sessionID in
  if IsTerminal (rowState row) then Err ErrSessionTerminal
  else
    let* rootRow := (if negb (is_empty (rowRoot row)) && negb (String.eqb (rowRoot row) (rowID row)) then read rows tenantID (rowRoot row) else Ok row) in
    let v := mkView (rowID rootRow) (leaseLimits (rowLease rootRow)) (effectiveMax c) in
    if (0 <? rowDepth row)%Z then
      if is_empty (rowParent row) then Err ErrSessionNotFound
      else let* parent := read rows tenantID (rowParent row) in Ok (v (leaseLimits (rowLease parent)))
    else Ok (v no_dims).

Record TreeBudget := mkBudget {
  RootSessionID : string; Current : Dimensions; EffectiveMax : Dimensions; ParentCeiling : Dimensions; ExtensionDenied : bool; CoolOffExpiry : Time }.

Definition treeBudget (c : ExtensionConfig) (rows : SessionReader) (tenantID sessionID : string) (now : Time) (m : MemoryDenialStore) :
  result BudgetError TreeBudget :=
  let* v := resolve c rows tenantID sessionID in
  let '(dn, ex) := Denied (tenantID, v_root v) now m in
  Ok (mkBudget (v_root v) (add (v_base v) (Grants (tenantID, v_root v) m)) (v_effectiveMax v) (v_parentCeiling v) dn ex).

Record AppliedGrant := mkApplied { a_Granted : Dimensions; NewLimits : Dimensions }.

Definition ApplyGrant (c : ExtensionConfig) (rows : SessionReader) (tenantID rootSessionID requestingSessionID : string) (granted : Dimensions) (now : Time)
  (m : MemoryDenialStore) : MemoryDenialStore * result BudgetError AppliedGrant :=
  match resolve c rows tenantID requestingSessionID with
  | Err e => (m, Err e)
  | Ok v =>
      if negb (String.eqb (v_root v) rootSessionID) then (m, Err ErrSessionNotFound)
      else let '(m, r) := GrantTree (tenantID, v_root v) granted (clampLimit v) now m in
           (m, match r with Ok g => Ok (mkApplied (Applied g) (add (v_base v) (Total g))) | Err e => Err e end)
  end.

Definition rejectionCoolOff (c : ExtensionConfig) : Duration := if (0 <? cfg_RejectionCoolOff c)%Z then cfg_RejectionCoolOff c else DefaultRejectionCoolOff.

Definition DenyTree (c : ExtensionConfig) (k : Tree) (now : Time) (m : MemoryDenialStore) : MemoryDenialStore := Deny k (rejectionCoolOff c) now m.

Definition approvalMode (c : ExtensionConfig) : ApprovalMode :=
  if bool_decide (cfg_ApprovalMode c = ApprovalModeUnspecified) then DefaultApprovalMode else cfg_ApprovalMode c.

(** ** Automatic approvals ([ratelimit.go], [policy/ratelimit]) *)

(** Seconds between the zero time and the Unix epoch. *)
Definition epoch_seconds : Z := 62135596800.
Definition unix (t : Time) : Z := (t / Second - epoch_seconds)%Z.

(** The counter of the current minute. *)
Record Memory := mkMemory { minute : Z; counts : gmap string Z }.
Definition NewMemory : Memory := mkMemory 0 ∅.

Definition Incr (key : string) (now : Time) (m : Memory) : Memory * Z :=
  let mi := Z.quot (unix now) 60 in
  let cs := if (mi =? minute m)%Z then counts m else ∅ in
  let n := wrap64 (default 0%Z (cs !! key) + 1) in
  (mkMemory mi (<[key := n]> cs), n).

Definition over (tenantID rootSessionID : string) (maxPerMin : Z) (now : Time) (m : Memory) : Memory * bool :=
  if (maxPerMin <=? 0)%Z then (m, false)
  else let '(m, n) := Incr ("lease_ext_auto:" +:+ tenantID +:+ ":" +:+ rootSessionID) now m in (m, (maxPerMin <? n)%Z).

(** ** One request ([leasecontrol.go], [dispatch_types.go]) *)

Inductive ExtendStatus := StatusUnspecified | StatusGranted | StatusPartiallyGranted | StatusCeilingReached | StatusRejected.

Record ExtendRequest := mkExtendRequest { x_TenantID : string; x_SessionID : string; Requested : Dimensions }.

(** The expiry of a rejection stands for its two renderings, the typed error for
    the flag of the cool-off. *)
Record ExtendResponse := mkResponse { Status : ExtendStatus; r_Granted : Dimensions; SubtreeID : string; RejectedUntil : Time; CoolOffActive : bool }.

Definition rejectedResponse (subtreeID : string) (until : Time) : ExtendResponse := mkResponse StatusRejected no_dims subtreeID until true.

Definition dimCeiling (effMax parentCap : Z) : Z := if (0 <? parentCap)%Z && (parentCap <? effMax)%Z then parentCap else effMax.

Definition computed_grant (b : TreeBudget) (requested : Dimensions) : Dimensions :=
  dims (fun d => (Grant (get d (Current b)) (get d requested) (dimCeiling (get d (EffectiveMax b)) (get d (ParentCeiling b)))).1).

Record dimOutcome := mkDimOutcome { d_requested : Z; d_granted : Z; d_outcome : Outcome }.

Definition appliedOutcomes (requested applied : Dimensions) : list dimOutcome :=
  (fun d => let req := get d requested in let got := get d applied in
            mkDimOutcome req got (if (req <=? 0)%Z || (req <=? got)%Z then Granted else if (0 <? got)%Z then PartiallyGranted else CeilingReached))
  <$> allDims.

Definition combineOutcomes (ds : list dimOutcome) : Outcome :=
  let asked := filter (fun d => (0 < d_requested d)%Z) ds in
  if bool_decide (asked = []) || forallb (fun d => bool_decide (d_outcome d = Granted)) asked then Granted
  else if negb (existsb (fun d => (0 <? d_granted d)%Z) asked) then CeilingReached
  else PartiallyGranted.

Definition statusFor (o : Outcome) : ExtendStatus :=
  match o with Granted => StatusGranted | PartiallyGranted => StatusPartiallyGranted | CeilingReached => StatusCeilingReached end.

Definition AuditOutcomeApproved : string := "approved".
Definition AuditOutcomeCapped : string := "capped".
Definition AuditOutcomeDenied : string := "denied".

Definition auditOutcomeFor (o : Outcome) : string :=
  match o with Granted => AuditOutcomeApproved | PartiallyGranted | CeilingReached => AuditOutcomeCapped end.

Definition approverFor (outcome : string) (mode : ApprovalMode) : string := if String.eqb outcome AuditOutcomeDenied then "client" else "gateway-auto".

(** An audit record, without the batch, replica and address it is stamped with. *)
Record ExtensionAudit := mkAudit {
  au_TenantID : string; au_Root : string; au_Session : string; au_Requested : Dimensions; au_Granted : Dimensions; au_EffectiveMax : Z;
  au_Outcome : string; au_Mode : ApprovalMode; Approver : string; au_NewLimits : Dimensions }.

Inductive Event := CountedExtension (tenantID outcome : string) | RecordedExtension (a : ExtensionAudit)
  | RecordedRateLimit (tenantID root session : string) (maxPerMin : Z).

Record Service := mkService { auditing : bool; metrics : bool; coordinator : bool; defaultAutoMaxPerMinute : Z; config : ExtensionConfig }.

Definition auditFull (s : Service) (tenantID : string) (b : TreeBudget) (sessionID : string) (requested granted : Dimensions) (outcome : string)
  (mode : ApprovalMode) (newLimits : Dimensions) (approverOverride : string) : list Event :=
  (if metrics s then [CountedExtension tenantID outcome] else []) ++
  (if auditing s then
     let mode := if bool_decide (mode = ApprovalModeUnspecified) then DefaultApprovalMode else mode in
     let approver := if is_empty approverOverride then approverFor outcome mode else approverOverride in
     [RecordedExtension (mkAudit tenantID (RootSessionID b) sessionID requested granted (Tokens (EffectiveMax b)) outcome mode approver newLimits)]
   else []).

Definition audit (s : Service) (tenantID : string) (b : TreeBudget) (sessionID : string) (requested : Dimensions) (outcome : string) (mode : ApprovalMode) : list Event :=
  auditFull s tenantID b sessionID requested no_dims outcome mode (Current b) "client".

Definition resolveCoolOff (c : ExtensionConfig) : Duration := if (cfg_RejectionCoolOff c <=? 0)%Z then DefaultRejectionCoolOff else cfg_RejectionCoolOff c.

Definition autoMaxPerMinute (s : Service) : Z := if (0 <? AutoMaxPerMinute (config s))%Z then AutoMaxPerMinute (config s) else defaultAutoMaxPerMinute s.

(** The consent of the coordinator, or why there is none. *)
Record consent := mkConsent { approved : bool; approver : string }.

Inductive ExtendError := ErrNoSession | ErrNoTenant | ErrLoad (e : BudgetError) | ErrNoElicitor | ErrConsent | ErrApply (e : BudgetError).

(** The gate: [ask] is what the coordinator answers, [later] when. *)
Definition gate (s : Service) (mode : ApprovalMode) (tenantID : string) (b : TreeBudget) (sessionID : string) (requested : Dimensions) (now later : Time)
  (ask : option consent) (lim : Memory) : Memory * list Event * result ExtendError (ExtendResponse + string) :=
  let '(lim, limited, proceed) :=
    (if bool_decide (mode = ApprovalModeAuto) then
       let maxPerMin := autoMaxPerMinute s in
       let '(lim, ov) := over tenantID (RootSessionID b) maxPerMin now lim in
       if ov then (lim, if auditing s then [RecordedRateLimit tenantID (RootSessionID b) sessionID maxPerMin] else [], false) else (lim, [], true)
     else (lim, [], false)) in
  if proceed then (lim, limited, Ok (inr "gateway-auto"))
  else if negb (coordinator s) then (lim, limited, Err ErrNoElicitor)
  else match ask with
       | None => (lim, limited, Err ErrConsent)
       | Some c =>
           if approved c then (lim, limited, Ok (inr (approver c)))
           else (lim, limited ++ audit s tenantID b sessionID requested AuditOutcomeDenied mode,
                 Ok (inl (rejectedResponse sessionID (time_add later (resolveCoolOff (config s))))))
       end.

(** The first half of a request ends in an answer, or in a grant to commit. *)
Record Pending := mkPending { p_budget : TreeBudget; p_mode : ApprovalMode; p_approver : string; p_granted : Dimensions }.

Definition extend_begin (s : Service) (rows : SessionReader) (req : ExtendRequest) (now later : Time) (ask : option consent) (lim : Memory) (m : MemoryDenialStore) :
  Memory * list Event * result ExtendError (ExtendResponse + Pending) :=
  if is_empty (x_SessionID req) then (lim, [], Err ErrNoSession)
  else if is_empty (x_TenantID req) then (lim, [], Err ErrNoTenant)
  else match treeBudget (config s) rows (x_TenantID req) (x_SessionID req) now m with
       | Err e => (lim, [], Err (ErrLoad e))
       | Ok b =>
           let mode := approvalMode (config s) in
           if ExtensionDenied b && (time_is_zero (CoolOffExpiry b) || time_before now (CoolOffExpiry b))
           then (lim, audit s (x_TenantID req) b (x_SessionID req) (Requested req) AuditOutcomeDenied mode,
                 Ok (inl (rejectedResponse (x_SessionID req) (CoolOffExpiry b))))
           else
             let '(lim, evs, r) := gate s mode (x_TenantID req) b (x_SessionID req) (Requested req) now later ask lim in
             (lim, evs, match r with
                        | Err e => Err e
                        | Ok (inl resp) => Ok (inl resp)
                        | Ok (inr approver) => Ok (inr (mkPending b mode approver (computed_grant b (Requested req))))
                        end)
       end.

(** The second half, at a later instant and over the rows and the store of then. *)
Definition extend_commit (s : Service) (rows : SessionReader) (req : ExtendRequest) (p : Pending) (now : Time) (m : MemoryDenialStore) :
  MemoryDenialStore * list Event * result ExtendError ExtendResponse :=
  let b := p_budget p in
  let finish granted newLimits :=
    let combined := combineOutcomes (appliedOutcomes (Requested req) granted) in
    (auditFull s (x_TenantID req) b (x_SessionID req) (Requested req) granted (auditOutcomeFor combined) (p_mode p) newLimits (p_approver p),
     Ok (mkResponse (statusFor combined) granted "" zero_time false)) in
  if anyPositive (p_granted p) then
    let '(m, r) := ApplyGrant (config s) rows (x_TenantID req) (RootSessionID b) (x_SessionID req) (p_granted p) now m in
    match r with
    | Ok a => let '(evs, resp) := finish (a_Granted a) (NewLimits a) in (m, evs, resp)
    | Err ErrExtensionDenied =>
        (m, audit s (x_TenantID req) b (x_SessionID req) (Requested req) AuditOutcomeDenied (p_mode p),
         Ok (rejectedResponse (x_SessionID req) (time_add now (resolveCoolOff (config s)))))
    | Err e => (m, [], Err (ErrApply e))
    end
  else let '(evs, resp) := finish (p_granted p) (Current b) in (m, evs, resp).

(** A whole request; [between] is what happens to the store while it waits. *)
Definition ExtendLease (s : Service) (rows rows' : SessionReader) (req : ExtendRequest) (now later now' : Time) (ask : option consent)
  (between : MemoryDenialStore -> MemoryDenialStore) (lim : Memory) (m : MemoryDenialStore) :
  Memory * MemoryDenialStore * list Event * result ExtendError ExtendResponse :=
  let '(lim, evs, r) := extend_begin s rows req now later ask lim m in
  match r with
  | Err e => (lim, between m, evs, Err e)
  | Ok (inl resp) => (lim, between m, evs, Ok resp)
  | Ok (inr p) => let '(m, evs', r) := extend_commit s rows' req p now' (between m) in (lim, m, evs ++ evs', r)
  end.

(** ** Dimension by dimension *)

Lemma get_dims d f : get d (dims f) = f d.
Proof. by destruct d. Qed.

Lemma allDims_all d : d ∈ allDims.
Proof. destruct d; unfold allDims; set_solver. Qed.

Lemma dims_ext x y : (forall d, get d x = get d y) -> x = y.
Proof.
  intros H. destruct x, y. f_equal; [exact (H dTokens)|exact (H dSeconds)|exact (H dChildren)|exact (H dParallelChildren)|exact (H dTreeSize)|exact (H dFileExportFiles)|exact (H dFileExportBytes)].
Qed.

Lemma anyPositive_false x d : anyPositive x = false -> (get d x <= 0)%Z.
Proof.
  unfold anyPositive. intros H. destruct (Z.ltb_spec 0 (get d x)) as [Hlt|]; [|done].
  assert (existsb (fun d => (0 <? get d x)%Z) allDims = true); [|congruence].
  apply existsb_exists. exists d. split; [apply list_elem_of_In, allDims_all|by apply Z.ltb_lt].
Qed.

Lemma Grant_bounds cur req ceil : (0 <= (Grant cur req ceil).1 <= Z.max 0 req)%Z.
Proof.
  unfold Grant. destruct (Z.leb_spec req 0); cbn [fst]; [lia|]. destruct (Z.leb_spec (wrap64 (ceil - cur)) 0); cbn [fst]; [lia|].
  destruct (Z.leb_spec req (wrap64 (ceil - cur))); cbn [fst]; lia.
Qed.

(** What the clamp adds keeps the total within the limit. *)
Lemma ClampGrant_bounds cum req lim d : (0 <= get d cum <= get d lim)%Z -> (get d lim <= max_int64)%Z ->
  (0 <= get d (ClampGrant cum req lim) <= Z.max 0 (get d req))%Z /\ (get d cum + get d (ClampGrant cum req lim) <= get d lim)%Z.
Proof.
  intros Hc Hl. unfold ClampGrant. rewrite get_dims. rewrite wrap64_id by (unfold in_int64, min_int64, max_int64 in *; unfold two63 in *; lia).
  destruct (Z.leb_spec (get d req) 0); cbn [orb]; [lia|]. destruct (Z.leb_spec (get d lim - get d cum) 0); [lia|].
  destruct (Z.ltb_spec (get d req) (get d lim - get d cum)); lia.
Qed.

Lemma clampLimit_range v d : (0 <= get d (clampLimit v) <= max_int64)%Z.
Proof.
  unfold clampLimit. rewrite get_dims. pose proof (wrap64_range (get d (v_effectiveMax v) - get d (v_base v))) as [_ H].
  destruct (Z.ltb_spec (wrap64 (get d (v_effectiveMax v) - get d (v_base v))) 0); unfold max_int64, two63 in *; lia.
Qed.
