(* ===== verification/LeaseRuns.v ===== *)
(** * Extensions in any order ([mcpfabric/delegationtree/leasecontrol])

    Any number of requests are under way at once, each between the state it read
    and the grant it commits; users deny and operators clear denials meanwhile. *)

From S2P Require Import Prelude StateMachine SessionState LeaseExtension.

(** ** Runs *)

Section runs.
Context (s : Service) (base : Tree -> Dimensions).

(** The lease of a root session does not change; anything else of the rows may. *)
Definition stable (rows : SessionReader) : Prop :=
  forall tenantID id v, resolve (config s) rows tenantID id = Ok v -> v_base v = base (tenantID, v_root v).

(** What may be added to a tree in all. *)
Definition limit (k : Tree) : Dimensions := clampLimit (mkView k.2 (base k) (effectiveMax (config s)) no_dims).

(** A committed answer: the tree, the request, what was granted, and whether the
    tree was denied at that instant. *)
Record Commit := mkCommit { c_tree : Tree; c_req : ExtendRequest; c_granted : Dimensions; c_denied : bool }.

(** The requests under way are numbered; [lims] is the limiter of a replica. *)
Record World := mkWorld { store : MemoryDenialStore; lims : Memory; under_way : gmap nat (ExtendRequest * Pending); commits : list Commit }.

Definition initial : World := mkWorld ∅ NewMemory ∅ [].

Inductive lstep : World -> World -> Prop :=
  | step_begin i rows req now later ask w lim evs p : stable rows -> under_way w !! i = None ->
      extend_begin s rows req now later ask (lims w) (store w) = (lim, evs, Ok (inr p)) ->
      lstep w (mkWorld (store w) lim (<[i := (req, p)]> (under_way w)) (commits w))
  | step_commit i rows req p now w m evs resp : stable rows -> under_way w !! i = Some (req, p) ->
      extend_commit s rows req p now (store w) = (m, evs, resp) ->
      let k := (x_TenantID req, RootSessionID (p_budget p)) in
      lstep w (mkWorld m (lims w) (delete i (under_way w))
        (match resp with Ok r => commits w ++ [mkCommit k req (r_Granted r) (Denied k now (store w)).1] | Err _ => commits w end))
  | step_deny k now w : lstep w (mkWorld (DenyTree (config s) k now (store w)) (lims w) (under_way w) (commits w))
  | step_clear k w : lstep w (mkWorld (Clear k (store w)) (lims w) (under_way w) (commits w)).

Definition reachable : World -> Prop := rtc lstep initial.

(** ** The ceiling *)

(** What the answers have given a tree. *)
Definition given (k : Tree) (d : Dim) (cs : list Commit) : Z :=
  foldr (fun c n => ((if decide (c_tree c = k) then get d (c_granted c) else 0) + n)%Z) 0%Z cs.

Lemma given_app k d cs c : given k d (cs ++ [c]) = (given k d cs + (if decide (c_tree c = k) then get d (c_granted c) else 0))%Z.
Proof using Type. unfold given. induction cs as [|c' cs IH]; cbn; [lia|]. rewrite IH. lia. Qed.

(** An answer grants at most what was asked, and nothing while denied. *)
Definition commit_ok (c : Commit) : Prop :=
  (forall d, (0 <= get d (c_granted c) <= Z.max 0 (get d (Requested (c_req c))))%Z) /\ (c_denied c = true -> c_granted c = no_dims).

(** The amounts under way are what the first half computes. *)
Definition pending_ok (x : ExtendRequest * Pending) : Prop :=
  forall d, (0 <= get d (p_granted x.2) <= Z.max 0 (get d (Requested x.1)))%Z.

Definition lease_inv (w : World) : Prop :=
  (forall k d, get d (Grants k (store w)) = given k d (commits w) /\ (0 <= get d (Grants k (store w)) <= get d (limit k))%Z) /\
  Forall commit_ok (commits w) /\ map_Forall (fun _ => pending_ok) (under_way w).

Lemma Grants_row k m : Grants k m = grants (row_of m k).
Proof using Type. unfold Grants, row_of. by destruct (m !! k). Qed.

Lemma Grants_insert k k' r m : Grants k' (<[k := r]> m) = if decide (k = k') then grants r else Grants k' m.
Proof using Type. unfold Grants. destruct (decide (k = k')) as [<-|]; [by rewrite lookup_insert_eq|by rewrite lookup_insert_ne]. Qed.

Lemma Grants_deny k k' now m : Grants k' (DenyTree (config s) k now m) = Grants k' m.
Proof using Type. unfold DenyTree, Deny. rewrite Grants_insert. destruct (decide (k = k')) as [<-|]; [cbn; by rewrite Grants_row|done]. Qed.

Lemma Grants_clear k k' m : Grants k' (Clear k m) = Grants k' m.
Proof using Type.
  unfold Clear. destruct (m !! k) as [r|] eqn:E; [|done]. rewrite Grants_insert. destruct (decide (k = k')) as [<-|]; [|done]. unfold Grants. by rewrite E.
Qed.

Lemma no_dims_get d : get d no_dims = 0%Z.
Proof using Type. apply get_dims. Qed.

Lemma begin_pending rows req now later ask lim m lim' evs p :
  extend_begin s rows req now later ask lim m = (lim', evs, Ok (inr p)) -> pending_ok (req, p).
Proof using Type.
  unfold extend_begin. destruct (is_empty _); [done|]. destruct (is_empty _); [done|]. destruct (treeBudget _ _ _ _ _ _) as [b|]; [|done].
  destruct (_ && _); [done|]. destruct (gate _ _ _ _ _ _ _ _ _ _) as [[lim1 evs1] [[resp|a]|]]; [done| |done]. intros [= <- <- <-] d. cbn.
  unfold computed_grant. rewrite get_dims. apply Grant_bounds.
Qed.

(** The trees are within their limits. *)
Definition within (m : MemoryDenialStore) : Prop := forall k d, (0 <= get d (Grants k m) <= get d (limit k))%Z.

Lemma limit_view rows tenantID id v : stable rows -> resolve (config s) rows tenantID id = Ok v -> clampLimit v = limit (tenantID, v_root v).
Proof using Type.
  intros Hst Hv. unfold limit, clampLimit. cbn. rewrite <- (Hst _ _ _ Hv).
  assert (v_effectiveMax v = effectiveMax (config s)) as ->; [|done].
  unfold resolve in Hv. apply rbind_Ok in Hv as (row & _ & Hv). destruct (IsTerminal _); [done|]. apply rbind_Ok in Hv as (rr & _ & Hv).
  destruct (0 <? rowDepth row)%Z; [|by injection Hv as <-]. destruct (is_empty _); [done|]. apply rbind_Ok in Hv as (pr & _ & Hv). by injection Hv as <-.
Qed.

(** A grant that the store commits. *)
Lemma apply_spec rows tenantID root id g now m m' a : stable rows -> within m ->
  ApplyGrant (config s) rows tenantID root id g now m = (m', Ok a) ->
  (Denied (tenantID, root) now m).1 = false /\
  (forall d, (0 <= get d (a_Granted a) <= Z.max 0 (get d g))%Z) /\ within m' /\
  forall k d, get d (Grants k m') = (get d (Grants k m) + (if decide ((tenantID, root) = k) then get d (a_Granted a) else 0))%Z.
Proof using Type.
  intros Hst Hw. unfold ApplyGrant. destruct (resolve _ _ _ _) as [v|] eqn:Ev; [|done]. destruct (String.eqb_spec (v_root v) root) as [<-|]; [|done]. cbn [negb].
  rewrite (limit_view rows tenantID id v Hst Ev). set (k0 := (tenantID, v_root v)). unfold GrantTree. destruct (deniedLocked now (row_of m k0)) eqn:Ed; [done|].
  intros [= <- <-]. cbn [a_Granted]. set (ap := ClampGrant (grants (row_of m k0)) g (limit k0)).
  assert (forall d, (0 <= get d ap <= Z.max 0 (get d g))%Z /\ (get d (Grants k0 m) + get d ap <= get d (limit k0))%Z) as Hap.
  { intros d. rewrite Grants_row. apply ClampGrant_bounds; [rewrite <- Grants_row; apply Hw|]. apply clampLimit_range. }
  assert (forall d, get d (add (grants (row_of m k0)) ap) = (get d (Grants k0 m) + get d ap)%Z) as Hadd.
  { intros d. unfold add. rewrite get_dims, <- Grants_row, wrap64_id; [done|]. pose proof (Hw k0 d). destruct (Hap d). pose proof (clampLimit_range (mkView k0.2 (base k0) (effectiveMax (config s)) no_dims) d) as Hr.
    fold (limit k0) in Hr. unfold in_int64, min_int64, max_int64, two63 in *. lia. }
  split; [unfold Denied; unfold row_of in Ed; by destruct (m !! k0)|]. split; [intros d; apply Hap|].
  assert (forall k d, get d (Grants k (<[k0 := mkRow (denied (row_of m k0)) (expiry (row_of m k0)) (add (grants (row_of m k0)) ap)]> m)) =
    (get d (Grants k m) + (if decide (k0 = k) then get d ap else 0))%Z) as Hnew.
  { intros k d. rewrite Grants_insert. destruct (decide (k0 = k)) as [<-|]; [apply Hadd|lia]. }
  split; [|exact Hnew]. intros k d. rewrite Hnew. destruct (decide (k0 = k)) as [<-|]; [|rewrite Z.add_0_r; apply Hw]. pose proof (Hw k0 d). destruct (Hap d). lia.
Qed.

(** A grant that the store refuses changes no total. *)
Lemma apply_refused rows tenantID root id g now m m' e : ApplyGrant (config s) rows tenantID root id g now m = (m', Err e) ->
  forall k, Grants k m' = Grants k m.
Proof using Type.
  unfold ApplyGrant. destruct (resolve _ _ _ _) as [v|]; [|by intros [= <- _]]. destruct (negb _); [by intros [= <- _]|]. unfold GrantTree.
  destruct (deniedLocked _ _); [|done]. intros [= <- _] k. rewrite Grants_insert. destruct (decide _) as [<-|]; [by rewrite Grants_row|done].
Qed.

Lemma commit_spec rows req p now m m' evs resp : stable rows -> within m -> pending_ok (req, p) ->
  extend_commit s rows req p now m = (m', evs, resp) ->
  let k := (x_TenantID req, RootSessionID (p_budget p)) in
  within m' /\
  match resp with
  | Ok r => commit_ok (mkCommit k req (r_Granted r) (Denied k now m).1) /\
      forall k' d, get d (Grants k' m') = (get d (Grants k' m) + (if decide (k = k') then get d (r_Granted r) else 0))%Z
  | Err _ => forall k', Grants k' m' = Grants k' m
  end.
Proof using Type.
  intros Hst Hw Hp. unfold extend_commit. destruct (anyPositive (p_granted p)) eqn:Ea.
  - destruct (ApplyGrant _ _ _ _ _ _ _ _) as [m1 [a|e]] eqn:Eap.
    + intros [= <- _ <-]. destruct (apply_spec _ _ _ _ _ _ _ _ _ Hst Hw Eap) as (Hd & Hb & Hw' & Hsum). split; [done|]. cbn [r_Granted]. split; [|done]. split.
      * intros d. specialize (Hb d). specialize (Hp d). cbn in *. lia.
      * cbn. by rewrite Hd.
    + pose proof (apply_refused _ _ _ _ _ _ _ _ _ Eap) as Hsame. assert (within m1) as Hw1 by (intros k d; rewrite Hsame; apply Hw).
      destruct e; intros [= <- _ <-]; split; try done. split; [split; [intros d; cbn; rewrite no_dims_get; lia|done]|].
      intros k d. cbn [r_Granted rejectedResponse]. rewrite Hsame, no_dims_get. destruct (decide _); lia.
  - intros [= <- _ <-]. split; [done|]. cbn [r_Granted].
    assert (p_granted p = no_dims) as ->. { apply dims_ext. intros d. rewrite no_dims_get. pose proof (anyPositive_false _ d Ea). specialize (Hp d). cbn in Hp. lia. }
    split; [split; [intros d; cbn; rewrite no_dims_get; lia|done]|]. intros k d. rewrite no_dims_get. destruct (decide _); lia.
Qed.

Lemma lease_inv_step w w' : lease_inv w -> lstep w w' -> lease_inv w'.
Proof using Type.
  intros (Hg & Hc & Hp) Hstep. assert (within (store w)) as Hw by (intros k d; apply Hg). destruct Hstep.
  - split; [done|]. split; [done|]. cbn. apply map_Forall_insert_2; [by eapply begin_pending|done].
  - pose proof (commit_spec _ _ _ _ _ _ _ _ H Hw (map_Forall_lookup_1 _ _ _ _ Hp H0) H1) as [Hw' Hr].
    split; [|split; [|by apply map_Forall_delete]]; cbn [store commits].
    + destruct resp as [r|e]; [destruct Hr as [_ Hsum]|]; intros k' d; (split; [|apply Hw']).
      * rewrite given_app, Hsum, (proj1 (Hg k' d)). done.
      * rewrite Hr. apply Hg.
    + destruct resp as [r|e]; [|done]. apply Forall_app. split; [done|]. constructor; [apply Hr|constructor].
  - split; [|done]. intros k' d. cbn. rewrite Grants_deny. apply Hg.
  - split; [|done]. intros k' d. cbn. rewrite Grants_clear. apply Hg.
Qed.

Lemma lease_inv_initial : lease_inv initial.
Proof using Type.
  split; [|split; [constructor|apply map_Forall_empty]]. intros k d. unfold Grants. cbn. rewrite lookup_empty, no_dims_get. split; [done|]. pose proof (clampLimit_range (mkView k.2 (base k) (effectiveMax (config s)) no_dims) d).
  unfold limit. lia.
Qed.

(** C22. However requests of any sessions, denials and clearings interleave, and however
    old the state a request read: what the answers have granted a tree is exactly
    what the store has for it and never passes the effective maximum less the base
    limit of the root, no answer grants more than was asked, and an answer that
    commits while the tree is denied grants nothing. *)
Theorem extensions_within_ceiling w : reachable w ->
  (forall k d, given k d (commits w) = get d (Grants k (store w)) /\
     (0 <= given k d (commits w) <= Z.max 0 (wrap64 (get d (effectiveMax (config s)) - get d (base k))))%Z) /\
  Forall commit_ok (commits w).
Proof using Type.
  intros Hr. assert (lease_inv w) as (Hg & Hc & _).
  { unfold reachable in Hr. remember initial as w0 eqn:E0. assert (lease_inv w0) as H0 by (subst; apply lease_inv_initial). clear E0.
    induction Hr as [|w0 w1 w2 Hs _ IH]; [done|]. apply IH. by eapply lease_inv_step. }
  split; [|done]. intros k d. destruct (Hg k d) as [E B]. rewrite <- E. split; [done|]. revert B. unfold limit, clampLimit. rewrite get_dims. cbn [v_effectiveMax v_base].
  destruct (Z.ltb_spec (wrap64 (get d (effectiveMax (config s)) - get d (base k))) 0); lia.
Qed.
End runs.

(** ** Delegated children *)

(** Leases narrow along the tree, so the lease of a parent is at most the base
    limit of the root.  The room of a child is the lease of its parent less the
    limit of the whole tree: none. *)
Theorem delegated_child_refused s rows req now later ask lim m lim' evs p row parent root d :
  extend_begin s rows req now later ask lim m = (lim', evs, Ok (inr p)) ->
  rows (x_TenantID req) (x_SessionID req) = Ok row -> (0 < rowDepth row)%Z -> rowRoot row <> "" -> rowRoot row <> rowID row ->
  rows (x_TenantID req) (rowParent row) = Ok parent -> rows (x_TenantID req) (rowRoot row) = Ok root ->
  (0 < get d (leaseLimits (rowLease parent)) <= get d (leaseLimits (rowLease root)))%Z ->
  (0 <= get d (effectiveMax (config s)))%Z -> (0 <= get d (Grants (x_TenantID req, rowID root) m))%Z -> in_int64 (get d (leaseLimits (rowLease root)) + get d (Grants (x_TenantID req, rowID root) m)) ->
  get d (p_granted p) = 0%Z.
Proof.
  unfold extend_begin. intros Hbegin Hrow Hdepth Hne Hne' Hparent Hroot Hle Hmx Hg Hfit. destruct (is_empty _); [done|]. destruct (is_empty _); [done|].
  unfold treeBudget, resolve, read in Hbegin. rewrite Hrow in Hbegin. cbn [rbind] in Hbegin. destruct (IsTerminal _); [done|].
  assert (is_empty (rowRoot row) = false) as Ee by (apply not_true_iff_false; by rewrite is_empty_spec).
  rewrite Ee, (proj2 (String.eqb_neq _ _) Hne') in Hbegin. cbn [negb andb] in Hbegin. rewrite Hroot in Hbegin. cbn [rbind] in Hbegin.
  rewrite (proj2 (Z.ltb_lt _ _) Hdepth) in Hbegin. destruct (is_empty (rowParent row)); [done|]. rewrite Hparent in Hbegin. cbn [rbind v_root v_base v_effectiveMax v_parentCeiling] in Hbegin.
  destruct (Denied _ _ _) as [dn ex]. cbn [rbind] in Hbegin. destruct (_ && _); [done|].
  destruct (gate _ _ _ _ _ _ _ _ _ _) as [[lim1 evs1] [[resp|a]|]]; [done| |done]. injection Hbegin as _ _ <-. cbn [p_granted].
  unfold computed_grant. rewrite get_dims. cbn [Current EffectiveMax ParentCeiling]. unfold Grant. destruct (Z.leb_spec (get d (Requested req)) 0); [done|].
  unfold add at 1. rewrite get_dims, (wrap64_id _ Hfit).
  set (base := get d (leaseLimits (rowLease root))) in *. set (g := get d (Grants _ m)) in *. set (cap := get d (leaseLimits (rowLease parent))) in *. set (mx := get d (effectiveMax (config s))) in *.
  assert (dimCeiling mx cap <= cap)%Z as Hc. { unfold dimCeiling. rewrite (proj2 (Z.ltb_lt _ _)) by lia. cbn. destruct (Z.ltb_spec cap mx); lia. }
  assert (0 <= dimCeiling mx cap)%Z by (unfold dimCeiling; destruct (_ && _); lia).
  rewrite wrap64_id by (unfold in_int64, min_int64, max_int64, two63 in *; lia). by rewrite (proj2 (Z.leb_le _ _)) by lia.
Qed.

(** ** Concrete trees *)

Module LeaseDemo.

Definition tokens (n : Z) : Dimensions := mkDims n 0 0 0 0 0 0.
Definition auto_config : ExtensionConfig := mkConfig 500 0 no_dims ApprovalModeAuto 0 0 0.
Definition service : Service := mkService true true false 0 auto_config.
Definition root_row : SessionRow := mkSessionRow "root" Running "root" "" 0 (Some (mkLease 100 0 0 0 0)).
Definition child_row : SessionRow := mkSessionRow "child" Running "root" "root" 1 (Some (mkLease 60 0 0 0 0)).
Definition rows : SessionReader := fun t id =>
  if String.eqb t "acme" then if String.eqb id "root" then Ok root_row else if String.eqb id "child" then Ok child_row else Err ReadNotFound
  else Err ReadNotFound.
Definition base (k : Tree) : Dimensions := if decide (k = ("acme", "root")) then tokens 100 else no_dims.
Definition ask (id : string) (n : Z) : ExtendRequest := mkExtendRequest "acme" id (tokens n).

Lemma rows_stable : stable service base rows.
Proof.
  intros t id v. unfold resolve, read, rows. destruct (String.eqb_spec t "acme") as [->|]; [|done].
  destruct (String.eqb_spec id "root") as [->|]; [by intros [= <-]|]. destruct (String.eqb_spec id "child") as [->|]; [by intros [= <-]|done].
Qed.

(** Two requests read the same state and ask for 300 of the 400 that are left. *)
Definition waiting : Pending :=
  match extend_begin service rows (ask "root" 300) 1 1 None NewMemory ∅ with
  | (_, _, Ok (inr p)) => p
  | _ => mkPending (mkBudget "" no_dims no_dims no_dims false 0) ApprovalModeAuto "" no_dims
  end.
Definition begun : World := mkWorld ∅ NewMemory (<[1 := (ask "root" 300, waiting)]> {[2 := (ask "root" 300, waiting)]}) [].

Definition committed (w : World) (i : nat) : World :=
  match under_way w !! i with
  | Some (req, p) =>
      let '(m, _, resp) := extend_commit service rows req p 1 (store w) in
      let k := (x_TenantID req, RootSessionID (p_budget p)) in
      mkWorld m (lims w) (delete i (under_way w))
        (match resp with Ok r => commits w ++ [mkCommit k req (r_Granted r) (Denied k 1 (store w)).1] | Err _ => commits w end)
  | None => w
  end.

Lemma committed_reachable w i : reachable service base w -> reachable service base (committed w i).
Proof.
  intros Hr. unfold committed. destruct (under_way w !! i) as [[req p]|] eqn:E; [|done].
  destruct (extend_commit service rows req p 1 (store w)) as [[m evs] resp] eqn:Ec. eapply rtc_r; [exact Hr|]. by eapply (step_commit service base i rows req p 1); [exact rows_stable|..].
Qed.

Lemma begun_reachable : reachable service base begun.
Proof.
  assert (extend_begin service rows (ask "root" 300) 1 1 None NewMemory ∅ = (NewMemory, [], Ok (inr waiting))) as Hb by (vm_compute; reflexivity).
  eapply rtc_l; [eapply (step_begin service base 2 rows (ask "root" 300) 1 1 None initial); [exact rows_stable|done|exact Hb]|].
  eapply rtc_l; [eapply (step_begin service base 1 rows (ask "root" 300) 1 1 None); [exact rows_stable|done|exact Hb]|]. apply rtc_refl.
Qed.

Definition finished : World := committed (committed begun 1) 2.

Lemma finished_reachable : reachable service base finished.
Proof. apply committed_reachable, committed_reachable, begun_reachable. Qed.

(** The first gets 300, the second what is left. *)
Lemma extensions_within_ceiling_witness : reachable service base finished /\ ((fun c => Tokens (c_granted c)) <$> commits finished) = [300%Z; 100%Z] /\
  given ("acme", "root") dTokens (commits finished) = get dTokens (Grants ("acme", "root") (store finished)).
Proof.
  split; [exact finished_reachable|]. split; [vm_compute; reflexivity|].
  exact (proj1 (proj1 (extensions_within_ceiling service base finished finished_reachable) ("acme", "root") dTokens)).
Defined.

(** The child asks for one token of the 400 that the tree has left. *)
Lemma child_has_no_room : match ExtendLease service rows rows (ask "child" 1) 1 1 1 None (fun m => m) NewMemory ∅ with
  | (_, _, _, Ok r) => Status r = StatusCeilingReached /\ r_Granted r = no_dims
  | _ => False
  end.
Proof. vm_compute. by split. Qed.

End LeaseDemo.
