(* ===== verification/Consent.v ===== *)
(** * Consent to an extension ([leasecontrol/elicitation.go])

    One prompt per delegation tree: the first request drives it, later ones join
    its batch, an approval opens a window in which requests pass without a prompt,
    a rejection is persisted before anyone hears of it, and a batch whose driver
    ended sends its members back.  The consent state of a tree is a heap object
    that requests and timers hold a reference to. *)

From S2P Require Import Prelude StateMachine SessionState LeaseExtension.

#[local] Set Warnings "-register-all".

(** ** The coordinator *)

(** References to a [treeConsent] or a [consentBatch]. *)
Record treeConsent := mkTree { coolOffUntil : Time; pending : option nat }.
Record consentBatch := mkBatch { done : bool; b_approved : bool; b_failed : bool; redrive : bool }.

Record elicitCoordinator := mkCoordinator { trees : gmap string nat; heap : gmap nat treeConsent; batches : gmap nat consentBatch; next : nat }.

Definition newElicitCoordinator : elicitCoordinator := mkCoordinator ∅ ∅ ∅ 0.

Definition with_tree (tc : nat) (t : treeConsent) (c : elicitCoordinator) : elicitCoordinator :=
  mkCoordinator (trees c) (<[tc := t]> (heap c)) (batches c) (next c).

Definition treeLocked (root : string) (c : elicitCoordinator) : elicitCoordinator * nat :=
  match trees c !! root with
  | Some tc => (c, tc)
  | None => let tc := next c in (mkCoordinator (<[root := tc]> (trees c)) (<[tc := mkTree zero_time None]> (heap c)) (batches c) (S tc), tc)
  end.

(** What [requestConsent] does under the lock: pass, join a batch, or drive one. *)
Inductive Entered := Passes | Joins (b : nat) | Drives (tc b : nat).

Definition requestConsent (root : string) (now : Time) (c : elicitCoordinator) : elicitCoordinator * Entered :=
  let '(c, tc) := treeLocked root c in
  let t := default (mkTree zero_time None) (heap c !! tc) in
  if time_before now (coolOffUntil t) then (c, Passes)
  else match pending t with
       | Some b => (c, Joins b)
       | None =>
           let b := next c in
           (mkCoordinator (trees c) (<[tc := mkTree (coolOffUntil t) (Some b)]> (heap c)) (<[b := mkBatch false false false false]> (batches c)) (S b), Drives tc b)
       end.

(** What the prompt comes to; a rejection is persisted or its write fails. *)
Inductive Verdict := UserApproved | UserRejected (persisted : bool) | NoDecision | RequesterEnded.

Definition isApproved (v : Verdict) : bool := match v with UserApproved => true | _ => false end.
Definition isError (v : Verdict) : bool := match v with UserApproved | UserRejected true => false | _ => true end.
Definition isEnded (v : Verdict) : bool := match v with RequesterEnded => true | _ => false end.

Definition resolveSuccessCoolOff (c : ExtensionConfig) : Duration := if (0 <? cfg_SuccessCoolOff c)%Z then cfg_SuccessCoolOff c else DefaultSuccessCoolOff.

(** The boolean says whether a timer is set for the end of the window. *)
Definition closeBatch (root : string) (tc b : nat) (v : Verdict) (coolOff : Duration) (now : Time) (c : elicitCoordinator) : elicitCoordinator * bool :=
  let t := default (mkTree zero_time None) (heap c !! tc) in
  let bs := <[b := mkBatch true (isApproved v) (isError v && negb (isEnded v)) (isEnded v)]> (batches c) in
  if negb (isError v) && isApproved v
  then (mkCoordinator (trees c) (<[tc := mkTree (time_add now coolOff) None]> (heap c)) bs (next c), true)
  else (mkCoordinator (if decide (trees c !! root = Some tc) then delete root (trees c) else trees c)
          (<[tc := mkTree (coolOffUntil t) None]> (heap c)) bs (next c), false).

Definition reclaimAfterCoolOff (root : string) (tc : nat) (now : Time) (c : elicitCoordinator) : elicitCoordinator :=
  let t := default (mkTree zero_time None) (heap c !! tc) in
  if negb (bool_decide (trees c !! root = Some tc)) || bool_decide (is_Some (pending t)) || time_before now (coolOffUntil t) then c
  else mkCoordinator (delete root (trees c)) (heap c) (batches c) (next c).

(** What the driver and the members of a batch are told. *)
Definition drive (v : Verdict) : option consent := if isError v then None else Some (mkConsent (isApproved v) "client").

Inductive Awaited := GoesBack | Told (r : option consent).

Definition await (b : consentBatch) : Awaited :=
  if redrive b then GoesBack else if b_failed b then Told None else Told (Some (mkConsent (b_approved b) "client")).

(** ** Runs *)

(** A request for consent for a tree: where it is. *)
Inductive Stage := Asking | Driving (tc b : nat) | Awaiting (b : nat) | Answered (r : option consent) (at_ : Time).

(** The decisions of the users that have taken effect. *)
Inductive Decision_ := ApprovedAt (root : string) (b : nat) (until : Time) | DeniedTree (root : string) (b : nat).

Record World := mkWorld { coord : elicitCoordinator; reqs : gmap nat (string * Stage); timers : list (string * nat); decisions : list Decision_ }.

Section runs.
Context (cfg : ExtensionConfig).

Definition put (i : nat) (root : string) (st : Stage) (w : World) (c : elicitCoordinator) : World :=
  mkWorld c (<[i := (root, st)]> (reqs w)) (timers w) (decisions w).

Inductive cstep : World -> World -> Prop :=
  | step_new i root w : reqs w !! i = None -> cstep w (put i root Asking w (coord w))
  | step_request i root now w c e : reqs w !! i = Some (root, Asking) -> (0 <= now)%Z -> requestConsent root now (coord w) = (c, e) ->
      cstep w (put i root (match e with Passes => Answered (Some (mkConsent true "gateway-auto")) now | Joins b => Awaiting b | Drives tc b => Driving tc b end) w c)
  | step_close i root tc b v now w c timed : reqs w !! i = Some (root, Driving tc b) ->
      closeBatch root tc b v (resolveSuccessCoolOff cfg) now (coord w) = (c, timed) ->
      cstep w (mkWorld c (<[i := (root, Answered (drive v) now)]> (reqs w)) (if timed then timers w ++ [(root, tc)] else timers w)
        (match v with
         | UserApproved => decisions w ++ [ApprovedAt root b (time_add now (resolveSuccessCoolOff cfg))]
         | UserRejected true => decisions w ++ [DeniedTree root b]
         | _ => decisions w
         end))
  | step_wake i root b ba now w : reqs w !! i = Some (root, Awaiting b) -> batches (coord w) !! b = Some ba -> done ba = true ->
      cstep w (put i root (match await ba with GoesBack => Asking | Told r => Answered r now end) w (coord w))
  | step_cancel i root b now w : reqs w !! i = Some (root, Awaiting b) -> cstep w (put i root (Answered None now) w (coord w))
  | step_timer root tc now w : (root, tc) ∈ timers w ->
      cstep w (mkWorld (reclaimAfterCoolOff root tc now (coord w)) (reqs w) (timers w) (decisions w)).

Definition initial : World := mkWorld newElicitCoordinator ∅ [] [].
Definition reachable : World -> Prop := rtc cstep initial.

(** ** What a consent rests on *)

(** A batch of the tree that is closed says what the user decided. *)
Definition closed_says (w : World) (root : string) (b : nat) (ba : consentBatch) : Prop :=
  done ba = true /\
  (redrive ba = false -> b_failed ba = false ->
   if b_approved ba then exists u, ApprovedAt root b u ∈ decisions w else DeniedTree root b ∈ decisions w).

(** A batch that is open has its driver. *)
Definition open_driven (w : World) (root : string) (b : nat) : Prop := exists j tc, reqs w !! j = Some (root, Driving tc b).

Definition answer_ok (w : World) (root : string) (c : consent) (t : Time) : Prop :=
  if approved c
  then exists b u, ApprovedAt root b u ∈ decisions w /\ (approver c = "gateway-auto" -> (t < u)%Z)
  else exists b, DeniedTree root b ∈ decisions w.

Record consent_inv (w : World) : Prop := mkInv {
  inv_fresh : (forall tc t, heap (coord w) !! tc = Some t -> tc < next (coord w)) /\ (forall b ba, batches (coord w) !! b = Some ba -> b < next (coord w));
  inv_tree root tc : trees (coord w) !! root = Some tc -> exists t, heap (coord w) !! tc = Some t /\
    (coolOffUntil t = zero_time \/ exists b, ApprovedAt root b (coolOffUntil t) ∈ decisions w);
  inv_inj root root' tc : trees (coord w) !! root = Some tc -> trees (coord w) !! root' = Some tc -> root = root';
  inv_pending tc t b : heap (coord w) !! tc = Some t -> pending t = Some b -> exists i root, reqs w !! i = Some (root, Driving tc b);
  inv_driving i root tc b : reqs w !! i = Some (root, Driving tc b) ->
    trees (coord w) !! root = Some tc /\ (exists t, heap (coord w) !! tc = Some t /\ pending t = Some b) /\ exists ba, batches (coord w) !! b = Some ba /\ done ba = false;
  inv_unique i j root root' tc tc' b : reqs w !! i = Some (root, Driving tc b) -> reqs w !! j = Some (root', Driving tc' b) -> i = j;
  inv_awaiting i root b : reqs w !! i = Some (root, Awaiting b) -> open_driven w root b \/ exists ba, batches (coord w) !! b = Some ba /\ closed_says w root b ba;
  inv_answered i root c t : reqs w !! i = Some (root, Answered (Some c) t) -> answer_ok w root c t }.

Lemma inv_initial : consent_inv initial.
Proof using Type.
  split; cbn; try split; intros *; rewrite lookup_empty; done.
Qed.

(** A request that is not driving and moves to a stage that is not driving. *)
Definition not_driving (st : Stage) : Prop := match st with Driving _ _ => False | _ => True end.

Lemma driving_kept w i root st c : (forall r s, reqs w !! i = Some (r, s) -> not_driving s) -> not_driving st ->
  forall j r tc b, reqs (put i root st w c) !! j = Some (r, Driving tc b) <-> reqs w !! j = Some (r, Driving tc b).
Proof using Type.
  intros Hold Hst j r tc b. cbn. destruct (decide (i = j)) as [<-|]; [|by rewrite lookup_insert_ne]. rewrite lookup_insert_eq. split.
  - intros [= -> ->]. done.
  - intros H. by apply Hold in H.
Qed.

(** Moving a request between stages that do not drive, with the coordinator left
    alone. *)
Lemma consent_move w i root st : consent_inv w -> (forall r s, reqs w !! i = Some (r, s) -> not_driving s) -> not_driving st ->
  (forall b, st = Awaiting b -> open_driven w root b \/ exists ba, batches (coord w) !! b = Some ba /\ closed_says w root b ba) ->
  (forall c t, st = Answered (Some c) t -> answer_ok w root c t) ->
  consent_inv (put i root st w (coord w)).
Proof using Type.
  intros Hinv Hold Hst Haw Hans.
  assert (forall j r tc b, reqs (put i root st w (coord w)) !! j = Some (r, Driving tc b) <-> reqs w !! j = Some (r, Driving tc b)) as Hd.
  { by apply driving_kept. }
  assert (forall r b, open_driven w r b -> open_driven (put i root st w (coord w)) r b) as Ho. { intros r b (j & tc & H). exists j, tc. by apply Hd. }
  split; try (intros *; cbn [put coord]; apply Hinv; fail).
  - intros tc t b Ht Hp. destruct (inv_pending _ Hinv tc t b Ht Hp) as (j & r & Hj). exists j, r. by apply Hd.
  - intros j r tc b Hj%Hd. by apply (inv_driving _ Hinv j).
  - intros j j' r r' tc tc' b Hj%Hd Hj'%Hd. by eapply (inv_unique _ Hinv).
  - intros j r b. cbn. rewrite lookup_insert_Some. intros [[<- [= -> ->]]|[_ Hj]].
    + destruct (Haw b eq_refl) as [?|?]; [left; by apply Ho|by right].
    + destruct (inv_awaiting _ Hinv j r b Hj) as [?|?]; [left; by apply Ho|by right].
  - intros j r c t. cbn. rewrite lookup_insert_Some. intros [[<- [= -> ->]]|[_ Hj]]; [by apply Hans|by apply (inv_answered _ Hinv j)].
Qed.

Lemma inv_treeLocked w root c tc : consent_inv w -> treeLocked root (coord w) = (c, tc) ->
  consent_inv (mkWorld c (reqs w) (timers w) (decisions w)) /\ trees c !! root = Some tc.
Proof using Type.
  intros Hinv. unfold treeLocked. destruct (trees (coord w) !! root) as [tc0|] eqn:E; [intros [= <- <-]; split; [by destruct w|done]|].
  intros [= <- <-]. set (n := next (coord w)). destruct (inv_fresh _ Hinv) as [Hf1 Hf2].
  assert (heap (coord w) !! n = None) as Hn. { destruct (heap (coord w) !! n) as [t|] eqn:Et; [|done]. apply Hf1 in Et. lia. }
  assert (forall r x, trees (coord w) !! r = Some x -> x <> n) as Hne.
  { intros r x Hx ->. destruct (inv_tree _ Hinv r n Hx) as (t & Ht & _). by rewrite Hn in Ht. }
  split; [|cbn; by rewrite lookup_insert_eq]. split; cbn.
  - split; [|intros b ba Hb%Hf2; lia]. intros x t. rewrite lookup_insert_Some. intros [[<- _]|[_ Hx%Hf1]]; lia.
  - intros r x. rewrite lookup_insert_Some. intros [[<- <-]|[_ Hx]]; [rewrite lookup_insert_eq; eexists; split; [done|by left]|].
    rewrite lookup_insert_ne by (symmetry; by eapply Hne). by apply (inv_tree _ Hinv).
  - intros r r' x. rewrite !lookup_insert_Some. intros [[<- <-]|[_ Hr]] [[<- Hx]|[_ Hr']]; [done|by apply Hne in Hr'|subst; by apply Hne in Hr|by eapply (inv_inj _ Hinv)].
  - intros x t b. rewrite lookup_insert_Some. intros [[<- <-]|[_ Hx]]; [done|]. by apply (inv_pending _ Hinv).
  - intros i r x b Hi. destruct (inv_driving _ Hinv i r x b Hi) as (Ht & (t & Hh & Hp) & Hb). split; [|split; [|done]].
    + rewrite lookup_insert_ne; [done|]. intros ->. by rewrite E in Ht.
    + exists t. by rewrite lookup_insert_ne by (symmetry; by eapply Hne).
  - apply Hinv.
  - apply Hinv.
  - apply Hinv.
Qed.

(** A request that opens a batch. *)
Lemma inv_drives w i root tc t : consent_inv w -> reqs w !! i = Some (root, Asking) -> trees (coord w) !! root = Some tc -> heap (coord w) !! tc = Some t -> pending t = None ->
  let b := next (coord w) in
  consent_inv (put i root (Driving tc b) w
    (mkCoordinator (trees (coord w)) (<[tc := mkTree (coolOffUntil t) (Some b)]> (heap (coord w))) (<[b := mkBatch false false false false]> (batches (coord w))) (S b))).
Proof using Type.
  intros Hinv Hi Htc Ht Hp b. destruct (inv_fresh _ Hinv) as [Hf1 Hf2].
  assert (batches (coord w) !! b = None) as Hb. { destruct (batches (coord w) !! b) as [ba|] eqn:E; [|done]. apply Hf2 in E. unfold b in E. lia. }
  assert (forall j r x y, reqs w !! j = Some (r, Driving x y) -> j <> i /\ x <> tc /\ y <> b) as Hother.
  { intros j r x y Hj. destruct (inv_driving _ Hinv j r x y Hj) as (_ & (t' & Ht' & Hp') & ba & Hba & _). split; [by intros ->; rewrite Hi in Hj|].
    split; [intros ->; rewrite Ht in Ht'; by simplify_eq|]. intros ->. by rewrite Hb in Hba. }
  split; cbn.
  - split; [intros x u|intros x u]; rewrite lookup_insert_Some; (intros [[<- _]|[_ Hx]]; [|first [apply Hf1 in Hx|apply Hf2 in Hx]; lia]); [apply Hf1 in Ht; lia|lia].
  - intros r x Hx. destruct (inv_tree _ Hinv r x Hx) as (u & Hu & Hc). destruct (decide (tc = x)) as [<-|].
    + rewrite lookup_insert_eq. eexists. split; [done|]. rewrite Ht in Hu. by simplify_eq.
    + exists u. by rewrite lookup_insert_ne.
  - apply Hinv.
  - intros x u y. rewrite lookup_insert_Some. intros [[<- <-]|[Hne Hx]].
    + intros [= <-]. exists i, root. by rewrite lookup_insert_eq.
    + intros Hy. destruct (inv_pending _ Hinv x u y Hx Hy) as (j & r & Hj). exists j, r. rewrite lookup_insert_ne; [done|]. symmetry. by eapply Hother.
  - intros j r x y. rewrite lookup_insert_Some. intros [[<- [= <- <- <-]]|[_ Hj]].
    + split; [done|]. rewrite !lookup_insert_eq. split; [eauto|]. by eexists.
    + destruct (Hother _ _ _ _ Hj) as (_ & Hx & Hy). destruct (inv_driving _ Hinv j r x y Hj) as (? & (u & ? & ?) & ba & ? & ?).
      split; [done|]. rewrite !lookup_insert_ne by done. split; [eauto|]. by exists ba.
  - intros j j' r r' x x' y. rewrite !lookup_insert_Some. intros [[<- E1]|[_ Hj]] [[<- E2]|[_ Hj']]; [done| | |by eapply (inv_unique _ Hinv)].
    + injection E1 as <- <- <-. by destruct (Hother _ _ _ _ Hj') as (_ & _ & ?).
    + injection E2 as <- <- <-. by destruct (Hother _ _ _ _ Hj) as (_ & _ & ?).
  - intros j r y. rewrite lookup_insert_Some. intros [[_ [=]]|[_ Hj]]. destruct (inv_awaiting _ Hinv j r y Hj) as [(k & x & Hk)|(ba & Hba & Hs)].
    + left. exists k, x. cbn. rewrite lookup_insert_ne; [done|]. symmetry. by eapply Hother.
    + right. exists ba. split; [|done]. rewrite lookup_insert_ne; [done|]. intros <-. by rewrite Hb in Hba.
  - intros j r c u. rewrite lookup_insert_Some. intros [[_ [=]]|[_ Hj]]. by apply (inv_answered _ Hinv j).
Qed.

Lemma inv_request w i root now c e : consent_inv w -> reqs w !! i = Some (root, Asking) -> (0 <= now)%Z -> requestConsent root now (coord w) = (c, e) ->
  consent_inv (put i root (match e with Passes => Answered (Some (mkConsent true "gateway-auto")) now | Joins b => Awaiting b | Drives tc b => Driving tc b end) w c).
Proof using Type.
  intros Hinv Hi Hnow. unfold requestConsent. destruct (treeLocked root (coord w)) as [c1 tc] eqn:El. destruct (inv_treeLocked w root c1 tc Hinv El) as [Hinv1 Htc].
  set (w1 := mkWorld c1 (reqs w) (timers w) (decisions w)) in *. destruct (inv_tree _ Hinv1 root tc Htc) as (t & Ht & Hcool). cbn in Ht. rewrite Ht. cbn [default id].
  assert (forall r s, reqs w1 !! i = Some (r, s) -> not_driving s) as Hnd. { intros r s. cbn. rewrite Hi. by intros [= <- <-]. }
  unfold time_before. destruct (Z.ltb_spec now (coolOffUntil t)) as [Hlt|_].
  - intros [= <- <-]. apply (consent_move w1 i root); [done|done|done|done|]. intros c' u [= <- <-]. unfold answer_ok. cbn.
    destruct Hcool as [Hz|(b & Hb)]; [unfold zero_time in Hz; lia|]. exists b, (coolOffUntil t). by split.
  - destruct (pending t) as [b|] eqn:Ep.
    + intros [= <- <-]. apply (consent_move w1 i root); [done|done|done| |done]. intros b' [= <-]. left.
      destruct (inv_pending _ Hinv1 tc t b Ht Ep) as (j & r & Hj). destruct (inv_driving _ Hinv1 j r tc b Hj) as [Hr _].
      rewrite (inv_inj _ Hinv1 root r tc Htc Hr). by exists j, tc.
    + intros [= <- <-]. by apply (inv_drives w1 i root tc t).
Qed.

(** A batch closes: the tree forgets it, its window is one the user opened or the
    entry goes, and its members can hear what was decided. *)
Lemma inv_close w i root tc b now cu trees' ba ts ds ans : consent_inv w -> reqs w !! i = Some (root, Driving tc b) ->
  (forall d, d ∈ decisions w -> d ∈ ds) ->
  trees' = delete root (trees (coord w)) \/ (trees' = trees (coord w) /\ exists b', ApprovedAt root b' cu ∈ ds) ->
  let w' := mkWorld (mkCoordinator trees' (<[tc := mkTree cu None]> (heap (coord w))) (<[b := ba]> (batches (coord w))) (next (coord w)))
              (<[i := (root, Answered ans now)]> (reqs w)) ts ds in
  closed_says w' root b ba -> (forall c, ans = Some c -> answer_ok w' root c now) -> consent_inv w'.
Proof using Type.
  intros Hinv Hi Hds Htr w' Hsays Hans. destruct (inv_fresh _ Hinv) as [Hf1 Hf2].
  destruct (inv_driving _ Hinv i root tc b Hi) as (Htc & (t & Ht & Hp) & ba0 & Hba0 & Hopen).
  assert (forall j r x y, reqs w' !! j = Some (r, Driving x y) -> reqs w !! j = Some (r, Driving x y) /\ j <> i /\ x <> tc /\ y <> b) as Hdrv.
  { intros j r x y. cbn. rewrite lookup_insert_Some. intros [[_ [=]]|[Hne Hj]]. destruct (inv_driving _ Hinv j r x y Hj) as (_ & (t' & Ht' & Hp') & _).
    assert (y <> b) as Hy by (intros ->; by eapply Hne, (inv_unique _ Hinv)). split; [done|]. split; [done|]. split; [|done]. intros ->. rewrite Ht in Ht'. by simplify_eq. }
  assert (forall r x, trees' !! r = Some x -> trees (coord w) !! r = Some x) as Hsub.
  { intros r x. destruct Htr as [->|[-> _]]; [rewrite lookup_delete_Some; by intros [_ ?]|done]. }
  assert (forall r c u, answer_ok w r c u -> answer_ok w' r c u) as Hmono.
  { intros r c u. unfold answer_ok. destruct (approved c); [intros (b' & u' & ? & ?); exists b', u'; split; [by apply Hds|done]|intros (b' & ?); exists b'; by apply Hds]. }
  assert (forall r y ba', closed_says w r y ba' -> closed_says w' r y ba') as Hcmono.
  { intros r y ba' [Hd Hs]. split; [done|]. intros H1 H2. specialize (Hs H1 H2). destruct (b_approved ba'); [destruct Hs as [u ?]; exists u|]; by apply Hds. }
  split; cbn.
  - split; intros x u; rewrite lookup_insert_Some; (intros [[<- _]|[_ Hx]]; [|first [by apply Hf1 in Hx|by apply Hf2 in Hx]]); [by apply Hf1 in Ht|by apply Hf2 in Hba0].
  - intros r x Hx. pose proof (Hsub r x Hx) as Hx'. destruct (inv_tree _ Hinv r x Hx') as (u & Hu & Hc). destruct (decide (tc = x)) as [<-|].
    + rewrite lookup_insert_eq. eexists. split; [done|]. right. pose proof (inv_inj _ Hinv r root tc Hx' Htc) as ->. destruct Htr as [->|[_ ?]]; [by rewrite lookup_delete_eq in Hx|done].
    + exists u. rewrite lookup_insert_ne by done. split; [done|]. destruct Hc as [?|(b' & ?)]; [by left|right; exists b'; by apply Hds].
  - intros r r' x Hr%Hsub Hr'%Hsub. by eapply (inv_inj _ Hinv).
  - intros x u y. rewrite lookup_insert_Some. intros [[<- <-]|[Hne Hx]]; [done|]. intros Hy. destruct (inv_pending _ Hinv x u y Hx Hy) as (j & r & Hj).
    exists j, r. rewrite lookup_insert_ne; [done|]. intros <-. rewrite Hi in Hj. by simplify_eq.
  - intros j r x y Hj. destruct (Hdrv j r x y Hj) as (Hj' & Hne & Hx & Hy). destruct (inv_driving _ Hinv j r x y Hj') as (Hr & (u & ? & ?) & ba' & ? & ?).
    rewrite !lookup_insert_ne by done. split; [|split; [eauto|by exists ba']]. destruct Htr as [->|[-> _]]; [|done]. rewrite lookup_delete_ne; [done|]. intros ->. rewrite Htc in Hr. by simplify_eq.
  - intros j j' r r' x x' y Hj Hj'. apply Hdrv in Hj as [Hj _], Hj' as [Hj' _]. by eapply (inv_unique _ Hinv).
  - intros j r y. rewrite lookup_insert_Some. intros [[_ [=]]|[_ Hj]]. destruct (inv_awaiting _ Hinv j r y Hj) as [(k & x & Hk)|(ba' & Hba' & Hs)].
    + destruct (decide (y = b)) as [->|Hy].
      * pose proof (inv_unique _ Hinv k i r root x tc b Hk Hi) as ->. rewrite Hi in Hk. injection Hk as <- <-. right. exists ba. by rewrite lookup_insert_eq.
      * left. exists k, x. cbn. rewrite lookup_insert_ne; [done|]. intros <-. rewrite Hi in Hk. by simplify_eq.
    + right. destruct (decide (y = b)) as [->|Hy]; [|exists ba'; rewrite lookup_insert_ne by done; split; [done|by apply Hcmono]].
      destruct Hs as [Hd _]. rewrite Hba0 in Hba'. injection Hba' as <-. congruence.
  - intros j r c u. rewrite lookup_insert_Some. intros [[<- [= <- -> <-]]|[_ Hj]]; [by apply Hans|by apply Hmono, (inv_answered _ Hinv j)].
Qed.

Lemma inv_step_close w i root tc b v now c timed : consent_inv w -> reqs w !! i = Some (root, Driving tc b) ->
  closeBatch root tc b v (resolveSuccessCoolOff cfg) now (coord w) = (c, timed) ->
  consent_inv (mkWorld c (<[i := (root, Answered (drive v) now)]> (reqs w)) (if timed then timers w ++ [(root, tc)] else timers w)
    (match v with
     | UserApproved => decisions w ++ [ApprovedAt root b (time_add now (resolveSuccessCoolOff cfg))]
     | UserRejected true => decisions w ++ [DeniedTree root b]
     | _ => decisions w
     end)).
Proof using Type.
  intros Hinv Hi. destruct (inv_driving _ Hinv i root tc b Hi) as (Htc & _). unfold closeBatch. rewrite (decide_True _ _ Htc).
  destruct v as [|[]| |]; cbn; intros [= <- <-]; (eapply inv_close; [done|exact Hi|set_solver| | |]).
  - right. split; [done|]. exists b. set_solver.
  - split; [done|]. intros _ _. cbn. exists (time_add now (resolveSuccessCoolOff cfg)). set_solver.
  - intros c' [= <-]. unfold answer_ok. cbn. exists b, (time_add now (resolveSuccessCoolOff cfg)). split; [set_solver|done].
  - by left.
  - split; [done|]. intros _ _. cbn. set_solver.
  - intros c' [= <-]. unfold answer_ok. cbn. exists b. set_solver.
  - by left.
  - by split.
  - done.
  - by left.
  - by split.
  - done.
  - by left.
  - by split.
  - done.
Qed.

Lemma inv_timer w root tc now : consent_inv w -> consent_inv (mkWorld (reclaimAfterCoolOff root tc now (coord w)) (reqs w) (timers w) (decisions w)).
Proof using Type.
  intros Hinv. unfold reclaimAfterCoolOff. destruct (_ || _ || _) eqn:E; [by destruct w|]. apply orb_false_iff in E as [[E1 E2]%orb_false_iff _].
  apply negb_false_iff, bool_decide_eq_true in E1. apply bool_decide_eq_false in E2.
  assert (forall r x, delete root (trees (coord w)) !! r = Some x -> trees (coord w) !! r = Some x) as Hsub by (intros r x; rewrite lookup_delete_Some; by intros [_ ?]).
  split; cbn; try apply Hinv.
  - intros r x Hx%Hsub. by apply (inv_tree _ Hinv).
  - intros r r' x Hr%Hsub Hr'%Hsub. by eapply (inv_inj _ Hinv).
  - intros i r x b Hi. destruct (inv_driving _ Hinv i r x b Hi) as (Hr & (t & Ht & Hp) & Hb). split; [|split; [eauto|done]].
    rewrite lookup_delete_ne; [done|]. intros <-. rewrite E1 in Hr. injection Hr as <-. apply E2. rewrite Ht. cbn. rewrite Hp. by eexists.
Qed.

Lemma consent_step w w' : consent_inv w -> cstep w w' -> consent_inv w'.
Proof using Type.
  intros Hinv Hs. destruct Hs.
  - apply consent_move; [done| |done|done|done]. intros r st. by rewrite H.
  - by apply inv_request.
  - by apply inv_step_close.
  - apply consent_move; [done| |by destruct (await ba)| |].
    + intros r st. rewrite H. by intros [= <- <-].
    + destruct (await ba); done.
    + unfold await. intros c t E. destruct (inv_awaiting _ Hinv i root b H) as [(j & tc & Hj)|(ba' & Hba' & Hd & Hs)].
      * destruct (inv_driving _ Hinv j root tc b Hj) as (_ & _ & ba' & Hba' & Hd'). rewrite H0 in Hba'. injection Hba' as <-. congruence.
      * rewrite H0 in Hba'. injection Hba' as <-. destruct (redrive ba); [done|]. destruct (b_failed ba); [done|]. injection E as <- <-. specialize (Hs eq_refl eq_refl).
        unfold answer_ok. cbn. destruct (b_approved ba); [destruct Hs as [u Hu]; by exists b, u|by exists b].
  - apply consent_move; [done| |done|done|done]. intros r st. rewrite H. by intros [= <- <-].
  - by apply inv_timer.
Qed.

(** C23. However requests for consent, the users' answers, failed writes, ended
    requesters, cancellations and timers interleave: a tree has at most one prompt
    open; a consent that was given rests on an approval of a prompt of that tree,
    and one given without a prompt on an approval whose window was still open; a
    refusal that was heard has been persisted for the tree; and a request that
    waits for a batch waits for one that is closed or has its driver. *)
Theorem consent_sound w : reachable w ->
  (forall i j root tc b tc' b', reqs w !! i = Some (root, Driving tc b) -> reqs w !! j = Some (root, Driving tc' b') -> i = j) /\
  (forall i root c t, reqs w !! i = Some (root, Answered (Some c) t) ->
     if approved c
     then exists b u, ApprovedAt root b u ∈ decisions w /\ (approver c = "gateway-auto" -> (t < u)%Z)
     else exists b, DeniedTree root b ∈ decisions w) /\
  (forall i root b, reqs w !! i = Some (root, Awaiting b) ->
     (exists j tc, reqs w !! j = Some (root, Driving tc b)) \/ exists ba, batches (coord w) !! b = Some ba /\ done ba = true).
Proof using Type.
  intros Hr. assert (consent_inv w) as Hinv.
  { unfold reachable in Hr. remember initial as w0 eqn:E0. assert (consent_inv w0) as H0 by (subst; apply inv_initial). clear E0.
    induction Hr as [|w0 w1 w2 Hs _ IH]; [done|]. apply IH. by eapply consent_step. }
  split; [|split].
  - intros i j root tc b tc' b' Hi Hj. destruct (inv_driving _ Hinv i root tc b Hi) as (Ht & (t & Hh & Hp) & _).
    destruct (inv_driving _ Hinv j root tc' b' Hj) as (Ht' & (t' & Hh' & Hp') & _). rewrite Ht in Ht'. injection Ht' as <-. rewrite Hh in Hh'. injection Hh' as <-.
    rewrite Hp in Hp'. injection Hp' as <-. by eapply (inv_unique _ Hinv).
  - intros i root c t Hi. by apply (inv_answered _ Hinv i).
  - intros i root b Hi. destruct (inv_awaiting _ Hinv i root b Hi) as [?|(ba & ? & ? & _)]; [by left|right; by exists ba].
Qed.
End runs.

(** ** A concrete tree *)

Module ConsentDemo.

Definition cfg : ExtensionConfig := mkConfig 0 0 no_dims ApprovalModeElicitation 10 0 0.

(** One request drives, one joins, the user approves, a third comes within the
    window. *)
Definition w0 : World := mkWorld newElicitCoordinator (<[3 := ("r", Asking)]> (<[2 := ("r", Asking)]> (<[1 := ("r", Asking)]> ∅))) [] [].
Definition asked (i : nat) (now : Time) (w : World) : World :=
  let '(c, e) := requestConsent "r" now (coord w) in
  put i "r" (match e with Passes => Answered (Some (mkConsent true "gateway-auto")) now | Joins b => Awaiting b | Drives tc b => Driving tc b end) w c.
Definition w2 : World := asked 2 2 (asked 1 1 w0).
Definition w3 : World :=
  let '(c, _) := closeBatch "r" 0 1 UserApproved 10 5 (coord w2) in
  mkWorld c (<[1 := ("r", Answered (Some (mkConsent true "client")) 5%Z)]> (reqs w2)) [("r", 0)] [ApprovedAt "r" 1 15].
Definition w4 : World := asked 3 14 w3.

Lemma asked_reachable i now w : reachable cfg w -> reqs w !! i = Some ("r", Asking) -> (0 <= now)%Z -> reachable cfg (asked i now w).
Proof.
  intros Hr Hi Hn. unfold asked. destruct (requestConsent "r" now (coord w)) as [c e] eqn:E. eapply rtc_r; [exact Hr|]. by apply (step_request cfg i "r" now w c e).
Qed.

Lemma w0_reachable : reachable cfg w0.
Proof.
  eapply rtc_l; [by apply (step_new cfg 1 "r" initial)|]. eapply rtc_l; [by apply (step_new cfg 2 "r")|]. eapply rtc_l; [by apply (step_new cfg 3 "r")|]. apply rtc_refl.
Qed.

Lemma w4_reachable : reachable cfg w4.
Proof.
  apply asked_reachable; [|vm_compute; reflexivity|lia].
  apply rtc_r with w2; [apply asked_reachable; [apply asked_reachable; [apply w0_reachable|vm_compute; reflexivity|lia]|vm_compute; reflexivity|lia]|].
  unfold w3. destruct (closeBatch "r" 0 1 UserApproved 10 5 (coord w2)) as [c timed] eqn:E.
  assert (timed = true) as -> by (vm_compute in E; by injection E as _ <-).
  exact (step_close cfg 1 "r" 0 1 UserApproved 5 w2 c true ltac:(vm_compute; reflexivity) E).
Qed.

Lemma consent_sound_witness : reqs w4 !! 3 = Some ("r", Answered (Some (mkConsent true "gateway-auto")) 14%Z) /\ reqs w4 !! 2 = Some ("r", Awaiting 1) /\
  exists b u, ApprovedAt "r" b u ∈ decisions w4 /\ (14 < u)%Z.
Proof.
  assert (reqs w4 !! 3 = Some ("r", Answered (Some (mkConsent true "gateway-auto")) 14%Z)) as H3 by (vm_compute; reflexivity).
  split; [exact H3|]. split; [vm_compute; reflexivity|].
  destruct (proj1 (proj2 (consent_sound cfg w4 w4_reachable)) 3 "r" (mkConsent true "gateway-auto") 14%Z H3) as (b & u & Hb & Hu).
  exists b, u. split; [exact Hb|]. by apply Hu.
Defined.

End ConsentDemo.
