(* ===== verification/Episodes.v ===== *)
(** * Budget exhaustion and extension episodes
      ([session/sessionbudget], [leasecontrol/budgetextension.go])

    The token counters of the sessions a replica serves ([sessionbudget.go]) with
    the accumulated grants of the usage recorder ([llmproxy_usage.go]), and the
    episodes that extend them: the exhausted sessions of a tree join one episode,
    each request waits for its session's part of it up to a deadline, and what
    comes after the deadline is applied by the episode ([budgetextension.go]).
    What an extension grants is an argument of a step; [LeaseExtension] has its
    computation. *)

From S2P Require Import Prelude.

#[local] Set Warnings "-register-all".

(** ** The counters ([sessionbudget.go]) *)

Inductive Outcome := Granted | Pending | Terminal.

Record counter := mkCounter { budget : Z; consumed : Z; exhausted : bool; deny : bool; terminating : bool }.
Abbreviation Enforcer := (gmap string counter).

(** The part of [Record] under the lock: whether this usage crosses the budget. *)
Definition Record_ (sessionID : string) (budget_ tokens : Z) (e : Enforcer) : Enforcer * bool :=
  if is_empty sessionID then (e, false)
  else
    let c := default (mkCounter 0 0 false false false) (e !! sessionID) in
    let consumed_ := if (0 <? tokens)%Z then wrap64 (consumed c + tokens) else consumed c in
    let crossed := negb (exhausted c) && (0 <? budget_)%Z && (budget_ <=? consumed_)%Z in
    (<[sessionID := mkCounter budget_ consumed_ (exhausted c || crossed) (deny c) (terminating c)]> e, crossed).

Definition setDeny (sessionID : string) (e : Enforcer) : Enforcer :=
  match e !! sessionID with
  | Some c => <[sessionID := mkCounter (budget c) (consumed c) (exhausted c) true (terminating c)]> e
  | None => e
  end.

Definition setTerminating (sessionID : string) (e : Enforcer) : Enforcer :=
  match e !! sessionID with
  | Some c => <[sessionID := mkCounter (budget c) (consumed c) (exhausted c) true true]> e
  | None => e
  end.

Definition RaiseBudget (sessionID : string) (delta : Z) (e : Enforcer) : Enforcer :=
  if is_empty sessionID then e
  else match e !! sessionID with
       | Some c =>
           if terminating c then e
           else <[sessionID := mkCounter (if (0 <? delta)%Z then wrap64 (budget c + delta) else budget c) (consumed c) false false false]> e
       | None => e
       end.

Definition Allow (sessionID : string) (e : Enforcer) : bool :=
  if is_empty sessionID then true else match e !! sessionID with None => true | Some c => negb (deny c) end.

Definition Forget (sessionID : string) (e : Enforcer) : Enforcer := if is_empty sessionID then e else delete sessionID e.

Definition TrackedSessions (e : Enforcer) : list string := (map_to_list e).*1.

(** The enforcer behind the recorder, with the grants that outlive a budget read
    from the session row, and the sessions the terminator was called for. *)
Record Recorder := mkRecorder { enf : Enforcer; grantedDelta : gmap string Z; terminated : list string }.

Definition grantedDeltaFor (sessionID : string) (r : Recorder) : Z := default 0%Z (grantedDelta r !! sessionID).

Definition raise (sessionID : string) (delta : Z) (r : Recorder) : Recorder :=
  if is_empty sessionID then r
  else mkRecorder (RaiseBudget sessionID delta (enf r))
         (if (0 <? delta)%Z then <[sessionID := wrap64 (grantedDeltaFor sessionID r + delta)]> (grantedDelta r) else grantedDelta r) (terminated r).

(** [TerminateSession] of the recorder, and of the enforcer alone. *)
Definition terminate (sessionID : string) (r : Recorder) : Recorder :=
  if is_empty sessionID then r
  else mkRecorder (setTerminating sessionID (enf r)) (delete sessionID (grantedDelta r)) (terminated r ++ [sessionID]).

(** What [Record] does once the extension has been attempted. *)
Definition settle (sessionID : string) (o : Outcome) (r : Recorder) : Recorder :=
  match o with
  | Granted => r
  | Pending => mkRecorder (setDeny sessionID (enf r)) (grantedDelta r) (terminated r)
  | Terminal => mkRecorder (setTerminating sessionID (enf r)) (grantedDelta r) (terminated r ++ [sessionID])
  end.

(** ** Members and episodes ([budgetextension.go]) *)

Record sessionResult := mkResult { granted : bool; grantedTokens : Z; failed : bool }.

(** [result] is the buffered channel of the member. *)
Record member := mkMember { sessionID : string; result : option sessionResult; resolved : option sessionResult; detached : bool }.

(** [None]: detached; otherwise the resolution to apply. *)
Definition detach (m : member) : member * option sessionResult :=
  match resolved m with
  | Some res => (m, Some res)
  | None => (mkMember (sessionID m) (result m) None true, None)
  end.

(** The boolean says that the caller is gone. *)
Definition resolve (res : sessionResult) (m : member) : member * bool :=
  (mkMember (sessionID m) (match result m with None => Some res | r => r end) (Some res) (detached m), detached m).

(** An episode is open until it closes; then [fan] lists the members that are
    still to be resolved. *)
Record episode := mkEpisode {
  rootSessionID : string; members : gmap string nat; pending : list nat; inFlight : list nat; dispatched : gmap string sessionResult; fan : option (list nat) }.

Record episodeManager := mkManager { trees : gmap string nat; episodes : gmap nat episode; heap : gmap nat member; next : nat }.

Definition enroll (ep : nat) (e : episode) (session : string) (m : episodeManager) : episodeManager * nat :=
  match members e !! session with
  | Some mem => (m, mem)
  | None =>
      let mem := next m in
      (mkManager (trees m)
         (<[ep := mkEpisode (rootSessionID e) (<[session := mem]> (members e)) (pending e ++ [mem]) (inFlight e) (dispatched e) None]> (episodes m))
         (<[mem := mkMember session None None false]> (heap m)) (S mem), mem)
  end.

(** A closed episode is replaced by a fresh one. *)
Definition join (root session : string) (m : episodeManager) : episodeManager * nat :=
  let open := match trees m !! root with
              | Some ep => match episodes m !! ep with Some e => match fan e with None => Some (ep, e) | Some _ => None end | None => None end
              | None => None
              end in
  match open with
  | Some (ep, e) => enroll ep e session m
  | None =>
      let ep := next m in let e := mkEpisode root ∅ [] [] ∅ None in
      enroll ep e session (mkManager (<[root := ep]> (trees m)) (<[ep := e]> (episodes m)) (heap m) (S ep))
  end.

(** One turn of [runEpisode]: new members are dispatched, or the episode closes
    and its slot is freed. *)
Definition runEpisode (ep : nat) (e : episode) (m : episodeManager) : episodeManager :=
  if bool_decide (pending e = []) && bool_decide (inFlight e = []) then
    mkManager (if decide (trees m !! rootSessionID e = Some ep) then delete (rootSessionID e) (trees m) else trees m)
      (<[ep := mkEpisode (rootSessionID e) (members e) [] [] (dispatched e) (Some (map_to_list (members e)).*2)]> (episodes m)) (heap m) (next m)
  else
    mkManager (trees m) (<[ep := mkEpisode (rootSessionID e) (members e) [] (inFlight e ++ pending e) (dispatched e) None]> (episodes m)) (heap m) (next m).

(** The extension of one member has answered. *)
Definition dispatchOne (ep : nat) (e : episode) (mem : nat) (session : string) (res : sessionResult) (m : episodeManager) : episodeManager :=
  mkManager (trees m)
    (<[ep := mkEpisode (rootSessionID e) (members e) (pending e) (filter (fun x => x <> mem) (inFlight e)) (<[session := res]> (dispatched e)) (fan e)]> (episodes m))
    (heap m) (next m).

(** [applyInPathResolution] and the reclaiming part of [fanOut]. *)
Definition applyInPathResolution (session : string) (res : sessionResult) (r : Recorder) : Recorder * Outcome :=
  if failed res then (r, Terminal) else if negb (granted res) then (r, Terminal) else (raise session (grantedTokens res) r, Granted).

Definition reclaim (session : string) (res : sessionResult) (r : Recorder) : Recorder :=
  if failed res then terminate session r else if granted res then raise session (grantedTokens res) r else terminate session r.

(** The result that [dispatchOne] makes of the response of an extension. *)
Inductive Response := NoResponse | Grants (tokens : Z) | Refuses.
Definition result_of (r : Response) : sessionResult :=
  match r with
  | NoResponse => mkResult false 0 true
  | Grants n => if (0 <? n)%Z then mkResult true n false else mkResult false 0 false
  | Refuses => mkResult false 0 false
  end.

(** ** Runs *)

(** A settled call of the proxy: its budget has been read, its usage has crossed
    the budget, it waits for its member, or it has an outcome to act on. *)
Inductive Stage := Ready (budget_ tokens : Z) | Crossed | Waiting (mem : nat) | Returning (o : Outcome).

Record World := mkWorld { rec : Recorder; mgr : episodeManager; callers : gmap nat (string * Stage); applied : list (nat * sessionResult) }.

Definition set_member (mem : nat) (mb : member) (m : episodeManager) : episodeManager :=
  mkManager (trees m) (episodes m) (<[mem := mb]> (heap m)) (next m).

Definition set_fan (ep : nat) (e : episode) (l : list nat) (m : episodeManager) : episodeManager :=
  mkManager (trees m) (<[ep := mkEpisode (rootSessionID e) (members e) (pending e) (inFlight e) (dispatched e) (Some l)]> (episodes m)) (heap m) (next m).

Inductive estep : World -> World -> Prop :=
  | step_read i s base tokens w : callers w !! i = None -> s <> "" ->
      estep w (mkWorld (rec w) (mgr w) (<[i := (s, Ready (wrap64 (base + grantedDeltaFor s (rec w))) tokens)]> (callers w)) (applied w))
  | step_record i s b t w e crossed : callers w !! i = Some (s, Ready b t) -> Record_ s b t (enf (rec w)) = (e, crossed) ->
      estep w (mkWorld (mkRecorder e (grantedDelta (rec w)) (terminated (rec w))) (mgr w)
                 (if crossed then <[i := (s, Crossed)]> (callers w) else delete i (callers w)) (applied w))
  | step_refuse i s w : callers w !! i = Some (s, Crossed) -> estep w (mkWorld (rec w) (mgr w) (<[i := (s, Returning Terminal)]> (callers w)) (applied w))
  | step_join i s root w m mem : callers w !! i = Some (s, Crossed) -> join root s (mgr w) = (m, mem) ->
      estep w (mkWorld (rec w) m (<[i := (s, Waiting mem)]> (callers w)) (applied w))
  | step_hear i s mem mb res w r o : callers w !! i = Some (s, Waiting mem) -> heap (mgr w) !! mem = Some mb -> result mb = Some res ->
      applyInPathResolution s res (rec w) = (r, o) ->
      estep w (mkWorld r (set_member mem (mkMember (sessionID mb) None (resolved mb) (detached mb)) (mgr w))
                 (<[i := (s, Returning o)]> (callers w)) (applied w ++ [(mem, res)]))
  | step_late i s mem mb res w r o : callers w !! i = Some (s, Waiting mem) -> heap (mgr w) !! mem = Some mb -> (detach mb).2 = Some res ->
      applyInPathResolution s res (rec w) = (r, o) ->
      estep w (mkWorld r (mgr w) (<[i := (s, Returning o)]> (callers w)) (applied w ++ [(mem, res)]))
  | step_leave i s mem mb gone w : callers w !! i = Some (s, Waiting mem) -> heap (mgr w) !! mem = Some mb -> (detach mb).2 = None ->
      estep w (mkWorld (rec w) (set_member mem (detach mb).1 (mgr w)) (<[i := (s, Returning (if (gone : bool) then Terminal else Pending))]> (callers w)) (applied w))
  | step_settle i s o w : callers w !! i = Some (s, Returning o) -> estep w (mkWorld (settle s o (rec w)) (mgr w) (delete i (callers w)) (applied w))
  | step_run ep e w : episodes (mgr w) !! ep = Some e -> fan e = None -> estep w (mkWorld (rec w) (runEpisode ep e (mgr w)) (callers w) (applied w))
  | step_dispatch ep e mem s resp w : episodes (mgr w) !! ep = Some e -> fan e = None -> mem ∈ inFlight e -> members e !! s = Some mem ->
      estep w (mkWorld (rec w) (dispatchOne ep e mem s (result_of resp) (mgr w)) (callers w) (applied w))
  | step_fan ep e mem l mb w : episodes (mgr w) !! ep = Some e -> fan e = Some (mem :: l) -> heap (mgr w) !! mem = Some mb ->
      let res := default (mkResult false 0 false) (dispatched e !! sessionID mb) in let '(mb', gone) := resolve res mb in
      estep w (mkWorld (if gone then reclaim (sessionID mb) res (rec w) else rec w) (set_fan ep e l (set_member mem mb' (mgr w))) (callers w)
                 (if gone then applied w ++ [(mem, res)] else applied w)).

Definition initial : World := mkWorld (mkRecorder ∅ ∅ []) (mkManager ∅ ∅ ∅ 0) ∅ [].
Definition reachable : World -> Prop := rtc estep initial.
