(* ===== verification/EpisodeRuns.v ===== *)
(** * Every resolution is applied once ([leasecontrol/budgetextension.go],
      [session/sessionbudget])

    The invariant of the episodes and of the counters over all interleavings of
    proxied calls, deadlines, disconnects, extensions and fan-outs. *)

From S2P Require Import Prelude Episodes.

(** ** Episodes hold the unresolved members *)

Definition holds_member (e : episode) (mem : nat) : Prop := match fan e with None => exists s, members e !! s = Some mem | Some l => mem ∈ l end.

Definition placed (m : episodeManager) (ep mem : nat) : Prop := exists e, episodes m !! ep = Some e /\ holds_member e mem.

Record mgr_inv (m : episodeManager) : Prop := mkMgrInv {
  m_fresh_heap mem mb : heap m !! mem = Some mb -> mem < next m;
  m_fresh_ep ep e : episodes m !! ep = Some e -> ep < next m;
  m_placed ep mem : placed m ep mem -> exists mb, heap m !! mem = Some mb /\ resolved mb = None;
  m_session ep e s mem : episodes m !! ep = Some e -> fan e = None -> members e !! s = Some mem -> exists mb, heap m !! mem = Some mb /\ sessionID mb = s;
  m_unique ep ep' mem : placed m ep mem -> placed m ep' mem -> ep = ep';
  m_nodup ep e l : episodes m !! ep = Some e -> fan e = Some l -> NoDup l;
  m_channel mem mb res : heap m !! mem = Some mb -> result mb = Some res -> resolved mb = Some res }.

Lemma placed_insert m ep e mem ep' : placed (mkManager (trees m) (<[ep := e]> (episodes m)) (heap m) (next m)) ep' mem <->
  (ep' = ep /\ holds_member e mem) \/ (ep' <> ep /\ placed m ep' mem).
Proof.
  unfold placed. cbn. split.
  - intros (e' & He' & Hh). apply lookup_insert_Some in He' as [[<- <-]|[Hne He']]; [by left|right; split; [done|by exists e']].
  - intros [[-> Hh]|[Hne (e' & He' & Hh)]]; [exists e; by rewrite lookup_insert_eq|exists e'; by rewrite lookup_insert_ne].
Qed.

(** An episode changes and holds no more members than before. *)
Lemma mgr_inv_episode m ep e e' ts : mgr_inv m -> episodes m !! ep = Some e -> (forall mem, holds_member e' mem -> holds_member e mem) ->
  (fan e' = None -> fan e = None /\ members e' = members e) -> (forall l, fan e' = Some l -> NoDup l) ->
  mgr_inv (mkManager ts (<[ep := e']> (episodes m)) (heap m) (next m)).
Proof.
  intros Hm He Hsub Hopen Hnd.
  assert (forall ep' mem, placed (mkManager ts (<[ep := e']> (episodes m)) (heap m) (next m)) ep' mem -> placed m ep' mem) as Hp.
  { intros ep' mem Hpl. apply (placed_insert m ep e' mem ep') in Hpl as [[-> Hh]|[_ ?]]; [exists e; auto|done]. }
  split; cbn.
  - apply Hm.
  - intros x e0. rewrite lookup_insert_Some. intros [[<- _]|[_ ?]]; eapply (m_fresh_ep _ Hm); eauto.
  - intros x mem Hpl%Hp. by apply (m_placed _ Hm x).
  - intros x e0 s mem. rewrite lookup_insert_Some. intros [[<- <-]|[_ Hx]] Hf Hs; [destruct (Hopen Hf) as [Hf' E]; rewrite E in Hs|]; eapply (m_session _ Hm); eauto.
  - intros x x' mem Hx%Hp Hx'%Hp. by apply (m_unique _ Hm x x' mem).
  - intros x e0 l. rewrite lookup_insert_Some. intros [[<- <-]|[_ Hx]] Hf; [by apply Hnd|]. by eapply (m_nodup _ Hm).
  - apply Hm.
Qed.

(** A member changes in its channel or its detachment only. *)
Lemma mgr_inv_member m mem mb mb' : mgr_inv m -> heap m !! mem = Some mb -> sessionID mb' = sessionID mb -> resolved mb' = resolved mb ->
  (result mb' = None \/ result mb' = result mb) -> mgr_inv (set_member mem mb' m).
Proof.
  intros Hm Hmem Hs Hr Hc. split; cbn; try apply Hm.
  - intros x b. rewrite lookup_insert_Some. intros [[<- _]|[_ ?]]; eapply (m_fresh_heap _ Hm); eauto.
  - intros ep x Hpl. destruct (m_placed _ Hm ep x Hpl) as (b & Hb & Hres). destruct (decide (mem = x)) as [<-|].
    + exists mb'. rewrite lookup_insert_eq. split; [done|]. rewrite Hr. rewrite Hmem in Hb. by simplify_eq.
    + exists b. by rewrite lookup_insert_ne.
  - intros ep e s x He Hf Hx. destruct (m_session _ Hm ep e s x He Hf Hx) as (b & Hb & Hbs). destruct (decide (mem = x)) as [<-|].
    + exists mb'. rewrite lookup_insert_eq. split; [done|]. rewrite Hs. rewrite Hmem in Hb. by simplify_eq.
    + exists b. by rewrite lookup_insert_ne.
  - intros x b res. rewrite lookup_insert_Some. intros [[<- <-]|[_ Hx]] Hres; [|by apply (m_channel _ Hm x)].
    rewrite Hr. destruct Hc as [Hc|Hc]; [congruence|]. apply (m_channel _ Hm mem mb); [done|congruence].
Qed.

Lemma map_values_NoDup (ms : gmap string nat) : (forall s s' x, ms !! s = Some x -> ms !! s' = Some x -> s = s') -> NoDup (map_to_list ms).*2.
Proof.
  intros Hinj. apply NoDup_fmap_2_strong; [|apply NoDup_map_to_list]. intros [s x] [s' x'] H1%elem_of_map_to_list H2%elem_of_map_to_list Heq.
  cbn in *. subst x'. f_equal. by eapply Hinj.
Qed.

Lemma run_inv m ep e : mgr_inv m -> episodes m !! ep = Some e -> fan e = None -> mgr_inv (runEpisode ep e m) /\ heap (runEpisode ep e m) = heap m.
Proof.
  intros Hm He Hf. unfold runEpisode. destruct (_ && _).
  - split; [|done]. eapply mgr_inv_episode; [done|exact He| |done|].
    + intros mem. unfold holds_member. cbn. rewrite Hf, list_elem_of_fmap. intros ([s x] & -> & Hx%elem_of_map_to_list). by exists s.
    + cbn. intros l [= <-]. apply map_values_NoDup. intros s s' x Hs Hs'.
      destruct (m_session _ Hm ep e s x He Hf Hs) as (b & Hb & <-). destruct (m_session _ Hm ep e s' x He Hf Hs') as (b' & Hb' & <-). congruence.
  - split; [|done]. eapply mgr_inv_episode; [done|exact He| |done|done]. intros mem. unfold holds_member. cbn. by rewrite Hf.
Qed.

Lemma dispatch_inv m ep e mem s res : mgr_inv m -> episodes m !! ep = Some e -> mgr_inv (dispatchOne ep e mem s res m).
Proof. intros Hm He. unfold dispatchOne. eapply mgr_inv_episode; [done|exact He|done|done|]. cbn. intros l Hl. by eapply (m_nodup _ Hm). Qed.

(** A session with no unresolved member gets a new one. *)
Lemma enroll_fresh m ep e s m' mem : mgr_inv m -> episodes m !! ep = Some e -> fan e = None ->
  (forall x mb, heap m !! x = Some mb -> sessionID mb = s -> resolved mb <> None) -> enroll ep e s m = (m', mem) ->
  mgr_inv m' /\ heap m !! mem = None /\ heap m' = <[mem := mkMember s None None false]> (heap m).
Proof.
  intros Hm He Hf Hno. unfold enroll. destruct (members e !! s) as [x|] eqn:Ex.
  { exfalso. destruct (m_session _ Hm ep e s x He Hf Ex) as (mb & Hmb & Hs). destruct (m_placed _ Hm ep x) as (mb' & Hmb' & Hr).
    { exists e. split; [done|]. unfold holds_member. rewrite Hf. by exists s. }
    rewrite Hmb in Hmb'. injection Hmb' as <-. by eapply Hno. }
  intros [= <- <-]. set (n := next m).
  assert (heap m !! n = None) as Hn. { destruct (heap m !! n) as [b|] eqn:E; [|done]. apply (m_fresh_heap _ Hm) in E. lia. }
  assert (forall x, (exists s', <[s := n]> (members e) !! s' = Some x) <-> x = n \/ holds_member e x) as Hmem.
  { intros x. unfold holds_member. rewrite Hf. split.
    - intros (s' & H). apply lookup_insert_Some in H as [[_ <-]|[_ ?]]; [by left|right; by exists s'].
    - intros [->|(s' & Hs')]; [exists s; by rewrite lookup_insert_eq|]. exists s'. rewrite lookup_insert_ne; [done|]. intros <-. congruence. }
  set (e' := mkEpisode _ _ _ _ _ None). set (m' := mkManager _ _ _ _).
  assert (forall ep' x, placed m' ep' x -> (ep' = ep /\ x = n) \/ placed m ep' x) as Hp.
  { intros ep' x Hpl. apply (placed_insert m ep e' x ep') in Hpl as [[-> Hh]|[_ ?]]; [|by right]. unfold holds_member in Hh. cbn in Hh. apply Hmem in Hh as [->|?]; [by left|right; by exists e]. }
  assert (forall ep' x, placed m ep' x -> x <> n) as Hold. { intros ep' x Hpl ->. destruct (m_placed _ Hm ep' n Hpl) as (b & Hb & _). congruence. }
  split; [|done]. split; cbn.
  - intros x b. rewrite lookup_insert_Some. intros [[<- _]|[_ Hx]]; [lia|]. pose proof (m_fresh_heap _ Hm x b Hx). lia.
  - intros x e0. rewrite lookup_insert_Some. intros [[<- _]|[_ Hx]]; [pose proof (m_fresh_ep _ Hm ep e He)|pose proof (m_fresh_ep _ Hm x e0 Hx)]; lia.
  - intros ep' x [[-> ->]|Hpl]%Hp; [rewrite lookup_insert_eq; by eexists|]. destruct (m_placed _ Hm ep' x Hpl) as (b & ? & ?). exists b. by rewrite lookup_insert_ne by (symmetry; by eapply Hold).
  - intros x e0 s' y. rewrite lookup_insert_Some. intros Hx Hf0 Hy.
    assert (y = n /\ s' = s \/ exists ep0 e1, episodes m !! ep0 = Some e1 /\ fan e1 = None /\ members e1 !! s' = Some y) as [[-> ->]|(ep0 & e1 & He1 & Hf1 & Hy1)].
    { destruct Hx as [[<- <-]|[_ Hx]]; [|right; by exists x, e0]. cbn in Hy. apply lookup_insert_Some in Hy as [[<- <-]|[_ Hy]]; [by left|right; by exists ep, e]. }
    + rewrite lookup_insert_eq. by eexists.
    + destruct (m_session _ Hm ep0 e1 s' y He1 Hf1 Hy1) as (b & ? & ?). exists b. rewrite lookup_insert_ne; [done|]. intros <-. congruence.
  - intros x x' y [[-> ->]|Hx]%Hp [[-> Hy]|Hx']%Hp; [done|by apply Hold in Hx'|by apply Hold in Hx|by apply (m_unique _ Hm x x' y)].
  - intros x e0 l. rewrite lookup_insert_Some. intros [[<- <-]|[_ Hx]]; [done|]. by eapply (m_nodup _ Hm).
  - intros x b res. rewrite lookup_insert_Some. intros [[<- <-]|[_ Hx]]; [done|]. by apply (m_channel _ Hm x).
Qed.

(** A fresh episode without members. *)
Lemma mgr_inv_fresh m root : mgr_inv m -> mgr_inv (mkManager (<[root := next m]> (trees m)) (<[next m := mkEpisode root ∅ [] [] ∅ None]> (episodes m)) (heap m) (S (next m))).
Proof.
  intros Hm. set (m' := mkManager _ _ _ _).
  assert (forall ep x, placed m' ep x -> placed m ep x) as Hp.
  { intros ep x Hpl. apply (placed_insert m (next m) _ x ep) in Hpl as [[_ (s & Hs)]|[_ ?]]; [cbn in Hs; by rewrite lookup_empty in Hs|done]. }
  split; cbn.
  - intros x b Hx. pose proof (m_fresh_heap _ Hm x b Hx). lia.
  - intros x e. rewrite lookup_insert_Some. intros [[<- _]|[_ Hx]]; [lia|]. pose proof (m_fresh_ep _ Hm x e Hx). lia.
  - intros ep x Hpl%Hp. by apply (m_placed _ Hm ep).
  - intros x e s y. rewrite lookup_insert_Some. intros [[<- <-]|[_ Hx]] Hf Hy; [cbn in Hy; by rewrite lookup_empty in Hy|]. by eapply (m_session _ Hm).
  - intros x x' y Hx%Hp Hx'%Hp. by apply (m_unique _ Hm x x' y).
  - intros x e l. rewrite lookup_insert_Some. intros [[<- <-]|[_ Hx]]; [done|]. by eapply (m_nodup _ Hm).
  - apply Hm.
Qed.

Lemma join_fresh m root s m' mem : mgr_inv m -> (forall x mb, heap m !! x = Some mb -> sessionID mb = s -> resolved mb <> None) -> join root s m = (m', mem) ->
  mgr_inv m' /\ heap m !! mem = None /\ heap m' = <[mem := mkMember s None None false]> (heap m).
Proof.
  intros Hm Hno. unfold join. set (o := match trees m !! root with Some ep => _ | None => None end).
  destruct o as [[ep e]|] eqn:Eo.
  - assert (episodes m !! ep = Some e /\ fan e = None) as [He Hf].
    { subst o. destruct (trees m !! root) as [ep0|]; [|done]. destruct (episodes m !! ep0) as [e0|] eqn:E; [|done]. destruct (fan e0) eqn:Ef; [done|]. by injection Eo as -> ->. }
    by apply enroll_fresh.
  - intros He. refine (enroll_fresh _ (next m) (mkEpisode root ∅ [] [] ∅ None) s m' mem (mgr_inv_fresh m root Hm) _ eq_refl Hno He). cbn. by rewrite lookup_insert_eq.
Qed.

(** The fan-out resolves the next member of a closed episode. *)
Lemma fan_inv m ep e mem l mb res : mgr_inv m -> episodes m !! ep = Some e -> fan e = Some (mem :: l) -> heap m !! mem = Some mb ->
  resolved mb = None /\ mgr_inv (set_fan ep e l (set_member mem (resolve res mb).1 m)).
Proof.
  intros Hm He Hf Hmem. pose proof (m_nodup _ Hm ep e _ He Hf) as [Hnin Hnd]%NoDup_cons.
  assert (placed m ep mem) as Hpm by (exists e; split; [done|]; unfold holds_member; rewrite Hf; by left).
  assert (resolved mb = None) as Hres. { destruct (m_placed _ Hm ep mem Hpm) as (b & Hb & Hr). rewrite Hmem in Hb. by injection Hb as <-. }
  split; [done|]. set (m' := set_fan _ _ _ _).
  assert (forall ep' x, placed m' ep' x -> placed m ep' x /\ x <> mem) as Hp.
  { intros ep' x Hpl. apply (placed_insert m ep _ x ep') in Hpl as [[-> Hh]|[Hne Hpl]].
    - unfold holds_member in Hh. cbn in Hh. split; [exists e; split; [done|]; unfold holds_member; rewrite Hf; by right|by intros ->].
    - split; [done|]. intros ->. by apply Hne, (m_unique _ Hm ep' ep mem). }
  split; cbn.
  - intros x b. rewrite lookup_insert_Some. intros [[<- _]|[_ ?]]; eapply (m_fresh_heap _ Hm); eauto.
  - intros x e0. rewrite lookup_insert_Some. intros [[<- _]|[_ ?]]; eapply (m_fresh_ep _ Hm); eauto.
  - intros ep' x [Hpl Hne]%Hp. rewrite lookup_insert_ne by done. by apply (m_placed _ Hm ep').
  - intros x e0 s y. rewrite lookup_insert_Some. intros [[<- <-]|[_ Hx]] Hf0 Hy; [done|].
    destruct (m_session _ Hm x e0 s y Hx Hf0 Hy) as (b & Hb & Hs). destruct (decide (mem = y)) as [<-|]; [|exists b; by rewrite lookup_insert_ne].
    rewrite lookup_insert_eq. eexists. split; [done|]. cbn. rewrite Hmem in Hb. by injection Hb as <-.
  - intros x x' y [Hx _]%Hp [Hx' _]%Hp. by apply (m_unique _ Hm x x' y).
  - intros x e0 l0. rewrite lookup_insert_Some. intros [[<- <-]|[_ Hx]] Hf0; [by injection Hf0 as <-|]. by eapply (m_nodup _ Hm).
  - intros x b r. rewrite lookup_insert_Some. intros [[<- <-]|[_ Hx]]; [|by apply (m_channel _ Hm x)]. cbn.
    destruct (result mb) as [r0|] eqn:E; [|done]. pose proof (m_channel _ Hm mem mb r0 Hmem E). congruence.
Qed.

(** ** Counters *)

Definition ex (e : Enforcer) (s : string) : bool := match e !! s with Some c => exhausted c | None => false end.

(** A session that is being terminated is not admitted. *)
Definition deny_ok (e : Enforcer) : Prop := forall s c, e !! s = Some c -> terminating c = true -> deny c = true.

Lemma deny_insert e s c : deny_ok e -> (terminating c = true -> deny c = true) -> deny_ok (<[s := c]> e).
Proof. intros He Hc s' c'. rewrite lookup_insert_Some. intros [[_ <-]|[_ ?]]; [done|by eapply He]. Qed.

Lemma ex_insert e s c s' : ex (<[s := c]> e) s' = if decide (s = s') then exhausted c else ex e s'.
Proof. unfold ex. destruct (decide (s = s')) as [<-|]; [by rewrite lookup_insert_eq|by rewrite lookup_insert_ne]. Qed.

Lemma record_ok s b t e e' crossed : deny_ok e -> Record_ s b t e = (e', crossed) ->
  deny_ok e' /\ (forall s', ex e s' = true -> ex e' s' = true) /\ (crossed = true -> ex e s = false /\ ex e' s = true).
Proof.
  intros He. unfold Record_. destruct (is_empty s); [by intros [= <- <-]|]. set (c := default _ (e !! s)). set (cr := negb (exhausted c) && _ && _). intros [= <- <-].
  assert (ex e s = exhausted c) as Hex by (unfold ex, c; by destruct (e !! s)).
  split; [|split].
  - apply deny_insert; [done|]. cbn. unfold c. destruct (e !! s) as [c0|] eqn:E; [by apply (He s)|done].
  - intros s' Hs'. rewrite ex_insert. destruct (decide (s = s')) as [<-|]; [cbn; by rewrite <- Hex, Hs'|done].
  - intros Hcr. rewrite Hex, ex_insert, decide_True by done. cbn. rewrite Hcr, orb_true_r. split; [|done]. unfold cr in Hcr.
    apply andb_true_iff in Hcr as [Hcr _]. apply andb_true_iff in Hcr as [Hcr _]. by apply negb_true_iff in Hcr.
Qed.

Lemma setDeny_ok s e : deny_ok e -> deny_ok (setDeny s e) /\ forall s', ex (setDeny s e) s' = ex e s'.
Proof.
  intros He. unfold setDeny. destruct (e !! s) as [c|] eqn:E; [|done]. split; [by apply deny_insert|]. intros s'. rewrite ex_insert. destruct (decide (s = s')) as [<-|]; [|done]. unfold ex. by rewrite E.
Qed.

Lemma setTerminating_ok s e : deny_ok e -> deny_ok (setTerminating s e) /\ forall s', ex (setTerminating s e) s' = ex e s'.
Proof.
  intros He. unfold setTerminating. destruct (e !! s) as [c|] eqn:E; [|done]. split; [by apply deny_insert|]. intros s'. rewrite ex_insert. destruct (decide (s = s')) as [<-|]; [|done]. unfold ex. by rewrite E.
Qed.

Lemma RaiseBudget_ok s d e : deny_ok e -> deny_ok (RaiseBudget s d e) /\ forall s', s' <> s -> ex (RaiseBudget s d e) s' = ex e s'.
Proof.
  intros He. unfold RaiseBudget. destruct (is_empty s); [done|]. destruct (e !! s) as [c|] eqn:E; [|done]. destruct (terminating c) eqn:Et; [done|].
  split; [by apply deny_insert|]. intros s' Hne. rewrite ex_insert. by rewrite decide_False.
Qed.

(** Whoever applies a resolution touches the counter of that session only. *)
Lemma in_path_ok s res r r' o : deny_ok (enf r) -> applyInPathResolution s res r = (r', o) -> deny_ok (enf r') /\ forall s', s' <> s -> ex (enf r') s' = ex (enf r) s'.
Proof.
  intros He. unfold applyInPathResolution, raise. destruct (failed res); [by intros [= <- _]|]. destruct (granted res); cbn [negb]; [|by intros [= <- _]].
  destruct (is_empty s); intros [= <- _]; [done|]. by apply RaiseBudget_ok.
Qed.

Lemma reclaim_ok s res r : deny_ok (enf r) -> deny_ok (enf (reclaim s res r)) /\ forall s', s' <> s -> ex (enf (reclaim s res r)) s' = ex (enf r) s'.
Proof.
  intros He. unfold reclaim, raise, terminate. destruct (failed res), (granted res), (is_empty s); cbn; try done; (split; [first [by apply RaiseBudget_ok|by apply setTerminating_ok]|]);
    intros s' Hne; first [by apply RaiseBudget_ok|by apply setTerminating_ok].
Qed.

Lemma settle_ok s o r : deny_ok (enf r) -> deny_ok (enf (settle s o r)) /\ forall s', ex (enf (settle s o r)) s' = ex (enf r) s'.
Proof. intros He. destruct o; cbn; [done|by apply setDeny_ok|by apply setTerminating_ok]. Qed.

(** ** The invariant *)

Definition is_applied (w : World) (mem : nat) : Prop := mem ∈ (applied w).*1.

(** An extension that is due for a session: a call that is about to join, or a
    member whose resolution is not applied. *)
Definition claim (w : World) (s : string) (cl : nat + nat) : Prop :=
  match cl with
  | inl i => callers w !! i = Some (s, Crossed)
  | inr mem => (exists mb, heap (mgr w) !! mem = Some mb /\ sessionID mb = s) /\ ~ is_applied w mem
  end.

Record ep_inv (w : World) : Prop := mkEpInv {
  e_mgr : mgr_inv (mgr w);
  e_once : NoDup (applied w).*1;
  e_applied mem res : (mem, res) ∈ applied w -> exists mb, heap (mgr w) !! mem = Some mb /\ resolved mb = Some res;
  e_waiting i s mem : callers w !! i = Some (s, Waiting mem) -> exists mb, heap (mgr w) !! mem = Some mb /\ sessionID mb = s /\ detached mb = false /\ ~ is_applied w mem;
  e_one i j s s' mem : callers w !! i = Some (s, Waiting mem) -> callers w !! j = Some (s', Waiting mem) -> i = j;
  e_left mem mb : heap (mgr w) !! mem = Some mb -> ~ is_applied w mem ->
    if detached mb then resolved mb = None else exists i, callers w !! i = Some (sessionID mb, Waiting mem);
  e_claim s cl : claim w s cl -> ex (enf (rec w)) s = true;
  e_claims s cl cl' : claim w s cl -> claim w s cl' -> cl = cl';
  e_deny : deny_ok (enf (rec w)) }.

Lemma ep_inv_initial : ep_inv initial.
Proof.
  split; cbn; try (intros *; rewrite lookup_empty; done).
  - split; cbn; try (intros *; rewrite lookup_empty; done); [intros ep mem (e & He & _); cbn in He; by rewrite lookup_empty in He|intros ep ep' mem (e & He & _); cbn in He; by rewrite lookup_empty in He].
  - constructor.
  - intros mem res H. by apply not_elem_of_nil in H.
  - intros s [i|mem]; cbn; [by rewrite lookup_empty|]. intros [(mb & Hmb & _) _]. by rewrite lookup_empty in Hmb.
  - intros s [i|mem] cl'; cbn; [by rewrite lookup_empty|]. intros [(mb & Hmb & _) _]. by rewrite lookup_empty in Hmb.
  - intros s c. by rewrite lookup_empty.
Qed.

(** The calls that wait stay as they are, and no call is newly about to join. *)
Lemma ep_inv_frame w r cs : ep_inv w -> (forall j s mem, cs !! j = Some (s, Waiting mem) <-> callers w !! j = Some (s, Waiting mem)) ->
  (forall j s, cs !! j = Some (s, Crossed) -> callers w !! j = Some (s, Crossed)) ->
  (forall s, ex (enf (rec w)) s = true -> ex (enf r) s = true) -> deny_ok (enf r) -> ep_inv (mkWorld r (mgr w) cs (applied w)).
Proof.
  intros Hw Hcs Hcr Hex Hd.
  assert (forall s cl, claim (mkWorld r (mgr w) cs (applied w)) s cl -> claim w s cl) as Hcl by (intros s [i|mem]; [apply Hcr|done]).
  split; cbn; try apply Hw; try done.
  - intros i s mem. rewrite Hcs by done. apply (e_waiting _ Hw).
  - intros i j s s' mem. rewrite !Hcs by done. apply (e_one _ Hw).
  - intros mem mb Hmem Hna. pose proof (e_left _ Hw mem mb Hmem Hna) as Hl. destruct (detached mb); [done|]. destruct Hl as [i Hi]. exists i. by apply Hcs.
  - intros s cl Hc%Hcl. by apply Hex, (e_claim _ Hw s cl).
  - intros s cl cl' Hc%Hcl Hc'%Hcl. by eapply (e_claims _ Hw).
Qed.

(** The episodes change and the members do not. *)
Lemma inv_mgr w m : ep_inv w -> mgr_inv m -> heap m = heap (mgr w) -> ep_inv (mkWorld (rec w) m (callers w) (applied w)).
Proof.
  intros Hw Hm Hh. split; cbn; try done; rewrite ?Hh; try apply Hw.
  - intros s cl Hc. apply (e_claim _ Hw s cl). destruct cl; [done|]. cbn in *. by rewrite Hh in Hc.
  - intros s cl cl' Hc Hc'. apply (e_claims _ Hw s); [destruct cl|destruct cl']; try done; cbn in *; by rewrite Hh in *.
Qed.

(** A usage crosses the budget: the session had no extension due. *)
Lemma inv_cross w i s b t e : ep_inv w -> callers w !! i = Some (s, Ready b t) -> Record_ s b t (enf (rec w)) = (e, true) ->
  ep_inv (mkWorld (mkRecorder e (grantedDelta (rec w)) (terminated (rec w))) (mgr w) (<[i := (s, Crossed)]> (callers w)) (applied w)).
Proof.
  intros Hw Hi Hr. destruct (record_ok s b t _ _ _ (e_deny _ Hw) Hr) as (Hd & Hex & [Hno Hnew]%(fun H => H eq_refl)). set (w' := mkWorld _ _ _ _).
  assert (forall s' cl, claim w' s' cl -> claim w s' cl \/ (s' = s /\ cl = inl i)) as Hcl.
  { intros s' [j|mem]; [|by left]. cbn. rewrite lookup_insert_Some. intros [[<- [= ->]]|[_ ?]]; [by right|by left]. }
  assert (forall cl, ~ claim w s cl) as Hnone by (intros cl Hc%(e_claim _ Hw); congruence).
  assert (forall j s' mem, callers w' !! j = Some (s', Waiting mem) <-> callers w !! j = Some (s', Waiting mem)) as Hcs.
  { intros j s' mem. cbn. destruct (decide (i = j)) as [<-|]; [rewrite lookup_insert_eq, Hi; naive_solver|by rewrite lookup_insert_ne]. }
  split; try apply Hw; try done.
  - intros j s' mem Hj%Hcs. by apply (e_waiting _ Hw j).
  - intros j j' s' s'' mem Hj%Hcs Hj'%Hcs. by eapply (e_one _ Hw).
  - intros mem mb Hmem Hna. pose proof (e_left _ Hw mem mb Hmem Hna) as Hl. destruct (detached mb); [done|]. destruct Hl as [j Hj]. exists j. by apply Hcs.
  - intros s' cl [Hc|[-> ->]]%Hcl; [by apply Hex, (e_claim _ Hw s' cl)|done].
  - intros s' cl cl' [Hc|[-> ->]]%Hcl [Hc'|[E ->]]%Hcl; [by eapply (e_claims _ Hw)|subst; by apply Hnone in Hc|by apply Hnone in Hc'|done].
Qed.

(** A member that is not resolved is not applied. *)
Lemma unresolved_unapplied w mem mb : ep_inv w -> heap (mgr w) !! mem = Some mb -> resolved mb = None -> ~ is_applied w mem.
Proof.
  intros Hw Hmem Hr ((m & res) & -> & Hin)%list_elem_of_fmap. cbn in *. destruct (e_applied _ Hw m res Hin) as (mb' & Hmb' & Hres). rewrite Hmem in Hmb'. injection Hmb' as <-. congruence.
Qed.

Lemma inv_join w i s root m mem : ep_inv w -> callers w !! i = Some (s, Crossed) -> join root s (mgr w) = (m, mem) ->
  ep_inv (mkWorld (rec w) m (<[i := (s, Waiting mem)]> (callers w)) (applied w)).
Proof.
  intros Hw Hi Hj. assert (claim w s (inl i)) as Hci by done.
  destruct (join_fresh (mgr w) root s m mem (e_mgr _ Hw)) as (Hm & Hnone & Hheap); [|done|].
  { intros x mb Hx Hs Hr. assert (claim w s (inr x)) as Hcx by (split; [by exists mb|by eapply unresolved_unapplied]). by pose proof (e_claims _ Hw s _ _ Hci Hcx). }
  assert (~ is_applied w mem) as Hna.
  { intros ((x & res) & -> & Hin)%list_elem_of_fmap. destruct (e_applied _ Hw x res Hin) as (mb & Hmb & _). cbn in Hnone. congruence. }
  set (w' := mkWorld _ _ _ _).
  assert (forall s' cl, claim w' s' cl -> (claim w s' cl /\ cl <> inl i) \/ (s' = s /\ cl = inr mem)) as Hcl.
  { intros s' [j|x]; cbn.
    - rewrite lookup_insert_Some. intros [[_ [=]]|[Hne ?]]. left. split; [done|by intros [= ->]].
    - rewrite Hheap. intros [(mb & Hmb & Hs) Hnax]. apply lookup_insert_Some in Hmb as [[<- <-]|[Hne Hmb]]; [by right|left; split; [|done]]. split; [by exists mb|done]. }
  split; try done; try apply Hw.
  - intros x res Hx. destruct (e_applied _ Hw x res Hx) as (mb & Hmb & Hr). exists mb. cbn. rewrite Hheap, lookup_insert_ne; [done|]. intros <-. congruence.
  - intros j s' x. cbn. rewrite lookup_insert_Some, Hheap. intros [[<- [= <- <-]]|[Hne Hx]]; [rewrite lookup_insert_eq; by eexists|].
    destruct (e_waiting _ Hw j s' x Hx) as (mb & Hmb & ? & ? & ?). exists mb. rewrite lookup_insert_ne; [done|]. intros <-. congruence.
  - intros j j' s' s'' x. cbn. rewrite !lookup_insert_Some. intros [[<- E1]|[_ Hx]] [[<- E2]|[_ Hx']]; [done| | |by eapply (e_one _ Hw)].
    + injection E1 as <- <-. destruct (e_waiting _ Hw _ _ _ Hx') as (mb & Hmb & _). congruence.
    + injection E2 as <- <-. destruct (e_waiting _ Hw _ _ _ Hx) as (mb & Hmb & _). congruence.
  - intros x mb. cbn. rewrite Hheap, lookup_insert_Some. intros [[<- <-]|[_ Hx]] Hnx; [exists i; by rewrite lookup_insert_eq|].
    pose proof (e_left _ Hw x mb Hx Hnx) as Hl. destruct (detached mb); [done|]. destruct Hl as [j Hj']. exists j. rewrite lookup_insert_ne; [done|]. intros <-. congruence.
  - intros s' cl [[Hc _]|[-> ->]]%Hcl; [by apply (e_claim _ Hw s' cl)|by apply (e_claim _ Hw s (inl i))].
  - intros s' cl cl' [[Hc Hne]|[-> ->]]%Hcl [[Hc' Hne']|[E ->]]%Hcl; [by eapply (e_claims _ Hw)|subst s'|..|done].
    + by pose proof (e_claims _ Hw s _ _ Hc Hci).
    + by pose proof (e_claims _ Hw s _ _ Hc' Hci).
Qed.

(** The resolution of a member is applied, and nobody waits for it any more. *)
Lemma inv_apply w mem mb mb' res m r cs : ep_inv w -> heap (mgr w) !! mem = Some mb -> ~ is_applied w mem ->
  mgr_inv m -> heap m = <[mem := mb']> (heap (mgr w)) -> resolved mb' = Some res ->
  (forall j s x, cs !! j = Some (s, Waiting x) <-> callers w !! j = Some (s, Waiting x) /\ x <> mem) ->
  (forall j s, cs !! j = Some (s, Crossed) -> callers w !! j = Some (s, Crossed)) ->
  deny_ok (enf r) -> (forall s, s <> sessionID mb -> ex (enf r) s = ex (enf (rec w)) s) ->
  ep_inv (mkWorld r m cs (applied w ++ [(mem, res)])).
Proof.
  intros Hw Hmem Hna Hm Hheap Hres Hcs Hcr Hd Hex. set (w' := mkWorld _ _ _ _).
  assert (forall x, is_applied w' x <-> is_applied w x \/ x = mem) as Hap. { intros x. unfold is_applied. cbn. rewrite fmap_app, elem_of_app. cbn. by rewrite list_elem_of_singleton. }
  assert (claim w (sessionID mb) (inr mem)) as Hown by (split; [by exists mb|done]).
  assert (forall s cl, claim w' s cl -> claim w s cl /\ cl <> inr mem) as Hcl.
  { intros s [j|x]; cbn; [intros ?%Hcr; by split|]. rewrite Hheap, Hap. intros [(b & Hb & Hs) Hnx]. apply lookup_insert_Some in Hb as [[<- _]|[Hne Hb]]; [tauto|].
    split; [split; [by exists b|tauto]|by intros [= ->]]. }
  assert (forall s cl, claim w' s cl -> s <> sessionID mb) as Hother by (intros s cl [Hc Hne]%Hcl ->; by apply Hne, (e_claims _ Hw (sessionID mb))).
  split; try done.
  - cbn. rewrite fmap_app. apply NoDup_app. split; [apply (e_once _ Hw)|]. split; [|apply NoDup_singleton]. intros x Hx ->%list_elem_of_singleton. by apply Hna.
  - intros x rs. cbn. rewrite elem_of_app, list_elem_of_singleton, Hheap. intros [Hx|[= -> ->]]; [|rewrite lookup_insert_eq; by eexists].
    destruct (e_applied _ Hw x rs Hx) as (b & Hb & Hr). exists b. rewrite lookup_insert_ne; [done|]. intros <-. apply Hna, list_elem_of_fmap. by exists (mem, rs).
  - intros j s x. cbn. rewrite Hcs, Hheap. intros [Hj Hne]. destruct (e_waiting _ Hw j s x Hj) as (b & Hb & ? & ? & ?). exists b. rewrite Hap, lookup_insert_ne by done. tauto.
  - intros j j' s s' x. cbn. rewrite !Hcs. intros [Hj _] [Hj' _]. by eapply (e_one _ Hw).
  - intros x b. cbn. rewrite Hheap, Hap, lookup_insert_Some. intros [[<- _]|[Hne Hx]] Hnx; [tauto|].
    assert (~ is_applied w x) as Hnx' by tauto. pose proof (e_left _ Hw x b Hx Hnx') as Hl. destruct (detached b); [done|]. destruct Hl as [j Hj]. exists j. rewrite Hcs. by split.
  - intros s cl Hc. cbn. rewrite Hex by (by eapply Hother). apply Hcl in Hc as [Hc _]. by apply (e_claim _ Hw s cl).
  - intros s cl cl' [Hc _]%Hcl [Hc' _]%Hcl. by eapply (e_claims _ Hw).
Qed.

(** The call that waits for a member goes on. *)
Lemma waiting_gone w i s mem o : ep_inv w -> callers w !! i = Some (s, Waiting mem) ->
  (forall j s' x, <[i := (s, Returning o)]> (callers w) !! j = Some (s', Waiting x) <-> callers w !! j = Some (s', Waiting x) /\ x <> mem) /\
  (forall j s', <[i := (s, Returning o)]> (callers w) !! j = Some (s', Crossed) -> callers w !! j = Some (s', Crossed)).
Proof.
  intros Hw Hi. split.
  - intros j s' x. destruct (decide (i = j)) as [<-|Hne]; [rewrite lookup_insert_eq, Hi; split; [done|]; by intros [[= -> ->] ?]|].
    rewrite lookup_insert_ne by done. split; [|tauto]. intros Hj. split; [done|]. intros ->. by apply Hne, (e_one _ Hw i j s s' mem).
  - intros j s'. rewrite lookup_insert_Some. by intros [[_ [=]]|[_ ?]].
Qed.

(** A member changes without being applied. *)
Lemma inv_member w mem mb mb' m cs : ep_inv w -> heap (mgr w) !! mem = Some mb -> ~ is_applied w mem ->
  mgr_inv m -> heap m = <[mem := mb']> (heap (mgr w)) -> sessionID mb' = sessionID mb ->
  (forall j s x, cs !! j = Some (s, Waiting x) <-> callers w !! j = Some (s, Waiting x) /\ (x = mem -> detached mb' = false)) ->
  (forall j s, cs !! j = Some (s, Crossed) -> callers w !! j = Some (s, Crossed)) ->
  (if detached mb' then resolved mb' = None else detached mb = false) ->
  ep_inv (mkWorld (rec w) m cs (applied w)).
Proof.
  intros Hw Hmem Hna Hm Hheap Hs Hcs Hcr Hst. set (w' := mkWorld _ _ _ _).
  assert (forall s cl, claim w' s cl -> claim w s cl) as Hcl.
  { intros s [j|x]; cbn; [apply Hcr|]. rewrite Hheap. intros [(b & Hb & Hbs) Hnx]. split; [|done]. apply lookup_insert_Some in Hb as [[<- <-]|[_ Hb]]; [exists mb; by rewrite <- Hs|by exists b]. }
  split; try done; try apply Hw.
  - intros x rs Hx. cbn. rewrite Hheap. destruct (e_applied _ Hw x rs Hx) as (b & Hb & Hr). exists b. rewrite lookup_insert_ne; [done|]. intros <-. apply Hna, list_elem_of_fmap. by exists (mem, rs).
  - intros j s x. cbn. rewrite Hcs, Hheap. intros [Hj Hne]. destruct (e_waiting _ Hw j s x Hj) as (b & Hb & Hbs & Hbd & Hnx). destruct (decide (mem = x)) as [<-|].
    + exists mb'. rewrite lookup_insert_eq, Hs. rewrite Hmem in Hb. injection Hb as <-. by auto.
    + exists b. by rewrite lookup_insert_ne.
  - intros j j' s s' x. cbn. rewrite !Hcs. intros [Hj _] [Hj' _]. by eapply (e_one _ Hw).
  - intros x b. cbn. rewrite Hheap, lookup_insert_Some. intros [[<- <-]|[Hne Hx]] Hnx.
    + destruct (detached mb') eqn:Ed; [done|]. pose proof (e_left _ Hw mem mb Hmem Hna) as Hl. rewrite Hst in Hl. destruct Hl as [j Hj]. exists j. rewrite Hcs, Hs. by split.
    + pose proof (e_left _ Hw x b Hx Hnx) as Hl. destruct (detached b); [done|]. destruct Hl as [j Hj]. exists j. rewrite Hcs. split; [done|]. by intros ->.
  - intros s cl Hc%Hcl. by apply (e_claim _ Hw s cl).
  - intros s cl cl' Hc%Hcl Hc'%Hcl. by eapply (e_claims _ Hw).
Qed.

Lemma inv_hear w i s mem mb res r o m mb' : ep_inv w -> callers w !! i = Some (s, Waiting mem) -> heap (mgr w) !! mem = Some mb ->
  resolved mb = Some res -> resolved mb' = Some res -> mgr_inv m -> heap m = <[mem := mb']> (heap (mgr w)) -> applyInPathResolution s res (rec w) = (r, o) ->
  ep_inv (mkWorld r m (<[i := (s, Returning o)]> (callers w)) (applied w ++ [(mem, res)])).
Proof.
  intros Hw Hi Hmem Hres Hres' Hm Hheap Hap. destruct (e_waiting _ Hw i s mem Hi) as (b & Hb & Hbs & _ & Hna). rewrite Hmem in Hb. injection Hb as <-.
  destruct (waiting_gone w i s mem o Hw Hi) as [Hcs Hcr]. destruct (in_path_ok s res (rec w) r o (e_deny _ Hw) Hap) as [Hd Hex].
  eapply inv_apply; [done|exact Hmem|done|done|exact Hheap|done|done|done|done|]. by rewrite Hbs.
Qed.

Lemma inv_leave w i s mem mb o : ep_inv w -> callers w !! i = Some (s, Waiting mem) -> heap (mgr w) !! mem = Some mb -> (detach mb).2 = None ->
  ep_inv (mkWorld (rec w) (set_member mem (detach mb).1 (mgr w)) (<[i := (s, Returning o)]> (callers w)) (applied w)).
Proof.
  intros Hw Hi Hmem Hdet. destruct (e_waiting _ Hw i s mem Hi) as (b & Hb & Hbs & _ & Hna). rewrite Hmem in Hb. injection Hb as <-.
  destruct (waiting_gone w i s mem o Hw Hi) as [Hcs Hcr]. unfold detach in *. destruct (resolved mb) eqn:Er; [done|]. cbn [fst snd] in *.
  eapply inv_member; [done|exact Hmem|done| |done|done| |done|done].
  - eapply mgr_inv_member; [apply Hw|exact Hmem|done|by rewrite Er|by right].
  - intros j s' x. rewrite Hcs. cbn. split; [intros [? ?]; by split|]. intros [? Hx]. split; [done|]. intros E. by apply Hx in E.
Qed.

Lemma inv_fan w ep e mem l mb : ep_inv w -> episodes (mgr w) !! ep = Some e -> fan e = Some (mem :: l) -> heap (mgr w) !! mem = Some mb ->
  let res := default (mkResult false 0 false) (dispatched e !! sessionID mb) in let '(mb', gone) := resolve res mb in
  ep_inv (mkWorld (if gone then reclaim (sessionID mb) res (rec w) else rec w) (set_fan ep e l (set_member mem mb' (mgr w))) (callers w)
            (if gone then applied w ++ [(mem, res)] else applied w)).
Proof.
  intros Hw He Hf Hmem res. destruct (fan_inv (mgr w) ep e mem l mb res (e_mgr _ Hw) He Hf Hmem) as [Hres Hm]. cbn [resolve fst] in *.
  pose proof (unresolved_unapplied w mem mb Hw Hmem Hres) as Hna. destruct (detached mb) eqn:Ed; rewrite ?Ed in Hm.
  - destruct (reclaim_ok (sessionID mb) res (rec w) (e_deny _ Hw)) as [Hd Hex]. eapply inv_apply; [done|exact Hmem|done|exact Hm|done|done| |done|done|done].
    intros j s x. split; [|by intros [? _]]. intros Hj. split; [done|]. intros ->. destruct (e_waiting _ Hw j s mem Hj) as (b & Hb & _ & Hbd & _). rewrite Hmem in Hb. injection Hb as <-. congruence.
  - eapply inv_member; [done|exact Hmem|done|exact Hm|done|done| |done|done]. intros j s x. cbn. tauto.
Qed.

Lemma ep_inv_step w w' : ep_inv w -> estep w w' -> ep_inv w'.
Proof.
  intros Hw Hs. destruct Hs.
  - apply ep_inv_frame; [done| | |done|apply Hw].
    + intros j s' mem. destruct (decide (i = j)) as [<-|]; [rewrite lookup_insert_eq, H; naive_solver|by rewrite lookup_insert_ne].
    + intros j s'. rewrite lookup_insert_Some. by intros [[_ [=]]|[_ ?]].
  - destruct crossed; [by eapply inv_cross|]. destruct (record_ok s b t _ _ _ (e_deny _ Hw) H0) as (Hd & Hex & _). apply ep_inv_frame; [done| | |done|done].
    + intros j s' mem. rewrite lookup_delete_Some. split; [by intros [_ ?]|]. intros Hj. split; [|done]. intros <-. congruence.
    + intros j s'. rewrite lookup_delete_Some. by intros [_ ?].
  - apply ep_inv_frame; [done| | |done|apply Hw].
    + intros j s' mem. destruct (decide (i = j)) as [<-|]; [rewrite lookup_insert_eq, H; naive_solver|by rewrite lookup_insert_ne].
    + intros j s'. rewrite lookup_insert_Some. by intros [[_ [=]]|[_ ?]].
  - by eapply inv_join.
  - pose proof (m_channel _ (e_mgr _ Hw) mem mb res H0 H1) as Hres. eapply inv_hear; [done|done|done|exact Hres| | |reflexivity|done]; [done|].
    eapply mgr_inv_member; [apply Hw|exact H0|done|done|by left].
  - assert (resolved mb = Some res) as Hres by (unfold detach in H1; destruct (resolved mb); naive_solver).
    eapply inv_hear; [done|done|done|exact Hres|exact Hres|apply Hw|by rewrite insert_id|done].
  - by apply inv_leave.
  - destruct (settle_ok s o (rec w) (e_deny _ Hw)) as [Hd Hex]. apply ep_inv_frame; [done| | |by intros s' Hs'; rewrite Hex|done].
    + intros j s' mem. rewrite lookup_delete_Some. split; [by intros [_ ?]|]. intros Hj. split; [|done]. intros <-. congruence.
    + intros j s'. rewrite lookup_delete_Some. by intros [_ ?].
  - destruct (run_inv (mgr w) ep e (e_mgr _ Hw) H H0) as [Hm Hh]. by apply inv_mgr.
  - apply inv_mgr; [done|by apply dispatch_inv; [apply Hw|]|done].
  - by apply inv_fan.
Qed.

(** C24. However proxied calls, deadlines, disconnects, answers of extensions and
    fan-outs interleave, while no session is forgotten: the resolution of a member is applied at most once, by the
    call that waits for it or by the fan-out, and it is the one the episode
    resolved; once a member is resolved and no call waits for it, it has been
    applied; at most one call waits for the extension of a session; and a session
    that is being terminated is not admitted. *)
Theorem resolution_applied_once w : reachable w ->
  NoDup (applied w).*1 /\
  (forall mem res, (mem, res) ∈ applied w -> exists mb, heap (mgr w) !! mem = Some mb /\ resolved mb = Some res) /\
  (forall mem mb res, heap (mgr w) !! mem = Some mb -> resolved mb = Some res -> (forall i s, callers w !! i <> Some (s, Waiting mem)) -> (mem, res) ∈ applied w) /\
  (forall i j s mem mem', callers w !! i = Some (s, Waiting mem) -> callers w !! j = Some (s, Waiting mem') -> i = j) /\
  (forall s c, enf (rec w) !! s = Some c -> terminating c = true -> s <> "" -> Allow s (enf (rec w)) = false).
Proof.
  intros Hr. assert (ep_inv w) as Hw.
  { unfold reachable in Hr. remember initial as w0 eqn:E0. assert (ep_inv w0) as H0 by (subst; apply ep_inv_initial). clear E0.
    induction Hr as [|w0 w1 w2 Hs _ IH]; [done|]. apply IH. by eapply ep_inv_step. }
  split; [apply Hw|]. split; [apply Hw|]. split; [|split].
  - intros mem mb res Hmem Hres Hnone. destruct (decide (mem ∈ (applied w).*1)) as [Ha|Hna].
    + pose proof Ha as ((x & rs) & -> & Hin)%list_elem_of_fmap. cbn in *. destruct (e_applied _ Hw x rs Hin) as (b & Hb & Hrs). rewrite Hmem in Hb. injection Hb as <-. congruence.
    + pose proof (e_left _ Hw mem mb Hmem Hna) as Hl. destruct (detached mb); [congruence|]. destruct Hl as [i Hi]. by apply Hnone in Hi.
  - intros i j s mem mem' Hi Hj. destruct (e_waiting _ Hw i s mem Hi) as (b & Hb & Hs & _ & Hna). destruct (e_waiting _ Hw j s mem' Hj) as (b' & Hb' & Hs' & _ & Hna').
    assert (@inr nat nat mem = inr mem') as [= <-]. { apply (e_claims _ Hw s); split; [by exists b|done|by exists b'|done]. }
    by eapply (e_one _ Hw).
  - intros s c Hc Ht Hne. unfold Allow. destruct (is_empty s) eqn:E; [by apply is_empty_spec in E|]. rewrite Hc. by rewrite (e_deny _ Hw s c Hc Ht).
Qed.

(** ** Schedules *)

Module EpisodeDemo.

(** A step that is asked for and not possible does nothing. *)
Inductive Act := ARead (i : nat) (s : string) (base tokens : Z) | ARecord (i : nat) | AJoin (i : nat) (root : string) | AHear (i : nat) | ALeave (i : nat) (gone : bool)
  | ASettle (i : nat) | ARun (ep : nat) | ADispatch (ep : nat) (s : string) (resp : Response) | AFan (ep : nat).

Definition act (w : World) (a : Act) : World :=
  match a with
  | ARead i s base tokens =>
      if bool_decide (callers w !! i = None) && negb (is_empty s)
      then mkWorld (rec w) (mgr w) (<[i := (s, Ready (wrap64 (base + grantedDeltaFor s (rec w))) tokens)]> (callers w)) (applied w) else w
  | ARecord i =>
      match callers w !! i with
      | Some (s, Ready b t) =>
          let '(e, crossed) := Record_ s b t (enf (rec w)) in
          mkWorld (mkRecorder e (grantedDelta (rec w)) (terminated (rec w))) (mgr w) (if crossed then <[i := (s, Crossed)]> (callers w) else delete i (callers w)) (applied w)
      | _ => w
      end
  | AJoin i root =>
      match callers w !! i with
      | Some (s, Crossed) => let '(m, mem) := join root s (mgr w) in mkWorld (rec w) m (<[i := (s, Waiting mem)]> (callers w)) (applied w)
      | _ => w
      end
  | AHear i =>
      match callers w !! i with
      | Some (s, Waiting mem) =>
          match heap (mgr w) !! mem with
          | Some mb =>
              match result mb with
              | Some res =>
                  let '(r, o) := applyInPathResolution s res (rec w) in
                  mkWorld r (set_member mem (mkMember (sessionID mb) None (resolved mb) (detached mb)) (mgr w)) (<[i := (s, Returning o)]> (callers w)) (applied w ++ [(mem, res)])
              | None => w
              end
          | None => w
          end
      | _ => w
      end
  | ALeave i gone =>
      match callers w !! i with
      | Some (s, Waiting mem) =>
          match heap (mgr w) !! mem with
          | Some mb =>
              match (detach mb).2 with
              | None => mkWorld (rec w) (set_member mem (detach mb).1 (mgr w)) (<[i := (s, Returning (if gone then Terminal else Pending))]> (callers w)) (applied w)
              | Some _ => w
              end
          | None => w
          end
      | _ => w
      end
  | ASettle i =>
      match callers w !! i with
      | Some (s, Returning o) => mkWorld (settle s o (rec w)) (mgr w) (delete i (callers w)) (applied w)
      | _ => w
      end
  | ARun ep =>
      match episodes (mgr w) !! ep with
      | Some e => match fan e with None => mkWorld (rec w) (runEpisode ep e (mgr w)) (callers w) (applied w) | Some _ => w end
      | None => w
      end
  | ADispatch ep s resp =>
      match episodes (mgr w) !! ep with
      | Some e =>
          match fan e, members e !! s with
          | None, Some mem => if bool_decide (mem ∈ inFlight e) then mkWorld (rec w) (dispatchOne ep e mem s (result_of resp) (mgr w)) (callers w) (applied w) else w
          | _, _ => w
          end
      | None => w
      end
  | AFan ep =>
      match episodes (mgr w) !! ep with
      | Some e =>
          match fan e with
          | Some (mem :: l) =>
              match heap (mgr w) !! mem with
              | Some mb =>
                  let res := default (mkResult false 0 false) (dispatched e !! sessionID mb) in let '(mb', gone) := resolve res mb in
                  mkWorld (if gone then reclaim (sessionID mb) res (rec w) else rec w) (set_fan ep e l (set_member mem mb' (mgr w))) (callers w)
                    (if gone then applied w ++ [(mem, res)] else applied w)
              | None => w
              end
          | _ => w
          end
      | None => w
      end
  end.

Lemma act_reachable w a : reachable w -> reachable (act w a).
Proof.
  intros Hr. assert (act w a = w \/ estep w (act w a)) as [->|Hs]; [|done|by eapply rtc_r].
  destruct a as [i s base tokens|i|i root|i|i gone|i|ep|ep s resp|ep]; cbn [act].
  - case_bool_decide; [|by left]. destruct (is_empty s) eqn:E; [by left|]. right. apply step_read; [done|]. intros ->. by rewrite (proj2 (is_empty_spec "") eq_refl) in E.
  - destruct (callers w !! i) as [[s []]|] eqn:E; try by left. destruct (Record_ _ _ _ _) as [e cr] eqn:Er. right. by eapply step_record.
  - destruct (callers w !! i) as [[s []]|] eqn:E; try by left. destruct (join _ _ _) as [m mem] eqn:Ej. right. by eapply step_join.
  - destruct (callers w !! i) as [[s []]|] eqn:E; try by left. destruct (heap (mgr w) !! mem) as [mb|] eqn:Em; [|by left]. destruct (result mb) as [res|] eqn:Eres; [|by left].
    destruct (applyInPathResolution _ _ _) as [r o] eqn:Ea. right. by eapply step_hear.
  - destruct (callers w !! i) as [[s []]|] eqn:E; try by left. destruct (heap (mgr w) !! mem) as [mb|] eqn:Em; [|by left]. destruct (detach mb).2 eqn:Ed; [by left|]. right. by apply step_leave.
  - destruct (callers w !! i) as [[s []]|] eqn:E; try by left. right. by apply step_settle.
  - destruct (episodes (mgr w) !! ep) as [e|] eqn:E; [|by left]. destruct (fan e) eqn:Ef; [by left|]. right. by apply step_run.
  - destruct (episodes (mgr w) !! ep) as [e|] eqn:E; [|by left]. destruct (fan e) eqn:Ef; [by left|]. destruct (members e !! s) as [mem|] eqn:Em; [|by left]. case_bool_decide; [|by left]. right. by apply step_dispatch.
  - destruct (episodes (mgr w) !! ep) as [e|] eqn:E; [|by left]. destruct (fan e) as [[|mem l]|] eqn:Ef; try by left. destruct (heap (mgr w) !! mem) as [mb|] eqn:Em; [|by left]. right. by apply (step_fan ep e mem l mb w).
Qed.

Definition run (l : list Act) : World := foldl act initial l.

Lemma run_reachable l : reachable (run l).
Proof.
  unfold run. assert (reachable initial) as H by apply rtc_refl. revert H. generalize initial. induction l as [|a l IH]; intros w Hw; [done|]. by apply IH, act_reachable.
Qed.

(** A session of budget 100 uses 120 and gets 50 more while its call waits. *)
Definition in_path : list Act :=
  [ARead 1 "s" 100 120; ARecord 1; AJoin 1 "r"; ARun 0; ADispatch 0 "s" (Grants 50); ARun 0; AFan 0; AHear 1; ASettle 1].

Lemma resolution_applied_once_witness : (applied (run in_path)).*1 = [1] /\ NoDup (applied (run in_path)).*1 /\ Allow "s" (enf (rec (run in_path))) = true.
Proof.
  split; [vm_compute; reflexivity|]. split; [|vm_compute; reflexivity]. exact (proj1 (resolution_applied_once (run in_path) (run_reachable in_path))).
Defined.

(** The call leaves at its deadline and the episode grants before the call has
    denied the session: the session stays denied, although its budget was raised
    and nothing is left that would clear the denial. *)
Definition late_deny : list Act :=
  [ARead 1 "s" 100 120; ARecord 1; AJoin 1 "r"; ARun 0; ALeave 1 false; ADispatch 0 "s" (Grants 50); ARun 0; AFan 0; ASettle 1].

Lemma late_deny_sticks : let w := run late_deny in
  enf (rec w) !! "s" = Some (mkCounter 150 120 false true false) /\ Allow "s" (enf (rec w)) = false /\
  map_to_list (callers w) = [] /\ map_to_list (trees (mgr w)) = [] /\ (applied w).*1 = [1].
Proof. vm_compute. repeat split. Qed.

(** A second call read the budget before the grant and records its usage after it:
    the raised budget is overwritten, and the usage crosses the old one. *)
Definition stale_budget : list Act :=
  [ARead 1 "s" 100 120; ARecord 1; AJoin 1 "r"; ARead 2 "s" 100 5; ARun 0; ADispatch 0 "s" (Grants 50); ARun 0; AFan 0; AHear 1; ASettle 1; ARecord 2].

Lemma stale_budget_crosses : let w := run stale_budget in
  grantedDelta (rec w) !! "s" = Some 50%Z /\ enf (rec w) !! "s" = Some (mkCounter 100 125 true false false) /\ callers w !! 2 = Some ("s", Crossed).
Proof. vm_compute. repeat split. Qed.

End EpisodeDemo.
