(* ===== verification/DelegationService.v ===== *)
(** * Admitting a delegation ([gateway/mcpfabric/delegation/service.go])

    [Delegate] from the request to the child row: the checks against the parent
    (isolation [sandbox/isolation], visibility, content policy), the cycle and
    depth gates of [Delegation], the budget of [TreeBudget] on a [RedisServer],
    the reservation of the child's identifier and its row in [SessionStore], and
    the files of [Exports] that are written for it.  The registries and the
    experiment router are arguments; metrics and audit events are left out. *)

From S2P Require Import Prelude StateMachine SessionApi SessionStore Redis TreeBudget Delegation Interceptors InterceptorRuns ExportScan Exports.

#[local] Set Warnings "-register-all".

(** ** Isolation profiles ([sandbox/isolation/profile.go]) *)

Definition ProfileStandard : string := "standard".
Definition ProfileSandboxed : string := "sandboxed".
Definition ProfileMicrovm : string := "microvm".
Definition AllProfiles : list string := [ProfileStandard; ProfileSandboxed; ProfileMicrovm].

Definition profileIsValid (p : string) : bool := mem p AllProfiles.

Definition Rank (p : string) : Z :=
  if String.eqb p ProfileStandard then 0 else if String.eqb p ProfileSandboxed then 1 else if String.eqb p ProfileMicrovm then 2 else -1.

Definition AtLeastAsRestrictive (target source : string) : bool :=
  profileIsValid target && profileIsValid source && (Rank source <=? Rank target)%Z.

(** ** Policies and runtimes *)

Record ContentPolicy := mkContent { MaxInputSize : Z; InterceptorRef : string; ScanExportedFiles : bool; MaxExportedFileSize : Z }.

Record DelegationPolicy := mkPolicy {
  PolicyName : string; Content : ContentPolicy; PolicySelfRecursion : bool; ScanExportedFilesWeakenedAt : Time; PolicyDeletedAt : Time }.

Definition IsActive (p : DelegationPolicy) : bool := time_is_zero (PolicyDeletedAt p).

Definition DefaultMaxInputSize : Z := (128 * 1024)%Z.
Definition DefaultMaxExportedFileSize : Z := (10 * 1024 * 1024)%Z.

(** The fields of a runtime that a delegation reads. *)
Record Runtime := mkRuntime { RuntimeType : string; RuntimeSelfRecursion : bool; DelegationPolicyRef : string; BaseRuntime : string }.
Definition TypeMCP : string := "mcp".

Definition MergeRuntime (base derived : Runtime) : Runtime :=
  mkRuntime (RuntimeType base) (RuntimeSelfRecursion derived)
    (if is_empty (DelegationPolicyRef derived) then DelegationPolicyRef base else DelegationPolicyRef derived) "".

Definition ResolveRuntime (get : string -> option Runtime) (name : string) : option Runtime :=
  rt ← get name; if is_empty (BaseRuntime rt) then Some rt else base ← get (BaseRuntime rt); Some (MergeRuntime base rt).

(** ** Content policies of a tree *)

(** [effContentPolicy]: the sizes are set. *)
Abbreviation effContentPolicy := ContentPolicy.

Definition normalizeContentPolicy (cp : ContentPolicy) : effContentPolicy :=
  mkContent (if (MaxInputSize cp <=? 0)%Z then DefaultMaxInputSize else MaxInputSize cp) (InterceptorRef cp) (ScanExportedFiles cp)
    (if (MaxExportedFileSize cp <=? 0)%Z then DefaultMaxExportedFileSize else MaxExportedFileSize cp).

Definition platformDefaultContentPolicy : effContentPolicy := mkContent DefaultMaxInputSize "" false DefaultMaxExportedFileSize.

Definition tighterThanDefault (e : effContentPolicy) : bool :=
  negb (is_empty (InterceptorRef e)) || ScanExportedFiles e || (MaxInputSize e <? DefaultMaxInputSize)%Z
  || (MaxExportedFileSize e <? DefaultMaxExportedFileSize)%Z.

(** ** What a row carries for delegations *)

Record DelegationLease := mkLease {
  MaxTokenBudget : Z; MaxChildrenTotal : Z; MaxTreeSize : Z; MaxTreeMemoryBytes : Z; MaxParallelChildren : Z; PerChildMaxAge : Z;
  LeasePolicyRef : string; MaxDelegationPolicy : string;
  ContentPolicyRef : string; ContentMaxInputSize : Z; ContentScanExportedFiles : bool; ContentMaxExportedFileSize : Z }.

Definition no_lease : DelegationLease := mkLease 0 0 0 0 0 0 "" "" "" 0 false 0.

Definition leaseIsZero (l : DelegationLease) : bool :=
  (MaxTokenBudget l =? 0)%Z && (MaxChildrenTotal l =? 0)%Z && (MaxTreeSize l =? 0)%Z && (MaxTreeMemoryBytes l =? 0)%Z
  && (MaxParallelChildren l =? 0)%Z && (PerChildMaxAge l =? 0)%Z && is_empty (LeasePolicyRef l) && is_empty (MaxDelegationPolicy l)
  && is_empty (ContentPolicyRef l) && (ContentMaxInputSize l =? 0)%Z && negb (ContentScanExportedFiles l) && (ContentMaxExportedFileSize l =? 0)%Z.

Record ExperimentContext := mkExperiment { ExperimentID : string; VariantID : string; Inherited : bool }.

(** A workspace plan: its version and its sources. *)
Abbreviation Plan := (Z * list wireSource)%type.

Record Columns := mkColumns {
  IsolationProfile : string; TreeVisibility : string; RowLease : option DelegationLease; CredentialOriginSessionID : string; CredentialDeny : bool;
  TracingContext : gmap string string; RowExperiment : option ExperimentContext; RowPlan : option Plan }.

Abbreviation Row := (SessionStore.Session Columns).
Abbreviation Rows := (SessionStore.Store Columns).

Definition leaseSliceFromStore (l : option DelegationLease) : Lease.LeaseSlice :=
  match l with
  | None => Lease.mkSlice 0 0 0 0 0 0
  | Some l => Lease.mkSlice (MaxTokenBudget l) (MaxChildrenTotal l) (MaxTreeSize l) (MaxTreeMemoryBytes l) (MaxParallelChildren l) (PerChildMaxAge l)
  end.

Definition storeLeaseFromSlice (s : Lease.LeaseSlice) : option DelegationLease :=
  let dl := mkLease (Lease.MaxTokenBudget s) (Lease.MaxChildrenTotal s) (Lease.MaxTreeSize s) (Lease.MaxTreeMemoryBytes s)
              (Lease.MaxParallelChildren s) (Lease.PerChildMaxAge s) "" "" "" 0 false 0 in
  if leaseIsZero dl then None else Some dl.

Definition stampLeasePolicy (dl : option DelegationLease) (policyRef : string) (pol : option DelegationPolicy) (eff : effContentPolicy) : option DelegationLease :=
  let stamp := tighterThanDefault eff in
  if is_empty policyRef && negb (bool_decide (is_Some pol)) && negb stamp then dl
  else
    let d := default no_lease dl in
    let d := mkLease (MaxTokenBudget d) (MaxChildrenTotal d) (MaxTreeSize d) (MaxTreeMemoryBytes d) (MaxParallelChildren d) (PerChildMaxAge d)
               (if is_empty policyRef then LeasePolicyRef d else policyRef)
               (match pol with Some p => PolicyName p | None => MaxDelegationPolicy d end)
               (if stamp then InterceptorRef eff else ContentPolicyRef d)
               (if stamp && (MaxInputSize eff <? DefaultMaxInputSize)%Z then MaxInputSize eff else ContentMaxInputSize d)
               (if stamp then ScanExportedFiles eff else ContentScanExportedFiles d)
               (if stamp && (MaxExportedFileSize eff <? DefaultMaxExportedFileSize)%Z then MaxExportedFileSize eff else ContentMaxExportedFileSize d) in
    if leaseIsZero d then None else Some d.

Definition credentialOriginID (mode : string) (parent : Row) (childID : string) : string :=
  if String.eqb mode Lease.CredentialPropagationInherit
  then if is_empty (CredentialOriginSessionID (Other parent)) then ID parent else CredentialOriginSessionID (Other parent)
  else childID.

(** ** Requests, errors and the service *)

Record Request := mkRequest {
  r_ParentSessionID : string; r_RuntimeRef : string; r_PoolRef : string; r_IsolationProfile : string; r_MaxDepth : Z; LeaseSlice : Lease.LeaseSlice;
  r_ApprovalMode : string; CredentialPropagation : string; r_TreeVisibility : string; FileExport : list Spec; r_FileExportLimits : FileExportLimits;
  EffectiveMessagingScope : string }.

Inductive DelegationError :=
  | InvalidApprovalMode (m : string) | InvalidCredentialPropagation (m : string) | ErrDelegationDenied
  | ErrParentNotFound | ErrParentNotRunning | ErrParentNoUser
  | ErrProfile (p : string) | IsolationViolation (parent child : string)
  | ErrVisibility (v : string) | TreeVisibilityWeakening (parent child : string) | TreeVisibilityMessagingScope (v : string)
  | ErrTargetNotAgent | InterceptorWeakeningCooldown (policy ref : string) (since : Time) (cooldownSeconds retryAfterSeconds : Z)
  | ContentPolicyWeakening (axis : string) | ContentPolicyInterceptorSubstitution (parentRef childRef : string)
  | ErrCycle (r : Cycle.Rejection) | ErrDepth (e : Lease.DepthError) | ErrSlice (vs : list Lease.Violation)
  | ErrUserChildrenExhausted | ErrTreeExhausted (e : BudgetExhaustedError) | DErrBudgetUnavailable | DErrBudgetKeysExpired | ErrTree (e : BudgetError)
  | ErrChildID (e : IDError) | ErrStore (e : StoreErr) | ErrInsertUnknown
  | ErrExportNotConfigured | ErrExportScanUnavailable | ErrExport (e : ExportError) | ErrRouting | ErrDefaults.

(** What the gateway wires.  [exportMat] is [Materialize] with the files it
    persists; [experimentRouter] fails, leaves the child out, or enrolls it and
    names a runtime and a pool, empty ones to keep; [composeDefaults] fails,
    leaves the plan or changes it. *)
Record Service := mkService {
  runtimes : option (string -> option Runtime);
  policies : option (string -> string -> option DelegationPolicy);
  mode : string; platformAllowSelfRec : bool; defaultMaxDepth : Z;
  weakeningCooldown : Duration; failOpenCooldown : option (string -> option (Time * Z));
  exportMat : option (Params -> list ExportedFile * result ExportError ExportResult);
  exportScanResolver : option (string -> string -> option (Chain * ExportScanContext));
  treeBudget : option Duration; treeGrants : option (string -> string -> option Z); keysExpired : bool;
  maxActiveChildrenPerUser : Z; sessionObjects : bool;
  propagation : option (string -> option string);
  experimentRouter : option (Row -> option (option (ExperimentContext * string * string)));
  composeDefaults : string -> option Plan -> option (option Plan);
  idFn : option string }.

Definition DefaultMaxDepth : Z := 10.
Definition DefaultInterceptorWeakeningCooldown : Duration := (60 * Second)%Z.
Definition lineageWalkSafetyMargin : Z := 4.

(** The options become the fields; an unset mode, depth or cooldown gets its
    default, and a negative cooldown is none. *)
Definition NewService (o : Service) : Service :=
  mkService (runtimes o) (policies o)
    (if is_empty (mode o) then Cycle.ModeEnforce else mode o) (platformAllowSelfRec o)
    (if (defaultMaxDepth o <=? 0)%Z then DefaultMaxDepth else defaultMaxDepth o)
    (let cooldown := if (weakeningCooldown o =? 0)%Z then DefaultInterceptorWeakeningCooldown else weakeningCooldown o in
     if (cooldown <? 0)%Z then 0%Z else cooldown)
    (failOpenCooldown o) (exportMat o) (exportScanResolver o) (treeBudget o) (treeGrants o) (keysExpired o)
    (maxActiveChildrenPerUser o) (sessionObjects o) (propagation o) (experimentRouter o) (composeDefaults o) (idFn o).

(** ** The checks against the parent *)

Definition resolveChildTreeVisibility (parent child : string) : result DelegationError string :=
  let parentEff := visOrDefault parent in
  if is_empty child then Ok parentEff
  else if negb (visIsValid child) then Err (ErrVisibility child)
  else if negb (AtLeastAsNarrow child parentEff) then Err (TreeVisibilityWeakening parentEff child)
  else Ok child.

Definition resolveChildContentPolicy (parentEff : effContentPolicy) (child : option ContentPolicy) : result DelegationError effContentPolicy :=
  match child with
  | None => Ok parentEff
  | Some child =>
      let declared := normalizeContentPolicy child in
      if (MaxInputSize parentEff <? MaxInputSize declared)%Z then Err (ContentPolicyWeakening "maxInputSize")
      else if (MaxExportedFileSize parentEff <? MaxExportedFileSize declared)%Z then Err (ContentPolicyWeakening "maxExportedFileSize")
      else if ScanExportedFiles parentEff && negb (ScanExportedFiles declared) then Err (ContentPolicyWeakening "scanExportedFiles")
      else if is_empty (InterceptorRef parentEff) then Ok declared
      else if String.eqb (InterceptorRef declared) (InterceptorRef parentEff) then Ok declared
      else if is_empty (InterceptorRef declared) then Err (ContentPolicyWeakening "interceptorRef")
      else Err (ContentPolicyInterceptorSubstitution (InterceptorRef parentEff) (InterceptorRef declared))
  end.

(** How long a weakening is still held against a delegation, rounded up. *)
Definition remaining_seconds (window : Duration) (since now : Time) : option Z :=
  let elapsed := Z.max 0 (time_sub now since) in
  let remaining := wrap64 (window - elapsed) in
  if (remaining <=? 0)%Z then None else Some (Z.max 1 (Z.quot (wrap64 (remaining + Second - 1)) Second)).

Section service.
Context (s : Service).

Definition checkInterceptorWeakeningCooldown (now : Time) (pol : DelegationPolicy) : result DelegationError () :=
  if (weakeningCooldown s <=? 0)%Z || time_is_zero (ScanExportedFilesWeakenedAt pol) then Ok ()
  else match remaining_seconds (weakeningCooldown s) (ScanExportedFilesWeakenedAt pol) now with
       | None => Ok ()
       | Some n => Err (InterceptorWeakeningCooldown (PolicyName pol) "" (ScanExportedFilesWeakenedAt pol) (Z.quot (weakeningCooldown s) Second) n)
       end.

Definition InterceptorFailPolicyCooldown (now : Time) (ref : string) : result DelegationError () :=
  match failOpenCooldown s with
  | Some get =>
      if is_empty ref then Ok ()
      else match get ref with
           | None => Ok ()
           | Some (since, cooldownSeconds) =>
               if time_is_zero since || (cooldownSeconds <=? 0)%Z then Ok ()
               else match remaining_seconds (wrap64 (cooldownSeconds * Second)) since now with
                    | None => Ok ()
                    | Some n => Err (InterceptorWeakeningCooldown "" ref since cooldownSeconds n)
                    end
           end
  | None => Ok ()
  end.

(** The active policy of a runtime. *)
Definition runtime_policy (tenantID : string) (rt : Runtime) : option DelegationPolicy :=
  match policies s with
  | Some get =>
      if is_empty (DelegationPolicyRef rt) then None
      else match get tenantID (DelegationPolicyRef rt) with Some pol => if IsActive pol then Some pol else None | None => None end
  | None => None
  end.

Definition effectiveParentContentPolicy (tenantID : string) (parent : Row) : effContentPolicy :=
  let live := match (runtimes s ≫= (fun get => ResolveRuntime get (RuntimeRef parent))) ≫= runtime_policy tenantID with
              | Some pol => normalizeContentPolicy (Content pol)
              | None => platformDefaultContentPolicy
              end in
  match RowLease (Other parent) with
  | Some l =>
      if (0 <? ContentMaxInputSize l)%Z || negb (is_empty (ContentPolicyRef l)) || ContentScanExportedFiles l || (0 <? ContentMaxExportedFileSize l)%Z
      then normalizeContentPolicy (mkContent (ContentMaxInputSize l) (ContentPolicyRef l) (ContentScanExportedFiles l) (ContentMaxExportedFileSize l))
      else live
  | None => live
  end.

(** What the message and delegation paths ask of a session's policy: the policy
    of its runtime. *)
Definition EffectiveDelegationPolicy (st : Rows) (tenantID sessionID : string) : option DelegationPolicy :=
  match policies s, runtimes s with
  | Some _, Some get =>
      if is_empty sessionID then None
      else match SessionStore.Get st tenantID sessionID with
           | Err _ => None
           | Ok sess => if is_empty (RuntimeRef sess) then None else ResolveRuntime get (RuntimeRef sess) ≫= runtime_policy tenantID
           end
  | _, _ => None
  end.

Definition ResolveContentPolicy (st : Rows) (tenantID sessionID : string) : option (Z * string) :=
  match policies s, runtimes s with
  | Some _, Some get =>
      if is_empty sessionID then None
      else match SessionStore.Get st tenantID sessionID with
           | Err _ => None
           | Ok sess =>
               (fun pol => (MaxInputSize (Content pol), InterceptorRef (Content pol))) <$> (ResolveRuntime get (RuntimeRef sess) ≫= runtime_policy tenantID)
           end
  | _, _ => None
  end.

Definition ResolveMaxInputSize (st : Rows) (tenantID parentSessionID : string) : option Z :=
  match ResolveContentPolicy st tenantID parentSessionID with
  | Some (maxSize, _) => if (maxSize <=? 0)%Z then None else Some maxSize
  | None => None
  end.

Definition ResolveActivePolicy (tenantID name : string) : option DelegationPolicy :=
  match policies s with
  | Some get => if is_empty name then None else match get tenantID name with Some pol => if IsActive pol then Some pol else None | None => None end
  | None => None
  end.

(** The chain of ancestors, the parent first; [more] is how many rows the walk
    may still take. *)
Fixpoint walk (st : Rows) (tenantID : string) (more : nat) (visited : gset string) (cur : Row) : list Row :=
  match more with
  | O => []
  | S more =>
      if bool_decide (ID cur ∈ visited) then []
      else cur :: (if is_empty (SessionStore.ParentSessionID cur) then []
                   else match SessionStore.Get st tenantID (SessionStore.ParentSessionID cur) with
                        | Ok next => walk st tenantID more ({[ID cur]} ∪ visited) next
                        | Err _ => []
                        end)
  end.

Definition walkCap : Z :=
  let cap := wrap64 (defaultMaxDepth s + lineageWalkSafetyMargin) in
  if (cap <=? 0)%Z then (DefaultMaxDepth + lineageWalkSafetyMargin)%Z else cap.

Definition identity (r : Row) : Cycle.Identity := Cycle.mkIdentity (RuntimeRef r) (PoolRef r).

Definition buildLineage (st : Rows) (tenantID : string) (parent : Row) : list Cycle.Identity * Z :=
  let chain := walk st tenantID (Z.to_nat walkCap) ∅ parent in
  (identity <$> reverse chain, (Z.of_nat (length chain) - 1)%Z).

(** What the stages hand on. *)
Record admission := mkAdmission {
  parent : Row; childProfile : string; childVis : string; lineage : list Cycle.Identity; depth : Z; parentContentEff : effContentPolicy;
  decision : Cycle.Decision_; effectivePolicy : option DelegationPolicy; policyRef : string; policyCeiling : Z; childContentEff : effContentPolicy }.

Definition no_decision : Cycle.Decision_ := Cycle.mkDecision "" false "" [] (Cycle.mkSettings "" false false false).

Definition validateDelegation (st : Rows) (tenantID : string) (req : Request) : result DelegationError admission :=
  match Lease.ValidateApprovalMode (r_ApprovalMode req) with
  | Err m => Err (InvalidApprovalMode m)
  | Ok _ =>
  match Lease.ValidateCredentialPropagation (CredentialPropagation req) with
  | Err m => Err (InvalidCredentialPropagation m)
  | Ok _ =>
      if String.eqb (r_ApprovalMode req) Lease.ApprovalModeDeny then Err ErrDelegationDenied
      else match SessionStore.Get st tenantID (r_ParentSessionID req) with
           | Err _ => Err ErrParentNotFound
           | Ok parent =>
               if negb (String.eqb (SState parent) StateRunning) && negb (String.eqb (SState parent) StateInputRequired) then Err ErrParentNotRunning
               else if is_empty (SessionStore.UserID parent) then Err ErrParentNoUser
               else
                 let parentProfile := IsolationProfile (Other parent) in
                 let childProfile := if is_empty (r_IsolationProfile req) then parentProfile else r_IsolationProfile req in
                 if negb (profileIsValid childProfile) then Err (ErrProfile childProfile)
                 else if negb (is_empty parentProfile) && negb (AtLeastAsRestrictive childProfile parentProfile)
                 then Err (IsolationViolation parentProfile childProfile)
                 else
                   let* childVis := resolveChildTreeVisibility (TreeVisibility (Other parent)) (r_TreeVisibility req) in
                   if String.eqb (scopeOrDefault (EffectiveMessagingScope req)) MessagingScopeSiblings && negb (String.eqb childVis VisibilityFull)
                   then Err (TreeVisibilityMessagingScope childVis)
                   else
                     let '(lineage, depth) := buildLineage st tenantID parent in
                     Ok (mkAdmission parent childProfile childVis lineage depth (effectiveParentContentPolicy tenantID parent)
                           no_decision None "" 0 platformDefaultContentPolicy)
           end
  end
  end.

(** ** The cycle and depth gates *)

Definition detectCycle (now : Time) (tenantID : string) (req : Request) (adm : admission) : result DelegationError admission :=
  let target := Cycle.mkIdentity (r_RuntimeRef req) (r_PoolRef req) in
  let* resolved :=
    (match runtimes s ≫= (fun get => ResolveRuntime get (r_RuntimeRef req)) with
     | None => Ok (false, "", None)
     | Some rt =>
         if String.eqb (RuntimeType rt) TypeMCP then Err ErrTargetNotAgent
         else match runtime_policy tenantID rt with
              | None => Ok (RuntimeSelfRecursion rt, DelegationPolicyRef rt, None)
              | Some pol =>
                  let* _ := checkInterceptorWeakeningCooldown now pol in
                  let* _ := InterceptorFailPolicyCooldown now (InterceptorRef (Content pol)) in
                  Ok (RuntimeSelfRecursion rt, DelegationPolicyRef rt, Some pol)
              end
     end) in
  let '(rtSelf, ref, pol) := resolved in
  let settings := Cycle.mkSettings (mode s) (platformAllowSelfRec s) rtSelf (match pol with Some p => PolicySelfRecursion p | None => false end) in
  let* eff := resolveChildContentPolicy (parentContentEff adm) (Content <$> pol) in
  let d := Cycle.Decide (lineage adm) target settings in
  match Cycle.ToError d target with
  | Some r => Err (ErrCycle r)
  | None => Ok (mkAdmission (parent adm) (childProfile adm) (childVis adm) (lineage adm) (depth adm) (parentContentEff adm) d pol ref 0 eff)
  end.

Definition checkDelegationDepth (req : Request) (adm : admission) : result DelegationError () :=
  match Lease.ResolveMaxDepth (Lease.mkDepthInputs (r_MaxDepth req) 0 0 (policyCeiling adm) (defaultMaxDepth s)) with
  | Err e => Err (ErrDepth e)
  | Ok resolved =>
      match Lease.CheckDepth (depth adm) (Lease.EnforcePolicyCeiling resolved (policyCeiling adm)) with
      | Err e => Err (ErrDepth e)
      | Ok _ => Ok ()
      end
  end.
End service.

(** ** The budget gates and the insert *)

(** What fails around one delegation: the replies of the two attempts to reserve
    and of the return, the reply to the insert, and the deletion of objects. *)
Record Faults := mkFaults { first_reserve : transport; second_reserve : transport; return_reply : transport; insert_lost : bool; delete_fails : bool }.

Definition no_faults : Faults := mkFaults Delivered Delivered Delivered false false.

Section insert.
Context {Σ : Type} `{RedisServer Σ} (s : Service) (f : Faults).

(** The rows, the counters, the objects under a session's identifier, and the
    trees whose keys were found expired. *)
Record World := mkWorld { store : Rows; redis : Σ; objects : gmap string (list ExportedFile); expired : list string }.

Definition with_store (st : Rows) (w : World) : World := mkWorld st (redis w) (objects w) (expired w).
Definition with_redis (σ : Σ) (w : World) : World := mkWorld (store w) σ (objects w) (expired w).
Definition with_objects (m : gmap string (list ExportedFile)) (w : World) : World := mkWorld (store w) (redis w) m (expired w).

Definition treeTokenCap (tenantID root : string) (base : Z) : result DelegationError Z :=
  match treeGrants s with
  | None => Ok base
  | Some grant =>
      if (base <=? 0)%Z then Ok base
      else match grant tenantID root with None => Err DErrBudgetUnavailable | Some g => Ok (wrap64 (base + g)) end
  end.

Definition isFirstReservation (st : Rows) (tenantID root : string) : bool :=
  forallb (fun row => negb (0 <? DelegationDepth row)%Z) (SessionStore.ListByRoot st tenantID root).

Definition budget_error (e : BudgetError) : DelegationError :=
  match e with ErrBudgetExhausted b => ErrTreeExhausted b | ErrBudgetUnavailable => DErrBudgetUnavailable | e => ErrTree e end.

Definition mark_first (first : bool) (r : Reservation) : Reservation :=
  TreeBudget.mkReservation (TreeBudget.RootSessionID r) (TreeBudget.ParentSessionID r) (TreeSizeCap r) (TreeSizeDelta r) (TreeMemoryCap r) (TreeMemoryDelta r)
    (ParallelChildrenCap r) (ParallelChildrenDelta r) (ChildrenTotalCap r) (ChildrenTotalDelta r) (TokenCap r) (TokenDelta r) first.

Definition reserveDetectingExpiry (ttl : Duration) (tenantID : string) (r : Reservation) (w : World) : World * result DelegationError () :=
  let '(σ, res) := TreeBudget.Reserve ttl (first_reserve f) r (redis w) in
  let w := with_redis σ w in
  match res with
  | Ok _ => (w, Ok ())
  | Err ErrBudgetKeysExpired =>
      let first := isFirstReservation (store w) tenantID (TreeBudget.RootSessionID r) in
      let '(σ, res) := TreeBudget.Reserve ttl (second_reserve f) (mark_first first r) (redis w) in
      let w := with_redis σ w in
      match res with
      | Ok _ => (w, Ok ())
      | Err ErrBudgetKeysExpired =>
          if first then (w, Err (ErrTree ErrBudgetKeysExpired))
          else ((if keysExpired s then mkWorld (store w) (redis w) (objects w) (expired w ++ [TreeBudget.RootSessionID r]) else w), Err DErrBudgetKeysExpired)
      | Err e => (w, Err (budget_error e))
      end
  | Err e => (w, Err (budget_error e))
  end.

(** The reservation of one child of [parent]. *)
Definition child_reservation (req : Request) (parent : Row) (root : string) (slice : Lease.LeaseSlice) (tokenCap : Z) : Reservation :=
  TreeBudget.mkReservation root (ID parent) (Lease.MaxTreeSize slice) 1
    (if (Lease.MaxTreeMemoryBytes slice =? 0)%Z then DefaultMaxTreeMemoryBytes else Lease.MaxTreeMemoryBytes slice) PerNodeMemoryBytes
    (Lease.MaxParallelChildren slice) 1 (Lease.MaxChildrenTotal slice) 1 tokenCap (Lease.MaxTokenBudget (LeaseSlice req)) false.

(** The result is the reservation to return on a later error, if one is held. *)
Definition reserveTreeBudget (tenantID : string) (req : Request) (parent : Row) (root : string) (w : World) : World * result DelegationError (option Reservation) :=
  let slice := leaseSliceFromStore (RowLease (Other parent)) in
  match Lease.ValidateChildSlice slice (LeaseSlice req) (Lease.MaxTokenBudget slice) (Lease.MaxChildrenTotal slice) (Lease.MaxTreeSize slice) with
  | Err vs => (w, Err (ErrSlice vs))
  | Ok _ =>
      if (0 <? maxActiveChildrenPerUser s)%Z
         && (maxActiveChildrenPerUser s <=? CountActiveDelegatedChildrenByUser (store w) tenantID (SessionStore.UserID parent))%Z
      then (w, Err ErrUserChildrenExhausted)
      else match treeBudget s with
           | None => (w, Ok None)
           | Some ttl =>
               match treeTokenCap tenantID root (Lease.MaxTokenBudget slice) with
               | Err e => (w, Err e)
               | Ok cap =>
                   let r := child_reservation req parent root slice cap in
                   let '(w, res) := reserveDetectingExpiry ttl tenantID r w in
                   (w, match res with Ok _ => Ok (Some r) | Err e => Err e end)
               end
           end
  end.

Definition undoChildExport (tenantID childID : string) (w : World) : World :=
  if negb (sessionObjects s) || delete_fails f then w
  else with_store (SessionStore.ReleaseReservation (store w) tenantID childID) (with_objects (delete childID (objects w)) w).

(** The scan of the files, when the policy of the child's runtime asks for it. *)
Definition export_scan (tenantID : string) (req : Request) (pol : option DelegationPolicy) : result DelegationError ContentScan :=
  match pol with
  | Some pol =>
      if ScanExportedFiles (Content pol) then
        match exportScanResolver s ≫= (fun resolve => resolve tenantID (InterceptorRef (Content pol))) with
        | None => Err ErrExportScanUnavailable
        | Some (chain, ctx) =>
            Ok (mkScan true (MaxExportedFileSize (Content pol)) (Some chain)
                  (mkScanContext (r_PoolRef req) (PolicyName pol) (ExportScan.InterceptorRef ctx) (Observer ctx)))
        end
      else Ok (mkScan false 0 None (mkScanContext "" "" "" false))
  | None => Ok (mkScan false 0 None (mkScanContext "" "" "" false))
  end.

Definition materializeExport (tenantID : string) (req : Request) (parent : Row) (childID : string) (pol : option DelegationPolicy) (w : World) :
  World * result DelegationError (option Plan) :=
  match exportMat s with
  | None => (w, Err ErrExportNotConfigured)
  | Some mat =>
      let l := r_FileExportLimits req in
      let limits := if (MaxFiles l =? 0)%Z && (MaxTotalSize l =? 0)%Z then DefaultFileExportLimits else l in
      match export_scan tenantID req pol with
      | Err e => (w, Err e)
      | Ok scan =>
          let '(files, res) := mat (Exports.mkParams (ID parent) childID tenantID (FileExport req) limits scan) in
          let w := match files with [] => w | _ => with_objects (<[childID := default [] (objects w !! childID) ++ files]> (objects w)) w end in
          (w, match res with Err e => Err (ErrExport e) | Ok r => Ok (WorkspacePlan r) end)
      end
  end.

Definition PropagationInherit : string := "inherit".
Definition PropagationControl : string := "control".
Definition ControlVariantID : string := "control".

Definition propagateExperimentContext (parent : Row) : option ExperimentContext :=
  match propagation s, RowExperiment (Other parent) with
  | Some get, Some e =>
      match get (ExperimentID e) with
      | None => None
      | Some m =>
          if String.eqb m PropagationInherit then Some (mkExperiment (ExperimentID e) (VariantID e) true)
          else if String.eqb m PropagationControl then Some (mkExperiment (ExperimentID e) ControlVariantID true)
          else None
      end
  | _, _ => None
  end.

Definition wrap_u32 (x : Z) : Z := (x mod 2 ^ 32)%Z.

Definition child_row (now : Time) (tenantID : string) (req : Request) (adm : admission) (root childID : string) (plan : option Plan) : Row :=
  let p := parent adm in
  mkSession childID tenantID (SessionStore.UserID p) StateCreated (r_RuntimeRef req) (r_PoolRef req) "" "" (ID p) root (wrap_u32 (depth adm + 1))
    "" zero_time ∅ now now zero_time F64.zero 0 0 0 0 0 zero_time ""
    (mkColumns (childProfile adm) (childVis adm)
       (stampLeasePolicy (storeLeaseFromSlice (LeaseSlice req)) (policyRef adm) (effectivePolicy adm) (childContentEff adm))
       (credentialOriginID (CredentialPropagation req) p childID) (String.eqb (CredentialPropagation req) Lease.CredentialPropagationDeny)
       (TracingContext (Other p)) (propagateExperimentContext p) plan).

(** The row with the runtime, the pool, the experiment and the plan replaced. *)
Definition with_route (rt pool : string) (e : option ExperimentContext) (plan : option Plan) (r : Row) : Row :=
  let o := Other r in
  mkSession (ID r) (SessionStore.TenantID r) (SessionStore.UserID r) (SState r) rt pool (ScrubPolicy r) (FailureClass r) (SessionStore.ParentSessionID r)
    (SessionStore.RootSessionID r) (DelegationDepth r) (PodAssignment r) (PodReleasedAt r) (Labels r) (CreatedAt r) (UpdatedAt r) (StateEnteredAt r)
    (AccumulatedSessionAgeSeconds r) (RecoveryGeneration r) (CoordinationGeneration r) (RetryCount r) (LastSeq r) (SessionStore.SchemaVersion r)
    (TerminatedAt r) (TerminatedReason r)
    (mkColumns (IsolationProfile o) (TreeVisibility o) (RowLease o) (CredentialOriginSessionID o) (CredentialDeny o) (TracingContext o) e plan).

Definition route_child (r : Row) : result DelegationError Row :=
  match experimentRouter s, RowExperiment (Other r) with
  | Some router, None =>
      match router r with
      | None => Err ErrRouting
      | Some None => Ok r
      | Some (Some (e, rt, pool)) =>
          Ok (with_route (if is_empty rt then RuntimeRef r else rt) (if is_empty pool then PoolRef r else pool) (Some e) (RowPlan (Other r)) r)
      end
  | _, _ => Ok r
  end.

Definition composeChildWorkspaceDefaults (r : Row) : result DelegationError Row :=
  match composeDefaults s (RuntimeRef r) (RowPlan (Other r)) with
  | None => Err ErrDefaults
  | Some None => Ok r
  | Some (Some plan) => Ok (with_route (RuntimeRef r) (PoolRef r) (RowExperiment (Other r)) (Some plan) r)
  end.

Definition newChildID (root : string) (random : list Z) : result DelegationError string :=
  match idFn s with
  | Some id => Ok id
  | None => match NewChildID root random with Ok id => Ok id | Err e => Err (ErrChildID e) end
  end.

(** The row, and whether its identifier was reserved. *)
Definition buildChildSession (c : Call) (random : list Z) (tenantID : string) (req : Request) (adm : admission) (root : string) (w : World) :
  World * result DelegationError (Row * bool) :=
  match newChildID root random with
  | Err e => (w, Err e)
  | Ok childID =>
      let finish plan := let* r := route_child (child_row (now c) tenantID req adm root childID plan) in composeChildWorkspaceDefaults r in
      match FileExport req with
      | [] => (w, match finish None with Ok r => Ok (r, false) | Err e => Err e end)
      | _ =>
          let '(st, res) := SessionStore.Reserve c (store w) tenantID (SessionStore.UserID (parent adm)) childID true in
          match res with
          | Err e => (w, Err (ErrStore e))
          | Ok _ =>
              let '(w, res) := materializeExport tenantID req (parent adm) childID (effectivePolicy adm) (with_store st w) in
              match (let* plan := res in finish plan) with
              | Err e => (undoChildExport tenantID childID w, Err e)
              | Ok r => (w, Ok (r, true))
              end
          end
      end
  end.

(** An insert whose reply is lost has happened. *)
Definition commitChild (c : Call) (child : Row) (reserved : bool) (w : World) : World * result DelegationError () :=
  let '(st, res) := (if reserved then SessionStore.CreateReserved c (store w) child else SessionStore.Create c (store w) child) in
  let w := with_store st w in
  match res with
  | Ok _ => (w, if insert_lost f then Err ErrInsertUnknown else Ok ())
  | Err (ErrRefused r) => ((if reserved then undoChildExport (SessionStore.TenantID child) (ID child) w else w), Err (ErrStore (ErrRefused r)))
  | Err e => (w, Err (ErrStore e))
  end.

Definition root_of (parent : Row) : string :=
  if is_empty (SessionStore.RootSessionID parent) then ID parent else SessionStore.RootSessionID parent.

(** The reservation comes back beside the result. *)
Definition insertChildSession (c : Call) (random : list Z) (tenantID : string) (req : Request) (adm : admission) (w : World) :
  World * option Reservation * result DelegationError (Row * Z) :=
  let root := root_of (parent adm) in
  let '(w, res) := reserveTreeBudget tenantID req (parent adm) root w in
  match res with
  | Err e => (w, None, Err e)
  | Ok resv =>
      let '(w, res) := buildChildSession c random tenantID req adm root w in
      match res with
      | Err e => (w, resv, Err e)
      | Ok (child, reserved) =>
          let '(w, res) := commitChild c child reserved w in
          (w, resv, match res with Ok _ => Ok (child, (depth adm + 1)%Z) | Err e => Err e end)
      end
  end.

Definition Delegate (c : Call) (random : list Z) (tenantID : string) (req : Request) (w : World) : World * result DelegationError (Row * Z) :=
  match (let* adm := validateDelegation s (store w) tenantID req in
         let* adm := detectCycle s (now c) tenantID req adm in
         let* _ := checkDelegationDepth s req adm in Ok adm) with
  | Err e => (w, Err e)
  | Ok adm =>
      let '(w, resv, res) := insertChildSession c random tenantID req adm w in
      match res, resv with
      | Err e, Some r => (with_redis (TreeBudget.Return (return_reply f) r (redis w)).1 w, Err e)
      | res, _ => (w, res)
      end
  end.
End insert.
