(* ===== verification/DelegationRuns.v ===== *)
(** * Delegation trees ([gateway/mcpfabric/delegation/service.go])

    What a hop preserves, along any tree that delegations build; what a
    delegation that fails leaves behind; and where the gates do not do what their
    comments say. *)

From S2P Require Import Prelude StateMachine SessionApi SessionStore Redis TreeBudget Delegation Interceptors InterceptorRuns ExportScan Exports DelegationService.

#[local] Set Warnings "-register-all".

(** ** Content policies *)

(** [a] is at least as strict as [b]. *)
Definition tighter (a b : effContentPolicy) : Prop :=
  (MaxInputSize a <= MaxInputSize b)%Z /\ (MaxExportedFileSize a <= MaxExportedFileSize b)%Z /\
  (ScanExportedFiles b = true -> ScanExportedFiles a = true) /\
  (DelegationService.InterceptorRef b <> "" -> DelegationService.InterceptorRef a = DelegationService.InterceptorRef b).

Definition concrete (e : effContentPolicy) : Prop := (0 < MaxInputSize e)%Z /\ (0 < MaxExportedFileSize e)%Z.

Lemma tighter_refl e : tighter e e.
Proof. unfold tighter. split_and!; [lia|lia|done|done]. Qed.

Lemma tighter_trans a b c : tighter a b -> tighter b c -> tighter a c.
Proof. intros (H1 & H2 & H3 & H4) (J1 & J2 & J3 & J4). split_and!; [lia|lia|auto|]. intros Hne. rewrite H4; [by apply J4|]. by rewrite J4. Qed.

Lemma normalize_concrete cp : concrete (normalizeContentPolicy cp).
Proof. unfold concrete, normalizeContentPolicy, DefaultMaxInputSize, DefaultMaxExportedFileSize. cbn. split; case_match; simplify_bool; lia. Qed.

Lemma platform_concrete : concrete platformDefaultContentPolicy.
Proof. split; done. Qed.

Lemma resolve_tighter p c e : concrete p -> resolveChildContentPolicy p c = Ok e -> tighter e p /\ concrete e.
Proof.
  intros Hp. destruct c as [c|]; cbn [resolveChildContentPolicy]; [|intros [= <-]; by split; [apply tighter_refl|]].
  pose proof (normalize_concrete c) as Hn. destruct (_ <? _)%Z eqn:E1; [done|]. destruct (_ <? MaxExportedFileSize _)%Z eqn:E2; [done|].
  destruct (ScanExportedFiles p && _) eqn:E3; [done|].
  assert (ScanExportedFiles p = true -> ScanExportedFiles (normalizeContentPolicy c) = true) as Hscan.
  { intros Hs. rewrite Hs in E3. by destruct (ScanExportedFiles (normalizeContentPolicy c)). }
  apply Z.ltb_ge in E1, E2.
  destruct (is_empty (DelegationService.InterceptorRef p)) eqn:E4.
  - apply is_empty_spec in E4. intros [= <-]. split; [|done]. split_and!; [done|done|done|congruence].
  - destruct (String.eqb _ _) eqn:E5; [|by destruct (is_empty (DelegationService.InterceptorRef (normalizeContentPolicy c)))]. apply String.eqb_eq in E5. intros [= <-]. by split.
Qed.

Section tree.
Context (s : Service).

Lemma effective_concrete tenantID p : concrete (effectiveParentContentPolicy s tenantID p).
Proof.
  unfold effectiveParentContentPolicy. assert (concrete (match (runtimes s ≫= (fun get => ResolveRuntime get (RuntimeRef p))) ≫= runtime_policy s tenantID with
    | Some pol => normalizeContentPolicy (Content pol) | None => platformDefaultContentPolicy end)) as H.
  { case_match; [apply normalize_concrete|apply platform_concrete]. }
  destruct (RowLease (Other p)); [|done]. destruct (_ || _); [apply normalize_concrete|done].
Qed.

Lemma slice_lease_content sl l : storeLeaseFromSlice sl = Some l ->
  ContentPolicyRef l = "" /\ ContentMaxInputSize l = 0%Z /\ ContentScanExportedFiles l = false /\ ContentMaxExportedFileSize l = 0%Z.
Proof. unfold storeLeaseFromSlice. destruct (leaseIsZero _); [done|]. by intros [= <-]. Qed.

(** The content columns of a lease that carries [eff]. *)
Definition carries (l : DelegationLease) (eff : effContentPolicy) : Prop :=
  ContentPolicyRef l = DelegationService.InterceptorRef eff /\ ContentScanExportedFiles l = ScanExportedFiles eff /\
  ContentMaxInputSize l = (if (MaxInputSize eff <? DefaultMaxInputSize)%Z then MaxInputSize eff else 0%Z) /\
  ContentMaxExportedFileSize l = (if (MaxExportedFileSize eff <? DefaultMaxExportedFileSize)%Z then MaxExportedFileSize eff else 0%Z).

Definition has_content (l : DelegationLease) : bool :=
  (0 <? ContentMaxInputSize l)%Z || negb (is_empty (ContentPolicyRef l)) || ContentScanExportedFiles l || (0 <? ContentMaxExportedFileSize l)%Z.

Lemma carried_content l eff : concrete eff -> carries l eff -> has_content l = tighterThanDefault eff /\ (tighterThanDefault eff = true -> leaseIsZero l = false).
Proof.
  intros [Hi He] (E1 & E2 & E3 & E4). unfold has_content, tighterThanDefault, leaseIsZero. rewrite E1, E2, E3, E4.
  assert ((0 <? (if (MaxInputSize eff <? DefaultMaxInputSize)%Z then MaxInputSize eff else 0))%Z = (MaxInputSize eff <? DefaultMaxInputSize)%Z) as ->.
  { destruct (MaxInputSize eff <? _)%Z; [apply Z.ltb_lt; lia|done]. }
  assert ((0 <? (if (MaxExportedFileSize eff <? DefaultMaxExportedFileSize)%Z then MaxExportedFileSize eff else 0))%Z
          = (MaxExportedFileSize eff <? DefaultMaxExportedFileSize)%Z) as ->.
  { destruct (MaxExportedFileSize eff <? _)%Z; [apply Z.ltb_lt; lia|done]. }
  split; [by destruct (MaxInputSize eff <? _)%Z, (is_empty _), (ScanExportedFiles eff), (MaxExportedFileSize eff <? _)%Z|].
  intros Ht. destruct (is_empty (DelegationService.InterceptorRef eff)); [|by rewrite !andb_false_r].
  destruct (ScanExportedFiles eff); [by rewrite !andb_false_r|]. destruct (MaxInputSize eff <? _)%Z.
  - rewrite (proj2 (Z.eqb_neq (MaxInputSize eff) 0)) by lia. by rewrite !andb_false_r.
  - destruct (MaxExportedFileSize eff <? _)%Z; [|done]. rewrite (proj2 (Z.eqb_neq (MaxExportedFileSize eff) 0)) by lia. by rewrite !andb_false_r.
Qed.

Lemma carried_tighter l eff : concrete eff -> carries l eff ->
  tighter (normalizeContentPolicy (mkContent (ContentMaxInputSize l) (ContentPolicyRef l) (ContentScanExportedFiles l) (ContentMaxExportedFileSize l))) eff.
Proof.
  intros [Hi He] (E1 & E2 & E3 & E4). unfold normalizeContentPolicy. cbn. rewrite E1, E2, E3, E4. split_and!; cbn; [| |done|done].
  - destruct (MaxInputSize eff <? DefaultMaxInputSize)%Z eqn:E; simplify_bool; [|done]. by rewrite (proj2 (Z.leb_gt _ _)) by lia.
  - destruct (MaxExportedFileSize eff <? DefaultMaxExportedFileSize)%Z eqn:E; simplify_bool; [|done]. by rewrite (proj2 (Z.leb_gt _ _)) by lia.
Qed.

Lemma default_tighter eff : tighterThanDefault eff = false -> tighter platformDefaultContentPolicy eff.
Proof.
  unfold tighterThanDefault. rewrite !orb_false_iff, negb_false_iff, !Z.ltb_ge. intros [[[E1%is_empty_spec E2] E3] E4].
  split_and!; [done|done|congruence|congruence].
Qed.

(** The content policy on a lease. *)
Definition lease_content (l : DelegationLease) : effContentPolicy :=
  normalizeContentPolicy (mkContent (ContentMaxInputSize l) (ContentPolicyRef l) (ContentScanExportedFiles l) (ContentMaxExportedFileSize l)).

(** The content policy a row carries on its own lease, when it is stricter than
    the platform's. *)
Definition pinned (r : Row) : option effContentPolicy :=
  match RowLease (Other r) with
  | Some l => if has_content l && tighterThanDefault (lease_content l) then Some (lease_content l) else None
  | None => None
  end.

(** What a row holds its descendants to, whatever becomes of the registries. *)
Definition carried (r : Row) : effContentPolicy := default platformDefaultContentPolicy (pinned r).

Lemma pinned_effective tenantID r e : pinned r = Some e -> effectiveParentContentPolicy s tenantID r = e /\ tighterThanDefault e = true.
Proof using Type.
  unfold pinned, effectiveParentContentPolicy. destruct (RowLease (Other r)) as [l|]; [|done].
  destruct (has_content l && _) eqn:E; [|done]. apply andb_true_iff in E as [E1 E2]. unfold has_content in E1. rewrite E1. by intros [= <-].
Qed.

(** As strict as something stricter than the platform's policy is stricter too. *)
Lemma tighter_default a b : tighter a b -> tighterThanDefault b = true -> tighterThanDefault a = true.
Proof using Type.
  intros (H1 & H2 & H3 & H4). unfold tighterThanDefault. rewrite !orb_true_iff, !negb_true_iff, !Z.ltb_lt. intros [[[E|E]|E]|E]; [|auto|auto with lia..].
  left; left; left. rewrite H4; [done|]. intros E'. by rewrite E' in E.
Qed.

Lemma carried_default l eff : concrete eff -> carries l eff -> tighter (lease_content l) platformDefaultContentPolicy.
Proof using Type.
  intros [Hi He] (E1 & E2 & E3 & E4). unfold lease_content, normalizeContentPolicy. cbn. rewrite E1, E2, E3, E4.
  split_and!; cbn; [| |done|done]; case_match; simplify_bool; repeat case_match; simplify_bool; lia.
Qed.

(** What a stamp leaves on the row: a policy at least as strict as the one it
    was made with, and as the platform's. *)
Lemma stamp_carried sl ref pol eff (r : Row) : concrete eff -> RowLease (Other r) = stampLeasePolicy (storeLeaseFromSlice sl) ref pol eff ->
  tighter (carried r) eff /\ tighter (carried r) platformDefaultContentPolicy.
Proof using Type.
  intros Hc Hl. unfold carried, pinned. rewrite Hl. clear Hl.
  assert (forall l, l = default no_lease (storeLeaseFromSlice sl) ->
    ContentPolicyRef l = "" /\ ContentMaxInputSize l = 0%Z /\ ContentScanExportedFiles l = false /\ ContentMaxExportedFileSize l = 0%Z) as Hsl.
  { intros l ->. destruct (storeLeaseFromSlice sl) as [l|] eqn:Es; [by apply (slice_lease_content sl)|done]. }
  specialize (Hsl _ eq_refl). unfold stampLeasePolicy. destruct (tighterThanDefault eff) eqn:Et.
  - rewrite andb_false_r. set (l := mkLease _ _ _ _ _ _ _ _ _ _ _ _).
    assert (carries l eff) as Hca. { destruct Hsl as (E1 & E2 & E3 & E4). unfold carries, l. cbn. rewrite E2, E4. done. }
    rewrite (proj2 (carried_content l eff Hc Hca) Et), (proj1 (carried_content l eff Hc Hca)), Et.
    pose proof (carried_tighter l eff Hc Hca) as Ht. fold (lease_content l) in Ht. rewrite (tighter_default _ _ Ht Et). cbn.
    split; [done|by eapply carried_default].
  - assert (forall l, has_content l = false -> match Some l with
      | Some l => if has_content l && tighterThanDefault (lease_content l) then Some (lease_content l) else None | None => None end = None) as Hno.
    { by intros l ->. }
    assert (tighter platformDefaultContentPolicy eff /\ tighter platformDefaultContentPolicy platformDefaultContentPolicy) as Hd
      by (split; [by apply default_tighter|apply tighter_refl]).
    destruct Hsl as (E1 & E2 & E3 & E4). destruct (_ && negb false).
    + destruct (storeLeaseFromSlice sl) as [l|]; [|done]. rewrite Hno; [done|]. unfold has_content. cbn in *. by rewrite E1, E2, E3, E4.
    + set (l := mkLease _ _ _ _ _ _ _ _ _ _ _ _). destruct (leaseIsZero l); [done|]. rewrite Hno; [done|].
      unfold has_content, l. cbn. by rewrite E1, E2, E3, E4.
Qed.

(** What is stamped on a lease is read back at least as strict, when the row's
    runtime has the policy the stamp was made with. *)
Lemma stamp_read tenantID sl ref pol eff (r : Row) :
  concrete eff -> (forall p, pol = Some p -> eff = normalizeContentPolicy (Content p)) ->
  RowLease (Other r) = stampLeasePolicy (storeLeaseFromSlice sl) ref pol eff ->
  (runtimes s ≫= (fun get => ResolveRuntime get (RuntimeRef r))) ≫= runtime_policy s tenantID = pol ->
  tighter (effectiveParentContentPolicy s tenantID r) eff.
Proof using Type.
  intros Hc Hpol Hl Hlive. unfold effectiveParentContentPolicy. rewrite Hl, Hlive. clear Hl Hlive.
  assert (tighterThanDefault eff = false -> tighter (match pol with Some p => normalizeContentPolicy (Content p) | None => platformDefaultContentPolicy end) eff) as Hlive.
  { intros Ht. destruct pol as [p|]; [rewrite (Hpol p eq_refl); apply tighter_refl|by apply default_tighter]. }
  assert (forall l, carries l eff \/ has_content l = false /\ tighterThanDefault eff = false -> tighter (if has_content l
    then normalizeContentPolicy (mkContent (ContentMaxInputSize l) (ContentPolicyRef l) (ContentScanExportedFiles l) (ContentMaxExportedFileSize l))
    else match pol with Some p => normalizeContentPolicy (Content p) | None => platformDefaultContentPolicy end) eff) as Hread.
  { intros l [Hca|[-> Ht]]; [|by apply Hlive]. destruct (carried_content l eff Hc Hca) as [-> _].
    destruct (tighterThanDefault eff) eqn:Et; [by apply carried_tighter|by apply Hlive]. }
  assert (forall l, l = default no_lease (storeLeaseFromSlice sl) ->
    ContentPolicyRef l = "" /\ ContentMaxInputSize l = 0%Z /\ ContentScanExportedFiles l = false /\ ContentMaxExportedFileSize l = 0%Z) as Hsl.
  { intros l ->. destruct (storeLeaseFromSlice sl) as [l|] eqn:Es; [by apply (slice_lease_content sl)|done]. }
  specialize (Hsl _ eq_refl). unfold stampLeasePolicy. destruct (tighterThanDefault eff) eqn:Et.
  - rewrite andb_false_r. set (l := mkLease _ _ _ _ _ _ _ _ _ _ _ _).
    assert (carries l eff) as Hca. { destruct Hsl as (E1 & E2 & E3 & E4). unfold carries, l. cbn. rewrite E2, E4. done. }
    rewrite (proj2 (carried_content l eff Hc Hca) Et). apply Hread. by left.
  - destruct (_ && negb false).
    + destruct (storeLeaseFromSlice sl) as [l|] eqn:Es; [|by apply Hlive]. apply Hread. right. split; [|done].
      cbn in Hsl. destruct Hsl as (E1 & E2 & E3 & E4). unfold has_content. by rewrite E1, E2, E3, E4.
    + set (l := mkLease _ _ _ _ _ _ _ _ _ _ _ _). destruct (leaseIsZero l); [by apply Hlive|]. apply Hread. right. split; [|done].
      destruct Hsl as (E1 & E2 & E3 & E4). unfold has_content, l. cbn. by rewrite E1, E2, E3, E4.
Qed.

(** ** One hop *)

(** The router may enroll a child and choose its pool, not its runtime. *)
Definition keeps_runtime : Prop :=
  forall router r e rt pool, experimentRouter s = Some router -> router r = Some (Some (e, rt, pool)) -> rt = "".

(** The content policy a row's children are compared with. *)
Definition effective (r : Row) : effContentPolicy := effectiveParentContentPolicy s (SessionStore.TenantID r) r.

(** What a child row keeps of its parent's. *)
Record kin (p c : Row) : Prop := mkKin {
  kin_tenant : SessionStore.TenantID c = SessionStore.TenantID p;
  kin_owner : SessionStore.UserID c = SessionStore.UserID p;
  kin_root : root_of p <> "" -> root_of c = root_of p;
  kin_profile : IsolationProfile (Other p) <> "" -> AtLeastAsRestrictive (IsolationProfile (Other c)) (IsolationProfile (Other p)) = true;
  kin_vis : AtLeastAsNarrow (TreeVisibility (Other c)) (TreeVisibility (Other p)) = true }.

(** And what its content policy is held to when the hop is made. *)
Record hop (p c : Row) : Prop := mkHop {
  hop_kin : kin p c;
  hop_made : tighter (carried c) (effective p);
  hop_default : tighter (carried c) platformDefaultContentPolicy;
  hop_live : keeps_runtime -> tighter (effective c) (effective p) }.

(** The columns of a row that are settled when it is made. *)
Definition settled (r : Row) :=
  (ID r, SessionStore.TenantID r, SessionStore.UserID r, SessionStore.ParentSessionID r, SessionStore.RootSessionID r, DelegationDepth r,
   IsolationProfile (Other r), TreeVisibility (Other r), RowLease (Other r)).
Definition fixed (r : Row) := (settled r, RuntimeRef r).

Lemma effective_fixed r r' : fixed r = fixed r' -> effective r = effective r'.
Proof using Type. unfold fixed, settled, effective, effectiveParentContentPolicy. by intros [= _ -> _ _ _ _ _ _ -> ->]. Qed.

Lemma carried_settled r r' : settled r = settled r' -> pinned r = pinned r' /\ carried r = carried r'.
Proof using Type. unfold settled, carried, pinned. by intros [= _ _ _ _ _ _ _ _ ->]. Qed.

Lemma kin_settled p p' c c' : settled p = settled p' -> settled c = settled c' -> kin p c -> kin p' c'.
Proof using Type.
  intros Ep Ec [H1 H2 H3 H4 H5]. revert H1 H2 H3 H4 H5. unfold root_of.
  unfold settled in *. injection Ep as -> -> -> _ -> _ -> -> _. injection Ec as -> -> -> _ -> _ -> -> _. by split.
Qed.

Lemma hop_settled p c c' : settled c = settled c' -> (keeps_runtime -> fixed c = fixed c') -> hop p c -> hop p c'.
Proof using Type.
  intros Es Ef [H1 H2 H3 H4]. destruct (carried_settled _ _ Es) as [_ Ec]. split.
  - by eapply kin_settled.
  - by rewrite <- Ec.
  - by rewrite <- Ec.
  - intros Hk. rewrite <- (effective_fixed _ _ (Ef Hk)). auto.
Qed.

(** The stages before the insert have let the delegation through. *)
Record passed (st : Rows) (tenantID : string) (req : Request) (adm : admission) : Prop := mkPassed {
  pa_parent : SessionStore.Get st tenantID (r_ParentSessionID req) = Ok (parent adm);
  pa_user : SessionStore.UserID (parent adm) <> "";
  pa_profile : IsolationProfile (Other (parent adm)) <> "" -> AtLeastAsRestrictive (childProfile adm) (IsolationProfile (Other (parent adm))) = true;
  pa_vis : AtLeastAsNarrow (childVis adm) (TreeVisibility (Other (parent adm))) = true;
  pa_policy : (runtimes s ≫= (fun get => ResolveRuntime get (r_RuntimeRef req))) ≫= runtime_policy s tenantID = effectivePolicy adm;
  pa_content : resolveChildContentPolicy (effectiveParentContentPolicy s tenantID (parent adm)) (Content <$> effectivePolicy adm) = Ok (childContentEff adm) }.

Lemma visOrDefault_idem v : visOrDefault (visOrDefault v) = visOrDefault v.
Proof. unfold visOrDefault. destruct (visIsValid v) eqn:E; [by rewrite E|done]. Qed.

Lemma resolve_vis p c v : resolveChildTreeVisibility p c = Ok v -> AtLeastAsNarrow v p = true.
Proof.
  unfold resolveChildTreeVisibility. assert (forall x, AtLeastAsNarrow x (visOrDefault p) = AtLeastAsNarrow x p) as E.
  { intros x. unfold AtLeastAsNarrow. by rewrite visOrDefault_idem. }
  destruct (is_empty c).
  - intros [= <-]. rewrite <- E. apply narrow_refl.
  - destruct (negb (visIsValid c)); [done|]. destruct (AtLeastAsNarrow c _) eqn:En; [|done]. intros [= <-]. by rewrite <- E.
Qed.

Lemma stages_pass st now tenantID req adm : (let* adm := validateDelegation s st tenantID req in let* adm := detectCycle s now tenantID req adm in
  let* _ := checkDelegationDepth s req adm in Ok adm) = Ok adm -> passed st tenantID req adm.
Proof using Type.
  rewrite rbind_Ok. intros (a0 & H0 & H1). rewrite rbind_Ok in H1. destruct H1 as (a1 & H1 & H2). rewrite rbind_Ok in H2. destruct H2 as (_ & _ & [= ->]).
  revert H0. unfold validateDelegation. destruct (Lease.ValidateApprovalMode _); [|done]. destruct (Lease.ValidateCredentialPropagation _); [|done].
  destruct (String.eqb _ _); [done|]. destruct (SessionStore.Get st tenantID (r_ParentSessionID req)) as [p|] eqn:Eg; [|done]. destruct (negb _ && _); [done|].
  destruct (is_empty (SessionStore.UserID p)) eqn:Eu; [done|]. set (prof := if is_empty (r_IsolationProfile req) then _ else _).
  destruct (negb (profileIsValid prof)); [done|]. destruct (negb (is_empty _) && negb (AtLeastAsRestrictive _ _)) eqn:Ep; [done|].
  rewrite rbind_Ok. intros (v & Hv & H0). destruct (String.eqb _ _ && _); [done|]. destruct (buildLineage s st tenantID p) as [lin d]. injection H0 as <-.
  revert H1. unfold detectCycle. cbn [parentContentEff lineage parent childProfile childVis depth]. rewrite rbind_Ok. intros ([[rs ref] pol] & Hres & H1).
  rewrite rbind_Ok in H1. destruct H1 as (eff & Heff & H1). destruct (Cycle.ToError _ _); [done|]. injection H1 as <-. split; cbn; [done| | | | |done].
  - intros E. by rewrite E in Eu.
  - intros Hne. rewrite (is_empty_false _ Hne) in Ep. cbn in Ep. by destruct (AtLeastAsRestrictive _ _).
  - by eapply resolve_vis.
  - destruct (runtimes s ≫= _) as [rt|]; [|by injection Hres as <- <- <-]. cbn. destruct (String.eqb _ _); [done|].
    destruct (runtime_policy s tenantID rt) as [q|] eqn:Erp; [|by injection Hres as <- <- <-]. rewrite rbind_Ok in Hres. destruct Hres as (_ & _ & Hres).
    rewrite rbind_Ok in Hres. destruct Hres as (_ & _ & [= <- <- <-]). done.
Qed.

Definition built (now : Time) (tenantID : string) (req : Request) (adm : admission) (childID : string) (plan : option Plan) : result DelegationError Row :=
  let* r := route_child s (child_row s now tenantID req adm (root_of (parent adm)) childID plan) in composeChildWorkspaceDefaults s r.

(** Routing and the composed defaults leave what a hop depends on. *)
Lemma built_fixed now tenantID req adm childID plan r : built now tenantID req adm childID plan = Ok r ->
  let r0 := child_row s now tenantID req adm (root_of (parent adm)) childID plan in settled r0 = settled r /\ (keeps_runtime -> fixed r0 = fixed r).
Proof using Type.
  unfold built. rewrite rbind_Ok. intros (r0 & H0 & H1).
  assert (settled r = settled r0 /\ fixed r = fixed r0) as [-> ->].
  { revert H1. unfold composeChildWorkspaceDefaults. destruct (composeDefaults s _ _) as [[?|]|]; [|by intros [= <-]|done]. by intros [= <-]. }
  revert H0. unfold route_child. set (r1 := child_row _ _ _ _ _ _ _ _). destruct (experimentRouter s) as [router|] eqn:Er; [|by intros [= <-]].
  destruct (RowExperiment (Other r1)); [by intros [= <-]|]. destruct (router r1) as [[[[e rt] pool]|]|] eqn:Eo; [|by intros [= <-]|done].
  intros [= <-]. split; [done|]. intros Hk. by rewrite (Hk _ _ _ _ _ Er Eo).
Qed.

Lemma built_ids now tenantID req adm childID plan r : built now tenantID req adm childID plan = Ok r ->
  ID r = childID /\ SessionStore.TenantID r = tenantID /\ SessionStore.ParentSessionID r = ID (parent adm) /\ SessionStore.RootSessionID r = root_of (parent adm).
Proof using Type.
  unfold built. rewrite rbind_Ok. intros (r0 & H0 & H1).
  assert (ID r = ID r0 /\ SessionStore.TenantID r = SessionStore.TenantID r0 /\ SessionStore.ParentSessionID r = SessionStore.ParentSessionID r0 /\
    SessionStore.RootSessionID r = SessionStore.RootSessionID r0) as (-> & -> & -> & ->).
  { revert H1. unfold composeChildWorkspaceDefaults. destruct (composeDefaults s _ _) as [[?|]|]; [|by intros [= <-]|done]. by intros [= <-]. }
  revert H0. unfold route_child. set (r1 := child_row _ _ _ _ _ _ _ _). destruct (experimentRouter s) as [router|]; [|by intros [= <-]].
  destruct (RowExperiment (Other r1)); [by intros [= <-]|]. destruct (router r1) as [[[[e rt] pool]|]|]; [|by intros [= <-]|done]. by intros [= <-].
Qed.

Lemma get_row st tenantID id (r : Row) : SessionStore.Get st tenantID id = Ok r -> sessions st !! id = Some r /\ SessionStore.TenantID r = tenantID.
Proof. unfold SessionStore.Get. destruct (sessions st !! id) as [x|]; [|done]. destruct (String.eqb _ _) eqn:E; [|done]. apply String.eqb_eq in E. by intros [= <-]. Qed.

Lemma child_hop st now tenantID req adm childID plan : passed st tenantID req adm ->
  hop (parent adm) (child_row s now tenantID req adm (root_of (parent adm)) childID plan).
Proof using Type.
  intros [Hg Hu Hp Hv Hpol Hc]. destruct (get_row _ _ _ _ Hg) as [_ Ht].
  destruct (resolve_tighter _ _ _ (effective_concrete tenantID (parent adm)) Hc) as [Htight Hconc].
  destruct (stamp_carried (LeaseSlice req) (policyRef adm) (effectivePolicy adm) (childContentEff adm)
    (child_row s now tenantID req adm (root_of (parent adm)) childID plan) Hconc eq_refl) as [Hmade Hdef]. split.
  - split; cbn; [done|done| |done|done]. intros Hne. unfold root_of at 1. cbn. by rewrite (is_empty_false _ Hne).
  - unfold effective. rewrite Ht. exact (tighter_trans _ _ _ Hmade Htight).
  - done.
  - intros _. unfold effective. cbn [SessionStore.TenantID child_row]. rewrite Ht. eapply tighter_trans; [|exact Htight].
    eapply (stamp_read tenantID (LeaseSlice req) (policyRef adm) (effectivePolicy adm)); [done| |done|done].
    intros q Hq. rewrite Hq in Hc. revert Hc. cbn [fmap option_fmap option_map resolveChildContentPolicy]. repeat case_match; try done; by intros [= <-].
Qed.

Lemma fresh_hop c st p (r : Row) : hop p r -> SessionStore.RootSessionID r = root_of p -> hop p (fresh_row c st r).
Proof using Type.
  intros [[H1 H2 H3 H4 H5] H6 H7 H8] Hroot. split; [|done|done|done]. split; [done|done| |done|done].
  intros Hne. unfold root_of at 1, fresh_row, rootOf. cbn. rewrite Hroot, (is_empty_false _ Hne). cbn. by rewrite (is_empty_false _ Hne).
Qed.
End tree.

(** ** The effect on the rows *)

Section effects.
Context {Σ : Type} `{RedisServer Σ} (s : Service) (f : Faults).
#[local] Abbreviation World := (DelegationService.World (Σ := Σ)).

Lemma reserve_store ttl tenantID r (w w' : World) res : reserveDetectingExpiry s f ttl tenantID r w = (w', res) -> store w' = store w /\ objects w' = objects w.
Proof.
  unfold reserveDetectingExpiry. destruct (TreeBudget.Reserve ttl (first_reserve f) r (redis w)) as [σ [t|[]]]; try by intros [= <- _].
  destruct (TreeBudget.Reserve ttl (second_reserve f) _ _) as [σ' [t|[]]]; try by intros [= <- _].
  destruct (isFirstReservation _ _ _); [by intros [= <- _]|]. destruct (keysExpired s); by intros [= <- _].
Qed.

Lemma reserveTreeBudget_store tenantID req p root (w w' : World) res : reserveTreeBudget s f tenantID req p root w = (w', res) -> store w' = store w /\ objects w' = objects w.
Proof.
  unfold reserveTreeBudget. destruct (Lease.ValidateChildSlice _ _ _ _ _); [|by intros [= <- _]]. destruct (_ && _); [by intros [= <- _]|].
  destruct (treeBudget s) as [ttl|]; [|by intros [= <- _]]. destruct (treeTokenCap s _ _ _); [|by intros [= <- _]].
  destruct (reserveDetectingExpiry _ _ _ _ _ w) as [w0 r0] eqn:E. intros [= <- _]. by eapply reserve_store.
Qed.


(** The identifier [id] is reserved for the owner, and objects appear under it
    only. *)
Definition held (tenantID owner id : string) (w w' : World) : Prop :=
  exists rv, reservations (store w) !! reservationKey tenantID id = None /\
    reservations (store w') = <[reservationKey tenantID id := rv]> (reservations (store w)) /\
    RTenant rv = tenantID /\ RSession rv = id /\ RUser rv = owner /\ forall j, j <> id -> objects w' !! j = objects w !! j.

(** Nothing is left, or what is left can be found through a reservation. *)
Definition accounted (tenantID owner : string) (w w' : World) : Prop :=
  sessions (store w') = sessions (store w) /\
  (reservations (store w') = reservations (store w) /\ objects w' ⊆ objects w \/ exists id, held tenantID owner id w w').

Lemma reserve_id c st tenantID owner id (st' : Rows) res : owner <> "" -> SessionStore.Reserve c st tenantID owner id true = (st', res) ->
  match res with
  | Ok _ => exists rv, reservations st !! reservationKey tenantID id = None /\ sessions st' = sessions st /\
      reservations st' = <[reservationKey tenantID id := rv]> (reservations st) /\ RTenant rv = tenantID /\ RSession rv = id /\ RUser rv = owner
  | Err _ => st' = st
  end.
Proof.
  intros Ho. unfold SessionStore.Reserve. destruct (fenceLocked _ _ _ _ _ _ _); [by intros [= <- <-]|]. rewrite (is_empty_false _ Ho).
  destruct (reservations st !! _) eqn:E; intros [= <- <-]; [done|]. eexists. by split_and!.
Qed.

Lemma materialize_objects tenantID req p childID pol (w w' : World) res : materializeExport s tenantID req p childID pol w = (w', res) ->
  store w' = store w /\ redis w' = redis w /\ forall j, j <> childID -> objects w' !! j = objects w !! j.
Proof.
  unfold materializeExport. destruct (exportMat s) as [mat|]; [|by intros [= <- _]]. destruct (export_scan s _ _ _); [|by intros [= <- _]].
  destruct (mat _) as [files r]. intros [= <- _]. destruct files; [done|]. cbn. split_and!; [done|done|]. intros j Hj. by rewrite lookup_insert_ne.
Qed.

(** Undoing an export gives the identifier back, or keeps it reserved. *)
Lemma undo_accounted tenantID owner id (w w' : World) : sessions (store w') = sessions (store w) -> held tenantID owner id w w' ->
  accounted tenantID owner w (undoChildExport s f tenantID id w').
Proof.
  intros Hs Hh. pose proof Hh as (rv & Hn & Hr & _ & _ & _ & Ho). unfold undoChildExport. destruct (negb _ || _); [split; [done|right; by exists id]|].
  split; [done|]. left. cbn. split; [rewrite Hr; by apply delete_insert_id|].
  apply map_subseteq_spec. intros j x. rewrite lookup_delete_Some. intros [Hj Hx]. by rewrite <- Ho.
Qed.

Lemma undo_redis tenantID id (w : World) : redis (undoChildExport s f tenantID id w) = redis w.
Proof. unfold undoChildExport. by destruct (negb _ || _). Qed.

Lemma build_effect c random tenantID req adm (w w' : World) res : SessionStore.UserID (parent adm) <> "" ->
  buildChildSession s f c random tenantID req adm (root_of (parent adm)) w = (w', res) ->
  redis w' = redis w /\
  match res with
  | Ok (r, reserved) => exists id plan, built s (now c) tenantID req adm id plan = Ok r /\
      if reserved then sessions (store w') = sessions (store w) /\ held tenantID (SessionStore.UserID (parent adm)) id w w' else w' = w
  | Err _ => accounted tenantID (SessionStore.UserID (parent adm)) w w'
  end.
Proof.
  intros Hu. unfold buildChildSession. destruct (newChildID s _ random) as [id|e]; [|intros [= <- <-]; by repeat split; left].
  destruct (FileExport req) as [|sp sps].
  - fold (built s (now c) tenantID req adm id None). destruct (built s _ _ _ _ _ _) as [r|e] eqn:Eb; intros [= <- <-]; split; try done.
    + by exists id, None.
    + by split; [|left].
  - destruct (SessionStore.Reserve c (store w) _ _ _ _) as [st [[]|e]] eqn:Er; pose proof (reserve_id _ _ _ _ _ _ _ Hu Er) as Hres; cbn in Hres;
      [|intros [= <- <-]; by repeat split; left].
    destruct Hres as (rv & Hn & Hs & Hr & R1 & R2 & R3). destruct (materializeExport s _ _ _ _ _ _) as [w1 rm] eqn:Em.
    destruct (materialize_objects _ _ _ _ _ _ _ _ Em) as (M1 & M2 & M3). cbn in M1, M2, M3.
    assert (sessions (store w1) = sessions (store w)) as Hs1 by (by rewrite M1).
    assert (held tenantID (SessionStore.UserID (parent adm)) id w w1) as Hh. { exists rv. rewrite M1. by split_and!. }
    destruct (rbind rm _) as [r|e] eqn:Ef; intros [= <- <-].
    + split; [done|]. rewrite rbind_Ok in Ef. destruct Ef as (plan & -> & Ef). exists id, plan. by split.
    + split; [by rewrite undo_redis|]. by apply undo_accounted.
Qed.

Lemma create_effect c st (child : Row) (before : Row -> option StoreErr) st' res : createLocked c st child before = (st', res) ->
  match res with
  | Ok _ => sessions st !! ID child = None /\ sessions st' = <[ID child := fresh_row c st child]> (sessions st)
  | Err _ => st' = st
  end.
Proof.
  unfold createLocked. destruct (fenceLocked _ _ _ _ _ _ _); [by intros [= <- <-]|]. destruct (sessions st !! ID child) eqn:E; [by intros [= <- <-]|].
  destruct (before _); by intros [= <- <-].
Qed.

(** The row [child] was inserted, and objects were written for it only. *)
Definition inserted (c : Call) (w w' : World) (child : Row) : Prop :=
  exists st, sessions st = sessions (store w) /\ sessions (store w) !! ID child = None /\
    sessions (store w') = <[ID child := fresh_row c st child]> (sessions (store w)) /\ forall j, j <> ID child -> objects w' !! j = objects w !! j.

Lemma commit_effect c tenantID owner (child : Row) (reserved : bool) (w0 w w' : World) res : SessionStore.TenantID child = tenantID ->
  (if reserved then sessions (store w) = sessions (store w0) /\ held tenantID owner (ID child) w0 w else w = w0) ->
  commitChild s f c child reserved w = (w', res) -> redis w' = redis w /\
  (inserted c w0 w' child /\ (res = Ok () \/ insert_lost f = true) \/ (exists e, res = Err e) /\ accounted tenantID owner w0 w').
Proof.
  intros Ht Hr. unfold commitChild.
  assert (exists before, (if reserved then SessionStore.CreateReserved c (store w) child else SessionStore.Create c (store w) child) = createLocked c (store w) child before) as [before ->].
  { destruct reserved; eexists; reflexivity. }
  destruct (createLocked c (store w) child before) as [st r] eqn:Ec. pose proof (create_effect _ _ _ _ _ _ Ec) as He.
  assert (sessions (store w) = sessions (store w0)) as Hs by (destruct reserved; [by destruct Hr|by subst]).
  destruct r as [[]|e]; cbn in He.
  - destruct He as [He1 He2]. intros [= <- <-]. split; [done|]. left. split.
    + exists (store w). rewrite <- Hs. cbn. split_and!; [done|done|done|]. destruct reserved; [destruct Hr as [_ (rv & _ & _ & _ & _ & _ & Ho)]; exact Ho|by subst].
    + destruct (insert_lost f); tauto.
  - subst st. replace (with_store (store w) w) with w by (by destruct w).
    assert (accounted tenantID owner w0 w) as Ha. { split; [done|]. destruct reserved; [right; exists (ID child); by destruct Hr|left; by subst]. }
    assert (forall r, (if reserved then undoChildExport s f (SessionStore.TenantID child) (ID child) w else w, Err (ErrStore (ErrRefused r))) = (w', res) ->
      redis w' = redis w /\ ((exists e, res = Err e) /\ accounted tenantID owner w0 w')) as Href.
    { intros r [= <- <-]. destruct reserved; [rewrite undo_redis, Ht|by eauto]. destruct Hr. split; [done|]. split; [by eexists|]. by apply undo_accounted. }
    destruct e; try (intros [= <- <-]; split; [done|]; right; by eauto).
    intros Hx. destruct (Href _ Hx) as [? ?]. by split; [|right].
Qed.

(** What a delegation does to the rows, whatever fails. *)
Lemma Delegate_effect c random tenantID req (w w' : World) r : Delegate s f c random tenantID req w = (w', r) ->
  (exists p child, SessionStore.Get (store w) tenantID (r_ParentSessionID req) = Ok p /\ hop s p child /\ SessionStore.ParentSessionID child = ID p /\
     SessionStore.RootSessionID child = root_of p /\ inserted c w w' child /\ match r with Ok (x, _) => x = child | Err _ => insert_lost f = true end) \/
  (exists e, r = Err e) /\ (w' = w \/ exists p, SessionStore.Get (store w) tenantID (r_ParentSessionID req) = Ok p /\ accounted tenantID (SessionStore.UserID p) w w').
Proof.
  unfold Delegate. destruct (rbind _ _) as [adm|e] eqn:Es; [|intros [= <- <-]; by eauto].
  apply stages_pass in Es. pose proof (pa_parent _ _ _ _ _ Es) as Hg. pose proof (pa_user _ _ _ _ _ Es) as Hu.
  unfold insertChildSession. destruct (reserveTreeBudget s f _ _ _ _ w) as [w1 [resv|e]] eqn:Eb; destruct (reserveTreeBudget_store _ _ _ _ _ _ _ Eb) as [B1 B2].
  2: { intros [= <- <-]. right. split; [by eexists|]. right. exists (parent adm). split; [done|]. split; [by rewrite B1|]. left. by rewrite B1, B2. }
  destruct (buildChildSession s f c random _ _ _ _ w1) as [w2 res] eqn:Ebu. destruct (build_effect _ _ _ _ _ _ _ _ Hu Ebu) as [R2 Hbu].
  assert (forall w3, accounted tenantID (SessionStore.UserID (parent adm)) w1 w3 -> accounted tenantID (SessionStore.UserID (parent adm)) w w3) as Hacc.
  { unfold accounted, held. by rewrite B1, B2. }
  assert (forall e w3 rv, accounted tenantID (SessionStore.UserID (parent adm)) w1 w3 ->
    accounted tenantID (SessionStore.UserID (parent adm)) w (fst (match @Err DelegationError (Row * Z) e, rv with
      | Err e0, Some r0 => (with_redis (TreeBudget.Return (return_reply f) r0 (redis w3)).1 w3, Err e0) | res0, _ => (w3, res0) end))) as Hret.
  { intros e w3 rv Ha. destruct rv; cbn; by apply Hacc. }
  destruct res as [[child reserved]|e].
  2: { intros E. right. specialize (Hret e w2 resv Hbu). destruct resv; injection E as <- <-; (split; [by eexists|]); right; by exists (parent adm). }
  destruct Hbu as (id & plan & Hb & Hr).
  assert (hop s (parent adm) child) as Hhop.
  { destruct (built_fixed s _ _ _ _ _ _ _ Hb) as [Hset Hfix]. eapply hop_settled; [exact Hset|exact Hfix|]. by eapply child_hop. }
  destruct (built_ids s _ _ _ _ _ _ _ Hb) as (F1 & F2 & F5 & F6). rewrite <- F1 in Hr.
  destruct (commitChild s f c child reserved w2) as [w3 rc] eqn:Ecm. destruct (commit_effect c _ _ _ _ _ _ _ _ F2 Hr Ecm) as [R3 [[Hin Hok]|[[e ->] Ha]]].
  - assert (inserted c w w3 child) as Hin'. { revert Hin. unfold inserted. by rewrite B1, B2. }
    destruct rc as [[]|e]; cbn.
    + intros [= <- <-]. left. exists (parent adm), child. split_and!; try done.
    + destruct Hok as [?|Hlost]; [done|]. intros E. left. exists (parent adm), child. destruct resv; injection E as <- <-; split_and!; try done.
  - cbn. intros E. right. specialize (Hret e w3 resv Ha). destruct resv; injection E as <- <-; (split; [by eexists|]); right; by exists (parent adm).
Qed.
End effects.

(** ** Trees of sessions *)

Section trees.
Context {Σ : Type} `{RedisServer Σ}.

(** The services the delegations of a run go through: the registries of
    runtimes and policies, the router and the settings of each. *)
Context (services : Service -> Prop).
#[local] Abbreviation World := (DelegationService.World (Σ := Σ)).

(** Everything else that happens to the rows: they are deleted, or change in
    columns a delegation does not fix, and sessions that are not delegated come
    to be, under identifiers no delegated session names as its parent. *)
Definition elsewhere (st st' : Rows) : Prop :=
  forall id r', sessions st' !! id = Some r' ->
    (exists r, sessions st !! id = Some r /\ fixed r = fixed r') \/
    (sessions st !! id = None /\ ID r' = id /\ DelegationDepth r' = 0%Z /\
     forall j c, sessions st' !! j = Some c -> (0 < DelegationDepth c)%Z -> SessionStore.ParentSessionID c <> id).

Inductive dstep : World -> World -> Prop :=
  | step_delegate s f c random tenantID req w w' r : services s -> Delegate s f c random tenantID req w = (w', r) ->
      (forall id j c, sessions (store w) !! id = None -> is_Some (sessions (store w') !! id) ->
         sessions (store w) !! j = Some c -> (0 < DelegationDepth c)%Z -> SessionStore.ParentSessionID c <> id) ->
      dstep w w'
  | step_elsewhere w st σ objs exp : elsewhere (store w) st -> dstep w (mkWorld st σ objs exp).

Definition roots (st : Rows) : Prop := forall id r, sessions st !! id = Some r -> ID r = id /\ DelegationDepth r = 0%Z.

(** No registry is written while the run lasts, and no child is routed to
    another runtime. *)
Definition frozen (s : Service) : Prop := forall s', services s' -> keeps_runtime s' /\ runtimes s' = runtimes s /\ policies s' = policies s.

(** What a row below [a] keeps of it. *)
Record narrowed (a c : Row) : Prop := mkNarrowed {
  n_kin : kin a c;
  (** the policy on its lease is as strict as the one [a] had, by the registries
      of the moment, when the branch was delegated *)
  n_made : exists s, services s /\ tighter (carried c) (effective s a);
  n_carried : tighter (carried c) (carried a);
  n_live : forall s, frozen s -> tighter (effective s c) (effective s a) }.

Record tree_inv (st : Rows) : Prop := mkTreeInv {
  t_keys : forall id r, sessions st !! id = Some r -> ID r = id;
  t_hops : forall i c p, sessions st !! i = Some c -> (0 < DelegationDepth c)%Z -> sessions st !! SessionStore.ParentSessionID c = Some p -> narrowed p c }.

Lemma effective_frozen s s' r : runtimes s' = runtimes s -> policies s' = policies s -> effective s' r = effective s r.
Proof using Type. unfold effective, effectiveParentContentPolicy, runtime_policy. by intros -> ->. Qed.

Lemma hop_narrowed s p c : services s -> hop s p c -> narrowed p c.
Proof using Type.
  intros Hs [H1 H2 H3 H4]. split; [done|by exists s| |].
  - unfold carried at 2. destruct (pinned p) as [e|] eqn:Ep; [|done]. destruct (pinned_effective s (SessionStore.TenantID p) p e Ep) as [E _].
    unfold effective in H2. by rewrite E in H2.
  - intros s' Hf. destruct (Hf s Hs) as (Hk & E1 & E2). rewrite <- !(effective_frozen s' s _ E1 E2). auto.
Qed.

Lemma narrowed_fixed p p' c c' : fixed p = fixed p' -> fixed c = fixed c' -> narrowed p c -> narrowed p' c'.
Proof using Type.
  intros Ep Ec [H1 (s & Hs & H2) H3 H4]. pose proof (f_equal fst Ep : settled p = settled p') as Sp. pose proof (f_equal fst Ec : settled c = settled c') as Sc.
  destruct (carried_settled _ _ Sp) as [_ Kp], (carried_settled _ _ Sc) as [_ Kc]. split.
  - by eapply kin_settled.
  - exists s. by rewrite <- Kc, <- (effective_fixed s _ _ Ep).
  - by rewrite <- Kc, <- Kp.
  - intros s' Hf. rewrite <- (effective_fixed s' _ _ Ep), <- (effective_fixed s' _ _ Ec). auto.
Qed.

Lemma tree_roots st : roots st -> tree_inv st.
Proof. intros Hr. split; [intros id r Hi; by destruct (Hr id r Hi)|]. intros i c p Hi Hd. destruct (Hr i c Hi). lia. Qed.

Lemma tree_elsewhere st st' : elsewhere st st' -> tree_inv st -> tree_inv st'.
Proof.
  intros He [Hk Hh]. split.
  - intros id r' Hi. destruct (He id r' Hi) as [(r & Hr & E)|(_ & E & _)]; [|done]. rewrite <- (Hk id r Hr). unfold fixed, settled in E. by injection E as ->.
  - intros i c' p' Hi Hd Hp. destruct (He i c' Hi) as [(c & Hc & Ec)|(_ & _ & Hz & _)]; [|lia].
    destruct (He _ p' Hp) as [(p & Hp' & Ep)|(_ & _ & _ & Hno)]; [|by destruct (Hno i c' Hi Hd)].
    eapply narrowed_fixed; [exact Ep|exact Ec|]. unfold fixed, settled in Ec. injection Ec as _ _ _ E5 _ E7 _ _ _ _. apply (Hh i c p Hc); [by rewrite E7|by rewrite E5].
Qed.

Lemma tree_insert s c st st' (w w' : World) p (child : Row) : services s -> tree_inv (store w) -> sessions (store w) !! ID p = Some p -> hop s p child ->
  SessionStore.ParentSessionID child = ID p -> SessionStore.RootSessionID child = root_of p -> sessions (store w) !! ID child = None ->
  sessions st = sessions (store w) -> sessions st' = <[ID child := fresh_row c st child]> (sessions (store w)) ->
  (forall j x, sessions (store w) !! j = Some x -> (0 < DelegationDepth x)%Z -> SessionStore.ParentSessionID x <> ID child) -> tree_inv st'.
Proof.
  intros Hsv [Hk Hh] Hp Hhop Hpar Hroot Hnew Hst Hst' Hfresh. assert (ID p <> ID child) as Hne by congruence. split.
  - intros id r. rewrite Hst', lookup_insert_Some. intros [[<- <-]|[_ Hi]]; [done|by apply Hk].
  - intros i x y. rewrite Hst', !lookup_insert_Some. intros [[<- <-]|[Hi Hx]] Hd [[E Hy]|[E Hy]].
    + cbn in E. congruence.
    + cbn in Hy. rewrite Hpar, Hp in Hy. injection Hy as <-. by eapply hop_narrowed, fresh_hop.
    + by destruct (Hfresh i x Hx Hd).
    + by apply (Hh i x y).
Qed.

Lemma tree_step w w' : tree_inv (store w) -> dstep w w' -> tree_inv (store w').
Proof.
  intros Hi Hs. destruct Hs as [s f c random tenantID req w w' r Hsv Hd Hfresh|w st σ objs exp He]; [|by eapply tree_elsewhere].
  destruct (Delegate_effect s f c random tenantID req w w' r Hd) as [(p & child & Hg & Hhop & Hpar & Hroot & (st & Hst & Hnew & Hst' & _) & _)|[_ [->|(p & _ & Hacc & _)]]].
  - destruct (get_row _ _ _ _ Hg) as [Hp _]. pose proof (t_keys _ Hi _ _ Hp) as Hid. rewrite <- Hid in Hp.
    eapply (tree_insert s c st (store w') w w' p child); try done. intros j x Hx Hdx. apply (Hfresh (ID child) j x); [done| |done|done].
    rewrite Hst', lookup_insert_eq. by eexists.
  - done.
  - destruct Hi as [Hk Hh]. split; by rewrite Hacc.
Qed.

(** Delegated below: [c] is a descendant of [a] through delegated rows. *)
Inductive descends (st : Rows) : Row -> Row -> Prop :=
  | descends_child i c p : sessions st !! i = Some c -> (0 < DelegationDepth c)%Z -> sessions st !! SessionStore.ParentSessionID c = Some p -> descends st c p
  | descends_below i c p a : sessions st !! i = Some c -> (0 < DelegationDepth c)%Z -> sessions st !! SessionStore.ParentSessionID c = Some p ->
      descends st p a -> descends st c a.

Lemma restrictive_valid t p : AtLeastAsRestrictive t p = true -> t <> "".
Proof. unfold AtLeastAsRestrictive. rewrite !andb_true_iff. by intros [[Hv _] _] ->. Qed.

Lemma restrictive_trans a b c : AtLeastAsRestrictive a b = true -> AtLeastAsRestrictive b c = true -> AtLeastAsRestrictive a c = true.
Proof. unfold AtLeastAsRestrictive. rewrite !andb_true_iff, !Z.leb_le. intros [[? ?] ?] [[? ?] ?]. split_and!; [done|done|lia]. Qed.

Lemma kin_trans a p c : kin a p -> kin p c -> kin a c.
Proof.
  intros [A1 A2 A3 A4 A5] [B1 B2 B3 B4 B5]. split; [congruence|congruence| | |].
  - intros Hne. rewrite <- (A3 Hne). apply B3. by rewrite A3.
  - intros Hne. specialize (A4 Hne). eapply restrictive_trans; [|exact A4]. apply B4. by eapply restrictive_valid.
  - by eapply narrow_trans.
Qed.

Lemma narrowed_trans a p c : narrowed a p -> narrowed p c -> narrowed a c.
Proof.
  intros [A1 (s & Hs & A2) A3 A4] [B1 _ B3 B4]. split.
  - by eapply kin_trans.
  - exists s. split; [done|]. by eapply tighter_trans.
  - by eapply tighter_trans.
  - intros s' Hf. eapply tighter_trans; [by apply B4|by apply A4].
Qed.

Lemma tree_narrowed w0 w c a : roots (store w0) -> rtc dstep w0 w -> descends (store w) c a -> narrowed a c.
Proof.
  intros Hr Hrun Hd. assert (tree_inv (store w)) as Hi.
  { apply tree_roots in Hr. clear Hd. revert Hr. induction Hrun as [|w0 w1 w2 Hs _ IH]; [done|]. intros Hr. apply IH. by eapply tree_step. }
  induction Hd as [i c p Hc Hdep Hp|i c p a Hc Hdep Hp _ IH]; [exact (t_hops _ Hi i c p Hc Hdep Hp)|].
  eapply narrowed_trans; [exact IH|]. exact (t_hops _ Hi i c p Hc Hdep Hp).
Qed.

End trees.

(** ** The counters of the tree *)

Section counters.
Context {Σ : Type} `{RedisServer Σ} (s : Service) (f : Faults).
#[local] Abbreviation World := (DelegationService.World (Σ := Σ)).

Definition delivered : Prop := first_reserve f = Delivered /\ second_reserve f = Delivered /\ return_reply f = Delivered.

Lemma budget_mark (σ : Σ) b r ns h : TreeBudget.budget σ r ns h -> TreeBudget.budget σ (mark_first b r) ns h.
Proof. intros [? ? ? ? ? ? ?]. by constructor. Qed.

Lemma reserve_counts ttl tenantID r (w w' : World) res ns h : delivered -> (Second <= ttl)%Z -> TreeBudget.RootSessionID r <> "" -> CreateTree r = false ->
  TreeBudget.budget (redis w) r ns h -> reserveDetectingExpiry s f ttl tenantID r w = (w', res) ->
  match res with
  | Ok _ => TreeBudget.fits r ns /\ Forall2 (TreeBudget.counter (redis w')) (TreeBudget.keys r) (TreeBudget.added r ns) /\ is_Some (Redis.entry (redis w') (TreeBudget.sentinel r))
  | Err _ => Forall2 (TreeBudget.counter (redis w')) (TreeBudget.keys r) ns
  end.
Proof.
  intros (D1 & D2 & _) Ht Hr Hcr Hb. unfold reserveDetectingExpiry. rewrite D1, D2.
  assert (forall q σ' x, TreeBudget.keys q = TreeBudget.keys r -> TreeBudget.RootSessionID q <> "" -> TreeBudget.budget (redis w) q ns h -> TreeBudget.added q ns = TreeBudget.added r ns -> (TreeBudget.fits q ns -> TreeBudget.fits r ns) -> TreeBudget.sentinel q = TreeBudget.sentinel r ->
    is_Some (Redis.entry (redis w) (TreeBudget.sentinel q)) \/ CreateTree q = true -> TreeBudget.Reserve ttl Delivered q (redis w) = (σ', x) ->
    match x with
    | Ok _ => TreeBudget.fits r ns /\ Forall2 (TreeBudget.counter σ') (TreeBudget.keys r) (TreeBudget.added r ns) /\ is_Some (Redis.entry σ' (TreeBudget.sentinel r))
    | Err e => Forall2 (TreeBudget.counter σ') (TreeBudget.keys r) ns /\ exists b, e = ErrBudgetExhausted b
    end) as Hgo.
  { intros q σ' x Ek Hq Hbq Ea Ef Es Hp E.
    destruct (Reserve_cases ttl (redis w) q ns h Ht Hq Hbq Hp) as (σ1 & _ & [(Hf & E1 & Hc & _)|(i & a & _ & _ & _ & E1 & Hb1)]); rewrite E in E1; injection E1 as -> ->.
    - rewrite <- Ek, <- Ea. split_and!; [by apply Ef|done|]. rewrite <- Es. by eapply Reserve_sentinel.
    - split; [|by eexists]. rewrite <- Ek. by apply b_counters in Hb1. }
  destruct (decide (is_Some (Redis.entry (redis w) (TreeBudget.sentinel r)))) as [Hs|Hs].
  - destruct (TreeBudget.Reserve ttl Delivered r (redis w)) as [σ' x] eqn:E. pose proof (Hgo r σ' x eq_refl Hr Hb eq_refl (fun X => X) eq_refl (or_introl Hs) E) as Hx.
    destruct x as [t|e]; [by intros [= <- <-]|]. destruct Hx as [Hx [b ->]]. by intros [= <- <-].
  - apply eq_None_not_Some in Hs. rewrite (Reserve_unmarked ttl r (redis w) Hr Hs Hcr). cbn [redis with_redis].
    destruct (isFirstReservation _ _ _).
    + destruct (TreeBudget.Reserve ttl Delivered (mark_first true r) (redis w)) as [σ' x] eqn:E.
      pose proof (Hgo (mark_first true r) σ' x eq_refl Hr (budget_mark _ _ _ _ _ Hb) eq_refl (fun X => X) eq_refl (or_intror eq_refl) E) as Hx.
      destruct x as [t|e]; [by intros [= <- <-]|]. destruct Hx as [Hx [b ->]]. by intros [= <- <-].
    + rewrite (Reserve_unmarked ttl (mark_first false r) (redis w) Hr Hs eq_refl). destruct (keysExpired s); intros [= <- <-]; cbn; by apply b_counters in Hb.
Qed.

Lemma return_counts r (σ σ0 : Σ) ns h : TreeBudget.RootSessionID r <> "" -> TreeBudget.budget σ0 r ns h -> Forall (fun n => (0 <= n)%Z) ns ->
  Forall (fun d => (0 <= d)%Z) (caps_deltas r).*2 -> Forall2 (TreeBudget.counter σ) (TreeBudget.keys r) (TreeBudget.added r ns) -> is_Some (Redis.entry σ (TreeBudget.sentinel r)) ->
  Forall2 (TreeBudget.counter (TreeBudget.Return Delivered r σ).1) (TreeBudget.keys r) ns.
Proof.
  intros Hr Hb Hn Hd Hc Hs. pose proof Hb as [Hl _ _ He _ Hde Hsum].
  destruct (Return_body σ r (TreeBudget.added r ns) Hr) as (σ' & E & Hc' & _).
  - unfold added. rewrite length_zip_with, Hl. done.
  - done.
  - clear -Hl Hn Hd Hsum. do 6 (destruct ns as [|? ns]; try discriminate). unfold added, caps_deltas in *. cbn in *. rewrite !Forall_cons in *. cbn in *.
    split_and!; first [lia | tauto | constructor].
  - clear -Hd Hde. unfold caps_deltas in *. cbn in *. rewrite !Forall_cons in *. cbn in *. split_and!; first [tauto | constructor].
  - done.
  - unfold TreeBudget.Return, run_script. rewrite (is_empty_false _ Hr), E. cbn.
    assert (zip_with (fun n d => Z.max 0 (n - d)) (TreeBudget.added r ns) (caps_deltas r).*2 = ns) as En.
    { clear -Hl Hn Hd. do 6 (destruct ns as [|? ns]; try discriminate). unfold added, caps_deltas in *. cbn in *. rewrite !Forall_cons in Hn. repeat f_equal; lia. }
    by rewrite En in Hc'.
Qed.

(** C26. With every reply delivered, a delegation either inserts its child and takes
    exactly its reservation from the tree, within the caps, or fails and leaves
    every counter of the tree as it was, no row, and no object that is not under
    an identifier still reserved for the owner. *)
Theorem delegation_all_or_nothing c random tenantID req (w w' : World) r p ttl cap ns h :
  delivered -> insert_lost f = false -> treeBudget s = Some ttl -> (Second <= ttl)%Z ->
  SessionStore.Get (store w) tenantID (r_ParentSessionID req) = Ok p -> root_of p <> "" ->
  treeTokenCap s tenantID (root_of p) (Lease.MaxTokenBudget (leaseSliceFromStore (RowLease (Other p)))) = Ok cap ->
  (0 <= Lease.MaxTokenBudget (LeaseSlice req))%Z ->
  let rsv := child_reservation req p (root_of p) (leaseSliceFromStore (RowLease (Other p))) cap in
  TreeBudget.budget (redis w) rsv ns h -> Forall (fun n => (0 <= n)%Z) ns ->
  Delegate s f c random tenantID req w = (w', r) ->
  match r with
  | Ok (child, _) => inserted c w w' child /\ TreeBudget.fits rsv ns /\ Forall2 (TreeBudget.counter (redis w')) (TreeBudget.keys rsv) (TreeBudget.added rsv ns)
  | Err _ => accounted tenantID (SessionStore.UserID p) w w' /\ Forall2 (TreeBudget.counter (redis w')) (TreeBudget.keys rsv) ns
  end.
Proof.
  intros Hd Hlost Httl Ht Hg Hroot Hcap Htok rsv Hb Hn HD.
  assert (match r with Ok (child, _) => inserted c w w' child | Err _ => accounted tenantID (SessionStore.UserID p) w w' end) as Hrows.
  { destruct (Delegate_effect s f c random tenantID req w w' r HD) as [(p' & child & Hg' & _ & _ & _ & Hin & Hr)|[[e ->] [->|(p' & Hg' & Ha)]]].
    - destruct r as [[x ?]|]; [by subst|congruence].
    - by split; [|left].
    - rewrite Hg in Hg'. by injection Hg' as <-. }
  assert (match r with Ok (child, _) => TreeBudget.fits rsv ns /\ Forall2 (TreeBudget.counter (redis w')) (TreeBudget.keys rsv) (TreeBudget.added rsv ns)
          | Err _ => Forall2 (TreeBudget.counter (redis w')) (TreeBudget.keys rsv) ns end) as Hcount; [|by destruct r as [[? ?]|]].
  clear Hrows. revert HD. unfold Delegate. destruct (rbind _ _) as [adm|e] eqn:Es; [|intros [= <- <-]; by apply TreeBudget.b_counters in Hb].
  apply stages_pass in Es. pose proof (pa_parent _ _ _ _ _ Es) as Hg'. pose proof (pa_user _ _ _ _ _ Es) as Hu. rewrite Hg in Hg'. injection Hg' as ->.
  unfold insertChildSession. destruct (reserveTreeBudget s f _ _ _ _ w) as [w1 res] eqn:Eb.
  assert (match res with
          | Ok resv => resv = Some rsv /\ TreeBudget.fits rsv ns /\ Forall2 (TreeBudget.counter (redis w1)) (TreeBudget.keys rsv) (TreeBudget.added rsv ns) /\
                       is_Some (Redis.entry (redis w1) (TreeBudget.sentinel rsv))
          | Err _ => Forall2 (TreeBudget.counter (redis w1)) (TreeBudget.keys rsv) ns end) as Hres.
  { pose proof (TreeBudget.b_counters _ _ _ _ Hb) as Hb'. revert Eb. unfold reserveTreeBudget. destruct (Lease.ValidateChildSlice _ _ _ _ _); [|by intros [= <- <-]].
    destruct (_ && _); [by intros [= <- <-]|]. rewrite Httl, Hcap. fold rsv. destruct (reserveDetectingExpiry s f ttl tenantID rsv w) as [w2 r2] eqn:E2.
    intros [= <- <-]. pose proof (reserve_counts ttl tenantID rsv w w2 r2 ns h Hd Ht Hroot eq_refl Hb E2) as Hx. by destruct r2. }
  destruct res as [resv|e]; [|by intros [= <- <-]]. destruct Hres as (-> & Hfit & Hcnt & Hsen).
  assert (forall σ, σ = redis w1 -> Forall2 (TreeBudget.counter (TreeBudget.Return (return_reply f) rsv σ).1) (TreeBudget.keys rsv) ns) as Hret.
  { intros σ ->. destruct Hd as (_ & _ & ->). eapply return_counts; try done. unfold rsv, child_reservation, caps_deltas. cbn. repeat constructor; done. }
  destruct (buildChildSession s f c random _ _ _ _ w1) as [w2 res] eqn:Ebu. destruct (build_effect s f _ _ _ _ _ _ _ _ Hu Ebu) as [R2 Hbu].
  destruct res as [[child reserved]|e]; [|intros [= <- <-]; by apply Hret]. destruct Hbu as (id & plan & Hbuilt & Hr).
  destruct (built_ids s _ _ _ _ _ _ _ Hbuilt) as (F1 & F2 & _). rewrite <- F1 in Hr.
  destruct (commitChild s f c child reserved w2) as [w3 rc] eqn:Ecm. destruct (commit_effect s f c _ _ _ _ _ _ _ _ F2 Hr Ecm) as [R3 _].
  destruct rc as [[]|e]; intros [= <- <-]; [by rewrite R3, R2|]. cbn. apply Hret. congruence.
Qed.
End counters.

(** ** Examples *)

Module DelegationDemo.

#[local] Abbreviation Server := (gmap string rentry).
#[local] Abbreviation W := (DelegationService.World (Σ := Server)).

Definition slice (tokens tree : Z) : Lease.LeaseSlice := Lease.mkSlice tokens 0 tree 0 0 0.
Definition lease (tokens tree : Z) : DelegationLease := mkLease tokens 0 tree 0 0 0 "" "" "" 0 false 0.

Definition row (id parent root runtime : string) (d : Z) (l : option DelegationLease) : Row :=
  mkSession id "acme" "ann" StateRunning runtime "pool" "" "" parent root d "" zero_time ∅ 1 1 1 F64.zero 0 1 0 0 1 zero_time ""
    (mkColumns ProfileSandboxed VisibilityFull l "" false ∅ None None).

Definition rows (l : list Row) : Rows := mkStore (list_to_map ((fun r => (ID r, r)) <$> l)) ∅ ∅ 0.
Definition call : Call := mkCall 5 None None.

Definition agents (name : string) : option Runtime := Some (mkRuntime "agent" false "" "").

(** An exporter that hands over one file, named after whether it is scanned. *)
Definition exporter (p : Params) : list ExportedFile * result ExportError ExportResult :=
  let f := mkExported (if Enabled (Scan p) then "scanned" else "unscanned") (Some "x") "" 1 in
  ([f], Ok (mkExportResult [UploadFile (x_Path f) "ref"] 1 1 [])).

Definition service (maxDepth : Z) (router : option (Row -> option (option (ExperimentContext * string * string)))) (id : option string) : Service :=
  mkService (Some agents) (Some (fun _ _ => None)) Cycle.ModeEnforce false maxDepth DefaultInterceptorWeakeningCooldown None (Some exporter) None
    (Some DefaultTTL) None true 0 true None router (fun _ _ => Some None) id.

Definition ask (parent runtime profile : string) (maxDepth : Z) (sl : Lease.LeaseSlice) (files : list Spec) : Request :=
  mkRequest parent runtime "pool" profile maxDepth sl "" "" "" files (mkLimits 0 0) "".

Definition tokens (w : W) : option string := GET (redis w) "{root}:dlg:tokens".
Definition tree_size (w : W) : option string := GET (redis w) "{root}:dlg:tree_size".

Definition start (l : list Row) : W := mkWorld (rows l) ∅ ∅ [].
Definition error {A} (r : result DelegationError A) : option DelegationError := match r with Ok _ => None | Err e => Some e end.

(** The walk up the tree stops five rows up, so a request that brings its own
    limit is admitted at any depth, and the gate does not see that an ancestor
    beyond the window has the identity of the target. *)
Definition chain8 : list Row :=
  [row "s0" "" "s0" "lead" 0 None; row "s1" "s0" "s0" "a1" 1 None; row "s2" "s1" "s0" "a2" 2 None; row "s3" "s2" "s0" "a3" 3 None;
   row "s4" "s3" "s0" "a4" 4 None; row "s5" "s4" "s0" "a5" 5 None; row "s6" "s5" "s0" "a6" 6 None; row "s7" "s6" "s0" "a7" 7 None].

Lemma saturated_depth :
  let go m := (Delegate (service 1 None (Some "s8")) no_faults call [] "acme" (ask "s7" "lead" "" m (slice 0 0) [])
                 (mkWorld (rows chain8) {["{s0}:dlg:tokens" := Redis.mkEntry (RString "0") None]} ∅ [])).2 in
  error (go 0%Z) = Some (ErrDepth (Lease.DepthExceededError 4 1)) /\
  match go 5%Z with Ok (r, d) => RuntimeRef r = "lead" /\ DelegationDepth r = 5%Z /\ d = 5%Z | Err _ => False end.
Proof. vm_compute. by split. Qed.

(** A child whose runtime has no policy inherits the scan of exported files on
    its lease, and its files are handed over unscanned. *)
Definition strict : DelegationLease := mkLease 0 0 0 0 0 0 "" "" "scanner" 0 true 0.

Lemma inherited_scan_skipped :
  let '(w, r) := Delegate (service 10 None (Some "c")) no_faults call [] "acme" (ask "root" "worker" "" 0 (slice 0 0) [mkSpec "*" ""])
                   (start [row "root" "" "root" "lead" 0 (Some strict)]) in
  match r with Ok (child, _) => match RowLease (Other child) with Some l => ContentScanExportedFiles l = true | None => False end | Err _ => False end /\
  match objects w !! "c" with Some fs => map x_Path fs = ["unscanned"] | None => False end.
Proof. vm_compute. by split. Qed.

(** The cap on the input that a child inherits is on its lease only: what is
    enforced on its own delegations is the policy of its runtime, here none. *)
Definition capped : DelegationLease := mkLease 0 0 0 0 0 0 "" "" "scanner" 1000 false 0.

Lemma inherited_cap_unenforced :
  let s := service 10 None (Some "c") in
  let '(w, r) := Delegate s no_faults call [] "acme" (ask "root" "worker" "" 0 (slice 0 0) []) (start [row "root" "" "root" "lead" 0 (Some capped)]) in
  match r with
  | Ok (child, _) => MaxInputSize (effectiveParentContentPolicy s "acme" child) = 1000%Z /\ InterceptorRef (effectiveParentContentPolicy s "acme" child) = "scanner"
  | Err _ => False
  end /\ is_Some (policies s) /\ is_Some (runtimes s) /\
  ResolveMaxInputSize s (store w) "acme" "c" = None /\ ResolveContentPolicy s (store w) "acme" "c" = None.
Proof. vm_compute. split_and!; first [done | by eexists]. Qed.

(** A child that has been started. *)
Definition running (id : string) (w : W) : W := with_store (with_rows (alter (with_state StateRunning) id (sessions (store w))) (store w)) w.

(** The root may have a tree of one.  Its second child is refused; a child of its
    first child, which declared no slice, is not. *)
Lemma unset_slice_unbounds :
  let w1 := running "c1" (Delegate (service 10 None (Some "c1")) no_faults call [] "acme" (ask "root" "worker" "" 0 (slice 0 0) [])
                            (start [row "root" "" "root" "lead" 0 (Some (lease 0 1))])).1 in
  let second := Delegate (service 10 None (Some "c2")) no_faults call [] "acme" (ask "root" "third" "" 0 (slice 0 0) []) w1 in
  let below := Delegate (service 10 None (Some "c2")) no_faults call [] "acme" (ask "c1" "third" "" 0 (slice 0 0) []) w1 in
  error second.2 = Some (ErrTreeExhausted (mkExhausted "maxTreeSize" 1 1 1)) /\ error below.2 = None /\ tree_size below.1 = Some "2".
Proof. vm_compute. by split. Qed.

(** A slice with a negative token budget passes every check and puts tokens back
    into the tree. *)
Lemma negative_slice_refunds :
  let l := [row "root" "" "root" "lead" 0 (Some (lease 100 0))] in
  let w1 := (Delegate (service 10 None (Some "c1")) no_faults call [] "acme" (ask "root" "worker" "" 0 (slice 100 0) []) (start l)).1 in
  let more id w := Delegate (service 10 None (Some id)) no_faults call [] "acme" (ask "root" "third" "" 0 (slice 100 0) []) w in
  let w2 := (Delegate (service 10 None (Some "c2")) no_faults call [] "acme" (ask "root" "third" "" 0 (slice (-100) 0) []) w1).1 in
  tokens w1 = Some "100" /\ error (more "c3" w1).2 = Some (ErrTreeExhausted (mkExhausted "maxTokenBudget" 100 100 100)) /\
  tokens w2 = Some "0" /\ error (more "c3" w2).2 = None.
Proof. vm_compute. by split_and!. Qed.

(** The tokens of a tree are one counter, which already holds the slice of a child
    when the child delegates, and is held against that slice: a child with a token
    budget cannot hand on any of it. *)
Lemma slice_cannot_be_split :
  let w1 := running "c1" (Delegate (service 10 None (Some "c1")) no_faults call [] "acme" (ask "root" "worker" "" 0 (slice 40 0) [])
                            (start [row "root" "" "root" "lead" 0 (Some (lease 100 0))])).1 in
  error (Delegate (service 10 None (Some "c2")) no_faults call [] "acme" (ask "c1" "third" "" 0 (slice 1 0) []) w1).2
    = Some (ErrTreeExhausted (mkExhausted "maxTokenBudget" 40 40 1)).
Proof. vm_compute. reflexivity. Qed.

(** An insert whose reply is lost leaves the child in place and returns its
    budget. *)
Lemma lost_insert_refunds :
  let '(w, r) := Delegate (service 10 None (Some "c1")) (mkFaults Delivered Delivered Delivered true false) call [] "acme"
                   (ask "root" "worker" "" 0 (slice 100 0) []) (start [row "root" "" "root" "lead" 0 (Some (lease 100 5))]) in
  error r = Some ErrInsertUnknown /\ match sessions (store w) !! "c1" with Some x => DelegationDepth x = 1%Z | None => False end /\ tokens w = Some "0" /\ tree_size w = Some "0".
Proof. vm_compute. by split_and!. Qed.

(** A request that is cancelled cannot return its budget: the child does not
    exist and the tree stays charged for it. *)
Lemma cancelled_request_leaks :
  let '(w, r) := Delegate (service 10 (Some (fun _ => None)) (Some "c1")) (mkFaults Delivered Delivered Unreachable false false) call [] "acme"
                   (ask "root" "worker" "" 0 (slice 100 0) []) (start [row "root" "" "root" "lead" 0 (Some (lease 100 5))]) in
  error r = Some ErrRouting /\ sessions (store w) !! "c1" = None /\ tokens w = Some "100" /\ tree_size w = Some "1".
Proof. vm_compute. by split_and!. Qed.

(** An experiment routes the child to the runtime of its own parent, which the
    gate refuses as a target. *)
Lemma variant_skips_the_gate :
  let l := [row "root" "" "root" "lead" 0 None] in
  let routed := service 10 (Some (fun _ => Some (Some (mkExperiment "e" "v" false, "lead", "")))) (Some "c1") in
  error (Delegate routed no_faults call [] "acme" (ask "root" "lead" "" 0 (slice 0 0) []) (start l)).2
    = Some (ErrCycle (Cycle.mkRejection Cycle.LayerPlatform (Cycle.mkSettings Cycle.ModeEnforce false false false) "lead" "pool")) /\
  match (Delegate routed no_faults call [] "acme" (ask "root" "worker" "" 0 (slice 0 0) []) (start l)).2 with
  | Ok (r, _) => RuntimeRef r = "lead" /\ PoolRef r = "pool" | Err _ => False end.
Proof. vm_compute. by split_and!. Qed.

(** Two hops below a root, the first child started in between.  The runtime of the
    root has a content policy when the first is made; before the second the
    registries are cleared. *)
Definition guarded : DelegationPolicy := mkPolicy "guarded" (mkContent 1000 "scanner" true 0) false zero_time zero_time.
Definition leads (name : string) : option Runtime := Some (mkRuntime "agent" false (if String.eqb name "lead" then "guarded" else "") "").
Definition guarding : Service :=
  mkService (Some leads) (Some (fun _ _ => Some guarded)) Cycle.ModeEnforce false 10 DefaultInterceptorWeakeningCooldown None (Some exporter) None
    (Some DefaultTTL) None true 0 true None None (fun _ _ => Some None) None.
Definition cleared : Service := service 10 None None.
Definition either (s : Service) : Prop := s = guarding \/ s = cleared.
Definition rid : string := "0000000a-0000-8000-8000-000000000000".
Definition root_rows : list Row := [row rid "" rid "lead" 0 (Some (lease 100 5))].
Definition first_hop := Delegate guarding no_faults call (repeat 1%Z 16) "acme" (ask rid "worker" ProfileMicrovm 0 (slice 40 3) []) (start root_rows).
Definition child_of (x : W * result DelegationError (Row * Z)) : Row := match x.2 with Ok (r, _) => r | Err _ => row "" "" "" "" 0 None end.
Definition id1 : string := Eval vm_compute in ID (child_of first_hop).
Definition second_hop := Delegate cleared no_faults call (repeat 2%Z 16) "acme" (ask id1 "third" "" 0 (slice 0 2) []) (running id1 first_hop.1).
Definition id2 : string := Eval vm_compute in ID (child_of second_hop).
Definition at_ (id : string) (w : W) : Row := default (row "" "" "" "" 0 None) (sessions (store w) !! id).

Definition parents_there (st : Rows) : bool :=
  forallb (fun x => bool_decide (is_Some (sessions st !! SessionStore.ParentSessionID x)) || (DelegationDepth x <=? 0)%Z) ((map_to_list (sessions st)).*2).

Lemma fresh_parents (st : Rows) : parents_there st = true -> forall id j c, sessions st !! id = None -> sessions st !! j = Some c ->
  (0 < DelegationDepth c)%Z -> SessionStore.ParentSessionID c <> id.
Proof.
  intros Hp id j c Hn Hj Hd <-. unfold parents_there in Hp. rewrite forallb_forall in Hp.
  assert (In c ((map_to_list (sessions st)).*2)) as Hin. { apply list_elem_of_In, list_elem_of_fmap. exists (j, c). split; [done|]. by apply elem_of_map_to_list. }
  specialize (Hp c Hin). apply orb_true_iff in Hp as [[x Hx]%bool_decide_eq_true|Hz%Z.leb_le]; [congruence|lia].
Qed.

Lemma delegate_step sv (w : W) random req : either sv -> parents_there (store w) = true -> dstep either w (Delegate sv no_faults call random "acme" req w).1.
Proof.
  intros Hsv Hp. destruct (Delegate sv no_faults call random "acme" req w) as [w' r] eqn:E. eapply step_delegate; [exact Hsv|exact E|].
  intros id j c Hn _. by apply fresh_parents.
Qed.

Lemma running_step (w : W) id : dstep either w (running id w).
Proof.
  unfold running, with_store. apply step_elsewhere. intros i r'. cbn. rewrite lookup_alter_Some.
  intros [(-> & r & Hr & ->)|[_ Hr]]; left; [exists r|exists r']; by split.
Qed.

Lemma hops_run : rtc (dstep either) (start root_rows) second_hop.1.
Proof.
  apply rtc_l with first_hop.1; [apply delegate_step; [by left|vm_compute; reflexivity]|].
  apply rtc_l with (running id1 first_hop.1); [apply running_step|]. apply rtc_once, delegate_step; [by right|]. vm_compute. reflexivity.
Qed.

Lemma root_is_root : roots (store (start root_rows)).
Proof. intros id r. cbn. intros [[<- <-]|[_ Hx]]%lookup_insert_Some; [by split|by rewrite lookup_empty in Hx]. Qed.

Lemma child_descends : descends (store second_hop.1) (at_ id2 second_hop.1) (at_ id1 second_hop.1).
Proof. apply (descends_child _ id2); vm_compute; reflexivity. Qed.

Lemma grandchild_descends : descends (store second_hop.1) (at_ id2 second_hop.1) (at_ rid second_hop.1).
Proof.
  apply (descends_below _ id2 _ (at_ id1 second_hop.1)); [vm_compute; reflexivity|vm_compute; reflexivity|vm_compute; reflexivity|].
  apply (descends_child _ id1); vm_compute; reflexivity.
Qed.


(** The policy of a root is read where it is now.  A child made before its root's
    runtime got a policy is not held to it, and neither are the child's own
    children. *)
Lemma edited_policy_overtakes :
  let w := (Delegate cleared no_faults call (repeat 1%Z 16) "acme" (ask rid "worker" "" 0 (slice 40 3) []) (start root_rows)).1 in
  effective guarding (at_ rid w) = mkContent 1000 "scanner" true DefaultMaxExportedFileSize /\
  effective guarding (at_ id1 w) = platformDefaultContentPolicy /\ is_Some (sessions (store w) !! id1).
Proof. vm_compute. split_and!; first [done|by eexists]. Qed.

(** The router fails after the budget was reserved: the counters are back at
    zero. *)
Definition routing_fails : Service := service 10 (Some (fun _ => None)) (Some "c1").
Definition lead : Row := row "root" "" "root" "lead" 0 (Some (lease 100 5)).
Definition request : Request := ask "root" "worker" "" 0 (slice 40 3) [].
Definition rsv : Reservation := child_reservation request lead (root_of lead) (leaseSliceFromStore (RowLease (Other lead))) 100.

Lemma routing_error : (Delegate routing_fails no_faults call [] "acme" request (start [lead])).2 = Err ErrRouting.
Proof. vm_compute. reflexivity. Qed.

Lemma lead_present : SessionStore.Get (store (start [lead])) "acme" (r_ParentSessionID request) = Ok lead.
Proof. vm_compute. reflexivity. Qed.

Lemma lead_budget : TreeBudget.budget (redis (start [lead])) rsv [0; 0; 0; 0; 0]%Z 0.
Proof.
  assert (caps_deltas rsv = [(5, 1); (2097152, 12288); (0, 1); (0, 1); (100, 40)]%Z) as E by (vm_compute; reflexivity).
  split; [done| |by left| | | |]; rewrite ?E; unfold lua_exact.
  - repeat (apply Forall2_cons_2; [by left|]). constructor.
  - repeat constructor; lia.
  - lia.
  - repeat constructor; cbn; lia.
  - repeat constructor; cbn; lia.
Qed.

Lemma delegation_all_or_nothing_witness : exists w' : W, Delegate routing_fails no_faults call [] "acme" request (start [lead]) = (w', Err ErrRouting) /\
  accounted "acme" (SessionStore.UserID lead) (start [lead]) w' /\ Forall2 (TreeBudget.counter (redis w')) (TreeBudget.keys rsv) [0; 0; 0; 0; 0]%Z.
Proof.
  pose proof routing_error as Er. destruct (Delegate _ _ _ _ _ _ _) as [w' r] eqn:E. cbn in Er. subst r. exists w'. split; [done|].
  assert (root_of lead <> "") as Hroot by (vm_compute; discriminate).
  assert (treeTokenCap routing_fails "acme" (root_of lead) (Lease.MaxTokenBudget (leaseSliceFromStore (RowLease (Other lead)))) = Ok 100%Z) as Hcap by (vm_compute; reflexivity).
  assert (Second <= DefaultTTL)%Z as Httl by (vm_compute; discriminate).
  assert (0 <= Lease.MaxTokenBudget (LeaseSlice request))%Z as Htok by (vm_compute; discriminate).
  assert (Forall (fun n => 0 <= n)%Z [0; 0; 0; 0; 0]%Z) as Hn by (repeat constructor; lia).
  exact (delegation_all_or_nothing routing_fails no_faults call [] "acme" request (start [lead]) w' (Err ErrRouting) lead DefaultTTL 100 [0; 0; 0; 0; 0]%Z 0
           (conj eq_refl (conj eq_refl eq_refl)) eq_refl eq_refl Httl lead_present Hroot Hcap Htok lead_budget Hn E).
Defined.
End DelegationDemo.
