(* ===== verification/TokenExchange.v ===== *)
(** * TokenExchange: the RFC 8693 exchange validator

    Models [pkg/tokenexchange/tokenexchange.go]: the claims a token carries
    into an exchange, the narrowing rules of [Validate] in the order the code
    applies them, and every rejection reason.  The theorems: how each claim of
    an issued token is bounded by the subject's and the actor's, and the exact set of requests that are accepted. *)

From S2P Require Import Prelude.

Definition TypeUserBearer : string := "user_bearer".
Definition TypeSessionCapability : string := "session_capability".
Definition TypeA2ADelegation : string := "a2a_delegation".
Definition TypeServiceToken : string := "service_token".

Definition CallerHuman : string := "human".
Definition CallerService : string := "service".
Definition CallerAgent : string := "agent".

Definition callerRank (c : string) : Z :=
  if bool_decide (c = CallerAgent) then 0
  else if bool_decide (c = CallerService) then 1
  else if bool_decide (c = CallerHuman) then 2
  else -1.

Record Token := mkToken {
  TenantID : string;
  Subject : string;
  SessionID : string;
  CallerType : string;
  DelegationDepth : Z;
  Scope : list string;
  Audience : list string;
  Typ : string;
  AuthorizedTools : list string;
  Exp : Time }.

Definition IsValid (t : Token) : bool :=
  if is_empty (TenantID t) then false
  else bool_decide (Typ t = TypeUserBearer) || bool_decide (Typ t = TypeSessionCapability)
       || bool_decide (Typ t = TypeA2ADelegation) || bool_decide (Typ t = TypeServiceToken).

Record Request := mkRequest {
  RSubject : Token;
  RActor : option Token;
  RCaller : Token;
  Requested : Token;
  RequestedExp : Time;
  PerDialectCap : Duration;
  Now : Time }.

Record Actor := mkActor {
  ActSubject : string;
  ActTenantID : string;
  ActSessionID : string;
  ActDelegationDepth : Z }.

Record Issued := mkIssued {
  ITenantID : string;
  ISubject : string;
  ISessionID : string;
  ICallerType : string;
  IDelegationDepth : Z;
  IScope : list string;
  IAudience : list string;
  ITyp : string;
  IAuthorizedTools : list string;
  IExp : Time;
  IAct : option Actor }.

Definition actorOf (t : option Token) : option Actor :=
  match t with
  | None => None
  | Some t => Some (mkActor (Subject t) (TenantID t) (SessionID t) (DelegationDepth t))
  end.

Record ExchangeError := mkExchangeError { Code : string; Reason : string }.

Definition SkewAllowance : Duration := Second.

Definition isExpired (exp now : Time) : bool :=
  if time_is_zero exp then false else time_after (time_add now (- SkewAllowance)) exp.

Definition isSubset (candidate universe : list string) : bool :=
  match candidate with
  | [] => true
  | _ => let set : gset string := list_to_set universe in
         forallb (fun s => bool_decide (s ∈ set)) candidate
  end.

Definition intersect (a b : list string) : list string :=
  match a, b with
  | [], _ | _, [] => []
  | _, _ => let set : gset string := list_to_set b in
            List.filter (fun s => bool_decide (s ∈ set)) a
  end.

Definition defaultString (a b : string) : string := if is_empty a then b else a.

(** [time.Time.Truncate]: down to a multiple of [d] since the zero time. *)
Definition truncate (t : Time) (d : Duration) : Time := (t - t mod d)%Z.

Definition reject (code reason : string) : result ExchangeError Issued :=
  Err (mkExchangeError code reason).

(** The actor checks of [Validate], if there is an actor token. *)
Definition actor_error (r : Request) : option ExchangeError :=
  match RActor r with
  | None => None
  | Some a =>
      if negb (IsValid a) then Some (mkExchangeError "invalid_request" "actor_invalid")
      else if isExpired (Exp a) (Now r) then Some (mkExchangeError "invalid_grant" "actor_token_expired")
      else if negb (bool_decide (TenantID a = TenantID (RSubject r)))
      then Some (mkExchangeError "invalid_request" "tenant_mismatch")
      else None
  end.

(** The allowlist the issued token carries. *)
Definition issued_tools (r : Request) : list string :=
  let authorizedTools :=
    match AuthorizedTools (Requested r) with
    | [] => AuthorizedTools (RSubject r)
    | l => l
    end in
  match RActor r, authorizedTools with
  | Some _, _ :: _ => intersect authorizedTools (Scope (Requested r))
  | _, _ => authorizedTools
  end.

(** The expiry: the minimum of the requested, subject, actor and dialect
    bounds, in whole seconds. *)
Definition issued_exp (r : Request) : Time :=
  let exp := RequestedExp r in
  let exp := if time_is_zero exp
                || (negb (time_is_zero (Exp (RSubject r))) && time_before (Exp (RSubject r)) exp)
             then Exp (RSubject r) else exp in
  let exp := match RActor r with
             | Some a => if negb (time_is_zero (Exp a)) && time_before (Exp a) exp then Exp a else exp
             | None => exp
             end in
  let exp := if (0 <? PerDialectCap r)%Z
             then let capExp := time_add (Now r) (PerDialectCap r) in
                  if time_before capExp exp then capExp else exp
             else exp in
  truncate exp Second.

Definition Validate (r : Request) : result ExchangeError Issued :=
  let sub := RSubject r in
  let req := Requested r in
  if negb (IsValid sub) then reject "invalid_request" "subject_invalid"
  else if negb (IsValid (RCaller r)) then reject "invalid_request" "caller_invalid"
  else if time_is_zero (Now r) then reject "invalid_request" "now_required"
  else if negb (bool_decide (TenantID sub = TenantID (RCaller r)))
  then reject "invalid_request" "tenant_mismatch"
  else if negb (is_empty (TenantID req)) && negb (bool_decide (TenantID req = TenantID sub))
  then reject "invalid_request" "tenant_mismatch"
  else if isExpired (Exp sub) (Now r) then reject "invalid_grant" "subject_token_expired"
  else match actor_error r with
  | Some e => Err e
  | None =>
  if negb (isSubset (Scope req) (Scope sub)) then reject "invalid_scope" "scope_not_subset"
  else if negb (isSubset (Audience req) (Audience sub)) then reject "invalid_request" "audience_broadened"
  else if negb (isSubset (AuthorizedTools req) (AuthorizedTools sub))
  then reject "invalid_request" "authorized_tools_broadened"
  else if negb (is_empty (CallerType req)) && (callerRank (CallerType sub) <? callerRank (CallerType req))%Z
  then reject "invalid_request" "caller_type_elevated"
  else if match RActor r with
          | Some _ => false
          | None => negb (is_empty (Typ req)) && negb (bool_decide (Typ req = Typ sub))
          end
  then reject "invalid_request" "typ_mutation"
  else if match RActor r with
          | Some _ => false
          | None => negb (DelegationDepth req =? 0)%Z && negb (DelegationDepth req =? DelegationDepth sub)%Z
          end
  then reject "invalid_request" "delegation_depth_changed"
  else if negb (time_after (issued_exp r) (Now r)) then reject "invalid_request" "exp_in_past"
  else Ok (mkIssued (TenantID sub) (Subject sub) (SessionID sub)
             (defaultString (CallerType req) (CallerType sub))
             (match RActor r with
              | Some a => wrap64 (DelegationDepth a + 1)
              | None => DelegationDepth sub
              end)
             (Scope req) (Audience req)
             (match RActor r with Some _ => TypeA2ADelegation | None => Typ sub end)
             (issued_tools r) (issued_exp r) (actorOf (RActor r)))
  end.

(** ** Lemmas on the helpers *)

Lemma isSubset_spec c u : isSubset c u = true <-> (forall x, x ∈ c -> x ∈ u).
Proof.
  unfold isSubset. destruct c as [|y c]; [split; [intros _ x Hx; by apply elem_of_nil in Hx|done]|].
  rewrite forallb_forall. split; intros H x Hx.
  - apply list_elem_of_In, H, bool_decide_eq_true in Hx. by apply elem_of_list_to_set in Hx.
  - apply bool_decide_eq_true, elem_of_list_to_set, H. by apply list_elem_of_In.
Qed.

Lemma intersect_spec a b x : x ∈ intersect a b <-> x ∈ a /\ x ∈ b.
Proof.
  unfold intersect. destruct a as [|y a]; [set_solver|]. destruct b as [|z b]; [set_solver|].
  rewrite list_elem_of_In, filter_In, <- list_elem_of_In, bool_decide_eq_true, elem_of_list_to_set. done.
Qed.

Lemma truncate_le t : (truncate t Second <= t)%Z.
Proof. unfold truncate, Second. pose proof (Z.mod_pos_bound t 1000000000). lia. Qed.

Lemma truncate_whole t : (truncate t Second mod Second = 0)%Z.
Proof.
  unfold truncate, Second. rewrite Zminus_mod_idemp_r. by rewrite Z.sub_diag.
Qed.

(** The expiry is below every bound that is set, and on a whole second. *)
Lemma issued_exp_bounds r :
  (issued_exp r mod Second = 0)%Z /\
  (RequestedExp r <> 0 -> issued_exp r <= RequestedExp r)%Z /\
  (Exp (RSubject r) <> 0 -> issued_exp r <= Exp (RSubject r))%Z /\
  (forall a, RActor r = Some a -> Exp a <> 0 -> issued_exp r <= Exp a)%Z /\
  (0 < PerDialectCap r -> issued_exp r <= Now r + PerDialectCap r)%Z.
Proof.
  split; [apply truncate_whole|]. unfold issued_exp, time_is_zero, time_before, time_add. cbn zeta.
  split; [|split; [|split]]; [intros H|intros H|intros a Ha H|intros H];
    (etrans; [apply truncate_le|]); try rewrite Ha;
    repeat case_match; simplify_bool; subst; simpl in *; try lia;
    repeat match goal with H : _ \/ _ |- _ => destruct H end; simplify_bool; try lia.
Qed.

Lemma issued_tools_incl r x :
  isSubset (AuthorizedTools (Requested r)) (AuthorizedTools (RSubject r)) = true ->
  x ∈ issued_tools r ->
  x ∈ AuthorizedTools (RSubject r) /\ (is_Some (RActor r) -> x ∈ Scope (Requested r)).
Proof.
  rewrite isSubset_spec. intros Hs. unfold issued_tools.
  set (l := match AuthorizedTools (Requested r) with [] => _ | _ => _ end).
  assert (x ∈ l -> x ∈ AuthorizedTools (RSubject r)) as Hl.
  { subst l. destruct (AuthorizedTools (Requested r)) as [|y ys]; [done|]. apply Hs. }
  destruct (RActor r) as [a|].
  - destruct l as [|y ys] eqn:El; [intros Hx; by apply elem_of_nil in Hx|].
    rewrite intersect_spec. intros [H1 H2]. split; [by apply Hl|]. done.
  - cbn zeta. intros Hx. split; [by apply Hl|]. by intros [? ?].
Qed.

(** Inversion of an accepted exchange: the guards that passed and the token. *)
Lemma Validate_inv r i : Validate r = Ok i ->
  IsValid (RSubject r) = true /\ IsValid (RCaller r) = true /\
  TenantID (RCaller r) = TenantID (RSubject r) /\
  isExpired (Exp (RSubject r)) (Now r) = false /\ actor_error r = None /\
  isSubset (Scope (Requested r)) (Scope (RSubject r)) = true /\
  isSubset (Audience (Requested r)) (Audience (RSubject r)) = true /\
  isSubset (AuthorizedTools (Requested r)) (AuthorizedTools (RSubject r)) = true /\
  (CallerType (Requested r) = "" \/
   (callerRank (CallerType (Requested r)) <= callerRank (CallerType (RSubject r)))%Z) /\
  (Now r < issued_exp r)%Z /\ Now r <> 0%Z /\
  i = mkIssued (TenantID (RSubject r)) (Subject (RSubject r)) (SessionID (RSubject r))
        (defaultString (CallerType (Requested r)) (CallerType (RSubject r)))
        (match RActor r with Some a => wrap64 (DelegationDepth a + 1) | None => DelegationDepth (RSubject r) end)
        (Scope (Requested r)) (Audience (Requested r))
        (match RActor r with Some _ => TypeA2ADelegation | None => Typ (RSubject r) end)
        (issued_tools r) (issued_exp r) (actorOf (RActor r)).
Proof.
  unfold Validate, reject, time_is_zero, time_after. intros H.
  repeat match type of H with
         | (if ?c then _ else _) = _ => destruct c eqn:?; [discriminate|]
         | match ?c with Some _ => Err _ | None => _ end = _ => destruct c eqn:?; [discriminate|]
         end.
  injection H as <-. simplify_bool.
  repeat match goal with H : negb _ = false |- _ => apply negb_false_iff in H end.
  simplify_bool.
  split_and!; try done.
  - match goal with H : _ \/ (_ <? _)%Z = false |- _ => destruct H as [H|H] end; simplify_bool; [|right; lia].
    left. by apply is_empty_spec.
Qed.

(** C32. The claims of an issued token against those of its subject: same
    tenant, subject and session; scopes and audiences as requested, and as
    lists among the subject's; authorised tools among the subject's, and with
    an actor also among the issued scopes; a caller type of no higher rank;
    without an actor the type and the depth copied; with an actor the type
    [a2a_delegation] and a depth one more than the actor's, hence not lowered
    when the actor is as deep as the subject ([actor_lowers_depth]: otherwise
    it may be); the [act] claim exactly when an actor is present, naming it,
    and the actor in the same tenant; an expiry strictly in the future, on a
    whole second and below every bound that is set.  The inclusions are those
    of lists: a request without a scope is issued the empty list, which the
    rules that enforce scopes read as no restriction. *)
Theorem exchange_bounds_claims r i :
  Validate r = Ok i ->
  let sub := RSubject r in
  (ITenantID i = TenantID sub /\ TenantID (RCaller r) = TenantID sub /\
   ISubject i = Subject sub /\ ISessionID i = SessionID sub) /\
  (IScope i = Scope (Requested r) /\ forall x, x ∈ IScope i -> x ∈ Scope sub) /\
  (IAudience i = Audience (Requested r) /\ forall x, x ∈ IAudience i -> x ∈ Audience sub) /\
  (forall x, x ∈ IAuthorizedTools i ->
     x ∈ AuthorizedTools sub /\ (is_Some (RActor r) -> x ∈ IScope i)) /\
  (callerRank (ICallerType i) <= callerRank (CallerType sub))%Z /\
  match RActor r with
  | None => ITyp i = Typ sub /\ IDelegationDepth i = DelegationDepth sub /\ IAct i = None
  | Some a => ITyp i = TypeA2ADelegation /\ IDelegationDepth i = wrap64 (DelegationDepth a + 1) /\
              (min_int64 <= DelegationDepth sub -> DelegationDepth sub <= DelegationDepth a < max_int64 ->
               DelegationDepth sub < IDelegationDepth i)%Z /\
              TenantID a = TenantID sub /\ isExpired (Exp a) (Now r) = false /\
              IAct i = Some (mkActor (Subject a) (TenantID a) (SessionID a) (DelegationDepth a)) /\
              (Exp a <> 0 -> IExp i <= Exp a)%Z
  end /\
  (Now r < IExp i)%Z /\ (IExp i mod Second = 0)%Z /\
  (RequestedExp r <> 0 -> IExp i <= RequestedExp r)%Z /\
  (Exp sub <> 0 -> IExp i <= Exp sub)%Z /\
  (0 < PerDialectCap r -> IExp i <= Now r + PerDialectCap r)%Z.
Proof.
  intros (_ & _ & Ht & _ & Ha & Hs & Hau & Hto & Hc & Hn & _ & ->)%Validate_inv.
  pose proof (issued_exp_bounds r) as (B1 & B2 & B3 & B4 & B5). cbn zeta.
  rewrite isSubset_spec in Hs, Hau. cbn.
  split_and!; try done.
  - intros x Hx. by apply issued_tools_incl.
  - unfold defaultString. destruct (is_empty (CallerType (Requested r))) eqn:E; [done|].
    destruct Hc as [Hc|]; [|done]. rewrite Hc in E. done.
  - unfold actor_error in Ha. destruct (RActor r) as [a|]; [|done].
    destruct (negb (IsValid a)); [done|]. destruct (isExpired (Exp a) (Now r)); [done|].
    destruct (bool_decide_reflect (TenantID a = TenantID (RSubject r))); [|done].
    split_and!; try done; [|by apply B4].
    intros ? [? ?]. rewrite wrap64_id; [lia|unfold in_int64; lia].
Qed.

Definition example_subject : Token :=
  mkToken "acme" "alice" "s1" CallerHuman 0 ["tools:pool:read"; "tools:me:read"] ["lenny-gateway"]
    TypeUserBearer ["restart"] (7200 * Second)%Z.

Definition example_request : Request :=
  mkRequest example_subject None example_subject
    (mkToken "" "" "" CallerAgent 0 ["tools:pool:read"] ["lenny-gateway"] "" [] 0%Z)
    (5000 * Second + 17)%Z 0%Z (3600 * Second)%Z.

Definition example_issued : Issued :=
  mkIssued "acme" "alice" "s1" CallerAgent 0 ["tools:pool:read"] ["lenny-gateway"] TypeUserBearer
    ["restart"] (5000 * Second)%Z None.

(** The same exchange with an actor two hops deep: the tools are cut to the
    issued scopes. *)
Definition example_actor : Token :=
  mkToken "acme" "bob" "s2" CallerAgent 2 [] [] TypeSessionCapability [] (4000 * Second)%Z.

Definition example_delegation : Request :=
  mkRequest example_subject (Some example_actor) example_subject
    (mkToken "" "" "" CallerAgent 0 ["tools:pool:read"] ["lenny-gateway"] "" [] 0%Z)
    (5000 * Second + 17)%Z 0%Z (3600 * Second)%Z.

Definition example_delegated : Issued :=
  mkIssued "acme" "alice" "s1" CallerAgent 3 ["tools:pool:read"] ["lenny-gateway"] TypeA2ADelegation
    [] (4000 * Second)%Z (Some (mkActor "bob" "acme" "s2" 2)).

Lemma exchange_bounds_claims_witness :
  (IExp example_issued <= Exp (RSubject example_request))%Z /\
  (DelegationDepth example_subject < IDelegationDepth example_delegated)%Z.
Proof.
  split.
  - destruct (exchange_bounds_claims example_request example_issued ltac:(vm_compute; reflexivity))
      as (_ & _ & _ & _ & _ & _ & _ & _ & _ & H & _).
    apply H. vm_compute. discriminate.
  - destruct (exchange_bounds_claims example_delegation example_delegated ltac:(vm_compute; reflexivity))
      as (_ & _ & _ & _ & _ & (_ & _ & H & _) & _).
    apply H; vm_compute; [discriminate|split; [discriminate|reflexivity]].
Defined.

(** The depth with an actor is counted from the actor alone: a subject five
    hops deep exchanged with an actor at the root is issued depth one. *)
Lemma actor_lowers_depth :
  let sub := mkToken "acme" "alice" "s1" CallerAgent 5 ["tools:pool:read"] ["lenny-gateway"]
               TypeA2ADelegation [] (7200 * Second)%Z in
  let actor := mkToken "acme" "bob" "s2" CallerHuman 0 [] [] TypeUserBearer [] (7200 * Second)%Z in
  let req := mkToken "" "" "" "" 0 ["tools:pool:read"] ["lenny-gateway"] "" [] 0%Z in
  exists i, Validate (mkRequest sub (Some actor) actor req 0%Z 0%Z (3600 * Second)%Z) = Ok i /\
            IDelegationDepth i = 1%Z.
Proof. eexists. split; [vm_compute; reflexivity|reflexivity]. Qed.

(** ** Chains of exchanges *)

(** The issued token presented as the subject of the next exchange. *)
Definition as_token (i : Issued) : Token :=
  mkToken (ITenantID i) (ISubject i) (ISessionID i) (ICallerType i) (IDelegationDepth i) (IScope i)
    (IAudience i) (ITyp i) (IAuthorizedTools i) (IExp i).

Definition exchanged (t t' : Token) : Prop :=
  exists r i, RSubject r = t /\ (0 < Now r)%Z /\ Validate r = Ok i /\ t' = as_token i.

Record narrower (t t' : Token) : Prop := {
  nw_tenant : TenantID t' = TenantID t;
  nw_subject : Subject t' = Subject t;
  nw_session : SessionID t' = SessionID t;
  nw_scope : forall x, x ∈ Scope t' -> x ∈ Scope t;
  nw_audience : forall x, x ∈ Audience t' -> x ∈ Audience t;
  nw_tools : forall x, x ∈ AuthorizedTools t' -> x ∈ AuthorizedTools t;
  nw_rank : (callerRank (CallerType t') <= callerRank (CallerType t))%Z;
  nw_exp : Exp t <> 0%Z -> Exp t' <> 0%Z /\ (Exp t' <= Exp t)%Z }.

Lemma narrower_refl t : narrower t t.
Proof. by split. Qed.

Lemma exchanged_narrower t t' : exchanged t t' -> narrower t t'.
Proof.
  intros (r & i & <- & Hn & (_ & _ & _ & _ & _ & Hs & Hau & Hto & Hc & He & _ & ->)%Validate_inv & ->).
  rewrite isSubset_spec in Hs, Hau. split; cbn; try done.
  - intros x Hx. by apply (issued_tools_incl r x).
  - unfold defaultString. destruct (is_empty (CallerType (Requested r))) eqn:E; [done|].
    destruct Hc as [Hc|]; [|done]. rewrite Hc in E. done.
  - intros H. split; [by intros E; rewrite E in He; lia|]. destruct (issued_exp_bounds r) as (_ & _ & B & _). by apply B.
Qed.

Lemma narrower_trans t u v : narrower t u -> narrower u v -> narrower t v.
Proof.
  intros [T1 S1 N1 C1 A1 O1 R1 E1] [T2 S2 N2 C2 A2 O2 R2 E2].
  split; try congruence; eauto with lia.
Qed.

(** Narrowing composes: over any chain of accepted exchanges, in which
    each issued token is the next subject, with any actors, callers and
    clocks after the zero time, the last token stays in the first token's
    tenant, subject and session, holds only scopes, audiences and tools the
    first one held, has no higher caller rank, and, when the first token
    expires, expires no later. *)
Theorem exchange_chain_narrows t t' : rtc exchanged t t' -> narrower t t'.
Proof.
  induction 1 as [t|t u v Htu _ IH]; [apply narrower_refl|].
  by eapply narrower_trans; [apply exchanged_narrower|].
Qed.

Lemma exchange_chain_narrows_witness :
  rtc exchanged example_subject (as_token example_issued) /\
  narrower example_subject (as_token example_issued).
Proof.
  assert (rtc exchanged example_subject (as_token example_issued)) as H.
  { apply rtc_once. exists example_request, example_issued.
    split; [reflexivity|]. split; [reflexivity|]. split; [vm_compute; reflexivity|reflexivity]. }
  split; [exact H | exact (exchange_chain_narrows _ _ H)].
Defined.
