(* ===== verification/IssuedTokens.v ===== *)
(** * IssuedTokens: the durable index of issued tokens

    Models [pkg/gateway/storage/issuedtokenstore] ([issuedtokenstore.go] and
    [recheck.go]) over the [issued_tokens] table of [migrations/], with the
    transaction helper of [pkg/gateway/storage/pgtenant].  The table is a map
    from the primary key [jti] to a row; a transaction body either yields a
    new database or an error, and [InTx] commits the one and rolls back the
    other.  A [Fault] is what the connection does to a transaction, including
    a commit whose outcome the client does not learn.

    The audit lock serialises issuing transactions, so a call is one step of
    the model; [Race] splits the issuing transaction at the point where
    revocations, which do not take that lock, can interleave. *)

From S2P Require Import Prelude Text.

(** ** Rows and errors *)

Record IssuedToken := mkIssuedToken {
  JTI : string;
  TenantID : string;
  Subject : string;
  TokenHash : string;
  Scope : list string;
  Audience : string;
  Audiences : list string;
  DialectCapAppliedSeconds : Z;
  IssuedAt : Time;
  ExpiresAt : Time;
  RevokedAt : Time;
  RevokedReason : string;
  ActSubject : string;
  ParentJTI : string }.

(** A row of the table without its key; [None] is SQL's NULL. *)
Record Row := mkRow {
  tenant_id : string;
  sub : string;
  token_hash : string;
  scope : list string;
  audience : string;
  audiences : list string;
  dialect_cap_applied_seconds : Z;
  issued_at : Time;
  exp : Time;
  revoked_at : option Time;
  revoked_reason : option string;
  act_sub : option string;
  parent_jti : option string }.

Inductive SourceRole := SourceSubjectToken | SourceActorToken.

#[export] Instance SourceRole_eq_dec : EqDecision SourceRole.
Proof. solve_decision. Defined.

Definition role_string (r : SourceRole) : string :=
  match r with SourceSubjectToken => "subject_token" | SourceActorToken => "actor_token" end.

Record SourceToken := mkSourceToken { Role : SourceRole; SrcJTI : string }.

(** The sentinel and typed errors of the store and of [pgtenant], with every
    other database error in one of two classes: those the token service
    reports as unavailability, and the rest. *)
Inductive StoreError :=
| ErrNotFound
| ErrAlreadyExists
| ErrInvalidTenantID
| ErrMissingArgument
| SourceRevokedError (role : SourceRole) (jti : string) (at_ : Time)
| SourceImpersonationError (role : SourceRole) (jti : string)
| ErrUnavailable            (* what [pgtenant.IsUnavailable] recognises *)
| ErrDatabase.              (* any other database error *)

(** [SourceRevokedError.Reason] and [SourceImpersonationError.Reason]. *)
Definition Reason (e : StoreError) : option string :=
  match e with
  | SourceRevokedError role _ _ => Some (role_string role +:+ "_revoked")
  | SourceImpersonationError role _ => Some (role_string role +:+ "_impersonation")
  | _ => None
  end.

Definition IsUnavailable (e : StoreError) : bool :=
  match e with ErrUnavailable => true | _ => false end.

Definition Revoked (t : IssuedToken) : bool := negb (time_is_zero (RevokedAt t)).

Definition isImpersonation (t : IssuedToken) : bool :=
  negb (is_empty (ActSubject t)) && is_empty (ParentJTI t).

Definition SourceRefusal (t : IssuedToken) (role : SourceRole) : option StoreError :=
  if Revoked t then Some (SourceRevokedError role (JTI t) (RevokedAt t))
  else if isImpersonation t then Some (SourceImpersonationError role (JTI t))
  else None.

Definition NullTime (t : Time) : option Time := if time_is_zero t then None else Some t.
Definition NullString (s : string) : option string := if is_empty s then None else Some s.

(** Split on space, tab and newline.  The text column holds valid UTF-8, in
    which these bytes stand only for themselves. *)
Fixpoint splitAudience_go (cur : string) (s : string) : list string :=
  match s with
  | EmptyString => if is_empty cur then [] else [cur]
  | String c s =>
      if Ascii.eqb c " " || Ascii.eqb c "009" || Ascii.eqb c "010"
      then (if is_empty cur then [] else [cur]) ++ splitAudience_go "" s
      else splitAudience_go (cur +:+ String c "") s
  end.

Definition splitAudienceFallback (s : string) : list string := splitAudience_go "" s.

Definition audienceListArg (l : list string) (legacy : string) : list string :=
  match l with
  | [] => if is_empty legacy then []
          else List.filter (fun a => negb (is_empty a)) (splitAudienceFallback legacy)
  | _ => List.filter (fun a => negb (is_empty a)) l
  end.

Definition scanToken (jti : string) (r : Row) : IssuedToken :=
  mkIssuedToken jti (tenant_id r) (sub r) (token_hash r) (scope r) (audience r) (audiences r)
    (dialect_cap_applied_seconds r) (issued_at r) (exp r)
    (default zero_time (revoked_at r)) (default "" (revoked_reason r)) (default "" (act_sub r))
    (default "" (parent_jti r)).

(** ** The database and its transactions *)

Abbreviation Table := (gmap string Row).

Section Store.
Context {Payload : Type}.

Record AuditRow := mkAuditRow {
  a_tenant : string; a_event : string; a_payload : Payload; a_at : Time }.

Record Db := mkDb { tokens : Table; audit_log : list AuditRow }.

Definition Tx (A : Type) : Type := Db -> result StoreError (Db * A).

Definition tx_ret {A} (a : A) : Tx A := fun db => Ok (db, a).
Definition tx_fail {A} (e : StoreError) : Tx A := fun _ => Err e.
Definition tx_bind {A B} (m : Tx A) (k : A -> Tx B) : Tx B :=
  fun db => match m db with
            | Err e => Err e
            | Ok (db', a) => k a db'
            end.

(** What the connection does to a transaction: nothing, an error before the
    commit, or a commit whose acknowledgement is lost after it did or did not
    take effect. *)
Inductive Fault :=
| NoFault
| FaultAbort (e : StoreError)
| FaultCommit (durable : bool) (e : StoreError).

Definition tenant_char (c : ascii) : bool :=
  let n := N_of_ascii c in
  (N.leb 65 n && N.leb n 90) || (N.leb 97 n && N.leb n 122) || (N.leb 48 n && N.leb n 57)
  || N.eqb n 95 || N.eqb n 45.

(** [^[A-Za-z0-9_-]{1,128}$] *)
Definition tenantIDPattern (s : string) : bool :=
  negb (is_empty s) && (String.length s <=? 128)%nat && forallb tenant_char (String.list_ascii_of_string s).

Definition AllTenantsSentinel : string := "__all__".

Definition InTx {A} (f : Fault) (tenantID : string) (fn : Tx A) (db : Db) : Db * result StoreError A :=
  if bool_decide (tenantID = AllTenantsSentinel) || bool_decide (tenantID = "__unset__")
  then (db, Err ErrInvalidTenantID)
  else if negb (tenantIDPattern tenantID) then (db, Err ErrInvalidTenantID)
  else match f with
       | FaultAbort e => (db, Err e)
       | _ =>
           match fn db with
           | Err e => (db, Err e)
           | Ok (db', a) =>
               match f with
               | FaultCommit durable e => (if durable then db' else db, Err e)
               | _ => (db', Ok a)
               end
           end
       end.

(** The row [jti] as the row-level security policy shows it to the tenant. *)
Definition visible (t : Table) (tenantID jti : string) : option Row :=
  match t !! jti with
  | Some r => if bool_decide (tenant_id r = tenantID) then Some r else None
  | None => None
  end.

Definition AppendInTx (tenantID event : string) (payload : Payload) (at_ : Time) : Tx unit :=
  fun db => Ok (mkDb (tokens db) (audit_log db ++ [mkAuditRow tenantID event payload at_]), tt).

(** The INSERT; the primary key is unique over all tenants, and
    [mapUniqueViolation] turns its violation into [ErrAlreadyExists]. *)
Definition insertIssued (tok : IssuedToken) : Tx unit :=
  fun db =>
    match tokens db !! JTI tok with
    | Some _ => Err ErrAlreadyExists
    | None =>
        let row := mkRow (TenantID tok) (Subject tok) (TokenHash tok) (Scope tok) (Audience tok)
                     (audienceListArg (Audiences tok) (Audience tok)) (DialectCapAppliedSeconds tok)
                     (IssuedAt tok) (ExpiresAt tok) (NullTime (RevokedAt tok)) (NullString (RevokedReason tok))
                     (NullString (ActSubject tok)) (NullString (ParentJTI tok)) in
        Ok (mkDb (<[JTI tok := row]> (tokens db)) (audit_log db), tt)
    end.

(** *** The re-read of the source tokens (recheck.go) *)

Record sourceState := mkSourceState { st_revokedAt : option Time; st_impersonation : bool }.

Definition selectSourceState (t : Table) (tenantID jti : string) : option sourceState :=
  if is_empty jti then None
  else match visible t tenantID jti with
       | None => None
       | Some r => Some (mkSourceState (revoked_at r)
                           (bool_decide (is_Some (act_sub r)) && bool_decide (parent_jti r = None)))
       end.

Fixpoint first_revoked (t : Table) (tenantID : string) (sources : list SourceToken) : option StoreError :=
  match sources with
  | [] => None
  | src :: rest =>
      match selectSourceState t tenantID (SrcJTI src) with
      | Some (mkSourceState (Some at_) _) => Some (SourceRevokedError (Role src) (SrcJTI src) at_)
      | _ => first_revoked t tenantID rest
      end
  end.

Fixpoint first_impersonation (t : Table) (tenantID : string) (sources : list SourceToken) : option StoreError :=
  match sources with
  | [] => None
  | src :: rest =>
      match selectSourceState t tenantID (SrcJTI src) with
      | Some (mkSourceState _ true) => Some (SourceImpersonationError (Role src) (SrcJTI src))
      | _ => first_impersonation t tenantID rest
      end
  end.

Definition recheckSources (tenantID : string) (sources : list SourceToken) : Tx unit :=
  fun db =>
    match first_revoked (tokens db) tenantID sources with
    | Some e => Err e
    | None => match first_impersonation (tokens db) tenantID sources with
              | Some e => Err e
              | None => Ok (db, tt)
              end
    end.

(** *** Issuing *)

Definition Record_ (f : Fault) (tok : IssuedToken) : Db -> Db * result StoreError unit :=
  InTx f (TenantID tok) (insertIssued tok).

Definition RecordWithAudit (f : Fault) (tok : IssuedToken) (sources : list SourceToken)
    (event : string) (payload : Payload) (at_ : Time) : Db -> Db * result StoreError unit :=
  InTx f (TenantID tok)
    (tx_bind (recheckSources (TenantID tok) sources) (fun _ =>
     tx_bind (AppendInTx (TenantID tok) event payload at_) (fun _ =>
     insertIssued tok))).

Definition set_revoked (at_ : Time) (reason : string) (r : Row) : Row :=
  mkRow (tenant_id r) (sub r) (token_hash r) (scope r) (audience r) (audiences r)
    (dialect_cap_applied_seconds r) (issued_at r) (exp r) (Some at_) (NullString reason)
    (act_sub r) (parent_jti r).

(** The conditional UPDATE, and [previousRevokedError] when it matches no
    live row. *)
Definition revokePrevious (tenantID prevJTI reason : string) (at_ : Time) : Tx (string * bool) :=
  fun db =>
    match visible (tokens db) tenantID prevJTI with
    | None => Ok (db, ("", false))
    | Some r =>
        match revoked_at r with
        | None => Ok (mkDb (<[prevJTI := set_revoked at_ reason r]> (tokens db)) (audit_log db), (sub r, true))
        | Some when => Err (SourceRevokedError SourceSubjectToken prevJTI when)
        end
    end.

Definition RecordWithRotationAudit (f : Fault) (tok : IssuedToken) (sources : list SourceToken)
    (prevJTI reason event : string) (payload : Payload) (at_ : Time) :
    Db -> Db * result StoreError (string * bool) :=
  InTx f (TenantID tok)
    (tx_bind (recheckSources (TenantID tok) sources) (fun _ =>
     tx_bind (AppendInTx (TenantID tok) event payload at_) (fun _ =>
     tx_bind (insertIssued tok) (fun _ =>
     revokePrevious (TenantID tok) prevJTI reason at_)))).

(** *** Revoking *)

(** [at.IsZero()] falls back to the clock. *)
Definition at_or_now (clock at_ : Time) : Time := if time_is_zero at_ then clock else at_.

Definition Revoke (f : Fault) (clock : Time) (tenantID jti reason : string) (at_ : Time) :
    Db -> Db * result StoreError unit :=
  InTx f tenantID (fun db =>
    match visible (tokens db) tenantID jti with
    | None => Err ErrNotFound
    | Some r => Ok (mkDb (<[jti := set_revoked (at_or_now clock at_) reason r]> (tokens db)) (audit_log db), tt)
    end).

Definition RevokeWithAudit (f : Fault) (clock : Time) (tenantID jti reason event : string)
    (payload : Payload) (at_ : Time) : Db -> Db * result StoreError unit :=
  InTx f tenantID (fun db =>
    match visible (tokens db) tenantID jti with
    | None => Err ErrNotFound
    | Some r =>
        match revoked_at r with
        | Some _ => Err ErrNotFound
        | None => AppendInTx tenantID event payload (at_or_now clock at_)
                    (mkDb (<[jti := set_revoked (at_or_now clock at_) reason r]> (tokens db)) (audit_log db))
        end
    end).

(** The live rows of the tenant whose key satisfies [P], and the UPDATE that
    stamps them. *)
Definition live_rows (t : Table) (tenantID : string) (P : string -> Row -> bool) : Table :=
  filter (fun kv => bool_decide (tenant_id kv.2 = tenantID) && bool_decide (revoked_at kv.2 = None)
                    && P kv.1 kv.2 = true) t.

Definition stamp (t : Table) (hit : Table) (upd : string -> Row -> Row) : Table :=
  map_imap (fun j r => Some (if bool_decide (is_Some (hit !! j)) then upd j r else r)) t.

Definition RevokeBySubject (f : Fault) (clock : Time) (tenantID subject reason : string) (at_ : Time) :
    Db -> Db * result StoreError (list string) :=
  InTx f tenantID (fun db =>
    let hit := live_rows (tokens db) tenantID (fun _ r => bool_decide (sub r = subject)) in
    Ok (mkDb (stamp (tokens db) hit (fun _ => set_revoked (at_or_now clock at_) reason)) (audit_log db),
        map fst (map_to_list hit))).

Record RevokedToken := mkRevokedToken { RtJTI : string; RtSubject : string; IsRoot : bool }.

(** The recursive CTE: the rows of the tenant whose parent is in [S]. *)
Definition children (t : Table) (tenantID : string) (S : gset string) : gset string :=
  dom (filter (fun kv => bool_decide (tenant_id kv.2 = tenantID)
                         && match parent_jti kv.2 with
                            | Some p => bool_decide (p ∈ S)
                            | None => false
                            end = true) t).

(** The subtree of [root]: the seed row and, level by level, its
    descendants.  A level can only add rows of the table, so as many rounds
    as the table has rows reach the last level.  The query's own recursion
    ends because lineage is acyclic (a parent is an earlier token); on a cycle
    [UNION ALL] would not end, while this set is still the closure. *)
Definition subtree (t : Table) (tenantID root : string) : gset string :=
  let seed := match visible t tenantID root with Some _ => {[root]} | None => ∅ end in
  Nat.iter (size t) (fun S => S ∪ children t tenantID S) seed.

Definition RevokeCascade (f : Fault) (clock : Time) (tenantID rootJTI rootReason childReason : string)
    (at_ : Time) : Db -> Db * result StoreError (list RevokedToken) :=
  InTx f tenantID (fun db =>
    match visible (tokens db) tenantID rootJTI with
    | None => Err ErrNotFound
    | Some _ =>
        let s := subtree (tokens db) tenantID rootJTI in
        let hit := live_rows (tokens db) tenantID (fun j _ => bool_decide (j ∈ s)) in
        Ok (mkDb (stamp (tokens db) hit (fun j =>
                    set_revoked (at_or_now clock at_) (if bool_decide (j = rootJTI) then rootReason else childReason)))
                 (audit_log db),
            map (fun kv => mkRevokedToken kv.1 (sub kv.2) (bool_decide (kv.1 = rootJTI))) (map_to_list hit))
    end).

(** *** Reading and erasing *)

Definition Get (f : Fault) (tenantID jti : string) (db : Db) : Db * result StoreError IssuedToken :=
  InTx f tenantID (fun db =>
    match visible (tokens db) tenantID jti with
    | None => Err ErrNotFound
    | Some r => Ok (db, scanToken jti r)
    end) db.

Definition delete_where (t : Table) (P : Row -> bool) : Table := filter (fun kv => P kv.2 = false) t.

Definition delete_rows (P : Row -> bool) : Tx Z :=
  fun db => let t' := delete_where (tokens db) P in
            Ok (mkDb t' (audit_log db), (Z.of_nat (size (tokens db)) - Z.of_nat (size t'))%Z).

Definition DeleteExpired (f : Fault) (tenantID : string) (cutoff : Time) : Db -> Db * result StoreError Z :=
  InTx f tenantID (delete_rows (fun r => bool_decide (tenant_id r = tenantID) && (exp r <=? cutoff)%Z)).

(** [now] is the database clock. *)
Definition DeleteByUser (f : Fault) (now : Time) (tenantID userID : string) (db : Db) : Db * result StoreError Z :=
  if is_empty tenantID || is_empty userID then (db, Err ErrMissingArgument)
  else InTx f tenantID (delete_rows (fun r =>
         bool_decide (tenant_id r = tenantID) && bool_decide (sub r = userID) && (exp r <=? now - Hour)%Z)) db.

Definition DeleteByTenant (f : Fault) (now : Time) (tenantID : string) (db : Db) : Db * result StoreError Z :=
  if is_empty tenantID then (db, Err ErrMissingArgument)
  else InTx f tenantID (delete_rows (fun r =>
         bool_decide (tenant_id r = tenantID) && (exp r <=? now - Hour)%Z)) db.

End Store.

Arguments Db Payload : clear implicits.
Arguments Tx Payload A : clear implicits.

(** ** Lemmas: transactions *)

Section Lemmas.
Context {Payload : Type}.
Implicit Types (db : Db Payload) (t : Table).

(** A call leaves the database as it was or as its body left it. *)
Lemma InTx_cases {A} f tn (fn : Tx Payload A) db :
  ((InTx f tn fn db).1 = db \/ exists a, fn db = Ok ((InTx f tn fn db).1, a)) /\
  (forall a, (InTx f tn fn db).2 = Ok a -> fn db = Ok ((InTx f tn fn db).1, a)).
Proof.
  unfold InTx. destruct (_ || _); [by split; [left|]|]. destruct (negb _); [by split; [left|]|].
  destruct f as [|e|durable e].
  - destruct (fn db) as [[db' a]|e]; simpl; [|by split; [left|]].
    split; [eauto|]. by intros ? [= ->].
  - by split; [left|].
  - destruct (fn db) as [[db' a]|e']; simpl; [|by split; [left|]].
    split; [|done]. destruct durable; eauto.
Qed.

(** Either the call changed nothing, or its body ran and [E] says how. *)
Tactic Notation "tx_cases" "as" ident(E) :=
  match goal with
  | |- context [(InTx ?f ?t ?fn ?d).1] => destruct (InTx_cases f t fn d) as [[->|[? E]] _]; [done|]
  end.

Lemma tx_bind_Ok {A B} (m : Tx Payload A) (k : A -> Tx Payload B) db r :
  tx_bind m k db = Ok r <-> exists db' a, m db = Ok (db', a) /\ k a db' = Ok r.
Proof.
  unfold tx_bind. destruct (m db) as [[db' a]|e].
  - split; [eauto|]. by intros (? & ? & [= <- <-] & ?).
  - split; [done|]. by intros (? & ? & ? & ?).
Qed.

Lemma visible_Some t tn j r : visible t tn j = Some r <-> t !! j = Some r /\ tenant_id r = tn.
Proof.
  unfold visible. destruct (t !! j) as [r'|]; [|naive_solver]. case_bool_decide; naive_solver.
Qed.

Lemma recheck_Ok tn sources db db' u : recheckSources tn sources db = Ok (db', u) ->
  db' = db /\ forall src r, src ∈ sources -> SrcJTI src <> "" ->
    visible (tokens db) tn (SrcJTI src) = Some r -> revoked_at r = None.
Proof.
  unfold recheckSources. destruct (first_revoked _ _ _) eqn:E; [done|].
  destruct (first_impersonation _ _ _); [done|]. intros [= <- _]. split; [done|].
  induction sources as [|s l IH]; intros src r Hin Hne Hv; [by apply elem_of_nil in Hin|].
  cbn [first_revoked] in E. apply elem_of_cons in Hin as [<-|Hin].
  - unfold selectSourceState in E. rewrite is_empty_false, Hv in E by done.
    by destruct (revoked_at r).
  - eapply IH; [|done..]. destruct (selectSourceState _ _ (SrcJTI s)) as [[[|] ?]|]; done.
Qed.

(** ** Lemmas: lineage *)

(** [c] is a row of the tenant whose parent is [p]. *)
Definition edge t tn (p c : string) : Prop :=
  exists r, t !! c = Some r /\ tenant_id r = tn /\ parent_jti r = Some p.

Definition reaches t tn (root j : string) : Prop :=
  is_Some (visible t tn root) /\ rtc (edge t tn) root j.

Lemma elem_of_children t tn S c : c ∈ children t tn S <-> exists p, p ∈ S /\ edge t tn p c.
Proof.
  unfold children, edge. rewrite elem_of_dom. split.
  - intros [r Hr]. apply map_lookup_filter_Some in Hr as [Hr Hp]. simpl in Hp.
    apply andb_true_iff in Hp as [Ht Hp]. destruct (parent_jti r) as [p|] eqn:E; [|done].
    apply bool_decide_eq_true in Ht, Hp. eauto 6.
  - intros (p & Hp & r & Hr & Ht & E). exists r. apply map_lookup_filter_Some. split; [done|]. simpl.
    rewrite E. by rewrite !bool_decide_eq_true_2.
Qed.

(** Rounds of an inflationary step inside a finite set reach a fixed point. *)
Lemma iter_fixpoint (step : gset string -> gset string) (U S : gset string) n :
  (forall S, S ⊆ step S) -> (forall S, S ⊆ U -> step S ⊆ U) -> S ⊆ U ->
  step (Nat.iter n step S) = Nat.iter n step S \/ size S + n <= size (Nat.iter n step S).
Proof.
  intros Hi Hu HS. induction n as [|n [IH|IH]]; simpl.
  - right. lia.
  - left. by rewrite !IH.
  - destruct (decide (step (Nat.iter n step S) = Nat.iter n step S)) as [E|E]; [left; by rewrite !E|].
    right. assert (Nat.iter n step S ⊂ step (Nat.iter n step S)) as Hlt.
    { split; [apply Hi|]. intros Hs. apply E. apply set_eq. intros x. split; [apply Hs|apply Hi]. }
    apply subset_size in Hlt. simpl in Hlt. lia.
Qed.

Lemma subtree_spec t tn root j : j ∈ subtree t tn root <-> reaches t tn root j.
Proof.
  unfold subtree, reaches. destruct (visible t tn root) as [r0|] eqn:Hv.
  2: { split; [|by intros [[? ?] _]].
       assert (forall n, Nat.iter n (fun S => S ∪ children t tn S) ∅ = ∅) as ->; [|set_solver].
       induction n as [|n IH]; [done|]. cbn [Nat.iter nat_rect]. unfold Nat.iter in IH. rewrite IH.
       apply set_eq. intros x. rewrite elem_of_union, elem_of_children. set_solver. }
  set (step := fun S => S ∪ children t tn S).
  apply visible_Some in Hv as [Hv _].
  split.
  - intros Hj. split; [eauto|]. revert j Hj. generalize (size t) as n.
    induction n as [|n IH]; intros j; simpl.
    + intros ->%elem_of_singleton. apply rtc_refl.
    + unfold step at 1. rewrite elem_of_union, elem_of_children. intros [Hj|(p & Hp & He)]; [by apply IH|].
      eapply rtc_r; [apply IH, Hp|done].
  - intros [_ Hr].
    destruct (iter_fixpoint step (dom t) {[root]} (size t)) as [Hfix|Hsz].
    + intros S. unfold step. set_solver.
    + intros S HS x. unfold step. rewrite elem_of_union, elem_of_children.
      intros [?|(p & _ & r & Hr' & _)]; [by apply HS|]. apply elem_of_dom. eauto.
    + intros x ->%elem_of_singleton. apply elem_of_dom. eauto.
    + assert (root ∈ Nat.iter (size t) step {[root]}) as H0.
      { generalize (size t) as n. induction n as [|n IH]; simpl; [set_solver|]. unfold step at 1. set_solver. }
      set (C := Nat.iter (size t) step {[root]}) in *.
      assert (forall x y, rtc (edge t tn) x y -> x ∈ C -> y ∈ C) as Hclosed; [|by eapply Hclosed].
      induction 1 as [|x y z He _ IH]; [done|]. intros Hx. apply IH. rewrite <- Hfix. unfold step.
      rewrite elem_of_union, elem_of_children. eauto.
    + exfalso. rewrite size_singleton in Hsz.
      assert (Nat.iter (size t) step {[root]} ⊆ dom t) as Hsub.
      { generalize (size t) as n. induction n as [|n IH]; simpl.
        - intros x ->%elem_of_singleton. apply elem_of_dom. eauto.
        - intros x. unfold step at 1. rewrite elem_of_union, elem_of_children.
          intros [?|(p & _ & r & Hr' & _)]; [by apply IH|]. apply elem_of_dom. eauto. }
      apply subseteq_size in Hsub. rewrite size_dom in Hsub. unfold Nat.iter in *. lia.
Qed.

(** ** Lemmas: stamping rows *)

Lemma live_rows_Some t tn P j r : live_rows t tn P !! j = Some r <->
  t !! j = Some r /\ tenant_id r = tn /\ revoked_at r = None /\ P j r = true.
Proof.
  unfold live_rows. rewrite map_lookup_filter_Some. simpl.
  rewrite !andb_true_iff, !bool_decide_eq_true. tauto.
Qed.

Lemma lookup_stamp t hit upd j :
  stamp t hit upd !! j = (fun r => if bool_decide (is_Some (hit !! j)) then upd j r else r) <$> t !! j.
Proof. unfold stamp. rewrite map_lookup_imap. by destruct (t !! j). Qed.

(** A table whose old rows keep tenant and parent, never become live again,
    and whose new rows of the tenant have no revoked parent. *)
Definition extends tn t t' : Prop :=
  (forall j r, t !! j = Some r -> exists r', t' !! j = Some r' /\ tenant_id r' = tenant_id r /\
     parent_jti r' = parent_jti r /\ (revoked_at r <> None -> revoked_at r' <> None)) /\
  (forall j r', t !! j = None -> t' !! j = Some r' -> tenant_id r' = tn ->
     forall p r, parent_jti r' = Some p -> visible t tn p = Some r -> revoked_at r = None).

Lemma extends_refl tn t : extends tn t t.
Proof. split; [eauto|congruence]. Qed.

(** Changing rows in place, never back to live. *)
Lemma extends_alter tn t t' g :
  (forall j, t' !! j = g j <$> t !! j) ->
  (forall j r, tenant_id (g j r) = tenant_id r /\ parent_jti (g j r) = parent_jti r /\
     (revoked_at r <> None -> revoked_at (g j r) <> None)) ->
  extends tn t t'.
Proof.
  intros Ht Hg. split.
  - intros j r Hj. exists (g j r). rewrite Ht, Hj. split; [done|]. apply Hg.
  - intros j r' Hn Hs. rewrite Ht, Hn in Hs. done.
Qed.

Lemma extends_stamp tn t hit upd :
  (forall j r, tenant_id (upd j r) = tenant_id r /\ parent_jti (upd j r) = parent_jti r /\
     revoked_at (upd j r) <> None) ->
  extends tn t (stamp t hit upd).
Proof.
  intros Hu. eapply extends_alter; [apply lookup_stamp|]. intros j r. cbn beta.
  case_bool_decide; [|done]. destruct (Hu j r) as (? & ? & ?). done.
Qed.

Lemma extends_update tn t j r r' : t !! j = Some r ->
  tenant_id r' = tenant_id r -> parent_jti r' = parent_jti r -> revoked_at r' <> None ->
  extends tn t (<[j := r']> t).
Proof.
  intros Hj H1 H2 H3. split.
  - intros k x Hk. destruct (decide (k = j)) as [->|Hne].
    + rewrite Hj in Hk. injection Hk as <-. exists r'. by rewrite lookup_insert_eq.
    + exists x. by rewrite lookup_insert_ne.
  - intros k x Hn Hs. destruct (decide (k = j)) as [->|Hne]; [congruence|].
    rewrite lookup_insert_ne in Hs by done. congruence.
Qed.

Lemma extends_insert tn t j r' : t !! j = None ->
  (tenant_id r' = tn -> forall p r, parent_jti r' = Some p -> visible t tn p = Some r -> revoked_at r = None) ->
  extends tn t (<[j := r']> t).
Proof.
  intros Hj Hp. split.
  - intros k x Hk. exists x. rewrite lookup_insert_ne; [done|congruence].
  - intros k x Hn Hs. destruct (decide (k = j)) as [->|Hne].
    + rewrite lookup_insert_eq in Hs. injection Hs as <-. done.
    + rewrite lookup_insert_ne in Hs by done. congruence.
Qed.

(** Every descendant of the row [root] of the tenant is revoked. *)
Definition dead t tn root : Prop :=
  is_Some (visible t tn root) /\
  forall j, reaches t tn root j -> exists r, visible t tn j = Some r /\ revoked_at r <> None.

Lemma dead_extends tn t t' root : extends tn t t' -> dead t tn root -> dead t' tn root.
Proof.
  intros [Hold Hnew] [[r0 H0] Hd].
  assert (forall j r, visible t tn j = Some r -> exists r', visible t' tn j = Some r' /\
    (revoked_at r <> None -> revoked_at r' <> None)) as Hvis.
  { intros j r [Hj Ht]%visible_Some. destruct (Hold _ _ Hj) as (r' & Hj' & Ht' & _ & Hr).
    exists r'. rewrite visible_Some. split_and!; [done|congruence|done]. }
  split; [destruct (Hvis _ _ H0) as (r' & -> & _); eauto|].
  assert (forall j, rtc (edge t' tn) root j -> rtc (edge t tn) root j) as Hback.
  { apply rtc_ind_r; [apply rtc_refl|]. intros p c _ He IH.
    eapply rtc_r; [exact IH|]. destruct He as (r' & Hc & Ht & Hp).
    destruct (t !! c) as [r|] eqn:E.
    - destruct (Hold _ _ E) as (r'' & Hc' & Ht' & Hp' & _). rewrite Hc in Hc'. injection Hc' as <-.
      exists r. split; [done|]. split; congruence.
    - destruct (Hd p) as (rp & Hvp & Hrp); [split; [eauto|exact IH]|].
      by destruct (Hrp (Hnew _ _ E Hc Ht _ _ Hp Hvp)). }
  intros j [_ Hj]. destruct (Hd j) as (r & Hv & Hr); [split; [eauto|by apply Hback]|].
  destruct (Hvis _ _ Hv) as (r' & ? & ?). eauto.
Qed.

(** ** Histories of calls *)

Inductive op :=
| OpRecord (f : Fault) (tok : IssuedToken)
| OpMint (f : Fault) (tok : IssuedToken) (sources : list SourceToken) (event : string) (payload : Payload) (at_ : Time)
| OpRotate (f : Fault) (tok : IssuedToken) (sources : list SourceToken) (prevJTI reason event : string)
    (payload : Payload) (at_ : Time)
| OpRevoke (f : Fault) (clock : Time) (tenantID jti reason : string) (at_ : Time)
| OpRevokeWithAudit (f : Fault) (clock : Time) (tenantID jti reason event : string) (payload : Payload) (at_ : Time)
| OpRevokeBySubject (f : Fault) (clock : Time) (tenantID subject reason : string) (at_ : Time)
| OpRevokeCascade (f : Fault) (clock : Time) (tenantID rootJTI rootReason childReason : string) (at_ : Time).

Definition apply_op (o : op) db : Db Payload :=
  match o with
  | OpRecord f tok => (Record_ f tok db).1
  | OpMint f tok sources event payload at_ => (RecordWithAudit f tok sources event payload at_ db).1
  | OpRotate f tok sources prev reason event payload at_ =>
      (RecordWithRotationAudit f tok sources prev reason event payload at_ db).1
  | OpRevoke f clock tn jti reason at_ => (Revoke f clock tn jti reason at_ db).1
  | OpRevokeWithAudit f clock tn jti reason event payload at_ =>
      (RevokeWithAudit f clock tn jti reason event payload at_ db).1
  | OpRevokeBySubject f clock tn s reason at_ => (RevokeBySubject f clock tn s reason at_ db).1
  | OpRevokeCascade f clock tn root rr cr at_ => (RevokeCascade f clock tn root rr cr at_ db).1
  end.

(** A token with a parent is recorded only by a call that re-reads the
    parent among its sources. *)
Definition covered (tok : IssuedToken) (sources : list SourceToken) : Prop :=
  ParentJTI tok = "" \/ exists src, src ∈ sources /\ SrcJTI src = ParentJTI tok.

Definition guarded (o : op) : Prop :=
  match o with
  | OpRecord _ tok => ParentJTI tok = ""
  | OpMint _ tok sources _ _ _ | OpRotate _ tok sources _ _ _ _ _ => covered tok sources
  | _ => True
  end.

Lemma insertIssued_Ok tok db db' u : insertIssued tok db = Ok (db', u) ->
  tokens db !! JTI tok = None /\ audit_log db' = audit_log db /\
  exists r, tokens db' = <[JTI tok := r]> (tokens db) /\ tenant_id r = TenantID tok /\
    sub r = Subject tok /\ token_hash r = TokenHash tok /\ scope r = Scope tok /\ exp r = ExpiresAt tok /\
    revoked_at r = NullTime (RevokedAt tok) /\ act_sub r = NullString (ActSubject tok) /\
    parent_jti r = NullString (ParentJTI tok).
Proof.
  unfold insertIssued. destruct (tokens db !! JTI tok); [done|]. intros [= <- _].
  split; [done|]. split; [done|]. eexists. cbn [tokens]. split_and!; done.
Qed.

Lemma insert_extends tn tok sources db db' u :
  covered tok sources ->
  (forall src r, src ∈ sources -> SrcJTI src <> "" ->
     visible (tokens db) (TenantID tok) (SrcJTI src) = Some r -> revoked_at r = None) ->
  insertIssued tok db = Ok (db', u) -> extends tn (tokens db) (tokens db').
Proof.
  intros Hc Hs (Hn & _ & r & -> & Ht & _ & _ & _ & _ & _ & _ & Hp)%insertIssued_Ok.
  apply extends_insert; [done|]. intros Etn p rp Ep Hv. rewrite Hp in Ep.
  unfold NullString in Ep. destruct (is_empty (ParentJTI tok)) eqn:E; [done|]. injection Ep as Ep.
  assert (ParentJTI tok <> "") as Hne by (intros E'; rewrite E' in E; done).
  destruct Hc as [Hc|(src & Hsrc & Ej)]; [done|].
  apply (Hs src); [done|by rewrite Ej|]. by rewrite Ej, Ep, <- Ht, Etn.
Qed.

Lemma AppendInTx_Ok tn ev (pl : Payload) at_ db db' u :
  AppendInTx tn ev pl at_ db = Ok (db', u) ->
  tokens db' = tokens db /\ audit_log db' = audit_log db ++ [mkAuditRow tn ev pl at_].
Proof. by intros [= <- _]. Qed.

Lemma revokePrevious_Ok tn tn' prev reason at_ db db' x :
  revokePrevious tn' prev reason at_ db = Ok (db', x) ->
  extends tn (tokens db) (tokens db') /\ audit_log db' = audit_log db.
Proof.
  unfold revokePrevious. destruct (visible (tokens db) tn' prev) as [r|] eqn:E.
  2: { intros [= <- _]. split; [apply extends_refl|done]. }
  apply visible_Some in E as [E _].
  destruct (revoked_at r); [done|]. intros [= <- _]. split; [|done]. by eapply extends_update.
Qed.

(** Each guarded call is a sequence of [extends] steps. *)
Lemma apply_op_extends tn o db : guarded o ->
  rtc (extends tn) (tokens db) (tokens (apply_op o db)).
Proof.
  intros Hg.
  destruct o as [f tok|f tok srcs ev pl at_|f tok srcs prev reason ev pl at_|f ck tn' j rs at_
                |f ck tn' j rs ev pl at_|f ck tn' s rs at_|f ck tn' rt rr cr at_]; cbn [apply_op guarded] in *.
  - unfold Record_. tx_cases as E. apply rtc_once. eapply (insert_extends _ tok []); [by left| |done].
    intros ? ? Hin. by apply elem_of_nil in Hin.
  - unfold RecordWithAudit. tx_cases as E.
    apply tx_bind_Ok in E as (d1 & ? & (-> & Hs)%recheck_Ok & E).
    apply tx_bind_Ok in E as (d2 & ? & (Et & _)%AppendInTx_Ok & E).
    apply rtc_once. rewrite <- Et. eapply insert_extends; [done|by rewrite Et|done].
  - unfold RecordWithRotationAudit. tx_cases as E.
    apply tx_bind_Ok in E as (d1 & ? & (-> & Hs)%recheck_Ok & E).
    apply tx_bind_Ok in E as (d2 & ? & (Et & _)%AppendInTx_Ok & E).
    apply tx_bind_Ok in E as (d3 & ? & Ei & E).
    apply (revokePrevious_Ok tn) in E as [Er _]. eapply rtc_r; [apply rtc_once|exact Er].
    rewrite <- Et. eapply insert_extends; [done|by rewrite Et|done].
  - unfold Revoke. tx_cases as E.
    destruct (visible (tokens db) tn' j) as [r|] eqn:Ev; [|done]. apply visible_Some in Ev as [Ev _].
    injection E as <- _. apply rtc_once. by eapply extends_update.
  - unfold RevokeWithAudit. tx_cases as E.
    destruct (visible (tokens db) tn' j) as [r|] eqn:Ev; [|done]. apply visible_Some in Ev as [Ev _].
    destruct (revoked_at r); [done|]. injection E as <- _. apply rtc_once. by eapply extends_update.
  - unfold RevokeBySubject. tx_cases as E. injection E as <- _. apply rtc_once. by apply extends_stamp.
  - unfold RevokeCascade. tx_cases as E. destruct (visible (tokens db) tn' rt) as [r|]; [|done].
    injection E as <- _. apply rtc_once. by apply extends_stamp.
Qed.

Definition run (ops : list op) db : Db Payload := foldl (fun d o => apply_op o d) db ops.

Lemma run_extends tn ops db : Forall guarded ops -> rtc (extends tn) (tokens db) (tokens (run ops db)).
Proof.
  revert db. induction ops as [|o ops IH]; intros db Hg; [apply rtc_refl|].
  apply Forall_cons in Hg as [Ho Hg]. etrans; [by apply apply_op_extends|]. by apply (IH (apply_op o db)).
Qed.

Lemma run_dead tn root ops db : Forall guarded ops ->
  dead (tokens db) tn root -> dead (tokens (run ops db)) tn root.
Proof.
  intros Hg. apply (run_extends tn ops db) in Hg. revert Hg. generalize (tokens (run ops db)) as t'.
  generalize (tokens db) as t. induction 1; eauto using dead_extends.
Qed.

(** *** Mints that are in flight *)

(** [x] descends from the tokens [J]. *)
Definition below (J : list string) t tn (x : string) : Prop := exists e, e ∈ J /\ rtc (edge t tn) e x.

(** Every descendant of the row [root] is revoked, but for those below [J]. *)
Definition dead_but (J : list string) t tn root : Prop :=
  is_Some (visible t tn root) /\
  forall j, rtc (edge t tn) root j -> (exists r, visible t tn j = Some r /\ revoked_at r <> None) \/ below J t tn j.

(** Rows stay as they are, or are revoked; a new row is one of [J], or its
    parent is not in the tree of [root] but below [J]. *)
Definition grows_but (J : list string) tn root t t' : Prop :=
  (forall j r, t !! j = Some r -> exists r', t' !! j = Some r' /\ tenant_id r' = tenant_id r /\
     parent_jti r' = parent_jti r /\ (revoked_at r <> None -> revoked_at r' <> None)) /\
  (forall j r' p, t !! j = None -> t' !! j = Some r' -> tenant_id r' = tn -> parent_jti r' = Some p ->
     j ∈ J \/ (rtc (edge t tn) root p -> below J t tn p)).

Lemma edge_grows J tn root t t' p c : grows_but J tn root t t' -> edge t tn p c -> edge t' tn p c.
Proof. intros [Hold _] (r & Hc & Ht & Hp). destruct (Hold _ _ Hc) as (r' & ? & ? & ? & _). exists r'. split_and!; congruence. Qed.

Lemma below_grows J tn root t t' x : grows_but J tn root t t' -> below J t tn x -> below J t' tn x.
Proof. intros Hg (e & He & Hr). exists e. split; [done|]. eapply rtc_subrel; [|exact Hr]. intros p c. by eapply edge_grows. Qed.

(** A path from the root is an old one, or passes through [J]. *)
Lemma path_grows J tn root t t' x : grows_but J tn root t t' ->
  rtc (edge t' tn) root x -> rtc (edge t tn) root x \/ below J t' tn x.
Proof.
  intros Hg. revert x. apply rtc_ind_r; [left; apply rtc_refl|]. intros p c _ He [IH|(e & Hin & IH)].
  2: { right. exists e. split; [done|]. by eapply rtc_r. }
  pose proof He as (r' & Hc & Ht & Hp). destruct Hg as [Hold Hnew] eqn:Eg. destruct (t !! c) as [r|] eqn:E.
  - left. eapply rtc_r; [exact IH|]. destruct (Hold _ _ E) as (r'' & Hc' & Ht' & Hp' & _). exists r. split_and!; congruence.
  - right. destruct (Hnew _ _ _ E Hc Ht Hp) as [Hin|Hb]; [exists c; split; [done|apply rtc_refl]|].
    destruct (below_grows J tn root t t' p Hg (Hb IH)) as (e & Hin & Hr). exists e. split; [done|]. by eapply rtc_r.
Qed.

Lemma dead_but_grows J tn root t t' : grows_but J tn root t t' -> dead_but J t tn root -> dead_but J t' tn root.
Proof.
  intros Hg [[r0 H0] Hd]. pose proof Hg as [Hold _].
  assert (forall j r, visible t tn j = Some r -> exists r', visible t' tn j = Some r' /\
    (revoked_at r <> None -> revoked_at r' <> None)) as Hvis.
  { intros j r [Hj Ht]%visible_Some. destruct (Hold _ _ Hj) as (r' & Hj' & Ht' & _ & Hr).
    exists r'. rewrite visible_Some. split_and!; [done|congruence|done]. }
  split; [destruct (Hvis _ _ H0) as (r' & -> & _); eauto|].
  intros j Hj. destruct (path_grows J tn root t t' j Hg Hj) as [Hj'|]; [|by right].
  destruct (Hd j Hj') as [(r & Hv & Hr)|Hb]; [left; destruct (Hvis _ _ Hv) as (r' & ? & ?); eauto|].
  right. by eapply below_grows.
Qed.

(** A call that finds its parent live does not add to the dead part. *)
Lemma extends_grows J tn root t t' : dead_but J t tn root -> extends tn t t' -> grows_but J tn root t t'.
Proof.
  intros [_ Hd] [Hold Hnew]. split; [done|]. intros j r' p Hn Hs Ht Hp. right. intros Hr.
  destruct (Hd p Hr) as [(r & Hv & Hrev)|]; [|done]. by destruct (Hrev (Hnew _ _ Hn Hs Ht _ _ Hp Hv)).
Qed.

(** A token whose parent is not in the tree of [root] outside [J]. *)
Definition outside (J : list string) t tn root (tok : IssuedToken) : Prop :=
  JTI tok ∈ J \/ (TenantID tok = tn -> ParentJTI tok <> "" -> rtc (edge t tn) root (ParentJTI tok) -> below J t tn (ParentJTI tok)).

Lemma outside_grows J tn root t t' tok : grows_but J tn root t t' -> outside J t tn root tok -> outside J t' tn root tok.
Proof.
  intros Hg [Hin|Ho]; [by left|]. right. intros Ht Hne Hr. destruct (path_grows J tn root t t' _ Hg Hr) as [Hr'|]; [|done].
  eapply below_grows; [exact Hg|]. by apply Ho.
Qed.

(** A re-read that succeeds found the parent outside. *)
Lemma recheck_outside J tn root tok sources db db' u : covered tok sources -> dead_but J (tokens db) tn root ->
  recheckSources (TenantID tok) sources db = Ok (db', u) -> outside J (tokens db) tn root tok.
Proof.
  intros Hc [_ Hd] [_ Hs]%recheck_Ok. right. intros Ht Hne Hr. destruct Hc as [|(src & Hin & Ej)]; [done|].
  destruct (Hd _ Hr) as [(r & Hv & Hrev)|]; [|done]. destruct Hrev. apply (Hs src r Hin); by rewrite Ej, ?Ht.
Qed.

Lemma insert_grows J tn root tok db db' u : outside J (tokens db) tn root tok -> insertIssued tok db = Ok (db', u) ->
  grows_but J tn root (tokens db) (tokens db').
Proof.
  intros Ho (Hn & _ & r & -> & Ht & _ & _ & _ & _ & _ & _ & Hp)%insertIssued_Ok. split.
  - intros j x Hj. exists x. rewrite lookup_insert_ne; [done|congruence].
  - intros j x p Hj Hs Etn Ep. destruct (decide (j = JTI tok)) as [->|Hne]; [|rewrite lookup_insert_ne in Hs by done; congruence].
    rewrite lookup_insert_eq in Hs. injection Hs as <-. rewrite Hp in Ep. unfold NullString in Ep.
    destruct (is_empty (ParentJTI tok)) eqn:E; [done|]. injection Ep as <-.
    destruct Ho as [|Ho]; [by left|]. right. apply Ho; [congruence|]. intros E'. by rewrite E' in E.
Qed.

Lemma run_dead_but J tn root ops db tok : Forall guarded ops -> dead_but J (tokens db) tn root ->
  dead_but J (tokens (run ops db)) tn root /\ (outside J (tokens db) tn root tok -> outside J (tokens (run ops db)) tn root tok).
Proof.
  intros Hg. apply (run_extends tn ops db) in Hg. revert Hg. generalize (tokens (run ops db)) as t'.
  generalize (tokens db) as t. induction 1 as [|t t1 t2 He _ IH]; [done|]. intros Hd.
  pose proof (extends_grows J tn root t t1 Hd He) as Hgr.
  destruct (IH (dead_but_grows _ _ _ _ _ Hgr Hd)) as [H1 H2]. split; [done|]. intros Ho. by apply H2, (outside_grows _ _ _ t).
Qed.

Lemma dead_dead_but J t tn root : dead t tn root -> dead_but J t tn root.
Proof. intros [Hv Hd]. split; [done|]. intros j Hj. left. apply Hd. by split. Qed.

Lemma dead_but_none t tn root : dead_but [] t tn root <-> dead t tn root.
Proof.
  split; [|apply dead_dead_but]. intros [Hv Hd]. split; [done|]. intros j [_ Hj].
  destruct (Hd j Hj) as [|(e & []%elem_of_nil & _)]. done.
Qed.

(** A revoked row stays, and stays revoked. *)
Lemma run_revoked tn ops db j r : Forall guarded ops ->
  visible (tokens db) tn j = Some r -> revoked_at r <> None ->
  exists r', visible (tokens (run ops db)) tn j = Some r' /\ revoked_at r' <> None.
Proof.
  intros Hg. apply (run_extends tn ops db) in Hg. revert Hg r. generalize (tokens (run ops db)) as t'.
  generalize (tokens db) as t. induction 1 as [|t u v [Htu _] _ IH]; intros r Hv Hr; [eauto|].
  apply visible_Some in Hv as [Hj Ht]. destruct (Htu _ _ Hj) as (r' & Hj' & Ht' & _ & Hr').
  eapply IH; [apply visible_Some; split; [done|congruence]|]. by apply Hr'.
Qed.

(** What a successful cascade does. *)
Lemma cascade_inv f clock tn root rr cr at_ db db' out :
  RevokeCascade f clock tn root rr cr at_ db = (db', Ok out) ->
  is_Some (visible (tokens db) tn root) /\ audit_log db' = audit_log db /\
  let hit := live_rows (tokens db) tn (fun j _ => bool_decide (j ∈ subtree (tokens db) tn root)) in
  tokens db' = stamp (tokens db) hit (fun j =>
    set_revoked (at_or_now clock at_) (if bool_decide (j = root) then rr else cr)) /\
  out = map (fun kv => mkRevokedToken kv.1 (sub kv.2) (bool_decide (kv.1 = root))) (map_to_list hit).
Proof.
  unfold RevokeCascade. intros H.
  match type of H with InTx ?f ?t ?fn ?d = _ => destruct (InTx_cases f t fn d) as [_ HO] end.
  rewrite H in HO. specialize (HO out eq_refl). cbn [fst] in HO.
  destruct (visible (tokens db) tn root) as [r|]; [|done]. injection HO as <- <-. split; [eauto|]. done.
Qed.

Lemma cascade_dead f clock tn root rr cr at_ db db' out :
  RevokeCascade f clock tn root rr cr at_ db = (db', Ok out) -> dead (tokens db') tn root.
Proof.
  intros ([r0 Hv] & _ & Ht & _)%cascade_inv. rewrite Ht.
  set (hit := live_rows _ _ _). set (upd := fun j => _).
  assert (forall j r, visible (tokens db) tn j = Some r ->
    exists r', visible (stamp (tokens db) hit upd) tn j = Some r' /\
      (reaches (tokens db) tn root j -> revoked_at r' <> None)) as Hvis.
  { intros j r [Hj Htn]%visible_Some. eexists. rewrite visible_Some, lookup_stamp, Hj. cbn.
    split; [split; [done|by case_bool_decide]|]. intros Hr. case_bool_decide as Hh; [done|].
    intros Hlive. apply Hh. exists r. apply live_rows_Some. split_and!; try done.
    by apply bool_decide_eq_true, subtree_spec. }
  split; [destruct (Hvis _ _ Hv) as (? & -> & _); eauto|].
  assert (forall j, rtc (edge (stamp (tokens db) hit upd) tn) root j -> rtc (edge (tokens db) tn) root j) as Hback.
  { intros j. apply rtc_subrel. intros p c (r & Hc & Htn & Hp).
    rewrite lookup_stamp in Hc. destruct (tokens db !! c) as [r'|] eqn:E; [|done]. injection Hc as <-.
    exists r'. split; [done|]. revert Htn Hp. by case_bool_decide. }
  intros j [_ Hj%Hback]. assert (exists r, visible (tokens db) tn j = Some r) as [r Hr].
  { apply rtc_inv_r in Hj as [<-|(p & _ & r & Hc & Htn & _)]; [eauto|].
    exists r. by apply visible_Some. }
  destruct (Hvis _ _ Hr) as (r' & Hv' & Hrev). exists r'. split; [done|]. apply Hrev. split; [eauto|done].
Qed.

End Lemmas.

(** ** The contract of revocation *)

(** Recursive revocation is exact.  A successful call had a row for the
    root in the tenant; it revokes every live row of the tenant that descends
    from the root through parent links, with the root's reason on the root
    and the child's reason below; it changes no other row, in particular no
    row already revoked and no row of another tenant; and it returns each
    revoked row once, with only the root marked as root. *)
Theorem cascade_exact {Payload} f clock tn root rr cr at_ (db db' : Db Payload) out :
  RevokeCascade f clock tn root rr cr at_ db = (db', Ok out) ->
  is_Some (visible (tokens db) tn root) /\ audit_log db' = audit_log db /\
  (forall j r, tokens db !! j = Some r -> tenant_id r = tn -> revoked_at r = None ->
     reaches (tokens db) tn root j ->
     tokens db' !! j =
       Some (set_revoked (at_or_now clock at_) (if bool_decide (j = root) then rr else cr) r)) /\
  (forall j, (forall r, tokens db !! j = Some r -> tenant_id r = tn -> revoked_at r = None ->
                ~ reaches (tokens db) tn root j) ->
     tokens db' !! j = tokens db !! j) /\
  NoDup (map RtJTI out) /\
  (forall rt, rt ∈ out <-> exists r, tokens db !! RtJTI rt = Some r /\ tenant_id r = tn /\
     revoked_at r = None /\ reaches (tokens db) tn root (RtJTI rt) /\
     rt = mkRevokedToken (RtJTI rt) (sub r) (bool_decide (RtJTI rt = root))).
Proof.
  intros (Hv & Ha & Ht & ->)%cascade_inv. split; [done|]. split; [done|]. rewrite Ht. clear Ht Ha.
  set (hit := live_rows _ _ _).
  assert (forall j r, hit !! j = Some r <-> tokens db !! j = Some r /\ tenant_id r = tn /\
            revoked_at r = None /\ reaches (tokens db) tn root j) as Hhit.
  { intros j r. unfold hit. by rewrite live_rows_Some, bool_decide_eq_true, subtree_spec. }
  split_and!.
  - intros j r Hj Htn Hl Hr. rewrite lookup_stamp, Hj. simpl. rewrite bool_decide_eq_true_2; [done|].
    exists r. by apply Hhit.
  - intros j Hj. rewrite lookup_stamp. destruct (tokens db !! j) as [r|] eqn:E; [|done]. simpl.
    rewrite bool_decide_eq_false_2; [done|]. intros [r' Hr']. apply Hhit in Hr' as (E' & Htn & Hl & Hr).
    rewrite E in E'. injection E' as <-. by eapply Hj.
  - rewrite map_map. cbn. apply NoDup_fst_map_to_list.
  - intros [j s b]. cbn [RtJTI]. rewrite list_elem_of_fmap. split.
    + intros ([k r] & [= -> -> ->] & Hin%elem_of_map_to_list). exists r. apply Hhit in Hin as (? & ? & ? & ?). done.
    + intros (r & H1 & H2 & H3 & H4 & [= -> ->]). exists (j, r). split; [done|].
      by apply elem_of_map_to_list, Hhit.
Qed.

Definition ex_row (parent : option string) : Row :=
  mkRow "acme" "alice" "h" [] "" [] 0 1 2 None None (match parent with Some _ => Some "bob" | None => None end) parent.

(** A parent with a child and a grandchild, and an unrelated token. *)
Definition ex_db : Db unit :=
  mkDb (list_to_map [("j1", ex_row None); ("j2", ex_row (Some "j1")); ("j3", ex_row (Some "j2"));
                     ("j9", ex_row None)]) [].

Definition ex_cascade := RevokeCascade NoFault 0 "acme" "j1" "explicit_revoke" "cascade_from_parent" 7 ex_db.

Lemma cascade_exact_witness : NoDup (map RtJTI (match ex_cascade.2 with Ok l => l | Err _ => [] end)).
Proof.
  destruct (cascade_exact NoFault 0 "acme" "j1" "explicit_revoke" "cascade_from_parent" 7 ex_db ex_cascade.1
              (match ex_cascade.2 with Ok l => l | Err _ => [] end)
              ltac:(vm_compute; reflexivity)) as (_ & _ & _ & _ & H & _).
  exact H.
Defined.

Definition ex_tok (jti parent : string) : IssuedToken :=
  mkIssuedToken jti "acme" "alice" "h" [] "" [] 0 1 2 0 "" (if is_empty parent then "" else "bob") parent.

(** A call that lists a revoked row among its sources is refused. *)
Lemma recheck_revoked {Payload} tn sources (db : Db Payload) src r :
  src ∈ sources -> SrcJTI src <> "" -> visible (tokens db) tn (SrcJTI src) = Some r -> revoked_at r <> None ->
  exists e, recheckSources tn sources db = Err e.
Proof.
  intros Hin Hne Hv Hr. destruct (recheckSources tn sources db) as [[db' u]|e] eqn:E; [|eauto].
  apply recheck_Ok in E as [_ E]. by destruct (Hr (E _ _ Hin Hne Hv)).
Qed.

Lemma InTx_body_Err {Payload A} f tn (fn : Tx Payload A) db e :
  fn db = Err e -> exists e', InTx f tn fn db = (db, Err e').
Proof.
  intros E. unfold InTx. destruct (_ || _); [eauto|]. destruct (negb _); [eauto|].
  rewrite E. destruct f; eauto.
Qed.

(** Rotation is atomic and has one winner.  A rotation that commits finds
    the previous token unrevoked or unrecorded, appends exactly one audit
    row, records the new token, and, when the previous token has a row,
    revokes that row with the given reason, all in the same state; no other
    row changes.  Once it has revoked the previous token, every later
    rotation or issue that lists that token as a source is refused and
    changes nothing, after any history of other calls. *)
Theorem rotation_single_winner {Payload} f tok sources prev reason ev pl at_ (db db' : Db Payload) s b :
  RecordWithRotationAudit f tok sources prev reason ev pl at_ db = (db', Ok (s, b)) ->
  JTI tok <> prev -> prev <> "" ->
  (exists src, src ∈ sources /\ SrcJTI src = prev) ->
  audit_log db' = audit_log db ++ [mkAuditRow (TenantID tok) ev pl at_] /\
  tokens db !! JTI tok = None /\
  (exists rn, tokens db' !! JTI tok = Some rn /\ revoked_at rn = NullTime (RevokedAt tok) /\
     token_hash rn = TokenHash tok) /\
  match visible (tokens db) (TenantID tok) prev with
  | None => b = false /\ tokens db' !! prev = tokens db !! prev
  | Some r => revoked_at r = None /\ b = true /\ s = sub r /\
      tokens db' !! prev = Some (set_revoked at_ reason r) /\
      (forall ops f2 tok2 sources2 reason2 ev2 pl2 at2, Forall guarded ops -> TenantID tok2 = TenantID tok ->
         (exists src, src ∈ sources2 /\ SrcJTI src = prev) ->
         (exists e, RecordWithRotationAudit f2 tok2 sources2 prev reason2 ev2 pl2 at2 (run ops db') =
                    (run ops db', Err e)) /\
         (exists e, RecordWithAudit f2 tok2 sources2 ev2 pl2 at2 (run ops db') = (run ops db', Err e)))
  end /\
  (forall k, k <> JTI tok -> k <> prev -> tokens db' !! k = tokens db !! k).
Proof.
  unfold RecordWithRotationAudit at 1. intros H Hfresh Hne (src & Hsrc & Ej).
  match type of H with InTx ?f ?t ?fn ?d = _ => destruct (InTx_cases f t fn d) as [_ HO] end.
  rewrite H in HO. specialize (HO _ eq_refl). cbn [fst] in HO. clear H.
  apply tx_bind_Ok in HO as (d1 & ? & (-> & Hs)%recheck_Ok & E).
  apply tx_bind_Ok in E as (d2 & ? & (Et & Ea)%AppendInTx_Ok & E).
  apply tx_bind_Ok in E as (d3 & ? & (Hn & Ea3 & rn & Er & Htn & _ & Hh & _ & _ & Hrev & _)%insertIssued_Ok & E).
  rewrite Et in Hn, Er.
  assert (visible (tokens d3) (TenantID tok) prev = visible (tokens db) (TenantID tok) prev) as Hv.
  { unfold visible. by rewrite Er, lookup_insert_ne. }
  unfold revokePrevious in E. rewrite Hv in E. clear Hv.
  destruct (visible (tokens db) (TenantID tok) prev) as [r|] eqn:Ev.
  2: { injection E as <- <- <-. rewrite Er, Ea3, Ea.
       split_and!; [done|done|exists rn; by rewrite lookup_insert_eq|done|by rewrite lookup_insert_ne|].
       intros k H1 _. by rewrite lookup_insert_ne. }
  assert (revoked_at r = None) as Hl by (apply (Hs src); [done|by rewrite Ej|by rewrite Ej]).
  rewrite Hl in E. injection E as <- <- <-. cbn [tokens audit_log]. rewrite Er, Ea3, Ea.
  assert (tenant_id r = TenantID tok) as Htr by (by apply visible_Some in Ev as [_ ?]).
  split_and!; try done.
  - exists rn. rewrite lookup_insert_ne by done. by rewrite lookup_insert_eq.
  - by rewrite lookup_insert_eq.
  - intros ops f2 tok2 sources2 reason2 ev2 pl2 at2 Hg Htk (src2 & Hin2 & Ej2).
    match goal with |- context [run ops ?d] => set (d' := d) end.
    destruct (run_revoked (TenantID tok) ops d' prev (set_revoked at_ reason r) Hg) as (r' & Hv' & Hr'); [|done|].
    { apply visible_Some. subst d'. cbn [tokens]. rewrite lookup_insert_eq. done. }
    rewrite <- Htk, <- Ej2 in Hv'.
    destruct (recheck_revoked (TenantID tok2) sources2 (run ops d') src2 r' Hin2) as [e He];
      [by rewrite Ej2|done|done|].
    split; eapply InTx_body_Err; unfold tx_bind; by rewrite He.
  - intros k H1 H2. by rewrite !lookup_insert_ne.
Qed.

Definition ex_rotate :=
  RecordWithRotationAudit NoFault (ex_tok "j5" "") [mkSourceToken SourceSubjectToken "j9"] "j9"
    "rotation_replaced" "token.exchanged" tt 8 ex_db.

Lemma rotation_single_winner_witness :
  exists e, RecordWithRotationAudit NoFault (ex_tok "j6" "") [mkSourceToken SourceSubjectToken "j9"] "j9"
              "rotation_replaced" "token.exchanged" tt 9 ex_rotate.1 = (ex_rotate.1, Err e).
Proof.
  destruct (rotation_single_winner NoFault (ex_tok "j5" "") [mkSourceToken SourceSubjectToken "j9"] "j9"
              "rotation_replaced" "token.exchanged" tt 8 ex_db ex_rotate.1 "alice" true
              ltac:(vm_compute; reflexivity) ltac:(discriminate) ltac:(discriminate)
              ltac:(exists (mkSourceToken SourceSubjectToken "j9"); split; [left|reflexivity]))
    as (_ & _ & _ & H & _).
  change (visible (tokens ex_db) (TenantID (ex_tok "j5" "")) "j9") with (Some (ex_row None)) in H.
  destruct H as (_ & _ & _ & _ & H).
  destruct (H [] NoFault (ex_tok "j6" "") [mkSourceToken SourceSubjectToken "j9"] "rotation_replaced"
              "token.exchanged" tt 9%Z) as [H' _]; [constructor|reflexivity| |exact H'].
  exists (mkSourceToken SourceSubjectToken "j9"). split; [left|reflexivity].
Defined.

(** ** The window between the re-read and the insert *)

Module Race.

(** The issuing transaction in two parts: the re-read under the audit lock,
    and the statements after it.  Revocations do not take that lock, and the
    transaction runs at READ COMMITTED, so one can commit in between. *)
Definition mint_recheck {Payload} (tok : IssuedToken) (sources : list SourceToken) : Tx Payload unit :=
  recheckSources (TenantID tok) sources.

Definition mint_write {Payload} (tok : IssuedToken) (event : string) (payload : Payload) (at_ : Time) :
    Tx Payload unit :=
  tx_bind (AppendInTx (TenantID tok) event payload at_) (fun _ => insertIssued tok).

(** Without interleaving the two parts are the issuing call, which
    refuses a child of a revoked parent.  With a recursive revocation
    committed between them, the child of the revoked lineage is recorded
    live, and the cascade has returned without it. *)
Theorem mint_window :
  (forall (Payload : Type) f tok sources event (payload : Payload) at_ db,
     RecordWithAudit f tok sources event payload at_ db =
     InTx f (TenantID tok) (tx_bind (mint_recheck tok sources) (fun _ => mint_write tok event payload at_)) db) /\
  exists (db0 db1 db2 : Db unit) tok sources out,
    covered tok sources /\
    mint_recheck tok sources db0 = Ok (db0, tt) /\
    RevokeCascade NoFault 0 "acme" "j1" "explicit_revoke" "cascade_from_parent" 7 db0 = (db1, Ok out) /\
    mint_write tok "token.exchanged" tt 8 db1 = Ok (db2, tt) /\
    reaches (tokens db2) "acme" "j1" (JTI tok) /\
    (revoked_at <$> tokens db2 !! JTI tok) = Some None /\
    JTI tok ∉ map RtJTI out.
Proof.
  split; [reflexivity|].
  exists ex_db, ex_cascade.1,
    (match mint_write (ex_tok "j4" "j2") "token.exchanged" tt 8 ex_cascade.1 with Ok (d, _) => d | Err _ => ex_db end),
    (ex_tok "j4" "j2"), [mkSourceToken SourceSubjectToken "j9"; mkSourceToken SourceActorToken "j2"],
    (match ex_cascade.2 with Ok l => l | Err _ => [] end).
  split_and!; try (vm_compute; reflexivity).
  - right. exists (mkSourceToken SourceActorToken "j2"). split; [|reflexivity]. right. left.
  - apply subtree_spec. vm_compute. reflexivity.
  - apply (bool_decide_unpack (JTI (ex_tok "j4" "j2") ∉ _)). vm_compute. exact I.
Qed.

End Race.
