(* ===== verification/Idempotency.v ===== *)
(** * Idempotency: keys, records, stores and the request middleware

    Models [pkg/idempotency] (keys, records, [DetectReuse]),
    [pkg/gateway/middleware/idempotency] (the store contract, the in-memory
    store, the middleware, the no-store gate and the capturing response
    writer), its [pgstore], and the idempotent dispatch of MCP tool calls
    ([pkg/gateway/mcpfabric/mcp/idempotency.go]).

    The two stores are instances of one interface, [IdemStore], whose laws
    ([IdemStoreLaws]) are all the middleware relies on.  A [Call] says what can
    happen to one store call: its context is already cancelled, the connection
    fails before or at the commit, and, for the one statement that both writes
    and reads, which snapshot the reading part sees.

    A request is served in two parts, because other requests run in between:
    [admit] is [ServeHTTP] up to the point where the claim is won or the
    request answered, [complete] what happens after the wrapped handler has
    run.  The handler is the list of calls it makes on its response writer. *)

From S2P Require Import Prelude Text IssuedTokens.

(** ** Keys and records *)

Definition MaxKeyLength : nat := 128.
Definition TTL : Duration := (24 * Hour)%Z.

Record Key := mkKey { KTenant : string; KValue : string }.

Inductive KeyError :=
| TenantRequired
| ValueRequired
| KeyTooLongError (Length Max : nat).

(** [Key.Validate]. *)
Definition Validate (k : Key) : option KeyError :=
  if is_empty (KTenant k) then Some TenantRequired
  else if is_empty (KValue k) then Some ValueRequired
  else if (MaxKeyLength <? rune_count (KValue k))%nat
       then Some (KeyTooLongError (rune_count (KValue k)) MaxKeyLength)
       else None.

(** An [http.Header]: canonical names with their values in order. *)
Abbreviation Header := (gmap string (list string)).

Record Response := mkResponse { StatusCode : Z; Headers : Header; Body : string }.

Record IdemRecord := mkIdemRecord {
  RKey : Key; BodyHash : string; RResponse : Response; StoredAt : Time }.

Definition zero_response : Response := mkResponse 0 ∅ "".
Definition zero_record : IdemRecord := mkIdemRecord (mkKey "" "") "" zero_response zero_time.

Definition IsExpired (r : IdemRecord) (now : Time) : bool :=
  negb (time_is_zero (StoredAt r)) && (TTL <? time_sub now (StoredAt r))%Z.

Inductive Action := ActionStoreNew | ActionReplay | ActionReject (storedHash inboundHash : string).

Definition DetectReuse (stored : IdemRecord) (inboundHash : string) (now : Time) : Action :=
  if is_empty (KValue (RKey stored)) || time_is_zero (StoredAt stored) then ActionStoreNew
  else if IsExpired stored now then ActionStoreNew
  else if bool_decide (BodyHash stored = inboundHash) then ActionReplay
  else ActionReject (BodyHash stored) inboundHash.

(** [ReuseError.Code] and [ReuseError.ErrorCode]. *)
Definition ReuseCode : Z := 422.
Definition ReuseErrorCode : string := "IDEMPOTENCY_KEY_REUSED".

(** ** The store contract *)

Abbreviation Slot := (string * string)%type.
Abbreviation Rows := (gmap Slot IdemRecord).

Inductive StoreErr :=
| InvalidKey (e : KeyError)
| InvalidTenant
| NoRows              (* [pgx.ErrNoRows] *)
| DbError.            (* any other error of the database or its connection *)

(** What the connection does to a transaction. *)
Inductive Conn := ConnOk | ConnAbort | ConnCommit (durable : bool).

Record Call := mkCall {
  cancelled : bool;                (* the request's context is done *)
  conn : Conn;
  snapshot : option Rows;          (* what a reading arm sees; [None]: the current rows *)
  call_now : Time }.

Class IdemStore (S : Type) := {
  Get : Call -> S -> string -> string -> result StoreErr (option IdemRecord);
  Put : Call -> S -> IdemRecord -> S * option StoreErr;
  Claim : Call -> S -> string -> string -> string -> Time -> S * result StoreErr (IdemRecord * bool);
  Release : Call -> S -> string -> string -> S * option StoreErr;
  DeleteExpired : Call -> S -> string -> Time -> S * result StoreErr Z }.

Definition pending (tenantID key bodyHash : string) (now : Time) : IdemRecord :=
  mkIdemRecord (mkKey tenantID key) bodyHash zero_response now.

(** ** The in-memory store *)

Module Memory.

Record MemoryStore := mkMemoryStore { records : Rows }.

Definition NewMemoryStore : MemoryStore := mkMemoryStore ∅.

Definition Get (c : Call) (m : MemoryStore) (tenantID key : string) : result StoreErr (option IdemRecord) :=
  match records m !! (tenantID, key) with
  | None => Ok None
  | Some rec => if IsExpired rec (call_now c) then Ok None else Ok (Some rec)
  end.

Definition Put (c : Call) (m : MemoryStore) (rec : IdemRecord) : MemoryStore * option StoreErr :=
  let rec := if time_is_zero (StoredAt rec)
             then mkIdemRecord (RKey rec) (BodyHash rec) (RResponse rec) (call_now c) else rec in
  (mkMemoryStore (<[(KTenant (RKey rec), KValue (RKey rec)) := rec]> (records m)), None).

Definition Claim (c : Call) (m : MemoryStore) (tenantID key bodyHash : string) (now : Time) :
    MemoryStore * result StoreErr (IdemRecord * bool) :=
  let win := (mkMemoryStore (<[(tenantID, key) := pending tenantID key bodyHash now]> (records m)),
              Ok (zero_record, true)) in
  match records m !! (tenantID, key) with
  | Some rec => if negb (IsExpired rec now) then (m, Ok (rec, false)) else win
  | None => win
  end.

Definition Release (c : Call) (m : MemoryStore) (tenantID key : string) : MemoryStore * option StoreErr :=
  (mkMemoryStore (delete (tenantID, key) (records m)), None).

(** The in-memory store has no sweep. *)
#[global] Instance store : IdemStore MemoryStore := {
  Idempotency.Get := Get; Idempotency.Put := Put; Idempotency.Claim := Claim;
  Idempotency.Release := Release; Idempotency.DeleteExpired := fun _ m _ _ => (m, Ok 0%Z) }.

End Memory.

(** ** The Postgres store *)

Module Pg.

(** The table [idempotency_keys] and the tenants its rows may refer to. *)
Record Store := mkStore { tenants : gset string; rows : Rows }.

(** [pgtenant.InTx]: a cancelled context fails before anything is sent. *)
Definition InTx {A} (c : Call) (tenantID : string) (fn : Rows -> result StoreErr (Rows * A)) (s : Store) :
    Store * result StoreErr A :=
  if bool_decide (tenantID = AllTenantsSentinel) || bool_decide (tenantID = "__unset__")
     || negb (tenantIDPattern tenantID) then (s, Err InvalidTenant)
  else if cancelled c then (s, Err DbError)
  else match conn c with
       | ConnAbort => (s, Err DbError)
       | ConnOk => match fn (rows s) with
                   | Ok (t, a) => (mkStore (tenants s) t, Ok a)
                   | Err e => (s, Err e)
                   end
       | ConnCommit durable =>
           match fn (rows s) with
           | Ok (t, _) => (if durable then mkStore (tenants s) t else s, Err DbError)
           | Err e => (s, Err e)
           end
       end.

(** A [timestamptz] has microsecond resolution. *)
Definition timestamptz (t : Time) : Time := (t / 1000 * 1000)%Z.

(** What a [text] column accepts. *)
Definition text_ok (s : string) : bool := valid_utf8 s && negb (has_char "000" s).

(** [json.Marshal] and [json.Unmarshal] of the header map, through [jsonb],
    which refuses the escape of NUL.  Header names are ASCII tokens. *)
Definition json_headers (h : Header) : Header := map to_valid <$> h.

Definition jsonb_ok (h : Header) : bool :=
  forallb (fun kv => forallb (fun v => negb (has_char "000" v)) kv.2)
    (map_to_list h).

(** The foreign key to [tenants], and the text of the key. *)
Definition row_ok (s : Store) (tenantID key : string) : bool :=
  bool_decide (tenantID ∈ tenants s) && text_ok key.

Definition scanRecord (r : IdemRecord) : IdemRecord := r.

Definition Get (c : Call) (s : Store) (tenantID key : string) : result StoreErr (option IdemRecord) :=
  let* found := (InTx c tenantID (fun t =>
      if text_ok key then Ok (t, scanRecord <$> t !! (tenantID, key)) else Err DbError) s).2 in
  match found with
  | None => Ok None
  | Some rec => if IsExpired rec (call_now c) then Ok None else Ok (Some rec)
  end.

(** The row an insert writes for [rec]. *)
Definition row_of (rec : IdemRecord) : IdemRecord :=
  mkIdemRecord (RKey rec) (BodyHash rec)
    (mkResponse (StatusCode (RResponse rec)) (json_headers (Headers (RResponse rec))) (Body (RResponse rec)))
    (timestamptz (StoredAt rec)).

Definition Put (c : Call) (s : Store) (rec : IdemRecord) : Store * option StoreErr :=
  match Validate (RKey rec) with
  | Some e => (s, Some (InvalidKey e))
  | None =>
      let rec := if time_is_zero (StoredAt rec)
                 then mkIdemRecord (RKey rec) (BodyHash rec) (RResponse rec) (call_now c) else rec in
      let k := RKey rec in
      let out := InTx c (KTenant k) (fun t =>
          if row_ok s (KTenant k) (KValue k) && jsonb_ok (Headers (RResponse rec))
          then Ok (<[(KTenant k, KValue k) := row_of rec]> t, tt) else Err DbError) s in
      (out.1, match out.2 with Ok _ => None | Err e => Some e end)
  end.

(** The claim statement.  The insert meets the current rows: a conflicting row
    is overwritten when it is older than the cutoff.  The other arm of the
    union reads the statement's snapshot, and only when the insert returned
    no row. *)
Definition claim_sql (snap : Rows) (tenantID key bodyHash : string) (now cutoff : Time) (t : Rows) :
    result StoreErr (Rows * (IdemRecord * bool)) :=
  let fresh := pending tenantID key bodyHash (timestamptz now) in
  let won := Ok (<[(tenantID, key) := fresh]> t, (fresh, true)) in
  match t !! (tenantID, key) with
  | None => won
  | Some cur =>
      if (StoredAt cur <? timestamptz cutoff)%Z then won
      else match snap !! (tenantID, key) with
           | Some rec => Ok (t, (rec, false))
           | None => Err NoRows
           end
  end.

Definition Claim (c : Call) (s : Store) (tenantID key bodyHash : string) (now : Time) :
    Store * result StoreErr (IdemRecord * bool) :=
  match Validate (mkKey tenantID key) with
  | Some e => (s, Err (InvalidKey e))
  | None =>
      let cutoff := time_add now (- TTL) in
      let out := InTx c tenantID (fun t =>
          if row_ok s tenantID key
          then claim_sql (default t (snapshot c)) tenantID key bodyHash now cutoff t
          else Err DbError) s in
      (out.1, let* (rec, claimed) := out.2 in Ok (if claimed then zero_record else rec, claimed))
  end.

Definition Release (c : Call) (s : Store) (tenantID key : string) : Store * option StoreErr :=
  let out := InTx c tenantID (fun t =>
      if text_ok key then Ok (delete (tenantID, key) t, tt) else Err DbError) s in
  (out.1, match out.2 with Ok _ => None | Err e => Some e end).

Definition DeleteExpired (c : Call) (s : Store) (tenantID : string) (cutoff : Time) :
    Store * result StoreErr Z :=
  InTx c tenantID (fun t =>
    let t' := filter (fun kr => ~ (kr.1.1 = tenantID /\ (StoredAt kr.2 < timestamptz cutoff)%Z)) t in
    Ok (t', Z.of_nat (size t - size t'))) s.

#[global] Instance store : IdemStore Store := {
  Idempotency.Get := Get; Idempotency.Put := Put; Idempotency.Claim := Claim;
  Idempotency.Release := Release; Idempotency.DeleteExpired := DeleteExpired }.

End Pg.

(** ** Response writers *)

(** The server's response writer: the header map the handlers fill, the status
    and header that were sent, and the body sent so far. *)
Record Live := mkLive { lHeader : Header; lSent : option (Z * Header); lBody : string }.

(** [http.ResponseWriter.WriteHeader]: [None] is the panic on an invalid code;
    an informational code does not end the header. *)
Definition live_WriteHeader (code : Z) (l : Live) : option Live :=
  match lSent l with
  | Some _ => Some l
  | None =>
      if negb ((100 <=? code)%Z && (code <=? 999)%Z) then None
      else if (code <=? 199)%Z && negb (code =? 101)%Z then Some l
      else Some (mkLive (lHeader l) (Some (code, lHeader l)) (lBody l))
  end.

Definition bodyAllowedForStatus (code : Z) : bool :=
  negb (((100 <=? code)%Z && (code <=? 199)%Z) || (code =? 204)%Z || (code =? 304)%Z).

Definition live_ok (l : Live) : Live :=
  match lSent l with
  | Some _ => l
  | None => mkLive (lHeader l) (Some (200%Z, lHeader l)) (lBody l)
  end.

Definition live_Write (p : string) (l : Live) : Live :=
  let l := live_ok l in
  match lSent l with
  | Some (code, _) => if bodyAllowedForStatus code then mkLive (lHeader l) (lSent l) (lBody l +:+ p) else l
  | None => l
  end.

Definition live_Flush (l : Live) : Live := live_ok l.

(** What the client has received once the handler chain has returned. *)
Definition wire (l : Live) : option (Z * Header) * string := (lSent (live_ok l), lBody (live_ok l)).

(** [for k, vs := range from { for _, v := range vs { into.Add(k, v) } }]. *)
Definition add_value (k : string) (h : Header) (v : string) : Header := <[k := default [] (h !! k) ++ [v]]> h.

Definition add_headers (from : list (string * list string)) (into : Header) : Header :=
  foldl (fun h kvs => foldl (add_value kvs.1) h kvs.2) into from.

Record captureWriter := mkCapture {
  header : Header; body : string; status : Z; wrote : bool; streamed : bool; w : Live }.

Definition new_capture (l : Live) : captureWriter := mkCapture ∅ "" 0 false false l.

Definition cw_WriteHeader (code : Z) (c : captureWriter) : captureWriter :=
  if wrote c then c else mkCapture (header c) (body c) code true (streamed c) (w c).

Definition cw_Write (p : string) (c : captureWriter) : captureWriter :=
  let c := if wrote c then c else cw_WriteHeader 200 c in
  if streamed c
  then mkCapture (header c) (body c) (status c) (wrote c) (streamed c) (live_Write p (w c))
  else mkCapture (header c) (body c +:+ p) (status c) (wrote c) (streamed c) (w c).

Definition flushBuffered (c : captureWriter) (l : Live) : option Live :=
  let l := mkLive (add_headers (map_to_list (header c)) (lHeader l)) (lSent l) (lBody l) in
  let code := if (status c =? 0)%Z then 200%Z else status c in
  l ← live_WriteHeader code l;
  Some (if is_empty (body c) then l else live_Write (body c) l).

Definition cw_Flush (c : captureWriter) : option captureWriter :=
  if streamed c
  then Some (mkCapture (header c) (body c) (status c) (wrote c) true (live_Flush (w c)))
  else l ← flushBuffered c (w c);
       Some (mkCapture (header c) "" (status c) (wrote c) true (live_Flush l)).

Definition flush (c : captureWriter) (l : Live) : option Live :=
  if streamed c then Some l else flushBuffered c l.

Definition replayResponse (resp : Response) (l : Live) : option Live :=
  let l := mkLive (add_headers (map_to_list (Headers resp)) (lHeader l)) (lSent l) (lBody l) in
  l ← live_WriteHeader (if (StatusCode resp =? 0)%Z then 200%Z else StatusCode resp) l;
  Some (live_Write (Body resp) l).

Definition cloneHeader (h : Header) : Header := filter (fun kvs => kvs.2 <> []) h.

(** ** The wrapped handler *)

(** What a handler does to its response writer and to the gate. *)
Inductive HandlerOp :=
| OpSet (k v : string) | OpAdd (k v : string) | OpDel (k : string)
| OpWriteHeader (code : Z)
| OpWrite (p : string)
| OpFlush
| DoNotStore.

Record Handler := mkHandler { ops : list HandlerOp; panics : bool }.

Definition set_header (h : Header) (c : captureWriter) : captureWriter :=
  mkCapture h (body c) (status c) (wrote c) (streamed c) (w c).

Definition run_op (cg : captureWriter * bool) (op : HandlerOp) : option (captureWriter * bool) :=
  let '(c, refused) := cg in
  match op with
  | OpSet k v => Some (set_header (<[k := [v]]> (header c)) c, refused)
  | OpAdd k v => Some (set_header (add_value k (header c) v) c, refused)
  | OpDel k => Some (set_header (delete k (header c)) c, refused)
  | OpWriteHeader code => Some (cw_WriteHeader code c, refused)
  | OpWrite p => Some (cw_Write p c, refused)
  | OpFlush => (fun c => (c, refused)) <$> cw_Flush c
  | DoNotStore => Some (c, true)
  end.

(** The handler on a fresh capturing writer and a fresh gate; [None] is a panic. *)
Fixpoint run_ops (l : list HandlerOp) (cg : captureWriter * bool) : option (captureWriter * bool) :=
  match l with
  | [] => Some cg
  | op :: l => cg ← run_op cg op; run_ops l cg
  end.

Definition run_handler (h : Handler) (l : Live) : option (captureWriter * bool) :=
  cg ← run_ops (ops h) (new_capture l, false);
  if panics h then None else Some cg.

(** ** The middleware *)

Record Options := mkOptions {
  MaxBodyBytes : Z; AllowedMethods : option (list string); AllowedPaths : list string }.

(** The defaults [Wrap] fills in. *)
Definition Wrap (o : Options) : Options :=
  mkOptions (if (MaxBodyBytes o <=? 0)%Z then 1048576%Z else MaxBodyBytes o)
    (Some (default ["POST"] (AllowedMethods o))) (AllowedPaths o).

(** A request: its method and path, the values of the key header and of the
    tenant, its declared length and its body stream, which ends or fails after
    the given bytes.  [None] is a nil body. *)
Record Request := mkRequest {
  Method : string; Path : string; KeyHeader : string; Tenant : string;
  ContentLength : Z; Stream : option (string * bool) }.

Definition lower (c : ascii) : ascii :=
  let n := N_of_ascii c in if N.leb 65 n && N.leb n 90 then ascii_of_N (n + 32) else c.

Fixpoint EqualFold (s t : string) : bool :=
  match s, t with
  | EmptyString, EmptyString => true
  | String a s, String b t => Ascii.eqb (lower a) (lower b) && EqualFold s t
  | _, _ => false
  end.

Definition methodAllowed (o : Options) (method : string) : bool :=
  existsb (fun ok => EqualFold ok method) (default [] (AllowedMethods o)).

Fixpoint ends_with (c : ascii) (s : string) : bool :=
  match s with
  | EmptyString => false
  | String d EmptyString => Ascii.eqb c d
  | String _ s => ends_with c s
  end.

Definition trim_slash (s : string) : string := default s (cut_prefix "/" s).

Definition is_var (seg : string) : bool := has_prefix seg "{" && ends_with "}" seg.

Fixpoint match_segs (pat path : list string) : bool :=
  match pat with
  | [] => match path with [] => true | _ => false end
  | ps :: pat =>
      if bool_decide (ps = "...") then true
      else match path with
           | [] => false
           | seg :: path =>
               if is_var ps then negb (is_empty seg) && match_segs pat path
               else bool_decide (ps = seg) && match_segs pat path
           end
  end.

Definition matchPathPattern (pattern path : string) : bool :=
  match_segs (split "/" (trim_slash pattern)) (split "/" (trim_slash path)).

Definition pathAllowed (o : Options) (path : string) : bool :=
  match AllowedPaths o with
  | [] => true
  | pats => existsb (fun p => negb (is_empty p) && matchPathPattern p path) pats
  end.

Inductive BodyError := BodyTooLarge (size limit : Z) | BodyRead.

(** [readBodyLimited]: the limited reader stops one byte after the limit, also
    where the stream would fail later. *)
Definition readBodyLimited (r : Request) (limit : Z) : result BodyError string :=
  match Stream r with
  | None => Ok ""
  | Some (bytes, fails) =>
      if (limit <? ContentLength r)%Z then Err (BodyTooLarge (ContentLength r) limit)
      else if (limit <? Z.of_nat (String.length bytes))%Z then Err (BodyTooLarge (limit + 1) limit)
      else if fails then Err BodyRead
      else Ok bytes
  end.

(** How [ServeHTTP] answers before the handler runs, or that it runs it. *)
Inductive Decision :=
| PassThrough
| Reply (code : Z) (errorCode : string) (retryAfter : bool)
| Replay (resp : Response)
| Execute (hash : string).

Section Middleware.
Context {S : Type} `{IdemStore S}.
(** [HashBody]: the hexadecimal SHA-256 digest. *)
Context (HashBody : string -> string).

(** [ServeHTTP] after the claim that was not won; [c] is the second claim. *)
Definition branch (c : Call) (s : S) (tenantID key hash : string) (now : Time) (existing : IdemRecord) :
    S * Decision :=
  if (StatusCode (RResponse existing) =? 0)%Z then (s, Reply 409 "IDEMPOTENCY_KEY_IN_FLIGHT" true)
  else match DetectReuse existing hash now with
       | ActionReject _ _ => (s, Reply ReuseCode ReuseErrorCode false)
       | ActionReplay => (s, Replay (RResponse existing))
       | ActionStoreNew =>
           match Claim c s tenantID key hash now with
           | (s, Err _) => (s, Reply 500 "INTERNAL_ERROR" false)
           | (s, Ok (_, false)) => (s, Reply 500 "INTERNAL_ERROR" false)
           | (s, Ok (_, true)) => (s, Execute hash)
           end
       end.

(** [ServeHTTP] up to the execution of the handler. *)
Definition admit_request (o : Options) (c1 c2 : Call) (now : Time) (r : Request) (s : S) : S * Decision :=
  let key := KeyHeader r in
  let tenantID := Tenant r in
  if is_empty key then (s, PassThrough)
  else if negb (methodAllowed o (Method r)) || negb (pathAllowed o (Path r)) then (s, PassThrough)
  else if is_empty tenantID then (s, Reply 500 "INTERNAL_ERROR" false)
  else match Validate (mkKey tenantID key) with
       | Some _ => (s, Reply 400 "INVALID_IDEMPOTENCY_KEY" false)
       | None =>
           match readBodyLimited r (MaxBodyBytes o) with
           | Err _ => (s, Reply 413 "BODY_TOO_LARGE" false)
           | Ok b =>
               let hash := HashBody b in
               match Claim c1 s tenantID key hash now with
               | (s, Err _) => (s, Reply 500 "INTERNAL_ERROR" false)
               | (s, Ok (_, true)) => (s, Execute hash)
               | (s, Ok (existing, false)) => branch c2 s tenantID key hash now existing
               end
           end
       end.

(** What became of the response; the skip reasons are the metric's labels. *)
Inductive Persisted :=
| ForwardRefused | Streamed | ServerError | Stored | WriteFailed (e : StoreErr).

Definition captured_status (c : captureWriter) : Z := if (status c =? 0)%Z then 200%Z else status c.

Definition fresh_record (k : Key) (hash : string) (c : captureWriter) (now : Time) : IdemRecord :=
  mkIdemRecord k hash (mkResponse (captured_status c) (cloneHeader (header c)) (body c)) now.

Definition maybePersist (call : Call) (s : S) (k : Key) (hash : string) (refused : bool) (c : captureWriter) :
    S * Persisted :=
  let release := (Release call s (KTenant k) (KValue k)).1 in
  if refused then (release, ForwardRefused)
  else if streamed c then (release, Streamed)
  else if (500 <=? captured_status c)%Z then (release, ServerError)
  else match Put call s (fresh_record k hash c (call_now call)) with
       | (s, None) => (s, Stored)
       | (s, Some e) => (s, WriteFailed e)
       end.

Inductive Exchange := Panicked | Replied (l : Live) (p : Persisted).

(** [ServeHTTP] from the execution of the handler on; [l] is the server's
    response writer.  A panic of the handler or of the final flush releases
    the claim. *)
Definition complete (call : Call) (k : Key) (hash : string) (h : Handler) (l : Live) (s : S) : S * Exchange :=
  let released := ((Release call s (KTenant k) (KValue k)).1, Panicked) in
  match run_handler h l with
  | None => released
  | Some (c, refused) =>
      match flush c (w c) with
      | None => released
      | Some l' => let '(s, p) := maybePersist call s k hash refused c in (s, Replied l' p)
      end
  end.

(** ** Tool calls *)

Context {ToolResult : Type} (marshal : ToolResult -> option string) (unmarshal : string -> option ToolResult).

Definition mcpKey (tool caller : string) : string := "mcp/" +:+ tool +:+ "/" +:+ caller.

(** [probe] decodes the [idempotencyKey] field. *)
Definition extractIdempotencyKey (probe : string -> option string) (arguments : string) : string :=
  if is_empty arguments then "" else match probe arguments with Some k => trim_space k | None => "" end.

Inductive ToolDecision :=
| ToolPlain                       (* run the handler without a key *)
| ToolError (code : string)
| ToolReplay (res : ToolResult)
| ToolExecute (key hash : string).

(** The dispatch of [handleToolsCall] for a store, and [dispatchIdempotent] up
    to the execution of the tool. *)
Definition dispatch_claim (c1 c2 : Call) (now : Time) (tenant tool callerKey arguments : string) (s : S) :
    S * ToolDecision :=
  if is_empty tool || is_empty callerKey then (s, ToolPlain)
  else
    let key := mcpKey tool callerKey in
    match Validate (mkKey tenant key) with
    | Some _ => (s, ToolError "INVALID_IDEMPOTENCY_KEY")
    | None =>
        let hash := HashBody arguments in
        match Claim c1 s tenant key hash now with
        | (s, Err _) => (s, ToolError "INTERNAL_ERROR")
        | (s, Ok (_, true)) => (s, ToolExecute key hash)
        | (s, Ok (existing, false)) =>
            if (StatusCode (RResponse existing) =? 0)%Z then (s, ToolError "IDEMPOTENCY_KEY_IN_FLIGHT")
            else match DetectReuse existing hash now with
                 | ActionReject _ _ => (s, ToolError "IDEMPOTENCY_KEY_REUSED")
                 | ActionReplay =>
                     match unmarshal (Body (RResponse existing)) with
                     | Some res => (s, ToolReplay res)
                     | None => (s, ToolError "INTERNAL_ERROR")
                     end
                 | ActionStoreNew =>
                     match Claim c2 s tenant key hash now with
                     | (s, Ok (_, true)) => (s, ToolExecute key hash)
                     | (s, _) => (s, ToolError "INTERNAL_ERROR")
                     end
                 end
        end
    end.

Definition tool_call (Tools : gset string) (probe : string -> option string) (c1 c2 : Call) (now : Time)
    (tenant tool arguments : string) (s : S) : S * ToolDecision :=
  if bool_decide (tool ∈ Tools) then
    let callerKey := extractIdempotencyKey probe arguments in
    if is_empty callerKey then (s, ToolPlain)
    else if is_empty tenant then (s, ToolError "UNAUTHORIZED")
    else dispatch_claim c1 c2 now tenant tool callerKey arguments s
  else (s, ToolPlain).

(** The tool returned a result, returned an error, or panicked.  There is no
    deferred release on this path. *)
Inductive ToolOutcome := ToolReturned (res : ToolResult) | ToolFailed | ToolPanicked.

Definition dispatch_complete (call : Call) (tenant key hash : string) (now : Time) (t : ToolOutcome) (s : S) : S :=
  match t with
  | ToolPanicked => s
  | ToolFailed => (Release call s tenant key).1
  | ToolReturned res =>
      match marshal res with
      | None => (Release call s tenant key).1
      | Some payload =>
          (Put call s (mkIdemRecord (mkKey tenant key) hash (mkResponse 200 ∅ payload) now)).1
      end
  end.

End Middleware.

(** ** What the middleware relies on *)

(** No live record holds the slot. *)
Definition free (rows : Rows) (slot : Slot) (now : Time) : Prop :=
  forall rec, rows !! slot = Some rec -> (StoredAt rec + TTL < now)%Z.

(** A call whose context is alive, over a working connection, reading the
    current rows. *)
Definition healthy (c : Call) : Prop := cancelled c = false /\ conn c = ConnOk /\ snapshot c = None.

Definition utf8_headers (h : Header) : Prop := map_Forall (fun _ vs => Forall (fun v => valid_utf8 v = true) vs) h.

(** The coarsest clock a store keeps: one microsecond. *)
Definition Resolution : Duration := 1000%Z.

(** A store is a map of records behind its operations: [view] is that map,
    [kept] what becomes of a record that is written, [serves] the tenants and
    keys the back end accepts.  A call that reports an error either did
    nothing or did what it was asked. *)
Class IdemStoreLaws (S : Type) `{IdemStore S} := {
  view : S -> Rows;
  kept : IdemRecord -> IdemRecord;
  serves : S -> string -> string -> Prop;
  kept_same : forall r, RKey (kept r) = RKey r /\ BodyHash (kept r) = BodyHash r
    /\ StatusCode (RResponse (kept r)) = StatusCode (RResponse r)
    /\ Body (RResponse (kept r)) = Body (RResponse r);
  kept_stamp : forall r, (StoredAt r - Resolution < StoredAt (kept r) <= StoredAt r)%Z;
  kept_headers : forall r, utf8_headers (Headers (RResponse r)) ->
    Headers (RResponse (kept r)) = Headers (RResponse r);
  claim_law : forall c s t k h now s' r, Claim c s t k h now = (s', r) ->
    let won := free (view s) (t, k) now /\ view s' = <[(t, k) := kept (pending t k h now)]> (view s) in
    match r with
    | Ok (_, true) => won
    | Ok (rec, false) => view s' = view s
        /\ exists cur, view s !! (t, k) = Some cur /\ (snapshot c = None -> rec = cur)
    | Err _ => view s' = view s \/ won
    end;
  claim_healthy : forall c s t k h now, healthy c -> serves s t k ->
    exists rec b, (Claim c s t k h now).2 = Ok (rec, b)
      /\ ((forall r, view s !! (t, k) = Some r -> (StoredAt r <> 0 /\ StoredAt r + TTL + Resolution <= now)%Z) ->
          b = true);
  put_law : forall c s rec s' r, Put c s rec = (s', r) -> StoredAt rec <> 0%Z ->
    let done := view s' = <[(KTenant (RKey rec), KValue (RKey rec)) := kept rec]> (view s) in
    match r with None => done | Some _ => view s' = view s \/ done end;
  release_law : forall c s t k s' r, Release c s t k = (s', r) ->
    match r with
    | None => view s' = delete (t, k) (view s)
    | Some _ => view s' = view s \/ view s' = delete (t, k) (view s)
    end;
  release_healthy : forall c s t k, healthy c -> serves s t k -> (Release c s t k).2 = None;
  sweep_law : forall c s t cutoff slot rec, view s !! slot = Some rec -> (cutoff <= StoredAt rec)%Z ->
    view (DeleteExpired c s t cutoff).1 !! slot = Some rec;
  sweep_sub : forall c s t cutoff, view (DeleteExpired c s t cutoff).1 ⊆ view s }.

(** ** Expiry *)

Lemma IsExpired_spec r now :
  IsExpired r now = true <-> StoredAt r <> 0%Z /\ (StoredAt r + TTL < now)%Z.
Proof.
  unfold IsExpired, time_is_zero, time_sub, TTL, Hour, Minute, Second. unfold_int64.
  rewrite andb_true_iff, negb_true_iff, Z.eqb_neq, Z.ltb_lt. lia.
Qed.

Lemma IsExpired_false r now :
  IsExpired r now = false <-> StoredAt r = 0%Z \/ (now <= StoredAt r + TTL)%Z.
Proof.
  pose proof (IsExpired_spec r now) as Hs. destruct (IsExpired r now); split; intros.
  - done.
  - destruct Hs as [Hs _]. specialize (Hs eq_refl). lia.
  - destruct (decide (StoredAt r = 0%Z)); [by left|]. right.
    destruct (decide (now <= StoredAt r + TTL)%Z); [done|].
    assert (false = true) as [=]; [apply Hs; lia].
  - done.
Qed.

Lemma free_None rows slot now : rows !! slot = None -> free rows slot now.
Proof. intros H rec. congruence. Qed.

Lemma not_free rows slot now rec :
  rows !! slot = Some rec -> (now <= StoredAt rec + TTL)%Z -> ~ free rows slot now.
Proof. intros H He Hf. apply Hf in H. lia. Qed.

(** ** The in-memory store satisfies the laws *)

#[export] Instance memory_laws : IdemStoreLaws Memory.MemoryStore.
Proof.
  refine {| view := Memory.records; kept := fun r => r; serves := fun _ _ _ => True |}.
  - done.
  - unfold Resolution. intros r. lia.
  - done.
  - intros c s t k h now s' r. cbn. unfold Memory.Claim, free.
    destruct (Memory.records s !! (t, k)) as [cur|] eqn:E.
    + destruct (IsExpired cur now) eqn:Ex; cbn; intros [= <- <-].
      * split; [|done]. intros ? [= <-]. apply IsExpired_spec in Ex. lia.
      * split; [done|]. exists cur. done.
    + intros [= <- <-]. split; [intros; simplify_eq|done].
  - intros c s t k h now _ _. cbn. unfold Memory.Claim.
    destruct (Memory.records s !! (t, k)) as [cur|] eqn:E; [|by eexists _, _].
    destruct (IsExpired cur now) eqn:Ex; cbn; [by eexists _, _|].
    eexists _, _. split; [done|]. intros Hold. destruct (Hold _ eq_refl).
    apply IsExpired_false in Ex. unfold Resolution in *. lia.
  - intros c s rec s' r. cbn. unfold Memory.Put. intros [= <- <-] Hz. cbn.
    unfold time_is_zero. by destruct (Z.eqb_spec (StoredAt rec) 0).
  - intros c s t k s' r. cbn. by intros [= <- <-].
  - done.
  - done.
  - done.
Defined.

(** ** The Postgres store satisfies the laws *)

Lemma timestamptz_bounds t : (t - Resolution < Pg.timestamptz t <= t)%Z.
Proof. unfold Pg.timestamptz, Resolution. pose proof (Z.div_mod t 1000). pose proof (Z.mod_pos_bound t 1000). lia. Qed.

Lemma timestamptz_mono t u : (t <= u)%Z -> (Pg.timestamptz t <= Pg.timestamptz u)%Z.
Proof. unfold Pg.timestamptz. intros. apply Z.mul_le_mono_nonneg_r; [lia|]. by apply Z.div_le_mono. Qed.

Lemma timestamptz_idem t : Pg.timestamptz (Pg.timestamptz t) = Pg.timestamptz t.
Proof. unfold Pg.timestamptz. by rewrite Z.div_mul. Qed.

Lemma json_headers_id h : utf8_headers h -> Pg.json_headers h = h.
Proof.
  intros Hv. unfold Pg.json_headers. apply map_eq. intros k. rewrite lookup_fmap.
  destruct (h !! k) as [vs|] eqn:E; [|done]. cbn. f_equal. apply Hv in E.
  induction E as [|v vs Hval _ IH]; [done|]. cbn. by rewrite IH, to_valid_id.
Qed.

(** A transaction commits its body's rows, or leaves the rows as they were; an
    error may hide a commit. *)
Lemma InTx_inv {A} (c : Call) (t : string) (fn : Rows -> result StoreErr (Rows * A)) (s s' : Pg.Store) (r : result StoreErr A) :
  Pg.InTx c t fn s = (s', r) ->
  match r with
  | Ok a => fn (Pg.rows s) = Ok (Pg.rows s', a)
  | Err _ => Pg.rows s' = Pg.rows s \/ exists a, fn (Pg.rows s) = Ok (Pg.rows s', a)
  end.
Proof.
  unfold Pg.InTx. destruct (_ || _); [intros [= <- <-]; by left|].
  destruct (cancelled c); [intros [= <- <-]; by left|].
  destruct (conn c) as [| |durable].
  - destruct (fn (Pg.rows s)) as [[t' a]|e]; intros [= <- <-]; [done|by left].
  - intros [= <- <-]. by left.
  - destruct (fn (Pg.rows s)) as [[t' a]|e]; [|intros [= <- <-]; by left].
    destruct durable; intros [= <- <-]; [right; by exists a|by left].
Qed.

(** The tenants and keys the table and [InTx] accept. *)
Definition pg_serves (s : Pg.Store) (t k : string) : Prop :=
  Validate (mkKey t k) = None /\ tenantIDPattern t = true /\ t <> AllTenantsSentinel /\ t <> "__unset__"
  /\ Pg.row_ok s t k = true.

Lemma InTx_healthy {A} (c : Call) (t k : string) (fn : Rows -> result StoreErr (Rows * A)) (s : Pg.Store) :
  healthy c -> pg_serves s t k ->
  Pg.InTx c t fn s = match fn (Pg.rows s) with
                     | Ok (rows, a) => (Pg.mkStore (Pg.tenants s) rows, Ok a)
                     | Err e => (s, Err e)
                     end.
Proof.
  intros (Hc & Hn & _) (_ & Hp & H1 & H2 & _). unfold Pg.InTx. rewrite Hp.
  rewrite !bool_decide_eq_false_2 by done. by rewrite Hc, Hn.
Qed.

Lemma claim_sql_inv (snap : Rows) (t k h : string) (now : Time) (rows rows' : Rows) rec b :
  Pg.claim_sql snap t k h now (time_add now (- TTL)) rows = Ok (rows', (rec, b)) ->
  if b then free rows (t, k) now
            /\ rows' = <[(t, k) := pending t k h (Pg.timestamptz now)]> rows
  else rows' = rows /\ is_Some (rows !! (t, k)) /\ snap !! (t, k) = Some rec.
Proof.
  unfold Pg.claim_sql, time_add. destruct (rows !! (t, k)) as [cur|] eqn:E.
  - destruct (Z.ltb_spec (StoredAt cur) (Pg.timestamptz (now + - TTL))) as [Hlt|_].
    + intros [= <- <- <-]. split; [|done]. intros r Hr. simplify_eq.
      pose proof (timestamptz_bounds (now + - TTL)). lia.
    + destruct (snap !! (t, k)) as [r|]; [|done]. intros [= <- <- <-]. by split_and!.
  - intros [= <- <- <-]. split; [by apply free_None|done].
Qed.

Lemma pg_row_of_pending t k h now :
  Pg.row_of (pending t k h now) = pending t k h (Pg.timestamptz now).
Proof. unfold Pg.row_of, pending, Pg.json_headers. cbn. by rewrite fmap_empty. Qed.

Lemma pg_claim_law c s t k h now s' r :
  Pg.Claim c s t k h now = (s', r) ->
  let won := free (Pg.rows s) (t, k) now
             /\ Pg.rows s' = <[(t, k) := Pg.row_of (pending t k h now)]> (Pg.rows s) in
  match r with
  | Ok (_, true) => won
  | Ok (rec, false) => Pg.rows s' = Pg.rows s
      /\ exists cur, Pg.rows s !! (t, k) = Some cur /\ (snapshot c = None -> rec = cur)
  | Err _ => Pg.rows s' = Pg.rows s \/ won
  end.
Proof.
  unfold Pg.Claim. rewrite pg_row_of_pending.
  destruct (Validate _); [intros [= <- <-]; by left|]. cbn zeta.
  destruct (Pg.InTx _ _ _ _) as [s1 r1] eqn:E. apply InTx_inv in E. cbn [fst snd].
  destruct r1 as [[rec b]|e]; cbn [rbind]; intros [= <- <-].
  - destruct (Pg.row_ok s t k); [|done]. apply claim_sql_inv in E.
    destruct b; cbn; [done|]. destruct E as (-> & [cur Hcur] & Hsnap).
    split; [done|]. exists cur. split; [done|]. intros Hn. rewrite Hn in Hsnap. cbn in Hsnap. congruence.
  - destruct E as [->|[[rec b] E]]; [by left|].
    destruct (Pg.row_ok s t k); [|done]. apply claim_sql_inv in E.
    destruct b; [by right|]. destruct E as [-> _]. by left.
Qed.

Lemma pg_claim_healthy c s t k h now :
  healthy c -> pg_serves s t k ->
  exists rec b, (Pg.Claim c s t k h now).2 = Ok (rec, b)
    /\ ((forall r, Pg.rows s !! (t, k) = Some r ->
           (StoredAt r <> 0 /\ StoredAt r + TTL + Resolution <= now)%Z) -> b = true).
Proof.
  intros Hh Hs. unfold Pg.Claim. pose proof Hs as (-> & _ & _ & _ & Hrow). cbn zeta.
  rewrite (InTx_healthy c t k) by done. rewrite Hrow.
  pose proof Hh as (_ & _ & ->). unfold Pg.claim_sql. cbn [default from_option].
  destruct (Pg.rows s !! (t, k)) as [cur|] eqn:E; [|by eexists _, _].
  destruct (Z.ltb_spec (StoredAt cur) (Pg.timestamptz (time_add now (- TTL)))) as [?|Hge]; [by eexists _, _|].
  rewrite ?E. eexists _, _. split; [done|]. intros Hold. destruct (Hold _ eq_refl).
  unfold time_add in Hge. pose proof (timestamptz_bounds (now + - TTL)). lia.
Qed.

Lemma pg_put_law c s rec s' r :
  Pg.Put c s rec = (s', r) -> StoredAt rec <> 0%Z ->
  let done := Pg.rows s' = <[(KTenant (RKey rec), KValue (RKey rec)) := Pg.row_of rec]> (Pg.rows s) in
  match r with None => done | Some _ => Pg.rows s' = Pg.rows s \/ done end.
Proof.
  unfold Pg.Put, time_is_zero. intros H Hz.
  destruct (Validate _); [simplify_eq; by left|].
  destruct (Z.eqb_spec (StoredAt rec) 0) as [?|_]; [done|]. cbn zeta in H.
  destruct (Pg.InTx _ _ _ _) as [s1 r1] eqn:E. apply InTx_inv in E. cbn [fst snd] in H.
  destruct (_ && _); destruct r1 as [[]|e]; injection H as <- <-; cbn; try done.
  - congruence.
  - destruct E as [->|[? E]]; [by left|]. right. congruence.
  - destruct E as [->|[? E]]; [by left|done].
Qed.

Lemma pg_release_law c s t k s' r :
  Pg.Release c s t k = (s', r) ->
  match r with
  | None => Pg.rows s' = delete (t, k) (Pg.rows s)
  | Some _ => Pg.rows s' = Pg.rows s \/ Pg.rows s' = delete (t, k) (Pg.rows s)
  end.
Proof.
  unfold Pg.Release. cbn zeta.
  destruct (Pg.InTx _ _ _ _) as [s1 r1] eqn:E. apply InTx_inv in E. cbn [fst snd].
  intros H. destruct (Pg.text_ok k); destruct r1 as [[]|e]; injection H as <- <-; cbn; try done.
  - congruence.
  - destruct E as [->|[? E]]; [by left|]. right. congruence.
  - destruct E as [->|[? E]]; [by left|done].
Qed.

Lemma pg_sweep c s t cutoff s' r :
  Pg.DeleteExpired c s t cutoff = (s', r) ->
  Pg.rows s' = Pg.rows s
  \/ Pg.rows s' = filter (fun kr => ~ (kr.1.1 = t /\ (StoredAt kr.2 < Pg.timestamptz cutoff)%Z)) (Pg.rows s).
Proof.
  unfold Pg.DeleteExpired. intros E%InTx_inv. destruct r as [n|e].
  - injection E as <- _. by right.
  - destruct E as [->|[n E]]; [by left|]. injection E as <- _. by right.
Qed.

#[export] Instance pg_laws : IdemStoreLaws Pg.Store.
Proof.
  refine {| view := Pg.rows; kept := Pg.row_of; serves := pg_serves |}.
  - done.
  - intros r. apply timestamptz_bounds.
  - intros r. apply json_headers_id.
  - intros c s t k h now s' r. apply pg_claim_law.
  - intros c s t k h now. apply pg_claim_healthy.
  - intros c s rec s' r. apply pg_put_law.
  - intros c s t k s' r. apply pg_release_law.
  - intros c s t k Hh Hs. cbn. unfold Pg.Release. cbn zeta. rewrite (InTx_healthy c t k) by done.
    destruct Hs as (_ & _ & _ & _ & Hrow). unfold Pg.row_ok in Hrow.
    apply andb_true_iff in Hrow as [_ ->]. done.
  - intros c s t cutoff slot rec Hrec Hc.
    change (DeleteExpired c s t cutoff) with (Pg.DeleteExpired c s t cutoff).
    destruct (Pg.DeleteExpired c s t cutoff) as [s' r] eqn:E. cbn [fst].
    destruct (pg_sweep _ _ _ _ _ _ E) as [->| ->]; [done|].
    apply map_lookup_filter_Some. split; [done|]. cbn. intros [_ Hlt].
    pose proof (timestamptz_bounds cutoff). lia.
  - intros c s t cutoff.
    change (DeleteExpired c s t cutoff) with (Pg.DeleteExpired c s t cutoff).
    destruct (Pg.DeleteExpired c s t cutoff) as [s' r] eqn:E. cbn [fst].
    destruct (pg_sweep _ _ _ _ _ _ E) as [->| ->]; [done|]. apply map_filter_subseteq.
Defined.

(** ** The captured response and its replay *)

Lemma add_values_lookup k k' vs h :
  foldl (add_value k) h vs !! k' =
    if decide (k = k') then match vs with [] => h !! k' | _ => Some (default [] (h !! k') ++ vs) end
    else h !! k'.
Proof.
  revert h. induction vs as [|v vs IH]; intros h; cbn; [by case_decide|].
  rewrite IH. unfold add_value. case_decide as Hd; subst.
  - rewrite lookup_insert_eq. cbn. destruct vs; [done|]. by rewrite <- (assoc_L (++)).
  - by rewrite lookup_insert_ne.
Qed.

Lemma add_headers_lookup l h k :
  NoDup l.*1 ->
  add_headers l h !! k =
    match (list_to_map l : Header) !! k with
    | Some (v :: vs) => Some (default [] (h !! k) ++ v :: vs)
    | _ => h !! k
    end.
Proof.
  revert h. induction l as [|[k1 vs1] l IH]; intros h; cbn; [by rewrite lookup_empty|].
  intros [Hnot Hnd]%NoDup_cons. fold (add_headers l (foldl (add_value k1) h vs1)). rewrite IH by done.
  rewrite add_values_lookup. destruct (decide (k1 = k)) as [->|Hne].
  - rewrite lookup_insert_eq, (not_elem_of_list_to_map_1 l k Hnot). by destruct vs1.
  - by rewrite lookup_insert_ne.
Qed.

(** Dropping the names without values changes nothing that is sent. *)
Lemma add_cloneHeader h into :
  add_headers (map_to_list (cloneHeader h)) into = add_headers (map_to_list h) into.
Proof.
  apply map_eq. intros k. rewrite !add_headers_lookup by apply NoDup_fst_map_to_list.
  rewrite !list_to_map_to_list. unfold cloneHeader. rewrite map_lookup_filter.
  destruct (h !! k) as [[|v vs]|] eqn:E; cbn; [|by rewrite option_guard_True|done].
  rewrite option_guard_False; [done|naive_solver].
Qed.

Lemma live_Write_nil l : live_Write "" l = live_ok l.
Proof.
  unfold live_Write. destruct (live_ok l) as [hd [[code hs]|] b]; cbn; [|done].
  destruct (bodyAllowedForStatus code); [|done]. f_equal.
  induction b as [|c b IH]; [done|]. change (String c (b +:+ "") = String c b). by rewrite IH.
Qed.

Lemma wire_live_ok l : wire (live_ok l) = wire l.
Proof. unfold wire, live_ok. by destruct l as [hd [?|] b]. Qed.

(** The replay of a captured response sends what the first exchange sent. *)
Lemma replay_wire c l l' resp :
  streamed c = false -> flush c l = Some l' ->
  StatusCode resp = captured_status c -> Headers resp = cloneHeader (header c) -> Body resp = body c ->
  exists l'', replayResponse resp l = Some l'' /\ wire l'' = wire l'.
Proof.
  intros Hs Hf Hst Hh Hb. unfold flush in Hf. rewrite Hs in Hf. unfold flushBuffered in Hf.
  unfold replayResponse. rewrite Hst, Hh, Hb, add_cloneHeader.
  assert ((if (captured_status c =? 0)%Z then 200%Z else captured_status c)
          = (if (status c =? 0)%Z then 200%Z else status c)) as ->.
  { unfold captured_status. by destruct (Z.eqb_spec (status c) 0); [|destruct (Z.eqb_spec (status c) 0)]. }
  destruct (live_WriteHeader _ _) as [l1|]; [|done]. cbn in *. injection Hf as <-.
  eexists. split; [done|]. destruct (is_empty (body c)) eqn:E; [|done].
  apply is_empty_spec in E. by rewrite E, live_Write_nil, wire_live_ok.
Qed.

(** Until a handler flushes, nothing reaches the server's writer. *)
Lemma run_op_unstreamed cg op cg' :
  run_op cg op = Some cg' -> streamed cg'.1 = false -> streamed cg.1 = false /\ w cg'.1 = w cg.1.
Proof.
  destruct cg as [c g]. destruct op; cbn; intros E; simplify_eq; try done.
  - unfold cw_WriteHeader. by destruct (wrote c).
  - unfold cw_Write, cw_WriteHeader. destruct (wrote c) eqn:?; cbn; destruct (streamed c) eqn:Hst; cbn; intros;
      simplify_eq; try done; by rewrite ?Hst.
  - unfold cw_Flush in E. destruct (streamed c); cbn in E; [by simplify_eq|].
    destruct (flushBuffered c (w c)); cbn in E; by simplify_eq.
Qed.

Lemma run_ops_unstreamed l cg cg' :
  run_ops l cg = Some cg' -> streamed cg'.1 = false -> streamed cg.1 = false /\ w cg'.1 = w cg.1.
Proof.
  revert cg. induction l as [|op l IH]; intros cg; cbn; [by intros [= <-]|].
  destruct (run_op cg op) as [cg1|] eqn:E; [|done]. cbn. intros Hr Hs.
  destruct (IH cg1 Hr Hs) as [Hs1 ->]. by eapply run_op_unstreamed.
Qed.

Lemma run_handler_unstreamed h l c g : run_handler h l = Some (c, g) -> streamed c = false -> w c = l.
Proof.
  unfold run_handler. destruct (run_ops _ _) as [[c' g']|] eqn:E; cbn; [|done].
  destruct (panics h); [done|]. intros [= -> ->] Hs. by apply run_ops_unstreamed in E as [_ ?].
Qed.
