(* ===== verification/IdempotencyRuns.v ===== *)
(** * IdempotencyRuns: concurrent requests under one idempotency key

    The gateway's replicas serve requests and tool calls concurrently over one
    store.  A state holds the store and the executions in progress; a step is
    the admission of a request, the return of a handler, the loss of a replica
    while a handler runs, or a pass of the garbage collector
    ([sweepIdempotencyKeys] of [cmd/lenny-gateway/billing_security_workers.go]).
    Everything is proved for every store that satisfies [IdemStoreLaws]; the
    last part is about the two stores the gateway has. *)

From S2P Require Import Prelude Text IssuedTokens Idempotency.

(** ** Steps *)

(** An execution in progress: the slot it claimed, the hash it claimed it
    with, when, and whether a tool call did. *)
Record Exec := mkExec { eSlot : Slot; eHash : string; eStart : Time; eTool : bool }.

Section Runs.
Context {S : Type} `{IdemStore S} (HashBody : string -> string).
Context {ToolResult : Type} (marshal : ToolResult -> option string) (unmarshal : string -> option ToolResult).

Record Sys := mkSys { db : S; running : list Exec }.

(** One pass of the collector at [now], over the tenants it was given. *)
Fixpoint sweepIdempotencyKeys (now : Time) (tenants : list (string * Call)) (s : S) : S :=
  match tenants with
  | [] => s
  | (t, c) :: tenants => sweepIdempotencyKeys now tenants (DeleteExpired c s t (time_add now (- TTL))).1
  end.

Inductive event :=
| EvRequest (o : Options) (c1 c2 : Call) (r : Request) (d : Decision)
| EvToolCall (c1 c2 : Call) (tenant tool callerKey arguments : string) (d : ToolDecision (ToolResult := ToolResult))
| EvReturn (c : Call) (e : Exec) (h : Handler) (l : Live) (x : Exchange)
| EvToolReturn (c : Call) (e : Exec) (t : ToolOutcome (ToolResult := ToolResult))
| EvLost (e : Exec)
| EvSweep (tenants : list (string * Call)).

Definition slot_key (slot : Slot) : Key := mkKey slot.1 slot.2.

Inductive step (now : Time) : Sys -> event -> Sys -> Prop :=
| step_request o c1 c2 r d s s' run :
    admit_request HashBody o c1 c2 now r s = (s', d) ->
    step now (mkSys s run) (EvRequest o c1 c2 r d)
      (mkSys s' match d with
                | Execute hash => mkExec (Tenant r, KeyHeader r) hash now false :: run
                | _ => run
                end)
| step_tool c1 c2 tenant tool callerKey arguments d s s' run :
    dispatch_claim HashBody unmarshal c1 c2 now tenant tool callerKey arguments s = (s', d) ->
    step now (mkSys s run) (EvToolCall c1 c2 tenant tool callerKey arguments d)
      (mkSys s' match d with
                | ToolExecute key hash => mkExec (tenant, key) hash now true :: run
                | _ => run
                end)
| step_return c e h l x s s' run1 run2 :
    eTool e = false -> call_now c = now ->
    complete c (slot_key (eSlot e)) (eHash e) h l s = (s', x) ->
    step now (mkSys s (run1 ++ e :: run2)) (EvReturn c e h l x) (mkSys s' (run1 ++ run2))
| step_tool_return c e t s run1 run2 :
    eTool e = true -> call_now c = now ->
    step now (mkSys s (run1 ++ e :: run2)) (EvToolReturn c e t)
      (mkSys (dispatch_complete marshal c (eSlot e).1 (eSlot e).2 (eHash e) (eStart e) t s) (run1 ++ run2))
| step_lost e s run1 run2 :
    step now (mkSys s (run1 ++ e :: run2)) (EvLost e) (mkSys s (run1 ++ run2))
| step_sweep tenants s run :
    step now (mkSys s run) (EvSweep tenants) (mkSys (sweepIdempotencyKeys now tenants s) run).

(** The handlers in progress at [now] have all run for less than the retention
    time. *)
Definition timely (now : Time) (s : Sys) : Prop :=
  Forall (fun e => (now + Resolution <= eStart e + TTL)%Z) (running s).

(** A sequence of steps at times that do not decrease, in which every step is
    taken at a time and state that satisfy [P]. *)
Inductive run_of (P : Time -> Sys -> Prop) : Time -> Sys -> Time -> Sys -> Prop :=
| run_nil t s : run_of P t s t s
| run_step t s now ev s1 t' s' :
    (t <= now)%Z -> (0 < now)%Z -> P now s -> step now s ev s1 -> run_of P now s1 t' s' ->
    run_of P t s t' s'.

(** ** The invariant *)

Context `{!IdemStoreLaws S}.

(** A pending record of the execution [e]. *)
Definition holds (rows : Rows) (e : Exec) : Prop :=
  exists rec, rows !! eSlot e = Some rec /\ StatusCode (RResponse rec) = 0%Z /\ BodyHash rec = eHash e
    /\ (eStart e - Resolution < StoredAt rec <= eStart e)%Z /\ (0 < eStart e)%Z.

Definition Inv (s : Sys) : Prop :=
  NoDup (eSlot <$> running s) /\ Forall (holds (view (db s))) (running s).

(** The ways a store's rows change at [now] while an admission is made. *)
Definition claimed_at (now : Time) (rows rows' : Rows) (slot : Slot) (hash : string) : Prop :=
  free rows slot now /\ rows' = <[slot := kept (pending slot.1 slot.2 hash now)]> rows.

Lemma claim_cases c s t k h now s' r :
  Claim c s t k h now = (s', r) ->
  match r with
  | Ok (_, true) => claimed_at now (view s) (view s') (t, k) h
  | Ok (_, false) => view s' = view s
  | Err _ => view s' = view s \/ claimed_at now (view s) (view s') (t, k) h
  end.
Proof.
  intros E%claim_law. unfold claimed_at. cbn in *. destruct r as [[rec []]|]; [done| |done].
  by destruct E.
Qed.

Lemma branch_cases c s t k h now ex s' d :
  branch c s t k h now ex = (s', d) ->
  match d with
  | Execute hash => hash = h /\ claimed_at now (view s) (view s') (t, k) h
  | _ => view s' = view s \/ claimed_at now (view s) (view s') (t, k) h
  end.
Proof.
  unfold branch. destruct (_ =? _)%Z; [intros [= <- <-]; by left|].
  destruct (DetectReuse ex h now); [|intros [= <- <-]; by left..].
  destruct (Claim c s t k h now) as [s1 r1] eqn:E. apply claim_cases in E.
  destruct r1 as [[rec []]|e]; intros [= <- <-]; auto.
Qed.

(** An admission executes exactly when a claim on the request's slot was won. *)
Lemma admit_cases o c1 c2 now r s s' d :
  admit_request HashBody o c1 c2 now r s = (s', d) ->
  match d with
  | Execute hash => claimed_at now (view s) (view s') (Tenant r, KeyHeader r) hash
  | _ => view s' = view s \/ exists hash, claimed_at now (view s) (view s') (Tenant r, KeyHeader r) hash
  end.
Proof.
  unfold admit_request.
  destruct (is_empty (KeyHeader r)); [intros [= <- <-]; by left|].
  destruct (_ || _); [intros [= <- <-]; by left|].
  destruct (is_empty (Tenant r)); [intros [= <- <-]; by left|].
  destruct (Validate _); [intros [= <- <-]; by left|].
  destruct (readBodyLimited _ _) as [b|]; [|intros [= <- <-]; by left].
  destruct (Claim c1 s _ _ _ now) as [s1 r1] eqn:E. apply claim_cases in E.
  destruct r1 as [[rec []]|e].
  - intros [= <- <-]. done.
  - intros Hb%branch_cases. rewrite E in Hb. destruct d; naive_solver.
  - intros [= <- <-]. destruct E; eauto.
Qed.

Lemma dispatch_cases c1 c2 now tenant tool ck args s s' d :
  dispatch_claim HashBody unmarshal c1 c2 now tenant tool ck args s = (s', d) ->
  match d with
  | ToolExecute key hash => key = mcpKey tool ck /\ claimed_at now (view s) (view s') (tenant, key) hash
  | _ => view s' = view s \/ exists hash, claimed_at now (view s) (view s') (tenant, mcpKey tool ck) hash
  end.
Proof.
  unfold dispatch_claim.
  destruct (_ || _); [intros [= <- <-]; by left|].
  destruct (Validate _); [intros [= <- <-]; by left|].
  destruct (Claim c1 s _ _ _ now) as [s1 r1] eqn:E. apply claim_cases in E.
  destruct r1 as [[rec []]|e]; [intros [= <- <-]; done| |intros [= <- <-]; destruct E; eauto].
  destruct (_ =? _)%Z; [intros [= <- <-]; auto|].
  destruct (DetectReuse rec _ now).
  - destruct (Claim c2 s1 _ _ _ now) as [s2 r2] eqn:E2. apply claim_cases in E2. rewrite E in E2.
    destruct r2 as [[rec2 []]|e2]; intros [= <- <-]; naive_solver.
  - destruct (unmarshal _); intros [= <- <-]; auto.
  - intros [= <- <-]. auto.
Qed.

(** A completion writes no slot but its own. *)
Definition same_off (slot : Slot) (rows rows' : Rows) : Prop :=
  forall sl, sl <> slot -> rows' !! sl = rows !! sl.

Lemma release_off c s t k : same_off (t, k) (view s) (view (Release c s t k).1).
Proof.
  intros sl Hne. destruct (Release c s t k) as [s' r] eqn:E. apply release_law in E. cbn.
  assert (delete (t, k) (view s) !! sl = view s !! sl) by (by rewrite lookup_delete_ne).
  destruct r; [destruct E as [->| ->]; done|by rewrite E].
Qed.

Lemma put_off c s rec s' r :
  StoredAt rec <> 0%Z -> Put c s rec = (s', r) ->
  same_off (KTenant (RKey rec), KValue (RKey rec)) (view s) (view s').
Proof.
  intros Hz E sl Hne. apply put_law in E; [|done]. cbn in E.
  assert (<[(KTenant (RKey rec), KValue (RKey rec)) := kept rec]> (view s) !! sl = view s !! sl)
    by (by rewrite lookup_insert_ne).
  destruct r; [destruct E as [->| ->]; done|by rewrite E].
Qed.

Lemma maybePersist_off c s k hash g cw s' p :
  call_now c <> 0%Z -> maybePersist c s k hash g cw = (s', p) ->
  same_off (KTenant k, KValue k) (view s) (view s').
Proof.
  intros Hz. unfold maybePersist. cbn zeta.
  destruct g; [intros [= <- <-]; apply release_off|].
  destruct (streamed cw); [intros [= <- <-]; apply release_off|].
  destruct (500 <=? _)%Z; [intros [= <- <-]; apply release_off|].
  destruct (Put c s _) as [s1 r1] eqn:E. apply put_off in E; [|done].
  destruct r1; intros [= <- <-]; exact E.
Qed.

Lemma complete_off c slot hash h l s s' x :
  call_now c <> 0%Z -> complete c (slot_key slot) hash h l s = (s', x) -> same_off slot (view s) (view s').
Proof.
  intros Hz. unfold complete. cbn zeta. destruct slot as [t k]. unfold slot_key. cbn [fst snd KTenant KValue].
  destruct (run_handler h l) as [[cw g]|]; [|intros [= <- <-]; apply release_off].
  destruct (flush cw (w cw)) as [l'|]; [|intros [= <- <-]; apply release_off].
  destruct (maybePersist _ _ _ _ _ _) as [s1 p] eqn:E. intros [= <- <-]. by apply maybePersist_off in E.
Qed.

Lemma dispatch_complete_off c slot hash now t s :
  now <> 0%Z -> same_off slot (view s) (view (dispatch_complete marshal c slot.1 slot.2 hash now t s)).
Proof.
  intros Hz. destruct slot as [tn k]. destruct t as [res| |]; cbn; [|apply release_off|done].
  destruct (marshal res); [|apply release_off].
  destruct (Put c s _) as [s1 r1] eqn:E. apply put_off in E; [|done]. exact E.
Qed.

Lemma sweep_keeps now tenants s slot rec :
  view s !! slot = Some rec -> (now <= StoredAt rec + TTL)%Z ->
  view (sweepIdempotencyKeys now tenants s) !! slot = Some rec.
Proof.
  revert s. induction tenants as [|[t c] tenants IH]; intros s Hrec Hle; [done|]. cbn.
  apply IH; [|done]. apply sweep_law; [done|]. unfold time_add. lia.
Qed.

(** ** Executions exclude each other *)

Lemma holds_off slot rows rows' e :
  same_off slot rows rows' -> eSlot e <> slot -> holds rows e -> holds rows' e.
Proof. unfold holds. intros Hoff Hne. by rewrite (Hoff _ Hne). Qed.

Lemma claimed_off now rows rows' slot hash : claimed_at now rows rows' slot hash -> same_off slot rows rows'.
Proof. intros [_ ->] sl Hne. by rewrite lookup_insert_ne. Qed.

(** A slot in use by an execution that is on time cannot be claimed. *)
Lemma held_not_free now rows e :
  holds rows e -> (now + Resolution <= eStart e + TTL)%Z -> ~ free rows (eSlot e) now.
Proof. intros (rec & Hr & _ & _ & Hst & _) Hle. apply (not_free _ _ _ rec); [done|lia]. Qed.

Lemma claimed_holds now rows rows' slot hash tool :
  (0 < now)%Z -> claimed_at now rows rows' slot hash -> holds rows' (mkExec slot hash now tool).
Proof.
  intros Hn [_ ->]. unfold holds. cbn. eexists. split; [apply lookup_insert_eq|].
  set (p := pending slot.1 slot.2 hash now).
  destruct (kept_same p) as (_ & -> & -> & _). pose proof (kept_stamp p) as Hk. cbn in Hk. split_and!; [done..|lia|lia|done].
Qed.

Lemma Inv_claimed now s s' slot hash :
  Inv s -> timely now s -> claimed_at now (view (db s)) (view s') slot hash ->
  Inv (mkSys s' (running s)) /\ slot ∉ eSlot <$> running s.
Proof.
  intros [Hnd Hh] Ht Hc.
  assert (slot ∉ eSlot <$> running s) as Hnot.
  { intros (e & -> & He)%list_elem_of_fmap. rewrite Forall_forall in Hh. unfold timely in Ht.
    rewrite Forall_forall in Ht. apply (held_not_free now (view (db s)) e); eauto. apply Hc. }
  split; [|done]. split; [done|]. cbn. rewrite Forall_forall in Hh |- *. intros e He.
  eapply holds_off; [by eapply claimed_off| |by apply Hh].
  intros <-. apply Hnot. by apply list_elem_of_fmap_2.
Qed.

Lemma Inv_removed s s' run1 e run2 slot :
  Inv (mkSys s (run1 ++ e :: run2)) -> slot = eSlot e -> same_off slot (view s) (view s') ->
  Inv (mkSys s' (run1 ++ run2)).
Proof.
  intros [Hnd Hh] -> Hoff. cbn in *. rewrite fmap_app, fmap_cons in Hnd.
  apply NoDup_app in Hnd as (Hn1 & Hd & [Hne Hn2]%NoDup_cons).
  split; cbn.
  - rewrite fmap_app. apply NoDup_app. split_and!; [done| |done]. set_solver.
  - apply Forall_app in Hh as [Hh1 [_ Hh2]%Forall_cons]. apply Forall_app.
    rewrite Forall_forall in Hh1, Hh2. rewrite !Forall_forall.
    split; intros e' He'.
    + eapply holds_off; [done| |by apply Hh1]. intros Heq.
      apply (Hd (eSlot e')); [by apply list_elem_of_fmap_2|]. rewrite Heq. apply list_elem_of_here.
    + eapply holds_off; [done| |by apply Hh2]. intros Heq. apply Hne. rewrite <- Heq.
      by apply list_elem_of_fmap_2.
Qed.

Lemma Inv_view s s' run : Inv (mkSys s run) -> view s' = view s -> Inv (mkSys s' run).
Proof. intros [Hn Hh] E. split; [done|]. cbn in *. by rewrite E. Qed.

Lemma Inv_admitted now s s' run slot hash tool :
  (0 < now)%Z -> Inv (mkSys s run) -> timely now (mkSys s run) ->
  claimed_at now (view s) (view s') slot hash -> Inv (mkSys s' (mkExec slot hash now tool :: run)).
Proof.
  intros Hn HI Ht Hc. destruct (Inv_claimed now (mkSys s run) s' slot hash HI Ht Hc) as [[Hnd Hh] Hnot].
  split; cbn in *.
  - by apply NoDup_cons.
  - apply Forall_cons. split; [by eapply claimed_holds|done].
Qed.

Lemma Inv_step now s ev s' :
  (0 < now)%Z -> Inv s -> timely now s -> step now s ev s' -> Inv s'.
Proof.
  intros Hn HI Ht Hst. destruct Hst as [o c1 c2 r d s s' run E|c1 c2 tn tool ck args d s s' run E
    |c e h l x s s' run1 run2 _ Hc E|c e t s run1 run2 _ Hc|e s run1 run2|tenants s run].
  - apply admit_cases in E. destruct d; try (destruct E as [E|[hash E]]; [by eapply Inv_view|
      by apply (Inv_claimed now (mkSys s run) s' _ _ HI Ht) in E as [? _]]).
    by eapply Inv_admitted.
  - apply dispatch_cases in E. destruct d; try (destruct E as [E|[hash' E]]; [by eapply Inv_view|
      by apply (Inv_claimed now (mkSys s run) s' _ _ HI Ht) in E as [? _]]).
    destruct E as [-> E]. by eapply Inv_admitted.
  - eapply Inv_removed; [done..|]. eapply complete_off; [|done]. lia.
  - eapply Inv_removed; [done..|]. apply dispatch_complete_off.
    destruct HI as [_ Hh]. cbn in Hh. apply Forall_app in Hh as [_ [(_ & _ & _ & _ & _ & ?) _]%Forall_cons]. lia.
  - by eapply Inv_removed.
  - destruct HI as [Hnd Hh]. split; [done|]. cbn in *. rewrite Forall_forall in Hh |- *.
    unfold timely in Ht. rewrite Forall_forall in Ht. intros e He. specialize (Ht e He). cbn in Ht.
    destruct (Hh e He) as (rec & Hr & Hst). exists rec. split; [|done]. apply sweep_keeps; [done|]. lia.
Qed.

Lemma Inv_run t s t' s' : Inv s -> run_of timely t s t' s' -> Inv s'.
Proof.
  intros HI Hr. induction Hr as [|t s now ev s1 t' s' _ Hn Ht Hst _ IH]; [done|].
  apply IH. by eapply Inv_step.
Qed.

(** ** A record nobody is working on stays until it is old *)

Definition idle (s : Sys) (slot : Slot) : Prop := slot ∉ eSlot <$> running s.

Lemma idle_step now s ev s' slot rec :
  (0 < now)%Z -> Inv s -> timely now s -> step now s ev s' ->
  idle s slot -> view (db s) !! slot = Some rec -> (now <= StoredAt rec + TTL)%Z ->
  idle s' slot /\ view (db s') !! slot = Some rec.
Proof.
  intros Hn HI Ht Hst Hid Hrec Hle.
  assert (forall rows' sl hash, claimed_at now (view (db s)) rows' sl hash ->
            sl <> slot /\ rows' !! slot = Some rec) as Hclaim.
  { intros rows' sl hash Hc. assert (sl <> slot) as Hne.
    { intros ->. apply (not_free _ _ _ _ Hrec Hle). apply Hc. }
    split; [done|]. by rewrite (claimed_off _ _ _ _ _ Hc). }
  destruct Hst as [o c1 c2 r d s s' run E|c1 c2 tn tool ck args d s s' run E
    |c e h l x s s' run1 run2 _ Hc E|c e t s run1 run2 _ Hc|e s run1 run2|tenants s run]; cbn in *.
  - apply admit_cases in E. unfold idle in *. cbn in *.
    destruct d; try (destruct E as [->|[hash E]]; [done|by apply Hclaim in E as [_ ?]]).
    apply Hclaim in E as [? ?]. split; [|done]. set_solver.
  - apply dispatch_cases in E. unfold idle in *. cbn in *.
    destruct d; try (destruct E as [->|[hash' E]]; [done|by apply Hclaim in E as [_ ?]]).
    destruct E as [-> E]. apply Hclaim in E as [? ?]. split; [|done]. set_solver.
  - unfold idle in *. cbn in *. rewrite fmap_app, fmap_cons in Hid. split; [rewrite fmap_app; set_solver|].
    rewrite (complete_off c (eSlot e) (eHash e) h l s s' x); [done|lia|done|set_solver].
  - unfold idle in *. cbn in *. rewrite fmap_app, fmap_cons in Hid. split; [rewrite fmap_app; set_solver|].
    rewrite (dispatch_complete_off c (eSlot e)); [done| |set_solver].
    destruct HI as [_ Hh]. cbn in Hh. apply Forall_app in Hh as [_ [(_ & _ & _ & _ & _ & ?) _]%Forall_cons]. lia.
  - unfold idle in *. cbn in *. rewrite fmap_app, fmap_cons in Hid. split; [rewrite fmap_app; set_solver|done].
  - split; [done|]. by apply sweep_keeps.
Qed.

Lemma run_of_le P t s t' s' : run_of P t s t' s' -> (t <= t')%Z.
Proof. induction 1; lia. Qed.

Lemma idle_run t s t' s' slot rec :
  Inv s -> run_of timely t s t' s' ->
  idle s slot -> view (db s) !! slot = Some rec -> (t' <= StoredAt rec + TTL)%Z ->
  idle s' slot /\ view (db s') !! slot = Some rec.
Proof.
  intros HI Hr. induction Hr as [|t s now ev s1 t' s' _ Hn Ht Hst Hr IH]; [done|]. intros Hid Hrec Hle.
  apply run_of_le in Hr. destruct (idle_step now s ev s1 slot rec) as [? ?]; try done; [lia|].
  apply IH; [by eapply Inv_step|done..].
Qed.

(** ** What a request finds *)

(** A request that reaches the claim: allowed, with a tenant, a valid key and
    a body within the limit that hashes to [hash]. *)
Definition eligible (o : Options) (r : Request) (slot : Slot) (hash : string) : Prop :=
  slot = (Tenant r, KeyHeader r)
  /\ methodAllowed o (Method r) = true /\ pathAllowed o (Path r) = true
  /\ Validate (mkKey (Tenant r) (KeyHeader r)) = None
  /\ exists b, readBodyLimited r (MaxBodyBytes o) = Ok b /\ HashBody b = hash.

Lemma key_valid_inv k :
  Validate k = None ->
  is_empty (KTenant k) = false /\ is_empty (KValue k) = false /\ (rune_count (KValue k) <= MaxKeyLength)%nat.
Proof.
  unfold Validate. destruct (is_empty (KTenant k)); [done|]. destruct (is_empty (KValue k)); [done|].
  destruct (Nat.ltb_spec MaxKeyLength (rune_count (KValue k))); done.
Qed.

Lemma eligible_admit o c1 c2 now r s slot hash :
  eligible o r slot hash ->
  admit_request HashBody o c1 c2 now r s =
    match Claim c1 s slot.1 slot.2 hash now with
    | (s, Err _) => (s, Reply 500 "INTERNAL_ERROR" false)
    | (s, Ok (_, true)) => (s, Execute hash)
    | (s, Ok (existing, false)) => branch c2 s slot.1 slot.2 hash now existing
    end.
Proof.
  intros (-> & Hm & Hp & Hv & b & Hb & Hh). unfold admit_request.
  destruct (key_valid_inv _ Hv) as (He1 & He2 & _). cbn in He1, He2.
  by rewrite He2, Hm, Hp, He1, Hv, Hb, Hh.
Qed.

(** A healthy claim on a live record returns it. *)
Lemma healthy_claim_live c s slot hash now rec :
  healthy c -> serves s slot.1 slot.2 -> view s !! slot = Some rec -> (now <= StoredAt rec + TTL)%Z ->
  exists s', Claim c s slot.1 slot.2 hash now = (s', Ok (rec, false)) /\ view s' = view s.
Proof.
  intros Hh Hs Hrec Hle. destruct (claim_healthy c s slot.1 slot.2 hash now Hh Hs) as (rec' & b & E & _).
  destruct (Claim c s slot.1 slot.2 hash now) as [s' r] eqn:Hc. cbn in E. subst r.
  pose proof (claim_law _ _ _ _ _ _ _ _ Hc) as Hl. rewrite <- surjective_pairing in Hl. cbn in Hl.
  destruct b; [destruct Hl as [Hf _]; by apply (not_free _ _ now) in Hrec|].
  destruct Hl as (Hv & cur & Hcur & Heq). rewrite Hrec in Hcur. injection Hcur as <-.
  exists s'. split; [|done]. f_equal. f_equal. f_equal. apply Heq. apply Hh.
Qed.

(** A healthy claim on an absent record wins. *)
Lemma healthy_claim_absent c s slot hash now :
  healthy c -> serves s slot.1 slot.2 -> view s !! slot = None ->
  exists s' rec, Claim c s slot.1 slot.2 hash now = (s', Ok (rec, true))
    /\ view s' = <[slot := kept (pending slot.1 slot.2 hash now)]> (view s).
Proof.
  destruct slot as [t k]. cbn [fst snd]. intros Hh Hs Hnone.
  destruct (claim_healthy c s t k hash now Hh Hs) as (rec' & b & E & Hb).
  rewrite Hb in E. 2:{ intros r. rewrite Hnone. done. }
  destruct (Claim c s t k hash now) as [s' r] eqn:Hc. cbn in E. subst r.
  apply claim_law in Hc. exists s', rec'. split; [done|apply Hc].
Qed.

Lemma DetectReuse_live rec hash now :
  KValue (RKey rec) <> "" -> (0 < StoredAt rec)%Z -> (now <= StoredAt rec + TTL)%Z ->
  DetectReuse rec hash now = if bool_decide (BodyHash rec = hash) then ActionReplay
                             else ActionReject (BodyHash rec) hash.
Proof.
  intros Hk Hp Hle. unfold DetectReuse, time_is_zero. rewrite (is_empty_false _ Hk).
  destruct (Z.eqb_spec (StoredAt rec) 0); [lia|]. cbn.
  assert (IsExpired rec now = false) as -> by (apply IsExpired_false; lia). done.
Qed.

(** What a healthy request finds behind a completed, live record. *)
Lemma completed_decision o c1 c2 now r s slot hash rec :
  healthy c1 -> serves s slot.1 slot.2 -> eligible o r slot hash ->
  view s !! slot = Some rec -> StatusCode (RResponse rec) <> 0%Z -> KValue (RKey rec) = slot.2 ->
  (0 < StoredAt rec)%Z -> (now <= StoredAt rec + TTL)%Z ->
  (admit_request HashBody o c1 c2 now r s).2 =
    if bool_decide (BodyHash rec = hash) then Replay (RResponse rec)
    else Reply ReuseCode ReuseErrorCode false.
Proof.
  intros Hh Hs He Hrec Hst Hkey Hp Hle. rewrite (eligible_admit _ _ _ _ _ _ _ _ He).
  destruct (healthy_claim_live c1 s slot hash now rec Hh Hs Hrec Hle) as (s' & -> & _).
  unfold branch. destruct (Z.eqb_spec (StatusCode (RResponse rec)) 0); [done|].
  rewrite DetectReuse_live; try done.
  - by case_bool_decide.
  - destruct He as (-> & _ & _ & Hv & _). apply key_valid_inv in Hv as (_ & Hv & _).
    rewrite Hkey. cbn in *. intros E. rewrite E in Hv. done.
Qed.

(** A live pending record answers a healthy request with a conflict, and never
    lets a request through. *)
Lemma pending_decision o c1 c2 now r s slot hash rec :
  eligible o r slot hash -> view s !! slot = Some rec -> StatusCode (RResponse rec) = 0%Z ->
  (now <= StoredAt rec + TTL)%Z -> healthy c1 -> serves s slot.1 slot.2 ->
  (admit_request HashBody o c1 c2 now r s).2 = Reply 409 "IDEMPOTENCY_KEY_IN_FLIGHT" true.
Proof.
  intros He Hrec Hst Hle Hh Hs. rewrite (eligible_admit _ _ _ _ _ _ _ _ He).
  destruct (healthy_claim_live c1 s slot hash now rec Hh Hs Hrec Hle) as (s' & -> & _).
  unfold branch. by rewrite Hst.
Qed.

Lemma live_not_executed o c1 c2 now r s rec hash :
  view s !! (Tenant r, KeyHeader r) = Some rec -> (now <= StoredAt rec + TTL)%Z ->
  (admit_request HashBody o c1 c2 now r s).2 <> Execute hash.
Proof.
  intros Hrec Hle E. destruct (admit_request HashBody o c1 c2 now r s) as [s' d] eqn:Ha. cbn in E. subst d.
  apply admit_cases in Ha as [Hf _]. by apply (not_free _ _ now) in Hrec.
Qed.

(** The execution that returns is in the invariant's range, and once it has
    returned its slot is idle. *)
Lemma returned_idle s run1 e run2 s' :
  Inv (mkSys s (run1 ++ e :: run2)) -> idle (mkSys s' (run1 ++ run2)) (eSlot e) /\ holds (view s) e.
Proof.
  intros [Hnd Hh]. unfold idle. cbn in *. rewrite fmap_app, fmap_cons in Hnd.
  apply NoDup_app in Hnd as (_ & Hd & [Hne _]%NoDup_cons). rewrite fmap_app.
  split; [set_solver|]. by apply Forall_app in Hh as [_ [? _]%Forall_cons].
Qed.

Lemma Inv_start s0 : Inv (mkSys s0 []).
Proof. split; constructor. Qed.

(** What a completion that stored the response has written. *)
Lemma complete_stored c slot hash h l s s' l' :
  call_now c <> 0%Z -> complete c (slot_key slot) hash h l s = (s', Replied l' Stored) ->
  exists cw, run_handler h l = Some (cw, false) /\ streamed cw = false /\ flush cw l = Some l'
    /\ view s' !! slot = Some (kept (fresh_record (slot_key slot) hash cw (call_now c))).
Proof.
  intros Hz. unfold complete. cbn zeta.
  destruct (run_handler h l) as [[cw g]|] eqn:Er; [|done].
  destruct (flush cw (w cw)) as [l1|] eqn:Ef; [|done].
  unfold maybePersist. cbn zeta. destruct g; [done|]. destruct (streamed cw) eqn:Es; [done|].
  destruct (500 <=? _)%Z; [done|].
  destruct (Put c s _) as [s1 [e|]] eqn:Ep; [done|]. intros [= <- <-].
  exists cw. rewrite (run_handler_unstreamed _ _ _ _ Er Es) in Ef. split_and!; [done..|].
  apply put_law in Ep; [|done]. cbn in Ep. rewrite Ep. destruct slot as [t k]. apply lookup_insert_eq.
Qed.

(** ** The guarantees *)

(** C3. At any time at most one execution is in progress for a tenant and key:
    over every interleaving of requests, tool calls, returns, lost replicas
    and collector passes in which handlers finish within the retention time,
    the executions in progress have different slots, each is covered by its
    own pending record, and no request on a slot in use is executed. *)
Theorem one_execution_at_a_time s0 t t' s :
  run_of timely t (mkSys s0 []) t' s ->
  NoDup (eSlot <$> running s) /\
  forall e, e ∈ running s ->
    holds (view (db s)) e /\
    forall o c1 c2 now r hash, (Tenant r, KeyHeader r) = eSlot e -> (now + Resolution <= eStart e + TTL)%Z ->
      (admit_request HashBody o c1 c2 now r (db s)).2 <> Execute hash.
Proof.
  intros Hr. destruct (Inv_run _ _ _ _ (Inv_start s0) Hr) as [Hnd Hh]. split; [done|]. intros e He.
  rewrite Forall_forall in Hh. pose proof (Hh e He) as (rec & Hrec & Hst).
  split; [by apply Hh|]. intros o c1 c2 now r hash Hslot Hle.
  apply (live_not_executed _ _ _ _ _ _ rec); [by rewrite Hslot|lia].
Qed.


(** An exchange whose response is not to be replayed: the handler panicked, a
    forward was refused, the response was streamed or it is a server error. *)
Definition not_replayable (x : Exchange) : bool :=
  match x with
  | Panicked | Replied _ ForwardRefused | Replied _ Streamed | Replied _ ServerError => true
  | _ => false
  end.

Lemma release_absent c s slot :
  healthy c -> serves s slot.1 slot.2 -> view (Release c s slot.1 slot.2).1 !! slot = None.
Proof.
  destruct slot as [t k]. intros Hh Hs. pose proof (release_healthy c s t k Hh Hs) as E. cbn in *.
  destruct (Release c s t k) as [s' r] eqn:Er. cbn in *. subst r. apply release_law in Er. rewrite Er.
  apply lookup_delete_eq.
Qed.

Lemma complete_released c slot hash h l s s' x :
  healthy c -> serves s slot.1 slot.2 -> complete c (slot_key slot) hash h l s = (s', x) ->
  not_replayable x = true -> view s' !! slot = None.
Proof.
  intros Hh Hs. pose proof (release_absent c s slot Hh Hs) as Hrel. unfold complete. cbn zeta.
  change (KTenant (slot_key slot)) with slot.1. change (KValue (slot_key slot)) with slot.2.
  destruct (run_handler h l) as [[cw g]|]; [|by intros [= <- <-]].
  destruct (flush cw (w cw)) as [l'|]; [|by intros [= <- <-]].
  unfold maybePersist. cbn zeta.
  change (KTenant (slot_key slot)) with slot.1. change (KValue (slot_key slot)) with slot.2.
  destruct g; [by intros [= <- <-]|]. destruct (streamed cw); [by intros [= <- <-]|].
  destruct (500 <=? _)%Z; [by intros [= <- <-]|].
  destruct (Put c s _) as [s1 [e|]]; by intros [= <- <-].
Qed.

(** A failed operation can be retried at once: after an exchange that
    panicked, was refused by a forward, was streamed or ended in a server
    error, and whose release reached the store, the next healthy request with
    the same key runs the operation again, whatever its body. *)
Theorem failed_operation_is_retried c slot hash h l s s' x o c1 c2 now r hash' :
  healthy c -> serves s slot.1 slot.2 -> complete c (slot_key slot) hash h l s = (s', x) ->
  not_replayable x = true ->
  healthy c1 -> serves s' slot.1 slot.2 -> eligible o r slot hash' ->
  (admit_request HashBody o c1 c2 now r s').2 = Execute hash'.
Proof.
  intros Hh Hs Hc Hx Hh1 Hs1 He. pose proof (complete_released _ _ _ _ _ _ _ _ Hh Hs Hc Hx) as Hnone.
  rewrite (eligible_admit _ _ _ _ _ _ _ _ He).
  by destruct (healthy_claim_absent c1 s' slot hash' now Hh1 Hs1 Hnone) as (? & ? & -> & _).
Qed.
End Runs.

(** ** The Postgres store *)

Lemma cancelled_release c s t k : cancelled c = true -> (Pg.Release c s t k).1 = s.
Proof. intros Hc. unfold Pg.Release, Pg.InTx. rewrite Hc. by destruct (_ || _). Qed.

Lemma cancelled_put c s rec : cancelled c = true -> (Pg.Put c s rec).1 = s.
Proof.
  intros Hc. unfold Pg.Put, Pg.InTx. destruct (Validate _); [done|]. rewrite Hc. cbn zeta. by destruct (_ || _).
Qed.

(** With a cancelled context a completion writes nothing, whatever the handler
    did. *)
Lemma cancelled_complete c k hash h l (s : Pg.Store) : cancelled c = true -> (complete c k hash h l s).1 = s.
Proof.
  intros Hc. unfold complete. cbn zeta.
  destruct (run_handler h l) as [[cw g]|]; [|by apply cancelled_release].
  destruct (flush cw (w cw)); [|by apply cancelled_release].
  unfold maybePersist. cbn zeta.
  destruct g; [by apply cancelled_release|]. destruct (streamed cw); [by apply cancelled_release|].
  destruct (500 <=? _)%Z; [by apply cancelled_release|].
  set (rec := fresh_record _ _ _ _). pose proof (cancelled_put c s rec Hc) as E.
  change (Put c s rec) with (Pg.Put c s rec). destruct (Pg.Put c s rec) as [s1 [e|]]; by cbn in *.
Qed.

(** With the Postgres store, a client whose connection closes while its
    operation runs never gets the answer: the store calls after the handler use
    the request's context, which is then cancelled, so nothing is recorded,
    and until the retention time has passed every healthy retry is answered
    409 IDEMPOTENCY_KEY_IN_FLIGHT although nothing is in flight. *)
Theorem disconnected_client_locked_out (HashBody : string -> string) {ToolResult : Type}
    (marshal : ToolResult -> option string) (unmarshal : string -> option ToolResult)
    (s0 : Pg.Store) t0 t1 s now c e h l x s1 t2 s2 o c1 c2 t3 r hash :
  run_of HashBody marshal unmarshal timely t0 (mkSys s0 []) t1 s ->
  (0 < now)%Z -> timely now s -> step HashBody marshal unmarshal now s (EvReturn c e h l x) s1 ->
  cancelled c = true ->
  run_of HashBody marshal unmarshal timely now s1 t2 s2 ->
  (t2 <= t3)%Z -> (t3 + Resolution <= eStart e + TTL)%Z ->
  healthy c1 -> pg_serves (db s2) (eSlot e).1 (eSlot e).2 -> eligible HashBody o r (eSlot e) hash ->
  db s1 = db s /\
  (admit_request HashBody o c1 c2 t3 r (db s2)).2 = Reply 409 "IDEMPOTENCY_KEY_IN_FLIGHT" true.
Proof.
  intros Hr Hn Ht Hst Hcan Hr2 Ht3 Hle Hh Hs He.
  pose proof (Inv_run _ _ _ _ _ _ _ (Inv_start s0) Hr) as HI.
  pose proof (Inv_step _ _ _ _ _ _ _ Hn HI Ht Hst) as HI1.
  inversion Hst as [| |c' e' h' l0 x' s' s1' run1 run2 _ Hc Hcomp| | |]; subst.
  destruct (returned_idle _ _ _ _ s1' HI) as [Hid (rec & Hrec & Hsc & _ & Hstamp & _)].
  pose proof (cancelled_complete c (slot_key (eSlot e)) (eHash e) h l s' Hcan) as E.
  rewrite Hcomp in E. cbn in E. subst s1'. split; [done|].
  destruct (idle_run _ _ _ _ _ _ _ (eSlot e) rec HI1 Hr2 Hid Hrec) as [_ Hrec2]; [lia|].
  by eapply pending_decision; try done; [lia].
Qed.

(** A concurrent claim that loses the race in Postgres is answered as an
    internal error instead of a conflict: the conflicting row was committed
    after the statement's snapshot was taken, so the insert is refused and the
    reading arm of the same statement does not see the row. *)
Theorem pg_claim_race_is_internal_error (HashBody : string -> string) (s : Pg.Store) rec o c1 c2 now r slot hash snap :
  eligible HashBody o r slot hash -> pg_serves s slot.1 slot.2 ->
  Pg.rows s !! slot = Some rec -> (now <= StoredAt rec + TTL)%Z ->
  cancelled c1 = false -> conn c1 = ConnOk -> snapshot c1 = Some snap -> snap !! slot = None ->
  admit_request HashBody o c1 c2 now r s = (s, Reply 500 "INTERNAL_ERROR" false).
Proof.
  intros He (Hv & Hp & Hs1 & Hs2 & Hrow) Hrec Hle Hc Hn Hsn Hnone.
  rewrite (eligible_admit _ _ _ _ _ _ _ _ _ He).
  change (Claim c1 s slot.1 slot.2 hash now) with (Pg.Claim c1 s slot.1 slot.2 hash now).
  unfold Pg.Claim. rewrite Hv. cbn zeta. unfold Pg.InTx. rewrite Hp.
  rewrite !bool_decide_eq_false_2 by done. cbn [orb negb]. rewrite Hc, Hn, Hrow, Hsn. cbn [default from_option].
  unfold Pg.claim_sql. destruct slot as [t k]. cbn [fst snd] in *. rewrite Hrec. change (id snap) with snap. rewrite Hnone.
  pose proof (timestamptz_bounds (time_add now (- TTL))). unfold time_add in *.
  destruct (Z.ltb_spec (StoredAt rec) (Pg.timestamptz (now + - TTL))); [lia|]. done.
Qed.

(** In the last microsecond of the retention time a completed record in
    Postgres blocks its key: the record counts as expired in the middleware and
    as live in the claim statement, whose cutoff is rounded down, so the second
    claim is refused too and the request answered as an internal error. *)
Theorem pg_expiry_window (HashBody : string -> string) (s : Pg.Store) rec o c1 c2 now r slot hash :
  eligible HashBody o r slot hash -> pg_serves s slot.1 slot.2 -> healthy c1 -> healthy c2 ->
  Pg.rows s !! slot = Some rec -> StatusCode (RResponse rec) <> 0%Z -> (0 < StoredAt rec)%Z ->
  Pg.timestamptz (StoredAt rec) = StoredAt rec ->
  (StoredAt rec + TTL < now < StoredAt rec + TTL + 1000)%Z ->
  (admit_request HashBody o c1 c2 now r s).2 = Reply 500 "INTERNAL_ERROR" false.
Proof.
  intros He Hs Hh1 Hh2 Hrec Hst Hpos Hround Hwin. rewrite (eligible_admit _ _ _ _ _ _ _ _ _ He).
  pose proof Hs as (Hv & _ & _ & _ & Hrow).
  assert (forall c, healthy c -> Pg.Claim c s slot.1 slot.2 hash now = (s, Ok (rec, false))) as Hclaim.
  { intros c Hh. unfold Pg.Claim. rewrite Hv. cbn zeta. rewrite (InTx_healthy c slot.1 slot.2) by done.
    rewrite Hrow. unfold Pg.claim_sql. pose proof Hh as (_ & _ & ->). cbn [default from_option].
    destruct slot as [t k]. cbn [fst snd] in *. rewrite Hrec.
    assert (Pg.timestamptz (time_add now (- TTL)) <= StoredAt rec)%Z as Hcut.
    { unfold Pg.timestamptz, time_add in *. rewrite <- Hround.
      apply Z.mul_le_mono_nonneg_r; [lia|]. apply Z.lt_succ_r, Z.div_lt_upper_bound; [lia|].
      pose proof (Z.div_mod (StoredAt rec) 1000). lia. }
    destruct (Z.ltb_spec (StoredAt rec) (Pg.timestamptz (time_add now (- TTL)))); [lia|].
    cbn. by destruct s. }
  change (Claim c1 s slot.1 slot.2 hash now) with (Pg.Claim c1 s slot.1 slot.2 hash now). rewrite Hclaim by done.
  unfold branch. destruct (Z.eqb_spec (StatusCode (RResponse rec)) 0); [done|].
  assert (DetectReuse rec hash now = ActionStoreNew) as ->.
  { unfold DetectReuse. destruct (_ || _); [done|].
    assert (IsExpired rec now = true) as -> by (apply IsExpired_spec; lia). done. }
  change (Claim c2 s slot.1 slot.2 hash now) with (Pg.Claim c2 s slot.1 slot.2 hash now). by rewrite Hclaim.
Qed.

(** ** Keys of tool calls *)

Lemma mcpKey_runes tool ck :
  ascii_only tool = true -> rune_count (mcpKey tool ck) = 5 + String.length tool + rune_count ck.
Proof.
  intros Ha. unfold mcpKey. rewrite (rune_count_ascii_app "mcp/") by done.
  rewrite rune_count_ascii_app by done. rewrite (rune_count_ascii_app "/") by done. cbn. lia.
Qed.

(** The key a tool call may carry is shorter than the 128 characters the
    API promises: the name of the tool and five more characters count against
    the limit, and a longer key is refused as invalid. *)
Theorem tool_key_limit {S} `{IdemStore S} (HashBody : string -> string) {ToolResult : Type}
    (unmarshal : string -> option ToolResult) c1 c2 now tenant tool ck args (s : S) :
  ascii_only tool = true -> tool <> "" -> tenant <> "" -> ck <> "" ->
  Validate (mkKey tenant ck) = None -> (MaxKeyLength < 5 + String.length tool + rune_count ck)%nat ->
  dispatch_claim HashBody unmarshal c1 c2 now tenant tool ck args s = (s, ToolError "INVALID_IDEMPOTENCY_KEY").
Proof.
  intros Ha Ht Htn Hck _ Hlen. unfold dispatch_claim.
  rewrite (is_empty_false _ Ht), (is_empty_false _ Hck). cbn [orb].
  unfold Validate. cbn [KTenant KValue]. rewrite (is_empty_false _ Htn).
  destruct (is_empty (mcpKey tool ck)); [done|]. rewrite mcpKey_runes by done.
  destruct (Nat.ltb_spec MaxKeyLength (5 + String.length tool + rune_count ck)); [done|lia].
Qed.

(** The keys of two tools never meet when neither name continues the other
    at a slash, which holds for the two tools the gateway configures. *)
Theorem tool_keys_separate tool tool' ck ck' :
  has_prefix (tool +:+ "/") (tool' +:+ "/") = false -> has_prefix (tool' +:+ "/") (tool +:+ "/") = false ->
  mcpKey tool ck <> mcpKey tool' ck'.
Proof.
  unfold mcpKey. intros H1 H2 E. apply append_cancel in E. rewrite <- !append_assoc3 in E.
  revert H1 H2 E. generalize (tool +:+ "/") (tool' +:+ "/"). clear tool tool'. intros a b.
  revert b. induction a as [|x a IH]; intros b H1 H2 E.
  - assert (has_prefix b "" = true) by (apply has_prefix_spec; by exists b). congruence.
  - destruct b as [|y b].
    + assert (has_prefix (String x a) "" = true) by (apply has_prefix_spec; by eexists). congruence.
    + rewrite !append_cons in E. injection E as -> E. apply (IH b); [| |done].
      * unfold has_prefix in *. cbn in H1. by rewrite Ascii.eqb_refl in H1.
      * unfold has_prefix in *. cbn in H2. by rewrite Ascii.eqb_refl in H2.
Qed.

(** ** Concrete runs *)

Module Demo.
Definition T0 : Time := (1000 * Second)%Z.
Definition o : Options := Wrap (mkOptions 0 None ["/v1/sessions"; "/v1/sessions/{id}/start"]).
Definition call (t : Time) : Call := mkCall false ConnOk None t.
Definition gone (t : Time) : Call := mkCall true ConnOk None t.
Definition req (key body : string) : Request :=
  mkRequest "POST" "/v1/sessions" key "acme" (Z.of_nat (String.length body)) (Some (body, false)).
Definition hash (b : string) : string := b.
Definition handler (code : Z) : Handler := mkHandler [OpSet "Location" "/v1/sessions/s1"; OpWriteHeader code; OpWrite "{}"] false.
Definition live : Live := mkLive ∅ None "".
Definition exec (t : Time) : Exec := mkExec ("acme", "k1") "b" t false.
Definition pg0 : Pg.Store := Pg.mkStore {["acme"]} ∅.

Definition claimed {S} `{IdemStore S} (t : Time) (s : S) : S :=
  (admit_request hash o (call t) (call t) t (req "k1" "b") s).1.
Definition completed {S} `{IdemStore S} (c : Call) (code : Z) (s : S) : S :=
  (complete c (slot_key ("acme", "k1")) "b" (handler code) live s).1.

Abbreviation Step now := (step hash (@Some string) (@Some string) now).

Lemma request_step {S} `{IdemStore S} t (s : S) run :
  (admit_request hash o (call t) (call t) t (req "k1" "b") s).2 = Execute "b" ->
  Step t (mkSys s run) (EvRequest o (call t) (call t) (req "k1" "b") (Execute "b"))
    (mkSys (claimed t s) (exec t :: run)).
Proof.
  intros E. apply (step_request hash (@Some string) (@Some string) t o (call t) (call t) (req "k1" "b") (Execute "b")).
  unfold claimed. by rewrite <- E, <- surjective_pairing.
Defined.

Lemma return_step {S} `{IdemStore S} t t0 c code (s : S) x run1 run2 :
  call_now c = t -> (complete c (slot_key ("acme", "k1")) "b" (handler code) live s).2 = x ->
  Step t (mkSys s (run1 ++ exec t0 :: run2)) (EvReturn c (exec t0) (handler code) live x)
    (mkSys (completed c code s) (run1 ++ run2)).
Proof.
  intros Hc E. apply step_return; [done|done|]. unfold completed. cbn [eSlot eHash exec].
  rewrite <- E. apply surjective_pairing.
Defined.

Lemma claimed_run {S} `{IdemStore S} (s : S) :
  (admit_request hash o (call T0) (call T0) T0 (req "k1" "b") s).2 = Execute "b" ->
  run_of hash (@Some string) (@Some string) timely T0 (mkSys s []) T0 (mkSys (claimed T0 s) [exec T0]).
Proof.
  intros E. eapply (run_step _ _ _ _ _ _ Demo.T0); [lia|done|constructor|by apply request_step|]. apply run_nil.
Defined.

Lemma eligible_req key : eligible hash o (req key "b") ("acme", key) "b" <-> Validate (mkKey "acme" key) = None.
Proof. unfold eligible. split; [by intros (_ & _ & _ & ? & _)|]. intros. split_and!; try done. by exists "b". Qed.
End Demo.

(** Without the assumption that handlers finish within the retention time
    the exclusion fails: neither the write nor the release of a completion is
    tied to the claim it belongs to.  A handler that outlives its claim and
    then fails releases the record of the execution that took over, and a
    third request runs beside it, both well within the retention time. *)
Theorem late_completion_breaks_exclusion :
  exists t s, run_of Demo.hash (@Some string) (@Some string) (fun _ _ => True)
                Demo.T0 (mkSys Memory.NewMemoryStore []) t s
    /\ timely t s /\ ~ NoDup (eSlot <$> running s).
Proof.
  pose (t1 := (Demo.T0 + TTL + Second)%Z).
  exists (t1 + 2)%Z. eexists. split; [|split].
  - eapply (run_step _ _ _ _ _ _ Demo.T0); [lia|done|done|by apply Demo.request_step|].
    eapply (run_step _ _ _ _ _ _ t1); [done|done|done|by apply Demo.request_step|].
    eapply (run_step _ _ _ _ _ _ (t1 + 1)%Z); [lia|done|done| |].
    { exact (Demo.return_step (t1 + 1) Demo.T0 (Demo.call (t1 + 1)) 500 _ _ [Demo.exec t1] [] eq_refl eq_refl). }
    eapply (run_step _ _ _ _ _ _ (t1 + 2)%Z); [lia|done|done|by apply Demo.request_step|]. apply run_nil.
  - repeat constructor; done.
  - cbn. intros [Hn _]%NoDup_cons. apply Hn. apply list_elem_of_here.
Qed.

(** Keys of the two transports can meet, against what the tool dispatch
    says of its namespace: a request whose key header spells the prefixed key
    of a tool call is answered with the tool's stored payload. *)
Theorem rest_key_meets_tool_key :
  exists s, dispatch_claim Demo.hash (@Some string) (Demo.call Demo.T0) (Demo.call Demo.T0) Demo.T0
              "acme" "lenny/create_session" "k1" "b" Memory.NewMemoryStore
            = (s, ToolExecute "mcp/lenny/create_session/k1" "b")
    /\ (admit_request Demo.hash Demo.o (Demo.call Demo.T0) (Demo.call Demo.T0) Demo.T0
          (Demo.req "mcp/lenny/create_session/k1" "b")
          (dispatch_complete (@Some string) (Demo.call Demo.T0) "acme" "mcp/lenny/create_session/k1" "b" Demo.T0
             (ToolReturned "payload") s)).2
       = Replay (mkResponse 200 ∅ "payload").
Proof. eexists. split; [reflexivity|]. by vm_compute. Qed.

(** An entry of the allow-list admits the paths with its own segments and
    no longer ones, against the comment on the option, which calls it a
    prefix. *)
Theorem allowed_path_is_not_a_prefix :
  pathAllowed (mkOptions 0 None ["/v1/sessions"]) "/v1/sessions" = true
  /\ pathAllowed (mkOptions 0 None ["/v1/sessions"]) "/v1/sessions/s1/start" = false
  /\ pathAllowed (mkOptions 0 None ["/v1/sessions/{id}/tool-use/..."]) "/v1/sessions/s1/tool-use/t1/approve" = true.
Proof. by vm_compute. Qed.

(** ** The theorems on concrete runs *)

Lemma one_execution_at_a_time_witness :
  let s := Demo.claimed Demo.T0 Memory.NewMemoryStore in
  (admit_request Demo.hash Demo.o (Demo.call Demo.T0) (Demo.call Demo.T0) (Demo.T0 + Second)%Z (Demo.req "k1" "b") s).2
  <> Execute "b".
Proof.
  refine (proj2 (proj2 (one_execution_at_a_time Demo.hash (@Some string) (@Some string) Memory.NewMemoryStore
    Demo.T0 Demo.T0 (mkSys (Demo.claimed Demo.T0 Memory.NewMemoryStore) [Demo.exec Demo.T0])
    (Demo.claimed_run Memory.NewMemoryStore eq_refl)) (Demo.exec Demo.T0) (list_elem_of_here _ _)) _ _ _ _ (Demo.req "k1" "b") _ eq_refl _).
  vm_compute. discriminate.
Defined.


Lemma failed_operation_is_retried_witness :
  let s := Demo.completed (Demo.call (Demo.T0 + 1)) 503 (Demo.claimed Demo.T0 Memory.NewMemoryStore) in
  (admit_request Demo.hash Demo.o (Demo.call Demo.T0) (Demo.call Demo.T0) (Demo.T0 + 2)%Z (Demo.req "k1" "b") s).2
  = Execute "b".
Proof.
  refine (failed_operation_is_retried Demo.hash (Demo.call (Demo.T0 + 1)) ("acme", "k1") "b" (Demo.handler 503) Demo.live
    (Demo.claimed Demo.T0 Memory.NewMemoryStore) _ _ _ _ _ _ _ _ _ _ (surjective_pairing _) eq_refl _ _ _);
    try exact I; try (by split_and!). by apply Demo.eligible_req.
Defined.

Lemma disconnected_client_locked_out_witness :
  let s := Demo.completed (Demo.gone (Demo.T0 + 1)) 201 (Demo.claimed Demo.T0 Demo.pg0) in
  (complete (Demo.gone (Demo.T0 + 1)) (slot_key ("acme", "k1")) "b" (Demo.handler 201) Demo.live
     (Demo.claimed Demo.T0 Demo.pg0)).2
    = Replied (mkLive {[ "Location" := ["/v1/sessions/s1"] ]} (Some (201%Z, {[ "Location" := ["/v1/sessions/s1"] ]})) "{}")
        (WriteFailed DbError)
  /\ (admit_request Demo.hash Demo.o (Demo.call Demo.T0) (Demo.call Demo.T0) (Demo.T0 + Hour)%Z (Demo.req "k1" "b") s).2
    = Reply 409 "IDEMPOTENCY_KEY_IN_FLIGHT" true.
Proof.
  split; [by vm_compute|]. cbv zeta.
  pose (s1 := Demo.claimed Demo.T0 Demo.pg0).
  pose (c := Demo.gone (Demo.T0 + 1)).
  assert ((admit_request Demo.hash Demo.o (Demo.call Demo.T0) (Demo.call Demo.T0) Demo.T0 (Demo.req "k1" "b") Demo.pg0).2
          = Execute "b") as E by (by vm_compute).
  refine (proj2 (disconnected_client_locked_out Demo.hash (@Some string) (@Some string) Demo.pg0
    Demo.T0 Demo.T0 (mkSys s1 [Demo.exec Demo.T0]) (Demo.T0 + 1) c (Demo.exec Demo.T0) (Demo.handler 201) Demo.live
    (complete c (slot_key ("acme", "k1")) "b" (Demo.handler 201) Demo.live s1).2
    (mkSys (Demo.completed c 201 s1) []) (Demo.T0 + 1) (mkSys (Demo.completed c 201 s1) [])
    Demo.o (Demo.call Demo.T0) (Demo.call Demo.T0) (Demo.T0 + Hour) (Demo.req "k1" "b") "b"
    (Demo.claimed_run Demo.pg0 E) _ _
    (Demo.return_step (Demo.T0 + 1) Demo.T0 c 201 s1 _ [] [] eq_refl eq_refl)
    eq_refl (run_nil _ _ _ _ _ _) _ _ _ _ _)).
  - reflexivity.
  - repeat constructor. vm_compute. discriminate.
  - vm_compute. discriminate.
  - vm_compute. discriminate.
  - by split_and!.
  - split_and!; by vm_compute.
  - by apply Demo.eligible_req.
Defined.

Lemma pg_claim_race_is_internal_error_witness :
  let s := Demo.claimed Demo.T0 Demo.pg0 in
  let c := mkCall false ConnOk (Some ∅) Demo.T0 in
  (admit_request Demo.hash Demo.o c c (Demo.T0 + 1)%Z (Demo.req "k1" "b") s).2 = Reply 500 "INTERNAL_ERROR" false
  /\ (admit_request Demo.hash Demo.o (Demo.call Demo.T0) c (Demo.T0 + 1)%Z (Demo.req "k1" "b") s).2
     = Reply 409 "IDEMPOTENCY_KEY_IN_FLIGHT" true.
Proof.
  split; [|by vm_compute].
  cbv zeta. erewrite (pg_claim_race_is_internal_error Demo.hash (Demo.claimed Demo.T0 Demo.pg0)); [reflexivity|..].
  - by apply Demo.eligible_req.
  - by split_and!.
  - by vm_compute.
  - vm_compute. discriminate.
  - done.
  - done.
  - done.
  - done.
Defined.

Lemma pg_expiry_window_witness :
  let s := Demo.completed (Demo.call Demo.T0) 201 (Demo.claimed Demo.T0 Demo.pg0) in
  (admit_request Demo.hash Demo.o (Demo.call Demo.T0) (Demo.call Demo.T0) (Demo.T0 + TTL + 1)%Z (Demo.req "k1" "b") s).2
  = Reply 500 "INTERNAL_ERROR" false.
Proof.
  eapply (pg_expiry_window Demo.hash (Demo.completed (Demo.call Demo.T0) 201 (Demo.claimed Demo.T0 Demo.pg0))).
  - by apply Demo.eligible_req.
  - by split_and!.
  - by split_and!.
  - by split_and!.
  - by vm_compute.
  - vm_compute. discriminate.
  - by vm_compute.
  - by vm_compute.
  - by vm_compute.
Defined.

Lemma tool_key_limit_witness :
  let ck := String.string_of_list_ascii (repeat "a"%char 104) in
  Validate (mkKey "acme" ck) = None
  /\ dispatch_claim Demo.hash (@Some string) (Demo.call Demo.T0) (Demo.call Demo.T0) Demo.T0
       "acme" "lenny/create_session" ck "b" Memory.NewMemoryStore
     = (Memory.NewMemoryStore, ToolError "INVALID_IDEMPOTENCY_KEY").
Proof.
  split; [by vm_compute|]. apply tool_key_limit; try done. by apply Nat.ltb_lt.
Defined.

Lemma tool_keys_separate_witness :
  mcpKey "lenny/create_session" "k1" <> mcpKey "lenny/delegate_task" "k1".
Proof. by apply tool_keys_separate. Defined.
