(* ===== verification/TokenService.v ===== *)
(** * TokenService: the token endpoint

    Models [pkg/tokenservice/tokenservice.go]: the pipeline behind
    [POST /v1/oauth/token] from the drift gate to the response, on top of the
    exchange validator ([TokenExchange]), the scope claim ([Scopes]) and the
    issued-token store, which it reaches through the interface [TokenStore].
    What lies outside the repository's own code (the signature scheme, the
    hash, the random source, the clock, the event bus and the audit chain's
    availability) is the record [Env].

    A response keeps the status, the error code and the fixed reason text;
    rendered error messages, headers and metrics are left out.  The request
    body is given decoded. *)

From Stdlib Require Import ZArith SpecFloat.
From S2P Require Import Prelude Floats Text Scopes TokenExchange IssuedTokens.

(** ** Claims, requests and responses *)

Record ActorClaim := mkActorClaim {
  acSubject : string; acTenantID : string; acSessionID : string; acDelegationDepth : Z }.

(** The claims of [jwt.Claims] the service reads or writes. *)
Record Claims := mkClaims {
  cIssuer : string;
  cSubject : string;
  cAudience : list string;
  cExpiry : Z;
  cIssuedAt : Z;
  cJWTID : string;
  cTenantID : string;
  cSessionID : string;
  cCallerType : string;
  cDelegationDepth : Z;
  cScope : string;
  cTyp : string;
  cAct : option ActorClaim;
  cAuthorizedTools : list string;
  cOrigin : string }.

Definition OriginPlayground : string := "playground".

(** Seconds from the zero time to the Unix epoch. *)
Definition unix_epoch : Z := 62135596800.
Definition time_unix (sec : Z) : Time := (wrap64 (sec + unix_epoch) * Second)%Z.
Definition unix_of (t : Time) : Z := (t / Second - unix_epoch)%Z.

Definition ExpiryTime (c : Claims) : Time :=
  if (cExpiry c =? 0)%Z then zero_time else time_unix (cExpiry c).

Record Request := mkRequest {
  GrantType : string;
  SubjectToken : string;
  ActorToken : string;
  RequestedTokenType : string;
  ReqScope : string;
  ReqAudience : string;
  ExpiresIn : option Z }.

Inductive Response :=
| RespToken (access_token : string) (expires_in : Z) (scope_claim : string)
| RespRevoked (count : Z)
| RespError (status : Z) (code reason : string).

Definition minRequestedExpiresIn : Z := 60.
Definition grantTypeExchange : string := "urn:ietf:params:oauth:grant-type:token-exchange".
Definition revokedTokenType : string := "urn:ietf:params:oauth:token-type:access_token:revoked".
Definition revocationReasonExplicit : string := "explicit_revoke".
Definition revocationReasonCascade : string := "cascade_from_parent".
Definition revocationReasonRotationReplaced : string := "rotation_replaced".
Definition propagationModeEventBus : string := "eventbus".
Definition propagationModePostgresOnly : string := "postgres_only".
Definition exchangeTypeAdminRotation : string := "admin_rotation".
Definition exchangeTypeDelegationMint : string := "delegation_mint".
Definition exchangeTypeLeaseIssue : string := "lease_issue".
Definition exchangeTypeScopeNarrow : string := "scope_narrow".
Definition EventTokenExchanged : string := "token.exchanged".
Definition EventTokenRevoked : string := "token.revoked".
Definition EventTokenExchangeRateLimited : string := "token.exchange_rate_limited".

(** ** Audit payloads *)

Record exchangeAuditPayload := mkExchangeAuditPayload {
  ExchangeType : string;
  CallerSub : string;
  SubjectSub : string;
  PJTI : string;
  PScope : list string;
  PAudience : list string;
  PDelegationDepth : Z;
  PolicyResult : string;
  ErrorCode : string;
  PNow : Time }.

Record revokedAuditPayload := mkRevokedAuditPayload {
  RevokedJTI : string;
  RevokedSub : string;
  RevocationReason : string;
  CascadeRootJTI : string;
  PropagationMode : string;
  RTimestamp : Time }.

Record rateLimitAuditPayload := mkRateLimitAuditPayload {
  RlTenantID : string; RlSub : string; RlLimitTier : string; RlTimestamp : Time }.

Inductive Payload :=
| PExchanged (p : exchangeAuditPayload)
| PRevoked (p : revokedAuditPayload)
| PRateLimited (p : rateLimitAuditPayload).

(** What the rate limiter decided, without the retry delay; no limiter is
    [RlAllowed]. *)
Inductive RateLimitDecision :=
| RlAllowed
| RlDenied (limitTier : string) (auditSampled : bool).

(** ** The store interface *)

(** [IssuedTokenStore] with the optional interfaces the code discovers by
    type assertion; [None] is a store that does not satisfy them. *)
Record TokenStore (St : Type) := mkTokenStore {
  ts_Record : IssuedToken -> St -> St * result StoreError unit;
  ts_RecordWithAudit :
    option (IssuedToken -> list SourceToken -> string -> Payload -> Time -> St -> St * result StoreError unit);
  ts_RecordWithRotationAudit :
    option (IssuedToken -> list SourceToken -> string -> string -> string -> Payload -> Time -> St ->
            St * result StoreError (string * bool));
  ts_RevokeCascade :
    option (string -> string -> string -> string -> Time -> St -> St * result StoreError (list RevokedToken)) }.
Arguments ts_Record {St}.
Arguments ts_RecordWithAudit {St}.
Arguments ts_RecordWithRotationAudit {St}.
Arguments ts_RevokeCascade {St}.

Section Service.
Context {St : Type}.

Record Server := mkServer {
  issuer : string;
  perDialect : gmap string Duration;
  issuedTokens : option (TokenStore St);
  capabilityTokenTTL : Duration;
  hasAuditor : bool }.

(** What one request meets in its surroundings. *)
Record Env := mkEnv {
  driftDegraded : bool;
  callerVerify : string -> result string Claims;
  verify : string -> result string Claims;
  rateDecision : RateLimitDecision;
  clockNow : Time;
  newJTI : result string string;
  sign : Claims -> result string string;
  sha256 : string -> string;
  auditFails : bool;
  publish : option (string -> string -> bool) }.

(** The store, the rows appended through the [Auditor], and the revocations
    handed to the event bus. *)
Record World := mkWorld {
  w_store : St;
  w_audit : list (string * string * Payload);
  w_published : list (string * string) }.

(** ** Building the exchange *)

Definition splitSpace (s : string) : list string :=
  let s := trim_space s in if is_empty s then [] else fields s.

Definition splitScope (s : string) : list string := splitSpace s.

Definition toExchangeToken (c : Claims) : Token :=
  mkToken (cTenantID c) (cSubject c) (cSessionID c) (cCallerType c) (cDelegationDepth c)
    (splitScope (cScope c)) (cAudience c) (cTyp c) (cAuthorizedTools c) (ExpiryTime c).

Definition maxExpiresInSeconds : Z := (max_int64 ÷ Second)%Z.

Definition expiresInDuration (seconds : Z) : Duration :=
  let seconds := if (maxExpiresInSeconds <? seconds)%Z then maxExpiresInSeconds else seconds in
  wrap64 (seconds * Second).

Definition requestedExp (s : Server) (req : Request) (hasActor : bool) (now : Time) : Time :=
  match ExpiresIn req with
  | Some n => time_add now (expiresInDuration n)
  | None => if hasActor then zero_time else time_add now (capabilityTokenTTL s)
  end.

(** The loop over the requested audiences. *)
Fixpoint dialect_loop (caps : gmap string Duration) (auds : list string) (applied : Duration) : Duration :=
  match auds with
  | [] => applied
  | aud :: auds =>
      match caps !! aud with
      | Some c => dialect_loop caps auds (if (applied =? 0)%Z || (c <? applied)%Z then c else applied)
      | None => dialect_loop caps auds applied
      end
  end.

Definition resolveDialectCap (s : Server) (requestedAudience : list string) (rawAudience : string) : Duration :=
  let applied := dialect_loop (perDialect s) requestedAudience 0 in
  if (applied =? 0)%Z
  then match perDialect s !! rawAudience with Some c => c | None => applied end
  else applied.

Definition buildExchangeRequest (s : Server) (req : Request) (callerClaims subjectClaims : Claims)
    (actorClaims : option Claims) (now : Time) : TokenExchange.Request :=
  let auds := splitSpace (ReqAudience req) in
  let dialectCap := resolveDialectCap s auds (ReqAudience req) in
  TokenExchange.mkRequest (toExchangeToken subjectClaims) (toExchangeToken <$> actorClaims)
    (toExchangeToken callerClaims)
    (mkToken "" "" "" "" 0 (splitScope (ReqScope req)) auds "" [] zero_time)
    (requestedExp s req (bool_decide (is_Some actorClaims)) now)
    (if (0 <? dialectCap)%Z then dialectCap else 0%Z) now.

(** ** Classification *)

Definition classifyExchangeType (i : Issued) (isRotation : bool) (actorClaims : option Claims) : string :=
  match actorClaims with
  | Some _ => exchangeTypeDelegationMint
  | None => if isRotation then exchangeTypeAdminRotation
            else if bool_decide (ITyp i = TypeSessionCapability) then exchangeTypeLeaseIssue
            else exchangeTypeScopeNarrow
  end.

Definition classifyRejectedExchangeType (r : TokenExchange.Request) : string :=
  match RActor r with
  | Some _ => exchangeTypeDelegationMint
  | None => if bool_decide (Typ (Requested r) = TypeSessionCapability) then exchangeTypeLeaseIssue
            else exchangeTypeScopeNarrow
  end.

Definition stringSet (xs : list string) : gset string :=
  list_to_set (List.filter (fun x => negb (is_empty x)) xs).

Definition sameStringSet (a b : list string) : bool :=
  let sa := stringSet a in
  let sb := stringSet b in
  if negb (bool_decide (size sa = size sb)) then false
  else bool_decide (set_Forall (fun k => k ∈ sb) sa).

Definition isSelfRotation (i : Issued) (callerClaims subjectClaims : Claims) (actorClaims : option Claims) : bool :=
  match actorClaims with
  | Some _ => false
  | None =>
      negb (is_empty (cJWTID callerClaims)) && bool_decide (cJWTID callerClaims = cJWTID subjectClaims)
      && sameStringSet (IAudience i) (cAudience subjectClaims)
      && sameStringSet (IScope i) (splitScope (cScope subjectClaims))
  end.

(** ** Audit and propagation *)

(** [Auditor.Append]: appends, or fails and appends nothing. *)
Definition audit_append (e : Env) (tenantID event : string) (p : Payload) (w : World) : World * bool :=
  if auditFails e then (w, false)
  else (mkWorld (w_store w) (w_audit w ++ [(tenantID, event, p)]) (w_published w), true).

(** The bool is [err == nil]. *)
Definition recordExchangeAudit (e : Env) (s : Server) (tenantID : string) (p : exchangeAuditPayload) (w : World) :
    World * bool :=
  if negb (hasAuditor s) || is_empty tenantID then (w, true)
  else audit_append e tenantID EventTokenExchanged (PExchanged p) w.

Definition propagateRevocation (e : Env) (tenantID jti : string) (w : World) : World * string :=
  match publish e with
  | Some pub =>
      if pub tenantID jti
      then (mkWorld (w_store w) (w_audit w) (w_published w ++ [(tenantID, jti)]), propagationModeEventBus)
      else (w, propagationModePostgresOnly)
  | None => (w, propagationModePostgresOnly)
  end.

Definition emitTokenRevoked (e : Env) (s : Server) (tenantID : string) (rt : RevokedToken) (rootJTI : string)
    (at_ : Time) (w : World) : World :=
  let reason := if IsRoot rt then revocationReasonExplicit else revocationReasonCascade in
  let cascadeRoot := if IsRoot rt then "" else rootJTI in
  let '(w, mode) := propagateRevocation e tenantID (RtJTI rt) w in
  if negb (hasAuditor s) || is_empty tenantID then w
  else (audit_append e tenantID EventTokenRevoked
          (PRevoked (mkRevokedAuditPayload (RtJTI rt) (RtSubject rt) reason cascadeRoot mode at_)) w).1.

Definition emitRotationRevoked (e : Env) (s : Server) (tenantID revokedJTI revokedSub : string) (at_ : Time)
    (w : World) : World :=
  let '(w, mode) := propagateRevocation e tenantID revokedJTI w in
  if negb (hasAuditor s) || is_empty tenantID then w
  else (audit_append e tenantID EventTokenRevoked
          (PRevoked (mkRevokedAuditPayload revokedJTI revokedSub revocationReasonRotationReplaced "" mode at_)) w).1.

(** ** Minting *)

Definition actorClaim (a : option Actor) : option ActorClaim :=
  match a with
  | None => None
  | Some a => Some (mkActorClaim (TokenExchange.ActSubject a) (ActTenantID a) (ActSessionID a) (ActDelegationDepth a))
  end.

Definition mint_claims (s : Server) (jti : string) (i : Issued) (now : Time) : Claims :=
  mkClaims (issuer s) (ISubject i) (IAudience i) (unix_of (IExp i)) (unix_of now) jti (ITenantID i)
    (ISessionID i) (ICallerType i) (IDelegationDepth i) (join " " (IScope i)) (ITyp i) (actorClaim (IAct i))
    (IAuthorizedTools i) "".

(** The jti and the signed token, or the response written instead. *)
Definition mintToken (e : Env) (s : Server) (i : Issued) (now : Time) : result Response (string * string) :=
  match newJTI e with
  | Err _ => Err (RespError 500 "server_error" "")
  | Ok jti =>
      match sign e (mint_claims s jti i now) with
      | Err _ => Err (RespError 503 "KMS_SIGNING_UNAVAILABLE" "")
      | Ok signed => Ok (jti, signed)
      end
  end.

(** ** Write before issue *)

Definition delegationLineage (actorClaims : option Claims) : string * string :=
  match actorClaims with
  | None => ("", "")
  | Some a => if is_empty (cJWTID a) then ("", "") else (cSubject a, cJWTID a)
  end.

Definition issuedRecord (e : Env) (jti : string) (i : Issued) (signed : string) (dialectCap : Duration)
    (actorClaims : option Claims) (now : Time) : IssuedToken :=
  let '(actSub, parentJTI) := delegationLineage actorClaims in
  mkIssuedToken jti (ITenantID i) (ISubject i) (sha256 e signed) (IScope i) (join " " (IAudience i)) (IAudience i)
    (float_trunc (F64.of_duration_seconds dialectCap)) now (IExp i) zero_time "" actSub parentJTI.

Definition exchangeSources (subjectClaims : Claims) (actorClaims : option Claims) : list SourceToken :=
  mkSourceToken SourceSubjectToken (cJWTID subjectClaims) ::
  match actorClaims with
  | Some a => [mkSourceToken SourceActorToken (cJWTID a)]
  | None => []
  end.

Definition with_store (w : World) (st : St) : World := mkWorld st (w_audit w) (w_published w).

(** The route to the store; [None] is a nil error. *)
Definition commitIssued (e : Env) (s : Server) (rec : IssuedToken) (sources : list SourceToken) (isRotation : bool)
    (prevJTI : string) (p : exchangeAuditPayload) (w : World) : World * option StoreError :=
  let now := PNow p in
  match issuedTokens s with
  | None => ((recordExchangeAudit e s (IssuedTokens.TenantID rec) p w).1, None)
  | Some store =>
      match (if isRotation then ts_RecordWithRotationAudit store else None), ts_RecordWithAudit store with
      | Some rotate, _ =>
          let '(st, r) := rotate rec sources prevJTI revocationReasonRotationReplaced EventTokenExchanged
                            (PExchanged p) now (w_store w) in
          let w := with_store w st in
          match r with
          | Err err => (w, Some err)
          | Ok (revokedSub, revoked) =>
              (if revoked then emitRotationRevoked e s (IssuedTokens.TenantID rec) prevJTI revokedSub now w else w,
               None)
          end
      | None, Some record =>
          let '(st, r) := record rec sources EventTokenExchanged (PExchanged p) now (w_store w) in
          (with_store w st, match r with Err err => Some err | Ok _ => None end)
      | None, None =>
          let '(st, r) := ts_Record store rec (w_store w) in
          let w := with_store w st in
          match r with
          | Err err => (w, Some err)
          | Ok _ => ((recordExchangeAudit e s (IssuedTokens.TenantID rec) p w).1, None)
          end
      end
  end.

Definition writeIssueStoreError (err : StoreError) : Response :=
  if IsUnavailable err then RespError 503 "token_store_unavailable" ""
  else RespError 500 "token_exchange_failed" "".

Definition sourceRefusalReason (err : option StoreError) : option string :=
  match err with
  | Some err => Reason err
  | None => None
  end.

Definition rejectRevokedSource (e : Env) (s : Server) (tenantID reason : string) (accepted : exchangeAuditPayload)
    (w : World) : World * Response :=
  let rejection := mkExchangeAuditPayload (ExchangeType accepted) (CallerSub accepted) (SubjectSub accepted) ""
                     (PScope accepted) (PAudience accepted) (PDelegationDepth accepted)
                     ("rejected:" +:+ reason) "invalid_grant" (PNow accepted) in
  let '(w, ok) := recordExchangeAudit e s tenantID rejection w in
  if ok then (w, RespError 400 "invalid_grant" reason) else (w, RespError 500 "token_exchange_failed" reason).

(** [None]: the record is durable. *)
Definition persistIssuedToken (e : Env) (s : Server) (jti : string) (i : Issued) (signed : string)
    (dialectCap : Duration) (callerClaims subjectClaims : Claims) (actorClaims : option Claims) (now : Time)
    (w : World) : World * option Response :=
  let rec := issuedRecord e jti i signed dialectCap actorClaims now in
  let isRotation := isSelfRotation i callerClaims subjectClaims actorClaims in
  let p := mkExchangeAuditPayload (classifyExchangeType i isRotation actorClaims) (cSubject callerClaims)
             (ISubject i) jti (IScope i) (IAudience i) (IDelegationDepth i) "accepted" "" now in
  let sources := exchangeSources subjectClaims actorClaims in
  let '(w, err) := commitIssued e s rec sources isRotation (cJWTID subjectClaims) p w in
  match sourceRefusalReason err with
  | Some reason => let '(w, r) := rejectRevokedSource e s (ITenantID i) reason p w in (w, Some r)
  | None => match err with
            | Some err => (w, Some (writeIssueStoreError err))
            | None => (w, None)
            end
  end.

Definition mapStatus (rfcCode : string) : Z :=
  if bool_decide (rfcCode = "invalid_client") then 401 else 400.

(** The issued token, or the response written instead. *)
Definition validateExchange (e : Env) (s : Server) (req : Request) (callerClaims subjectClaims : Claims)
    (exchangeReq : TokenExchange.Request) (now : Time) (w : World) : World * result Response Issued :=
  match Validate exchangeReq with
  | Ok i => (w, Ok i)
  | Err ee =>
      let '(w, ok) := recordExchangeAudit e s (cTenantID subjectClaims)
        (mkExchangeAuditPayload (classifyRejectedExchangeType exchangeReq) (cSubject callerClaims)
           (cSubject subjectClaims) "" (splitScope (ReqScope req)) (splitSpace (ReqAudience req)) 0
           ("rejected:" +:+ TokenExchange.Reason ee) (Code ee) now) w in
      if ok then (w, Err (RespError (mapStatus (Code ee)) (Code ee) (TokenExchange.Reason ee)))
      else (w, Err (RespError 500 "token_exchange_failed" (TokenExchange.Reason ee)))
  end.

Definition handleExchange (e : Env) (s : Server) (req : Request) (callerClaims subjectClaims : Claims)
    (actorClaims : option Claims) (now : Time) (w : World) : World * Response :=
  let exchangeReq := buildExchangeRequest s req callerClaims subjectClaims actorClaims now in
  let '(w, v) := validateExchange e s req callerClaims subjectClaims exchangeReq now w in
  match v with
  | Err r => (w, r)
  | Ok i =>
      match mintToken e s i now with
      | Err r => (w, r)
      | Ok (jti, signed) =>
          let '(w, bad) := persistIssuedToken e s jti i signed (PerDialectCap exchangeReq) callerClaims
                             subjectClaims actorClaims now w in
          match bad with
          | Some r => (w, r)
          | None => (w, RespToken signed (wrap64 (unix_of (IExp i) - unix_of now)) (join " " (IScope i)))
          end
      end
  end.

(** ** Revocation requests *)

Definition handleRevocationRequest (e : Env) (s : Server) (caller subject : Claims) (now : Time) (w : World) :
    World * Response :=
  if negb (bool_decide (cTenantID caller = cTenantID subject))
  then (w, RespError 403 "invalid_grant" "cross-tenant revocation is not permitted")
  else if is_empty (cJWTID subject) then (w, RespError 400 "invalid_request" "subject_token carries no jti to revoke")
  else match (match issuedTokens s with Some store => ts_RevokeCascade store | None => None end) with
       | None => (w, RespError 503 "token_store_unavailable" "")
       | Some cascade =>
           let '(st, r) := cascade (cTenantID subject) (cJWTID subject) revocationReasonExplicit
                             revocationReasonCascade now (w_store w) in
           let w := with_store w st in
           match r with
           | Err ErrNotFound => (w, RespError 400 "invalid_grant" "subject_token jti is not a known issued token")
           | Err err => (w, writeIssueStoreError err)
           | Ok revoked =>
               (foldl (fun w rt => emitTokenRevoked e s (cTenantID subject) rt (cJWTID subject) now w) w revoked,
                RespRevoked (Z.of_nat (length revoked)))
           end
       end.

(** ** The pipeline *)

Definition authenticateCaller (e : Env) (authorization : string) : result Response Claims :=
  let callerToken := match cut_prefix "Bearer " authorization with Some t => t | None => authorization end in
  if is_empty callerToken then Err (RespError 401 "invalid_client" "missing Authorization: Bearer caller token")
  else match callerVerify e callerToken with
       | Err _ => Err (RespError 401 "invalid_client" "")
       | Ok c => if bool_decide (cOrigin c = OriginPlayground)
                 then Err (RespError 401 "invalid_client" "a playground-origin token is not a caller credential")
                 else Ok c
       end.

Definition validateRequest (body : result string Request) : result Response Request :=
  match body with
  | Err _ => Err (RespError 400 "invalid_request" "")
  | Ok req =>
      if negb (bool_decide (GrantType req = grantTypeExchange))
      then Err (RespError 400 "unsupported_grant_type" (GrantType req))
      else if is_empty (SubjectToken req) then Err (RespError 400 "invalid_request" "subject_token is required")
      else match ExpiresIn req with
           | Some n => if (n <? minRequestedExpiresIn)%Z then Err (RespError 400 "invalid_request" "expires_in must be at least 60 seconds")
                       else Ok req
           | None => Ok req
           end
  end.

Definition verifyExchangeTokens (e : Env) (req : Request) : result Response (Claims * option Claims) :=
  match verify e (SubjectToken req) with
  | Err _ => Err (RespError 400 "invalid_grant" "")
  | Ok subjectClaims =>
      if is_empty (ActorToken req) then Ok (subjectClaims, None)
      else match verify e (ActorToken req) with
           | Err _ => Err (RespError 400 "invalid_grant" "")
           | Ok ac => Ok (subjectClaims, Some ac)
           end
  end.

Definition emitRateLimitAudit (e : Env) (s : Server) (tenantID subj limitTier : string) (now : Time) (w : World) :
    World :=
  if negb (hasAuditor s) || is_empty tenantID then w
  else (audit_append e tenantID EventTokenExchangeRateLimited
          (PRateLimited (mkRateLimitAuditPayload tenantID subj limitTier now)) w).1.

(** The bool: may the request go on. *)
Definition allowRateLimited (e : Env) (s : Server) (callerClaims : Claims) (now : Time) (w : World) : World * bool :=
  match rateDecision e with
  | RlAllowed => (w, true)
  | RlDenied tier sampled =>
      (if sampled then emitRateLimitAudit e s (cTenantID callerClaims) (cSubject callerClaims) tier now w else w,
       false)
  end.

Definition handle (e : Env) (s : Server) (authorization : string) (body : result string Request) (w : World) :
    World * Response :=
  if driftDegraded e then (w, RespError 503 "token_validation_unavailable" "")
  else match authenticateCaller e authorization with
  | Err r => (w, r)
  | Ok callerClaims =>
      match validateRequest body with
      | Err r => (w, r)
      | Ok req =>
          match verifyExchangeTokens e req with
          | Err r => (w, r)
          | Ok (subjectClaims, actorClaims) =>
              let '(w, allowed) := allowRateLimited e s callerClaims (clockNow e) w in
              if negb allowed then (w, RespError 429 "rate_limited" "")
              else if bool_decide (RequestedTokenType req = revokedTokenType)
              then handleRevocationRequest e s callerClaims subjectClaims (clockNow e) w
              else handleExchange e s req callerClaims subjectClaims actorClaims (clockNow e) w
          end
      end
  end.

End Service.
Arguments World St : clear implicits.
Arguments Server St : clear implicits.

(** ** The Postgres store behind the interface *)

(** The database with the connection faults the coming calls will meet. *)
Definition PgState : Type := Db Payload * list Fault.

Definition next_fault (l : list Fault) : Fault * list Fault :=
  match l with
  | [] => (NoFault, [])
  | f :: l => (f, l)
  end.

Definition pg_call {A} (call : Fault -> Db Payload -> Db Payload * result StoreError A) (st : PgState) :
    PgState * result StoreError A :=
  let '(f, rest) := next_fault st.2 in
  let '(db, r) := call f st.1 in ((db, rest), r).

Definition pg_store (clock : Time) : TokenStore PgState :=
  mkTokenStore PgState
    (fun tok => pg_call (fun f => Record_ f tok))
    (Some (fun tok sources ev p at_ => pg_call (fun f => RecordWithAudit f tok sources ev p at_)))
    (Some (fun tok sources prev reason ev p at_ =>
             pg_call (fun f => RecordWithRotationAudit f tok sources prev reason ev p at_)))
    (Some (fun tn root rr cr at_ => pg_call (fun f => RevokeCascade f clock tn root rr cr at_))).

(** ** Lemmas: the world outside the store *)

Section Frame.
Context {St : Type}.
Implicit Types (w : World St) (s : Server St).

Lemma audit_append_store e tn ev p w : w_store (audit_append e tn ev p w).1 = w_store w.
Proof. unfold audit_append. by destruct (auditFails e). Qed.

Lemma recordExchangeAudit_store e s tn p w : w_store (recordExchangeAudit e s tn p w).1 = w_store w.
Proof. unfold recordExchangeAudit. destruct (_ || _); [done|]. apply audit_append_store. Qed.

Lemma propagateRevocation_store e tn j w : w_store (propagateRevocation e tn j w).1 = w_store w.
Proof. unfold propagateRevocation. destruct (publish e) as [pub|]; [|done]. by destruct (pub tn j). Qed.

Lemma emitTokenRevoked_store e s tn rt root at_ w : w_store (emitTokenRevoked e s tn rt root at_ w) = w_store w.
Proof.
  unfold emitTokenRevoked. pose proof (propagateRevocation_store e tn (RtJTI rt) w) as H.
  destruct (propagateRevocation e tn (RtJTI rt) w) as [w1 mode]. simpl in H.
  destruct (_ || _); [done|]. by rewrite audit_append_store.
Qed.

Lemma emitRotationRevoked_store e s tn j sb at_ w : w_store (emitRotationRevoked e s tn j sb at_ w) = w_store w.
Proof.
  unfold emitRotationRevoked. pose proof (propagateRevocation_store e tn j w) as H.
  destruct (propagateRevocation e tn j w) as [w1 mode]. simpl in H.
  destruct (_ || _); [done|]. by rewrite audit_append_store.
Qed.

Lemma emit_all_store e s tn rts root at_ w :
  w_store (foldl (fun w rt => emitTokenRevoked e s tn rt root at_ w) w rts) = w_store w.
Proof.
  revert w. induction rts as [|rt rts IH]; intros w; [done|]. cbn [foldl].
  by rewrite IH, emitTokenRevoked_store.
Qed.

Lemma rejectRevokedSource_store e s tn reason p w :
  w_store (rejectRevokedSource e s tn reason p w).1 = w_store w.
Proof.
  unfold rejectRevokedSource. match goal with |- context [recordExchangeAudit e s tn ?p w] =>
    pose proof (recordExchangeAudit_store e s tn p w) as H; destruct (recordExchangeAudit e s tn p w) as [w1 b] end.
  by destruct b.
Qed.

Lemma validateExchange_store e s req c sb r now w :
  w_store (validateExchange e s req c sb r now w).1 = w_store w /\
  (forall i, (validateExchange e s req c sb r now w).2 = Ok i -> Validate r = Ok i).
Proof.
  unfold validateExchange. destruct (Validate r) as [i|ee]; [split; [done|naive_solver]|].
  match goal with |- context [recordExchangeAudit e s ?tn ?p w] =>
    pose proof (recordExchangeAudit_store e s tn p w) as H; destruct (recordExchangeAudit e s tn p w) as [w1 b] end.
  by destruct b.
Qed.

Lemma allowRateLimited_store e s c now w : w_store (allowRateLimited e s c now w).1 = w_store w.
Proof.
  unfold allowRateLimited. destruct (rateDecision e) as [|tier [|]]; try done. simpl.
  unfold emitRateLimitAudit. destruct (_ || _); [done|]. by rewrite audit_append_store.
Qed.

End Frame.

(** ** Lemmas: the calls the service makes to the store *)

Lemma pg_call_db {A} (call : Fault -> Db Payload -> Db Payload * result StoreError A) st :
  exists f, (pg_call call st).1.1 = (call f st.1).1 /\ (pg_call call st).2 = (call f st.1).2.
Proof.
  unfold pg_call. destruct (next_fault st.2) as [f rest]. exists f. by destruct (call f st.1).
Qed.

(** The parent of a recorded token is among the sources the call re-reads. *)
Lemma issuedRecord_covered e jti i signed cap sb actor now :
  covered (issuedRecord e jti i signed cap actor now) (exchangeSources sb actor).
Proof.
  unfold covered, issuedRecord, delegationLineage, exchangeSources. destruct actor as [a|]; [|by left].
  destruct (is_empty (cJWTID a)); [by left|]. right. exists (mkSourceToken SourceActorToken (cJWTID a)).
  split; [|done]. right. left.
Qed.

Definition pg_reachable (st st' : PgState) : Prop :=
  exists ops, Forall guarded ops /\ st'.1 = run ops st.1.

Lemma pg_reachable_refl st st' : st = st' -> pg_reachable st st'.
Proof. intros <-. exists []. split; [constructor|done]. Qed.

Lemma pg_reachable_op o st st' : guarded o -> st'.1 = apply_op o st.1 -> pg_reachable st st'.
Proof. intros Hg E. exists [o]. split; [by constructor|]. by rewrite E. Qed.

Lemma pg_reachable_trans st st' st'' : pg_reachable st st' -> pg_reachable st' st'' -> pg_reachable st st''.
Proof.
  intros (o1 & H1 & E1) (o2 & H2 & E2). exists (o1 ++ o2). split; [by apply Forall_app|].
  unfold run in *. by rewrite foldl_app, <- E1.
Qed.

Lemma commitIssued_pg clock e s rec sources rot prev p w :
  issuedTokens s = Some (pg_store clock) -> covered rec sources ->
  pg_reachable (w_store w) (w_store (commitIssued e s rec sources rot prev p w).1).
Proof.
  intros Hs Hc. unfold commitIssued. rewrite Hs. cbn [pg_store ts_RecordWithRotationAudit ts_RecordWithAudit].
  destruct rot.
  - set (call := fun f => RecordWithRotationAudit f rec sources prev revocationReasonRotationReplaced
                            EventTokenExchanged (PExchanged p) (PNow p)).
    destruct (pg_call_db call (w_store w)) as (f & E1 & E2).
    destruct (pg_call call (w_store w)) as [st r]. simpl in E1, E2.
    eapply (pg_reachable_op (OpRotate f rec sources prev _ _ _ _)); [exact Hc|].
    transitivity st.1; [|exact E1]. destruct r as [[sb b]|err]; [|done]. destruct b; [|done]. cbn [fst].
    by rewrite emitRotationRevoked_store.
  - set (call := fun f => RecordWithAudit f rec sources EventTokenExchanged (PExchanged p) (PNow p)).
    destruct (pg_call_db call (w_store w)) as (f & E1 & E2).
    destruct (pg_call call (w_store w)) as [st r]. simpl in E1, E2.
    eapply (pg_reachable_op (OpMint f rec sources _ _ _)); [exact Hc|].
    transitivity st.1; [by destruct r|exact E1].
Qed.

Lemma persist_pg clock e s jti i signed cap c sb actor now w :
  issuedTokens s = Some (pg_store clock) ->
  pg_reachable (w_store w) (w_store (persistIssuedToken e s jti i signed cap c sb actor now w).1).
Proof.
  intros Hs. unfold persistIssuedToken.
  match goal with |- context [commitIssued e s ?rec ?src ?rot ?prev ?p w] =>
    pose proof (commitIssued_pg clock e s rec src rot prev p w Hs (issuedRecord_covered _ _ _ _ _ _ _ _)) as H;
    destruct (commitIssued e s rec src rot prev p w) as [w1 err]; set (q := p) in * end.
  cbn [fst] in H. unfold sourceRefusalReason. destruct err as [err|]; [|done]. destruct (Reason err) as [reason|]; [|done].
  pose proof (rejectRevokedSource_store e s (ITenantID i) reason q w1) as Hr.
  destruct (rejectRevokedSource e s (ITenantID i) reason q w1) as [w2 r]. cbn [fst] in *. by rewrite Hr.
Qed.

Lemma handleExchange_pg clock e s req c sb actor now w :
  issuedTokens s = Some (pg_store clock) ->
  pg_reachable (w_store w) (w_store (handleExchange e s req c sb actor now w).1).
Proof.
  intros Hs. unfold handleExchange.
  set (r := buildExchangeRequest s req c sb actor now).
  destruct (validateExchange_store e s req c sb r now w) as [Hv _].
  destruct (validateExchange e s req c sb r now w) as [w1 [i|resp]]; cbn [fst snd] in *.
  2: { by apply pg_reachable_refl. }
  destruct (mintToken e s i now) as [[jti signed]|resp]; [|by apply pg_reachable_refl].
  pose proof (persist_pg clock e s jti i signed (PerDialectCap r) c sb actor now w1 Hs) as Hp.
  destruct (persistIssuedToken e s jti i signed (PerDialectCap r) c sb actor now w1) as [w2 bad].
  cbn [fst] in Hp. rewrite Hv in Hp. by destruct bad.
Qed.

Lemma handleRevocation_pg clock e s c sb now w :
  issuedTokens s = Some (pg_store clock) ->
  pg_reachable (w_store w) (w_store (handleRevocationRequest e s c sb now w).1) /\
  (forall n, (handleRevocationRequest e s c sb now w).2 = RespRevoked n ->
     dead (tokens (w_store (handleRevocationRequest e s c sb now w).1).1) (cTenantID sb) (cJWTID sb)).
Proof.
  intros Hs. unfold handleRevocationRequest. rewrite Hs.
  destruct (negb _); [split; [by apply pg_reachable_refl|done]|].
  destruct (is_empty _); [split; [by apply pg_reachable_refl|done]|].
  cbn [pg_store ts_RevokeCascade].
  set (call := fun f => RevokeCascade f clock (cTenantID sb) (cJWTID sb) revocationReasonExplicit
                          revocationReasonCascade now).
  destruct (pg_call_db call (w_store w)) as (f & E1 & E2).
  destruct (pg_call call (w_store w)) as [st r]. simpl in E1, E2.
  assert (pg_reachable (w_store w) st) as Hreach.
  { by eapply (pg_reachable_op (OpRevokeCascade f clock _ _ _ _ _)). }
  destruct r as [out|err].
  - cbn [fst snd]. rewrite emit_all_store. cbn [with_store w_store]. split; [done|]. intros _ _.
    eapply (cascade_dead f clock _ _ _ _ _ (w_store w).1 _ out). unfold call in E1, E2.
    rewrite E1, E2. apply surjective_pairing.
  - destruct err; (split; [exact Hreach|]; cbn [snd]; unfold writeIssueStoreError; by repeat case_match).
Qed.

Lemma handle_pg clock e s auth body w :
  issuedTokens s = Some (pg_store clock) ->
  pg_reachable (w_store w) (w_store (handle e s auth body w).1).
Proof.
  intros Hs. unfold handle. destruct (driftDegraded e); [by apply pg_reachable_refl|].
  destruct (authenticateCaller e auth) as [c|]; [|by apply pg_reachable_refl].
  destruct (validateRequest body) as [req|]; [|by apply pg_reachable_refl].
  destruct (verifyExchangeTokens e req) as [[sb actor]|]; [|by apply pg_reachable_refl].
  pose proof (allowRateLimited_store e s c (clockNow e) w) as Ha.
  destruct (allowRateLimited e s c (clockNow e) w) as [w1 ok]. cbn [fst] in Ha. rewrite <- Ha.
  destruct ok; cbn [negb]; [|by apply pg_reachable_refl].
  case_bool_decide; [by apply (handleRevocation_pg clock)|by apply (handleExchange_pg clock)].
Qed.

(** ** Lemmas: which stage answers what *)

Lemma authenticate_not_revoked e auth n : authenticateCaller e auth <> Err (RespRevoked n).
Proof. unfold authenticateCaller. cbn zeta. repeat case_match; congruence. Qed.

Lemma validateRequest_not_revoked body n : validateRequest body <> Err (RespRevoked n).
Proof. unfold validateRequest. repeat case_match; congruence. Qed.

Lemma validateRequest_same req req' : validateRequest (Ok req) = Ok req' -> req' = req.
Proof. unfold validateRequest. repeat case_match; congruence. Qed.

Lemma verify_not_revoked e req n : verifyExchangeTokens e req <> Err (RespRevoked n).
Proof. unfold verifyExchangeTokens. repeat case_match; congruence. Qed.

Lemma verify_subject e req sc sb actor : verify e (SubjectToken req) = Ok sc ->
  verifyExchangeTokens e req = Ok (sb, actor) -> sb = sc.
Proof. unfold verifyExchangeTokens. intros ->. repeat case_match; congruence. Qed.

Lemma handleExchange_not_revoked {St} e (s : Server St) req c sb actor now w w' n :
  handleExchange e s req c sb actor now w <> (w', RespRevoked n).
Proof.
  unfold handleExchange, validateExchange, mintToken, persistIssuedToken, rejectRevokedSource, writeIssueStoreError.
  intros H. repeat (case_match; simplify_eq).
Qed.

(** ** Requests that overlap *)

(** The state of the service beside the mints in flight: those whose issuing
    transaction has re-read its sources and not yet committed.  Requests are
    served whole, or their issuing transaction is split where revocations, which
    do not take its lock, can commit: at the re-read and at the write. *)
Inductive overlap {clock : Time} (s : Server PgState) : World PgState * list IssuedToken -> World PgState * list IssuedToken -> Prop :=
| ov_request e auth body w I : overlap s (w, I) ((handle e s auth body w).1, I)
| ov_recheck tok sources w I :
    covered tok sources -> Race.mint_recheck tok sources (w_store w).1 = Ok ((w_store w).1, tt) ->
    overlap s (w, I) (w, tok :: I)
| ov_mint tok event payload at_ db w I1 I2 :
    Race.mint_write tok event payload at_ (w_store w).1 = Ok (db, tt) ->
    overlap s (w, I1 ++ tok :: I2) (with_store w (db, (w_store w).2), I1 ++ I2)
| ov_rotate tok prev reason event payload at_ db db' x w I1 I2 :
    Race.mint_write tok event payload at_ (w_store w).1 = Ok (db, tt) ->
    revokePrevious (IssuedTokens.TenantID tok) prev reason at_ db = Ok (db', x) ->
    overlap s (w, I1 ++ tok :: I2) (with_store w (db', (w_store w).2), I1 ++ I2)
| ov_abort tok w I1 I2 : overlap s (w, I1 ++ tok :: I2) (w, I1 ++ I2)
| ov_call o w : guarded o -> forall I, overlap s (w, I) (with_store w (apply_op o (w_store w).1, (w_store w).2), I).

Lemma mint_write_grows J tn root tok event payload at_ (db db' : Db Payload) u :
  outside J (tokens db) tn root tok -> Race.mint_write tok event payload at_ db = Ok (db', u) ->
  grows_but J tn root (tokens db) (tokens db').
Proof.
  intros Ho E. unfold Race.mint_write in E. apply tx_bind_Ok in E as (d & ? & (Et & _)%AppendInTx_Ok & E).
  rewrite <- Et in Ho |- *. by eapply insert_grows.
Qed.

Definition contained (J : list string) tn root (x : World PgState * list IssuedToken) : Prop :=
  dead_but J (tokens (w_store x.1).1) tn root /\ Forall (outside J (tokens (w_store x.1).1) tn root) x.2.

Lemma contained_grows J tn root w w' I : grows_but J tn root (tokens (w_store w).1) (tokens (w_store w').1) ->
  contained J tn root (w, I) -> contained J tn root (w', I).
Proof.
  intros Hg [Hd Ho]. split; [by eapply dead_but_grows|]. eapply Forall_impl; [exact Ho|]. intros tok. by apply outside_grows.
Qed.

Lemma contained_ops J tn root w w' ops I : Forall guarded ops -> (w_store w').1 = run ops (w_store w).1 ->
  contained J tn root (w, I) -> contained J tn root (w', I).
Proof.
  intros Hg E [Hd Ho]. unfold contained in *. cbn [fst snd] in *. change (dead_but J (tokens (w_store w').1) tn root /\ Forall (outside J (tokens (w_store w').1) tn root) I). rewrite E. split.
  - by apply (run_dead_but J tn root ops (w_store w).1 (mkIssuedToken "" "" "" "" [] "" [] 0 0 0 0 "" "" "")).
  - eapply Forall_impl; [exact Ho|]. intros tok. by apply run_dead_but.
Qed.

Lemma contained_drop J tn root w I1 tok I2 : contained J tn root (w, I1 ++ tok :: I2) -> contained J tn root (w, I1 ++ I2) /\
  outside J (tokens (w_store w).1) tn root tok.
Proof. intros [Hd Ho]. cbn in Ho. apply Forall_app in Ho as [H1 [Ht H2]%Forall_cons]. split; [|done]. split; [done|]. by apply Forall_app. Qed.

Lemma overlap_contained clock s J tn root x x' : issuedTokens s = Some (pg_store clock) ->
  overlap (clock := clock) s x x' -> contained J tn root x -> contained J tn root x'.
Proof.
  intros Hs Hst Hc. destruct Hst as [e auth body w I|tok srcs w I Hcov Hr|tok ev p at_ db w I1 I2 Hw|tok prev reason ev p at_ db db' x w I1 I2 Hw Hp|tok w I1 I2|o w Hg I].
  - destruct (handle_pg clock e s auth body w Hs) as (ops & Hg & E). by eapply contained_ops.
  - destruct Hc as [Hd Ho]. split; [done|]. apply Forall_cons. split; [|done]. by eapply recheck_outside.
  - apply contained_drop in Hc as [Hc Ht]. eapply contained_grows; [|exact Hc]. by eapply mint_write_grows.
  - apply contained_drop in Hc as [Hc Ht]. apply (contained_grows _ _ _ w (with_store w (db, (w_store w).2))) in Hc; [|by eapply mint_write_grows].
    eapply contained_grows; [|exact Hc]. apply extends_grows; [by destruct Hc|]. by apply (revokePrevious_Ok tn) in Hp as [? _].
  - by apply contained_drop in Hc as [Hc _].
  - eapply (contained_ops _ _ _ w _ [o]); [by constructor|done|exact Hc].
Qed.

(** C6. A recursive revocation answered with success is final, end to end:
    once the service has answered a revocation request, then whatever requests
    follow (exchanges, delegation mints, rotations, revocations, by any caller,
    with any connection faults, signer or audit failures) and however their
    issuing transactions overlap, the subject token of the revocation and every
    token that descends from it are revoked and stay so, but for the tokens
    whose mint was in flight at the revocation, between its re-read and its
    commit, and what is minted below those; without such a mint there is no
    exception. *)
Theorem revocation_is_final clock s e auth req sc w w' n inflight w2 inflight2 :
  issuedTokens s = Some (pg_store clock) ->
  verify e (SubjectToken req) = Ok sc ->
  handle e s auth (Ok req) w = (w', RespRevoked n) ->
  rtc (overlap (clock := clock) s) (w', inflight) (w2, inflight2) ->
  dead_but (JTI <$> inflight) (tokens (w_store w2).1) (cTenantID sc) (cJWTID sc) /\
  (inflight = [] -> dead (tokens (w_store w2).1) (cTenantID sc) (cJWTID sc)).
Proof.
  intros Hs Hv H Hrun.
  assert (dead (tokens (w_store w').1) (cTenantID sc) (cJWTID sc)) as Hd.
  { revert H. unfold handle. destruct (driftDegraded e); [done|].
    destruct (authenticateCaller e auth) as [c|r] eqn:Eauth; [|intros [= _ ->]; by apply authenticate_not_revoked in Eauth].
    destruct (validateRequest (Ok req)) as [req'|r] eqn:Ereq; [|intros [= _ ->]; by apply validateRequest_not_revoked in Ereq].
    apply validateRequest_same in Ereq as ->.
    destruct (verifyExchangeTokens e req) as [[sb actor]|r] eqn:Ever; [|intros [= _ ->]; by apply verify_not_revoked in Ever].
    assert (sb = sc) as -> by (by eapply verify_subject).
    destruct (allowRateLimited e s c (clockNow e) w) as [w1 ok]. destruct ok; cbn [negb]; [|done].
    case_bool_decide as Hk; intros H; [|by apply handleExchange_not_revoked in H].
    destruct (handleRevocation_pg clock e s c sc (clockNow e) w1 Hs) as [_ Hd]. rewrite H in Hd. by apply (Hd n). }
  assert (contained (JTI <$> inflight) (cTenantID sc) (cJWTID sc) (w2, inflight2)) as [Hc _].
  { assert (contained (JTI <$> inflight) (cTenantID sc) (cJWTID sc) (w', inflight)) as H0.
    { split; [by apply dead_dead_but|]. apply Forall_forall. intros tok Hin. left. by apply list_elem_of_fmap_2. }
    revert H0. clear -Hs Hrun. induction Hrun as [|x y z Hst _ IH]; [done|]. intros Hx. by apply IH, (overlap_contained clock s _ _ _ x). }
  split; [done|]. intros ->. by apply dead_but_none.
Qed.

(** A small deployment: tokens are named by their jti, [acme] holds them all. *)
Definition ex_claims (jti scp : string) : Claims :=
  mkClaims "lenny" "alice" ["lenny-gateway"] 2000 1000 jti "acme" "" "human" 0 scp "user_bearer" None [] "".

Definition ex_env : Env :=
  mkEnv false (fun t => Ok (ex_claims t "")) (fun t => Ok (ex_claims t "tools:pool:read tools:me:read"))
    RlAllowed (time_unix 1000) (Ok "j7") (fun c => Ok ("signed:" +:+ cJWTID c)) (fun x => "sha:" +:+ x) false
    (Some (fun _ _ => true)).

Definition ex_server : Server PgState :=
  mkServer "lenny" (<["lenny-gateway" := (300 * Second)%Z]> ∅) (Some (pg_store 0)) (900 * Second)%Z true.

Definition ex_rows : Db Payload :=
  mkDb (list_to_map [("j1", ex_row None); ("j2", ex_row (Some "j1")); ("j9", ex_row None)]) [].

Definition ex_world : World PgState := mkWorld (ex_rows, []) [] [].

Definition ex_revoke : Request := mkRequest grantTypeExchange "j1" "" revokedTokenType "" "" None.
Definition ex_delegate : Request :=
  mkRequest grantTypeExchange "j9" "j2" "" "tools:pool:read" "lenny-gateway" None.

Definition ex_revoked : World PgState := (handle ex_env ex_server "Bearer j9" (Ok ex_revoke) ex_world).1.

(** A mint from the child [j2] that had re-read it before the revocation. *)
Definition ex_late : IssuedToken :=
  mkIssuedToken "j4" "acme" "alice" "sha:x" [] "lenny-gateway" [] 0 1000 2000 0 "" "" "j2".
Definition ex_payload : Payload := PExchanged (mkExchangeAuditPayload "" "" "" "j4" [] [] 1 "" "" 8).
Definition ex_written : World PgState :=
  with_store ex_revoked (match Race.mint_write ex_late "token.exchanged" ex_payload 8 (w_store ex_revoked).1 with
                         | Ok (db, _) => db | Err _ => (w_store ex_revoked).1 end, (w_store ex_revoked).2).

(** After revoking [j1], the delegation mint from its child [j2] is refused; the
    mint that was in flight is recorded, and is the only exception. *)
Lemma revocation_is_final_witness :
  dead (tokens (w_store (handle ex_env ex_server "Bearer j9" (Ok ex_delegate) ex_revoked).1).1) "acme" "j1" /\
  (handle ex_env ex_server "Bearer j9" (Ok ex_delegate) ex_revoked).2 = RespError 400 "invalid_grant" "actor_token_revoked" /\
  dead_but ["j4"] (tokens (w_store ex_written).1) "acme" "j1".
Proof.
  assert (handle ex_env ex_server "Bearer j9" (Ok ex_revoke) ex_world = (ex_revoked, RespRevoked 2)) as E by (vm_compute; reflexivity).
  split_and!; [|vm_compute; reflexivity|].
  - refine (proj2 (revocation_is_final 0 ex_server ex_env "Bearer j9" ex_revoke (ex_claims "j1" "tools:pool:read tools:me:read")
             ex_world ex_revoked 2 [] _ [] eq_refl eq_refl E _) eq_refl).
    apply rtc_once. apply ov_request.
  - refine (proj1 (revocation_is_final 0 ex_server ex_env "Bearer j9" ex_revoke (ex_claims "j1" "tools:pool:read tools:me:read")
             ex_world ex_revoked 2 [ex_late] ex_written [] eq_refl eq_refl E _)).
    apply rtc_once. apply (ov_mint ex_server ex_late "token.exchanged" ex_payload 8 _ ex_revoked [] []). vm_compute. reflexivity.
Defined.

(** ** Write before issue, against the interface *)

(** What the service relies on from a store with audited issuing: a call that
    succeeds has made the row and its audit row durable, and had found every
    recorded source unrevoked. *)
Class AuditedStore {St} (store : TokenStore St) := {
  durable : St -> IssuedToken -> Prop;
  audited : St -> string -> string -> Payload -> Prop;
  source_live : St -> string -> string -> Prop;
  as_record : IssuedToken -> list SourceToken -> string -> Payload -> Time -> St -> St * result StoreError unit;
  as_rotate : IssuedToken -> list SourceToken -> string -> string -> string -> Payload -> Time -> St ->
              St * result StoreError (string * bool);
  as_record_eq : ts_RecordWithAudit store = Some as_record;
  as_rotate_eq : ts_RecordWithRotationAudit store = Some as_rotate;
  as_record_ok : forall tok sources ev p at_ st st' u,
    RevokedAt tok = 0%Z -> as_record tok sources ev p at_ st = (st', Ok u) ->
    durable st' tok /\ audited st' (IssuedTokens.TenantID tok) ev p /\
    (forall src, src ∈ sources -> SrcJTI src <> "" -> source_live st (IssuedTokens.TenantID tok) (SrcJTI src));
  as_rotate_ok : forall tok sources prev reason ev p at_ st st' u,
    RevokedAt tok = 0%Z -> JTI tok <> prev -> as_rotate tok sources prev reason ev p at_ st = (st', Ok u) ->
    durable st' tok /\ audited st' (IssuedTokens.TenantID tok) ev p /\
    (forall src, src ∈ sources -> SrcJTI src <> "" -> source_live st (IssuedTokens.TenantID tok) (SrcJTI src)) }.

(** The Postgres store keeps the promise. *)
Definition pg_durable (st : PgState) (tok : IssuedToken) : Prop :=
  exists r, tokens st.1 !! JTI tok = Some r /\ tenant_id r = IssuedTokens.TenantID tok /\
    token_hash r = TokenHash tok /\ exp r = ExpiresAt tok /\ revoked_at r = None.

Definition pg_audited (st : PgState) (tn ev : string) (p : Payload) : Prop :=
  exists at_, mkAuditRow tn ev p at_ ∈ audit_log st.1.

Definition pg_source_live (st : PgState) (tn j : string) : Prop :=
  forall r, visible (tokens st.1) tn j = Some r -> revoked_at r = None.

Lemma pg_call_Ok {A} (c : Fault -> Db Payload -> Db Payload * result StoreError A) st st' a :
  pg_call c st = (st', Ok a) -> exists f, c f st.1 = (st'.1, Ok a).
Proof.
  intros H. destruct (pg_call_db c st) as (f & E1 & E2). exists f. rewrite H in E1, E2. simpl in *.
  rewrite E1, E2. apply surjective_pairing.
Qed.

Lemma InTx_Ok {A} f tn (fn : Tx Payload A) db db' a : InTx f tn fn db = (db', Ok a) -> fn db = Ok (db', a).
Proof. intros H. destruct (InTx_cases f tn fn db) as [_ HO]. rewrite H in HO. by apply HO. Qed.

#[export, program] Instance pg_audited_store clock : AuditedStore (pg_store clock) := {|
  durable := pg_durable;
  audited := pg_audited;
  source_live := pg_source_live;
  as_record tok sources ev p at_ := pg_call (fun f => RecordWithAudit f tok sources ev p at_);
  as_rotate tok sources prev reason ev p at_ :=
    pg_call (fun f => RecordWithRotationAudit f tok sources prev reason ev p at_) |}.
Next Obligation. done. Qed.
Next Obligation. done. Qed.
Next Obligation.
  intros clock tok sources ev p at_ st st' u H0 [f H]%pg_call_Ok.
  apply InTx_Ok, tx_bind_Ok in H as (d1 & ? & (-> & Hs)%recheck_Ok & E).
  apply tx_bind_Ok in E as (d2 & ? & (Et & Ea)%AppendInTx_Ok & E).
  apply insertIssued_Ok in E as (Hn & Ea2 & r & Er & Htn & _ & Hh & _ & He & Hrev & _).
  rewrite H0 in Hrev. split_and!.
  - exists r. rewrite Er, lookup_insert_eq. done.
  - exists at_. rewrite Ea2, Ea. apply elem_of_app. right. left.
  - intros src Hin Hne r' Hv. by eapply Hs.
Qed.
Next Obligation.
  intros clock tok sources prev reason ev p at_ st st' u H0 Hfresh [f H]%pg_call_Ok.
  apply InTx_Ok, tx_bind_Ok in H as (d1 & ? & (-> & Hs)%recheck_Ok & E).
  apply tx_bind_Ok in E as (d2 & ? & (Et & Ea)%AppendInTx_Ok & E).
  apply tx_bind_Ok in E as (d3 & ? & (Hn & Ea2 & r & Er & Htn & _ & Hh & _ & He & Hrev & _)%insertIssued_Ok & E).
  rewrite H0 in Hrev. pose proof (revokePrevious_Ok "" _ _ _ _ _ _ _ E) as [_ Ea3]. split_and!.
  - exists r. unfold revokePrevious in E. destruct (visible (tokens d3) _ prev) as [rp|].
    + destruct (revoked_at rp); [done|]. injection E as <- _. cbn [tokens].
      by rewrite lookup_insert_ne, Er, lookup_insert_eq.
    + injection E as <- _. by rewrite Er, lookup_insert_eq.
  - exists at_. rewrite Ea3, Ea2, Ea. apply elem_of_app. right. left.
  - intros src Hin Hne r' Hv. by eapply Hs.
Qed.

Lemma issuedRecord_fields e jti i signed cap actor now :
  let rec := issuedRecord e jti i signed cap actor now in
  JTI rec = jti /\ IssuedTokens.TenantID rec = ITenantID i /\ TokenHash rec = sha256 e signed /\
  ExpiresAt rec = IExp i /\ RevokedAt rec = 0%Z.
Proof. unfold issuedRecord. by destruct (delegationLineage actor). Qed.

Section WriteBeforeIssue.
Context {St : Type} (store : TokenStore St) `{!AuditedStore store}.
Implicit Types (w : World St) (s : Server St).

Lemma commitIssued_durable e s rec sources rot prev p w w' :
  issuedTokens s = Some store -> RevokedAt rec = 0%Z -> JTI rec <> prev ->
  commitIssued e s rec sources rot prev p w = (w', None) ->
  durable (w_store w') rec /\
  audited (w_store w') (IssuedTokens.TenantID rec) EventTokenExchanged (PExchanged p) /\
  (forall src, src ∈ sources -> SrcJTI src <> "" ->
     source_live (w_store w) (IssuedTokens.TenantID rec) (SrcJTI src)).
Proof.
  intros Hs H0 Hf. unfold commitIssued. rewrite Hs, as_record_eq, as_rotate_eq. destruct rot.
  - destruct (as_rotate rec sources prev _ _ _ _ (w_store w)) as [st [[sb b]|err]] eqn:E; [|done].
    intros [= <-]. assert (w_store (if b then emitRotationRevoked e s (IssuedTokens.TenantID rec) prev sb (PNow p)
      (with_store w st) else with_store w st) = st) as ->.
    { destruct b; [|done]. by rewrite emitRotationRevoked_store. }
    by apply as_rotate_ok in E.
  - destruct (as_record rec sources _ _ _ (w_store w)) as [st [u|err]] eqn:E; [|done].
    intros [= <-]. by apply as_record_ok in E.
Qed.

Lemma handleExchange_token e s req c sb actor now w w' tok n scp :
  handleExchange e s req c sb actor now w = (w', RespToken tok n scp) ->
  exists i jti w1, Validate (buildExchangeRequest s req c sb actor now) = Ok i /\
    newJTI e = Ok jti /\ sign e (mint_claims s jti i now) = Ok tok /\ w_store w1 = w_store w /\
    scp = join " " (IScope i) /\
    persistIssuedToken e s jti i tok (PerDialectCap (buildExchangeRequest s req c sb actor now)) c sb actor now w1 =
      (w', None).
Proof.
  unfold handleExchange. set (r := buildExchangeRequest s req c sb actor now).
  destruct (validateExchange_store e s req c sb r now w) as [Hv Hok].
  destruct (validateExchange e s req c sb r now w) as [w1 [i|resp]] eqn:Ev; cbn [fst snd] in *.
  2: { intros [= -> ->]. revert Ev. unfold validateExchange. repeat case_match; congruence. }
  unfold mintToken. destruct (newJTI e) as [jti|]; [|done].
  destruct (sign e (mint_claims s jti i now)) as [signed|] eqn:Es; [|done].
  destruct (persistIssuedToken e s jti i signed (PerDialectCap r) c sb actor now w1) as [w2 [resp|]] eqn:Ep.
  - intros [= -> ->]. revert Ep. unfold persistIssuedToken, rejectRevokedSource, writeIssueStoreError.
    repeat case_match; congruence.
  - intros [= <- <- <- <-]. exists i, jti, w1. rewrite Es. split_and!; try done. by apply Hok.
Qed.

Lemma handleRevocation_no_token e s c sb now w w' tok n scp :
  handleRevocationRequest e s c sb now w <> (w', RespToken tok n scp).
Proof.
  unfold handleRevocationRequest, writeIssueStoreError. intros H. repeat (case_match; simplify_eq).
Qed.

(** C5. No token without a durable record.  If the endpoint answers with a
    token, then the validator accepted the exchange, the token is the
    signature over the claims of the issued token with a fresh identifier,
    and the store already holds, durable, the live row with the token's
    digest, tenant and expiry together with the audit row that names it as
    accepted; when the row was committed, the subject token and the actor
    token, where recorded, were not revoked.  This holds for every store that
    keeps the interface's promise, whatever else fails, provided the fresh
    identifier is not the subject's own. *)
Theorem write_before_issue e s auth req sc w w' tok n scp :
  issuedTokens s = Some store ->
  verify e (SubjectToken req) = Ok sc -> newJTI e <> Ok (cJWTID sc) ->
  handle e s auth (Ok req) w = (w', RespToken tok n scp) ->
  exists r i jti rec p,
    Validate r = Ok i /\ RSubject r = toExchangeToken sc /\
    newJTI e = Ok jti /\ sign e (mint_claims s jti i (clockNow e)) = Ok tok /\
    JTI rec = jti /\ IssuedTokens.TenantID rec = ITenantID i /\ TokenHash rec = sha256 e tok /\
    ExpiresAt rec = IExp i /\ durable (w_store w') rec /\
    PolicyResult p = "accepted" /\ PJTI p = jti /\
    audited (w_store w') (ITenantID i) EventTokenExchanged (PExchanged p) /\
    (cJWTID sc <> "" -> source_live (w_store w) (ITenantID i) (cJWTID sc)) /\
    (forall ac, ActorToken req <> "" -> verify e (ActorToken req) = Ok ac -> cJWTID ac <> "" ->
       source_live (w_store w) (ITenantID i) (cJWTID ac)).
Proof.
  intros Hs Hv Hj. unfold handle. destruct (driftDegraded e); [done|].
  destruct (authenticateCaller e auth) as [c|r] eqn:Eauth.
  2: { intros [= -> ->]. revert Eauth. unfold authenticateCaller. cbn zeta. repeat case_match; congruence. }
  destruct (validateRequest (Ok req)) as [req'|r] eqn:Ereq.
  2: { intros [= -> ->]. revert Ereq. unfold validateRequest. repeat case_match; congruence. }
  apply validateRequest_same in Ereq as ->.
  destruct (verifyExchangeTokens e req) as [[sb actor]|r] eqn:Ever.
  2: { intros [= -> ->]. revert Ever. unfold verifyExchangeTokens. repeat case_match; congruence. }
  assert (sb = sc) as -> by (by eapply verify_subject).
  pose proof (allowRateLimited_store e s c (clockNow e) w) as Ha.
  destruct (allowRateLimited e s c (clockNow e) w) as [w1 ok]. cbn [fst] in Ha. destruct ok; cbn [negb]; [|done].
  case_bool_decide as Hk; intros H; [by apply handleRevocation_no_token in H|].
  apply handleExchange_token in H as (i & jti & w2 & Hval & Hn & Hsign & Hw2 & _ & Hp).
  unfold persistIssuedToken in Hp.
  match type of Hp with context [commitIssued e s ?rec ?src ?rot ?prev ?p w2] =>
    destruct (commitIssued e s rec src rot prev p w2) as [w3 err] eqn:Ec; set (rec0 := rec) in *; set (p0 := p) in * end.
  unfold sourceRefusalReason in Hp. destruct err as [err|]; [by repeat case_match|]. injection Hp as ->.
  destruct (issuedRecord_fields e jti i tok (PerDialectCap (buildExchangeRequest s req c sc actor (clockNow e)))
              actor (clockNow e)) as (Fj & Ft & Fh & Fe & Fr).
  fold rec0 in Fj, Ft, Fh, Fe, Fr.
  apply commitIssued_durable in Ec as (Hd & Hau & Hsrc); [|done|done|by rewrite Fj; intros ->].
  rewrite Ft in Hau, Hsrc.
  rewrite Hw2, Ha in Hsrc. exists (buildExchangeRequest s req c sc actor (clockNow e)), i, jti, rec0, p0.
  split_and!; try done.
  - intros Hne. apply (Hsrc (mkSourceToken SourceSubjectToken (cJWTID sc))); [left|done].
  - intros ac Hne Hac Hjne. apply (Hsrc (mkSourceToken SourceActorToken (cJWTID ac))); [|done].
    revert Ever. unfold verifyExchangeTokens. rewrite Hv, (is_empty_false _ Hne), Hac.
    intros [= <-]. right. left.
Qed.

End WriteBeforeIssue.

(** The delegation mint of the example, before anything is revoked. *)
Definition ex_minted := handle ex_env ex_server "Bearer j9" (Ok ex_delegate) ex_world.

Lemma write_before_issue_witness :
  exists rec, JTI rec = "j7" /\ pg_durable (w_store ex_minted.1) rec /\ TokenHash rec = "sha:signed:j7".
Proof.
  destruct (write_before_issue (pg_store 0) ex_env ex_server "Bearer j9" ex_delegate
              (ex_claims "j9" "tools:pool:read tools:me:read") ex_world ex_minted.1 "signed:j7" 300 "tools:pool:read"
              eq_refl eq_refl ltac:(discriminate) ltac:(vm_compute; reflexivity))
    as (r & i & jti & rec & p & _ & _ & Hj & Hs & HJ & _ & Hh & _ & Hd & _).
  vm_compute in Hj. injection Hj as <-. exists rec. split; [exact HJ|]. split; [exact Hd|]. exact Hh.
Defined.

(** ** The scope claim of an issued token *)

Lemma splitScope_fields s : splitScope s = [] \/ splitScope s = fields (trim_space s).
Proof. unfold splitScope, splitSpace. cbn zeta. destruct (is_empty (trim_space s)); auto. Qed.

(** The scope claim an accepted exchange signs, read by the rules every
    enforcement point uses.  If the request names scopes, the claim parses
    whenever the subject's does, is present, and permits nothing the subject's
    claim does not permit.  If the request names no scope, the claim is the
    empty string, which those rules read as the absent claim: the issued
    token is not restricted by scope at all, however narrow the subject was. *)
Theorem exchange_scope_claim {St} (s : Server St) req c sb actor now i jti :
  Validate (buildExchangeRequest s req c sb actor now) = Ok i ->
  let claim := cScope (mint_claims s jti i now) in
  (splitScope (ReqScope req) <> [] -> forall ss, Parse (cScope sb) = Ok ss ->
     exists m, Parse claim = Ok m /\ Present m = true /\ forall r, Matches m r = true -> Matches ss r = true) /\
  (splitScope (ReqScope req) = [] ->
     claim = "" /\ exists m, Parse claim = Ok m /\ forall r, Matches m r = true).
Proof.
  intros (_ & _ & _ & _ & _ & Hs & _ & _ & _ & _ & _ & ->)%Validate_inv. cbn.
  rewrite isSubset_spec in Hs. cbn in Hs. split.
  - intros Hne ss Hss. apply (Parse_narrower (cScope sb)); [done|done|]. intros t Ht.
    apply Hs in Ht. destruct (splitScope_fields (cScope sb)) as [E|E]; rewrite E in Ht; [|done].
    by apply elem_of_nil in Ht.
  - intros ->. split; [done|]. exists (mkSet "" []). split; [vm_compute; reflexivity|done].
Qed.

Definition ex_unscoped : Request := mkRequest grantTypeExchange "j9" "" "" "" "lenny-gateway" None.

Definition ex_unscoped_issued : Issued :=
  mkIssued "acme" "alice" "" "human" 0 [] ["lenny-gateway"] "user_bearer" [] (time_unix 1300) None.

(** Exchanging a token limited to reading pools and itself, without naming a
    scope, yields a token whose claim permits writing credentials. *)
Lemma exchange_scope_claim_witness :
  (exists ss, Parse "tools:pool:read tools:me:read" = Ok ss /\ Matches ss "tools:credential:write" = false) /\
  (exists m, Parse (cScope (mint_claims ex_server "j7" ex_unscoped_issued (time_unix 1000))) = Ok m /\
     Matches m "tools:credential:write" = true).
Proof.
  split; [eexists; split; vm_compute; reflexivity|].
  destruct (exchange_scope_claim ex_server ex_unscoped (ex_claims "j9" "")
              (ex_claims "j9" "tools:pool:read tools:me:read") None (time_unix 1000) ex_unscoped_issued "j7"
              ltac:(vm_compute; reflexivity)) as [_ H].
  destruct (H ltac:(vm_compute; reflexivity)) as (_ & m & Hm & Hall). exists m. split; [exact Hm|]. apply Hall.
Defined.

(** ** The lifetime of an issued token *)

Lemma dialect_loop_le caps auds applied :
  (forall a c, caps !! a = Some c -> (0 < c)%Z) -> (0 <= applied)%Z ->
  (0 <= dialect_loop caps auds applied)%Z /\
  (applied <> 0%Z -> 0 < dialect_loop caps auds applied <= applied)%Z /\
  (forall a c, a ∈ auds -> caps !! a = Some c -> 0 < dialect_loop caps auds applied <= c)%Z.
Proof.
  intros Hp. revert applied. induction auds as [|x auds IH]; intros applied Ha; cbn [dialect_loop].
  { split_and!; [done|lia|]. intros a c H. by apply elem_of_nil in H. }
  destruct (caps !! x) as [cx|] eqn:Ex.
  - pose proof (Hp _ _ Ex) as Hcx.
    set (ap := if ((applied =? 0)%Z || (cx <? applied)%Z) then cx else applied).
    assert (0 < ap <= cx /\ (applied <> 0 -> ap <= applied))%Z as [Hap Hap'].
    { subst ap. destruct (Z.eqb_spec applied 0); [simpl; lia|]. destruct (Z.ltb_spec cx applied); simpl; lia. }
    destruct (IH ap ltac:(lia)) as (I1 & I2 & I3). split_and!; [done|lia|].
    intros a c Hin Hc. apply elem_of_cons in Hin as [->|Hin]; [|by eapply I3].
    rewrite Ex in Hc. injection Hc as <-. lia.
  - destruct (IH applied Ha) as (I1 & I2 & I3). split_and!; [done|done|].
    intros a c Hin Hc. apply elem_of_cons in Hin as [->|Hin]; [congruence|]. by eapply I3.
Qed.

(** The lifetime of an issued token.  With positive per-dialect caps, an
    accepted exchange issues a token that expires no later than the cap of
    each audience it carries that has one, no later than the requested
    lifetime, no later than the default lifetime when none is requested and
    there is no actor, and never after its subject or actor; a requested
    lifetime is honoured without wrapping however large it is. *)
Theorem issued_lifetime {St} (s : Server St) req c sb actor now i :
  (forall a d, perDialect s !! a = Some d -> (0 < d)%Z) -> (0 < now)%Z ->
  (forall n, ExpiresIn req = Some n -> (minRequestedExpiresIn <= n)%Z) -> (0 < capabilityTokenTTL s)%Z ->
  Validate (buildExchangeRequest s req c sb actor now) = Ok i ->
  (forall a d, a ∈ IAudience i -> perDialect s !! a = Some d -> (IExp i <= now + d)%Z) /\
  (forall n, ExpiresIn req = Some n -> IExp i <= now + n * Second)%Z /\
  (ExpiresIn req = None -> actor = None -> IExp i <= now + capabilityTokenTTL s)%Z /\
  (ExpiryTime sb <> 0 -> IExp i <= ExpiryTime sb)%Z /\
  (forall a, actor = Some a -> ExpiryTime a <> 0 -> IExp i <= ExpiryTime a)%Z /\
  (now < IExp i)%Z.
Proof.
  intros Hpos Hnow Hmin Httl (_ & _ & _ & _ & _ & _ & _ & _ & _ & Hn & _ & ->)%Validate_inv.
  set (r := buildExchangeRequest s req c sb actor now) in *.
  destruct (issued_exp_bounds r) as (_ & B2 & B3 & B4 & B5). cbn [IExp IAudience].
  split_and!.
  - intros a d Ha Hd. cbn in Ha.
    destruct (dialect_loop_le (perDialect s) (splitSpace (ReqAudience req)) 0 Hpos ltac:(lia)) as (_ & _ & I3).
    specialize (I3 a d Ha Hd).
    assert (PerDialectCap r = dialect_loop (perDialect s) (splitSpace (ReqAudience req)) 0) as E.
    { subst r. cbn. unfold resolveDialectCap.
      destruct (Z.eqb_spec (dialect_loop (perDialect s) (splitSpace (ReqAudience req)) 0) 0); [lia|].
      destruct (Z.ltb_spec 0 (dialect_loop (perDialect s) (splitSpace (ReqAudience req)) 0)); lia. }
    change (Now r) with now in B5. lia.
  - intros n E. pose proof (Hmin n E) as Hm.
    assert (RequestedExp r = now + expiresInDuration n)%Z as Er by (subst r; cbn; unfold requestedExp; by rewrite E).
    assert (0 < expiresInDuration n <= n * Second)%Z as Hd.
    { unfold expiresInDuration, maxExpiresInSeconds, minRequestedExpiresIn, Second in *. cbn zeta.
      change (max_int64 ÷ 1000000000)%Z with 9223372036%Z.
      destruct (Z.ltb_spec 9223372036 n); rewrite wrap64_id; unfold_int64; lia. }
    rewrite Er in B2. lia.
  - intros E ->. assert (RequestedExp r = now + capabilityTokenTTL s)%Z as Er
      by (subst r; cbn; unfold requestedExp; by rewrite E). rewrite Er in B2. lia.
  - exact B3.
  - intros a -> Ha. apply (B4 (toExchangeToken a)); done.
  - exact Hn.
Qed.

Lemma issued_lifetime_witness : (IExp ex_unscoped_issued <= time_unix 1000 + 300 * Second)%Z.
Proof.
  destruct (issued_lifetime ex_server ex_unscoped (ex_claims "j9" "")
              (ex_claims "j9" "tools:pool:read tools:me:read") None (time_unix 1000) ex_unscoped_issued) as [H _].
  - intros a d. change (perDialect ex_server) with ({["lenny-gateway" := (300 * Second)%Z]} : gmap string Duration).
    intros [_ <-]%lookup_singleton_Some. reflexivity.
  - reflexivity.
  - discriminate.
  - reflexivity.
  - vm_compute. reflexivity.
  - apply (H "lenny-gateway"); [left|vm_compute; reflexivity].
Defined.
