(* ===== verification/RateLimit.v ===== *)
(** * The rate limiter of the token endpoint ([tokenservice/ratelimit.go])

    Fixed windows per second and per minute, kept by one replica.  [Allow] is
    shown to decide from the requests it has seen: with a clock that does not
    run backwards, a request passes exactly when each tier that applies to it
    has charged fewer requests than its limit in the current window. *)

From S2P Require Import Prelude TokenService.

Definition LimitTierCallerPerSecond : string := "caller_per_second".
Definition LimitTierCallerPerMinute : string := "caller_per_minute".
Definition LimitTierTenantPerSecond : string := "tenant_per_second".

Record RateLimitOptions := mkRateLimitOptions { CallerPerSecond : Z; CallerPerMinute : Z; TenantPerSecond : Z; SampleWindow : Duration }.

Definition optionsIsZero (o : RateLimitOptions) : bool :=
  (CallerPerSecond o <=? 0)%Z && (CallerPerMinute o <=? 0)%Z && (TenantPerSecond o <=? 0)%Z && (SampleWindow o <=? 0)%Z.

Record Decision_ := mkRateDecision { Allowed : bool; LimitTier : string; RetryAfter : Duration; AuditSampled : bool }.

(** [secBucket] and [minBucket]; the zero value is the bucket of window 0. *)
Record bucket := mkBucket { b_window : Z; b_count : Z }.

Record RateLimiter := mkRateLimiter {
  opts : RateLimitOptions; sampleWindow : Duration;
  bucketSec : gmap string bucket; bucketMin : gmap string bucket; sampleLast : gmap string Time }.

Definition NewRateLimiter (o : RateLimitOptions) : RateLimiter :=
  mkRateLimiter o (if (SampleWindow o <=? 0)%Z then (10 * Second)%Z else SampleWindow o) ∅ ∅ ∅.

(** What [incSec] and [incMin] share: the bucket of the window, charged. *)
Definition charge (window : Z) (b : option bucket) : bucket :=
  let b := default (mkBucket 0 0) b in
  let b := if (b_window b =? window)%Z then b else mkBucket window 0 in
  mkBucket (b_window b) (wrap64 (b_count b + 1)).

(** The instant the window ends, and whether the request is within the limit. *)
Definition incSec (key : string) (at_ : Time) (limit : Z) (l : RateLimiter) : RateLimiter * (Time * bool) :=
  let sec := unix_of at_ in
  let b := charge sec (bucketSec l !! key) in
  (mkRateLimiter (opts l) (sampleWindow l) (<[key := b]> (bucketSec l)) (bucketMin l) (sampleLast l),
   (time_unix (wrap64 (sec + 1)), (b_count b <=? limit)%Z)).

Definition minute_of_unix (at_ : Time) : Z := Z.quot (unix_of at_) 60.

Definition incMin (key : string) (at_ : Time) (limit : Z) (l : RateLimiter) : RateLimiter * (Time * bool) :=
  let min := minute_of_unix at_ in
  let b := charge min (bucketMin l !! key) in
  (mkRateLimiter (opts l) (sampleWindow l) (bucketSec l) (<[key := b]> (bucketMin l)) (sampleLast l),
   (time_unix (wrap64 (wrap64 (min + 1) * 60)), (b_count b <=? limit)%Z)).

(** [clock] is the reading [time.Until] takes. *)
Definition deny (tenantID sub tier : string) (at_ resetAt clock : Time) (l : RateLimiter) : RateLimiter * Decision_ :=
  let retry := time_sub resetAt clock in
  let retry := if (retry <=? 0)%Z then Second else retry in
  let sampleKey := tier +:+ ":" +:+ tenantID +:+ ":" +:+ sub in
  let sampled := match sampleLast l !! sampleKey with None => true | Some last => (sampleWindow l <=? time_sub at_ last)%Z end in
  (if sampled then mkRateLimiter (opts l) (sampleWindow l) (bucketSec l) (bucketMin l) (<[sampleKey := at_]> (sampleLast l)) else l,
   mkRateDecision false tier retry sampled).

Definition tenantKey (tenantID : string) : string := "t1:" +:+ tenantID.
Definition callerKey (tenantID sub : string) : string := "c1:" +:+ tenantID +:+ ":" +:+ sub.
Definition minuteKey (tenantID sub : string) : string := "c60:" +:+ tenantID +:+ ":" +:+ sub.

(** One tier of [Allow]: the bucket is charged, and the rest of the call is
    reached when it has room. *)
Definition gate (applies : bool) (inc : RateLimiter -> RateLimiter * (Time * bool)) (tenantID sub tier : string) (at_ clock : Time)
    (rest : RateLimiter -> RateLimiter * Decision_) (l : RateLimiter) : RateLimiter * Decision_ :=
  if applies then
    let '(l, (next, ok)) := inc l in
    if negb ok then deny tenantID sub tier at_ next clock l else rest l
  else rest l.

Definition Allow (at_ : Time) (tenantID sub : string) (clock : Time) (l : RateLimiter) : RateLimiter * Decision_ :=
  let o := opts l in
  let tenant := negb (is_empty tenantID) in
  let caller := tenant && negb (is_empty sub) in
  gate ((0 <? TenantPerSecond o)%Z && tenant) (incSec (tenantKey tenantID) at_ (TenantPerSecond o)) tenantID sub LimitTierTenantPerSecond at_ clock
    (gate ((0 <? CallerPerSecond o)%Z && caller) (incSec (callerKey tenantID sub) at_ (CallerPerSecond o)) tenantID sub LimitTierCallerPerSecond at_ clock
       (gate ((0 <? CallerPerMinute o)%Z && caller) (incMin (minuteKey tenantID sub) at_ (CallerPerMinute o)) tenantID sub LimitTierCallerPerMinute at_ clock
          (fun l => (l, mkRateDecision true "" 0 false)))) l.

(** What the endpoint is told. *)
Definition told_endpoint (d : Decision_) : RateLimitDecision := if Allowed d then RlAllowed else RlDenied (LimitTier d) (AuditSampled d).

(** ** What the limiter promises *)

(** The requests charged so far, as keys and windows. *)
Abbreviation Charges := (list (string * Z)).

Definition hits (key : string) (window : Z) (cs : Charges) : Z := Z.of_nat (length (filter (fun c => c = (key, window)) cs)).

Record Request := mkRequest { q_at : Time; q_tenant : string; q_sub : string; q_clock : Time }.

Record Tier := mkTier { t_limit : Z; t_key : string; t_window : Z; t_name : string }.

(** The tiers that apply to a request, in the order in which they are asked. *)
Definition tiers (o : RateLimitOptions) (r : Request) : list Tier :=
  let tenant := negb (is_empty (q_tenant r)) in
  let caller := tenant && negb (is_empty (q_sub r)) in
  (if (0 <? TenantPerSecond o)%Z && tenant
   then [mkTier (TenantPerSecond o) (tenantKey (q_tenant r)) (unix_of (q_at r)) LimitTierTenantPerSecond] else []) ++
  (if (0 <? CallerPerSecond o)%Z && caller
   then [mkTier (CallerPerSecond o) (callerKey (q_tenant r) (q_sub r)) (unix_of (q_at r)) LimitTierCallerPerSecond] else []) ++
  (if (0 <? CallerPerMinute o)%Z && caller
   then [mkTier (CallerPerMinute o) (minuteKey (q_tenant r) (q_sub r)) (minute_of_unix (q_at r)) LimitTierCallerPerMinute] else []).

(** A request is charged tier by tier, up to and including the one that refuses
    it. *)
Fixpoint charged (ts : list Tier) (cs : Charges) : Charges * option string :=
  match ts with
  | [] => (cs, None)
  | t :: ts =>
      let cs' := (t_key t, t_window t) :: cs in
      if (hits (t_key t) (t_window t) cs <? t_limit t)%Z then charged ts cs' else (cs', Some (t_name t))
  end.

(** The latest request comes first. *)
Fixpoint charges (o : RateLimitOptions) (h : list Request) : Charges :=
  match h with [] => [] | r :: h => (charged (tiers o r) (charges o h)).1 end.

Definition after_requests (o : RateLimitOptions) (h : list Request) : RateLimiter :=
  foldr (fun r l => (Allow (q_at r) (q_tenant r) (q_sub r) (q_clock r) l).1) (NewRateLimiter o) h.

(** The clock of the requests does not run backwards, and started after 1970. *)
Fixpoint in_order (h : list Request) : Prop :=
  match h with
  | [] => True
  | r :: h => (0 <= unix_of (q_at r))%Z /\ match h with [] => True | p :: _ => (q_at p <= q_at r)%Z end /\ in_order h
  end.

(** ** Buckets and charges *)

Definition is_minute_key (k : string) : bool := String.prefix "c60:" k.

(** A bucket holds the count of its window, which is the last one charged. *)
Definition good (b : option bucket) (k : string) (cs : Charges) (last : Z) : Prop :=
  let b := default (mkBucket 0 0) b in
  (forall w, (b_window b < w)%Z -> hits k w cs = 0%Z) /\ hits k (b_window b) cs = b_count b /\ (b_window b <= last)%Z.

Record kept (o : RateLimitOptions) (at_ : Time) (cs : Charges) (l : RateLimiter) : Prop := {
  kp_opts : opts l = o;
  kp_sec : forall k, is_minute_key k = false -> good (bucketSec l !! k) k cs (unix_of at_);
  kp_min : forall k, is_minute_key k = true -> good (bucketMin l !! k) k cs (minute_of_unix at_) }.

Lemma hits_cons k w k' w' cs : hits k w ((k', w') :: cs) = (hits k w cs + if decide (k' = k /\ w' = w) then 1 else 0)%Z.
Proof.
  unfold hits. destruct (decide (k' = k /\ w' = w)) as [[-> ->]|Hn].
  - rewrite filter_cons_True by done. cbn [length]. lia.
  - rewrite filter_cons_False by (intros [= -> ->]; tauto). lia.
Qed.

Lemma hits_bounds k w cs : (0 <= hits k w cs <= Z.of_nat (length cs))%Z.
Proof. unfold hits. pose proof (length_filter (fun c => c = (k, w)) cs). lia. Qed.

Lemma good_charge b k cs w : (Z.of_nat (length cs) < max_int64)%Z -> good b k cs w ->
  b_count (charge w b) = (hits k w cs + 1)%Z /\ good (Some (charge w b)) k ((k, w) :: cs) w.
Proof.
  intros Hlen (Hnew & Hcur & Hle). unfold good, charge. cbn [from_option]. unfold id.
  change (from_option (fun x : bucket => x) (mkBucket 0 0) b) with (default (mkBucket 0 0) b).
  set (b0 := default (mkBucket 0 0) b) in *. pose proof (hits_bounds k w cs) as Hb.
  assert (wrap64 (hits k w cs + 1) = hits k w cs + 1)%Z as Hwrap by (apply wrap64_id; unfold in_int64, min_int64, max_int64, two63 in *; lia).
  assert (b_count (if (b_window b0 =? w)%Z then b0 else mkBucket w 0) = hits k w cs) as Hc.
  { destruct (Z.eqb_spec (b_window b0) w) as [<-|Hne]; [done|]. cbn. symmetry. apply Hnew. lia. }
  assert (b_window (if (b_window b0 =? w)%Z then b0 else mkBucket w 0) = w) as Hw by (by destruct (Z.eqb_spec (b_window b0) w)).
  cbn [b_count b_window]. rewrite Hc, Hw, Hwrap. split; [done|]. split_and!; [|rewrite hits_cons, decide_True by done; lia|lia].
  intros w' Hw'. rewrite hits_cons, decide_False by lia. rewrite Hnew by lia. lia.
Qed.

Lemma good_other b k k' w cs last : k' <> k -> good b k cs last -> good b k ((k', w) :: cs) last.
Proof.
  intros Hne (Hnew & Hcur & Hle). unfold good. split_and!; [intros w' Hw'| |done]; rewrite hits_cons, decide_False by tauto; rewrite ?Z.add_0_r; auto.
Qed.

Lemma good_later b k cs last last' : (last <= last')%Z -> good b k cs last -> good b k cs last'.
Proof. intros Hle (? & ? & ?). split_and!; [done..|lia]. Qed.

Lemma kept_sec o at_ cs l k limit : (Z.of_nat (length cs) < max_int64)%Z -> is_minute_key k = false -> kept o at_ cs l ->
  (incSec k at_ limit l).2.2 = (hits k (unix_of at_) cs <? limit)%Z /\ kept o at_ ((k, unix_of at_) :: cs) (incSec k at_ limit l).1.
Proof.
  intros Hlen Hk [Ho Hs Hm]. destruct (good_charge _ _ _ _ Hlen (Hs k Hk)) as [Hc Hg]. unfold incSec. cbn [fst snd]. rewrite Hc. split.
  { destruct (Z.leb_spec (hits k (unix_of at_) cs + 1) limit), (Z.ltb_spec (hits k (unix_of at_) cs) limit); done || lia. }
  constructor; cbn [opts bucketSec bucketMin]; [done| |].
  - intros k' Hk'. destruct (decide (k = k')) as [<-|Hne]; [by rewrite lookup_insert_eq|rewrite lookup_insert_ne by done]. apply good_other; auto.
  - intros k' Hk'. apply good_other; [congruence|auto].
Qed.

Lemma kept_min o at_ cs l k limit : (Z.of_nat (length cs) < max_int64)%Z -> is_minute_key k = true -> kept o at_ cs l ->
  (incMin k at_ limit l).2.2 = (hits k (minute_of_unix at_) cs <? limit)%Z /\ kept o at_ ((k, minute_of_unix at_) :: cs) (incMin k at_ limit l).1.
Proof.
  intros Hlen Hk [Ho Hs Hm]. destruct (good_charge _ _ _ _ Hlen (Hm k Hk)) as [Hc Hg]. unfold incMin. cbn [fst snd]. rewrite Hc. split.
  { destruct (Z.leb_spec (hits k (minute_of_unix at_) cs + 1) limit), (Z.ltb_spec (hits k (minute_of_unix at_) cs) limit); done || lia. }
  constructor; cbn [opts bucketSec bucketMin]; [done| |].
  - intros k' Hk'. apply good_other; [congruence|auto].
  - intros k' Hk'. destruct (decide (k = k')) as [<-|Hne]; [by rewrite lookup_insert_eq|rewrite lookup_insert_ne by done]. apply good_other; auto.
Qed.

Lemma kept_deny o at_ cs l tenant sub tier resetAt clock : kept o at_ cs l -> kept o at_ cs (deny tenant sub tier at_ resetAt clock l).1.
Proof. intros [Ho Hs Hm]. unfold deny. cbn [fst]. match goal with |- context [if ?b then _ else l] => destruct b end; by constructor. Qed.

Lemma kept_later o at_ at' cs l : (at_ <= at')%Z -> kept o at_ cs l -> kept o at' cs l.
Proof.
  intros Hle [Ho Hs Hm]. assert (unix_of at_ <= unix_of at')%Z by (unfold unix_of; pose proof (Z.div_le_mono at_ at' Second ltac:(done) Hle); lia).
  constructor; [done| |]; intros k Hk; (eapply good_later; [|by auto]); [done|]. unfold minute_of_unix. by apply Z.quot_le_mono.
Qed.

(** A decision and the state it leaves, against the charges. *)
Definition agrees (o : RateLimitOptions) (at_ : Time) (x : RateLimiter * Decision_) (y : Charges * option string) : Prop :=
  kept o at_ y.1 x.1 /\ Allowed x.2 = bool_decide (y.2 = None) /\ LimitTier x.2 = default "" y.2.

Section tier.
Context (o : RateLimitOptions) (tenant sub : string) (at_ clock : Time).

(** A tier that charges its key, and then the rest. *)
Lemma gate_agrees inc applies t rest ts cs l : (Z.of_nat (length cs) < max_int64)%Z -> kept o at_ cs l ->
  (forall l, kept o at_ cs l -> (inc l).2.2 = (hits (t_key t) (t_window t) cs <? t_limit t)%Z /\ kept o at_ ((t_key t, t_window t) :: cs) (inc l).1) ->
  (forall cs' l, (length cs' <= S (length cs)) -> kept o at_ cs' l -> agrees o at_ (rest l) (charged ts cs')) ->
  agrees o at_ (gate applies inc tenant sub (t_name t) at_ clock rest l) (charged ((if applies : bool then [t] else []) ++ ts) cs).
Proof using Type.
  intros Hlen Hk Hinc Hrest. unfold gate. destruct applies; cbn [app charged]; [|apply Hrest; [lia|done]].
  destruct (Hinc l Hk) as [Hok Hk']. destruct (inc l) as [l' [next ok]]. cbn [fst snd] in *. subst ok.
  destruct (_ <? _)%Z; cbn [negb]; [by apply Hrest|]. split; [by apply kept_deny|done].
Qed.
End tier.

Lemma minuteKey_is tenant sub : is_minute_key (minuteKey tenant sub) = true.
Proof. unfold is_minute_key, minuteKey. change ("c60:" +:+ tenant +:+ ":" +:+ sub) with ("c60:" +:+ (tenant +:+ ":" +:+ sub)). by destruct (tenant +:+ ":" +:+ sub). Qed.

Lemma Allow_agrees o r cs l : (Z.of_nat (length cs) + 2 < max_int64)%Z -> kept o (q_at r) cs l ->
  agrees o (q_at r) (Allow (q_at r) (q_tenant r) (q_sub r) (q_clock r) l) (charged (tiers o r) cs).
Proof.
  intros Hlen Hk. unfold Allow, tiers. rewrite (kp_opts _ _ _ _ Hk).
  apply (gate_agrees o _ _ _ _ _ _ (mkTier (TenantPerSecond o) (tenantKey (q_tenant r)) (unix_of (q_at r)) LimitTierTenantPerSecond)); [lia|done|intros l' ?; apply kept_sec; [lia|done|done]|].
  intros cs1 l1 H1 Hk1.
  apply (gate_agrees o _ _ _ _ _ _ (mkTier (CallerPerSecond o) (callerKey (q_tenant r) (q_sub r)) (unix_of (q_at r)) LimitTierCallerPerSecond)); [lia|done|intros l' ?; apply kept_sec; [lia|done|done]|].
  intros cs2 l2 H2 Hk2. rewrite <- (app_nil_r (if (0 <? CallerPerMinute o)%Z && _ then _ else [])).
  apply (gate_agrees o _ _ _ _ _ _ (mkTier (CallerPerMinute o) (minuteKey (q_tenant r) (q_sub r)) (minute_of_unix (q_at r)) LimitTierCallerPerMinute)); [lia|done|intros l' ?; apply kept_min; [lia|apply minuteKey_is|done]|].
  intros cs3 l3 _ Hk3. by split.
Qed.

Lemma charged_length ts cs : length (charged ts cs).1 <= length ts + length cs.
Proof.
  revert cs. induction ts as [|t ts IH]; intros cs; cbn [charged]; [cbn; lia|]. destruct (_ <? _)%Z; cbn [fst length]; [|lia].
  specialize (IH ((t_key t, t_window t) :: cs)). cbn [length] in *. lia.
Qed.

Lemma charges_length o h : length (charges o h) <= 3 * length h.
Proof.
  induction h as [|r h IH]; cbn [charges length]; [done|]. pose proof (charged_length (tiers o r) (charges o h)).
  assert (length (tiers o r) <= 3) by (unfold tiers; rewrite !length_app; repeat destruct (_ && _); cbn; lia). lia.
Qed.

Lemma kept_new o at_ : (0 <= unix_of at_)%Z -> kept o at_ [] (NewRateLimiter o).
Proof.
  intros H0. assert (0 <= minute_of_unix at_)%Z by (apply Z.quot_pos; lia).
  by constructor; [done|intros k _; split_and!..].
Qed.

(** The state before a request, at the time of the request. *)
Lemma run_kept o r h : (3 * Z.of_nat (length h) + 2 < max_int64)%Z -> in_order (r :: h) -> kept o (q_at r) (charges o h) (after_requests o h).
Proof.
  revert r. induction h as [|p h IH]; intros r Hlen (H0 & Hle & Hord); [by apply kept_new|]. cbn [length] in Hlen.
  apply (kept_later _ (q_at p)); [done|]. cbn [charges after_requests foldr]. fold (after_requests o h). pose proof (charges_length o h).
  apply Allow_agrees; [lia|]. apply IH; [lia|done].
Qed.

Definition passed (o : RateLimitOptions) (r : Request) (h : list Request) : bool :=
  Allowed (Allow (q_at r) (q_tenant r) (q_sub r) (q_clock r) (after_requests o h)).2.

(** Requests that passed and that a tier counts under the key and window. *)
Fixpoint passes (o : RateLimitOptions) (key : string) (window : Z) (h : list Request) : Z :=
  match h with
  | [] => 0
  | r :: h => (passes o key window h +
               if passed o r h && existsb (fun t => String.eqb (t_key t) key && (t_window t =? window)%Z) (tiers o r) then 1 else 0)%Z
  end.

Lemma charged_mono ts k w cs : (hits k w cs <= hits k w (charged ts cs).1)%Z.
Proof.
  revert cs. induction ts as [|t ts IH]; intros cs; cbn [charged]; [done|]. destruct (_ <? _)%Z.
  - specialize (IH ((t_key t, t_window t) :: cs)). rewrite hits_cons in IH. destruct (decide _); lia.
  - cbn [fst]. rewrite hits_cons. destruct (decide _); lia.
Qed.

Lemma charged_pass ts cs t : (charged ts cs).2 = None -> t ∈ ts ->
  (hits (t_key t) (t_window t) cs < t_limit t /\ hits (t_key t) (t_window t) cs + 1 <= hits (t_key t) (t_window t) (charged ts cs).1)%Z.
Proof.
  revert cs. induction ts as [|u ts IH]; intros cs; cbn [charged]; [by intros _ ?%not_elem_of_nil|].
  destruct (Z.ltb_spec (hits (t_key u) (t_window u) cs) (t_limit u)) as [Hlt|]; [|done]. intros Hv [->|Ht]%elem_of_cons.
  - pose proof (charged_mono ts (t_key u) (t_window u) ((t_key u, t_window u) :: cs)) as Hm. rewrite hits_cons, decide_True in Hm by done. lia.
  - specialize (IH _ Hv Ht). rewrite hits_cons in IH. destruct (decide _); lia.
Qed.

(** The limit a key stands for. *)
Definition limit_of (o : RateLimitOptions) (k : string) : Z :=
  if String.prefix "t" k then TenantPerSecond o else if is_minute_key k then CallerPerMinute o else CallerPerSecond o.

Lemma tier_limit o r t : t ∈ tiers o r -> t_limit t = limit_of o (t_key t) /\ (0 < t_limit t)%Z.
Proof.
  unfold tiers. rewrite !elem_of_app. intros [Ht|[Ht|Ht]].
  all: match type of Ht with context [if ?b && _ then _ else _] => destruct b eqn:Eb end; cbn [andb] in Ht; [|by apply not_elem_of_nil in Ht].
  all: match type of Ht with context [if ?b then _ else _] => destruct b; [apply list_elem_of_singleton in Ht as ->|by apply not_elem_of_nil in Ht] end.
  all: apply Z.ltb_lt in Eb; (split; [|done]); unfold limit_of; cbn [t_limit t_key].
  - reflexivity.
  - reflexivity.
  - by rewrite minuteKey_is.
Qed.

Lemma passed_verdict o r h : (3 * Z.of_nat (length h) + 2 < max_int64)%Z -> in_order (r :: h) ->
  passed o r h = bool_decide ((charged (tiers o r) (charges o h)).2 = None).
Proof.
  intros Hlen Hord. pose proof (charges_length o h). unfold passed.
  by destruct (Allow_agrees o r (charges o h) (after_requests o h) ltac:(lia) (run_kept o r h Hlen Hord)) as (_ & -> & _).
Qed.

Lemma passes_bound o k w h : (3 * Z.of_nat (length h) < max_int64)%Z -> in_order h ->
  (passes o k w h <= hits k w (charges o h) /\ (0 < limit_of o k -> passes o k w h <= limit_of o k))%Z.
Proof.
  induction h as [|r h IH]; cbn [length passes charges]; [intros _ _; split; [done|lia]|]. intros Hlen Hord. specialize (IH ltac:(lia) (proj2 (proj2 Hord))).
  pose proof (charged_mono (tiers o r) k w (charges o h)) as Hm. rewrite (passed_verdict o r h) by (done || lia).
  destruct (bool_decide_reflect ((charged (tiers o r) (charges o h)).2 = None)) as [Hv|Hv]; cbn [andb]; [|lia].
  destruct (existsb _ _) eqn:Ex; [|lia]. apply existsb_exists in Ex as (t & Ht%list_elem_of_In & [He%String.eqb_eq Hw%Z.eqb_eq]%andb_true_iff).
  destruct (charged_pass _ _ _ Hv Ht) as [Hlt Hle]. destruct (tier_limit _ _ _ Ht) as [Hlim _]. rewrite He, Hw in *. lia.
Qed.

(** With a clock that does not run backwards, a request is refused exactly by the
    first tier that has already charged its limit in the current window, and no
    window ever lets more requests through than the limit of its tier. *)
Theorem limiter_exact o h r : (3 * Z.of_nat (length h) + 3 < max_int64)%Z -> in_order (r :: h) ->
  let d := (Allow (q_at r) (q_tenant r) (q_sub r) (q_clock r) (after_requests o h)).2 in
  let verdict := (charged (tiers o r) (charges o h)).2 in
  Allowed d = bool_decide (verdict = None) /\ LimitTier d = default "" verdict /\
  forall t, t ∈ tiers o r -> (passes o (t_key t) (t_window t) (r :: h) <= t_limit t)%Z.
Proof.
  intros Hlen Hord d verdict. pose proof (charges_length o h).
  destruct (Allow_agrees o r (charges o h) (after_requests o h) ltac:(lia) (run_kept o r h ltac:(lia) Hord)) as (_ & Ha & Ht).
  split; [done|]. split; [done|]. intros t Hin. destruct (tier_limit _ _ _ Hin) as [Hlim Hpos]. rewrite Hlim in *.
  apply passes_bound; [cbn [length]; lia|done|done].
Qed.

(** A clock that runs backwards opens the window again. *)
Module RateDemo.

Definition limits : RateLimitOptions := mkRateLimitOptions 1 0 0 0.
Definition at_second (s : Z) : Time := time_unix s.
Definition asks (s : Z) : Request := mkRequest (at_second s) "acme" "alice" (at_second s).

Lemma limiter_exact_witness : in_order [asks 1001; asks 1000] /\
  Allowed (Allow (at_second 1001) "acme" "alice" (at_second 1001) (after_requests limits [asks 1001; asks 1000])).2 = false /\
  (forall t, t ∈ tiers limits (asks 1001) -> passes limits (t_key t) (t_window t) [asks 1001; asks 1001; asks 1000] <= t_limit t)%Z.
Proof.
  assert (in_order [asks 1001; asks 1001; asks 1000]) as Hord by (vm_compute; repeat split; discriminate).
  split; [exact (proj2 (proj2 Hord))|].
  destruct (limiter_exact limits [asks 1001; asks 1000] (asks 1001) eq_refl Hord) as (Ha & _ & Hb). split; [|exact Hb].
  etransitivity; [exact Ha|]. vm_compute. reflexivity.
Defined.

Lemma backward_clock_reopens :
  passes limits (callerKey "acme" "alice") 1001 [asks 1001; asks 1000; asks 1001] = 2%Z.
Proof. vm_compute. reflexivity. Qed.

(** Keys are joined with a colon, so two callers can share a bucket. *)
Lemma callers_share_bucket : callerKey "a" "b:c" = callerKey "a:b" "c".
Proof. reflexivity. Qed.

End RateDemo.
