(* ===== verification/InputWait.v ===== *)
(** * Pending [lenny/request_input] calls ([pkg/gateway/session/inputwait])

    A runtime that asks for input blocks on a channel until a peer resolves
    the request, it is cancelled, or the registry closes.  A channel is a
    number and its contents; every call runs under the registry's mutex and is
    one step.  The invariant: a channel without an outcome is exactly one that
    is pending, and an outcome never changes. *)

From S2P Require Import Prelude.

Inductive InputWaitError := ErrDuplicate | ErrNotFound | ErrClosed.

(** A buffered channel of capacity one: nothing yet, the answer, or closed. *)
Inductive chan_state := Open | Delivered (answer : string) | ChanClosed.

Record entry := mkEntry {
  ch : nat;
  parts : list string;
  registeredAt : Time;
  waitID : string;
  persisted : bool }.

Record Registry := mkRegistry {
  pending : gmap string entry;
  consumed : gmap string Z;
  answered : gmap string Z;
  closed : bool;
  chans : list chan_state }.

Record PendingRequest := mkPendingRequest {
  RequestID : string;
  Parts : list string;
  BlockedSince : Time;
  WaitID : string;
  Persisted : bool }.

Definition NewRegistry : Registry := mkRegistry ∅ ∅ ∅ false [].

Definition NUL : string := String (Ascii.ascii_of_nat 0) "".

Definition key (sessionID requestID : string) : string := sessionID +:+ NUL +:+ requestID.

(** [m[k]] of a Go map to [int]. *)
Definition count (m : gmap string Z) (k : string) : Z := default 0%Z (m !! k).

Definition incr (k : string) (m : gmap string Z) : gmap string Z := <[k := wrap64 (count m k + 1)]> m.

Definition register (now : Time) (sessionID requestID : string) (parts : list string) (waitID : string)
    (persisted : bool) (r : Registry) : Registry * result InputWaitError nat :=
  let k := key sessionID requestID in
  if closed r then (r, Err ErrClosed)
  else match pending r !! k with
       | Some _ => (r, Err ErrDuplicate)
       | None =>
           let c := length (chans r) in
           (mkRegistry (<[k := mkEntry c parts now waitID persisted]> (pending r))
              (incr sessionID (consumed r)) (answered r) (closed r) (chans r ++ [Open]), Ok c)
       end.

Definition Register (now : Time) (sessionID requestID : string) (parts : list string) :=
  register now sessionID requestID parts "" false.

Definition RegisterPersisted (now : Time) (sessionID requestID waitID : string) (parts : list string) :=
  register now sessionID requestID parts waitID true.

(** Send on, or close, a channel. *)
Definition settle (c : nat) (o : chan_state) (l : list chan_state) : list chan_state := <[c := o]> l.

Definition Close (r : Registry) : Registry :=
  mkRegistry ∅ (consumed r) (answered r) true
    (foldr (fun ke l => settle (ch ke.2) ChanClosed l) (chans r) (map_to_list (pending r))).

Definition Consumed (sessionID : string) (r : Registry) : Z := count (consumed r) sessionID.
Definition Answered (sessionID : string) (r : Registry) : Z := count (answered r) sessionID.

Definition ForgetSession (sessionID : string) (r : Registry) : Registry :=
  mkRegistry (pending r) (delete sessionID (consumed r)) (delete sessionID (answered r)) (closed r) (chans r).

Definition Resolve (sessionID requestID answer : string) (r : Registry) : Registry * result InputWaitError unit :=
  let k := key sessionID requestID in
  match pending r !! k with
  | None => (r, Err ErrNotFound)
  | Some e => (mkRegistry (delete k (pending r)) (consumed r) (incr sessionID (answered r)) (closed r)
                 (settle (ch e) (Delivered answer) (chans r)), Ok tt)
  end.

Definition Cancel (sessionID requestID : string) (r : Registry) : Registry :=
  let k := key sessionID requestID in
  match pending r !! k with
  | Some e => mkRegistry (delete k (pending r)) (consumed r) (answered r) (closed r)
                (settle (ch e) ChanClosed (chans r))
  | None => r
  end.

Definition Pending (sessionID requestID : string) (r : Registry) : bool :=
  bool_decide (is_Some (pending r !! key sessionID requestID)).

(** [len(k) > len(prefix) && k[:len(prefix)] == prefix], and the rest. *)
Definition request_of (sessionID k : string) : option string :=
  match cut_prefix (sessionID +:+ NUL) k with
  | Some "" => None
  | r => r
  end.

Definition PendingForSession (sessionID : string) (r : Registry) : list string :=
  omap (fun ke => request_of sessionID ke.1) (map_to_list (pending r)).

Definition details (sessionID : string) (ke : string * entry) : option PendingRequest :=
  (fun q => mkPendingRequest q (parts ke.2) (registeredAt ke.2) (waitID ke.2) (persisted ke.2))
    <$> request_of sessionID ke.1.

Definition by_request (a b : PendingRequest) : Prop := String.le (RequestID a) (RequestID b).

#[export] Instance by_request_dec a b : Decision (by_request a b).
Proof. unfold by_request. apply _. Defined.

Definition PendingDetailsForSession (sessionID : string) (r : Registry) : list PendingRequest :=
  merge_sort by_request (omap (details sessionID) (map_to_list (pending r))).

(** ** Steps and the invariant *)

Inductive op :=
| OpRegister (now : Time) (s q : string) (parts : list string) (w : string) (p : bool)
| OpResolve (s q a : string)
| OpCancel (s q : string)
| OpForget (s : string)
| OpClose.

Definition apply (o : op) (r : Registry) : Registry :=
  match o with
  | OpRegister now s q parts w p => (register now s q parts w p r).1
  | OpResolve s q a => (Resolve s q a r).1
  | OpCancel s q => Cancel s q r
  | OpForget s => ForgetSession s r
  | OpClose => Close r
  end.

(** The open channels are exactly those of the pending entries, one each. *)
Record wf (r : Registry) : Prop := mkWf {
  wf_open : forall c, chans r !! c = Some Open <-> exists k e, pending r !! k = Some e /\ ch e = c;
  wf_inj : forall k1 k2 e1 e2, pending r !! k1 = Some e1 -> pending r !! k2 = Some e2 -> ch e1 = ch e2 -> k1 = k2;
  wf_closed : closed r = true -> pending r = ∅ }.

Lemma wf_new : wf NewRegistry.
Proof.
  constructor; cbn; [|by intros k1 k2 e1 e2 ?%lookup_empty_Some|done].
  intros c. split; [by rewrite lookup_nil|]. by intros (k & e & ?%lookup_empty_Some & _).
Qed.

Lemma wf_register now s q ps w p r : wf r -> wf (register now s q ps w p r).1.
Proof.
  intros Hw. unfold register. destruct (closed r) eqn:Ec; [exact Hw|].
  destruct (pending r !! key s q) as [e|] eqn:Ek; [exact Hw|]. cbn. destruct Hw as [Ho Hi Hc].
  assert (forall k e, pending r !! k = Some e -> ch e < length (chans r)) as Hlt.
  { intros k e Hk. eapply lookup_lt_Some, Ho. eauto. }
  constructor; cbn; [| |done].
  - intros c. rewrite lookup_app_Some. split.
    + intros [Hx|[Hx Hy]].
      * apply Ho in Hx as (k & e & Hk & <-). exists k, e. rewrite lookup_insert_ne; [done|congruence].
      * apply list_lookup_singleton_Some in Hy as [Hz _]. eexists _, _.
        split; [apply lookup_insert_eq|]. cbn. lia.
    + intros (k & e & Hk & <-). apply lookup_insert_Some in Hk as [[<- <-]|[_ Hk]]; cbn.
      * right. by rewrite Nat.sub_diag.
      * left. apply Ho. eauto.
  - intros k1 k2 e1 e2 H1 H2 E.
    apply lookup_insert_Some in H1 as [[<- <-]|[N1 H1]]; apply lookup_insert_Some in H2 as [[<- <-]|[N2 H2]];
      cbn in E; [done|apply Hlt in H2; lia|apply Hlt in H1; lia|by eapply Hi].
Qed.

(** Removing one entry together with settling its channel. *)
Lemma wf_settle r k e o m1 m2 : wf r -> pending r !! k = Some e -> o <> Open ->
  wf (mkRegistry (delete k (pending r)) m1 m2 (closed r) (settle (ch e) o (chans r))).
Proof.
  intros [Ho Hi Hc] Hk Hne. constructor; cbn.
  - intros c. unfold settle. split.
    + intros Hx. destruct (decide (c = ch e)) as [->|Hce].
      { apply list_lookup_insert_Some in Hx as [(_ & ? & _)|[? _]]; congruence. }
      rewrite list_lookup_insert_ne in Hx by done. apply Ho in Hx as (k' & e' & Hk' & <-).
      exists k', e'. rewrite lookup_delete_ne; [done|congruence].
    + intros (k' & e' & Hk' & <-). apply lookup_delete_Some in Hk' as [N Hk'].
      rewrite list_lookup_insert_ne; [apply Ho; eauto|]. intros E. apply N. by eapply Hi.
  - intros k1 k2 e1 e2 [_ H1]%lookup_delete_Some [_ H2]%lookup_delete_Some. by eapply Hi.
  - intros E. by rewrite (Hc E), lookup_empty in Hk.
Qed.

Lemma settle_all_lookup (l : list (string * entry)) cs c :
  foldr (fun ke l => settle (ch ke.2) ChanClosed l) cs l !! c =
  if decide (c ∈ (fun ke => ch ke.2) <$> l) then (fun _ => ChanClosed) <$> cs !! c else cs !! c.
Proof.
  induction l as [|[k e] l IH]; cbn [foldr]; [by rewrite decide_False by set_solver|].
  cbn [snd fst]. unfold settle at 1. destruct (decide (ch e = c)) as [<-|N].
  - rewrite decide_True by (cbn; set_solver).
    assert (is_Some (foldr (fun ke l => settle (ch ke.2) ChanClosed l) cs l !! ch e) <-> is_Some (cs !! ch e)) as Hlen
      by (rewrite IH; destruct (decide _); [by rewrite fmap_is_Some|done]).
    destruct (cs !! ch e) as [x|] eqn:E; cbn.
    + apply list_lookup_insert_eq, lookup_lt_is_Some, Hlen. eauto.
    + apply eq_None_not_Some. intros H1. apply lookup_lt_is_Some in H1. rewrite length_insert in H1.
      apply lookup_lt_is_Some, Hlen in H1. by destruct H1.
  - rewrite list_lookup_insert_ne by done. rewrite IH. cbn [fmap list_fmap].
    destruct (decide (c ∈ (fun ke => ch ke.2) <$> l)); [rewrite decide_True by set_solver|
      rewrite decide_False by set_solver]; done.
Qed.

Lemma wf_close r : wf r -> wf (Close r).
Proof.
  intros [Ho Hi Hc]. constructor; cbn; [|by intros k1 k2 e1 e2 ?%lookup_empty_Some|done].
  intros c. rewrite settle_all_lookup. split.
  - case_decide as Hin; [by destruct (chans r !! c)|]. intros (k & e & Hk & <-)%Ho. destruct Hin.
    apply list_elem_of_fmap. exists (k, e). split; [done|]. by apply elem_of_map_to_list.
  - by intros (k & e & ?%lookup_empty_Some & _).
Qed.

Lemma wf_apply o r : wf r -> wf (apply o r).
Proof.
  intros Hw. destruct o as [now s q ps w p|s q a|s q|s|]; cbn.
  - by apply wf_register.
  - unfold Resolve. destruct (pending r !! key s q) as [e|] eqn:E; [|done]. by eapply wf_settle.
  - unfold Cancel. destruct (pending r !! key s q) as [e|] eqn:E; [|done]. by eapply wf_settle.
  - destruct Hw. by constructor.
  - by apply wf_close.
Qed.

Lemma wf_run ops r : wf r -> wf (foldl (fun r o => apply o r) r ops).
Proof. revert r. induction ops as [|o ops IH]; intros r Hw; [done|]. by apply IH, wf_apply. Qed.

(** An outcome is final. *)
Lemma settled_stays o r c x : wf r -> chans r !! c = Some x -> x <> Open -> chans (apply o r) !! c = Some x.
Proof.
  intros Hw Hx Hne. assert (forall k e, pending r !! k = Some e -> ch e <> c) as Hpc.
  { intros k e Hk <-. assert (chans r !! ch e = Some Open) as E by (apply (wf_open r Hw); eauto). congruence. }
  destruct o as [now s q ps w p|s q a|s q|s|]; cbn.
  - unfold register. destruct (closed r); [done|]. destruct (pending r !! key s q); [done|]. cbn.
    by apply lookup_app_l_Some.
  - unfold Resolve. destruct (pending r !! key s q) as [e|] eqn:E; [|done]. cbn. unfold settle.
    rewrite list_lookup_insert_ne; [done|]. by eapply Hpc.
  - unfold Cancel. destruct (pending r !! key s q) as [e|] eqn:E; [|done]. cbn. unfold settle.
    rewrite list_lookup_insert_ne; [done|]. by eapply Hpc.
  - done.
  - rewrite settle_all_lookup. case_decide as Hin; [|done].
    apply list_elem_of_fmap in Hin as ([k e] & Ec & Hk%elem_of_map_to_list). by destruct (Hpc k e).
Qed.

Lemma settled_stays_run ops r c x : wf r -> chans r !! c = Some x -> x <> Open ->
  chans (foldl (fun r o => apply o r) r ops) !! c = Some x.
Proof.
  revert r. induction ops as [|o ops IH]; intros r Hw Hx Hne; [done|]. cbn.
  apply IH; [by apply wf_apply|by apply settled_stays|done].
Qed.

(** Every wait is woken exactly once.  In every state the registry can
    reach, a channel is without an outcome exactly while its request is
    pending; a [Resolve] that succeeds delivers its answer to the one channel
    of that request; after [Close] no channel is left open and nothing can be
    registered; and an outcome, once there, stays whatever is called next. *)
Theorem wait_settles_once (ops : list op) (s q a : string) :
  let run l r := foldl (fun r o => apply o r) r l in
  let r := run ops NewRegistry in
  (forall c, chans r !! c = Some Open <-> exists k e, pending r !! k = Some e /\ ch e = c) /\
  (forall e, pending r !! key s q = Some e ->
     (Resolve s q a r).2 = Ok tt /\
     forall later, chans (run later (Resolve s q a r).1) !! ch e = Some (Delivered a)) /\
  (pending r !! key s q = None -> Resolve s q a r = (r, Err ErrNotFound)) /\
  (forall later c, chans (run later (Close r)) !! c <> Some Open /\ closed (run later (Close r)) = true).
Proof.
  intros run r. assert (wf r) as Hw by (apply wf_run, wf_new).
  split; [apply (wf_open r Hw)|]. split; [|split].
  - intros e He. unfold Resolve. rewrite He. cbn [fst snd]. split; [done|]. intros later.
    apply settled_stays_run; [by eapply wf_settle| |done]. cbn. unfold settle.
    apply list_lookup_insert_eq, lookup_lt_is_Some. exists Open. apply (wf_open r Hw). eauto.
  - intros E. unfold Resolve. by rewrite E.
  - intros later. pose proof (wf_close r Hw) as Hc. assert (closed (Close r) = true) as E by done.
    revert Hc E. generalize (Close r). induction later as [|o later IH]; intros x Hx E c; cbn.
    + split; [|done]. intros (k & e & Hk & _)%(wf_open x Hx). by rewrite (wf_closed x Hx E), lookup_empty in Hk.
    + apply IH; [by apply wf_apply|]. destruct o; cbn; try done.
      * unfold register. by rewrite E.
      * unfold Resolve. by destruct (pending x !! _).
      * unfold Cancel. by destruct (pending x !! _).
Qed.
