(* ===== verification/SessionInbox.v ===== *)
(** * SessionInbox: buffered messages of a session

    Models [pkg/gateway/session/sessioninbox]: the in-memory and the Redis
    inbox, the dead-letter queue, the events and the coordinator that moves
    messages between them.

    Lists and sorted sets of Redis are the interface [QueueServer], one field
    per command with its documented effect; [queue_server] is an instance.  A
    score is a binary64 number.  The scores are times in milliseconds; for the
    times between 2004 and 2039 (2^40 to 2^41 milliseconds) binary64 numbers
    are the multiples of 2^-12, and a score is counted in that unit.  The JSON
    codec of a message is a parameter, [Codec].

    [Inbox] is the interface of the two inboxes; the coordinator is written and
    proved against it. *)

From S2P Require Import Prelude Text Redis RedisKeys.

(** ** Messages *)

Record Message := mkMessage {
  MessageID : string; SenderSessionID : string; Payload : string; EnqueuedAt : Time }.

#[export] Instance Message_eq_dec : EqDecision Message.
Proof. solve_decision. Defined.

Definition DefaultMaxInboxSize : Z := 500.
Definition DefaultMaxDLQSize : Z := 500.
Definition DefaultDLQTTL : Duration := (900 * Second)%Z.

Definition InboxKey (tenantID sessionID : string) : string :=
  TenantPrefix tenantID +:+ "session:" +:+ sessionID +:+ ":inbox".
Definition DLQKey (tenantID sessionID : string) : string :=
  TenantPrefix tenantID +:+ "session:" +:+ sessionID +:+ ":dlq".

(** [json.Marshal] and [json.Unmarshal] of a message.  A message whose texts
    are valid UTF-8 is read back as it was. *)
Class Codec := {
  marshal : Message -> option string;
  unmarshal : string -> option Message;
  unmarshal_marshal : forall m p, valid_utf8 (MessageID m) = true -> valid_utf8 (SenderSessionID m) = true ->
    marshal m = Some p -> unmarshal p = Some m }.

(** ** Lists and sorted sets *)

Abbreviation Score := Z (only parsing).

(** The order of a sorted set: by score, then by the bytes of the member. *)
Definition zlt (a b : Score * string) : bool :=
  (a.1 <? b.1)%Z || ((a.1 =? b.1)%Z && bool_decide (String.le a.2 b.2) && negb (bool_decide (a.2 = b.2))).

Fixpoint zplace (e : Score * string) (z : list (Score * string)) : list (Score * string) :=
  match z with
  | [] => [e]
  | x :: z => if zlt e x then e :: x :: z else x :: zplace e z
  end.

Definition zremove (m : string) (z : list (Score * string)) : list (Score * string) :=
  List.filter (fun e => negb (bool_decide (e.2 = m))) z.

Definition zadd (s : Score) (m : string) (z : list (Score * string)) : list (Score * string) :=
  zplace (s, m) (zremove m z).

Definition zbetween (lo hi : option Score) (e : Score * string) : bool :=
  match lo with Some l => (l <=? e.1)%Z | None => true end
  && match hi with Some h => (e.1 <=? h)%Z | None => true end.

Fixpoint remove_first (v : string) (l : list string) : option (list string) :=
  match l with
  | [] => None
  | x :: l => if bool_decide (x = v) then Some l else (cons x) <$> remove_first v l
  end.

(** [llist] and [zlist] are the contents of a list and of a sorted set, in
    order; an absent key is empty.  A bound of a range is closed; [top_below]
    is the highest member from a score on and strictly below another. *)
Class QueueServer (Σ : Type) := {
  llist : Σ -> string -> list string;
  zlist : Σ -> string -> list (Score * string);
  LLEN : Σ -> string -> Z;
  LPOP : Σ -> string -> Σ * option string;
  RPUSH : Σ -> string -> string -> Σ;
  LRANGE : Σ -> string -> list string;
  LINDEX : Σ -> string -> option string;
  LREM : Σ -> string -> string -> Σ * Z;
  ZCARD : Σ -> string -> Z;
  ZRANGE : Σ -> string -> list string;
  ZREM : Σ -> string -> string -> Σ * Z;
  ZADD : Σ -> string -> Score -> string -> Σ;
  top_below : Σ -> string -> Score -> Score -> option (string * Score);
  ZRANGEBYSCORE : Σ -> string -> option Score -> option Score -> list string;
  ZREMRANGEBYSCORE : Σ -> string -> option Score -> option Score -> Σ;
  DEL_list : Σ -> string -> Σ;
  DEL_zset : Σ -> string -> Σ;

  LLEN_law σ k : LLEN σ k = Z.of_nat (length (llist σ k));
  LPOP_law σ k : (LPOP σ k).2 = head (llist σ k)
    /\ (forall k', llist (LPOP σ k).1 k' = if decide (k' = k) then tail (llist σ k) else llist σ k')
    /\ zlist (LPOP σ k).1 = zlist σ;
  RPUSH_law σ k v :
    (forall k', llist (RPUSH σ k v) k' = if decide (k' = k) then llist σ k ++ [v] else llist σ k')
    /\ zlist (RPUSH σ k v) = zlist σ;
  LRANGE_law σ k : LRANGE σ k = llist σ k;
  LINDEX_law σ k : LINDEX σ k = head (llist σ k);
  LREM_law σ k v :
    (LREM σ k v).2 = match remove_first v (llist σ k) with Some _ => 1%Z | None => 0%Z end
    /\ (forall k', llist (LREM σ k v).1 k' =
          if decide (k' = k) then default (llist σ k) (remove_first v (llist σ k)) else llist σ k')
    /\ zlist (LREM σ k v).1 = zlist σ;
  ZCARD_law σ k : ZCARD σ k = Z.of_nat (length (zlist σ k));
  ZRANGE_law σ k : ZRANGE σ k = map snd (zlist σ k);
  ZREM_law σ k m :
    (ZREM σ k m).2 = Z.of_nat (length (zlist σ k) - length (zremove m (zlist σ k)))
    /\ (forall k', zlist (ZREM σ k m).1 k' = if decide (k' = k) then zremove m (zlist σ k) else zlist σ k')
    /\ llist (ZREM σ k m).1 = llist σ;
  ZADD_law σ k s m :
    (forall k', zlist (ZADD σ k s m) k' = if decide (k' = k) then zadd s m (zlist σ k) else zlist σ k')
    /\ llist (ZADD σ k s m) = llist σ;
  top_below_law σ k lo hi :
    top_below σ k lo hi =
      (fun e => (e.2, e.1)) <$> last (List.filter (fun e => (lo <=? e.1)%Z && (e.1 <? hi)%Z) (zlist σ k));
  ZRANGEBYSCORE_law σ k lo hi : ZRANGEBYSCORE σ k lo hi = map snd (List.filter (zbetween lo hi) (zlist σ k));
  ZREMRANGEBYSCORE_law σ k lo hi :
    (forall k', zlist (ZREMRANGEBYSCORE σ k lo hi) k' =
      if decide (k' = k) then List.filter (fun e => negb (zbetween lo hi e)) (zlist σ k) else zlist σ k')
    /\ llist (ZREMRANGEBYSCORE σ k lo hi) = llist σ;
  DEL_list_law σ k : (forall k', llist (DEL_list σ k) k' = if decide (k' = k) then [] else llist σ k')
    /\ zlist (DEL_list σ k) = zlist σ;
  DEL_zset_law σ k : (forall k', zlist (DEL_zset σ k) k' = if decide (k' = k) then [] else zlist σ k')
    /\ llist (DEL_zset σ k) = llist σ }.

(** ** Errors and events *)

Inductive InboxError :=
| ErrRedis            (* unreachable, or the reply was lost *)
| ErrJSON
| ErrMessagingUnavailable.

Inductive ExpiryReason := ReasonDLQTTLExpired | ReasonTargetTerminated.

(** The events, with the stream they are published on. *)
Inductive Event :=
| MessageExpired (tenantID senderSessionID messageID targetSessionID : string) (reason : ExpiryReason) (at_ : Time)
| InboxCleared (tenantID sessionID : string) (preservedInDLQ : Z) (at_ : Time).

(** ** The in-memory inbox *)

Module Mem.

Record MemoryInbox := mkMemoryInbox { max : Z; byKey : gmap string (list Message) }.

Definition NewMemoryInbox (maxSize : Z) : MemoryInbox :=
  mkMemoryInbox (if (maxSize <=? 0)%Z then DefaultMaxInboxSize else maxSize) ∅.

Definition queue (m : MemoryInbox) (key : string) : list Message := default [] (byKey m !! key).

Definition Enqueue (m : MemoryInbox) (tenantID sessionID : string) (msg : Message) : MemoryInbox * option Message :=
  let key := InboxKey tenantID sessionID in
  let q := queue m key ++ [msg] in
  match q with
  | old :: rest => if (max m <? Z.of_nat (length q))%Z
                   then (mkMemoryInbox (max m) (<[key := rest]> (byKey m)), Some old)
                   else (mkMemoryInbox (max m) (<[key := q]> (byKey m)), None)
  | [] => (m, None)
  end.

Definition Drain (m : MemoryInbox) (tenantID sessionID : string) : MemoryInbox * list Message :=
  let key := InboxKey tenantID sessionID in
  (mkMemoryInbox (max m) (delete key (byKey m)), queue m key).

Definition Len (m : MemoryInbox) (tenantID sessionID : string) : Z :=
  Z.of_nat (length (queue m (InboxKey tenantID sessionID))).

(** [strconv.FormatInt(msg.EnqueuedAt.UnixNano(), 10)]; [UnixNano] wraps outside
    the years 1678 to 2262. *)
Definition memoryHandle (msg : Message) : string :=
  MessageID msg +:+ "@" +:+ string_of_Z (wrap64 (EnqueuedAt msg - 62135596800 * Second)).

Definition Peek (m : MemoryInbox) (tenantID sessionID : string) : option (Message * string) :=
  (fun msg => (msg, memoryHandle msg)) <$> head (queue m (InboxKey tenantID sessionID)).

Fixpoint remove_handle (handle : string) (q : list Message) : option (list Message) :=
  match q with
  | [] => None
  | msg :: q => if bool_decide (memoryHandle msg = handle) then Some q else (cons msg) <$> remove_handle handle q
  end.

Definition Ack (m : MemoryInbox) (tenantID sessionID handle : string) : MemoryInbox * bool :=
  let key := InboxKey tenantID sessionID in
  match remove_handle handle (queue m key) with
  | None => (m, false)
  | Some [] => (mkMemoryInbox (max m) (delete key (byKey m)), true)
  | Some q => (mkMemoryInbox (max m) (<[key := q]> (byKey m)), true)
  end.

Definition Delete (m : MemoryInbox) (tenantID sessionID : string) : MemoryInbox * Z :=
  let key := InboxKey tenantID sessionID in
  (mkMemoryInbox (max m) (delete key (byKey m)), Z.of_nat (length (queue m key))).

End Mem.

(** ** The Redis inbox *)

Section RedisInbox.
Context {Σ : Type} `{QueueServer Σ} `{Codec}.

Definition enqueueInboxScript (key : string) (cap : Z) (payload : string) : Script Σ (option string) :=
  n <~ sread (fun σ => LLEN σ key);~
  dropped <~ (if (cap <=? n)%Z then (fun σ => let '(σ, v) := LPOP σ key in (σ, Some v)) else sret None);~
  swrite (fun σ => RPUSH σ key payload);~~
  sret dropped.

(** The member the reply holds, decoded. *)
Definition decode_dropped (raw : option string) : result InboxError (option Message) :=
  match raw with
  | None => Ok None
  | Some s => match unmarshal s with Some m => Ok (Some m) | None => Err ErrJSON end
  end.

Definition redis_Enqueue (tr : transport) (max : Z) (tenantID sessionID : string) (msg : Message) (σ : Σ) :
    Σ * result InboxError (option Message) :=
  match marshal msg with
  | None => (σ, Err ErrJSON)
  | Some payload =>
      match run_script tr (enqueueInboxScript (InboxKey tenantID sessionID) max payload) σ with
      | (σ, Some raw) => (σ, decode_dropped raw)
      | (σ, None) => (σ, Err ErrRedis)
      end
  end.

Fixpoint decodeRaw (raw : list string) : result InboxError (list Message) :=
  match raw with
  | [] => Ok []
  | s :: raw => match unmarshal s with
                | None => Err ErrJSON
                | Some m => let* ms := decodeRaw raw in Ok (m :: ms)
                end
  end.

(** A transaction that reads with [f] and writes with [g]. *)
Definition tx {A} (tr : transport) (f : Σ -> A) (g : Σ -> Σ) (σ : Σ) : Σ * result InboxError A :=
  match run_script tr (fun σ => (g σ, Some (f σ))) σ with
  | (σ, Some a) => (σ, Ok a)
  | (σ, None) => (σ, Err ErrRedis)
  end.

Definition redis_Drain (tr : transport) (tenantID sessionID : string) (σ : Σ) :
    Σ * result InboxError (list Message) :=
  let key := InboxKey tenantID sessionID in
  let '(σ, raw) := tx tr (fun σ => LRANGE σ key) (fun σ => DEL_list σ key) σ in
  (σ, let* raw := raw in decodeRaw raw).

Definition redis_Len (tr : transport) (tenantID sessionID : string) (σ : Σ) : result InboxError Z :=
  (tx tr (fun σ => LLEN σ (InboxKey tenantID sessionID)) (fun σ => σ) σ).2.

Definition redis_Peek (tr : transport) (tenantID sessionID : string) (σ : Σ) :
    result InboxError (option (Message * string)) :=
  let* raw := (tx tr (fun σ => LINDEX σ (InboxKey tenantID sessionID)) (fun σ => σ) σ).2 in
  match raw with
  | None => Ok None
  | Some s => match unmarshal s with Some m => Ok (Some (m, s)) | None => Err ErrJSON end
  end.

Definition redis_Ack (tr : transport) (tenantID sessionID handle : string) (σ : Σ) : Σ * result InboxError bool :=
  let key := InboxKey tenantID sessionID in
  tx tr (fun σ => (0 <? (LREM σ key handle).2)%Z) (fun σ => (LREM σ key handle).1) σ.

Definition redis_Delete (tr : transport) (tenantID sessionID : string) (σ : Σ) : Σ * result InboxError Z :=
  let key := InboxKey tenantID sessionID in
  tx tr (fun σ => LLEN σ key) (fun σ => DEL_list σ key) σ.

(** ** The dead-letter queue *)

Definition UnixMilli (t : Time) : Z := (t / Millisecond - 62135596800000)%Z.

(** One millisecond, and the binary64 number nearest to a count of
    thousandths of it: no count below a thousand lies halfway between two. *)
Definition Milli : Score := 4096%Z.
Definition thousandths (step : Z) : Score := ((step * Milli + 500) / 1000)%Z.

(** [math.floor(x * 1000 + 0.5) + 1], at most 999; the product and the sum are
    exact for a difference below one millisecond. *)
Definition next_step (diff : Score) : Z := Z.min 999 ((diff * 1000 + Milli / 2) / Milli + 1).

Definition enqueueDLQScript (key : string) (cap : Z) (score : Z) (member : string) : Script Σ (option string) :=
  n <~ sread (fun σ => ZCARD σ key);~
  dropped <~ (if (cap <=? n)%Z
              then low <~ sread (fun σ => head (ZRANGE σ key));~
                   match low with
                   | Some m => swrite (fun σ => (ZREM σ key m).1);~~ sret (Some m)
                   | None => sret None
                   end
              else sret None);~
  top <~ sread (fun σ => top_below σ key (score * Milli)%Z ((score + 1) * Milli)%Z);~
  let s := match top with
           | Some (_, t) => (score * Milli + thousandths (next_step (t - score * Milli)))%Z
           | None => (score * Milli)%Z
           end in
  swrite (fun σ => ZADD σ key s member);~~
  sret dropped.

Definition DLQMember (msg : Message) : option string := marshal msg.

Definition expiry (msg : Message) (ttl : Duration) : Z :=
  UnixMilli (time_add (EnqueuedAt msg) (if (ttl <=? 0)%Z then DefaultDLQTTL else ttl)).

Definition dlq_Enqueue (tr : transport) (max : Z) (tenantID sessionID : string) (msg : Message) (ttl : Duration) (σ : Σ) :
    Σ * result InboxError (option Message) :=
  match DLQMember msg with
  | None => (σ, Err ErrJSON)
  | Some payload =>
      match run_script tr (enqueueDLQScript (DLQKey tenantID sessionID) max (expiry msg ttl) payload) σ with
      | (σ, Some raw) => (σ, decode_dropped raw)
      | (σ, None) => (σ, Err ErrRedis)
      end
  end.

Definition DrainAll (tr : transport) (tenantID sessionID : string) (σ : Σ) : Σ * result InboxError (list Message) :=
  let key := DLQKey tenantID sessionID in
  let '(σ, raw) := tx tr (fun σ => ZRANGE σ key) (fun σ => DEL_zset σ key) σ in
  (σ, let* raw := raw in decodeRaw raw).

Definition sweepExpiredScript (key : string) (now : Z) : Script Σ (list string) :=
  expired <~ sread (fun σ => ZRANGEBYSCORE σ key None (Some (now * Milli)%Z));~
  (match expired with
   | [] => sret tt
   | _ => swrite (fun σ => ZREMRANGEBYSCORE σ key None (Some (now * Milli)%Z))
   end);~~
  sret expired.

Definition dlq_SweepExpired (tr : transport) (tenantID sessionID : string) (now : Time) (σ : Σ) :
    Σ * result InboxError (list Message) :=
  match run_script tr (sweepExpiredScript (DLQKey tenantID sessionID) (UnixMilli now)) σ with
  | (σ, Some raw) => (σ, decodeRaw raw)
  | (σ, None) => (σ, Err ErrRedis)
  end.

Definition PeekOldest (tr : transport) (tenantID sessionID : string) (σ : Σ) :
    result InboxError (option (Message * string)) :=
  let* raw := (tx tr (fun σ => head (ZRANGE σ (DLQKey tenantID sessionID))) (fun σ => σ) σ).2 in
  match raw with
  | None => Ok None
  | Some s => match unmarshal s with Some m => Ok (Some (m, s)) | None => Err ErrJSON end
  end.

Definition Remove (tr : transport) (tenantID sessionID member : string) (σ : Σ) : Σ * result InboxError bool :=
  let key := DLQKey tenantID sessionID in
  tx tr (fun σ => (0 <? (ZREM σ key member).2)%Z) (fun σ => (ZREM σ key member).1) σ.

Definition CountAcceptedAfter (tr : transport) (tenantID sessionID : string) (since : Time) (σ : Σ) :
    result InboxError Z :=
  let floor := UnixMilli (time_add since DefaultDLQTTL) in
  (tx tr (fun σ => Z.of_nat (length (ZRANGEBYSCORE σ (DLQKey tenantID sessionID) (Some (floor * Milli)%Z) None)))
     (fun σ => σ) σ).2.

Definition dlq_Delete (tr : transport) (tenantID sessionID : string) (σ : Σ) : Σ * result InboxError Z :=
  let key := DLQKey tenantID sessionID in
  tx tr (fun σ => ZCARD σ key) (fun σ => DEL_zset σ key) σ.

Definition dlq_Len (tr : transport) (tenantID sessionID : string) (σ : Σ) : result InboxError Z :=
  (tx tr (fun σ => ZCARD σ (DLQKey tenantID sessionID)) (fun σ => σ) σ).2.

End RedisInbox.

(** ** The inbox interface and the coordinator *)

(** The world of an inbox: what the replica keeps in memory, and Redis. *)
Class Inbox (I Σ : Type) := {
  inbox_Enqueue : transport -> I * Σ -> string -> string -> Message -> (I * Σ) * result InboxError (option Message);
  inbox_Drain : transport -> I * Σ -> string -> string -> (I * Σ) * result InboxError (list Message);
  inbox_Len : transport -> I * Σ -> string -> string -> result InboxError Z;
  inbox_Peek : transport -> I * Σ -> string -> string -> result InboxError (option (Message * string));
  inbox_Ack : transport -> I * Σ -> string -> string -> string -> (I * Σ) * result InboxError bool;
  inbox_Delete : transport -> I * Σ -> string -> string -> (I * Σ) * result InboxError Z }.

Definition with_mem {A Σ} (w : Mem.MemoryInbox * Σ) (r : Mem.MemoryInbox * A) :
    (Mem.MemoryInbox * Σ) * result InboxError A := ((r.1, w.2), Ok r.2).

#[export] Instance memory_inbox {Σ} : Inbox Mem.MemoryInbox Σ := {
  inbox_Enqueue _ w t s m := with_mem w (Mem.Enqueue w.1 t s m);
  inbox_Drain _ w t s := with_mem w (Mem.Drain w.1 t s);
  inbox_Len _ w t s := Ok (Mem.Len w.1 t s);
  inbox_Peek _ w t s := Ok (Mem.Peek w.1 t s);
  inbox_Ack _ w t s h := with_mem w (Mem.Ack w.1 t s h);
  inbox_Delete _ w t s := with_mem w (Mem.Delete w.1 t s) }.

(** The Redis inbox keeps only its cap in memory. *)
Record RedisInbox := mkRedisInbox { rmax : Z }.

Definition NewRedisInbox (maxSize : Z) : RedisInbox :=
  mkRedisInbox (if (maxSize <=? 0)%Z then DefaultMaxInboxSize else maxSize).

Definition with_redis {A Σ} (w : RedisInbox * Σ) (r : Σ * result InboxError A) :
    (RedisInbox * Σ) * result InboxError A := ((w.1, r.1), r.2).

#[export] Instance redis_inbox {Σ} `{QueueServer Σ} `{Codec} : Inbox RedisInbox Σ := {
  inbox_Enqueue tr w t s m := with_redis w (redis_Enqueue tr (rmax w.1) t s m w.2);
  inbox_Drain tr w t s := with_redis w (redis_Drain tr t s w.2);
  inbox_Len tr w t s := redis_Len tr t s w.2;
  inbox_Peek tr w t s := redis_Peek tr t s w.2;
  inbox_Ack tr w t s h := with_redis w (redis_Ack tr t s h w.2);
  inbox_Delete tr w t s := with_redis w (redis_Delete tr t s w.2) }.

Section Coordinator.
Context {I Σ : Type} `{QueueServer Σ} `{Codec} `{Inbox I Σ}.

(** [NewDLQ]. *)
Definition NewDLQ (maxSize : Z) : Z := if (maxSize <=? 0)%Z then DefaultMaxDLQSize else maxSize.

(** The cap of the dead-letter queue, the mode, whether an emitter is wired. *)
Record Coordinator := mkCoordinator { dlqMax : Z; durable : bool; emits : bool }.

Abbreviation W := (I * Σ)%type.

Definition on_srv {A} (w : W) (r : Σ * A) : W * A := ((w.1, r.1), r.2).

(** The loop that moves the drained messages; it stops at the first failure.
    The messages an enqueue evicts are discarded. *)
Fixpoint migrate_loop (c : Coordinator) (trs : nat -> transport) (i : nat) (tenantID sessionID : string)
    (msgs : list Message) (preserved : Z) (w : W) : W * (Z * option InboxError) :=
  match msgs with
  | [] => (w, (preserved, None))
  | m :: msgs =>
      match on_srv w (dlq_Enqueue (trs i) (dlqMax c) tenantID sessionID m DefaultDLQTTL w.2) with
      | (w, Err e) => (w, (preserved, Some e))
      | (w, Ok _) => migrate_loop c trs (S i) tenantID sessionID msgs (preserved + 1)%Z w
      end
  end.

Definition MigrateInboxToDLQ (c : Coordinator) (tr : transport) (trs : nat -> transport)
    (tenantID sessionID : string) (w : W) : W * (Z * option InboxError) :=
  if durable c then (w, (0%Z, None))
  else match inbox_Drain tr w tenantID sessionID with
       | (w, Err e) => (w, (0%Z, Some e))
       | (w, Ok msgs) => migrate_loop c trs 0 tenantID sessionID msgs 0 w
       end.

Definition stamp (now : Time) (m : Message) : Message :=
  if time_is_zero (EnqueuedAt m) then mkMessage (MessageID m) (SenderSessionID m) (Payload m) now else m.

Definition EnqueueInbox (c : Coordinator) (tr : transport) (now : Time) (tenantID sessionID : string) (m : Message) (w : W) :=
  inbox_Enqueue tr w tenantID sessionID (stamp now m).

Definition EnqueueDLQ (c : Coordinator) (tr : transport) (now : Time) (tenantID sessionID : string) (m : Message)
    (ttl : Duration) (w : W) : W * result InboxError (option Message) :=
  on_srv w (dlq_Enqueue tr (dlqMax c) tenantID sessionID (stamp now m) ttl w.2).

Definition HeldLen (tr1 tr2 : transport) (tenantID sessionID : string) (withInbox : bool) (acceptedAfter : Time) (w : W) :
    result InboxError Z :=
  let* n := (if time_is_zero acceptedAfter then dlq_Len tr1 tenantID sessionID w.2
             else CountAcceptedAfter tr1 tenantID sessionID acceptedAfter w.2) in
  if withInbox then let* k := inbox_Len tr2 w tenantID sessionID in Ok (n + k)%Z else Ok n.

(** The count that is returned, and the error. *)
Definition EraseSession (tr1 tr2 : transport) (tenantID sessionID : string) (w : W) : W * (Z * option InboxError) :=
  match on_srv w (dlq_Delete tr1 tenantID sessionID w.2) with
  | (w, Err e) => (w, (0%Z, Some e))
  | (w, Ok n) => match inbox_Delete tr2 w tenantID sessionID with
                 | (w, Err e) => (w, (n, Some e))
                 | (w, Ok k) => (w, ((n + k)%Z, None))
                 end
  end.

Definition emitExpired (c : Coordinator) (tenantID target : string) (msgs : list Message) (reason : ExpiryReason)
    (now : Time) : list Event :=
  if emits c
  then omap (fun m => if is_empty (SenderSessionID m) then None
                      else Some (MessageExpired tenantID (SenderSessionID m) (MessageID m) target reason now)) msgs
  else [].

Definition DrainOnTerminal (c : Coordinator) (tr1 tr2 : transport) (now : Time) (tenantID sessionID : string) (w : W) :
    W * list Event * (Z * option InboxError) :=
  match inbox_Drain tr1 w tenantID sessionID with
  | (w, Err e) => (w, [], (0%Z, Some e))
  | (w, Ok inboxMsgs) =>
      match on_srv w (DrainAll tr2 tenantID sessionID w.2) with
      | (w, Err e) => (w, emitExpired c tenantID sessionID inboxMsgs ReasonTargetTerminated now,
                       (Z.of_nat (length inboxMsgs), Some e))
      | (w, Ok dlqMsgs) =>
          let all := inboxMsgs ++ dlqMsgs in
          (w, emitExpired c tenantID sessionID all ReasonTargetTerminated now, (Z.of_nat (length all), None))
      end
  end.

Definition ClearInboxOnAcquire (c : Coordinator) (tr : transport) (now : Time) (tenantID sessionID : string) (w : W) :
    list Event * result InboxError Z :=
  if negb (emits c) || durable c then ([], Ok 0%Z)
  else match dlq_Len tr tenantID sessionID w.2 with
       | Err e => ([], Err e)
       | Ok n => ([InboxCleared tenantID sessionID n now], Ok n)
       end.

Definition SweepExpired (c : Coordinator) (tr : transport) (now : Time) (tenantID sessionID : string) (w : W) :
    W * list Event * result InboxError Z :=
  match on_srv w (dlq_SweepExpired tr tenantID sessionID now w.2) with
  | (w, Err e) => (w, [], Err e)
  | (w, Ok msgs) => (w, emitExpired c tenantID sessionID msgs ReasonDLQTTLExpired now, Ok (Z.of_nat (length msgs)))
  end.

End Coordinator.

(** ** An instance of the Redis interface *)

Record Keyspace := mkKeyspace { klists : gmap string (list string); kzsets : gmap string (list (Score * string)) }.

Definition get {A} (m : gmap string (list A)) (k : string) : list A := default [] (m !! k).

Lemma get_insert {A} (m : gmap string (list A)) k l k' :
  get (<[k := l]> m) k' = if decide (k' = k) then l else get m k'.
Proof.
  unfold get. case_decide as Hk; subst; [by rewrite lookup_insert_eq|by rewrite lookup_insert_ne].
Qed.

Definition set_list (σ : Keyspace) (k : string) (l : list string) : Keyspace :=
  mkKeyspace (<[k := l]> (klists σ)) (kzsets σ).
Definition set_zset (σ : Keyspace) (k : string) (z : list (Score * string)) : Keyspace :=
  mkKeyspace (klists σ) (<[k := z]> (kzsets σ)).

#[export, refine] Instance queue_server : QueueServer Keyspace := {|
  llist σ k := get (klists σ) k;
  zlist σ k := get (kzsets σ) k;
  LLEN σ k := Z.of_nat (length (get (klists σ) k));
  LPOP σ k := (set_list σ k (tail (get (klists σ) k)), head (get (klists σ) k));
  RPUSH σ k v := set_list σ k (get (klists σ) k ++ [v]);
  LRANGE σ k := get (klists σ) k;
  LINDEX σ k := head (get (klists σ) k);
  LREM σ k v := (set_list σ k (default (get (klists σ) k) (remove_first v (get (klists σ) k))),
                 match remove_first v (get (klists σ) k) with Some _ => 1%Z | None => 0%Z end);
  ZCARD σ k := Z.of_nat (length (get (kzsets σ) k));
  ZRANGE σ k := map snd (get (kzsets σ) k);
  ZREM σ k m := (set_zset σ k (zremove m (get (kzsets σ) k)),
                 Z.of_nat (length (get (kzsets σ) k) - length (zremove m (get (kzsets σ) k))));
  ZADD σ k s m := set_zset σ k (zadd s m (get (kzsets σ) k));
  top_below σ k lo hi :=
    (fun e => (e.2, e.1)) <$> last (List.filter (fun e => (lo <=? e.1)%Z && (e.1 <? hi)%Z) (get (kzsets σ) k));
  ZRANGEBYSCORE σ k lo hi := map snd (List.filter (zbetween lo hi) (get (kzsets σ) k));
  ZREMRANGEBYSCORE σ k lo hi := set_zset σ k (List.filter (fun e => negb (zbetween lo hi e)) (get (kzsets σ) k));
  DEL_list σ k := set_list σ k [];
  DEL_zset σ k := set_zset σ k []
|}.
Proof. all: intros; try done; repeat split; try done; intros; apply get_insert. Defined.

(** ** The keys *)

Lemma inbox_dlq_disjoint t s t' s' : InboxKey t s <> DLQKey t' s'.
Proof.
  assert (forall p q r, p +:+ ":inbox" = q +:+ r -> r = ":dlq" -> False) as Hne.
  { intros p q r E ->. assert (ends : forall x y, x +:+ "x" = y +:+ "q" -> False).
    { intros x. induction x as [|a x IH]; intros y Ey; destruct y as [|b y]; try discriminate.
      - injection Ey as _ Ey. destruct y; discriminate.
      - injection Ey as _ Ey. destruct x; discriminate.
      - rewrite !append_cons in Ey. injection Ey as _ Ey. by apply (IH y). }
    apply (ends (p +:+ ":inbo") (q +:+ ":dl")). rewrite !append_assoc3. exact E. }
  unfold InboxKey, DLQKey. intros E.
  apply (Hne (TenantPrefix t +:+ "session:" +:+ s) (TenantPrefix t' +:+ "session:" +:+ s') ":dlq"); [|done].
  rewrite !append_assoc3. exact E.
Qed.

Lemma InboxKey_inj t s s' : InboxKey t s = InboxKey t s' -> s = s'.
Proof. unfold InboxKey. intros E. do 2 apply append_cancel in E. by apply append_cancel_r in E. Qed.

(** ** The queue both inboxes implement *)

(** A queue of at most [max] messages: an enqueue beyond it evicts the oldest. *)
Definition q_enqueue (max : Z) (q : list Message) (m : Message) : list Message * option Message :=
  let q' := q ++ [m] in
  if (max <? Z.of_nat (length q'))%Z then (tail q', head q') else (q', None).

(** What can be asked of an inbox; [Deliver] is the delivery of a held message:
    a peek, and an acknowledgement of the entry it named. *)
Inductive InboxOp := Accept (m : Message) | Deliver | Take | Size | Erase.

Inductive Answer :=
| AAccepted (dropped : option Message) | ADelivered (m : option Message) | ATaken (ms : list Message)
| ASize (n : Z) | AErased (n : Z) | AError (e : InboxError).

Definition q_op (max : Z) (q : list Message) (op : InboxOp) : list Message * Answer :=
  match op with
  | Accept m => let '(q, d) := q_enqueue max q m in (q, AAccepted d)
  | Deliver => (tail q, ADelivered (head q))
  | Take => ([], ATaken q)
  | Size => (q, ASize (Z.of_nat (length q)))
  | Erase => ([], AErased (Z.of_nat (length q)))
  end.

Fixpoint q_run (max : Z) (q : list Message) (l : list InboxOp) : list Message * list Answer :=
  match l with
  | [] => (q, [])
  | op :: l => let '(q, a) := q_op max q op in
               let '(q, r) := q_run max q l in (q, a :: r)
  end.

Section Laws.
Context {I Σ : Type} `{QueueServer Σ} `{Codec} `{Inbox I Σ}.

Definition inbox_op (t s : string) (w : I * Σ) (op : InboxOp) : (I * Σ) * Answer :=
  let answer {A} (r : (I * Σ) * result InboxError A) (f : A -> Answer) :=
    (r.1, match r.2 with Ok a => f a | Err e => AError e end) in
  match op with
  | Accept m => answer (inbox_Enqueue Delivered w t s m) AAccepted
  | Deliver =>
      match inbox_Peek Delivered w t s with
      | Err e => (w, AError e)
      | Ok None => (w, ADelivered None)
      | Ok (Some (m, handle)) =>
          answer (inbox_Ack Delivered w t s handle) (fun removed => ADelivered (if removed : bool then Some m else None))
      end
  | Take => answer (inbox_Drain Delivered w t s) ATaken
  | Size => (w, match inbox_Len Delivered w t s with Ok n => ASize n | Err e => AError e end)
  | Erase => answer (inbox_Delete Delivered w t s) AErased
  end.

Fixpoint inbox_run (t s : string) (w : I * Σ) (l : list InboxOp) : (I * Σ) * list Answer :=
  match l with
  | [] => (w, [])
  | op :: l => let '(w, a) := inbox_op t s w op in
               let '(w, r) := inbox_run t s w l in (w, a :: r)
  end.

(** What an inbox promises: [holds w k q] says that the queue under the key [k]
    is [q].  A call changes no other key and no sorted set; a failed call did
    nothing or did what it was asked. *)
Class InboxLaws := {
  cap : I -> Z;
  good : Message -> Prop;
  holds : I * Σ -> string -> list Message -> Prop;
  holds_frame : forall i σ σ' k q, llist σ' = llist σ -> holds (i, σ) k q -> holds (i, σ') k q;
  enqueue_law : forall tr w t s m q w' r, (0 < cap w.1)%Z -> good m -> holds w (InboxKey t s) q ->
    inbox_Enqueue tr w t s m = (w', r) ->
    cap w'.1 = cap w.1 /\ zlist w'.2 = zlist w.2
    /\ match r with
       | Ok d => holds w' (InboxKey t s) (q_enqueue (cap w.1) q m).1 /\ d = (q_enqueue (cap w.1) q m).2
       | Err _ => holds w' (InboxKey t s) q \/ holds w' (InboxKey t s) (q_enqueue (cap w.1) q m).1
       end
    /\ (tr = Delivered -> is_ok r = true);
  drain_law : forall tr w t s q w' r, holds w (InboxKey t s) q -> inbox_Drain tr w t s = (w', r) ->
    cap w'.1 = cap w.1 /\ zlist w'.2 = zlist w.2
    /\ match r with
       | Ok ms => ms = q /\ holds w' (InboxKey t s) []
       | Err _ => holds w' (InboxKey t s) q \/ holds w' (InboxKey t s) []
       end
    /\ (tr = Delivered -> is_ok r = true);
  len_law : forall w t s q, holds w (InboxKey t s) q ->
    inbox_Len Delivered w t s = Ok (Z.of_nat (length q));
  deliver_law : forall w t s q, holds w (InboxKey t s) q ->
    match q with
    | [] => inbox_Peek Delivered w t s = Ok None
    | m :: q => exists handle w', inbox_Peek Delivered w t s = Ok (Some (m, handle))
        /\ inbox_Ack Delivered w t s handle = (w', Ok true) /\ holds w' (InboxKey t s) q /\ cap w'.1 = cap w.1
    end;
  delete_law : forall tr w t s q w' r, holds w (InboxKey t s) q -> inbox_Delete tr w t s = (w', r) ->
    cap w'.1 = cap w.1
    /\ match r with
       | Ok n => n = Z.of_nat (length q) /\ holds w' (InboxKey t s) []
       | Err _ => holds w' (InboxKey t s) q \/ holds w' (InboxKey t s) []
       end
    /\ (tr = Delivered -> is_ok r = true) }.

Definition op_good `{InboxLaws} (op : InboxOp) : Prop := match op with Accept m => good m | _ => True end.

Lemma inbox_op_refines `{InboxLaws} t s w q op :
  (0 < cap w.1)%Z -> holds w (InboxKey t s) q -> op_good op ->
  let '(w', a) := inbox_op t s w op in
  cap w'.1 = cap w.1 /\ holds w' (InboxKey t s) (q_op (cap w.1) q op).1 /\ a = (q_op (cap w.1) q op).2.
Proof.
  intros Hcap Hq Hg. destruct op as [m| | | |]; cbn [inbox_op q_op op_good] in *.
  - destruct (inbox_Enqueue Delivered w t s m) as [w' r] eqn:E.
    destruct (enqueue_law _ _ _ _ _ _ _ _ Hcap Hg Hq E) as (Hc & _ & Hr & Hok). cbn [fst snd].
    destruct r as [d|e]; [|by specialize (Hok eq_refl)]. destruct Hr as [Hh ->].
    by destruct (q_enqueue (cap w.1) q m).
  - pose proof (deliver_law w t s q Hq) as Hd. destruct q as [|m q].
    + by rewrite Hd.
    + destruct Hd as (handle & w' & -> & -> & Hh & Hc). done.
  - destruct (inbox_Drain Delivered w t s) as [w' r] eqn:E.
    destruct (drain_law _ _ _ _ _ _ _ Hq E) as (Hc & _ & Hr & Hok). cbn [fst snd].
    destruct r as [ms|e]; [|by specialize (Hok eq_refl)]. by destruct Hr as [-> Hh].
  - by rewrite (len_law _ _ _ _ Hq).
  - destruct (inbox_Delete Delivered w t s) as [w' r] eqn:E.
    destruct (delete_law _ _ _ _ _ _ _ Hq E) as (Hc & Hr & Hok). cbn [fst snd].
    destruct r as [n|e]; [|by specialize (Hok eq_refl)]. by destruct Hr as [-> Hh].
Qed.

Lemma inbox_run_refines `{InboxLaws} t s l w q :
  (0 < cap w.1)%Z -> holds w (InboxKey t s) q -> Forall op_good l ->
  (inbox_run t s w l).2 = (q_run (cap w.1) q l).2.
Proof.
  revert w q. induction l as [|op l IH]; intros w q Hcap Hq Hl; [done|].
  apply Forall_cons in Hl as [Hop Hl]. cbn [inbox_run q_run].
  pose proof (inbox_op_refines t s w q op Hcap Hq Hop) as Hstep.
  destruct (inbox_op t s w op) as [w1 a]. destruct (q_op (cap w.1) q op) as [q1 a'] eqn:Eq. cbn [fst snd] in Hstep.
  destruct Hstep as (Hc & Hq1 & ->). specialize (IH w1 q1). rewrite Hc in IH. specialize (IH Hcap Hq1 Hl).
  destruct (inbox_run t s w1 l), (q_run (cap w.1) q1 l). cbn in *. by rewrite IH.
Qed.
End Laws.
Arguments InboxLaws I Σ {_ _}.

(** ** The in-memory inbox keeps the promise *)

Lemma mem_queue_insert n b key q : Mem.queue (Mem.mkMemoryInbox n (<[key := q]> b)) key = q.
Proof. unfold Mem.queue. cbn. by rewrite lookup_insert_eq. Qed.

Lemma mem_queue_delete n b key : Mem.queue (Mem.mkMemoryInbox n (delete key b)) key = [].
Proof. unfold Mem.queue. cbn. by rewrite lookup_delete_eq. Qed.

Lemma mem_Enqueue_spec m t s msg :
  let '(m', d) := Mem.Enqueue m t s msg in
  let '(q', d') := q_enqueue (Mem.max m) (Mem.queue m (InboxKey t s)) msg in
  Mem.max m' = Mem.max m /\ Mem.queue m' (InboxKey t s) = q' /\ d = d'.
Proof.
  unfold Mem.Enqueue, q_enqueue. cbn zeta.
  destruct (Mem.queue m (InboxKey t s) ++ [msg]) as [|old rest] eqn:E; [by destruct (Mem.queue m _)|].
  destruct (_ <? _)%Z; cbn [Mem.max tail head]; by rewrite mem_queue_insert.
Qed.

#[export] Instance memory_inbox_laws {Σ} `{QueueServer Σ} : InboxLaws Mem.MemoryInbox Σ.
Proof.
  refine {| cap := Mem.max; good := fun _ => True; holds := fun w k q => Mem.queue w.1 k = q |}.
  - done.
  - intros tr w t s m q w' r _ _ <-. cbn. unfold with_mem.
    pose proof (mem_Enqueue_spec w.1 t s m) as Hs. destruct (Mem.Enqueue w.1 t s m) as [m' d].
    destruct (q_enqueue _ _ _) as [q' d']. intros [= <- <-]. destruct Hs as (? & ? & ->). by split_and!.
  - intros tr w t s q w' r <-. cbn. unfold with_mem, Mem.Drain. cbn zeta. intros [= <- <-]. cbn.
    split_and!; try done. by apply mem_queue_delete.
  - intros w t s q <-. done.
  - intros w t s q Hq. cbn. unfold Mem.Peek. rewrite Hq. destruct q as [|m q]; [done|]. cbn.
    exists (Mem.memoryHandle m). unfold with_mem, Mem.Ack. cbn zeta. rewrite Hq. cbn [Mem.remove_handle].
    rewrite bool_decide_eq_true_2 by done.
    destruct q as [|m' q]; eexists; (split_and!; [done|done| |done]); cbn.
    + by apply mem_queue_delete.
    + by apply mem_queue_insert.
  - intros tr w t s q w' r <-. cbn. unfold with_mem, Mem.Delete. cbn zeta. intros [= <- <-]. cbn.
    split_and!; try done. by apply mem_queue_delete.
Defined.

(** ** The Redis inbox keeps the promise *)

Section RedisLaws.
Context {Σ : Type} `{QueueServer Σ} `{Codec}.

(** A message the codec carries. *)
Definition carried (m : Message) : Prop :=
  valid_utf8 (MessageID m) = true /\ valid_utf8 (SenderSessionID m) = true /\ is_Some (marshal m).

Definition encodes (raw : string) (m : Message) : Prop := marshal m = Some raw /\ carried m.

Lemma encodes_unmarshal raw m : encodes raw m -> unmarshal raw = Some m.
Proof. intros (Hm & Hu & Hv & _). by apply unmarshal_marshal. Qed.

Lemma decodeRaw_encodes raws ms : Forall2 encodes raws ms -> decodeRaw raws = Ok ms.
Proof. induction 1 as [|raw m raws ms He _ IH]; [done|]. cbn. by rewrite (encodes_unmarshal _ _ He), IH. Qed.

Lemma decode_dropped_encodes raws ms :
  Forall2 encodes raws ms -> decode_dropped (head raws) = Ok (head ms).
Proof. intros Hf. destruct Hf as [|raw m raws ms He _]; [done|]. cbn. by rewrite (encodes_unmarshal _ _ He). Qed.

(** What the enqueue script does to its list, and its reply. *)
Lemma enqueueInboxScript_spec key max payload σ :
  (0 < max)%Z ->
  let l := llist σ key in
  let '(σ', r) := enqueueInboxScript key max payload σ in
  zlist σ' = zlist σ
  /\ if (max <=? Z.of_nat (length l))%Z
     then llist σ' key = tail l ++ [payload] /\ r = Some (head l)
     else llist σ' key = l ++ [payload] /\ r = Some None.
Proof.
  intros Hm. cbn zeta. unfold enqueueInboxScript, sbind, sread, swrite, sret. rewrite LLEN_law.
  destruct (max <=? Z.of_nat (length (llist σ key)))%Z eqn:E.
  - destruct (LPOP_law σ key) as (Hv & Hl & Hz). destruct (LPOP σ key) as [σ1 v]. cbn in *. subst v.
    destruct (RPUSH_law σ1 key payload) as [Hr Hz1]. rewrite Hz1, Hz. split; [done|].
    by rewrite Hr, decide_True, Hl, decide_True.
  - destruct (RPUSH_law σ key payload) as [Hr Hz1]. rewrite Hz1. split; [done|]. by rewrite Hr, decide_True.
Qed.

Lemma q_enqueue_le max q m :
  (0 < max)%Z ->
  q_enqueue max q m = if (max <=? Z.of_nat (length q))%Z then (tail q ++ [m], head q) else (q ++ [m], None).
Proof.
  intros Hm. unfold q_enqueue. cbn zeta. rewrite length_app. cbn [length].
  destruct (Z.leb_spec max (Z.of_nat (length q))), (Z.ltb_spec max (Z.of_nat (length q + 1))); try lia; [|done].
  destruct q; [cbn in *; lia|done].
Qed.

Lemma Forall2_tail {A B} (P : A -> B -> Prop) l l' : Forall2 P l l' -> Forall2 P (tail l) (tail l').
Proof. by intros [|? ? ? ? _ Hf]. Qed.

Lemma redis_Enqueue_law tr max t s m q σ σ' r :
  (0 < max)%Z -> carried m -> Forall2 encodes (llist σ (InboxKey t s)) q ->
  redis_Enqueue tr max t s m σ = (σ', r) ->
  zlist σ' = zlist σ
  /\ match r with
     | Ok d => Forall2 encodes (llist σ' (InboxKey t s)) (q_enqueue max q m).1 /\ d = (q_enqueue max q m).2
     | Err _ => Forall2 encodes (llist σ' (InboxKey t s)) q
                \/ Forall2 encodes (llist σ' (InboxKey t s)) (q_enqueue max q m).1
     end
  /\ (tr = Delivered -> is_ok r = true).
Proof.
  intros Hmax Hm Hq. unfold redis_Enqueue. pose proof Hm as (_ & _ & payload & Hp). rewrite Hp.
  assert (encodes payload m) as Hen by (by split).
  rewrite q_enqueue_le by done. rewrite <- (Forall2_length _ _ _ Hq).
  pose proof (enqueueInboxScript_spec (InboxKey t s) max payload σ Hmax) as Hs. cbn zeta in Hs.
  destruct tr; cbn [run_script].
  - destruct (enqueueInboxScript (InboxKey t s) max payload σ) as [σ1 r1]. destruct Hs as [Hz Hs].
    destruct (max <=? _)%Z; destruct Hs as [Hl ->]; intros [= <- <-]; rewrite Hl.
    + split; [done|]. rewrite (decode_dropped_encodes _ _ Hq). split; [|done]. cbn. split; [|done].
      apply Forall2_app; [by apply Forall2_tail|by constructor].
    + split; [done|]. split; [|done]. cbn. split; [|done]. apply Forall2_app; [done|by constructor].
  - destruct (enqueueInboxScript (InboxKey t s) max payload σ) as [σ1 r1]. destruct Hs as [Hz Hs]. cbn [fst].
    destruct (max <=? _)%Z; destruct Hs as [Hl _]; intros [= <- <-]; rewrite Hl; (split; [done|]); (split; [right|done]).
    + apply Forall2_app; [by apply Forall2_tail|by constructor].
    + apply Forall2_app; [done|by constructor].
  - intros [= <- <-]. split; [done|]. split; [by left|done].
Qed.

Lemma tx_cases {A} tr (f : Σ -> A) g σ σ' r :
  tx tr f g σ = (σ', r) ->
  match r with Ok a => a = f σ /\ σ' = g σ | Err _ => σ' = σ \/ σ' = g σ end
  /\ (tr = Delivered -> is_ok r = true).
Proof. unfold tx. destruct tr; cbn; intros [= <- <-]; (split; [auto|done]). Qed.

Lemma remove_first_head l v : head l = Some v -> remove_first v l = Some (tail l).
Proof. destruct l as [|x l]; [done|]. cbn. intros [= ->]. by rewrite bool_decide_eq_true_2. Qed.
End RedisLaws.

#[export] Instance redis_inbox_laws {Σ} `{QueueServer Σ} `{Codec} : InboxLaws RedisInbox Σ.
Proof.
  refine {| cap := rmax; good := carried; holds := fun w k q => Forall2 encodes (llist w.2 k) q |}.
  - intros i σ σ' k q E. cbn. by rewrite E.
  - intros tr w t s m q w' r Hc Hg Hq. cbn. unfold with_redis.
    destruct (redis_Enqueue tr (rmax w.1) t s m w.2) as [σ' r'] eqn:E. intros [= <- <-].
    split; [done|]. by eapply redis_Enqueue_law.
  - intros tr w t s q w' r Hq. cbn. unfold with_redis, redis_Drain. cbn zeta.
    destruct (tx _ _ _ _) as [σ' r'] eqn:E. apply tx_cases in E as [Hr Hok]. intros [= <- <-]. cbn.
    destruct (DEL_list_law w.2 (InboxKey t s)) as [Hl Hz].
    assert (Forall2 encodes (llist (DEL_list w.2 (InboxKey t s)) (InboxKey t s)) ([] : list Message)) as Hnil
      by (rewrite Hl, decide_True by done; constructor).
    split; [done|]. destruct r' as [raw|e].
    + destruct Hr as [-> ->]. cbn. rewrite LRANGE_law, (decodeRaw_encodes _ _ Hq). by split_and!.
    + split; [by destruct Hr as [->| ->]|]. split; [|done]. cbn. destruct Hr as [->| ->]; auto.
  - intros w t s q Hq. cbn. unfold redis_Len, tx. cbn. by rewrite LLEN_law, (Forall2_length _ _ _ Hq).
  - intros w t s q Hq. cbn. unfold redis_Peek, tx, redis_Ack, with_redis. cbn. rewrite LINDEX_law.
    destruct q as [|m q].
    + apply Forall2_nil_inv_r in Hq. by rewrite Hq.
    + apply Forall2_cons_inv_r in Hq as (raw & raws & He & Hq & Hl). rewrite Hl. cbn.
      rewrite (encodes_unmarshal _ _ He). exists raw. destruct (LREM_law w.2 (InboxKey t s) raw) as (Hn & Hr & _).
      rewrite Hl, (remove_first_head (raw :: raws) raw) in Hn by done.
      eexists. split_and!; [done| | |].
      * rewrite Hn. done.
      * cbn. rewrite Hr, decide_True by done. rewrite Hl, (remove_first_head (raw :: raws) raw) by done. exact Hq.
      * done.
  - intros tr w t s q w' r Hq. cbn. unfold with_redis, redis_Delete. cbn zeta.
    destruct (tx _ _ _ _) as [σ' r'] eqn:E. apply tx_cases in E as [Hr Hok]. intros [= <- <-]. cbn.
    destruct (DEL_list_law w.2 (InboxKey t s)) as [Hl Hz].
    assert (Forall2 encodes (llist (DEL_list w.2 (InboxKey t s)) (InboxKey t s)) ([] : list Message)) as Hnil
      by (rewrite Hl, decide_True by done; constructor).
    split; [done|]. split; [|done]. destruct r' as [n|e].
    + destruct Hr as [-> ->]. by rewrite LLEN_law, (Forall2_length _ _ _ Hq).
    + destruct Hr as [->| ->]; auto.
Defined.

(** ** Scores *)

Lemma thousandths_bounds j : (0 <= j <= 999)%Z -> (1000 * thousandths j - 500 <= j * Milli <= 1000 * thousandths j + 500)%Z.
Proof.
  unfold thousandths, Milli. intros Hj. pose proof (Z.div_mod (j * 4096 + 500) 1000).
  pose proof (Z.mod_pos_bound (j * 4096 + 500) 1000). lia.
Qed.

Lemma thousandths_range j : (0 <= j <= 999)%Z -> (0 <= thousandths j < Milli)%Z.
Proof. intros Hj. pose proof (thousandths_bounds j Hj). unfold Milli in *. lia. Qed.

Lemma thousandths_lt i j : (0 <= i)%Z -> (i < j <= 999)%Z -> (thousandths i < thousandths j)%Z.
Proof.
  intros Hi Hj. pose proof (thousandths_bounds i ltac:(lia)). pose proof (thousandths_bounds j ltac:(lia)).
  unfold Milli in *. lia.
Qed.

(** The script reads back from a score the step it was given. *)
Lemma next_step_thousandths j : (0 <= j <= 999)%Z -> next_step (thousandths j) = Z.min 999 (j + 1).
Proof.
  intros Hj. unfold next_step. f_equal. f_equal. pose proof (thousandths_bounds j Hj). unfold Milli in *.
  symmetry. apply Z.div_unique with (r := (thousandths j * 1000 + 4096 / 2 - 4096 * j)%Z); [|ring].
  left. change (4096 / 2)%Z with 2048%Z. lia.
Qed.

Lemma next_step_range d : (0 <= d < Milli)%Z -> (1 <= next_step d <= 999)%Z.
Proof.
  intros Hd. unfold next_step, Milli in *. change (4096 / 2)%Z with 2048%Z.
  pose proof (Z.div_pos (d * 1000 + 2048) 4096). lia.
Qed.

(** Binary64 confirms the counting of scores: the number nearest to a decimal
    with three digits, and the step read back from it. *)
Definition score64 (ms step : Z) : F64.t := F64.div (F64.of_Z (ms * 1000 + step)) (F64.of_Z 1000).

Definition same64 (a b : F64.t) : bool := F64.leb a b && F64.leb b a.

Example score64_agrees :
  forallb (fun step => same64 (score64 1700000000000 (Z.of_nat step))
     (F64.div (F64.of_Z (1700000000000 * Milli + thousandths (Z.of_nat step))) (F64.of_Z Milli))) (seq 0 1000) = true.
Proof. vm_compute. reflexivity. Qed.

(** ** Sorted sets *)

Abbreviation score_lt := (fun a b : Score * string => (a.1 < b.1)%Z).

Lemma zplace_end e z : Forall (fun x : Score * string => (x.1 < e.1)%Z) z -> zplace e z = z ++ [e].
Proof.
  induction 1 as [|x z Hx _ IH]; [done|]. cbn. unfold zlt.
  destruct (Z.ltb_spec e.1 x.1); [lia|]. destruct (Z.eqb_spec e.1 x.1); [lia|]. cbn. by rewrite IH.
Qed.

Lemma zremove_absent m z : m ∉ z.*2 -> zremove m z = z.
Proof.
  induction z as [|e z IH]; [done|]. rewrite fmap_cons, not_elem_of_cons. intros [Hne Hz].
  change (zremove m (e :: z)) with (if negb (bool_decide (e.2 = m)) then e :: zremove m z else zremove m z).
  rewrite bool_decide_eq_false_2 by done. cbn [negb]. by rewrite IH.
Qed.

Lemma zremove_head s m z : m ∉ z.*2 -> zremove m ((s, m) :: z) = z.
Proof. intros Hm. cbn. rewrite bool_decide_eq_true_2 by done. cbn. by apply zremove_absent. Qed.

Lemma zadd_end s m z :
  m ∉ z.*2 -> Forall (fun x : Score * string => (x.1 < s)%Z) z -> zadd s m z = z ++ [(s, m)].
Proof. intros Hm Hz. unfold zadd. rewrite zremove_absent by done. by apply zplace_end. Qed.

Lemma filter_all_false {A} (f : A -> bool) l : Forall (fun x => f x = false) l -> List.filter f l = [].
Proof. induction 1 as [|x l Hx _ IH]; [done|]. cbn. by rewrite Hx. Qed.

Lemma last_filter_snoc {A} (f : A -> bool) l x : f x = true -> last (List.filter f (l ++ [x])) = Some x.
Proof. intros Hx. rewrite List.filter_app. cbn. rewrite Hx. apply last_snoc. Qed.

Lemma StronglySorted_snoc_inv {A} (R : A -> A -> Prop) l x :
  StronglySorted R (l ++ [x]) -> StronglySorted R l /\ Forall (fun y => R y x) l.
Proof.
  induction l as [|y l IH]; intros Hs; [by split; constructor|].
  apply StronglySorted_inv in Hs as [Hs Hy]. apply IH in Hs as [Hs Hl]. apply Forall_app in Hy as [Hy Hx].
  split; constructor; try done. by apply Forall_cons in Hx as [? _].
Qed.

(** ** The dead-letter queue is a queue *)

Section Dlq.
Context {Σ : Type} `{QueueServer Σ} `{Codec}.

(** The set under [key] as the script leaves it. *)
Definition evicted (cap : Z) (z : list (Score * string)) : list (Score * string) * option string :=
  if (cap <=? Z.of_nat (length z))%Z
  then match z with (_, m) :: _ => (zremove m z, Some m) | [] => (z, None) end
  else (z, None).

Definition new_score (score : Z) (z : list (Score * string)) : Score :=
  match last (List.filter (fun e => (score * Milli <=? e.1)%Z && (e.1 <? (score + 1) * Milli)%Z) z) with
  | Some e => (score * Milli + thousandths (next_step (e.1 - score * Milli)))%Z
  | None => (score * Milli)%Z
  end.

Lemma enqueueDLQScript_spec key cap score member σ :
  let z := zlist σ key in
  let z1 := (evicted cap z).1 in
  let '(σ', r) := enqueueDLQScript key cap score member σ in
  llist σ' = llist σ /\ zlist σ' key = zadd (new_score score z1) member z1 /\ r = Some (evicted cap z).2.
Proof.
  cbn zeta. unfold enqueueDLQScript, evicted, sbind, sread, swrite, sret. rewrite ZCARD_law.
  assert (forall σ0, llist σ0 = llist σ ->
    let s := match top_below σ0 key (score * Milli) ((score + 1) * Milli) with
             | Some (_, t) => (score * Milli + thousandths (next_step (t - score * Milli)))%Z
             | None => (score * Milli)%Z
             end in
    llist (ZADD σ0 key s member) = llist σ
    /\ zlist (ZADD σ0 key s member) key = zadd (new_score score (zlist σ0 key)) member (zlist σ0 key)) as Hadd.
  { intros σ0 Hl. cbn zeta. rewrite top_below_law. unfold new_score.
    match goal with |- llist (ZADD _ _ ?s _) = _ /\ _ => destruct (ZADD_law σ0 key s member) as [Hz Hll] end.
    rewrite Hll, Hz, decide_True by done. split; [done|]. by destruct (last _) as [[? ?]|]. }
  destruct (cap <=? _)%Z.
  - rewrite ZRANGE_law. destruct (zlist σ key) as [|[s0 m0] z0] eqn:Ez; cbn [map head].
    + cbn. split_and!; [by apply Hadd| |done]. destruct (Hadd σ eq_refl) as [_ ->]. by rewrite Ez.
    + destruct (ZREM_law σ key m0) as (_ & Hz & Hl). cbn. split_and!; [by apply Hadd| |done].
      destruct (Hadd (ZREM σ key m0).1 Hl) as [_ ->]. by rewrite Hz, decide_True, Ez.
  - cbn. split_and!; [by apply Hadd| |done]. by destruct (Hadd σ eq_refl) as [_ ->].
Qed.

(** A message and the millisecond it expires in.  The queue it goes into keeps
    the order of expiry, and of acceptance within a millisecond; beyond [max] the
    first to expire is evicted. *)
Fixpoint p_place (x : Message * Z) (q : list (Message * Z)) : list (Message * Z) :=
  match q with
  | [] => [x]
  | y :: q => if (x.2 <? y.2)%Z then x :: y :: q else y :: p_place x q
  end.

Definition p_enqueue (max : Z) (q : list (Message * Z)) (x : Message * Z) : list (Message * Z) * option Message :=
  if (max <=? Z.of_nat (length q))%Z then (p_place x (tail q), fst <$> head q) else (p_place x q, None).

Fixpoint p_accept (max : Z) (q l : list (Message * Z)) : list (Message * Z) * list (option Message) :=
  match l with
  | [] => (q, [])
  | x :: l => let '(q, d) := p_enqueue max q x in
              let '(q, ds) := p_accept max q l in (q, d :: ds)
  end.

(** The entry of a message; [n] bounds its number within its millisecond. *)
Definition entry_of (n : Z -> Z) (e : Score * string) (x : Message * Z) : Prop :=
  encodes e.2 x.1 /\ exists j, (0 <= j < n x.2)%Z /\ e.1 = (x.2 * Milli + thousandths j)%Z.

(** The entries are the messages of [q]; [n] bounds how many were accepted per
    millisecond. *)
Definition ranked (n : Z -> Z) (z : list (Score * string)) (q : list (Message * Z)) : Prop :=
  Forall2 (entry_of n) z q /\ NoDup z.*2 /\ StronglySorted score_lt z /\ forall x, (n x <= 1000)%Z.

Lemma entry_milli n e x : (forall y, (n y <= 1000)%Z) -> entry_of n e x -> (x.2 * Milli <= e.1 < (x.2 + 1) * Milli)%Z.
Proof.
  intros Hn (_ & j & Hj & ->). specialize (Hn x.2). pose proof (thousandths_range j ltac:(lia)). unfold Milli in *. lia.
Qed.

Lemma entry_mono n n' e x : (forall y, (n y <= n' y)%Z) -> entry_of n e x -> entry_of n' e x.
Proof. intros Hle (He & j & Hj & E). split; [done|]. exists j. split; [|done]. specialize (Hle x.2). lia. Qed.

(** The entries up to a millisecond, and those after it. *)
Lemma ranked_split n z q ms : ranked n z q ->
  exists z1 z2 q1 q2, z = z1 ++ z2 /\ q = q1 ++ q2 /\ Forall2 (entry_of n) z1 q1 /\ Forall2 (entry_of n) z2 q2 /\
    Forall (fun x => (x.2 <= ms)%Z) q1 /\ Forall (fun x => (ms < x.2)%Z) q2.
Proof.
  intros (Hf & _ & Hs & Hn). induction Hf as [|e x z q He Hf IH]; [by exists [], [], [], []|].
  apply StronglySorted_inv in Hs as [Hs Hle]. destruct (decide (x.2 <= ms)%Z) as [Hx|Hx].
  - destruct (IH Hs) as (z1 & z2 & q1 & q2 & -> & -> & H1 & H2 & H3 & H4). exists (e :: z1), z2, (x :: q1), q2.
    split_and!; try done; by constructor.
  - exists [], (e :: z), [], (x :: q). split_and!; try done; [by constructor|]. constructor; [lia|].
    pose proof (entry_milli n e x Hn He) as Hm. clear IH. induction Hf as [|e' x' z q He' Hf IH']; [constructor|].
    apply Forall_cons in Hle as [Hlt Hle]. apply StronglySorted_inv in Hs as [Hs _]. constructor; [|by apply IH'].
    pose proof (entry_milli n e' x' Hn He'). cbn in *. unfold Milli in *. nia.
Qed.

Lemma zplace_between s m z1 z2 : Forall (fun e : Score * string => (e.1 < s)%Z) z1 -> Forall (fun e : Score * string => (s < e.1)%Z) z2 ->
  zplace (s, m) (z1 ++ z2) = z1 ++ (s, m) :: z2.
Proof.
  induction 1 as [|e z1 He _ IH]; intros H2; cbn.
  - destruct H2 as [|e z2 He _]; [done|]. cbn. unfold zlt. cbn. by rewrite (proj2 (Z.ltb_lt s e.1)).
  - unfold zlt. cbn. rewrite (proj2 (Z.ltb_ge s e.1)), (proj2 (Z.eqb_neq s e.1)) by lia. cbn. by rewrite IH.
Qed.

Lemma p_place_between x q1 q2 : Forall (fun y => (y.2 <= x.2)%Z) q1 -> Forall (fun y => (x.2 < y.2)%Z) q2 ->
  p_place x (q1 ++ q2) = q1 ++ x :: q2.
Proof.
  induction 1 as [|y q1 Hy _ IH]; intros H2; cbn.
  - destruct H2 as [|y q2 Hy _]; [done|]. cbn. by rewrite (proj2 (Z.ltb_lt _ _)).
  - rewrite (proj2 (Z.ltb_ge _ _)) by done. by rewrite IH.
Qed.

(** The score a new entry of the millisecond gets: above those up to it. *)
Lemma new_score_spec n ms z1 z2 q1 q2 : (forall y, (n y <= 1000)%Z) -> (0 <= n ms < 1000)%Z -> StronglySorted score_lt z1 ->
  Forall2 (entry_of n) z1 q1 -> Forall2 (entry_of n) z2 q2 -> Forall (fun x => (x.2 <= ms)%Z) q1 -> Forall (fun x => (ms < x.2)%Z) q2 ->
  exists j, (0 <= j <= n ms)%Z /\ new_score ms (z1 ++ z2) = (ms * Milli + thousandths j)%Z /\
    Forall (fun e : Score * string => (e.1 < ms * Milli + thousandths j)%Z) z1.
Proof.
  intros Hn Hms Hs H1 H2 L1 L2.
  assert (List.filter (fun e => (ms * Milli <=? e.1)%Z && (e.1 <? (ms + 1) * Milli)%Z) z2 = []) as E2.
  { apply filter_all_false. clear -H2 L2 Hn. induction H2 as [|e x z q He _ IH]; [constructor|]. apply Forall_cons in L2 as [Lx L2].
    constructor; [|auto]. pose proof (entry_milli n e x Hn He). apply andb_false_intro2, Z.ltb_ge. unfold Milli in *. nia. }
  unfold new_score. rewrite List.filter_app, E2, app_nil_r.
  destruct z1 as [|e z1 _] using rev_ind; [exists 0%Z; cbn; change (thousandths 0) with 0%Z; split_and!; [lia|lia|lia|constructor]|].
  apply Forall2_app_inv_l in H1 as (q0 & qx & H1 & Hx & ->). apply Forall2_cons_inv_l in Hx as (x & ? & He & Hx & ->).
  apply Forall2_nil_inv_l in Hx as ->. apply Forall_app in L1 as [_ Lx]. rewrite Forall_singleton in Lx.
  assert (Forall (fun e' : Score * string => (e'.1 < e.1)%Z) z1) as Hbelow.
  { apply Forall_forall. intros e' He'. apply (StronglySorted_app_1_elem_of _ _ _ e' e Hs He'). set_solver. }
  pose proof He as (_ & j0 & Hj0 & E0). pose proof (Hn x.2) as Hnx. pose proof (thousandths_range j0 ltac:(lia)) as Hr0.
  destruct (decide (x.2 = ms)) as [Hxm|Hxm].
  - rewrite Hxm in *. exists (j0 + 1)%Z. split; [lia|]. pose proof (thousandths_lt j0 (j0 + 1) ltac:(lia) ltac:(lia)) as Hlt. split.
    + rewrite last_filter_snoc.
      2:{ rewrite E0. destruct (Z.leb_spec (ms * Milli) (ms * Milli + thousandths j0)); [|lia].
          destruct (Z.ltb_spec (ms * Milli + thousandths j0) ((ms + 1) * Milli)); [done|unfold Milli in *; lia]. }
      rewrite E0. replace (ms * Milli + thousandths j0 - ms * Milli)%Z with (thousandths j0) by lia.
      rewrite next_step_thousandths by lia. do 2 f_equal. lia.
    + apply Forall_app. split; [|constructor; [lia|constructor]]. eapply Forall_impl; [exact Hbelow|]. cbn. lia.
  - exists 0%Z. change (thousandths 0) with 0%Z. split; [lia|].
    assert (Forall (fun e' : Score * string => (e'.1 < ms * Milli)%Z) (z1 ++ [e])) as Hlow.
    { assert (e.1 < ms * Milli)%Z by (unfold Milli in *; nia). apply Forall_app. split; [|by constructor].
      eapply Forall_impl; [exact Hbelow|]. cbn. lia. }
    split; [|eapply Forall_impl; [exact Hlow|]; cbn; lia]. rewrite filter_all_false; [cbn; lia|].
    eapply Forall_impl; [exact Hlow|]. intros e' Hl. cbn in *. apply andb_false_intro1, Z.leb_gt. lia.
Qed.

Definition one_more (n : Z -> Z) (ms : Z) (x : Z) : Z := (n x + if decide (x = ms) then 1 else 0)%Z.

(** An accepted message takes its place. *)
Lemma ranked_place n z q m raw ms : ranked n z q -> (0 <= n ms < 1000)%Z -> encodes raw m -> raw ∉ z.*2 ->
  ranked (one_more n ms) (zadd (new_score ms z) raw z) (p_place (m, ms) q).
Proof.
  intros Hr Hms He Hraw. destruct (ranked_split n z q ms Hr) as (z1 & z2 & q1 & q2 & -> & -> & H1 & H2 & L1 & L2).
  destruct Hr as (_ & Hnd & Hs & Hn). pose proof Hs as (Hs12 & Hs1 & Hs2)%StronglySorted_app.
  destruct (new_score_spec n ms z1 z2 q1 q2 Hn Hms Hs1 H1 H2 L1 L2) as (j & Hj & -> & Hlow).
  assert (0 <= thousandths j < Milli)%Z as Hth by (apply thousandths_range; lia).
  assert (Forall (fun e : Score * string => (ms * Milli + thousandths j < e.1)%Z) z2) as Hhigh.
  { clear -H2 L2 Hn Hth. induction H2 as [|e x z q He _ IH]; [constructor|]. apply Forall_cons in L2 as [Lx L2]. constructor; [|auto].
    pose proof (entry_milli n e x Hn He). unfold Milli in *. nia. }
  unfold zadd. rewrite zremove_absent by done. rewrite zplace_between, p_place_between by done.
  assert (forall y, (n y <= one_more n ms y)%Z) as Hle by (intros y; unfold one_more; case_decide; lia).
  assert (forall e x, entry_of n e x -> entry_of (one_more n ms) e x) as Hup by (intros e x; by apply entry_mono).
  split_and!.
  - apply Forall2_app; [by eapply Forall2_impl|]. constructor; [|by eapply Forall2_impl].
    split; [done|]. exists j. split; [|done]. unfold one_more. cbn. rewrite decide_True by done. lia.
  - rewrite fmap_app in Hnd |- *. rewrite fmap_cons. rewrite fmap_app in Hraw. apply NoDup_app in Hnd as (N1 & N12 & N2).
    apply NoDup_app. split_and!; [done| |constructor; [|done]]; set_solver.
  - apply StronglySorted_app. rewrite Forall_forall in Hlow, Hhigh. split_and!; [|done|].
    + intros a b Ha [->|Hb]%elem_of_cons; [by apply Hlow|by apply Hs12].
    + constructor; [done|]. apply Forall_forall. exact Hhigh.
  - intros y. unfold one_more. case_decide; [subst; lia|]. specialize (Hn y). lia.
Qed.

Lemma evicted_ranked n cap z q : (0 < cap)%Z -> ranked n z q ->
  ranked n (evicted cap z).1 (if (cap <=? Z.of_nat (length q))%Z then tail q else q)
  /\ decode_dropped (evicted cap z).2 = Ok (if (cap <=? Z.of_nat (length q))%Z then fst <$> head q else None)
  /\ (evicted cap z).1.*2 ⊆ z.*2.
Proof.
  intros Hc Hr. pose proof Hr as (Hf & Hnd & Hs & Hn). unfold evicted. rewrite (Forall2_length _ _ _ Hf).
  destruct (cap <=? _)%Z eqn:E; [|by split_and!].
  destruct z as [|[s0 m0] z]; [apply Forall2_nil_inv_l in Hf as ->; apply Z.leb_le in E; cbn in E; lia|].
  rewrite fmap_cons in Hnd. apply NoDup_cons in Hnd as [Hn0 Hnd]. rewrite zremove_head by exact Hn0. cbn [fst snd].
  apply Forall2_cons_inv_l in Hf as (x & q' & [He _] & Hf & ->). apply StronglySorted_inv in Hs as [Hs _].
  split_and!; [by split_and!| |rewrite fmap_cons; set_solver].
  cbn in He |- *. by rewrite (encodes_unmarshal _ _ He).
Qed.

Definition timed (p : Message * Duration) : Message * Z := (p.1, expiry p.1 p.2).

Lemma dlq_Enqueue_refines max t s m ttl σ q n raw :
  (0 < max)%Z -> ranked n (zlist σ (DLQKey t s)) q -> (0 <= n (expiry m ttl) < 1000)%Z -> encodes raw m -> raw ∉ (zlist σ (DLQKey t s)).*2 ->
  let '(σ', r) := dlq_Enqueue Delivered max t s m ttl σ in
  r = Ok (p_enqueue max q (timed (m, ttl))).2
  /\ (zlist σ' (DLQKey t s)).*2 ⊆ raw :: (zlist σ (DLQKey t s)).*2
  /\ ranked (one_more n (expiry m ttl)) (zlist σ' (DLQKey t s)) (p_enqueue max q (timed (m, ttl))).1.
Proof.
  intros Hc Hr Hn He Hraw. unfold dlq_Enqueue, DLQMember. pose proof He as [-> _]. cbn [run_script].
  pose proof (enqueueDLQScript_spec (DLQKey t s) max (expiry m ttl) raw σ) as Hs. cbn zeta in Hs.
  destruct (enqueueDLQScript _ _ _ _ σ) as [σ' r]. destruct Hs as (_ & Hz & ->).
  destruct (evicted_ranked n max _ q Hc Hr) as (Hr1 & Hd & Hsub). rewrite Hd, Hz. unfold p_enqueue, timed. cbn [fst snd].
  assert (raw ∉ (evicted max (zlist σ (DLQKey t s))).1.*2) as Hraw1 by (intros Hx; by apply Hraw, Hsub).
  pose proof (ranked_place n _ _ m raw (expiry m ttl) Hr1 Hn He Hraw1) as Hr2.
  assert (forall z : list (Score * string), (zadd (new_score (expiry m ttl) z) raw z).*2 ⊆ raw :: z.*2) as Hzadd.
  { intros z. unfold zadd. generalize (new_score (expiry m ttl) z). intros sc.
    assert ((zremove raw z).*2 ⊆ z.*2) as Hrm.
    { intros y Hy. apply list_elem_of_fmap in Hy as (e & -> & Hin). apply list_elem_of_In, filter_In in Hin as [Hin _].
      apply list_elem_of_fmap_2. by apply list_elem_of_In. }
    assert (forall l, (zplace (sc, raw) l).*2 ⊆ raw :: l.*2) as Hpl.
    { induction l as [|e l IH]; [done|]. cbn. destruct (zlt _ e); rewrite !fmap_cons; set_solver. }
    etrans; [apply Hpl|]. apply list_subseteq_skip, Hrm. }
  split; [by destruct (max <=? _)%Z|]. split; [etrans; [apply Hzadd|]; by apply list_subseteq_skip|].
  by destruct (max <=? _)%Z.
Qed.

(** Messages accepted one after the other, each with its time to live. *)
Fixpoint dlq_accept (max : Z) (t s : string) (l : list (Message * Duration)) (σ : Σ) :
    Σ * list (result InboxError (option Message)) :=
  match l with
  | [] => (σ, [])
  | (m, ttl) :: l => let '(σ, r) := dlq_Enqueue Delivered max t s m ttl σ in
                     let '(σ, rs) := dlq_accept max t s l σ in (σ, r :: rs)
  end.

(** How many messages expire in the millisecond [x]. *)
Definition per_milli (x : Z) (l : list (Message * Z)) : Z := Z.of_nat (length (List.filter (fun p => (p.2 =? x)%Z) l)).

Lemma per_milli_cons x p l : per_milli x (p :: l) = (per_milli x l + if decide (x = p.2) then 1 else 0)%Z.
Proof.
  unfold per_milli. cbn [List.filter]. destruct (Z.eqb_spec p.2 x); [rewrite decide_True by done|rewrite decide_False by done]; cbn [length]; lia.
Qed.

Lemma dlq_accept_refines max t s l σ q n :
  (0 < max)%Z -> ranked n (zlist σ (DLQKey t s)) q -> Forall carried l.*1 -> NoDup (marshal <$> l.*1) ->
  (forall m raw, m ∈ l.*1 -> marshal m = Some raw -> raw ∉ (zlist σ (DLQKey t s)).*2) ->
  (forall x, 0 <= n x /\ n x + per_milli x (timed <$> l) <= 1000)%Z ->
  let '(σ', rs) := dlq_accept max t s l σ in
  rs = map Ok (p_accept max q (timed <$> l)).2
  /\ Forall2 encodes (zlist σ' (DLQKey t s)).*2 (p_accept max q (timed <$> l)).1.*1.
Proof.
  intros Hmax. revert σ q n. induction l as [|[m ttl] l IH]; intros σ q n Hr Hc Hnd Hfresh Hn.
  - cbn. split; [done|]. destruct Hr as [Hf _]. apply Forall2_fmap. eapply Forall2_impl; [exact Hf|]. by intros e x [? _].
  - rewrite fmap_cons in Hc, Hnd, Hfresh. cbn [fst] in Hc, Hnd, Hfresh. apply Forall_cons in Hc as [Hcm Hc].
    rewrite fmap_cons in Hnd. apply NoDup_cons in Hnd as [Hm Hnd].
    pose proof Hcm as (_ & _ & raw & Hraw). assert (encodes raw m) as He by (by split).
    assert (forall x, (per_milli x (timed <$> (m, ttl) :: l) = per_milli x (timed <$> l) + if decide (x = expiry m ttl) then 1 else 0)%Z) as Hcons
      by (intros x; rewrite fmap_cons; apply (per_milli_cons x (timed (m, ttl)))).
    assert (forall x, 0 <= per_milli x (timed <$> l))%Z as Hpos by (intros x; unfold per_milli; lia).
    assert (0 <= n (expiry m ttl) < 1000)%Z as Hms.
    { pose proof (Hn (expiry m ttl)) as Hx. rewrite Hcons, decide_True in Hx by done. specialize (Hpos (expiry m ttl)). lia. }
    pose proof (dlq_Enqueue_refines max t s m ttl σ q n raw Hmax Hr Hms He (Hfresh m raw (list_elem_of_here _ _) Hraw)) as Hstep.
    rewrite fmap_cons. cbn [dlq_accept p_accept]. destruct (dlq_Enqueue Delivered max t s m ttl σ) as [σ1 r].
    destruct Hstep as (-> & Hsub & Hr1). destruct (p_enqueue max q (timed (m, ttl))) as [q1 d]. cbn [fst snd] in *.
    specialize (IH σ1 q1 _ Hr1 Hc Hnd).
    destruct (dlq_accept max t s l σ1) as [σ2 rs]. destruct (p_accept max q1 (timed <$> l)) as [q2 ds]. cbn [fst snd] in *.
    destruct IH as [-> Hf]; [| |by split].
    + intros m' raw' Hm' Hr'. intros Hx%Hsub. apply elem_of_cons in Hx as [->|Hx].
      * apply Hm. rewrite Hraw, <- Hr'. by apply list_elem_of_fmap_2.
      * apply (Hfresh m' raw'); [by apply list_elem_of_further|done|done].
    + intros x. pose proof (Hn x) as Hx. rewrite Hcons in Hx. unfold one_more. repeat case_decide; lia.
Qed.

Fixpoint q_accept (max : Z) (q : list Message) (l : list Message) : list Message * list (option Message) :=
  match l with
  | [] => (q, [])
  | m :: l => let '(q, d) := q_enqueue max q m in
              let '(q, ds) := q_accept max q l in (q, d :: ds)
  end.

Lemma q_accept_content max q l :
  (0 < max)%Z -> (length q <= Z.to_nat max)%nat ->
  (q_accept max q l).1 = drop (length q + length l - Z.to_nat max) (q ++ l).
Proof.
  intros Hm. revert q. induction l as [|m l IH]; intros q Hq.
  - cbn. rewrite app_nil_r. replace (length q + 0 - Z.to_nat max)%nat with 0%nat by lia. done.
  - cbn [q_accept]. rewrite q_enqueue_le by done.
    destruct (Z.leb_spec max (Z.of_nat (length q))) as [Hle|Hlt].
    + destruct q as [|m0 q]; [cbn in Hle; lia|]. cbn [tail head length] in *.
      specialize (IH (q ++ [m])). rewrite length_app in IH. cbn [length] in IH. specialize (IH ltac:(lia)).
      destruct (q_accept max (q ++ [m]) l) as [q2 ds]. cbn [fst] in *. rewrite IH, <- (assoc_L (++)).
      replace (S (length q) + S (length l) - Z.to_nat max)%nat with (S (length q + 1 + length l - Z.to_nat max)) by lia.
      done.
    + specialize (IH (q ++ [m])). rewrite length_app in IH. cbn [length] in IH. specialize (IH ltac:(lia)).
      destruct (q_accept max (q ++ [m]) l) as [q2 ds]. cbn [fst length] in *. rewrite IH, <- (assoc_L (++)).
      f_equal. lia.
Qed.

(** Messages that expire in the order in which they are accepted. *)
Lemma p_accept_fifo max q l : (0 < max)%Z -> StronglySorted Z.le (q ++ l).*2 ->
  (p_accept max q l).1.*1 = (q_accept max q.*1 l.*1).1 /\ (p_accept max q l).2 = (q_accept max q.*1 l.*1).2.
Proof.
  intros Hmax. revert q. induction l as [|x l IH]; intros q Hs; [done|].
  assert (forall q', q' = q \/ q' = tail q -> p_place x q' = q' ++ [x] /\ StronglySorted Z.le ((q' ++ [x]) ++ l).*2) as Hend.
  { intros q' Hq'. assert (StronglySorted Z.le (q' ++ x :: l).*2) as Hs'.
    { destruct Hq' as [-> | ->]; [done|]. destruct q as [|y q]; [done|]. cbn in Hs |- *. by apply StronglySorted_inv in Hs as [Hs _]. }
    rewrite <- app_assoc. split; [|done]. rewrite <- (app_nil_r q') at 1. rewrite p_place_between; [done| |constructor].
    apply Forall_forall. intros y Hy. rewrite fmap_app in Hs'. apply (StronglySorted_app_1_elem_of _ _ _ y.2 x.2 Hs'); [by apply list_elem_of_fmap_2|].
    rewrite fmap_cons. apply list_elem_of_here. }
  cbn [p_accept]. rewrite fmap_cons. cbn [q_accept]. rewrite q_enqueue_le by done. unfold p_enqueue. rewrite length_fmap.
  destruct (Z.leb_spec max (Z.of_nat (length q))).
  - destruct (Hend (tail q) (or_intror eq_refl)) as [-> Hs']. destruct (IH _ Hs') as [HA HB]. rewrite fmap_app in HA, HB. change ([x].*1) with [x.1] in HA, HB.
    assert (tail q.*1 = (tail q).*1 /\ head q.*1 = fst <$> head q) as [-> ->] by (by destruct q).
    destruct (p_accept max (tail q ++ [x]) l), (q_accept max ((tail q).*1 ++ [x.1]) l.*1). cbn in *. by rewrite HA, HB.
  - destruct (Hend q (or_introl eq_refl)) as [-> Hs']. destruct (IH _ Hs') as [HA HB]. rewrite fmap_app in HA, HB. change ([x].*1) with [x.1] in HA, HB.
    destruct (p_accept max (q ++ [x]) l), (q_accept max (q.*1 ++ [x.1]) l.*1). cbn in *. by rewrite HA, HB.
Qed.
End Dlq.

(** ** The guarantees *)

(** The two inboxes behave the same: for every sequence of accepts,
    deliveries, drains, counts and erasures of a session, the in-memory and the
    Redis inbox give the same answers, those of a queue that holds at most
    [max] messages and evicts the oldest. *)
Theorem inboxes_agree {Σ} `{QueueServer Σ} `{Codec} (σ : Σ) max t s l :
  llist σ (InboxKey t s) = [] ->
  Forall (fun op => match op with Accept m => carried m | _ => True end) l ->
  let n := if (max <=? 0)%Z then DefaultMaxInboxSize else max in
  (inbox_run t s (Mem.NewMemoryInbox max, σ) l).2 = (q_run n [] l).2
  /\ (inbox_run t s (NewRedisInbox max, σ) l).2 = (q_run n [] l).2.
Proof.
  intros Hnil Hl n.
  assert (0 < n)%Z as Hn by (unfold n, DefaultMaxInboxSize; destruct (Z.leb_spec max 0); lia).
  split.
  - rewrite (inbox_run_refines t s l (Mem.NewMemoryInbox max, σ) []); [done|done|done|].
    apply Forall_true. by intros [].
  - rewrite (inbox_run_refines t s l (NewRedisInbox max, σ) []); [done|done| |].
    + cbn. rewrite Hnil. constructor.
    + eapply Forall_impl; [exact Hl|]. by intros [].
Qed.

(** C39. The dead-letter queue drains in the order of expiry and, within a
    millisecond, of acceptance, although scores are binary64 milliseconds and ties
    are ordered by their bytes: messages accepted one after the other, each with
    its own time to live and at most a thousand to a millisecond, come out as of
    [p_accept], and beyond [max] each enqueue evicts and returns the one that
    expires first.  When they expire in the order in which they were accepted, as
    with one time to live, that is first in, first out: the queue holds the last
    [max] of them in order.  With mixed times to live a later message overtakes an
    earlier one ([mixed_ttls_overtake]). *)
Theorem dlq_by_expiry {Σ} `{QueueServer Σ} `{Codec} max t s l (σ : Σ) :
  (0 < max)%Z -> zlist σ (DLQKey t s) = [] -> Forall carried l.*1 -> NoDup (marshal <$> l.*1) ->
  (forall x, per_milli x (timed <$> l) <= 1000)%Z ->
  let '(σ', rs) := dlq_accept max t s l σ in
  let '(q, ds) := p_accept max [] (timed <$> l) in
  rs = map Ok ds
  /\ (DrainAll Delivered t s σ').2 = Ok q.*1
  /\ (StronglySorted Z.le (timed <$> l).*2 -> ds = (q_accept max [] l.*1).2 /\ q.*1 = drop (length l - Z.to_nat max) l.*1).
Proof.
  intros Hmax Hz Hc Hnd Hn.
  pose proof (dlq_accept_refines max t s l σ [] (fun _ => 0%Z) Hmax) as Hr. rewrite Hz in Hr.
  pose proof (p_accept_fifo max [] (timed <$> l) Hmax) as Hfifo.
  assert ((timed <$> l).*1 = l.*1) as Hfst by (by rewrite <- list_fmap_compose).
  rewrite Hfst in Hfifo. pose proof (q_accept_content max [] l.*1 Hmax (Nat.le_0_l _)) as Hq.
  destruct (dlq_accept max t s l σ) as [σ' rs]. destruct (p_accept max [] (timed <$> l)) as [q ds]. cbn [fst snd] in *.
  destruct Hr as [-> Hf]; [|done|done|set_solver| |].
  { split_and!; [constructor|constructor|constructor|lia]. }
  { intros x. specialize (Hn x). lia. }
  split_and!; [done| |].
  - unfold DrainAll, tx. cbn. rewrite ZRANGE_law. by rewrite (decodeRaw_encodes (map snd (zlist σ' (DLQKey t s))) _ Hf).
  - intros Hs. destruct (Hfifo Hs) as [-> ->]. split; [done|]. etrans; [exact Hq|]. cbn. by rewrite length_fmap.
Qed.

Section Guarantees.
Context {I Σ : Type} `{QueueServer Σ} `{Codec} `{Inbox I Σ} `{!InboxLaws I Σ}.

(** The migration enqueues with the default time to live. *)
Definition held (l : list Message) : list (Message * Duration) := (fun m => (m, DefaultDLQTTL)) <$> l.

Lemma held_fst l : (held l).*1 = l.
Proof. unfold held. rewrite <- list_fmap_compose. apply list_fmap_id. Qed.

Lemma migrate_loop_accept c t s l (w : I * Σ) preserved i :
  Forall (fun r => is_ok r = true) (dlq_accept (dlqMax c) t s (held l) w.2).2 ->
  migrate_loop c (fun _ => Delivered) i t s l preserved w
  = ((w.1, (dlq_accept (dlqMax c) t s (held l) w.2).1), ((preserved + Z.of_nat (length l))%Z, None)).
Proof.
  revert w preserved i. induction l as [|m l IH]; intros w preserved i Hok; cbn [migrate_loop dlq_accept held fmap list_fmap].
  - cbn [fst length]. rewrite Z.add_0_r. by destruct w.
  - unfold on_srv. cbn [dlq_accept held fmap list_fmap] in Hok. fold (held l) in *.
    destruct (dlq_Enqueue Delivered (dlqMax c) t s m DefaultDLQTTL w.2) as [σ r]. cbn [fst snd].
    specialize (IH (w.1, σ) (preserved + 1)%Z (S i)). cbn [fst snd] in IH.
    destruct (dlq_accept (dlqMax c) t s (held l) σ) as [σ' rs]. cbn [fst snd] in *.
    apply Forall_cons in Hok as [Hr Hok]. destruct r as [d|e]; [|done]. rewrite (IH Hok).
    do 2 f_equal. cbn [length]. lia.
Qed.

(** A migration of the inbox to the dead-letter queue over a working Redis
    empties the inbox and leaves in the queue the last [dlqMax] of the messages
    both held, in the order of acceptance.  It reports every inbox message as
    preserved and emits nothing: the messages the enqueues evict are lost
    without a receipt or an event. *)
Theorem migration_keeps_the_last c t s (w : I * Σ) q d n :
  durable c = false -> (0 < dlqMax c)%Z -> holds w (InboxKey t s) q ->
  ranked n (zlist w.2 (DLQKey t s)) (timed <$> held d) -> (Z.of_nat (length d) <= dlqMax c)%Z ->
  Forall carried q -> NoDup (marshal <$> q) ->
  (forall m raw, m ∈ q -> marshal m = Some raw -> raw ∉ (zlist w.2 (DLQKey t s)).*2) ->
  StronglySorted Z.le (timed <$> held (d ++ q)).*2 -> (forall x, 0 <= n x /\ n x + per_milli x (timed <$> held q) <= 1000)%Z ->
  let '(w', r) := MigrateInboxToDLQ c Delivered (fun _ => Delivered) t s w in
  r = (Z.of_nat (length q), None)
  /\ (DrainAll Delivered t s w'.2).2 = Ok (drop (length d + length q - Z.to_nat (dlqMax c)) (d ++ q)).
Proof.
  intros Hdur Hmax Hq Hr Hd Hc Hnd Hfresh Hs Hn. unfold MigrateInboxToDLQ. rewrite Hdur.
  destruct (inbox_Drain Delivered w t s) as [w1 r1] eqn:E.
  destruct (drain_law _ _ _ _ _ _ _ Hq E) as (_ & Hz & Hr1 & Hok).
  destruct r1 as [ms1|e]; [|by specialize (Hok eq_refl)]. destruct Hr1 as [-> _].
  rewrite <- Hz in Hr, Hfresh.
  pose proof (dlq_accept_refines (dlqMax c) t s (held q) w1.2 (timed <$> held d) n Hmax Hr) as Ha.
  rewrite held_fst in Ha. specialize (Ha Hc Hnd Hfresh Hn).
  assert (forall l, (timed <$> held l).*1 = l) as Hfst by (intros l; rewrite <- list_fmap_compose; apply held_fst).
  unfold held at 1 in Hs. rewrite fmap_app in Hs. fold (held d) (held q) in Hs. rewrite fmap_app in Hs.
  destruct (p_accept_fifo (dlqMax c) (timed <$> held d) (timed <$> held q) Hmax Hs) as [Hp _]. rewrite !Hfst in Hp.
  rewrite migrate_loop_accept.
  2:{ destruct (dlq_accept _ _ _ _ _) as [σ rs]. destruct Ha as [-> _]. cbn [snd].
      by apply Forall_map, Forall_true. }
  destruct (dlq_accept _ _ _ _ _) as [σ rs]. destruct Ha as [_ Hf]. cbn [fst snd].
  split; [done|]. unfold DrainAll, tx. cbn. rewrite ZRANGE_law. rewrite Hp in Hf.
  rewrite (decodeRaw_encodes (map snd (zlist σ (DLQKey t s))) _ Hf). f_equal.
  apply (q_accept_content (dlqMax c) d q Hmax). lia.
Qed.

(** The drain on a terminal transition over a working Redis empties both
    queues, counts every message, and tells each sender exactly of its own
    messages, inbox first, each queue in its order; messages without a sender
    are counted without an event. *)
Theorem terminal_drain_notifies c t s (w : I * Σ) q d now :
  emits c = true -> holds w (InboxKey t s) q -> Forall2 encodes (zlist w.2 (DLQKey t s)).*2 d ->
  let '(w', events, r) := DrainOnTerminal c Delivered Delivered now t s w in
  r = (Z.of_nat (length q + length d), None)
  /\ holds w' (InboxKey t s) [] /\ zlist w'.2 (DLQKey t s) = []
  /\ events = omap (fun m => if is_empty (SenderSessionID m) then None
                             else Some (MessageExpired t (SenderSessionID m) (MessageID m) s ReasonTargetTerminated now))
                   (q ++ d).
Proof.
  intros Hem Hq Hd. unfold DrainOnTerminal.
  destruct (inbox_Drain Delivered w t s) as [w1 r1] eqn:E.
  destruct (drain_law _ _ _ _ _ _ _ Hq E) as (_ & Hz & Hr & Hok).
  destruct r1 as [ms1|e]; [|by specialize (Hok eq_refl)]. destruct Hr as [-> Hnil].
  unfold on_srv, DrainAll, tx. cbn. rewrite ZRANGE_law, Hz.
  rewrite (decodeRaw_encodes (map snd (zlist w.2 (DLQKey t s))) d Hd).
  destruct (DEL_zset_law w1.2 (DLQKey t s)) as [Hdel Hl]. cbn.
  split_and!; [by rewrite length_app| |by rewrite Hdel, decide_True|].
  - apply (holds_frame w1.1 w1.2); [done|]. by destruct w1.
  - unfold emitExpired. by rewrite Hem.
Qed.

(** An entry and its message: the score lies in the millisecond in which the
    message expires. *)
Definition scored (e : Score * string) (m : Message) : Prop :=
  encodes e.2 m
  /\ (expiry m DefaultDLQTTL * Milli <= e.1 < (expiry m DefaultDLQTTL + 1) * Milli)%Z.

Lemma filter_scored (f : Score * string -> bool) z q :
  Forall2 scored z q ->
  exists ex, Forall2 scored (List.filter f z) ex
    /\ exists rest, Forall2 scored (List.filter (fun e => negb (f e)) z) rest /\ q ≡ₚ ex ++ rest.
Proof.
  induction 1 as [|e m z q He _ (ex & Hex & rest & Hrest & Hp)]; [by exists []; split; [|exists []]|]. cbn.
  destruct (f e); cbn.
  - exists (m :: ex). split; [by constructor|]. exists rest. split; [done|]. by rewrite Hp.
  - exists ex. split; [done|]. exists (m :: rest). split; [by constructor|]. rewrite Hp. by rewrite Permutation_middle.
Qed.

Lemma scored_encodes z q : Forall2 scored z q -> Forall2 encodes (map snd z) q.
Proof. induction 1 as [|e m z q [He _] _ IH]; cbn; by constructor. Qed.

Lemma scored_Forall (f : Score * string -> bool) (P : Message -> Prop) z q :
  (forall e m, scored e m -> f e = true -> P m) -> Forall2 scored (List.filter f z) q -> Forall P q.
Proof.
  intros HP. revert q. induction z as [|e z IH]; intros q; cbn; [by intros ->%Forall2_nil_inv_l|].
  destruct (f e) eqn:Ef; [|apply IH]. intros (m & q' & He & Hq & ->)%Forall2_cons_inv_l.
  constructor; [by eapply HP|by apply IH].
Qed.

(** The sweep of a dead-letter queue expires on time: it removes messages
    whose time has come and announces exactly those, every message whose
    millisecond of expiry has passed among them, and keeps the others with
    their scores. *)
Theorem sweep_expires_on_time c t s (w : I * Σ) q now :
  Forall2 scored (zlist w.2 (DLQKey t s)) q ->
  exists w' ex rest,
    SweepExpired c Delivered now t s w
      = (w', emitExpired c t s ex ReasonDLQTTLExpired now, Ok (Z.of_nat (length ex)))
    /\ q ≡ₚ ex ++ rest /\ Forall2 scored (zlist w'.2 (DLQKey t s)) rest
    /\ Forall (fun m => (expiry m DefaultDLQTTL <= UnixMilli now)%Z) ex
    /\ Forall (fun m => (UnixMilli now <= expiry m DefaultDLQTTL)%Z) rest.
Proof.
  intros Hq. set (n := UnixMilli now). set (f := zbetween None (Some (n * Milli)%Z)).
  destruct (filter_scored f _ _ Hq) as (ex & Hex & rest & Hrest & Hp).
  unfold SweepExpired, on_srv, dlq_SweepExpired, sweepExpiredScript, sbind, sread, swrite, sret. cbn [run_script].
  fold n. rewrite ZRANGEBYSCORE_law. fold f.
  assert (Forall (fun m => (expiry m DefaultDLQTTL <= n)%Z) ex) as Hle.
  { eapply scored_Forall; [|exact Hex]. intros e m [_ Hs]. unfold f, zbetween, Milli in *. cbn. rewrite Z.leb_le. nia. }
  assert (Forall (fun m => (n <= expiry m DefaultDLQTTL)%Z) rest) as Hge.
  { eapply scored_Forall; [|exact Hrest]. intros e m [_ Hs]. unfold f, zbetween, Milli in *. cbn.
    rewrite negb_true_iff, Z.leb_gt. nia. }
  pose proof (decodeRaw_encodes _ _ (scored_encodes _ _ Hex)) as Hdec.
  destruct (map snd (List.filter f (zlist w.2 (DLQKey t s)))) as [|raw raws] eqn:Em.
  - exists (w.1, w.2), [], q. cbn in *. apply map_eq_nil in Em. rewrite Em in Hex. apply Forall2_nil_inv_l in Hex as ->.
    split_and!; try done. rewrite <- Hp in Hge. done.
  - destruct (ZREMRANGEBYSCORE_law w.2 (DLQKey t s) None (Some (n * Milli)%Z)) as [Hz _].
    eexists _, ex, rest. cbn in Hdec |- *. rewrite Hdec. split; [done|]. split; [done|]. cbn.
    by rewrite Hz, decide_True.
Qed.

(** The backlog check counts exactly the held messages accepted in the
    millisecond of the given time or later, also where the order within a
    millisecond changed the score. *)
Theorem count_accepted_exact t s (σ : Σ) q since :
  Forall2 scored (zlist σ (DLQKey t s)) q ->
  CountAcceptedAfter Delivered t s since σ =
    Ok (Z.of_nat (length (List.filter (fun m => (UnixMilli (time_add since DefaultDLQTTL) <=? expiry m DefaultDLQTTL)%Z) q))).
Proof.
  intros Hq. unfold CountAcceptedAfter, tx. cbn. rewrite ZRANGEBYSCORE_law, length_map. do 2 f_equal.
  set (n := UnixMilli _). induction Hq as [|e m z q [_ Hs] _ IH]; [done|]. cbn.
  assert (zbetween (Some (n * Milli)%Z) None e = (n <=? expiry m DefaultDLQTTL)%Z) as ->.
  { unfold zbetween. cbn. rewrite andb_true_r. apply eq_bool_prop_intro. rewrite !Is_true_true, !Z.leb_le.
    unfold Milli in *. nia. }
  destruct (n <=? _)%Z; cbn; by rewrite IH.
Qed.

(** Every enqueue with the default time to live keeps the entries scored. *)
Lemma enqueue_scored max t s m raw (σ : Σ) q :
  Forall2 scored (zlist σ (DLQKey t s)) q -> encodes raw m ->
  exists q', Forall2 scored (zlist (dlq_Enqueue Delivered max t s m DefaultDLQTTL σ).1 (DLQKey t s)) q'.
Proof.
  intros Hq He. unfold dlq_Enqueue, DLQMember. pose proof He as [-> _]. cbn [run_script].
  pose proof (enqueueDLQScript_spec (DLQKey t s) max (expiry m DefaultDLQTTL) raw σ) as Hs. cbn zeta in Hs.
  destruct (enqueueDLQScript _ _ _ _ σ) as [σ' r]. destruct Hs as (_ & Hz & ->). cbn [fst]. rewrite Hz.
  assert (forall f z (q : list Message), Forall2 scored z q -> exists q', Forall2 scored (List.filter f z) q') as Hfilter.
  { intros f z q0 Hf. destruct (filter_scored f z q0 Hf) as (ex & Hex & _). by exists ex. }
  assert (exists q1, Forall2 scored (evicted max (zlist σ (DLQKey t s))).1 q1) as [q1 Hq1].
  { unfold evicted. destruct (_ <=? _)%Z; [|by exists q].
    destruct (zlist σ (DLQKey t s)) as [|[s0 m0] z] eqn:Ez; [by exists q|]. cbn [fst]. by eapply Hfilter. }
  set (z1 := (evicted max (zlist σ (DLQKey t s))).1) in *.
  assert (scored (new_score (expiry m DefaultDLQTTL) z1, raw) m) as Hnew.
  { split; [done|]. cbn [fst]. unfold new_score. destruct (last (List.filter _ z1)) as [e|] eqn:El; [|unfold Milli; lia].
    apply last_Some_elem_of in El. apply list_elem_of_In, filter_In in El as [_ El].
    apply andb_true_iff in El as [Hlo Hhi]. apply Z.leb_le in Hlo. apply Z.ltb_lt in Hhi.
    pose proof (next_step_range (e.1 - expiry m DefaultDLQTTL * Milli)) as Hst. unfold Milli in *.
    pose proof (thousandths_range (next_step (e.1 - expiry m DefaultDLQTTL * 4096))) as Hth. unfold Milli in *. lia. }
  unfold zadd. destruct (Hfilter (fun e => negb (bool_decide (e.2 = raw))) z1 q1 Hq1) as [q2 Hq2].
  fold (zremove raw z1) in Hq2. revert q2 Hq2. induction (zremove raw z1) as [|e z IH]; intros q2 Hq2; cbn.
  - exists [m]. by constructor; [exact Hnew|constructor].
  - destruct (zlt _ e); [exists (m :: q2); by constructor|].
    apply Forall2_cons_inv_l in Hq2 as (m2 & q3 & He2 & Hq3 & ->). destruct (IH q3 Hq3) as [q4 Hq4].
    exists (m2 :: q4). by constructor.
Qed.
End Guarantees.

(** ** The theorems on concrete queues *)

Module Demo.
(** A codec: a message as the decimal text of its number. *)
#[refine] Instance codec : Codec := {|
  marshal m := Some (string_of_Z (Z.pos (encode (MessageID m, SenderSessionID m, Payload m, EnqueuedAt m))));
  unmarshal s := match Z_of_string s with
                 | Some (Z.pos p) => (fun x => mkMessage x.1.1.1 x.1.1.2 x.1.2 x.2) <$> decode p
                 | _ => None
                 end |}.
Proof.
  intros m p _ _ [= <-]. rewrite Z_of_string_of_Z, decode_encode. by destruct m.
Defined.

Definition T0 : Time := (63835596800 * Second)%Z.
Definition msg (id sender : string) (t : Time) : Message := mkMessage id sender "{}" t.
Definition m1 : Message := msg "c" "s1" T0.
Definition m2 : Message := msg "b" "" (T0 + 1000)%Z.
Definition m3 : Message := msg "a" "s3" (T0 + 2000)%Z.
Definition σ0 : Keyspace := mkKeyspace ∅ ∅.
Definition raw (m : Message) : string := default "" (marshal m).

Lemma carried_all : Forall carried [m1; m2; m3].
Proof. repeat constructor; by eexists. Qed.
Lemma encodes_raw m : m ∈ [m1; m2; m3] -> encodes (raw m) m.
Proof. intros Hm. split; [done|]. pose proof carried_all as Hc. rewrite Forall_forall in Hc. by apply Hc. Qed.
Lemma zlist_set σ k z : zlist (set_zset σ k z) k = z.
Proof. cbn. by rewrite get_insert, decide_True. Qed.
Lemma distinct : NoDup (marshal <$> [m1; m2; m3]).
Proof. apply (bool_decide_unpack _). by vm_compute. Qed.
(** The second is held for a forward that failed, with a shorter time to live. *)
Definition mixed : list (Message * Duration) := [(m1, DefaultDLQTTL); (m2, (60 * Second)%Z); (m3, DefaultDLQTTL)].
Definition alike : list (Message * Duration) := [(m1, DefaultDLQTTL); (m2, DefaultDLQTTL); (m3, DefaultDLQTTL)].
Lemma few l x : (length l <= 1000)%nat -> (per_milli x l <= 1000)%Z.
Proof. unfold per_milli. intros. pose proof (List.filter_length_le (fun p : Message * Z => (p.2 =? x)%Z) l). lia. Qed.
Lemma few_all x : (per_milli x (timed <$> alike) <= 1000)%Z /\ (per_milli x (timed <$> mixed) <= 1000)%Z.
Proof. split; apply few; apply Nat.leb_le; reflexivity. Qed.
Lemma sorted_all : StronglySorted Z.le (timed <$> alike).*2.
Proof. cbn. repeat constructor; vm_compute; discriminate. Qed.
End Demo.
#[local] Existing Instance Demo.codec.

Lemma inboxes_agree_witness :
  let ops := [Accept Demo.m1; Accept Demo.m2; Accept Demo.m3; Deliver; Size; Take; Deliver] in
  let answers := [AAccepted None; AAccepted None; AAccepted (Some Demo.m1); ADelivered (Some Demo.m2); ASize 1;
                  ATaken [Demo.m3]; ADelivered None] in
  (inbox_run "acme" "s" (Mem.NewMemoryInbox 2, Demo.σ0) ops).2 = answers
  /\ (inbox_run "acme" "s" (NewRedisInbox 2, Demo.σ0) ops).2 = answers.
Proof.
  cbv zeta. destruct (inboxes_agree Demo.σ0 2 "acme" "s"
    [Accept Demo.m1; Accept Demo.m2; Accept Demo.m3; Deliver; Size; Take; Deliver]) as [-> ->]; [done| |done].
  pose proof Demo.carried_all as Hc. rewrite !Forall_cons in Hc. rewrite !Forall_cons. by naive_solver.
Defined.

Lemma dlq_by_expiry_witness :
  (let '(σ, rs) := dlq_accept 2 "acme" "s" Demo.alike Demo.σ0 in
   rs = [Ok None; Ok None; Ok (Some Demo.m1)] /\ (DrainAll Delivered "acme" "s" σ).2 = Ok [Demo.m2; Demo.m3]) /\
  (let '(σ, rs) := dlq_accept 2 "acme" "s" Demo.mixed Demo.σ0 in
   rs = [Ok None; Ok None; Ok (Some Demo.m2)] /\ (DrainAll Delivered "acme" "s" σ).2 = Ok [Demo.m1; Demo.m3]).
Proof.
  split.
  - pose proof (dlq_by_expiry 2 "acme" "s" Demo.alike Demo.σ0 eq_refl eq_refl Demo.carried_all Demo.distinct (fun x => proj1 (Demo.few_all x))) as Hf.
    destruct (dlq_accept _ _ _ _ _) as [σ rs]. vm_compute (p_accept _ _ _) in Hf. destruct Hf as (-> & -> & _). by split.
  - pose proof (dlq_by_expiry 2 "acme" "s" Demo.mixed Demo.σ0 eq_refl eq_refl Demo.carried_all Demo.distinct (fun x => proj2 (Demo.few_all x))) as Hf.
    destruct (dlq_accept _ _ _ _ _) as [σ rs]. vm_compute (p_accept _ _ _) in Hf. destruct Hf as (-> & -> & _). by split.
Defined.

(** The message that was accepted second, with the shorter time to live, is peeked
    and drained first. *)
Lemma mixed_ttls_overtake :
  let σ := (dlq_accept 5 "acme" "s" Demo.mixed Demo.σ0).1 in
  (DrainAll Delivered "acme" "s" σ).2 = Ok [Demo.m2; Demo.m1; Demo.m3] /\
  PeekOldest Delivered "acme" "s" σ = Ok (Some (Demo.m2, Demo.raw Demo.m2)) /\ (EnqueuedAt Demo.m1 < EnqueuedAt Demo.m2)%Z.
Proof. vm_compute. by split_and!. Qed.

Lemma migration_keeps_the_last_witness :
  let c := mkCoordinator 1 false true in
  let w := (Mem.mkMemoryInbox 5 {[ InboxKey "acme" "s" := [Demo.m1; Demo.m2; Demo.m3] ]}, Demo.σ0) in
  let '(w', r) := MigrateInboxToDLQ c Delivered (fun _ => Delivered) "acme" "s" w in
  r = (3%Z, None) /\ (DrainAll Delivered "acme" "s" w'.2).2 = Ok [Demo.m3].
Proof.
  cbv zeta. pose (w := (Mem.mkMemoryInbox 5 {[ InboxKey "acme" "s" := [Demo.m1; Demo.m2; Demo.m3] ]}, Demo.σ0)).
  pose proof (migration_keeps_the_last (mkCoordinator 1 false true) "acme" "s" w [Demo.m1; Demo.m2; Demo.m3] []
    (fun _ => 0%Z) eq_refl eq_refl) as Hm.
  fold w. destruct (MigrateInboxToDLQ _ _ _ _ _ w) as [w' r]. apply Hm.
  - by vm_compute.
  - split_and!; [constructor|constructor|constructor|lia].
  - done.
  - exact Demo.carried_all.
  - exact Demo.distinct.
  - intros m raw _ _. cbn. set_solver.
  - exact Demo.sorted_all.
  - intros x. pose proof (proj1 (Demo.few_all x)). split; [done|exact H].
Defined.

Lemma terminal_drain_notifies_witness :
  let σ := set_zset Demo.σ0 (DLQKey "acme" "s") [((expiry Demo.m3 DefaultDLQTTL * Milli)%Z, Demo.raw Demo.m3)] in
  let w := (Mem.mkMemoryInbox 5 {[ InboxKey "acme" "s" := [Demo.m1; Demo.m2] ]}, σ) in
  let '(_, events, r) := DrainOnTerminal (mkCoordinator 5 false true) Delivered Delivered Demo.T0 "acme" "s" w in
  r = (3%Z, None)
  /\ events = [MessageExpired "acme" "s1" "c" "s" ReasonTargetTerminated Demo.T0;
               MessageExpired "acme" "s3" "a" "s" ReasonTargetTerminated Demo.T0].
Proof.
  cbv zeta. pose (σ := set_zset Demo.σ0 (DLQKey "acme" "s") [((expiry Demo.m3 DefaultDLQTTL * Milli)%Z, Demo.raw Demo.m3)]).
  pose (w := (Mem.mkMemoryInbox 5 {[ InboxKey "acme" "s" := [Demo.m1; Demo.m2] ]}, σ)).
  pose proof (terminal_drain_notifies (mkCoordinator 5 false true) "acme" "s" w [Demo.m1; Demo.m2] [Demo.m3]
    Demo.T0 eq_refl) as Hd.
  fold σ. fold w. destruct (DrainOnTerminal _ _ _ _ _ _ w) as [[w' events] r].
  destruct Hd as (-> & _ & _ & ->); [by vm_compute| |done].
  assert (zlist w.2 (DLQKey "acme" "s") = [((expiry Demo.m3 DefaultDLQTTL * Milli)%Z, Demo.raw Demo.m3)]) as ->
    by (unfold w, σ; cbn; by rewrite get_insert, decide_True).
  constructor; [|constructor]. apply Demo.encodes_raw. set_solver.
Defined.

Lemma sweep_expires_on_time_witness :
  let σ := set_zset Demo.σ0 (DLQKey "acme" "s") [((expiry Demo.m1 DefaultDLQTTL * Milli)%Z, Demo.raw Demo.m1)] in
  exists w' ex rest, SweepExpired (mkCoordinator 5 false true) Delivered (Demo.T0 + Hour)%Z "acme" "s"
      (Mem.NewMemoryInbox 5, σ)
    = (w', emitExpired (mkCoordinator 5 false true) "acme" "s" ex ReasonDLQTTLExpired (Demo.T0 + Hour)%Z,
       Ok (Z.of_nat (length ex)))
    /\ [Demo.m1] ≡ₚ ex ++ rest.
Proof.
  cbv zeta.
  destruct (sweep_expires_on_time (mkCoordinator 5 false true) "acme" "s"
    (Mem.NewMemoryInbox 5, set_zset Demo.σ0 (DLQKey "acme" "s") [((expiry Demo.m1 DefaultDLQTTL * Milli)%Z, Demo.raw Demo.m1)])
    [Demo.m1] (Demo.T0 + Hour)) as (w' & ex & rest & E & Hp & _);
    [|exists w', ex, rest; split; [exact E|exact Hp]].
  cbn [snd]. rewrite Demo.zlist_set. constructor; [|constructor].
  split; [apply Demo.encodes_raw; set_solver|]. cbn [fst]. unfold Milli. lia.
Defined.

Lemma count_accepted_exact_witness :
  let σ := set_zset Demo.σ0 (DLQKey "acme" "s") [((expiry Demo.m1 DefaultDLQTTL * Milli + 4)%Z, Demo.raw Demo.m1)] in
  CountAcceptedAfter Delivered "acme" "s" (Demo.T0 + 500)%Z σ = Ok 1%Z.
Proof.
  cbv zeta. rewrite (count_accepted_exact "acme" "s" _ [Demo.m1]); [by vm_compute|].
  rewrite Demo.zlist_set. constructor; [|constructor].
  split; [apply Demo.encodes_raw; set_solver|]. cbn [fst]. unfold Milli. lia.
Defined.
