(* ===== verification/Recovery.v ===== *)
(** * Recovering a delegation tree ([delegation/recovery])

    The traversal that reattaches the failed nodes of a tree, deepest level
    first, under a budget per level and one for the tree ([recovery.go]).  The
    readings of the clock and what the recovery of a node comes to are
    arguments; the calls the traversal makes are recorded in a trace. *)

From S2P Require Import Prelude.

Definition DefaultLevelTimeout : Duration := (120 * Second)%Z.
Definition DefaultTreeTimeout : Duration := (600 * Second)%Z.
Definition DefaultUsageQuiescenceTimeout : Duration := (5 * Second)%Z.

Record Node := mkNode { SessionID : string; Depth : Z }.

Inductive Outcome := OutcomeRecovered | OutcomeFailed.

Record NodeResult := mkNodeResult { r_Node : Node; r_Outcome : Outcome; Reason : string }.

Record Config := mkConfig { LevelTimeout : Duration; TreeTimeout : Duration; UsageQuiescenceTimeout : Duration }.

Definition orDefault (d default_ : Duration) : Duration := if (d <=? 0)%Z then default_ else d.

Definition withDefaults (c : Config) : Config :=
  mkConfig (orDefault (LevelTimeout c) DefaultLevelTimeout) (orDefault (TreeTimeout c) DefaultTreeTimeout)
    (orDefault (UsageQuiescenceTimeout c) DefaultUsageQuiescenceTimeout).

Definition QuiescenceDeadline (c : Config) (lastUsageReport : Time) : Time :=
  time_add lastUsageReport (UsageQuiescenceTimeout (withDefaults c)).

(** ** Levels *)

Definition session_le (a b : Node) : Prop := String.le (SessionID a) (SessionID b).
#[export] Instance session_le_dec a b : Decision (session_le a b) := ltac:(unfold session_le; apply _).
#[export] Instance session_le_total : Total session_le.
Proof. intros a b. unfold session_le. apply (total String.le). Qed.
#[export] Instance session_le_trans : Transitive session_le.
Proof. intros a b c. unfold session_le. apply transitivity. Qed.

#[export] Instance Zge_trans : Transitive Z.ge := ltac:(intros x y z; lia).
#[export] Instance Zge_total : Total Z.ge := ltac:(intros x y; lia).

Definition depths (nodes : list Node) : list Z := merge_sort Z.ge (remove_dups (Depth <$> nodes)).

(** Nodes of one depth with equal sessions are equal, so the order does not depend
    on the stability of the sort. *)
Definition level_at (nodes : list Node) (d : Z) : list Node := merge_sort session_le (filter (fun n => Depth n = d) nodes).

Definition Levels (nodes : list Node) : list (list Node) := level_at nodes <$> depths nodes.

(** ** The traversal *)

Definition ReasonTreeTimeout : string := "tree recovery deadline exceeded".
Definition ReasonLevelTimeout : string := "level recovery deadline exceeded".

Definition budgetElapsed (now levelDeadline treeDeadline : Time) : option string :=
  if negb (time_before now treeDeadline) then Some ReasonTreeTimeout
  else if negb (time_before now levelDeadline) then Some ReasonLevelTimeout
  else None.

Definition nodeDeadline (levelDeadline treeDeadline : Time) : Time * string :=
  if negb (time_after treeDeadline levelDeadline) then (levelDeadline, ReasonTreeTimeout) else (levelDeadline, ReasonLevelTimeout).

(** What [recoverFn] comes to: its error, and how the two contexts stand then. *)
Record Answer := mkAnswer { a_error : option string; a_deadlineExceeded : bool; a_parentDone : bool }.

Inductive Event :=
| EStart (n : Node) (now : Time)
| EWait (n : Node) (now : Time) (timeout : Duration)
| EResult (r : NodeResult).

Section traversal.
Context (clock : nat -> Time) (answers : Node -> Answer) (cfg : Config).

Definition waitResult (n : Node) (reason : string) : NodeResult :=
  match a_error (answers n) with
  | None => mkNodeResult n OutcomeRecovered ""
  | Some e => if a_deadlineExceeded (answers n) && negb (a_parentDone (answers n)) then mkNodeResult n OutcomeFailed reason else mkNodeResult n OutcomeFailed e
  end.

(** [i] counts the readings of the clock so far. *)
Definition waitNode (i : nat) (n : Node) (deadline : Time) (reason : string) : nat * list Event :=
  (S i, [EWait n (clock i) (time_sub deadline (clock i)); EResult (waitResult n reason)]).

(** The first loop of a level: what it records, and the nodes it drives. *)
Fixpoint startLevel (i : nat) (levelDeadline treeDeadline : Time) (level : list Node) : nat * list Event * list Node :=
  match level with
  | [] => (i, [], [])
  | n :: level =>
      let '(j, es, driven) := startLevel (S i) levelDeadline treeDeadline level in
      match budgetElapsed (clock i) levelDeadline treeDeadline with
      | Some reason => (j, EResult (mkNodeResult n OutcomeFailed reason) :: es, driven)
      | None => (j, EStart n (clock i) :: es, n :: driven)
      end
  end.

Fixpoint waitLevel (i : nat) (deadline : Time) (reason : string) (driven : list Node) : nat * list Event :=
  match driven with
  | [] => (i, [])
  | n :: driven =>
      let '(i, es) := waitNode i n deadline reason in
      let '(i, es') := waitLevel i deadline reason driven in (i, es ++ es')
  end.

Definition levelDeadline_of (now treeDeadline : Time) : Time :=
  let d := time_add now (LevelTimeout cfg) in if time_after d treeDeadline then treeDeadline else d.

Definition recoverLevel (i : nat) (treeDeadline : Time) (level : list Node) : nat * list Event :=
  let levelDeadline := levelDeadline_of (clock i) treeDeadline in
  let '(deadline, reason) := nodeDeadline levelDeadline treeDeadline in
  let '(i, es, driven) := startLevel (S i) levelDeadline treeDeadline level in
  let '(i, es') := waitLevel i deadline reason driven in (i, es ++ es').

Fixpoint recoverLevels (i : nat) (treeDeadline : Time) (levels : list (list Node)) : list Event :=
  match levels with
  | [] => []
  | level :: levels => let '(i, es) := recoverLevel i treeDeadline level in es ++ recoverLevels i treeDeadline levels
  end.
End traversal.

Definition treeDeadline_of (clock : nat -> Time) (cfg : Config) : Time := time_add (clock 0) (TreeTimeout (withDefaults cfg)).

Definition Recover (clock : nat -> Time) (answers : Node -> Answer) (cfg : Config) (nodes : list Node) : list Event :=
  recoverLevels clock answers (withDefaults cfg) 1 (treeDeadline_of clock cfg) (Levels nodes).

Definition results (es : list Event) : list NodeResult := omap (fun e => match e with EResult r => Some r | _ => None end) es.

Definition event_node (e : Event) : Node := match e with EStart n _ => n | EWait n _ _ => n | EResult r => r_Node r end.

(** ** Levels *)

Lemma concat_filters (ds : list Z) (nodes : list Node) : NoDup ds -> (forall n, n ∈ nodes -> Depth n ∈ ds) ->
  concat ((fun d => filter (fun n => Depth n = d) nodes) <$> ds) ≡ₚ nodes.
Proof.
  revert nodes. induction ds as [|d ds IH]; intros nodes Hnd Hin.
  { cbn. destruct nodes as [|n nodes]; [done|]. destruct (not_elem_of_nil (Depth n)). apply Hin. by left. }
  apply NoDup_cons in Hnd as [Hd Hnd]. cbn [fmap list_fmap concat].
  etransitivity; [|apply (filter_app_complement (fun n => Depth n = d))]. f_equiv. etransitivity; [|apply IH; [done|]].
  - apply reflexive_eq. f_equal. apply list_fmap_ext. intros i d' Hi. rewrite list_filter_filter. apply list_filter_iff. intros n. split; [|tauto].
    intros ->. split; [done|]. intros ->. by apply Hd, (list_elem_of_lookup_2 _ i).
  - intros n [Hn Hx]%list_elem_of_filter. apply Hin, elem_of_cons in Hx as [|]; [done|done].
Qed.

Lemma depths_spec nodes : StronglySorted Z.ge (depths nodes) /\ NoDup (depths nodes) /\ forall d, d ∈ depths nodes <-> exists n, n ∈ nodes /\ Depth n = d.
Proof.
  unfold depths. split; [apply (StronglySorted_merge_sort Z.ge)|]. split.
  - rewrite merge_sort_Permutation. apply NoDup_remove_dups.
  - intros d. rewrite merge_sort_Permutation, elem_of_remove_dups, list_elem_of_fmap. naive_solver.
Qed.

Lemma level_at_elem nodes d n : n ∈ level_at nodes d <-> n ∈ nodes /\ Depth n = d.
Proof. unfold level_at. rewrite merge_sort_Permutation, list_elem_of_filter. tauto. Qed.

Lemma Levels_perm nodes : concat (Levels nodes) ≡ₚ nodes.
Proof.
  destruct (depths_spec nodes) as (_ & Hnd & Hd). etransitivity; [|apply (concat_filters (depths nodes) nodes); [done|]].
  - unfold Levels, level_at. clear Hnd Hd. induction (depths nodes) as [|d ds IH]; cbn [fmap list_fmap concat]; [done|].
    rewrite merge_sort_Permutation. by f_equiv.
  - intros n Hn. apply Hd. eauto.
Qed.

(** ** The trace *)

Definition is_wait (e : Event) : Prop := match e with EWait _ _ _ => True | _ => False end.
Definition is_start (e : Event) : Prop := match e with EStart _ _ => True | _ => False end.
Definition event_depth (e : Event) : Z := Depth (event_node e).

(** Deeper levels come first, and a level is started before it is waited for. *)
Definition before (a b : Event) : Prop := (event_depth b <= event_depth a)%Z /\ (is_wait a -> is_start b -> (event_depth b < event_depth a)%Z).

Lemma results_app es es' : results (es ++ es') = results es ++ results es'.
Proof. apply omap_app. Qed.

Lemma all_pairs_sorted {A} (R : relation A) (l : list A) : (forall a b, a ∈ l -> b ∈ l -> R a b) -> StronglySorted R l.
Proof.
  induction l as [|a l IH]; intros H; constructor.
  - apply IH. intros x y Hx Hy. by apply H; right.
  - apply Forall_forall. intros x Hx. apply H; [left|by right].
Qed.

Section level.
Context (clock : nat -> Time) (answers : Node -> Answer) (cfg : Config) (treeDeadline : Time).

Lemma startLevel_spec i ld level j es driven : startLevel clock i ld treeDeadline level = (j, es, driven) ->
  (r_Node <$> results es) ++ driven ≡ₚ level /\ Forall (fun e => event_node e ∈ level /\ ~ is_wait e) es /\
  forall n t, EStart n t ∈ es -> (t < treeDeadline)%Z /\ (t < ld)%Z.
Proof using Type.
  revert i j es driven. induction level as [|n level IH]; intros i j es driven; cbn [startLevel].
  { intros [= <- <- <-]. split; [done|]. split; [done|]. by intros n t ?%not_elem_of_nil. }
  destruct (startLevel clock (S i) ld treeDeadline level) as [[j' es'] driven'] eqn:E. destruct (IH _ _ _ _ E) as (Hperm & Hin & Hst).
  assert (Forall (fun e => event_node e ∈ n :: level /\ ~ is_wait e) es') as Hin' by (eapply Forall_impl; [done|]; intros e [? ?]; split; [by right|done]).
  unfold budgetElapsed, time_before. destruct (Z.ltb_spec (clock i) treeDeadline) as [H1|H1]; cbn [negb].
  1: destruct (Z.ltb_spec (clock i) ld) as [H2|H2]; cbn [negb].
  - intros [= <- <- <-]. cbn [results omap list_omap]. split; [by rewrite <- Permutation_middle, Hperm|]. split; [constructor; [split; [left|auto]|done]|].
    intros m t [[= -> ->]|Hm]%elem_of_cons; [done|by eapply Hst].
  - intros [= <- <- <-]. cbn [results omap list_omap fmap list_fmap app r_Node]. split; [by rewrite Hperm|]. split; [constructor; [split; [left|auto]|done]|].
    intros m t [?|Hm]%elem_of_cons; [done|by eapply Hst].
  - intros [= <- <- <-]. cbn [results omap list_omap fmap list_fmap app r_Node]. split; [by rewrite Hperm|]. split; [constructor; [split; [left|auto]|done]|].
    intros m t [?|Hm]%elem_of_cons; [done|by eapply Hst].
Qed.

Lemma waitResult_node n reason : r_Node (waitResult answers n reason) = n.
Proof using Type. unfold waitResult. destruct (a_error (answers n)); [|done]. by destruct (_ && _). Qed.

Lemma waitLevel_spec i deadline reason driven j es : waitLevel clock answers i deadline reason driven = (j, es) ->
  r_Node <$> results es = driven /\ Forall (fun e => event_node e ∈ driven /\ ~ is_start e) es /\
  forall n t d, EWait n t d ∈ es -> d = time_sub deadline t.
Proof using Type.
  revert i j es. induction driven as [|n driven IH]; intros i j es; cbn [waitLevel waitNode].
  { intros [= <- <-]. split; [done|]. split; [done|]. by intros n t d ?%not_elem_of_nil. }
  destruct (waitLevel clock answers (S i) deadline reason driven) as [j' es'] eqn:E. destruct (IH _ _ _ E) as (Hr & Hin & Hw). intros [= <- <-].
  cbn [app results omap list_omap fmap list_fmap]. fold (results es'). split; [by rewrite waitResult_node, <- Hr|]. split.
  - constructor; [split; [left|auto]|]. constructor; [split; [cbn [event_node]; rewrite waitResult_node; left|auto]|].
    eapply Forall_impl; [done|]. intros e [? ?]. split; [by right|done].
  - intros m t d [[= -> -> ->]|[?|Hm]%elem_of_cons]%elem_of_cons; [done|done|by eapply Hw].
Qed.

Lemma levelDeadline_le now : (levelDeadline_of cfg now treeDeadline <= treeDeadline)%Z.
Proof using Type. unfold levelDeadline_of, time_after. destruct (Z.ltb_spec treeDeadline (time_add now (LevelTimeout cfg))); lia. Qed.

(** One level, all of whose nodes have one depth. *)
Lemma recoverLevel_spec i level j es d : (forall n, n ∈ level -> Depth n = d) -> recoverLevel clock answers cfg i treeDeadline level = (j, es) ->
  (r_Node <$> results es) ≡ₚ level /\ Forall (fun e => event_depth e = d) es /\ StronglySorted before es /\
  (forall n t, EStart n t ∈ es -> (t < treeDeadline)%Z) /\
  (forall n t timeout, EWait n t timeout ∈ es -> exists dl, (dl <= treeDeadline)%Z /\ timeout = time_sub dl t).
Proof using Type.
  intros Hd. unfold recoverLevel. set (ld := levelDeadline_of cfg (clock i) treeDeadline). pose proof (levelDeadline_le (clock i)) as Hle. fold ld in Hle.
  assert ((nodeDeadline ld treeDeadline).1 = ld) as Hdl by (unfold nodeDeadline; by destruct (negb _)).
  destruct (nodeDeadline ld treeDeadline) as [deadline reason]. cbn [fst] in Hdl. subst deadline.
  destruct (startLevel clock (S i) ld treeDeadline level) as [[i1 es1] driven] eqn:E1. destruct (startLevel_spec _ _ _ _ _ _ E1) as (Hp1 & Hin1 & Hs1).
  destruct (waitLevel clock answers i1 ld reason driven) as [i2 es2] eqn:E2. destruct (waitLevel_spec _ _ _ _ _ _ E2) as (Hp2 & Hin2 & Hw2). intros [= <- <-].
  rewrite Forall_forall in Hin1, Hin2.
  assert (forall e, e ∈ es1 -> event_depth e = d) as Hd1 by (intros e He; apply Hd, (proj1 (Hin1 e He))).
  assert (forall e, e ∈ es2 -> event_depth e = d) as Hd2.
  { intros e He. apply Hd. rewrite <- Hp1. apply elem_of_app. right. apply (proj1 (Hin2 e He)). }
  split; [by rewrite results_app, fmap_app, Hp2|]. split; [apply Forall_app; split; by apply Forall_forall|]. split; [|split].
  - apply StronglySorted_app_2.
    + intros a b Ha Hb. split; [rewrite (Hd1 a Ha), (Hd2 b Hb); lia|]. intros Hw. by destruct (proj2 (Hin1 a Ha)).
    + apply all_pairs_sorted. intros a b Ha Hb. split; [rewrite !Hd1 by done; lia|]. intros Hw. by destruct (proj2 (Hin1 a Ha)).
    + apply all_pairs_sorted. intros a b Ha Hb. split; [rewrite !Hd2 by done; lia|]. intros _ Hw. by destruct (proj2 (Hin2 b Hb)).
  - intros n t [Hn|Hn]%elem_of_app; [by apply Hs1 in Hn as [? _]|]. by destruct (proj2 (Hin2 _ Hn)).
  - intros n t timeout [Hn|Hn]%elem_of_app; [by destruct (proj2 (Hin1 _ Hn))|]. exists ld. split; [done|]. by eapply Hw2.
Qed.
End level.

Section tree.
Context (clock : nat -> Time) (answers : Node -> Answer) (cfg : Config) (treeDeadline : Time) (nodes : list Node).

(** The levels of strictly falling depths. *)
Lemma recoverLevels_spec ds : StronglySorted Z.ge ds -> NoDup ds -> forall i,
  let es := recoverLevels clock answers cfg i treeDeadline (level_at nodes <$> ds) in
  (r_Node <$> results es) ≡ₚ concat (level_at nodes <$> ds) /\ Forall (fun e => event_depth e ∈ ds) es /\ StronglySorted before es /\
  (forall n t, EStart n t ∈ es -> (t < treeDeadline)%Z) /\
  (forall n t timeout, EWait n t timeout ∈ es -> exists dl, (dl <= treeDeadline)%Z /\ timeout = time_sub dl t).
Proof using Type.
  induction ds as [|d ds IH]; intros Hs Hnd i es.
  { subst es. cbn. split; [done|]. split; [done|]. split; [constructor|]. split; [by intros n t ?%not_elem_of_nil|by intros n t x ?%not_elem_of_nil]. }
  apply StronglySorted_cons in Hs as [Hd Hs]. apply NoDup_cons in Hnd as [Hnin Hnd]. subst es. cbn [fmap list_fmap recoverLevels concat].
  destruct (recoverLevel clock answers cfg i treeDeadline (level_at nodes d)) as [j es1] eqn:E.
  destruct (recoverLevel_spec clock answers cfg treeDeadline i (level_at nodes d) j es1 d) as (Hp1 & Hd1 & Ho1 & Hs1 & Hw1); [|done|].
  { intros n Hn. by apply level_at_elem in Hn as [_ ?]. }
  destruct (IH Hs Hnd j) as (Hp2 & Hd2 & Ho2 & Hs2 & Hw2). set (es2 := recoverLevels _ _ _ j _ _) in *. rewrite Forall_forall in Hd1, Hd2. rewrite Forall_forall in Hd.
  split; [rewrite results_app, fmap_app; by f_equiv|]. split; [|split; [|split]].
  - apply Forall_app. split; apply Forall_forall; intros e He; [rewrite (Hd1 e He); left|right; by apply Hd2].
  - apply StronglySorted_app_2; [|done|done]. intros a b Ha Hb. specialize (Hd _ (Hd2 b Hb)). rewrite <- (Hd1 a Ha) in Hd.
    assert (event_depth b <> event_depth a) by (intros Heq; apply Hnin; rewrite <- (Hd1 a Ha), <- Heq; by apply Hd2).
    split; lia.
  - intros n t [Hn|Hn]%elem_of_app; eauto.
  - intros n t timeout [Hn|Hn]%elem_of_app; eauto.
Qed.
End tree.

(** C27. The traversal reports every node once, deepest levels first.  A node is only
    started within the tree's budget, after every deeper node has its result and
    before any node of its own level is waited for; and no wait is given longer
    than what is left of the tree's budget. *)
Theorem recovery_bottom_up clock answers cfg nodes : let es := Recover clock answers cfg nodes in
  (r_Node <$> results es) ≡ₚ nodes /\
  (forall pre n t post, es = pre ++ EStart n t :: post ->
     (t < treeDeadline_of clock cfg)%Z /\
     (forall m, m ∈ nodes -> (Depth n < Depth m)%Z -> exists r, EResult r ∈ pre /\ r_Node r = m) /\
     (forall m u timeout, EWait m u timeout ∈ pre -> (Depth n < Depth m)%Z)) /\
  (forall n t timeout, EWait n t timeout ∈ es -> exists dl, (dl <= treeDeadline_of clock cfg)%Z /\ timeout = time_sub dl t).
Proof.
  intros es. destruct (depths_spec nodes) as (Hs & Hnd & _).
  destruct (recoverLevels_spec clock answers (withDefaults cfg) (treeDeadline_of clock cfg) nodes (depths nodes) Hs Hnd 1) as (Hp & _ & Ho & Hst & Hw).
  fold (Levels nodes) in Hp, Ho, Hst, Hw. fold (Recover clock answers cfg nodes) in Hp, Ho, Hst, Hw. fold es in Hp, Ho, Hst, Hw. rewrite Levels_perm in Hp.
  split; [done|]. split; [|done]. intros pre n t post Hes. split; [apply (Hst n); rewrite Hes; set_solver|]. rewrite Hes in Ho. split.
  - intros m Hm Hlt. rewrite <- Hp in Hm. apply list_elem_of_fmap in Hm as (r & -> & Hr). apply list_elem_of_omap in Hr as (e & He & Her).
    destruct e as [| |r']; try done. injection Her as ->. exists r. split; [|done]. rewrite Hes in He. apply elem_of_app in He as [|He]; [done|exfalso].
    apply elem_of_cons in He as [|He]; [done|]. apply StronglySorted_app_1_r, StronglySorted_cons in Ho as [Ho _]. rewrite Forall_forall in Ho.
    destruct (Ho _ He) as [Hle _]. cbn in Hle. unfold event_depth in Hle. cbn in Hle. lia.
  - intros m u timeout Hm. destruct (StronglySorted_app_1_elem_of _ _ _ _ (EStart n t) Ho Hm) as [_ Hb]; [left|]. by apply Hb.
Qed.
