(* ===== verification/Deadlock.v ===== *)
(** * The subtree deadlock detector ([delegationtree/deadlock])

    [Detect] is a memoised depth-first search over the await edges of a
    snapshot with a cut at a node that is still being visited, followed by a
    breadth-first walk of each root.  Go ranges over the snapshot's map in no
    fixed order, so both orders are arguments.  The search runs in a monad
    over its two maps that can run out of fuel; the theorems show that it
    never does and that it computes the inductive predicate [Blocked]. *)

From S2P Require Import Prelude StateMachine SessionState InputWait.

Definition EventType : string := "deadlock_detected".
Definition DefaultMaxWait : Duration := (120 * Second)%Z.

Record PendingInput := mkPendingInput { piRequestID : string; piBlockedSince : Time }.

Record Node := mkNode {
  SessionID : string;
  TenantID : string;
  NodeState : State;
  AwaitingChildIDs : list string;
  PendingInputs : list PendingInput;
  Pool : string;
  nodeAnswered : Z }.

Abbreviation Snapshot := (gmap string Node).

Record BlockedRequest := mkBlockedRequest { brRequestID : string; brTaskID : string; brBlockedSince : Time }.

Record Subtree := mkSubtree {
  Root : string;
  stTenantID : string;
  BlockedRequests : list BlockedRequest;
  DeepestTasks : list string;
  stPool : string;
  Members : list string }.

(** ** The search *)

Record dfs := mkDfs { memo : gmap string bool; visiting : gset string }.

Definition search (A : Type) : Type := dfs -> option (A * dfs).

#[export] Instance search_ret : MRet search := fun A a s => Some (a, s).
#[export] Instance search_bind : MBind search := fun A B f m s =>
  match m s with Some (a, s) => f a s | None => None end.

(** A range loop with an accumulator. *)
Fixpoint for_each {A B} (f : B -> A -> search B) (l : list A) (b : B) : search B :=
  match l with
  | [] => mret b
  | a :: l => b ← f b a; for_each f l b
  end.

Section Detector.
Variable nodes : Snapshot.

Definition isTerminal (c : string) : bool :=
  match nodes !! c with None => true | Some n => IsTerminal (NodeState n) end.

(** The loop over the awaited children: [anyBlocked && !obstructed], where
    the first obstruction ends it. *)
Fixpoint scanChildren (blocked : string -> search bool) (cs : list string) (anyBlocked : bool) : search bool :=
  match cs with
  | [] => mret anyBlocked
  | c :: cs =>
      if isTerminal c then scanChildren blocked cs anyBlocked
      else b ← blocked c; if (b : bool) then scanChildren blocked cs true else mret false
  end.

Definition examine (blocked : string -> search bool) (n : Node) : search bool :=
  match PendingInputs n, AwaitingChildIDs n with
  | _ :: _, _ => mret true
  | [], [] => mret false
  | [], cs => scanChildren blocked cs false
  end.

Fixpoint blocked (fuel : nat) (id : string) : search bool := fun s =>
  match fuel with
  | O => None
  | S fuel =>
      match memo s !! id with
      | Some v => Some (v, s)
      | None =>
          if bool_decide (id ∈ visiting s) then Some (false, s)
          else match nodes !! id with
               | None => Some (false, s)
               | Some n =>
                   match examine (blocked fuel) n (mkDfs (memo s) ({[id]} ∪ visiting s)) with
                   | None => None
                   | Some (res, s) => Some (res, mkDfs (<[id := res]> (memo s)) (visiting s ∖ {[id]}))
                   end
               end
      end
  end.

Definition fuel : nat := S (size nodes).

Definition children (id : string) : list string :=
  match nodes !! id with Some n => AwaitingChildIDs n | None => [] end.
Definition inputs (id : string) : list PendingInput :=
  match nodes !! id with Some n => PendingInputs n | None => [] end.

(** ** The walk of a subtree *)

Record walk := mkWalk {
  order : list string;
  seen : gset string;
  depth : gmap string Z;
  reqs : list (BlockedRequest * Z);
  maxInputDepth : Z }.

Definition addReq (id : string) (d : Z) (w : walk) (p : PendingInput) : walk :=
  mkWalk (order w) (seen w) (depth w)
    (reqs w ++ [(mkBlockedRequest (piRequestID p) id (piBlockedSince p), d)])
    (if (maxInputDepth w <? d)%Z then d else maxInputDepth w).

Definition follow (d : Z) (w : walk) (c : string) : search walk :=
  if bool_decide (c ∈ seen w) || isTerminal c then mret w
  else b ← blocked fuel c;
       if negb b then mret w
       else mret (mkWalk (order w ++ [c]) ({[c]} ∪ seen w) (<[c := (d + 1)%Z]> (depth w)) (reqs w) (maxInputDepth w)).

Fixpoint walkLoop (n i : nat) (w : walk) : search walk := fun s =>
  match order w !! i with
  | None => Some (w, s)
  | Some id =>
      match n with
      | O => None
      | S n =>
          let d := default 0%Z (depth w !! id) in
          let w := foldl (addReq id d) w (inputs id) in
          (w ← for_each (follow d) (children id) w; walkLoop n (S i) w) s
      end
  end.

Definition req_le (a b : BlockedRequest) : Prop :=
  if bool_decide (brTaskID a = brTaskID b) then String.le (brRequestID a) (brRequestID b)
  else String.le (brTaskID a) (brTaskID b).

#[export] Instance req_le_dec a b : Decision (req_le a b).
Proof. unfold req_le. case_bool_decide; apply _. Defined.

Definition finish (root : string) (w : walk) : Subtree :=
  let n := nodes !! root in
  let deepSet : gset string := list_to_set ((fun r => brTaskID r.1) <$>
    filter (fun r => r.2 = maxInputDepth w) (reqs w)) in
  mkSubtree root (default "" (TenantID <$> n))
    (merge_sort req_le ((fun r => r.1) <$> reqs w)) (sort_strings (elements deepSet))
    (default "" (Pool <$> n)) (sort_strings (order w)).

Definition buildSubtree (root : string) : search Subtree :=
  w ← walkLoop fuel 0 (mkWalk [root] {[root]} {[root := 0%Z]} [] (-1)%Z);
  mret (finish root w).

(** ** [Detect] *)

Definition markContained (acc : gset string) (id : string) : search (gset string) :=
  match children id with
  | [] => mret acc
  | cs => b ← blocked fuel id;
          if negb b then mret acc
          else for_each (fun acc c => b ← blocked fuel c; mret (if (b : bool) then {[c]} ∪ acc else acc)) cs acc
  end.

Definition addRoot (contained : gset string) (acc : list string) (id : string) : search (list string) :=
  match children id with
  | [] => mret acc
  | _ => b ← blocked fuel id; mret (if b && negb (bool_decide (id ∈ contained)) then acc ++ [id] else acc)
  end.

Definition addSubtree (acc : list Subtree) (root : string) : search (list Subtree) :=
  st ← buildSubtree root;
  mret (match BlockedRequests st with [] => acc | _ => acc ++ [st] end).

(** The two [range nodes] loops visit the keys in the orders given. *)
Definition Detect (order1 order2 : list string) : search (list Subtree) :=
  contained ← for_each markContained order1 ∅;
  roots ← for_each (addRoot contained) order2 [];
  for_each addSubtree (sort_strings roots) [].

Definition run_Detect (order1 order2 : list string) : option (list Subtree) :=
  fst <$> Detect order1 order2 (mkDfs ∅ ∅).

(** ** Specification: blocked tasks as an inductive predicate *)

Inductive Blocked : string -> Prop :=
| Blocked_input id : inputs id <> [] -> Blocked id
| Blocked_await id c :
    c ∈ children id -> isTerminal c = false ->
    (forall c, c ∈ children id -> isTerminal c = false -> Blocked c) -> Blocked id.

Lemma Blocked_inv id : Blocked id -> inputs id = [] ->
  (exists c, c ∈ children id /\ isTerminal c = false) /\
  (forall c, c ∈ children id -> isTerminal c = false -> Blocked c).
Proof. destruct 1; [done|eauto]. Qed.

(** An await edge the search follows. *)
Definition awaits (id c : string) : Prop := inputs id = [] /\ c ∈ children id /\ isTerminal c = false.

Lemma Blocked_awaits id c : Blocked id -> awaits id c -> Blocked c.
Proof. intros Hb (Hi & ? & ?). apply (Blocked_inv id) in Hb as [_ Hb]; auto. Qed.

Lemma Blocked_Acc id : Blocked id -> Acc (flip awaits) id.
Proof.
  induction 1 as [id Hi|id c Hc Ht _ IH]; constructor; intros y (Hy1 & Hy2 & Hy3); [done|]. by apply IH.
Qed.

(** A task on a cycle of waits is not blocked in this sense: its derivation
    would contain itself. *)
Lemma Blocked_no_cycle id : tc awaits id id -> ~ Blocked id.
Proof.
  intros Hc Hb. pose proof (Blocked_Acc id Hb) as Ha. revert Hc. clear Hb.
  induction Ha as [id _ IH]. intros Hc. inversion Hc as [? ? Hs|? y ? Hs Ht]; subst.
  - exact (IH id Hs Hc).
  - apply (IH y Hs). eapply tc_r; eauto.
Qed.

(** *** The search computes it *)

Definition memo_ok (s : dfs) : Prop := forall id b, memo s !! id = Some b -> (b = true <-> Blocked id).

(** What a search leaves: a correct memo and the visits it found. *)
Definition post (s : dfs) (s' : dfs) : Prop := memo_ok s' /\ visiting s' = visiting s.

Lemma post_trans s1 s2 s3 : post s1 s2 -> post s2 s3 -> post s1 s3.
Proof. intros [_ E] [? ?]. split; [done|congruence]. Qed.

(** The loop over the children, after the prefix [pre]. *)
Lemma scanChildren_spec (rec : string -> search bool) id pre cs any s :
  inputs id = [] -> children id = pre ++ cs ->
  (forall c s', c ∈ cs -> isTerminal c = false -> post s s' ->
     exists b s'', rec c s' = Some (b, s'') /\ post s' s'' /\ (b = true <-> Blocked c)) ->
  memo_ok s ->
  (forall c, c ∈ pre -> isTerminal c = false -> Blocked c) ->
  (any = true <-> exists c, c ∈ pre /\ isTerminal c = false) ->
  exists b s', scanChildren rec cs any s = Some (b, s') /\ post s s' /\ (b = true <-> Blocked id).
Proof.
  intros Hin. revert pre any s.
  induction cs as [|c cs IH]; intros pre any s Hch Hrec Hmemo Hall Hany; cbn.
  { exists any, s. rewrite app_nil_r in Hch. split_and!; [done|by split|]. rewrite Hany, <- Hch. split.
    - intros (c & Hc & Ht). apply (Blocked_await id c Hc Ht). by rewrite Hch.
    - intros [? _]%Blocked_inv; done. }
  assert (children id = (pre ++ [c]) ++ cs) as Hch' by (by rewrite <- app_assoc).
  destruct (isTerminal c) eqn:Et.
  { apply (IH (pre ++ [c])); [done|..|done| |].
    - intros d s' Hd. apply Hrec. set_solver.
    - intros d [?|?%list_elem_of_singleton]%elem_of_app Hd; [auto|congruence].
    - rewrite Hany. split; intros (d & Hd & Hdt); exists d; (split; [|done]); [set_solver|].
      apply elem_of_app in Hd as [?|?%list_elem_of_singleton]; [done|congruence]. }
  destruct (Hrec c s ltac:(set_solver) Et ltac:(by split)) as (b & s1 & E & Hp1 & Hb).
  unfold mbind, search_bind. rewrite E. destruct b.
  - destruct (IH (pre ++ [c]) true s1) as (b' & s2 & E2 & Hp2 & Hb2); [done|..|apply Hp1| | |].
    + intros d s' Hd Hdt Hp'. apply Hrec; [set_solver|done|by eapply post_trans].
    + intros d [?|Hd'%list_elem_of_singleton]%elem_of_app Hd; [auto|]. subst d. by apply Hb.
    + split; [|done]. intros _. exists c. split; [set_solver|done].
    + exists b', s2. split_and!; [done|by eapply post_trans|done].
  - exists false, s1. split_and!; [done|done|]. split; [done|]. intros Hbl. exfalso.
    assert (Blocked c) as Hc; [|by apply Hb in Hc].
    apply (Blocked_awaits id); [done|]. split_and!; [done|rewrite Hch; set_solver|done].
Qed.

(** The search returns, leaves a correct memo, and answers [Blocked]; the
    nodes it cuts at are the ones on a cycle. *)
Lemma blocked_spec f id s :
  memo_ok s -> visiting s ⊆ dom nodes -> (forall v, v ∈ visiting s -> tc awaits v id) ->
  size nodes < f + size (visiting s) ->
  exists b s', blocked f id s = Some (b, s') /\ post s s' /\ (b = true <-> Blocked id).
Proof.
  revert id s. induction f as [|f IH]; intros id s Hm Hv Hpath Hf.
  { apply subseteq_size in Hv. rewrite size_dom in Hv. lia. }
  cbn. destruct (memo s !! id) as [v|] eqn:Em.
  { exists v, s. split_and!; [done|by split|by apply Hm]. }
  case_bool_decide as Hvis.
  { exists false, s. split_and!; [done|by split|]. split; [done|]. intros Hb.
    by apply (Blocked_no_cycle id) in Hb; [|apply Hpath]. }
  destruct (nodes !! id) as [n|] eqn:En.
  2:{ exists false, s. split_and!; [done|by split|]. split; [done|].
      intros [(c & Hc & _) _]%Blocked_inv; [|unfold inputs; by rewrite En].
      unfold children in Hc. rewrite En in Hc. by apply elem_of_nil in Hc. }
  set (s0 := mkDfs (memo s) ({[id]} ∪ visiting s)).
  assert (exists b s', examine (blocked f) n s0 = Some (b, s') /\ post s0 s' /\ (b = true <-> Blocked id))
    as (b & s' & -> & [Hm' Hv'] & Hb).
  { assert (inputs id = PendingInputs n /\ children id = AwaitingChildIDs n) as [Ei Ec]
      by (unfold inputs, children; by rewrite En).
    unfold examine. destruct (PendingInputs n) as [|p ps] eqn:Ep.
    2:{ exists true, s0. split_and!; [done|by split|]. split; [|done]. intros _. apply Blocked_input. by rewrite Ei. }
    assert (memo_ok s0) as Hm0 by exact Hm.
    destruct (AwaitingChildIDs n) as [|c cs] eqn:Ea.
    { exists false, s0. split_and!; [done|by split|]. split; [done|].
      intros [(d & Hd & _) _]%Blocked_inv; [|done]. rewrite Ec in Hd. by apply elem_of_nil in Hd. }
    apply (scanChildren_spec (blocked f) id []); [done|done| |done| |].
    - intros d s1 Hd Hdt [Hm1 Hv1]. cbn in Hv1. apply IH; [done|..]; rewrite Hv1.
      + apply union_subseteq. split; [|done]. apply singleton_subseteq_l, elem_of_dom. eauto.
      + assert (awaits id d) as Hs by (by rewrite <- Ec in Hd).
        intros v [Hx%elem_of_singleton|Hx]%elem_of_union; [subst v; by apply tc_once|]. eapply tc_r; eauto.
      + rewrite size_union by set_solver. rewrite size_singleton. lia.
    - by intros c' ?%elem_of_nil.
    - split; [done|]. by intros (c' & ?%elem_of_nil & _). }
  eexists _, _. split; [done|]. split; [|done]. split; cbn.
  - intros x v Hx. cbn in Hx. apply lookup_insert_Some in Hx as [[<- <-]|[_ Hx]]; [done|by apply Hm'].
  - rewrite Hv'. cbn. set_solver.
Qed.

Definition isBlocked (id : string) : bool :=
  match blocked fuel id (mkDfs ∅ ∅) with Some (b, _) => b | None => false end.

(** [m] returns [a] from every state the detector is in between searches. *)
Definition idle (s : dfs) : Prop := memo_ok s /\ visiting s = ∅.
Definition runs {A} (m : search A) (a : A) : Prop :=
  forall s, idle s -> exists s', m s = Some (a, s') /\ idle s'.

Lemma idle_init : idle (mkDfs ∅ ∅).
Proof. split; [|done]. intros id b Hx. cbn in Hx. by apply lookup_empty_Some in Hx. Qed.

Lemma blocked_idle id s : idle s ->
  exists b s', blocked fuel id s = Some (b, s') /\ idle s' /\ (b = true <-> Blocked id).
Proof.
  intros [Hm Hv]. destruct (blocked_spec fuel id s) as (b & s' & E & [Hm' Hv'] & Hb); [done|..].
  - rewrite Hv. set_solver.
  - rewrite Hv. set_solver.
  - unfold fuel. lia.
  - exists b, s'. split_and!; [done|split; [done|congruence]|done].
Qed.

Lemma isBlocked_spec id : isBlocked id = true <-> Blocked id.
Proof.
  unfold isBlocked. by destruct (blocked_idle id _ idle_init) as (b & s' & -> & _ & Hb).
Qed.

Lemma runs_blocked id : runs (blocked fuel id) (isBlocked id).
Proof.
  intros s Hs. destruct (blocked_idle id s Hs) as (b & s' & -> & Hs' & Hb). exists s'. split; [|done].
  do 2 f_equal. pose proof (isBlocked_spec id) as Hi. destruct b, (isBlocked id); intuition congruence.
Qed.

Lemma runs_ret {A} (a : A) : runs (mret a) a.
Proof. intros s Hs. by exists s. Qed.

Lemma runs_bind {A B} (m : search A) (f : A -> search B) a b : runs m a -> runs (f a) b -> runs (m ≫= f) b.
Proof.
  intros Hm Hf s Hs. destruct (Hm s Hs) as (s1 & E & Hs1). unfold mbind, search_bind. rewrite E. by apply Hf.
Qed.

Lemma runs_for_each {A B} (f : B -> A -> search B) (g : B -> A -> B) l b :
  (forall b a, runs (f b a) (g b a)) -> runs (for_each f l b) (foldl g b l).
Proof.
  intros Hf. revert b. induction l as [|a l IH]; intros b; cbn; [apply runs_ret|].
  eapply runs_bind; [apply Hf|apply IH].
Qed.

(** *** The loops without the search state *)

Definition pfollow (d : Z) (w : walk) (c : string) : walk :=
  if bool_decide (c ∈ seen w) || isTerminal c || negb (isBlocked c) then w
  else mkWalk (order w ++ [c]) ({[c]} ∪ seen w) (<[c := (d + 1)%Z]> (depth w)) (reqs w) (maxInputDepth w).

Lemma runs_follow d w c : runs (follow d w c) (pfollow d w c).
Proof.
  unfold follow, pfollow. destruct (bool_decide _ || isTerminal c); cbn; [apply runs_ret|].
  eapply runs_bind; [apply runs_blocked|]. destruct (isBlocked c); apply runs_ret.
Qed.

Definition dep (w : walk) (id : string) : Z := default 0%Z (depth w !! id).

Definition pvisit (id : string) (w : walk) : walk :=
  foldl (pfollow (dep w id)) (foldl (addReq id (dep w id)) w (inputs id)) (children id).

Fixpoint pwalk (n i : nat) (w : walk) : option walk :=
  match order w !! i with
  | None => Some w
  | Some id => match n with O => None | S n => pwalk n (S i) (pvisit id w) end
  end.

Lemma runs_walkLoop n i w w' : pwalk n i w = Some w' -> runs (walkLoop n i w) w'.
Proof.
  revert i w. induction n as [|n IH]; intros i w; cbn; destruct (order w !! i) as [id|] eqn:E.
  - done.
  - intros [= <-] s Hs. by exists s.
  - intros Hw s Hs. eapply runs_bind; [|apply IH, Hw|done].
    apply runs_for_each. intros. apply runs_follow.
  - intros [= <-] s Hs. by exists s.
Qed.

(** ** The walk computes reachability and distances *)

Definition edge (x y : string) : Prop := y ∈ children x /\ isTerminal y = false /\ Blocked y.

Section Walk.
Variable root : string.

(** After the first [i] entries of [order] have been visited. *)
Record walk_inv (i : nat) (w : walk) : Prop := mkWalkInv {
  wi_nodup : NoDup (order w);
  wi_seen : forall x, x ∈ seen w <-> x ∈ order w;
  wi_nodes : forall x, x ∈ order w -> x ∈ dom nodes;
  wi_root : root ∈ order w;
  wi_zero : dep w root = 0%Z;
  wi_path : forall x, x ∈ order w -> exists n, nsteps edge n root x /\ dep w x = Z.of_nat n;
  wi_mono : forall j k x y, j <= k -> order w !! j = Some x -> order w !! k = Some y -> (dep w x <= dep w y)%Z;
  wi_last : forall k x y, order w !! i = Some x -> order w !! k = Some y -> (dep w y <= dep w x + 1)%Z;
  wi_done : forall j x y, j < i -> order w !! j = Some x -> edge x y -> y ∈ order w /\ (dep w y <= dep w x + 1)%Z }.

(** The part of a walk the invariant is about. *)
Definition same_walk (w w' : walk) : Prop := order w' = order w /\ seen w' = seen w /\ depth w' = depth w.

Lemma addReqs_same id d w ps : same_walk w (foldl (addReq id d) w ps).
Proof.
  revert w. induction ps as [|p ps IH]; intros w; [by split_and!|]. cbn.
  destruct (IH (addReq id d w p)) as (E1 & E2 & E3). unfold same_walk. by rewrite E1, E2, E3.
Qed.

Lemma same_walk_inv i w w' : same_walk w w' -> walk_inv i w -> walk_inv i w'.
Proof.
  destruct w, w'. intros (E1 & E2 & E3) []. cbn in *. subst. by constructor.
Qed.

(** Appending a child at the depth of the visited node plus one. *)
Lemma push_inv i w id c : walk_inv i w -> order w !! i = Some id -> edge id c -> c ∉ seen w ->
  walk_inv i (mkWalk (order w ++ [c]) ({[c]} ∪ seen w) (<[c := (dep w id + 1)%Z]> (depth w)) (reqs w) (maxInputDepth w)).
Proof.
  intros [] Hid He Hc. set (w' := mkWalk _ _ _ _ _).
  assert (c ∉ order w) as Hco by (by rewrite <- wi_seen0).
  assert (dep w' c = dep w id + 1)%Z as Hdc by (unfold dep, w'; cbn; by rewrite lookup_insert_eq).
  assert (forall x, x ∈ order w -> dep w' x = dep w x) as Hdo.
  { intros x Hx. unfold dep, w'. cbn. rewrite lookup_insert_ne; [done|]. by intros ->. }
  assert (forall k y, order w' !! k = Some y -> (order w !! k = Some y /\ y ∈ order w) \/ (k = length (order w) /\ y = c)) as Hlook.
  { intros k y [Hk|[Hk Hy]]%lookup_app_Some; [left; split; [done|by eapply list_elem_of_lookup_2]|].
    apply list_lookup_singleton_Some in Hy as [? ->]. right. split; [lia|done]. }
  assert (i < length (order w)) as Hi by (by eapply lookup_lt_Some).
  assert (id ∈ order w) as Hidin by (by eapply list_elem_of_lookup_2).
  constructor.
  - cbn. apply NoDup_app. split_and!; [done| |apply NoDup_singleton]. intros x Hx. rewrite list_elem_of_singleton. by intros ->.
  - cbn. intros x. rewrite elem_of_union, elem_of_app, elem_of_singleton, list_elem_of_singleton, wi_seen0. tauto.
  - cbn. intros x [Hx|Hx%list_elem_of_singleton]%elem_of_app; [auto|]. subst x. destruct He as (_ & Ht & _).
    apply elem_of_dom. unfold isTerminal in Ht. destruct (nodes !! c); eauto; done.
  - cbn. set_solver.
  - by rewrite Hdo.
  - cbn. intros x [Hx|Hx%list_elem_of_singleton]%elem_of_app.
    + destruct (wi_path0 x Hx) as (n & ? & ?). exists n. by rewrite Hdo.
    + subst x. destruct (wi_path0 id Hidin) as (n & Hn & En). exists (S n). split; [|rewrite Hdc, En; lia].
      by eapply nsteps_r.
  - intros j k x y Hjk Hx Hy. destruct (Hlook j x Hx) as [[Hx' Hxo]|[-> ->]], (Hlook k y Hy) as [[Hy' Hyo]|[-> ->]].
    + rewrite !Hdo by done. by eapply wi_mono0.
    + rewrite Hdc, Hdo by done. by eapply wi_last0.
    + apply lookup_lt_Some in Hy'. lia.
    + lia.
  - intros k x y Hx Hy. destruct (Hlook i x Hx) as [[Hx' Hxo]|[-> _]]; [|lia].
    replace x with id in * by congruence. rewrite (Hdo id) by done.
    destruct (Hlook k y Hy) as [[Hy' Hyo]|[-> ->]]; [|lia]. rewrite Hdo by done. by eapply wi_last0.
  - intros j x y Hj Hx Hxy. destruct (Hlook j x Hx) as [[Hx' Hxo]|[-> _]]; [|lia].
    destruct (wi_done0 j x y Hj Hx' Hxy) as [Hy Hd]. cbn. split; [set_solver|]. by rewrite !Hdo.
Qed.

(** The walk has only grown at its end. *)
Record follows (i : nat) (id : string) (w w' : walk) : Prop := mkFollows {
  fo_inv : walk_inv i w';
  fo_at : order w' !! i = Some id;
  fo_reqs : reqs w' = reqs w;
  fo_max : maxInputDepth w' = maxInputDepth w;
  fo_pre : order w `prefix_of` order w';
  fo_old : forall x, x ∈ order w -> x ∈ order w' /\ dep w' x = dep w x }.

Lemma follows_refl i id w : walk_inv i w -> order w !! i = Some id -> follows i id w w.
Proof. intros. by constructor. Qed.

Lemma follows_trans i id w1 w2 w3 : follows i id w1 w2 -> follows i id w2 w3 -> follows i id w1 w3.
Proof.
  intros [] []. constructor; try done; [congruence|congruence|by etrans|].
  intros x Hx. destruct (fo_old0 x Hx) as [Hx2 <-]. by apply fo_old1.
Qed.

(** A child the walk has or takes. *)
Definition reached (w : walk) (id c : string) : Prop :=
  edge id c -> c ∈ order w /\ (dep w c <= dep w id + 1)%Z.

Lemma pfollow_step i w id c : walk_inv i w -> order w !! i = Some id -> c ∈ children id ->
  let w' := pfollow (dep w id) w c in follows i id w w' /\ reached w' id c.
Proof.
  intros Hw Hid Hc. unfold pfollow. destruct (bool_decide_reflect (c ∈ seen w)) as [Hs|Hs]; cbn.
  { split; [by apply follows_refl|]. intros He. apply (wi_seen i w Hw) in Hs. split; [done|].
    apply list_elem_of_lookup in Hs as [k Hk]. by eapply (wi_last i w Hw). }
  destruct (isTerminal c || negb (isBlocked c)) eqn:Eg.
  { split; [by apply follows_refl|]. intros (_ & Ht & Hb%isBlocked_spec). by rewrite Ht, Hb in Eg. }
  apply orb_false_iff in Eg as [Ht Hb%negb_false_iff%isBlocked_spec].
  pose proof (push_inv i w id c Hw Hid (conj Hc (conj Ht Hb)) Hs) as Hw'.
  assert (c ∉ order w) as Hco by (by rewrite <- (wi_seen i w Hw)).
  assert (id ∈ order w) as Hin by (by eapply list_elem_of_lookup_2).
  assert (forall x, x ∈ order w -> default 0%Z (<[c := (dep w id + 1)%Z]> (depth w) !! x) = dep w x) as Hd.
  { intros x Hx. rewrite lookup_insert_ne; [done|]. by intros ->. }
  split.
  - constructor; try done; cbn; [by apply lookup_app_l_Some|by eexists|].
    intros x Hx. split; [set_solver|]. by apply Hd.
  - intros _. cbn. split; [set_solver|]. set (w' := mkWalk _ _ _ _ _).
    assert (dep w' id = dep w id) as -> by exact (Hd id Hin).
    assert (dep w' c = dep w id + 1)%Z as -> by (unfold dep at 1; cbn; by rewrite lookup_insert_eq). done.
Qed.

(** The loop over the children of the visited node. *)
Lemma follow_inv i w d id cs : walk_inv i w -> order w !! i = Some id -> d = dep w id ->
  (forall c, c ∈ cs -> c ∈ children id) ->
  let w' := foldl (pfollow d) w cs in
  follows i id w w' /\ (forall c, c ∈ cs -> reached w' id c).
Proof.
  revert w. induction cs as [|c cs IH]; intros w Hw Hid Ed Hsub; cbn.
  { split; [by apply follows_refl|]. by intros c ?%elem_of_nil. }
  destruct (pfollow_step i w id c Hw Hid) as [H1 Hc]; [set_solver|]. rewrite <- Ed in H1, Hc.
  assert (id ∈ order w) as Hin by (by eapply list_elem_of_lookup_2).
  destruct (IH (pfollow d w c)) as [H2 Hcs]; [apply H1|apply H1| |set_solver|].
  { by rewrite (proj2 (fo_old _ _ _ _ H1 id Hin)). }
  split; [by eapply follows_trans|]. intros c' [->|Hc']%elem_of_cons; [|by apply Hcs].
  intros [Hc1 Hd1]%Hc. destruct (fo_old _ _ _ _ H2 c Hc1) as [? ->]. split; [done|].
  by rewrite (proj2 (fo_old _ _ _ _ H2 id (proj1 (fo_old _ _ _ _ H1 id Hin)))).
Qed.

Definition requests (x : string) : list BlockedRequest :=
  (fun p => mkBlockedRequest (piRequestID p) x (piBlockedSince p)) <$> inputs x.

(** The requests collected from the visited nodes. *)
Record reqs_inv (i : nat) (w : walk) : Prop := mkReqsInv {
  ri_list : (reqs w).*1 = take i (order w) ≫= requests;
  ri_dep : forall r, r ∈ reqs w -> brTaskID r.1 ∈ order w /\ r.2 = dep w (brTaskID r.1);
  ri_le : forall r, r ∈ reqs w -> (r.2 <= maxInputDepth w)%Z;
  ri_max : (reqs w = [] /\ maxInputDepth w = (-1)%Z) \/ exists r, r ∈ reqs w /\ r.2 = maxInputDepth w }.

Lemma addReqs_reqs id d w ps :
  reqs (foldl (addReq id d) w ps) =
    reqs w ++ ((fun p => (mkBlockedRequest (piRequestID p) id (piBlockedSince p), d)) <$> ps) /\
  maxInputDepth (foldl (addReq id d) w ps) = match ps with [] => maxInputDepth w | _ => Z.max (maxInputDepth w) d end.
Proof.
  revert w. induction ps as [|p ps IH]; intros w; cbn; [by rewrite app_nil_r|].
  destruct (IH (addReq id d w p)) as [-> ->]. cbn. rewrite <- app_assoc. split; [done|].
  destruct (Z.ltb_spec (maxInputDepth w) d); destruct ps; lia.
Qed.

Lemma pvisit_inv i w id : walk_inv i w -> reqs_inv i w -> order w !! i = Some id ->
  walk_inv (S i) (pvisit id w) /\ reqs_inv (S i) (pvisit id w) /\ order w `prefix_of` order (pvisit id w).
Proof.
  intros Hw Hr Hid. unfold pvisit. set (w1 := foldl (addReq _ _) w _).
  pose proof (addReqs_same id (dep w id) w (inputs id)) as Hsame. fold w1 in Hsame.
  destruct (addReqs_reqs id (dep w id) w (inputs id)) as [Er Em]. fold w1 in Er, Em.
  pose proof Hsame as (Eo & Es & Edep).
  assert (forall x, dep w1 x = dep w x) as Hd1 by (intros x; unfold dep; by rewrite Edep).
  destruct (follow_inv i w1 (dep w id) id (children id)) as [[Hinv Hat Hreq Hmax Hpre Hold] Hch];
    [by eapply same_walk_inv|by rewrite Eo|done|done|].
  set (w2 := foldl (pfollow _) w1 _) in *. rewrite Eo in Hpre, Hold.
  assert (id ∈ order w) as Hin by (by eapply list_elem_of_lookup_2).
  assert (forall x, x ∈ order w -> dep w2 x = dep w x) as Hd2 by (intros x Hx; by rewrite (proj2 (Hold x Hx))).
  split_and!; [| |done].
  - destruct Hinv. constructor; try done.
    + intros k x y Hx Hy. pose proof (wi_last0 k id y Hat Hy).
      pose proof (wi_mono0 i (S i) id x ltac:(lia) Hat Hx). lia.
    + intros j x y Hj Hx He. destruct (decide (j = i)) as [->|]; [|apply (wi_done0 j); [lia|done|done]].
      replace x with id in * by congruence. by apply Hch; [apply He|].
  - destruct Hr. constructor; rewrite ?Hreq, ?Hmax, ?Er, ?Em.
    + rewrite fmap_app, ri_list0. destruct Hpre as [l ->].
      assert (i < length (order w)) by (by eapply lookup_lt_Some).
      rewrite take_app_le by lia. rewrite (take_S_r _ _ id Hid), bind_app. f_equal. cbn.
      rewrite app_nil_r. unfold requests. by rewrite <- list_fmap_compose.
    + intros r [Hx|(p & -> & Hp)%list_elem_of_fmap]%elem_of_app; cbn.
      * destruct (ri_dep0 r Hx) as [Ht ->]. by rewrite Hd2; [split; [apply Hold|]|].
      * rewrite Hd2 by done. split; [by apply Hold|done].
    + intros r [Hx%ri_le0|(p & -> & Hp)%list_elem_of_fmap]%elem_of_app; cbn; destruct (inputs id); try lia.
      by apply elem_of_nil in Hp.
    + destruct (inputs id) as [|p ps] eqn:Ei; cbn; [by rewrite app_nil_r|]. right.
      destruct (Z.max_spec (maxInputDepth w) (dep w id)) as [[_ ->]|[Hle ->]].
      { eexists. split; [apply elem_of_app; right; by left|done]. }
      destruct ri_max0 as [[_ E]|(r & Hx & E)]; [|exists r; split; [by apply elem_of_app; left|done]].
      destruct (wi_path i w Hw id Hin) as (n & _ & En). lia.
Qed.

Lemma walk_length i w : walk_inv i w -> length (order w) <= size nodes.
Proof.
  intros Hw. rewrite <- (size_list_to_set (C := gset string) (order w)) by apply Hw.
  rewrite <- (size_dom (D := gset string)). apply subseteq_size. intros x Hx.
  apply (wi_nodes i w Hw). by apply elem_of_list_to_set in Hx.
Qed.

(** The walk ends: it visits each node of the snapshot at most once. *)
Lemma pwalk_spec n i w : walk_inv i w -> reqs_inv i w -> i <= length (order w) -> size nodes <= n + i ->
  exists w', pwalk n i w = Some w' /\ walk_inv (length (order w')) w' /\ reqs_inv (length (order w')) w'.
Proof.
  revert i w. induction n as [|n IH]; intros i w Hw Hr Hi Hn; cbn;
    pose proof (walk_length i w Hw) as Hlen; destruct (order w !! i) as [id|] eqn:Ei.
  - apply lookup_lt_Some in Ei. lia.
  - apply lookup_ge_None in Ei. exists w. by replace (length (order w)) with i by lia.
  - destruct (pvisit_inv i w id Hw Hr Ei) as (Hw' & Hr' & Hp). apply IH; [done|done| |lia].
    apply lookup_lt_Some in Ei. apply prefix_length in Hp. lia.
  - apply lookup_ge_None in Ei. exists w. by replace (length (order w)) with i by lia.
Qed.

Definition start : walk := mkWalk [root] {[root]} {[root := 0%Z]} [] (-1)%Z.

Lemma start_inv : root ∈ dom nodes -> walk_inv 0 start /\ reqs_inv 0 start.
Proof.
  intros Hin. assert (dep start root = 0%Z) as Hd by (unfold dep; cbn; by rewrite lookup_singleton_eq).
  assert (forall k x, [root] !! k = Some x -> k = 0 /\ x = root) as Hl.
  { intros k x [? ->]%list_lookup_singleton_Some. done. }
  split; constructor; cbn; try done.
  - apply NoDup_singleton.
  - intros x. rewrite elem_of_singleton, list_elem_of_singleton. done.
  - intros x ->%list_elem_of_singleton. done.
  - by left.
  - intros x ->%list_elem_of_singleton. exists 0. split; [constructor|done].
  - intros j k x y _ [_ ->]%Hl [_ ->]%Hl. done.
  - intros k x y [= <-] [_ ->]%Hl. lia.
  - intros j x y Hj. lia.
  - by intros r ?%elem_of_nil.
  - by intros r ?%elem_of_nil.
  - by left.
Qed.

(** The least number of await edges from the root. *)
Definition distance (x : string) (n : nat) : Prop :=
  nsteps edge n root x /\ forall m, nsteps edge m root x -> n <= m.

Lemma walk_complete w n x : walk_inv (length (order w)) w -> nsteps edge n root x ->
  x ∈ order w /\ (dep w x <= Z.of_nat n)%Z.
Proof.
  intros Hw. revert x. induction n as [|n IH]; intros x Hn.
  - inversion Hn; subst. split; [apply (wi_root _ _ Hw)|]. rewrite (wi_zero _ _ Hw). lia.
  - apply nsteps_inv_r in Hn as (y & Hy & He). destruct (IH y Hy) as [Hin Hd].
    apply list_elem_of_lookup in Hin as [j Hj].
    destruct (wi_done _ _ Hw j y x) as [? ?]; [by eapply lookup_lt_Some|done|done|]. split; [done|lia].
Qed.

Lemma walk_members w x : walk_inv (length (order w)) w -> x ∈ order w <-> rtc edge root x.
Proof.
  intros Hw. rewrite rtc_nsteps. split.
  - intros Hx. destruct (wi_path _ _ Hw x Hx) as (n & Hn & _). eauto.
  - intros [n Hn]. by eapply walk_complete.
Qed.

Lemma walk_distance w x n : walk_inv (length (order w)) w -> distance x n -> dep w x = Z.of_nat n.
Proof.
  intros Hw [Hn Hmin]. destruct (walk_complete w n x Hw Hn) as [Hx Hd].
  destruct (wi_path _ _ Hw x Hx) as (m & Hm & Em). apply Hmin in Hm. lia.
Qed.

Lemma walk_distance_ex w x : walk_inv (length (order w)) w -> x ∈ order w ->
  exists n, distance x n /\ dep w x = Z.of_nat n.
Proof.
  intros Hw Hx. destruct (wi_path _ _ Hw x Hx) as (n & Hn & En). exists n. split; [split; [done|]|done].
  intros m Hm. destruct (walk_complete w m x Hw Hm). lia.
Qed.
End Walk.

(** What a reported subtree is: the nodes reachable over await edges to
    blocked tasks, every input request pending among them, and the tasks with
    a pending request that are farthest from the root. *)
Record subtree_ok (st : Subtree) : Prop := mkSubtreeOk {
  so_members : forall x, x ∈ Members st <-> rtc edge (Root st) x;
  so_sorted : StronglySorted String.le (Members st) /\ NoDup (Members st);
  so_requests : BlockedRequests st ≡ₚ (Members st ≫= requests);
  so_deepest : forall t, t ∈ DeepestTasks st <->
    exists n, distance (Root st) t n /\ inputs t <> [] /\
      forall t' n', distance (Root st) t' n' -> inputs t' <> [] -> n' <= n }.

Lemma distance_rtc root x n : distance root x n -> rtc edge root x.
Proof. intros [Hn _]. apply rtc_nsteps. eauto. Qed.

Lemma elem_of_reqs root w r : walk_inv root (length (order w)) w -> reqs_inv (length (order w)) w ->
  (exists x, x ∈ reqs w /\ x.1 = r) <-> brTaskID r ∈ order w /\ r ∈ requests (brTaskID r).
Proof.
  intros Hw Hr. assert ((exists x, x ∈ reqs w /\ x.1 = r) <-> r ∈ (reqs w).*1) as ->.
  { rewrite list_elem_of_fmap. split; intros (x & ? & ?); eauto. }
  rewrite (ri_list _ _ Hr), firstn_all, list_elem_of_bind. split.
  - intros (t & Hrt & Ht). assert (brTaskID r = t) as ->; [|done].
    by apply list_elem_of_fmap in Hrt as (p & -> & _).
  - intros [? ?]. eauto.
Qed.

Lemma finish_ok root w : walk_inv root (length (order w)) w -> reqs_inv (length (order w)) w ->
  subtree_ok (finish root w).
Proof.
  intros Hw Hr. constructor; cbn.
  - intros x. rewrite sort_strings_perm. by apply walk_members.
  - split; [apply sort_strings_sorted|]. rewrite sort_strings_perm. apply Hw.
  - rewrite merge_sort_Permutation. change ((fun r => r.1) <$> reqs w) with ((reqs w).*1).
    rewrite (ri_list _ _ Hr), firstn_all. by rewrite sort_strings_perm.
  - assert (forall t n, distance root t n -> inputs t <> [] -> exists r, r ∈ reqs w /\ brTaskID r.1 = t /\ r.2 = Z.of_nat n) as Hex.
    { intros t n Hd Hi. destruct (inputs t) as [|p ps] eqn:Ei; [done|].
      destruct (proj2 (elem_of_reqs root w (mkBlockedRequest (piRequestID p) t (piBlockedSince p)) Hw Hr))
        as (x & Hx & Ex).
      { cbn. split; [apply (walk_members root w t Hw); by eapply distance_rtc|]. unfold requests. rewrite Ei. by left. }
      exists x. rewrite Ex. split_and!; [done|done|]. destruct (ri_dep _ _ Hr x Hx) as [_ ->]. rewrite Ex.
      by apply walk_distance with root. }
    intros t. rewrite sort_strings_perm, elem_of_elements, elem_of_list_to_set, list_elem_of_fmap. split.
    + intros (r & -> & Hf). apply list_elem_of_filter in Hf as [Em Hx].
      destruct (ri_dep _ _ Hr r Hx) as [Hin Hd].
      destruct (walk_distance_ex root w _ Hw Hin) as (n & Hn & En). exists n. split_and!; [done| |].
      * destruct (proj1 (elem_of_reqs root w r.1 Hw Hr)) as [_ Hq]; [eauto|].
        intros Ei. unfold requests in Hq. rewrite Ei in Hq. by apply elem_of_nil in Hq.
      * intros t' n' Hd' Hi'. destruct (Hex t' n' Hd' Hi') as (r' & Hx' & _ & E').
        pose proof (ri_le _ _ Hr r' Hx'). lia.
    + intros (n & Hd & Hi & Hmax). destruct (Hex t n Hd Hi) as (r & Hx & <- & En). exists r. split; [done|].
      apply list_elem_of_filter. split; [|done]. destruct (ri_max _ _ Hr) as [[E _]|(r' & Hx' & E')].
      { rewrite E in Hx. by apply elem_of_nil in Hx. }
      destruct (ri_dep _ _ Hr r' Hx') as [Hin' Hd'].
      destruct (walk_distance_ex root w _ Hw Hin') as (n' & Hn' & En').
      assert (inputs (brTaskID r'.1) <> []) as Hi'.
      { intros Ei. destruct (proj1 (elem_of_reqs root w r'.1 Hw Hr)) as [_ Hq]; [eauto|].
        unfold requests in Hq. rewrite Ei in Hq. by apply elem_of_nil in Hq. }
      pose proof (Hmax _ _ Hn' Hi'). pose proof (ri_le _ _ Hr r Hx). lia.
Qed.

(** A blocked task has a pending request below it, so no subtree is dropped
    for having none. *)
Lemma Blocked_has_input x : Blocked x -> exists y, rtc edge x y /\ inputs y <> [].
Proof.
  induction 1 as [x Hi|x c Hc Ht Hall IH]; [eauto using rtc_refl|].
  destruct (IH c Hc Ht) as (y & Hy & Hi). exists y. split; [|done]. eapply rtc_l; [|done]. split_and!; auto.
Qed.

Lemma buildSubtree_runs root : root ∈ dom nodes ->
  exists st, runs (buildSubtree root) st /\ Root st = root /\ subtree_ok st /\
    (Blocked root -> BlockedRequests st <> []).
Proof.
  intros Hin. destruct (start_inv root Hin) as [Hw Hr].
  destruct (pwalk_spec root fuel 0 (start root) Hw Hr) as (w & E & Hw' & Hr'); [cbn; lia|unfold fuel; lia|].
  exists (finish root w). split_and!; [|done|by apply finish_ok|].
  - unfold buildSubtree. eapply runs_bind; [apply runs_walkLoop, E|apply runs_ret].
  - intros Hb. destruct (Blocked_has_input root Hb) as (y & Hy & Hi).
    pose proof (finish_ok root w Hw' Hr') as [Hm _ Hq _]. intros E0. rewrite E0 in Hq.
    apply Permutation_nil in Hq. destruct (inputs y) as [|p ps] eqn:Ei; [done|].
    assert (mkBlockedRequest (piRequestID p) y (piBlockedSince p) ∈ (Members (finish root w) ≫= requests)) as Hx.
    { apply list_elem_of_bind. exists y. split; [unfold requests; rewrite Ei; by left|by apply Hm]. }
    rewrite Hq in Hx. by apply elem_of_nil in Hx.
Qed.

(** ** [Detect] *)

Definition pmark (acc : gset string) (id : string) : gset string :=
  match children id with
  | [] => acc
  | cs => if negb (isBlocked id) then acc
          else foldl (fun acc c => if isBlocked c then {[c]} ∪ acc else acc) acc cs
  end.

Definition paddRoot (contained : gset string) (acc : list string) (id : string) : list string :=
  match children id with
  | [] => acc
  | _ => if isBlocked id && negb (bool_decide (id ∈ contained)) then acc ++ [id] else acc
  end.

Lemma runs_mark acc id : runs (markContained acc id) (pmark acc id).
Proof.
  unfold markContained, pmark. destruct (children id) as [|c cs]; [apply runs_ret|].
  eapply runs_bind; [apply runs_blocked|]. destruct (isBlocked id); cbn [negb]; [|apply runs_ret].
  apply runs_for_each. intros b a. eapply runs_bind; [apply runs_blocked|apply runs_ret].
Qed.

Lemma runs_addRoot contained acc id : runs (addRoot contained acc id) (paddRoot contained acc id).
Proof.
  unfold addRoot, paddRoot. destruct (children id); [apply runs_ret|].
  eapply runs_bind; [apply runs_blocked|apply runs_ret].
Qed.

Lemma elem_of_mark_children cs (acc : gset string) c :
  c ∈ foldl (fun acc c => if isBlocked c then {[c]} ∪ acc else acc) acc cs <->
  c ∈ acc \/ (c ∈ cs /\ Blocked c).
Proof.
  revert acc. induction cs as [|d cs IH]; intros acc; cbn; [set_solver|].
  rewrite IH, elem_of_cons. pose proof (isBlocked_spec d) as Hd. destruct (isBlocked d).
  - rewrite elem_of_union, elem_of_singleton. split; [intros [[->|?]|?]|intros [?|[[->|?] ?]]]; tauto.
  - split; [tauto|]. intros [?|[[->|?] Hb]]; [tauto| |tauto]. by apply Hd in Hb.
Qed.

Lemma elem_of_contained ids acc c :
  c ∈ foldl pmark acc ids <-> c ∈ acc \/ exists id, id ∈ ids /\ c ∈ children id /\ Blocked id /\ Blocked c.
Proof.
  revert acc. induction ids as [|id ids IH]; intros acc; cbn; [set_solver|].
  rewrite IH. assert (c ∈ pmark acc id <-> c ∈ acc \/ (c ∈ children id /\ Blocked id /\ Blocked c)) as ->.
  { unfold pmark. destruct (children id) as [|d ds] eqn:Ec; [set_solver|].
    pose proof (isBlocked_spec id) as Hi. destruct (isBlocked id); cbn [negb]; [rewrite elem_of_mark_children; tauto|].
    split; [tauto|]. intros [?|(_ & Hb & _)]; [done|]. by apply Hi in Hb. }
  set_solver.
Qed.

Lemma paddRoots contained ids acc :
  foldl (paddRoot contained) acc ids =
  acc ++ filter (fun id => children id <> [] /\ isBlocked id = true /\ id ∉ contained) ids.
Proof.
  revert acc. induction ids as [|id ids IH]; intros acc; cbn [foldl]; [by rewrite app_nil_r|]. rewrite IH.
  rewrite filter_cons. unfold paddRoot. destruct (children id) as [|c cs] eqn:Ec.
  { rewrite decide_False by tauto. done. }
  destruct (isBlocked id); cbn [andb]; [|by rewrite decide_False by (intros (? & ? & ?); done)].
  case_bool_decide; cbn [negb]; [by rewrite decide_False by tauto|].
  rewrite decide_True by done. by rewrite <- app_assoc.
Qed.

(** The topmost blocked awaiting tasks. *)
Definition top (id : string) : Prop :=
  children id <> [] /\ Blocked id /\ forall p, id ∈ children p -> ~ Blocked p.

Lemma children_dom id : children id <> [] -> id ∈ dom nodes.
Proof. unfold children. intros Hc. apply elem_of_dom. destruct (nodes !! id); eauto; done. Qed.

Lemma subtrees_run roots acc : (forall r, r ∈ roots -> r ∈ dom nodes /\ Blocked r) ->
  exists sts, runs (for_each addSubtree roots acc) (acc ++ sts) /\ Root <$> sts = roots /\
    forall st, st ∈ sts -> subtree_ok st /\ BlockedRequests st <> [].
Proof.
  revert acc. induction roots as [|r roots IH]; intros acc Hr.
  { exists []. rewrite app_nil_r. split_and!; [apply runs_ret|done|]. by intros st ?%elem_of_nil. }
  destruct (Hr r) as [Hd Hb]; [by left|]. destruct (buildSubtree_runs r Hd) as (st & Hst & E & Hok & Hne).
  specialize (Hne Hb). destruct (IH (acc ++ [st])) as (sts & Hrun & Er & Hall); [set_solver|].
  exists (st :: sts). split_and!.
  - cbn. eapply runs_bind; [unfold addSubtree; eapply runs_bind; [exact Hst|apply runs_ret]|].
    destruct (BlockedRequests st); [done|].
    replace (acc ++ st :: sts) with ((acc ++ [st]) ++ sts) by (by rewrite <- app_assoc). exact Hrun.
  - cbn. by rewrite E, Er.
  - intros x [->|Hx]%elem_of_cons; [done|by apply Hall].
Qed.

Lemma detect_spec : exists sts,
  (forall o1 o2, o1 ≡ₚ elements (dom nodes) -> o2 ≡ₚ elements (dom nodes) -> run_Detect o1 o2 = Some sts) /\
  StronglySorted String.le (Root <$> sts) /\ NoDup (Root <$> sts) /\
  (forall r, r ∈ Root <$> sts <-> top r) /\
  forall st, st ∈ sts -> subtree_ok st /\ BlockedRequests st <> [].
Proof.
  set (keys := elements (dom nodes)). set (contained := foldl pmark ∅ keys).
  set (P := fun id => children id <> [] /\ isBlocked id = true /\ id ∉ contained).
  assert (forall r, r ∈ sort_strings (filter P keys) <-> top r) as Htop.
  { intros r. rewrite sort_strings_perm, list_elem_of_filter. unfold P, contained, keys, top.
    rewrite elem_of_elements, elem_of_contained, isBlocked_spec. split.
    - intros ((Hc & Hb & Hn) & _). split_and!; [done|done|]. intros p Hp Hbp. apply Hn. right. exists p.
      split_and!; try done. apply elem_of_elements, children_dom. intros E. rewrite E in Hp. by apply elem_of_nil in Hp.
    - intros (Hc & Hb & Hn). split_and!; [done|done| |by apply children_dom].
      intros [?|(p & _ & Hp & Hbp & _)]; [set_solver|by apply (Hn p)]. }
  destruct (subtrees_run (sort_strings (filter P keys)) []) as (sts & Hrun & Er & Hall).
  { intros r (Hc & Hb & _)%Htop. split; [by apply children_dom|done]. }
  exists sts. rewrite Er. split_and!; [|apply sort_strings_sorted| |exact Htop|exact Hall].
  2:{ rewrite sort_strings_perm. apply NoDup_filter, NoDup_elements. }
  intros o1 o2 H1 H2. assert (runs (Detect o1 o2) sts) as Hd; [|by destruct (Hd _ idle_init) as (s' & E & _); unfold run_Detect; rewrite E].
  unfold Detect. eapply runs_bind; [apply runs_for_each, runs_mark|].
  eapply runs_bind; [apply runs_for_each, runs_addRoot|]. rewrite paddRoots. cbn [app].
  assert (foldl pmark ∅ o1 = contained) as ->.
  { apply set_eq. intros x. unfold contained, keys. rewrite !elem_of_contained. by setoid_rewrite H1. }
  rewrite (sort_strings_proper _ (filter P keys)); [exact Hrun|]. by rewrite H2.
Qed.

(** C31. The deadlock detector reports exactly the topmost blocked subtrees.
    Whatever order Go's map iteration takes, [Detect] terminates with the same
    answer: one subtree for every awaiting task that is [Blocked] in the sense
    of the inductive definition (an input request is pending, or there is an
    unsettled awaited child and all unsettled awaited children are blocked)
    and has no blocked awaiting parent.  Each subtree lists the tasks
    reachable over await edges to blocked tasks, all their pending requests
    (there is at least one), and as deepest tasks those with a pending request
    that are farthest from the root.  The memo and the cut at visited tasks
    change none of this, cycles included. *)
Theorem Detect_exact : exists sts,
  (forall o1 o2, o1 ≡ₚ elements (dom nodes) -> o2 ≡ₚ elements (dom nodes) -> run_Detect o1 o2 = Some sts) /\
  StronglySorted String.le (Root <$> sts) /\ NoDup (Root <$> sts) /\
  (forall r, r ∈ Root <$> sts <-> top r) /\
  forall st, st ∈ sts -> subtree_ok st /\ BlockedRequests st <> [].
Proof. exact detect_spec. Qed.

(** No deadlock escapes when waiting is acyclic and settled tasks await
    nothing: every awaiting task that is blocked is a member of a subtree that
    [Detect] reports. *)
Theorem Detect_covers x : well_founded (fun p c => c ∈ children p) ->
  (forall y, children y <> [] -> isTerminal y = false) -> children x <> [] -> Blocked x ->
  exists sts st, run_Detect (elements (dom nodes)) (elements (dom nodes)) = Some sts /\ st ∈ sts /\ x ∈ Members st.
Proof.
  intros Hwf Hlive Hc Hb. destruct detect_spec as (sts & Hrun & _ & _ & Htop & Hok).
  assert (exists r, top r /\ rtc edge r x) as (r & Hr & Hx).
  { revert Hc Hb. induction (Hwf x) as [x _ IH]. intros Hc Hb.
    destruct (decide (Exists (fun p => x ∈ children p /\ isBlocked p = true) (elements (dom nodes)))) as [Hp|Hp].
    - apply Exists_exists in Hp as (p & _ & Hpx & Hpb%isBlocked_spec).
      destruct (IH p Hpx) as (r & Hr & Hrp); [intros E; rewrite E in Hpx; by apply elem_of_nil in Hpx|done|].
      exists r. split; [done|]. eapply rtc_r; [done|]. split_and!; [done|by apply Hlive|done].
    - exists x. split; [|done]. split_and!; [done|done|]. intros p Hpx Hpb. apply Hp, Exists_exists. exists p.
      rewrite elem_of_elements, isBlocked_spec. split_and!; try done. apply children_dom.
      intros E. rewrite E in Hpx. by apply elem_of_nil in Hpx. }
  apply Htop, list_elem_of_fmap in Hr as (st & -> & Hst). exists sts, st.
  split_and!; [by apply Hrun|done|]. by apply (so_members st (proj1 (Hok st Hst))).
Qed.
End Detector.

(** ** Witness *)

Definition example_tree : gmap string Node :=
  {["p" := mkNode "p" "t" Running ["c"] [] "pool" 0;
    "c" := mkNode "c" "t" InputRequired [] [mkPendingInput "q" 5] "pool" 0]}.

Lemma example_children x c : c ∈ children example_tree x -> x = "p" /\ c = "c".
Proof.
  unfold children, example_tree. destruct (_ !! x) as [n|] eqn:En; [|by intros ?%elem_of_nil].
  apply lookup_insert_Some in En as [[<- <-]|[_ En]]; [intros Hx%list_elem_of_singleton; done|].
  apply lookup_singleton_Some in En as [_ <-]. by intros ?%elem_of_nil.
Qed.

Lemma Detect_covers_witness : exists sts st,
  run_Detect example_tree (elements (dom example_tree)) (elements (dom example_tree)) = Some sts /\
  st ∈ sts /\ "p" ∈ Members st.
Proof.
  apply (Detect_covers example_tree "p").
  - intros x. constructor. intros y [-> ->]%example_children. constructor.
    intros z [-> E]%example_children. discriminate.
  - intros y Hy. destruct (children example_tree y) as [|c l] eqn:E; [done|].
    destruct (example_children y c) as [-> _]; [rewrite E; by left|reflexivity].
  - discriminate.
  - apply isBlocked_spec. vm_compute. reflexivity.
Defined.
