(* ===== verification/DeadlockSweep.v ===== *)
(** * Sweeping for deadlocks ([deadlock/manager.go], [deadlock/tracker.go])

    The await tracker, the snapshot the detector is run on, and the manager
    that remembers deadlocks across sweeps, times them out and classifies how
    they were cleared.  The input registry, the session rows and the call that
    fails a task are arguments; [sourceOf] gives the first from
    [InputWait]. *)

From S2P Require Import Prelude StateMachine SessionState InputWait Deadlock.

(** ** The await tracker *)

Record awaitReg := mkAwaitReg { regTenant : string; regChildren : list string }.

(** [Begin] allocates a registration; its number stands for its address. *)
Record AwaitTracker := mkTracker { awaiting : gmap string (list (nat * awaitReg)); nextReg : nat }.

Definition NewAwaitTracker : AwaitTracker := mkTracker ∅ 0.

Definition regs (t : AwaitTracker) (sessionID : string) : list (nat * awaitReg) :=
  default [] (awaiting t !! sessionID).

Definition Begin (tenantID sessionID : string) (childIDs : list string) (t : AwaitTracker) : AwaitTracker * nat :=
  let r := nextReg t in
  (mkTracker (<[sessionID := regs t sessionID ++ [(r, mkAwaitReg tenantID childIDs)]]> (awaiting t)) (S r), r).

Fixpoint dropReg (r : nat) (l : list (nat * awaitReg)) : list (nat * awaitReg) :=
  match l with
  | [] => []
  | x :: l => if Nat.eqb x.1 r then l else x :: dropReg r l
  end.

(** The function [Begin] returns. *)
Definition End_ (sessionID : string) (r : nat) (t : AwaitTracker) : AwaitTracker :=
  match dropReg r (regs t sessionID) with
  | [] => mkTracker (delete sessionID (awaiting t)) (nextReg t)
  | l => mkTracker (<[sessionID := l]> (awaiting t)) (nextReg t)
  end.

(** First occurrences, then sorted. *)
Fixpoint dedup (seen : gset string) (l : list string) : list string :=
  match l with
  | [] => []
  | c :: l => if bool_decide (c ∈ seen) then dedup seen l else c :: dedup ({[c]} ∪ seen) l
  end.

Definition AwaitedChildren (t : AwaitTracker) (sessionID : string) : list string :=
  sort_strings (dedup ∅ (regs t sessionID ≫= fun r => regChildren r.2)).

Record AwaitingSession := mkAwaitingSession { asTenantID : string; asSessionID : string }.

Definition by_session (a b : AwaitingSession) : Prop := String.le (asSessionID a) (asSessionID b).

#[export] Instance by_session_dec a b : Decision (by_session a b).
Proof. unfold by_session. apply _. Defined.

Definition AwaitingSessions (t : AwaitTracker) : list AwaitingSession :=
  merge_sort by_session
    ((fun kr => mkAwaitingSession (match kr.2 with [] => "" | r :: _ => regTenant r.2 end) kr.1)
       <$> map_to_list (awaiting t)).

(** ** The snapshot *)

(** What the detector reads of the input registry. *)
Record PendingSource := mkPendingSource {
  psPending : string -> list PendingRequest;
  psAnswered : string -> Z }.

Definition sourceOf (r : Registry) : PendingSource :=
  mkPendingSource (fun s => PendingDetailsForSession s r) (fun s => InputWait.Answered s r).

Record NodeInfo := mkNodeInfo { niState : State; niPool : string }.

Section Snapshot.
Variables (t : AwaitTracker) (inputs : option PendingSource) (lookup : option (string -> string -> option NodeInfo)).

Definition nodeFor (tenant id : string) : Node :=
  let '(state, pool) := match lookup with
                        | Some f => match f tenant id with Some i => (niState i, niPool i) | None => (Completed, "") end
                        | None => (Completed, "")
                        end in
  mkNode id tenant state (AwaitedChildren t id)
    (match inputs with
     | Some src => (fun pr => mkPendingInput (InputWait.RequestID pr) (InputWait.BlockedSince pr)) <$> psPending src id
     | None => [] end)
    pool (match inputs with Some src => psAnswered src id | None => 0%Z end).

Definition enqueue (acc : gmap string Node * list (string * string)) (tenant id : string) :
    gmap string Node * list (string * string) :=
  match acc.1 !! id with
  | Some _ => acc
  | None => (<[id := nodeFor tenant id]> acc.1, acc.2 ++ ((fun c => (tenant, c)) <$> AwaitedChildren t id))
  end.

(** The queue loop: [i] counts up, the queue grows at its end. *)
Fixpoint drain (fuel : nat) (acc : gmap string Node * list (string * string)) : option (gmap string Node) :=
  match acc.2 with
  | [] => Some acc.1
  | (tenant, id) :: queue =>
      match fuel with
      | O => None
      | S fuel => drain fuel (enqueue (acc.1, queue) tenant id)
      end
  end.

(** Every awaited child is queued once. *)
Definition budget : nat := sum_list_with (fun id => length (AwaitedChildren t id)) (elements (dom (awaiting t))).

Definition buildSnapshot : option (gmap string Node) :=
  drain budget (foldl (fun acc s => enqueue acc (asTenantID s) (asSessionID s)) (∅, []) (AwaitingSessions t)).

End Snapshot.

(** ** The manager *)

Record Event := mkEvent {
  DeadlockedSubtreeRoot : string;
  evBlockedRequests : list BlockedRequest;
  DetectedAt : Time;
  WillTimeoutAt : Time }.

Record tracked := mkTracked {
  tkTenantID : string;
  tkPool : string;
  detectedAt : Time;
  willTimeoutAt : Time;
  event : Event;
  deepest : list string;
  answeredAt : gmap string Z }.

Record Clearance := mkClearance {
  clRoot : string; clTenantID : string; clPool : string; clDetectedAt : Time; clAnswered : gmap string Z }.

Record TimeoutAction := mkTimeoutAction {
  taRoot : string; taTenantID : string; taPool : string; taDeepestTasks : list string; taDetectedAt : Time }.

Record Manager := mkManager { maxWait : Duration; active : gmap string tracked }.

Definition NewManager (w : Duration) : Manager := mkManager (if (w <=? 0)%Z then DefaultMaxWait else w) ∅.

(** The entry of a detected subtree: a known one keeps its labels and times. *)
Definition track (nodes : gmap string Node) (now : Time) (w : Duration) (old : option tracked) (st : Subtree) : tracked :=
  let '(tenant, pool, det, will) :=
    match old with
    | Some tk => (tkTenantID tk, tkPool tk, detectedAt tk, willTimeoutAt tk)
    | None => (stTenantID st, stPool st, now, time_add now w)
    end in
  mkTracked tenant pool det will (mkEvent (Root st) (BlockedRequests st) det will) (DeepestTasks st)
    (list_to_map ((fun id => (id, default 0%Z (nodeAnswered <$> nodes !! id))) <$> Members st)).

(** The body of the loop over the detected subtrees; the pool is counted when
    the subtree is new. *)
Definition observeOne (nodes : gmap string Node) (now : Time) (w : Duration)
    (acc : gmap string tracked * list string) (st : Subtree) : gmap string tracked * list string :=
  let old := acc.1 !! Root st in
  (<[Root st := track nodes now w old st]> acc.1,
   match old with Some _ => acc.2 | None => acc.2 ++ [stPool st] end).

Definition ta_le (a b : TimeoutAction) : Prop := String.le (taRoot a) (taRoot b).
Definition cl_le (a b : Clearance) : Prop := String.le (clRoot a) (clRoot b).
#[export] Instance ta_le_dec a b : Decision (ta_le a b).
Proof. unfold ta_le. apply _. Defined.
#[export] Instance cl_le_dec a b : Decision (cl_le a b).
Proof. unfold cl_le. apply _. Defined.

Definition action (rt : string * tracked) : TimeoutAction :=
  mkTimeoutAction rt.1 (tkTenantID rt.2) (tkPool rt.2) (deepest rt.2) (detectedAt rt.2).
Definition clearance (rt : string * tracked) : Clearance :=
  mkClearance rt.1 (tkTenantID rt.2) (tkPool rt.2) (detectedAt rt.2) (answeredAt rt.2).

(** [Observe], given what [Detect] returned. *)
Definition observe (nodes : gmap string Node) (sts : list Subtree) (now : Time) (m : Manager) :
    Manager * list TimeoutAction * list Clearance * list string :=
  let byRoot : gset string := list_to_set (Root <$> sts) in
  let '(act, metrics) := foldl (observeOne nodes now (maxWait m)) (active m, []) sts in
  let due (rt : string * tracked) : Prop := rt.1 ∈ byRoot /\ time_before now (willTimeoutAt rt.2) = false in
  let timeouts := action <$> filter due (map_to_list act) in
  let cleared := clearance <$> filter (fun rt => rt.1 ∉ byRoot) (map_to_list act) in
  (mkManager (maxWait m) (filter (fun rt => rt.1 ∈ byRoot /\ time_before now (willTimeoutAt rt.2) = true) act),
   merge_sort ta_le timeouts, merge_sort cl_le cleared, metrics).

Definition Observe (o1 o2 : list string) (nodes : gmap string Node) (now : Time) (m : Manager) :
    option (Manager * list TimeoutAction * list Clearance * list string) :=
  (fun sts => observe nodes sts now m) <$> run_Detect nodes o1 o2.

Definition ManagerEvent (sessionID : string) (m : Manager) : option Event := event <$> active m !! sessionID.

(** ** One sweep *)

Inductive Resolution := ResolutionClientInput | ResolutionChildCancel | ResolutionTimeout.

Definition classifyClearance (inputs : option PendingSource) (lookup : option (string -> string -> option NodeInfo))
    (c : Clearance) : option Resolution :=
  let members := sort_strings (elements (dom (clAnswered c))) in
  let cancelled := match lookup with
                   | None => false
                   | Some f => existsb (fun id => negb (bool_decide (id = clRoot c)) &&
                                 match f (clTenantID c) id with
                                 | Some i => bool_decide (niState i = Cancelled)
                                 | None => false end) members
                   end in
  if cancelled then Some ResolutionChildCancel
  else match inputs with
       | None => None
       | Some src => if existsb (fun id => (default 0%Z (clAnswered c !! id) <? psAnswered src id)%Z) members
                     then Some ResolutionClientInput else None
       end.

(** [fail] answers whether the write applied; every task is tried.  The list
    holds the calls made. *)
Definition failDeepest (fail : option (string -> string -> bool)) (a : TimeoutAction) : bool * list (string * string) :=
  match fail with
  | None => (false, [])
  | Some f => foldl (fun acc id => (acc.1 || f (taTenantID a) id, acc.2 ++ [(taTenantID a, id)]))
                (false, []) (taDeepestTasks a)
  end.

(** The resolutions recorded, with pool and start of the episode. *)
Definition resolutions (fail : option (string -> string -> bool)) (inputs : option PendingSource)
    (lookup : option (string -> string -> option NodeInfo)) (timeouts : list TimeoutAction) (cleared : list Clearance) :
    list (string * Resolution * Time) :=
  omap (fun a => if (failDeepest fail a).1 then Some (taPool a, ResolutionTimeout, taDetectedAt a) else None) timeouts ++
  omap (fun c => (fun r => (clPool c, r, clDetectedAt c)) <$> classifyClearance inputs lookup c) cleared.

(** The registry and the rows are read again when a clearance is classified,
    as [inputs'] and [lookup']. *)
Definition RunOnce (fail : option (string -> string -> bool)) (inputs inputs' : option PendingSource)
    (lookup lookup' : option (string -> string -> option NodeInfo)) (t : AwaitTracker) (o1 o2 : list string)
    (now : Time) (m : Manager) : option (Manager * list (string * string) * list (string * Resolution * Time)) :=
  nodes ← buildSnapshot t inputs lookup;
  '(m, timeouts, cleared, _) ← Observe o1 o2 nodes now m;
  Some (m, timeouts ≫= (fun a => (failDeepest fail a).2), resolutions fail inputs' lookup' timeouts cleared).

(** ** The snapshot is the closure of the live waits *)

Lemma elem_of_dedup seen l c : c ∈ dedup seen l <-> c ∈ l /\ c ∉ seen.
Proof.
  revert seen. induction l as [|d l IH]; intros seen; cbn; [set_solver|].
  case_bool_decide; [rewrite IH; set_solver|]. rewrite !elem_of_cons, IH. destruct (decide (c = d)); set_solver.
Qed.

Lemma elem_of_AwaitedChildren t s c : c ∈ AwaitedChildren t s <-> exists r, r ∈ regs t s /\ c ∈ regChildren r.2.
Proof.
  unfold AwaitedChildren. rewrite sort_strings_perm, elem_of_dedup, list_elem_of_bind. set_solver.
Qed.

Lemma AwaitedChildren_dom t s c : c ∈ AwaitedChildren t s -> s ∈ dom (awaiting t).
Proof.
  rewrite elem_of_AwaitedChildren. intros (r & Hr & _). unfold regs in Hr. apply elem_of_dom.
  destruct (awaiting t !! s); [eauto|]. by apply elem_of_nil in Hr.
Qed.

Lemma elem_of_AwaitingSessions t s :
  s ∈ asSessionID <$> AwaitingSessions t <-> s ∈ dom (awaiting t).
Proof.
  unfold AwaitingSessions. rewrite merge_sort_Permutation, elem_of_dom, <- list_fmap_compose, list_elem_of_fmap. split.
  - intros ([k rs] & -> & Hk%elem_of_map_to_list). cbn. eauto.
  - intros [rs Hk]. exists (s, rs). split; [done|]. by apply elem_of_map_to_list.
Qed.

Lemma sum_filter_le {A} (P : A -> Prop) `{forall x, Decision (P x)} (f : A -> nat) l :
  sum_list_with f (filter P l) <= sum_list_with f l.
Proof. induction l as [|x l IH]; [done|]. rewrite filter_cons. case_decide; cbn; lia. Qed.

Section Closure.
Variables (t : AwaitTracker) (inputs : option PendingSource) (lookup : option (string -> string -> option NodeInfo)).
Abbreviation enq := (enqueue t inputs lookup).
Abbreviation waits := (fun p c => c ∈ AwaitedChildren t p).

(** Reachable from a session with a live await call. *)
Definition involved (id : string) : Prop := exists s, s ∈ dom (awaiting t) /\ rtc waits s id.

(** Children still to be queued. *)
Definition left_to_queue (nodes : gmap string Node) : nat :=
  sum_list_with (fun id => length (AwaitedChildren t id))
    (filter (fun id => id ∉ dom nodes) (elements (dom (awaiting t)))).

(** Every awaited child of a node is a node, queued, or in [X]. *)
Record snap_inv (X : gset string) (acc : gmap string Node * list (string * string)) : Prop := mkSnapInv {
  si_nodes : forall id n, acc.1 !! id = Some n -> involved id /\ exists tenant, n = nodeFor t inputs lookup tenant id;
  si_queue : forall q, q ∈ acc.2 -> involved q.2;
  si_closed : forall id c, id ∈ dom acc.1 -> c ∈ AwaitedChildren t id -> c ∈ dom acc.1 \/ c ∈ acc.2.*2 \/ c ∈ X }.

Lemma left_insert nodes id n : id ∉ dom nodes ->
  left_to_queue nodes = length (AwaitedChildren t id) + left_to_queue (<[id := n]> nodes).
Proof.
  intros Hid. unfold left_to_queue. rewrite dom_insert_L. set (keys := elements (dom (awaiting t))).
  assert (NoDup (filter (fun x => x ∉ {[id]} ∪ dom nodes) keys)) as Hnd by apply NoDup_filter, NoDup_elements.
  assert (NoDup (filter (fun x => x ∉ dom nodes) keys)) as Hnd' by apply NoDup_filter, NoDup_elements.
  destruct (decide (id ∈ dom (awaiting t))) as [Ha|Ha].
  - assert (filter (fun x => x ∉ dom nodes) keys ≡ₚ id :: filter (fun x => x ∉ {[id]} ∪ dom nodes) keys) as ->; [|done].
    apply NoDup_Permutation; [done|constructor; [rewrite list_elem_of_filter; set_solver|done]|].
    intros x. rewrite elem_of_cons, !list_elem_of_filter. unfold keys. rewrite elem_of_elements.
    destruct (decide (x = id)); set_solver.
  - assert (AwaitedChildren t id = []) as ->.
    { destruct (AwaitedChildren t id) as [|c l] eqn:E; [done|]. destruct Ha. apply (AwaitedChildren_dom t id c).
      rewrite E. by left. }
    assert (filter (fun x => x ∉ dom nodes) keys ≡ₚ filter (fun x => x ∉ {[id]} ∪ dom nodes) keys) as ->; [|done].
    apply NoDup_Permutation; [done|done|]. intros x. rewrite !list_elem_of_filter. unfold keys.
    rewrite elem_of_elements. destruct (decide (x = id)); set_solver.
Qed.

Lemma enqueue_inv acc tenant id : snap_inv {[id]} acc -> involved id ->
  let acc' := enq acc tenant id in
  snap_inv ∅ acc' /\ id ∈ dom acc'.1 /\ dom acc.1 ⊆ dom acc'.1 /\
  length acc'.2 + left_to_queue acc'.1 <= length acc.2 + left_to_queue acc.1.
Proof.
  intros [Hn Hq Hc] Hid. unfold enqueue. destruct (acc.1 !! id) as [n|] eqn:E; cbn.
  { assert (id ∈ dom acc.1) by (by apply elem_of_dom). split_and!; [constructor; [done|done|]|done|done|done].
    intros x c Hx Hxc. destruct (Hc x c Hx Hxc) as [?|[?| ->%elem_of_singleton]]; auto. }
  assert (id ∉ dom acc.1) as Hnew by (by apply not_elem_of_dom). split_and!.
  - constructor; cbn.
    + intros x n Hx. apply lookup_insert_Some in Hx as [[<- <-]|[_ Hx]]; [eauto|by apply Hn].
    + intros q [Hx|(c & -> & Hx)%list_elem_of_fmap]%elem_of_app; [by apply Hq|]. cbn.
      destruct Hid as (s & ? & ?). exists s. split; [done|]. by eapply rtc_r.
    + intros x c Hx Hxc. rewrite dom_insert_L in Hx |- *. rewrite fmap_app. destruct (decide (x = id)) as [->|].
      * right. left. apply elem_of_app. right. rewrite <- list_fmap_compose. apply list_elem_of_fmap. by exists c.
      * destruct (Hc x c) as [Hd|[Hd|Hd]]; set_solver.
  - rewrite dom_insert_L. set_solver.
  - rewrite dom_insert_L. set_solver.
  - rewrite (left_insert acc.1 id (nodeFor t inputs lookup tenant id)) by done.
    rewrite length_app, length_fmap. lia.
Qed.

Lemma snap_inv_mono X Y acc : X ⊆ Y -> snap_inv X acc -> snap_inv Y acc.
Proof. intros Hs [Hn Hq Hc]. constructor; [done|done|]. intros x c Hx Hxc. destruct (Hc x c Hx Hxc) as [?|[?|?]]; set_solver. Qed.

Lemma drain_closed fuel acc : snap_inv ∅ acc -> length acc.2 + left_to_queue acc.1 <= fuel ->
  exists nodes, drain t inputs lookup fuel acc = Some nodes /\ snap_inv ∅ (nodes, []) /\ dom acc.1 ⊆ dom nodes.
Proof.
  revert acc. induction fuel as [|fuel IH]; intros [nodes queue] Hinv Hf; cbn in *; destruct queue as [|[tenant id] queue];
    cbn in *; [eauto|lia|eauto|].
  assert (involved id) as Hid by (apply (si_queue _ _ Hinv (tenant, id)); by left).
  destruct (enqueue_inv (nodes, queue) tenant id) as (Hinv' & _ & Hsub & Hlen); [|done|].
  { destruct Hinv as [Hn Hq Hc]. constructor; cbn in *; [done|set_solver|].
    intros x c Hx Hxc. destruct (Hc x c Hx Hxc) as [?|[?|?]]; set_solver. }
  destruct (IH (enq (nodes, queue) tenant id)) as (nodes' & E & Hfin & Hsub'); [done|cbn in *; lia|].
  exists nodes'. split_and!; [done|done|]. cbn in Hsub. set_solver.
Qed.

Lemma seed_inv sessions acc : (forall s, s ∈ sessions -> involved (asSessionID s)) -> snap_inv ∅ acc ->
  let acc' := foldl (fun acc s => enq acc (asTenantID s) (asSessionID s)) acc sessions in
  snap_inv ∅ acc' /\ dom acc.1 ⊆ dom acc'.1 /\ (forall s, s ∈ sessions -> asSessionID s ∈ dom acc'.1) /\
  length acc'.2 + left_to_queue acc'.1 <= length acc.2 + left_to_queue acc.1.
Proof.
  revert acc. induction sessions as [|s l IH]; intros acc Hs Hinv; cbn.
  { split_and!; [done|done| |done]. by intros s ?%elem_of_nil. }
  destruct (enqueue_inv acc (asTenantID s) (asSessionID s)) as (Hinv' & Hin & Hsub & Hlen).
  { by apply (snap_inv_mono ∅). } { apply Hs. by left. }
  destruct (IH (enq acc (asTenantID s) (asSessionID s))) as (G1 & G2 & G3 & G4); [set_solver|done|].
  split_and!; [done|set_solver| |lia]. intros x [->|Hx]%elem_of_cons; [set_solver|by apply G3].
Qed.

(** The snapshot of a sweep is the closure of the live await calls: the
    builder terminates, and its nodes are exactly the sessions reachable over
    awaited children from a session that is awaiting, each with the children
    the tracker holds for it. *)
Theorem snapshot_is_closure : exists nodes, buildSnapshot t inputs lookup = Some nodes /\
  (forall id, id ∈ dom nodes <-> exists s, s ∈ dom (awaiting t) /\ rtc (fun p c => c ∈ AwaitedChildren t p) s id) /\
  (forall id, id ∈ dom nodes -> children nodes id = AwaitedChildren t id).
Proof.
  destruct (seed_inv (AwaitingSessions t) (∅, [])) as (Hinv & _ & Hseed & Hlen).
  { intros s Hs. exists (asSessionID s). split; [|done]. apply elem_of_AwaitingSessions, list_elem_of_fmap. eauto. }
  { constructor; cbn; [by intros ? ? ?%lookup_empty_Some|by intros ? ?%elem_of_nil|]. intros id c. set_solver. }
  destruct (drain_closed (budget t) _ Hinv) as (nodes & E & Hfin & Hsub).
  { etrans; [exact Hlen|]. cbn. apply sum_filter_le. }
  exists nodes. destruct Hfin as [Hn _ Hc]. cbn in *. split_and!; [done| |].
  - intros id. split.
    + intros [n Hx]%elem_of_dom. by destruct (Hn id n Hx).
    + intros (s & Hs & Hr). assert (s ∈ dom nodes) as Hin.
      { apply elem_of_AwaitingSessions, list_elem_of_fmap in Hs as (x & -> & Hx). apply Hsub, Hseed, Hx. }
      clear Hs. induction Hr as [|x y z Hxy _ IH]; [done|]. apply IH.
      destruct (Hc x y Hin Hxy) as [?|[?|?]]; [done|set_solver|set_solver].
  - intros id [n Hx]%elem_of_dom. destruct (Hn id n Hx) as (_ & tenant & ->). unfold children. rewrite Hx.
    unfold nodeFor. by destruct (match lookup with Some _ => _ | None => _ end).
Qed.
End Closure.

(** ** Timeouts *)

(** A sweep: the snapshot, its instant, and the map iteration orders. *)
Record sweep := mkSweep { swNodes : gmap string Node; swNow : Time; swOrder1 : list string; swOrder2 : list string }.

Definition valid (s : sweep) : Prop :=
  swOrder1 s ≡ₚ elements (dom (swNodes s)) /\ swOrder2 s ≡ₚ elements (dom (swNodes s)).

(** The manager after the sweeps, and the timeouts of each. *)
Fixpoint sweeps (h : list sweep) (m : Manager) : option (Manager * list (list TimeoutAction)) :=
  match h with
  | [] => Some (m, [])
  | s :: h =>
      '(m, ts, _, _) ← Observe (swOrder1 s) (swOrder2 s) (swNodes s) (swNow s) m;
      '(m, tr) ← sweeps h m;
      Some (m, ts :: tr)
  end.

Lemma sweeps_snoc h s m :
  sweeps (h ++ [s]) m =
  '(m, tr) ← sweeps h m;
  '(m, ts, _, _) ← Observe (swOrder1 s) (swOrder2 s) (swNodes s) (swNow s) m;
  Some (m, tr ++ [ts]).
Proof.
  revert m. induction h as [|x h IH]; intros m; cbn.
  - by destruct (Observe _ _ _ _ m) as [[[[m' ts] cs] ps]|].
  - destruct (Observe _ _ _ _ m) as [[[[m' ts] cs] ps]|]; cbn; [|done]. rewrite IH.
    destruct (sweeps h m') as [[m2 tr]|]; cbn; [|done]. by destruct (Observe _ _ _ _ m2) as [[[[m3 ts'] cs'] ps']|].
Qed.

Lemma track_root nodes now w old st : action (Root st, track nodes now w old st) =
  mkTimeoutAction (Root st) (tkTenantID (track nodes now w old st)) (tkPool (track nodes now w old st))
    (DeepestTasks st) (detectedAt (track nodes now w old st)).
Proof. unfold action, track. by destruct old. Qed.

Lemma observed nodes now w sts acc : NoDup (Root <$> sts) ->
  let act := (foldl (observeOne nodes now w) acc sts).1 in
  (forall st, st ∈ sts -> act !! Root st = Some (track nodes now w (acc.1 !! Root st) st)) /\
  (forall r, r ∉ Root <$> sts -> act !! r = acc.1 !! r).
Proof.
  revert acc. induction sts as [|st sts IH]; intros acc Hnd; cbn.
  { split; [by intros st ?%elem_of_nil|done]. }
  cbn in Hnd. apply NoDup_cons in Hnd as [Hn Hnd].
  destruct (IH (observeOne nodes now w acc st) Hnd) as [H1 H2]. split.
  - intros x [->|Hx]%elem_of_cons.
    + rewrite H2 by done. cbn. by rewrite lookup_insert_eq.
    + rewrite H1 by done. cbn. rewrite lookup_insert_ne; [done|]. intros E. apply Hn. rewrite E.
      apply list_elem_of_fmap. eauto.
  - intros r Hr. rewrite H2 by set_solver. cbn. apply lookup_insert_ne. set_solver.
Qed.

(** What one sweep does to the active set. *)
Lemma observe_spec nodes sts now m : NoDup (Root <$> sts) ->
  let '(m', ts, _, _) := observe nodes sts now m in
  let tr st := track nodes now (maxWait m) (active m !! Root st) st in
  maxWait m' = maxWait m /\
  (forall r tk, active m' !! r = Some tk <->
     exists st, st ∈ sts /\ r = Root st /\ tk = tr st /\ (now < willTimeoutAt tk)%Z) /\
  (forall a, a ∈ ts <-> exists st, st ∈ sts /\ a = action (Root st, tr st) /\ (willTimeoutAt (tr st) <= now)%Z).
Proof.
  intros Hnd. unfold observe. destruct (observed nodes now (maxWait m) sts (active m, []) Hnd) as [H1 H2].
  destruct (foldl _ (active m, []) sts) as [act ms]. cbn in *. unfold time_before.
  assert (forall r tk, act !! r = Some tk /\ r ∈ (list_to_set (Root <$> sts) : gset string) <->
    exists st, st ∈ sts /\ r = Root st /\ tk = track nodes now (maxWait m) (active m !! Root st) st) as Hact.
  { intros r tk. rewrite elem_of_list_to_set. split.
    - intros [Ha (st & -> & Hst)%list_elem_of_fmap]. exists st. rewrite (H1 st Hst) in Ha. by injection Ha as <-.
    - intros (st & Hst & -> & ->). split; [by apply H1|]. apply list_elem_of_fmap. eauto. }
  split_and!; [done| |].
  - intros r tk. rewrite map_lookup_filter_Some. cbn. rewrite Z.ltb_lt. split.
    + intros (Ha & Hr & Hlt). destruct (proj1 (Hact r tk) (conj Ha Hr)) as (st & ? & ? & ?). eauto.
    + intros (st & Hst & Er & Et & Hlt). destruct (proj2 (Hact r tk)) as [? ?]; [by exists st|]. done.
  - intros a. rewrite merge_sort_Permutation, list_elem_of_fmap. split.
    + intros ([r tk] & -> & Hf). apply list_elem_of_filter in Hf as [[Hr Hlt] Ha%elem_of_map_to_list].
      cbn in *. apply Z.ltb_ge in Hlt. destruct (proj1 (Hact r tk) (conj Ha Hr)) as (st & Hst & -> & ->). eauto.
    + intros (st & Hst & -> & Hle). eexists. split; [done|]. apply list_elem_of_filter.
      destruct (proj2 (Hact (Root st) (track nodes now (maxWait m) (active m !! Root st) st))) as [Ha Hr]; [by exists st|].
      split; [split; [done|by apply Z.ltb_ge]|]. by apply elem_of_map_to_list.
Qed.

Lemma Observe_total s m : valid s -> exists sts,
  Observe (swOrder1 s) (swOrder2 s) (swNodes s) (swNow s) m = Some (observe (swNodes s) sts (swNow s) m) /\
  NoDup (Root <$> sts) /\ (forall r, r ∈ Root <$> sts <-> top (swNodes s) r) /\
  forall st, st ∈ sts -> subtree_ok (swNodes s) st.
Proof.
  intros [H1 H2]. destruct (detect_spec (swNodes s)) as (sts & Hrun & _ & Hnd & Htop & Hok).
  exists sts. split_and!; [|done|done|by apply Hok]. unfold Observe. by rewrite (Hrun _ _ H1 H2).
Qed.

(** The root is reported in all sweeps from [k] up to [e]. *)
Definition stuck (h : list sweep) (r : string) (k e : nat) : Prop :=
  forall j, k <= j < e -> exists s, h !! j = Some s /\ top (swNodes s) r.

Definition acted (tr : list (list TimeoutAction)) (r : string) (k e : nat) : Prop :=
  exists j ts a, k <= j < e /\ tr !! j = Some ts /\ a ∈ ts /\ taRoot a = r.

(** The timeout [a] of sweep [n]. *)
Definition justified (W : Duration) (h : list sweep) (n : nat) (a : TimeoutAction) : Prop :=
  exists k sk sn st, k <= n /\ h !! k = Some sk /\ h !! n = Some sn /\ stuck h (taRoot a) k (S n) /\
    taDetectedAt a = swNow sk /\ (swNow sk + W <= swNow sn)%Z /\
    taRoot a = Root st /\ subtree_ok (swNodes sn) st /\ taDeepestTasks a = DeepestTasks st.

Record policy (W : Duration) (h : list sweep) (m : Manager) (tr : list (list TimeoutAction)) : Prop := mkPolicy {
  po_len : length tr = length h;
  po_wait : maxWait m = W;
  po_active : forall r tk, active m !! r = Some tk -> willTimeoutAt tk = (detectedAt tk + W)%Z /\
    exists k sk, h !! k = Some sk /\ detectedAt tk = swNow sk /\ stuck h r k (length h);
  po_pending : forall r k sk, h !! k = Some sk -> stuck h r k (length h) ->
    acted tr r k (length h) \/ exists tk, active m !! r = Some tk /\ (detectedAt tk <= swNow sk)%Z;
  po_safe : forall n ts a, tr !! n = Some ts -> a ∈ ts -> justified W h n a;
  po_live : forall r k n sk sn, k <= n -> h !! k = Some sk -> h !! n = Some sn -> stuck h r k (S n) ->
    (swNow sk + W <= swNow sn)%Z -> acted tr r k (S n) }.

Lemma stuck_app h h' r k e : e <= length h -> stuck (h ++ h') r k e <-> stuck h r k e.
Proof.
  intros He. split; intros Hs j Hj; destruct (Hs j Hj) as (s & Hx & Ht); exists s; (split; [|done]).
  - rewrite lookup_app_l in Hx by lia. done.
  - rewrite lookup_app_l by lia. done.
Qed.

Lemma stuck_snoc h s r k : k <= length h ->
  stuck (h ++ [s]) r k (S (length h)) <-> stuck h r k (length h) /\ top (swNodes s) r.
Proof.
  intros Hk. split.
  - intros Hs. split.
    + apply (stuck_app h [s]); [done|]. intros j Hj. apply Hs. lia.
    + destruct (Hs (length h)) as (x & Hx & Ht); [lia|]. rewrite list_lookup_middle in Hx by done.
      by injection Hx as <-.
  - intros [Hs Ht] j Hj. destruct (decide (j = length h)) as [->|].
    + exists s. by rewrite list_lookup_middle.
    + destruct (Hs j) as (x & Hx & ?); [lia|]. exists x. split; [by apply lookup_app_l_Some|done].
Qed.

Lemma acted_app tr tr' r k e e' : acted tr r k e -> e <= e' -> acted (tr ++ tr') r k e'.
Proof.
  intros (j & ts & a & Hj & Ht & Ha & Hr) He. exists j, ts, a. split_and!; [lia|lia|by apply lookup_app_l_Some|done|done].
Qed.

Lemma justified_app W h s n a : justified W h n a -> justified W (h ++ [s]) n a.
Proof.
  intros (k & sk & sn & st & Hk & H1 & H2 & Hs & Hrest). exists k, sk, sn, st.
  assert (n < length h) by (by eapply lookup_lt_Some).
  split_and!; [done|by apply lookup_app_l_Some|by apply lookup_app_l_Some|apply stuck_app; [lia|done]|apply Hrest..].
Qed.

Lemma track_times nodes now w old st :
  (forall tk, old = Some tk -> detectedAt (track nodes now w old st) = detectedAt tk /\
     willTimeoutAt (track nodes now w old st) = willTimeoutAt tk) /\
  (old = None -> detectedAt (track nodes now w old st) = now /\ willTimeoutAt (track nodes now w old st) = (now + w)%Z).
Proof. split; [by intros tk ->|by intros ->]. Qed.

Definition in_time (h : list sweep) : Prop :=
  forall i j si sj, i <= j -> h !! i = Some si -> h !! j = Some sj -> (swNow si <= swNow sj)%Z.

Lemma in_time_app h h' : in_time (h ++ h') -> in_time h.
Proof. intros Ht i j si sj Hij Hi Hj. apply (Ht i j); [done|by apply lookup_app_l_Some..]. Qed.

Section Step.
Variables (W : Duration) (h : list sweep) (m : Manager) (tr : list (list TimeoutAction)) (s : sweep) (sts : list Subtree).
Hypotheses (Hpo : policy W h m tr) (Htime : in_time (h ++ [s]))
  (Htop : forall r, r ∈ Root <$> sts <-> top (swNodes s) r).

Definition now_tracked (st : Subtree) : tracked := track (swNodes s) (swNow s) (maxWait m) (active m !! Root st) st.

(** An entry stands for the sweeps since its detection. *)
Lemma tracked_since st : st ∈ sts ->
  willTimeoutAt (now_tracked st) = (detectedAt (now_tracked st) + W)%Z /\
  exists k sk, k <= length h /\ (h ++ [s]) !! k = Some sk /\ detectedAt (now_tracked st) = swNow sk /\
    stuck (h ++ [s]) (Root st) k (S (length h)).
Proof.
  intros Hst. assert (top (swNodes s) (Root st)) as Ht by (apply Htop, list_elem_of_fmap; eauto).
  unfold now_tracked. destruct (track_times (swNodes s) (swNow s) (maxWait m) (active m !! Root st) st) as [Ho Hn].
  destruct (active m !! Root st) as [tk|] eqn:Ea.
  - destruct (Ho tk eq_refl) as [-> ->]. destruct (po_active _ _ _ _ Hpo _ _ Ea) as (Ew & k & sk & Hk & Ed & Hs).
    split; [done|]. exists k, sk. apply lookup_lt_Some in Hk as Hlt.
    split_and!; [lia|by apply lookup_app_l_Some|done|]. apply stuck_snoc; [lia|done].
  - destruct (Hn eq_refl) as [-> ->]. rewrite (po_wait _ _ _ _ Hpo). split; [done|]. exists (length h), s.
    split_and!; [done|by rewrite list_lookup_middle|done|]. apply stuck_snoc; [done|]. split; [|done].
    intros j Hj. lia.
Qed.

(** A root that has been reported since [k] was acted on or is tracked since
    then. *)
Lemma still_tracked r k sk : (h ++ [s]) !! k = Some sk -> stuck (h ++ [s]) r k (S (length h)) -> k <= length h ->
  acted tr r k (length h) \/
  exists st, st ∈ sts /\ r = Root st /\ (detectedAt (now_tracked st) <= swNow sk)%Z.
Proof.
  intros Hk Hs Hle. apply stuck_snoc in Hs as [Hs Ht]; [|done].
  apply Htop, list_elem_of_fmap in Ht as (st & -> & Hst).
  assert (forall d, (forall tk, active m !! Root st = Some tk -> (detectedAt tk <= d)%Z) ->
    (active m !! Root st = None -> (swNow s <= d)%Z) -> (detectedAt (now_tracked st) <= d)%Z) as Hdet.
  { intros d H1 H2. unfold now_tracked. destruct (active m !! Root st) as [tk|]; cbn; auto. }
  destruct (decide (k = length h)) as [->|Hne].
  - right. exists st. split_and!; [done|done|]. rewrite list_lookup_middle in Hk by done. injection Hk as <-.
    apply Hdet; [|done]. intros tk Htk. destruct (po_active _ _ _ _ Hpo _ _ Htk) as (_ & j & sj & Hj & -> & _).
    apply (Htime j (length h)); [apply lookup_lt_Some in Hj; lia|by apply lookup_app_l_Some|by rewrite list_lookup_middle].
  - rewrite lookup_app_l in Hk by lia. destruct (po_pending _ _ _ _ Hpo _ _ _ Hk Hs) as [?|(tk & Htk & Hd)]; [by left|].
    right. exists st. split_and!; [done|done|]. apply Hdet; [|congruence]. intros tk' Htk'. congruence.
Qed.
End Step.

Lemma policy_step W h m tr s : (0 < W)%Z -> policy W h m tr -> valid s -> in_time (h ++ [s]) ->
  exists m' ts cs ms, Observe (swOrder1 s) (swOrder2 s) (swNodes s) (swNow s) m = Some (m', ts, cs, ms) /\
    policy W (h ++ [s]) m' (tr ++ [ts]).
Proof.
  intros HW Hpo Hv Htime. destruct (Observe_total s m Hv) as (sts & -> & Hnd & Htop & Hok).
  pose proof (observe_spec (swNodes s) sts (swNow s) m Hnd) as Hob.
  destruct (observe (swNodes s) sts (swNow s) m) as [[[m' ts] cs] ms]. destruct Hob as (Ew & Hact & Hts).
  exists m', ts, cs, ms. split; [done|].
  pose proof (tracked_since W h m tr s sts Hpo Htop) as Hsince.
  pose proof (still_tracked W h m tr s sts Hpo Htime Htop) as Hstill.
  assert (length tr = length h) as Hlen by apply Hpo.
  assert (forall st, st ∈ sts -> (willTimeoutAt (now_tracked m s st) <= swNow s)%Z ->
    forall k, k <= length h -> acted (tr ++ [ts]) (Root st) k (S (length h))) as Hnow.
  { intros st Hst Hle k Hk. exists (length h), ts, (action (Root st, now_tracked m s st)).
    split_and!; [lia|lia|by rewrite list_lookup_middle|apply Hts; eauto|done]. }
  constructor.
  - rewrite !length_app. cbn. lia.
  - rewrite Ew. apply Hpo.
  - intros r tk (st & Hst & -> & -> & Hlt)%Hact. destruct (Hsince st Hst) as (Hw & k & sk & Hk & Hl & Hd & Hs).
    split; [exact Hw|]. exists k, sk. rewrite length_app, Nat.add_1_r. done.
  - intros r k sk Hk Hs. rewrite length_app, Nat.add_1_r in Hs |- *.
    assert (k <= length h) as Hkl by (apply lookup_lt_Some in Hk; rewrite length_app in Hk; cbn in Hk; lia).
    destruct (Hstill r k sk Hk Hs Hkl) as [?|(st & Hst & -> & Hd)]; [left; eapply acted_app; [done|lia]|].
    destruct (Z_lt_le_dec (swNow s) (willTimeoutAt (now_tracked m s st))) as [Hlt|Hle]; [|left; by apply Hnow].
    right. exists (now_tracked m s st). split; [|done]. apply Hact. eauto.
  - intros n tl a Hn Ha. apply lookup_app_Some in Hn as [Hn|[Hn Hx]]; [by eapply justified_app, (po_safe _ _ _ _ Hpo)|].
    apply list_lookup_singleton_Some in Hx as [E <-]. replace n with (length h) by lia.
    apply Hts in Ha as (st & Hst & -> & Hle). destruct (Hsince st Hst) as (Hw & k & sk & Hk & Hl & Hd & Hs).
    exists k, sk, s, st. rewrite track_root. cbn [taRoot taDetectedAt taDeepestTasks].
    split_and!; [done|done|by rewrite list_lookup_middle|done|done| |done|by apply Hok|done].
    unfold now_tracked in *. lia.
  - intros r k n sk sn Hkn Hk Hn Hs Hle.
    assert (n <= length h) as Hnl by (apply lookup_lt_Some in Hn; rewrite length_app in Hn; cbn in Hn; lia).
    destruct (decide (n = length h)) as [->|Hne].
    + rewrite list_lookup_middle in Hn by done. injection Hn as <-.
      destruct (Hstill r k sk Hk Hs Hkn) as [?|(st & Hst & -> & Hd)]; [eapply acted_app; [done|lia]|].
      apply Hnow; [done| |done]. destruct (Hsince st Hst) as (Hw & _). unfold now_tracked in *. lia.
    + rewrite lookup_app_l in Hn, Hk by lia. eapply acted_app; [|done].
      apply (po_live _ _ _ _ Hpo r k n sk sn); try done. apply (stuck_app h [s]); [lia|done].
Qed.

(** A deadlock is failed exactly when it has lasted [maxDeadlockWait].
    Over any sequence of sweeps in time order: every sweep returns; a timeout
    is issued only for a root that every sweep since its detection has
    reported, at least the wait after that detection, and names the deepest
    blocked tasks of the snapshot it is issued on; and a root that is reported
    in all sweeps over such a span is timed out within it. *)
Theorem deadlock_timeout_policy (w : Duration) (h : list sweep) : Forall valid h -> in_time h ->
  let W := maxWait (NewManager w) in
  exists m tr, sweeps h (NewManager w) = Some (m, tr) /\ length tr = length h /\
    (forall n ts a, tr !! n = Some ts -> a ∈ ts -> justified W h n a) /\
    (forall r k n sk sn, k <= n -> h !! k = Some sk -> h !! n = Some sn -> stuck h r k (S n) ->
       (swNow sk + W <= swNow sn)%Z -> acted tr r k (S n)).
Proof.
  intros Hv Ht W. assert (0 < W)%Z as HW.
  { unfold W, NewManager. cbn. destruct (Z.leb_spec w 0); [done|lia]. }
  assert (exists m tr, sweeps h (NewManager w) = Some (m, tr) /\ policy W h m tr) as (m & tr & E & Hpo).
  2: { exists m, tr. split_and!; [done|apply Hpo|apply (po_safe _ _ _ _ Hpo)|apply (po_live _ _ _ _ Hpo)]. }
  induction h as [|s h IH] using rev_ind.
  { exists (NewManager w), []. split; [done|]. by constructor. }
  apply Forall_app in Hv as [Hv Hs]. apply Forall_cons in Hs as [Hs _]. destruct IH as (m & tr & E & Hpo); [done|by eapply in_time_app|].
  destruct (policy_step W h m tr s HW Hpo Hs Ht) as (m' & ts & cs & ms & Eo & Hpo').
  exists m', (tr ++ [ts]). split; [|done]. rewrite sweeps_snoc, E. cbn. by rewrite Eo.
Qed.

(** ** Witness *)

(** A parent awaits a child that waits for input; two sweeps two minutes
    apart time it out. *)
Definition stuck_nodes : gmap string Node :=
  {["p" := mkNode "p" "t" Running ["c"] [] "pool" 0;
    "c" := mkNode "c" "t" InputRequired [] [mkPendingInput "q" 5] "pool" 0]}.

Definition stuck_sweeps : list sweep :=
  [mkSweep stuck_nodes 0 ["p"; "c"] ["c"; "p"]; mkSweep stuck_nodes DefaultMaxWait ["c"; "p"] ["p"; "c"]].

Lemma stuck_keys : elements (dom stuck_nodes) ≡ₚ ["p"; "c"].
Proof.
  unfold stuck_nodes. rewrite dom_insert_L, dom_singleton_L. rewrite elements_union_singleton by set_solver.
  by rewrite elements_singleton.
Qed.

Lemma deadlock_timeout_policy_witness : exists m tr, sweeps stuck_sweeps (NewManager 0) = Some (m, tr) /\
  acted tr "p" 0 2.
Proof.
  destruct (deadlock_timeout_policy 0 stuck_sweeps) as (m & tr & E & _ & _ & Hlive).
  - repeat constructor; cbn; rewrite stuck_keys; (reflexivity || apply Permutation_swap).
  - intros [|[|i]] [|[|j]] si sj Hij Hi Hj; cbn in Hi, Hj; try discriminate; injection Hi as <-; injection Hj as <-;
      cbn; unfold DefaultMaxWait, Second; lia.
  - exists m, tr. split; [exact E|].
    apply (Hlive "p" 0 1 (mkSweep stuck_nodes 0 ["p"; "c"] ["c"; "p"]) (mkSweep stuck_nodes DefaultMaxWait ["c"; "p"] ["p"; "c"]));
      [lia|reflexivity|reflexivity| |cbn; unfold DefaultMaxWait; lia].
    assert (top stuck_nodes "p") as Ht.
    { split; [discriminate|]. split; [apply isBlocked_spec; vm_compute; reflexivity|].
      intros x Hx. unfold children, stuck_nodes in Hx. destruct (_ !! x) as [n|] eqn:En; [|by apply elem_of_nil in Hx].
      apply lookup_insert_Some in En as [[_ <-]|[_ En]]; [|apply lookup_singleton_Some in En as [_ <-]];
        apply list_elem_of_singleton in Hx || apply elem_of_nil in Hx; done. }
    intros [|[|j]] Hj; [eexists; split; [reflexivity|exact Ht]|eexists; split; [reflexivity|exact Ht]|lia].
Defined.
