(* ===== verification/Calendar.v ===== *)
(** * Calendar: the parts of Go's [time] package that read a date

    The proleptic Gregorian date and the clock of an instant in UTC, as
    [time.Time]'s [Date], [Clock] and [Weekday] give them.  Days are counted
    in years that begin on 1 March, so that a leap day is the last day of its
    year; [days_of_date] is the inverse count. *)

From S2P Require Import Prelude.

Definition Day : Duration := (24 * Hour)%Z.

Record Date := mkDate { d_year : Z; d_month : Z; d_day : Z }.
#[export] Instance Date_eq_dec : EqDecision Date.
Proof. solve_decision. Defined.

(** Day [306] of the year that begins on 1 March of year 0 is the zero time. *)
Definition era_days : Z := 146097.

(** The year of a 400-year cycle that holds day [doe] of the cycle, and the
    days before that year. *)
Definition year_of_era (doe : Z) : Z := ((doe - doe / 1460 + doe / 36524 - doe / 146096) / 365)%Z.
Definition year_start (yoe : Z) : Z := (365 * yoe + yoe / 4 - yoe / 100)%Z.

(** The months from March have 153 days in every five. *)
Definition month_start (mp : Z) : Z := ((153 * mp + 2) / 5)%Z.

Definition date_of_days (days : Z) : Date :=
  let z := (days + 306)%Z in
  let era := (z / era_days)%Z in
  let doe := (z mod era_days)%Z in
  let yoe := year_of_era doe in
  let doy := (doe - year_start yoe)%Z in
  let mp := ((5 * doy + 2) / 153)%Z in
  let m := if (mp <? 10)%Z then (mp + 3)%Z else (mp - 9)%Z in
  mkDate (yoe + era * 400 + (if (m <=? 2)%Z then 1 else 0))%Z m (doy - month_start mp + 1)%Z.

Definition days_of_date (d : Date) : Z :=
  let y := (d.(d_year) - (if (d.(d_month) <=? 2)%Z then 1 else 0))%Z in
  let mp := (if (d.(d_month) >? 2)%Z then d.(d_month) - 3 else d.(d_month) + 9)%Z in
  (y / 400 * era_days + (year_start (y mod 400) + (month_start mp + d.(d_day) - 1)) - 306)%Z.

Definition date (t : Time) : Date := date_of_days (t / Day).
Definition hour_of (t : Time) : Z := ((t mod Day) / Hour)%Z.
Definition minute_of (t : Time) : Z := ((t mod Hour) / Minute)%Z.
Definition second_of (t : Time) : Z := ((t mod Minute) / Second)%Z.
Definition nanosecond_of (t : Time) : Z := (t mod Second)%Z.
(** The zero time is a Monday. *)
Definition weekday (t : Time) : Z := ((t / Day + 1) mod 7)%Z.

(** ** The date determines the day *)

Lemma year_of_era_spec doe : (0 <= doe < era_days)%Z ->
  (0 <= year_of_era doe < 400 /\ 0 <= doe - year_start (year_of_era doe) <= 365)%Z.
Proof.
  unfold era_days, year_of_era, year_start. intros H.
  assert (doe / 146096 = 0 \/ (doe = 146096))%Z as [E|E]; [|rewrite E|by subst; vm_compute; intuition discriminate].
  { destruct (decide (doe = 146096%Z)); [by right|left]. apply Z.div_small. lia. }
  assert (0 <= doe / 36524 < 4 \/ doe = 146096)%Z as [Hc|E']; [|set (c := (doe / 36524)%Z) in *|by subst; vm_compute; intuition discriminate].
  { destruct (decide (doe = 146096%Z)); [by right|left]. split; [apply Z.div_pos; lia|apply Z.div_lt_upper_bound; lia]. }
  pose proof (Z.div_mod doe 36524). pose proof (Z.mod_pos_bound doe 36524).
  Z.div_mod_to_equations. lia.
Qed.

Lemma month_of_year_spec doy : (0 <= doy <= 365)%Z ->
  let mp := ((5 * doy + 2) / 153)%Z in
  (0 <= mp <= 11 /\ 0 <= doy - month_start mp <= 30)%Z.
Proof. unfold month_start. intros H. cbn. Z.div_mod_to_equations. lia. Qed.

Theorem days_of_date_of_days days : days_of_date (date_of_days days) = days.
Proof.
  unfold date_of_days. set (z := (days + 306)%Z). pose proof (Z.mod_pos_bound z era_days ltac:(done)) as Hr.
  pose proof (Z.div_mod z era_days ltac:(done)) as Hd.
  destruct (year_of_era_spec _ Hr) as [Hy Hdoy]. set (yoe := year_of_era _) in *. set (doy := (_ - year_start yoe)%Z) in *.
  destruct (month_of_year_spec doy Hdoy) as [Hm Hday]. set (mp := ((5 * doy + 2) / 153)%Z) in *.
  unfold days_of_date. cbn.
  assert (forall a, (yoe + z / era_days * 400 + a - a) / 400 = z / era_days /\
                    (yoe + z / era_days * 400 + a - a) mod 400 = yoe)%Z as Hq.
  { intros a. rewrite Z.add_simpl_r, Z.div_add, Z_mod_plus_full by lia. by rewrite Z.div_small, Z.mod_small by lia. }
  destruct (Z.ltb_spec mp 10).
  - destruct (Z.leb_spec (mp + 3) 2); [lia|]. destruct (Z.gtb_spec (mp + 3) 2); [|lia].
    rewrite !(proj1 (Hq _)), !(proj2 (Hq _)). replace (mp + 3 - 3)%Z with mp by lia. lia.
  - destruct (Z.leb_spec (mp - 9) 2); [|lia]. destruct (Z.gtb_spec (mp - 9) 2); [lia|].
    rewrite !(proj1 (Hq _)), !(proj2 (Hq _)). replace (mp - 9 + 9)%Z with mp by lia. lia.
Qed.

(** The ranges of the fields. *)
Lemma date_ranges days : let d := date_of_days days in (1 <= d.(d_month) <= 12 /\ 1 <= d.(d_day) <= 31)%Z.
Proof.
  unfold date_of_days. set (z := (days + 306)%Z). pose proof (Z.mod_pos_bound z era_days ltac:(done)) as Hr.
  destruct (year_of_era_spec _ Hr) as [_ Hdoy]. destruct (month_of_year_spec _ Hdoy) as [Hm Hday]. cbn.
  destruct (Z.ltb_spec ((5 * (z mod era_days - year_start (year_of_era (z mod era_days))) + 2) / 153) 10); lia.
Qed.

Lemma clock_ranges t : (0 <= hour_of t < 24 /\ 0 <= minute_of t < 60 /\ 0 <= second_of t < 60 /\
  0 <= nanosecond_of t < Second /\ 0 <= weekday t < 7)%Z.
Proof.
  unfold hour_of, minute_of, second_of, nanosecond_of, weekday, Day, Hour, Minute, Second.
  Z.div_mod_to_equations. lia.
Qed.

(** The zero time, a leap day, and the Unix epoch, a Thursday. *)
Example date_zero : date_of_days 0 = mkDate 1 1 1.
Proof. reflexivity. Qed.
Example date_leap : date_of_days 730178 = mkDate 2000 2 29 /\ days_of_date (mkDate 2000 2 29) = 730178%Z.
Proof. split; reflexivity. Qed.
Example date_epoch : date_of_days 719162 = mkDate 1970 1 1 /\ weekday (719162 * Day) = 4%Z.
Proof. split; reflexivity. Qed.
