(* ===== verification/Quota.v ===== *)
(** * Token quotas ([quota], [gateway/quota/quotabudget], [gateway/policy/policy/quotaevaluator.go])

    The arithmetic of budgets, the windows they are counted in
    ([gateway/quota/quotastore]: [window], [WindowLabel]), the evaluator that
    admits requests, and the tracker that enforces a tenant's budget from
    slices drawn out of Postgres.  Counters are 64-bit; ratios are binary64. *)

From Stdlib Require Import SpecFloat.
From S2P Require Import Prelude Floats Calendar Redis.

(** ** Arithmetic ([quota.go]) *)

Definition ResetHourly : string := "hourly".
Definition ResetDaily : string := "daily".
Definition ResetMonthly : string := "monthly".
Definition ResetRolling : string := "rolling".
Definition AllResetPeriods : list string := [ResetHourly; ResetDaily; ResetMonthly; ResetRolling].
Definition periodIsValid (p : string) : bool := existsb (String.eqb p) AllResetPeriods.

Definition SoftWarningRatio : F64.t := four_fifths.
Definition HardLimitRatio : F64.t := one.

Inductive QState := StateOK | StateSoftWarning | StateHardExceeded.
#[export] Instance QState_eq_dec : EqDecision QState.
Proof. solve_decision. Defined.

Definition Check_ (used limit : Z) : QState :=
  if (limit <=? 0)%Z then StateOK
  else if (used <? 0)%Z then StateHardExceeded
  else let ratio := F64.div (F64.of_Z used) (F64.of_Z limit) in
       if F64.leb HardLimitRatio ratio then StateHardExceeded
       else if F64.leb SoftWarningRatio ratio then StateSoftWarning
       else StateOK.

Record Hierarchy := mkHierarchy { HGlobal : Z; HTenant : Z; HUser : Z }.

Inductive HierarchyError := UserExceedsTenant | TenantExceedsGlobal.

Definition hierarchyValidate (h : Hierarchy) : result HierarchyError () :=
  if (0 <? h.(HUser))%Z && (0 <? h.(HTenant))%Z && (h.(HTenant) <? h.(HUser))%Z then Err UserExceedsTenant
  else if (0 <? h.(HTenant))%Z && (0 <? h.(HGlobal))%Z && (h.(HGlobal) <? h.(HTenant))%Z then Err TenantExceedsGlobal
  else Ok ().

Record HierarchicalCheckResult := mkCheck { CState : QState; CScope : string; CUsed : Z; CLimit : Z }.

Definition stateRank (s : QState) : Z :=
  match s with StateHardExceeded => 2 | StateSoftWarning => 1 | StateOK => 0 end.

Definition HierarchicalCheck (globalUsed tenantUsed userUsed : Z) (h : Hierarchy) : HierarchicalCheckResult :=
  let scopes := [("user", userUsed, h.(HUser)); ("tenant", tenantUsed, h.(HTenant)); ("global", globalUsed, h.(HGlobal))] in
  let '(worst, _) := foldl (fun '(worst, worstRank) '(name, used, limit) =>
    let st := Check_ used limit in
    if (worstRank <? stateRank st)%Z then (mkCheck st name used limit, stateRank st) else (worst, worstRank))
    (mkCheck StateOK "" 0 0, (-1)%Z) scopes in
  match worst.(CState) with
  | StateOK => mkCheck StateOK "" worst.(CUsed) worst.(CLimit)
  | _ => worst
  end.

Definition FailOpenCeiling (tenantLimit cachedReplicaCount perReplicaHardCap : Z) : Z :=
  if (tenantLimit <=? 0)%Z then 0
  else let r := if (cachedReplicaCount <=? 0)%Z then 1%Z else cachedReplicaCount in
       let slice := Z.quot tenantLimit r in
       if (perReplicaHardCap <=? 0)%Z then slice
       else if (slice <? perReplicaHardCap)%Z then slice else perReplicaHardCap.

Definition PerUserFailOpenCeiling (effectiveCeiling : Z) (userFailOpenFraction : F64.t) : Z :=
  if (effectiveCeiling <=? 0)%Z || F64.leb userFailOpenFraction F64.zero then 0
  else let f := if F64.ltb one userFailOpenFraction then one else userFailOpenFraction in
       float_trunc (F64.mul (F64.of_Z effectiveCeiling) f).

Definition DefaultSyncIntervalSeconds : Z := 30.
Definition MinSyncIntervalSeconds : Z := 10.

Definition ClampSyncIntervalSeconds (seconds : Z) : Z :=
  if (seconds <=? 0)%Z then DefaultSyncIntervalSeconds
  else if (seconds <? MinSyncIntervalSeconds)%Z then MinSyncIntervalSeconds
  else seconds.

Definition MaxOvershoot (quotaSyncIntervalSeconds : Z) (maxTokensPerSecond : F64.t) (activeSessions : Z) : F64.t :=
  if (quotaSyncIntervalSeconds <=? 0)%Z || F64.leb maxTokensPerSecond F64.zero || (activeSessions <=? 0)%Z then F64.zero
  else F64.mul (F64.mul (F64.of_Z quotaSyncIntervalSeconds) maxTokensPerSecond) (F64.of_Z activeSessions).

Definition BudgetSliceReconcileRatio : F64.t := four_fifths.

Definition DrawBudgetSlice (remaining replicaCount : Z) : Z :=
  if (remaining <=? 0)%Z then 0
  else let n := if (replicaCount <? 1)%Z then 1%Z else replicaCount in Z.quot remaining n.

Definition ReconcileMax (inMemory postgresCheckpoint : Z) : Z :=
  if (postgresCheckpoint <? inMemory)%Z then inMemory else postgresCheckpoint.

(** ** Windows ([quotastore.go]) *)

Fixpoint zeros (n : nat) : string := match n with 0 => "" | S n => String "0" (zeros n) end.

(** A number with leading zeros, as [time.Format] writes the parts of a date. *)
Definition pad (width : nat) (z : Z) : string :=
  let s := string_of_Z z in zeros (width - String.length s) +:+ s.

Inductive WindowError := RollingPeriod | UnknownPeriod.

Definition window (period : string) (at_ : Time) : result WindowError (string * Duration) :=
  let d := date at_ in
  let month := pad 4 d.(d_year) +:+ pad 2 d.(d_month) in
  let day := month +:+ pad 2 d.(d_day) in
  if String.eqb period ResetHourly then Ok ("hourly-" +:+ day +:+ pad 2 (hour_of at_), Hour)
  else if String.eqb period ResetDaily then Ok ("daily-" +:+ day, (24 * Hour)%Z)
  else if String.eqb period ResetMonthly then Ok ("monthly-" +:+ month, (31 * 24 * Hour)%Z)
  else if String.eqb period ResetRolling then Err RollingPeriod
  else Err UnknownPeriod.

Definition WindowLabel (period : string) (at_ : Time) : result WindowError string :=
  let* w := window period at_ in Ok w.1.

Definition WindowLength (period : string) (at_ : Time) : result WindowError Duration :=
  let* w := window period at_ in Ok w.2.

Definition DefaultBucketResolution : Duration := Minute.

(** ** The evaluator ([quotaevaluator.go]) *)

Record Scoped := mkScoped { SUser : Z; STenant : Z; SGlobal : Z }.

Record TenantLimits := mkLimits { LGlobal : Z; LTenant : Z; LUser : Z; LPeriod : string; LRollingWindow : Duration }.

Inductive LookupError := ErrTenantNotFound | ErrLookup.

(** What reading the usage may change, and how it may fail. *)
Class UsageReader (S : Type) := {
  UsageHierarchical : S -> string -> string -> string -> Time -> S * option Scoped;
  SlidingUsageHierarchical : S -> string -> string -> Duration -> Duration -> Time -> S * option Scoped }.

Definition DefaultRollingWindow : Duration := Hour.

Inductive Verdict := ActionAllow | ActionReject (scope : string) | InterceptError.

(** [Intercept]; the verdict [InterceptError] is the error the chain turns into
    a rejection. *)
Definition Intercept {S} `{UsageReader S} (lookup : result LookupError TenantLimits) (now : Time)
    (metadataTenant requestTenant userID : string) (s : S) : S * Verdict :=
  let tenantID := if is_empty metadataTenant then requestTenant else metadataTenant in
  if is_empty tenantID then (s, ActionReject "")
  else match lookup with
       | Err ErrTenantNotFound => (s, ActionReject "")
       | Err ErrLookup => (s, InterceptError)
       | Ok limits =>
           let period := if is_empty limits.(LPeriod) then ResetHourly else limits.(LPeriod) in
           let h := mkHierarchy limits.(LGlobal) limits.(LTenant) limits.(LUser) in
           if (h.(HGlobal) <=? 0)%Z && (h.(HTenant) <=? 0)%Z && (h.(HUser) <=? 0)%Z then (s, ActionAllow)
           else let '(s, used) :=
                  if String.eqb period ResetRolling
                  then SlidingUsageHierarchical s tenantID userID
                         (if (limits.(LRollingWindow) <=? 0)%Z then DefaultRollingWindow else limits.(LRollingWindow))
                         DefaultBucketResolution now
                  else UsageHierarchical s tenantID userID period now in
                match used with
                | None => (s, InterceptError)
                | Some used =>
                    let res := HierarchicalCheck used.(SGlobal) used.(STenant) used.(SUser) h in
                    (s, match res.(CState) with StateHardExceeded => ActionReject res.(CScope) | _ => ActionAllow end)
                end
       end.

(** ** The checkpoint table ([quotacheckpoint/pgstore]) *)

(** The tenant rollups of [token_usage_checkpoint], by tenant, period and
    window. *)
Abbreviation Checkpoints := (gmap (string * string * string) Z).

Definition tenant_total (pg : Checkpoints) (k : string * string * string) : Z := default 0%Z (pg !! k).

(** How one statement ends: committed, not executed, or committed with the
    acknowledgement lost. *)
Inductive PgOutcome := PgOk | PgFail | PgLost.

(** The upsert returns the new total; [bigint] addition out of range is an
    error. *)
Definition AddTenantTotal (o : PgOutcome) (tenantID period windowLabel : string) (delta : Z) (pg : Checkpoints) :
    Checkpoints * option Z :=
  let k := (tenantID, period, windowLabel) in
  let total := (tenant_total pg k + delta)%Z in
  match o with
  | PgFail => (pg, None)
  | _ => if (min_int64 <=? total)%Z && (total <=? max_int64)%Z
         then (<[k := total]> pg, match o with PgOk => Some total | _ => None end)
         else (pg, None)
  end.

(** ** The tracker ([quotabudget.go]) *)

Definition StaticReplicaCount (n : Z) : Z := if (n <? 1)%Z then 1 else n.

Definition entryKeySep : string := String Ascii.zero "".

Record entry := mkEntry {
  windowLabel : string; base : Z; consumed : Z; slice : Z; limit : Z; drawn : bool; lastFlush : Time }.

Definition zero_entry : entry := mkEntry "" 0 0 0 0 false zero_time.

Record Tracker := mkTracker { interval : Duration; entries : gmap string entry }.

Definition NewTracker (ReconcileInterval : Duration) : Tracker :=
  mkTracker (if (ReconcileInterval <=? 0)%Z then (DefaultSyncIntervalSeconds * Second)%Z
             else (ClampSyncIntervalSeconds (Z.quot ReconcileInterval Second) * Second)%Z) ∅.

Definition entryKey (tenantID period : string) : string := tenantID +:+ entryKeySep +:+ period.

(** A missing entry is created zeroed. *)
Definition entryFor (t : Tracker) (tenantID period : string) : entry :=
  default zero_entry (entries t !! entryKey tenantID period).

Definition put (t : Tracker) (key : string) (e : entry) : Tracker := mkTracker (interval t) (<[key := e]> (entries t)).

Definition splitEntryKey (key : string) : option (string * string) := cut entryKeySep key.

(** What one call meets: the registry's answer, the outcome of the statement,
    the cached replica count, and the clock when the cadence is tested and when
    the flush is stamped. *)
Record QEnv := mkQEnv {
  q_limits : result LookupError TenantLimits; q_pg : PgOutcome; q_replicas : Z; q_now : Time; q_stamp : Time }.

Definition tenantLimit (v : QEnv) : result LookupError Z :=
  match q_limits v with Ok l => Ok (LTenant l) | Err e => Err e end.

Definition rollWindowLocked (e : entry) (label : string) : entry :=
  if String.eqb (windowLabel e) label then e else mkEntry label 0 0 0 0 false zero_time.

Definition sliceConsumedLocked (e : entry) : bool :=
  if (slice e <=? 0)%Z then true
  else F64.leb (F64.mul BudgetSliceReconcileRatio (F64.of_Z (slice e))) (F64.of_Z (consumed e)).

Definition needReconcileLocked (t : Tracker) (now : Time) (e : entry) : bool :=
  if negb (drawn e) then true
  else if (interval t <=? time_sub now (lastFlush e))%Z then true
  else (0 <? limit e)%Z && sliceConsumedLocked e.

Definition mustFailClosedLocked (e : entry) : bool :=
  if negb (drawn e) then true else (0 <? limit e)%Z && (slice e <=? consumed e)%Z.

(** The entry, the table, and whether the statement succeeded. *)
Definition reconcileLocked (v : QEnv) (tenantID period label : string) (lim : Z) (e : entry) (pg : Checkpoints) :
    entry * Checkpoints * bool :=
  if (lim <=? 0)%Z then (mkEntry (windowLabel e) 0 0 0 lim true (q_stamp v), pg, true)
  else match AddTenantTotal (q_pg v) tenantID period label (consumed e) pg with
       | (pg, None) => (mkEntry (windowLabel e) (base e) (consumed e) (slice e) lim (drawn e) (lastFlush e), pg, false)
       | (pg, Some newTotal) =>
           (mkEntry (windowLabel e) newTotal 0 (DrawBudgetSlice (wrap64 (lim - newTotal)) (q_replicas v)) lim true (q_stamp v),
            pg, true)
       end.

(** The reconcile of the read path; [false] is the error returned. *)
Definition refresh (t : Tracker) (v : QEnv) (tenantID period label : string) (e : entry) (pg : Checkpoints) :
    entry * Checkpoints * bool :=
  if needReconcileLocked t (q_now v) e then
    match tenantLimit v with
    | Err _ => (e, pg, negb (mustFailClosedLocked e))
    | Ok lim => let '(e, pg, ok) := reconcileLocked v tenantID period label lim e pg in
                (e, pg, ok || negb (mustFailClosedLocked e))
    end
  else (e, pg, true).

Definition TenantUsed (v : QEnv) (tenantID period : string) (at_ : Time) (t : Tracker) (pg : Checkpoints) :
    Tracker * Checkpoints * option Z :=
  match WindowLabel period at_ with
  | Err _ => (t, pg, Some 0%Z)
  | Ok label =>
      let '(e, pg, ok) := refresh t v tenantID period label (rollWindowLocked (entryFor t tenantID period) label) pg in
      (put t (entryKey tenantID period) e, pg, if ok : bool then Some (wrap64 (base e + consumed e)) else None)
  end.

Definition consume (tokens : Z) (e : entry) : entry :=
  mkEntry (windowLabel e) (base e) (wrap64 (consumed e + tokens)) (slice e) (limit e) (drawn e) (lastFlush e).

(** The reconcile of the response path; its error is dropped. *)
Definition crossing (v : QEnv) (tenantID period label : string) (e : entry) (pg : Checkpoints) : entry * Checkpoints :=
  if drawn e && (0 <? limit e)%Z && sliceConsumedLocked e then
    match tenantLimit v with
    | Ok lim => if (0 <? lim)%Z then (reconcileLocked v tenantID period label lim e pg).1 else (e, pg)
    | Err _ => (e, pg)
    end
  else (e, pg).

Definition Add (v : QEnv) (tenantID period : string) (at_ : Time) (tokens : Z) (t : Tracker) (pg : Checkpoints) :
    Tracker * Checkpoints :=
  if (tokens <=? 0)%Z then (t, pg)
  else match WindowLabel period at_ with
       | Err _ => (t, pg)
       | Ok label =>
           let '(e, pg) := crossing v tenantID period label
                             (consume tokens (rollWindowLocked (entryFor t tenantID period) label)) pg in
           (put t (entryKey tenantID period) e, pg)
       end.

(** One entry of [Flush]; [false] is an error. *)
Definition flush_one (v : QEnv) (key : string) (t : Tracker) (pg : Checkpoints) : Tracker * Checkpoints * bool :=
  match entries t !! key, splitEntryKey key with
  | Some e, Some (tenantID, period) =>
      if (0 <? consumed e)%Z && negb (is_empty (windowLabel e)) && (0 <? limit e)%Z then
        let '(e, pg, ok) := reconcileLocked v tenantID period (windowLabel e) (limit e) e pg in (put t key e, pg, ok)
      else (t, pg, true)
  | _, _ => (t, pg, true)
  end.

(** [Flush] visits the keys in the order the map is iterated in; each visit has
    its own environment, and takes the entry's lock for itself. *)
Fixpoint Flush (order : list (string * QEnv)) (t : Tracker) (pg : Checkpoints) : Tracker * Checkpoints * bool :=
  match order with
  | [] => (t, pg, true)
  | (key, v) :: order => let '(t, pg, ok) := flush_one v key t pg in
                         let '(t, pg, rest) := Flush order t pg in (t, pg, ok && rest)
  end.

(** ** The reader the evaluator is given ([usagereader.go]) *)

(** A tracker, the table it shares and what its next call meets. *)
Record Budgeted := mkBudgeted { b_tracker : Tracker; b_pg : Checkpoints; b_env : QEnv }.

#[export] Instance budget_reader : UsageReader Budgeted := {
  UsageHierarchical s tenantID userID period at_ :=
    let '(t, pg, used) := TenantUsed (b_env s) tenantID period at_ (b_tracker s) (b_pg s) in
    (mkBudgeted t pg (b_env s), (fun u => mkScoped 0 u 0) <$> used);
  SlidingUsageHierarchical s tenantID userID window resolution at_ := (s, Some (mkScoped 0 0 0)) }.
