(* ===== verification/QuotaRuns.v ===== *)
(** * Budget slices across replicas ([gateway/quota/quotabudget])

    Gateway replicas that share the checkpoint table: what one replica's
    tracker guarantees, how far a tenant's recorded usage can pass its limit
    while Postgres comes and goes, and where a boundary race or a lost
    acknowledgement changes the count. *)

From S2P Require Import Prelude Floats Calendar Redis Quota.

(** ** The evaluator's comparison *)

(** On counters a binary64 holds exactly the ratio test is the comparison of
    integers. *)
Lemma Check_hard used lim : (0 < lim < exact_max)%Z -> (used < exact_max)%Z ->
  Check_ used lim = StateHardExceeded <-> (used < 0 \/ lim <= used)%Z.
Proof.
  intros Hl Hu. unfold Check_. rewrite (proj2 (Z.leb_gt lim 0)) by lia.
  destruct (Z.ltb_spec used 0); [split; [intros _; by left|done]|].
  unfold HardLimitRatio. cbn zeta. rewrite ratio_reaches_one by lia.
  destruct (Z.leb_spec lim used); [split; [intros _; by right|done]|].
  destruct (F64.leb _ _); split; try done; lia.
Qed.

Lemma Check_rank used lim : (0 <= stateRank (Check_ used lim) <= 2)%Z.
Proof. destruct (Check_ used lim); simpl; lia. Qed.

Lemma rank_hard s : stateRank s = 2%Z <-> s = StateHardExceeded.
Proof. by destruct s. Qed.

(** The worst scope wins, and a scope over its limit is the worst. *)
Lemma hierarchical_hard g t u h :
  CState (HierarchicalCheck g t u h) = StateHardExceeded <->
  Check_ u (HUser h) = StateHardExceeded \/ Check_ t (HTenant h) = StateHardExceeded \/ Check_ g (HGlobal h) = StateHardExceeded.
Proof.
  destruct (Check_ u (HUser h)) eqn:Eu, (Check_ t (HTenant h)) eqn:Et, (Check_ g (HGlobal h)) eqn:Eg;
    unfold HierarchicalCheck; cbn -[Check_]; repeat (rewrite ?Eu, ?Et, ?Eg; cbn -[Check_]); intuition discriminate.
Qed.

(** ** Keys *)

Lemma entry_key_split tn p : has_char Ascii.zero tn = false -> splitEntryKey (entryKey tn p) = Some (tn, p).
Proof. intros H. unfold splitEntryKey, entryKey, entryKeySep. by apply cut_first. Qed.

Lemma split_entry_key k tn p : splitEntryKey k = Some (tn, p) -> k = entryKey tn p.
Proof. intros H. by apply cut_sound in H. Qed.

Lemma tenant_total_insert k x pg : tenant_total (<[k := x]> pg) k = x.
Proof. unfold tenant_total. by rewrite lookup_insert_eq. Qed.

(** ** One replica *)

Section budget.
Context (tn p lab : string) (lims : TenantLimits) (N K M : Z).

Abbreviation L := (LTenant lims).
Definition fair_slice : Z := (L / N)%Z.
(** What one replica may hold: a slice, and the requests in flight. *)
Definition headroom : Z := (fair_slice + K * M)%Z.
Definition total (pg : Checkpoints) : Z := tenant_total pg (tn, p, lab).

Record env_ok (v : QEnv) : Prop := {
  env_limits : q_limits v = Ok lims \/ exists e, q_limits v = Err e;
  env_replicas : (N <= q_replicas v)%Z }.

(** An entry of the window under a table total [T], with [n] requests in
    flight. *)
Record entry_ok (T : Z) (e : entry) (n : Z) : Prop := {
  ok_window : windowLabel e = lab \/ e = zero_entry;
  ok_base : (0 <= base e <= T)%Z;
  ok_consumed : (0 <= consumed e)%Z;
  ok_flight : (0 <= n)%Z;
  ok_room : (consumed e + n * M <= headroom)%Z;
  ok_slice : (slice e <= fair_slice)%Z;
  ok_limit : limit e = L \/ (limit e = 0%Z /\ drawn e = false) }.

(** What an entry that has seen the limit reached still owes, less what it
    was allowed. *)
Definition weight (e : entry) (n : Z) : Z :=
  if (L <=? base e)%Z then (consumed e + n * M - headroom)%Z else 0%Z.

(** A move of one replica in which [u] tokens are recorded, and [d] of them
    are added to the table without the replica learning of it. *)
Record move (e : entry) (n T : Z) (e' : entry) (n' T' u : Z) : Prop := {
  mv_ok : entry_ok T' e' n';
  mv_mono : (T <= T')%Z;
  mv_count : exists d, (0 <= d /\ T' + consumed e' = T + consumed e + u + d /\
    (T' - d + weight e' n' <= T + weight e n \/ T' - d + weight e' n' <= L))%Z }.

Context (HL : (0 < L)%Z) (HN : (0 < N)%Z) (HK : (0 <= K)%Z) (HM : (0 <= M)%Z).

Lemma headroom_nonneg : (0 <= fair_slice <= headroom)%Z.
Proof using HL HN HK HM. unfold headroom, fair_slice. pose proof (Z.div_pos L N). nia. Qed.

Lemma weight_nonpos T e n : entry_ok T e n -> (weight e n <= 0)%Z.
Proof using HL HN HK HM. intros H. pose proof (ok_room _ _ _ H). unfold weight. case_match; lia. Qed.

Lemma move_refl e n T : entry_ok T e n -> move e n T e n T 0.
Proof using Type. intros H. constructor; [done|lia|]. exists 0%Z. split_and!; [lia|lia|left; lia]. Qed.

Lemma draw_fair T v : (0 <= T)%Z -> env_ok v -> (DrawBudgetSlice (L - T) (q_replicas v) <= fair_slice)%Z.
Proof using HL HN.
  intros HT Hv. pose proof (env_replicas _ Hv). unfold DrawBudgetSlice, fair_slice.
  pose proof (Z.div_pos L N ltac:(lia) ltac:(lia)).
  destruct (Z.leb_spec (L - T) 0); [lia|]. rewrite (proj2 (Z.ltb_ge (q_replicas v) 1)) by lia.
  rewrite Z.quot_div_nonneg by lia. etrans; [apply Z.div_le_mono; [lia|]|apply Z.div_le_compat_l; lia]; lia.
Qed.

Lemma roll_ok T e n : entry_ok T e n -> entry_ok T (rollWindowLocked e lab) n /\
  base (rollWindowLocked e lab) = base e /\ consumed (rollWindowLocked e lab) = consumed e /\
  windowLabel (rollWindowLocked e lab) = lab.
Proof using Type.
  intros H. unfold rollWindowLocked. destruct (String.eqb_spec (windowLabel e) lab) as [|Hne]; [done|].
  destruct (ok_window _ _ _ H) as [|E]; [done|]. split; [|by subst e].
  subst e. destruct H; constructor; simpl in *; auto.
Qed.

(** A total the counters hold exactly, whatever the replica adds. *)
Definition in_range (pg : Checkpoints) : Prop := (total pg + 2 * headroom < exact_max /\ L < exact_max)%Z.

(** A reconcile within the counters' range leaves the counts alone, folds what
    was consumed into the table and draws a fair slice, or folds it in and does
    not learn of it. *)
Lemma reconcile_cases v e pg n :
  env_ok v -> entry_ok (total pg) e n -> windowLabel e = lab -> in_range pg ->
  exists e' pg' ok, reconcileLocked v tn p lab L e pg = (e', pg', ok) /\ windowLabel e' = lab /\ limit e' = L /\
    if ok : bool then drawn e' = true /\ consumed e' = 0%Z /\ base e' = (total pg + consumed e)%Z /\
               (slice e' <= fair_slice)%Z /\ pg' = <[(tn, p, lab) := base e']> pg
    else (pg' = pg \/ pg' = <[(tn, p, lab) := (total pg + consumed e)%Z]> pg) /\
         base e' = base e /\ consumed e' = consumed e /\ slice e' = slice e /\ drawn e' = drawn e.
Proof using HL HN HK HM.
  intros Hv He Hw [Hr HL']. pose proof (ok_base _ _ _ He). pose proof (ok_consumed _ _ _ He). pose proof (ok_room _ _ _ He).
  pose proof (ok_flight _ _ _ He). pose proof headroom_nonneg. assert (consumed e <= headroom)%Z by nia.
  unfold reconcileLocked. rewrite (proj2 (Z.leb_gt L 0)) by lia. unfold AddTenantTotal. fold (total pg).
  assert ((min_int64 <=? total pg + consumed e)%Z && (total pg + consumed e <=? max_int64)%Z = true) as ->.
  { apply andb_true_iff. rewrite !Z.leb_le. unfold_int64. unfold exact_max in *. lia. }
  destruct (q_pg v); do 3 eexists; (split; [done|]); cbn; repeat (split; [done|]).
  - split; [|done]. rewrite wrap64_id by (unfold_int64; unfold exact_max in *; lia). apply draw_fair; [lia|done].
  - split; [by left|done].
  - split; [by right|done].
Qed.

Lemma move_trans e n T e1 n1 T1 u1 e2 n2 T2 u2 :
  move e n T e1 n1 T1 u1 -> move e1 n1 T1 e2 n2 T2 u2 -> move e n T e2 n2 T2 (u1 + u2).
Proof using Type.
  intros [_ M1 (d1 & ? & C1 & W1)] [O M2 (d2 & ? & C2 & W2)]. constructor; [done|lia|].
  exists (d1 + d2)%Z. split_and!; [lia|lia|]. destruct W1, W2; [left|right|right|right]; lia.
Qed.

Lemma reconcile_move v e pg n e' pg' ok :
  env_ok v -> entry_ok (total pg) e n -> windowLabel e = lab -> in_range pg ->
  reconcileLocked v tn p lab L e pg = (e', pg', ok) ->
  move e n (total pg) e' n (total pg') 0 /\ windowLabel e' = lab /\ limit e' = L /\ (ok = true -> consumed e' = 0%Z) /\
  (total pg' <= total pg + headroom)%Z.
Proof using HL HN HK HM.
  intros Hv He Hw Hr E. destruct (reconcile_cases v e pg n) as (e1 & pg1 & ok1 & E1 & W & Hlim & H); try done.
  rewrite E in E1. injection E1 as <- <- <-. pose proof (ok_room _ _ _ He) as Hroom. pose proof (ok_flight _ _ _ He).
  pose proof (ok_consumed _ _ _ He). pose proof (ok_base _ _ _ He). pose proof headroom_nonneg.
  assert (consumed e <= headroom)%Z by nia. destruct ok.
  - destruct H as (D & C & B & S & ->). assert (total (<[(tn, p, lab) := base e']> pg) = base e') as -> by apply tenant_total_insert.
    split_and!; try done; [|lia].
    constructor; [constructor; try lia; auto|lia|]. exists 0%Z. split_and!; [lia|lia|].
    unfold weight. destruct (Z.leb_spec L (base e')), (Z.leb_spec L (base e)); lia.
  - destruct H as (Hpg & B & C & S & D).
    assert (exists d, 0 <= d <= headroom /\ total pg' = total pg + d)%Z as (d & Hd & ->).
    { destruct Hpg as [-> | ->]; [exists 0%Z; lia|]. exists (consumed e). split; [lia|]. apply tenant_total_insert. }
    split_and!; try done; [|lia]. constructor; [|lia|].
    + destruct He. constructor; rewrite ?B, ?C, ?S; auto. lia.
    + exists d. split_and!; [lia|lia|left]. unfold weight. rewrite B, C. lia.
Qed.

Lemma must_fail_room e : limit e = L \/ (limit e = 0%Z /\ drawn e = false) -> (slice e <= fair_slice)%Z ->
  mustFailClosedLocked e = false -> (consumed e <= fair_slice)%Z.
Proof using HL.
  intros Hl Hs. unfold mustFailClosedLocked. destruct (drawn e); [|done]. cbn [negb].
  destruct Hl as [-> | [_ ?]]; [|done]. rewrite (proj2 (Z.ltb_lt 0 L)) by done. cbn. intros ?%Z.leb_gt. lia.
Qed.

Lemma unconsumed_room e : (0 <= consumed e < exact_max)%Z -> sliceConsumedLocked e = false -> (consumed e < slice e)%Z.
Proof using Type.
  intros Hc. unfold sliceConsumedLocked. destruct (Z.leb_spec (slice e) 0); [done|]. intros F.
  destruct (Z.lt_ge_cases (consumed e) (slice e)); [done|].
  unfold BudgetSliceReconcileRatio in F. by rewrite four_fifths_below in F by lia.
Qed.

(** The reconcile of the read path; when it lets the request through, what
    the replica holds is within its slice. *)
Lemma refresh_move t v e pg n e' pg' ok :
  env_ok v -> entry_ok (total pg) e n -> windowLabel e = lab -> in_range pg ->
  refresh t v tn p lab e pg = (e', pg', ok) ->
  move e n (total pg) e' n (total pg') 0 /\ (ok = true -> consumed e' <= fair_slice)%Z /\ (total pg' <= total pg + headroom)%Z.
Proof using HL HN HK HM.
  intros Hv He Hw Hr. pose proof headroom_nonneg. unfold refresh, tenantLimit.
  assert (0 <= consumed e < exact_max)%Z as Hc.
  { destruct He, Hr. nia. }
  destruct (needReconcileLocked t (q_now v) e) eqn:Hn.
  - destruct (env_limits _ Hv) as [-> | [err ->]].
    + destruct (reconcileLocked v tn p lab L e pg) as [[e1 pg1] ok1] eqn:E. intros [= -> -> <-].
      destruct (reconcile_move v e pg n _ _ _ Hv He Hw Hr E) as (Hm & _ & Hlim & H0 & Hb). split; [done|]. split; [|done].
      intros [->|Hf%negb_true_iff]%orb_true_iff; [rewrite H0 by done; lia|].
      apply must_fail_room; [auto|apply (mv_ok _ _ _ _ _ _ _ Hm)|done].
    + intros [= <- <- <-]. split; [by apply move_refl|]. split; [|lia]. intros Hf%negb_true_iff. apply must_fail_room; [apply He|apply He|done].
  - intros [= <- <- <-]. split; [by apply move_refl|]. split; [|lia]. intros _. unfold needReconcileLocked in Hn.
    destruct (ok_limit _ _ _ He) as [Hl|[_ D]]; [|by rewrite D in Hn].
    destruct (drawn e); [|done]. cbn [negb] in Hn. destruct (_ <=? _)%Z; [done|].
    rewrite Hl, (proj2 (Z.ltb_lt 0 L)) in Hn by done. apply unconsumed_room in Hn; [|done]. pose proof (ok_slice _ _ _ He). lia.
Qed.

Lemma crossing_move v e pg n e' pg' :
  env_ok v -> entry_ok (total pg) e n -> windowLabel e = lab -> in_range pg ->
  crossing v tn p lab e pg = (e', pg') -> move e n (total pg) e' n (total pg') 0.
Proof using HL HN HK HM.
  intros Hv He Hw Hr. unfold crossing, tenantLimit.
  destruct (_ && _); [|intros [= <- <-]; by apply move_refl].
  destruct (env_limits _ Hv) as [-> | [err ->]]; [|intros [= <- <-]; by apply move_refl].
  rewrite (proj2 (Z.ltb_lt 0 L)) by done.
  destruct (reconcileLocked v tn p lab L e pg) as [[e1 pg1] ok1] eqn:E. intros [= -> ->]. by eapply reconcile_move.
Qed.

Lemma consume_move tokens e T n : entry_ok T e (n + 1) -> (0 <= n)%Z -> (0 <= tokens <= M)%Z -> (headroom < exact_max)%Z ->
  windowLabel e = lab ->
  move e (n + 1) T (consume tokens e) n T tokens /\ windowLabel (consume tokens e) = lab.
Proof using HL HN HK HM.
  intros He Hn Ht Hr Hw. split; [|done]. pose proof headroom_nonneg. destruct He as [? ? ? ? Hroom ? ?].
  assert (consumed e + tokens <= headroom)%Z by nia.
  assert (wrap64 (consumed e + tokens) = consumed e + tokens)%Z as Ew.
  { apply wrap64_id. unfold_int64. unfold exact_max in *. lia. }
  constructor; [|lia|].
  - constructor; cbn; rewrite ?Ew; auto; try lia; nia.
  - exists 0%Z. cbn. rewrite Ew. split_and!; [lia|lia|left]. unfold weight. cbn. rewrite Ew. case_match; lia.
Qed.

Lemma entryFor_put t e : entryFor (put t (entryKey tn p) e) tn p = e.
Proof using Type. unfold entryFor, put. cbn. by rewrite lookup_insert_eq. Qed.

Lemma read_move v at_ t pg n t' pg' r :
  env_ok v -> WindowLabel p at_ = Ok lab -> entry_ok (total pg) (entryFor t tn p) n -> in_range pg ->
  TenantUsed v tn p at_ t pg = (t', pg', r) ->
  move (entryFor t tn p) n (total pg) (entryFor t' tn p) n (total pg') 0 /\
  (forall used, r = Some used -> used = wrap64 (base (entryFor t' tn p) + consumed (entryFor t' tn p)) /\
                              consumed (entryFor t' tn p) <= fair_slice)%Z /\ (total pg' <= total pg + headroom)%Z.
Proof using HL HN HK HM.
  intros Hv Hat He Hr. unfold TenantUsed. rewrite Hat. destruct (roll_ok _ _ _ He) as (Hro & Rb & Rc & Rw).
  destruct (refresh t v tn p lab _ pg) as [[e1 pg1] ok] eqn:E. intros [= <- -> <-]. rewrite entryFor_put.
  destruct (refresh_move _ _ _ _ _ _ _ _ Hv Hro Rw Hr E) as [[? ? (d & Hd & Hc & Hm)] [Hs Hb]]. unfold weight in Hm at 2. rewrite Rb, Rc in *.
  split; [constructor; [done|done|by exists d]|]. split; [|done]. intros used. destruct ok; [|done]. intros [= <-]. auto.
Qed.

Lemma add_move v at_ tokens t pg n t' pg' :
  env_ok v -> WindowLabel p at_ = Ok lab -> entry_ok (total pg) (entryFor t tn p) (n + 1) -> (0 <= n)%Z -> in_range pg ->
  (0 <= tokens <= M)%Z -> Add v tn p at_ tokens t pg = (t', pg') ->
  move (entryFor t tn p) (n + 1) (total pg) (entryFor t' tn p) n (total pg') tokens.
Proof using HL HN HK HM.
  intros Hv Hat He Hn Hr Ht. unfold Add. rewrite Hat. pose proof (ok_base _ _ _ He). pose proof (ok_consumed _ _ _ He).
  destruct (Z.leb_spec tokens 0) as [Hz|].
  - intros [= <- <-]. assert (tokens = 0)%Z as -> by lia. destruct He. constructor; [constructor; auto; lia|lia|]. exists 0%Z. split_and!; [lia|lia|].
    left. unfold weight. case_match; lia.
  - destruct (roll_ok _ _ _ He) as (Hro & Rb & Rc & Rw). destruct Hr as [Hr1 Hr2].
    destruct (consume_move tokens _ _ _ Hro Hn Ht ltac:(lia) Rw) as [Hm Hw].
    destruct (crossing v tn p lab _ pg) as [e1 pg1] eqn:E. intros [= <- ->]. rewrite entryFor_put.
    pose proof (crossing_move _ _ _ _ _ _ Hv (mv_ok _ _ _ _ _ _ _ Hm) Hw (conj Hr1 Hr2) E) as Hc.
    pose proof (move_trans _ _ _ _ _ _ _ _ _ _ _ Hm Hc) as [? ? (d & Hd & Hcount & Hwt)]. rewrite !Z.add_0_r in *.
    unfold weight in Hwt at 2. rewrite Rb, Rc in *. constructor; [done|done|by exists d].
Qed.

Lemma flush_move v t pg n t' pg' ok :
  has_char Ascii.zero tn = false -> env_ok v -> entry_ok (total pg) (entryFor t tn p) n -> in_range pg ->
  flush_one v (entryKey tn p) t pg = (t', pg', ok) ->
  move (entryFor t tn p) n (total pg) (entryFor t' tn p) n (total pg') 0.
Proof using HL HN HK HM.
  intros Htn Hv He Hr. unfold flush_one. rewrite entry_key_split by done. revert He. unfold entryFor at 1.
  destruct (entries t !! entryKey tn p) as [e|] eqn:El; cbn; intros He;
    [|intros [= <- <- <-]; apply move_refl; unfold entryFor; by rewrite El].
  assert (entryFor t tn p = e) as Ee by (unfold entryFor; by rewrite El).
  destruct (_ && _) eqn:G; [|intros [= <- <- <-]; rewrite Ee; by apply move_refl].
  apply andb_true_iff in G as [[Hc%Z.ltb_lt _]%andb_true_iff Hl%Z.ltb_lt].
  destruct (ok_window _ _ _ He) as [Hw|Hw]; [|by rewrite Hw in Hc]. destruct (ok_limit _ _ _ He) as [Hlim|[? _]]; [|lia].
  rewrite Hw, Hlim. destruct (reconcileLocked v tn p lab L e pg) as [[e1 pg1] ok1] eqn:E. intros [= <- -> ->].
  rewrite entryFor_put, Ee. by eapply reconcile_move.
Qed.

(** *** Admission *)

(** The tenant the request is charged to, and the period it is counted in. *)
Definition charged (metadataTenant requestTenant : string) : Prop :=
  (if is_empty metadataTenant then requestTenant else metadataTenant) = tn.
Definition counted : Prop := (if is_empty (LPeriod lims) then ResetHourly else LPeriod lims) = p.

Definition admitted (vd : Verdict) : Z := match vd with ActionAllow => 1 | _ => 0 end.

Lemma not_rolling at_ : WindowLabel p at_ = Ok lab -> String.eqb p ResetRolling = false.
Proof using Type.
  unfold WindowLabel, window. destruct (String.eqb_spec p ResetRolling) as [->|]; [|done]. by cbn.
Qed.

(** An entry that has seen the limit reached is rejected. *)
Lemma closed_hard pg e' n' pg' : in_range pg -> entry_ok (total pg') e' n' -> (total pg' <= total pg + headroom)%Z ->
  (base e' >= L)%Z -> Check_ (wrap64 (base e' + consumed e')) L = StateHardExceeded.
Proof using HL HN HK HM.
  intros [] [] Hb Hclosed.
  assert (base e' + consumed e' < exact_max)%Z by nia.
  rewrite wrap64_id by (unfold_int64; unfold exact_max in *; lia). apply Check_hard; [lia|done|right; lia].
Qed.

Lemma admit_move lookup v at_ mt rq user t pg n s' vd :
  env_ok v -> charged mt rq -> counted -> (lookup = Ok lims \/ exists e, lookup = Err e) ->
  WindowLabel p at_ = Ok lab -> entry_ok (total pg) (entryFor t tn p) n -> in_range pg -> (n < K)%Z ->
  Intercept lookup at_ mt rq user (mkBudgeted t pg v) = (s', vd) ->
  move (entryFor t tn p) n (total pg) (entryFor (b_tracker s') tn p) (n + admitted vd) (total (b_pg s')) 0.
Proof using HL HN HK HM.
  intros Hv Hch Hco Hlk Hat He Hr Hn. unfold Intercept. unfold charged in Hch. unfold counted in Hco. rewrite Hch.
  assert (forall vd, vd <> ActionAllow -> move (entryFor t tn p) n (total pg) (entryFor t tn p) (n + admitted vd) (total pg) 0) as Hid.
  { intros [] ?; try done; cbn; rewrite Z.add_0_r; by apply move_refl. }
  destruct (is_empty tn); [intros [= <- <-]; by apply Hid|].
  destruct Hlk as [-> | [[] ->]]; [|intros [= <- <-]; by apply Hid..]. rewrite Hco. cbn [HGlobal HTenant HUser].
  rewrite (proj2 (Z.leb_gt L 0)), andb_false_r by lia. cbn [andb]. rewrite (not_rolling _ Hat).
  cbn [UsageHierarchical budget_reader b_env b_tracker b_pg].
  destruct (TenantUsed v tn p at_ t pg) as [[t1 pg1] r] eqn:E.
  destruct (read_move _ _ _ _ _ _ _ _ Hv Hat He Hr E) as (Hm & Hs & Hb).
  destruct r as [used|]; cbn [fmap option_fmap option_map]; [|intros [= <- <-]; cbn; by rewrite Z.add_0_r].
  destruct (Hs _ eq_refl) as [-> Hslice]. clear Hs.
  destruct (CState _) eqn:Ec; intros [= <- <-]; cbn [b_tracker b_pg admitted]; rewrite ?Z.add_0_r; try done.
  all: assert (base (entryFor t1 tn p) < L)%Z as Hopen;
    [|destruct Hm as [Ho ? (d & Hd & Hc & Hw)]; constructor; [destruct Ho; constructor; auto; try lia; unfold headroom; nia|done|];
      exists d; split; [done|]; split; [done|]; revert Hw; unfold weight; by rewrite (proj2 (Z.leb_gt L _)) by lia].
  all: apply Znot_ge_lt; intros Hclosed; enough (CState _ = StateHardExceeded) as X by (by rewrite Ec in X); clear Ec;
    apply hierarchical_hard; right; left; cbn [HTenant STenant].
  all: by eapply closed_hard; [|apply (mv_ok _ _ _ _ _ _ _ Hm)|..].
Qed.

(** *** Other tenants, periods and windows *)

Lemma add_total_frame o tn' p' lab' d pg : (tn', p', lab') <> (tn, p, lab) -> total (AddTenantTotal o tn' p' lab' d pg).1 = total pg.
Proof using Type.
  intros Hne. unfold AddTenantTotal, total, tenant_total. destruct o; try done.
  all: case_match; cbn; [|done]; rewrite lookup_insert_ne by (intros [= -> -> ->]; done); done.
Qed.

Lemma reconcile_frame v tn' p' lab' lim e pg : (tn', p', lab') <> (tn, p, lab) ->
  total (reconcileLocked v tn' p' lab' lim e pg).1.2 = total pg /\
  windowLabel (reconcileLocked v tn' p' lab' lim e pg).1.1 = windowLabel e.
Proof using Type.
  intros Hne. unfold reconcileLocked. destruct (lim <=? 0)%Z; [done|].
  pose proof (add_total_frame (q_pg v) tn' p' lab' (consumed e) pg Hne).
  by destruct (AddTenantTotal _ _ _ _ _ _) as [pg1 [x|]].
Qed.

Lemma put_frame t k e : k <> entryKey tn p -> entryFor (put t k e) tn p = entryFor t tn p.
Proof using Type. intros Hne. unfold entryFor, put. cbn. by rewrite lookup_insert_ne. Qed.

Lemma key_triple tn' p' lab' : entryKey tn' p' <> entryKey tn p -> (tn', p', lab') <> (tn, p, lab).
Proof using Type. by intros Hne [= -> -> ->]. Qed.

Lemma roll_label e lab' : windowLabel (rollWindowLocked e lab') = lab'.
Proof using Type. unfold rollWindowLocked. by destruct (String.eqb_spec (windowLabel e) lab'). Qed.

(** A call that counts in another window leaves the total of this one, and its
    entry is of that window afterwards. *)
Lemma read_total v tn' p' at_ lab' t pg t' pg' r : WindowLabel p' at_ = Ok lab' -> (tn', p', lab') <> (tn, p, lab) ->
  TenantUsed v tn' p' at_ t pg = (t', pg', r) ->
  total pg' = total pg /\ exists e, t' = put t (entryKey tn' p') e /\ windowLabel e = lab'.
Proof using Type.
  intros Hat Hne. unfold TenantUsed. rewrite Hat.
  destruct (refresh _ _ _ _ _ _ _) as [[e1 pg1] ok] eqn:E. intros [= <- -> _].
  enough (total pg' = total pg /\ windowLabel e1 = lab') as [? ?] by eauto.
  revert E. unfold refresh. pose proof (roll_label (entryFor t tn' p') lab') as Hl.
  destruct (needReconcileLocked _ _ _); [|by intros [= <- -> _]]. destruct (tenantLimit v) as [lim|]; [|by intros [= <- -> _]].
  pose proof (reconcile_frame v tn' p' lab' lim (rollWindowLocked (entryFor t tn' p') lab') pg Hne) as [H1 H2].
  destruct (reconcileLocked _ _ _ _ _ _ _) as [[e2 pg2] ok2]. cbn in H1, H2. intros [= <- -> _]. by rewrite H2.
Qed.

Lemma add_total v tn' p' at_ lab' tokens t pg t' pg' : (0 < tokens)%Z -> WindowLabel p' at_ = Ok lab' -> (tn', p', lab') <> (tn, p, lab) ->
  Add v tn' p' at_ tokens t pg = (t', pg') ->
  total pg' = total pg /\ exists e, t' = put t (entryKey tn' p') e /\ windowLabel e = lab'.
Proof using Type.
  intros Htok Hat Hne. unfold Add. rewrite (proj2 (Z.leb_gt tokens 0)), Hat by lia.
  destruct (crossing _ _ _ _ _ _) as [e1 pg1] eqn:E. intros [= <- ->].
  enough (total pg' = total pg /\ windowLabel e1 = lab') as [? ?] by eauto.
  revert E. unfold crossing. pose proof (roll_label (entryFor t tn' p') lab') as Hl.
  destruct (_ && _); [|by intros [= <- ->]]. destruct (tenantLimit v) as [lim|]; [|by intros [= <- ->]].
  destruct (0 <? lim)%Z; [|by intros [= <- ->]].
  pose proof (reconcile_frame v tn' p' lab' lim (consume tokens (rollWindowLocked (entryFor t tn' p') lab')) pg Hne) as [H1 H2].
  destruct (reconcileLocked _ _ _ _ _ _ _) as [[e2 pg2] ok2]. cbn in H1, H2. intros [= <- ->]. by rewrite H2.
Qed.

Lemma read_frame v tn' p' at_ t pg t' pg' r : entryKey tn' p' <> entryKey tn p ->
  TenantUsed v tn' p' at_ t pg = (t', pg', r) -> entryFor t' tn p = entryFor t tn p /\ total pg' = total pg.
Proof using Type.
  intros Hne E. destruct (WindowLabel p' at_) as [lab'|] eqn:Hat.
  - destruct (read_total _ _ _ _ _ _ _ _ _ _ Hat (key_triple _ _ _ Hne) E) as (Ht & e & -> & _). by rewrite put_frame.
  - unfold TenantUsed in E. rewrite Hat in E. by injection E as <- <- _.
Qed.

Lemma add_frame v tn' p' at_ tokens t pg t' pg' : entryKey tn' p' <> entryKey tn p ->
  Add v tn' p' at_ tokens t pg = (t', pg') -> entryFor t' tn p = entryFor t tn p /\ total pg' = total pg.
Proof using Type.
  intros Hne E. destruct (Z.le_gt_cases tokens 0) as [Hz|Hz].
  { unfold Add in E. rewrite (proj2 (Z.leb_le tokens 0) Hz) in E. by injection E as <- <-. }
  destruct (WindowLabel p' at_) as [lab'|] eqn:Hat.
  - destruct (add_total _ _ _ _ _ _ _ _ _ _ Hz Hat (key_triple _ _ _ Hne) E) as (Ht & e & -> & _). by rewrite put_frame.
  - unfold Add in E. rewrite Hat in E. destruct (tokens <=? 0)%Z; by injection E as <- <-.
Qed.

Lemma flush_frame v k t pg t' pg' ok : k <> entryKey tn p ->
  flush_one v k t pg = (t', pg', ok) -> entryFor t' tn p = entryFor t tn p /\ total pg' = total pg.
Proof using Type.
  intros Hne. unfold flush_one. destruct (entries t !! k) as [e|]; [|by intros [= -> -> _]].
  destruct (splitEntryKey k) as [[tn' p']|] eqn:Ek; [|by intros [= -> -> _]].
  destruct (_ && _); [|by intros [= -> -> _]]. apply split_entry_key in Ek. rewrite Ek in Hne.
  pose proof (reconcile_frame v tn' p' (windowLabel e) (limit e) e pg (key_triple _ _ _ Hne)) as [Hf _].
  destruct (reconcileLocked _ _ _ _ _ _ _) as [[e2 pg2] ok2]. intros [= <- -> _]. rewrite put_frame by (by rewrite Ek). done.
Qed.

(** The flush of an entry of another window. *)
Lemma flush_total v t pg t' pg' ok : has_char Ascii.zero tn = false -> windowLabel (entryFor t tn p) <> lab ->
  flush_one v (entryKey tn p) t pg = (t', pg', ok) -> total pg' = total pg /\ windowLabel (entryFor t' tn p) <> lab.
Proof using Type.
  intros Htn Hw. unfold flush_one. rewrite entry_key_split by done.
  destruct (entries t !! entryKey tn p) as [e|] eqn:El; [|by intros [= <- <- _]].
  assert (entryFor t tn p = e) as Ee by (unfold entryFor; by rewrite El). rewrite Ee in Hw.
  destruct (_ && _); [|intros [= <- <- _]; by rewrite Ee].
  pose proof (reconcile_frame v tn p (windowLabel e) (limit e) e pg) as Hf.
  destruct (reconcileLocked _ _ _ _ _ _ _) as [[e2 pg2] ok2]. cbn in Hf. destruct Hf as [H1 H2]; [congruence|].
  intros [= <- <- _]. rewrite entryFor_put. by rewrite H2.
Qed.

(** ** Replicas *)

(** A replica that has gone on to another window has left its entry of this one
    behind. *)
Record replica := mkReplica { rt : Tracker; inflight : Z; left_ : option entry }.
(** Replicas, the table, and the tokens recorded against the tenant in the
    window. *)
Record cluster := mkCluster { reps : list replica; table : Checkpoints; recorded : Z }.

Definition entry_of (r : replica) : entry := default (entryFor (rt r) tn p) (left_ r).

(** Calls that count in the window come from replicas that are still in it. *)
Inductive cluster_step : cluster -> cluster -> Prop :=
| step_admit c i r lookup v at_ mt rq user s' vd :
    reps c !! i = Some r -> left_ r = None -> (inflight r < K)%Z -> env_ok v -> charged mt rq ->
    (lookup = Ok lims \/ exists e, lookup = Err e) -> WindowLabel p at_ = Ok lab ->
    Intercept lookup at_ mt rq user (mkBudgeted (rt r) (table c) v) = (s', vd) ->
    cluster_step c (mkCluster (<[i := mkReplica (b_tracker s') (inflight r + admitted vd) None]> (reps c)) (b_pg s') (recorded c))
| step_record c i r v at_ tokens t' pg' :
    reps c !! i = Some r -> left_ r = None -> (0 < inflight r)%Z -> env_ok v -> WindowLabel p at_ = Ok lab -> (0 <= tokens <= M)%Z ->
    Add v tn p at_ tokens (rt r) (table c) = (t', pg') ->
    cluster_step c (mkCluster (<[i := mkReplica t' (inflight r - 1) None]> (reps c)) pg' (recorded c + tokens))
| step_flush c i r v k t' pg' ok :
    reps c !! i = Some r -> env_ok v -> flush_one v k (rt r) (table c) = (t', pg', ok) ->
    cluster_step c (mkCluster (<[i := mkReplica t' (inflight r) (left_ r)]> (reps c)) pg' (recorded c))
| step_next_read c i r v at_ lab' t' pg' u :
    reps c !! i = Some r -> WindowLabel p at_ = Ok lab' -> lab' <> lab ->
    TenantUsed v tn p at_ (rt r) (table c) = (t', pg', u) ->
    cluster_step c (mkCluster (<[i := mkReplica t' (inflight r) (Some (entry_of r))]> (reps c)) pg' (recorded c))
| step_next_add c i r v at_ lab' tokens t' pg' :
    reps c !! i = Some r -> WindowLabel p at_ = Ok lab' -> lab' <> lab -> (0 < tokens)%Z ->
    Add v tn p at_ tokens (rt r) (table c) = (t', pg') ->
    cluster_step c (mkCluster (<[i := mkReplica t' (inflight r) (Some (entry_of r))]> (reps c)) pg' (recorded c))
| step_other_read c i r v tn' p' at_ t' pg' u :
    reps c !! i = Some r -> entryKey tn' p' <> entryKey tn p ->
    TenantUsed v tn' p' at_ (rt r) (table c) = (t', pg', u) ->
    cluster_step c (mkCluster (<[i := mkReplica t' (inflight r) (left_ r)]> (reps c)) pg' (recorded c))
| step_other_add c i r v tn' p' at_ tokens t' pg' :
    reps c !! i = Some r -> entryKey tn' p' <> entryKey tn p ->
    Add v tn' p' at_ tokens (rt r) (table c) = (t', pg') ->
    cluster_step c (mkCluster (<[i := mkReplica t' (inflight r) (left_ r)]> (reps c)) pg' (recorded c)).

(** A step while the table holds a total that binary64 represents, with room
    for what a replica adds. *)
Definition ranged_step (c c' : cluster) : Prop := in_range (table c) /\ cluster_step c c'.

Definition boot (n : nat) (cadence : Duration) : cluster := mkCluster (replicate n (mkReplica (NewTracker cadence) 0 None)) ∅ 0.

Fixpoint over (f : entry -> Z -> Z) (l : list replica) : Z :=
  match l with [] => 0%Z | r :: l => (f (entry_of r) (inflight r) + over f l)%Z end.

Lemma over_insert f l i r r' : l !! i = Some r ->
  over f (<[i := r']> l) = (over f l - f (entry_of r) (inflight r) + f (entry_of r') (inflight r'))%Z.
Proof using Type.
  revert i. induction l as [|x l IH]; intros [|i] E; try done.
  - injection E as ->. cbn. lia.
  - change (<[S i := r']> (x :: l)) with (x :: <[i := r']> l). cbn [over]. rewrite (IH _ E). lia.
Qed.

Definition replica_ok (T : Z) (r : replica) : Prop :=
  entry_ok T (entry_of r) (inflight r) /\ (is_Some (left_ r) -> windowLabel (entryFor (rt r) tn p) <> lab).

(** [P] of the table's total was never recorded: it was added once more after
    an acknowledgement was lost. *)
Record cluster_inv (size : nat) (P : Z) (c : cluster) : Prop := {
  inv_size : length (reps c) = size;
  inv_twice : (0 <= P)%Z;
  inv_reps : Forall (replica_ok (total (table c))) (reps c);
  inv_count : recorded c = (total (table c) - P + over (fun e _ => consumed e) (reps c))%Z;
  inv_weight : (total (table c) - P + over weight (reps c) <= L)%Z }.

Lemma over_weight T l : Forall (replica_ok T) l ->
  (over weight l <= 0 /\ - (Z.of_nat (length l) * headroom) <= over weight l /\
   over (fun e _ => consumed e) l <= over weight l + Z.of_nat (length l) * headroom)%Z.
Proof using HL HN HK HM.
  induction 1 as [|r l [Hr _] _ IH]; cbn [over length]; [lia|]. pose proof (weight_nonpos _ _ _ Hr).
  destruct Hr. unfold weight in *. case_match; nia.
Qed.

Lemma inv_move size P c i r t' n' g pg' u :
  cluster_inv size P c -> reps c !! i = Some r -> (is_Some g -> windowLabel (entryFor t' tn p) <> lab) ->
  move (entry_of r) (inflight r) (total (table c)) (entry_of (mkReplica t' n' g)) n' (total pg') u ->
  exists P', cluster_inv size P' (mkCluster (<[i := mkReplica t' n' g]> (reps c)) pg' (recorded c + u)).
Proof using HL HN HK HM.
  intros [Hs HP Hr Hc Hw] Hi Hg [Ho Hm (d & Hd & Hmc & Hmw)]. exists (P + d)%Z. constructor; cbn [reps table recorded].
  - by rewrite length_insert.
  - lia.
  - apply Forall_insert; [|by split]. eapply Forall_impl; [exact Hr|]. intros x [[] ?]. split; [|done]. constructor; auto. lia.
  - rewrite (over_insert _ _ _ _ _ Hi). cbn beta. cbn [inflight]. lia.
  - rewrite (over_insert _ _ _ _ _ Hi). cbn [inflight]. destruct Hmw; [lia|].
    assert (over weight (reps c) - weight (entry_of r) (inflight r) <= 0)%Z; [|lia].
    clear -Hr Hi HL HN HK HM. revert i Hi. induction Hr as [|x l [Hx _] Hl IH]; intros [|i] Hi; try done; cbn in *.
    + injection Hi as ->. pose proof (over_weight _ _ Hl). lia.
    + specialize (IH _ Hi). pose proof (weight_nonpos _ _ _ Hx). lia.
Qed.

Lemma inv_frame size P c i r t' g pg' :
  cluster_inv size P c -> reps c !! i = Some r -> (is_Some g -> windowLabel (entryFor t' tn p) <> lab) ->
  entry_of (mkReplica t' (inflight r) g) = entry_of r -> total pg' = total (table c) ->
  exists P', cluster_inv size P' (mkCluster (<[i := mkReplica t' (inflight r) g]> (reps c)) pg' (recorded c)).
Proof using HL HN HK HM.
  intros Hc Hi Hg He Ht. rewrite <- (Z.add_0_r (recorded c)). eapply inv_move; [done|done|done|]. rewrite He, Ht. apply move_refl.
  by destruct (Forall_lookup_1 _ _ _ _ (inv_reps _ _ _ Hc) Hi).
Qed.

(** A call on another key changes neither the entry nor the total. *)
Lemma inv_elsewhere size P c i r t' pg' :
  cluster_inv size P c -> reps c !! i = Some r -> entryFor t' tn p = entryFor (rt r) tn p -> total pg' = total (table c) ->
  exists P', cluster_inv size P' (mkCluster (<[i := mkReplica t' (inflight r) (left_ r)]> (reps c)) pg' (recorded c)).
Proof using HL HN HK HM.
  intros Hc Hi He Ht. eapply inv_frame; [done|done| | |done].
  - rewrite He. by apply (Forall_lookup_1 _ _ _ _ (inv_reps _ _ _ Hc) Hi).
  - unfold entry_of. cbn. by rewrite He.
Qed.

Lemma inv_step size P c c' : has_char Ascii.zero tn = false -> counted ->
  cluster_inv size P c -> ranged_step c c' -> exists P', cluster_inv size P' c'.
Proof using HL HN HK HM.
  intros Htn Hco Hc [Hr Hst].
  assert (forall i r, reps c !! i = Some r -> replica_ok (total (table c)) r) as Hrep.
  { intros i r Hi. apply (Forall_lookup_1 _ _ _ _ (inv_reps _ _ _ Hc) Hi). }
  destruct Hst as [c i r lookup v at_ mt rq user s' vd Hi Hg Hn Hv Hch Hlk Hat E|c i r v at_ tokens t' pg' Hi Hg Hn Hv Hat Ht E
    |c i r v k t' pg' ok Hi Hv E|c i r v at_ lab' t' pg' u Hi Hat Hne E|c i r v at_ lab' tokens t' pg' Hi Hat Hne Ht E
    |c i r v tn' p' at_ t' pg' u Hi Hk E|c i r v tn' p' at_ tokens t' pg' Hi Hk E].
  - rewrite <- (Z.add_0_r (recorded c)). destruct (Hrep _ _ Hi) as [He _]. eapply inv_move; [done|done|by intros []|].
    unfold entry_of in *. rewrite Hg in *. cbn in *. by eapply admit_move; eauto.
  - destruct (Hrep _ _ Hi) as [He _]. eapply inv_move; [done|done|by intros []|]. unfold entry_of in *. rewrite Hg in *. cbn in *.
    replace (inflight r) with (inflight r - 1 + 1)%Z at 1 by lia.
    eapply add_move; eauto; [|lia]. replace (inflight r - 1 + 1)%Z with (inflight r) by lia. eauto.
  - destruct (decide (k = entryKey tn p)) as [->|Hk]; [|destruct (flush_frame _ _ _ _ _ _ _ Hk E); by eapply inv_elsewhere].
    destruct (Hrep _ _ Hi) as [He Hl]. destruct (left_ r) as [g|] eqn:Hg.
    + destruct (flush_total _ _ _ _ _ _ Htn (Hl ltac:(eauto)) E). eapply inv_frame; [done|done|done| |done]. unfold entry_of. by rewrite Hg.
    + rewrite <- (Z.add_0_r (recorded c)). eapply inv_move; [done|done|by intros []|]. unfold entry_of in *. rewrite Hg in *. cbn in *.
      by eapply flush_move; eauto.
  - destruct (read_total _ _ _ _ _ _ _ _ _ _ Hat ltac:(congruence) E) as (Ht & e & -> & Hl).
    eapply inv_frame; [done|done| |done|done]. intros _. by rewrite entryFor_put, Hl.
  - destruct (add_total _ _ _ _ _ _ _ _ _ _ Ht Hat ltac:(congruence) E) as (Htt & e & -> & Hl).
    eapply inv_frame; [done|done| |done|done]. intros _. by rewrite entryFor_put, Hl.
  - destruct (read_frame _ _ _ _ _ _ _ _ _ Hk E). by eapply inv_elsewhere.
  - destruct (add_frame _ _ _ _ _ _ _ _ _ Hk E). by eapply inv_elsewhere.
Qed.

Lemma inv_boot size cadence : cluster_inv size 0 (boot size cadence).
Proof using HL HN HK HM.
  assert (Forall (replica_ok 0) (replicate size (mkReplica (NewTracker cadence) 0 None))) as Hz.
  { apply Forall_replicate. pose proof headroom_nonneg. split; [|by intros []]. unfold entry_of. cbn [rt inflight left_ default].
    change (entryFor (NewTracker cadence) tn p) with zero_entry. constructor; cbn; auto; lia. }
  constructor; cbn [boot reps table recorded]; change (total ∅) with 0%Z.
  - apply length_replicate.
  - lia.
  - done.
  - clear Hz. induction size as [|size IH]; cbn [replicate over]; [done|]. rewrite Z.sub_0_r, Z.add_0_l in *. rewrite <- IH. done.
  - pose proof (over_weight _ _ Hz). lia.
Qed.

End budget.

(** ** A reachable Postgres *)

Lemma Check_zero lim : (lim < exact_max)%Z -> Check_ 0 lim <> StateHardExceeded.
Proof.
  intros Hl. destruct (Z.le_gt_cases lim 0).
  - unfold Check_. by rewrite (proj2 (Z.leb_le lim 0)).
  - intros ?%Check_hard; unfold exact_max in *; lia.
Qed.

(** With the registry and Postgres answering, a reconcile that is due makes the
    replica see the shared total, and a tenant below its limit is admitted. *)
Theorem connected_admission_exact v tn p lab at_ user t pg lims s' vd :
  let e := rollWindowLocked (entryFor t tn p) lab in
  let seen := (tenant_total pg (tn, p, lab) + consumed e)%Z in
  q_limits v = Ok lims -> q_pg v = PgOk -> WindowLabel p at_ = Ok lab -> tn <> "" ->
  counted p lims -> (0 < LTenant lims < exact_max)%Z -> (LUser lims < exact_max)%Z -> (LGlobal lims < exact_max)%Z ->
  needReconcileLocked t (q_now v) e = true -> (0 <= seen < exact_max)%Z ->
  Intercept (Ok lims) at_ "" tn user (mkBudgeted t pg v) = (s', vd) ->
  tenant_total (b_pg s') (tn, p, lab) = seen /\ consumed (entryFor (b_tracker s') tn p) = 0%Z /\
  (vd = ActionAllow <-> (seen < LTenant lims)%Z).
Proof.
  intros e seen Hlim Hpg Hat Htn Hco HL Hu Hg Hneed Hseen. unfold Intercept.
  unfold counted in Hco. rewrite Hco. change (is_empty "") with true. cbv beta iota zeta. rewrite (is_empty_false tn) by done. cbn [HGlobal HTenant HUser].
  rewrite (proj2 (Z.leb_gt (LTenant lims) 0)), andb_false_r by lia. cbn [andb]. rewrite (not_rolling _ _ _ Hat).
  cbn [UsageHierarchical budget_reader b_env b_tracker b_pg]. unfold TenantUsed. rewrite Hat. fold e.
  unfold refresh, tenantLimit. rewrite Hneed, Hlim. unfold reconcileLocked.
  rewrite (proj2 (Z.leb_gt (LTenant lims) 0)) by lia. unfold AddTenantTotal. rewrite Hpg. fold seen.
  rewrite (proj2 (Z.leb_le min_int64 seen)), (proj2 (Z.leb_le seen max_int64)) by (unfold_int64; unfold exact_max in *; lia).
  cbn [andb orb base consumed fmap option_fmap option_map STenant SUser SGlobal]. rewrite Z.add_0_r.
  rewrite (wrap64_id seen) by (unfold_int64; unfold exact_max in *; lia). intros [= <- <-]. cbn [b_pg b_tracker].
  rewrite tenant_total_insert, entryFor_put. split; [done|]. split; [done|].
  pose proof (hierarchical_hard 0 seen 0 (mkHierarchy (LGlobal lims) (LTenant lims) (LUser lims))) as Hh.
  cbn [HGlobal HTenant HUser] in Hh. rewrite (Check_hard seen (LTenant lims)) in Hh by lia.
  pose proof (Check_zero _ Hu). pose proof (Check_zero _ Hg).
  assert (CState (HierarchicalCheck 0 seen 0 (mkHierarchy (LGlobal lims) (LTenant lims) (LUser lims))) = StateHardExceeded
          <-> (LTenant lims <= seen)%Z) as Hx by (rewrite Hh; split; [intros [|[|]]; [done|lia|done]|right; left; lia]).
  clear Hh. destruct (CState _); split; try done; intros.
  - destruct (Z.lt_ge_cases seen (LTenant lims)); [done|]. by apply Hx in H2.
  - destruct (Z.lt_ge_cases seen (LTenant lims)); [done|]. by apply Hx in H2.
  - pose proof (proj1 Hx eq_refl). lia.
Qed.

(** ** Boundary races and lost acknowledgements *)

(** A response stamped in another window restarts the entry: what it held is
    neither kept nor folded into the table. *)
Lemma stale_window_discards v tn p at_ lab tokens t pg t' pg' :
  (0 < tokens <= max_int64)%Z -> WindowLabel p at_ = Ok lab -> windowLabel (entryFor t tn p) <> lab ->
  Add v tn p at_ tokens t pg = (t', pg') ->
  pg' = pg /\ windowLabel (entryFor t' tn p) = lab /\ consumed (entryFor t' tn p) = tokens.
Proof.
  intros Ht Hat Hne. unfold Add. rewrite (proj2 (Z.leb_gt tokens 0)), Hat by lia. unfold rollWindowLocked.
  rewrite (proj2 (String.eqb_neq _ _) Hne). unfold crossing. cbn. intros [= <- <-]. rewrite entryFor_put. cbn.
  split; [done|]. split; [done|]. rewrite wrap64_id; [done|]. unfold_int64. lia.
Qed.

(** A lost acknowledgement is folded in again by the next reconcile. *)
Lemma lost_ack_counts_twice v v' tn p lab lim e pg e1 pg1 :
  (0 < lim)%Z -> q_pg v = PgLost -> q_pg v' = PgOk -> (0 <= consumed e)%Z -> (0 <= tenant_total pg (tn, p, lab))%Z ->
  (tenant_total pg (tn, p, lab) + 2 * consumed e <= max_int64)%Z ->
  reconcileLocked v tn p lab lim e pg = (e1, pg1, false) ->
  base (reconcileLocked v' tn p lab lim e1 pg1).1.1 = (tenant_total pg (tn, p, lab) + 2 * consumed e)%Z.
Proof.
  intros Hl Hv Hv' Hc Ht Hb. unfold reconcileLocked. rewrite (proj2 (Z.leb_gt lim 0)) by lia. unfold AddTenantTotal. rewrite Hv, Hv'.
  rewrite (proj2 (Z.leb_le min_int64 _)), (proj2 (Z.leb_le _ max_int64)) by (unfold_int64; lia). cbn [andb].
  intros [= <- <-]. cbn [consumed]. rewrite tenant_total_insert.
  rewrite (proj2 (Z.leb_le min_int64 _)), (proj2 (Z.leb_le _ max_int64)) by (unfold_int64; lia). cbn. lia.
Qed.

(** A positive cadence below a second is not raised to the floor of ten
    seconds: it selects the default of thirty. *)
Lemma subsecond_cadence d : (0 < d < Second)%Z -> interval (NewTracker d) = (30 * Second)%Z.
Proof.
  intros Hd. unfold NewTracker. cbn [interval]. rewrite (proj2 (Z.leb_gt d 0)) by lia.
  by rewrite Z.quot_small by lia.
Qed.

(** ** A tenant of 100 tokens *)

Module Demo.

Definition lims : TenantLimits := mkLimits 0 100 0 "" 0.
Definition noon : Time := (738000 * Day + 12 * Hour)%Z.
Definition lab : string := match WindowLabel ResetHourly noon with Ok l => l | Err _ => "" end.
Definition up : QEnv := mkQEnv (Ok lims) PgOk 1 noon noon.
Definition down : QEnv := mkQEnv (Ok lims) PgFail 1 noon noon.

(** The statement takes effect and its acknowledgement does not arrive. *)
Definition lost : QEnv := mkQEnv (Ok lims) PgLost 1 noon noon.

(** Three requests of 90 tokens admitted before the first of them answers, with
    Postgres failing once the slice is drawn; the first answer is written
    without the replica learning of it, and written again.  The next request is
    of the next hour. *)
Definition ask (v : QEnv) (t : Tracker) (pg : Checkpoints) : Budgeted * Verdict :=
  Intercept (Ok lims) noon "" "acme" "alice" (mkBudgeted t pg v).
Definition s1 : Budgeted := (ask up (NewTracker 0) ∅).1.

Definition c1 : cluster := mkCluster [mkReplica (b_tracker s1) 1 None] (b_pg s1) 0.
Definition s2 : Budgeted := (ask down (b_tracker s1) (b_pg s1)).1.
Definition c2 : cluster := mkCluster [mkReplica (b_tracker s2) 2 None] (b_pg s2) 0.
Definition s3 : Budgeted := (ask down (b_tracker s2) (b_pg s2)).1.
Definition c3 : cluster := mkCluster [mkReplica (b_tracker s3) 3 None] (b_pg s3) 0.
Definition a1 : Tracker * Checkpoints := Add lost "acme" ResetHourly noon 90 (b_tracker s3) (b_pg s3).
Definition c4 : cluster := mkCluster [mkReplica a1.1 2 None] a1.2 90.
Definition a2 : Tracker * Checkpoints := Add lost "acme" ResetHourly noon 90 a1.1 a1.2.
Definition c5 : cluster := mkCluster [mkReplica a2.1 1 None] a2.2 180.
Definition a3 : Tracker * Checkpoints := Add down "acme" ResetHourly noon 90 a2.1 a2.2.
Definition c6 : cluster := mkCluster [mkReplica a3.1 0 None] a3.2 270.
Definition n7 : Tracker * Checkpoints * option Z := TenantUsed up "acme" ResetHourly (noon + Hour) a3.1 a3.2.
Definition c7 : cluster := mkCluster [mkReplica n7.1.1 0 (Some (entryFor a3.1 "acme" ResetHourly))] n7.1.2 270.

Abbreviation step := (ranged_step "acme" ResetHourly lab lims 1 3 90).

Lemma envs : env_ok lims 1 up /\ env_ok lims 1 down /\ env_ok lims 1 lost.
Proof. split_and!; constructor; cbn; auto; lia. Qed.

Lemma in_lab : WindowLabel ResetHourly noon = Ok lab.
Proof. vm_compute. reflexivity. Qed.

Lemma admit_one v t pg n u s : in_range "acme" ResetHourly lab lims 1 3 90 pg -> env_ok lims 1 v -> (n < 3)%Z -> ask v t pg = (s, ActionAllow) ->
  step (mkCluster [mkReplica t n None] pg u) (mkCluster [mkReplica (b_tracker s) (n + 1) None] (b_pg s) u).
Proof.
  intros Hr Hv Hn E. split; [exact Hr|].
  exact (step_admit _ _ _ _ _ _ _ (mkCluster [mkReplica t n None] pg u) 0 (mkReplica t n None) (Ok lims) v noon "" "acme" "alice"
           s ActionAllow eq_refl eq_refl Hn Hv eq_refl (or_introl eq_refl) in_lab E).
Qed.

Lemma record_one v t pg n u a : in_range "acme" ResetHourly lab lims 1 3 90 pg -> env_ok lims 1 v -> (0 < n)%Z ->
  Add v "acme" ResetHourly noon 90 t pg = a -> step (mkCluster [mkReplica t n None] pg u) (mkCluster [mkReplica a.1 (n - 1) None] a.2 (u + 90)).
Proof.
  intros Hr Hv Hn E. split; [exact Hr|]. destruct a as [t' pg']. assert (0 <= 90 <= 90)%Z as H90 by lia.
  exact (step_record _ _ _ _ _ _ _ (mkCluster [mkReplica t n None] pg u) 0 (mkReplica t n None) v noon 90 t' pg' eq_refl eq_refl Hn Hv in_lab
           H90 E).
Qed.

Lemma all_admitted : ask up (NewTracker 0) ∅ = (s1, ActionAllow) /\ ask down (b_tracker s1) (b_pg s1) = (s2, ActionAllow) /\
  ask down (b_tracker s2) (b_pg s2) = (s3, ActionAllow).
Proof. repeat split; vm_compute; reflexivity. Qed.

Ltac ranged := split; vm_compute; reflexivity.

Lemma three_requests : rtc step (boot 1 0) c6.
Proof.
  destruct envs as (Hup & Hdown & Hlost), all_admitted as (E1 & E2 & E3).
  apply rtc_l with c1; [exact (admit_one up (NewTracker 0) ∅ 0 0 s1 ltac:(ranged) Hup eq_refl E1)|].
  apply rtc_l with c2; [exact (admit_one down (b_tracker s1) (b_pg s1) 1 0 s2 ltac:(ranged) Hdown eq_refl E2)|].
  apply rtc_l with c3; [exact (admit_one down (b_tracker s2) (b_pg s2) 2 0 s3 ltac:(ranged) Hdown eq_refl E3)|].
  apply rtc_l with c4; [exact (record_one lost (b_tracker s3) (b_pg s3) 3 0 a1 ltac:(ranged) Hlost eq_refl eq_refl)|].
  apply rtc_l with c5; [exact (record_one lost a1.1 a1.2 2 90 a2 ltac:(ranged) Hlost eq_refl eq_refl)|].
  apply rtc_l with c6; [exact (record_one down a2.1 a2.2 1 180 a3 ltac:(ranged) Hdown eq_refl eq_refl)|]. apply rtc_refl.
Qed.

Lemma move_on v at_ lab' t pg n u x : in_range "acme" ResetHourly lab lims 1 3 90 pg -> WindowLabel ResetHourly at_ = Ok lab' -> lab' <> lab ->
  TenantUsed v "acme" ResetHourly at_ t pg = x ->
  step (mkCluster [mkReplica t n None] pg u) (mkCluster [mkReplica x.1.1 n (Some (entryFor t "acme" ResetHourly))] x.1.2 u).
Proof.
  intros Hr Hl Hne E. split; [exact Hr|]. destruct x as [[t' pg'] r].
  exact (step_next_read _ _ _ _ _ _ _ (mkCluster [mkReplica t n None] pg u) 0 (mkReplica t n None) v at_ lab' t' pg' r eq_refl Hl Hne E).
Qed.

Definition lab7 : string := match WindowLabel ResetHourly (noon + Hour) with Ok l => l | Err _ => "" end.

Lemma next_hour : rtc step (boot 1 0) c7.
Proof.
  eapply rtc_r; [exact three_requests|]. refine (move_on up (noon + Hour) lab7 a3.1 a3.2 0 270 n7 _ _ _ eq_refl).
  - ranged.
  - vm_compute. reflexivity.
  - vm_compute. discriminate.
Qed.


(** Requests in flight are outside the slice: a single replica passes the limit
    by more than its slice. *)
Example in_flight_past_slice : rtc step (boot 1 0) c6 /\ (recorded c6 > LTenant lims + DrawBudgetSlice (LTenant lims) 1)%Z.
Proof. split; [exact three_requests|]. vm_compute. reflexivity. Qed.

Lemma connected_admission_exact_witness :
  tenant_total (b_pg s1) ("acme", ResetHourly, lab) = 0%Z /\ consumed (entryFor (b_tracker s1) "acme" ResetHourly) = 0%Z /\
  (ActionAllow = ActionAllow <-> (0 < 100)%Z).
Proof.
  refine (connected_admission_exact up "acme" ResetHourly lab noon "alice" (NewTracker 0) ∅ lims s1 ActionAllow
            eq_refl eq_refl _ _ eq_refl _ _ _ _ _ _); try (vm_compute; reflexivity); try done; cbn; unfold exact_max; lia.
Defined.

End Demo.
