(* ===== verification/StorageQuota.v ===== *)
(** * Storage byte counters ([gateway/quota/storagequota])

    The counter of the bytes a tenant has reserved and committed: the interface
    uploads and checkpoints use ([Counter]), its in-memory and Redis versions,
    the failover to a sum read from Postgres, and the rebuild after a Redis
    outage.  [CounterLaws] is what a reachable counter promises. *)

From S2P Require Import Prelude Floats Redis TreeBudget.

(** ** The interface ([storagequota.go]: [Counter]) *)

Inductive CounterError := ErrQuotaExceeded | ErrUnavailable | ErrInfra.
#[export] Instance CounterError_eq_dec : EqDecision CounterError.
Proof. solve_decision. Defined.

(** The operations on a counter in state [S]; [E] is what a call meets (the
    network, the fallback's database). *)
Class Counter (S E : Type) := {
  Reserve : E -> string -> Z -> Z -> S -> S * (Z * option CounterError);
  Adjust : E -> string -> Z -> S -> S * option CounterError;
  Used : E -> string -> S -> Z * option CounterError;
  Set_ : E -> string -> Z -> S -> S * option CounterError }.

(** ** In memory *)

Abbreviation Memory := (gmap string Z).

Definition bytes (m : Memory) (tenantID : string) : Z := default 0%Z (m !! tenantID).

Definition MemoryReserve (tenantID : string) (incoming limit : Z) (m : Memory) : Memory * (Z * option CounterError) :=
  let prior := bytes m tenantID in
  if (limit <? wrap64 (prior + incoming))%Z then (m, (prior, Some ErrQuotaExceeded))
  else (<[tenantID := wrap64 (prior + incoming)]> m, (prior, None)).

Definition MemoryAdjust (tenantID : string) (delta : Z) (m : Memory) : Memory :=
  let next := wrap64 (bytes m tenantID + delta) in
  <[tenantID := if (next <? 0)%Z then 0%Z else next]> m.

Definition MemorySet (tenantID : string) (value : Z) (m : Memory) : Memory :=
  <[tenantID := if (value <? 0)%Z then 0%Z else value]> m.

#[export] Instance memory_counter : Counter Memory () := {
  Reserve _ := MemoryReserve;
  Adjust _ tenantID delta m := (MemoryAdjust tenantID delta m, None);
  Used _ tenantID m := (bytes m tenantID, None);
  Set_ _ tenantID value m := (MemorySet tenantID value m, None) }.

(** ** In Redis ([redisstore.go]) *)

Definition keyPrefix : string := "sq:".
Definition sq_key (tenantID : string) : string := keyPrefix +:+ tenantID.

Section redis.
Context {Σ : Type} `{RedisServer Σ}.

Definition reserveScript (k : string) (incoming limit : Z) : Script Σ (list Z) :=
  used <~ read_number k;~
  (if (lua_num limit <? lua_num (used + lua_num incoming))%Z then sret [0%Z; used]
   else (fun σ => INCRBY σ k (lua_num incoming));~~ sret [1%Z; used]).

Definition adjustScript (k : string) (delta : Z) : Script Σ Z :=
  used <~ read_number k;~
  let v := lua_num (used + lua_num delta) in
  let v := if (v <? 0)%Z then 0%Z else v in
  swrite (fun σ => SET σ k (string_of_Z v));~~ sret v.

Definition RedisReserve (tr : transport) (tenantID : string) (incoming limit : Z) (σ : Σ) : Σ * (Z * option CounterError) :=
  match run_script tr (reserveScript (sq_key tenantID) incoming limit) σ with
  | (σ, Some [ok; priorUsed]) => (σ, (priorUsed, if (ok =? 0)%Z then Some ErrQuotaExceeded else None))
  | (σ, _) => (σ, (0%Z, Some ErrInfra))
  end.

Definition RedisAdjust (tr : transport) (tenantID : string) (delta : Z) (σ : Σ) : Σ * option CounterError :=
  match run_script tr (adjustScript (sq_key tenantID) delta) σ with
  | (σ, Some _) => (σ, None)
  | (σ, None) => (σ, Some ErrInfra)
  end.

Definition RedisUsed (tr : transport) (tenantID : string) (σ : Σ) : Z * option CounterError :=
  match tr with
  | Delivered => match GET σ (sq_key tenantID) with
                 | None => (0%Z, None)
                 | Some v => match Z_of_string v with
                             | Some n => if (min_int64 <=? n)%Z && (n <=? max_int64)%Z then (n, None) else (0%Z, Some ErrInfra)
                             | None => (0%Z, Some ErrInfra)
                             end
                 end
  | _ => (0%Z, Some ErrInfra)
  end.

Definition RedisSet (tr : transport) (tenantID : string) (value : Z) (σ : Σ) : Σ * option CounterError :=
  let value := if (value <? 0)%Z then 0%Z else value in
  match run_script tr (swrite (fun σ => SET σ (sq_key tenantID) (string_of_Z value))) σ with
  | (σ, Some _) => (σ, None)
  | (σ, None) => (σ, Some ErrInfra)
  end.

#[export] Instance redis_counter : Counter Σ transport := {
  Reserve := RedisReserve; Adjust := RedisAdjust; Used := RedisUsed; Set_ := RedisSet }.
End redis.

(** ** Failing over to Postgres ([failover.go]) *)

(** A read of the durable byte total; [None] is an error. *)
Abbreviation LiveBytes := (option Z) (only parsing).

Definition isDomainOutcome (err : option CounterError) : bool :=
  match err with None | Some ErrQuotaExceeded => true | _ => false end.

(** [f_sizeOf]: [None] when no source is configured. *)
Record failover_env (E : Type) := mkFailover { f_primary : E; f_sizeOf : option LiveBytes }.
Arguments mkFailover {E}.
Arguments f_primary {E}.
Arguments f_sizeOf {E}.

Section failover.
Context {S E : Type} `{Counter S E}.

Definition FailoverReserve (v : failover_env E) (tenantID : string) (incoming limit : Z) (s : S) : S * (Z * option CounterError) :=
  let '(s, (prior, err)) := Reserve (f_primary v) tenantID incoming limit s in
  if isDomainOutcome err then (s, (prior, err))
  else match f_sizeOf v with
       | None => (s, (0%Z, err))
       | Some None => (s, (0%Z, Some ErrUnavailable))
       | Some (Some sum) => (s, (sum, if (limit <? wrap64 (sum + incoming))%Z then Some ErrQuotaExceeded else None))
       end.

Definition FailoverAdjust (v : failover_env E) (tenantID : string) (delta : Z) (s : S) : S * option CounterError :=
  ((Adjust (f_primary v) tenantID delta s).1, None).

Definition FailoverUsed (v : failover_env E) (tenantID : string) (s : S) : Z * option CounterError :=
  match Used (f_primary v) tenantID s with
  | (u, None) => (u, None)
  | (_, err) => match f_sizeOf v with
                | None => (0%Z, err)
                | Some None => (0%Z, Some ErrUnavailable)
                | Some (Some sum) => (sum, None)
                end
  end.

#[export] Instance failover_counter : Counter S (failover_env E) := {
  Reserve := FailoverReserve; Adjust := FailoverAdjust; Used := FailoverUsed;
  Set_ v := Set_ (f_primary v) }.

(** ** Rebuilding ([storagequota.go]: [Rehydrate]; [recovery.go]) *)

(** The two reads of [ReservationAwareLiveBytes]. *)
Definition ReservationAwareLiveBytes (live reserved : option LiveBytes) : option LiveBytes :=
  match live, reserved with
  | None, _ => reserved
  | _, None => live
  | Some live, Some reserved =>
      Some (match live, reserved with Some l, Some r => Some (wrap64 (l + r)) | _, _ => None end)
  end.

(** One tenant of [Rehydrate]: the sum read and what the write meets. *)
Definition rehydrate_one (tenantID : string) (sum : LiveBytes) (e : E) (s : S) : S * bool :=
  if is_empty tenantID then (s, true)
  else match sum with
       | None => (s, false)
       | Some sum => let '(s, err) := Set_ e tenantID sum s in (s, match err with None => true | _ => false end)
       end.

Fixpoint Rehydrate (tenants : list (string * (LiveBytes * E))) (s : S) : S * bool :=
  match tenants with
  | [] => (s, true)
  | (tenantID, (sum, e)) :: tenants =>
      let '(s, ok) := rehydrate_one tenantID sum e s in
      let '(s, rest) := Rehydrate tenants s in (s, ok && rest)
  end.

(** [tick]: the new reachability; [None] for [tenants] is a failed listing. *)
Definition tick (wasReachable now : bool) (tenants : option (list (string * (LiveBytes * E)))) (s : S) : S * bool :=
  (if now && negb wasReachable then match tenants with Some l => (Rehydrate l s).1 | None => s end else s, now).
End failover.

(** ** What a reachable counter promises *)

(** [count] is the byte total a tenant is charged with in a well-formed state;
    within the integers a Lua number holds, the operations are those of a
    non-negative total per tenant. *)
Class CounterLaws (S E : Type) `{Counter S E} := {
  count : S -> string -> Z;
  counter_wf : S -> Prop;
  reachable : E -> Prop;
  count_range s t : counter_wf s -> (0 <= count s t < exact_max)%Z;
  reserve_law e t incoming limit s :
    counter_wf s -> reachable e -> (0 <= incoming)%Z -> (count s t + incoming < exact_max)%Z -> (0 < limit < exact_max)%Z ->
    let '(s', r) := Reserve e t incoming limit s in
    counter_wf s' /\
    if (count s t + incoming <=? limit)%Z
    then r = (count s t, None) /\ forall t', count s' t' = if decide (t' = t) then (count s t + incoming)%Z else count s t'
    else r = (count s t, Some ErrQuotaExceeded) /\ forall t', count s' t' = count s t';
  adjust_law e t delta s :
    counter_wf s -> reachable e -> (- exact_max < delta < exact_max)%Z -> (count s t + delta < exact_max)%Z ->
    let '(s', err) := Adjust e t delta s in
    counter_wf s' /\ err = None /\
    forall t', count s' t' = if decide (t' = t) then Z.max 0 (count s t + delta) else count s t';
  used_law e t s : counter_wf s -> reachable e -> Used e t s = (count s t, None);
  set_law e t v s : counter_wf s -> reachable e -> (v < exact_max)%Z ->
    let '(s', err) := Set_ e t v s in
    counter_wf s' /\ err = None /\ forall t', count s' t' = if decide (t' = t) then Z.max 0 v else count s t' }.

Lemma clamp_max v : (if (v <? 0)%Z then 0%Z else v) = Z.max 0 v.
Proof. destruct (Z.ltb_spec v 0); lia. Qed.

(** *** Memory *)

Definition memory_wf (m : Memory) : Prop := forall t, (0 <= bytes m t < exact_max)%Z.

Lemma bytes_insert m t v t' : bytes (<[t := v]> m) t' = if decide (t' = t) then v else bytes m t'.
Proof. unfold bytes. case_decide; subst; [by rewrite lookup_insert_eq|by rewrite lookup_insert_ne]. Qed.

Lemma memory_wf_insert m t v : memory_wf m -> (0 <= v < exact_max)%Z -> memory_wf (<[t := v]> m).
Proof. intros Hm Hv t'. rewrite bytes_insert. case_decide; auto. Qed.

#[export, refine] Instance memory_laws : CounterLaws Memory () := {|
  count := bytes; counter_wf := memory_wf; reachable _ := True |}.
Proof.
  - intros s t Hs. apply Hs.
  - intros [] t incoming limit s Hs _ Hi Hb Hl. cbn. unfold MemoryReserve. pose proof (Hs t).
    rewrite wrap64_id by (unfold_int64; unfold exact_max in *; lia).
    destruct (Z.leb_spec (bytes s t + incoming) limit).
    + rewrite (proj2 (Z.ltb_ge limit _)) by done. split; [apply memory_wf_insert; [done|lia]|]. split; [done|]. intros. apply bytes_insert.
    + rewrite (proj2 (Z.ltb_lt limit _)) by done. auto.
  - intros [] t delta s Hs _ Hd Hb. cbn. unfold MemoryAdjust. pose proof (Hs t).
    rewrite wrap64_id by (unfold_int64; unfold exact_max in *; lia). rewrite clamp_max.
    split; [apply memory_wf_insert; [done|unfold exact_max in *; lia]|]. split; [done|]. intros. apply bytes_insert.
  - done.
  - intros [] t v s Hs _ Hv. cbn. unfold MemorySet. rewrite clamp_max.
    split; [apply memory_wf_insert; [done|unfold exact_max in *; lia]|]. split; [done|]. intros. apply bytes_insert.
Defined.

(** *** Redis *)

Section redis_laws.
Context {Σ : Type} `{RedisServer Σ}.

Definition redis_count (σ : Σ) (t : string) : Z :=
  match GET σ (sq_key t) with Some v => default 0%Z (Z_of_string v) | None => 0%Z end.

(** Every tenant's key holds a number a Lua script reads exactly. *)
Definition redis_wf (σ : Σ) : Prop := forall t, counter σ (sq_key t) (redis_count σ t) /\ (0 <= redis_count σ t < exact_max)%Z.

Lemma exact_lua z : (- exact_max <= z <= exact_max)%Z -> lua_exact z.
Proof. unfold exact_max, lua_exact. lia. Qed.

Lemma sq_key_inj t t' : sq_key t = sq_key t' -> t = t'.
Proof. unfold sq_key, keyPrefix. intros E. cbn in E. by injection E. Qed.

Lemma count_counter σ t n : counter σ (sq_key t) n -> redis_count σ t = n.
Proof.
  intros [[E ->]|[ttl E]]; unfold redis_count; [by rewrite (GET_absent _ _ E)|].
  by rewrite (GET_string _ _ _ _ E), Z_of_string_of_Z.
Qed.

(** A write of one tenant's key. *)
Lemma redis_write σ σ' t v : redis_wf σ -> (0 <= v < exact_max)%Z -> counter σ' (sq_key t) v -> same_outside [sq_key t] σ σ' ->
  redis_wf σ' /\ forall t', redis_count σ' t' = if decide (t' = t) then v else redis_count σ t'.
Proof.
  intros Hs Hv Hc Ho.
  assert (forall t', t' <> t -> counter σ' (sq_key t') (redis_count σ t')) as Hne.
  { intros t' Hn. eapply counter_ext; [|apply Hs]. apply Ho. rewrite list_elem_of_singleton. by intros ?%sq_key_inj. }
  assert (forall t', redis_count σ' t' = if decide (t' = t) then v else redis_count σ t') as Hcount.
  { intros t'. case_decide as Ht; [subst; by apply count_counter|]. by apply count_counter, Hne. }
  split; [|done]. intros t'. rewrite Hcount. case_decide as Ht; [by subst|]. split; [by apply Hne|apply Hs].
Qed.

Lemma set_counter σ k v : counter (SET σ k (string_of_Z v)) k v /\ same_outside [k] σ (SET σ k (string_of_Z v)).
Proof.
  split.
  - right. exists None. by rewrite SET_law, upd_eq.
  - intros k' Hk'. rewrite SET_law. apply upd_ne. set_solver.
Qed.

Lemma redis_set σ t v : redis_wf σ -> (0 <= v < exact_max)%Z ->
  redis_wf (SET σ (sq_key t) (string_of_Z v)) /\
  forall t', redis_count (SET σ (sq_key t) (string_of_Z v)) t' = if decide (t' = t) then v else redis_count σ t'.
Proof. intros Hs Hv. destruct (set_counter σ (sq_key t) v). by apply redis_write. Qed.

Lemma read_count σ t : redis_wf σ -> read_number (sq_key t) σ = (σ, Some (redis_count σ t)).
Proof. intros Hs. destruct (Hs t). apply read_number_counter; [done|]. apply exact_lua. unfold exact_max in *. lia. Qed.

#[export, refine] Instance redis_laws : CounterLaws Σ transport := {|
  count := redis_count; counter_wf := redis_wf; reachable tr := tr = Delivered |}.
Proof.
  - intros σ t Hs. apply Hs.
  - intros tr t incoming limit σ Hs -> Hi Hb Hl. cbn. unfold RedisReserve, reserveScript. cbn [run_script].
    unfold sbind. rewrite (read_count _ _ Hs). destruct (Hs t) as [Hc Hr].
    rewrite (lua_num_exact incoming), (lua_num_exact limit), (lua_num_exact (_ + incoming)) by (unfold lua_exact, exact_max in *; lia).
    destruct (Z.leb_spec (redis_count σ t + incoming) limit).
    + rewrite (proj2 (Z.ltb_ge limit _)) by done.
      destruct (incrby_counter σ (sq_key t) (redis_count σ t) incoming Hc) as (σ' & ttl & -> & Ho & He & _);
        [unfold_int64; unfold exact_max in *; lia|]. cbn.
      destruct (redis_write σ σ' t (redis_count σ t + incoming) Hs) as [Hw Hn]; [lia|right; by exists ttl|done|]. auto.
    + rewrite (proj2 (Z.ltb_lt limit _)) by done. cbn. auto.
  - intros tr t delta σ Hs -> Hd Hb. cbn. unfold RedisAdjust, adjustScript. cbn [run_script].
    unfold sbind. rewrite (read_count _ _ Hs). destruct (Hs t) as [Hc Hr].
    rewrite (lua_num_exact delta), (lua_num_exact (_ + delta)) by (unfold lua_exact, exact_max in *; lia).
    rewrite clamp_max. cbn. pose proof (redis_set σ t (Z.max 0 (redis_count σ t + delta)) Hs). unfold exact_max in *. split_and!; try done; apply H0; lia.
  - intros tr t σ Hs ->. cbn. unfold RedisUsed. destruct (Hs t) as [[[E Hz]|[ttl E]] Hr].
    + by rewrite Hz, (GET_absent _ _ E).
    + rewrite (GET_string _ _ _ _ E), Z_of_string_of_Z.
      by rewrite (proj2 (Z.leb_le min_int64 _)), (proj2 (Z.leb_le _ max_int64)) by (unfold_int64; unfold exact_max in *; lia).
  - intros tr t v σ Hs -> Hv. cbn. unfold RedisSet. cbn. rewrite clamp_max. pose proof (redis_set σ t (Z.max 0 v) Hs). unfold exact_max in *. split_and!; try done; apply H0; lia.
Defined.
End redis_laws.

(** *** Failover *)

(** While the primary is reachable the failover is the primary. *)
#[export, refine] Instance failover_laws {S E} `{CounterLaws S E} : CounterLaws S (failover_env E) := {|
  count := count; counter_wf := counter_wf; reachable v := reachable (f_primary v) |}.
Proof.
  - apply count_range.
  - intros v t incoming limit s Hs Hv Hi Hb Hl. pose proof (reserve_law (f_primary v) t incoming limit s Hs Hv Hi Hb Hl) as Hr.
    cbn. unfold FailoverReserve. destruct (Reserve _ _ _ _ _) as [s' [prior err]]. destruct Hr as [Hw Hr]. revert Hr.
    case_match; intros [[= -> ->] Hc]; cbn; auto.
  - intros v t delta s Hs Hv Hd Hb. pose proof (adjust_law (f_primary v) t delta s Hs Hv Hd Hb) as Hr.
    cbn. unfold FailoverAdjust. destruct (Adjust _ _ _ _) as [s' err]. cbn. naive_solver.
  - intros v t s Hs Hv. cbn. unfold FailoverUsed. by rewrite (used_law _ _ _ Hs Hv).
  - intros v t x s Hs Hv Hx. exact (set_law (f_primary v) t x s Hs Hv Hx).
Defined.

(** ** What a counter promises when calls are lost *)

(** The total of one tenant moved by [d]. *)
Definition moved (t : string) (d : Z) (f f' : string -> Z) : Prop :=
  forall t', f' t' = if decide (t' = t) then (f t' + d)%Z else f t'.

(** [firsthand e]: whatever is granted is granted by the counter itself.  A call
    then has its effect or none, and a reservation that is granted was made. *)
Class LostCalls (S E : Type) `{CounterLaws S E} := {
  firsthand : E -> Prop;
  reserve_lost e t incoming limit s :
    counter_wf s -> firsthand e -> (0 <= incoming)%Z -> (count s t + incoming < exact_max)%Z -> (0 < limit < exact_max)%Z ->
    let '(s', r) := Reserve e t incoming limit s in
    counter_wf s' /\ exists d, moved t d (count s) (count s') /\
      (d = 0%Z \/ d = incoming /\ (count s t + incoming <= limit)%Z) /\ (r.2 = None -> d = incoming /\ r.1 = count s t);
  adjust_lost e t delta s :
    counter_wf s -> firsthand e -> (- exact_max < delta < exact_max)%Z -> (0 <= count s t + delta < exact_max)%Z ->
    let '(s', _) := Adjust e t delta s in
    counter_wf s' /\ exists d, moved t d (count s) (count s') /\ (d = 0%Z \/ d = delta) }.

Section answered.
Context {S E : Type} `{CounterLaws S E}.

Lemma moved_0 t (f f' : string -> Z) : (forall t', f' t' = f t') -> moved t 0 f f'.
Proof using Type. intros Hf t'. rewrite Hf. case_decide; lia. Qed.

Lemma reserve_answered e t incoming limit s :
  counter_wf s -> reachable e -> (0 <= incoming)%Z -> (count s t + incoming < exact_max)%Z -> (0 < limit < exact_max)%Z ->
  let '(s', r) := Reserve e t incoming limit s in
  counter_wf s' /\ exists d, moved t d (count s) (count s') /\
    (d = 0%Z \/ d = incoming /\ (count s t + incoming <= limit)%Z) /\ (r.2 = None -> d = incoming /\ r.1 = count s t) /\
    (r.2 <> None -> d = 0%Z).
Proof using Type.
  intros Hs He Hi Hb Hl. pose proof (reserve_law e t incoming limit s Hs He Hi Hb Hl) as Hr.
  destruct (Reserve e t incoming limit s) as [s' r]. destruct Hr as [Hw Hr]. split; [done|].
  destruct (Z.leb_spec (count s t + incoming) limit); destruct Hr as [-> Hn].
  - exists incoming. split_and!; auto; [|done]. intros t'. rewrite Hn. by case_decide; subst.
  - exists 0%Z. split_and!; auto using moved_0; done.
Qed.

Lemma adjust_answered e t delta s :
  counter_wf s -> reachable e -> (- exact_max < delta < exact_max)%Z -> (0 <= count s t + delta < exact_max)%Z ->
  let '(s', _) := Adjust e t delta s in counter_wf s' /\ moved t delta (count s) (count s').
Proof using Type.
  intros Hs He Hd Hb. pose proof (adjust_law e t delta s Hs He Hd ltac:(lia)) as Hr.
  destruct (Adjust e t delta s) as [s' err]. destruct Hr as (Hw & _ & Hn). split; [done|].
  intros t'. rewrite Hn. case_decide; [subst; lia|done].
Qed.
End answered.

#[export, refine] Instance memory_lost : LostCalls Memory () := {| firsthand _ := True |}.
Proof.
  - intros e t incoming limit s Hs _ Hi Hb Hl. pose proof (reserve_answered e t incoming limit s Hs I Hi Hb Hl) as Hr.
    destruct (Reserve _ _ _ _ _). destruct Hr as (? & d & ? & ? & ? & ?). split; [done|]. by exists d.
  - intros e t delta s Hs _ Hd Hb. pose proof (adjust_answered e t delta s Hs I Hd Hb) as Hr. destruct (Adjust _ _ _ _). destruct Hr. eauto 6.
Defined.

Section redis_lost.
Context {Σ : Type} `{RedisServer Σ}.

(** A call whose reply is lost did what it would have done. *)
Lemma reserve_reply_lost t incoming limit (σ : Σ) :
  RedisReserve ReplyLost t incoming limit σ = ((RedisReserve Delivered t incoming limit σ).1, (0%Z, Some ErrInfra)).
Proof.
  unfold RedisReserve. cbn [run_script]. destruct (reserveScript _ _ _ σ) as [σ' [[|a [|b [|]]]|]]; reflexivity.
Qed.

Lemma adjust_reply_lost t delta (σ : Σ) : (RedisAdjust ReplyLost t delta σ).1 = (RedisAdjust Delivered t delta σ).1.
Proof. unfold RedisAdjust. cbn [run_script]. by destruct (adjustScript _ _ σ) as [σ' [|]]. Qed.

(** Every call to Redis, lost or not. *)
#[export, refine] Instance redis_lost : LostCalls Σ transport := {| firsthand _ := True |}.
Proof.
  - intros tr t incoming limit σ Hs _ Hi Hb Hl. pose proof (reserve_answered (Delivered : transport) t incoming limit σ Hs eq_refl Hi Hb Hl) as Hr.
    change (Reserve (Delivered : transport) t incoming limit σ) with (RedisReserve Delivered t incoming limit σ) in Hr.
    change (Reserve tr t incoming limit σ) with (RedisReserve tr t incoming limit σ). destruct tr.
    + destruct (RedisReserve _ _ _ _ _). destruct Hr as (? & d & ? & ? & ? & ?). split; [done|]. by exists d.
    + rewrite reserve_reply_lost. destruct (RedisReserve _ _ _ _ _). destruct Hr as (? & d & ? & ? & ? & ?). split; [done|]. by exists d.
    + cbn. split; [done|]. exists 0%Z. split_and!; auto using moved_0; done.
  - intros tr t delta σ Hs _ Hd Hb. pose proof (adjust_answered (Delivered : transport) t delta σ Hs eq_refl Hd Hb) as Hr.
    change (Adjust (Delivered : transport) t delta σ) with (RedisAdjust Delivered t delta σ) in Hr.
    change (Adjust tr t delta σ) with (RedisAdjust tr t delta σ). pose proof (adjust_reply_lost t delta σ) as Hl. destruct tr.
    + destruct (RedisAdjust _ _ _ _). destruct Hr. eauto 6.
    + destruct (RedisAdjust ReplyLost _ _ _), (RedisAdjust Delivered _ _ _). cbn in Hl. subst. destruct Hr. eauto 6.
    + cbn. split; [done|]. exists 0%Z. auto using moved_0.
Defined.
End redis_lost.

(** The failover, as long as no reservation is granted from Postgres: none is
    when the primary answers, when there is no source and when the source fails. *)
#[export, refine] Instance failover_lost {S E} `{LostCalls S E} : LostCalls S (failover_env E) := {|
  firsthand v := firsthand (f_primary v) /\ (reachable (f_primary v) \/ f_sizeOf v = None \/ f_sizeOf v = Some None) |}.
Proof.
  - intros v t incoming limit s Hs [Hv Hor] Hi Hb Hl. destruct Hor as [Hrc|Hor].
    + pose proof (reserve_answered v t incoming limit s Hs Hrc Hi Hb Hl) as Hr. destruct (Reserve v _ _ _ _). destruct Hr as (? & d & ? & ? & ? & ?). split; [done|]. by exists d.
    + pose proof (reserve_lost (f_primary v) t incoming limit s Hs Hv Hi Hb Hl) as Hr.
      change (Reserve v t incoming limit s) with (FailoverReserve v t incoming limit s). unfold FailoverReserve.
      destruct (Reserve (f_primary v) _ _ _ _) as [s' [prior err]]. destruct Hr as (Hw & d & Hm & Hd & Hok).
      destruct (isDomainOutcome err) eqn:Hdom; [by eauto|].
      assert (err <> None) as Hne by (by intros ->).
      destruct Hor as [-> | ->]; (split; [done|]; exists d; split_and!; auto; done).
  - intros v t delta s Hs [Hv _] Hd Hb. pose proof (adjust_lost (f_primary v) t delta s Hs Hv Hd Hb) as Hr.
    change (Adjust v t delta s) with (FailoverAdjust v t delta s). unfold FailoverAdjust. by destruct (Adjust (f_primary v) _ _ _).
Defined.
