(* ===== verification/Uploads.v ===== *)
(** * Uploads ([gateway/sessionserver/upload.go], [upload_limits.go])

    The upload pipeline as it changes state: the concurrency and size limits of
    one replica, the reservation of storage bytes, the reconcile against the
    bytes written, and the unwinding of a rejected upload.  Each call to the
    shared counter is a step of its own, so uploads interleave between them.
    Tracing, metrics, audit rows and the rendering of responses are left out;
    a response is its error. *)

From S2P Require Import Prelude Floats StateMachine SessionState SessionApi Redis StorageQuota.

(** ** Limits ([upload_limits.go]) *)

Definition scopeUploadSession : string := "upload_session".
Definition scopeUploadGlobal : string := "upload_global".

Record uploadLimiter := mkLimiter {
  maxConcurrentPerSession : Z; maxConcurrentGlobal : Z; maxBytesPerSession : Z;
  sessionInflight : gmap string Z; globalInflight : Z; sessionBytes : gmap string Z }.

(** A nil limiter admits everything. *)
Definition newUploadLimiter (maxPerSession maxGlobal maxBytes : Z) : option uploadLimiter :=
  if (maxPerSession <=? 0)%Z && (maxGlobal <=? 0)%Z && (maxBytes <=? 0)%Z then None
  else Some (mkLimiter maxPerSession maxGlobal maxBytes ∅ 0 ∅).

Definition inflight_of (l : uploadLimiter) (sid : string) : Z := default 0%Z (sessionInflight l !! sid).
Definition bytes_of (l : uploadLimiter) (sid : string) : Z := default 0%Z (sessionBytes l !! sid).

Definition acquireSlot (sid : string) (l : option uploadLimiter) : option uploadLimiter * result string () :=
  match l with
  | None => (None, Ok ())
  | Some l =>
      if (0 <? maxConcurrentPerSession l)%Z && (maxConcurrentPerSession l <=? inflight_of l sid)%Z then (Some l, Err scopeUploadSession)
      else if (0 <? maxConcurrentGlobal l)%Z && (maxConcurrentGlobal l <=? globalInflight l)%Z then (Some l, Err scopeUploadGlobal)
      else (Some (mkLimiter (maxConcurrentPerSession l) (maxConcurrentGlobal l) (maxBytesPerSession l)
                    (<[sid := wrap64 (inflight_of l sid + 1)]> (sessionInflight l)) (wrap64 (globalInflight l + 1)) (sessionBytes l)), Ok ())
  end.

(** The function [acquireSlot] returns; the handler defers it, so it runs once. *)
Definition releaseSlot (sid : string) (l : option uploadLimiter) : option uploadLimiter :=
  (fun l =>
     let n := wrap64 (inflight_of l sid - 1) in
     mkLimiter (maxConcurrentPerSession l) (maxConcurrentGlobal l) (maxBytesPerSession l)
       (if (n <=? 0)%Z then delete sid (sessionInflight l) else <[sid := n]> (sessionInflight l))
       (if (0 <? globalInflight l)%Z then (globalInflight l - 1)%Z else globalInflight l) (sessionBytes l)) <$> l.

(** The current total and the limit, when [incoming] more bytes pass it. *)
Definition wouldExceedBytes (sid : string) (incoming : Z) (l : option uploadLimiter) : option (Z * Z) :=
  match l with
  | None => None
  | Some l => if (maxBytesPerSession l <=? 0)%Z || (incoming <=? 0)%Z then None
              else if (maxBytesPerSession l <? wrap64 (bytes_of l sid + incoming))%Z then Some (bytes_of l sid, maxBytesPerSession l)
              else None
  end.

Definition commitBytes (sid : string) (n : Z) (l : option uploadLimiter) : option uploadLimiter * bool :=
  match l with
  | None => (None, true)
  | Some l =>
      if (maxBytesPerSession l <=? 0)%Z || (n <=? 0)%Z then (Some l, true)
      else let proposed := wrap64 (bytes_of l sid + n) in
           if (maxBytesPerSession l <? proposed)%Z then (Some l, false)
           else (Some (mkLimiter (maxConcurrentPerSession l) (maxConcurrentGlobal l) (maxBytesPerSession l)
                         (sessionInflight l) (globalInflight l) (<[sid := proposed]> (sessionBytes l))), true)
  end.

Definition closeSession (sid : string) (l : option uploadLimiter) : option uploadLimiter :=
  (fun l => mkLimiter (maxConcurrentPerSession l) (maxConcurrentGlobal l) (maxBytesPerSession l)
              (sessionInflight l) (globalInflight l) (delete sid (sessionBytes l))) <$> l.

(** ** The pipeline ([upload.go]) *)

Definition UploadMaxBodyBytes : Z := (64 * 1024 * 1024)%Z.

Inductive PutError := PutAborted | PutTooLarge | PutConflict | PutCrossTenant | PutClassification (mismatch : bool) | PutDownstream.

Inductive UploadError :=
| BlobstoreUnavailable | SubsystemUnavailable
| SessionNotFound | LookupFailed | TokenRejected | PreconditionRejected (e : ApiError)
| RateLimited (scope : string) | SessionBytesExceeded
| QuotaLookupFailed | LengthRequired | StorageQuotaExceeded (current : Z) | StorageUnavailable | ReservationFailed
| PutFailed (e : PutError) | StreamPastQuota | HashMismatch | ChannelClosed.

Record quotaReservation := mkReservation { reserved : Z; headroom : Z }.

Inductive TenantLookup := TenantMissing | TenantFault | TenantFound (storageQuotaBytes : Z).

Inductive RowLookup := RowFound (s : State) | RowMissing | RowFault.

Section pipeline.
Context {S E : Type} `{Counter S E}.

(** [wired]: a counter and a tenant store are configured. *)
Definition reserveStorageQuota (wired : bool) (tenant : TenantLookup) (contentLength : Z) (e : E) (tenantID : string) (c : S) :
    S * result UploadError (option quotaReservation) :=
  if negb wired then (c, Ok None)
  else match tenant with
       | TenantMissing => (c, Ok None)
       | TenantFault => (c, Err QuotaLookupFailed)
       | TenantFound limit =>
           if (limit <=? 0)%Z then (c, Ok None)
           else if (contentLength <? 0)%Z then (c, Err LengthRequired)
           else match Reserve e tenantID contentLength limit c with
                | (c, (priorUsed, None)) => (c, Ok (Some (mkReservation contentLength (wrap64 (limit - priorUsed)))))
                | (c, (priorUsed, Some ErrQuotaExceeded)) => (c, Err (StorageQuotaExceeded priorUsed))
                | (c, (_, Some ErrUnavailable)) => (c, Err StorageUnavailable)
                | (c, (_, Some ErrInfra)) => (c, Err ReservationFailed)
                end
       end.

(** What one request meets before its body is read. *)
Record UploadRequest := mkUploadRequest {
  ur_blobs : bool; ur_subsystem : bool; ur_row : RowLookup; ur_token : bool; ur_length : Z; ur_wired : bool; ur_tenant : TenantLookup }.

Definition uploadAllowed (s : State) : result ApiError () := Validate (mkRequest EndpointUpload s ∅).

Definition admitUpload (r : UploadRequest) : result UploadError () :=
  match ur_row r with
  | RowMissing => Err SessionNotFound
  | RowFault => Err LookupFailed
  | RowFound s => if negb (ur_token r) then Err TokenRejected
                  else match uploadAllowed s with Ok _ => Ok () | Err e => Err (PreconditionRejected e) end
  end.

(** [runUpload] up to the reservation.  A rejection after the slot was taken
    releases it on the way out. *)
Definition beginUpload (r : UploadRequest) (e : E) (tenantID sid : string) (l : option uploadLimiter) (c : S) :
    option uploadLimiter * S * result UploadError (option quotaReservation) :=
  if negb (ur_blobs r) then (l, c, Err BlobstoreUnavailable)
  else if negb (ur_subsystem r) then (l, c, Err SubsystemUnavailable)
  else match admitUpload r with
       | Err err => (l, c, Err err)
       | Ok _ =>
           match acquireSlot sid l with
           | (l, Err scope) => (l, c, Err (RateLimited scope))
           | (l, Ok _) =>
               match wouldExceedBytes sid (ur_length r) l with
               | Some _ => (releaseSlot sid l, c, Err SessionBytesExceeded)
               | None => match reserveStorageQuota (ur_wired r) (ur_tenant r) (ur_length r) e tenantID c with
                         | (c, Err err) => (releaseSlot sid l, c, Err err)
                         | (c, Ok res) => (l, c, Ok res)
                         end
               end
           end
       end.

(** What [commitUploadBlob] does when the write failed. *)
Definition abandon (res : option quotaReservation) (e : E) (tenantID : string) (c : S) : S :=
  match res with Some r => (Adjust e tenantID (wrap64 (- reserved r)) c).1 | None => c end.

(** [finalizeUpload] up to the reconcile, for a body of [n] bytes. *)
Definition reconcileUpload (res : option quotaReservation) (n : Z) (e : E) (tenantID : string) (c : S) : S * result UploadError () :=
  match res with
  | None => (c, Ok ())
  | Some r => if (headroom r <? n)%Z then ((Adjust e tenantID (wrap64 (- reserved r)) c).1, Err StreamPastQuota)
              else ((Adjust e tenantID (wrap64 (n - reserved r)) c).1, Ok ())
  end.

(** The release of the bytes the reconcile left held. *)
Definition unwind (res : option quotaReservation) (n : Z) (e : E) (tenantID : string) (c : S) : S :=
  match res with Some _ => (Adjust e tenantID (wrap64 (- n)) c).1 | None => c end.

(** The rest of [finalizeUpload]: whether the optional hash agrees, the row read again, and the
    session's size cap.  [post]: a failed read skips the check. *)
Definition verifyUpload (hashOK : bool) (post : RowLookup) (sid : string) (res : option quotaReservation) (n : Z) (e : E)
    (tenantID : string) (l : option uploadLimiter) (c : S) : option uploadLimiter * S * result UploadError () :=
  if negb hashOK then (l, unwind res n e tenantID c, Err HashMismatch)
  else match (match post with RowFound s => uploadAllowed s | _ => Ok () end) with
       | Err _ => (l, unwind res n e tenantID c, Err ChannelClosed)
       | Ok _ => match commitBytes sid n l with
                 | (l, true) => (l, c, Ok ())
                 | (l, false) => (l, unwind res n e tenantID c, Err SessionBytesExceeded)
                 end
       end.
End pipeline.

(** ** Concurrent uploads *)

(** An upload past its admission; [up_body] is set once its bytes are written
    and reconciled. *)
Record upload := mkUpload { up_tenant : string; up_sid : string; up_res : option quotaReservation; up_body : option Z }.

(** The bytes of the tenant's counter that stand for the upload. *)
Definition held (u : upload) : Z :=
  match up_res u with None => 0%Z | Some r => match up_body u with None => reserved r | Some n => n end end.

Fixpoint heldBytes (t : string) (us : list upload) : Z :=
  match us with [] => 0%Z | u :: us => ((if decide (up_tenant u = t) then held u else 0) + heldBytes t us)%Z end.

Definition inSession (sid : string) (us : list upload) : Z := Z.of_nat (length (filter (fun u => up_sid u = sid) us)).

Lemma heldBytes_app t us us' : heldBytes t (us ++ us') = (heldBytes t us + heldBytes t us')%Z.
Proof. induction us as [|u us IH]; cbn [heldBytes app]; [lia|]. rewrite IH. lia. Qed.

Lemma heldBytes_split t us i u : us !! i = Some u ->
  heldBytes t us = ((if decide (up_tenant u = t) then held u else 0) + heldBytes t (delete i us))%Z /\
  forall u', heldBytes t (<[i := u']> us) = ((if decide (up_tenant u' = t) then held u' else 0) + heldBytes t (delete i us))%Z.
Proof.
  intros Hi. assert (i < length us) as Hlt by (by eapply lookup_lt_Some).
  rewrite delete_take_drop, heldBytes_app. split.
  - rewrite <- (take_drop_middle us i u Hi) at 1. rewrite heldBytes_app. cbn [heldBytes]. lia.
  - intros u'. rewrite insert_take_drop, heldBytes_app by done. cbn [heldBytes]. lia.
Qed.

Lemma heldBytes_nonneg t us : Forall (fun u => 0 <= held u)%Z us -> (0 <= heldBytes t us)%Z.
Proof. induction 1; cbn [heldBytes]; [lia|]. case_decide; lia. Qed.

Lemma inSession_app sid us us' : inSession sid (us ++ us') = (inSession sid us + inSession sid us')%Z.
Proof. unfold inSession. rewrite filter_app, length_app. lia. Qed.

Lemma inSession_cons sid u us : inSession sid (u :: us) = ((if decide (up_sid u = sid) then 1 else 0) + inSession sid us)%Z.
Proof. unfold inSession. rewrite filter_cons. case_decide; cbn [length]; lia. Qed.

Lemma inSession_split sid us i u : us !! i = Some u ->
  inSession sid us = ((if decide (up_sid u = sid) then 1 else 0) + inSession sid (delete i us))%Z /\
  length us = S (length (delete i us)) /\
  forall u', up_sid u' = up_sid u -> inSession sid (<[i := u']> us) = inSession sid us.
Proof.
  intros Hi. assert (i < length us) as Hlt by (by eapply lookup_lt_Some). rewrite delete_take_drop, inSession_app. split_and!.
  - rewrite <- (take_drop_middle us i u Hi) at 1. rewrite inSession_app, inSession_cons. lia.
  - rewrite <- (take_drop_middle us i u Hi) at 1. rewrite !length_app. cbn [length]. lia.
  - intros u' Hs. rewrite insert_take_drop by done. rewrite <- (take_drop_middle us i u Hi) at 3. rewrite !inSession_app, !inSession_cons, Hs. done.
Qed.

Lemma inSession_nonneg sid us : (0 <= inSession sid us <= Z.of_nat (length us))%Z.
Proof. unfold inSession. pose proof (length_filter (fun u => up_sid u = sid) us). lia. Qed.

(** *** The limiter on its own *)

(** The limiter counts the uploads [us]. *)
Record counts (ms mg mb : Z) (us : list upload) (l : uploadLimiter) : Prop := {
  ct_session_cap : maxConcurrentPerSession l = ms;
  ct_global_cap : maxConcurrentGlobal l = mg;
  ct_bytes_cap : maxBytesPerSession l = mb;
  ct_global : globalInflight l = Z.of_nat (length us);
  ct_session : forall sid, inflight_of l sid = inSession sid us;
  ct_bytes : forall sid, (0 <= bytes_of l sid /\ (0 < mb -> bytes_of l sid <= mb))%Z }.

Lemma inflight_set l sid n f sid' : sessionInflight f = (if (n <=? 0)%Z then delete sid (sessionInflight l) else <[sid := n]> (sessionInflight l)) ->
  (0 <= n)%Z -> inflight_of f sid' = if decide (sid' = sid) then n else inflight_of l sid'.
Proof.
  intros E Hn. unfold inflight_of. rewrite E. destruct (Z.leb_spec n 0); case_decide; subst;
    rewrite ?lookup_delete_eq, ?lookup_insert_eq, ?lookup_delete_ne, ?lookup_insert_ne by auto; cbn; try done; lia.
Qed.

Lemma acquire_counts ms mg mb us l u l' : counts ms mg mb us l -> (Z.of_nat (length us) < 2 ^ 62)%Z ->
  acquireSlot (up_sid u) (Some l) = (l', Ok ()) ->
  (exists l1, l' = Some l1 /\ counts ms mg mb (us ++ [u]) l1) /\ (0 < ms -> inSession (up_sid u) us < ms)%Z /\ (0 < mg -> Z.of_nat (length us) < mg)%Z.
Proof.
  intros [Cs Cg Cb Hg Hs Hb] Hlen. unfold acquireSlot. rewrite Cs, Cg, Cb, Hg, Hs. pose proof (inSession_nonneg (up_sid u) us).
  destruct ((0 <? ms)%Z && (ms <=? inSession (up_sid u) us)%Z) eqn:G1; [done|].
  destruct ((0 <? mg)%Z && (mg <=? Z.of_nat (length us))%Z) eqn:G2; [done|]. intros [= <-].
  apply andb_false_iff in G1. apply andb_false_iff in G2. rewrite Z.ltb_ge, Z.leb_gt in G1, G2. split; [|lia].
  eexists. split; [done|]. rewrite !wrap64_id by (unfold_int64; lia). constructor; cbn; auto.
  - rewrite length_app. cbn. lia.
  - intros sid. rewrite (inflight_set l (up_sid u) (inSession (up_sid u) us + 1)); [|cbn; by rewrite (proj2 (Z.leb_gt _ 0)) by lia|lia].
    rewrite inSession_app, inSession_cons, Hs. change (inSession sid []) with 0%Z. 
    destruct (decide (sid = up_sid u)) as [->|]; [rewrite decide_True by done|rewrite decide_False by auto]; lia.
Qed.

Lemma release_counts ms mg mb us i u l : counts ms mg mb us l -> (Z.of_nat (length us) < 2 ^ 62)%Z -> us !! i = Some u ->
  exists l1, releaseSlot (up_sid u) (Some l) = Some l1 /\ counts ms mg mb (delete i us) l1.
Proof.
  intros [Cs Cg Cb Hg Hs Hb] Hlen Hi. eexists. split; [done|]. cbn.
  assert (forall sid, inSession sid us = (if decide (up_sid u = sid) then 1 else 0) + inSession sid (delete i us))%Z as Hsp
    by (intros; by apply inSession_split). destruct (inSession_split "" us i u Hi) as (_ & Hl & _).
  pose proof (Hsp (up_sid u)) as Hu. rewrite decide_True in Hu by done. pose proof (inSession_nonneg (up_sid u) (delete i us)).
  pose proof (inSession_nonneg (up_sid u) us). rewrite Hs, wrap64_id by (unfold_int64; lia).
  constructor; cbn; auto.
  - rewrite Hg. destruct (Z.ltb_spec 0 (Z.of_nat (length us))); lia.
  - intros sid. rewrite (inflight_set l (up_sid u) (inSession (up_sid u) us - 1)); [|done|lia]. rewrite Hs. specialize (Hsp sid).
    destruct (decide (sid = up_sid u)) as [->|]; [rewrite decide_True in Hsp by done|rewrite decide_False in Hsp by auto]; lia.
Qed.

Lemma counts_ext ms mg mb us us' l : counts ms mg mb us l -> length us' = length us -> (forall sid, inSession sid us' = inSession sid us) ->
  counts ms mg mb us' l.
Proof. intros [] Hl Hs. constructor; auto; [by rewrite Hl|]. intros sid. by rewrite Hs. Qed.

Lemma bytes_set l f sid v sid' : sessionBytes f = <[sid := v]> (sessionBytes l) ->
  bytes_of f sid' = if decide (sid' = sid) then v else bytes_of l sid'.
Proof. intros E. unfold bytes_of. rewrite E. case_decide; subst; [by rewrite lookup_insert_eq|by rewrite lookup_insert_ne]. Qed.

Lemma commit_counts ms mg mb us l sid n l' ok : counts ms mg mb us l -> (mb <= 2 ^ 62)%Z -> (0 <= n <= UploadMaxBodyBytes)%Z ->
  commitBytes sid n (Some l) = (l', ok) -> exists l1, l' = Some l1 /\ counts ms mg mb us l1.
Proof.
  intros Hct Hmb Hn. pose proof Hct as [Cs Cg Cb Hg Hs Hb]. unfold commitBytes. rewrite Cb.
  destruct (Z.leb_spec mb 0); cbn [orb]; [intros [= <- _]; eauto|]. destruct (Z.leb_spec n 0); [intros [= <- _]; eauto|].
  pose proof (Hb sid). unfold UploadMaxBodyBytes in *. rewrite wrap64_id by (unfold_int64; lia).
  destruct (Z.ltb_spec mb (bytes_of l sid + n)); intros [= <- _]; [eauto|]. eexists. split; [done|]. constructor; cbn; auto.
  intros sid'. rewrite (bytes_set l _ sid (bytes_of l sid + n)) by done. case_decide; [lia|apply Hb].
Qed.

Lemma close_counts ms mg mb us l sid : counts ms mg mb us l -> exists l1, closeSession sid (Some l) = Some l1 /\ counts ms mg mb us l1.
Proof.
  intros [Cs Cg Cb Hg Hs Hb]. eexists. split; [done|]. constructor; cbn; auto. intros sid'. unfold bytes_of. cbn.
  destruct (decide (sid' = sid)) as [->|]; [rewrite lookup_delete_eq; cbn; lia|rewrite lookup_delete_ne by auto; apply Hb].
Qed.

Section runs.
Context {S Env : Type} `{LostCalls S Env}.

(** A replica, the shared counter, and the bytes of accepted uploads that
    were counted. *)
Record server := mkServer {
  sv_limiter : option uploadLimiter; sv_counter : S; sv_uploads : list upload; sv_accepted : string -> Z }.

Definition start (l : option uploadLimiter) (c : S) : server := mkServer l c [] (count c).

Definition credit (t : string) (n : Z) (acc : string -> Z) (t' : string) : Z :=
  if decide (t' = t) then (acc t' + n)%Z else acc t'.

Definition leave (i : nat) (u : upload) (l : option uploadLimiter) (c : S) (st : server) : server :=
  mkServer (releaseSlot (up_sid u) l) c (delete i (sv_uploads st)) (sv_accepted st).

(** [env] is what the calls to the counter may meet. *)
Context (limits : string -> Z) (env : Env -> Prop).

(** Requests name a tenant under its limit and declare less than 2^52 bytes;
    a body is no longer than what was declared, nor than the body cap. *)
Definition request_ok (r : UploadRequest) (t : string) : Prop :=
  (forall q, ur_tenant r = TenantFound q -> q = limits t) /\ (ur_length r < 2 ^ 52)%Z.

Inductive upload_step : server -> server -> Prop :=
| us_begin st r e t sid l c res :
    env e -> request_ok r t -> beginUpload r e t sid (sv_limiter st) (sv_counter st) = (l, c, Ok res) ->
    upload_step st (mkServer l c (sv_uploads st ++ [mkUpload t sid res None]) (sv_accepted st))
| us_reject st r e t sid l c err :
    env e -> request_ok r t -> beginUpload r e t sid (sv_limiter st) (sv_counter st) = (l, c, Err err) ->
    upload_step st (mkServer l c (sv_uploads st) (sv_accepted st))
| us_abandon st i u e :
    env e -> sv_uploads st !! i = Some u -> up_body u = None ->
    upload_step st (leave i u (sv_limiter st) (abandon (up_res u) e (up_tenant u) (sv_counter st)) st)
| us_written st i u n e c :
    env e -> sv_uploads st !! i = Some u -> up_body u = None -> (0 <= n <= UploadMaxBodyBytes)%Z ->
    (forall r, up_res u = Some r -> n <= reserved r)%Z ->
    reconcileUpload (up_res u) n e (up_tenant u) (sv_counter st) = (c, Ok ()) ->
    upload_step st (mkServer (sv_limiter st) c (<[i := mkUpload (up_tenant u) (up_sid u) (up_res u) (Some n)]> (sv_uploads st)) (sv_accepted st))
| us_past st i u n e c err :
    env e -> sv_uploads st !! i = Some u -> up_body u = None ->
    reconcileUpload (up_res u) n e (up_tenant u) (sv_counter st) = (c, Err err) ->
    upload_step st (leave i u (sv_limiter st) c st)
| us_verify st i u n hashOK post e l c :
    env e -> sv_uploads st !! i = Some u -> up_body u = Some n ->
    verifyUpload hashOK post (up_sid u) (up_res u) n e (up_tenant u) (sv_limiter st) (sv_counter st) = (l, c, Ok ()) ->
    upload_step st (mkServer (releaseSlot (up_sid u) l) c (delete i (sv_uploads st)) (credit (up_tenant u) (held u) (sv_accepted st)))
| us_unwind st i u n hashOK post e l c err :
    env e -> sv_uploads st !! i = Some u -> up_body u = Some n ->
    verifyUpload hashOK post (up_sid u) (up_res u) n e (up_tenant u) (sv_limiter st) (sv_counter st) = (l, c, Err err) ->
    upload_step st (leave i u l c st)
| us_close st sid :
    upload_step st (mkServer (closeSession sid (sv_limiter st)) (sv_counter st) (sv_uploads st) (sv_accepted st)).

(** *** The counter *)

Definition upload_ok (u : upload) : Prop :=
  forall r, up_res u = Some r -> (0 <= reserved r < 2 ^ 52)%Z /\ forall n, up_body u = Some n -> (0 <= n <= reserved r)%Z.

(** Every call is answered. *)
Definition answered : Prop := forall e, env e -> reachable e.

Record quota_inv (st : server) : Prop := {
  qi_wf : counter_wf (sv_counter st);
  qi_uploads : Forall upload_ok (sv_uploads st);
  qi_accepted : forall t, (0 <= sv_accepted st t)%Z;
  qi_count : forall t, (sv_accepted st t + heldBytes t (sv_uploads st) <= count (sv_counter st) t)%Z;
  qi_exact : answered -> forall t, count (sv_counter st) t = (sv_accepted st t + heldBytes t (sv_uploads st))%Z;
  qi_limit : forall t, (count (sv_counter st) t <= Z.max 0 (limits t))%Z }.

Lemma held_range u : upload_ok u -> (0 <= held u < 2 ^ 52)%Z.
Proof using Type.
  unfold upload_ok, held. destruct (up_res u) as [r|]; [|lia]. intros Hu. destruct (Hu r eq_refl) as [? Hb].
  destruct (up_body u) as [n|]; [specialize (Hb n eq_refl)|]; lia.
Qed.

Lemma uploads_held us : Forall upload_ok us -> Forall (fun u => 0 <= held u)%Z us.
Proof using Type. intros Hu. eapply Forall_impl; [exact Hu|]. intros u ?%held_range. lia. Qed.

Context (Henv : forall e, env e -> firsthand e).

(** A shift that keeps the total non-negative is made in full or not at all,
    and made when calls are answered. *)
Lemma adjust_shift e t d (c : S) : counter_wf c -> env e -> (Z.abs d < 2 ^ 52)%Z -> (0 <= count c t + d < exact_max)%Z ->
  counter_wf (Adjust e t (wrap64 d) c).1 /\
  exists d', (d' = 0%Z \/ d' = d) /\ (answered -> d' = d) /\ moved t d' (count c) (count (Adjust e t (wrap64 d) c).1).
Proof using Henv.
  intros Hc He Hd Hr. rewrite wrap64_id by (unfold_int64; lia).
  pose proof (adjust_lost e t d c Hc (Henv e He) ltac:(unfold exact_max; lia) ltac:(lia)) as Ha.
  pose proof (fun H => adjust_answered e t d c Hc H ltac:(unfold exact_max; lia) ltac:(lia)) as Hx.
  destruct (Adjust e t d c) as [c' err]. destruct Ha as (Hw & d' & Hm & Hor). split; [done|].
  exists d'. split_and!; auto. intros Hans. destruct (Hx (Hans e He)) as [_ Hm'].
  specialize (Hm t). specialize (Hm' t). rewrite decide_True in Hm, Hm' by done. lia.
Qed.

Context (Hlim : forall t, (limits t < 2 ^ 52)%Z).

(** A release of some of an upload's own bytes. *)
Lemma shift_held st i u e d : quota_inv st -> env e -> sv_uploads st !! i = Some u -> (- held u <= d <= 0)%Z ->
  counter_wf (Adjust e (up_tenant u) (wrap64 d) (sv_counter st)).1 /\
  exists d', (d <= d' <= 0)%Z /\ (answered -> d' = d) /\
    moved (up_tenant u) d' (count (sv_counter st)) (count (Adjust e (up_tenant u) (wrap64 d) (sv_counter st)).1).
Proof using Henv.
  intros [Hw Hu Ha Hc _ Hl] He Hi Hd. pose proof (Forall_lookup_1 _ _ _ _ Hu Hi) as Hok. pose proof (held_range _ Hok).
  destruct (adjust_shift e (up_tenant u) d (sv_counter st)) as (? & d' & Hor & ? & ?); [done|done|lia| |split; [done|exists d'; split_and!; auto; lia]].
  specialize (Hc (up_tenant u)). destruct (heldBytes_split (up_tenant u) _ _ _ Hi) as [Hs _]. rewrite decide_True in Hs by done.
  pose proof (heldBytes_nonneg (up_tenant u) (delete i (sv_uploads st)) (uploads_held _ (Forall_delete _ _ _ Hu))).
  specialize (Ha (up_tenant u)). pose proof (count_range _ (up_tenant u) Hw). unfold exact_max in *. lia.
Qed.

(** An upload leaves, and its bytes with it unless their release was lost. *)
Lemma leave_inv st i u l c d : quota_inv st -> sv_uploads st !! i = Some u -> counter_wf c ->
  (- held u <= d <= 0)%Z -> (answered -> d = - held u)%Z -> moved (up_tenant u) d (count (sv_counter st)) (count c) ->
  quota_inv (leave i u l c st).
Proof using Type.
  intros [Hw Hu Ha Hc Hx Hl] Hi Hwc Hd Hans Hcc. pose proof (held_range _ (Forall_lookup_1 _ _ _ _ Hu Hi)).
  assert (forall t, heldBytes t (sv_uploads st) = (if decide (t = up_tenant u) then held u else 0) + heldBytes t (delete i (sv_uploads st)))%Z as Hs.
  { intros t. destruct (heldBytes_split t _ _ _ Hi) as [-> _]. destruct (decide (t = up_tenant u)); [by rewrite decide_True|by rewrite decide_False]. }
  constructor; cbn [leave sv_counter sv_uploads sv_accepted]; auto using Forall_delete.
  - intros t. rewrite (Hcc t). specialize (Hc t). specialize (Hs t). case_decide; lia.
  - intros Hy t. rewrite (Hcc t), (Hx Hy), (Hans Hy). specialize (Hs t). case_decide; lia.
  - intros t. rewrite (Hcc t). specialize (Hl t). case_decide; lia.
Qed.

Lemma release_inv st i u e l : quota_inv st -> env e -> sv_uploads st !! i = Some u ->
  quota_inv (leave i u l (Adjust e (up_tenant u) (wrap64 (- held u)) (sv_counter st)).1 st).
Proof using Henv.
  intros Hq He Hi. pose proof (held_range _ (Forall_lookup_1 _ _ _ _ (qi_uploads _ Hq) Hi)).
  destruct (shift_held st i u e (- held u) Hq He Hi) as (? & d' & ? & ? & ?); [lia|]. by eapply leave_inv.
Qed.

Lemma uncounted_inv st i u l : quota_inv st -> sv_uploads st !! i = Some u -> up_res u = None -> quota_inv (leave i u l (sv_counter st) st).
Proof using Type.
  intros Hq Hi Er. assert (held u = 0%Z) as Hh by (unfold held; by rewrite Er).
  apply (leave_inv _ _ _ _ _ 0 Hq Hi); [apply Hq|lia|lia|by apply moved_0].
Qed.

Lemma abandon_inv st i u e : quota_inv st -> env e -> sv_uploads st !! i = Some u -> up_body u = None ->
  quota_inv (leave i u (sv_limiter st) (abandon (up_res u) e (up_tenant u) (sv_counter st)) st).
Proof using Henv.
  intros Hq He Hi Hb. unfold abandon. destruct (up_res u) as [r|] eqn:Er; [|by apply uncounted_inv].
  assert (held u = reserved r) as Hh by (unfold held; by rewrite Er, Hb). rewrite <- Hh. by apply release_inv.
Qed.

Lemma unwind_inv st i u n e l : quota_inv st -> env e -> sv_uploads st !! i = Some u -> up_body u = Some n ->
  quota_inv (leave i u l (unwind (up_res u) n e (up_tenant u) (sv_counter st)) st).
Proof using Henv.
  intros Hq He Hi Hb. unfold unwind. destruct (up_res u) as [r|] eqn:Er; [|by apply uncounted_inv].
  assert (held u = n) as Hh by (unfold held; by rewrite Er, Hb). rewrite <- Hh. by apply release_inv.
Qed.

(** A reservation is granted and made, or refused; a refusal whose answer was
    lost may have left the bytes counted. *)
Lemma reserve_cases wired tn len e t (c : S) c' o :
  counter_wf c -> env e -> (forall q, tn = TenantFound q -> q = limits t) -> (len < 2 ^ 52)%Z ->
  (count c t <= Z.max 0 (limits t))%Z -> reserveStorageQuota wired tn len e t c = (c', o) ->
  counter_wf c' /\ exists d, moved t d (count c) (count c') /\ (0 <= d)%Z /\ (count c t + d <= Z.max 0 (limits t))%Z /\
  ((exists r, o = Ok (Some r) /\ reserved r = len /\ d = len)
   \/ ((forall r, o <> Ok (Some r)) /\ (answered -> d = 0%Z))).
Proof using Hlim Henv.
  intros Hw He Ht Hlen Hb. unfold reserveStorageQuota. pose proof (Hlim t). pose proof (count_range c t Hw).
  assert (forall o', (forall r, o' <> Ok (Some r)) -> (c, o') = (c', o) ->
    counter_wf c' /\ exists d, moved t d (count c) (count c') /\ (0 <= d)%Z /\ (count c t + d <= Z.max 0 (limits t))%Z /\
    ((exists r, o = Ok (Some r) /\ reserved r = len /\ d = len) \/ ((forall r, o <> Ok (Some r)) /\ (answered -> d = 0%Z)))) as Hskip.
  { intros o' Ho [= <- <-]. split; [done|]. exists 0%Z. split_and!; auto using moved_0; lia. }
  destruct wired; cbn [negb]; [|by apply Hskip].
  destruct tn as [| |q]; [by apply Hskip..|]. rewrite (Ht q eq_refl). clear Ht q.
  destruct (Z.leb_spec (limits t) 0); [by apply Hskip|].
  destruct (Z.ltb_spec len 0); [by apply Hskip|]. clear Hskip.
  pose proof (reserve_lost e t len (limits t) c Hw (Henv e He) ltac:(lia) ltac:(unfold exact_max; lia) ltac:(unfold exact_max; lia)) as Hr.
  pose proof (fun H => reserve_answered e t len (limits t) c Hw H ltac:(lia) ltac:(unfold exact_max; lia) ltac:(unfold exact_max; lia)) as Hx.
  destruct (Reserve e t len (limits t) c) as [c1 [prior err]]. destruct Hr as (Hw1 & d & Hm & Hor & Hok).
  destruct err as [err|].
  - assert (answered -> d = 0%Z) as Hd0.
    { intros Hans. destruct (Hx (Hans e He)) as (_ & d' & Hm' & _ & _ & Hd). specialize (Hd ltac:(done)). subst d'.
      specialize (Hm t). specialize (Hm' t). rewrite decide_True in Hm, Hm' by done. lia. }
    intros Heq. assert (c' = c1 /\ forall r, o <> Ok (Some r)) as [-> Hno] by (destruct err; injection Heq as <- <-; by split).
    split; [done|]. exists d. split_and!; auto; lia.
  - destruct (Hok eq_refl) as [-> _]. intros [= <- <-]. split; [done|]. exists len. split_and!; auto; [lia|]. left. by eexists.
Qed.

Lemma begin_cases r e t sid l (c : S) l' c' o :
  counter_wf c -> env e -> request_ok r t -> (count c t <= Z.max 0 (limits t))%Z ->
  beginUpload r e t sid l c = (l', c', o) ->
  counter_wf c' /\ exists d, moved t d (count c) (count c') /\ (0 <= d)%Z /\ (count c t + d <= Z.max 0 (limits t))%Z /\
  ((exists q, o = Ok (Some q) /\ reserved q = ur_length r /\ d = ur_length r)
   \/ ((forall q, o <> Ok (Some q)) /\ (answered -> d = 0%Z))).
Proof using Hlim Henv.
  intros Hw He [Ht Hlen] Hb. unfold beginUpload.
  assert (forall l1 o', (forall r, o' <> Ok (Some r)) -> (l1, c, o') = (l', c', o) ->
    counter_wf c' /\ exists d, moved t d (count c) (count c') /\ (0 <= d)%Z /\ (count c t + d <= Z.max 0 (limits t))%Z /\
    ((exists q, o = Ok (Some q) /\ reserved q = ur_length r /\ d = ur_length r)
     \/ ((forall q, o <> Ok (Some q)) /\ (answered -> d = 0%Z)))) as Hskip.
  { intros l1 o' Ho [= <- <- <-]. split; [done|]. exists 0%Z. split_and!; auto using moved_0; lia. }
  destruct (ur_blobs r), (ur_subsystem r); cbn [negb]; try by apply Hskip.
  destruct (admitUpload r) as [_|err]; [|by apply Hskip].
  destruct (acquireSlot sid l) as [l1 [_|sc]]; [|by apply Hskip].
  destruct (wouldExceedBytes sid (ur_length r) l1); [by apply Hskip|]. clear Hskip.
  destruct (reserveStorageQuota _ _ _ _ _ _) as [c1 o1] eqn:E.
  destruct (reserve_cases _ _ _ _ _ _ _ _ Hw He Ht Hlen Hb E) as (Hw1 & d & Hm & Hd & Hle & Hor).
  intros Heq. assert (c' = c1 /\ (o = o1 \/ exists err, o1 = Err err /\ o = Err err)) as [-> Ho] by (destruct o1; injection Heq as <- <- <-; eauto).
  split; [done|]. exists d. split_and!; auto. destruct Ho as [->|(err & -> & ->)]; [done|]. right. destruct Hor as [(? & [=] & _)|[_ ?]]. by split.
Qed.

Lemma quota_inv_same st l c us : quota_inv st -> counter_wf c -> (forall t, count c t = count (sv_counter st) t) ->
  Forall upload_ok us -> (forall t, heldBytes t us = heldBytes t (sv_uploads st)) -> quota_inv (mkServer l c us (sv_accepted st)).
Proof using Type.
  intros [Hw Hu Ha Hc Hx Hl] Hwc Hn Hus Hh. constructor; cbn [sv_counter sv_uploads sv_accepted]; auto; [intros t|intros Hy t|intros t]; rewrite Hn, ?Hh; auto.
Qed.

Lemma begin_inv st r e t sid l c res : quota_inv st -> env e -> request_ok r t ->
  beginUpload r e t sid (sv_limiter st) (sv_counter st) = (l, c, Ok res) ->
  quota_inv (mkServer l c (sv_uploads st ++ [mkUpload t sid res None]) (sv_accepted st)).
Proof using Hlim Henv.
  intros Hq He Hr E.
  destruct (begin_cases _ _ _ _ _ _ _ _ _ (qi_wf _ Hq) He Hr (qi_limit _ Hq t) E) as (Hw & d & Hm & Hd & Hle & Hor).
  assert (held (mkUpload t sid res None) <= d /\ upload_ok (mkUpload t sid res None) /\ (answered -> held (mkUpload t sid res None) = d))%Z as (Hh & Hok & Hx).
  { destruct Hor as [(q & [= ->] & Hq1 & Hd1)|[Hno Hd0]].
    - unfold held. cbn [up_res up_body]. split_and!; [lia| |lia]. intros q' [= <-]. destruct Hr as [_ Hlen]. split; [lia|done].
    - destruct res as [q|]; [by destruct (Hno q)|]. unfold held. cbn [up_res]. split_and!; [lia|done|]. intros Hy. by rewrite (Hd0 Hy). }
  assert (forall t', heldBytes t' (sv_uploads st ++ [mkUpload t sid res None]) =
    heldBytes t' (sv_uploads st) + if decide (t' = t) then held (mkUpload t sid res None) else 0)%Z as Hadd.
  { intros t'. rewrite heldBytes_app. cbn [heldBytes up_tenant]. destruct (decide (t' = t)); [rewrite decide_True by done|rewrite decide_False by auto]; lia. }
  destruct Hq as [_ Hu Ha Hc Hqx Hl]. constructor; cbn [sv_counter sv_uploads sv_accepted]; auto.
  - apply Forall_app. auto.
  - intros t'. rewrite (Hm t'), Hadd. specialize (Hc t'). case_decide; lia.
  - intros Hy t'. rewrite (Hm t'), Hadd, (Hqx Hy). specialize (Hx Hy). case_decide; lia.
  - intros t'. rewrite (Hm t'). specialize (Hl t'). case_decide; subst; lia.
Qed.

(** A refused upload; a reservation whose answer was lost stays counted. *)
Lemma reject_inv st r e t sid l c err : quota_inv st -> env e -> request_ok r t ->
  beginUpload r e t sid (sv_limiter st) (sv_counter st) = (l, c, Err err) -> quota_inv (mkServer l c (sv_uploads st) (sv_accepted st)).
Proof using Hlim Henv.
  intros Hq He Hr E.
  destruct (begin_cases _ _ _ _ _ _ _ _ _ (qi_wf _ Hq) He Hr (qi_limit _ Hq t) E) as (Hw & d & Hm & Hd & Hle & [(q & [=] & _)|[_ Hd0]]).
  destruct Hq as [_ Hu Ha Hc Hqx Hl]. constructor; cbn [sv_counter sv_uploads sv_accepted]; auto.
  - intros t'. rewrite (Hm t'). specialize (Hc t'). case_decide; lia.
  - intros Hy t'. rewrite (Hm t'), (Hqx Hy), (Hd0 Hy). case_decide; lia.
  - intros t'. rewrite (Hm t'). specialize (Hl t'). case_decide; subst; lia.
Qed.

Lemma written_inv st i u n e c : quota_inv st -> env e -> sv_uploads st !! i = Some u -> up_body u = None -> (0 <= n)%Z ->
  (forall r, up_res u = Some r -> n <= reserved r)%Z -> reconcileUpload (up_res u) n e (up_tenant u) (sv_counter st) = (c, Ok ()) ->
  quota_inv (mkServer (sv_limiter st) c (<[i := mkUpload (up_tenant u) (up_sid u) (up_res u) (Some n)]> (sv_uploads st)) (sv_accepted st)).
Proof using Henv.
  intros Hq He Hi Hb Hn Hle. pose proof (Forall_lookup_1 _ _ _ _ (qi_uploads _ Hq) Hi) as Hok.
  unfold reconcileUpload. destruct (up_res u) as [r|] eqn:Er.
  - destruct (headroom r <? n)%Z; [done|]. intros [= <-]. specialize (Hle r eq_refl). destruct (Hok r Er) as [Hr _].
    assert (held u = reserved r) as Hh by (unfold held; by rewrite Er, Hb).
    assert (forall t, heldBytes t (<[i := mkUpload (up_tenant u) (up_sid u) (Some r) (Some n)]> (sv_uploads st)) =
      heldBytes t (sv_uploads st) + if decide (t = up_tenant u) then n - reserved r else 0)%Z as Hset.
    { intros t. destruct (heldBytes_split t _ _ _ Hi) as [Hs Hs']. rewrite Hs', Hs, Hh. unfold held. cbn [up_tenant up_res up_body].
      destruct (decide (t = up_tenant u)); [rewrite !decide_True by done|rewrite !decide_False by auto]; lia. }
    destruct (shift_held st i u e (n - reserved r) Hq He Hi) as (Hw & d & Hd & Hx & Hcc); [lia|].
    destruct Hq as [_ Hu Ha Hc Hqx Hl]. constructor; cbn [sv_counter sv_uploads sv_accepted]; auto.
    + apply Forall_insert; [done|]. intros r' [= <-]. split; [done|]. intros n' [= <-]. lia.
    + intros t. rewrite (Hcc t), Hset. specialize (Hc t). case_decide; lia.
    + intros Hy t. rewrite (Hcc t), Hset, (Hqx Hy), (Hx Hy). case_decide; lia.
    + intros t. rewrite (Hcc t). specialize (Hl t). case_decide; lia.
  - intros [= <-]. apply quota_inv_same; auto; [apply Hq| |].
    + apply Forall_insert; [apply Hq|done].
    + intros t. destruct (heldBytes_split t _ _ _ Hi) as [-> ->]. unfold held. cbn [up_tenant up_res up_body]. by rewrite Er.
Qed.

(** Accepting an upload moves its bytes from those in flight to the accepted. *)
Lemma credit_held t st i u : sv_uploads st !! i = Some u ->
  (credit (up_tenant u) (held u) (sv_accepted st) t + heldBytes t (delete i (sv_uploads st)) = sv_accepted st t + heldBytes t (sv_uploads st))%Z.
Proof using Type.
  intros Hi. destruct (heldBytes_split t _ _ _ Hi) as [Hs _]. unfold credit.
  destruct (decide (t = up_tenant u)) as [->|]; [rewrite decide_True in Hs by done|rewrite decide_False in Hs by auto]; lia.
Qed.

Lemma quota_step st st' : quota_inv st -> upload_step st st' -> quota_inv st'.
Proof using Hlim Henv.
  intros Hq Hst. destruct Hst as [st r e t sid l c res He Hr E|st r e t sid l c err He Hr E|st i u e He Hi Hb|st i u n e c He Hi Hb Hn Hle E
    |st i u n e c err He Hi Hb E|st i u n hashOK post e l c He Hi Hb E|st i u n hashOK post e l c err He Hi Hb E|st sid].
  - by eapply begin_inv.
  - by eapply reject_inv.
  - by apply abandon_inv.
  - eapply written_inv; eauto. lia.
  - revert E. unfold reconcileUpload. destruct (up_res u) as [r|] eqn:Er; [|done].
    destruct (headroom r <? n)%Z; [|done]. intros [= <- _]. pose proof (abandon_inv st i u e Hq He Hi Hb) as Hx. by rewrite Er in Hx.
  - assert (c = sv_counter st) as ->.
    { revert E. unfold verifyUpload. destruct hashOK; cbn [negb]; [|done]. destruct (match post with RowFound s => _ | _ => _ end); [|done].
      destruct (commitBytes _ _ _) as [l1 []]; [|done]. by intros [= _ <-]. }
    destruct Hq as [Hw Hu Ha Hc Hx Hl]. pose proof (held_range _ (Forall_lookup_1 _ _ _ _ Hu Hi)).
    constructor; cbn [sv_counter sv_uploads sv_accepted]; auto using Forall_delete.
    + intros t. unfold credit. specialize (Ha t). case_decide; lia.
    + intros t. specialize (Hc t). by rewrite credit_held.
    + intros Hy t. by rewrite (Hx Hy), credit_held.
  - revert E. unfold verifyUpload. destruct hashOK; cbn [negb]; [|intros [= <- <- _]; by eapply unwind_inv].
    destruct (match post with RowFound s => _ | _ => _ end); [|intros [= <- <- _]; by eapply unwind_inv].
    destruct (commitBytes _ _ _) as [l1 []]; [done|]. intros [= <- <- _]. by eapply unwind_inv.
  - apply quota_inv_same; auto; apply Hq.
Qed.

(** C14. However uploads interleave, fail and are unwound, and whichever of their
    calls to the counter or answers of it are lost, the counter holds at least
    the bytes of the accepted uploads and of those in flight and never passes the
    tenant's limit; when every call is answered it holds exactly those bytes.
    Limits are fixed and, like declared lengths, below 2^52.  No reservation is granted from Postgres while Redis is away
    ([firsthand]; [straddling_release_undercounts] is what happens after one). *)
Theorem storage_quota_conserved l c st t :
  counter_wf c -> (forall t, count c t <= Z.max 0 (limits t))%Z -> rtc upload_step (start l c) st ->
  (sv_accepted st t + heldBytes t (sv_uploads st) <= count (sv_counter st) t <= Z.max 0 (limits t))%Z /\
  (0 <= heldBytes t (sv_uploads st))%Z /\
  (answered -> count (sv_counter st) t = sv_accepted st t + heldBytes t (sv_uploads st))%Z.
Proof using Hlim Henv.
  intros Hw Hc Hrun. assert (quota_inv (start l c)) as Hi.
  { constructor; cbn; auto; [intros t'|intros t'|intros _ t']; pose proof (count_range c t' Hw); lia. }
  assert (quota_inv st) as [_ Hu Ha Hq Hx Hl].
  { revert Hi. clear -Hrun Hlim Henv. induction Hrun; eauto using quota_step. }
  pose proof (heldBytes_nonneg t _ (uploads_held _ Hu)). auto.
Qed.

(** *** The caps *)

Record caps_inv (ms mg mb : Z) (st : server) : Prop := {
  ci_counts : exists l, sv_limiter st = Some l /\ counts ms mg mb (sv_uploads st) l;
  ci_session : (0 < ms -> forall sid, inSession sid (sv_uploads st) <= ms)%Z;
  ci_global : (0 < mg -> Z.of_nat (length (sv_uploads st)) <= mg)%Z;
  ci_body : Forall (fun u => forall n, up_body u = Some n -> 0 <= n <= UploadMaxBodyBytes)%Z (sv_uploads st) }.

(** A rejected upload leaves the limiter counting what it counted. *)
Lemma begin_counts ms mg mb us l r e t sid (c : S) l' c' o : counts ms mg mb us l -> (Z.of_nat (length us) + 1 < 2 ^ 62)%Z ->
  beginUpload r e t sid (Some l) c = (l', c', o) ->
  match o with
  | Ok res => (exists l1, l' = Some l1 /\ counts ms mg mb (us ++ [mkUpload t sid res None]) l1) /\
              (0 < ms -> inSession sid us < ms)%Z /\ (0 < mg -> Z.of_nat (length us) < mg)%Z
  | Err _ => exists l1, l' = Some l1 /\ counts ms mg mb us l1
  end.
Proof using Type.
  intros Hct Hlen. unfold beginUpload.
  destruct (ur_blobs r), (ur_subsystem r); cbn [negb]; try (intros [= <- <- <-]; by eauto).
  destruct (admitUpload r) as [_|err]; [|intros [= <- <- <-]; by eauto].
  destruct (acquireSlot sid (Some l)) as [l1 [[]|sc]] eqn:Ea.
  2: { assert (l1 = Some l) as -> by (revert Ea; unfold acquireSlot; repeat case_match; intros [=]; by subst). intros [= <- <- <-]. eauto. }
  assert (forall res, (exists l2, l1 = Some l2 /\ counts ms mg mb (us ++ [mkUpload t sid res None]) l2) /\
    (0 < ms -> inSession sid us < ms)%Z /\ (0 < mg -> Z.of_nat (length us) < mg)%Z) as Hacq.
  { intros res. apply (acquire_counts ms mg mb us l (mkUpload t sid res None) l1 Hct); [lia|done]. }
  assert (exists l2, releaseSlot sid l1 = Some l2 /\ counts ms mg mb us l2) as Hrel.
  { destruct (Hacq None) as [(l2 & -> & Hc2) _].
    destruct (release_counts ms mg mb (us ++ [mkUpload t sid None None]) (length us) (mkUpload t sid None None) l2 Hc2) as (l3 & Hl3 & Hc3);
      [rewrite length_app; cbn; lia|by rewrite list_lookup_middle|].
    exists l3. split; [done|]. by rewrite delete_middle, app_nil_r in Hc3. }
  destruct (wouldExceedBytes sid (ur_length r) l1); [intros [= <- <- <-]; exact Hrel|].
  destruct (reserveStorageQuota _ _ _ _ _ _) as [c1 [res|err]]; intros [= <- <- <-]; [apply Hacq|exact Hrel].
Qed.

Lemma verify_counts ms mg mb us l hashOK post sid res n e t (c : S) l' c' o : counts ms mg mb us l -> (mb <= 2 ^ 62)%Z ->
  (0 <= n <= UploadMaxBodyBytes)%Z -> verifyUpload hashOK post sid res n e t (Some l) c = (l', c', o) ->
  exists l1, l' = Some l1 /\ counts ms mg mb us l1.
Proof using Type.
  intros Hct Hmb Hn. unfold verifyUpload. destruct hashOK; cbn [negb]; [|intros [= <- _ _]; eauto].
  destruct (match post with RowFound s => _ | _ => _ end); [|intros [= <- _ _]; eauto].
  destruct (commitBytes sid n (Some l)) as [l1 ok] eqn:Ec. destruct (commit_counts _ _ _ _ _ _ _ _ _ Hct Hmb Hn Ec) as (l2 & -> & Hc2).
  destruct ok; intros [= <- _ _]; eauto.
Qed.

Lemma leave_caps ms mg mb st i u l c acc : caps_inv ms mg mb st -> (Z.of_nat (length (sv_uploads st)) < 2 ^ 62)%Z ->
  sv_uploads st !! i = Some u -> counts ms mg mb (sv_uploads st) l ->
  caps_inv ms mg mb (mkServer (releaseSlot (up_sid u) (Some l)) c (delete i (sv_uploads st)) acc).
Proof using Type.
  intros [_ Hs Hg Hb] Hlen Hi Hct. destruct (release_counts _ _ _ _ _ _ _ Hct Hlen Hi) as (l1 & Hl1 & Hc1).
  constructor; cbn [sv_limiter sv_uploads]; eauto using Forall_delete.
  - intros Hms sid. specialize (Hs Hms sid). destruct (inSession_split sid _ _ _ Hi) as [? _]. case_decide; lia.
  - intros Hmg. specialize (Hg Hmg). destruct (inSession_split "" _ _ _ Hi) as (_ & ? & _). lia.
Qed.

Lemma caps_step ms mg mb st st' : (mb <= 2 ^ 62)%Z -> (Z.of_nat (length (sv_uploads st)) + 1 < 2 ^ 62)%Z ->
  caps_inv ms mg mb st -> upload_step st st' ->
  caps_inv ms mg mb st' /\ length (sv_uploads st') <= 1 + length (sv_uploads st).
Proof using Type.
  intros Hmb Hlen Hc Hst. pose proof (ci_counts _ _ _ _ Hc) as (l0 & Hl0 & Hct). pose proof (ci_body _ _ _ _ Hc) as Hbody.
  assert (forall i u, sv_uploads st !! i = Some u -> length (delete i (sv_uploads st)) <= 1 + length (sv_uploads st)) as Hdel.
  { intros i u Hi. destruct (inSession_split "" _ _ _ Hi) as (_ & ? & _). lia. }
  destruct Hst as [st r e t sid l c res He Hr E|st r e t sid l c err He Hr E|st i u e He Hi Hb|st i u n e c He Hi Hb Hn Hle E
    |st i u n e c err He Hi Hb E|st i u n hashOK post e l c He Hi Hb E|st i u n hashOK post e l c err He Hi Hb E|st sid];
    cbn [leave sv_uploads]; (split; [|first [by eapply Hdel | rewrite ?length_app, ?length_insert; cbn; lia]]).
  all: rewrite Hl0 in *.
  - destruct (begin_counts _ _ _ _ _ _ _ _ _ _ _ _ _ Hct Hlen E) as [? [Hs Hg]]. constructor; cbn [sv_limiter sv_uploads]; auto.
    + intros Hms sid'. rewrite inSession_app, inSession_cons. change (inSession sid' []) with 0%Z. cbn [up_sid].
      pose proof (ci_session _ _ _ _ Hc Hms sid'). case_decide; [subst; specialize (Hs Hms)|]; lia.
    + intros Hmg. rewrite length_app. cbn. specialize (Hg Hmg). lia.
    + apply Forall_app. split; [done|]. by repeat constructor.
  - pose proof (begin_counts _ _ _ _ _ _ _ _ _ _ _ _ _ Hct Hlen E). destruct Hc. by constructor.
  - by apply leave_caps; [|lia| |].
  - assert (forall sid, inSession sid (<[i := mkUpload (up_tenant u) (up_sid u) (up_res u) (Some n)]> (sv_uploads st)) = inSession sid (sv_uploads st)) as Hsame.
    { intros sid. destruct (inSession_split sid _ _ _ Hi) as (_ & _ & Hu). by apply Hu. }
    destruct Hc as [_ Hs Hg Hb']. constructor; cbn [sv_limiter sv_uploads]; rewrite ?length_insert; auto.
    + exists l0. split; [done|]. eapply counts_ext; [done|by rewrite length_insert|done].
    + intros Hms sid. rewrite Hsame. auto.
    + apply Forall_insert; [done|]. by intros ? [= <-].
  - by apply leave_caps; [|lia| |].
  - destruct (verify_counts _ _ _ _ _ _ _ _ _ _ _ _ _ _ _ _ Hct Hmb (Forall_lookup_1 _ _ _ _ Hbody Hi n Hb) E) as (l1 & -> & Hc1).
    by apply leave_caps; [|lia| |].
  - destruct (verify_counts _ _ _ _ _ _ _ _ _ _ _ _ _ _ _ _ Hct Hmb (Forall_lookup_1 _ _ _ _ Hbody Hi n Hb) E) as (l1 & -> & Hc1).
    by apply leave_caps; [|lia| |].
  - destruct (close_counts _ _ _ _ _ sid Hct) as (l1 & Hl1 & Hc1). destruct Hc. constructor; cbn [sv_limiter sv_uploads]; eauto.
Qed.

Lemma caps_nsteps ms mg mb k st0 st : (mb <= 2 ^ 62)%Z -> nsteps upload_step k st0 st -> caps_inv ms mg mb st0 ->
  (Z.of_nat (length (sv_uploads st0)) + Z.of_nat k + 1 < 2 ^ 62)%Z -> caps_inv ms mg mb st.
Proof using Type.
  intros Hmb. induction 1 as [|k x y z Hst _ IH]; [done|]. intros Hi Hlen.
  assert (Z.of_nat (length (sv_uploads x)) + 1 < 2 ^ 62)%Z as Hx by lia.
  destruct (caps_step _ _ _ _ _ Hmb Hx Hi Hst). apply IH; [done|]. lia.
Qed.

(** At every moment of every run a session has at most its cap of uploads in
    flight, the replica at most its own, and the limiter's counts are the
    uploads there are; the bytes a session has committed stay within its cap. *)
Theorem upload_caps_hold ms mg mb l c k st :
  newUploadLimiter ms mg mb = Some l -> (mb <= 2 ^ 62)%Z -> (Z.of_nat k + 1 < 2 ^ 62)%Z -> nsteps upload_step k (start (Some l) c) st ->
  (0 < ms -> forall sid, inSession sid (sv_uploads st) <= ms)%Z /\
  (0 < mg -> Z.of_nat (length (sv_uploads st)) <= mg)%Z /\
  exists l', sv_limiter st = Some l' /\ globalInflight l' = Z.of_nat (length (sv_uploads st)) /\
    forall sid, inflight_of l' sid = inSession sid (sv_uploads st) /\ (0 < mb -> bytes_of l' sid <= mb)%Z.
Proof using Type.
  intros Hl Hmb Hk Hrun.
  assert (caps_inv ms mg mb (start (Some l) c)) as Hi.
  { revert Hl. unfold newUploadLimiter. destruct (_ && _); [done|]. intros [= <-]. constructor; cbn; auto; try lia.
    - eexists. split; [done|]. constructor; try done. intros sid. unfold bytes_of. cbn. rewrite lookup_empty. cbn. lia.
    - intros Hms sid. change (inSession sid []) with 0%Z. lia. }
  assert (caps_inv ms mg mb st) as [(l' & Hl' & Hct) Hs Hg _].
  { eapply caps_nsteps; [done|done|done|]. cbn. lia. }
  split_and!; auto. exists l'. split; [done|]. destruct Hct as [_ _ _ Hgl Hse Hby]. split; [done|]. intros sid. split; [done|apply Hby].
Qed.
End runs.

(** ** Across an outage *)

(** An upload admitted from the database while the counter was away, and failing
    after the counter was rebuilt, releases bytes that were never added: the
    counter then stands below the durable total. *)
Lemma straddling_release_undercounts {S Env} `{CounterLaws S Env} (v v' : failover_env Env) (e : Env) t n limit sum (c c1 : S) :
  Reserve v t n limit c = (c1, (sum, None)) -> isDomainOutcome (Reserve (f_primary v) t n limit c).2.2 = false ->
  counter_wf c1 -> reachable e -> reachable v' -> t <> "" -> (0 <= n < 2 ^ 52)%Z -> (0 <= sum < exact_max)%Z ->
  let c2 := (Rehydrate [(t, (Some sum, e))] c1).1 in
  count c2 t = sum /\
  count (abandon (Some (mkReservation n (wrap64 (limit - sum)))) v' t c2) t = Z.max 0 (sum - n).
Proof.
  intros Hres Hinfra Hw He Hv' Ht Hn Hs. unfold Rehydrate, rehydrate_one. rewrite is_empty_false by done.
  pose proof (set_law e t sum c1 Hw He ltac:(lia)) as Hset. destruct (Set_ e t sum c1) as [c2 err] eqn:E. destruct Hset as (Hw2 & -> & Hc2).
  cbn [fst andb]. assert (count c2 t = sum) as Hc by (rewrite Hc2, decide_True by done; lia). split; [done|].
  pose proof (adjust_law (f_primary v') t (- n) c2 Hw2 Hv' ltac:(unfold exact_max; lia) ltac:(unfold exact_max in *; lia)) as Ha.
  unfold FailoverAdjust. cbn. rewrite wrap64_id by (unfold_int64; lia). destruct (Adjust _ _ _ _) as [c3 err]. destruct Ha as (_ & _ & Ha).
  cbn. by rewrite Ha, decide_True, Hc by done.
Qed.

(** The in-memory counter adds before it compares: a declared length near the
    end of the 64-bit range is admitted and leaves the total negative. *)
Lemma memory_reserve_wraps : exists m' : Memory,
  Reserve () "acme" max_int64 100 (<["acme" := 1%Z]> ∅ : Memory) = (m', (1%Z, None)) /\ bytes m' "acme" = min_int64.
Proof. eexists. split; [vm_compute; reflexivity|vm_compute; reflexivity]. Qed.

(** ** An upload against Redis *)

Module Demo.

Abbreviation redis := (gmap string rentry).
Definition limits (t : string) : Z := if String.eqb t "acme" then 100 else 0.
Definition request (len : Z) : UploadRequest := mkUploadRequest true true (RowFound StateCreated) true len true (TenantFound 100).
Definition limiter : uploadLimiter := mkLimiter 2 4 1000 ∅ 0 ∅.
Definition b1 := beginUpload (request 60) Delivered "acme" "s1" (Some limiter) (∅ : redis).
Definition b2 := beginUpload (request 30) Delivered "acme" "s1" b1.1.1 b1.1.2.
Definition res1 : option quotaReservation := Some (mkReservation 60 100).
Definition res2 : option quotaReservation := Some (mkReservation 30 40).
Definition u1 (n : option Z) : upload := mkUpload "acme" "s1" res1 n.
Definition u2 : upload := mkUpload "acme" "s1" res2 None.
Definition r1 := reconcileUpload res1 50 Delivered "acme" b2.1.2.
Definition zero : string -> Z := count (E := transport) (∅ : redis).
Definition st0 : @server redis := start (Env := transport) (Some limiter) ∅.
Definition st1 : @server redis := mkServer b1.1.1 b1.1.2 [u1 None] zero.
Definition st2 : @server redis := mkServer b2.1.1 b2.1.2 [u1 None; u2] zero.
Definition st3 : @server redis := mkServer b2.1.1 r1.1 [u1 (Some 50%Z); u2] zero.

(** The answer to a third request is lost after its bytes were reserved, and so
    is the release of the second. *)
Definition b3 := beginUpload (request 10) ReplyLost "acme" "s2" b2.1.1 r1.1.
Definition st4 : @server redis := mkServer b3.1.1 b3.1.2 [u1 (Some 50%Z); u2] zero.
Definition st5 : @server redis := leave 1 u2 b3.1.1 (abandon res2 Unreachable "acme" b3.1.2) st4.

Abbreviation step := (upload_step (Env := transport) limits).

Lemma request_admissible len : (len < 2 ^ 52)%Z -> request_ok limits (request len) "acme".
Proof. intros Hl. split; [|done]. intros q [= <-]. reflexivity. Qed.

Lemma steps (env : transport -> Prop) : env Delivered -> step env st0 st1 /\ step env st1 st2 /\ step env st2 st3.
Proof.
  intros He. split_and!.
  - refine (us_begin limits env st0 (request 60) Delivered "acme" "s1" b1.1.1 b1.1.2 res1 He (request_admissible 60 _) _);
      [lia|vm_compute; reflexivity].
  - refine (us_begin limits env st1 (request 30) Delivered "acme" "s1" b2.1.1 b2.1.2 res2 He (request_admissible 30 _) _);
      [lia|vm_compute; reflexivity].
  - refine (us_written limits env st2 0 (u1 None) 50 Delivered r1.1 He eq_refl eq_refl _ _ _);
      [unfold UploadMaxBodyBytes; lia|intros r [= <-]; cbn; lia|vm_compute; reflexivity].
Qed.

Definition anyhow (_ : transport) : Prop := True.

Lemma lost_steps : step anyhow st3 st4 /\ step anyhow st4 st5.
Proof.
  split.
  - refine (us_reject limits anyhow st3 (request 10) ReplyLost "acme" "s2" b3.1.1 b3.1.2 ReservationFailed I (request_admissible 10 _) _);
      [lia|vm_compute; reflexivity].
  - exact (us_abandon limits anyhow st4 1 u2 Unreachable I eq_refl eq_refl).
Qed.

Lemma two_uploads (env : transport -> Prop) : env Delivered -> rtc (step env) st0 st3.
Proof. intros He. destruct (steps env He) as (H1 & H2 & H3). eauto using rtc_l, rtc_refl. Qed.

Lemma lossy_uploads : rtc (step anyhow) st0 st5.
Proof. destruct lost_steps as (H4 & H5). etrans; [exact (two_uploads anyhow I)|]. eauto using rtc_l, rtc_refl. Qed.

Lemma empty_wf : counter_wf (E := transport) (∅ : redis).
Proof. intros t. split; [left; split; [apply lookup_empty|reflexivity]|vm_compute; done]. Qed.

Lemma limits_small t : (limits t < 2 ^ 52)%Z.
Proof. unfold limits. destruct (String.eqb t "acme"); lia. Qed.

Lemma zero_below t : (zero t <= Z.max 0 (limits t))%Z.
Proof. change (zero t) with 0%Z. lia. Qed.

Lemma storage_quota_conserved_witness :
  (rtc (step anyhow) st0 st5 /\
   (sv_accepted st5 "acme" + heldBytes "acme" (sv_uploads st5) <= count (E := transport) (sv_counter st5) "acme" <= 100)%Z) /\
  (rtc (step (eq Delivered)) st0 st3 /\
   (count (E := transport) (sv_counter st3) "acme" = sv_accepted st3 "acme" + heldBytes "acme" (sv_uploads st3))%Z).
Proof.
  split; (split; [first [exact lossy_uploads|exact (two_uploads (eq Delivered) eq_refl)]|]).
  - exact (proj1 (storage_quota_conserved limits anyhow (fun _ _ => I) limits_small (Some limiter) ∅ st5 "acme" empty_wf zero_below lossy_uploads)).
  - refine (proj2 (proj2 (storage_quota_conserved limits (eq Delivered) (fun _ _ => I) limits_small (Some limiter) ∅ st3 "acme" empty_wf zero_below
      (two_uploads (eq Delivered) eq_refl))) _).
    intros e <-. reflexivity.
Defined.

Lemma upload_caps_hold_witness :
  nsteps (step anyhow) 3 st0 st3 /\ (inSession "s1" (sv_uploads st3) <= 2)%Z.
Proof.
  destruct (steps anyhow I) as (H1 & H2 & H3). assert (nsteps (step anyhow) 3 st0 st3) as Hrun by eauto using nsteps_l, nsteps_O.
  split; [exact Hrun|].
  exact (proj1 (upload_caps_hold (Env := transport) limits anyhow 2 4 1000 limiter (∅ : redis) 3 st3 eq_refl ltac:(lia) ltac:(lia) Hrun) ltac:(lia) "s1").
Defined.

(** The counter after two uploads were admitted and one was written, and after
    the lost calls: 50 bytes are in flight. *)
Example counted_bytes :
  count (E := transport) (sv_counter st3) "acme" = 80%Z /\ count (E := transport) (sv_counter st5) "acme" = 90%Z /\
  heldBytes "acme" (sv_uploads st5) = 50%Z.
Proof. vm_compute. auto. Qed.

End Demo.
