(* ===== verification/Credentials.v ===== *)
(** * Credential leases ([credential], [gateway/credentials])

    What a lease is and how it is minted ([lease.go], [lease_mint.go],
    [materialize.go]), the choice of a credential of a pool ([select.go]), the
    store of leases ([credleasestore]), the cache of secrets ([credcache]), the
    deny list ([denylist]) with its sweep ([credential_lease_sweep.go]), and the
    service that assigns and releases leases ([credassign]).  Random bytes, the
    clock and the order in which a map is ranged over are arguments. *)

From S2P Require Import Prelude Calendar.

(** ** Providers, strategies, sources, triggers ([credential.go]) *)

Definition ProviderAnthropicDirect : string := "anthropic_direct".
Definition ProviderAWSBedrock : string := "aws_bedrock".
Definition ProviderVertexAI : string := "vertex_ai".
Definition ProviderAzureOpenAI : string := "azure_openai".
Definition ProviderGitHub : string := "github".
Definition ProviderVaultTransit : string := "vault_transit".
Definition ProviderCursorDirect : string := "cursor_direct".

Definition AllProviders : list string :=
  [ProviderAnthropicDirect; ProviderAWSBedrock; ProviderVertexAI; ProviderAzureOpenAI; ProviderGitHub; ProviderVaultTransit;
   ProviderCursorDirect].

Definition among (x : string) (l : list string) : bool := existsb (String.eqb x) l.
Definition providerIsValid (p : string) : bool := among p AllProviders.

Definition StrategyLeastLoaded : string := "least-loaded".
Definition StrategyRoundRobin : string := "round-robin".
Definition StrategyStickyUntilFailure : string := "sticky-until-failure".
Definition AllAssignmentStrategies : list string := [StrategyLeastLoaded; StrategyRoundRobin; StrategyStickyUntilFailure].
Definition strategyIsValid (s : string) : bool := among s AllAssignmentStrategies.

Definition SourcePool : string := "pool".
Definition SourceUser : string := "user".
Definition sourceIsValid (s : string) : bool := String.eqb s SourcePool || String.eqb s SourceUser.

Definition DeliveryProxy : string := "proxy".
Definition DeliveryDirect : string := "direct".
Definition deliveryIsValid (m : string) : bool := String.eqb m DeliveryProxy || String.eqb m DeliveryDirect.

Definition TriggerProactiveRenewal : string := "proactive_renewal".
Definition TriggerFaultRateLimited : string := "fault_rate_limited".
Definition TriggerFaultAuthExpired : string := "fault_auth_expired".
Definition TriggerFaultProviderUnavailable : string := "fault_provider_unavailable".
Definition TriggerEmergencyRevocation : string := "emergency_revocation".
Definition TriggerUserCredentialRotated : string := "user_credential_rotated".
Definition TriggerUserCredentialRevoked : string := "user_credential_revoked".
Definition AllRotationTriggers : list string :=
  [TriggerProactiveRenewal; TriggerFaultRateLimited; TriggerFaultAuthExpired; TriggerFaultProviderUnavailable; TriggerEmergencyRevocation;
   TriggerUserCredentialRotated; TriggerUserCredentialRevoked].
Definition triggerIsValid (t : string) : bool := among t AllRotationTriggers.
Definition IsFaultTriggered (t : string) : bool := among t [TriggerFaultRateLimited; TriggerFaultAuthExpired; TriggerFaultProviderUnavailable].
Definition IsCeilingApplicable (t : string) : bool := negb (String.eqb t TriggerProactiveRenewal).
Definition CountsAgainstRotationBudget (t : string) : bool := negb (String.eqb t TriggerProactiveRenewal).

Record PoolConfig := mkPoolConfig {
  pc_Name : string; pc_Provider : string; pc_Strategy : string; MaxConcurrentSessions : Z; CooldownOnRateLimit : Z; pc_LeaseTTLSeconds : Z }.

Inductive ConfigViolation :=
| NameRequired | ProviderUnknown | StrategyUnknown | MaxSessionsNotPositive | CooldownNegative | TTLNegative.

Definition violation {A} (b : bool) (v : A) : list A := if b then [v] else [].

(** The violations; none means valid. *)
Definition poolConfigValidate (c : PoolConfig) : list ConfigViolation :=
  violation (is_empty (pc_Name c)) NameRequired ++ violation (negb (providerIsValid (pc_Provider c))) ProviderUnknown ++
  violation (negb (strategyIsValid (pc_Strategy c))) StrategyUnknown ++ violation (MaxConcurrentSessions c <=? 0)%Z MaxSessionsNotPositive ++
  violation (CooldownOnRateLimit c <? 0)%Z CooldownNegative ++ violation (pc_LeaseTTLSeconds c <? 0)%Z TTLNegative.

(** ** Instants in text ([time.Parse] with [time.RFC3339]) *)

Definition digit_of (c : Ascii.ascii) : option Z :=
  let n := Z.of_N (Ascii.N_of_ascii c) in if (48 <=? n)%Z && (n <=? 57)%Z then Some (n - 48)%Z else None.

(** One character, or nothing. *)
Definition expect (c : Ascii.ascii) (s : string) : option string :=
  match s with String d s => if Ascii.eqb c d then Some s else None | EmptyString => None end.

Definition one_digit (s : string) : option (Z * string) :=
  match s with String c s => (fun d => (d, s)) <$> digit_of c | EmptyString => None end.

(** [getnum]: two digits, or one when [fixed] is false. *)
Definition getnum (fixed : bool) (s : string) : option (Z * string) :=
  match one_digit s with
  | None => None
  | Some (d, rest) => match one_digit rest with
                      | Some (e, rest) => Some ((10 * d + e)%Z, rest)
                      | None => if fixed then None else Some (d, rest)
                      end
  end.

Definition year4 (s : string) : option (Z * string) :=
  '(a, s) ← getnum true s; '(b, s) ← getnum true s; Some ((100 * a + b)%Z, s).

(** A fraction of a second: digits past the ninth are dropped. *)
Fixpoint fraction (scale acc : Z) (s : string) : Z * string :=
  match s with
  | String c rest => match digit_of c with
                     | Some d => fraction (scale / 10) (acc + d * scale) rest
                     | None => (acc, s)
                     end
  | EmptyString => (acc, s)
  end.

Definition optional_fraction (s : string) : Z * string :=
  match s with
  | String c (String d _ as rest) =>
      if (Ascii.eqb c "." || Ascii.eqb c ",") && bool_decide (is_Some (digit_of d)) then fraction 100000000 0 rest else (0%Z, s)
  | _ => (0%Z, s)
  end.

(** [Z] or an offset, in seconds. *)
Definition zone (s : string) : option (Z * string) :=
  match expect "Z" s, s with
  | Some s, _ => Some (0%Z, s)
  | None, String sign s =>
      '(hh, s) ← getnum true s; s ← expect ":" s; '(mm, s) ← getnum true s;
      if (24 <? hh)%Z || (60 <? mm)%Z then None
      else let off := ((hh * 60 + mm) * 60)%Z in
           if Ascii.eqb sign "+" then Some (off, s) else if Ascii.eqb sign "-" then Some ((- off)%Z, s) else None
  | None, EmptyString => None
  end.

Definition isLeap (y : Z) : bool := (y mod 4 =? 0)%Z && (negb (y mod 100 =? 0)%Z || (y mod 400 =? 0)%Z).

Definition daysIn (m y : Z) : Z :=
  if (m =? 2)%Z then (if isLeap y then 29 else 28)%Z
  else if existsb (Z.eqb m) [4; 6; 9; 11]%Z then 30%Z else 31%Z.

Definition parseRFC3339 (s : string) : option Time :=
  '(y, s) ← year4 s; s ← expect "-" s; '(mo, s) ← getnum true s; s ← expect "-" s; '(d, s) ← getnum true s;
  s ← expect "T" s; '(h, s) ← getnum false s; s ← expect ":" s; '(mi, s) ← getnum true s; s ← expect ":" s; '(sec, s) ← getnum true s;
  let '(nanos, s) := optional_fraction s in
  '(off, s) ← zone s;
  if negb (is_empty s) then None
  else if (mo <? 1)%Z || (12 <? mo)%Z || (23 <? h)%Z || (59 <? mi)%Z || (59 <? sec)%Z then None
  else if (d <? 1)%Z || (daysIn mo y <? d)%Z then None
  else Some (days_of_date (mkDate y mo d) * Day + h * Hour + mi * Minute + (sec - off) * Second + nanos)%Z.

(** ** Materialized configurations ([materialize.go]) *)

Definition MaterializedConfig : Type := gmap string string.

Definition field (cfg : MaterializedConfig) (k : string) : string := default "" (cfg !! k).

Definition expiresAtField : string := "expiresAt".

Definition directRequiredFields : gmap string (list string) :=
  list_to_map [(ProviderAnthropicDirect, ["apiKey"]);
               (ProviderAWSBedrock, ["accessKeyId"; "secretAccessKey"; "sessionToken"; "region"; "expiresAt"]);
               (ProviderVertexAI, ["accessToken"; "projectId"; "region"; "expiresAt"]);
               (ProviderGitHub, ["token"; "expiresAt"]);
               (ProviderVaultTransit, ["vaultToken"; "vaultAddr"; "transitPath"; "keyName"; "expiresAt"])].

Inductive MaterializationReason := NoReason | BadExpiry | BothKeys | NeitherKey.
Record MaterializationError := mkMatError { me_provider : string; me_missing : list string; me_reason : MaterializationReason }.

Definition missingFields (cfg : MaterializedConfig) (want : list string) : list string :=
  filter (fun f => is_empty (field cfg f) = true) want.

Definition badExpiry (cfg : MaterializedConfig) : bool :=
  let v := field cfg expiresAtField in
  if is_empty v then false else match parseRFC3339 v with Some _ => false | None => true end.

Definition validateAzureOpenAI (cfg : MaterializedConfig) : option MaterializationError :=
  let missing := missingFields cfg ["endpoint"; "deploymentName"] in
  let hasAPIKey := negb (is_empty (field cfg "apiKey")) in
  let hasAccessToken := negb (is_empty (field cfg "accessToken")) in
  if hasAPIKey && hasAccessToken then Some (mkMatError ProviderAzureOpenAI missing BothKeys)
  else if negb hasAPIKey && negb hasAccessToken then Some (mkMatError ProviderAzureOpenAI missing NeitherKey)
  else let missing := if hasAccessToken then missing ++ missingFields cfg [expiresAtField] else missing in
       match missing with
       | [] => if badExpiry cfg then Some (mkMatError ProviderAzureOpenAI [] BadExpiry) else None
       | _ => Some (mkMatError ProviderAzureOpenAI missing NoReason)
       end.

Definition ValidateMaterializedConfig (p : string) (cfg : MaterializedConfig) : option MaterializationError :=
  if String.eqb p ProviderAzureOpenAI then validateAzureOpenAI cfg
  else match directRequiredFields !! p with
       | None => None
       | Some required =>
           match missingFields cfg required with
           | [] => if badExpiry cfg then Some (mkMatError p [] BadExpiry) else None
           | missing => Some (mkMatError p missing NoReason)
           end
       end.

Definition MaterializedExpiry (cfg : MaterializedConfig) : option Time :=
  let v := field cfg expiresAtField in if is_empty v then None else parseRFC3339 v.

(** ** Leases ([lease.go]) *)

Record ProxyConfig := mkProxy { ProxyURL : string; ProxyDialect : string; LeaseToken : string; UpstreamModel : string }.

Record Lease := mkLease {
  LeaseID : string; SessionID : string; Provider : string; Source : string; PoolID : string; CredentialID : string;
  TenantID : string; CredentialRef : string; DeliveryMode : string; IssuedAt : Time; ExpiresAt : Time; RenewBefore : Time;
  FallbackAllowed : bool; Proxy : option ProxyConfig; Direct : MaterializedConfig; SpiffeURI : string; CoordinationGeneration : Z }.

Inductive LeaseViolation :=
| LeaseIdRequired | SessionIdRequired | ProviderRequired | SourceInvalid | PoolIdentityRequired | UserIdentityRequired
| DeliveryInvalid | ProxyRequired | ProxyFieldsRequired | IssuedAtRequired | ExpiresAtRequired.

Definition leaseValidate (l : Lease) : list LeaseViolation :=
  violation (is_empty (LeaseID l)) LeaseIdRequired ++ violation (is_empty (SessionID l)) SessionIdRequired ++
  violation (is_empty (Provider l)) ProviderRequired ++ violation (negb (sourceIsValid (Source l))) SourceInvalid ++
  (if String.eqb (Source l) SourcePool then violation (is_empty (PoolID l) || is_empty (CredentialID l)) PoolIdentityRequired
   else if String.eqb (Source l) SourceUser then violation (is_empty (TenantID l) || is_empty (CredentialRef l)) UserIdentityRequired
   else []) ++
  violation (negb (deliveryIsValid (DeliveryMode l))) DeliveryInvalid ++
  (if String.eqb (DeliveryMode l) DeliveryProxy then
     match Proxy l with
     | None => [ProxyRequired]
     | Some p => violation (is_empty (ProxyURL p) || is_empty (ProxyDialect p) || is_empty (LeaseToken p)) ProxyFieldsRequired
     end
   else []) ++
  violation (time_is_zero (IssuedAt l)) IssuedAtRequired ++ violation (time_is_zero (ExpiresAt l)) ExpiresAtRequired.

Definition Expired (l : Lease) (now : Time) : bool := negb (time_before now (ExpiresAt l)).

Definition leaseDuration (l : Lease) (now : Time) : Duration :=
  if time_is_zero (IssuedAt l) || time_before now (IssuedAt l) then 0%Z else time_sub now (IssuedAt l).

Record CredentialKey := mkKey { k_source : string; k_pool : string; k_credential : string; k_tenant : string; k_ref : string }.
#[export] Instance CredentialKey_eq_dec : EqDecision CredentialKey.
Proof. solve_decision. Defined.
#[export] Instance CredentialKey_countable : Countable CredentialKey.
Proof.
  refine (inj_countable' (fun k => (k_source k, k_pool k, k_credential k, k_tenant k, k_ref k))
            (fun '(a, b, c, d, e) => mkKey a b c d e) _). by intros [].
Defined.

Definition credentialKey (l : Lease) : CredentialKey :=
  if String.eqb (Source l) SourceUser then mkKey SourceUser "" "" (TenantID l) (CredentialRef l)
  else mkKey SourcePool (PoolID l) (CredentialID l) "" "".

Definition pool_key (pool cred : string) : CredentialKey := mkKey SourcePool pool cred "" "".

Inductive LeaseRejection := RejectNone | RejectExpired | RejectRevoked | RejectSpiffeMismatch.

Record ProxyRequestCheck := mkProxyCheck { Now : Time; PeerSPIFFEURI : string; Revoked_ : bool }.

Definition ValidateProxyRequest (l : Lease) (c : ProxyRequestCheck) : LeaseRejection :=
  if Expired l (Now c) then RejectExpired
  else if Revoked_ c then RejectRevoked
  else if negb (is_empty (SpiffeURI l)) && negb (String.eqb (SpiffeURI l) (PeerSPIFFEURI c)) then RejectSpiffeMismatch
  else RejectNone.

(** ** Dialects ([lease.go]) *)

Definition ProxyDialectAnthropic : string := "anthropic".
Definition ProxyDialectOpenAI : string := "openai".
Definition ProxyDialectGoogle : string := "google".
Definition ProxyDialectCursor : string := "cursor".
Definition AllProxyDialects : list string := [ProxyDialectAnthropic; ProxyDialectOpenAI; ProxyDialectGoogle; ProxyDialectCursor].
Definition dialectIsValid (d : string) : bool := among d AllProxyDialects.

Definition UserProxyDialect (p : string) : option string :=
  if String.eqb p ProviderAnthropicDirect then Some ProxyDialectAnthropic
  else if String.eqb p ProviderAzureOpenAI then Some ProxyDialectOpenAI
  else if String.eqb p ProviderVertexAI then Some ProxyDialectGoogle
  else if String.eqb p ProviderCursorDirect then Some ProxyDialectCursor
  else None.

(** ** Minting ([lease_mint.go]) *)

Definition DefaultLeaseTTLSeconds : Z := 3600.
Definition DefaultRenewBeforeSeconds : Z := 300.

Definition ProviderMaxTTLSeconds (p : string) : Z :=
  if String.eqb p ProviderAWSBedrock then 43200
  else if String.eqb p ProviderAzureOpenAI then 86400
  else if String.eqb p ProviderVertexAI then 3600
  else if String.eqb p ProviderGitHub then 3600
  else 0.

Definition ResolveLeaseTTL (poolTTLSeconds : Z) (p : string) : Duration :=
  let ttl := if (poolTTLSeconds <=? 0)%Z then DefaultLeaseTTLSeconds else poolTTLSeconds in
  let max := ProviderMaxTTLSeconds p in
  let ttl := if (0 <? max)%Z && (max <? ttl)%Z then max else ttl in
  wrap64 (ttl * Second).

Record MintRequest := mkMint {
  m_SessionID : string; m_Provider : string; m_Source : string; m_PoolID : string; m_CredentialID : string; m_TenantID : string;
  m_CredentialRef : string; m_DeliveryMode : string; m_PoolTTLSeconds : Z; m_RenewBeforeSeconds : Z; m_FallbackAllowed : bool;
  m_Now : Time; m_SpiffeURI : string; m_ProxyURL : string; m_ProxyDialect : string; m_UpstreamModel : string; m_Direct : MaterializedConfig }.

(** The identifier and token drawn; [None] is a failed read of random bytes.
    [drawn_now] is the clock, used when the request carries no instant. *)
Record Draw := mkDraw { d_id : option string; d_token : option string; drawn_now : Time }.

Inductive MintError := RandomFailed | NotMaterialized (e : MaterializationError) | InvalidLease (v : list LeaseViolation).

Definition clampDirectExpiry (l : Lease) : Lease :=
  match MaterializedExpiry (Direct l) with
  | Some credExpiry =>
      if time_before credExpiry (ExpiresAt l)
      then mkLease (LeaseID l) (SessionID l) (Provider l) (Source l) (PoolID l) (CredentialID l) (TenantID l) (CredentialRef l)
             (DeliveryMode l) (IssuedAt l) credExpiry (time_add credExpiry (wrap64 (- time_sub (ExpiresAt l) (RenewBefore l))))
             (FallbackAllowed l) (Proxy l) (Direct l) (SpiffeURI l) (CoordinationGeneration l)
      else l
  | None => l
  end.

Definition MintLease (g : Draw) (r : MintRequest) : result MintError Lease :=
  let now := if time_is_zero (m_Now r) then drawn_now g else m_Now r in
  let renewBefore := if (m_RenewBeforeSeconds r <=? 0)%Z then DefaultRenewBeforeSeconds else m_RenewBeforeSeconds r in
  let expiresAt := time_add now (ResolveLeaseTTL (m_PoolTTLSeconds r) (m_Provider r)) in
  match d_id g with
  | None => Err RandomFailed
  | Some id =>
      let lease proxy direct :=
        mkLease ("cl-" +:+ id) (m_SessionID r) (m_Provider r) (m_Source r) (m_PoolID r) (m_CredentialID r) (m_TenantID r) (m_CredentialRef r)
          (m_DeliveryMode r) now expiresAt (time_add expiresAt (wrap64 (- renewBefore * Second))) (m_FallbackAllowed r) proxy direct
          (m_SpiffeURI r) 0 in
      let finish l := match leaseValidate l with [] => Ok l | v => Err (InvalidLease v) end in
      if String.eqb (m_DeliveryMode r) DeliveryProxy then
        match d_token g with
        | None => Err RandomFailed
        | Some tok => finish (lease (Some (mkProxy (m_ProxyURL r) (m_ProxyDialect r) ("lt-" +:+ tok) (m_UpstreamModel r))) ∅)
        end
      else if String.eqb (m_DeliveryMode r) DeliveryDirect then
        match ValidateMaterializedConfig (m_Provider r) (m_Direct r) with
        | Some e => Err (NotMaterialized e)
        | None => finish (clampDirectExpiry (lease None (m_Direct r)))
        end
      else finish (lease None ∅)
  end.

(** ** Choosing a credential ([select.go]) *)

Record CredentialCandidate := mkCandidate { c_id : string; ActiveSessions : Z; Healthy : bool }.

Record SelectionState := mkSelection { Cursor : Z; Sticky : string }.

Inductive SelectError := ErrPoolExhausted | UnknownStrategy.

(** The loop of [leastLoaded], from candidate [i] on. *)
Fixpoint leastLoaded_from (i : nat) (best : option (nat * CredentialCandidate)) (cs : list CredentialCandidate) :
    option (nat * CredentialCandidate) :=
  match cs with
  | [] => best
  | c :: cs =>
      let best := if negb (Healthy c) then best
                  else match best with
                       | None => Some (i, c)
                       | Some (_, b) => if (ActiveSessions c <? ActiveSessions b)%Z then Some (i, c) else best
                       end in
      leastLoaded_from (S i) best cs
  end.

Definition leastLoaded (cs : list CredentialCandidate) : option (nat * CredentialCandidate) := leastLoaded_from 0 None cs.

(** The indices [nextHealthy] visits; [Z.rem] is Go's [%]. *)
Definition visit (cursor n : Z) (off : nat) : nat := Z.to_nat (Z.rem (Z.rem cursor n + n + Z.of_nat off) n).

Fixpoint firstHealthy (cs : list CredentialCandidate) (order : list nat) : option (nat * CredentialCandidate) :=
  match order with
  | [] => None
  | i :: order => match cs !! i with
                  | Some c => if Healthy c then Some (i, c) else firstHealthy cs order
                  | None => None
                  end
  end.

Definition nextHealthy (cs : list CredentialCandidate) (cursor : Z) : option (nat * CredentialCandidate) :=
  match cs with
  | [] => None
  | _ => firstHealthy cs (visit cursor (Z.of_nat (length cs)) <$> seq 0 (length cs))
  end.

Fixpoint healthyByID_from (cs : list CredentialCandidate) (id : string) : option CredentialCandidate :=
  match cs with
  | [] => None
  | c :: cs => if String.eqb (c_id c) id && Healthy c then Some c else healthyByID_from cs id
  end.

Definition healthyByID (cs : list CredentialCandidate) (id : string) : option CredentialCandidate :=
  if is_empty id then None else healthyByID_from cs id.

Definition SelectCredential (strategy : string) (cs : list CredentialCandidate) (st : SelectionState) :
    result SelectError (CredentialCandidate * SelectionState) :=
  if String.eqb strategy StrategyLeastLoaded then
    match leastLoaded cs with Some (_, c) => Ok (c, st) | None => Err ErrPoolExhausted end
  else if String.eqb strategy StrategyRoundRobin then
    match nextHealthy cs (Cursor st) with
    | Some (i, c) => Ok (c, mkSelection (Z.rem (Z.of_nat i + 1) (Z.of_nat (length cs))) (Sticky st))
    | None => Err ErrPoolExhausted
    end
  else if String.eqb strategy StrategyStickyUntilFailure then
    match healthyByID cs (Sticky st) with
    | Some c => Ok (c, st)
    | None => match leastLoaded cs with
              | Some (_, c) => Ok (c, mkSelection (Cursor st) (c_id c))
              | None => Err ErrPoolExhausted
              end
    end
  else Err UnknownStrategy.

(** ** The lease store ([credleasestore.go]) *)

Record Store := mkStore { byID : gmap string Lease; byToken : gmap string string }.

Definition NewStore : Store := mkStore ∅ ∅.

Definition dropToken (l : Lease) (m : gmap string string) : gmap string string :=
  match Proxy l with Some p => delete (LeaseToken p) m | None => m end.

Definition Put (l : Lease) (s : Store) : result (list LeaseViolation) Store :=
  match leaseValidate l with
  | [] =>
      let tokens := match byID s !! LeaseID l with Some prior => dropToken prior (byToken s) | None => byToken s end in
      Ok (mkStore (<[LeaseID l := l]> (byID s))
            (if String.eqb (DeliveryMode l) DeliveryProxy
             then match Proxy l with Some p => <[LeaseToken p := LeaseID l]> tokens | None => tokens end
             else tokens))
  | v => Err v
  end.

Definition GetByToken (tok : string) (s : Store) : option Lease := id ← byToken s !! tok; byID s !! id.

Definition GetByID (id : string) (s : Store) : option Lease := byID s !! id.

Definition with_expiry (expires renew : Time) (l : Lease) : Lease :=
  mkLease (LeaseID l) (SessionID l) (Provider l) (Source l) (PoolID l) (CredentialID l) (TenantID l) (CredentialRef l)
    (DeliveryMode l) (IssuedAt l) expires renew (FallbackAllowed l) (Proxy l) (Direct l) (SpiffeURI l) (CoordinationGeneration l).

Definition Advance (l : Lease) (s : Store) : Store * bool :=
  match byID s !! LeaseID l with
  | None => (s, false)
  | Some cur => (mkStore (<[LeaseID l := with_expiry (ExpiresAt l) (RenewBefore l) cur]> (byID s)) (byToken s), true)
  end.

Definition Remove (id : string) (s : Store) : Store :=
  match byID s !! id with
  | None => s
  | Some l => mkStore (delete id (byID s)) (dropToken l (byToken s))
  end.

(** [order] is the order in which the map is ranged over. *)
Definition LeasesBySession (sessionIDs : list string) (order : list string) (s : Store) : list Lease :=
  filter (fun l => SessionID l ∈ sessionIDs) (omap (fun id => byID s !! id) order).

Definition LeasesByCredential (key : CredentialKey) (order : list string) (s : Store) : list Lease :=
  filter (fun l => credentialKey l = key) (omap (fun id => byID s !! id) order).

Definition DeleteExpired (cutoff : Time) (s : Store) : Store * Z :=
  let gone := filter (fun kv : string * Lease => time_before (ExpiresAt kv.2) cutoff = true) (map_to_list (byID s)) in
  (mkStore (filter (fun kv : string * Lease => time_before (ExpiresAt kv.2) cutoff = false) (byID s))
     (foldr (fun kv m => dropToken kv.2 m) (byToken s) gone), Z.of_nat (length gone)).

Definition activeLease (asOf : Time) (l : Lease) : bool := time_is_zero (ExpiresAt l) || time_after (ExpiresAt l) asOf.

Definition LeasesByCredentialCount (key : CredentialKey) (asOf : Time) (s : Store) : Z :=
  Z.of_nat (size (filter (fun kv : string * Lease => credentialKey kv.2 = key /\ activeLease asOf kv.2 = true) (byID s))).

(** ** The deny list ([denylist.go]) and its sweep *)

Definition DenyList : Type := gset CredentialKey.

Definition Revoke (key : CredentialKey) (d : DenyList) : DenyList := {[key]} ∪ d.
Definition ResetDeny (keys : list CredentialKey) : DenyList := list_to_set keys.
Definition RemoveDeny (key : CredentialKey) (d : DenyList) : DenyList := d ∖ {[key]}.
Definition Revoked (key : CredentialKey) (d : DenyList) : bool := bool_decide (key ∈ d).

(** [sweepExpiredCredentialLeases] over a store that answers; [counts] says for
    which keys the count could be read. *)
Definition sweepExpiredCredentialLeases (counts : CredentialKey -> bool) (now : Time) (s : Store) (d : DenyList) : Store * DenyList * (Z * Z) :=
  let '(s, swept) := DeleteExpired now s in
  let gone := filter (fun key => counts key && (LeasesByCredentialCount key now s <=? 0)%Z = true) d in
  (s, d ∖ gone, (swept, Z.of_nat (size gone))).

(** ** Assignment ([credassign.go]) *)

Record PoolCredential := mkPoolCredential { pcr_ID : string; APIKey : string; Materialized : MaterializedConfig; pcr_Healthy : bool }.

Record Pool := mkPool {
  p_Name : string; p_Provider : string; p_DeliveryMode : string; p_Strategy : string; p_ProxyURL : string; p_ProxyDialect : string;
  p_LeaseTTLSeconds : Z; p_RenewBeforeSeconds : Z; Credentials : list PoolCredential }.

Record poolState := mkPoolState { ps_pool : Pool; selection : SelectionState; active : gmap string Z; revoked : gset string }.

(** The pools, the lease store and the cache of secrets. *)
Record Service := mkService { pools : gmap string poolState; leases : Store; creds : gmap CredentialKey string }.

Definition RegisterPool (p : Pool) (s : Service) : Service :=
  mkService (<[p_Name p := mkPoolState p (mkSelection 0 "") ∅ ∅]> (pools s)) (leases s) (creds s).

Definition RevokeCredential (poolName credentialID : string) (s : Service) : Service :=
  if is_empty poolName || is_empty credentialID then s
  else match pools s !! poolName with
       | None => s
       | Some ps => mkService (<[poolName := mkPoolState (ps_pool ps) (selection ps) (active ps) ({[credentialID]} ∪ revoked ps)]> (pools s))
                      (leases s) (creds s)
       end.

Definition activeOf (ps : poolState) (cred : string) : Z := default 0%Z (active ps !! cred).

Definition candidates (ps : poolState) : list CredentialCandidate :=
  (fun c => mkCandidate (pcr_ID c) (activeOf ps (pcr_ID c)) (pcr_Healthy c && negb (bool_decide (pcr_ID c ∈ revoked ps)))) <$> Credentials (ps_pool ps).

Definition directConfigFor (p : Pool) (credentialID : string) : MaterializedConfig :=
  if negb (String.eqb (p_DeliveryMode p) DeliveryDirect) then ∅
  else match list_find (fun c => pcr_ID c = credentialID) (Credentials p) with
       | None => ∅
       | Some (_, c) =>
           if bool_decide (Materialized c = ∅) && String.eqb (p_Provider p) ProviderAnthropicDirect && negb (is_empty (APIKey c))
           then {["apiKey" := APIKey c]} else Materialized c
       end.

Definition credentialSecret (p : Pool) (credentialID : string) : string :=
  match list_find (fun c => pcr_ID c = credentialID) (Credentials p) with Some (_, c) => APIKey c | None => "" end.

Inductive AssignError := ErrPoolNotFound | SelectFailed (e : SelectError) | MintFailed (e : MintError) | StoreRejected (v : list LeaseViolation).

Definition with_generation (g : Z) (l : Lease) : Lease :=
  mkLease (LeaseID l) (SessionID l) (Provider l) (Source l) (PoolID l) (CredentialID l) (TenantID l) (CredentialRef l)
    (DeliveryMode l) (IssuedAt l) (ExpiresAt l) (RenewBefore l) (FallbackAllowed l) (Proxy l) (Direct l) (SpiffeURI l) g.

Definition mintRequest (ps : poolState) (poolName cred sessionID spiffeURI tenantID : string) (now : Time) : MintRequest :=
  let p := ps_pool ps in
  mkMint sessionID (p_Provider p) SourcePool poolName cred tenantID "" (p_DeliveryMode p) (p_LeaseTTLSeconds p) (p_RenewBeforeSeconds p)
    true now spiffeURI (p_ProxyURL p) (p_ProxyDialect p) "" (directConfigFor p cred).

Definition assignLocked (g : Draw) (now : Time) (poolName sessionID spiffeURI tenantID : string) (generation : Z) (s : Service) :
    Service * result AssignError Lease :=
  match pools s !! poolName with
  | None => (s, Err ErrPoolNotFound)
  | Some ps =>
      match SelectCredential (p_Strategy (ps_pool ps)) (candidates ps) (selection ps) with
      | Err e => (s, Err (SelectFailed e))
      | Ok (selected, next) =>
          match MintLease g (mintRequest ps poolName (c_id selected) sessionID spiffeURI tenantID now) with
          | Err e => (s, Err (MintFailed e))
          | Ok lease =>
              let lease := with_generation generation lease in
              match Put lease (leases s) with
              | Err v => (s, Err (StoreRejected v))
              | Ok st =>
                  (mkService (<[poolName := mkPoolState (ps_pool ps) next (<[c_id selected := wrap64 (activeOf ps (c_id selected) + 1)]> (active ps))
                                             (revoked ps)]> (pools s))
                     st (<[credentialKey lease := credentialSecret (ps_pool ps) (c_id selected)]> (creds s)), Ok lease)
              end
          end
      end
  end.

Definition releaseLocked (leaseID : string) (s : Service) : Service :=
  match GetByID leaseID (leases s) with
  | None => s
  | Some l =>
      let pools := match pools s !! PoolID l with
                   | Some ps =>
                       if (0 <? activeOf ps (CredentialID l))%Z
                       then <[PoolID l := mkPoolState (ps_pool ps) (selection ps)
                                            (<[CredentialID l := (activeOf ps (CredentialID l) - 1)%Z]> (active ps)) (revoked ps)]> (pools s)
                       else pools s
                   | None => pools s
                   end in
      mkService pools (Remove leaseID (leases s)) (creds s)
  end.

(** One listing of [releaseMatching], under the lock. *)
Definition releaseMatching_pass (sessionID : string) (match_ : Lease -> bool) (order : list string) (s : Service) : Service :=
  foldl (fun s l => if match_ l then releaseLocked (LeaseID l) s else s) s (LeasesBySession [sessionID] order (leases s)).

(** The lock is released between the two listings; [between] is what others do
    there. *)
Definition releaseMatching (sessionID : string) (match_ : Lease -> bool) (o1 o2 : list string) (between : Service -> Service) (s : Service) : Service :=
  if is_empty sessionID then s
  else releaseMatching_pass sessionID match_ o2 (between (releaseMatching_pass sessionID match_ o1 s)).

Definition ReleaseSession (sessionID : string) := releaseMatching sessionID (fun _ => true).
Definition ReleaseThrough (sessionID : string) (generation : Z) := releaseMatching sessionID (fun l => (CoordinationGeneration l <=? generation)%Z).

(** ** A request at the proxy ([llmproxy/handler.go]) *)

Inductive ProxyAnswer := TokenMissing | TokenInvalid | LeaseRejected (r : LeaseRejection) | Forward (secret : option string).

(** The checks on the lease, up to the budget gate; the secret is what
    [UpstreamCredential] then finds. *)
Definition checkLease (tok peer : string) (now : Time) (d : DenyList) (s : Service) : ProxyAnswer :=
  if is_empty tok then TokenMissing
  else match GetByToken tok (leases s) with
       | None => TokenInvalid
       | Some l => match ValidateProxyRequest l (mkProxyCheck now peer (Revoked (credentialKey l) d)) with
                   | RejectNone => Forward (creds s !! credentialKey l)
                   | r => LeaseRejected r
                   end
       end.

(** ** An emergency revocation on one replica ([credential_revocation.go], [propagator.go]: [applyLocal], [onRevoke]) *)

(** The deny list first, then the assignment service; the rotation of direct
    pods that follows uses [assignLocked]. *)
Definition applyLocal (key : CredentialKey) (d : DenyList) (s : Service) : DenyList * Service :=
  (Revoke key d,
   if negb (String.eqb (k_source key) SourcePool) || is_empty (k_pool key) || is_empty (k_credential key) then s
   else RevokeCredential (k_pool key) (k_credential key) s).

(** ** The policy of a tenant ([policy.go]) *)

Definition PreferredSourcePool : string := "pool".
Definition PreferredSourceUser : string := "user".
Definition PreferUserThenPool : string := "prefer-user-then-pool".
Definition PreferPoolThenUser : string := "prefer-pool-then-user".
Definition AllPreferredSources : list string := [PreferredSourcePool; PreferredSourceUser; PreferUserThenPool; PreferPoolThenUser].
Definition preferredIsValid (p : string) : bool := among p AllPreferredSources.
Definition Normalize (p : string) : string := if is_empty p then PreferredSourcePool else p.

Definition SourceOrder (p : string) : list string :=
  let p := Normalize p in
  if String.eqb p PreferredSourceUser then [SourceUser]
  else if String.eqb p PreferUserThenPool then [SourceUser; SourcePool]
  else if String.eqb p PreferPoolThenUser then [SourcePool; SourceUser]
  else [SourcePool].

Definition UsesUserCredentials (p : string) : bool := among (Normalize p) [PreferredSourceUser; PreferUserThenPool; PreferPoolThenUser].
Definition UserMissIsTerminal (p : string) : bool := String.eqb (Normalize p) PreferredSourceUser.

Definition DefaultMaxRotationsPerSession : Z := 3.
Definition DefaultCooldownOnRateLimitSeconds : Z := 60.

Record ProviderPool := mkProviderPool { DefaultPool : string; Order : list string }.

Definition PoolOrder (pp : ProviderPool) : list string :=
  match Order pp with
  | [] => if is_empty (DefaultPool pp) then [] else [DefaultPool pp]
  | order => order
  end.

Record PolicyFallback := mkPolicyFallback { CooldownOnRateLimitSeconds : Z; MaxRotationsPerSession : Z }.

Definition EffectiveCooldownSeconds (f : PolicyFallback) : Z :=
  if (CooldownOnRateLimitSeconds f <=? 0)%Z then DefaultCooldownOnRateLimitSeconds else CooldownOnRateLimitSeconds f.
Definition EffectiveMaxRotations (f : PolicyFallback) : Z :=
  if (MaxRotationsPerSession f <=? 0)%Z then DefaultMaxRotationsPerSession else MaxRotationsPerSession f.

Record CredentialPolicy := mkPolicy {
  PreferredSource : string; ProviderPools : gmap string ProviderPool; Fallback : PolicyFallback; UserCredentialsEnabled : bool }.

Definition Configured (c : CredentialPolicy) : bool :=
  negb (is_empty (PreferredSource c)) || bool_decide (ProviderPools c <> ∅) || negb (CooldownOnRateLimitSeconds (Fallback c) =? 0)%Z ||
  negb (MaxRotationsPerSession (Fallback c) =? 0)%Z || UserCredentialsEnabled c.

Definition Providers (c : CredentialPolicy) : list string := sort_strings (map_to_list (ProviderPools c)).*1.

Definition PoolOrderFor (c : CredentialPolicy) (provider : string) : list string :=
  match ProviderPools c !! provider with Some pp => PoolOrder pp | None => [] end.

Inductive PolicyViolation := SourceUnknown (p : string) | PoolsMissing (provider : string) | CooldownBelowZero | RotationsBelowZero.

Definition policyValidate (c : CredentialPolicy) : list PolicyViolation :=
  violation (negb (is_empty (PreferredSource c)) && negb (preferredIsValid (PreferredSource c))) (SourceUnknown (PreferredSource c)) ++
  (PoolsMissing <$> filter (fun p => PoolOrderFor c p = []) (Providers c)) ++
  violation (CooldownOnRateLimitSeconds (Fallback c) <? 0)%Z CooldownBelowZero ++
  violation (MaxRotationsPerSession (Fallback c) <? 0)%Z RotationsBelowZero.
