(* ===== verification/CredentialRuns.v ===== *)
(** * Credential leases over time ([credential], [gateway/credentials])

    The choice of a credential, the index of lease tokens, the accounting of
    sessions per credential, and what a revocation means for every request that
    follows it, over all histories of assignments, releases, extensions, sweeps
    and revocations. *)

From S2P Require Import Prelude Calendar Credentials.

(** ** Choosing a credential *)

(** The best so far: the first of the least loaded healthy candidates. *)
Definition best_of (cs : list CredentialCandidate) (r : option (nat * CredentialCandidate)) : Prop :=
  match r with
  | None => forall j c, cs !! j = Some c -> Healthy c = false
  | Some (i, c) => cs !! i = Some c /\ Healthy c = true /\
      forall j d, cs !! j = Some d -> Healthy d = true ->
        (ActiveSessions c <= ActiveSessions d)%Z /\ (j < i -> (ActiveSessions c < ActiveSessions d)%Z)
  end.

Lemma best_of_snoc pre c r : best_of pre r ->
  best_of (pre ++ [c])
    (if negb (Healthy c) then r
     else match r with
          | None => Some (length pre, c)
          | Some (_, b) => if (ActiveSessions c <? ActiveSessions b)%Z then Some (length pre, c) else r
          end).
Proof.
  intros Hr. assert (forall j d, (pre ++ [c]) !! j = Some d -> pre !! j = Some d \/ (j = length pre /\ d = c)) as Hsnoc.
  { intros j d Hj. apply lookup_app_Some in Hj as [|[Hl Hj]]; [by left|right]. apply list_lookup_singleton_Some in Hj as [? ->]. split; [lia|done]. }
  destruct (Healthy c) eqn:Hc; cbn [negb].
  - destruct r as [[i b]|]; cbn in Hr.
    + destruct Hr as (Hi & Hb & Hmin). pose proof (lookup_lt_Some _ _ _ Hi). destruct (Z.ltb_spec (ActiveSessions c) (ActiveSessions b)); cbn.
      * split; [by rewrite list_lookup_middle|]. split; [done|].
        intros j d [Hj|[-> ->]]%Hsnoc Hd; [|lia]. pose proof (lookup_lt_Some _ _ _ Hj). destruct (Hmin j d Hj Hd). lia.
      * split; [by apply lookup_app_l_Some|]. split; [done|]. intros j d [Hj|[-> ->]]%Hsnoc Hd; [by apply Hmin|lia].
    + split; [by rewrite list_lookup_middle|]. split; [done|]. intros j d [Hj|[-> ->]]%Hsnoc Hd; [|lia]. by rewrite (Hr j d Hj) in Hd.
  - destruct r as [[i b]|]; cbn in *.
    + destruct Hr as (Hi & Hb & Hmin). split; [by apply lookup_app_l_Some|]. split; [done|].
      intros j d [Hj|[-> ->]]%Hsnoc Hd; [by apply Hmin|congruence].
    + intros j d [Hj|[-> ->]]%Hsnoc; [by eapply Hr|done].
Qed.

Lemma leastLoaded_best cs : best_of cs (leastLoaded cs).
Proof.
  unfold leastLoaded. assert (best_of [] None) as H0 by (by intros j c Hj). change 0 with (length ([] : list CredentialCandidate)).
  change cs with ([] ++ cs) at 1. revert H0. generalize ([] : list CredentialCandidate) as pre, (None : option (nat * CredentialCandidate)) as r.
  induction cs as [|c cs IH]; intros pre r Hr; cbn [leastLoaded_from]; [by rewrite app_nil_r|].
  rewrite cons_middle, app_assoc. replace (S (length pre)) with (length (pre ++ [c])) by (rewrite length_app; cbn; lia).
  apply IH, best_of_snoc, Hr.
Qed.

Lemma firstHealthy_spec cs order : (forall i, i ∈ order -> i < length cs) ->
  match firstHealthy cs order with
  | Some (i, c) => cs !! i = Some c /\ Healthy c = true /\
      exists pre post, order = pre ++ i :: post /\ forall j d, j ∈ pre -> cs !! j = Some d -> Healthy d = false
  | None => forall j d, j ∈ order -> cs !! j = Some d -> Healthy d = false
  end.
Proof.
  induction order as [|i order IH]; intros Hlt; cbn [firstHealthy]; [by intros j d ?%not_elem_of_nil|].
  destruct (lookup_lt_is_Some_2 cs i) as [c Hi]; [apply Hlt; left|]. rewrite Hi.
  destruct (Healthy c) eqn:Hc.
  - split; [done|]. split; [done|]. exists [], order. split; [done|]. by intros j d ?%not_elem_of_nil.
  - specialize (IH ltac:(intros; apply Hlt; by right)). destruct (firstHealthy cs order) as [[k d]|].
    + destruct IH as (Hk & Hd & pre & post & -> & Hpre). split; [done|]. split; [done|]. exists (i :: pre), post. split; [done|].
      intros j e [->|Hj]%elem_of_cons He; [congruence|]. by eapply Hpre.
    + intros j e [->|Hj]%elem_of_cons He; [congruence|]. by eapply IH.
Qed.

(** For a cursor in range the visit is the rotation that starts at it. *)
Lemma visit_spec cursor n off : (0 <= cursor < Z.of_nat n)%Z -> off < n ->
  visit cursor (Z.of_nat n) off = (Z.to_nat cursor + off) mod n.
Proof.
  intros Hc Ho. unfold visit. rewrite (Z.rem_small cursor) by lia. rewrite Z.rem_mod_nonneg by lia.
  replace (cursor + Z.of_nat n + Z.of_nat off)%Z with ((cursor + Z.of_nat off) + 1 * Z.of_nat n)%Z by lia. rewrite Z_mod_plus_full.
  rewrite <- (Z2Nat.id cursor) at 1 by lia. rewrite <- Nat2Z.inj_add, <- Nat2Z.inj_mod. apply Nat2Z.id.
Qed.

Lemma rotation_covers n k j : k < n -> j < n -> exists off, off < n /\ (k + off) mod n = j.
Proof.
  intros Hk Hj. destruct (decide (k <= j)).
  - exists (j - k). split; [lia|]. rewrite Nat.mod_small; lia.
  - exists (n + j - k). split; [lia|]. replace (k + (n + j - k)) with (j + 1 * n) by lia. rewrite Nat.Div0.mod_add. by apply Nat.mod_small.
Qed.

Lemma best_of_member cs i c : best_of cs (Some (i, c)) -> c ∈ cs /\ Healthy c = true.
Proof. intros (Hi & Hc & _). split; [by eapply list_elem_of_lookup_2|done]. Qed.

Lemma unhealthy_all cs : best_of cs None -> forall c, c ∈ cs -> Healthy c = false.
Proof. intros H c [j Hj]%list_elem_of_lookup_1. by eapply H. Qed.

Lemma nextHealthy_spec cs cursor : (0 <= cursor)%Z -> (cursor < Z.of_nat (length cs) \/ cs = [])%Z ->
  let at_ o := (Z.to_nat cursor + o) mod length cs in
  match nextHealthy cs cursor with
  | Some (i, c) => cs !! i = Some c /\ Healthy c = true /\ exists off, off < length cs /\ at_ off = i /\
      forall o d, o < off -> cs !! at_ o = Some d -> Healthy d = false
  | None => forall c, c ∈ cs -> Healthy c = false
  end.
Proof.
  intros H0 Hcur at_. unfold nextHealthy. destruct cs as [|x cs']; [by intros c ?%not_elem_of_nil|]. set (cs := x :: cs') in *.
  destruct Hcur as [Hcur|]; [|done]. set (order := visit cursor (Z.of_nat (length cs)) <$> seq 0 (length cs)).
  assert (forall o, o < length cs -> order !! o = Some (at_ o)) as Hat.
  { intros o Ho. unfold order. rewrite list_lookup_fmap, lookup_seq_lt by done. cbn [fmap option_fmap option_map]. rewrite visit_spec by (done || lia). done. }
  assert (length order = length cs) as Hlen by (unfold order; by rewrite length_fmap, length_seq).
  pose proof (firstHealthy_spec cs order) as Hf.
  assert (forall i, i ∈ order -> i < length cs) as Hlt.
  { intros i [o Ho]%list_elem_of_lookup_1. pose proof (lookup_lt_Some _ _ _ Ho). rewrite Hat in Ho by lia. injection Ho as <-.
    apply Nat.mod_upper_bound. lia. }
  specialize (Hf Hlt). destruct (firstHealthy cs order) as [[i c]|].
  - destruct Hf as (Hi & Hc & pre & post & Ho & Hpre). split; [done|]. split; [done|]. exists (length pre).
    assert (length pre < length cs) as Hp by (rewrite <- Hlen, Ho, length_app; cbn; lia).
    split; [done|]. split.
    + pose proof (Hat _ Hp) as E. rewrite Ho, list_lookup_middle in E by done. by injection E.
    + intros o d Hod Hd. apply (Hpre (at_ o) d); [|done]. eapply list_elem_of_lookup_2 with o. rewrite <- (lookup_app_l pre (i :: post)) by done.
      rewrite <- Ho. apply Hat. lia.
  - intros c [j Hj]%list_elem_of_lookup_1. apply (Hf j c); [|done].
    destruct (rotation_covers (length cs) (Z.to_nat cursor) j) as (off & Hoff & <-); [lia|by eapply lookup_lt_Some|].
    eapply list_elem_of_lookup_2, Hat, Hoff.
Qed.

Lemma healthyByID_spec cs id :
  match healthyByID cs id with
  | Some c => c ∈ cs /\ Healthy c = true /\ c_id c = id
  | None => id = "" \/ forall d, d ∈ cs -> Healthy d = true -> c_id d <> id
  end.
Proof.
  unfold healthyByID. destruct (is_empty id) eqn:E; [left; by apply is_empty_spec|].
  induction cs as [|c cs IH]; cbn [healthyByID_from]; [right; by intros d ?%not_elem_of_nil|].
  destruct (String.eqb_spec (c_id c) id) as [Hid|Hid], (Healthy c) eqn:Hc; cbn [andb]; [by repeat (split; [left|])| | |].
  all: destruct (healthyByID_from cs id) as [d|]; [destruct IH as (? & ? & ?); split; [by right|done]|].
  all: destruct IH as [->|IH]; [done|right]; intros d [->|Hd]%elem_of_cons Hh; [congruence|by apply IH].
Qed.

(** What each strategy chooses.  A pool is exhausted exactly when no candidate is
    healthy. *)
Theorem selection_exact strategy cs st : strategyIsValid strategy = true -> (0 <= Cursor st)%Z -> (Cursor st < Z.of_nat (length cs) \/ cs = [])%Z ->
  match SelectCredential strategy cs st with
  | Ok (c, st') =>
      c ∈ cs /\ Healthy c = true /\
      (strategy = StrategyLeastLoaded -> st' = st /\ exists i, best_of cs (Some (i, c))) /\
      (strategy = StrategyRoundRobin -> exists off, off < length cs /\
         let at_ o := (Z.to_nat (Cursor st) + o) mod length cs in
         cs !! at_ off = Some c /\ (forall o d, o < off -> cs !! at_ o = Some d -> Healthy d = false) /\
         Cursor st' = Z.of_nat ((at_ off + 1) mod length cs)) /\
      (strategy = StrategyStickyUntilFailure ->
         c_id c = Sticky st' /\ (st' = st \/ Sticky st = "" \/ forall d, d ∈ cs -> Healthy d = true -> c_id d <> Sticky st))
  | Err e => e = ErrPoolExhausted /\ forall c, c ∈ cs -> Healthy c = false
  end.
Proof.
  intros Hs H0 Hcur. unfold SelectCredential. pose proof (leastLoaded_best cs) as Hbest.
  destruct (String.eqb_spec strategy StrategyLeastLoaded) as [->|Hn1].
  { destruct (leastLoaded cs) as [[i c]|]; [|split; [done|by apply unhealthy_all]].
    destruct (best_of_member _ _ _ Hbest). split_and!; try done. by eauto. }
  destruct (String.eqb_spec strategy StrategyRoundRobin) as [->|Hn2].
  { pose proof (nextHealthy_spec cs (Cursor st) H0 Hcur) as Hx. destruct (nextHealthy cs (Cursor st)) as [[i c]|]; [|done].
    destruct Hx as (Hi & Hc & off & Hoff & Hat & Hpre). split_and!; try done; [by eapply list_elem_of_lookup_2|].
    intros _. exists off. split; [done|]. rewrite Hat. split; [done|]. split; [done|]. cbn [Cursor].
    rewrite Z.rem_mod_nonneg by (pose proof (lookup_lt_Some _ _ _ Hi); lia). rewrite Nat2Z.inj_mod. f_equal. lia. }
  destruct (String.eqb_spec strategy StrategyStickyUntilFailure) as [->|Hn3].
  2: { exfalso. revert Hs. unfold strategyIsValid, among, AllAssignmentStrategies. cbn [existsb].
       by rewrite (proj2 (String.eqb_neq _ _) Hn1), (proj2 (String.eqb_neq _ _) Hn2), (proj2 (String.eqb_neq _ _) Hn3). }
  pose proof (healthyByID_spec cs (Sticky st)) as Hh. destruct (healthyByID cs (Sticky st)) as [c|].
  { destruct Hh as (? & ? & ?). split_and!; try done. auto. }
  destruct (leastLoaded cs) as [[i c]|]; [|split; [done|by apply unhealthy_all]].
  destruct (best_of_member _ _ _ Hbest). split_and!; try done. auto.
Qed.

(** ** Leases as minted *)

Lemma clamp_fields l : LeaseID (clampDirectExpiry l) = LeaseID l /\ Source (clampDirectExpiry l) = Source l /\
  PoolID (clampDirectExpiry l) = PoolID l /\ CredentialID (clampDirectExpiry l) = CredentialID l /\ Proxy (clampDirectExpiry l) = Proxy l /\
  SessionID (clampDirectExpiry l) = SessionID l /\ DeliveryMode (clampDirectExpiry l) = DeliveryMode l /\ IssuedAt (clampDirectExpiry l) = IssuedAt l /\
  (ExpiresAt (clampDirectExpiry l) <= ExpiresAt l)%Z.
Proof.
  unfold clampDirectExpiry. destruct (MaterializedExpiry (Direct l)) as [t|]; [|by repeat split].
  unfold time_before. destruct (Z.ltb_spec t (ExpiresAt l)); repeat split; cbn; lia.
Qed.

Lemma mint_fields g r l : MintLease g r = Ok l ->
  leaseValidate l = [] /\ (exists id, d_id g = Some id /\ LeaseID l = "cl-" +:+ id) /\
  Source l = m_Source r /\ PoolID l = m_PoolID r /\ CredentialID l = m_CredentialID r /\
  (forall p, Proxy l = Some p -> exists tok, d_token g = Some tok /\ LeaseToken p = "lt-" +:+ tok) /\
  (m_DeliveryMode r = DeliveryProxy <-> is_Some (Proxy l)) /\ DeliveryMode l = m_DeliveryMode r.
Proof.
  unfold MintLease. destruct (d_id g) as [id|]; [|done].
  destruct (String.eqb_spec (m_DeliveryMode r) DeliveryProxy) as [Hp|Hp].
  - destruct (d_token g) as [tok|]; [|done]. match goal with |- context [leaseValidate ?x] => set (y := x); destruct (leaseValidate y) eqn:V; [|done] end.
    intros [= <-]. cbn. split_and!; try done; eauto. by intros p [= <-]; eauto.
  - destruct (String.eqb_spec (m_DeliveryMode r) DeliveryDirect).
    + destruct (ValidateMaterializedConfig _ _); [done|]. match goal with |- context [clampDirectExpiry ?x] => set (y := x) end.
      destruct (leaseValidate (clampDirectExpiry y)) eqn:V; [|done]. intros [= <-].
      destruct (clamp_fields y) as (-> & -> & -> & -> & Hpx & _ & -> & _). rewrite Hpx. cbn. by split_and!; try done; eauto.
    + match goal with |- context [leaseValidate ?x] => set (y := x); destruct (leaseValidate y) eqn:V; [|done] end.
      intros [= <-]. cbn. by split_and!; try done; eauto.
Qed.

Lemma firstHealthy_member cs order i c : firstHealthy cs order = Some (i, c) -> c ∈ cs /\ Healthy c = true.
Proof.
  induction order as [|k order IH]; cbn [firstHealthy]; [done|]. destruct (cs !! k) as [d|] eqn:Ek; [|done].
  destruct (Healthy d) eqn:Hd; [|done]. intros [= _ ->]. split; [by eapply list_elem_of_lookup_2|done].
Qed.

(** Whatever the strategy and the cursor. *)
Lemma selected_healthy strategy cs st c st' : SelectCredential strategy cs st = Ok (c, st') -> c ∈ cs /\ Healthy c = true.
Proof.
  unfold SelectCredential. pose proof (leastLoaded_best cs) as Hb. pose proof (healthyByID_spec cs (Sticky st)) as Hh.
  destruct (String.eqb _ StrategyLeastLoaded).
  { destruct (leastLoaded cs) as [[i d]|]; [|done]. intros [= -> _]. by eapply best_of_member. }
  destruct (String.eqb _ StrategyRoundRobin).
  { destruct (nextHealthy cs (Cursor st)) as [[i d]|] eqn:En; [|done]. intros [= -> _]. unfold nextHealthy in En.
    destruct cs; [done|]. by eapply firstHealthy_member. }
  destruct (String.eqb _ StrategyStickyUntilFailure); [|done]. destruct (healthyByID cs (Sticky st)) as [d|].
  { intros [= -> _]. naive_solver. }
  destruct (leastLoaded cs) as [[i d]|]; [|done]. intros [= -> _]. by eapply best_of_member.
Qed.

Lemma assign_cases g now pool sid spiffe tenant gen s s' r : assignLocked g now pool sid spiffe tenant gen s = (s', r) ->
  match r with
  | Err _ => s' = s
  | Ok l => exists ps c next st,
      pools s !! pool = Some ps /\ c ∈ candidates ps /\ Healthy c = true /\ Put l (leases s) = Ok st /\
      (exists id, d_id g = Some id /\ LeaseID l = "cl-" +:+ id) /\ PoolID l = pool /\ CredentialID l = c_id c /\
      credentialKey l = pool_key pool (c_id c) /\
      s' = mkService (<[pool := mkPoolState (ps_pool ps) next (<[c_id c := wrap64 (activeOf ps (c_id c) + 1)]> (active ps)) (revoked ps)]> (pools s))
             st (<[credentialKey l := credentialSecret (ps_pool ps) (c_id c)]> (creds s))
  end.
Proof.
  unfold assignLocked. destruct (pools s !! pool) as [ps|] eqn:Ep; [|by intros [= <- <-]].
  destruct (SelectCredential _ _ _) as [[c next]|e] eqn:Es; [|by intros [= <- <-]].
  destruct (MintLease _ _) as [l0|e] eqn:Em; [|by intros [= <- <-]].
  destruct (Put _ _) as [st|v] eqn:Eput; [|by intros [= <- <-]]. intros [= <- <-].
  destruct (mint_fields _ _ _ Em) as (_ & Hid & Hsrc & Hpool & Hcred & _).
  destruct (selected_healthy _ _ _ _ _ Es) as [Hc Hh].
  exists ps, c, next, st. split_and!; try done.
  unfold credentialKey. cbn [with_generation Source PoolID CredentialID]. rewrite Hsrc, Hpool, Hcred. done.
Qed.

(** ** Histories *)

Record World := mkWorld { w_svc : Service; w_deny : DenyList; w_now : Time }.

Definition set_svc (s : Service) (w : World) : World := mkWorld s (w_deny w) (w_now w).
Definition set_leases (st : Store) (s : Service) : Service := mkService (pools s) st (creds s).

(** A still valid lease is extended; the worker drops an expired one instead. *)
Definition extend (l : Lease) (w : World) : World :=
  match GetByID (LeaseID l) (leases (w_svc w)) with
  | Some cur => if Expired cur (w_now w) then w else set_svc (set_leases (Advance l (leases (w_svc w))).1 (w_svc w)) w
  | None => w
  end.

Definition sweep (counts : CredentialKey -> bool) (w : World) : World :=
  let '(st, d, _) := sweepExpiredCredentialLeases counts (w_now w) (leases (w_svc w)) (w_deny w) in
  mkWorld (set_leases st (w_svc w)) d (w_now w).

Definition revoke (key : CredentialKey) (w : World) : World :=
  let '(d, s) := applyLocal key (w_deny w) (w_svc w) in mkWorld s d (w_now w).

(** Every lease identifier and token is drawn afresh. *)
Definition fresh (g : Draw) (st : Store) : Prop :=
  (forall id, d_id g = Some id -> byID st !! ("cl-" +:+ id) = None) /\
  (forall tok id l p, d_token g = Some tok -> byID st !! id = Some l -> Proxy l = Some p -> LeaseToken p <> "lt-" +:+ tok).

(** [registrable]: the pools that may be registered, and in which state. *)
Inductive step (registrable : Pool -> World -> Prop) (sweeping : Prop) : World -> World -> Prop :=
| st_register w p : registrable p w -> step registrable sweeping w (set_svc (RegisterPool p (w_svc w)) w)
| st_assign w g pool sid spiffe tenant gen : fresh g (leases (w_svc w)) ->
    step registrable sweeping w (set_svc (assignLocked g (w_now w) pool sid spiffe tenant gen (w_svc w)).1 w)
| st_release w id : step registrable sweeping w (set_svc (releaseLocked id (w_svc w)) w)
| st_release_pass w sid match_ order : step registrable sweeping w (set_svc (releaseMatching_pass sid match_ order (w_svc w)) w)
| st_extend w l : step registrable sweeping w (extend l w)
| st_revoke w key : step registrable sweeping w (revoke key w)
| st_sweep w counts : sweeping -> step registrable sweeping w (sweep counts w)
| st_tick w dt : (0 <= dt)%Z -> step registrable sweeping w (mkWorld (w_svc w) (w_deny w) (w_now w + dt)%Z).

(** A pass of releases is a sequence of single releases. *)
Lemma pass_ind (P : Service -> Prop) sid match_ order s :
  P s -> (forall id s, P s -> P (releaseLocked id s)) -> P (releaseMatching_pass sid match_ order s).
Proof.
  intros Hs Hstep. unfold releaseMatching_pass. generalize (LeasesBySession [sid] order (leases s)) as ls. intros ls. revert s Hs.
  induction ls as [|l ls IH]; intros s Hs; cbn [foldl]; [done|]. apply IH. destruct (match_ l); auto.
Qed.

(** ** A revocation is final *)

Section revoked.
Context (pool cred : string).
Abbreviation key := (pool_key pool cred).

(** The credential cannot be chosen, and it is denied or its leases are over. *)
Record shut_out (w : World) : Prop := {
  so_marked : exists ps, pools (w_svc w) !! pool = Some ps /\ cred ∈ revoked ps;
  so_denied : key ∈ w_deny w \/ forall id l, byID (leases (w_svc w)) !! id = Some l -> credentialKey l = key -> (ExpiresAt l <= w_now w)%Z }.

Lemma put_lookup l st st' id x : Put l st = Ok st' -> byID st' !! id = Some x -> (id = LeaseID l /\ x = l) \/ byID st !! id = Some x.
Proof.
  unfold Put. destruct (leaseValidate l); [|done]. intros [= <-]. cbn. intros [[<- <-]|[_ ?]]%lookup_insert_Some; auto.
Qed.

Lemma remove_lookup i st id x : byID (Remove i st) !! id = Some x -> byID st !! id = Some x.
Proof. unfold Remove. destruct (byID st !! i); [|done]. cbn. by intros [_ ?]%lookup_delete_Some. Qed.

(** Fewer leases, the same marks. *)
Lemma shut_out_fewer w s' : shut_out w ->
  (forall ps, pools (w_svc w) !! pool = Some ps -> exists ps', pools s' !! pool = Some ps' /\ revoked ps ⊆ revoked ps') ->
  (forall id l, byID (leases s') !! id = Some l -> byID (leases (w_svc w)) !! id = Some l) -> shut_out (set_svc s' w).
Proof using Type.
  intros [(ps & Hps & Hc) Hd] Hp Hl. constructor; cbn.
  - destruct (Hp ps Hps) as (ps' & ? & ?). exists ps'. split; [done|set_solver].
  - destruct Hd as [|Hd]; [by left|right]. eauto.
Qed.

Lemma release_pools i s p ps : pools s !! p = Some ps ->
  exists ps', pools (releaseLocked i s) !! p = Some ps' /\ revoked ps' = revoked ps /\ ps_pool ps' = ps_pool ps.
Proof using Type.
  intros Hp. unfold releaseLocked. destruct (GetByID i (leases s)) as [l|]; [|by eauto]. cbn.
  destruct (pools s !! PoolID l) as [ps'|] eqn:E; [|by eauto]. destruct (0 <? _)%Z; [|by eauto].
  destruct (decide (p = PoolID l)) as [->|]; [rewrite lookup_insert_eq|rewrite lookup_insert_ne by auto; by eauto].
  simplify_eq. eexists. split; [done|]. done.
Qed.

Lemma release_leases i s id x : byID (leases (releaseLocked i s)) !! id = Some x -> byID (leases s) !! id = Some x.
Proof using Type. unfold releaseLocked. destruct (GetByID i (leases s)); [|done]. cbn. apply remove_lookup. Qed.

Lemma shut_out_release w i : shut_out w -> shut_out (set_svc (releaseLocked i (w_svc w)) w).
Proof using Type.
  intros Hw. apply shut_out_fewer; [done| |apply release_leases].
  intros ps Hps. destruct (release_pools i _ _ _ Hps) as (ps' & ? & Hr & _). exists ps'. split; [done|]. by rewrite Hr.
Qed.

Lemma count_zero k now st : (LeasesByCredentialCount k now st <= 0)%Z ->
  forall id l, byID st !! id = Some l -> credentialKey l = k -> (ExpiresAt l <= now)%Z.
Proof using Type.
  unfold LeasesByCredentialCount. intros Hz id l Hl Hk.
  assert (filter (fun kv : string * Lease => credentialKey kv.2 = k /\ activeLease now kv.2 = true) (byID st) = ∅) as He
    by (apply map_size_empty_inv; lia).
  destruct (activeLease now l) eqn:Ha.
  - assert (filter (fun kv : string * Lease => credentialKey kv.2 = k /\ activeLease now kv.2 = true) (byID st) !! id = Some l) as Hf
      by (by apply map_lookup_filter_Some_2). by rewrite He in Hf.
  - unfold activeLease, time_after in Ha. apply orb_false_iff in Ha as [_ Ha%Z.ltb_ge]. done.
Qed.

Lemma shut_out_sweep w counts : shut_out w -> shut_out (sweep counts w).
Proof using Type.
  intros [Hm Hd]. unfold sweep, sweepExpiredCredentialLeases. destruct (DeleteExpired (w_now w) (leases (w_svc w))) as [st n] eqn:E. constructor; cbn; [done|].
  set (gone := filter _ (w_deny w)). destruct Hd as [Hd|Hd].
  - destruct (decide (key ∈ gone)) as [Hg|Hg]; [right|left; set_solver].
    unfold gone in Hg. apply elem_of_filter in Hg as [[_ Hz%Z.leb_le]%andb_true_iff _]. by apply count_zero.
  - right. intros id l Hl. unfold DeleteExpired in E. injection E as <- _. cbn in Hl. apply map_lookup_filter_Some in Hl as [Hl _]. eauto.
Qed.

Lemma shut_out_assign w g p sid spiffe tenant gen : shut_out w ->
  shut_out (set_svc (assignLocked g (w_now w) p sid spiffe tenant gen (w_svc w)).1 w).
Proof using Type.
  intros Hw. destruct (assignLocked _ _ _ _ _ _ _ _) as [s' r] eqn:E. pose proof (assign_cases _ _ _ _ _ _ _ _ _ _ E) as Ha. cbn.
  destruct r as [l|e]; [|subst; destruct w; by destruct Hw].
  destruct Ha as (ps & c & next & st & Hp & Hc & Hh & Hput & _ & _ & _ & Hkey & ->). destruct Hw as [(ps0 & Hps0 & Hcred) Hd].
  assert (credentialKey l <> key) as Hne.
  { rewrite Hkey. intros [= -> Hid]. simplify_eq. unfold candidates in Hc. apply list_elem_of_fmap in Hc as (pc & -> & _). cbn in *.
    by rewrite bool_decide_eq_true_2, andb_false_r in Hh. }
  constructor; cbn.
  - destruct (decide (p = pool)) as [->|]; [rewrite lookup_insert_eq|rewrite lookup_insert_ne by auto; by eauto].
    simplify_eq. eexists. split; [done|]. done.
  - destruct Hd as [|Hd]; [by left|right]. intros id x Hx Hkx. destruct (put_lookup _ _ _ _ _ Hput Hx) as [[_ ->]|Hx']; [done|eauto].
Qed.

Lemma shut_out_revoke w k : shut_out w -> shut_out (revoke k w).
Proof using Type.
  intros [(ps & Hps & Hc) Hd]. unfold revoke, applyLocal. constructor; cbn.
  - destruct (_ || _); [by eauto|]. unfold RevokeCredential. destruct (_ || _); [by eauto|]. destruct (pools (w_svc w) !! k_pool k) as [ps'|] eqn:E; [|by eauto].
    cbn. destruct (decide (pool = k_pool k)) as [Hk|]; [rewrite Hk, lookup_insert_eq|rewrite lookup_insert_ne by auto; by eauto].
    eexists. split; [done|]. cbn. rewrite Hk in Hps. simplify_eq. set_solver.
  - destruct Hd as [|Hd]; [left; unfold Revoke; set_solver|right]. intros id l. destruct (_ || _); [eauto|].
    unfold RevokeCredential. destruct (_ || _); [eauto|]. destruct (pools (w_svc w) !! k_pool k); eauto.
Qed.

Lemma shut_out_extend w l : shut_out w -> shut_out (extend l w).
Proof using Type.
  intros [Hm Hd]. unfold extend, GetByID. destruct (byID (leases (w_svc w)) !! LeaseID l) as [cur|] eqn:E; [|done].
  destruct (Expired cur (w_now w)) eqn:Hx; [done|]. unfold Advance. rewrite E. constructor; cbn; [done|].
  destruct Hd as [|Hd]; [by left|right]. intros id x [[<- <-]|[_ Hl]]%lookup_insert_Some Hk; [|eauto].
  exfalso. specialize (Hd _ _ E Hk). unfold Expired, time_before in Hx. apply negb_false_iff, Z.ltb_lt in Hx. lia.
Qed.
End revoked.

Abbreviation run registrable sweeping := (rtc (step registrable sweeping)).

(** No history that leaves the pool registered as it is undoes the mark. *)
Lemma shut_out_run pool cred w w' : run (fun p _ => p_Name p <> pool) True w w' -> shut_out pool cred w -> shut_out pool cred w'.
Proof.
  induction 1 as [|w w1 w2 Hstep _ IH]; [done|]. intros Hw. apply IH. clear IH w2. destruct Hstep as [w p Hp| | | | | | |].
  - apply shut_out_fewer; [done| |done]. intros ps Hps. exists ps. unfold RegisterPool. cbn. by rewrite lookup_insert_ne.
  - by apply shut_out_assign.
  - by apply shut_out_release.
  - destruct w as [s d now]. change (shut_out pool cred (mkWorld (releaseMatching_pass sid match_ order s) d now)).
    apply (pass_ind (fun s => shut_out pool cred (mkWorld s d now))); [done|].
    intros id s0. apply (shut_out_release pool cred (mkWorld s0 d now)).
  - by apply shut_out_extend.
  - by apply shut_out_revoke.
  - by apply shut_out_sweep.
  - destruct Hw as [Hm Hd]. constructor; cbn; [done|]. destruct Hd as [|Hd]; [by left|right]. intros i l Hl Hk. specialize (Hd i l Hl Hk). lia.
Qed.

Lemma shut_out_revoked pool cred ps w : pool <> "" -> cred <> "" -> pools (w_svc w) !! pool = Some ps -> shut_out pool cred (revoke (pool_key pool cred) w).
Proof.
  intros Hp Hc Hps. unfold revoke, applyLocal, RevokeCredential. cbn [pool_key k_source k_pool k_credential].
  replace (is_empty pool) with false by (symmetry; by destruct pool). replace (is_empty cred) with false by (symmetry; by destruct cred).
  cbn [orb negb String.eqb]. rewrite Hps. constructor; cbn; [|left; unfold Revoke; set_solver].
  eexists. rewrite lookup_insert_eq. split; [done|]. cbn. set_solver.
Qed.

(** A lease of a credential that is shut out is not forwarded, whoever asks. *)
Lemma shut_out_refused pool cred w tok peer l secret : shut_out pool cred w -> GetByToken tok (leases (w_svc w)) = Some l ->
  credentialKey l = pool_key pool cred -> checkLease tok peer (w_now w) (w_deny w) (w_svc w) <> Forward secret.
Proof.
  intros [_ Hd] Hg Hk. unfold checkLease. destruct (is_empty tok); [done|]. rewrite Hg, Hk. unfold ValidateProxyRequest. cbn [Now Revoked_].
  destruct Hd as [Hd|Hd].
  - unfold Revoked. rewrite bool_decide_eq_true_2 by done. by destruct (Expired l (w_now w)).
  - unfold GetByToken in Hg. apply bind_Some in Hg as (i & _ & Hi). specialize (Hd i l Hi Hk).
    unfold Expired, time_before. by rewrite (proj2 (Z.ltb_ge _ _) Hd).
Qed.

(** C15. Once a pool credential has been revoked on a replica that serves its pool, no
    request under a lease of it is ever forwarded again, and no lease of it is
    ever minted again, whatever happens in between: assignments, releases,
    extensions, further revocations, the passage of time, and sweeps that drop
    expired leases and forget the revocation in the deny list.  Only registering
    the same pool anew lifts it. *)
Theorem revoked_credential_stays_out pool cred ps w w' : pool <> "" -> cred <> "" -> pools (w_svc w) !! pool = Some ps ->
  run (fun p _ => p_Name p <> pool) True (revoke (pool_key pool cred) w) w' ->
  (forall tok peer l secret, GetByToken tok (leases (w_svc w')) = Some l -> credentialKey l = pool_key pool cred ->
     checkLease tok peer (w_now w') (w_deny w') (w_svc w') <> Forward secret) /\
  (forall g now sid spiffe tenant gen s l, assignLocked g now pool sid spiffe tenant gen (w_svc w') = (s, Ok l) -> CredentialID l <> cred).
Proof.
  intros Hp Hc Hps Hrun. pose proof (shut_out_run _ _ _ _ Hrun (shut_out_revoked _ _ _ _ Hp Hc Hps)) as Hw'. split.
  - intros tok peer l secret. by apply shut_out_refused.
  - intros g now sid spiffe tenant gen s l Ha%assign_cases Heq. destruct Ha as (ps' & c & next & st & Hps' & Hin & Hh & _ & _ & _ & Hid & _).
    destruct Hw' as [(ps0 & Hps0 & Hm) _]. simplify_eq. unfold candidates in Hin. apply list_elem_of_fmap in Hin as (pc & -> & _). cbn in *.
    rewrite Hid in Hm. by rewrite bool_decide_eq_true_2, andb_false_r in Hh.
Qed.

(** ** The token index *)

Definition has_token (tok : string) (l : Lease) : Prop := exists p, Proxy l = Some p /\ LeaseToken p = tok.

Record indexed (st : Store) : Prop := {
  ix_id : forall id l, byID st !! id = Some l -> LeaseID l = id;
  ix_token : forall tok id, byToken st !! tok = Some id <-> exists l, byID st !! id = Some l /\ has_token tok l }.

Lemma dropToken_lookup l m tok id : dropToken l m !! tok = Some id <-> m !! tok = Some id /\ ~ has_token tok l.
Proof.
  unfold dropToken, has_token. destruct (Proxy l) as [p|].
  - rewrite lookup_delete_Some. naive_solver.
  - naive_solver.
Qed.

Lemma dropTokens_lookup (gone : list (string * Lease)) m tok id :
  foldr (fun kv m => dropToken kv.2 m) m gone !! tok = Some id <-> m !! tok = Some id /\ forall kv, kv ∈ gone -> ~ has_token tok kv.2.
Proof.
  induction gone as [|kv gone IH]; cbn [foldr]; [set_solver|]. rewrite dropToken_lookup, IH. set_solver.
Qed.

(** A token belongs to one lease. *)
Lemma indexed_inj st tok i j l k : indexed st -> byID st !! i = Some l -> has_token tok l -> byID st !! j = Some k -> has_token tok k -> i = j.
Proof.
  intros [_ Ht] Hl Hlt Hk Hkt. assert (byToken st !! tok = Some i) as Hi by (apply Ht; eauto).
  assert (byToken st !! tok = Some j) as Hj by (apply Ht; eauto). congruence.
Qed.

Lemma indexed_remove st i : indexed st -> indexed (Remove i st).
Proof.
  intros Hx. unfold Remove. destruct (byID st !! i) as [l|] eqn:E; [|done]. constructor; cbn.
  - intros id k [_ Hk]%lookup_delete_Some. by apply Hx.
  - intros tok id. rewrite dropToken_lookup, (ix_token st Hx). split.
    + intros [(k & Hk & Hkt) Hn]. exists k. split; [|done]. apply lookup_delete_Some. split; [|done]. intros ->. by simplify_eq.
    + intros (k & [Hne Hk]%lookup_delete_Some & Hkt). split; [by eauto|]. intros Hlt. by pose proof (indexed_inj _ _ _ _ _ _ Hx E Hlt Hk Hkt).
Qed.

Lemma indexed_delete_expired st cutoff : indexed st -> indexed (DeleteExpired cutoff st).1.
Proof.
  intros Hx. constructor; cbn [DeleteExpired fst byID byToken].
  - intros id k [Hk _]%map_lookup_filter_Some. by apply Hx.
  - intros tok id. rewrite dropTokens_lookup, (ix_token st Hx). setoid_rewrite map_lookup_filter_Some. setoid_rewrite list_elem_of_filter. split.
    + intros [(k & Hk & Hkt) Hn]. exists k. split; [|done]. split; [done|]. cbn. destruct (time_before (ExpiresAt k) cutoff) eqn:Eb; [|done].
      destruct (Hn (id, k)); [|done]. split; [done|]. by apply elem_of_map_to_list.
    + intros (k & [Hk Hb] & Hkt). split; [by eauto|]. intros [j x] [Hb' Hj%elem_of_map_to_list] Hxt. cbn in *.
      pose proof (indexed_inj _ _ _ _ _ _ Hx Hj Hxt Hk Hkt). subst j. simplify_eq. congruence.
Qed.

Lemma indexed_advance st l : indexed st -> indexed (Advance l st).1.
Proof.
  intros Hx. unfold Advance. destruct (byID st !! LeaseID l) as [cur|] eqn:E; [|done]. constructor; cbn.
  - intros id k [[<- <-]|[_ Hk]]%lookup_insert_Some; [exact (ix_id _ Hx _ _ E)|by apply Hx].
  - intros tok id. rewrite (ix_token st Hx). destruct (decide (id = LeaseID l)) as [->|]; [rewrite E, lookup_insert_eq|by rewrite lookup_insert_ne].
    split; intros (k & [= <-] & Hk); eexists; (split; [done|]); exact Hk.
Qed.

Lemma assign_tokens g now pool sid spiffe tenant gen s s' l : assignLocked g now pool sid spiffe tenant gen s = (s', Ok l) ->
  (DeliveryMode l = DeliveryProxy <-> is_Some (Proxy l)) /\ forall tok, has_token tok l -> exists t, d_token g = Some t /\ tok = "lt-" +:+ t.
Proof.
  unfold assignLocked. destruct (pools s !! pool) as [ps|]; [|done]. destruct (SelectCredential _ _ _) as [[c next]|]; [|done].
  destruct (MintLease _ _) as [l0|] eqn:Em; [|done]. destruct (Put _ _); [|done]. intros [= _ <-]. unfold has_token. cbn [with_generation Proxy DeliveryMode].
  destruct (mint_fields _ _ _ Em) as (_ & _ & _ & _ & _ & Ht & Hd & Hm). rewrite Hm. split; [done|].
  intros tok (p & Hp & <-). destruct (Ht p Hp) as (t & ? & ?). eauto.
Qed.

Lemma indexed_assign g now pool sid spiffe tenant gen s : fresh g (leases s) -> indexed (leases s) ->
  indexed (leases (assignLocked g now pool sid spiffe tenant gen s).1).
Proof.
  intros [Hid Htok] Hx. destruct (assignLocked _ _ _ _ _ _ _ _) as [s' r] eqn:Ea. pose proof (assign_cases _ _ _ _ _ _ _ _ _ _ Ea) as Hc.
  destruct r as [l|]; [|by subst]. destruct (assign_tokens _ _ _ _ _ _ _ _ _ _ Ea) as [Hmode Ht].
  destruct Hc as (ps & c & next & st & _ & _ & _ & Hput & (i & Hi & Hl) & _ & _ & _ & ->). specialize (Hid i Hi). rewrite <- Hl in Hid.
  cbn. unfold Put in Hput. destruct (leaseValidate l); [|done]. rewrite Hid in Hput. injection Hput as <-. constructor; cbn.
  { intros id k [[<- <-]|[_ Hk]]%lookup_insert_Some; [done|by apply Hx]. }
  intros tok id. destruct (String.eqb_spec (DeliveryMode l) DeliveryProxy) as [Hm|Hm].
  - destruct (proj1 Hmode Hm) as [p Hp]. rewrite Hp, lookup_insert_Some, (ix_token _ Hx). setoid_rewrite lookup_insert_Some.
    assert (has_token (LeaseToken p) l) as Hlt by (by exists p). destruct (Ht _ Hlt) as (t & Hd & Et).
    split.
    + intros [[<- <-]|[Hne (k & Hk & Hkt)]]; [by exists l; auto|]. exists k. split; [right; split; [congruence|done]|done].
    + intros (k & [[<- <-]|[Hne Hk]] & Hkt); [left; destruct Hkt as (q & ? & ?); by simplify_eq|right]. split; [|by eauto].
      intros <-. destruct Hkt as (q & Hq & Eq). apply (Htok t id k q Hd Hk Hq). congruence.
  - assert (Proxy l = None) as Hp by (destruct (Proxy l) eqn:E; [destruct Hm; apply Hmode; by eexists|done]).
    rewrite (ix_token _ Hx). setoid_rewrite lookup_insert_Some. split.
    + intros (k & Hk & Hkt). exists k. split; [right; split; [congruence|done]|done].
    + intros (k & [[_ <-]|[Hne Hk]] & Hkt); [|by eauto]. destruct Hkt as (q & Hq & _). congruence.
Qed.

Lemma indexed_run registrable sweeping w w' : run registrable sweeping w w' -> indexed (leases (w_svc w)) -> indexed (leases (w_svc w')).
Proof.
  induction 1 as [|w w1 w2 Hstep _ IH]; [done|]. intros Hw. apply IH. clear IH w2. destruct Hstep as [ | |w i|w sid match_ order|w l|w key|w counts|]; try done.
  - by apply indexed_assign.
  - cbn. unfold releaseLocked. destruct (GetByID i _); [|done]. by apply indexed_remove.
  - apply (pass_ind (fun s => indexed (leases s))); [done|]. intros i s Hs. unfold releaseLocked. destruct (GetByID i _); [|done]. by apply indexed_remove.
  - unfold extend. destruct (GetByID _ _) as [cur|]; [|done]. destruct (Expired cur _); [done|]. by apply indexed_advance.
  - unfold revoke, applyLocal, RevokeCredential. cbn. destruct (_ || _); [done|]. destruct (_ || _); [done|]. by destruct (pools _ !! _).
  - unfold sweep, sweepExpiredCredentialLeases. pose proof (indexed_delete_expired _ (w_now w) Hw) as Hd. by destruct (DeleteExpired _ _).
Qed.

(** From an empty store, a token finds exactly the stored lease that carries it:
    none is lost, none outlives its lease, and no two leases share one. *)
Theorem token_index_exact registrable sweeping w w' tok l : leases (w_svc w) = NewStore -> run registrable sweeping w w' ->
  GetByToken tok (leases (w_svc w')) = Some l <-> GetByID (LeaseID l) (leases (w_svc w')) = Some l /\ has_token tok l.
Proof.
  intros H0 Hrun. assert (indexed (leases (w_svc w'))) as Hx.
  { eapply indexed_run; [done|]. rewrite H0. constructor; [done|]. cbn. intros t id. rewrite lookup_empty. split; [done|]. by intros (k & Hk & _). }
  unfold GetByToken, GetByID. rewrite bind_Some. split.
  - intros (id & Hid & Hl). apply (ix_token _ Hx) in Hid as (k & Hk & Hkt). rewrite Hl in Hk; injection Hk as <-. by rewrite (ix_id _ Hx _ _ Hl).
  - intros [Hl Ht]. exists (LeaseID l). split; [|done]. apply (ix_token _ Hx). eauto.
Qed.

(** ** Sessions per credential *)

Abbreviation Leases := (gmap string Lease).

Definition of_credential (pool cred : string) (l : Lease) : Prop := PoolID l = pool /\ CredentialID l = cred.
#[local] Instance of_credential_dec pool cred l : Decision (of_credential pool cred l) := ltac:(unfold of_credential; apply _).

Definition held (pool cred : string) (m : Leases) : Z :=
  Z.of_nat (size (filter (fun kv : string * Lease => of_credential pool cred kv.2) m)).

Lemma held_insert pool cred m i l : m !! i = None ->
  held pool cred (<[i := l]> m) = (held pool cred m + if decide (of_credential pool cred l) then 1 else 0)%Z.
Proof.
  intros Hi. unfold held. destruct (decide _) as [Hd|Hd].
  - rewrite map_filter_insert_True by done. rewrite map_size_insert_None by (apply map_lookup_filter_None; by left). lia.
  - rewrite map_filter_insert_False by done. rewrite delete_id by done. lia.
Qed.

Lemma held_delete pool cred m i l : m !! i = Some l ->
  held pool cred m = (held pool cred (delete i m) + if decide (of_credential pool cred l) then 1 else 0)%Z.
Proof. intros Hi. rewrite <- (held_insert _ _ _ i) by apply lookup_delete_eq. by rewrite insert_delete_id. Qed.

(** An update that keeps the credential keeps the count. *)
Lemma held_update pool cred m i l l' : m !! i = Some l -> PoolID l' = PoolID l -> CredentialID l' = CredentialID l ->
  held pool cred (<[i := l']> m) = held pool cred m.
Proof.
  intros Hi Hp Hc. rewrite (held_delete _ _ _ _ _ Hi), <- insert_delete_eq, held_insert by apply lookup_delete_eq.
  f_equal. destruct (decide (of_credential pool cred l')) as [[]|Hn], (decide (of_credential pool cred l)) as [[]|Hn']; try done.
  - destruct Hn'. split; congruence.
  - destruct Hn. split; congruence.
Qed.

Lemma held_bounds pool cred m : (0 <= held pool cred m <= Z.of_nat (size m))%Z.
Proof. unfold held. pose proof (map_subseteq_size _ _ (map_filter_subseteq (fun kv : string * Lease => of_credential pool cred kv.2) m)). lia. Qed.

Lemma map_empty_filter (P : string * Lease -> Prop) `{!forall x, Decision (P x)} (m : Leases) : (forall i l, m !! i = Some l -> ~ P (i, l)) -> filter P m = ∅.
Proof. intros Hm. apply map_empty. intros i. apply map_lookup_filter_None. right. intros l Hl. by apply Hm. Qed.

(** What [active] means. *)
Definition balanced (s : Service) : Prop :=
  forall pool ps cred, pools s !! pool = Some ps -> activeOf ps cred = held pool cred (byID (leases s)).

Lemma activeOf_insert (ps : poolState) sel cred x rv c :
  activeOf (mkPoolState (ps_pool ps) sel (<[cred := x]> (active ps)) rv) c = if decide (cred = c) then x else activeOf ps c.
Proof. unfold activeOf. cbn. destruct (decide _) as [->|]; [by rewrite lookup_insert_eq|by rewrite lookup_insert_ne]. Qed.

Lemma balanced_release i s : balanced s -> balanced (releaseLocked i s).
Proof.
  intros Hb. unfold releaseLocked, GetByID, Remove. destruct (byID (leases s) !! i) as [l|] eqn:E; [|done].
  intros pool ps cred. cbn [pools leases byID]. pose proof (fun p c => held_delete p c _ _ _ E) as Hd.
  destruct (pools s !! PoolID l) as [pl|] eqn:Ep.
  - pose proof (Hb _ _ (CredentialID l) Ep) as Hl. pose proof (Hd (PoolID l) (CredentialID l)) as Hd1.
    pose proof (held_bounds (PoolID l) (CredentialID l) (delete i (byID (leases s)))).
    rewrite decide_True in Hd1 by done. rewrite (proj2 (Z.ltb_lt _ _)) by lia.
    intros [[<- <-]|[Hne Hps]]%lookup_insert_Some.
    + rewrite activeOf_insert. specialize (Hb _ _ cred Ep). specialize (Hd (PoolID l) cred). destruct (decide (CredentialID l = cred)) as [<-|Hc]; [lia|].
      rewrite decide_False in Hd by (by intros []). lia.
    + specialize (Hb _ _ cred Hps). specialize (Hd pool cred). rewrite decide_False in Hd by (by intros []). lia.
  - intros Hps. specialize (Hb _ _ cred Hps). specialize (Hd pool cred). rewrite decide_False in Hd; [lia|]. intros [He _]. rewrite He in Ep. congruence.
Qed.

Lemma balanced_assign g now pool sid spiffe tenant gen s : let s' := (assignLocked g now pool sid spiffe tenant gen s).1 in
  fresh g (leases s) -> (Z.of_nat (size (byID (leases s'))) < 2 ^ 63)%Z -> balanced s -> balanced s'.
Proof.
  intros s' [Hid _] Hsize Hb. subst s'. destruct (assignLocked _ _ _ _ _ _ _ _) as [s' r] eqn:Ea. pose proof (assign_cases _ _ _ _ _ _ _ _ _ _ Ea) as Hc.
  destruct r as [l|]; [|by subst]. destruct Hc as (ps & c & next & st & Hps & _ & _ & Hput & (i & Hi & Hl) & Hpool & Hcred & _ & ->).
  specialize (Hid i Hi). rewrite <- Hl in Hid. unfold Put in Hput. destruct (leaseValidate l); [|done]. injection Hput as <-.
  intros p ps' cred. cbn [fst pools leases byID] in *. rewrite held_insert by done.
  intros [[<- <-]|[Hne Hps']]%lookup_insert_Some.
  - rewrite activeOf_insert, !(Hb _ _ _ Hps). destruct (decide (c_id c = cred)) as [<-|Hn].
    + rewrite decide_True by done. apply wrap64_id. pose proof (held_bounds pool (c_id c) (byID (leases s))).
      rewrite map_size_insert_None in Hsize by done. unfold in_int64, min_int64, max_int64, two63. lia.
    + rewrite decide_False; [lia|]. intros []. congruence.
  - rewrite (Hb _ _ _ Hps'), decide_False; [lia|]. intros [? _]. congruence.
Qed.

(** A pool is registered while no lease of it is held. *)
Definition unleased (p : Pool) (w : World) : Prop := forall id l, byID (leases (w_svc w)) !! id = Some l -> PoolID l <> p_Name p.

(** Steps that leave the store a size a counter can hold. *)
Definition counted_step (w w' : World) : Prop :=
  step unleased False w w' /\ (Z.of_nat (size (byID (leases (w_svc w')))) < 2 ^ 63)%Z.

Lemma balanced_step w w' : counted_step w w' -> balanced (w_svc w) -> balanced (w_svc w').
Proof.
  intros [Hstep Hsize] Hb. destruct Hstep as [w p Hp| | |w sid match_ order|w l|w key| |]; try done.
  - intros pool ps cred. cbn [set_svc w_svc RegisterPool pools]. intros [[<- <-]|[_ Hps]]%lookup_insert_Some; [|by apply Hb].
    unfold held. rewrite map_empty_filter; [done|]. intros i l Hl [Hpl _]. by apply (Hp i l).
  - by apply balanced_assign.
  - by apply balanced_release.
  - apply (pass_ind balanced); [done|]. intros i s. apply balanced_release.
  - unfold extend, GetByID, Advance. destruct (byID (leases (w_svc w)) !! LeaseID l) as [cur|] eqn:E; [|done]. destruct (Expired cur _); [done|].
    intros pool ps cred Hps. cbn. by rewrite (held_update _ _ _ _ _ _ E), (Hb _ _ _ Hps).
  - unfold revoke, applyLocal, RevokeCredential. cbn. destruct (_ || _); [done|]. destruct (_ || _); [done|].
    destruct (pools _ !! _) as [ps|] eqn:E; [|done]. intros pool ps' cred. cbn [pools]. intros [[<- <-]|[_ Hps]]%lookup_insert_Some; [|by apply Hb]. by apply (Hb _ _ cred E).
Qed.

(** As long as every lease is given up by a release, the count the least loaded
    strategy compares is the number of leases held of the credential, for every
    pool and credential and after every history. *)
Theorem sessions_counted_exactly w w' pool ps cred : pools (w_svc w) = ∅ -> rtc counted_step w w' -> pools (w_svc w') !! pool = Some ps ->
  activeOf ps cred = held pool cred (byID (leases (w_svc w'))).
Proof.
  intros H0 Hrun Hps. assert (balanced (w_svc w)) as Hb by (intros p q c Hp; by rewrite H0 in Hp).
  assert (balanced (w_svc w')) as Hb'; [|by apply Hb']. clear Hps H0. revert Hb.
  induction Hrun as [|w w1 w2 Hs _ IH]; [done|]. intros Hb. by eapply IH, balanced_step.
Qed.

(** ** Concrete histories *)

Module Demo.

Definition at_ : Time := (1000 * Second)%Z.
Definition team_pool : Pool :=
  mkPool "team" ProviderAnthropicDirect DeliveryProxy StrategyLeastLoaded "http://proxy" "anthropic" 60 10
    [mkPoolCredential "key-a" "secret-a" ∅ true; mkPoolCredential "key-b" "secret-b" ∅ true].
Definition empty : World := mkWorld (mkService ∅ NewStore ∅) ∅ at_.
Definition registered : World := set_svc (RegisterPool team_pool (w_svc empty)) empty.
Definition draw (n : string) : Draw := mkDraw (Some n) (Some n) at_.
Definition assign (n sid : string) (w : World) : World := set_svc (assignLocked (draw n) (w_now w) "team" sid "" "acme" 1 (w_svc w)).1 w.
Definition one : World := assign "1" "s1" registered.
Definition later (w : World) : World := mkWorld (w_svc w) (w_deny w) (w_now w + 90 * Second)%Z.

Lemma fresh_store (g : Draw) : fresh g NewStore.
Proof. split; [done|]. by intros tok id l p _ Hl. Qed.

Lemma found {A} (o : option A) : (match o with Some _ => true | None => false end) = true -> exists x, o = Some x.
Proof. destruct o; [by eauto|done]. Qed.

Lemma first_lease : step unleased False registered one.
Proof. apply st_assign. apply fresh_store. Qed.

Lemma selection_exact_witness :
  let cs := [mkCandidate "a" 2 true; mkCandidate "b" 1 true; mkCandidate "c" 0 false] in
  SelectCredential StrategyLeastLoaded cs (mkSelection 0 "") = Ok (mkCandidate "b" 1 true, mkSelection 0 "") /\
  exists i, best_of cs (Some (i, mkCandidate "b" 1 true)).
Proof.
  split; [reflexivity|]. exact (proj2 (proj1 (proj2 (proj2 (selection_exact StrategyLeastLoaded
    [mkCandidate "a" 2 true; mkCandidate "b" 1 true; mkCandidate "c" 0 false] (mkSelection 0 "") eq_refl ltac:(reflexivity || done) (or_introl eq_refl)))) eq_refl)).
Defined.

(** The request under the first lease goes through before the revocation, and not after
    it, a sweep of the deny list included. *)
Lemma revoked_credential_stays_out_witness :
  checkLease "lt-1" "" at_ (w_deny one) (w_svc one) = Forward (Some "secret-a") /\
  (forall secret, checkLease "lt-1" "" at_ (w_deny (revoke (pool_key "team" "key-a") one)) (w_svc (revoke (pool_key "team" "key-a") one)) <> Forward secret).
Proof.
  split; [vm_compute; reflexivity|].
  destruct (found (pools (w_svc one) !! "team")) as [ps E]; [vm_compute; reflexivity|].
  intros secret. destruct (found (GetByToken "lt-1" (leases (w_svc (revoke (pool_key "team" "key-a") one))))) as [l El]; [vm_compute; reflexivity|].
  apply (proj1 (revoked_credential_stays_out "team" "key-a" ps one (revoke (pool_key "team" "key-a") one) ltac:(done) ltac:(done) E
    (rtc_refl _ _)) "lt-1" "" l secret El). vm_compute in El. injection El as <-. reflexivity.
Defined.

Lemma token_index_exact_witness : exists l, GetByToken "lt-1" (leases (w_svc one)) = Some l /\ GetByID (LeaseID l) (leases (w_svc one)) = Some l.
Proof.
  destruct (found (GetByToken "lt-1" (leases (w_svc one)))) as [l E]; [vm_compute; reflexivity|]. exists l. split; [done|].
  exact (proj1 (proj1 (token_index_exact unleased False registered one "lt-1" l eq_refl (rtc_once _ _ first_lease)) E)).
Defined.

Lemma sessions_counted_exactly_witness : exists ps, pools (w_svc one) !! "team" = Some ps /\ activeOf ps "key-a" = 1%Z /\
  activeOf ps "key-a" = held "team" "key-a" (byID (leases (w_svc one))).
Proof.
  destruct (found (pools (w_svc one) !! "team")) as [ps E]; [vm_compute; reflexivity|]. exists ps. split; [done|]. split.
  { vm_compute in E. injection E as <-. reflexivity. }
  refine (sessions_counted_exactly empty one "team" ps "key-a" eq_refl _ E).
  eapply rtc_l; [split; [apply (st_register unleased False empty team_pool); by intros id l|vm_compute; reflexivity]|].
  apply rtc_once. split; [exact first_lease|vm_compute; reflexivity].
Defined.

(** The sweep drops expired leases behind the back of the assignment service:
    [key-a] keeps a session it no longer has, a later release of the lease finds
    nothing, and the next session goes to the other credential. *)
Lemma sweep_leaks_session :
  let w := sweep (fun _ => true) (later one) in
  held "team" "key-a" (byID (leases (w_svc w))) = 0%Z /\
  (forall ps, pools (w_svc (set_svc (releaseLocked "cl-1" (w_svc w)) w)) !! "team" = Some ps -> activeOf ps "key-a" = 1%Z) /\
  (CredentialID <$> GetByID "cl-2" (leases (w_svc (assign "2" "s2" w)))) = Some "key-b".
Proof. split; [vm_compute; reflexivity|]. split; [|vm_compute; reflexivity]. intros ps E. vm_compute in E. by injection E as <-. Qed.

End Demo.
