(* ===== verification/CredRenewal.v ===== *)
(** * Falling back and renewing ([credfallback], [credrenewal])

    The chain of pools a session falls back along when a credential faults
    ([credfallback.go], [controller.go]), and the worker that replaces leases
    before they expire ([credrenewal.go]).  The chain's decisions are shown to
    be a function of the history of faults.  The worker keeps pointers to the
    leases it tracks while other goroutines add and drop leases, so its objects
    live in a heap. *)

From S2P Require Import Prelude Calendar Credentials.

(** ** The fallback chain ([credfallback.go]) *)

Definition DefaultCooldown : Duration := (60 * Second)%Z.

Record Chain := mkChain { order : list string; cooldown : Duration; until : gmap string Time }.

Definition NewChain (pools : list string) (cd : Duration) : Chain :=
  mkChain pools (if (cd <=? 0)%Z then DefaultCooldown else cd) ∅.

Definition CoolingDown (c : Chain) (pool : string) (now : Time) : bool :=
  match until c !! pool with Some u => time_before now u | None => false end.

Fixpoint first_free (c : Chain) (now : Time) (pools : list string) : option string :=
  match pools with
  | [] => None
  | p :: pools => if CoolingDown c p now then first_free c now pools else Some p
  end.

Definition Select (c : Chain) (now : Time) : option string := first_free c now (order c).

Definition Available (c : Chain) (now : Time) : list string := filter (fun p => CoolingDown c p now = false) (order c).

Definition chainFault (pool : string) (now : Time) (c : Chain) : Chain :=
  mkChain (order c) (cooldown c) (<[pool := time_add now (cooldown c)]> (until c)).

(** ** The controller ([controller.go]) *)

Definition DefaultMaxRotations : Z := 3.

Record Decision_ := mkDecision { Exhausted : bool; NextPool : string; RotationCount : Z; ChainAttempted : list string }.

Record sessionState := mkSession { rotationCount : Z; chains : gmap string Chain }.

Record Controller := mkController { maxRotations : Z; c_cooldown : Duration; sessions : gmap string sessionState }.

Definition NewController (max : Z) (cd : Duration) : Controller :=
  mkController (if (max <=? 0)%Z then DefaultMaxRotations else max) cd ∅.

Definition stateLocked (sid : string) (c : Controller) : sessionState := default (mkSession 0 ∅) (sessions c !! sid).

Definition set_session (sid : string) (st : sessionState) (c : Controller) : Controller :=
  mkController (maxRotations c) (c_cooldown c) (<[sid := st]> (sessions c)).

Definition RegisterChain (sid provider : string) (pools : list string) (c : Controller) : Controller :=
  if is_empty sid || is_empty provider || bool_decide (pools = []) then c
  else let st := stateLocked sid c in
       set_session sid (mkSession (rotationCount st) (<[provider := NewChain pools (c_cooldown c)]> (chains st))) c.

Definition Fault (sid provider faultedPool trigger : string) (now : Time) (c : Controller) : Controller * Decision_ :=
  let st := stateLocked sid c in
  let chain := default (NewChain [faultedPool] (c_cooldown c)) (chains st !! provider) in
  let chain := chainFault faultedPool now chain in
  let count := if CountsAgainstRotationBudget trigger then wrap64 (rotationCount st + 1) else rotationCount st in
  let c' := set_session sid (mkSession count (<[provider := chain]> (chains st))) c in
  (c',
   if (maxRotations c <? count)%Z then mkDecision true "" count (order chain)
   else match Select chain now with
        | None => mkDecision true "" count (order chain)
        | Some next => mkDecision false next count (order chain)
        end).

Definition rotationCountOf (sid : string) (c : Controller) : Z :=
  match sessions c !! sid with Some st => rotationCount st | None => 0%Z end.

Definition coolingDown (sid provider pool : string) (now : Time) (c : Controller) : bool :=
  match sessions c !! sid with
  | None => false
  | Some st => match chains st !! provider with None => false | Some ch => CoolingDown ch pool now end
  end.

Definition ReleaseFallback (sid : string) (c : Controller) : Controller :=
  mkController (maxRotations c) (c_cooldown c) (delete sid (sessions c)).

(** ** The history of a controller *)

Inductive Op :=
| ORegister (sid provider : string) (pools : list string)
| OFault (sid provider pool trigger : string) (now : Time)
| ORelease (sid : string).

Definition apply_op (c : Controller) (o : Op) : Controller :=
  match o with
  | ORegister sid provider pools => RegisterChain sid provider pools c
  | OFault sid provider pool trigger now => (Fault sid provider pool trigger now c).1
  | ORelease sid => ReleaseFallback sid c
  end.

(** The latest operation comes first in a history. *)
Definition after (c : Controller) (h : list Op) : Controller := foldr (fun o c => apply_op c o) c h.

(** The faults of the session since it was last released. *)
Fixpoint rotations (sid : string) (h : list Op) : Z :=
  match h with
  | [] => 0
  | ORelease s :: h => if decide (s = sid) then 0 else rotations sid h
  | OFault s _ _ trigger _ :: h =>
      if decide (s = sid) then (if CountsAgainstRotationBudget trigger then rotations sid h + 1 else rotations sid h)%Z else rotations sid h
  | ORegister _ _ _ :: h => rotations sid h
  end.

Definition registers (sid provider s p : string) (pools : list string) : bool :=
  bool_decide (s = sid) && bool_decide (p = provider) && negb (is_empty s || is_empty p || bool_decide (pools = [])).

(** The pools the session falls back along, if any are known. *)
Fixpoint pools_of (sid provider : string) (h : list Op) : option (list string) :=
  match h with
  | [] => None
  | ORelease s :: h => if decide (s = sid) then None else pools_of sid provider h
  | OFault s p pool _ _ :: h =>
      if decide (s = sid /\ p = provider) then Some (default [pool] (pools_of sid provider h)) else pools_of sid provider h
  | ORegister s p pools :: h => if registers sid provider s p pools then Some pools else pools_of sid provider h
  end.

(** When the pool last faulted since those pools were set. *)
Fixpoint last_fault (sid provider pool : string) (h : list Op) : option Time :=
  match h with
  | [] => None
  | ORelease s :: h => if decide (s = sid) then None else last_fault sid provider pool h
  | OFault s p q _ now :: h => if decide (s = sid /\ p = provider /\ q = pool) then Some now else last_fault sid provider pool h
  | ORegister s p pools :: h => if registers sid provider s p pools then None else last_fault sid provider pool h
  end.

Definition effective_cooldown (c : Controller) : Duration := if (c_cooldown c <=? 0)%Z then DefaultCooldown else c_cooldown c.

(** A pool may be used when it has not faulted within the cooldown. *)
Definition usable (cd : Duration) (sid provider : string) (h : list Op) (now : Time) (pool : string) : bool :=
  match last_fault sid provider pool h with Some t => (t + cd <=? now)%Z | None => true end.

(** What a fault is answered, from the history it ends. *)
Definition verdict (max : Z) (cd : Duration) (sid provider : string) (h : list Op) (now : Time) : Decision_ :=
  let pools := default [] (pools_of sid provider h) in
  let count := rotations sid h in
  match (if (max <? count)%Z then None else head (filter (fun p => usable cd sid provider h now p = true) pools)) with
  | Some next => mkDecision false next count pools
  | None => mkDecision true "" count pools
  end.

(** What the state of a session is, in terms of the history. *)
Record told (c0 : Controller) (h : list Op) (c : Controller) : Prop := {
  td_max : maxRotations c = maxRotations c0 /\ c_cooldown c = c_cooldown c0;
  td_count : forall sid, rotationCount (stateLocked sid c) = rotations sid h;
  td_order : forall sid p, order <$> chains (stateLocked sid c) !! p = pools_of sid p h;
  td_until : forall sid p pool, (until <$> chains (stateLocked sid c) !! p) ≫= (fun u => u !! pool) = (fun t => t + effective_cooldown c0)%Z <$> last_fault sid p pool h;
  td_cooldown : forall sid p ch, chains (stateLocked sid c) !! p = Some ch -> cooldown ch = effective_cooldown c0 }.

Lemma stateLocked_set sid st c s : stateLocked s (set_session sid st c) = if decide (sid = s) then st else stateLocked s c.
Proof. unfold stateLocked, set_session. cbn. destruct (decide _) as [->|]; [by rewrite lookup_insert_eq|by rewrite lookup_insert_ne]. Qed.

Lemma rotations_bounds sid h : (0 <= rotations sid h <= Z.of_nat (length h))%Z.
Proof.
  induction h as [|[s p pools|s p pool trigger now|s] h IH]; cbn [rotations length]; try lia.
  - destruct (decide _); [destruct (CountsAgainstRotationBudget trigger)|]; lia.
  - destruct (decide _); lia.
Qed.

(** No pool has faulted before the pools are known. *)
Lemma last_fault_none sid p pool h : pools_of sid p h = None -> last_fault sid p pool h = None.
Proof.
  induction h as [|[s q pools|s q fp trigger now|s] h IH]; cbn [pools_of last_fault]; [done| | |].
  - destruct (registers _ _ _ _ _); [done|auto].
  - destruct (decide (s = sid /\ q = p)) as [|Hn]; [done|]. intros Hp. rewrite decide_False; [auto|tauto].
  - destruct (decide _); [done|auto].
Qed.

Lemma told_register c0 h c sid p pools : told c0 h c -> told c0 (ORegister sid p pools :: h) (RegisterChain sid p pools c).
Proof.
  intros [Hm Hc Ho Hu Hd]. unfold RegisterChain. destruct (_ || _) eqn:E.
  { constructor; cbn [rotations pools_of last_fault]; try done; intros s q; unfold registers; rewrite E, andb_false_r; done. }
  assert (forall s q, registers s q sid p pools = bool_decide (sid = s) && bool_decide (p = q)) as Hr
    by (intros s q; unfold registers; by rewrite E, andb_true_r).
  constructor; cbn [rotations pools_of last_fault]; try done.
  - intros s. rewrite stateLocked_set. destruct (decide _) as [->|]; apply Hc.
  - intros s q. rewrite stateLocked_set, Hr. destruct (decide (sid = s)) as [->|Hs]; [rewrite bool_decide_eq_true_2 by done|by rewrite bool_decide_eq_false_2].
    cbn [chains andb]. destruct (bool_decide_reflect (p = q)) as [<-|Hq]; [by rewrite lookup_insert_eq|by rewrite lookup_insert_ne].
  - intros s q pool. rewrite stateLocked_set, Hr. destruct (decide (sid = s)) as [->|Hs]; [rewrite bool_decide_eq_true_2 by done|by rewrite bool_decide_eq_false_2].
    cbn [chains andb]. destruct (bool_decide_reflect (p = q)) as [<-|Hq]; [by rewrite lookup_insert_eq|by rewrite lookup_insert_ne].
  - intros s q ch. rewrite stateLocked_set. destruct (decide (sid = s)) as [->|Hs]; [|by apply Hd]. cbn [chains].
    intros [[<- <-]|[_ Hq]]%lookup_insert_Some; [|by eapply Hd]. unfold NewChain, effective_cooldown. cbn. by rewrite (proj2 Hm).
Qed.

Lemma told_release c0 h c sid : told c0 h c -> told c0 (ORelease sid :: h) (ReleaseFallback sid c).
Proof.
  intros [Hm Hc Ho Hu Hd].
  assert (forall s, stateLocked s (ReleaseFallback sid c) = if decide (sid = s) then mkSession 0 ∅ else stateLocked s c) as Hs.
  { intros s. unfold stateLocked, ReleaseFallback. cbn. destruct (decide _) as [->|]; [by rewrite lookup_delete_eq|by rewrite lookup_delete_ne]. }
  constructor; cbn [rotations pools_of last_fault]; [done| | | |]; intros s; rewrite Hs; destruct (decide (sid = s)); try done; apply Hd || apply Hc || apply Ho || apply Hu.
Qed.

Lemma told_fault c0 h c sid p pool trigger now : (Z.of_nat (length h) < max_int64)%Z -> told c0 h c ->
  told c0 (OFault sid p pool trigger now :: h) (Fault sid p pool trigger now c).1.
Proof.
  intros Hlen [Hm Hc Ho Hu Hd]. pose proof (rotations_bounds sid h) as Hb. cbn [Fault fst].
  set (ch := default (NewChain [pool] (c_cooldown c)) (chains (stateLocked sid c) !! p)).
  assert (order ch = default [pool] (pools_of sid p h)) as Hch.
  { rewrite <- Ho. unfold ch. by destruct (chains (stateLocked sid c) !! p). }
  assert (cooldown ch = effective_cooldown c0) as Hcd.
  { unfold ch. destruct (chains (stateLocked sid c) !! p) as [ch0|] eqn:E; [by eapply Hd|]. unfold NewChain, effective_cooldown. cbn. by rewrite (proj2 Hm). }
  assert (forall q, until ch !! q = (fun t => t + effective_cooldown c0)%Z <$> last_fault sid p q h) as Hun.
  { intros q. rewrite <- Hu. unfold ch. destruct (chains (stateLocked sid c) !! p); [done|]. cbn. apply lookup_empty. }
  constructor; cbn [rotations pools_of last_fault]; [done| | | |]; intros s; rewrite stateLocked_set.
  - destruct (decide (sid = s)) as [<-|]; [|apply Hc]. cbn. rewrite Hc. destruct (CountsAgainstRotationBudget trigger); [|done].
    apply wrap64_id. unfold in_int64, min_int64, max_int64, two63 in *. lia.
  - intros q. destruct (decide (sid = s)) as [<-|Hn]; [|rewrite decide_False by tauto; apply Ho]. cbn [chains].
    destruct (decide (p = q)) as [<-|]; [rewrite lookup_insert_eq, decide_True by done; cbn; by rewrite Hch|].
    rewrite lookup_insert_ne, decide_False by tauto. apply Ho.
  - intros q r. destruct (decide (sid = s)) as [<-|Hn]; [|rewrite decide_False by tauto; apply Hu]. cbn [chains].
    destruct (decide (p = q)) as [<-|]; [|rewrite lookup_insert_ne, decide_False by tauto; apply Hu].
    rewrite lookup_insert_eq. cbn. rewrite Hcd. destruct (decide (pool = r)) as [<-|].
    + by rewrite lookup_insert_eq, decide_True.
    + rewrite lookup_insert_ne, decide_False by tauto. apply Hun.
  - intros q ch'. destruct (decide (sid = s)) as [<-|Hn]; [|apply Hd]. cbn [chains]. intros [[<- <-]|[_ Hq]]%lookup_insert_Some; [done|by eapply Hd].
Qed.

Lemma told_after max cd h : let c0 := NewController max cd in (Z.of_nat (length h) <= max_int64)%Z -> told c0 h (after c0 h).
Proof.
  intros c0. induction h as [|o h IH]; cbn [length after foldr].
  { intros _. by constructor; [done|intros s..]. }
  intros Hlen. specialize (IH ltac:(lia)). destruct o; cbn [apply_op].
  - by apply told_register.
  - apply told_fault; [lia|done].
  - by apply told_release.
Qed.

Lemma select_first c now pools : first_free c now pools = head (filter (fun p => CoolingDown c p now = false) pools).
Proof.
  induction pools as [|p pools IH]; cbn [first_free]; [done|]. destruct (CoolingDown c p now) eqn:E.
  - rewrite filter_cons_False by congruence. done.
  - by rewrite filter_cons_True.
Qed.

Lemma fault_verdict max cd h sid provider pool trigger now :
  let c0 := NewController max cd in
  (Z.of_nat (length h) < max_int64)%Z ->
  (Fault sid provider pool trigger now (after c0 h)).2 =
  verdict (maxRotations c0) (effective_cooldown c0) sid provider (OFault sid provider pool trigger now :: h) now.
Proof.
  intros c0 Hlen. set (o := OFault sid provider pool trigger now). assert (told c0 h (after c0 h)) as [Hm _ _ _ _] by (apply told_after; lia).
  assert (told c0 (o :: h) (after c0 (o :: h))) as Ht by (apply told_after; cbn [length]; lia). cbn [after foldr apply_op o] in Ht. fold (after c0 h) in Ht.
  revert Ht Hm. generalize (after c0 h) as c. intros c [_ Hc Ho Hu Hd] [Hmax _]. unfold verdict. rewrite <- (Hc sid), <- (Ho sid provider).
  revert Hc Ho Hu Hd. unfold Fault. cbn [fst snd]. set (st := stateLocked sid c).
  set (ch := chainFault pool now (default (NewChain [pool] (c_cooldown c)) (chains st !! provider))).
  set (count := if CountsAgainstRotationBudget trigger then wrap64 (rotationCount st + 1) else rotationCount st). intros Hc Ho Hu Hd.
  rewrite stateLocked_set, decide_True by done. cbn [rotationCount chains]. rewrite lookup_insert_eq. cbn [fmap option_fmap option_map default]. rewrite Hmax.
  destruct (maxRotations c0 <? count)%Z; [done|]. unfold Select. rewrite select_first.
  assert (filter (fun p => CoolingDown ch p now = false) (order ch) = filter (fun p => usable (effective_cooldown c0) sid provider (o :: h) now p = true) (order ch)) as ->.
  { apply list_filter_iff. intros q. specialize (Hu sid provider q). rewrite stateLocked_set, decide_True in Hu by done. cbn [chains] in Hu.
    rewrite lookup_insert_eq in Hu. cbn [fmap option_fmap option_map mbind option_bind] in Hu. unfold CoolingDown, usable. rewrite Hu.
    destruct (last_fault sid provider q (o :: h)) as [t|]; cbn; [|done].
    unfold time_before. rewrite Z.ltb_ge, Z.leb_le. done. }
  done.
Qed.

(** Counted rotations the session has been granted since its last release. *)
Fixpoint granted (c0 : Controller) (sid : string) (h : list Op) : Z :=
  match h with
  | [] => 0
  | ORelease s :: h => if decide (s = sid) then 0 else granted c0 sid h
  | OFault s p pool trigger now :: h =>
      (granted c0 sid h +
       if bool_decide (s = sid) && CountsAgainstRotationBudget trigger && negb (Exhausted (Fault s p pool trigger now (after c0 h)).2) then 1 else 0)%Z
  | ORegister _ _ _ :: h => granted c0 sid h
  end.

Lemma granted_bounded max cd sid h : let c0 := NewController max cd in (Z.of_nat (length h) <= max_int64)%Z ->
  (granted c0 sid h <= maxRotations c0 /\ granted c0 sid h <= rotations sid h)%Z.
Proof.
  intros c0. assert (0 <= maxRotations c0)%Z as Hmax by (unfold c0, NewController, DefaultMaxRotations; cbn; destruct (Z.leb_spec max 0); lia).
  induction h as [|[s p pools|s p pool trigger now|s] h IH]; cbn [granted rotations length]; intros Hlen; try lia.
  - specialize (IH ltac:(lia)). destruct (bool_decide_reflect (s = sid)) as [->|Hs]; cbn [andb]; [rewrite decide_True by done|rewrite decide_False by done; lia].
    destruct (CountsAgainstRotationBudget trigger) eqn:Et; cbn [andb]; [|lia]. pose proof (fault_verdict max cd h sid p pool trigger now) as Hv. cbn zeta in Hv. fold c0 in Hv.
    rewrite Hv by lia. unfold verdict. cbn [rotations].
    rewrite decide_True, Et by done. destruct (Z.ltb_spec (maxRotations c0) (rotations sid h + 1)); cbn [Exhausted negb]; [lia|]. destruct (head _); cbn [Exhausted negb]; lia.
  - specialize (IH ltac:(lia)). destruct (decide _); lia.
Qed.

(** C17. Every answer of the controller is the verdict on the history that the fault
    ends: the session may rotate as long as its counted faults since it was last
    released, over all providers, are at most the budget, and then to the first
    pool of its order that has not faulted within the cooldown.  Over all its
    providers together a session is never granted more rotations than the
    budget. *)
Theorem fallback_refines_history max cd h sid provider pool trigger now :
  let c0 := NewController max cd in
  (Z.of_nat (length h) < max_int64)%Z ->
  (Fault sid provider pool trigger now (after c0 h)).2 =
  verdict (maxRotations c0) (effective_cooldown c0) sid provider (OFault sid provider pool trigger now :: h) now /\
  (granted c0 sid (OFault sid provider pool trigger now :: h) <= maxRotations c0)%Z.
Proof.
  intros c0 Hlen. split; [by apply fault_verdict|].
  exact (proj1 (granted_bounded max cd sid (OFault sid provider pool trigger now :: h) ltac:(cbn [length]; lia))).
Qed.

(** ** The renewal worker ([credrenewal.go]) *)

Definition MaxRenewalRetries : Z := 3.
Definition DefaultMaxExtensions : Z := 3.
Definition DefaultExpiryWarningLead : Duration := (3600 * Second)%Z.

Definition maxExtensions (ttl buffer : Duration) : Z :=
  if (ttl <=? 0)%Z || (buffer <=? 0)%Z then DefaultMaxExtensions
  else let n := Z.quot ttl buffer in if (n <? 1)%Z then 1%Z else n.

Record RLease := mkRLease {
  r_LeaseID : string; r_SessionID : string; r_CredentialID : string; r_RenewBefore : Time; r_ExpiresAt : Time; LeaseTTL : Duration }.

#[export] Instance RLease_eq_dec : EqDecision RLease.
Proof. solve_decision. Defined.

Record trackedLease := mkTracked { lease : RLease; retries : Z; expiryWarningFired : bool; extensions : Z }.

(** What the worker tells others. *)
Inductive Event :=
| Tracked (l : RLease) | Warned (l : RLease) | ExhaustedLease (l : RLease) | CapReached (l : RLease) | Renewed (l : RLease).

(** Objects are never moved; [tracked] holds pointers to them. *)
Record Worker := mkWorker {
  heap : list trackedLease; tracked : gmap string nat; w_revoked : gset string; events : list Event }.

(** The options that matter: the lead of the warning, and which hooks are set. *)
Record Options := mkOptions { expiryWarningLead : Duration; has_onExtend : bool; has_onExtensionCapReached : bool }.

Definition NewOptions (lead : Duration) (extend cap : bool) : Options :=
  mkOptions (if (lead =? 0)%Z then DefaultExpiryWarningLead else lead) extend cap.

Definition NewWorker : Worker := mkWorker [] ∅ ∅ [].

Definition note (e : Event) (w : Worker) : Worker := mkWorker (heap w) (tracked w) (w_revoked w) (events w ++ [e]).

Definition Track (l : RLease) (w : Worker) : Worker :=
  mkWorker (heap w ++ [mkTracked l 0 false 0]) (<[r_LeaseID l := length (heap w)]> (tracked w)) (w_revoked w) (events w ++ [Tracked l]).

Definition Forget (id : string) (w : Worker) : Worker := mkWorker (heap w) (delete id (tracked w)) (w_revoked w) (events w).

Definition RevokeLeases (cred : string) (w : Worker) : Worker := mkWorker (heap w) (tracked w) ({[cred]} ∪ w_revoked w) (events w).

Definition exhaust (l : RLease) (w : Worker) : Worker := note (ExhaustedLease l) (Forget (r_LeaseID l) w).

(** The rest of a sweep, as jobs: each runs between two steps of other
    goroutines. *)
Inductive Job := JWarn (l : RLease) | JExhaust (l : RLease) | JDue (p : nat).
#[export] Instance Job_eq_dec : EqDecision Job.
Proof. solve_decision. Defined.

Definition set_obj (p : nat) (t : trackedLease) (w : Worker) : Worker := mkWorker (<[p := t]> (heap w)) (tracked w) (w_revoked w) (events w).

Definition inWarningWindow (o : Options) (now : Time) (t : trackedLease) : bool :=
  (0 <? expiryWarningLead o)%Z && negb (expiryWarningFired t) && negb (time_before now (time_add (r_ExpiresAt (lease t)) (- expiryWarningLead o))).

(** One turn of the loop under the lock. *)
Definition collect_one (o : Options) (now : Time) (acc : Worker * (list Job * list Job * list Job)) (p : nat) : Worker * (list Job * list Job * list Job) :=
  let '(w, (warnings, revokedLeases, due)) := acc in
  match heap w !! p with
  | None => acc
  | Some t =>
      if bool_decide (r_CredentialID (lease t) ∈ w_revoked w) then (w, (warnings, revokedLeases ++ [JExhaust (lease t)], due))
      else
        let warn := inWarningWindow o now t in
        let w := if warn then set_obj p (mkTracked (lease t) (retries t) true (extensions t)) w else w in
        let warnings := if warn then warnings ++ [JWarn (lease t)] else warnings in
        (w, (warnings, revokedLeases, if negb (time_before now (r_RenewBefore (lease t))) then due ++ [JDue p] else due))
  end.

(** [ptrs] is the order in which [tracked] is ranged over. *)
Definition collect (o : Options) (now : Time) (ptrs : list nat) (w : Worker) : Worker * list Job :=
  let '(w, (warnings, revokedLeases, due)) := foldl (collect_one o now) (w, ([], [], [])) ptrs in
  (w, warnings ++ revokedLeases ++ due).

Inductive RenewAnswer := RenewedTo (next : RLease) | RenewReleased | RenewInfraUnavailable | RenewFailed.
Inductive ExtendAnswer := ExtendDone | ExtendReleased | ExtendFailed.

(** What the job of a due lease is answered. *)
Record Answer := mkAnswer { a_renew : RenewAnswer; a_extend : ExtendAnswer }.

(** [recordFailure], and the exhaustion it may call for. *)
Definition recordFailure (p : nat) (t : trackedLease) (w : Worker) : Worker * list Job :=
  let t := mkTracked (lease t) (wrap64 (retries t + 1)) (expiryWarningFired t) (extensions t) in
  let w := set_obj p t w in
  if (MaxRenewalRetries <=? retries t)%Z then (Forget (r_LeaseID (lease t)) w, [JExhaust (lease t)]) else (w, []).

Definition buffer_of (l : RLease) : Duration := time_sub (r_ExpiresAt l) (r_RenewBefore l).

Definition extended (l : RLease) : RLease :=
  mkRLease (r_LeaseID l) (r_SessionID l) (r_CredentialID l) (r_ExpiresAt l) (time_add (r_ExpiresAt l) (buffer_of l)) (LeaseTTL l).

Definition renewDue (o : Options) (now : Time) (p : nat) (a : Answer) (w : Worker) : Worker * list Job :=
  match heap w !! p with
  | None => (w, [])
  | Some t =>
      let l := lease t in
      if negb (time_before now (r_ExpiresAt l)) then (exhaust l w, [])
      else match a_renew a with
           | RenewedTo next => (note (Renewed next) (Track next (Forget (r_LeaseID l) w)), [])
           | RenewReleased => (Forget (r_LeaseID l) w, [])
           | RenewFailed => recordFailure p t w
           | RenewInfraUnavailable =>
               if negb (has_onExtend o) then recordFailure p t w
               else if (maxExtensions (LeaseTTL l) (buffer_of l) <=? extensions t)%Z then
                 if has_onExtensionCapReached o then (note (CapReached l) (Forget (r_LeaseID l) w), []) else recordFailure p t w
               else match a_extend a with
                    | ExtendDone => (set_obj p (mkTracked (extended l) 0 (expiryWarningFired t) (wrap64 (extensions t + 1))) w, [])
                    | ExtendReleased => (Forget (r_LeaseID l) w, [])
                    | ExtendFailed => recordFailure p t w
                    end
           end
  end.

Definition runJob (o : Options) (now : Time) (j : Job) (a : Answer) (w : Worker) : Worker * list Job :=
  match j with
  | JWarn l => (note (Warned l) w, [])
  | JExhaust l => (exhaust l w, [])
  | JDue p => renewDue o now p a w
  end.

(** A job with the exhaustion it calls for; [answers] is asked once per object. *)
Definition perform (o : Options) (now : Time) (answers : nat -> Answer) (w : Worker) (j : Job) : Worker :=
  let '(w, more) := runJob o now j (answers (match j with JDue p => p | _ => 0 end)) w in
  foldl (fun w j => (runJob o now j (answers 0) w).1) w more.

(** A sweep nobody disturbs. *)
Definition Tick (o : Options) (now : Time) (answers : nat -> Answer) (ptrs : list nat) (w : Worker) : Worker :=
  let '(w, jobs) := collect o now ptrs w in foldl (perform o now answers) w jobs.

(** ** The worker among other goroutines *)

Record Sys := mkSys { s_worker : Worker; s_jobs : list Job; s_now : Time }.

Definition answer_ok (a : Answer) : Prop := forall next, a_renew a = RenewedTo next -> in_int64 (LeaseTTL next).

(** The sweeps of one worker follow each other; leases are tracked, forgotten and
    revoked at any point of a sweep. *)
Inductive wstep (o : Options) : Sys -> Sys -> Prop :=
| ws_track s l : in_int64 (LeaseTTL l) -> wstep o s (mkSys (Track l (s_worker s)) (s_jobs s) (s_now s))
| ws_forget s id : wstep o s (mkSys (Forget id (s_worker s)) (s_jobs s) (s_now s))
| ws_revoke s cred : wstep o s (mkSys (RevokeLeases cred (s_worker s)) (s_jobs s) (s_now s))
| ws_begin w t now ptrs : ptrs ≡ₚ (map_to_list (tracked w)).*2 ->
    wstep o (mkSys w [] t) (mkSys (collect o now ptrs w).1 (collect o now ptrs w).2 now)
| ws_job w j jobs now a : answer_ok a ->
    wstep o (mkSys w (j :: jobs) now) (mkSys (runJob o now j a w).1 ((runJob o now j a w).2 ++ jobs) now).

(** The leases the objects were made for, in the order of the heap. *)
Definition births (es : list Event) : list RLease := omap (fun e => match e with Tracked l => Some l | _ => None end) es.

(** How far an object may have moved from the lease it was made for. *)
Record evolves (l0 : RLease) (t : trackedLease) : Prop := {
  ev_same : r_LeaseID (lease t) = r_LeaseID l0 /\ r_SessionID (lease t) = r_SessionID l0 /\ r_CredentialID (lease t) = r_CredentialID l0 /\ LeaseTTL (lease t) = LeaseTTL l0;
  ev_count : (0 <= extensions t <= maxExtensions (LeaseTTL l0) (buffer_of l0))%Z;
  ev_expires : r_ExpiresAt (lease t) = (r_ExpiresAt l0 + extensions t * buffer_of l0)%Z;
  ev_renew : r_RenewBefore (lease t) = if (extensions t =? 0)%Z then r_RenewBefore l0 else (r_ExpiresAt (lease t) - buffer_of l0)%Z }.

Record accounted (w : Worker) : Prop := {
  ac_objs : Forall2 evolves (births (events w)) (heap w);
  ac_ttl : Forall (fun l => in_int64 (LeaseTTL l)) (births (events w)) }.

Lemma births_app es es' : births (es ++ es') = births es ++ births es'.
Proof. apply omap_app. Qed.

Lemma buffer_range l : in_int64 (buffer_of l).
Proof. unfold buffer_of, time_sub, in_int64, min_int64, max_int64, two63. lia. Qed.

Lemma evolves_buffer l0 t : evolves l0 t -> buffer_of (lease t) = buffer_of l0.
Proof.
  intros [_ _ He Hr]. unfold buffer_of at 1. rewrite Hr. destruct (Z.eqb_spec (extensions t) 0) as [E|_].
  - rewrite He, E. unfold buffer_of. f_equal. lia.
  - rewrite time_sub_id; [lia|]. pose proof (buffer_range l0). unfold in_int64 in *. lia.
Qed.

Lemma maxExtensions_bounds ttl buffer : in_int64 ttl -> (1 <= maxExtensions ttl buffer <= max_int64)%Z.
Proof.
  intros Ht. unfold maxExtensions, DefaultMaxExtensions, in_int64, max_int64, two63 in *. destruct (Z.leb_spec ttl 0); cbn [orb]; [lia|].
  destruct (Z.leb_spec buffer 0); [lia|]. rewrite Z.quot_div_nonneg by lia. destruct (Z.ltb_spec (ttl / buffer) 1); [lia|].
  assert (ttl / buffer <= ttl)%Z by (apply Z.div_le_upper_bound; nia). lia.
Qed.

Lemma evolves_new l : in_int64 (LeaseTTL l) -> evolves l (mkTracked l 0 false 0).
Proof. intros Ht. pose proof (maxExtensions_bounds _ (buffer_of l) Ht). constructor; cbn; [done|lia|lia|done]. Qed.

(** Retries and warnings do not matter. *)
Lemma evolves_flags l0 t n b : evolves l0 t -> evolves l0 (mkTracked (lease t) n b (extensions t)).
Proof. by intros [? ? ? ?]. Qed.

Lemma evolves_extended l0 t b : in_int64 (LeaseTTL l0) -> evolves l0 t -> (extensions t < maxExtensions (LeaseTTL (lease t)) (buffer_of (lease t)))%Z ->
  evolves l0 (mkTracked (extended (lease t)) 0 b (wrap64 (extensions t + 1))).
Proof.
  intros Ht Hev Hlt. pose proof (evolves_buffer _ _ Hev) as Hbuf. destruct Hev as [(Hi & Hs & Hc & Httl) Hn He Hr]. rewrite Hbuf, Httl in Hlt.
  pose proof (maxExtensions_bounds _ (buffer_of l0) Ht).
  rewrite wrap64_id by (unfold in_int64, min_int64, max_int64, two63 in *; lia).
  constructor; cbn [lease extensions extended r_LeaseID r_SessionID r_CredentialID LeaseTTL r_ExpiresAt r_RenewBefore]; [done|lia| |].
  - rewrite Hbuf, He. unfold time_add. lia.
  - rewrite Hbuf. unfold time_add. rewrite (proj2 (Z.eqb_neq _ _)) by lia. lia.
Qed.

Lemma accounted_track l w : in_int64 (LeaseTTL l) -> accounted w -> accounted (Track l w).
Proof.
  intros Ht [Ho Hl]. constructor; cbn; rewrite births_app; cbn [births omap list_omap].
  - apply Forall2_app; [done|]. constructor; [by apply evolves_new|constructor].
  - apply Forall_app. split; [done|]. by constructor.
Qed.

Lemma accounted_note e w : births [e] = [] -> accounted w -> accounted (note e w).
Proof. intros He [Ho Hl]. by constructor; cbn; rewrite births_app, He, app_nil_r. Qed.

Lemma accounted_forget id w : accounted w -> accounted (Forget id w).
Proof. by intros [? ?]. Qed.

(** An object is replaced by one the same lease may have become. *)
Lemma accounted_set p t t' w : heap w !! p = Some t -> (forall l0, in_int64 (LeaseTTL l0) -> evolves l0 t -> evolves l0 t') -> accounted w -> accounted (set_obj p t' w).
Proof.
  intros Hp Hev [Ho Hl]. constructor; cbn [set_obj heap events]; [|done]. destruct (Forall2_lookup_r _ _ _ _ _ Ho Hp) as (l0 & Hl0 & H0).
  rewrite <- (list_insert_id _ _ _ Hl0). apply Forall2_insert; [done|]. apply Hev; [|done]. by eapply (Forall_lookup_1 _ _ _ _ Hl).
Qed.

Lemma accounted_failure p t w : heap w !! p = Some t -> accounted w -> accounted (recordFailure p t w).1.
Proof.
  intros Hp Hw. unfold recordFailure. cbn. destruct (_ <=? _)%Z; cbn; [apply accounted_forget|].
  all: eapply accounted_set; [done| |done]; intros l0 _; apply evolves_flags.
Qed.

Lemma accounted_job o now j a w : answer_ok a -> accounted w -> accounted (runJob o now j a w).1.
Proof.
  intros Ha Hw. destruct j as [l|l|p]; cbn [runJob fst]; [by apply accounted_note|by apply accounted_note, accounted_forget|].
  unfold renewDue. destruct (heap w !! p) as [t|] eqn:E; [|done]. destruct (negb _); [by apply accounted_note, accounted_forget|].
  destruct (a_renew a) as [next| | |] eqn:Er; [|by apply accounted_forget| |by apply accounted_failure].
  - apply accounted_note; [done|]. apply accounted_track; [by apply Ha|]. by apply accounted_forget.
  - destruct (negb _); [by apply accounted_failure|]. destruct (Z.leb_spec (maxExtensions (LeaseTTL (lease t)) (buffer_of (lease t))) (extensions t)) as [Hm|Hm].
    + destruct (has_onExtensionCapReached o); [by apply accounted_note, accounted_forget|by apply accounted_failure].
    + destruct (a_extend a); [|by apply accounted_forget|by apply accounted_failure]. eapply accounted_set; [done| |done].
      intros l0 Ht Hev. by apply evolves_extended.
Qed.

Lemma accounted_collect o now ptrs w : accounted w -> accounted (collect o now ptrs w).1.
Proof.
  unfold collect. intros Hw. assert (forall ptrs acc, accounted acc.1 -> accounted (foldl (collect_one o now) acc ptrs).1) as Hf.
  { clear. induction ptrs as [|p ptrs IH]; intros acc Hw; [done|]. cbn [foldl]. apply IH. destruct acc as [w [[ws rs] due]]. cbn [collect_one fst] in *.
    destruct (heap w !! p) as [t|] eqn:E; [|done]. destruct (bool_decide _); [done|]. cbn [fst]. destruct (inWarningWindow o now t); [|done].
    eapply accounted_set; [done| |done]. intros l0 _. apply evolves_flags. }
  specialize (Hf ptrs (w, ([], [], [])) Hw). by destruct (foldl _ _ _) as [w' [[ws rs] due]].
Qed.

Lemma accounted_run o s s' : rtc (wstep o) s s' -> accounted (s_worker s) -> accounted (s_worker s').
Proof.
  induction 1 as [|s s1 s2 Hs _ IH]; [done|]. intros Hw. apply IH. clear IH s2. destruct Hs; cbn [s_worker] in *.
  - by apply accounted_track.
  - by apply accounted_forget.
  - by destruct Hw.
  - by apply accounted_collect.
  - by apply accounted_job.
Qed.

Lemma extension_within_ttl l0 t : evolves l0 t -> (0 < buffer_of l0 <= LeaseTTL l0)%Z -> (r_ExpiresAt (lease t) - r_ExpiresAt l0 <= LeaseTTL l0)%Z.
Proof.
  intros [_ Hn He _] [Hb Hle]. rewrite He. unfold maxExtensions in Hn.
  rewrite (proj2 (Z.leb_gt _ _)), (proj2 (Z.leb_gt _ _)), Z.quot_div_nonneg in Hn by lia. cbn [orb] in Hn.
  assert (1 <= LeaseTTL l0 / buffer_of l0)%Z by (apply Z.div_le_lower_bound; lia). rewrite (proj2 (Z.ltb_ge _ _)) in Hn by lia.
  pose proof (Z.mul_div_le (LeaseTTL l0) (buffer_of l0) Hb). nia.
Qed.

(** C16. However sweeps, failures and other goroutines interleave, the lease an object
    tracks is the one it was made for with its deadline moved by a whole number
    of buffers, never more than the cap; the buffer itself never changes.  With a
    buffer no longer than the lease's lifetime, an outage of the token service
    extends a lease by at most that lifetime in all. *)
Theorem extension_bounded o s p t : rtc (wstep o) (mkSys NewWorker [] 0) s -> heap (s_worker s) !! p = Some t ->
  exists l0, births (events (s_worker s)) !! p = Some l0 /\ evolves l0 t /\ buffer_of (lease t) = buffer_of l0 /\
    ((0 < buffer_of l0 <= LeaseTTL l0)%Z -> (r_ExpiresAt (lease t) - r_ExpiresAt l0 <= LeaseTTL l0)%Z).
Proof.
  intros Hrun Hp. apply accounted_run in Hrun as [Ho _]; [|by constructor]. destruct (Forall2_lookup_r _ _ _ _ _ Ho Hp) as (l0 & Hl0 & Hev).
  exists l0. split; [done|]. split; [done|]. split; [by apply evolves_buffer|by apply extension_within_ttl].
Qed.

(** ** A whole sweep *)

(** Each lease is tracked under its own identifier, and is due before it ends. *)
Definition well_tracked (w : Worker) : Prop :=
  forall id p, tracked w !! id = Some p -> exists t, heap w !! p = Some t /\ r_LeaseID (lease t) = id /\ (r_RenewBefore (lease t) <= r_ExpiresAt (lease t))%Z.

Definition is_revoked (w : Worker) (l : RLease) : Prop := r_CredentialID l ∈ w_revoked w.
#[local] Instance is_revoked_dec w l : Decision (is_revoked w l) := ltac:(unfold is_revoked; apply _).

Definition is_due (now : Time) (l : RLease) : Prop := (r_RenewBefore l <= now)%Z.
#[local] Instance is_due_dec now l : Decision (is_due now l) := ltac:(unfold is_due; apply _).

Definition live (w : Worker) (now : Time) (l : RLease) : Prop := ~ is_revoked w l /\ (now < r_ExpiresAt l)%Z.

(** The leases the objects hold, which a collection leaves alone. *)
Definition same_leases (w w' : Worker) : Prop := forall p, lease <$> heap w' !! p = lease <$> heap w !! p.

Lemma same_leases_flag p t b w : heap w !! p = Some t -> same_leases w (set_obj p (mkTracked (lease t) (retries t) b (extensions t)) w).
Proof.
  intros Hp q. cbn. destruct (decide (p = q)) as [<-|]; [|by rewrite list_lookup_insert_ne].
  rewrite list_lookup_insert_eq by (by eapply lookup_lt_Some). by rewrite Hp.
Qed.

(** What a collection finds at a pointer. *)
Definition revoked_job (w : Worker) (p : nat) : option Job :=
  t ← heap w !! p; if decide (is_revoked w (lease t)) then Some (JExhaust (lease t)) else None.
Definition due_job (w : Worker) (now : Time) (p : nat) : option Job :=
  t ← heap w !! p; if decide (is_revoked w (lease t)) then None else if (r_RenewBefore (lease t) <=? now)%Z then Some (JDue p) else None.

Definition is_warning (j : Job) : Prop := match j with JWarn _ => True | _ => False end.

Lemma jobs_same w w' now p : same_leases w w' -> w_revoked w' = w_revoked w ->
  revoked_job w' p = revoked_job w p /\ due_job w' now p = due_job w now p.
Proof.
  intros Hs Hr. specialize (Hs p). unfold revoked_job, due_job, is_revoked_dec, is_revoked.
  destruct (heap w !! p) as [t|], (heap w' !! p) as [t'|]; cbn in *; try done. injection Hs as ->. by rewrite Hr.
Qed.

Lemma collect_fold o now ptrs w ws rs due : exists w' ws',
  foldl (collect_one o now) (w, (ws, rs, due)) ptrs = (w', (ws ++ ws', rs ++ omap (revoked_job w) ptrs, due ++ omap (due_job w now) ptrs)) /\
  tracked w' = tracked w /\ w_revoked w' = w_revoked w /\ events w' = events w /\ same_leases w w' /\ Forall is_warning ws'.
Proof.
  revert w ws rs due. induction ptrs as [|p ptrs IH]; intros w ws rs due.
  { exists w, []. cbn. rewrite !app_nil_r. done. }
  cbn [foldl collect_one omap list_omap]. unfold revoked_job at 1, due_job at 1. destruct (heap w !! p) as [t|] eqn:E; cbn [mbind option_bind]; [|apply IH].
  destruct (decide (is_revoked w (lease t))) as [Hr|Hr].
  { rewrite bool_decide_eq_true_2 by done. destruct (IH w ws (rs ++ [JExhaust (lease t)]) due) as (w' & ws' & -> & ?).
    exists w', ws'. by rewrite <- app_assoc. }
  rewrite bool_decide_eq_false_2 by done. unfold time_before. rewrite <- Z.leb_antisym.
  set (w1 := if inWarningWindow o now t then _ else w).
  assert (same_leases w w1 /\ tracked w1 = tracked w /\ w_revoked w1 = w_revoked w /\ events w1 = events w) as (Hs & Ht & Hv & He)
    by (unfold w1; destruct (inWarningWindow o now t); [split; [by apply same_leases_flag|done]|done]).
  set (ws1 := if inWarningWindow o now t then ws ++ [JWarn (lease t)] else ws).
  set (due1 := if (r_RenewBefore (lease t) <=? now)%Z then due ++ [JDue p] else due).
  destruct (IH w1 ws1 rs due1) as (w' & ws' & -> & Ht' & Hv' & He' & Hs' & Hw).
  exists w', ((if inWarningWindow o now t then [JWarn (lease t)] else []) ++ ws').
  assert (omap (revoked_job w1) ptrs = omap (revoked_job w) ptrs /\ omap (due_job w1 now) ptrs = omap (due_job w now) ptrs) as [-> ->].
  { split; apply list_omap_ext, Forall_Forall2_diag, Forall_forall; intros q _; by apply jobs_same. }
  split; [|split; [congruence|split; [congruence|split; [congruence|split; [intros q; by rewrite Hs', Hs|]]]]].
  - unfold ws1, due1. destruct (inWarningWindow o now t), (_ <=? now)%Z; by rewrite <- ?app_assoc.
  - apply Forall_app. split; [|done]. destruct (inWarningWindow o now t); by repeat constructor.
Qed.

Lemma collect_jobs o now ptrs w : exists w' ws', collect o now ptrs w = (w', ws' ++ omap (revoked_job w) ptrs ++ omap (due_job w now) ptrs) /\
  tracked w' = tracked w /\ w_revoked w' = w_revoked w /\ events w' = events w /\ same_leases w w' /\ Forall is_warning ws'.
Proof. unfold collect. destruct (collect_fold o now ptrs w [] [] []) as (w' & ws' & -> & ?). by exists w', ws'. Qed.

Section sweep.
Context (o : Options) (now : Time) (answers : nat -> Answer).
Abbreviation perform := (perform o now answers).

(** What the job of a due lease comes to. *)
Inductive outcome (w : Worker) (p : nat) (t : trackedLease) : Worker -> Prop :=
| oc_gone w' : tracked w' = delete (r_LeaseID (lease t)) (tracked w) -> heap w' = heap w \/ (exists t', lease t' = lease t /\ heap w' = <[p := t']> (heap w)) ->
    ((r_ExpiresAt (lease t) <= now)%Z -> ExhaustedLease (lease t) ∈ events w') -> outcome w p t w'
| oc_kept w' t' : tracked w' = tracked w -> heap w' = <[p := t']> (heap w) -> (now < r_ExpiresAt (lease t))%Z ->
    lease t' = lease t \/ lease t' = extended (lease t) -> outcome w p t w'
| oc_renewed w' next : a_renew (answers p) = RenewedTo next -> heap w' = heap w ++ [mkTracked next 0 false 0] -> (now < r_ExpiresAt (lease t))%Z ->
    tracked w' = <[r_LeaseID next := length (heap w)]> (delete (r_LeaseID (lease t)) (tracked w)) -> outcome w p t w'.

Lemma perform_due w p : perform w (JDue p) =
  let '(w', more) := renewDue o now p (answers p) w in foldl (fun w j => (runJob o now j (answers 0) w).1) w' more.
Proof using Type. reflexivity. Qed.

Lemma failure_outcome w p t : (now < r_ExpiresAt (lease t))%Z ->
  outcome w p t (let '(w', more) := recordFailure p t w in foldl (fun w j => (runJob o now j (answers 0) w).1) w' more).
Proof using Type.
  intros Hlt. unfold recordFailure. cbn [retries lease]. destruct (_ <=? _)%Z; cbn.
  - apply oc_gone; cbn; [by rewrite delete_delete_eq|right; by eexists (mkTracked (lease t) _ _ _)|lia].
  - by eapply oc_kept; [| |done|left].
Qed.

Lemma due_outcome w p t : heap w !! p = Some t -> outcome w p t (perform w (JDue p)).
Proof using Type.
  intros Hp. rewrite perform_due. unfold renewDue. rewrite Hp. unfold time_before. rewrite <- Z.leb_antisym.
  destruct (Z.leb_spec (r_ExpiresAt (lease t)) now) as [Hle|Hlt].
  { apply oc_gone; [done|by left|]. intros _. cbn. set_solver. }
  destruct (a_renew (answers p)) as [next| | |] eqn:Er.
  - by eapply oc_renewed.
  - apply oc_gone; [done|by left|lia].
  - destruct (negb _); [by apply failure_outcome|]. destruct (_ <=? extensions t)%Z.
    + destruct (has_onExtensionCapReached o); [apply oc_gone; [done|by left|lia]|by apply failure_outcome].
    + destruct (a_extend (answers p)); [by eapply oc_kept; [| |done|right]|apply oc_gone; [done|by left|lia]|by apply failure_outcome].
  - by apply failure_outcome.
Qed.

Lemma perform_revoked w j : w_revoked (perform w j) = w_revoked w.
Proof using Type.
  destruct j as [l|l|p]; [done..|]. rewrite perform_due. unfold renewDue. destruct (heap w !! p) as [t|]; [|done]. destruct (negb _); [done|].
  destruct (a_renew _); [done|done| |]; unfold recordFailure; destruct (MaxRenewalRetries <=? _)%Z; try done.
  all: destruct (negb _); [done|]; destruct (_ <=? extensions t)%Z; [by destruct (has_onExtensionCapReached o)|by destruct (a_extend _)].
Qed.

Lemma perform_events w j e : e ∈ events w -> e ∈ events (perform w j).
Proof using Type.
  intros He. destruct j as [l|l|p]; [cbn; set_solver..|]. rewrite perform_due. unfold renewDue. destruct (heap w !! p) as [t|]; [|done].
  destruct (negb _); [cbn; set_solver|].
  destruct (a_renew _); [cbn; set_solver|done| |]; unfold recordFailure; destruct (MaxRenewalRetries <=? _)%Z; try (cbn; set_solver).
  all: destruct (negb _); [cbn; set_solver|]; destruct (_ <=? extensions t)%Z; [destruct (has_onExtensionCapReached o)|destruct (a_extend _)]; cbn; set_solver.
Qed.

(** The other objects stay as they are. *)
Lemma perform_other w j q t : heap w !! q = Some t -> j <> JDue q -> heap (perform w j) !! q = Some t.
Proof using Type.
  intros Hq Hj. destruct j as [l|l|p]; [done..|]. assert (p <> q) as Hne by congruence. destruct (heap w !! p) as [u|] eqn:E.
  2: { rewrite perform_due. unfold renewDue. by rewrite E. }
  destruct (due_outcome w p u E) as [w' _ [->|(t' & _ & ->)] _|w' t' _ -> _ _|w' next _ -> _ _]; [done| | |by apply lookup_app_l_Some]; by rewrite list_lookup_insert_ne.
Qed.

(** What becomes of a tracked lease: it is live or its job is still to come. *)
Definition cared_for (w : Worker) (jobs : list Job) (id : string) (p : nat) (t : trackedLease) : Prop :=
  r_LeaseID (lease t) = id /\ (r_RenewBefore (lease t) <= r_ExpiresAt (lease t))%Z /\
  (live w now (lease t) \/ (JDue p ∈ jobs /\ ~ is_revoked w (lease t)) \/ exists l, r_LeaseID l = id /\ JExhaust l ∈ jobs).

Definition in_hand (w : Worker) (jobs : list Job) : Prop :=
  forall id p, tracked w !! id = Some p -> exists t, heap w !! p = Some t /\ cared_for w jobs id p t.

(** The renewer hands out leases that can be used. *)
Definition renews_live (w : Worker) : Prop :=
  forall p next, a_renew (answers p) = RenewedTo next -> live w now next /\ (r_RenewBefore next <= r_ExpiresAt next)%Z.

(** A job that is not about the entry leaves it to the others. *)
Lemma cared_for_other w j jobs id q t : heap w !! q = Some t -> cared_for w (j :: jobs) id q t ->
  j <> JDue q -> (forall l, r_LeaseID l = id -> j <> JExhaust l) -> exists t, heap (perform w j) !! q = Some t /\ cared_for (perform w j) jobs id q t.
Proof using Type.
  intros Hq (Hid & Hle & Hx) H1 H2. exists t. split; [by apply perform_other|]. unfold cared_for, live, is_revoked in *. rewrite perform_revoked.
  split; [done|]. split; [done|]. destruct Hx as [Hx|[[[Hx|Hx]%elem_of_cons ?]|(l & Hl & [Hx|Hx]%elem_of_cons)]]; try congruence; eauto.
  by destruct (H2 l Hl).
Qed.

Lemma extended_live w l : live w now l -> (r_RenewBefore l <= r_ExpiresAt l)%Z ->
  live w now (extended l) /\ (r_RenewBefore (extended l) <= r_ExpiresAt (extended l))%Z.
Proof using Type.
  intros [Hr Hn] Hle. unfold live, is_revoked. cbn. unfold time_add, buffer_of, time_sub, min_int64, max_int64, two63. split; [split; [done|lia]|lia].
Qed.

(** The lease the job is about, if it is kept. *)
Lemma cared_for_kept w jobs id p t t' : cared_for w (JDue p :: jobs) id p t -> (now < r_ExpiresAt (lease t))%Z ->
  lease t' = lease t \/ lease t' = extended (lease t) -> cared_for w jobs id p t'.
Proof using Type.
  intros (Hid & Hle & Hx) Hlt Hl.
  assert (forall l : RLease, live w now (lease t) -> lease t' = lease t \/ lease t' = extended (lease t) ->
    live w now (lease t') /\ (r_RenewBefore (lease t') <= r_ExpiresAt (lease t'))%Z) as Hlive by (intros l H0 [->| ->]; [done|by apply extended_live]).
  unfold cared_for. split; [by destruct Hl as [->| ->]|]. split.
  - destruct Hl as [->| ->]; [done|]. cbn. unfold time_add, buffer_of, time_sub, min_int64, max_int64, two63. lia.
  - destruct Hx as [Hx|[[_ Hx]|(l & ? & [|Hx]%elem_of_cons)]]; [left; by apply (Hlive (lease t))|left; by apply (Hlive (lease t))|done|right; right; eauto].
Qed.

Lemma cared_for_same w w' jobs id p t : w_revoked w' = w_revoked w -> cared_for w jobs id p t -> cared_for w' jobs id p t.
Proof using Type. unfold cared_for, live, is_revoked. by intros ->. Qed.

Lemma in_hand_due w p u jobs : heap w !! p = Some u -> renews_live w -> in_hand w (JDue p :: jobs) -> in_hand (perform w (JDue p)) jobs.
Proof using Type.
  intros Hp Hren Hin id q Hq. assert (p < length (heap w)) by (by eapply lookup_lt_Some).
  assert (forall t, heap w !! q = Some t -> cared_for w (JDue p :: jobs) id q t -> q <> p -> exists t, heap (perform w (JDue p)) !! q = Some t /\ cared_for (perform w (JDue p)) jobs id q t)
    as Hother by (intros t ? ? ?; by eapply cared_for_other; [| |congruence|]).
  pose proof (perform_revoked w (JDue p)) as Hrev. destruct (due_outcome w p u Hp) as [w' Ht _ _|w' t' Ht Hh Hn Hl|w' next Ha Hh Hn Ht]; rewrite Ht in Hq.
  - apply lookup_delete_Some in Hq as [Hid Hq]. destruct (Hin id q Hq) as (t & Ht' & Hc). eapply Hother; [done|done|].
    intros ->. destruct Hc as (Hid' & _). congruence.
  - destruct (Hin id q Hq) as (t & Ht' & Hc). destruct (decide (q = p)) as [->|]; [|by eapply Hother]. simplify_eq.
    exists t'. rewrite Hh, list_lookup_insert_eq by done. split; [done|]. by eapply cared_for_same, cared_for_kept.
  - apply lookup_insert_Some in Hq as [[Hid <-]|[_ [Hid Hq]%lookup_delete_Some]].
    + eexists. rewrite Hh, list_lookup_middle by done. split; [done|]. destruct (Hren _ _ Ha). eapply cared_for_same; [done|]. split; [done|]. split; [done|by left].
    + destruct (Hin id q Hq) as (t & Ht' & Hc). eapply Hother; [done|done|]. intros ->. destruct Hc as (Hid' & _). congruence.
Qed.

Lemma in_hand_perform w j jobs : renews_live w -> in_hand w (j :: jobs) -> in_hand (perform w j) jobs.
Proof using Type.
  intros Hren Hin. destruct j as [l|l|p].
  - intros id q Hq. destruct (Hin id q Hq) as (t & Ht & Hx). by eapply cared_for_other.
  - intros id q Hq. apply (lookup_delete_Some (tracked w)) in Hq as [Hne Hq]. destruct (Hin id q Hq) as (t & Ht & Hx). eapply cared_for_other; [done|done|done|]. intros l' Hl' [= ->]. congruence.
  - destruct (heap w !! p) as [u|] eqn:Hp; [by eapply in_hand_due|].
    intros id q. rewrite perform_due. unfold renewDue. rewrite Hp. cbn [foldl]. intros Hq. destruct (Hin id q Hq) as (t & Ht & Hid & Hle & Hx).
    exists t. split; [done|]. split; [done|]. split; [done|].
    destruct Hx as [?|[[[Hx|Hx]%elem_of_cons ?]|(l & ? & [|Hx]%elem_of_cons)]]; [auto|congruence|auto|done|eauto].
Qed.

Lemma in_hand_all w jobs : renews_live w -> in_hand w jobs -> in_hand (foldl perform w jobs) [].
Proof using Type.
  revert w. induction jobs as [|j jobs IH]; intros w Hren Hin; [done|]. cbn [foldl]. apply IH; [|by apply in_hand_perform].
  intros p next Hp. destruct (Hren p next Hp). split; [|done]. unfold live, is_revoked. by rewrite perform_revoked.
Qed.

Lemma foldl_revoked w jobs : w_revoked (foldl perform w jobs) = w_revoked w.
Proof using Type. revert w. induction jobs as [|j jobs IH]; intros w; [done|]. cbn [foldl]. by rewrite IH, perform_revoked. Qed.

Lemma foldl_events w jobs e : e ∈ events w -> e ∈ events (foldl perform w jobs).
Proof using Type. revert w. induction jobs as [|j jobs IH]; intros w He; [done|]. cbn [foldl]. by apply IH, perform_events. Qed.

(** Every exhaustion a collection decides on is told. *)
Lemma exhaustion_told w jobs l : JExhaust l ∈ jobs -> ExhaustedLease l ∈ events (foldl perform w jobs).
Proof using Type.
  intros (pre & post & ->)%list_elem_of_split. rewrite foldl_app. cbn [foldl]. apply foldl_events. cbn. set_solver.
Qed.

Lemma foldl_other w jobs q t : heap w !! q = Some t -> JDue q ∉ jobs -> heap (foldl perform w jobs) !! q = Some t.
Proof using Type.
  revert w. induction jobs as [|j jobs IH]; intros w Hq Hn; [done|]. cbn [foldl]. apply not_elem_of_cons in Hn as [Hj Hn].
  apply IH; [|done]. apply perform_other; [done|congruence].
Qed.

(** An expired lease that is due is exhausted. *)
Lemma expiry_told w jobs p t : heap w !! p = Some t -> JDue p ∈ jobs -> (r_ExpiresAt (lease t) <= now)%Z -> ExhaustedLease (lease t) ∈ events (foldl perform w jobs).
Proof using Type.
  intros Hp Hj Hexp. destruct (list_elem_of_split_l _ _ Hj) as (pre & post & -> & Hn). rewrite foldl_app. cbn [foldl]. apply foldl_events.
  pose proof (foldl_other _ _ _ _ Hp Hn) as Hp'. destruct (due_outcome _ _ _ Hp') as [w' _ _ He|w' t' _ _ He _|w' next _ _ He _]; [auto|lia|lia].
Qed.

(** Jobs about other identifiers. *)
Definition aloof (w : Worker) (id : string) (j : Job) : Prop :=
  match j with
  | JWarn _ => True
  | JExhaust l => r_LeaseID l <> id
  | JDue q => forall t, heap w !! q = Some t -> r_LeaseID (lease t) <> id
  end.

Definition renews_apart (id : string) : Prop := forall q next, a_renew (answers q) = RenewedTo next -> r_LeaseID next <> id.

Lemma aloof_tracked w id j : renews_apart id -> aloof w id j -> tracked (perform w j) !! id = tracked w !! id.
Proof using Type.
  intros Hn Hj. destruct j as [l|l|p]; cbn in Hj; [done|exact (lookup_delete_ne (tracked w) _ _ Hj)|].
  destruct (heap w !! p) as [u|] eqn:E; [|rewrite perform_due; unfold renewDue; by rewrite E].
  specialize (Hj u eq_refl). destruct (due_outcome w p u E) as [w' -> _ _|w' t' -> _ _ _|w' next Ha _ _ ->]; [by rewrite lookup_delete_ne|done|].
  rewrite lookup_insert_ne by (by eapply Hn). by rewrite lookup_delete_ne.
Qed.

Lemma aloof_perform w id j k : renews_apart id -> aloof w id k -> aloof (perform w j) id k.
Proof using Type.
  intros Hn Hk. destruct k as [l|l|q]; [done..|]. cbn in *. intros t. destruct j as [l|l|p]; [exact (Hk t)..|].
  destruct (heap w !! p) as [u|] eqn:E; [|rewrite perform_due; unfold renewDue; rewrite E; exact (Hk t)].
  assert (forall t', r_LeaseID (lease t') = r_LeaseID (lease u) -> <[p := t']> (heap w) !! q = Some t -> r_LeaseID (lease t) <> id) as Hi.
  { intros t' Ht'. destruct (decide (p = q)) as [<-|]; [|rewrite list_lookup_insert_ne by done; apply Hk].
    rewrite list_lookup_insert_eq by (by eapply lookup_lt_Some). intros [= <-]. rewrite Ht'. by apply Hk. }
  destruct (due_outcome w p u E) as [w' _ Hh _|w' t' _ -> _ Hl|w' next Ha -> _ _].
  - destruct Hh as [->|(t' & Hl & ->)]; [apply Hk|]. apply Hi. by rewrite Hl.
  - apply Hi. by destruct Hl as [->| ->].
  - intros [Hq|[_ Hq]]%lookup_app_Some; [by apply Hk|]. apply list_lookup_singleton_Some in Hq as [_ <-]. by eapply Hn.
Qed.

Lemma aloof_all w id jobs : renews_apart id -> Forall (aloof w id) jobs -> tracked (foldl perform w jobs) !! id = tracked w !! id.
Proof using Type.
  intros Hn. revert w. induction jobs as [|j jobs IH]; intros w Hj; [done|]. apply Forall_cons in Hj as [Hj Hjs]. cbn [foldl].
  rewrite IH; [by apply aloof_tracked|]. eapply Forall_impl; [done|]. intros k. by apply aloof_perform.
Qed.

(** ** The jobs of a collection *)

Lemma revoked_job_found w p t : heap w !! p = Some t -> is_revoked w (lease t) -> revoked_job w p = Some (JExhaust (lease t)).
Proof using Type. intros Hp Hr. unfold revoked_job. rewrite Hp. cbn. by rewrite decide_True. Qed.

Lemma due_job_found w p t : heap w !! p = Some t -> ~ is_revoked w (lease t) -> is_due now (lease t) -> due_job w now p = Some (JDue p).
Proof using Type. intros Hp Hr Hd. unfold due_job. rewrite Hp. cbn. rewrite decide_False by done. by rewrite (proj2 (Z.leb_le _ _)). Qed.

Lemma revoked_job_inv w p j : revoked_job w p = Some j -> exists t, heap w !! p = Some t /\ is_revoked w (lease t) /\ j = JExhaust (lease t).
Proof using Type. unfold revoked_job. destruct (heap w !! p) as [t|]; [|done]. cbn. destruct (decide _); [|done]. intros [= <-]. eauto. Qed.

Lemma due_job_inv w p j : due_job w now p = Some j -> exists t, heap w !! p = Some t /\ is_due now (lease t) /\ j = JDue p.
Proof using Type.
  unfold due_job. destruct (heap w !! p) as [t|]; [|done]. cbn. destruct (decide _); [done|]. destruct (Z.leb_spec (r_RenewBefore (lease t)) now); [|done].
  intros [= <-]. eauto.
Qed.

Context (w : Worker) (ptrs : list nat) (Hwell : well_tracked w) (Hptrs : ptrs ≡ₚ (map_to_list (tracked w)).*2).

Lemma tracked_ptr id p : tracked w !! id = Some p -> p ∈ ptrs.
Proof using Hptrs. intros Hp. rewrite Hptrs. apply list_elem_of_fmap. exists (id, p). split; [done|]. by apply elem_of_map_to_list. Qed.

Lemma ptr_tracked p : p ∈ ptrs -> exists id, tracked w !! id = Some p.
Proof using Hptrs. rewrite Hptrs. intros ([id q] & -> & Hin)%list_elem_of_fmap. exists id. by apply elem_of_map_to_list. Qed.

(** A lease that is neither revoked nor due is nobody's business. *)
Lemma collected_aloof id p t w1 ws : tracked w !! id = Some p -> heap w !! p = Some t -> ~ is_revoked w (lease t) -> ~ is_due now (lease t) ->
  same_leases w w1 -> Forall is_warning ws ->
  Forall (aloof w1 id) (ws ++ omap (revoked_job w) ptrs ++ omap (due_job w now) ptrs) /\
  JDue p ∉ ws ++ omap (revoked_job w) ptrs ++ omap (due_job w now) ptrs.
Proof using Hwell Hptrs.
  intros Hid Hp Hr Hd Hs Hws.
  assert (forall q u, q ∈ ptrs -> heap w !! q = Some u -> r_LeaseID (lease u) = id -> u = t) as Huniq.
  { intros q u (id' & Hq)%ptr_tracked Hu He. destruct (Hwell _ _ Hq) as (u' & Hu' & He' & _). simplify_eq. congruence. }
  rewrite !Forall_app, !not_elem_of_app. split_and!.
  - eapply Forall_impl; [done|]. by intros [].
  - apply Forall_forall. intros j (q & Hq & (u & Hu & Hru & ->)%revoked_job_inv)%list_elem_of_omap. cbn. intros He. by rewrite (Huniq q u) in Hru.
  - apply Forall_forall. intros j (q & Hq & (u & Hu & Hdu & ->)%due_job_inv)%list_elem_of_omap. cbn. intros v Hv He. specialize (Hs q). rewrite Hv, Hu in Hs.
    injection Hs as Hs. rewrite Hs in He. by rewrite (Huniq q u) in Hdu.
  - rewrite Forall_forall in Hws. intros Hin. exact (Hws _ Hin).
  - intros (q & Hq & (u & Hu & _ & ?)%revoked_job_inv)%list_elem_of_omap. done.
  - intros (q & Hq & (u & Hu & Hdu & [= <-])%due_job_inv)%list_elem_of_omap. by simplify_eq.
Qed.

Lemma collected_in_hand w1 ws : tracked w1 = tracked w -> w_revoked w1 = w_revoked w -> same_leases w w1 ->
  in_hand w1 (ws ++ omap (revoked_job w) ptrs ++ omap (due_job w now) ptrs).
Proof using Hwell Hptrs.
  intros Ht Hv Hs id p Hp. rewrite Ht in Hp. destruct (Hwell _ _ Hp) as (t & Hh & Hid & Hle). specialize (Hs p). rewrite Hh in Hs.
  destruct (heap w1 !! p) as [t1|]; [|done]. injection Hs as Hs. exists t1. split; [done|]. unfold cared_for, live, is_revoked. rewrite Hs, Hv.
  split; [done|]. split; [done|]. destruct (decide (is_revoked w (lease t))) as [Hr|Hr].
  - right. right. exists (lease t). split; [done|]. apply elem_of_app. right. apply elem_of_app. left. apply list_elem_of_omap. exists p.
    split; [by eapply tracked_ptr|by apply revoked_job_found].
  - destruct (decide (is_due now (lease t))) as [Hd|Hd]; [right; left|left; split; [done|unfold is_due in Hd; lia]].
    split; [|done]. apply elem_of_app. right. apply elem_of_app. right. apply list_elem_of_omap. exists p. split; [by eapply tracked_ptr|by eapply due_job_found].
Qed.
End sweep.

(** A whole sweep that nobody disturbs: what is tracked after it can be used, by
    credential and by deadline; every lease whose credential is revoked, and every
    due lease that has expired, is reported for fault rotation; and a lease that is
    neither revoked nor due is still tracked as it was. *)
Theorem sweep_exact o now answers ptrs w : well_tracked w -> ptrs ≡ₚ (map_to_list (tracked w)).*2 -> renews_live now answers w ->
  let w' := Tick o now answers ptrs w in
  (forall id p, tracked w' !! id = Some p -> exists t, heap w' !! p = Some t /\ r_LeaseID (lease t) = id /\ live w now (lease t)) /\
  (forall id p t, tracked w !! id = Some p -> heap w !! p = Some t -> is_revoked w (lease t) \/ (is_due now (lease t) /\ (r_ExpiresAt (lease t) <= now)%Z) ->
     ExhaustedLease (lease t) ∈ events w') /\
  (forall id p t, tracked w !! id = Some p -> heap w !! p = Some t -> ~ is_revoked w (lease t) -> ~ is_due now (lease t) -> renews_apart answers id ->
     tracked w' !! id = Some p /\ lease <$> heap w' !! p = Some (lease t)).
Proof.
  intros Hwell Hptrs Hren. unfold Tick. destruct (collect_jobs o now ptrs w) as (w1 & ws & -> & Ht & Hv & He & Hs & Hws). cbn zeta.
  set (jobs := ws ++ _). assert (forall l, live w1 now l <-> live w now l) as Hlive by (intros l; unfold live, is_revoked; by rewrite Hv).
  split_and!.
  - intros id p Hp. assert (renews_live now answers w1) as Hren1 by (intros q n Hq; rewrite Hlive; by eapply Hren).
    destruct (in_hand_all o now answers w1 jobs Hren1 (collected_in_hand now w ptrs Hwell Hptrs w1 ws Ht Hv Hs) id p Hp) as (t & Hh & Hid & _ & Hc).
    exists t. split; [done|]. split; [done|]. unfold live, is_revoked in *. rewrite foldl_revoked, Hv in Hc. set_solver.
  - intros id p t Hp Hh Hx. assert (lease <$> heap w1 !! p = Some (lease t)) as Hh1 by (by rewrite Hs, Hh).
    destruct (heap w1 !! p) as [t1|] eqn:E1; [|done]. injection Hh1 as Hh1. pose proof (tracked_ptr w ptrs Hptrs id p Hp) as Hin.
    destruct (decide (is_revoked w (lease t))) as [Hr|Hr].
    + apply exhaustion_told. unfold jobs. apply elem_of_app. right. apply elem_of_app. left. apply list_elem_of_omap. exists p. split; [done|by apply revoked_job_found].
    + destruct Hx as [|[Hd Hexp]]; [done|]. rewrite <- Hh1. eapply expiry_told; [done| |by rewrite Hh1].
      unfold jobs. apply elem_of_app. right. apply elem_of_app. right. apply list_elem_of_omap. exists p. split; [done|by eapply due_job_found].
  - intros id p t Hp Hh Hr Hd Ha. destruct (collected_aloof now w ptrs Hwell Hptrs id p t w1 ws) as [Haloof Hnot]; try done.
    split; [rewrite aloof_all; [by rewrite Ht|done|done]|]. specialize (Hs p). rewrite Hh in Hs. destruct (heap w1 !! p) as [t1|] eqn:E1; [|done].
    by rewrite (foldl_other _ _ _ _ _ _ _ E1 Hnot).
Qed.

(** ** Concrete runs *)

Module RenewalDemo.

Definition faults : list Op := [OFault "s" "anthropic" "primary" "rate_limited" 1000; ORegister "s" "anthropic" ["primary"; "spare"]].

(** The spare pool faults within the cooldown of the primary: nothing is left. *)
Lemma fallback_refines_history_witness :
  (Fault "s" "anthropic" "spare" "rate_limited" 2000 (after (NewController 3 0) faults)).2 = mkDecision true "" 2 ["primary"; "spare"] /\
  verdict 3 DefaultCooldown "s" "anthropic" (OFault "s" "anthropic" "spare" "rate_limited" 2000 :: faults) 2000 = mkDecision true "" 2 ["primary"; "spare"].
Proof.
  split; [vm_compute; reflexivity|].
  etransitivity; [symmetry; exact (proj1 (fallback_refines_history 3 0 faults "s" "anthropic" "spare" "rate_limited" 2000 eq_refl))|].
  vm_compute. reflexivity.
Defined.

Definition options : Options := NewOptions 0 true true.
Definition outage : nat -> Answer := fun _ => mkAnswer RenewInfraUnavailable ExtendDone.

(** A lease of a minute in a pool whose leases renew five minutes ahead. *)
Definition short_lease : RLease := mkRLease "cl-1" "s" "key-a" (1060 * Second - 300 * Second)%Z (1060 * Second)%Z (60 * Second)%Z.
Definition at_ : Time := (1010 * Second)%Z.
Definition started : Sys := mkSys (Track short_lease NewWorker) [] 0.
Definition collected : Sys := mkSys (collect options at_ [0] (s_worker started)).1 (collect options at_ [0] (s_worker started)).2 at_.
Definition swept : Sys := mkSys (perform options at_ outage (note (Warned short_lease) (s_worker collected)) (JDue 0)) [] at_.

Lemma outage_run : rtc (wstep options) (mkSys NewWorker [] 0) swept.
Proof.
  eapply rtc_l; [apply (ws_track options (mkSys NewWorker [] 0) short_lease); vm_compute; split; discriminate|].
  eapply rtc_l; [apply (ws_begin options (Track short_lease NewWorker) 0 at_ [0]); vm_compute; reflexivity|].
  assert (s_jobs collected = [JWarn short_lease; JDue 0]) as Hjobs by (vm_compute; reflexivity).
  pose proof (ws_job options (s_worker collected) (JWarn short_lease) [JDue 0] at_ (outage 0) ltac:(by intros next)) as Hs.
  rewrite <- Hjobs in Hs. eapply rtc_l; [exact Hs|].
  apply rtc_once. exact (ws_job options (note (Warned short_lease) (s_worker collected)) (JDue 0) [] at_ (outage 0) ltac:(by intros next)).
Qed.

(** One extension is always granted: here it is five times the lifetime. *)
Lemma extension_bounded_witness : exists t l0, heap (s_worker swept) !! 0 = Some t /\ births (events (s_worker swept)) !! 0 = Some l0 /\ evolves l0 t /\
  (r_ExpiresAt (lease t) - r_ExpiresAt l0 = 5 * LeaseTTL l0)%Z.
Proof.
  destruct (heap (s_worker swept) !! 0) as [t|] eqn:E; [|vm_compute in E; discriminate].
  destruct (extension_bounded options swept 0 t outage_run E) as (l0 & Hl & Hev & _). exists t, l0. split; [done|]. split; [done|]. split; [done|].
  vm_compute in E, Hl. injection E as <-. injection Hl as <-. reflexivity.
Defined.

Definition two_leases : Worker :=
  RevokeLeases "key-b" (Track (mkRLease "cl-2" "t" "key-b" 5000 6000 100) (Track (mkRLease "cl-1" "s" "key-a" 500 6000 100) NewWorker)).
Definition refreshed : nat -> Answer := fun _ => mkAnswer (RenewedTo (mkRLease "cl-3" "s" "key-c" 7000 9000 100)) ExtendDone.

Lemma two_leases_well : well_tracked two_leases.
Proof.
  intros id p Hp. cbn in Hp. apply lookup_insert_Some in Hp as [[<- <-]|[_ Hp]]; [by eexists|]. apply lookup_insert_Some in Hp as [[<- <-]|[_ Hp]]; [by eexists|].
  done.
Qed.

Lemma sweep_exact_witness : let w' := Tick options 1000 refreshed [0; 1] two_leases in
  map_to_list (tracked w') = [("cl-3", 2)] /\ ExhaustedLease (mkRLease "cl-2" "t" "key-b" 5000 6000 100) ∈ events w' /\
  exists t, heap w' !! 2 = Some t /\ live two_leases 1000 (lease t).
Proof.
  assert ([0; 1] ≡ₚ (map_to_list (tracked two_leases)).*2) as Hptrs by (vm_compute; (reflexivity || apply Permutation_swap)).
  assert (renews_live 1000 refreshed two_leases) as Hren by (intros p next [= <-]; split; [split; [|done]|done]; vm_compute; intros Hin; by inversion Hin).
  destruct (sweep_exact options 1000 refreshed [0; 1] two_leases two_leases_well Hptrs Hren) as (Hlive & Htold & _).
  split; [vm_compute; reflexivity|]. split.
  - apply (Htold "cl-2" 1 (mkTracked (mkRLease "cl-2" "t" "key-b" 5000 6000 100) 0 false 0)); [vm_compute; reflexivity..|]. left. vm_compute. reflexivity.
  - destruct (Hlive "cl-3" 2) as (t & Ht & _ & Hl); [vm_compute; reflexivity|]. by exists t.
Defined.

End RenewalDemo.
