(* ===== verification/Jcs.v ===== *)
(** * Canonical JSON ([pkg/audit/jcs/jcs.go])

    The RFC 8785 form that the audit chain hashes.  Text is a list of code
    points (the decoder only yields valid UTF-8).  A decoded object is a list
    of members in the order Go's map iteration takes.  The JSON decoder, NFC
    normalisation and the shortest decimal of a double are arguments.

    The canonical text is the printed form of a normal form in which strings
    are normalised, members sorted and numbers doubles; printing is shown to
    be injective, so equal texts come from equal normal forms. *)

From S2P Require Import Prelude.
From stdpp Require Import pretty list_numbers.

#[local] Set Warnings "-register-all".

Abbreviation runes := (list Z).

Definition runes_of (s : string) : runes := (fun c => Z.of_nat (Ascii.nat_of_ascii c)) <$> String.list_ascii_of_string s.

(** A finite double: zero, or its sign, shortest digits and decimal exponent
    as [strconv.FormatFloat(f, 'e', -1, 64)] prints them. *)
Inductive float64 := FZero | FSci (neg : bool) (digits : runes) (exp : Z).

Inductive json :=
| JNull
| JBool (b : bool)
| JString (s : runes)
| JNumber (token : runes)
| JArray (l : list json)
| JObject (m : list (runes * json)).

(** ** Characters *)

Definition is_digit (c : Z) : bool := ((48 <=? c) && (c <=? 57))%Z.
Definition hexdigit (n : Z) : Z := if (n <? 10)%Z then (48 + n)%Z else (87 + n)%Z.

(** The body of [writeString]'s loop; for [r < 0x20] the text is [\u00xx]. *)
Definition writeRune (r : Z) : runes :=
  if (r =? 34)%Z then [92; 34]%Z
  else if (r =? 92)%Z then [92; 92]%Z
  else if (r =? 8)%Z then [92; 98]%Z
  else if (r =? 12)%Z then [92; 102]%Z
  else if (r =? 10)%Z then [92; 110]%Z
  else if (r =? 13)%Z then [92; 114]%Z
  else if (r =? 9)%Z then [92; 116]%Z
  else if (r <? 32)%Z then [92; 117; 48; 48; hexdigit (r / 16); hexdigit (r mod 16)]%Z
  else [r].

(** [utf16.Encode]. *)
Definition utf16_unit (r : Z) : list Z :=
  if ((0 <=? r) && (r <? 55296) || (57344 <=? r) && (r <? 65536))%Z then [r]
  else if ((65536 <=? r) && (r <=? 1114111))%Z
       then [55296 + Z.land (Z.shiftr (r - 65536) 10) 1023; 56320 + Z.land (r - 65536) 1023]%Z
       else [65533%Z].

Definition utf16_encode (s : runes) : list Z := s ≫= utf16_unit.

(** The loop over both texts, then the lengths. *)
Fixpoint less_units (a b : list Z) : bool :=
  match a, b with
  | x :: a, y :: b => if (x =? y)%Z then less_units a b else (x <? y)%Z
  | [], _ :: _ => true
  | _, [] => false
  end.

Definition lessUTF16 (a b : runes) : bool := less_units (utf16_encode a) (utf16_encode b).

(** ** Numbers *)

(** [strconv.Itoa] of a non-negative number. *)
Definition Itoa (n : Z) : runes := runes_of (pretty n).

Definition zeros (n : Z) : runes := replicate (Z.to_nat n) 48%Z.

(** The layout of the digits; [n] is the position of the decimal point. *)
Definition layout (digits : runes) (exp : Z) : runes :=
  let k := Z.of_nat (length digits) in
  let n := (exp + 1)%Z in
  if ((k <=? n) && (n <=? 21))%Z then digits ++ zeros (n - k)
  else if ((0 <? n) && (n <=? 21))%Z then take (Z.to_nat n) digits ++ 46%Z :: drop (Z.to_nat n) digits
  else if ((-6 <? n) && (n <=? 0))%Z then 48%Z :: 46%Z :: zeros (- n) ++ digits
  else
    let m := if (k =? 1)%Z then digits else take 1 digits ++ 46%Z :: drop 1 digits in
    let e := (n - 1)%Z in
    if (e <? 0)%Z then m ++ 101%Z :: 45%Z :: Itoa (- e) else m ++ 101%Z :: 43%Z :: Itoa e.

Definition es6Number (f : float64) : runes :=
  match f with
  | FZero => [48%Z]
  | FSci neg digits exp => if neg then 45%Z :: layout digits exp else layout digits exp
  end.

(** ** Writing *)

Inductive JcsError := ErrParse | ErrTrailing | ErrNumber.

Section Write.
(** NFC; [strconv.ParseFloat] on a token, [None] for an error or a value
    that is not finite; the decoder with the text it leaves. *)
Variables (nfc : runes -> runes) (parseFloat : runes -> option float64)
  (decode : runes -> option (json * runes)).

Definition canonicalNumber (token : runes) : option runes := es6Number <$> parseFloat token.

Definition writeString (s : runes) : runes := 34%Z :: (nfc s ≫= writeRune) ++ [34%Z].

(** The elements with their separators. *)
Fixpoint join (l : list runes) : runes :=
  match l with
  | [] => []
  | [x] => x
  | x :: l => x ++ 44%Z :: join l
  end.

Definition member_le {A} (a b : runes * A) : Prop := lessUTF16 b.1 a.1 = false.
#[export] Instance member_le_dec {A} (a b : runes * A) : Decision (member_le a b).
Proof. unfold member_le. apply _. Defined.

(** The only error is a number that does not parse.  Keys are normalised
    before they are sorted and again when written. *)
Fixpoint writeValue (v : json) : option runes :=
  match v with
  | JNull => Some (runes_of "null")
  | JBool true => Some (runes_of "true")
  | JBool false => Some (runes_of "false")
  | JString s => Some (writeString s)
  | JNumber t => canonicalNumber t
  | JArray l => (fun xs => 91%Z :: join xs ++ [93%Z]) <$> mapM writeValue l
  | JObject m =>
      (fun ms => 123%Z :: join ((fun kt => writeString kt.1 ++ 58%Z :: kt.2) <$> merge_sort member_le ms) ++ [125%Z])
        <$> mapM (fun kv => pair (nfc kv.1) <$> writeValue kv.2) m
  end.

Definition is_space (c : Z) : bool := bool_decide (c ∈ [32; 9; 13; 10]%Z).

(** [json.Decoder.More]: another value in the current array or object. *)
Fixpoint More (rest : runes) : bool :=
  match rest with
  | [] => false
  | c :: rest => if is_space c then More rest else negb ((c =? 93) || (c =? 125))%Z
  end.

Definition Canonicalize (raw : runes) : result JcsError runes :=
  match decode raw with
  | None => Err ErrParse
  | Some (v, rest) => if More rest then Err ErrTrailing
                      else match writeValue v with Some t => Ok t | None => Err ErrNumber end
  end.
End Write.

(** ** The order of keys *)

Lemma less_units_irrefl a : less_units a a = false.
Proof. induction a as [|x a IH]; cbn; [done|]. by rewrite Z.eqb_refl. Qed.

Lemma less_units_trans a b c : less_units b a = false -> less_units c b = false -> less_units c a = false.
Proof.
  revert b c. induction a as [|x a IH]; intros [|y b] [|z c]; cbn; try done.
  destruct (Z.eqb_spec y x), (Z.eqb_spec z y), (Z.eqb_spec z x); subst; try lia; try done; [by apply IH|..];
    intros ?%Z.ltb_ge ?%Z.ltb_ge || intros ?%Z.ltb_ge ? || intros ? ?%Z.ltb_ge; try apply Z.ltb_ge; lia.
Qed.

Lemma less_units_total a b : less_units a b = false \/ less_units b a = false.
Proof.
  revert b. induction a as [|x a IH]; intros [|y b]; cbn; auto. rewrite (Z.eqb_sym y x).
  destruct (Z.eqb_spec x y); [apply IH|]. rewrite !Z.ltb_ge. lia.
Qed.

Lemma less_units_antisym a b : less_units a b = false -> less_units b a = false -> a = b.
Proof.
  revert b. induction a as [|x a IH]; intros [|y b]; cbn; try done. rewrite (Z.eqb_sym y x).
  destruct (Z.eqb_spec x y) as [->|]; [intros; f_equal; by apply IH|]. rewrite !Z.ltb_ge. lia.
Qed.

#[export] Instance member_le_total {A} : Total (@member_le A).
Proof. intros a b. unfold member_le, lessUTF16. destruct (less_units_total (utf16_encode a.1) (utf16_encode b.1)); auto. Qed.

#[export] Instance member_le_trans {A} : Transitive (@member_le A).
Proof. intros a b c. unfold member_le, lessUTF16. eauto using less_units_trans. Qed.

(** A Unicode scalar value. *)
Definition scalar (r : Z) : Prop := (0 <= r < 55296 \/ 57344 <= r <= 1114111)%Z.

Lemma utf16_unit_cases r : scalar r ->
  ((r < 55296 \/ 57344 <= r < 65536)%Z /\ utf16_unit r = [r]) \/
  ((65536 <= r <= 1114111)%Z /\ utf16_unit r = [55296 + (r - 65536) / 1024; 56320 + (r - 65536) mod 1024]%Z).
Proof.
  unfold scalar, utf16_unit. intros Hr.
  assert (forall z, Z.land z 1023 = z mod 1024)%Z as Hl by (intros z; apply (Z.land_ones z 10); lia).
  rewrite !Hl, Z.shiftr_div_pow2 by lia. change (2 ^ 10)%Z with 1024%Z.
  destruct (Z_lt_le_dec r 65536) as [Hs|Hb].
  - left. split; [lia|].
    assert (((0 <=? r) && (r <? 55296) || (57344 <=? r) && (r <? 65536))%Z = true) as ->; [|done].
    apply orb_true_iff. rewrite !andb_true_iff, !Z.leb_le, !Z.ltb_lt. lia.
  - right. split; [lia|].
    assert (((0 <=? r) && (r <? 55296) || (57344 <=? r) && (r <? 65536))%Z = false) as ->.
    { apply orb_false_iff. rewrite !andb_false_iff, !Z.leb_gt, !Z.ltb_ge. lia. }
    assert (((65536 <=? r) && (r <=? 1114111))%Z = true) as -> by (rewrite andb_true_iff, !Z.leb_le; lia).
    rewrite (Z.mod_small ((r - 65536) / 1024)); [done|]. split; [apply Z.div_pos; lia|].
    apply Z.div_lt_upper_bound; lia.
Qed.

Lemma utf16_unit_prefix a b x y : scalar a -> scalar b ->
  utf16_unit a ++ x = utf16_unit b ++ y -> a = b /\ x = y.
Proof.
  assert (forall r, (65536 <= r <= 1114111)%Z -> (55296 <= 55296 + (r - 65536) / 1024 < 56320)%Z) as Hrange.
  { intros r Hr. pose proof (Z.div_pos (r - 65536) 1024). pose proof (Z.div_lt_upper_bound (r - 65536) 1024 1024). lia. }
  intros Ha Hb. destruct (utf16_unit_cases a Ha) as [[Ra ->]|[Ra ->]], (utf16_unit_cases b Hb) as [[Rb ->]|[Rb ->]];
    cbn.
  - by intros [= -> ->].
  - intros [= E1 _]. specialize (Hrange b Rb). lia.
  - intros [= E1 _]. specialize (Hrange a Ra). lia.
  - intros [= E1 E2 E3]. split; [|done].
    pose proof (Z.div_mod (a - 65536) 1024). pose proof (Z.div_mod (b - 65536) 1024). lia.
Qed.

Lemma utf16_encode_inj a b : Forall scalar a -> Forall scalar b -> utf16_encode a = utf16_encode b -> a = b.
Proof.
  assert (forall r x, scalar r -> utf16_unit r ++ x <> []) as Hne.
  { intros r x Hr. destruct (utf16_unit_cases r Hr) as [[_ ->]|[_ ->]]; done. }
  intros Ha. revert b. induction Ha as [|r a Hr Ha IH]; intros b Hb E.
  - destruct Hb as [|q b Hq Hb]; [done|]. by destruct (Hne q (utf16_encode b) Hq).
  - destruct Hb as [|q b Hq Hb]; [by destruct (Hne r (utf16_encode a) Hr)|].
    destruct (utf16_unit_prefix r q (utf16_encode a) (utf16_encode b) Hr Hq E) as [-> E']. f_equal. by apply IH.
Qed.

Lemma member_le_antisym {A} (a b : runes * A) : Forall scalar a.1 -> Forall scalar b.1 ->
  member_le a b -> member_le b a -> a.1 = b.1.
Proof. intros Ha Hb H1 H2. apply utf16_encode_inj; [done|done|]. by apply less_units_antisym. Qed.

(** ** Sorting by key commutes with changing the values *)

Section SortMap.
Context {A B : Type} (RA : relation A) (RB : relation B) `{forall x y, Decision (RA x y), forall x y, Decision (RB x y)}.
Variable f : A -> B.
Hypothesis Hf : forall x y, RB (f x) (f y) <-> RA x y.

Lemma list_merge_fmap l1 l2 : list_merge RB (f <$> l1) (f <$> l2) = f <$> list_merge RA l1 l2.
Proof.
  revert l2. induction l1 as [|x l1 IH]; intros l2; [by destruct l2|].
  induction l2 as [|y l2 IH2]; [done|]. cbn. specialize (Hf x y).
  destruct (decide (RA x y)), (decide (RB (f x) (f y))); try tauto; cbn; f_equal; [apply (IH (y :: l2))|apply IH2].
Qed.

Lemma merge_sort_fmap l : merge_sort RB (f <$> l) = f <$> merge_sort RA l.
Proof.
  pose (g := fmap (M := option) (fmap (M := list) f)).
  assert (forall st l, merge_list_to_stack RB (g <$> st) (f <$> l) = g <$> merge_list_to_stack RA st l) as H1.
  { induction st as [|[x|] st IH]; intros k; cbn; [done| |done]. by rewrite list_merge_fmap, IH. }
  assert (forall st, merge_stack RB (g <$> st) = f <$> merge_stack RA st) as H2.
  { induction st as [|[x|] st IH]; cbn; [done| |done]. by rewrite IH, list_merge_fmap. }
  unfold merge_sort. change (@nil (option (list B))) with (g <$> []).
  generalize (@nil (option (list A))). induction l as [|x l IH]; intros st; cbn; [apply H2|].
  rewrite <- IH. f_equal. apply (H1 st [x]).
Qed.
End SortMap.

(** ** Printed numbers are different *)

Definition digit (c : Z) : Prop := (48 <= c <= 57)%Z.

(** Shortest digits: no leading and no trailing zero. *)
Definition float_ok (f : float64) : Prop :=
  match f with
  | FZero => True
  | FSci _ d _ => Forall digit d /\ (exists c, head d = Some c /\ c <> 48%Z) /\ (exists c, last d = Some c /\ c <> 48%Z)
  end.

Definition num_char (c : Z) : Prop := digit c \/ c = 45%Z \/ c = 43%Z \/ c = 46%Z \/ c = 101%Z.

Lemma runes_of_app a b : runes_of (a +:+ b) = runes_of a ++ runes_of b.
Proof. induction a as [|c a IH]; [done|]. rewrite append_cons. unfold runes_of in *. cbn. by rewrite IH. Qed.

Lemma runes_of_inj a b : runes_of a = runes_of b -> a = b.
Proof.
  revert b. induction a as [|c a IH]; intros [|d b]; try done. unfold runes_of in *. cbn. intros [= E1 E2].
  apply Nat2Z.inj in E1. rewrite (IH b E2). f_equal.
  by rewrite <- (Ascii.ascii_nat_embedding c), <- (Ascii.ascii_nat_embedding d), E1.
Qed.

Lemma pretty_N_digits (x : N) : Forall digit (runes_of (pretty x)).
Proof.
  assert (forall x s, Forall digit (runes_of s) -> Forall digit (runes_of (pretty_N_go x s))) as Hgo.
  { intros y. induction (N.lt_wf_0 y) as [y _ IH]. intros s Hs.
    destruct (decide (y = 0)%N) as [->|]; [by rewrite pretty_N_go_0|].
    rewrite pretty_N_go_step by lia. apply IH; [apply N.div_lt; lia|].
    unfold runes_of. cbn. constructor; [|exact Hs]. unfold digit.
    unfold pretty_N_char. repeat case_match; vm_compute; split; discriminate. }
  unfold pretty, pretty_N. case_decide; [|apply Hgo; constructor].
  apply Forall_singleton. split; vm_compute; discriminate.
Qed.

Lemma Itoa_digits n : (0 <= n)%Z -> Forall digit (Itoa n).
Proof.
  intros Hn. unfold Itoa. destruct n as [|p|p]; [|apply pretty_N_digits|lia].
  apply Forall_singleton. split; vm_compute; discriminate.
Qed.

Lemma Itoa_inj a b : Itoa a = Itoa b -> a = b.
Proof. intros E%runes_of_inj. by apply (inj pretty). Qed.

Lemma zeros_digits n : Forall digit (zeros n).
Proof. unfold zeros. apply Forall_replicate. unfold digit. lia. Qed.

(** A separator that occurs in neither first part splits alike. *)
Lemma split_unique (c : Z) a b x y : c ∉ a -> c ∉ b -> a ++ c :: x = b ++ c :: y -> a = b /\ x = y.
Proof.
  revert b. induction a as [|p a IH]; intros [|q b] Ha Hb; cbn.
  - by intros [= ->].
  - intros [= -> _]. set_solver.
  - intros [= -> _]. set_solver.
  - intros [= -> E]. destruct (IH b) as [-> ->]; [set_solver|set_solver|done|done].
Qed.

Lemma digits_no c d : Forall digit d -> ~ digit c -> c ∉ d.
Proof. intros Hd Hc Hin. rewrite Forall_forall in Hd. by apply Hc, Hd. Qed.

Lemma zeros_lead a b (x y : runes) : (exists c, head x = Some c /\ c <> 48%Z) -> (exists c, head y = Some c /\ c <> 48%Z) ->
  replicate a 48%Z ++ x = replicate b 48%Z ++ y -> a = b /\ x = y.
Proof.
  intros Hx Hy. revert b. induction a as [|a IH]; intros [|b]; cbn.
  - done.
  - intros ->. destruct Hx as (c & [= <-] & ?). done.
  - intros E. destruct Hy as (c & Hc & ?). rewrite <- E in Hc. by injection Hc as <-.
  - intros [= E]. destruct (IH b E). by subst.
Qed.

Lemma zeros_trail a b (x y : runes) : (exists c, last x = Some c /\ c <> 48%Z) -> (exists c, last y = Some c /\ c <> 48%Z) ->
  x ++ replicate a 48%Z = y ++ replicate b 48%Z -> a = b /\ x = y.
Proof.
  intros (c & Hc & Nc) (d & Hd & Nd) E. apply (f_equal reverse) in E. rewrite !reverse_app, !reverse_replicate in E.
  apply zeros_lead in E as [-> E%(inj reverse)]; [done|exists c|exists d]; by rewrite head_reverse.
Qed.

(** The shapes of [layout]. *)
Inductive shape (d : runes) (e : Z) : runes -> Prop :=
| shape_int k : (Z.of_nat (length d) + Z.of_nat k = e + 1)%Z -> shape d e (d ++ replicate k 48%Z)
| shape_point k : (0 < k < length d) -> (Z.of_nat k = e + 1)%Z -> shape d e (take k d ++ 46%Z :: drop k d)
| shape_small k : (Z.of_nat k = - (e + 1))%Z -> shape d e (48%Z :: 46%Z :: replicate k 48%Z ++ d)
| shape_exp m s a : (m = d \/ exists x l, d = x :: l /\ m = x :: 46%Z :: l) ->
    ((0 <= e)%Z /\ s = 43%Z /\ a = Itoa e) \/ ((e < 0)%Z /\ s = 45%Z /\ a = Itoa (- e)) ->
    shape d e (m ++ 101%Z :: s :: a).

Lemma layout_shape d e : d <> [] -> shape d e (layout d e).
Proof.
  intros Hd. unfold layout. assert (0 < length d) by (destruct d; cbn; [done|lia]).
  destruct ((Z.of_nat (length d) <=? e + 1) && (e + 1 <=? 21))%Z eqn:E1; simplify_bool.
  { apply shape_int. lia. }
  destruct ((0 <? e + 1) && (e + 1 <=? 21))%Z eqn:E2; simplify_bool.
  { apply shape_point; [|lia]. destruct E1 as [E1|E1]; simplify_bool; lia. }
  destruct ((-6 <? e + 1) && (e + 1 <=? 0))%Z eqn:E3; simplify_bool.
  { apply shape_small. lia. }
  replace (e + 1 - 1)%Z with e by lia.
  assert ((if (Z.of_nat (length d) =? 1)%Z then d else take 1 d ++ 46%Z :: drop 1 d) = d \/
    exists x l, d = x :: l /\ (if (Z.of_nat (length d) =? 1)%Z then d else take 1 d ++ 46%Z :: drop 1 d) = x :: 46%Z :: l) as Hm.
  { destruct (_ =? 1)%Z; [by left|]. right. destruct d as [|x l]; [done|]. exists x, l. cbn. by rewrite drop_0. }
  destruct (Z.ltb_spec e 0); apply shape_exp; auto.
Qed.

Definition good_digits (d : runes) : Prop :=
  Forall digit d /\ (exists c, head d = Some c /\ c <> 48%Z) /\ (exists c, last d = Some c /\ c <> 48%Z).

Lemma good_digits_plain d k : good_digits d -> 46%Z ∉ d ++ replicate k 48%Z /\ 101%Z ∉ d ++ replicate k 48%Z.
Proof.
  intros (Hd & _). assert (Forall digit (d ++ replicate k 48%Z)) as Hf.
  { apply Forall_app. split; [done|]. apply Forall_replicate. unfold digit. lia. }
  split; apply digits_no; try done; unfold digit; lia.
Qed.

Lemma mantissa_no_e d m : Forall digit d -> (m = d \/ exists x l, d = x :: l /\ m = x :: 46%Z :: l) -> 101%Z ∉ m.
Proof.
  intros Hd [->|(x & l & -> & ->)]; [apply digits_no; [done|unfold digit; lia]|].
  apply Forall_cons in Hd as [Hx Hl]. rewrite !not_elem_of_cons. unfold digit in Hx.
  split_and!; [lia|lia|]. apply digits_no; [done|unfold digit; lia].
Qed.

Lemma mantissa_inj d d' m : Forall digit d -> Forall digit d' ->
  (m = d \/ exists x l, d = x :: l /\ m = x :: 46%Z :: l) ->
  (m = d' \/ exists x l, d' = x :: l /\ m = x :: 46%Z :: l) -> d = d'.
Proof.
  assert (forall d x l, Forall digit d -> d <> x :: 46%Z :: l) as Hno.
  { intros d0 x l Hd ->. apply Forall_cons in Hd as [_ Hd]. apply Forall_cons in Hd as [Hx _]. unfold digit in Hx. lia. }
  intros Hd Hd' [->|(x & l & -> & ->)] [E|(y & k & -> & E)].
  - done.
  - by destruct (Hno d y k).
  - by destruct (Hno d' x l).
  - by injection E as -> ->.
Qed.

(** Which shape a text has: an exponent, a point, a leading zero. *)
Definition kind (t : runes) : bool * bool * bool :=
  (bool_decide (101%Z ∈ t), bool_decide (46%Z ∈ t), bool_decide (head t = Some 48%Z)).

Lemma shape_kind d e t : good_digits d -> shape d e t ->
  (exists k, t = d ++ replicate k 48%Z /\ (Z.of_nat (length d) + Z.of_nat k = e + 1)%Z /\ (kind t).1 = (false, false)) \/
  (exists k, t = take k d ++ 46%Z :: drop k d /\ 0 < k < length d /\ (Z.of_nat k = e + 1)%Z /\ kind t = (false, true, false)) \/
  (exists k, t = 48%Z :: 46%Z :: replicate k 48%Z ++ d /\ (Z.of_nat k = - (e + 1))%Z /\ kind t = (false, true, true)) \/
  (exists m s a, t = m ++ 101%Z :: s :: a /\ (m = d \/ exists x l, d = x :: l /\ m = x :: 46%Z :: l) /\
     (((0 <= e)%Z /\ s = 43%Z /\ a = Itoa e) \/ ((e < 0)%Z /\ s = 45%Z /\ a = Itoa (- e))) /\ (kind t).1.1 = true).
Proof.
  intros Hg. pose proof Hg as (Hd & (c & Hc & Nc) & _). unfold kind.
  assert (101%Z ∉ d /\ 46%Z ∉ d) as [N1 N2] by (split; apply digits_no; try done; unfold digit; lia).
  destruct 1 as [k Hk|k Hk1 Hk2|k Hk|m s a Hm Ha].
  - left. exists k. destruct (good_digits_plain d k Hg). split_and!; [done|done|]. cbn. by rewrite !bool_decide_eq_false_2.
  - right; left. exists k. split_and!; [done|lia|lia|done|].
    assert (101%Z ∉ take k d ++ 46%Z :: drop k d) as N.
    { rewrite <- (take_drop k d), elem_of_app in N1. rewrite elem_of_app, elem_of_cons. intros [?|[?|?]]; [tauto|lia|tauto]. }
    rewrite (bool_decide_eq_false_2 _ N), bool_decide_eq_true_2 by set_solver.
    rewrite bool_decide_eq_false_2; [done|]. destruct k; [lia|]. destruct d as [|x d]; [done|]. cbn in *. congruence.
  - right; right; left. exists k. split_and!; [done|done|].
    rewrite bool_decide_eq_false_2, !bool_decide_eq_true_2; [done|done|set_solver|].
    rewrite !not_elem_of_cons, elem_of_app, elem_of_replicate. split_and!; [lia|lia|]. intros [[? _]|?]; [lia|done].
  - right; right; right. exists m, s, a. split_and!; [done|done|done|]. cbn. apply bool_decide_eq_true_2. set_solver.
Qed.

Lemma layout_inj d e d' e' : good_digits d -> good_digits d' -> layout d e = layout d' e' -> d = d' /\ e = e'.
Proof.
  intros Hg Hg' E. assert (forall d, good_digits d -> d <> []) as Hne by (by intros ? (_ & (? & ? & _) & _) ->).
  pose proof (layout_shape d e (Hne d Hg)) as S1. pose proof (layout_shape d' e' (Hne d' Hg')) as S2.
  rewrite <- E in S2. revert S1 S2. generalize (layout d e). clear E. intros t S1 S2.
  pose proof Hg as (Hd & Hh & Hl). pose proof Hg' as (Hd' & Hh' & Hl').
  destruct (shape_kind d e t Hg S1) as [(k & E & Ek & K)|[(k & E & Hk & Ek & K)|[(k & E & Ek & K)|(m & s & a & E & Hm & Ha & K)]]];
  destruct (shape_kind d' e' t Hg' S2) as [(k' & E' & Ek' & K')|[(k' & E' & Hk' & Ek' & K')|[(k' & E' & Ek' & K')|(m' & s' & a' & E' & Hm' & Ha' & K')]]];
    try (exfalso; destruct (kind t) as [[? ?] ?]; cbn in *; congruence).
  - rewrite E in E'. apply zeros_trail in E' as [-> ->]; [|done|done]. split; [done|lia].
  - rewrite E in E'. apply split_unique in E' as [E1 E2].
    + assert (k = k') as -> by (apply (f_equal length) in E1; rewrite !length_take in E1; lia).
      split; [|lia]. by rewrite <- (take_drop k' d), E1, E2, take_drop.
    + apply digits_no; [by apply Forall_take|unfold digit; lia].
    + apply digits_no; [by apply Forall_take|unfold digit; lia].
  - rewrite E in E'. injection E' as E'. apply zeros_lead in E' as [-> ->]; [|done|done]. split; [done|lia].
  - rewrite E in E'. apply split_unique in E' as [-> E2];
      [|exact (mantissa_no_e d m Hd Hm)|exact (mantissa_no_e d' m' Hd' Hm')].
    split; [by eapply mantissa_inj|]. injection E2 as -> ->.
    destruct Ha as [(? & -> & E1)|(? & -> & E1)], Ha' as [(? & ? & E2)|(? & ? & E2)]; try lia;
      rewrite E1 in E2; apply Itoa_inj in E2; lia.
Qed.

Lemma layout_head d e : good_digits d -> exists c l, layout d e = c :: l /\ digit c.
Proof.
  intros (Hd & (c & Hc & Nc) & _). destruct d as [|x d]; [done|]. apply Forall_cons in Hd as [Hx _].
  destruct (layout_shape (x :: d) e) as [k|k Hk|k|m s a Hm]; [done|..].
  - cbn. eauto.
  - destruct k; [lia|]. cbn. eauto.
  - exists 48%Z. eexists. split; [done|]. unfold digit. lia.
  - destruct Hm as [->|(y & l & [= <- <-] & ->)]; cbn; eauto.
Qed.

Lemma layout_chars d e : good_digits d -> Forall num_char (layout d e).
Proof.
  intros Hg. pose proof Hg as (Hd & (c & Hc & _) & _). assert (d <> []) by (by intros ->).
  assert (forall l, Forall digit l -> Forall num_char l) as Hn by (intros l Hl; eapply Forall_impl; [exact Hl|by left]).
  assert (forall k, Forall num_char (replicate k 48%Z)) as Hz
    by (intros k; apply Forall_replicate; left; unfold digit; lia).
  destruct (layout_shape d e) as [k|k Hk|k|m s a Hm Ha]; [done|..].
  - apply Forall_app; auto.
  - apply Forall_app. split; [apply Hn, Forall_take, Hd|]. constructor; [unfold num_char; tauto|apply Hn, Forall_drop, Hd].
  - do 2 (constructor; [unfold num_char, digit; lia|]). apply Forall_app; auto.
  - apply Forall_app. split.
    + destruct Hm as [->|(x & l & -> & ->)]; [auto|]. apply Forall_cons in Hd as [Hx Hl].
      constructor; [by left|]. constructor; [unfold num_char; tauto|auto].
    + constructor; [unfold num_char; tauto|].
      destruct Ha as [(? & -> & ->)|(? & -> & ->)]; (constructor; [unfold num_char; tauto|apply Hn, Itoa_digits; lia]).
Qed.

Lemma es6Number_chars f : float_ok f -> Forall num_char (es6Number f).
Proof.
  destruct f as [|neg d e]; cbn; [|intros Hg; destruct neg; [constructor; [unfold num_char; tauto|]|]; by apply layout_chars].
  intros _. apply Forall_singleton. left. unfold digit. lia.
Qed.

Lemma layout_not_zero d e : good_digits d -> layout d e <> [48%Z].
Proof.
  intros Hg E. pose proof Hg as (Hd & (c & Hc & Nc) & _). assert (d <> []) by (by intros ->).
  destruct (layout_shape d e) as [k|k Hk|k|m s a Hm]; [done|..]; destruct d as [|x d]; try done; cbn in Hc; injection Hc as <-.
  - by injection E as ->.
  - destruct k; [lia|]. by injection E as ->.
  - destruct Hm as [->|(y & l & [= <- <-] & ->)]; by injection E as ->.
Qed.

Lemma es6Number_inj f g : float_ok f -> float_ok g -> es6Number f = es6Number g -> f = g.
Proof.
  assert (forall d e d' e', good_digits d -> good_digits d' -> 45%Z :: layout d e <> layout d' e') as Hneg.
  { intros d e d' e' Hg Hg' E. destruct (layout_head d' e' Hg') as (c & l & El & Hc). rewrite El in E.
    injection E as <- _. unfold digit in Hc. lia. }
  destruct f as [|n d e], g as [|n' d' e']; cbn; intros Hf Hg E; [done|..].
  - destruct n'; [done|]. by destruct (layout_not_zero d' e').
  - destruct n; [done|]. by destruct (layout_not_zero d e).
  - destruct n, n'.
    + injection E as E. by destruct (layout_inj d e d' e' Hf Hg E) as [-> ->].
    + by destruct (Hneg d e d' e').
    + by destruct (Hneg d' e' d e).
    + by destruct (layout_inj d e d' e' Hf Hg E) as [-> ->].
Qed.

(** ** The value a document stands for *)

(** Two documents stand for the same value: strings up to NFC, numbers as
    doubles, members in any order. *)
Section SameValue.
Variables (nfc : runes -> runes) (parseFloat : runes -> option float64).

Inductive same_value : json -> json -> Prop :=
| same_null : same_value JNull JNull
| same_bool b : same_value (JBool b) (JBool b)
| same_string s t : nfc s = nfc t -> same_value (JString s) (JString t)
| same_number s t : parseFloat s = parseFloat t -> same_value (JNumber s) (JNumber t)
| same_array l k : Forall2 same_value l k -> same_value (JArray l) (JArray k)
| same_object m k p : m ≡ₚ p -> Forall2 (fun a b => nfc a.1 = nfc b.1 /\ same_value a.2 b.2) p k ->
    same_value (JObject m) (JObject k).

(** What the decoder guarantees (strings of scalar values), and that no
    object has two keys with one NFC form. *)
Inductive json_ok : json -> Prop :=
| ok_null : json_ok JNull
| ok_bool b : json_ok (JBool b)
| ok_string s : Forall scalar s -> json_ok (JString s)
| ok_number s : json_ok (JNumber s)
| ok_array l : Forall json_ok l -> json_ok (JArray l)
| ok_object m : Forall (fun kv => Forall scalar kv.1 /\ json_ok kv.2) m -> NoDup (nfc <$> m.*1) -> json_ok (JObject m).
End SameValue.

Section JsonInd.
Variable P : json -> Prop.
Hypotheses (Hnull : P JNull) (Hbool : forall b, P (JBool b)) (Hstr : forall s, P (JString s))
  (Hnum : forall s, P (JNumber s)) (Harr : forall l, Forall P l -> P (JArray l))
  (Hobj : forall m, Forall (fun kv => P kv.2) m -> P (JObject m)).

(** Induction with the hypothesis for the nested values. *)
Fixpoint json_nested_ind (v : json) : P v :=
  match v with
  | JNull => Hnull
  | JBool b => Hbool b
  | JString s => Hstr s
  | JNumber s => Hnum s
  | JArray l => Harr l ((fix go l : Forall P l :=
      match l with [] => Forall_nil_2 P | x :: l => Forall_cons_2 P x l (json_nested_ind x) (go l) end) l)
  | JObject m => Hobj m ((fix go m : Forall (fun kv : runes * json => P kv.2) m :=
      match m with [] => Forall_nil_2 _ | x :: m => Forall_cons_2 _ x m (json_nested_ind x.2) (go m) end) m)
  end.
End JsonInd.

(** ** Normal forms and their text *)

(** A value with its members in order, over any numbers. *)
Inductive nf (Num : Type) :=
| NNull
| NBool (b : bool)
| NStr (s : runes)
| NNum (f : Num)
| NArr (l : list (nf Num))
| NObj (m : list (runes * nf Num)).
#[global] Arguments NNull {Num}.
#[global] Arguments NBool {Num} b.
#[global] Arguments NStr {Num} s.
#[global] Arguments NNum {Num} f.
#[global] Arguments NArr {Num} l.
#[global] Arguments NObj {Num} m.

Definition quote (esc : Z -> runes) (s : runes) : runes := 34%Z :: (s ≫= esc) ++ [34%Z].
#[global] Arguments quote : simpl never.

(** The text, given how a number prints and how a character is escaped. *)
Fixpoint print {Num} (num : Num -> runes) (esc : Z -> runes) (n : nf Num) : runes :=
  match n with
  | NNull => runes_of "null"
  | NBool true => runes_of "true"
  | NBool false => runes_of "false"
  | NStr s => quote esc s
  | NNum f => num f
  | NArr l => 91%Z :: join (print num esc <$> l) ++ [93%Z]
  | NObj m => 123%Z :: join ((fun kv => quote esc kv.1 ++ 58%Z :: print num esc kv.2) <$> m) ++ [125%Z]
  end.

Section Normalize.
Variables (nfc : runes -> runes) (parseFloat : runes -> option float64).

Fixpoint normalize (v : json) : option (nf float64) :=
  match v with
  | JNull => Some NNull
  | JBool b => Some (NBool b)
  | JString s => Some (NStr (nfc s))
  | JNumber t => NNum <$> parseFloat t
  | JArray l => NArr <$> mapM normalize l
  | JObject m => (fun ms => NObj (merge_sort member_le ms)) <$> mapM (fun kv => pair (nfc kv.1) <$> normalize kv.2) m
  end.

Hypothesis nfc_idem : forall s, nfc (nfc s) = nfc s.

Lemma mapM_fmap_ext {A B C} (f : A -> option B) (g : A -> option C) (h : C -> B) l :
  Forall (fun x => f x = h <$> g x) l -> mapM f l = fmap h <$> mapM g l.
Proof.
  induction 1 as [|x l Hx _ IH]; [done|]. cbn. rewrite Hx, IH.
  destruct (g x); cbn; [|done]. by destruct (mapM g l).
Qed.

(** The text is the printed normal form. *)
Lemma writeValue_print v : writeValue nfc parseFloat v = print es6Number writeRune <$> normalize v.
Proof.
  induction v as [|[]|s|t|l IH|m IH] using json_nested_ind; cbn; [done..| | |].
  - unfold canonicalNumber. by destruct (parseFloat t).
  - rewrite (mapM_fmap_ext _ normalize (print es6Number writeRune) l IH). by destruct (mapM normalize l).
  - rewrite (mapM_fmap_ext _ (fun kv => pair (nfc kv.1) <$> normalize kv.2) (prod_map id (print es6Number writeRune)) m).
    2: { eapply Forall_impl; [exact IH|]. intros [k v] Hk. cbn in *. rewrite Hk. by destruct (normalize v). }
    destruct (mapM _ m) as [ms|] eqn:Em; [|done]. cbn. f_equal. f_equal. f_equal.
    rewrite (merge_sort_fmap member_le member_le) by done. rewrite <- list_fmap_compose. f_equal.
    apply list_fmap_ext. intros i [k n] Hi. cbn. unfold writeString, quote.
    assert ((k, n) ∈ ms) as Hin by (rewrite <- (merge_sort_Permutation member_le ms); by eapply list_elem_of_lookup_2).
    apply list_elem_of_lookup_1 in Hin as [j Hj]. apply mapM_Some in Em.
    destruct (Forall2_lookup_r _ _ _ _ _ Em Hj) as ([k0 v0] & _ & E0). cbn in E0.
    destruct (normalize v0); [|done]. injection E0 as <- <-. by rewrite nfc_idem.
Qed.
End Normalize.

(** ** Texts can be split in one way only *)

(** What may come after a value: a separator, a closing bracket, the end. *)
Definition follow (x : runes) : Prop := match x with [] => True | c :: _ => c = 44%Z \/ c = 93%Z \/ c = 125%Z end.

Lemma hexdigit_inj a b : (0 <= a < 16)%Z -> (0 <= b < 16)%Z -> hexdigit a = hexdigit b -> a = b.
Proof. unfold hexdigit. intros Ha Hb. repeat case_match; simplify_bool; lia. Qed.

Lemma writeRune_prefix r q x y : scalar r -> scalar q ->
  writeRune r ++ x = writeRune q ++ y -> r = q /\ x = y.
Proof.
  intros Hr Hq. unfold scalar in *. unfold writeRune.
  repeat match goal with |- context [(?a =? ?b)%Z] => destruct (Z.eqb_spec a b) end; subst;
    repeat match goal with |- context [(?a <? 32)%Z] => destruct (Z.ltb_spec a 32) end; cbn; try (intros [=]; by subst);
    try lia; try (intros [=]; lia).
  intros [= E1 E2 E3]. pose proof (Z.div_mod r 16). pose proof (Z.div_mod q 16).
  pose proof (Z.mod_pos_bound r 16). pose proof (Z.mod_pos_bound q 16).
  assert (0 <= r / 16 < 2 /\ 0 <= q / 16 < 2)%Z as [??]
    by (split; split; (apply Z.div_pos || apply Z.div_lt_upper_bound); lia).
  apply hexdigit_inj in E1; [|lia..]. apply hexdigit_inj in E2; [|lia..]. split; [lia|done].
Qed.

Lemma writeRune_head r : scalar r -> exists c l, writeRune r = c :: l /\ c <> 34%Z.
Proof.
  intros Hr. unfold writeRune.
  repeat case_match; simplify_bool; (do 2 eexists; split; [done|]); lia.
Qed.

(** Quoting with an escape that is a prefix code and never starts with a quote. *)
Lemma quoted_prefix (esc : Z -> runes) s t x y :
  (forall r q x y, scalar r -> scalar q -> esc r ++ x = esc q ++ y -> r = q /\ x = y) ->
  (forall r, scalar r -> exists c l, esc r = c :: l /\ c <> 34%Z) ->
  Forall scalar s -> Forall scalar t ->
  (34%Z :: (s ≫= esc) ++ [34%Z]) ++ x = (34%Z :: (t ≫= esc) ++ [34%Z]) ++ y -> s = t /\ x = y.
Proof.
  intros Hp Hh. assert (forall r b z, scalar r -> esc r ++ b <> 34%Z :: z) as Hq.
  { intros r b z Hr. destruct (Hh r Hr) as (c & l & -> & ?). cbn. congruence. }
  cbn. intros Hs Ht [= E]. rewrite <- !app_assoc in E. cbn in E.
  revert t Ht E. induction Hs as [|r s Hr Hs IH]; intros t Ht E; destruct Ht as [|q t Hq' Ht]; cbn in E.
  - by injection E as ->.
  - rewrite <- app_assoc in E. symmetry in E. by apply Hq in E.
  - rewrite <- app_assoc in E. by apply Hq in E.
  - rewrite <- !app_assoc in E. apply Hp in E as [-> E]; [|done..].
    destruct (IH t Ht E) as [-> ->]. done.
Qed.

(** Texts of number characters end where a separator starts. *)
Lemma num_chars_prefix a b x y : Forall num_char a -> Forall num_char b -> follow x -> follow y ->
  a ++ x = b ++ y -> a = b /\ x = y.
Proof.
  assert (forall c z, num_char c -> ~ follow (c :: z)) as Hno by (unfold num_char, digit, follow; lia).
  intros Cf Cg Hx Hy E. revert b E Cf Cg. induction a as [|c a IH]; intros [|d b] E Cf Cg; cbn in E.
  - done.
  - subst. apply Forall_cons in Cg as [Hd _]. by destruct (Hno d (b ++ y)).
  - subst. apply Forall_cons in Cf as [Hd _]. by destruct (Hno c (a ++ x)).
  - injection E as -> E. apply Forall_cons in Cf as [_ Cf]. apply Forall_cons in Cg as [_ Cg].
    destruct (IH b E Cf Cg) as [-> ->]. done.
Qed.

Lemma number_prefix f g x y : float_ok f -> float_ok g -> follow x -> follow y ->
  es6Number f ++ x = es6Number g ++ y -> f = g /\ x = y.
Proof.
  intros Hf Hg Hx Hy [E ->]%num_chars_prefix; [|by apply es6Number_chars..|done|done].
  split; [by apply es6Number_inj|done].
Qed.

(** A joined list of texts that can be split can be split. *)
Section Join.
Context {A : Type} (pr : A -> runes) (ok : A -> Prop).
Variable close : Z.
Hypothesis close_follow : close = 93%Z \/ close = 125%Z.
Hypothesis pr_head : forall a, ok a -> exists c l, pr a = c :: l /\ ~ follow (c :: l).

Definition splits (a : A) : Prop :=
  forall b x y, ok b -> follow x -> follow y -> pr a ++ x = pr b ++ y -> a = b /\ x = y.

Definition tails (l : list A) : runes := l ≫= (fun b => 44%Z :: pr b).

Lemma join_cons a l : join (pr <$> a :: l) = pr a ++ tails l.
Proof.
  revert a. induction l as [|b l IH]; intros a; [cbn; by rewrite app_nil_r|].
  change (join (pr <$> a :: b :: l)) with (pr a ++ 44%Z :: join (pr <$> b :: l)). by rewrite IH.
Qed.

Lemma tails_split l k x y : Forall splits l -> Forall ok k ->
  tails l ++ close :: x = tails k ++ close :: y ->
  l = k /\ x = y.
Proof.
  assert (forall m z, follow (tails m ++ close :: z)) as Hf.
  { intros [|b m] z; cbn; lia. }
  intros Hl. revert k. induction Hl as [|a l Ha _ IH]; intros k Hk E; destruct Hk as [|b k Hb Hk]; cbn in E.
  - by injection E as ->.
  - injection E as E _. lia.
  - injection E as E _. lia.
  - injection E as E. rewrite <- !app_assoc in E. apply Ha in E as [-> E]; [|done|apply Hf..].
    destruct (IH k Hk E) as [-> ->]. done.
Qed.

Lemma joined_split l k x y : Forall ok l -> Forall ok k -> Forall splits l ->
  join (pr <$> l) ++ close :: x = join (pr <$> k) ++ close :: y -> l = k /\ x = y.
Proof.
  assert (forall m z, follow (tails m ++ close :: z)) as Hf.
  { intros [|b m] z; cbn; lia. }
  assert (forall a m z, ok a -> join (pr <$> a :: m) <> close :: z /\
    forall w, join (pr <$> a :: m) ++ w <> close :: z) as Hne.
  { intros a m z Ha. destruct (pr_head a Ha) as (c & t & E & Hc). rewrite join_cons, E. cbn in *.
    split; [|intros w]; intros [= -> _]; lia. }
  intros Hl Hk Hs E. destruct l as [|a l], k as [|b k].
  - by injection E as ->.
  - apply Forall_cons in Hk as [Hb _]. symmetry in E. by apply Hne in E.
  - apply Forall_cons in Hl as [Ha _]. by apply Hne in E.
  - apply Forall_cons in Hk as [Hb Hk]. apply Forall_cons in Hs as [Ha Hs]. rewrite !join_cons, <- !app_assoc in E.
    apply Ha in E as [-> E]; [|done|apply Hf..]. destruct (tails_split l k x y Hs Hk E) as [-> ->]. done.
Qed.
End Join.

Lemma es6Number_head f : float_ok f -> exists c l, es6Number f = c :: l /\ (digit c \/ c = 45%Z).
Proof.
  destruct f as [|[] d e]; cbn; intros Hf.
  - do 2 eexists. split; [done|]. left. unfold digit. lia.
  - do 2 eexists. split; [done|]. by right.
  - destruct (layout_head d e Hf) as (c & l & -> & ?). do 2 eexists. split; [done|]. by left.
Qed.

Section NfInd.
Context {Num : Type} (P : nf Num -> Prop).
Hypotheses (Hnull : P NNull) (Hbool : forall b, P (NBool b)) (Hstr : forall s, P (NStr s))
  (Hnum : forall s, P (NNum s)) (Harr : forall l, Forall P l -> P (NArr l))
  (Hobj : forall m, Forall (fun kv => P kv.2) m -> P (NObj m)).

Fixpoint nf_nested_ind (v : nf Num) : P v :=
  match v with
  | NNull => Hnull
  | NBool b => Hbool b
  | NStr s => Hstr s
  | NNum s => Hnum s
  | NArr l => Harr l ((fix go l : Forall P l :=
      match l with [] => Forall_nil_2 P | x :: l => Forall_cons_2 P x l (nf_nested_ind x) (go l) end) l)
  | NObj m => Hobj m ((fix go m : Forall (fun kv : runes * nf Num => P kv.2) m :=
      match m with [] => Forall_nil_2 _ | x :: m => Forall_cons_2 _ x m (nf_nested_ind x.2) (go m) end) m)
  end.
End NfInd.

(** Numbers that end before a separator and start like numbers, and escapes
    that are a prefix code and never start with a quote. *)
Section Printed.
Context {Num : Type} (num : Num -> runes) (num_ok : Num -> Prop) (esc : Z -> runes).
Hypothesis num_prefix : forall f g x y, num_ok f -> num_ok g -> follow x -> follow y ->
  num f ++ x = num g ++ y -> f = g /\ x = y.
Hypothesis num_head : forall f, num_ok f -> exists c l, num f = c :: l /\ (digit c \/ c = 45%Z).
Hypothesis esc_prefix : forall r q x y, scalar r -> scalar q -> esc r ++ x = esc q ++ y -> r = q /\ x = y.
Hypothesis esc_head : forall r, scalar r -> exists c l, esc r = c :: l /\ c <> 34%Z.

Abbreviation quote := (quote esc).
Abbreviation print := (print num esc).

Lemma quote_prefix s t x y : Forall scalar s -> Forall scalar t -> quote s ++ x = quote t ++ y -> s = t /\ x = y.
Proof. by apply quoted_prefix. Qed.

Inductive nf_ok : nf Num -> Prop :=
| nf_ok_null : nf_ok NNull
| nf_ok_bool b : nf_ok (NBool b)
| nf_ok_str s : Forall scalar s -> nf_ok (NStr s)
| nf_ok_num f : num_ok f -> nf_ok (NNum f)
| nf_ok_arr l : Forall nf_ok l -> nf_ok (NArr l)
| nf_ok_obj m : Forall (fun kv => Forall scalar kv.1 /\ nf_ok kv.2) m -> nf_ok (NObj m).

(** The first character tells the constructor. *)
Definition tag (n : nf Num) (c : Z) : Prop :=
  match n with
  | NNull => c = 110%Z
  | NBool true => c = 116%Z
  | NBool false => c = 102%Z
  | NStr _ => c = 34%Z
  | NNum _ => digit c \/ c = 45%Z
  | NArr _ => c = 91%Z
  | NObj _ => c = 123%Z
  end.

Lemma print_tag n : nf_ok n -> exists c l, print n = c :: l /\ tag n c.
Proof.
  destruct 1 as [|[]|s|f Hf|l|m]; [..|by apply num_head| |]; do 2 eexists; (split; [reflexivity|done]).
Qed.

Lemma print_not_follow n : nf_ok n -> exists c l, print n = c :: l /\ ~ follow (c :: l).
Proof.
  intros Hn. destruct (print_tag n Hn) as (c & l & E & Ht). exists c, l. split; [done|].
  destruct n as [|[]| | | |]; cbn in *; unfold digit in *; lia.
Qed.

(** A printed value is a prefix code before a separator. *)
Lemma print_split n : nf_ok n -> splits print nf_ok n.
Proof.
  assert (forall n p x y, nf_ok n -> nf_ok p -> print n ++ x = print p ++ y ->
    exists c, tag n c /\ tag p c) as Htag.
  { intros n0 p x y Hn Hp E. destruct (print_tag n0 Hn) as (c & l & E1 & T1), (print_tag p Hp) as (d & k & E2 & T2).
    rewrite E1, E2 in E. injection E as <- _. eauto. }
  induction n as [|b|s|f|l IH|m IH] using nf_nested_ind; intros Hn p x y Hp Hx Hy E;
    destruct (Htag _ _ x y Hn Hp E) as (c & T1 & T2); inversion Hn as [|b' |s' Hs|f' Hf|l' Hl|m' Hm]; subst;
    inversion Hp as [|b2|s2 Hs2|f2 Hf2|l2 Hl2|m2 Hm2]; subst; cbn in T1, T2; unfold digit in *;
    repeat match goal with b : bool |- _ => destruct b end; subst; try lia; try (by injection E as ->);
    try (exfalso; lia).
  - apply quote_prefix in E as [-> ->]; done.
  - apply num_prefix in E as [-> ->]; done.
  - cbn in E. injection E as E. rewrite <- !app_assoc in E. cbn in E.
    destruct (joined_split print nf_ok 93 ltac:(auto) print_not_follow l l2 x y) as [-> ->]; [done|done| |done|done].
    rewrite Forall_forall in *. auto.
  - cbn in E. injection E as E. rewrite <- !app_assoc in E. cbn in E.
    destruct (joined_split (fun kv => quote kv.1 ++ 58%Z :: print kv.2) (fun kv => Forall scalar kv.1 /\ nf_ok kv.2)
      125 ltac:(auto)) with (l := m) (k := m2) (x := x) (y := y) as [-> ->]; [|done|done| |done|done].
    { intros [k v] _. exists 34%Z. eexists. split; [done|]. cbn. lia. }
    rewrite Forall_forall in *. intros [k v] Hin. specialize (IH _ Hin). destruct (Hm _ Hin) as [Hk Hv]. cbn in *.
    intros [k2 v2] x2 y2 [Hk2 Hv2] Hx2 Hy2 E2. cbn in *. rewrite <- !app_assoc in E2.
    apply quote_prefix in E2 as [-> E2]; [|done..]. injection E2 as E2.
    destruct (IH Hv v2 x2 y2 Hv2 Hx2 Hy2 E2) as [-> ->]. done.
Qed.

Lemma print_inj n p : nf_ok n -> nf_ok p -> print n = print p -> n = p.
Proof.
  intros Hn Hp E. destruct (print_split n Hn p [] [] Hp I I) as [-> _]; [|done]. by rewrite !app_nil_r.
Qed.
End Printed.

(** ** Equal texts exactly for equal values *)

(** Sorting by distinct keys forgets the order. *)
Lemma merge_sort_keys {K A} (R : relation (K * A)) `{!RelDecision R, !Total R, !Transitive R} ms ks :
  (forall a b, a ∈ ms -> b ∈ ms -> R a b -> R b a -> a.1 = b.1) ->
  ms ≡ₚ ks -> NoDup ms.*1 -> merge_sort R ms = merge_sort R ks.
Proof.
  intros Ha Hp Hnd.
  apply (StronglySorted_unique_strong R); [|apply (StronglySorted_merge_sort R); apply _..|].
  - intros [k a] [k' b] Hi Hj H1 H2. rewrite merge_sort_Permutation in Hi. rewrite merge_sort_Permutation, <- Hp in Hj.
    pose proof (Ha _ _ Hi Hj H1 H2) as E. cbn in E. subst k'.
    f_equal. apply list_elem_of_lookup in Hi as [i Hi]. apply list_elem_of_lookup in Hj as [j Hj].
    assert (i = j) as -> by (eapply (NoDup_lookup ms.*1); [done|rewrite list_lookup_fmap, Hi|rewrite list_lookup_fmap, Hj]; done).
    congruence.
  - etrans; [apply merge_sort_Permutation|]. etrans; [exact Hp|]. symmetry. apply merge_sort_Permutation.
Qed.

Lemma merge_sort_perm {A} (ms ks : list (runes * A)) : ms ≡ₚ ks -> NoDup ms.*1 -> Forall (fun kv => Forall scalar kv.1) ms ->
  merge_sort member_le ms = merge_sort member_le ks.
Proof.
  intros Hp Hnd Hs. rewrite Forall_forall in Hs. apply (merge_sort_keys member_le); [|done..].
  intros a b Ha Hb. apply member_le_antisym; auto.
Qed.

Section Canonical.
Context (nfc : runes -> runes) (parseFloat : runes -> option float64).
Hypothesis nfc_idem : forall s, nfc (nfc s) = nfc s.
Hypothesis nfc_scalar : forall s, Forall scalar s -> Forall scalar (nfc s).
Hypothesis parseFloat_ok : forall t f, parseFloat t = Some f -> float_ok f.

Abbreviation normalize := (normalize nfc parseFloat).
Abbreviation same_value := (same_value nfc parseFloat).
Abbreviation json_ok := (json_ok nfc).
Abbreviation member := (fun kv => pair (nfc kv.1) <$> normalize kv.2).

Lemma normalize_ok v n : json_ok v -> normalize v = Some n -> nf_ok float_ok n.
Proof.
  revert n. induction v as [|b|s|t|l IH|m IH] using json_nested_ind; intros n Hv; inversion Hv as [| |? Hs| |? Hl|? Hm Hnd];
    subst; cbn; intros E.
  - injection E as <-. constructor.
  - injection E as <-. constructor.
  - injection E as <-. constructor. auto.
  - apply fmap_Some in E as (f & Hf & ->). constructor. eauto.
  - apply fmap_Some in E as (ns & Hns%mapM_Some & ->). constructor.
    apply Forall_lookup. intros i n Hi. destruct (Forall2_lookup_r _ _ _ _ _ Hns Hi) as (v & Hv' & E).
    rewrite Forall_lookup in IH, Hl. eauto.
  - apply fmap_Some in E as (ns & Hns%mapM_Some & ->). constructor. rewrite (merge_sort_Permutation member_le).
    apply Forall_lookup. intros i n Hi. destruct (Forall2_lookup_r _ _ _ _ _ Hns Hi) as (v & Hv' & E).
    rewrite Forall_lookup in IH, Hm. destruct (Hm _ _ Hv') as [Hk Ho].
    apply fmap_Some in E as (n' & E & ->). cbn. eauto.
Qed.

Lemma members_fst m ms : mapM member m = Some ms -> ms.*1 = nfc <$> m.*1.
Proof.
  intros H%mapM_Some. induction H as [|[k v] [k' n] m ms E _ IH]; [done|]. cbn in *.
  apply fmap_Some in E as (n' & _ & [= -> ->]). by f_equal.
Qed.

Lemma normalize_same v w n : normalize v = Some n -> normalize w = Some n -> same_value v w.
Proof.
  revert w n. induction v as [|b|s|t|l IH|m IH] using json_nested_ind; intros [|b'|s'|t'|l'|m'] n; cbn; intros E E';
    try apply fmap_Some in E as (x0 & H0 & ->); try apply fmap_Some in E' as (x & H & H2); simplify_eq;
    try (constructor; congruence).
  - constructor. apply mapM_Some in H, H0. apply Forall2_same_length_lookup. split.
    { by rewrite (Forall2_length _ _ _ H0), (Forall2_length _ _ _ H). }
    intros i v w Hv Hw. destruct (Forall2_lookup_l _ _ _ _ _ H0 Hv) as (n1 & E1 & N1).
    destruct (Forall2_lookup_l _ _ _ _ _ H Hw) as (n2 & E2 & N2). rewrite Forall_lookup in IH.
    simplify_eq. eauto.
  - assert (x0 ≡ₚ x) as Hp by (rewrite <- (merge_sort_Permutation member_le x0), H2; apply merge_sort_Permutation).
    apply mapM_Some in H, H0. apply Forall2_flip in H0.
    destruct (Permutation_Forall2 Hp H0) as (p & Hmp & Hxp). econstructor; [exact Hmp|].
    apply Forall2_same_length_lookup. split.
    { by rewrite <- (Forall2_length _ _ _ Hxp), (Forall2_length _ _ _ H). }
    intros i a b Ha Hb. destruct (Forall2_lookup_r _ _ _ _ _ Hxp Ha) as (n1 & E1 & N1).
    destruct (Forall2_lookup_l _ _ _ _ _ H Hb) as (n2 & E2 & N2). simplify_eq.
    rewrite Hmp, Forall_lookup in IH.
    apply fmap_Some in N1 as (u1 & Hu1 & ->). apply fmap_Some in N2 as (u2 & Hu2 & [= E ->]). eauto.
Qed.

Lemma same_normalize v w n : json_ok v -> same_value v w -> normalize v = Some n -> normalize w = Some n.
Proof.
  revert w n. induction v as [|b|s|t|l IH|m IH] using json_nested_ind; intros w n Hv Hs; inversion Hs; subst;
    inversion Hv as [| |? ?| |? Hl|? Hm Hnd]; subst; cbn; intros E; [congruence..| |].
  - apply fmap_Some in E as (ns & Hns%mapM_Some & ->). apply fmap_Some. exists ns. split; [|done]. apply mapM_Some.
    apply Forall2_same_length_lookup. split.
    { rewrite <- (Forall2_length _ _ _ Hns). symmetry. by eapply Forall2_length. }
    intros i w n Hw Hn. destruct (Forall2_lookup_r _ _ _ _ _ Hns Hn) as (v & Hi & E).
    rewrite Forall_lookup in IH, Hl. eapply IH; [done|by eapply Hl| |done].
    destruct (Forall2_lookup_l _ _ _ _ _ H0 Hi) as (w' & ? & ?). by simplify_eq.
  - apply fmap_Some in E as (ns & Hns & ->). pose proof (members_fst m ns Hns) as Hk. apply mapM_Some in Hns as Hns2.
    match goal with H : m ≡ₚ p |- _ => rename H into Hmp end.
    match goal with H : Forall2 _ p k |- _ => rename H into Hpk end.
    destruct (Permutation_Forall2 Hmp Hns2) as (ks & Hnk & Hpn). apply fmap_Some. exists ks. split.
    + apply mapM_Some. apply Forall2_same_length_lookup. split.
      { by rewrite <- (Forall2_length _ _ _ Hpn), (Forall2_length _ _ _ Hpk). }
      intros i b n Hb Hn. destruct (Forall2_lookup_r _ _ _ _ _ Hpn Hn) as (a & Ha & E).
      destruct (Forall2_lookup_l _ _ _ _ _ Hpk Ha) as (b' & Hb' & Ek & Hsv). simplify_eq.
      rewrite Hmp, Forall_lookup in IH, Hm. apply fmap_Some in E as (u & Hu & ->).
      rewrite (IH _ _ Ha b.2 u (proj2 (Hm _ _ Ha)) Hsv Hu). cbn. congruence.
    + f_equal. apply merge_sort_perm; [done|by rewrite Hk|]. apply Forall_lookup. intros i n Hn.
      destruct (Forall2_lookup_r _ _ _ _ _ Hns2 Hn) as (a & Ha & E). apply fmap_Some in E as (u & _ & ->).
      rewrite Forall_lookup in Hm. apply nfc_scalar. by eapply Hm.
Qed.

Lemma writeValue_exact v w t u : json_ok v -> json_ok w ->
  writeValue nfc parseFloat v = Some t -> writeValue nfc parseFloat w = Some u -> t = u <-> same_value v w.
Proof.
  intros Hv Hw. rewrite !(writeValue_print nfc parseFloat nfc_idem).
  intros (n & En & ->)%fmap_Some (p & Ep & ->)%fmap_Some. split.
  - intros E. apply (print_inj _ _ _ number_prefix es6Number_head writeRune_prefix writeRune_head) in E;
      [|exact (normalize_ok v n Hv En)|exact (normalize_ok w p Hw Ep)]. subst p. by eapply normalize_same.
  - intros E. pose proof (same_normalize v w n Hv E En). congruence.
Qed.
End Canonical.

(** Canonical texts and the errors of [Canonicalize]. *)
Lemma Canonicalize_Ok nfc parseFloat decode raw t : Canonicalize nfc parseFloat decode raw = Ok t ->
  exists v rest, decode raw = Some (v, rest) /\ More rest = false /\ writeValue nfc parseFloat v = Some t.
Proof.
  unfold Canonicalize. destruct (decode raw) as [[v rest]|]; [|done]. destruct (More rest) eqn:Em; [done|].
  destruct (writeValue nfc parseFloat v) eqn:Ew; [|done]. intros [= <-]. eauto.
Qed.

(** C34. Two accepted documents have the same canonical text exactly when they
    stand for the same value: strings equal up to NFC, numbers equal as
    doubles, members in any order.  So the hash of a payload does not depend
    on key order, whitespace or number spelling, and different values never
    share a text.  Asked of the parameters: NFC is idempotent and keeps scalar
    values, doubles print with shortest digits; of the documents: no object
    has two keys with one NFC form. *)
Theorem canonical_text_exact nfc parseFloat decode raw1 raw2 v1 v2 rest1 rest2 t1 t2 :
  (forall s, nfc (nfc s) = nfc s) -> (forall s, Forall scalar s -> Forall scalar (nfc s)) ->
  (forall t f, parseFloat t = Some f -> float_ok f) ->
  decode raw1 = Some (v1, rest1) -> decode raw2 = Some (v2, rest2) -> json_ok nfc v1 -> json_ok nfc v2 ->
  Canonicalize nfc parseFloat decode raw1 = Ok t1 -> Canonicalize nfc parseFloat decode raw2 = Ok t2 ->
  t1 = t2 <-> same_value nfc parseFloat v1 v2.
Proof.
  intros Hi Hs Hf D1 D2 O1 O2 (v & r & E1 & _ & W1)%Canonicalize_Ok (w & r' & E2 & _ & W2)%Canonicalize_Ok.
  rewrite D1 in E1. rewrite D2 in E2. injection E1 as <- <-. injection E2 as <- <-. by eapply writeValue_exact.
Qed.

(** [{"b":1,"a":[]}] and [{"a":[],"b":1.0}]. *)
Definition wit_parse (t : runes) : option float64 :=
  if decide (t = [49%Z] \/ t = [49; 46; 48]%Z) then Some (FSci false [49%Z] 0) else None.
Definition wit_doc (swap : bool) : json :=
  if swap then JObject [([97%Z], JArray []); ([98%Z], JNumber [49; 46; 48]%Z)]
  else JObject [([98%Z], JNumber [49%Z]); ([97%Z], JArray [])].
Definition wit_decode (raw : runes) : option (json * runes) := Some (wit_doc (bool_decide (raw <> [])), []).

Lemma canonical_text_exact_witness :
  Canonicalize id wit_parse wit_decode [] = Canonicalize id wit_parse wit_decode [0%Z] /\
  same_value id wit_parse (wit_doc false) (wit_doc true).
Proof.
  assert (forall swap, json_ok id (wit_doc swap)) as Hok.
  { intros []; (constructor; [repeat constructor; cbn; unfold scalar; lia|cbn; repeat constructor; set_solver]). }
  split; [vm_compute; reflexivity|].
  pose (t := [123; 34; 97; 34; 58; 91; 93; 44; 34; 98; 34; 58; 49; 125]%Z).
  apply (canonical_text_exact id wit_parse wit_decode [] [0%Z] (wit_doc false) (wit_doc true) [] [] t t);
    [reflexivity|exact (fun _ H => H)| |reflexivity|reflexivity|apply Hok|apply Hok|vm_compute; reflexivity..|reflexivity].
  intros u f. unfold wit_parse. case_decide; [|discriminate]. intros [= <-]. unfold float_ok.
  split; [repeat constructor; unfold digit; lia|]. split; exists 49%Z; split; (reflexivity || lia).
Defined.

(** Two keys with one NFC form: the text then depends on the order in which
    Go's map iteration yields them. *)
Theorem nfc_collision_order_dependent :
  exists nfc parseFloat m m', (forall s, nfc (nfc s) = nfc s) /\ NoDup m.*1 /\ m ≡ₚ m' /\
    writeValue nfc parseFloat (JObject m) <> writeValue nfc parseFloat (JObject m').
Proof.
  exists (fun s => if decide (s = [8491%Z]) then [197%Z] else s), (fun _ => None),
    [([8491%Z], JNull); ([197%Z], JBool true)], [([197%Z], JBool true); ([8491%Z], JNull)].
  split_and!; [|repeat constructor; set_solver|apply Permutation_swap|by vm_compute].
  intros s. repeat case_decide; done.
Qed.

(** A closing bracket after the value is not seen as trailing data. *)
Theorem trailing_bracket_accepted nfc parseFloat decode raw v t :
  decode raw = Some (v, [125%Z]) -> writeValue nfc parseFloat v = Some t ->
  Canonicalize nfc parseFloat decode raw = Ok t.
Proof. intros E W. unfold Canonicalize. by rewrite E, W. Qed.
