(* ===== verification/AuditChain.v ===== *)
(** * The audit hash chain ([pkg/audit/chain.go], [pkg/audit/integrity/continuity.go])

    A tenant's audit rows form a chain: each row carries the hash of its
    predecessor, and its own hash is taken over a canonical tuple that
    includes that link.  The hash-input text is written out as [json.Marshal]
    prints it; SHA-256, the JSON canonicalisation of [Jcs] and the compaction
    [json.Marshal] applies to a raw message are arguments.

    Shown: chains built by [Append] and [Redact] never verify as broken; the
    two verifiers agree; two verified chains with one tail hash hold the same
    tuples unless a hash collision is exhibited; a receipted redaction takes
    the rows before it out of the chain's protection. *)

From S2P Require Import Prelude Calendar Jcs.

(** ** Data *)

Inductive ChainIntegrity :=
| ChainVerified | ChainBroken | ChainUnchecked | ChainRechainedPostOutage | ChainGapSuspected | ChainRedactedGDPR.
#[export] Instance ChainIntegrity_eq_dec : EqDecision ChainIntegrity.
Proof. solve_decision. Defined.

(** [Row]; [Payload] is JSON text, [Timestamp] an instant. *)
Record Row := mkRow {
  ID : runes; Seq : Z; TenantID : runes; EventType : runes; EventSchemaVersion : runes;
  Payload : runes; Timestamp : Time; PrevHash : runes; Hash : runes; Redacted : bool }.

Record RedactionReceipt := mkReceipt { RedactedSeq : Z; OriginalHash : runes; Signature : runes }.

#[export] Instance Row_eq_dec : EqDecision Row.
Proof. solve_decision. Defined.

Definition DefaultEventSchemaVersion : runes := runes_of "v1".
Definition GenesisPrevHash : runes := replicate 64 48%Z.

(** ** The hash input *)

(** [time.RFC3339Nano] in UTC. *)
Definition pad (width n : Z) : runes := zeros (width - Z.of_nat (length (Itoa n))) ++ Itoa n.

Fixpoint trim_zeros (rev : runes) : runes :=
  match rev with 48%Z :: r => trim_zeros r | _ => rev end.

Definition fraction (ns : Z) : runes :=
  if (ns =? 0)%Z then [] else 46%Z :: reverse (trim_zeros (reverse (pad 9 ns))).

Definition RFC3339Nano (t : Time) : runes :=
  let d := date t in
  pad 4 d.(d_year) ++ [45%Z] ++ pad 2 d.(d_month) ++ [45%Z] ++ pad 2 d.(d_day) ++ [84%Z]
  ++ pad 2 (hour_of t) ++ [58%Z] ++ pad 2 (minute_of t) ++ [58%Z] ++ pad 2 (second_of t)
  ++ fraction (nanosecond_of t) ++ [90%Z].

(** [json.Marshal] of a string: as [writeRune], and HTML characters and line
    separators as [\u] escapes. *)
Definition goRune (r : Z) : runes :=
  if ((r =? 60) || (r =? 62) || (r =? 38))%Z then [92; 117; 48; 48; hexdigit (r / 16); hexdigit (r mod 16)]%Z
  else if ((r =? 8232) || (r =? 8233))%Z then [92; 117; 50; 48; 50; 48 + r mod 16]%Z
  else writeRune r.

Definition goQuote (s : runes) : runes := 34%Z :: (s ≫= goRune) ++ [34%Z].

(** A quoted field name and its colon. *)
Definition field (name : string) : runes := 34%Z :: runes_of name ++ [34; 58]%Z.

(** The tuple of [canonicalBytes]; the payload and the time are texts. *)
Record canonical := mkCanonical {
  c_id : runes; c_prev_hash : runes; c_tenant_id : runes; c_sequence_number : Z; c_event_type : runes;
  c_event_schema_version : runes; c_payload : runes; c_created_at : runes }.

#[export] Instance canonical_eq_dec : EqDecision canonical.
Proof. solve_decision. Defined.

Definition Marshal (c : canonical) : runes :=
  123%Z :: field "id" ++ goQuote c.(c_id) ++ 44%Z :: field "prev_hash" ++ goQuote c.(c_prev_hash)
  ++ 44%Z :: field "tenant_id" ++ goQuote c.(c_tenant_id)
  ++ 44%Z :: field "sequence_number" ++ Itoa c.(c_sequence_number)
  ++ 44%Z :: field "event_type" ++ goQuote c.(c_event_type)
  ++ 44%Z :: field "event_schema_version" ++ goQuote c.(c_event_schema_version)
  ++ 44%Z :: field "payload_canonical_json" ++ c.(c_payload)
  ++ 44%Z :: field "created_at" ++ goQuote c.(c_created_at) ++ [125%Z].

(** The parameters: JSON canonicalisation, the compaction of a raw message
    ([None] when it is not JSON, and [json.Marshal] then returns no bytes), and
    the SHA-256 sum of a text, a list of bytes.  An instance is what one
    operation meets: canonicalisation walks a Go map, so another operation may
    meet another [canonicalize] ([reread]). *)
Class AuditEnv := {
  canonicalize : runes -> result JcsError runes;
  compact : runes -> option runes;
  sha256 : runes -> list Z }.

(** Another operation: the text of an object whose keys have one NFC form may
    come out in another order. *)
Definition reread (E : AuditEnv) (canon : runes -> result JcsError runes) : AuditEnv :=
  {| canonicalize := canon; compact := compact; sha256 := sha256 |}.

(** [hex.EncodeToString]. *)
Definition hexEncode (bs : list Z) : runes := bs ≫= (fun b => [hexdigit (b / 16); hexdigit (b mod 16)])%Z.

Definition sha256hex `{AuditEnv} (text : runes) : runes := hexEncode (sha256 text).

Section Chain.
Context `{E : AuditEnv}.

Definition CanonicalPayload (payload : runes) : runes :=
  match payload with
  | [] => runes_of "null"
  | _ => match canonicalize payload with Ok canon => canon | Err _ => payload end
  end.

Definition canonicalTuple (r : Row) (payload : runes) : canonical :=
  mkCanonical r.(ID) r.(PrevHash) r.(TenantID) r.(Seq) r.(EventType)
    (match r.(EventSchemaVersion) with [] => DefaultEventSchemaVersion | v => v end)
    payload (RFC3339Nano r.(Timestamp)).

Definition canonicalBytes (r : Row) : runes :=
  match compact (CanonicalPayload r.(Payload)) with
  | Some payload => Marshal (canonicalTuple r payload)
  | None => []
  end.

Definition computeHash (r : Row) : runes := sha256hex (canonicalBytes r).
Definition linkHash (prev : Row) : runes := prev.(Hash).

(** ** The in-memory chain *)

Record Chain := mkChain { tenantID : runes; rows : list Row; receipts : gmap Z RedactionReceipt }.

Definition NewChain (tenant : runes) : Chain := mkChain tenant [] ∅.
Definition ChainFromRows (tenant : runes) (rs : list Row) (rc : gmap Z RedactionReceipt) : Chain := mkChain tenant rs rc.

Definition set_hash (r : Row) (h : runes) : Row :=
  mkRow r.(ID) r.(Seq) r.(TenantID) r.(EventType) r.(EventSchemaVersion) r.(Payload) r.(Timestamp) r.(PrevHash) h r.(Redacted).

(** [id] is the fresh UUID. *)
Definition Append (c : Chain) (id eventType payload : runes) (now : Time) : Chain * Row :=
  let row := mkRow id (wrap_u64 (Z.of_nat (length c.(rows)) + 1)) c.(tenantID) eventType DefaultEventSchemaVersion payload now
    (match last c.(rows) with None => GenesisPrevHash | Some prev => linkHash prev end) [] false in
  let row := set_hash row (computeHash row) in
  (mkChain c.(tenantID) (c.(rows) ++ [row]) c.(receipts), row).

Definition redactRow (r : Row) (payload : runes) : Row :=
  mkRow r.(ID) r.(Seq) r.(TenantID) r.(EventType) r.(EventSchemaVersion) payload r.(Timestamp) r.(PrevHash) r.(Hash) true.

(** [None] is the out-of-range error. *)
Definition Redact (c : Chain) (seq : Z) (newPayload signature : runes) : option Chain :=
  if ((seq =? 0) || (Z.of_nat (length c.(rows)) <? seq))%Z then None
  else r ← c.(rows) !! Z.to_nat (seq - 1);
       Some (mkChain c.(tenantID) (<[Z.to_nat (seq - 1) := redactRow r newPayload]> c.(rows))
               (<[seq := mkReceipt seq r.(Hash) signature]> c.(receipts))).

(** ** Verification *)

(** The messages of [VerifyResult.Detail]. *)
Inductive Detail :=
| NoDetail
| CrossTenant (seq : Z) (tenant expected : runes)
| NoReceipt (seq : Z)
| ContentMismatch (seq : Z)
| GenesisNotSentinel (seq : Z)
| NoLink (seq prev : Z)
| NoLinkAcrossGap (prev seq : Z)
| LawfulRedactions.

Record VerifyResult := mkResult { Integrity : ChainIntegrity; BreakSeq : Z; detail : Detail }.

Definition receiptedRedaction (rc : gmap Z RedactionReceipt) (row : Row) : bool :=
  row.(Redacted) &&
  match rc !! row.(Seq) with
  | Some rcpt => bool_decide (rcpt.(OriginalHash) = row.(Hash)) && bool_decide (rcpt.(Signature) <> [])
  | None => false
  end.

Definition broken (seq : Z) (d : Detail) : VerifyResult := mkResult ChainBroken seq d.

(** The loop of [Verify]; [prev] is the row before, [seen] is [redactionSeen]. *)
Fixpoint verifyLoop (tenant : runes) (rc : gmap Z RedactionReceipt) (prev : option Row) (seen : bool) (rs : list Row)
  : VerifyResult :=
  match rs with
  | [] => if seen then mkResult ChainRedactedGDPR 0 LawfulRedactions else mkResult ChainVerified 0 NoDetail
  | row :: rs =>
      if bool_decide (row.(TenantID) <> tenant) then broken row.(Seq) (CrossTenant row.(Seq) row.(TenantID) tenant)
      else
        let mismatch := bool_decide (computeHash row <> row.(Hash)) in
        if mismatch && negb row.(Redacted) then broken row.(Seq) (ContentMismatch row.(Seq))
        else if mismatch && negb (receiptedRedaction rc row) then broken row.(Seq) (NoReceipt row.(Seq))
        else match prev with
             | None => if bool_decide (row.(PrevHash) <> GenesisPrevHash) then broken row.(Seq) (GenesisNotSentinel row.(Seq))
                       else verifyLoop tenant rc (Some row) (seen || mismatch) rs
             | Some p => if bool_decide (row.(PrevHash) <> linkHash p) then broken row.(Seq) (NoLink row.(Seq) p.(Seq))
                         else verifyLoop tenant rc (Some row) (seen || mismatch) rs
             end
  end.

Definition Verify (c : Chain) : VerifyResult := verifyLoop c.(tenantID) c.(receipts) None false c.(rows).

Definition classifyRow (c : Chain) (i : nat) (row : Row) : ChainIntegrity :=
  if bool_decide (row.(TenantID) <> c.(tenantID)) then ChainBroken
  else
    let mismatch := bool_decide (computeHash row <> row.(Hash)) in
    if mismatch && negb (receiptedRedaction c.(receipts) row) then ChainBroken
    else match i with
         | O => if bool_decide (row.(PrevHash) <> GenesisPrevHash) then ChainBroken
                else if mismatch then ChainRedactedGDPR else ChainVerified
         | S j =>
             match c.(rows) !! j with
             | None => ChainBroken
             | Some prev =>
                 if bool_decide (row.(PrevHash) <> linkHash prev) then ChainBroken
                 else if bool_decide (row.(Seq) <> wrap_u64 (prev.(Seq) + 1)) then ChainGapSuspected
                 else if mismatch then ChainRedactedGDPR else ChainVerified
             end
         end.

(** Later rows overwrite earlier ones with the same sequence number. *)
Definition VerifyRows (c : Chain) : gmap Z ChainIntegrity :=
  foldl (fun m ir => <[ir.2.(Seq) := classifyRow c ir.1 ir.2]> m) ∅ (imap pair c.(rows)).

(** [verifyChainWindow]: the links alone; the gap is the two sequence numbers
    and times around the break. *)
Record chainGap := mkGap { lowSeq : Z; highSeq : Z; gap_start : Time; gap_end : Time }.
Definition no_gap : chainGap := mkGap 0 0 zero_time zero_time.

Fixpoint windowLoop (prev : Row) (rs : list Row) : VerifyResult * chainGap :=
  match rs with
  | [] => (mkResult ChainVerified 0 NoDetail, no_gap)
  | cur :: rs =>
      if bool_decide (cur.(PrevHash) <> linkHash prev) then
        (broken cur.(Seq) (if bool_decide (cur.(Seq) <> wrap_u64 (prev.(Seq) + 1)) then NoLinkAcrossGap prev.(Seq) cur.(Seq)
                            else NoLink cur.(Seq) prev.(Seq)),
         mkGap prev.(Seq) cur.(Seq) prev.(Timestamp) cur.(Timestamp))
      else windowLoop cur rs
  end.

Definition verifyChainWindow (rs : list Row) : VerifyResult * chainGap :=
  match rs with
  | [] => (mkResult ChainVerified 0 NoDetail, no_gap)
  | r :: rs =>
      if (r.(Seq) =? 1)%Z && bool_decide (r.(PrevHash) <> GenesisPrevHash)
      then (broken r.(Seq) (GenesisNotSentinel r.(Seq)), no_gap)
      else windowLoop r rs
  end.
End Chain.

(** ** The hash input determines the tuple *)

Lemma goRune_cases r : scalar r ->
  (r = 60 /\ goRune r = [92; 117; 48; 48; 51; 99] \/ r = 62 /\ goRune r = [92; 117; 48; 48; 51; 101] \/
   r = 38 /\ goRune r = [92; 117; 48; 48; 50; 54] \/
   r = 8232 /\ goRune r = [92; 117; 50; 48; 50; 56] \/ r = 8233 /\ goRune r = [92; 117; 50; 48; 50; 57])%Z \/
  goRune r = writeRune r.
Proof.
  intros _. unfold goRune.
  destruct (Z.eqb_spec r 60); [subst; left; tauto|]. destruct (Z.eqb_spec r 62); [subst; left; tauto|].
  destruct (Z.eqb_spec r 38); [subst; left; tauto|]. destruct (Z.eqb_spec r 8232); [subst; left; tauto|].
  destruct (Z.eqb_spec r 8233); [subst; left; tauto|]. by right.
Qed.

Lemma hexEncode_inj a b : Forall (fun x => 0 <= x < 256)%Z a -> Forall (fun x => 0 <= x < 256)%Z b ->
  hexEncode a = hexEncode b -> a = b.
Proof.
  assert (forall x, (0 <= x < 256)%Z -> (0 <= x / 16 < 16 /\ 0 <= x mod 16 < 16)%Z) as Hd.
  { intros x Hx. split; [split; [apply Z.div_pos; lia|apply Z.div_lt_upper_bound; lia]|apply Z.mod_pos_bound; lia]. }
  intros Ha. revert b. induction Ha as [|x a Hx _ IH]; intros [|y b] Hb E; try done.
  apply Forall_cons in Hb as [Hy Hb]. cbn in E. injection E as E1 E2 E.
  apply hexdigit_inj in E1; [|by apply Hd..]. apply hexdigit_inj in E2; [|by apply Hd..].
  rewrite (Z.div_mod x 16), (Z.div_mod y 16), E1, E2 by lia. f_equal. by apply IH.
Qed.

(** A plain escape is never one of the longer ones. *)
Lemma writeRune_not_html r a b x y : scalar r -> (50 <= a)%Z \/ (50 <= b)%Z ->
  writeRune r ++ x <> 92%Z :: 117%Z :: a :: 48%Z :: b :: y.
Proof.
  intros Hr Hab. unfold writeRune.
  repeat match goal with |- context [(?p =? ?q)%Z] => destruct (Z.eqb_spec p q) end; cbn; try congruence.
  destruct (Z.ltb_spec r 32); cbn; [|congruence]. intros [= ? E]. unfold scalar in Hr.
  assert (0 <= r / 16 < 2)%Z by (split; [apply Z.div_pos; lia|apply Z.div_lt_upper_bound; lia]).
  unfold hexdigit in E. destruct (Z.ltb_spec (r / 16) 10); lia.
Qed.

Lemma goRune_prefix r q x y : scalar r -> scalar q -> goRune r ++ x = goRune q ++ y -> r = q /\ x = y.
Proof.
  intros Hr Hq E.
  destruct (goRune_cases r Hr) as [Cr|Er], (goRune_cases q Hq) as [Cq|Eq].
  - destruct_or?; destruct_and?; rewrite H0, H2 in E; cbn in E; simplify_eq; auto.
  - rewrite Eq in E. symmetry in E.
    destruct_or?; destruct_and?; rewrite H0 in E; apply writeRune_not_html in E; (done || lia).
  - rewrite Er in E. destruct_or?; destruct_and?; rewrite H0 in E; apply writeRune_not_html in E; (done || lia).
  - rewrite Er, Eq in E. by apply writeRune_prefix in E.
Qed.

Lemma goRune_head r : scalar r -> exists c l, goRune r = c :: l /\ c <> 34%Z.
Proof.
  intros Hr. destruct (goRune_cases r Hr) as [C| ->]; [|by apply writeRune_head].
  destruct_or?; destruct_and?; do 2 eexists; (split; [done|lia]).
Qed.

Lemma goQuote_prefix s t x y : Forall scalar s -> Forall scalar t -> goQuote s ++ x = goQuote t ++ y -> s = t /\ x = y.
Proof. apply quoted_prefix; [apply goRune_prefix|apply goRune_head]. Qed.

(** The characters of a time stamp are printed as they are. *)
Definition plain (c : Z) : Prop := (45 <= c <= 58 \/ c = 84 \/ c = 90)%Z.

Lemma digits_plain d : Forall digit d -> Forall plain d.
Proof. intros H. eapply Forall_impl; [exact H|]. unfold digit, plain. lia. Qed.

Lemma pad_plain w n : (0 <= n)%Z -> Forall plain (pad w n).
Proof. intros Hn. apply digits_plain, Forall_app. split; [apply zeros_digits|by apply Itoa_digits]. Qed.

Lemma fraction_plain ns : (0 <= ns)%Z -> Forall plain (fraction ns).
Proof.
  intros Hn. unfold fraction. destruct (_ =? 0)%Z; [constructor|]. constructor; [unfold plain; lia|].
  apply Forall_reverse. assert (forall l, Forall plain l -> Forall plain (trim_zeros l)) as Ht.
  { induction 1 as [|x l Hx Hl IH]; [constructor|]. cbn. repeat case_match; subst; (done || by constructor). }
  apply Ht, Forall_reverse, pad_plain, Hn.
Qed.

(** Times from the zero time on. *)
Lemma RFC3339Nano_plain t : (0 <= t)%Z -> Forall plain (RFC3339Nano t).
Proof.
  intros Ht. unfold RFC3339Nano. pose proof (clock_ranges t) as (? & ? & ? & ? & ?).
  pose proof (date_ranges (t / Day)) as [? ?]. assert (0 <= d_year (date t))%Z.
  { unfold date, date_of_days. cbn. assert (0 <= t / Day)%Z by (apply Z.div_pos; done).
    pose proof (year_of_era_spec ((t / Day + 306) mod era_days) (Z.mod_pos_bound _ era_days eq_refl)) as [? _].
    assert (0 <= (t / Day + 306) / era_days)%Z by (apply Z.div_pos; [lia|done]).
    destruct (_ <=? 2)%Z; lia. }
  rewrite !Forall_app, !Forall_singleton. split_and!; try (unfold plain; lia);
    (apply pad_plain || apply fraction_plain); unfold date in *; lia.
Qed.

Lemma goQuote_plain s : Forall plain s -> goQuote s = 34%Z :: s ++ [34%Z].
Proof.
  intros Hs. unfold goQuote. do 2 f_equal. induction Hs as [|c s Hc Hs IH]; [done|]. cbn. rewrite IH.
  assert (goRune c = [c]) as ->; [|done]. unfold plain in Hc. unfold goRune, writeRune.
  repeat (rewrite (proj2 (Z.eqb_neq c _)) by lia). rewrite (proj2 (Z.ltb_ge c 32)) by lia. done.
Qed.

Definition tuple_ok (c : canonical) : Prop :=
  Forall scalar c.(c_id) /\ Forall scalar c.(c_prev_hash) /\ Forall scalar c.(c_tenant_id) /\ (0 <= c.(c_sequence_number))%Z /\
  Forall scalar c.(c_event_type) /\ Forall scalar c.(c_event_schema_version) /\ Forall plain c.(c_created_at).

#[export] Instance scalar_dec r : Decision (scalar r).
Proof. unfold scalar. apply _. Defined.
#[export] Instance plain_dec r : Decision (plain r).
Proof. unfold plain. apply _. Defined.
#[export] Instance tuple_ok_dec c : Decision (tuple_ok c).
Proof. unfold tuple_ok. apply _. Defined.

Lemma Itoa_prefix a b x y : (0 <= a)%Z -> (0 <= b)%Z -> Itoa a ++ 44%Z :: x = Itoa b ++ 44%Z :: y -> a = b /\ x = y.
Proof.
  intros Ha Hb E. apply split_unique in E as [E ->]; [by split; [apply Itoa_inj|]|..];
    (apply digits_no; [by apply Itoa_digits|unfold digit; lia]).
Qed.

(** The end of the text: the payload is what is left before the time. *)
Lemma payload_suffix p q k s t : Forall plain s -> Forall plain t ->
  p ++ k ++ goQuote s ++ [125%Z] = q ++ k ++ goQuote t ++ [125%Z] -> p = q /\ s = t.
Proof.
  assert (forall u : runes, Forall plain u -> 34%Z ∉ reverse u) as Hno.
  { intros u Hu Hin. apply Forall_reverse in Hu. rewrite Forall_forall in Hu. specialize (Hu _ Hin). unfold plain in Hu. lia. }
  intros Hs Ht. rewrite !goQuote_plain by done. intros E. apply (f_equal reverse) in E.
  rewrite !reverse_app, !reverse_cons, !reverse_app in E. cbn in E. rewrite <- !app_assoc in E. cbn in E.
  injection E as E. apply split_unique in E as [E1 E2]; [|by apply Hno..].
  apply (inj reverse) in E1. apply app_inv_head in E2. by apply (inj reverse) in E2.
Qed.

Lemma cons_cancel {A} (c : A) x y : c :: x = c :: y -> x = y.
Proof. by intros [= ->]. Qed.

Lemma Marshal_inj a b : tuple_ok a -> tuple_ok b -> Marshal a = Marshal b -> a = b.
Proof.
  intros (A1 & A2 & A3 & A4 & A5 & A6 & A7) (B1 & B2 & B3 & B4 & B5 & B6 & B7) E.
  destruct a as [a1 a2 a3 a4 a5 a6 a7 a8], b as [b1 b2 b3 b4 b5 b6 b7 b8]. unfold Marshal in E. cbn [c_id c_prev_hash
    c_tenant_id c_sequence_number c_event_type c_event_schema_version c_payload c_created_at] in *.
  apply cons_cancel, app_inv_head, goQuote_prefix in E as [-> E]; [|done..]. apply cons_cancel, app_inv_head, goQuote_prefix in E as [-> E]; [|done..]. apply cons_cancel, app_inv_head, goQuote_prefix in E as [-> E]; [|done..]. apply cons_cancel, app_inv_head, Itoa_prefix in E as [-> E]; [|done..].
  apply app_inv_head, goQuote_prefix in E as [-> E]; [|done..]. apply cons_cancel, app_inv_head, goQuote_prefix in E as [-> E]; [|done..]. apply cons_cancel, app_inv_head, (payload_suffix _ _ (44%Z :: field "created_at")) in E as [-> ->]; done.
Qed.

(** ** The two verifiers *)

Section Verdicts.
Context `{E : AuditEnv}.

Definition mismatch (row : Row) : bool := bool_decide (computeHash row <> row.(Hash)).

(** The first row the per-row classification calls broken. *)
Fixpoint first_broken (c : Chain) (i : nat) (rs : list Row) : option Row :=
  match rs with
  | [] => None
  | row :: rs => if decide (classifyRow c i row = ChainBroken) then Some row else first_broken c (S i) rs
  end.

(** The hash the row at [i] has to link to. *)
Definition prev_link (rs : list Row) (i : nat) : option runes :=
  match i with O => Some GenesisPrevHash | S j => linkHash <$> rs !! j end.

Definition row_ok (c : Chain) (i : nat) (row : Row) : Prop :=
  row.(TenantID) = c.(tenantID) /\ (mismatch row = true -> receiptedRedaction c.(receipts) row = true) /\
  prev_link c.(rows) i = Some row.(PrevHash).

#[export] Instance row_ok_dec c i row : Decision (row_ok c i row).
Proof. unfold row_ok. apply _. Defined.

(** Only a row that is not [row_ok] is broken. *)
Lemma classifyRow_broken c i row : classifyRow c i row = ChainBroken <-> ~ row_ok c i row.
Proof.
  assert ((classifyRow c i row = ChainBroken) <->
    (row.(TenantID) <> c.(tenantID) \/ mismatch row = true /\ receiptedRedaction c.(receipts) row = false \/
     prev_link c.(rows) i <> Some row.(PrevHash))) as ->.
  2: { unfold row_ok. destruct (receiptedRedaction _ _), (mismatch row); split; intros H; intuition (try done; try congruence);
       destruct (decide (TenantID row = tenantID c)), (decide (prev_link (rows c) i = Some (PrevHash row))); tauto. }
  unfold classifyRow, mismatch.
  case_bool_decide as Ht; [tauto|].
  destruct (bool_decide (computeHash row <> Hash row)), (receiptedRedaction (receipts c) row); cbn; [|tauto|..];
    (destruct i as [|j]; cbn; [|destruct (rows c !! j) as [p|]; cbn]); repeat case_bool_decide;
    intuition (try done; try congruence).
Qed.

(** One step of the loop of [Verify] is the classification of the row. *)
Lemma verifyLoop_step c pre row rs seen : c.(rows) = pre ++ row :: rs ->
  let res := verifyLoop c.(tenantID) c.(receipts) (last pre) seen (row :: rs) in
  if decide (classifyRow c (length pre) row = ChainBroken)
  then res.(Integrity) = ChainBroken /\ res.(BreakSeq) = row.(Seq)
  else res = verifyLoop c.(tenantID) c.(receipts) (Some row) (seen || mismatch row) rs.
Proof.
  intros Hr. assert (prev_link c.(rows) (length pre) = Some match last pre with None => GenesisPrevHash | Some p => linkHash p end) as Hl.
  { rewrite Hr. destruct pre as [|p pre _] using rev_ind; [done|]. rewrite last_snoc, length_app, Nat.add_1_r. cbn.
    rewrite <- app_assoc. cbn. by rewrite list_lookup_middle. }
  assert (row_ok c (length pre) row <-> row.(TenantID) = c.(tenantID) /\
    (mismatch row = true -> receiptedRedaction c.(receipts) row = true) /\
    row.(PrevHash) = match last pre with None => GenesisPrevHash | Some p => linkHash p end) as Hok.
  { unfold row_ok. rewrite Hl. split; intros (? & ? & ?); split_and!; congruence || done. }
  cbn. destruct (decide _) as [Hb|Hb]; [apply classifyRow_broken in Hb|rewrite classifyRow_broken in Hb; apply dec_stable in Hb];
    rewrite Hok in Hb; change (bool_decide (computeHash row <> Hash row)) with (mismatch row).
  - case_bool_decide as Ht; [done|].
    destruct (mismatch row && negb (Redacted row)); [done|].
    destruct (mismatch row && negb (receiptedRedaction (receipts c) row)) eqn:Em; [done|].
    assert (mismatch row = true -> receiptedRedaction (receipts c) row = true) as Hm
      by (destruct (mismatch row), (receiptedRedaction _ _); done).
    destruct (last pre) as [p|]; (case_bool_decide as Hp; [done|]; tauto).
  - destruct Hb as (Ht & Hm & Hp). rewrite bool_decide_eq_false_2 by tauto.
    assert (mismatch row = true -> Redacted row = true) as Hred.
    { intros H. specialize (Hm H). unfold receiptedRedaction in Hm. by destruct (Redacted row). }
    destruct (mismatch row); [rewrite Hm, Hred by done|]; cbn; rewrite Hp;
      (destruct (last pre); rewrite bool_decide_eq_false_2 by tauto; done).
Qed.

Lemma verifyLoop_spec c pre rs seen : c.(rows) = pre ++ rs ->
  let res := verifyLoop c.(tenantID) c.(receipts) (last pre) seen rs in
  match first_broken c (length pre) rs with
  | Some row => res.(Integrity) = ChainBroken /\ res.(BreakSeq) = row.(Seq)
  | None => res.(Integrity) = (if seen || existsb mismatch rs then ChainRedactedGDPR else ChainVerified) /\ res.(BreakSeq) = 0%Z
  end.
Proof.
  revert pre seen. induction rs as [|row rs IH]; intros pre seen Hr.
  { cbn. rewrite orb_false_r. by destruct seen. }
  pose proof (verifyLoop_step c pre row rs seen Hr) as Hs. cbn [first_broken].
  destruct (decide _) as [Hb|Hb]; [done|]. cbn beta zeta in *. rewrite Hs.
  specialize (IH (pre ++ [row]) (seen || mismatch row)). rewrite last_snoc, length_app, Nat.add_1_r in IH.
  cbn [existsb]. rewrite orb_assoc. apply IH. by rewrite <- app_assoc.
Qed.
End Verdicts.

(** The overall verdict of [Verify] and the per-row verdicts of
    [VerifyRows] agree: [Verify] is broken exactly when some row is classified
    broken, and then reports the first such row; otherwise it reports a lawful
    redaction exactly when some row's content hash does not match. *)
Theorem verdicts_agree `{E : AuditEnv} (c : Chain) :
  match first_broken c 0 c.(rows) with
  | Some row => (Verify c).(Integrity) = ChainBroken /\ (Verify c).(BreakSeq) = row.(Seq)
  | None => (Verify c).(Integrity) = (if existsb mismatch c.(rows) then ChainRedactedGDPR else ChainVerified)
            /\ (Verify c).(BreakSeq) = 0%Z
  end.
Proof. apply (verifyLoop_spec c [] c.(rows) false). done. Qed.

(** ** Chains built by the operations *)

Section Reachable.
Context `{E : AuditEnv}.

(** A use of the chain: appended events and signed redactions; a redaction
    out of range changes nothing. *)
Inductive ChainOp :=
| OpAppend (id eventType payload : runes) (now : Time)
| OpRedact (seq : Z) (payload signature : runes).

Definition chain_step (c : Chain) (op : ChainOp) : Chain :=
  match op with
  | OpAppend id t p now => (Append c id t p now).1
  | OpRedact seq p sig => default c (Redact c seq p sig)
  end.

Definition run_ops (c : Chain) (ops : list ChainOp) : Chain := foldl chain_step c ops.

(** A [uint64] sequence number, and a receipt with a signature. *)
Definition signed (op : ChainOp) : Prop :=
  match op with OpAppend _ _ _ _ => True | OpRedact seq _ sig => in_u64 seq /\ sig <> [] end.

Record chain_inv (c : Chain) : Prop := {
  inv_ok : forall i row, c.(rows) !! i = Some row -> row_ok c i row;
  inv_seq : forall i row, c.(rows) !! i = Some row -> row.(Seq) = (Z.of_nat i + 1)%Z }.

Lemma receipted_insert rc seq r row : row.(Seq) <> seq ->
  receiptedRedaction (<[seq := r]> rc) row = receiptedRedaction rc row.
Proof. intros H. unfold receiptedRedaction. by rewrite lookup_insert_ne. Qed.

Lemma Append_inv c id t p now : chain_inv c -> (Z.of_nat (length c.(rows)) + 1 < two64)%Z ->
  chain_inv (Append c id t p now).1.
Proof.
  intros [Hok Hseq] Hlen. split; cbn; intros i row [Hi|[Hi Hrow]]%lookup_snoc_Some.
  - destruct (Hok i row (proj2 Hi)) as (? & ? & Hl). split_and!; [done|done|].
    destruct i as [|j]; [done|]. cbn in *. rewrite lookup_app_l; [done|]. lia.
  - subst. unfold row_ok, mismatch. cbn. split_and!; [done| |].
    + rewrite bool_decide_eq_false_2; [done|]. intros H. by apply H.
    + destruct (rows c) as [|r rs _] eqn:Er using rev_ind; [done|]. rewrite length_app, Nat.add_1_r, last_snoc. cbn.
      rewrite <- app_assoc. cbn. by rewrite list_lookup_middle.
  - exact (Hseq _ _ (proj2 Hi)).
  - subst. cbn. rewrite wrap_u64_id; [lia|]. unfold in_u64. lia.
Qed.

Lemma Redact_inv c seq p sig c' : chain_inv c -> in_u64 seq -> sig <> [] -> Redact c seq p sig = Some c' -> chain_inv c'.
Proof.
  intros [Hok Hseq] Hu Hsig. unfold Redact. destruct (_ || _) eqn:Eb; [done|]. simplify_bool.
  destruct (rows c !! Z.to_nat (seq - 1)) as [r|] eqn:Er; [|done]. cbn. intros [= <-].
  set (k := Z.to_nat (seq - 1)) in *. assert (seq = Z.of_nat k + 1)%Z as Hs by (unfold in_u64 in Hu; lia).
  pose proof (lookup_lt_Some _ _ _ Er) as Hk. split; cbn.
  - assert (forall j, linkHash <$> <[k := redactRow r p]> (rows c) !! j = linkHash <$> rows c !! j) as Hlink.
    { intros j. destruct (decide (j = k)) as [->|]; [by rewrite list_lookup_insert_eq, Er|by rewrite list_lookup_insert_ne]. }
    assert (forall i, prev_link (<[k := redactRow r p]> (rows c)) i = prev_link (rows c) i) as Hpl by (intros [|j]; [done|apply Hlink]).
    intros i row [(<- & <- & _)|(Hne & Hi)]%list_lookup_insert_Some.
    + destruct (Hok k r Er) as (Ht & _ & Hl). split_and!; [done| |cbn; by rewrite Hpl]. intros _.
      unfold receiptedRedaction. cbn. rewrite (Hseq k r Er), <- Hs, lookup_insert_eq. cbn.
      by rewrite !bool_decide_eq_true_2.
    + destruct (Hok i row Hi) as (Ht & Hm & Hl). split_and!; [done| |cbn; by rewrite Hpl]. cbn.
      rewrite receipted_insert; [done|]. rewrite (Hseq i row Hi). lia.
  - intros i row [(<- & <- & _)|(Hne & Hi)]%list_lookup_insert_Some; [by apply (Hseq k r)|by apply Hseq].
Qed.

Lemma Redact_rows c seq p sig c' : Redact c seq p sig = Some c' -> length c'.(rows) = length c.(rows).
Proof.
  unfold Redact. destruct (_ || _); [done|]. destruct (rows c !! _); [|done]. cbn. intros [= <-]. cbn.
  by rewrite length_insert.
Qed.

Lemma run_ops_inv c ops : chain_inv c -> Forall signed ops ->
  (Z.of_nat (length c.(rows)) + Z.of_nat (length ops) < two64)%Z -> chain_inv (run_ops c ops).
Proof.
  intros Hi Hs. revert c Hi. induction Hs as [|op ops Ho Hs IH]; intros c Hi Hlen; [done|]. cbn in *. apply IH.
  - destruct op as [id t p now|seq p sig]; cbn; [by apply Append_inv; [|lia]|].
    destruct (Redact c seq p sig) eqn:Er; cbn; [|done]. destruct Ho. by eapply Redact_inv.
  - destruct op as [id t p now|seq p sig]; cbn; [rewrite length_app; cbn; lia|].
    destruct (Redact c seq p sig) eqn:E'; cbn; [erewrite Redact_rows by done|]; lia.
Qed.

Lemma first_broken_None c i rs : first_broken c i rs = None <-> forall j row, rs !! j = Some row -> row_ok c (i + j) row.
Proof.
  revert i. induction rs as [|r rs IH]; intros i; cbn; [by split|]. destruct (decide _) as [Hb|Hb].
  - split; [done|]. intros H. specialize (H 0 r eq_refl). rewrite Nat.add_0_r in H. by apply classifyRow_broken in Hb.
  - rewrite classifyRow_broken in Hb. apply dec_stable in Hb. rewrite IH. split.
    + intros H [|j] row; cbn; [intros [= <-]; by rewrite Nat.add_0_r|]. intros Hj. rewrite Nat.add_succ_r. by apply (H j).
    + intros H j row Hj. specialize (H (S j) row Hj). by rewrite Nat.add_succ_r in H.
Qed.
End Reachable.

(** A chain built by appends and signed redactions never verifies as
    broken, and every row keeps its place as its sequence number: the verdict is
    [redacted_gdpr] when some redaction changed a row's content and [verified]
    otherwise. *)
Theorem built_chain_verifies `{E : AuditEnv} tenant ops :
  Forall signed ops -> (Z.of_nat (length ops) < two64)%Z ->
  let c := run_ops (NewChain tenant) ops in
  (Verify c).(Integrity) = (if existsb mismatch c.(rows) then ChainRedactedGDPR else ChainVerified) /\
  forall i row, c.(rows) !! i = Some row -> row.(Seq) = (Z.of_nat i + 1)%Z /\ classifyRow c i row <> ChainBroken.
Proof.
  intros Hs Hlen c. assert (chain_inv c) as [Hok Hseq].
  { apply run_ops_inv; [|done|cbn; lia]. by split. }
  split.
  - pose proof (verifyLoop_spec c [] (rows c) false eq_refl) as H. cbn [length] in H. assert (first_broken c 0 (rows c) = None) as E0 by (by apply first_broken_None).
    rewrite E0 in H. apply H.
  - intros i row Hi. split; [by apply Hseq|]. rewrite classifyRow_broken. intros H. by apply H, Hok.
Qed.

#[local] Instance wit_env : AuditEnv := {| canonicalize := Ok; compact := Some; sha256 := fmap (fun c => c mod 256)%Z |}.

Definition wit_ops : list ChainOp :=
  [OpAppend [1%Z] [2%Z] [49%Z] 5; OpAppend [3%Z] [2%Z] [50%Z] 6; OpRedact 1 [48%Z] [9%Z]].

Lemma built_chain_verifies_witness : (Verify (run_ops (NewChain [116%Z]) wit_ops)).(Integrity) = ChainRedactedGDPR.
Proof.
  destruct (built_chain_verifies [116%Z] wit_ops) as [H _]; [repeat constructor; discriminate|reflexivity|].
  rewrite H. vm_compute. reflexivity.
Defined.

(** ** Tamper evidence *)

Section Tamper.
Context `{E : AuditEnv}.

(** The hashed tuple of a row; [None] when its payload is not JSON. *)
Definition row_tuple (r : Row) : option canonical := canonicalTuple r <$> compact (CanonicalPayload r.(Payload)).

(** Texts are valid, times are from the zero time on, the payload is JSON. *)
Definition row_wf (r : Row) : Prop := exists t, row_tuple r = Some t /\ tuple_ok t.

Definition linked (rs : list Row) : Prop :=
  forall i row, rs !! i = Some row -> computeHash row = row.(Hash) /\ prev_link rs i = Some row.(PrevHash).

Lemma linked_snoc rs r : linked (rs ++ [r]) ->
  linked rs /\ computeHash r = r.(Hash) /\ r.(PrevHash) = match last rs with None => GenesisPrevHash | Some p => p.(Hash) end.
Proof.
  intros H. split.
  - intros i row Hi. pose proof (lookup_lt_Some _ _ _ Hi). destruct (H i row) as [? Hp]; [by rewrite lookup_app_l|].
    split; [done|]. destruct i as [|j]; [done|]. cbn in *. rewrite lookup_app_l in Hp by lia. done.
  - destruct (H (length rs) r) as [Hc Hp]; [by rewrite list_lookup_middle|]. split; [done|].
    destruct rs as [|p rs _] using rev_ind; [by injection Hp|]. rewrite last_snoc.
    rewrite length_app, Nat.add_1_r in Hp. cbn in Hp. rewrite <- app_assoc in Hp. cbn in Hp.
    rewrite list_lookup_middle in Hp by done. by injection Hp.
Qed.

Lemma row_bytes r t : row_tuple r = Some t -> canonicalBytes r = Marshal t.
Proof. unfold canonicalBytes, row_tuple. destruct (compact _); [|done]. by intros [= <-]. Qed.

Lemma row_tuple_prev r t : row_tuple r = Some t -> c_prev_hash t = r.(PrevHash).
Proof. unfold row_tuple. destruct (compact _); [|done]. by intros [= <-]. Qed.

Lemma linked_last l p : linked l -> last l = Some p -> computeHash p = Hash p.
Proof. intros Hl Hp. apply last_Some in Hp as [l' ->]. by apply linked_snoc in Hl as (_ & ? & _). Qed.

Lemma verified_linked c : (Verify c).(Integrity) = ChainVerified -> linked c.(rows).
Proof.
  intros H. pose proof (verifyLoop_spec c [] (rows c) false eq_refl) as Hv. cbn [length] in Hv.
  change (verifyLoop _ _ (last []) _ _) with (Verify c) in Hv. cbn zeta in Hv.
  destruct (first_broken c 0 (rows c)) eqn:Ef; [destruct Hv; congruence|].
  destruct Hv as [Hv _]. rewrite H in Hv. destruct (existsb mismatch (rows c)) eqn:Ex; [done|].
  rewrite first_broken_None in Ef. intros i row Hi. destruct (Ef i row Hi) as (_ & _ & Hl). split; [|done].
  destruct (mismatch row) eqn:Em; [|unfold mismatch in Em; apply bool_decide_eq_false in Em; by apply dec_stable in Em].
  assert (existsb mismatch (rows c) = true); [|congruence]. apply existsb_exists. exists row. split; [|done].
  apply list_elem_of_In. by eapply list_elem_of_lookup_2.
Qed.
End Tamper.

(** Two chains, each read in its own environment. *)
Section Two.
Context (E F : AuditEnv).

Definition same_row (r s : Row) : Prop := row_tuple (E := E) r = row_tuple (E := F) s.

#[export] Instance same_row_dec r s : Decision (same_row r s).
Proof. unfold same_row. apply _. Defined.

(** A row of each chain: two texts and one hash.  The rows after them agree. *)
Definition collision (rs ss : list Row) : Prop :=
  exists rs1 r rs2 ss1 s ss2, rs = rs1 ++ r :: rs2 /\ ss = ss1 ++ s :: ss2 /\ Forall2 same_row rs2 ss2 /\
    canonicalBytes (E := E) r <> canonicalBytes (E := F) s /\ computeHash (E := E) r = computeHash (E := F) s.

(** A row of the longer chain whose text hashes to the sentinel; the rows after it
    are the shorter chain. *)
Definition longer (rs ss : list Row) : Prop :=
  exists rs1 r rs2, rs = rs1 ++ r :: rs2 /\ Forall2 same_row rs2 ss /\ computeHash (E := E) r = GenesisPrevHash.
Definition shorter (rs ss : list Row) : Prop :=
  exists ss1 s ss2, ss = ss1 ++ s :: ss2 /\ Forall2 same_row rs ss2 /\ computeHash (E := F) s = GenesisPrevHash.

(** What an attacker has to exhibit. *)
Definition hash_break (rs ss : list Row) : Prop := collision rs ss \/ longer rs ss \/ shorter rs ss.

(** From the end: as long as the links agree, the rows do. *)
Lemma linked_unique rs ss rs2 ss2 : linked (E := E) rs -> linked (E := F) ss -> Forall (row_wf (E := E)) rs -> Forall (row_wf (E := F)) ss ->
  Hash <$> last rs = Hash <$> last ss -> Forall2 same_row rs2 ss2 ->
  Forall2 same_row (rs ++ rs2) (ss ++ ss2) \/ hash_break (rs ++ rs2) (ss ++ ss2).
Proof using Type.
  revert ss rs2 ss2. induction rs as [|r rs IH] using rev_ind; intros ss rs2 ss2 Hr Hs Wr Ws H H2.
  { destruct ss as [|s ss _] using rev_ind; [by left|]. rewrite last_snoc in H. done. }
  destruct ss as [|s ss _] using rev_ind; [rewrite last_snoc in H; done|]. rewrite !last_snoc in H. injection H as H.
  apply linked_snoc in Hr as (Hr & Cr & Pr). apply linked_snoc in Hs as (Hs & Cs & Ps).
  apply Forall_app in Wr as [Wr Wr']. apply Forall_app in Ws as [Ws Ws'].
  rewrite Forall_singleton in Wr', Ws'. rewrite <- !app_assoc. cbn [app].
  destruct (decide (canonicalBytes (E := E) r = canonicalBytes (E := F) s)) as [Eb|Eb].
  2: { right. left. exists rs, r, rs2, ss, s, ss2. split_and!; try done. congruence. }
  destruct Wr' as (t & Et & Ot), Ws' as (u & Eu & Ou).
  rewrite (row_bytes _ _ Et), (row_bytes _ _ Eu) in Eb. apply Marshal_inj in Eb; [subst u|done..].
  assert (Forall2 same_row (r :: rs2) (s :: ss2)) as H2' by (constructor; [unfold same_row; by rewrite Et, Eu|done]).
  assert (PrevHash r = PrevHash s) as Hp by (by rewrite <- (row_tuple_prev _ _ Et), <- (row_tuple_prev _ _ Eu)).
  rewrite Pr, Ps in Hp. destruct (last rs) as [p|] eqn:Ep, (last ss) as [q|] eqn:Eq.
  - apply IH; auto. rewrite ?Ep, Eq. cbn. congruence.
  - apply last_None in Eq as ->. pose proof (linked_last _ _ Hr Ep) as Hh. apply last_Some in Ep as [l ->].
    right. right. left. exists l, p, (r :: rs2). split_and!; [by rewrite <- app_assoc|done|congruence].
  - apply last_None in Ep as ->. pose proof (linked_last _ _ Hs Eq) as Hh. apply last_Some in Eq as [l ->].
    right. right. right. exists l, q, (s :: ss2). split_and!; [by rewrite <- app_assoc|done|congruence].
  - apply last_None in Ep as ->. apply last_None in Eq as ->. by left.
Qed.
End Two.

(** C30. Tamper evidence: two chains that verify and end in the same row hash
    hold the same rows: the same number, with equal identifiers, links,
    tenants, sequence numbers, event types, schema versions, canonical payloads
    and times.  Otherwise the chains themselves hold the break: a row of each,
    followed by equal rows, with two texts and one hash; or, in the longer chain,
    a row whose text hashes to the genesis sentinel, followed by the rows of the
    shorter one.  The two may be verified by different operations, for
    which canonicalisation comes out differently.  Rows hold valid text, a JSON payload and a time
    from year one on. *)
Theorem tamper_evidence (E : AuditEnv) canon (c1 c2 : Chain) : let F := reread E canon in
  (Verify (E := E) c1).(Integrity) = ChainVerified -> (Verify (E := F) c2).(Integrity) = ChainVerified ->
  Forall (row_wf (E := E)) c1.(rows) -> Forall (row_wf (E := F)) c2.(rows) -> Hash <$> last c1.(rows) = Hash <$> last c2.(rows) ->
  Forall2 (same_row E F) c1.(rows) c2.(rows) \/ hash_break E F c1.(rows) c2.(rows).
Proof.
  intros F H1%verified_linked H2%verified_linked W1 W2 H.
  destruct (linked_unique E F _ _ [] [] H1 H2 W1 W2 H (List.Forall2_nil _)) as [H'|H']; rewrite !app_nil_r in H'; auto.
Qed.

(** A hash that adds up the text: exchanging two digits of a payload is not seen,
    and the break is the two rows. *)
Definition weak_env : AuditEnv :=
  {| canonicalize := fun p => Ok (filter (fun c => c <> 32%Z) p); compact := Some;
     sha256 := fun x => replicate 31 0%Z ++ [(foldr Z.add 0 x mod 256)%Z] |}.
Definition wit_chain `{AuditEnv} (payload : string) : Chain :=
  run_ops (NewChain [116%Z]) [OpAppend [1%Z] [2%Z] (runes_of payload) 5; OpAppend [3%Z] [2%Z] (runes_of "7") 6].

Lemma rows_wf_by `{AuditEnv} (c : Chain) :
  forallb (fun r => match row_tuple r with Some t => bool_decide (tuple_ok t) | None => false end) c.(rows) = true -> Forall row_wf c.(rows).
Proof.
  rewrite forallb_forall. intros H0. apply Forall_forall. intros r Hr. specialize (H0 r (proj1 (list_elem_of_In _ _) Hr)).
  unfold row_wf. destruct (row_tuple r) as [t|]; [|done]. exists t. split; [done|]. by apply bool_decide_eq_true in H0.
Qed.

Lemma no_sentinel (E F : AuditEnv) rs ss :
  Forall (fun r => computeHash (E := E) r <> GenesisPrevHash) rs -> Forall (fun s => computeHash (E := F) s <> GenesisPrevHash) ss ->
  ~ longer E F rs ss /\ ~ shorter E F rs ss.
Proof.
  intros Hr Hs. split.
  - intros (l & r & k & -> & _ & Hh). rewrite Forall_app, Forall_cons in Hr. naive_solver.
  - intros (l & r & k & -> & _ & Hh). rewrite Forall_app, Forall_cons in Hs. naive_solver.
Qed.

(** The digits of the text itself, for texts of bytes: no collision.  Chains with
    payloads that only differ in space hold the same rows. *)
Definition plain_env : AuditEnv := {| canonicalize := fun p => Ok (filter (fun c => c <> 32%Z) p); compact := Some; sha256 := fun x => x |}.

Lemma no_collision (E F : AuditEnv) rs ss :
  forallb (fun r => forallb (fun s => bool_decide (canonicalBytes (E := E) r = canonicalBytes (E := F) s) ||
    negb (bool_decide (computeHash (E := E) r = computeHash (E := F) s))) ss) rs = true -> ~ collision E F rs ss.
Proof.
  rewrite forallb_forall. intros H (l & r & k & l' & s & k' & -> & -> & _ & Hne & Heq).
  specialize (H r ltac:(apply in_elt)). rewrite forallb_forall in H. specialize (H s ltac:(apply in_elt)).
  apply orb_true_iff in H as [H|H]; [by apply bool_decide_eq_true in H|]. apply negb_true_iff, bool_decide_eq_false in H. done.
Qed.

Definition weak_again : AuditEnv := reread weak_env Ok.
Definition plain_again : AuditEnv := reread plain_env Ok.

Lemma tamper_evidence_witness :
  collision weak_env weak_again (wit_chain (H := weak_env) "12").(rows) (wit_chain (H := weak_again) "21").(rows) /\
  Forall2 (same_row plain_env plain_again) (wit_chain (H := plain_env) "[1, 2]").(rows) (wit_chain (H := plain_again) "[1,2]").(rows).
Proof.
  split.
  - destruct (tamper_evidence weak_env Ok (wit_chain (H := weak_env) "12") (wit_chain (H := weak_again) "21")) as [H|[H|H]];
      [vm_compute; reflexivity|vm_compute; reflexivity|apply rows_wf_by; vm_compute; reflexivity|apply rows_wf_by; vm_compute; reflexivity
      |vm_compute; reflexivity| |exact H|].
    + exfalso. revert H. apply (bool_decide_eq_false_1 (Forall2 _ _ _)). vm_compute. reflexivity.
    + exfalso. destruct (no_sentinel weak_env weak_again (wit_chain (H := weak_env) "12").(rows) (wit_chain (H := weak_again) "21").(rows)) as [N1 N2];
        [apply (bool_decide_unpack _); vm_compute; exact I..|]. destruct H as [H|H]; [exact (N1 H)|exact (N2 H)].
  - destruct (tamper_evidence plain_env Ok (wit_chain (H := plain_env) "[1, 2]") (wit_chain (H := plain_again) "[1,2]")) as [H|[H|H]];
      [vm_compute; reflexivity|vm_compute; reflexivity|apply rows_wf_by; vm_compute; reflexivity|apply rows_wf_by; vm_compute; reflexivity
      |vm_compute; reflexivity|exact H| |].
    + exfalso. revert H. apply no_collision. vm_compute. reflexivity.
    + exfalso. destruct (no_sentinel plain_env plain_again (wit_chain (H := plain_env) "[1, 2]").(rows) (wit_chain (H := plain_again) "[1,2]").(rows)) as [N1 N2];
        [apply (bool_decide_unpack _); vm_compute; exact I..|]. destruct H as [H|H]; [exact (N1 H)|exact (N2 H)].
Defined.

(** ** What a redaction gives up *)

Section Redaction.
Context `{E : AuditEnv}.

Definition set_prev (r : Row) (h : runes) : Row :=
  mkRow r.(ID) r.(Seq) r.(TenantID) r.(EventType) r.(EventSchemaVersion) r.(Payload) r.(Timestamp) h r.(Hash) r.(Redacted).

Lemma verify_not_broken c : (Verify c).(Integrity) <> ChainBroken <-> forall i row, c.(rows) !! i = Some row -> row_ok c i row.
Proof.
  pose proof (verifyLoop_spec c [] (rows c) false eq_refl) as Hv. cbn [length] in Hv. cbn zeta in Hv.
  change (verifyLoop _ _ (last []) _ _) with (Verify c) in Hv. rewrite <- (first_broken_None c 0).
  destruct (first_broken c 0 (rows c)); [by destruct Hv as [-> _]|]. destruct Hv as [-> _].
  by destruct (false || _).
Qed.

Lemma prev_link_end rs rs' : prev_link (rs ++ rs') (length rs) = Some match last rs with None => GenesisPrevHash | Some p => p.(Hash) end.
Proof.
  destruct rs as [|p rs _] using rev_ind; [done|]. rewrite last_snoc, length_app, Nat.add_1_r. cbn.
  rewrite <- app_assoc. cbn. by rewrite list_lookup_middle.
Qed.

Lemma prev_link_app rs rs' i : i <= length rs -> prev_link (rs ++ rs') i = prev_link rs i.
Proof. intros Hi. destruct i as [|j]; [done|]. cbn. by rewrite lookup_app_l by lia. Qed.

(** The links inside a suffix depend on the hashes of the suffix only. *)
Lemma prev_link_suffix (pre pre' : list Row) r r' post i : r.(Hash) = r'.(Hash) ->
  prev_link (pre ++ r :: post) (length pre + S i) = prev_link (pre' ++ r' :: post) (length pre' + S i).
Proof.
  intros Hh. rewrite !Nat.add_succ_r. cbn. rewrite !lookup_app_r by lia.
  replace (length pre + i - length pre) with i by lia. replace (length pre' + i - length pre') with i by lia.
  destruct i; cbn; unfold linkHash; [by rewrite Hh|done].
Qed.
End Redaction.

(** A redacted row with a receipt is not covered by its own hash, link
    included, so the rows before it are not protected any more: replace them by
    any other rows that verify on their own, point the redacted row at their
    tail, and the whole chain with its receipts still does not verify as
    broken. *)
Theorem redaction_unprotects_prefix `{E : AuditEnv} tenant rc pre r post pre' :
  (Verify (ChainFromRows tenant (pre ++ r :: post) rc)).(Integrity) <> ChainBroken ->
  receiptedRedaction rc r = true ->
  (Verify (ChainFromRows tenant pre' rc)).(Integrity) <> ChainBroken ->
  let link := match last pre' with None => GenesisPrevHash | Some p => p.(Hash) end in
  (Verify (ChainFromRows tenant (pre' ++ set_prev r link :: post) rc)).(Integrity) <> ChainBroken.
Proof.
  rewrite !verify_not_broken. cbn. unfold row_ok. cbn. intros H Hr H'. set (link := match last pre' with _ => _ end).
  intros i row [Hi|[Hlen Hi]]%lookup_app_Some.
  - rewrite prev_link_app by (apply lookup_lt_Some in Hi; lia). by apply H'.
  - destruct (i - length pre') as [|k] eqn:Ek; cbn in Hi.
    + injection Hi as <-. destruct (H (length pre) r) as (Ht & _ & _); [by rewrite list_lookup_middle|].
      split_and!; [done|intros _; exact Hr|]. replace i with (length pre') by lia. apply prev_link_end.
    + destruct (H (length pre + S k) row) as (Ht & Hm & Hl).
      { rewrite lookup_app_r by lia. by replace (length pre + S k - length pre) with (S k) by lia. }
      split_and!; [done|done|]. rewrite <- Hl. replace i with (length pre' + S k) by lia. by apply prev_link_suffix.
Qed.

(** One row is appended and redacted after another; the first is then
    replaced by a forged one. *)
Lemma redaction_unprotects_prefix_witness :
  let c := run_ops (NewChain [116%Z]) [OpAppend [1%Z] [2%Z] [49%Z] 5; OpAppend [3%Z] [2%Z] [50%Z] 6; OpRedact 2 [48%Z] [9%Z]] in
  let forged := run_ops (NewChain [116%Z]) [OpAppend [7%Z] [8%Z] [57%Z] 5] in
  let r := default (mkRow [] 0 [] [] [] [] 0 [] [] false) (c.(rows) !! 1) in
  (Verify (ChainFromRows [116%Z] (forged.(rows) ++ [set_prev r (default [] (Hash <$> last forged.(rows)))]) c.(receipts))).(Integrity)
  <> ChainBroken.
Proof.
  intros c forged r.
  apply (redaction_unprotects_prefix [116%Z] (receipts c) (take 1 (rows c)) r [] (rows forged)).
  - vm_compute. discriminate.
  - vm_compute. reflexivity.
  - vm_compute. discriminate.
Defined.

(** A payload that is not JSON makes [json.Marshal] fail, and the error is
    dropped: all such rows have the hash of the empty text. *)
Theorem malformed_payload_hash `{E : AuditEnv} r s :
  compact (CanonicalPayload r.(Payload)) = None -> compact (CanonicalPayload s.(Payload)) = None ->
  computeHash r = computeHash s.
Proof. intros H1 H2. unfold computeHash, canonicalBytes. by rewrite H1, H2. Qed.
