(* ===== verification/Elicitation.v ===== *)
(** * Elicitation: prompts that travel up the delegation tree

    [pkg/elicitation]: the enforcement modes with the platform floor, the
    depth policy, the digest of a prompt's content, the hop-by-hop walk and the
    rules for prompts that carry a URL; [gateway/mcpfabric/elicitationfloor]:
    the floor the gateway reads at run time.

    A Go string is a byte string; [Text.utf8_runes] gives its runes, which is what
    [json.Marshal] writes.  A Go map is the list of its members in any order.
    SHA-256 is the interface [Hashes], URLs and case folding are [Urls]. *)

From S2P Require Import Prelude Text Jcs AuditChain.

#[local] Set Warnings "-register-all".

(** ** Enforcement modes *)

Module Mode.
Definition ModeOff : string := "off".
Definition ModeDetectOnly : string := "detect-only".
Definition ModeEnforce : string := "enforce".
Definition AllModes : list string := [ModeOff; ModeDetectOnly; ModeEnforce].

Definition IsValid (m : string) : bool := existsb (String.eqb m) AllModes.

Definition Rank (m : string) : Z :=
  if String.eqb m ModeOff then 0
  else if String.eqb m ModeDetectOnly then 1
  else if String.eqb m ModeEnforce then 2
  else -1.

Definition AtLeast (m other : string) : bool := (Rank other <=? Rank m)%Z.

Record InvalidModeError := mkInvalidModeError { Field : string; Value : string }.

Definition ResolveEffective (platformFloor tenantStored : string) : result InvalidModeError string :=
  if negb (IsValid platformFloor) then Err (mkInvalidModeError "platformFloor" platformFloor)
  else if negb (IsValid tenantStored) then Err (mkInvalidModeError "tenantStored" tenantStored)
  else if (Rank tenantStored <? Rank platformFloor)%Z then Ok platformFloor else Ok tenantStored.

Definition ResolveEffectiveWithDefaults (rawFloor rawStored : string) : string :=
  let floor := if IsValid rawFloor then rawFloor else ModeOff in
  let stored := if IsValid rawStored then rawStored else ModeEnforce in
  match ResolveEffective floor stored with
  | Err _ => stored
  | Ok eff => eff
  end.
End Mode.

(** The platform floor the gateway holds and refreshes.  A read of the
    ConfigMap fails ([None]), or gives a value with whether it was present. *)
Module Floor.
Definition Provider := string.

Definition Set_ (p : Provider) (floor : string) : Provider * (string * bool) :=
  if negb (Mode.IsValid floor) then (p, (p, false))
  else if String.eqb p floor then (p, (p, false))
  else (floor, (p, true)).

(** The new floor, and the change reported to [OnChange]. *)
Definition reconcileOnce (p : Provider) (read : option (string * bool)) : Provider * option (string * string) :=
  match read with
  | None => (p, None)
  | Some (value, present) =>
      if negb present then (p, None)
      else if negb (Mode.IsValid value) then (p, None)
      else let '(p', (prev, changed)) := Set_ p value in
           if changed then (p', Some (prev, value)) else (p', None)
  end.

(** The reads of [Run], one at the start and one for each tick. *)
Definition Run (p : Provider) (reads : list (option (string * bool))) : Provider :=
  foldl (fun p read => (reconcileOnce p read).1) p reads.
End Floor.

(** ** Depth policy and provenance *)

Module Depth.
Definition InitiatorConnector : string := "connector".
Definition InitiatorAgent : string := "agent".
Definition InitiatorIsValid (t : string) : bool := String.eqb t InitiatorConnector || String.eqb t InitiatorAgent.

Definition DepthAllowAll : string := "allow_all".
Definition DepthSuppressAtDepth : string := "suppress_at_depth".
Definition DepthBlockAll : string := "block_all".
Definition DefaultSuppressAtDepth : Z := 3.

Definition IsValid (p : string) : bool :=
  existsb (String.eqb p) [DepthAllowAll; DepthSuppressAtDepth; DepthBlockAll].

Definition ShouldSuppress (p initiator : string) (depth suppressAtDepth : Z) : bool :=
  if String.eqb initiator InitiatorConnector then false
  else if String.eqb p DepthAllowAll then false
  else if String.eqb p DepthBlockAll then (0 <? depth)%Z
  else if String.eqb p DepthSuppressAtDepth then (suppressAtDepth <=? depth)%Z
  else false.
End Depth.

Record Provenance := mkProvenance {
  OriginPod : string; DelegationDepth : Z; OriginRuntime : string; Purpose : string;
  ConnectorID : string; ExpectedDomain : string; InitiatorType : string }.

Inductive ProvenanceError := NoOriginPod | BadInitiatorType | NoConnectorID | NegativeDepth.

Definition ValidateProvenance (p : Provenance) : result ProvenanceError () :=
  if is_empty p.(OriginPod) then Err NoOriginPod
  else if negb (Depth.InitiatorIsValid p.(InitiatorType)) then Err BadInitiatorType
  else if String.eqb p.(InitiatorType) Depth.InitiatorConnector && is_empty p.(ConnectorID) then Err NoConnectorID
  else if (p.(DelegationDepth) <? 0)%Z then Err NegativeDepth
  else Ok ().

(** ** Content *)

(** A finite double; [encoding/json] prints it as ECMAScript does, with the
    sign of a negative zero. *)
Inductive number := Finite (f : float64) | NegativeZero.

Definition goNumber (n : number) : runes :=
  match n with Finite f => es6Number f | NegativeZero => [45; 48]%Z end.

(** A value of type [any]: what decoding JSON yields, or a value of another
    type with what [json.Marshal] returns for it, [None] for an error. *)
Inductive value :=
| VNil
| VBool (b : bool)
| VString (s : string)
| VNumber (n : number)
| VArray (l : list value)
| VObject (m : list (string * value))
| VOther (marshalled : option runes).

(** [sort.Strings] on the keys. *)
Definition key_le {A} (a b : string * A) : Prop := String.le a.1 b.1.
#[export] Instance key_le_dec {A} : RelDecision (@key_le A).
Proof. intros a b. unfold key_le. apply _. Defined.

(** [json.Marshal] of a string. *)
Definition marshalString (s : string) : runes := goQuote (utf8_runes s).

(** The children are encoded before the keys are sorted, which changes neither
    the text nor whether there is an error. *)
Fixpoint canonicalize (v : value) : option runes :=
  match v with
  | VObject m =>
      (fun ms => 123%Z :: join ((fun kt => marshalString kt.1 ++ 58%Z :: kt.2) <$> merge_sort key_le ms) ++ [125%Z])
        <$> mapM (fun kv => pair kv.1 <$> canonicalize kv.2) m
  | VArray l => (fun xs => 91%Z :: join xs ++ [93%Z]) <$> mapM canonicalize l
  | VNil => Some (runes_of "null")
  | VBool true => Some (runes_of "true")
  | VBool false => Some (runes_of "false")
  | VString s => Some (marshalString s)
  | VNumber n => Some (goNumber n)
  | VOther t => t
  end.

Record Content := mkContent { Message : string; Schema : value }.

(** SHA-256 of a text; a digest is 32 bytes. *)
Class Hashes := { sha256 : runes -> list Z }.
Class HashLaws `{Hashes} := {
  sha256_bytes : forall t, Forall (fun b => 0 <= b < 256)%Z (sha256 t);
  sha256_size : forall t, length (sha256 t) = 32 }.

Section Digests.
Context `{Hashes}.

Definition content_value (c : Content) : value :=
  VObject [("message", VString c.(Message)); ("schema", c.(Schema))].

Definition Digest (c : Content) : option runes := (fun t => hexEncode (sha256 t)) <$> canonicalize (content_value c).

Definition Equal (c other : Content) : bool :=
  match Digest c, Digest other with
  | Some a, Some b => bool_decide (a = b)
  | _, _ => false
  end.

Inductive VerifyError := DigestRequired | InboundDigest | Tamper (ExpectedDigest ObservedDigest : runes).

Definition VerifyContent (originalDigest : runes) (inbound : Content) : result VerifyError () :=
  if bool_decide (originalDigest = []) then Err DigestRequired
  else match Digest inbound with
       | None => Err InboundDigest
       | Some got => if bool_decide (got = originalDigest) then Ok () else Err (Tamper originalDigest got)
       end.

Definition DivergentFields (original forwarded : Content) : list string :=
  (if String.eqb original.(Message) forwarded.(Message) then [] else ["message"]) ++
  match Digest (mkContent "" original.(Schema)), Digest (mkContent "" forwarded.(Schema)) with
  | Some od, Some fd => if bool_decide (od = fd) then [] else ["schema"]
  | _, _ => ["schema"]
  end.

(** ** The hop-by-hop walk *)

Record Hop := mkHop { HopSession : string; PodID : string; HopDepth : Z; Intercepts : bool; IsHuman : bool }.

Definition effectivePod (h : Hop) : string := if is_empty h.(PodID) then h.(HopSession) else h.(PodID).

Inductive TerminationKind := TerminateHuman | TerminateIntercept | TerminateSuppressed.

Record ChainResult := mkChainResult {
  Termination : TerminationKind; ResolverSession : string; ResolverPod : string; Hops : list Hop }.

(** The caller's hook: what a hop sent on, if anything. *)
Record ChainInput := mkChainInput {
  InHops : list Hop; OriginalContent : Content; Initiator : string; DepthPolicy : string;
  SuppressAtDepth : Z; ForwardedContent : option (Hop -> option Content) }.

Inductive ChainReason := ChainEmpty | NotCanonicalizable | Divergence.
Record ChainError := mkChainError { Reason : ChainReason; ErrHop : string; Cause : option VerifyError }.

Definition resolved_by (kind : TerminationKind) (hop : Hop) (traversed : list Hop) : ChainResult :=
  mkChainResult kind hop.(HopSession) (effectivePod hop) traversed.

(** The check of one hop. *)
Definition check_hop (in_ : ChainInput) (originalDigest : runes) (hop : Hop) : result ChainError () :=
  match in_.(ForwardedContent) ≫= (fun f => f hop) with
  | None => Ok ()
  | Some forwarded =>
      match VerifyContent originalDigest forwarded with
      | Ok _ => Ok ()
      | Err e => Err (mkChainError Divergence (effectivePod hop) (Some e))
      end
  end.

(** The loop over the ancestors; [last] is the last hop of [traversed]. *)
Fixpoint walk_loop (in_ : ChainInput) (originalDigest : runes) (traversed : list Hop) (last : Hop) (hops : list Hop)
    : result ChainError ChainResult :=
  match hops with
  | [] => Ok (resolved_by TerminateHuman last traversed)
  | hop :: hops =>
      let* _ := check_hop in_ originalDigest hop in
      let traversed := traversed ++ [hop] in
      if hop.(Intercepts) then Ok (resolved_by TerminateIntercept hop traversed)
      else if hop.(IsHuman) then Ok (resolved_by TerminateHuman hop traversed)
      else walk_loop in_ originalDigest traversed hop hops
  end.

(** The policy in force: an unknown one is the platform default. *)
Definition depth_policy (in_ : ChainInput) : string * Z :=
  if Depth.IsValid in_.(DepthPolicy) then (in_.(DepthPolicy), in_.(SuppressAtDepth))
  else (Depth.DepthSuppressAtDepth,
        if (in_.(SuppressAtDepth) <=? 0)%Z then Depth.DefaultSuppressAtDepth else in_.(SuppressAtDepth)).

Definition WalkChain (in_ : ChainInput) : result ChainError ChainResult :=
  match in_.(InHops) with
  | [] => Err (mkChainError ChainEmpty "" None)
  | origin :: rest =>
      let '(policy, suppressAt) := depth_policy in_ in
      if Depth.ShouldSuppress policy in_.(Initiator) origin.(HopDepth) suppressAt
      then Ok (mkChainResult TerminateSuppressed "" "" [origin])
      else match Digest in_.(OriginalContent) with
           | None => Err (mkChainError NotCanonicalizable (effectivePod origin) None)
           | Some originalDigest =>
               match rest with
               | [] => Ok (resolved_by TerminateHuman origin [origin])
               | _ => walk_loop in_ originalDigest [origin] origin rest
               end
           end
  end.

Definition VerifyContentAtHop (tamperingPod : string) (originalDigest : runes) (forwarded : Content) : result ChainError () :=
  match VerifyContent originalDigest forwarded with
  | Ok _ => Ok ()
  | Err e => Err (mkChainError Divergence tamperingPod (Some e))
  end.
End Digests.

(** ** Prompts that carry a URL *)

(** [url.Parse] with the scheme and host name it finds, [None] for an error,
    and [strings.ToLower]. *)
Class Urls := { url_parse : string -> option (string * string); to_lower : string -> string }.

Record URLModeAllowlist := mkAllowlist { Enabled : bool; DomainAllowlist : list string }.

Inductive URLModeRejectReason := URLModeRejectDisabled | URLModeRejectNotAllowlisted
  | URLModeRejectConnectorDomainMismatch | URLModeRejectMalformedURL.
Record URLModeRejection := mkRejection {
  RejReason : URLModeRejectReason; RejHost : string; RejAllowlist : list string }.

Section UrlMode.
Context `{Urls}.

Definition nonEmptyEntries (a : URLModeAllowlist) : list string :=
  filter (fun e => e <> "") ((fun e => to_lower (trim_space e)) <$> a.(DomainAllowlist)).

Inductive URLModeConfigError := DomainRequired.

Definition ValidateAllowlist (a : URLModeAllowlist) : result URLModeConfigError () :=
  if a.(Enabled) && bool_decide (nonEmptyEntries a = []) then Err DomainRequired else Ok ().

Inductive HostError := UrlSyntax | NotHttp | NoHost.

Definition effectiveHost (rawURL : string) : result HostError string :=
  match url_parse (trim_space rawURL) with
  | None => Err UrlSyntax
  | Some (scheme, hostname) =>
      let scheme := to_lower scheme in
      if negb (String.eqb scheme "http") && negb (String.eqb scheme "https") then Err NotHttp
      else let host := to_lower hostname in
           if is_empty host then Err NoHost else Ok host
  end.

Definition host_matches (host pat : string) : bool :=
  match cut_prefix "*." pat with
  | Some rest =>
      let suffix := "." +:+ rest in
      has_suffix host suffix && (String.length suffix <? String.length host)%nat
  | None => String.eqb host pat
  end.

Definition hostMatchesAllowlist (host : string) (entries : list string) : bool := existsb (host_matches host) entries.

Definition CheckConnectorURLDomain (rawURL expectedDomain : string) : result URLModeRejection () :=
  if is_empty rawURL then Ok ()
  else match effectiveHost rawURL with
       | Err _ => Err (mkRejection URLModeRejectMalformedURL "" [])
       | Ok host =>
           let expected := to_lower (trim_space expectedDomain) in
           if is_empty expected then Ok ()
           else if negb (hostMatchesAllowlist host [expected])
                then Err (mkRejection URLModeRejectConnectorDomainMismatch host [expected])
                else Ok ()
       end.

Definition CheckURLModeProvenance (initiator rawURL connectorExpectedDomain : string) (allow : URLModeAllowlist)
    : result URLModeRejection () :=
  if is_empty rawURL then Ok ()
  else match effectiveHost rawURL with
       | Err _ => Err (mkRejection URLModeRejectMalformedURL "" [])
       | Ok host =>
           if String.eqb initiator Depth.InitiatorConnector
           then CheckConnectorURLDomain rawURL connectorExpectedDomain
           else if negb allow.(Enabled) then Err (mkRejection URLModeRejectDisabled host [])
           else let entries := nonEmptyEntries allow in
                if bool_decide (entries = []) then Err (mkRejection URLModeRejectDisabled host [])
                else if negb (hostMatchesAllowlist host entries)
                     then Err (mkRejection URLModeRejectNotAllowlisted host entries)
                     else Ok ()
       end.
End UrlMode.

(** ** Modes and the floor *)

Lemma IsValid_iff m : Mode.IsValid m = true <-> m = Mode.ModeOff \/ m = Mode.ModeDetectOnly \/ m = Mode.ModeEnforce.
Proof.
  unfold Mode.IsValid, Mode.AllModes. cbn [existsb]. rewrite !orb_true_iff, !String.eqb_eq. naive_solver.
Qed.

(** With valid arguments the stricter one wins. *)
Lemma ResolveEffective_max floor stored eff :
  Mode.ResolveEffective floor stored = Ok eff ->
  Mode.IsValid eff = true /\ (eff = floor \/ eff = stored) /\
  Mode.Rank eff = Z.max (Mode.Rank floor) (Mode.Rank stored).
Proof.
  unfold Mode.ResolveEffective. destruct (Mode.IsValid floor) eqn:Ef; [|done].
  destruct (Mode.IsValid stored) eqn:Es; [|done]. cbn [negb].
  destruct (Z.ltb_spec (Mode.Rank stored) (Mode.Rank floor)); intros [= <-]; (split; [done|split; [auto|lia]]).
Qed.

Lemma WithDefaults_Ok rawFloor rawStored :
  Mode.ResolveEffective (if Mode.IsValid rawFloor then rawFloor else Mode.ModeOff)
    (if Mode.IsValid rawStored then rawStored else Mode.ModeEnforce)
  = Ok (Mode.ResolveEffectiveWithDefaults rawFloor rawStored).
Proof.
  unfold Mode.ResolveEffectiveWithDefaults, Mode.ResolveEffective.
  destruct (Mode.IsValid rawFloor) eqn:Ef, (Mode.IsValid rawStored) eqn:Es; cbv zeta;
    rewrite ?Ef, ?Es; cbn [negb]; by destruct (_ <? _)%Z.
Qed.

Lemma reconcileOnce_floor p read : (Floor.reconcileOnce p read).1 =
  match read with
  | Some (v, true) => if Mode.IsValid v then v else p
  | _ => p
  end.
Proof.
  destruct read as [[v []]|]; [|done..]. unfold Floor.reconcileOnce. cbn [negb].
  destruct (Mode.IsValid v) eqn:Ev; cbn [negb]; [|done].
  unfold Floor.Set_. rewrite Ev. cbn [negb]. by destruct (String.eqb_spec p v) as [->|].
Qed.

(** The floor is the last valid value read, and what a tenant chooses never
    takes the mode in force below it. *)
Theorem floor_bounds_mode p reads stored :
  let floor := Floor.Run p reads in
  let eff := Mode.ResolveEffectiveWithDefaults floor stored in
  floor = default p (last (omap (fun r => match r with Some (v, true) => if Mode.IsValid v then Some v else None | _ => None end) reads))
  /\ Mode.IsValid eff = true
  /\ (Mode.IsValid floor = true -> Mode.AtLeast eff floor = true)
  /\ (Mode.IsValid stored = true -> Mode.AtLeast eff stored = true)
  /\ (Mode.IsValid stored = false -> eff = Mode.ModeEnforce).
Proof.
  cbv zeta. split.
  { unfold Floor.Run. induction reads as [|r reads IH] using rev_ind; [done|].
    rewrite foldl_app, omap_app. cbn [foldl]. rewrite reconcileOnce_floor, IH.
    destruct r as [[v []]|]; [|by rewrite app_nil_r..].
    cbn [omap list_omap]. destruct (Mode.IsValid v); [by rewrite last_snoc|by rewrite app_nil_r]. }
  generalize (Floor.Run p reads) as floor. intros floor.
  pose proof (WithDefaults_Ok floor stored) as E. pose proof E as E2.
  apply ResolveEffective_max in E as (Hv & Hc & Hr). unfold Mode.AtLeast.
  split; [done|]. split; [|split].
  - intros Hf. rewrite Hf in Hr. apply Z.leb_le. lia.
  - intros Hf. rewrite Hf in Hr. apply Z.leb_le. lia.
  - intros Hs. rewrite Hs in Hr, Hc. destruct (Mode.IsValid floor) eqn:Ef.
    + apply IsValid_iff in Ef as [->|[->| ->]]; destruct Hc as [Hc|Hc]; rewrite Hc in *; (done || by vm_compute in Hr).
    + destruct Hc as [Hc|Hc]; rewrite Hc in *; (done || by vm_compute in Hr).
Qed.

(** ** Equal digests mean equal content *)

Section ValueInd.
Variable P : value -> Prop.
Hypotheses (Hnil : P VNil) (Hbool : forall b, P (VBool b)) (Hstr : forall s, P (VString s))
  (Hnum : forall n, P (VNumber n)) (Harr : forall l, Forall P l -> P (VArray l))
  (Hobj : forall m, Forall (fun kv => P kv.2) m -> P (VObject m)) (Hother : forall t, P (VOther t)).

Fixpoint value_nested_ind (v : value) : P v :=
  match v with
  | VNil => Hnil
  | VBool b => Hbool b
  | VString s => Hstr s
  | VNumber n => Hnum n
  | VArray l => Harr l ((fix go l : Forall P l :=
      match l with [] => Forall_nil_2 P | x :: l => Forall_cons_2 P x l (value_nested_ind x) (go l) end) l)
  | VObject m => Hobj m ((fix go m : Forall (fun kv : string * value => P kv.2) m :=
      match m with [] => Forall_nil_2 _ | x :: m => Forall_cons_2 _ x m (value_nested_ind x.2) (go m) end) m)
  | VOther t => Hother t
  end.
End ValueInd.

Definition number_ok (n : number) : Prop := match n with Finite f => float_ok f | NegativeZero => True end.

(** What decoding JSON yields: valid text, finite numbers, one member for a
    key. *)
Inductive decoded : value -> Prop :=
| dec_nil : decoded VNil
| dec_bool b : decoded (VBool b)
| dec_string s : valid_utf8 s = true -> decoded (VString s)
| dec_number n : number_ok n -> decoded (VNumber n)
| dec_array l : Forall decoded l -> decoded (VArray l)
| dec_object m : Forall (fun kv => valid_utf8 kv.1 = true /\ decoded kv.2) m -> NoDup m.*1 -> decoded (VObject m).

(** Equal up to the order of members. *)
Inductive same : value -> value -> Prop :=
| same_nil : same VNil VNil
| same_bool b : same (VBool b) (VBool b)
| same_string s : same (VString s) (VString s)
| same_number n : same (VNumber n) (VNumber n)
| same_array l k : Forall2 same l k -> same (VArray l) (VArray k)
| same_object m k p : m ≡ₚ p -> Forall2 (fun a b => a.1 = b.1 /\ same a.2 b.2) p k -> same (VObject m) (VObject k).

Fixpoint normal (v : value) : nf number :=
  match v with
  | VNil => NNull
  | VBool b => NBool b
  | VString s => NStr (utf8_runes s)
  | VNumber n => NNum n
  | VArray l => NArr (normal <$> l)
  | VObject m => NObj (prod_map utf8_runes id <$> merge_sort key_le ((fun kv => (kv.1, normal kv.2)) <$> m))
  | VOther _ => NNull
  end.

#[local] Instance key_le_total {A} : Total (@key_le A).
Proof. intros a b. unfold key_le. apply total, _. Qed.
#[local] Instance key_le_trans {A} : Transitive (@key_le A).
Proof. intros a b c. unfold key_le. apply transitivity. Qed.

Abbreviation text := (print goNumber goRune).

Lemma decoded_object m kv : decoded (VObject m) -> kv ∈ m -> valid_utf8 kv.1 = true /\ decoded kv.2.
Proof. inversion 1 as [| | | | |? Hm _]; subst. intros Hin. rewrite Forall_forall in Hm. by apply Hm. Qed.

Lemma mapM_Some_fmap {A B} (f : A -> option B) (g : A -> B) l :
  Forall (fun x => f x = Some (g x)) l -> mapM f l = Some (g <$> l).
Proof. induction 1 as [|x l Hx _ IH]; [done|]. cbn. by rewrite Hx, IH. Qed.

Lemma canonicalize_text v : decoded v -> canonicalize v = Some (text (normal v)).
Proof.
  induction v as [|[]|s|n|l IH|m IH|t] using value_nested_ind; intros Hd; [done..| | |by inversion Hd].
  - inversion Hd as [| | | |? Hl|]; subst. cbn.
    rewrite (mapM_Some_fmap canonicalize (fun v => text (normal v))); [cbn; by rewrite <- list_fmap_compose|].
    rewrite Forall_forall in *. auto.
  - cbn. rewrite (mapM_Some_fmap _ (fun kv => (kv.1, text (normal kv.2)))).
    2: { rewrite Forall_forall in *. intros kv Hin. rewrite IH; [done..|]. by eapply decoded_object. }
    cbn. do 3 f_equal. rewrite <- list_fmap_compose.
    replace ((fun kv => (kv.1, text (normal kv.2))) <$> m) with (prod_map id text <$> ((fun kv => (kv.1, normal kv.2)) <$> m))
      by (by rewrite <- list_fmap_compose).
    rewrite (merge_sort_fmap key_le key_le) by done. by rewrite <- list_fmap_compose.
Qed.

Lemma normal_ok v : decoded v -> nf_ok number_ok (normal v).
Proof.
  induction v as [|b|s|n|l IH|m IH|t] using value_nested_ind; intros Hd; cbn.
  - constructor.
  - constructor.
  - constructor. inversion Hd; subst. by apply utf8_runes_range.
  - constructor. by inversion Hd.
  - constructor. inversion Hd as [| | | |? Hl|]; subst. apply Forall_fmap. rewrite Forall_forall in *. cbn. auto.
  - constructor. apply Forall_fmap. rewrite (merge_sort_Permutation key_le). apply Forall_fmap.
    rewrite Forall_forall in *. intros kv Hin. destruct (decoded_object m kv Hd Hin) as [Hk Hv]. cbn.
    split; [by apply utf8_runes_range|auto].
  - constructor.
Qed.

Lemma prod_map_decode_inj {A} (l k : list (string * A)) :
  Forall (fun kv => valid_utf8 kv.1 = true) l -> Forall (fun kv => valid_utf8 kv.1 = true) k ->
  prod_map utf8_runes id <$> l = prod_map utf8_runes id <$> k -> l = k.
Proof.
  intros Hl. revert k. induction Hl as [|[a x] l Ha _ IH]; intros [|[b y] k] Hk E; try done.
  apply Forall_cons in Hk as [Hb Hk]. cbn in *. injection E as E1 -> E3.
  apply utf8_runes_inj in E1; [|done..]. by rewrite E1, (IH k).
Qed.

Lemma members_valid {A} (f : value -> A) m : decoded (VObject m) ->
  Forall (fun kv => valid_utf8 kv.1 = true) (merge_sort key_le ((fun kv => (kv.1, f kv.2)) <$> m)).
Proof.
  intros Hd. rewrite (merge_sort_Permutation key_le). apply Forall_fmap, Forall_forall. intros kv Hin.
  by apply (decoded_object m kv Hd Hin).
Qed.

Lemma normal_same v w : decoded v -> decoded w -> normal v = normal w -> same v w.
Proof.
  revert w. induction v as [|b|s|n|l IH|m IH|t] using value_nested_ind; intros w Hv Hw E;
    destruct w as [|b'|s'|n'|l'|m'|t']; cbn in E; simplify_eq; try (by inversion Hv); try (by inversion Hw); try constructor.
  - inversion Hv; inversion Hw; subst. apply utf8_runes_inj in E as ->; [constructor|done..].
  - inversion Hv as [| | | |? Hl|]; inversion Hw as [| | | |? Hl'|]; subst. clear Hv Hw. revert l' Hl' E.
    induction l as [|x l IHl]; intros [|y k] Hk E; try done; try (by constructor).
    apply Forall_cons in IH as [IHx IH], Hl as [Hx Hl], Hk as [Hy Hk]. injection E as E1 E2. constructor; auto.
  - apply prod_map_decode_inj in E; [|by apply members_valid..].
    assert ((fun kv => (kv.1, normal kv.2)) <$> m ≡ₚ (fun kv => (kv.1, normal kv.2)) <$> m') as Hp.
    { rewrite <- (merge_sort_Permutation key_le (_ <$> m)), E. apply merge_sort_Permutation. }
    symmetry in Hp. apply Permutation_map_inv in Hp as (p & Ep & Hp). econstructor; [exact Hp|].
    rewrite Hp in IH. assert (forall kv, kv ∈ p -> decoded kv.2) as Hd.
    { intros kv Hin. rewrite <- Hp in Hin. by apply (decoded_object m kv Hv Hin). }
    assert (forall kv, kv ∈ m' -> decoded kv.2) as Hd' by (intros kv Hin; by apply (decoded_object m' kv Hw Hin)).
    clear Hv Hw Hp E. revert p Ep IH Hd Hd'. induction m' as [|[k x] m' IHm]; intros [|[k' y] p] Ep IH Hd Hd'; try done; try (by constructor).
    cbn in Ep. injection Ep as <- Ex Ep. apply Forall_cons in IH as [IHx IH]. constructor.
    + split; [done|]. cbn in *. apply IHx; [by apply (Hd (k, y)); left|by apply (Hd' (k, x)); left|done].
    + apply IHm; [done|done|intros kv ?; apply Hd; by right|intros kv ?; apply Hd'; by right].
Qed.

Lemma same_normal v w : decoded v -> same v w -> normal v = normal w.
Proof.
  revert w. induction v as [|b|s|n|l IH|m IH|t] using value_nested_ind; intros w Hv Hs; inversion Hs as [| | | |? ? Hlk|? ? ? Hp Hpk]; subst; [done..| |]; cbn [normal].
  - f_equal. inversion Hv as [| | | |? Hl|]; subst. clear Hv Hs. induction Hlk as [|x y l k Hxy _ IHl]; [done|].
    apply Forall_cons in IH as [IHx IH], Hl as [Hx Hl]. cbn. f_equal; auto.
  - inversion Hv as [| | | | |? Hm Hnd]; subst. rewrite (Jcs.merge_sort_keys key_le _ ((fun kv => (kv.1, normal kv.2)) <$> p)).
    2: { intros [a x] [b y] _ _ H1 H3. cbn in *. by apply (anti_symm String.le). }
    2: { by rewrite Hp. }
    2: { by rewrite <- list_fmap_compose. }
    do 3 f_equal. rewrite Hp in IH, Hm. clear Hv Hs Hnd Hp. induction Hpk as [|x y p k [E Hxy] _ IHm]; [done|].
    apply Forall_cons in IH as [IHx IH], Hm as [[_ Hx] Hm]. cbn. f_equal; [|auto]. rewrite E. f_equal. auto.
Qed.

Lemma goNumber_chars n : number_ok n -> Forall num_char (goNumber n).
Proof.
  destruct n as [f|]; cbn; [apply es6Number_chars|]. intros _. repeat constructor; unfold num_char, digit; lia.
Qed.

Lemma goNumber_prefix n m x y : number_ok n -> number_ok m -> follow x -> follow y ->
  goNumber n ++ x = goNumber m ++ y -> n = m /\ x = y.
Proof.
  assert (forall f, float_ok f -> es6Number f <> [45; 48]%Z) as Hz.
  { intros [|[] d e] Hf E; cbn in *; [done| |].
    - injection E as E. by apply layout_not_zero in E.
    - destruct (layout_head d e Hf) as (c & l & E2 & Hc). rewrite E2 in E. injection E as -> _. unfold digit in Hc. lia. }
  intros Hn Hm Hx Hy E. apply num_chars_prefix in E as [E ->]; [|by apply goNumber_chars..|done|done].
  split; [|done]. destruct n as [f|], m as [g|]; cbn in *; [|by destruct (Hz f)|by destruct (Hz g)|done].
  f_equal. by apply es6Number_inj.
Qed.

Lemma goNumber_head n : number_ok n -> exists c l, goNumber n = c :: l /\ (digit c \/ c = 45%Z).
Proof. destruct n as [f|]; cbn; [apply es6Number_head|]. intros _. eexists _, _. split; [done|by right]. Qed.

Lemma text_inj v w : decoded v -> decoded w -> text (normal v) = text (normal w) -> normal v = normal w.
Proof.
  intros Hv Hw. by apply (print_inj _ _ _ goNumber_prefix goNumber_head goRune_prefix goRune_head); apply normal_ok.
Qed.

(** ** Content and digests *)

Definition content_ok (c : Content) : Prop := valid_utf8 c.(Message) = true /\ decoded c.(Schema).
Definition same_content (c d : Content) : Prop := c.(Message) = d.(Message) /\ same c.(Schema) d.(Schema).

Lemma content_decoded c : content_ok c -> decoded (content_value c).
Proof.
  intros [Hm Hs]. unfold content_value. constructor.
  - repeat constructor; done.
  - cbn. repeat constructor; set_solver.
Qed.

Lemma normal_content c : normal (content_value c) =
  NObj [(runes_of "message", NStr (utf8_runes c.(Message))); (runes_of "schema", normal c.(Schema))].
Proof. done. Qed.

Lemma normal_content_eq c d : content_ok c -> content_ok d ->
  normal (content_value c) = normal (content_value d) <-> same_content c d.
Proof.
  intros [Hm Hs] [Hm' Hs']. rewrite !normal_content. unfold same_content. split.
  - intros [= E1 E2]. split; [by apply utf8_runes_inj|by apply normal_same].
  - intros [E1 E2]. rewrite E1. by rewrite (same_normal _ _ Hs E2).
Qed.

Section DigestExact.
Context `{HashLaws}.

Lemma Digest_Some c : content_ok c -> Digest c = Some (hexEncode (sha256 (text (normal (content_value c))))).
Proof. intros Hc. unfold Digest. by rewrite canonicalize_text by (by apply content_decoded). Qed.

Lemma hex_nonempty t : hexEncode (sha256 t) <> [].
Proof. pose proof (sha256_size t) as Hs. by destruct (sha256 t). Qed.

(** The two contents have different canonical texts with one hash. *)
Definition collide (c d : Content) : Prop :=
  canonicalize (content_value c) <> canonicalize (content_value d) /\ Digest c = Digest d.

Lemma Digest_eq c d : content_ok c -> content_ok d -> Digest c = Digest d -> same_content c d \/ collide c d.
Proof.
  intros Hc Hd E. destruct (decide (canonicalize (content_value c) = canonicalize (content_value d))) as [Et|]; [left|by right].
  apply normal_content_eq; [done..|]. rewrite !canonicalize_text in Et by (by apply content_decoded).
  apply (inj Some) in Et. apply text_inj; [by apply content_decoded..|exact Et].
Qed.

Lemma Digest_same c d : content_ok c -> content_ok d -> same_content c d -> Digest c = Digest d.
Proof. intros Hc Hd Hs. rewrite !Digest_Some by done. by rewrite (proj2 (normal_content_eq c d Hc Hd)). Qed.

(** The same contents with an empty message. *)
Definition blank (c : Content) : Content := mkContent "" c.(Schema).

(** C9. Contents decoded from JSON are equal for the integrity check exactly
    when their messages are the same bytes and their schemas the same value,
    whatever the order of members, unless their own two texts collide under
    SHA-256.  The fields reported as divergent are exactly the ones that
    differ, and none is reported for equal contents. *)
Theorem digest_exact c d : content_ok c -> content_ok d -> ~ collide c d -> ~ collide (blank c) (blank d) ->
  (Equal c d = true <-> same_content c d)
  /\ ("message" ∈ DivergentFields c d <-> c.(Message) <> d.(Message))
  /\ ("schema" ∈ DivergentFields c d <-> ~ same c.(Schema) d.(Schema))
  /\ (DivergentFields c d = [] <-> Equal c d = true).
Proof.
  intros Hc Hd Hno Hnob.
  assert (forall x y, content_ok x -> content_ok y -> ~ collide x y -> Digest x = Digest y <-> same_content x y) as Hx.
  { intros x y Hx Hy Hn. split; [|by apply Digest_same]. intros E. by destruct (Digest_eq x y Hx Hy E). }
  assert (content_ok (blank c) /\ content_ok (blank d)) as [Hc' Hd'] by (destruct Hc, Hd; by split; split).
  pose proof (Hx _ _ Hc Hd Hno) as Hcd. pose proof (Hx _ _ Hc' Hd' Hnob) as Hsd.
  assert (Equal c d = true <-> same_content c d) as Heq.
  { rewrite <- Hcd. unfold Equal. rewrite (Digest_Some c Hc), (Digest_Some d Hd), bool_decide_eq_true. split; congruence. }
  assert (DivergentFields c d = (if decide (c.(Message) = d.(Message)) then [] else ["message"]) ++
    (if decide (Digest (blank c) = Digest (blank d)) then [] else ["schema"])) as ->.
  { unfold DivergentFields. fold (blank c) (blank d). rewrite (Digest_Some _ Hc'), (Digest_Some _ Hd'). f_equal.
    - destruct (String.eqb_spec c.(Message) d.(Message)); by case_decide.
    - case_bool_decide as Hb; case_decide as Hb2; congruence. }
  unfold same_content in *. cbn [Message Schema blank] in *. rewrite Heq.
  destruct (decide (c.(Message) = d.(Message))) as [Em|Em];
    destruct (decide (Digest (blank c) = Digest (blank d))) as [Es|Es];
    cbn [app]; set_solver.
Qed.
End DigestExact.

(** ** The walk *)

(** The ancestors up to the first that stops the walk. *)
Fixpoint route_tail (hops : list Hop) : list Hop :=
  match hops with
  | [] => []
  | h :: hops => h :: if h.(Intercepts) || h.(IsHuman) then [] else route_tail hops
  end.

Definition route (hops : list Hop) : list Hop :=
  match hops with [] => [] | origin :: rest => origin :: route_tail rest end.

Section Walk.
Context `{HashLaws}.

Definition hop_error (in_ : ChainInput) (d : runes) (h : Hop) : option ChainError :=
  match check_hop in_ d h with Err e => Some e | Ok _ => None end.

Definition ends (last_hop : option Hop) : TerminationKind :=
  match last_hop with Some h => if h.(Intercepts) then TerminateIntercept else TerminateHuman | None => TerminateHuman end.

(** The loop reports the first error on the route, or resolves at its end. *)
Lemma walk_loop_eq in_ d tr l hops : walk_loop in_ d tr l hops =
  match head (omap (hop_error in_ d) (route_tail hops)) with
  | Some e => Err e
  | None => Ok (resolved_by (ends (last (route_tail hops))) (default l (last (route_tail hops))) (tr ++ route_tail hops))
  end.
Proof.
  revert tr l. induction hops as [|h hops IH]; intros tr l; cbn [walk_loop route_tail].
  { cbn. by rewrite app_nil_r. }
  unfold hop_error at 1. cbn [omap list_omap]. destruct (check_hop in_ d h) as [[]|e] eqn:Ec; cbn [rbind]; [|done].
  destruct h.(Intercepts) eqn:Ei; cbn [orb]; [cbn; by rewrite ?Ei|].
  destruct h.(IsHuman) eqn:Eh; [cbn; by rewrite ?Ei|]. rewrite IH. unfold hop_error.
  change (list_omap Hop ChainError ?f ?l) with (omap f l).
  destruct (head _); [done|]. rewrite <- app_assoc. cbn [app].
  destruct (route_tail hops) as [|h' k]; [cbn; by rewrite Ei|]. rewrite last_cons_cons.
  destruct (last (h' :: k)) eqn:El; [done|by apply last_None in El].
Qed.

Lemma check_hop_None in_ d h : in_.(ForwardedContent) = None -> check_hop in_ d h = Ok ().
Proof. intros E. unfold check_hop. by rewrite E. Qed.

Lemma omap_nil {A B} (f : A -> option B) l : omap f l = [] <-> Forall (fun x => f x = None) l.
Proof.
  induction l as [|x l IH]; [done|]. rewrite Forall_cons, <- IH. cbn [omap list_omap].
  destruct (f x) eqn:E; naive_solver.
Qed.

(** A hop sent on nothing, or the original content. *)
Definition faithful (in_ : ChainInput) (h : Hop) : Prop :=
  forall c, in_.(ForwardedContent) ≫= (fun f => f h) = Some c -> Digest c = Digest in_.(OriginalContent).

Lemma hop_error_None in_ d h : Digest in_.(OriginalContent) = Some d -> hop_error in_ d h = None <-> faithful in_ h.
Proof.
  intros Hd. unfold hop_error, check_hop, faithful. rewrite Hd.
  assert (d <> []) as Hne. { unfold Digest in Hd. apply fmap_Some in Hd as (t & _ & ->). apply hex_nonempty. }
  destruct (in_.(ForwardedContent) ≫= _) as [c|]; [|naive_solver].
  unfold VerifyContent. rewrite bool_decide_false by done. destruct (Digest c) as [got|] eqn:Ec; [|naive_solver].
  case_bool_decide; subst; naive_solver.
Qed.

(** A walk that is not suppressed, for content with a digest. *)
Lemma WalkChain_eq in_ origin rest d : in_.(InHops) = origin :: rest ->
  Depth.ShouldSuppress (depth_policy in_).1 in_.(Initiator) origin.(HopDepth) (depth_policy in_).2 = false ->
  Digest in_.(OriginalContent) = Some d ->
  WalkChain in_ = match head (omap (hop_error in_ d) (route_tail rest)) with
  | Some e => Err e
  | None => Ok (resolved_by (ends (last (route_tail rest))) (default origin (last (route_tail rest))) (origin :: route_tail rest))
  end.
Proof.
  intros Eh Es Ed. unfold WalkChain. rewrite Eh. destruct (depth_policy in_) as [policy at_]. cbn [fst snd] in Es.
  rewrite Es, Ed. destruct rest as [|h rest]; [done|]. by rewrite walk_loop_eq.
Qed.
End Walk.

(** ** Hosts *)

Section Hosts.
Context `{Urls}.

Lemma host_matches_spec host pat : host_matches host pat = true <->
  (~ (exists d, pat = "*." +:+ d) /\ host = pat) \/ exists d p, pat = "*." +:+ d /\ p <> "" /\ host = p +:+ "." +:+ d.
Proof.
  unfold host_matches. destruct (cut_prefix "*." pat) as [rest|] eqn:E.
  - apply cut_prefix_Some in E as ->. cbv zeta. rewrite andb_true_iff, has_suffix_spec, Nat.ltb_lt. split.
    + intros [[p ->] Hl]. right. exists rest, p. split; [done|]. split; [|done]. intros ->. rewrite append_nil_l in Hl. lia.
    + intros [[Hn _]|(d & p & Ed & Hp & ->)]; [by destruct Hn; exists rest|]. apply append_cancel in Ed as ->.
      split; [by exists p|]. rewrite (append_length p). destruct p; [done|]. cbn [String.length]. lia.
  - assert (~ exists d, pat = "*." +:+ d) as Hn.
    { intros [d Hd]. apply cut_prefix_Some in Hd. congruence. }
    rewrite String.eqb_eq. split; [by left|]. intros [[_ ?]|(d & p & -> & _)]; [done|]. destruct Hn. by exists d.
Qed.

(** A prompt that carries a URL and was raised by an agent passes exactly
    when the URL is absolute http or https with a host, the pool permits such
    prompts, and the host is an entry of the pool's list or a proper subdomain
    of a wildcard entry; every refusal names the host and the list. *)
Theorem agent_url_boundary initiator rawURL domain allow : initiator <> Depth.InitiatorConnector -> rawURL <> "" ->
  (CheckURLModeProvenance initiator rawURL domain allow = Ok () <->
    exists host, effectiveHost rawURL = Ok host /\ allow.(Enabled) = true /\
      exists pat, pat ∈ nonEmptyEntries allow /\
        ((~ (exists d, pat = "*." +:+ d) /\ host = pat) \/
         exists d p, pat = "*." +:+ d /\ p <> "" /\ host = p +:+ "." +:+ d))
  /\ (forall rej, CheckURLModeProvenance initiator rawURL domain allow = Err rej ->
        rej.(RejHost) = match effectiveHost rawURL with Ok host => host | Err _ => "" end /\
        (rej.(RejReason) = URLModeRejectNotAllowlisted <-> rej.(RejAllowlist) <> []) /\
        (rej.(RejAllowlist) = [] \/ rej.(RejAllowlist) = nonEmptyEntries allow)).
Proof.
  intros Hi Hu. unfold CheckURLModeProvenance. rewrite is_empty_false by done.
  destruct (effectiveHost rawURL) as [host|e]; [|split; [naive_solver|intros rej [= <-]; naive_solver]].
  destruct (String.eqb_spec initiator Depth.InitiatorConnector); [done|].
  destruct allow.(Enabled); cbn [negb]; [|split; [naive_solver|intros rej [= <-]; naive_solver]].
  case_bool_decide as He.
  { rewrite He. split; [set_solver|intros rej [= <-]; naive_solver]. }
  assert (hostMatchesAllowlist host (nonEmptyEntries allow) = true <-> exists pat, pat ∈ nonEmptyEntries allow /\ host_matches host pat = true) as Hm.
  { unfold hostMatchesAllowlist. rewrite existsb_exists. setoid_rewrite <- list_elem_of_In. done. }
  setoid_rewrite host_matches_spec in Hm. destruct (hostMatchesAllowlist host (nonEmptyEntries allow)); cbn [negb].
  - split; [|done]. split; [|done]. intros _. exists host. split; [done|]. split; [done|]. by apply Hm.
  - split; [|intros rej [= <-]; naive_solver]. split; [done|]. intros (h & [= <-] & _ & Hp). by apply Hm in Hp.
Qed.
End Hosts.

(** ** Examples *)

Module Demo.
(** The first 32 characters, padded: a stand-in for a digest of 32 bytes. *)
#[export] Instance hashes : Hashes := {| sha256 t := take 32 (((fun c => c mod 256)%Z <$> t) ++ replicate 32 0%Z) |}.
#[export] Instance hash_laws : HashLaws.
Proof.
  split; intros t; unfold sha256, hashes.
  - apply Forall_take, Forall_app. split; [apply Forall_fmap, Forall_true; intros c; apply Z.mod_pos_bound; lia|].
    apply Forall_replicate. lia.
  - rewrite length_take, length_app, length_replicate. lia.
Qed.

(** [scheme://host/...] in lower case. *)
#[export] Instance urls : Urls := {|
  url_parse s := match cut "://" s with
                 | Some (scheme, rest) => Some (scheme, match cut "/" rest with Some (h, _) => h | None => rest end)
                 | None => None
                 end;
  to_lower s := s |}.

(** [{"type":"object","n":1}] with its members in both orders. *)
Definition schema (swap : bool) : value :=
  let a := ("n", VNumber (Finite (FSci false [49%Z] 0))) in let b := ("type", VString "object") in
  VObject (if swap then [b; a] else [a; b]).
Definition content (swap : bool) : Content := mkContent "ok?" (schema swap).

Lemma content_ok swap : Elicitation.content_ok (content swap).
Proof.
  assert (decoded (VNumber (Finite (FSci false [49%Z] 0)))) as Hn.
  { constructor. split; [repeat constructor; unfold digit; lia|split; exists 49%Z; done]. }
  assert (decoded (VString "object")) as Hs by (by constructor).
  split; [done|]. destruct swap; (constructor; [|cbn; repeat constructor; set_solver]);
    repeat (apply Forall_cons; split; [split; [done|assumption]|]); constructor.
Qed.
End Demo.

Import Demo.

Lemma digest_exact_witness : Equal (Demo.content false) (Demo.content true) = true /\
  (Equal (Demo.content false) (Demo.content true) = true <-> same_content (Demo.content false) (Demo.content true)).
Proof.
  split; [vm_compute; reflexivity|].
  apply (digest_exact (Demo.content false) (Demo.content true)); [apply Demo.content_ok|apply Demo.content_ok| |];
    intros [H _]; apply H; vm_compute; reflexivity.
Defined.

Lemma agent_url_boundary_witness :
  let allow := mkAllowlist true ["*.example.com"] in
  CheckURLModeProvenance Depth.InitiatorAgent "https://login.example.com/x" "" allow = Ok () /\
  exists host, effectiveHost "https://login.example.com/x" = Ok host.
Proof.
  split; [vm_compute; reflexivity|].
  assert (CheckURLModeProvenance Depth.InitiatorAgent "https://login.example.com/x" "" (mkAllowlist true ["*.example.com"]) = Ok ())
    as E by (vm_compute; reflexivity).
  apply (agent_url_boundary Depth.InitiatorAgent "https://login.example.com/x" "" (mkAllowlist true ["*.example.com"])) in E;
    [|discriminate|discriminate].
  destruct E as (host & Hh & _). exists host. exact Hh.
Defined.
