(* ===== verification/Interactions.v ===== *)
(** * Interactions: prompts and approvals that wait for a user

    [gateway/session/interactionstore] and its Postgres store: what a runtime
    asks a user and the user's answer, keyed by tenant, session and id.

    Both stores implement the class [InteractionStore]; [InteractionLaws] is
    what callers rely on, stated on the map from slots to interactions that a
    store holds.  A Postgres call can be refused, fail before its commit, or
    lose the acknowledgement of a commit that did or did not take effect. *)

From S2P Require Import Prelude Text Elicitation IssuedTokens Idempotency.

Definition KindToolUse : string := "tool_use".
Definition KindElicitation : string := "elicitation".

Definition PhasePending : string := "pending".
Definition PhaseApproved : string := "approved".
Definition PhaseDenied : string := "denied".
Definition PhaseResponded : string := "responded".
Definition PhaseDismissed : string := "dismissed".

(** The key under which a request records the session that raised it. *)
Definition DetailOriginPod : string := "originPod".

Record Interaction := mkInteraction {
  IID : string; IKind : string; ISession : string; ITenant : string; IUser : string; IPhase : string;
  IDetail : gmap string value; IResponse : value; IReason : string; ICreatedAt : Time; IResolvedAt : Time }.

Definition with_phase (p : string) (i : Interaction) : Interaction :=
  mkInteraction i.(IID) i.(IKind) i.(ISession) i.(ITenant) i.(IUser) p i.(IDetail) i.(IResponse) i.(IReason)
    i.(ICreatedAt) i.(IResolvedAt).
Definition with_created (t : Time) (i : Interaction) : Interaction :=
  mkInteraction i.(IID) i.(IKind) i.(ISession) i.(ITenant) i.(IUser) i.(IPhase) i.(IDetail) i.(IResponse) i.(IReason)
    t i.(IResolvedAt).
Definition with_resolved (t : Time) (i : Interaction) : Interaction :=
  mkInteraction i.(IID) i.(IKind) i.(ISession) i.(ITenant) i.(IUser) i.(IPhase) i.(IDetail) i.(IResponse) i.(IReason)
    i.(ICreatedAt) t.
(** The fields a resolution sets. *)
Definition with_answer (p : string) (response : value) (reason : string) (i : Interaction) : Interaction :=
  mkInteraction i.(IID) i.(IKind) i.(ISession) i.(ITenant) i.(IUser) p i.(IDetail) response reason
    i.(ICreatedAt) i.(IResolvedAt).

Inductive IErr := ErrNotFound | ErrAlreadyResolved | ErrEncode | ErrTenantID | ErrDb.

(** One call: whether its context is done, what the connection does, the
    clock. *)
Record ICall := mkICall { icancelled : bool; iconn : Conn; inow : Time }.

Abbreviation ISlot := (string * string * string)%type.
Definition slot (i : Interaction) : ISlot := (i.(ITenant), i.(ISession), i.(IID)).

(** The type assertion on the recorded origin: empty for any other type. *)
Definition origin_of (d : gmap string value) : string :=
  match d !! DetailOriginPod with Some (VString s) => s | _ => "" end.

(** The rows the bulk operations select. *)
Definition directed_at (tenantID userID : string) (i : Interaction) : bool :=
  String.eqb i.(ITenant) tenantID && String.eqb i.(IUser) userID.
Definition dismissible (tenantID userID : string) (i : Interaction) : bool :=
  directed_at tenantID userID i && String.eqb i.(IKind) KindElicitation && String.eqb i.(IPhase) PhasePending.
Definition raised_by (tenantID originSessionID : string) (i : Interaction) : bool :=
  String.eqb i.(ITenant) tenantID && String.eqb i.(IKind) KindElicitation && String.eqb i.(IPhase) PhasePending
  && String.eqb (origin_of i.(IDetail)) originSessionID && negb (is_empty (origin_of i.(IDetail))).
Definition elicitation_of (tenantID sessionID : string) (i : Interaction) : bool :=
  String.eqb i.(ITenant) tenantID && String.eqb i.(ISession) sessionID && String.eqb i.(IKind) KindElicitation.
Definition pending_of (tenantID sessionID : string) (i : Interaction) : bool :=
  String.eqb i.(ITenant) tenantID && String.eqb i.(ISession) sessionID && String.eqb i.(IPhase) PhasePending.

(** ** The contract *)

Abbreviation Mutate := (Interaction -> result IErr Interaction).

Class InteractionStore (S : Type) := {
  Put : ICall -> S -> Interaction -> S * option IErr;
  Get : ICall -> S -> string -> string -> string -> string -> result IErr Interaction;
  Resolve : ICall -> S -> string -> string -> string -> string -> Mutate -> S * result IErr Interaction;
  CountElicitations : ICall -> S -> string -> string -> result IErr Z;
  ListPending : ICall -> S -> string -> string -> result IErr (list Interaction);
  DeleteByUser : ICall -> S -> string -> string -> S * result IErr Z;
  DeleteByTenant : ICall -> S -> string -> S * result IErr Z;
  DismissByUser : ICall -> S -> string -> string -> S * result IErr Z;
  ExpireRaisedBy : ICall -> S -> string -> string -> S * result IErr Z }.

(** Rows of a map that satisfy a test, removing them, and how many they are. *)
Definition select {K} `{Countable K} (p : Interaction -> bool) (m : gmap K Interaction) : gmap K Interaction :=
  filter (fun kv => p kv.2 = true) m.
Definition drop_rows {K} `{Countable K} (p : Interaction -> bool) (m : gmap K Interaction) : gmap K Interaction :=
  filter (fun kv => p kv.2 = false) m.
Definition count_rows {K} `{Countable K} (p : Interaction -> bool) (m : gmap K Interaction) : Z :=
  Z.of_nat (size (select p m)).
Definition update_rows {K} `{Countable K} (p : Interaction -> bool) (f : Interaction -> Interaction)
    (m : gmap K Interaction) : gmap K Interaction :=
  (fun i => if p i then f i else i) <$> m.

Definition created_le (a b : Interaction) : Prop := (a.(ICreatedAt) <= b.(ICreatedAt))%Z.
#[export] Instance created_le_dec : RelDecision created_le.
Proof. intros a b. unfold created_le. apply _. Defined.

(** Defaults a new interaction gets. *)
Definition put_defaults (now : Time) (i : Interaction) : Interaction :=
  let i := if is_empty i.(IPhase) then with_phase PhasePending i else i in
  if time_is_zero i.(ICreatedAt) then with_created now i else i.

(** ** In memory *)

Module Mem.
(** The mutex makes each call one step; the map is keyed by the joined text. *)
Abbreviation Memory := (gmap string Interaction).
Definition NewMemory : Memory := ∅.

Definition key (tenantID sessionID id : string) : string := tenantID +:+ "/" +:+ sessionID +:+ "/" +:+ id.

Definition Put (c : ICall) (m : Memory) (i : Interaction) : Memory * option IErr :=
  let i := put_defaults c.(inow) i in
  (<[key i.(ITenant) i.(ISession) i.(IID) := i]> m, None).

Definition Get (c : ICall) (m : Memory) (tenantID sessionID userID id : string) : result IErr Interaction :=
  match m !! key tenantID sessionID id with
  | Some i => if negb (String.eqb i.(IUser) userID) then Err ErrNotFound else Ok i
  | None => Err ErrNotFound
  end.

Definition Resolve (c : ICall) (m : Memory) (tenantID sessionID userID id : string) (mutate : Mutate)
    : Memory * result IErr Interaction :=
  let k := key tenantID sessionID id in
  match m !! k with
  | None => (m, Err ErrNotFound)
  | Some i =>
      if negb (String.eqb i.(IUser) userID) then (m, Err ErrNotFound)
      else if negb (String.eqb i.(IPhase) PhasePending) then (m, Err ErrAlreadyResolved)
      else match mutate i with
           | Err e => (m, Err e)
           | Ok i => let i := with_resolved c.(inow) i in (<[k := i]> m, Ok i)
           end
  end.

Definition CountElicitations (c : ICall) (m : Memory) (tenantID sessionID : string) : result IErr Z :=
  Ok (count_rows (elicitation_of tenantID sessionID) m).

(** The loop collects in the order of the map, then sorts by age. *)
Definition ListPending (c : ICall) (m : Memory) (tenantID sessionID : string) : result IErr (list Interaction) :=
  Ok (merge_sort created_le (map_to_list (select (pending_of tenantID sessionID) m)).*2).

Definition DeleteByUser (c : ICall) (m : Memory) (tenantID userID : string) : Memory * result IErr Z :=
  let p := directed_at tenantID userID in (drop_rows p m, Ok (count_rows p m)).

Definition DeleteByTenant (c : ICall) (m : Memory) (tenantID : string) : Memory * result IErr Z :=
  let p := fun i => String.eqb i.(ITenant) tenantID in (drop_rows p m, Ok (count_rows p m)).

Definition DismissByUser (c : ICall) (m : Memory) (tenantID userID : string) : Memory * result IErr Z :=
  let p := dismissible tenantID userID in
  (update_rows p (fun i => with_resolved c.(inow) (with_phase PhaseDismissed i)) m, Ok (count_rows p m)).

Definition ExpireRaisedBy (c : ICall) (m : Memory) (tenantID originSessionID : string) : Memory * result IErr Z :=
  let p := raised_by tenantID originSessionID in (drop_rows p m, Ok (count_rows p m)).

#[global] Instance store : InteractionStore Memory := {
  Interactions.Put := Put; Interactions.Get := Get; Interactions.Resolve := Resolve;
  Interactions.CountElicitations := CountElicitations; Interactions.ListPending := ListPending;
  Interactions.DeleteByUser := DeleteByUser; Interactions.DeleteByTenant := DeleteByTenant;
  Interactions.DismissByUser := DismissByUser; Interactions.ExpireRaisedBy := ExpireRaisedBy }.
End Mem.

(** ** In Postgres *)

(** Writing a value to a [jsonb] column and reading it back, [None] for a
    value that [json.Marshal] or the column refuses; the text [->>] gives for a
    member.  A JSON string keeps its characters. *)
Class Jsonb := {
  jsonb : value -> option value;
  jsonb_text : value -> option string;
  jsonb_string : forall s v, valid_utf8 s = true -> jsonb (VString s) = Some v -> v = VString s;
  jsonb_text_string : forall s, jsonb_text (VString s) = Some s }.

Module Pgx.
Section Store.
Context `{Jsonb}.

(** The table [interactions] and the tenants its rows may refer to. *)
Record Store := mkPgStore { tenants : gset string; rows : gmap ISlot Interaction }.

(** [pgtenant.InTx] around one statement, or a read and a write. *)
Definition InTx {A} (c : ICall) (tenantID : string) (fn : gmap ISlot Interaction -> result IErr (gmap ISlot Interaction * A))
    (s : Store) : Store * result IErr A :=
  if bool_decide (tenantID = AllTenantsSentinel) || bool_decide (tenantID = "__unset__")
     || negb (tenantIDPattern tenantID) then (s, Err ErrTenantID)
  else if c.(icancelled) then (s, Err ErrDb)
  else match c.(iconn) with
       | ConnAbort => (s, Err ErrDb)
       | ConnOk => match fn (rows s) with
                   | Ok (t, a) => (mkPgStore (tenants s) t, Ok a)
                   | Err e => (s, Err e)
                   end
       | ConnCommit durable =>
           match fn (rows s) with
           | Ok (t, _) => (if durable then mkPgStore (tenants s) t else s, Err ErrDb)
           | Err e => (s, Err e)
           end
       end.

(** [encodeDetail] with [scanInteraction]: an empty map becomes NULL and comes
    back empty; every member must encode. *)
Definition encodeDetail (d : gmap string value) : option (gmap string value) :=
  if bool_decide (map_Forall (fun _ v => is_Some (jsonb v)) d) then Some (omap jsonb d) else None.

Definition encodeResponse (v : value) : option value :=
  match v with VNil => Some VNil | _ => jsonb v end.

Definition text_columns (l : list string) : bool := forallb Pg.text_ok l.

(** The rows of the tenant, which is what the row-level policy shows. *)
Definition of_tenant (tenantID : string) (i : Interaction) : bool := String.eqb i.(ITenant) tenantID.

(** The row an insert or update stores. *)
Definition stored_row (i : Interaction) (detail : gmap string value) (response : value) : Interaction :=
  mkInteraction i.(IID) i.(IKind) i.(ISession) i.(ITenant) i.(IUser) i.(IPhase) detail response i.(IReason)
    (Pg.timestamptz i.(ICreatedAt)) (Pg.timestamptz i.(IResolvedAt)).

Definition Put (c : ICall) (s : Store) (i : Interaction) : Store * option IErr :=
  let i := put_defaults c.(inow) i in
  match encodeDetail i.(IDetail), encodeResponse i.(IResponse) with
  | Some detail, Some response =>
      let out := InTx c i.(ITenant) (fun t =>
          if bool_decide (i.(ITenant) ∈ tenants s)
             && text_columns [i.(ISession); i.(IID); i.(IKind); i.(IUser); i.(IPhase); i.(IReason)]
          then Ok (<[slot i := stored_row i detail response]> t, tt) else Err ErrDb) s in
      (out.1, match out.2 with Ok _ => None | Err e => Some e end)
  | _, _ => (s, Some ErrEncode)
  end.

(** The SELECT by primary key and user; [scanInteraction] has nothing to
    decode that it did not encode. *)
Definition select_row (t : gmap ISlot Interaction) (tenantID sessionID userID id : string) : result IErr Interaction :=
  if text_columns [sessionID; id; userID]
  then match t !! (tenantID, sessionID, id) with
       | Some i => if String.eqb i.(IUser) userID then Ok i else Err ErrNotFound
       | None => Err ErrNotFound
       end
  else Err ErrDb.

Definition Get (c : ICall) (s : Store) (tenantID sessionID userID id : string) : result IErr Interaction :=
  (InTx c tenantID (fun t => let* i := select_row t tenantID sessionID userID id in Ok (t, i)) s).2.

Definition Resolve (c : ICall) (s : Store) (tenantID sessionID userID id : string) (mutate : Mutate)
    : Store * result IErr Interaction :=
  InTx c tenantID (fun t =>
    let* i := select_row t tenantID sessionID userID id in
    if negb (String.eqb i.(IPhase) PhasePending) then Err ErrAlreadyResolved
    else let* i := mutate i in
         let i := with_resolved (Pg.timestamptz c.(inow)) i in
         match encodeDetail i.(IDetail), encodeResponse i.(IResponse) with
         | Some detail, Some response =>
             if text_columns [i.(IKind); i.(IPhase); i.(IReason)]
             then Ok (alter (fun old => mkInteraction old.(IID) i.(IKind) old.(ISession) old.(ITenant) old.(IUser)
                                 i.(IPhase) detail response i.(IReason) old.(ICreatedAt) i.(IResolvedAt))
                        (tenantID, sessionID, id) t, i)
             else Err ErrDb
         | _, _ => Err ErrEncode
         end) s.

Definition CountElicitations (c : ICall) (s : Store) (tenantID sessionID : string) : result IErr Z :=
  (InTx c tenantID (fun t =>
     if Pg.text_ok sessionID then Ok (t, count_rows (elicitation_of tenantID sessionID) t) else Err ErrDb) s).2.

(** ORDER BY leaves rows of one instant in any order; this is one of them. *)
Definition ListPending (c : ICall) (s : Store) (tenantID sessionID : string) : result IErr (list Interaction) :=
  (InTx c tenantID (fun t =>
     if Pg.text_ok sessionID
     then Ok (t, merge_sort created_le (map_to_list (select (pending_of tenantID sessionID) t)).*2) else Err ErrDb) s).2.

Definition delete_where (p : Interaction -> bool) (t : gmap ISlot Interaction) : result IErr (gmap ISlot Interaction * Z) :=
  Ok (drop_rows p t, count_rows p t).

Definition DeleteByUser (c : ICall) (s : Store) (tenantID userID : string) : Store * result IErr Z :=
  InTx c tenantID (fun t => if Pg.text_ok userID then delete_where (directed_at tenantID userID) t else Err ErrDb) s.

Definition DeleteByTenant (c : ICall) (s : Store) (tenantID : string) : Store * result IErr Z :=
  InTx c tenantID (delete_where (of_tenant tenantID)) s.

Definition DismissByUser (c : ICall) (s : Store) (tenantID userID : string) : Store * result IErr Z :=
  let p := dismissible tenantID userID in
  InTx c tenantID (fun t =>
    if Pg.text_ok userID
    then Ok (update_rows p (fun i => with_resolved (Pg.timestamptz c.(inow)) (with_phase PhaseDismissed i)) t, count_rows p t)
    else Err ErrDb) s.

(** [detail->>'originPod' = $2]. *)
Definition origin_is (originSessionID : string) (d : gmap string value) : bool :=
  match d !! DetailOriginPod with
  | Some v => bool_decide (jsonb_text v = Some originSessionID)
  | None => false
  end.

Definition expired_by (tenantID originSessionID : string) (i : Interaction) : bool :=
  String.eqb i.(ITenant) tenantID && String.eqb i.(IKind) KindElicitation && String.eqb i.(IPhase) PhasePending
  && origin_is originSessionID i.(IDetail).

Definition ExpireRaisedBy (c : ICall) (s : Store) (tenantID originSessionID : string) : Store * result IErr Z :=
  if is_empty originSessionID then (s, Ok 0%Z)
  else InTx c tenantID (fun t =>
    if Pg.text_ok originSessionID then delete_where (expired_by tenantID originSessionID) t else Err ErrDb) s.
End Store.
#[global] Arguments Store : clear implicits.

#[global] Instance store `{Jsonb} : InteractionStore Store := {
  Interactions.Put := Put; Interactions.Get := Get; Interactions.Resolve := Resolve;
  Interactions.CountElicitations := CountElicitations; Interactions.ListPending := ListPending;
  Interactions.DeleteByUser := DeleteByUser; Interactions.DeleteByTenant := DeleteByTenant;
  Interactions.DismissByUser := DismissByUser; Interactions.ExpireRaisedBy := ExpireRaisedBy }.
End Pgx.

(** ** What callers rely on *)

(** The row written for [i]. *)
Definition recorded (i i' : Interaction) : Prop :=
  slot i' = slot i /\ i'.(IKind) = i.(IKind) /\ i'.(IUser) = i.(IUser) /\ i'.(IReason) = i.(IReason) /\
  i'.(IPhase) = (if is_empty i.(IPhase) then PhasePending else i.(IPhase)) /\
  (forall o, i.(IDetail) !! DetailOriginPod = Some (VString o) -> valid_utf8 o = true ->
     i'.(IDetail) !! DetailOriginPod = Some (VString o)).

(** A resolution may not move a row or give it to another user. *)
Definition keeps_owner (f : Mutate) : Prop :=
  forall i i', f i = Ok i' -> slot i' = slot i /\ i'.(IUser) = i.(IUser).

(** What a resolution wrote: phase, kind and reason as [f] left them. *)
Definition resolved_as (i i' : Interaction) : Prop :=
  slot i' = slot i /\ i'.(IUser) = i.(IUser) /\ i'.(IKind) = i.(IKind) /\ i'.(IPhase) = i.(IPhase) /\ i'.(IReason) = i.(IReason).

Definition failed {A} (r : result IErr A) : Prop := exists e, r = Err e.

Class InteractionLaws (S : Type) `{InteractionStore S} := {
  (** The rows a store holds, and the slots it can tell apart. *)
  represents : S -> gmap ISlot Interaction -> Prop;
  slot_ok : ISlot -> Prop;
  represents_slot s m k i : represents s m -> m !! k = Some i -> slot i = k;
  put_law c s m i s' r : represents s m -> slot_ok (slot i) -> Put c s i = (s', r) ->
    exists m', represents s' m' /\
      ((m' = m /\ r <> None) \/ exists i', recorded i i' /\ m' = <[slot i := i']> m);
  get_law c s m t se u id i : represents s m -> slot_ok (t, se, id) -> Get c s t se u id = Ok i ->
    m !! (t, se, id) = Some i /\ i.(IUser) = u;
  resolve_law c s m t se u id f s' r : represents s m -> slot_ok (t, se, id) -> keeps_owner f ->
    Resolve c s t se u id f = (s', r) ->
    exists m', represents s' m' /\
      ((m' = m /\ failed r) \/
       exists i i1 i2, m !! (t, se, id) = Some i /\ i.(IUser) = u /\ i.(IPhase) = PhasePending /\ f i = Ok i1 /\
         resolved_as i1 i2 /\ m' = <[(t, se, id) := i2]> m /\ (r = Err ErrDb \/ exists out, r = Ok out /\ resolved_as i1 out));
  resolve_errors c s m t se u id f s' e : represents s m -> slot_ok (t, se, id) -> Resolve c s t se u id f = (s', Err e) ->
    (e = ErrAlreadyResolved -> (exists i, m !! (t, se, id) = Some i /\ i.(IUser) = u /\ i.(IPhase) <> PhasePending) \/
       exists i, f i = Err ErrAlreadyResolved) /\
    (e = ErrNotFound -> (forall i, m !! (t, se, id) = Some i -> i.(IUser) <> u) \/
       exists i, m !! (t, se, id) = Some i /\ f i = Err ErrNotFound);
  count_law c s m t se n : represents s m -> CountElicitations c s t se = Ok n -> n = count_rows (elicitation_of t se) m;
  delete_user_law c s m t u s' r : represents s m -> DeleteByUser c s t u = (s', r) ->
    exists m', represents s' m' /\ ((m' = m /\ failed r) \/ m' = drop_rows (directed_at t u) m);
  delete_tenant_law c s m t s' r : represents s m -> DeleteByTenant c s t = (s', r) ->
    exists m', represents s' m' /\ ((m' = m /\ failed r) \/ m' = drop_rows (fun i => String.eqb i.(ITenant) t) m);
  dismiss_law c s m t u s' r : represents s m -> DismissByUser c s t u = (s', r) ->
    exists m', represents s' m' /\
      ((m' = m /\ failed r) \/
       exists at_, m' = update_rows (dismissible t u) (fun i => with_resolved at_ (with_phase PhaseDismissed i)) m);
  expire_law c s m t o s' r : represents s m -> ExpireRaisedBy c s t o = (s', r) ->
    exists m' p, represents s' m' /\ ((m' = m /\ (failed r \/ o = "")) \/ m' = drop_rows p m) /\
      (forall i, p i = true -> i.(ITenant) = t /\ i.(IKind) = KindElicitation /\ i.(IPhase) = PhasePending) /\
      (forall i x, i.(IDetail) !! DetailOriginPod = Some (VString x) -> o <> "" -> p i = raised_by t o i) }.

(** ** Postgres keeps the contract *)

Definition keyed (m : gmap ISlot Interaction) : Prop := forall k i, m !! k = Some i -> slot i = k.

Lemma keyed_insert m k i : keyed m -> slot i = k -> keyed (<[k := i]> m).
Proof. intros Hm <- k' j. rewrite lookup_insert_Some. intros [[<- <-]|[_ Hj]]; [done|by apply Hm]. Qed.

Lemma keyed_drop p m : keyed m -> keyed (drop_rows p m).
Proof. intros Hm k i. unfold drop_rows. rewrite map_lookup_filter_Some. intros [Hi _]. by apply Hm. Qed.

Lemma keyed_update p f m : keyed m -> (forall i, slot (f i) = slot i) -> keyed (update_rows p f m).
Proof.
  intros Hm Hf k i. unfold update_rows. rewrite lookup_fmap. intros (j & Hj & ->)%fmap_Some.
  destruct (p j); [rewrite Hf|]; by apply Hm.
Qed.

Lemma put_defaults_fields now i : let i' := put_defaults now i in
  slot i' = slot i /\ i'.(IKind) = i.(IKind) /\ i'.(IUser) = i.(IUser) /\ i'.(IReason) = i.(IReason) /\
  i'.(IPhase) = (if is_empty i.(IPhase) then PhasePending else i.(IPhase)) /\ i'.(IDetail) = i.(IDetail) /\
  i'.(IResponse) = i.(IResponse).
Proof. unfold put_defaults. cbv zeta. destruct (is_empty i.(IPhase)); by destruct (time_is_zero _). Qed.

Section PgLaws.
Context `{Jsonb}.

Lemma pg_InTx_inv {A} (c : ICall) (t : string) fn (s s' : Pgx.Store) (r : result IErr A) : Pgx.InTx c t fn s = (s', r) ->
  (s' = s /\ failed r) \/
  exists m a, fn (Pgx.rows s) = Ok (m, a) /\ s' = Pgx.mkPgStore (Pgx.tenants s) m /\ (r = Ok a \/ r = Err ErrDb).
Proof.
  unfold Pgx.InTx, failed. destruct (_ || _); [intros [= <- <-]; by eauto|].
  destruct (icancelled c); [intros [= <- <-]; by eauto|].
  destruct (iconn c) as [| |[]]; [|intros [= <- <-]; by eauto|..]; destruct (fn (Pgx.rows s)) as [[m a]|e];
    intros [= <- <-]; eauto 8.
Qed.

Lemma pg_InTx_err {A} (c : ICall) (t : string) fn (s s' : Pgx.Store) (e : IErr) : Pgx.InTx (A := A) c t fn s = (s', Err e) ->
  e = ErrTenantID \/ e = ErrDb \/ fn (Pgx.rows s) = Err e.
Proof.
  unfold Pgx.InTx. destruct (_ || _); [intros [= _ <-]; by left|].
  destruct (icancelled c); [intros [= _ <-]; by eauto|].
  destruct (iconn c) as [| |d]; [|intros [= _ <-]; by eauto|]; destruct (fn (Pgx.rows s)) as [[m a]|e']; intros [= _ <-]; eauto.
Qed.

Definition pg_represents (s : Pgx.Store) (m : gmap ISlot Interaction) : Prop := Pgx.rows s = m /\ keyed m.

Lemma pg_bulk {A} (c : ICall) (t : string) (fn : gmap ISlot Interaction -> result IErr (gmap ISlot Interaction * A))
    (g : gmap ISlot Interaction -> gmap ISlot Interaction) (s : Pgx.Store) (m : gmap ISlot Interaction)
    (s' : Pgx.Store) (r : result IErr A) :
  pg_represents s m -> keyed (g m) -> (forall m' a, fn m = Ok (m', a) -> m' = g m) -> Pgx.InTx c t fn s = (s', r) ->
  exists m', pg_represents s' m' /\ ((m' = m /\ failed r) \/ m' = g m).
Proof.
  intros [Hr Hk] Hg Hfn [[-> Hf]|(m' & a & Hm & -> & _)]%pg_InTx_inv; [exists m; split; [done|by left]|].
  rewrite Hr in Hm. apply Hfn in Hm as ->. exists (g m). split; [done|by right].
Qed.

Lemma encodeDetail_origin d d' : Pgx.encodeDetail d = Some d' ->
  forall o, d !! DetailOriginPod = Some (VString o) -> valid_utf8 o = true -> d' !! DetailOriginPod = Some (VString o).
Proof.
  unfold Pgx.encodeDetail. case_bool_decide as Hall; [|done]. intros [= <-] o Ho Hv. rewrite lookup_omap, Ho. cbn.
  destruct (Hall _ _ Ho) as [v Ev]. rewrite Ev. f_equal. by apply (jsonb_string o).
Qed.

Lemma pg_put (c : ICall) (s s' : Pgx.Store) (m : gmap ISlot Interaction) (i : Interaction) (r : option IErr) : pg_represents s m -> Pgx.Put c s i = (s', r) ->
  exists m', pg_represents s' m' /\
    ((m' = m /\ r <> None) \/ exists i', recorded i i' /\ m' = <[slot i := i']> m).
Proof.
  intros [Hr Hk]. unfold Pgx.Put. cbv zeta.
  pose proof (put_defaults_fields (inow c) i) as (Es & E1 & E2 & E3 & E4 & E5 & E6). cbv zeta in *.
  set (j := put_defaults (inow c) i) in *.
  destruct (Pgx.encodeDetail (IDetail j)) as [d|] eqn:Ed; [|intros [= <- <-]; exists m; split; [done|by left]].
  destruct (Pgx.encodeResponse (IResponse j)) as [v|]; [|intros [= <- <-]; exists m; split; [done|by left]].
  destruct (Pgx.InTx _ _ _ _) as [s1 r1] eqn:E. intros [= <- <-]. cbn [fst snd].
  apply pg_InTx_inv in E as [[-> [e ->]]|(m' & [] & Hm & -> & Hr1)]; [exists m; split; [done|by left]|].
  destruct (_ && _); [|done]. injection Hm as <-. rewrite Hr, Es. exists (<[slot i := Pgx.stored_row j d v]> m).
  assert (recorded i (Pgx.stored_row j d v)) as Hrec.
  { split; [exact Es|]. do 4 (split; [assumption|]). cbn. intros o Ho. rewrite <- E5 in Ho. by eapply encodeDetail_origin. }
  split; [|right; eauto]. split; [done|]. apply keyed_insert; [done|apply Hrec].
Qed.

Lemma select_row_Ok (t : gmap ISlot Interaction) (tn se u id : string) (i : Interaction) : Pgx.select_row t tn se u id = Ok i -> t !! (tn, se, id) = Some i /\ i.(IUser) = u.
Proof.
  unfold Pgx.select_row. destruct (Pgx.text_columns _); [|done]. destruct (t !! _) as [j|]; [|done].
  destruct (String.eqb_spec j.(IUser) u); [|done]. by intros [= <-].
Qed.

Lemma pg_resolve (c : ICall) (s s' : Pgx.Store) (m : gmap ISlot Interaction) (t se u id : string) (f : Mutate)
    (r : result IErr Interaction) : pg_represents s m -> keeps_owner f -> Pgx.Resolve c s t se u id f = (s', r) ->
  exists m', pg_represents s' m' /\
    ((m' = m /\ failed r) \/
     exists i i1 i2, m !! (t, se, id) = Some i /\ i.(IUser) = u /\ i.(IPhase) = PhasePending /\ f i = Ok i1 /\
       resolved_as i1 i2 /\ m' = <[(t, se, id) := i2]> m /\ (r = Err ErrDb \/ exists out, r = Ok out /\ resolved_as i1 out)).
Proof.
  intros [Hr Hk] Hf. unfold Pgx.Resolve. intros [[-> He]|(m' & a & Hm & -> & Hr1)]%pg_InTx_inv; [exists m; split; [done|by left]|].
  apply rbind_Ok in Hm as (i & [Hi Hu]%select_row_Ok & Hm). rewrite Hr in *.
  destruct (String.eqb_spec i.(IPhase) PhasePending) as [Hp|]; [|done]. cbn [negb] in Hm.
  apply rbind_Ok in Hm as (i1 & Hi1 & Hm). destruct (Hf _ _ Hi1) as [Hs1 Hu1].
  cbv zeta in Hm. destruct (Pgx.encodeDetail _) as [d|]; [|done]. destruct (Pgx.encodeResponse _) as [v|]; [|done].
  destruct (Pgx.text_columns _); [|done]. injection Hm as <- <-.
  match goal with |- context [alter ?g _ _] => set (upd := g) end.
  assert (alter upd (t, se, id) m = <[(t, se, id) := upd i]> m) as Ea.
  { apply map_eq. intros k. destruct (decide (k = (t, se, id))) as [->|].
    - by rewrite lookup_alter_eq, lookup_insert_eq, Hi.
    - by rewrite lookup_alter_ne, lookup_insert_ne. }
  assert (resolved_as i1 (upd i)) as Hres.
  { split; [by rewrite Hs1|]. split; [by rewrite Hu1|]. done. }
  exists (alter upd (t, se, id) m). split.
  - split; [done|]. rewrite Ea. apply keyed_insert; [done|]. exact (Hk _ _ Hi).
  - right. exists i, i1, (upd i). rewrite Ea. do 6 (split; [done|]). destruct Hr1 as [->| ->]; [right|by left].
    eexists. split; [done|]. done.
Qed.

Lemma pg_resolve_errors (c : ICall) (s s' : Pgx.Store) (m : gmap ISlot Interaction) (t se u id : string) (f : Mutate) (e : IErr) :
  pg_represents s m -> Pgx.Resolve c s t se u id f = (s', Err e) ->
  (e = ErrAlreadyResolved -> (exists i, m !! (t, se, id) = Some i /\ i.(IUser) = u /\ i.(IPhase) <> PhasePending) \/
     exists i, f i = Err ErrAlreadyResolved) /\
  (e = ErrNotFound -> (forall i, m !! (t, se, id) = Some i -> i.(IUser) <> u) \/
     exists i, m !! (t, se, id) = Some i /\ f i = Err ErrNotFound).
Proof.
  intros [Hr Hk]. unfold Pgx.Resolve. intros [->|[->|Hm]]%pg_InTx_err; [done..|]. rewrite Hr in Hm.
  unfold Pgx.select_row in Hm. destruct (Pgx.text_columns _); [|injection Hm as <-; done].
  destruct (m !! (t, se, id)) as [i|] eqn:Hi; [|injection Hm as <-; split; [done|naive_solver]].
  destruct (String.eqb_spec i.(IUser) u) as [Hu|Hu]; [|injection Hm as <-; split; [done|naive_solver]].
  cbn [rbind] in Hm. destruct (String.eqb_spec i.(IPhase) PhasePending) as [Hp|Hp]; cbn [negb] in Hm.
  2: { injection Hm as <-. split; [eauto|done]. }
  destruct (f i) as [i1|e1] eqn:Hf; cbn [rbind] in Hm; [|injection Hm as <-; split; intros ->; eauto].
  cbv zeta in Hm. repeat case_match; simplify_eq; done.
Qed.

Lemma expired_raised (t o : string) (i : Interaction) (x : string) :
  i.(IDetail) !! DetailOriginPod = Some (VString x) -> o <> "" -> Pgx.expired_by t o i = raised_by t o i.
Proof.
  intros Hx Ho. unfold Pgx.expired_by, raised_by, Pgx.origin_is, origin_of. rewrite Hx, jsonb_text_string.
  rewrite <- !andb_assoc. do 3 f_equal. destruct (String.eqb_spec x o) as [->|Hne].
  - rewrite bool_decide_true by done. by rewrite is_empty_false.
  - by rewrite bool_decide_false by congruence.
Qed.
End PgLaws.

#[global] Instance pg_laws `{Jsonb} : InteractionLaws Pgx.Store.
Proof.
  refine {| represents := pg_represents; slot_ok := fun _ => True |}.
  - intros s m k i [_ Hk]. apply Hk.
  - intros c s m i s' r Hr _. by apply pg_put.
  - intros c s m t se u id i [Hr Hk] _ E. cbn in E. unfold Pgx.Get in E.
    destruct (Pgx.InTx _ _ _ _) as [s1 r1] eqn:Et. cbn in E. subst r1.
    apply pg_InTx_inv in Et as [[_ [e ?]]|(m' & a & Hm & _ & [[= ->]|?])]; [done| |done].
    apply rbind_Ok in Hm as (j & Hj%select_row_Ok & [= _ ->]). by rewrite Hr in Hj.
  - intros c s m t se u id f s' r Hr _. by apply pg_resolve.
  - intros c s m t se u id f s' e Hr _. by apply pg_resolve_errors.
  - intros c s m t se n [Hr Hk] E. cbn in E. unfold Pgx.CountElicitations in E.
    destruct (Pgx.InTx _ _ _ _) as [s1 r1] eqn:Et. cbn in E. subst r1.
    apply pg_InTx_inv in Et as [[_ [e ?]]|(m' & a & Hm & _ & [[= ->]|?])]; [done| |done].
    destruct (Pg.text_ok se); [|done]. injection Hm as <- <-. by rewrite Hr.
  - intros c s m t u s' r Hr E. eapply (pg_bulk _ _ _ (drop_rows (directed_at t u))); [done| | |exact E].
    + apply keyed_drop, Hr.
    + intros m' a. destruct (Pg.text_ok u); [|done]. by intros [= <- <-].
  - intros c s m t s' r Hr E. eapply (pg_bulk _ _ _ (drop_rows _)); [done| | |exact E].
    + apply keyed_drop, Hr.
    + by intros m' a [= <- <-].
  - intros c s m t u s' r Hr E. cbn in E. unfold Pgx.DismissByUser in E.
    eapply pg_bulk in E as (m' & Hm' & HE); [|done| |].
    + exists m'. split; [done|]. destruct HE as [?| ->]; [by left|]. right. by exists (Pg.timestamptz (inow c)).
    + apply keyed_update; [apply Hr|done].
    + intros m' a. destruct (Pg.text_ok u); [|done]. by intros [= <- <-].
  - intros c s m t o s' r Hr E. cbn in E. unfold Pgx.ExpireRaisedBy in E.
    destruct (is_empty o) eqn:Eo.
    { apply is_empty_spec in Eo. injection E as <- <-. exists m, (fun _ => false). split; [done|].
      split; [by left; split; [|right]|]. done. }
    eapply pg_bulk in E as (m' & Hm' & HE); [|done|apply (keyed_drop (Pgx.expired_by t o)), Hr|].
    2: { intros m' a. destruct (Pg.text_ok o); [|done]. by intros [= <- <-]. }
    exists m', (Pgx.expired_by t o). split; [done|]. split; [destruct HE as [[??]|?]; [left; split; [done|by left]|by right]|].
    split; [|intros i x; apply expired_raised].
    intros i. unfold Pgx.expired_by. rewrite !andb_true_iff, !String.eqb_eq. tauto.
Defined.

(** ** The in-memory store keeps the contract where tenants and sessions have no slash *)

Definition clean (k : ISlot) : Prop := has_char "/" k.1.1 = false /\ has_char "/" k.1.2 = false.
Definition joined (k : ISlot) : string := Mem.key k.1.1 k.1.2 k.2.

Lemma joined_inj k k' : clean k -> clean k' -> joined k = joined k' -> k = k'.
Proof.
  destruct k as [[t se] id], k' as [[t' se'] id']. unfold clean, joined, Mem.key. cbn. intros [H1 H2] [H3 H4] E.
  apply slash_split in E as [-> E]; [|done..]. by apply slash_split in E as [-> ->].
Qed.

Record mem_represents (m : Mem.Memory) (rows : gmap ISlot Interaction) : Prop := mkMemRep {
  rep_keyed : keyed rows;
  rep_clean k i : rows !! k = Some i -> clean k;
  rep_to k i : rows !! k = Some i -> m !! joined k = Some i;
  rep_from x i : m !! x = Some i -> exists k, x = joined k /\ rows !! k = Some i }.

Lemma rep_lookup m rows k : mem_represents m rows -> clean k -> m !! joined k = rows !! k.
Proof.
  intros Hr Hk. destruct (rows !! k) as [i|] eqn:E; [by apply (rep_to _ _ Hr)|].
  destruct (m !! joined k) as [i|] eqn:E2; [|done].
  destruct (rep_from _ _ Hr _ _ E2) as (k' & Ek & Hk'). apply joined_inj in Ek as ->; [congruence|done|].
  by eapply rep_clean.
Qed.

Lemma rep_insert m rows k i : mem_represents m rows -> clean k -> slot i = k ->
  mem_represents (<[joined k := i]> m) (<[k := i]> rows).
Proof.
  intros Hr Hk Hs. split.
  - apply keyed_insert; [apply Hr|done].
  - intros k' j. rewrite lookup_insert_Some. intros [[<- _]|[_ Hj]]; [done|by eapply rep_clean].
  - intros k' j. rewrite lookup_insert_Some. intros [[<- <-]|[Hne Hj]]; [by rewrite lookup_insert_eq|].
    rewrite lookup_insert_ne; [by apply (rep_to _ _ Hr)|]. intros E. apply Hne. apply joined_inj; [done| |done]. by eapply rep_clean.
  - intros x j. rewrite lookup_insert_Some. intros [[<- <-]|[Hne Hj]]; [exists k; by rewrite lookup_insert_eq|].
    destruct (rep_from _ _ Hr _ _ Hj) as (k' & -> & Hk'). exists k'. split; [done|].
    rewrite lookup_insert_ne; [done|]. by intros <-.
Qed.

Lemma rep_filter (p : Interaction -> bool) (b : bool) m rows : mem_represents m rows ->
  mem_represents (filter (fun kv => p kv.2 = b) m) (filter (fun kv => p kv.2 = b) rows).
Proof.
  intros Hr. split.
  - intros k i. rewrite map_lookup_filter_Some. intros [Hi _]. by apply (rep_keyed _ _ Hr).
  - intros k i. rewrite map_lookup_filter_Some. intros [Hi _]. by eapply rep_clean.
  - intros k i. rewrite !map_lookup_filter_Some. intros [Hi Hp]. split; [by apply (rep_to _ _ Hr)|done].
  - intros x i. rewrite map_lookup_filter_Some. intros [Hi Hp]. destruct (rep_from _ _ Hr _ _ Hi) as (k & -> & Hk).
    exists k. split; [done|]. by apply map_lookup_filter_Some.
Qed.

Lemma rep_update p f m rows : mem_represents m rows -> (forall i, slot (f i) = slot i) ->
  mem_represents (update_rows p f m) (update_rows p f rows).
Proof.
  intros Hr Hf. split.
  - apply keyed_update; [apply Hr|done].
  - intros k i. unfold update_rows. rewrite lookup_fmap. intros (j & Hj & ->)%fmap_Some. by eapply rep_clean.
  - intros k i. unfold update_rows. rewrite !lookup_fmap. intros (j & Hj & ->)%fmap_Some.
    by rewrite (rep_to _ _ Hr _ _ Hj).
  - intros x i. unfold update_rows. rewrite lookup_fmap. intros (j & Hj & ->)%fmap_Some.
    destruct (rep_from _ _ Hr _ _ Hj) as (k & -> & Hk). exists k. split; [done|]. by rewrite lookup_fmap, Hk.
Qed.

Lemma rep_size m rows : mem_represents m rows -> size m = size rows.
Proof.
  intros Hr. rewrite <- !length_map_to_list. rewrite <- (length_fmap (prod_map joined id) (map_to_list rows)).
  apply Permutation_length, NoDup_Permutation.
  - apply NoDup_map_to_list.
  - apply NoDup_fmap_2_strong; [|apply NoDup_map_to_list]. intros [k i] [k' i'] Hi Hi' [= E ->].
    apply elem_of_map_to_list in Hi, Hi'. f_equal. apply joined_inj; [by eapply rep_clean..|done].
  - intros [x i]. rewrite elem_of_map_to_list, list_elem_of_fmap. split.
    + intros Hi. destruct (rep_from _ _ Hr _ _ Hi) as (k & -> & Hk). exists (k, i). split; [done|]. by apply elem_of_map_to_list.
    + intros ([k j] & [= -> ->] & Hk%elem_of_map_to_list). by apply (rep_to _ _ Hr).
Qed.

Lemma mem_resolve (c : ICall) (m m' : Mem.Memory) (rows : gmap ISlot Interaction) (t se u id : string) (f : Mutate)
    (r : result IErr Interaction) :
  mem_represents m rows -> clean (t, se, id) -> keeps_owner f -> Mem.Resolve c m t se u id f = (m', r) ->
  exists rows', mem_represents m' rows' /\
    ((rows' = rows /\ failed r) \/
     exists i i1 i2, rows !! (t, se, id) = Some i /\ i.(IUser) = u /\ i.(IPhase) = PhasePending /\ f i = Ok i1 /\
       resolved_as i1 i2 /\ rows' = <[(t, se, id) := i2]> rows /\ (r = Err ErrDb \/ exists out, r = Ok out /\ resolved_as i1 out)).
Proof.
  intros Hr Hc Hf. unfold Mem.Resolve. cbv zeta. change (Mem.key t se id) with (joined (t, se, id)). rewrite (rep_lookup m rows) by done.
  destruct (rows !! (t, se, id)) as [i|] eqn:Hi; [|intros [= <- <-]; exists rows; split; [done|left; unfold failed; eauto]].
  destruct (String.eqb_spec i.(IUser) u) as [Hu|]; cbn [negb]; [|intros [= <- <-]; exists rows; split; [done|left; unfold failed; eauto]].
  destruct (String.eqb_spec i.(IPhase) PhasePending) as [Hp|]; cbn [negb];
    [|intros [= <- <-]; exists rows; split; [done|left; unfold failed; eauto]].
  destruct (f i) as [i1|e] eqn:Hfi; intros [= <- <-]; [|exists rows; split; [done|left; unfold failed; eauto]].
  destruct (Hf _ _ Hfi) as [Hs1 Hu1]. exists (<[(t, se, id) := with_resolved (inow c) i1]> rows). split.
  - apply rep_insert; [done..|]. transitivity (slot i1); [done|]. rewrite Hs1. by apply (rep_keyed _ _ Hr).
  - right. exists i, i1, (with_resolved (inow c) i1). do 6 (split; [done|]). right. eexists. split; [done|]. done.
Qed.

Lemma mem_resolve_errors (c : ICall) (m m' : Mem.Memory) (rows : gmap ISlot Interaction) (t se u id : string) (f : Mutate) (e : IErr) :
  mem_represents m rows -> clean (t, se, id) -> Mem.Resolve c m t se u id f = (m', Err e) ->
  (e = ErrAlreadyResolved -> (exists i, rows !! (t, se, id) = Some i /\ i.(IUser) = u /\ i.(IPhase) <> PhasePending) \/
     exists i, f i = Err ErrAlreadyResolved) /\
  (e = ErrNotFound -> (forall i, rows !! (t, se, id) = Some i -> i.(IUser) <> u) \/
     exists i, rows !! (t, se, id) = Some i /\ f i = Err ErrNotFound).
Proof.
  intros Hr Hc. unfold Mem.Resolve. cbv zeta. change (Mem.key t se id) with (joined (t, se, id)). rewrite (rep_lookup m rows) by done.
  destruct (rows !! (t, se, id)) as [i|] eqn:Hi; [|intros [= _ <-]; split; [done|naive_solver]].
  destruct (String.eqb_spec i.(IUser) u) as [Hu|]; cbn [negb]; [|intros [= _ <-]; split; [done|naive_solver]].
  destruct (String.eqb_spec i.(IPhase) PhasePending) as [Hp|]; cbn [negb]; [|intros [= _ <-]; split; [eauto|done]].
  destruct (f i) as [i1|e1] eqn:Hfi; intros [= _ <-]. split; intros ->; eauto.
Qed.

#[global] Instance mem_laws : InteractionLaws Mem.Memory.
Proof.
  refine {| represents := mem_represents; slot_ok := clean |}.
  - intros s m k i Hr. apply (rep_keyed _ _ Hr).
  - intros c s m i s' r Hr Hc E. pose proof (put_defaults_fields (inow c) i) as (Es & E1 & E2 & E3 & E4 & E5 & _). cbv zeta in *.
    cbn in E. unfold Mem.Put in E. injection E as <- <-.
    exists (<[slot i := put_defaults (inow c) i]> m). split.
    + change (Mem.key _ _ _) with (joined (slot (put_defaults (inow c) i))). rewrite Es. by apply rep_insert.
    + right. eexists. split; [|done]. split; [exact Es|]. do 4 (split; [assumption|]). intros o. by rewrite E5.
  - intros c s m t se u id i Hr Hc. cbn. unfold Mem.Get. change (Mem.key t se id) with (joined (t, se, id)). rewrite (rep_lookup s m) by done.
    destruct (m !! (t, se, id)) as [j|]; [|done]. destruct (String.eqb_spec j.(IUser) u); [|done]. by intros [= <-].
  - intros c s m t se u id f s' r. apply mem_resolve.
  - intros c s m t se u id f s' e. apply mem_resolve_errors.
  - intros c s m t se n Hr [= <-]. unfold count_rows, select. f_equal. by apply rep_size, rep_filter.
  - intros c s m t u s' r Hr [= <- <-]. eexists. split; [by apply (rep_filter _ false)|by right].
  - intros c s m t s' r Hr [= <- <-]. eexists. split; [by apply (rep_filter _ false)|by right].
  - intros c s m t u s' r Hr [= <- <-]. eexists. split; [by apply rep_update|]. right. by exists (inow c).
  - intros c s m t o s' r Hr [= <- <-]. exists (drop_rows (raised_by t o) m), (raised_by t o).
    split; [by apply (rep_filter _ false)|]. split; [by right|]. split; [|done].
    intros i. unfold raised_by. rewrite !andb_true_iff, !String.eqb_eq. tauto.
Defined.

(** ** Histories of calls *)

Section Runs.
Context {S : Type} `{InteractionLaws S}.

(** One call, by any replica; the label is what it can do to a settled row. *)
Inductive label := LPut (k : ISlot) | LEraseUser (t u : string) | LEraseTenant (t : string) | LOther.

Inductive step (s : S) : label -> S -> Prop :=
| step_put c i s' r : slot_ok (slot i) -> Put c s i = (s', r) -> step s (LPut (slot i)) s'
| step_resolve c t se u id f s' r : slot_ok (t, se, id) -> keeps_owner f -> Resolve c s t se u id f = (s', r) -> step s LOther s'
| step_delete_user c t u s' r : DeleteByUser c s t u = (s', r) -> step s (LEraseUser t u) s'
| step_delete_tenant c t s' r : DeleteByTenant c s t = (s', r) -> step s (LEraseTenant t) s'
| step_dismiss c t u s' r : DismissByUser c s t u = (s', r) -> step s LOther s'
| step_expire c t o s' r : ExpireRaisedBy c s t o = (s', r) -> step s LOther s'.

Inductive run (s : S) : list label -> S -> Prop :=
| run_nil : run s [] s
| run_cons l s1 ls s2 : step s l s1 -> run s1 ls s2 -> run s (l :: ls) s2.

(** The call erases the person or the tenant the row is for. *)
Definition erases (i : Interaction) (l : label) : Prop :=
  match l with LEraseUser t u => directed_at t u i = true | LEraseTenant t => String.eqb i.(ITenant) t = true | _ => False end.

(** A row that is settled stays as it is, or was erased. *)
Definition settled (k : ISlot) (i : Interaction) (erased : Prop) (s : S) : Prop :=
  exists m, represents s m /\ (m !! k = Some i \/ m !! k = None /\ erased).

Lemma drop_rows_settled (p : Interaction -> bool) (m : gmap ISlot Interaction) (k : ISlot) (i : Interaction) (E E' : Prop) :
  (E -> E') -> (p i = true -> E') -> m !! k = Some i \/ m !! k = None /\ E -> drop_rows p m !! k = Some i \/ drop_rows p m !! k = None /\ E'.
Proof.
  intros HE Hp [Hm|[Hm He]].
  - destruct (p i) eqn:Epi; [right|left].
    + split; [|by apply Hp]. unfold drop_rows. rewrite map_lookup_filter, Hm. cbn. destruct (guard _) as [G|]; [|done]. cbn in G. congruence.
    + apply map_lookup_filter_Some. done.
  - right. split; [|by apply HE]. unfold drop_rows. by rewrite map_lookup_filter, Hm.
Qed.

Lemma step_settled k i (E : Prop) s l s' : i.(IPhase) <> PhasePending -> l <> LPut k -> settled k i E s -> step s l s' ->
  settled k i (E \/ erases i l) s'.
Proof.
  intros Hp Hl (m & Hr & Hm) Hs.
  assert (m !! k = Some i \/ m !! k = None /\ (E \/ erases i l)) as Hm' by tauto.
  destruct Hs as [c j s' r Hok Eq|c t se u id f s' r Hok Hf Eq|c t u s' r Eq|c t s' r Eq|c t u s' r Eq|c t o s' r Eq].
  - destruct (put_law _ _ _ _ _ _ Hr Hok Eq) as (m' & Hr' & [[-> _]|(j' & _ & ->)]); [by exists m|].
    eexists. split; [done|]. rewrite lookup_insert_ne by congruence. done.
  - destruct (resolve_law _ _ _ _ _ _ _ _ _ _ Hr Hok Hf Eq) as (m' & Hr' & [[-> _]|(j & j1 & j2 & Hj & _ & Hjp & _ & _ & -> & _)]);
      [by exists m|].
    eexists. split; [done|]. rewrite lookup_insert_ne; [done|]. intros <-. destruct Hm as [|[]]; congruence.
  - destruct (delete_user_law _ _ _ _ _ _ _ Hr Eq) as (m' & Hr' & [[-> _]| ->]); [by exists m|].
    eexists. split; [done|]. apply (drop_rows_settled _ _ _ _ E); [by left|by right|done].
  - destruct (delete_tenant_law _ _ _ _ _ _ Hr Eq) as (m' & Hr' & [[-> _]| ->]); [by exists m|].
    eexists. split; [done|]. apply (drop_rows_settled _ _ _ _ E); [by left|by right|done].
  - destruct (dismiss_law _ _ _ _ _ _ _ Hr Eq) as (m' & Hr' & [[-> _]|[at_ ->]]); [by exists m|]. eexists. split; [done|].
    unfold update_rows. rewrite lookup_fmap. destruct Hm' as [-> |[-> He]]; [|by right]. left. cbn.
    unfold dismissible. destruct (String.eqb_spec i.(IPhase) PhasePending); [done|]. by rewrite !andb_false_r.
  - destruct (expire_law _ _ _ _ _ _ _ Hr Eq) as (m' & p & Hr' & [[-> _]| ->] & Hpend & _); [by exists m|].
    eexists. split; [done|]. apply (drop_rows_settled _ _ _ _ E); [by left| |done].
    intros Hpi. by destruct (Hpend i Hpi) as (_ & _ & ?).
Qed.

Lemma settled_unresolvable k i E s c t se u id f s'' r : i.(IPhase) <> PhasePending -> k = (t, se, id) -> slot_ok k -> settled k i E s ->
  keeps_owner f -> Resolve c s t se u id f = (s'', r) -> failed r.
Proof.
  intros Hp -> Hok (m & Hr & Hm) Hf Eq.
  destruct (resolve_law _ _ _ _ _ _ _ _ _ _ Hr Hok Hf Eq) as (m2 & _ & [[_ ?]|(j & _ & _ & Hj & _ & Hjp & _)]); [done|].
  destruct Hm as [|[? _]]; congruence.
Qed.

(** C8. An answered, denied or dismissed interaction is final, as long as nothing
    is recorded under its id again: over every history of calls of any replicas,
    with failures and lost acknowledgements, it keeps the answer it got, unless
    a call has erased its person or its tenant, and every later attempt to
    resolve it fails. *)
Theorem answer_is_final s m t se id i labels s' :
  represents s m -> slot_ok (t, se, id) -> m !! (t, se, id) = Some i -> i.(IPhase) <> PhasePending ->
  run s labels s' -> LPut (t, se, id) ∉ labels ->
  settled (t, se, id) i (Exists (erases i) labels) s' /\
  forall c u f s'' r, keeps_owner f -> Resolve c s' t se u id f = (s'', r) -> failed r.
Proof.
  intros Hr Hok Hm Hp Hrun Hl.
  assert (forall E : Prop, settled (t, se, id) i E s -> settled (t, se, id) i (E \/ Exists (erases i) labels) s') as Hall.
  { clear Hr Hm. induction Hrun as [s|s l s1 ls s2 Hst _ IH]; intros E Hs.
    - destruct Hs as (m' & Hr & Hm). exists m'. tauto.
    - destruct (IH ltac:(set_solver) (E \/ erases i l)) as (m' & Hr & Hm).
      { eapply step_settled; [done| |done|done]. intros ->. set_solver. }
      exists m'. split; [done|]. rewrite Exists_cons. tauto. }
  assert (settled (t, se, id) i (Exists (erases i) labels) s') as Hs.
  { destruct (Hall False) as (m' & Hr' & Hm'); [exists m; by split; [|left]|]. exists m'. tauto. }
  split; [done|]. intros c u f s'' r Hf Eq. by eapply settled_unresolvable.
Qed.
End Runs.

(** ** Example *)

Module IDemo.
(** Documents that come back as they were written. *)
Lemma some_string (s : string) (v : value) : valid_utf8 s = true -> Some (VString s) = Some v -> v = VString s.
Proof. by intros _ [= <-]. Qed.
#[export] Instance plain_jsonb : Jsonb := {|
  jsonb := Some; jsonb_text v := match v with VString s => Some s | _ => None end;
  jsonb_string := some_string; jsonb_text_string := fun s => eq_refl |}.

Definition answered : Interaction :=
  mkInteraction "e1" KindElicitation "root" "acme" "ann" PhaseResponded {[DetailOriginPod := VString "child"]} (VBool true) "" 1000 2000.
Definition table : gmap ISlot Interaction := {[("acme", "root", "e1") := answered]}.
Definition store : Pgx.Store := Pgx.mkPgStore {["acme"]} table.
Definition healthy : ICall := mkICall false ConnOk 9000.
(** The acknowledgement of a commit that took effect is lost. *)
Definition flaky : ICall := mkICall false (ConnCommit true) 9000.

Lemma represented : represents store table.
Proof.
  split; [reflexivity|]. intros k i. unfold table. rewrite lookup_singleton_Some. by intros [<- <-].
Qed.
End IDemo.

Import IDemo.

Lemma answer_is_final_witness :
  let s1 := (DismissByUser flaky store "acme" "ann").1 in
  let s2 := (ExpireRaisedBy healthy s1 "acme" "child").1 in
  let s3 := (DeleteByUser healthy s2 "acme" "bob").1 in
  settled ("acme", "root", "e1") answered False s3.
Proof.
  intros s1 s2 s3.
  assert (settled ("acme", "root", "e1") answered (Exists (erases answered) [LOther; LOther; LEraseUser "acme" "bob"]) s3) as (m & Hr & Hm).
  2: { exists m. split; [done|]. destruct Hm as [|[_ He]]; [by left|].
       apply Exists_cons in He as [[]|He]. apply Exists_cons in He as [[]|He]. apply Exists_cons in He as [He|He]; [discriminate He|inversion He]. }
  apply (answer_is_final store table "acme" "root" "e1" answered).
  - exact represented.
  - exact I.
  - reflexivity.
  - discriminate.
  - eapply run_cons; [eapply step_dismiss; apply surjective_pairing|].
    eapply run_cons; [eapply step_expire; apply surjective_pairing|].
    eapply run_cons; [eapply step_delete_user; apply surjective_pairing|]. apply run_nil.
  - intros Hin. rewrite !elem_of_cons in Hin. destruct Hin as [|[|[|[]%elem_of_nil]]]; discriminate.
Defined.
