(* ===== verification/ElicitationTools.v ===== *)
(** * ElicitationTools: how an agent asks a user

    [gateway/mcpfabric/mcptools]: the dispatcher of [elicitation.go], the tools
    [lenny/request_elicitation], [lenny/respond_to_elicitation] and
    [lenny/dismiss_elicitation] of [mcptools_register.go], and the caller
    checks of [mcptools.go] they use.

    The session store and the user registry are arguments: what a lookup
    returns.  The interaction store is any instance of [InteractionStore].  A
    request reads the budget, records the prompt and then polls; between two of
    its calls other replicas may change the store.  What a request records in
    metrics and the audit log is a list of [Note]s. *)

From S2P Require Import Prelude Text SessionState Jcs Elicitation Idempotency Interactions.

(** The columns of a session the code reads. *)
Record Session := mkSession {
  SID : string; SParent : string; SUser : string; SState : string; SRuntime : string;
  SPool : string; SDepth : Z }.

(** Errors of the session store. *)
Inductive LookupErr := LNotFound | LDeadline | LOther.

(** The codes of [mcp.ToolError] with the details a caller can act on, and
    errors that are passed on as they are. *)
Inductive ToolErr :=
| UNAUTHORIZED | RESOURCE_NOT_FOUND | INVALID_STATE_TRANSITION | VALIDATION_ERROR | QUOTA_EXCEEDED
| DOMAIN_NOT_ALLOWLISTED (rej : URLModeRejection)
| ELICITATION_PER_HOP_TIMEOUT (hop : string)
| ELICITATION_CONTENT_TAMPERED (tamperingPod : string) (divergent : list string)
| ELICITATION_TIMEOUT | ELICITATION_NOT_FOUND | INTERACTION_ALREADY_RESOLVED | INTERNAL_ERROR
| USER_INVALIDATED | ERASURE_IN_PROGRESS (jobId : string)
| ChainFailure (e : ChainError) | LookupFailure | StoreFailure (e : IErr) | ContextDone.

(** ** The dispatcher *)

Record TamperEvent := mkTamperEvent {
  te_mode : string; te_origin_pod : string; te_tampering_pod : string; te_tenant : string; te_user : string;
  te_depth : Z; te_initiator : string; te_divergent : list string; te_original : runes; te_attempted : runes;
  te_outcome : string }.

Inductive Note :=
| DropMetric (reason : string)
| UrlRejected (session tenant host : string) (reason : URLModeRejectReason) (initiator : string) (depth : Z)
| TamperMetric (originPod tamperingPod mode : string)
| TamperAudit (e : TamperEvent).

(** The flags say which recorders are wired. *)
Record Dispatcher := mkDispatcher {
  depthPolicy : string; suppressAtDepth : Z; urlModeAllowlist : URLModeAllowlist;
  intercepts : option (Session -> bool); dropMetrics : bool; tamperMetrics : bool; audit : bool;
  effectiveMode : option (string -> string); forwardedContentFor : option (Hop -> option Content) }.

Record dispatchResult := mkDispatchResult { Chain : ChainResult; ResolverSessionID : string; Suppressed : bool }.

Section Dispatch.
Context `{Hashes} `{Urls}.
(** The sessions of the tenant, and the lookups that fail. *)
Variables (sessions : gmap string Session) (fault : string -> option LookupErr).

Definition lookupAncestor (parentID : string) : result LookupErr Session :=
  match fault parentID with
  | Some e => Err e
  | None => match sessions !! parentID with Some s => Ok s | None => Err LNotFound end
  end.

(** The loop of [buildHops]; [None] when [fuel] does not suffice. *)
Fixpoint collect (fuel : nat) (visited : gset string) (cur : Session) : option (result ToolErr (list Session)) :=
  match fuel with
  | O => None
  | S fuel =>
      if bool_decide (cur.(SID) ∈ visited) then Some (Ok [])
      else if is_empty cur.(SParent) then Some (Ok [cur])
      else match lookupAncestor cur.(SParent) with
           | Err LNotFound => Some (Ok [cur])
           | Err LDeadline => Some (Err (ELICITATION_PER_HOP_TIMEOUT cur.(SID)))
           | Err LOther => Some (Err LookupFailure)
           | Ok parent =>
               (fun r => let* chain := r in Ok (cur :: chain)) <$> collect fuel ({[cur.(SID)]} ∪ visited) parent
           end
  end.

Definition hops_of (d : Dispatcher) (chain : list Session) : list Hop :=
  imap (fun i sess =>
    let depth := (Z.of_nat (length chain) - 1 - Z.of_nat i)%Z in
    let icpt := match i, d.(intercepts) with O, _ => false | _, None => false | _, Some f => f sess end in
    mkHop sess.(SID) sess.(SID) depth icpt (depth =? 0)%Z) chain.

(** Every turn visits a session that was not visited: the raising one, then
    rows of the store. *)
Definition buildHops (d : Dispatcher) (raising : Session) : option (result ToolErr (list Hop)) :=
  (fun r => let* chain := r in Ok (hops_of d chain)) <$> collect (size sessions + 3) ∅ raising.

Definition resolveMode (d : Dispatcher) (tenantID : string) : string :=
  match d.(effectiveMode) with
  | None => Mode.ModeEnforce
  | Some f => if Mode.IsValid (f tenantID) then f tenantID else Mode.ModeEnforce
  end.

(** The first hop that names the pod decides. *)
Definition divergentFields (d : Dispatcher) (original : Content) (tamperingPod : string) (hops : list Hop) : list string :=
  match d.(forwardedContentFor) with
  | None => []
  | Some f =>
      match list_find (fun h => h.(HopSession) = tamperingPod \/ h.(PodID) = tamperingPod) hops with
      | Some (_, h) => match f h with Some forwarded => DivergentFields original forwarded | None => [] end
      | None => []
      end
  end.

Definition originDepth (hops : list Hop) : Z := match hops with h :: _ => h.(HopDepth) | [] => 0 end.

Definition delivered (res : ChainResult) : dispatchResult :=
  match res.(Termination) with
  | TerminateSuppressed => mkDispatchResult res "" true
  | _ => mkDispatchResult res res.(ResolverSession) false
  end.

Definition handleTamper (d : Dispatcher) (tenantID : string) (raising : Session) (originalContent : Content)
    (initiator : string) (hops : list Hop) (mode : string) (chainErr : ChainError) (expected observed : runes)
    : list Note * result ToolErr dispatchResult :=
  let tamperingPod := chainErr.(ErrHop) in
  let forwardOutcome := if String.eqb mode Mode.ModeDetectOnly then "forwarded_as_received" else "rejected" in
  let divergent := divergentFields d originalContent tamperingPod hops in
  let notes :=
    (if d.(tamperMetrics) then [TamperMetric raising.(SID) tamperingPod mode] else []) ++
    (if d.(audit) then [TamperAudit (mkTamperEvent mode raising.(SID) tamperingPod tenantID raising.(SUser)
                          (originDepth hops) initiator divergent expected observed forwardOutcome)] else []) in
  (notes,
   if String.eqb mode Mode.ModeDetectOnly
   then match WalkChain (mkChainInput hops originalContent initiator d.(depthPolicy) d.(suppressAtDepth) None) with
        | Err e => Err (ChainFailure e)
        | Ok res => Ok (delivered res)
        end
   else Err (ELICITATION_CONTENT_TAMPERED tamperingPod divergent)).

(** [dispatch]; [None] when building the hops runs out of fuel. *)
Definition dispatch (d : Dispatcher) (tenantID : string) (raising : Session) (originalContent : Content)
    (initiator rawURL : string) : option (list Note * result ToolErr dispatchResult) :=
  match CheckURLModeProvenance initiator rawURL "" d.(urlModeAllowlist) with
  | Err rej => Some (
      (if d.(dropMetrics) then [DropMetric "domain_not_allowlisted"] else []) ++
      (if d.(audit) then [UrlRejected raising.(SID) tenantID rej.(RejHost) rej.(RejReason) initiator raising.(SDepth)] else []),
      Err (DOMAIN_NOT_ALLOWLISTED rej))
  | Ok _ =>
      (fun hops =>
        match hops with
        | Err e => ([], Err e)
        | Ok hops =>
            let mode := resolveMode d tenantID in
            let forwarded := if String.eqb mode Mode.ModeOff then None else d.(forwardedContentFor) in
            match WalkChain (mkChainInput hops originalContent initiator d.(depthPolicy) d.(suppressAtDepth) forwarded) with
            | Err e => match e.(Cause) with
                       | Some (Tamper expected observed) =>
                           handleTamper d tenantID raising originalContent initiator hops mode e expected observed
                       | _ => ([], Err (ChainFailure e))
                       end
            | Ok res => ([], Ok (delivered res))
            end
        end) <$> buildHops d raising
  end.
End Dispatch.

(** ** The caller *)

Record Principal := mkPrincipal { Subject : string; PTenant : string; PSession : string }.

Definition callerSessionID (p : option Principal) (fallback : string) : string :=
  match p with
  | Some p => if is_empty p.(PSession) then fallback else p.(PSession)
  | None => fallback
  end.

Definition callerTenantID (p : option Principal) (fallback : string) : string :=
  let rest := if is_empty fallback then "default" else fallback in
  match p with
  | Some p => if is_empty p.(PTenant) then rest else p.(PTenant)
  | None => rest
  end.

(** [Store] and [SessionService] are [None] when they are not wired; [read] is
    the primary or the replica read of the row. *)
Record Access := mkAccess {
  acc_read : option (string -> result LookupErr Session); acc_service : option (Session -> bool) }.

Inductive CallerErr := CallerUnauthorized | CallerLookup (e : LookupErr).

Definition lookupCallerSession (p : option Principal) (a : Access) (id : string) : result CallerErr Session :=
  match p with
  | None => Err CallerUnauthorized
  | Some p =>
      if is_empty p.(Subject) then Err CallerUnauthorized
      else match a.(acc_read) with
           | None => Err (CallerLookup LNotFound)
           | Some read =>
               match read id with
               | Err e => Err (CallerLookup e)
               | Ok row =>
                   match a.(acc_service) with
                   | Some accessible => if accessible row then Ok row else Err (CallerLookup LNotFound)
                   | None => Err (CallerLookup LNotFound)
                   end
               end
           end
  end.

(** [errSessionLookup] answers every other failure alike. *)
Definition errCallerSessionLookup (e : CallerErr) : ToolErr :=
  match e with CallerUnauthorized => UNAUTHORIZED | CallerLookup _ => RESOURCE_NOT_FOUND end.

(** ** lenny/request_elicitation *)

(** The arguments after [json.Unmarshal]; [arg_schema] is [None] when the
    member is absent, else the decoded value. *)
Record RequestArgs := mkRequestArgs {
  arg_session : string; arg_message : string; arg_schema : option value; arg_id : string; arg_url : string }.

(** What the pool and the runtime of the session configure; [None] when it
    cannot be resolved.  A limit that is not positive is unset. *)
Record Config := mkConfig {
  cfg_tenant : string; cfg_max : Z; cfg_timeout : Z;
  cfg_runtime_limits : string -> option (Z * Z);
  cfg_pool_policy : string -> option (string * Z * URLModeAllowlist);
  cfg_dispatcher : Dispatcher; cfg_new_id : string; cfg_access : Access }.

Definition defaultMaxElicitationsPerSession : Z := 50.
Definition defaultElicitationTimeout : Z := (600 * Second)%Z.

Definition limits_of (cfg : Config) (row : Session) : Z * Z :=
  let max := if (cfg.(cfg_max) <=? 0)%Z then defaultMaxElicitationsPerSession else cfg.(cfg_max) in
  let timeout := if (cfg.(cfg_timeout) <=? 0)%Z then defaultElicitationTimeout else cfg.(cfg_timeout) in
  match (if is_empty row.(SRuntime) then None else cfg.(cfg_runtime_limits) row.(SRuntime)) with
  | None => (max, timeout)
  | Some (m, w) => (if (0 <? m)%Z then m else max, if (0 <? w)%Z then wrap64 (w * Second) else timeout)
  end.

(** The checks before the budget. *)
Definition callerRow (cfg : Config) (p : option Principal) (args : RequestArgs) : result ToolErr Session :=
  let sessionID := callerSessionID p args.(arg_session) in
  if is_empty sessionID then Err VALIDATION_ERROR
  else if is_empty args.(arg_message) then Err VALIDATION_ERROR
  else match args.(arg_schema) with
       | None => Err VALIDATION_ERROR
       | Some _ =>
           match lookupCallerSession p cfg.(cfg_access) sessionID with
           | Err e => Err (errCallerSessionLookup e)
           | Ok row => if IsTerminal row.(SState) then Err INVALID_STATE_TRANSITION else Ok row
           end
       end.

(** The dispatcher with the pool's policy. *)
Definition perCall (cfg : Config) (row : Session) : Dispatcher :=
  let d := cfg.(cfg_dispatcher) in
  match (if is_empty row.(SPool) then None else cfg.(cfg_pool_policy) row.(SPool)) with
  | None => d
  | Some (dp, suppressAt, urlMode) =>
      mkDispatcher dp suppressAt urlMode d.(intercepts) d.(dropMetrics) d.(tamperMetrics) d.(audit)
        d.(effectiveMode) d.(forwardedContentFor)
  end.

Inductive Outcome :=
| Failed (e : ToolErr)
| Responded (id : string) (response : value)
| Dismissed (id : string)
| SuppressedResult (id : string).

(** A recorded prompt whose request polls for the answer. *)
Record Waiting := mkWaiting { w_tenant : string; w_resolver : string; w_user : string; w_id : string }.

(** [DismissByUser] and others are the store's; the request makes one call to
    count, one to record, then one per poll. *)
Section Request.
Context {S : Type} `{InteractionStore S} `{Hashes} `{Urls}.
Variables (sessions : gmap string Session) (fault : string -> option LookupErr).

(** The digest is recorded as text, the depth as a Go [int]. *)
Variables (text_of : runes -> string) (int_value : Z -> value).

Definition detail_of (args : RequestArgs) (row : Session) (digest : runes) (depth : Z) : gmap string value :=
  let d := list_to_map [("message", VString args.(arg_message)); ("contentDigest", VString (text_of digest));
                        (DetailOriginPod, VString row.(SID)); ("initiatorType", VString Depth.InitiatorAgent);
                        ("delegationDepth", int_value depth)] in
  let d := if is_empty row.(SRuntime) then d else <["originRuntime" := VString row.(SRuntime)]> d in
  let d := match default VNil args.(arg_schema) with VNil => d | v => <["schema" := v]> d end in
  if is_empty args.(arg_url) then d else <["url" := VString args.(arg_url)]> d.

(** The interaction a request records, after the budget let it pass; [None]
    when building the hops runs out of fuel. *)
Definition raise (cfg : Config) (tenant : string) (row : Session) (args : RequestArgs)
    : option (list Note * (Outcome + Interaction)) :=
  let originalContent := mkContent args.(arg_message) (default VNil args.(arg_schema)) in
  match Digest originalContent with
  | None => Some ([], inl (Failed VALIDATION_ERROR))
  | Some digest =>
      (fun out =>
        let '(notes, r) := out in
        (notes,
         match r with
         | Err e => inl (Failed e)
         | Ok dr =>
             let id := if is_empty args.(arg_id) then cfg.(cfg_new_id) else args.(arg_id) in
             if dr.(Suppressed) then inl (SuppressedResult id)
             else inr (mkInteraction id KindElicitation dr.(ResolverSessionID) tenant row.(SUser) PhasePending
                         (detail_of args row digest (originDepth dr.(Chain).(Hops))) VNil "" zero_time zero_time)
         end)) <$> dispatch sessions fault (perCall cfg row) tenant row originalContent Depth.InitiatorAgent args.(arg_url)
  end.

(** A request up to its first poll.  [count] and [put] are its calls to the
    store, [others] what replicas do between them. *)
Definition requestElicitation (cfg : Config) (p : option Principal) (args : RequestArgs)
    (count put : ICall) (others : S -> S) (s : S) : option (S * (Outcome + Waiting)) :=
  let tenant := callerTenantID p cfg.(cfg_tenant) in
  match callerRow cfg p args with
  | Err e => Some (s, inl (Failed e))
  | Ok row =>
      let sessionID := callerSessionID p args.(arg_session) in
      match CountElicitations count s tenant sessionID with
      | Err e => Some (s, inl (Failed (StoreFailure e)))
      | Ok n =>
          if ((limits_of cfg row).1 <=? n)%Z then Some (s, inl (Failed QUOTA_EXCEEDED))
          else
            (fun out =>
              match out.2 with
              | inl o => (s, inl o)
              | inr i =>
                  let '(s', r) := Put put (others s) i in
                  match r with
                  | Some e => (s', inl (Failed (StoreFailure e)))
                  | None => (s', inr (mkWaiting tenant i.(ISession) row.(SUser) i.(IID)))
                  end
              end) <$> raise cfg tenant row args
      end
  end.

(** One turn of the polling loop: what the read decides. *)
Definition poll (c : ICall) (s : S) (w : Waiting) : option Outcome :=
  match Get c s w.(w_tenant) w.(w_resolver) w.(w_user) w.(w_id) with
  | Err e => Some (Failed (StoreFailure e))
  | Ok cur =>
      if String.eqb cur.(IPhase) PhaseResponded then Some (Responded w.(w_id) cur.(IResponse))
      else if String.eqb cur.(IPhase) PhaseDismissed then Some (Dismissed w.(w_id))
      else None
  end.

Definition dismiss_on_timeout : Mutate := fun i =>
  Ok (if String.eqb i.(IPhase) PhasePending
      then with_answer PhaseDismissed i.(IResponse) "ELICITATION_TIMEOUT" i else i).

(** What ends the wait of a turn: the ticker, the caller's context, the
    timeout; the result of the timeout's [Resolve] is ignored. *)
Inductive Wake := Tick | CtxDone | TimeUp (c : ICall).

Definition wake (wk : Wake) (s : S) (w : Waiting) : S * option Outcome :=
  match wk with
  | Tick => (s, None)
  | CtxDone => (s, Some (Failed ContextDone))
  | TimeUp c =>
      ((Resolve c s w.(w_tenant) w.(w_resolver) w.(w_user) w.(w_id) dismiss_on_timeout).1, Some (Failed ELICITATION_TIMEOUT))
  end.

(** The loop over its turns: what replicas did before the read, the read, what
    they did after it, and what ended the wait. *)
Fixpoint await (turns : list ((S -> S) * ICall * (S -> S) * Wake)) (s : S) (w : Waiting) : S * option Outcome :=
  match turns with
  | [] => (s, None)
  | (before, c, after, wk) :: turns =>
      let s := before s in
      match poll c s w with
      | Some o => (s, Some o)
      | None => match wake wk (after s) w with
                | (s, Some o) => (s, Some o)
                | (s, None) => await turns s w
                end
      end
  end.

(** ** Answers *)

Definition answer (phase : string) (response : value) (reason : string) : Mutate := fun i =>
  if String.eqb i.(IKind) KindElicitation then Ok (with_answer phase response reason i) else Err ErrNotFound.

Definition ResolveElicitation (c : ICall) (s : S) (tenantID resolverSessionID userID elicitationID phase : string)
    (response : value) (reason : string) : S * result ToolErr Interaction :=
  let '(s', r) := Resolve c s tenantID resolverSessionID userID elicitationID (answer phase response reason) in
  (s', match r with
       | Ok out => Ok out
       | Err ErrNotFound => Err ELICITATION_NOT_FOUND
       | Err e => Err (StoreFailure e)
       end).

(** A user's row: whether it is active, restricted, and its erasure job. *)
Record User := mkUser { IsActive : bool; ProcessingRestricted : bool; ErasureJobID : string }.

(** [users] is [None] when no registry is wired. *)
Definition requireActiveResolver (users : option (string -> result LookupErr User)) (subject : string) : result ToolErr () :=
  match users with
  | None => Ok ()
  | Some get =>
      if is_empty subject then Ok ()
      else match get subject with
           | Err LNotFound => Ok ()
           | Err _ => Err INTERNAL_ERROR
           | Ok user =>
               if negb user.(IsActive) then Err USER_INVALIDATED
               else if user.(ProcessingRestricted) then Err (ERASURE_IN_PROGRESS user.(ErasureJobID))
               else Ok ()
           end
  end.

Definition resolveElicitationTool (users : option (string -> result LookupErr User)) (a : Access) (p : option Principal)
    (c : ICall) (s : S) (tenant sessionID elicitationID phase : string) (response : value) (reason : string)
    : S * result ToolErr Interaction :=
  let subject := match p with Some p => p.(Subject) | None => "" end in
  match requireActiveResolver users subject with
  | Err e => (s, Err e)
  | Ok _ =>
      match lookupCallerSession p a sessionID with
      | Err CallerUnauthorized => (s, Err UNAUTHORIZED)
      | Err (CallerLookup LNotFound) => (s, Err RESOURCE_NOT_FOUND)
      | Err (CallerLookup _) => (s, Err INTERNAL_ERROR)
      | Ok _ =>
          let '(s', r) := ResolveElicitation c s tenant sessionID subject elicitationID phase response reason in
          (s', match r with
               | Ok out => Ok out
               | Err ELICITATION_NOT_FOUND => Err ELICITATION_NOT_FOUND
               | Err (StoreFailure ErrAlreadyResolved) => Err INTERACTION_ALREADY_RESOLVED
               | Err _ => Err INTERNAL_ERROR
               end)
      end
  end.

(** The two tools, after their arguments are decoded. *)
Definition respondToElicitation users a p c s (fallback sessionID elicitationID : string) (response : value)
    : S * result ToolErr Interaction :=
  if is_empty sessionID || is_empty elicitationID then (s, Err VALIDATION_ERROR)
  else resolveElicitationTool users a p c s (callerTenantID p fallback) sessionID elicitationID PhaseResponded response "".

Definition dismissElicitation users a p c s (fallback sessionID elicitationID reason : string)
    : S * result ToolErr Interaction :=
  if is_empty sessionID || is_empty elicitationID then (s, Err VALIDATION_ERROR)
  else resolveElicitationTool users a p c s (callerTenantID p fallback) sessionID elicitationID PhaseDismissed VNil reason.
End Request.

(** ** The route exists *)

Section Hops.
Variables (sessions : gmap string Session) (fault : string -> option LookupErr).
(** Rows are keyed by their id. *)
Hypothesis keyed_by_id : forall k s, sessions !! k = Some s -> s.(SID) = k.

Abbreviation lookupAncestor := (lookupAncestor sessions fault).
Abbreviation collect := (collect sessions fault).

Lemma lookupAncestor_Ok id s : lookupAncestor id = Ok s -> s.(SID) = id /\ sessions !! id = Some s.
Proof.
  unfold ElicitationTools.lookupAncestor. destruct (fault id); [done|]. destruct (sessions !! id) eqn:E; [|done].
  intros [= <-]. split; [by apply keyed_by_id|done].
Qed.

Lemma collect_enough (universe visited : gset string) cur fuel :
  dom sessions ⊆ universe -> cur.(SID) ∈ universe -> visited ⊆ universe -> size universe < fuel + size visited ->
  exists r, collect fuel visited cur = Some r.
Proof.
  intros Hd. revert visited cur. induction fuel as [|fuel IH]; intros visited cur Hc Hv Hf.
  { apply subseteq_size in Hv. lia. }
  cbn [ElicitationTools.collect]. case_bool_decide as Hin; [eauto|]. destruct (is_empty _); [eauto|].
  destruct (lookupAncestor cur.(SParent)) as [p|[]] eqn:El; [|eauto..]. apply lookupAncestor_Ok in El as [Ep Es].
  destruct (IH ({[cur.(SID)]} ∪ visited) p) as [r ->]; [| | |eauto].
  - rewrite Ep. apply Hd. by apply elem_of_dom.
  - set_solver.
  - rewrite size_union by set_solver. rewrite size_singleton. lia.
Qed.

(** What the loop found: a duplicate-free path of parents from [cur], away
    from the sessions seen before. *)
Lemma collect_path fuel visited cur chain : collect fuel visited cur = Some (Ok chain) ->
  (cur.(SID) ∉ visited -> head chain = Some cur) /\ NoDup (SID <$> chain) /\ (forall s, s ∈ chain -> s.(SID) ∉ visited) /\
  (forall i a b, chain !! i = Some a -> chain !! (S i) = Some b -> a.(SParent) = b.(SID)).
Proof.
  revert visited cur chain. induction fuel as [|fuel IH]; intros visited cur chain; [done|]. cbn [ElicitationTools.collect].
  case_bool_decide as Hin; [intros [= <-]; by split_and!; [| constructor| set_solver|]|].
  assert (forall c, c = [cur] -> (cur.(SID) ∉ visited -> head c = Some cur) /\ NoDup (SID <$> c) /\
    (forall s, s ∈ c -> s.(SID) ∉ visited) /\
    (forall i a b, c !! i = Some a -> c !! (S i) = Some b -> a.(SParent) = b.(SID))) as Hone.
  { intros c ->. split_and!; [done|apply NoDup_singleton|set_solver|]. by intros [|i] a b. }
  destruct (is_empty _); [intros [= <-]; by apply Hone|].
  destruct (lookupAncestor cur.(SParent)) as [p|[]] eqn:El; [|intros [= <-]; by apply Hone|done..].
  apply lookupAncestor_Ok in El as [Ep _]. intros (r & Hr & E)%fmap_Some. symmetry in E. apply rbind_Ok in E as (c & -> & [= <-]).
  destruct (IH _ _ _ Hr) as (Hh & Hn & Hv & Hl). split_and!.
  - done.
  - cbn. constructor; [|done]. intros (s & Es & Hs)%list_elem_of_fmap. specialize (Hv s Hs). set_solver.
  - intros s [->|Hs]%elem_of_cons; [done|]. specialize (Hv s Hs). set_solver.
  - intros [|i] a b Ha Hb; [|by eapply Hl]. injection Ha as <-. cbn in Hb.
    destruct (decide (p.(SID) ∈ {[cur.(SID)]} ∪ visited)) as [Hp|Hp].
    + destruct fuel as [|fuel]; [done|]. cbn in Hr. rewrite bool_decide_true in Hr by done. injection Hr as <-. done.
    + specialize (Hh Hp). rewrite <- Ep. destruct c as [|x c]; [done|]. by injection Hh as ->; injection Hb as ->.
Qed.

Lemma collect_err fuel visited cur e : collect fuel visited cur = Some (Err e) ->
  e = LookupFailure \/ exists hop, e = ELICITATION_PER_HOP_TIMEOUT hop.
Proof.
  revert visited cur. induction fuel as [|fuel IH]; intros visited cur; [done|]. cbn [ElicitationTools.collect].
  case_bool_decide; [done|]. destruct (is_empty _); [done|].
  destruct (lookupAncestor cur.(SParent)) as [p|[]]; [|done|intros [= <-]; eauto..].
  intros ([c|e'] & Hr & [= ->])%fmap_Some. by eapply IH.
Qed.

Lemma hops_of_lookup d chain i h : hops_of d chain !! i = Some h ->
  exists s, chain !! i = Some s /\ h.(HopSession) = s.(SID) /\ effectivePod h = s.(SID) /\
    h.(HopDepth) = (Z.of_nat (length chain) - 1 - Z.of_nat i)%Z /\ (h.(IsHuman) = true <-> S i = length chain) /\
    (i = 0 -> h.(Intercepts) = false).
Proof.
  unfold hops_of. rewrite list_lookup_imap. intros (s & Hs & ->)%fmap_Some. exists s. split; [done|].
  unfold effectivePod. cbn. split; [done|]. split; [by destruct (is_empty _)|]. split; [done|].
  split; [rewrite Z.eqb_eq; lia|]. by intros ->.
Qed.

Lemma hops_of_sessions d chain : HopSession <$> hops_of d chain = SID <$> chain.
Proof.
  unfold hops_of. apply list_eq. intros i. rewrite !list_lookup_fmap, list_lookup_imap. by destruct (chain !! i).
Qed.

(** Building the route of a prompt always ends, whatever the parent
    pointers say, cycles included.  The route then starts at the raising
    session, follows parents without repeating a session, counts its depths
    down to zero, and ends at a hop that faces a person; it fails only when
    the lookup of an ancestor fails for a reason other than a missing row. *)
Theorem buildHops_complete d raising : exists r, buildHops sessions fault d raising = Some r /\
  match r with
  | Err e => e = LookupFailure \/ exists hop, e = ELICITATION_PER_HOP_TIMEOUT hop
  | Ok hops =>
      (exists h, head hops = Some h /\ h.(HopSession) = raising.(SID) /\ h.(Intercepts) = false) /\
      NoDup (HopSession <$> hops) /\
      (exists h, last hops = Some h /\ h.(IsHuman) = true) /\
      forall i h, hops !! i = Some h ->
        h.(HopDepth) = (Z.of_nat (length hops) - 1 - Z.of_nat i)%Z /\ (h.(IsHuman) = true <-> S i = length hops) /\
        effectivePod h = h.(HopSession)
  end.
Proof.
  destruct (collect_enough ({[raising.(SID)]} ∪ dom sessions) ∅ raising (size sessions + 3)) as [r Hr]; [set_solver..| |].
  { rewrite size_union_alt, size_singleton, size_empty.
    assert (size (dom sessions ∖ {[raising.(SID)]}) <= size (dom sessions)) as Hs by (apply subseteq_size; set_solver).
    rewrite size_dom in Hs. lia. }
  unfold buildHops. rewrite Hr. eexists. split; [reflexivity|]. destruct r as [chain|e]; cbn [rbind]; [|by eapply collect_err].
  apply collect_path in Hr as (Hh & Hn & _ & _). specialize (Hh ltac:(set_solver)).
  assert (length (hops_of d chain) = length chain) as Hlen by apply length_imap.
  assert (length chain <> 0) as Hpos by (by destruct chain).
  split; [|split; [by rewrite hops_of_sessions|split]].
  - destruct (hops_of d chain) as [|h k] eqn:E; [cbn in Hlen; lia|]. exists h. split; [done|].
    destruct (hops_of_lookup d chain 0 h) as (s & Hs & -> & _ & _ & _ & Hi); [by rewrite E|].
    destruct chain; [done|]. injection Hh as ->. injection Hs as ->. auto.
  - destruct (last (hops_of d chain)) as [h|] eqn:E; [|apply last_None in E; rewrite E in Hlen; cbn in Hlen; lia].
    exists h. split; [done|]. rewrite last_lookup in E.
    destruct (hops_of_lookup d chain _ h E) as (s & _ & _ & _ & _ & Hhum & _). apply Hhum. lia.
  - intros i h Hi. destruct (hops_of_lookup d chain i h Hi) as (s & _ & Es & Ep & Hd & Hhum & _). rewrite Hlen. split; [done|].
    split; [done|]. by rewrite Ep.
Qed.
End Hops.

(** ** Integrity along the route *)

Section Integrity.
Context `{HashLaws} `{Urls}.
Variables (sessions : gmap string Session) (fault : string -> option LookupErr).

(** What a hop sent on, and whether it differs from the original. *)
Definition sent_on (d : Dispatcher) (h : Hop) : option Content := d.(forwardedContentFor) ≫= (fun f => f h).
Definition tampered (d : Dispatcher) (digest : runes) (h : Hop) : bool :=
  match sent_on d h with Some c => bool_decide (Digest c <> Some digest) | None => false end.

Lemma head_omap_find {A B} (f : A -> option B) (p : A -> bool) l :
  (forall x, p x = true <-> is_Some (f x)) ->
  head (omap f l) = match list_find (fun x => p x = true) l with Some (_, x) => f x | None => None end.
Proof.
  intros Hp. induction l as [|x l IH]; [done|]. cbn [omap list_omap list_find].
  destruct (decide (p x = true)) as [Hx|Hx].
  - pose proof Hx as [y Hy]%Hp. by rewrite Hy.
  - destruct (f x) eqn:E; [by destruct Hx; apply Hp; rewrite E|]. rewrite IH.
    by destruct (list_find _ l) as [[i y]|].
Qed.

Abbreviation input d hops content initiator fwd :=
  (mkChainInput hops content initiator d.(depthPolicy) d.(suppressAtDepth) fwd).

(** The policy does not depend on the hook. *)
Definition suppressed (d : Dispatcher) (hops : list Hop) (content : Content) (initiator : string) : bool :=
  Depth.ShouldSuppress (depth_policy (input d hops content initiator None)).1 initiator (originDepth hops)
    (depth_policy (input d hops content initiator None)).2.

Lemma hop_error_tampered d hops content initiator digest h :
  digest <> [] -> (forall c, sent_on d h = Some c -> is_Some (Digest c)) ->
  hop_error (input d hops content initiator d.(forwardedContentFor)) digest h =
  if tampered d digest h
  then Some (mkChainError Divergence (effectivePod h) (Some (Tamper digest (default [] (sent_on d h ≫= Digest))))) else None.
Proof.
  intros Hne Hs. unfold hop_error, check_hop, tampered. cbn [ForwardedContent]. fold (sent_on d h).
  destruct (sent_on d h) as [c|]; [|done]. destruct (Hs c eq_refl) as [g Hg]. unfold VerifyContent.
  rewrite bool_decide_false by done. change (Some c ≫= Digest) with (Digest c). rewrite Hg. cbn [default from_option].
  case_bool_decide as E1; case_bool_decide as E2; subst; try done. congruence.
Qed.

(** A route with its end as the resolver. *)
Definition reaches (hops : list Hop) (r : result ToolErr dispatchResult) : Prop :=
  exists dr h, r = Ok dr /\ last (route hops) = Some h /\ dr.(ResolverSessionID) = h.(HopSession) /\
    dr.(Suppressed) = false /\ dr.(Chain).(Hops) = route hops.

Lemma reaches_resolved origin rest : reaches (origin :: rest)
  (Ok (delivered (resolved_by (ends (last (route_tail rest))) (default origin (last (route_tail rest))) (origin :: route_tail rest)))).
Proof.
  unfold reaches, route. destruct (last (route_tail rest)) as [h|] eqn:El.
  - eexists _, h. split; [done|]. split; [rewrite last_cons, El; done|]. cbn [ends default from_option].
    destruct (Intercepts h); done.
  - apply last_None in El. rewrite El. eexists _, origin. done.
Qed.

(** C7. Where a prompt goes and what tampering does to it.  A prompt that is
    not suppressed reaches the end of its route: the nearest ancestor that
    intercepts, else the hop that faces a person.  With checks off, or when
    every hop up to there sent on content with the digest of the original,
    nothing is recorded.  Otherwise the first hop that did not is named; under
    [detect-only] the prompt still reaches the same end, under [enforce] it is
    refused, and where an audit log is wired the divergence is in it with both
    digests. *)
Theorem dispatch_integrity d tenant raising content initiator url hops digest :
  CheckURLModeProvenance initiator url "" d.(urlModeAllowlist) = Ok () ->
  buildHops sessions fault d raising = Some (Ok hops) -> hops <> [] ->
  Digest content = Some digest ->
  (forall h c, sent_on d h = Some c -> is_Some (Digest c)) ->
  suppressed d hops content initiator = false ->
  let mode := resolveMode d tenant in
  exists notes r, dispatch sessions fault d tenant raising content initiator url = Some (notes, r) /\
  match (if String.eqb mode Mode.ModeOff then None
         else list_find (fun h => tampered d digest h = true) (tail (route hops))) with
  | None => notes = [] /\ reaches hops r
  | Some (_, h) =>
      (mode = Mode.ModeDetectOnly -> reaches hops r) /\
      (mode <> Mode.ModeDetectOnly -> exists fields, r = Err (ELICITATION_CONTENT_TAMPERED (effectivePod h) fields)) /\
      (d.(audit) = true -> exists e, TamperAudit e ∈ notes /\ e.(te_tampering_pod) = effectivePod h /\
         e.(te_origin_pod) = raising.(SID) /\ e.(te_mode) = mode /\ e.(te_original) = digest /\
         (sent_on d h ≫= Digest) = Some e.(te_attempted) /\ e.(te_attempted) <> digest /\
         e.(te_outcome) = (if String.eqb mode Mode.ModeDetectOnly then "forwarded_as_received" else "rejected"))
  end.
Proof.
  intros Hurl Hb Hne Hd Hs Hsup mode. destruct hops as [|origin rest]; [done|].
  assert (digest <> []) as Hdn. { unfold Digest in Hd. apply fmap_Some in Hd as (t & _ & ->). apply hex_nonempty. }
  unfold dispatch. rewrite Hurl, Hb. cbn [fmap option_fmap option_map]. fold mode.
  assert (forall fwd, WalkChain (input d (origin :: rest) content initiator fwd) =
    match head (omap (hop_error (input d (origin :: rest) content initiator fwd) digest) (route_tail rest)) with
    | Some e => Err e
    | None => Ok (resolved_by (ends (last (route_tail rest))) (default origin (last (route_tail rest))) (origin :: route_tail rest))
    end) as Hw by (intros fwd; by apply WalkChain_eq).
  assert (WalkChain (input d (origin :: rest) content initiator None) =
    Ok (resolved_by (ends (last (route_tail rest))) (default origin (last (route_tail rest))) (origin :: route_tail rest))) as Hnone.
  { rewrite Hw. replace (omap _ _) with (@nil ChainError); [done|]. symmetry. apply omap_nil. apply Forall_forall. by intros. }
  destruct (String.eqb_spec mode Mode.ModeOff) as [Em|Em].
  { rewrite Hnone. eexists _, _. split; [done|]. split; [done|]. apply reaches_resolved. }
  rewrite Hw. cbn [route tail]. rewrite (head_omap_find _ (tampered d digest)).
  2: { intros h. rewrite hop_error_tampered; [|done|apply Hs]. destruct (tampered d digest h); split; [eauto|done|done|intros [? ?]; done]. }
  destruct (list_find _ (route_tail rest)) as [[i h]|] eqn:Ef.
  2: { eexists _, _. split; [done|]. split; [done|]. apply reaches_resolved. }
  apply list_find_Some in Ef as (_ & Ht & _). rewrite hop_error_tampered by (done || apply Hs). rewrite Ht. cbn [Cause].
  unfold tampered in Ht. destruct (sent_on d h) as [c|] eqn:Es; [|done]. apply bool_decide_eq_true in Ht.
  destruct (Hs h c Es) as [g Hg]. change (Some c ≫= Digest) with (Digest c). rewrite Hg. cbn [default from_option].
  eexists _, _. split; [reflexivity|]. cbn [ErrHop]. rewrite Hnone. split_and!.
  - intros ->. cbn. apply reaches_resolved.
  - intros Hm. destruct (String.eqb_spec mode Mode.ModeDetectOnly); [done|]. eauto.
  - intros ->. eexists. split; [apply elem_of_app; right; by constructor|]. cbn. split_and!; try done. by intros ->.
Qed.
End Integrity.

(** ** Who resolves a prompt *)

Section Resolver.
Context `{HashLaws} `{Urls}.

Lemma WalkChain_resolver in_ res : WalkChain in_ = Ok res -> res.(Termination) <> TerminateSuppressed ->
  exists h, last (route in_.(InHops)) = Some h /\ res.(ResolverSession) = h.(HopSession) /\ res.(Hops) = route in_.(InHops).
Proof.
  destruct in_.(InHops) as [|origin rest] eqn:Eh; [unfold WalkChain; by rewrite Eh|].
  destruct (Depth.ShouldSuppress (depth_policy in_).1 in_.(Initiator) origin.(HopDepth) (depth_policy in_).2) eqn:Es.
  { unfold WalkChain. rewrite Eh. destruct (depth_policy in_). cbn [fst snd] in Es. rewrite Es. by intros [= <-]. }
  destruct (Digest in_.(OriginalContent)) as [d|] eqn:Ed.
  2: { unfold WalkChain. rewrite Eh. destruct (depth_policy in_). cbn [fst snd] in Es. by rewrite Es, Ed. }
  rewrite (WalkChain_eq in_ origin rest d) by done. destruct (head _); [done|]. intros [= <-] _.
  destruct (reaches_resolved origin rest) as (dr & h & [= <-] & El & Er & _ & Ehops). exists h. split; [done|].
  unfold ends in *. destruct (last (route_tail rest)) as [x|]; [destruct (Intercepts x)|]; done.
Qed.

Variables (sessions : gmap string Session) (fault : string -> option LookupErr).

Lemma dispatch_resolver d tenant raising content initiator url notes dr :
  dispatch sessions fault d tenant raising content initiator url = Some (notes, Ok dr) -> dr.(Suppressed) = false ->
  exists hops h, buildHops sessions fault d raising = Some (Ok hops) /\ last (route hops) = Some h /\
    dr.(ResolverSessionID) = h.(HopSession) /\ dr.(Chain).(Hops) = route hops.
Proof.
  assert (forall hops in_ res, WalkChain in_ = Ok res -> in_.(InHops) = hops -> (delivered res).(Suppressed) = false ->
    exists h, last (route hops) = Some h /\ (delivered res).(ResolverSessionID) = h.(HopSession) /\ (delivered res).(Chain).(Hops) = route hops) as Hw.
  { intros hops in_ res Hres <- Hs. destruct (WalkChain_resolver in_ res Hres) as (h & Hl & Hr & Hh).
    - intros E. unfold delivered in Hs. by rewrite E in Hs.
    - exists h. split; [done|]. unfold delivered in *. by destruct (Termination res). }
  unfold dispatch. destruct (CheckURLModeProvenance _ _ _ _); [|done]. intros (r & Hb & E)%fmap_Some Hs.
  destruct r as [hops|]; [|done]. exists hops. setoid_rewrite Hb. cbv zeta in E.
  destruct (WalkChain _) as [res|e] eqn:Ew.
  - injection E as -> ->. destruct (Hw hops _ res Ew eq_refl Hs) as (h & ?). exists h. done.
  - destruct (Cause e) as [[]|]; try done. unfold handleTamper in E. cbv zeta in E. injection E as _ E.
    destruct (String.eqb (resolveMode d tenant) Mode.ModeDetectOnly); [|done].
    destruct (WalkChain (mkChainInput _ _ _ _ _ None)) as [res|] eqn:Ew2; [|done]. injection E as ->.
    destruct (Hw hops _ res Ew2 eq_refl Hs) as (h & ?). exists h. done.
Qed.

Hypothesis keyed_by_id : forall k s, sessions !! k = Some s -> s.(SID) = k.

(** A session whose parent is found is never its own resolver. *)
Lemma delegated_resolver d tenant raising content initiator url notes dr parent :
  raising.(SParent) <> "" -> lookupAncestor sessions fault raising.(SParent) = Ok parent -> parent.(SID) <> raising.(SID) ->
  dispatch sessions fault d tenant raising content initiator url = Some (notes, Ok dr) -> dr.(Suppressed) = false ->
  dr.(ResolverSessionID) <> raising.(SID).
Proof.
  intros Hp Hl Hne Hd Hs. destruct (dispatch_resolver _ _ _ _ _ _ _ _ Hd Hs) as (hops & h & Hb & Hlast & -> & _).
  unfold buildHops in Hb. apply fmap_Some in Hb as (r & Hc & E). symmetry in E. apply rbind_Ok in E as (chain & -> & [= <-]).
  destruct (collect_path sessions fault keyed_by_id _ _ _ _ Hc) as (_ & Hn & _ & _).
  destruct (size sessions + 3) as [|fuel]; [done|]. cbn [collect] in Hc. rewrite bool_decide_false in Hc by set_solver.
  rewrite is_empty_false in Hc by done. rewrite Hl in Hc. apply fmap_Some in Hc as (r & Hc & E).
  symmetry in E. apply rbind_Ok in E as (c & -> & [= <-]).
  destruct (collect_path sessions fault keyed_by_id _ _ _ _ Hc) as (Hh & _ & _ & _). specialize (Hh ltac:(set_solver)).
  destruct c as [|x c]; [done|]. pose proof (hops_of_sessions d (raising :: x :: c)) as Es.
  destruct (hops_of d (raising :: x :: c)) as [|h0 [|h1 hs]]; [done..|]. rewrite <- Es in Hn.
  cbn in Es. injection Es as E0 _ _. cbn [route] in Hlast. rewrite last_cons in Hlast.
  assert (forall l, route_tail l ⊆ l) as Hsub.
  { induction l as [|y l IH]; [done|]. cbn. destruct (_ || _); set_solver. }
  assert (h ∈ route_tail (h1 :: hs)) as Hin.
  { destruct (last (route_tail (h1 :: hs))) as [h'|] eqn:El; [|by apply last_None in El].
    injection Hlast as <-. by apply last_Some_elem_of. }
  apply Hsub in Hin. intros E. cbn in Hn. apply NoDup_cons in Hn as [Hn _]. apply Hn. rewrite E0, <- E.
  change (HopSession h1 :: (HopSession <$> hs)) with (HopSession <$> h1 :: hs). by apply list_elem_of_fmap_2.
Qed.
End Resolver.

(** ** Budgets, answers and ids *)

Lemma answer_keeps_owner phase response reason : keeps_owner (answer phase response reason).
Proof. intros i i'. unfold answer. destruct (String.eqb _ _); [|done]. by intros [= <-]. Qed.

Definition failed_tool {A} (r : result ToolErr A) : Prop := exists e, r = Err e.

Section Requests.
Context {S : Type} `{InteractionLaws S} `{HashLaws} `{Urls}.
Variables (sessions : gmap string Session) (fault : string -> option LookupErr).
Variables (text_of : runes -> string) (int_value : Z -> value).

Abbreviation raise := (raise sessions fault text_of int_value).
Abbreviation request := (requestElicitation (S := S) sessions fault text_of int_value).

Lemma detail_origin args row digest depth : detail_of text_of int_value args row digest depth !! DetailOriginPod = Some (VString row.(SID)).
Proof.
  unfold detail_of. cbv zeta.
  assert (forall (k : string) (v : value) (m : gmap string value), k <> DetailOriginPod ->
    m !! DetailOriginPod = Some (VString row.(SID)) -> <[k := v]> m !! DetailOriginPod = Some (VString row.(SID))) as Hi.
  { intros k v m Hk Hm. by rewrite lookup_insert_ne. }
  repeat case_match; repeat (apply Hi; [done|]); reflexivity.
Qed.

(** What a request records. *)
Lemma raise_inv cfg tenant row args notes i : raise cfg tenant row args = Some (notes, inr i) ->
  exists d notes' dr, dispatch sessions fault (perCall cfg row) tenant row
      (mkContent args.(arg_message) (default VNil args.(arg_schema))) Depth.InitiatorAgent args.(arg_url) = Some (notes', Ok dr) /\
    dr.(Suppressed) = false /\ Digest (mkContent args.(arg_message) (default VNil args.(arg_schema))) = Some d /\
    slot i = (tenant, dr.(ResolverSessionID), if is_empty args.(arg_id) then cfg.(cfg_new_id) else args.(arg_id)) /\
    i.(IKind) = KindElicitation /\ i.(IPhase) = PhasePending /\ i.(IUser) = row.(SUser) /\
    i.(IDetail) !! DetailOriginPod = Some (VString row.(SID)).
Proof.
  unfold ElicitationTools.raise. destruct (Digest _) as [d|]; [|done]. intros ([n r] & Hd & E)%fmap_Some.
  destruct r as [dr|]; [|done]. destruct (Suppressed dr) eqn:Es; [done|]. injection E as -> ->.
  exists d, n, dr. do 3 (split; [done|]). split; [done|]. do 3 (split; [done|]). apply detail_origin.
Qed.

Lemma count_insert_other (t se : string) (m : gmap ISlot Interaction) (k : ISlot) (i : Interaction) :
  keyed m -> slot i = k -> k.1.2 <> se ->
  count_rows (elicitation_of t se) (<[k := i]> m) = count_rows (elicitation_of t se) m.
Proof.
  intros Hm <- Hk. unfold count_rows, select. do 2 f_equal.
  assert (forall j, slot j = slot i -> elicitation_of t se j = false) as Hno.
  { intros j Hj. unfold elicitation_of. destruct (String.eqb_spec j.(ISession) se) as [<-|]; [|by rewrite andb_false_r].
    injection Hj as _ Hj _. by rewrite Hj in Hk. }
  apply map_eq. intros x. apply option_eq. intros j. rewrite !map_lookup_filter_Some, lookup_insert_Some.
  split; intros [Hj Hp]; cbn in Hp.
  - destruct Hj as [[_ <-]|[_ Hj]]; [by rewrite Hno in Hp|done].
  - split; [|done]. right. split; [|done]. intros <-. rewrite Hno in Hp; [done|]. by apply Hm.
Qed.

Lemma dispatch_not_quota d tenant raising content initiator url notes :
  dispatch sessions fault d tenant raising content initiator url <> Some (notes, Err QUOTA_EXCEEDED).
Proof.
  unfold dispatch. destruct (CheckURLModeProvenance _ _ _ _); [|done]. intros ([hops|e] & Hb & E)%fmap_Some.
  - cbv zeta in E. destruct (WalkChain _); [done|]. destruct (Cause _) as [[]|]; try done.
    unfold handleTamper in E. cbv zeta in E. injection E as _ E. repeat case_match; done.
  - injection E as _ <-. unfold buildHops in Hb. apply fmap_Some in Hb as ([c|e] & Hc & [= <-]).
    apply collect_err in Hc as [?|[? ?]]; done.
Qed.

Lemma raise_not_quota cfg tenant row args notes : raise cfg tenant row args <> Some (notes, inl (Failed QUOTA_EXCEEDED)).
Proof.
  unfold ElicitationTools.raise. destruct (Digest _); [|done]. intros ([n' r] & Hd & E)%fmap_Some.
  destruct r as [dr|e]; [by destruct (Suppressed dr)|]. injection E as _ <-. by apply dispatch_not_quota in Hd.
Qed.

(** A session that raises prompts one after the other. *)
Fixpoint requests (cfg : Config) (p : option Principal) (calls : list (RequestArgs * ICall * ICall)) (s : S)
    : option (S * list (Outcome + Waiting)) :=
  match calls with
  | [] => Some (s, [])
  | (args, count, put) :: calls =>
      match request cfg p args count put id s with
      | None => None
      | Some (s, o) => (fun r => (r.1, o :: r.2)) <$> requests cfg p calls s
      end
  end.

Hypothesis keyed_by_id : forall k s, sessions !! k = Some s -> s.(SID) = k.

Lemma request_uncharged cfg p se row parent args cc cp s m s1 o :
  let tenant := callerTenantID p cfg.(cfg_tenant) in
  represents s m -> row.(SID) = se -> row.(SParent) <> "" ->
  lookupAncestor sessions fault row.(SParent) = Ok parent -> parent.(SID) <> se ->
  callerSessionID p args.(arg_session) = se -> callerRow cfg p args = Ok row ->
  (forall resolver, slot_ok (tenant, resolver, if is_empty args.(arg_id) then cfg.(cfg_new_id) else args.(arg_id))) ->
  (count_rows (elicitation_of tenant se) m < (limits_of cfg row).1)%Z ->
  request cfg p args cc cp id s = Some (s1, o) ->
  o <> inl (Failed QUOTA_EXCEEDED) /\
  exists m1, represents s1 m1 /\ count_rows (elicitation_of tenant se) m1 = count_rows (elicitation_of tenant se) m.
Proof.
  intros tenant Hr Hid Hp Hl Hne Hse Hrow Hok Hlt. unfold requestElicitation. fold tenant. rewrite Hrow, Hse.
  destruct (CountElicitations cc s tenant se) as [n|e] eqn:Ec; [|intros [= <- <-]; split; [done|by exists m]].
  apply (count_law _ _ m) in Ec; [|done]. destruct (Z.leb_spec (limits_of cfg row).1 n); [lia|].
  intros ([notes out] & Hraise & E)%fmap_Some. cbn [snd id] in E. destruct out as [o'|i].
  { simplify_eq. split; [|by exists m]. intros [= ->]. by apply raise_not_quota in Hraise. }
  destruct (raise_inv _ _ _ _ _ _ Hraise) as (dg & n' & dr & Hd & Hs & _ & Hslot & _).
  assert (dr.(ResolverSessionID) <> se) as Hres by (rewrite <- Hid; eapply delegated_resolver; eauto; congruence).
  destruct (Put cp s i) as [s3 r] eqn:Ep.
  assert (slot_ok (slot i)) as Hoki by (rewrite Hslot; apply Hok).
  destruct (put_law _ _ _ _ _ _ Hr Hoki Ep) as (m1 & Hr1 & Hm1).
  assert (count_rows (elicitation_of tenant se) m1 = count_rows (elicitation_of tenant se) m) as Hc.
  { destruct Hm1 as [[-> _]|(i' & Hrec & ->)]; [done|]. apply count_insert_other; [|apply Hrec|by rewrite Hslot].
    intros k j. by eapply represents_slot. }
  destruct r; simplify_eq; (split; [done|]); by exists m1.
Qed.

(** The budget of prompts is not charged to a delegated session.  A prompt
    is recorded under the session that resolves it, and the budget counts what
    is recorded under the session that raises it: a session whose parent is
    found can raise any number of prompts, and none is refused for its budget,
    as long as the prompts it may have to answer itself leave it one. *)
Theorem delegated_budget_uncharged cfg p se row parent calls s m s' outs :
  let tenant := callerTenantID p cfg.(cfg_tenant) in
  represents s m -> row.(SID) = se -> row.(SParent) <> "" ->
  lookupAncestor sessions fault row.(SParent) = Ok parent -> parent.(SID) <> se ->
  (forall args count put, (args, count, put) ∈ calls ->
     callerSessionID p args.(arg_session) = se /\ callerRow cfg p args = Ok row /\
     forall resolver, slot_ok (tenant, resolver, if is_empty args.(arg_id) then cfg.(cfg_new_id) else args.(arg_id))) ->
  (count_rows (elicitation_of tenant se) m < (limits_of cfg row).1)%Z ->
  requests cfg p calls s = Some (s', outs) ->
  inl (Failed QUOTA_EXCEEDED) ∉ outs /\
  exists m', represents s' m' /\ count_rows (elicitation_of tenant se) m' = count_rows (elicitation_of tenant se) m.
Proof.
  intros tenant Hr Hid Hp Hl Hne. revert s m outs Hr. induction calls as [|[[args cc] cp] calls IH]; intros s m outs Hr Hcalls Hlt; cbn [requests].
  { intros [= <- <-]. split; [set_solver|]. by exists m. }
  destruct (Hcalls args cc cp) as (Hse & Hrow & Hok); [by left|].
  destruct (request cfg p args cc cp id s) as [[s1 o]|] eqn:Eq; [|done].
  intros ([s2 outs2] & Hrest & E)%fmap_Some. injection E as -> ->. cbn [fst snd].
  destruct (request_uncharged _ _ _ _ _ _ _ _ _ _ _ _ Hr Hid Hp Hl Hne Hse Hrow Hok Hlt Eq) as [Ho (m1 & Hr1 & Hc1)].
  destruct (IH s1 m1 outs2 Hr1) as [Hq (m2 & Hr2 & Hc2)]; [|unfold tenant in *; lia|done|].
  - intros a c1 c2 Hin. apply (Hcalls a c1 c2). by right.
  - split; [set_solver|]. exists m2. split; [done|]. unfold tenant in *. congruence.
Qed.

(** An answer is taken only from the user a prompt is directed at, on the
    session that resolves it, and only while it is pending: whatever is
    returned, no other row changes; a success means there was such a row and it
    now holds the answer; without one the row is unchanged and the caller sees
    an error, the same one for an unknown id, another session and another
    user.  Only a failure of the database leaves open whether the answer was
    stored. *)
Theorem answers_are_authorized c s m t se u id phase response reason s' r :
  represents s m -> slot_ok (t, se, id) -> ResolveElicitation c s t se u id phase response reason = (s', r) ->
  exists m', represents s' m' /\ (forall k, k <> (t, se, id) -> m' !! k = m !! k) /\
    let directed := exists i, m !! (t, se, id) = Some i /\ i.(IUser) = u /\ i.(IKind) = KindElicitation /\ i.(IPhase) = PhasePending in
    (forall out, r = Ok out -> directed /\ exists i', m' !! (t, se, id) = Some i' /\ i'.(IUser) = u /\
       i'.(IKind) = KindElicitation /\ i'.(IPhase) = phase /\ i'.(IReason) = reason) /\
    (~ directed -> m' = m /\ failed_tool r) /\
    ((forall i, m !! (t, se, id) = Some i -> i.(IUser) <> u \/ (i.(IKind) <> KindElicitation /\ i.(IPhase) = PhasePending)) ->
       r = Err ELICITATION_NOT_FOUND \/ exists e, r = Err (StoreFailure e) /\ e <> ErrAlreadyResolved) /\
    (m' <> m -> (exists out, r = Ok out) \/ r = Err (StoreFailure ErrDb)).
Proof.
  intros Hr Hok. unfold ResolveElicitation. destruct (Resolve _ _ _ _ _ _ _) as [s1 r0] eqn:E. intros [= <- <-].
  destruct (resolve_law _ _ _ _ _ _ _ _ _ _ Hr Hok (answer_keeps_owner phase response reason) E) as (m' & Hr' & Hcase).
  exists m'. split; [done|]. cbv zeta.
  destruct Hcase as [[-> [e ->]]|(i & i1 & i2 & Hi & Hu & Hp & Hf & (_ & Hu2 & Hk2 & Hp2 & Hn2) & -> & Hres)].
  - pose proof (resolve_errors _ _ _ _ _ _ _ _ _ _ Hr Hok E) as [Ha _].
    split; [done|]. split; [by destruct e|]. split; [by destruct e; unfold failed_tool; eauto|]. split; [|done].
    intros Hno. destruct e; eauto. right. exists ErrAlreadyResolved. split; [done|].
    destruct (Ha eq_refl) as [(i & Hi & Hu & Hp)|[i Hi]]; [destruct (Hno i Hi) as [?|[_ ?]]; done|].
    unfold answer in Hi. by destruct (String.eqb _ _).
  - unfold answer in Hf. destruct (String.eqb_spec i.(IKind) KindElicitation) as [Hk|]; [|done]. injection Hf as <-.
    split; [intros k Hk'; by rewrite lookup_insert_ne|].
    assert (exists i, m !! (t, se, id) = Some i /\ i.(IUser) = u /\ i.(IKind) = KindElicitation /\ i.(IPhase) = PhasePending) as Hd by eauto.
    split; [|split; [done|split]].
    + intros out Ho. split; [done|]. exists i2. rewrite lookup_insert_eq. cbn in *. split_and!; congruence.
    + intros Hno. by destruct (Hno i Hi) as [?|[? _]].
    + intros _. destruct Hres as [->|(out & -> & _)]; [by right|left; eauto].
Qed.

(** An id that is used again replaces whatever row has it, also a prompt
    that was answered: once a request is recorded, the row of its id and
    resolver is pending, names the new session as its origin and waits for
    that session's user; every other row is as it was. *)
Theorem reused_id_replaces_prompt cfg p args count put others s s' w m row :
  let k := (w.(w_tenant), w.(w_resolver), w.(w_id)) in
  callerRow cfg p args = Ok row -> valid_utf8 row.(SID) = true ->
  represents (others s) m -> slot_ok k ->
  request cfg p args count put others s = Some (s', inr w) ->
  exists m' i, represents s' m' /\ m' !! k = Some i /\ i.(IPhase) = PhasePending /\
    origin_of i.(IDetail) = row.(SID) /\ i.(IUser) = row.(SUser) /\ forall k', k' <> k -> m' !! k' = m !! k'.
Proof.
  intros k Hrow Hv Hr Hok. unfold requestElicitation. rewrite Hrow.
  destruct (CountElicitations _ _ _ _); [|done]. destruct (_ <=? _)%Z; [done|].
  intros ([notes out] & Hraise & E)%fmap_Some. cbn [snd] in E. destruct out as [o'|i]; [done|].
  destruct (raise_inv _ _ _ _ _ _ Hraise) as (dg & n' & dr & _ & _ & _ & Hslot & Hk & Hp & Hu & Ho).
  destruct (Put put (others s) i) as [s3 r] eqn:Ep. destruct r; [done|]. injection E as -> ->.
  assert (slot i = k) as Hki by (unfold k; cbn; rewrite Hslot; unfold slot in Hslot; congruence).
  assert (slot_ok (slot i)) as Hoki by (by rewrite Hki).
  destruct (put_law _ _ _ _ _ _ Hr Hoki Ep) as (m1 & Hr1 & [[_ ?]|(i' & Hrec & ->)]); [done|].
  destruct Hrec as (Hs' & _ & Hu' & _ & Hp' & Ho'). exists (<[slot i := i']> m), i'. rewrite Hki in *.
  split; [done|]. split; [apply lookup_insert_eq|]. split; [by rewrite Hp', Hp|]. split.
  - unfold origin_of. by rewrite (Ho' _ Ho Hv).
  - split; [congruence|]. intros k' Hk'. by rewrite lookup_insert_ne.
Qed.

(** An answer that arrives between a poll and the timeout is lost on the
    agent: the answer stays recorded, and the request reports a timeout. *)
Theorem timeout_hides_answer c s m w i :
  represents s m -> slot_ok (w.(w_tenant), w.(w_resolver), w.(w_id)) ->
  m !! (w.(w_tenant), w.(w_resolver), w.(w_id)) = Some i -> i.(IPhase) = PhaseResponded ->
  exists s' m', wake (TimeUp c) s w = (s', Some (Failed ELICITATION_TIMEOUT)) /\ represents s' m' /\ m' = m.
Proof.
  intros Hr Hok Hi Hp. cbn [wake]. destruct (Resolve _ _ _ _ _ _ _) as [s' r] eqn:E. exists s', m. split; [done|]. split; [|done].
  assert (keeps_owner dismiss_on_timeout) as Hf.
  { intros j j' [= <-]. by destruct (String.eqb _ _). }
  destruct (resolve_law _ _ _ _ _ _ _ _ _ _ Hr Hok Hf E) as (m' & Hr' & [[-> _]|(j & _ & _ & Hj & _ & Hjp & _)]); [done|].
  rewrite Hi in Hj. injection Hj as <-. by rewrite Hp in Hjp.
Qed.

(** What a poll returns is what the store holds. *)
Lemma poll_faithful c s m w id v : represents s m -> slot_ok (w.(w_tenant), w.(w_resolver), w.(w_id)) ->
  poll c s w = Some (Responded id v) ->
  exists i, m !! (w.(w_tenant), w.(w_resolver), w.(w_id)) = Some i /\ i.(IUser) = w.(w_user) /\
    i.(IPhase) = PhaseResponded /\ i.(IResponse) = v.
Proof.
  intros Hr Hok. unfold poll. destruct (Get _ _ _ _ _ _) as [i|] eqn:E; [|done].
  destruct (get_law _ _ _ _ _ _ _ _ Hr Hok E) as [Hi Hu].
  destruct (String.eqb_spec i.(IPhase) PhaseResponded) as [Hp|]; [|by destruct (String.eqb _ _)].
  intros [= <- <-]. eauto.
Qed.
End Requests.

(** ** Examples *)

Module TDemo.
Import Elicitation.Demo Interactions.IDemo.

Definition sess (id parent : string) (depth : Z) : Session := mkSession id parent "ann" "running" "" "" depth.
(** root <- lead <- child <- deep. *)
Definition tree : gmap string Session :=
  list_to_map [("root", sess "root" "" 0); ("lead", sess "lead" "root" 1); ("child", sess "child" "lead" 2);
               ("deep", sess "deep" "child" 3)].
Definition no_fault (id : string) : option LookupErr := None.

Lemma tree_keyed (k : string) (s : Session) : tree !! k = Some s -> s.(SID) = k.
Proof.
  unfold tree. cbn. rewrite !lookup_insert_Some, lookup_empty. naive_solver.
Qed.

(** The hop [lead] changes the message. *)
Definition forged : Content := mkContent "give me your password" VNil.
Definition asked : Content := mkContent "ok?" VNil.
Definition dispatcher (mode : string) : Dispatcher :=
  mkDispatcher "" 0 (mkAllowlist false []) None false false true (Some (fun _ => mode))
    (Some (fun h => if String.eqb h.(HopSession) "lead" then Some forged else None)).

Definition config : Config :=
  mkConfig "acme" 1 0 (fun _ => None) (fun _ => None)
    (mkDispatcher "" 0 (mkAllowlist false []) None false false false None None) "e9"
    (mkAccess (Some (fun id => match tree !! id with Some s => Ok s | None => Err LNotFound end)) (Some (fun _ => true))).
Definition caller (session : string) : option Principal := Some (mkPrincipal "ann" "acme" session).
Definition args (id : string) : RequestArgs := mkRequestArgs "" "ok?" (Some (VObject [])) id "".
Definition text_of (r : runes) : string := "digest".
Definition int_value (z : Z) : value := VOther None.
End TDemo.

Import Elicitation.Demo Interactions.IDemo.

Lemma buildHops_complete_witness :
  exists hops, buildHops TDemo.tree TDemo.no_fault (TDemo.dispatcher Mode.ModeOff) (TDemo.sess "child" "lead" 2) = Some (Ok hops) /\
    exists h, last hops = Some h /\ h.(IsHuman) = true.
Proof.
  destruct (buildHops_complete TDemo.tree TDemo.no_fault TDemo.tree_keyed (TDemo.dispatcher Mode.ModeOff) (TDemo.sess "child" "lead" 2))
    as (r & Hr & Hc).
  destruct r as [hops|e].
  - exists hops. split; [exact Hr|]. destruct Hc as (_ & _ & Hl & _). exact Hl.
  - exfalso. vm_compute in Hr. discriminate.
Defined.

Lemma dispatch_integrity_witness :
  let d := TDemo.dispatcher Mode.ModeEnforce in
  exists notes fields, dispatch TDemo.tree TDemo.no_fault d "acme" (TDemo.sess "child" "lead" 2) TDemo.asked
      Depth.InitiatorAgent "" = Some (notes, Err (ELICITATION_CONTENT_TAMPERED "lead" fields)) /\
    exists e, TamperAudit e ∈ notes.
Proof.
  intros d.
  assert (exists hops, buildHops TDemo.tree TDemo.no_fault d (TDemo.sess "child" "lead" 2) = Some (Ok hops) /\
    list_find (fun h => tampered d (default [] (Digest TDemo.asked)) h = true) (tail (route hops)) =
      Some (0, mkHop "lead" "lead" 1 false false) /\ hops <> [] /\
    suppressed d hops TDemo.asked Depth.InitiatorAgent = false) as (hops & Hb & Hf & Hn & Hs).
  { eexists. split; [vm_compute; reflexivity|]. split; [vm_compute; reflexivity|]. split; [discriminate|vm_compute; reflexivity]. }
  destruct (dispatch_integrity TDemo.tree TDemo.no_fault d "acme" (TDemo.sess "child" "lead" 2) TDemo.asked Depth.InitiatorAgent
    "" hops (default [] (Digest TDemo.asked))) as (notes & r & Hd & Hm).
  - reflexivity.
  - exact Hb.
  - exact Hn.
  - vm_compute. reflexivity.
  - intros h c Hc. unfold sent_on, d in Hc. cbn in Hc. destruct (String.eqb _ _); [|discriminate].
    injection Hc as <-. vm_compute. eexists. reflexivity.
  - exact Hs.
  - change (String.eqb (resolveMode d "acme") Mode.ModeOff) with false in Hm. cbv iota in Hm. rewrite Hf in Hm.
    destruct Hm as (_ & He & Ha). destruct (He ltac:(discriminate)) as [fields ->].
    destruct (Ha eq_refl) as (e & Hin & _). exists notes, fields. split; [exact Hd|]. exists e. exact Hin.
Defined.

(** Three prompts of [child] with a budget of one. *)
Lemma delegated_budget_uncharged_witness :
  let calls := [(TDemo.args "a", healthy, healthy); (TDemo.args "b", healthy, healthy); (TDemo.args "c", healthy, healthy)] in
  exists s' outs, requests (S := Pgx.Store) TDemo.tree TDemo.no_fault TDemo.text_of TDemo.int_value TDemo.config
      (TDemo.caller "child") calls (Pgx.mkPgStore {["acme"]} ∅) = Some (s', outs) /\
    length outs = 3 /\ inl (Failed QUOTA_EXCEEDED) ∉ outs.
Proof.
  intros calls.
  assert (option_map (fun r => length r.2) (requests (S := Pgx.Store) TDemo.tree TDemo.no_fault TDemo.text_of TDemo.int_value TDemo.config
      (TDemo.caller "child") calls (Pgx.mkPgStore {["acme"]} ∅)) = Some 3) as Hlen by (vm_compute; reflexivity).
  destruct (requests _ _ _ _ _ _ _ _) as [[s' outs]|] eqn:E; [|discriminate].
  exists s', outs. split; [reflexivity|]. split; [injection Hlen as Hlen; exact Hlen|].
  apply (delegated_budget_uncharged (S := Pgx.Store) TDemo.tree TDemo.no_fault TDemo.text_of TDemo.int_value TDemo.tree_keyed TDemo.config
    (TDemo.caller "child") "child" (TDemo.sess "child" "lead" 2) (TDemo.sess "lead" "root" 1) calls (Pgx.mkPgStore {["acme"]} ∅) ∅ s' outs).
  - split; [reflexivity|]. intros k i Hi. rewrite lookup_empty in Hi. discriminate.
  - reflexivity.
  - discriminate.
  - vm_compute. reflexivity.
  - discriminate.
  - clear E Hlen. intros a c1 c2 Hin. repeat (apply elem_of_cons in Hin as [Hin|Hin]; [injection Hin as -> -> ->|]);
      [| | |exfalso; exact (not_elem_of_nil _ Hin)]; (split; [reflexivity|split; [vm_compute; reflexivity|intros ?; exact I]]).
  - vm_compute. reflexivity.
  - exact E.
Defined.

Lemma answers_are_authorized_witness :
  let '(s', r) := ResolveElicitation healthy store "acme" "root" "eve" "e1" PhaseResponded (VBool false) "" in
  failed_tool r.
Proof.
  destruct (ResolveElicitation healthy store "acme" "root" "eve" "e1" PhaseResponded (VBool false) "") as [s' r] eqn:E.
  destruct (answers_are_authorized healthy store table "acme" "root" "eve" "e1" PhaseResponded (VBool false) "" s' r
    represented I E) as (m' & _ & _ & _ & Hno & _).
  apply Hno. intros (i & Hi & Hu & _). vm_compute in Hi. injection Hi as <-. discriminate.
Defined.

Lemma reused_id_replaces_prompt_witness :
  exists s' w m' i, requestElicitation TDemo.tree TDemo.no_fault TDemo.text_of TDemo.int_value TDemo.config (TDemo.caller "lead")
      (TDemo.args "e1") healthy healthy id store = Some (s', inr w) /\
    represents s' m' /\ m' !! ("acme", "root", "e1") = Some i /\ i.(IPhase) = PhasePending.
Proof.
  assert (snd <$> requestElicitation TDemo.tree TDemo.no_fault TDemo.text_of TDemo.int_value TDemo.config (TDemo.caller "lead")
      (TDemo.args "e1") healthy healthy id store = Some (inr (mkWaiting "acme" "root" "ann" "e1"))) as Hw by (vm_compute; reflexivity).
  destruct (requestElicitation _ _ _ _ _ _ _ _ _ _ _) as [[s' [o|w]]|] eqn:E; [discriminate| |discriminate].
  injection Hw as Hw.
  destruct (reused_id_replaces_prompt TDemo.tree TDemo.no_fault TDemo.text_of TDemo.int_value TDemo.config (TDemo.caller "lead")
      (TDemo.args "e1") healthy healthy id store s' w table (TDemo.sess "lead" "root" 1)) as (m' & i & Hr & Hi & Hp & _).
  - vm_compute. reflexivity.
  - reflexivity.
  - exact represented.
  - exact I.
  - exact E.
  - exists s', w, m', i. split; [reflexivity|]. split; [exact Hr|]. split; [rewrite Hw in Hi; exact Hi|exact Hp].
Defined.

(** A prompt from depth three is suppressed by default.  When the row of an
    ancestor is gone, the depth is counted from the rows that are left, and the
    same session's prompt is delivered, to the session that is now on top. *)
Theorem lost_ancestor_lifts_suppression :
  let deep := TDemo.sess "deep" "child" 3 in
  let d := TDemo.config.(cfg_dispatcher) in
  (exists dr, dispatch TDemo.tree TDemo.no_fault d "acme" deep TDemo.asked Depth.InitiatorAgent "" = Some ([], Ok dr) /\
     dr.(Suppressed) = true) /\
  (exists dr, dispatch (delete "lead" TDemo.tree) TDemo.no_fault d "acme" deep TDemo.asked Depth.InitiatorAgent "" = Some ([], Ok dr) /\
     dr.(Suppressed) = false /\ dr.(ResolverSessionID) = "child").
Proof. split; (eexists; split; [vm_compute; reflexivity|]); vm_compute; done. Qed.
