(* ===== verification/AuditStore.v ===== *)
(** * The persisted audit log ([pkg/gateway/audit/auditstore], [pkg/audit/integrity],
      [pkg/gateway/storage/deadletterredaction])

    The [audit_log] table with its per-tenant sequences, redaction receipts
    and SIEM high-water marks, the operations that write it, and the three
    readers that verify it: [Store.Verify], which applies the receipts, and the
    startup and periodic continuity checks, which do not.  The table stores no
    row hash: a reader recomputes it.

    Writers of one tenant are serialised by an advisory lock, so an operation
    is one step on the database; an error rolls the table back, but not the
    sequence.  What Postgres does to a JSON text, and the predicates read from
    a payload, are arguments. *)

From S2P Require Import Prelude Calendar Jcs AuditChain.

(** ** Tables *)

Inductive OCSFTranslationState := OCSFPending | OCSFRetryPending | OCSFSucceeded | OCSFDeadLettered.
#[export] Instance OCSFTranslationState_eq_dec : EqDecision OCSFTranslationState.
Proof. solve_decision. Defined.

(** A row of [audit_log]; [prev_hash] is binary, [payload] a [jsonb]. *)
Record Rec := mkRec {
  r_tenant : runes; r_seq : Z; r_type : runes; r_payload : runes; r_created : Time; r_prev : list Z;
  r_id : runes; r_version : runes; r_ocsf : OCSFTranslationState }.

(** [receipt_tbl]: tenant, then sequence number, to original hash and signature. *)
Record Db := mkDb {
  audit_log : list Rec;
  receipt_tbl : gmap runes (gmap Z (list Z * runes));
  sequences : gmap runes Z;
  siem_acked : gmap runes Z }.

Inductive StoreErr :=
| ErrEmptyScope | ErrNotFound | ErrHex | ErrJsonb | ErrReceiptExists | ErrCutoff
| ErrConcurrencyTimeout | ErrOther | ErrAuditUnavailable (attempts : nat).

Class StoreEnv := {
  store_audit :: AuditEnv;
  jsonb : runes -> option runes;        (** the text a [jsonb] column gives back, [None] if it rejects *)
  IsRedactedPayload : runes -> bool;    (** the Go probe of the redaction marker *)
  sqlMarked : runes -> bool;            (** [payload->>'redacted' = 'true'] *)
  namesUser : runes -> runes -> bool;   (** the payload names the user under one of the match keys *)
  sign : runes -> option runes;         (** the KMS signature *)
  classify : Row -> runes }.

(** ** Hexadecimal text *)

Definition unhex (c : Z) : option Z :=
  if ((48 <=? c) && (c <=? 57))%Z then Some (c - 48)%Z
  else if ((97 <=? c) && (c <=? 102))%Z then Some (c - 87)%Z
  else if ((65 <=? c) && (c <=? 70))%Z then Some (c - 55)%Z
  else None.

(** [hex.DecodeString]. *)
Fixpoint hexDecode (s : runes) : option (list Z) :=
  match s with
  | [] => Some []
  | [_] => None
  | a :: b :: s => x ← unhex a; y ← unhex b; bs ← hexDecode s; Some ((16 * x + y)%Z :: bs)
  end.

Section Store.
Context `{E : StoreEnv}.

(** ** Reading *)

Definition records (db : Db) (tenant : runes) : list Rec := filter (fun r => r.(r_tenant) = tenant) db.(audit_log).

Definition seq_le (a b : Rec) : Prop := (a.(r_seq) <= b.(r_seq))%Z.
#[export] Instance seq_le_dec a b : Decision (seq_le a b).
Proof. unfold seq_le. apply _. Defined.

(** [ORDER BY sequence_number]. *)
Definition ordered (db : Db) (tenant : runes) : list Rec := merge_sort seq_le (records db tenant).

(** [scanRow], and [scanChainRows] of the integrity package: the hash is
    recomputed. *)
Definition scanRow (tenant : runes) (r : Rec) : Row :=
  let row := mkRow r.(r_id) r.(r_seq) tenant r.(r_type) r.(r_version) r.(r_payload) r.(r_created) (hexEncode r.(r_prev)) [] false in
  set_hash row (computeHash row).

Definition scanTail (db : Db) (tenant : runes) : option Row := scanRow tenant <$> last (ordered db tenant).

Definition Receipts (db : Db) (tenant : runes) : gmap Z RedactionReceipt :=
  map_imap (fun seq os => Some (mkReceipt seq (hexEncode os.1) os.2)) (default ∅ (db.(receipt_tbl) !! tenant)).

Definition set_redacted (r : Row) (h : runes) : Row :=
  mkRow r.(ID) r.(Seq) r.(TenantID) r.(EventType) r.(EventSchemaVersion) r.(Payload) r.(Timestamp) r.(PrevHash) h true.

Definition applyReceipt (rc : gmap Z RedactionReceipt) (row : Row) : Row :=
  if IsRedactedPayload row.(Payload) then
    match rc !! row.(Seq) with
    | Some rcpt => set_redacted row (if decide (rcpt.(OriginalHash) <> []) then rcpt.(OriginalHash) else row.(Hash))
    | None => set_redacted row row.(Hash)
    end
  else row.

Definition applyReceipts (rs : list Row) (rc : gmap Z RedactionReceipt) : list Row :=
  if decide (size rc = 0) then rs else applyReceipt rc <$> rs.

Definition storeRows (db : Db) (tenant : runes) : list Row :=
  applyReceipts (scanRow tenant <$> ordered db tenant) (Receipts db tenant).

Definition storeVerify (db : Db) (tenant : runes) : VerifyResult :=
  Verify (ChainFromRows tenant (storeRows db tenant) (Receipts db tenant)).

Definition Get (db : Db) (tenant : runes) (seq : Z) : result StoreErr Row :=
  match List.find (fun r => (r.(r_seq) =? seq)%Z) (records db tenant) with
  | Some r => Ok (scanRow tenant r)
  | None => Err ErrNotFound
  end.

(** ** Continuity checks *)

Record ChainContinuityResult := mkContinuity { cr_tenant : runes; cr_rows : nat; cr_result : VerifyResult; cr_gap : chainGap }.

Definition Broken (r : ChainContinuityResult) : bool := bool_decide (r.(cr_result).(Integrity) = ChainBroken).

(** Go's order on strings: UTF-8 keeps the order of code points. *)
Definition text_le (a b : runes) : Prop := less_units b a = false.
#[export] Instance text_le_dec a b : Decision (text_le a b).
Proof. unfold text_le. apply _. Defined.

(** The distinct tenants of the log less those in deletion. *)
Definition auditTenants (db : Db) (deleting : list runes) : list runes :=
  merge_sort text_le (filter (fun t => t ∉ deleting) (remove_dups (r_tenant <$> db.(audit_log)))).

Definition CheckChainContinuity (db : Db) (deleting : list runes) : list ChainContinuityResult :=
  (fun t => let rs := scanRow t <$> ordered db t in
            mkContinuity t (length rs) (Verify (ChainFromRows t rs ∅)) no_gap) <$> auditTenants db deleting.

(** The last [lastN] rows, or all of them. *)
Definition loadRecent (db : Db) (tenant : runes) (lastN : Z) : list Row :=
  let rs := scanRow tenant <$> ordered db tenant in
  if (lastN <=? 0)%Z then rs else drop (length rs - Z.to_nat lastN) rs.

Definition CheckChainContinuityRecent (db : Db) (deleting : list runes) (lastN : Z) : list ChainContinuityResult :=
  (fun t => let rs := loadRecent db t lastN in
            let res := verifyChainWindow rs in
            mkContinuity t (length rs) res.1 res.2) <$> auditTenants db deleting.

Definition FirstBroken (rs : list ChainContinuityResult) : option ChainContinuityResult := List.find Broken rs.

(** [PeriodicCheck.CheckOnce] when its queries succeed: [grantDrift] is the
    outcome of the grant check; the result says whether drift was found. *)
Definition CheckOnce (db : Db) (deleting : list runes) (lastN : Z) (grantDrift : bool) : bool :=
  grantDrift || existsb Broken (CheckChainContinuityRecent db deleting lastN).

(** [Run] stops the gateway at the first cycle that finds drift. *)
Definition shutsDown (hardFail : bool) (db : Db) (deleting : list runes) (lastN : Z) (grantDrift : bool) : bool :=
  CheckOnce db deleting lastN grantDrift && hardFail.

(** ** Writing *)

Definition Microsecond : Duration := 1000%Z.

Definition nextval (db : Db) (tenant : runes) : Db * Z :=
  let v := (default 0 (db.(sequences) !! tenant) + 1)%Z in
  (mkDb db.(audit_log) db.(receipt_tbl) (<[tenant := v]> db.(sequences)) db.(siem_acked), v).

Definition insert_rec (db : Db) (r : Rec) : Db :=
  mkDb (db.(audit_log) ++ [r]) db.(receipt_tbl) db.(sequences) db.(siem_acked).

(** An aborted transaction keeps the sequences only. *)
Definition rollback (before after : Db) : Db :=
  mkDb before.(audit_log) before.(receipt_tbl) after.(sequences) before.(siem_acked).

Record Event := mkEvent { e_id : runes; e_type : runes; e_payload : runes; e_at : Time }.

(** [clock] is the time taken when the event has none; [e_id] the fresh UUID. *)
Definition sealAndInsert (db : Db) (tenant : runes) (e : Event) (clock : Time) : Db * result StoreErr Row :=
  let at_ := (if time_is_zero e.(e_at) then clock else e.(e_at))%Z in
  let at_ := (at_ - at_ mod Microsecond)%Z in
  let tail := scanTail db tenant in
  let '(db1, seq) := nextval db tenant in
  let row := mkRow e.(e_id) seq tenant e.(e_type) DefaultEventSchemaVersion e.(e_payload) at_
    (match tail with Some t => linkHash t | None => GenesisPrevHash end) [] false in
  let row := set_hash row (computeHash row) in
  match hexDecode row.(PrevHash) with
  | None => (db1, Err ErrHex)
  | Some prev =>
      match jsonb (match e.(e_payload) with [] => runes_of "null" | p => p end), jsonb (CanonicalPayload e.(e_payload)) with
      | Some stored, Some _ =>
          (insert_rec db1 (mkRec tenant seq e.(e_type) stored at_ prev e.(e_id) DefaultEventSchemaVersion OCSFPending), Ok row)
      | _, _ => (db1, Err ErrJsonb)
      end
  end.

(** What the lock acquisition of one attempt does. *)
Inductive LockOutcome := LockHeld | LockTimeout | LockError.

(** The body of one transaction of [appendOnPool]. *)
Definition tryAppend (db : Db) (tenant : runes) (e : Event) (clock : Time) (lock : LockOutcome) : Db * result StoreErr Row :=
  match lock with
  | LockTimeout => (db, Err ErrConcurrencyTimeout)
  | LockError => (db, Err ErrOther)
  | LockHeld => let '(db', r) := sealAndInsert db tenant e clock in
                match r with Ok row => (db', Ok row) | Err er => (rollback db db', Err er) end
  end.

(** The loop of [appendOnPool] over the outcomes of its attempts; when the
    list ends, the budget is spent. *)
Fixpoint appendLoop (db : Db) (tenant : runes) (e : Event) (clock : Time) (attempts : nat) (locks : list LockOutcome)
  : Db * result StoreErr Row :=
  match locks with
  | [] => (db, Err (ErrAuditUnavailable attempts))
  | l :: locks =>
      match tryAppend db tenant e clock l with
      | (db', Ok row) => (db', Ok row)
      | (db', Err ErrConcurrencyTimeout) => appendLoop db' tenant e clock (S attempts) locks
      | (db', Err er) => (db', Err er)
      end
  end.

Definition withDefaults (maxRetries : Z) : Z := if (maxRetries <=? 0)%Z then 3%Z else maxRetries.

(** [lock] gives the outcome of the acquisition of each attempt. *)
Definition storeAppend (maxRetries : Z) (db : Db) (tenant : runes) (e : Event) (clock : Time) (lock : nat -> LockOutcome)
  : Db * result StoreErr Row :=
  appendLoop db tenant e clock 0 (lock <$> seq 0 (S (Z.to_nat (withDefaults maxRetries)))).

(** [AppendBatch]: the items of each tenant in one transaction, tenants in the
    order in which they first occur; the first error ends it. *)
Fixpoint insertGroup (db : Db) (tenant : runes) (group : list (Event * Time)) : Db * result StoreErr unit :=
  match group with
  | [] => (db, Ok ())
  | (e, clock) :: group =>
      match sealAndInsert db tenant e clock with
      | (db', Ok _) => insertGroup db' tenant group
      | (db', Err er) => (db', Err er)
      end
  end.

Definition appendGroup (db : Db) (tenant : runes) (group : list (Event * Time)) (lock : LockOutcome) : Db * result StoreErr unit :=
  match lock with
  | LockTimeout => (db, Err ErrConcurrencyTimeout)
  | LockError => (db, Err ErrOther)
  | LockHeld => let '(db', r) := insertGroup db tenant group in
                match r with Ok _ => (db', r) | Err _ => (rollback db db', r) end
  end.

Fixpoint appendGroups (db : Db) (groups : list (runes * list (Event * Time))) (lock : runes -> LockOutcome) : Db * result StoreErr unit :=
  match groups with
  | [] => (db, Ok ())
  | (t, g) :: groups =>
      match appendGroup db t g (lock t) with
      | (db', Ok _) => appendGroups db' groups lock
      | (db', Err er) => (db', Err er)
      end
  end.

(** First occurrences, in order. *)
Fixpoint tenant_order (seen : list runes) (items : list (runes * (Event * Time))) : list runes :=
  match items with
  | [] => []
  | (t, _) :: items => if decide (t ∈ seen) then tenant_order seen items else t :: tenant_order (t :: seen) items
  end.

Definition AppendBatch (db : Db) (items : list (runes * (Event * Time))) (lock : runes -> LockOutcome) : Db * result StoreErr unit :=
  appendGroups db ((fun t => (t, snd <$> filter (fun it => it.1 = t) items)) <$> tenant_order [] items) lock.

(** ** Redaction and retention *)

Definition set_payload (r : Rec) (p : runes) : Rec :=
  mkRec r.(r_tenant) r.(r_seq) r.(r_type) p r.(r_created) r.(r_prev) r.(r_id) r.(r_version) r.(r_ocsf).

Definition update_payload (db : Db) (tenant : runes) (seq : Z) (p : runes) : list Rec :=
  (fun r => if decide (r.(r_tenant) = tenant /\ r.(r_seq) = seq) then set_payload r p else r) <$> db.(audit_log).

(** The hashes and the signature of the receipt record. *)
Record ReceiptRecord := mkReceiptRecord { rr_original : runes; rr_new : runes; rr_signature : runes }.

Definition RedactDeadLettered (db : Db) (tenant : runes) (seq : Z) (newPayload : runes) (rec : ReceiptRecord) : Db * result StoreErr unit :=
  if decide (tenant = []) then (db, Err ErrEmptyScope)
  else match hexDecode rec.(rr_original), hexDecode rec.(rr_new) with
  | Some orig, Some _ =>
      match jsonb newPayload, jsonb (CanonicalPayload newPayload) with
      | Some p, Some _ =>
          if decide (Exists (fun r => r.(r_seq) = seq) (records db tenant)) then
            let tbl := default ∅ (db.(receipt_tbl) !! tenant) in
            match tbl !! seq with
            | Some _ => (db, Err ErrReceiptExists)
            | None => (mkDb (update_payload db tenant seq p)
                         (<[tenant := <[seq := (orig, rec.(rr_signature))]> tbl]> db.(receipt_tbl)) db.(sequences) db.(siem_acked), Ok ())
            end
          else (db, Err ErrNotFound)
      | _, _ => (db, Err ErrJsonb)
      end
  | _, _ => (db, Err ErrHex)
  end.

Definition DeadLetteredForUser (db : Db) (tenant user : runes) : result StoreErr (list Row) :=
  if decide (tenant = [] \/ user = []) then Err ErrEmptyScope
  else Ok (scanRow tenant <$> filter (fun r => r.(r_ocsf) = OCSFDeadLettered /\ sqlMarked r.(r_payload) = false
                                             /\ namesUser r.(r_payload) user = true) (ordered db tenant)).

(** A JSON object with its members in the order given. *)
Definition jobject (l : list (string * runes)) : runes := 123%Z :: join ((fun kv => field kv.1 ++ kv.2) <$> l) ++ [125%Z].

Definition BuildRedactedPayload (eventType errorClass : runes) (redactedAt : Time) : runes :=
  jobject [("redacted", runes_of "true"); ("redacted_at", goQuote (RFC3339Nano redactedAt));
           ("user_id_redacted_from_row", runes_of "true"); ("error_class", goQuote errorClass); ("event_type", goQuote eventType)].

(** The settings of the service, and the fresh identifiers of one call. *)
Record RedactCfg := mkRedactCfg { cfg_basis : runes; cfg_redactor : runes; cfg_retries : Z }.
Record Fresh := mkFresh { f_receipt : runes; f_id1 : runes; f_id2 : runes; f_lock1 : nat -> LockOutcome; f_lock2 : nat -> LockOutcome }.

(** [json.Marshal] of a map prints its keys in order. *)
Definition receiptTuple (cfg : RedactCfg) (f : Fresh) (tenant job : runes) (row : Row) (newHash : runes) (at_ : Time) : runes :=
  jobject [("audit_event_id", goQuote row.(ID)); ("erasure_job_id", goQuote job); ("legal_basis", goQuote cfg.(cfg_basis));
           ("new_hash", goQuote newHash); ("original_hash", goQuote row.(Hash)); ("receipt_id", goQuote f.(f_receipt));
           ("redactor_identity", goQuote cfg.(cfg_redactor)); ("sequence_number", Itoa row.(Seq));
           ("tenant_id", goQuote tenant); ("timestamp", goQuote (RFC3339Nano at_))].

Definition signReceipt (cfg : RedactCfg) (f : Fresh) (tenant job : runes) (row : Row) (newHash : runes) (at_ : Time) : option runes :=
  let tuple := receiptTuple cfg f tenant job row newHash at_ in
  sign (match canonicalize tuple with Ok canon => canon | Err _ => tuple end).

Definition redactedEvent (f : Fresh) (tenant : runes) (row : Row) (errorClass newHash : runes) (at_ : Time) : Event :=
  mkEvent f.(f_id1) (runes_of "gdpr.erasure_deadletter_redacted")
    (jobject [("audit_event_id", goQuote row.(ID)); ("original_error_class", goQuote errorClass);
              ("original_event_type", goQuote row.(EventType)); ("post_redaction_prev_hash", goQuote newHash);
              ("pre_redaction_prev_hash", goQuote row.(Hash)); ("redacted_at", goQuote (RFC3339Nano at_));
              ("redaction_receipt_id", goQuote f.(f_receipt)); ("tenant_id", goQuote tenant)]) at_.

Definition notifiedEvent (cfg : RedactCfg) (f : Fresh) (tenant job : runes) (row : Row) (at_ : Time) : Event :=
  mkEvent f.(f_id2) (runes_of "gdpr.erasure_deadletter_downstream_notified")
    (jobject [("audit_event_id", goQuote row.(ID)); ("downstream_action_required", runes_of "true"); ("erasure_job_id", goQuote job);
              ("legal_basis", goQuote cfg.(cfg_basis)); ("original_event_type", goQuote row.(EventType));
              ("original_hash", goQuote row.(Hash)); ("original_sequence_number", Itoa row.(Seq));
              ("redacted_at", goQuote (RFC3339Nano at_)); ("redaction_receipt_id", goQuote f.(f_receipt));
              ("tenant_id", goQuote tenant)]) at_.

(** [redactRow]: sign, rewrite the row with its receipt, then append the two
    events; [at_] is the service clock. *)
Definition redactOne (cfg : RedactCfg) (f : Fresh) (db : Db) (tenant job : runes) (row : Row) (at_ : Time) : Db * result StoreErr unit :=
  let errorClass := match classify row with [] => runes_of "unknown" | c => c end in
  let newPayload := BuildRedactedPayload row.(EventType) errorClass at_ in
  let redacted := mkRow row.(ID) row.(Seq) row.(TenantID) row.(EventType) row.(EventSchemaVersion) newPayload row.(Timestamp)
                    row.(PrevHash) row.(Hash) row.(Redacted) in
  let newHash := computeHash redacted in
  match signReceipt cfg f tenant job row newHash at_ with
  | None => (db, Err ErrOther)
  | Some sig =>
      match RedactDeadLettered db tenant row.(Seq) newPayload (mkReceiptRecord row.(Hash) newHash sig) with
      | (db, Err er) => (db, Err er)
      | (db, Ok _) =>
          match storeAppend cfg.(cfg_retries) db tenant (redactedEvent f tenant row errorClass newHash at_) at_ f.(f_lock1) with
          | (db, Err er) => (db, Err er)
          | (db, Ok _) =>
              match storeAppend cfg.(cfg_retries) db tenant (notifiedEvent cfg f tenant job row at_) at_ f.(f_lock2) with
              | (db, Err er) => (db, Err er)
              | (db, Ok _) => (db, Ok ())
              end
          end
      end
  end.

(** The loop of [RedactForUser] stops at the first error and counts. *)
Fixpoint redactRows (cfg : RedactCfg) (db : Db) (tenant job : runes) (work : list (Row * Fresh * Time)) (n : nat)
  : Db * nat * option StoreErr :=
  match work with
  | [] => (db, n, None)
  | (row, f, at_) :: work =>
      match redactOne cfg f db tenant job row at_ with
      | (db', Err er) => (db', n, Some er)
      | (db', Ok _) => redactRows cfg db' tenant job work (S n)
      end
  end.

(** [fresh] and [clock] supply identifiers and times per row. *)
Definition RedactForUser (cfg : RedactCfg) (db : Db) (tenant user job : runes) (fresh : nat -> Fresh) (clock : nat -> Time)
  : Db * nat * option StoreErr :=
  match DeadLetteredForUser db tenant user with
  | Err er => (db, 0, Some er)
  | Ok rs => redactRows cfg db tenant job (imap (fun i r => (r, fresh i, clock i)) rs) 0
  end.

(** [event_type LIKE 'gdpr.%']. *)
Definition isGDPR (r : Rec) : bool := bool_decide (take 5 r.(r_type) = runes_of "gdpr.").

Definition delete_where (db : Db) (P : Rec -> bool) : Db * nat :=
  (mkDb (filter (fun r => P r = false) db.(audit_log)) db.(receipt_tbl) db.(sequences) db.(siem_acked),
   length (filter (fun r => P r = true) db.(audit_log))).

Definition DeleteByUser (db : Db) (tenant user : runes) : Db * result StoreErr nat :=
  (db, if decide (tenant = [] \/ user = []) then Err ErrEmptyScope else Ok 0).

Definition DeleteByTenant (db : Db) (tenant : runes) : Db * result StoreErr nat :=
  if decide (tenant = []) then (db, Err ErrEmptyScope)
  else let '(db', n) := delete_where db (fun r => bool_decide (r.(r_tenant) = tenant) && negb (isGDPR r)) in (db', Ok n).

(** A zero time stands for no cutoff. *)
Record PruneOptions := mkPrune { GeneralCutoff : Time; GDPRCutoff : Time; SIEMConfigured : bool; Force : bool }.

Definition prunable (db : Db) (tenant : runes) (o : PruneOptions) (r : Rec) : bool :=
  bool_decide (r.(r_tenant) = tenant)
  && (negb (isGDPR r) && (r.(r_created) <? o.(GeneralCutoff))%Z
      || isGDPR r && negb (time_is_zero o.(GDPRCutoff)) && (r.(r_created) <? o.(GDPRCutoff))%Z)
  && ((o.(Force) || negb o.(SIEMConfigured)) || (r.(r_seq) <=? default 0 (db.(siem_acked) !! tenant))%Z).

Definition PruneRetention (db : Db) (tenant : runes) (o : PruneOptions) : Db * result StoreErr nat :=
  if decide (tenant = []) then (db, Err ErrEmptyScope)
  else if time_is_zero o.(GeneralCutoff) then (db, Err ErrCutoff)
  else let '(db', n) := delete_where db (prunable db tenant o) in (db', Ok n).

Definition SIEMHeldCount (db : Db) (tenant : runes) (cutoff : Time) : result StoreErr nat :=
  if decide (tenant = []) then Err ErrEmptyScope
  else if time_is_zero cutoff then Err ErrCutoff
  else Ok (length (filter (fun r => isGDPR r = false /\ (r.(r_created) < cutoff)%Z /\
             (default 0 (db.(siem_acked) !! tenant) < r.(r_seq))%Z) (records db tenant))).
End Store.

#[global] Arguments sealAndInsert : simpl never.
#[global] Arguments hexEncode : simpl never.

(** ** Hexadecimal round trip *)

Definition byte (b : Z) : Prop := (0 <= b < 256)%Z.

(** SHA-256 gives 32 bytes. *)
Class AuditLaws `{E : AuditEnv} : Prop := {
  sha_bytes : forall x, Forall byte (sha256 x);
  sha_length : forall x, length (sha256 x) = 32 }.

Lemma unhex_hexdigit n : (0 <= n < 16)%Z -> unhex (hexdigit n) = Some n.
Proof.
  intros Hn. unfold hexdigit, unhex. destruct (Z.ltb_spec n 10).
  - rewrite (proj2 (Z.leb_le 48 _)), (proj2 (Z.leb_le _ 57)) by lia. cbn. f_equal. lia.
  - rewrite (proj2 (Z.leb_gt (87 + n) 57)) by lia. rewrite andb_false_r.
    rewrite (proj2 (Z.leb_le 97 _)), (proj2 (Z.leb_le _ 102)) by lia. cbn. f_equal. lia.
Qed.

Lemma hexDecode_encode bs : Forall byte bs -> hexDecode (hexEncode bs) = Some bs.
Proof.
  induction 1 as [|b bs Hb _ IH]; [done|]. unfold byte in Hb. unfold hexEncode in *. cbn.
  rewrite !unhex_hexdigit; [|split; [apply Z.div_pos; lia|apply Z.div_lt_upper_bound; lia]|apply Z.mod_pos_bound; lia].
  cbn. rewrite IH. cbn. do 2 f_equal. pose proof (Z.div_mod b 16). lia.
Qed.

(** A link value: the sentinel or a hash. *)
Definition hash_text `{E : AuditEnv} (h : runes) : Prop := h = GenesisPrevHash \/ exists x, h = sha256hex x.

Lemma hash_text_decode `{L : AuditLaws} h : hash_text h -> exists bs, hexDecode h = Some bs /\ hexEncode bs = h.
Proof.
  intros [->|[x ->]]; [exists (replicate 32 0%Z); by vm_compute|].
  exists (sha256 x). split; [apply hexDecode_encode, sha_bytes|done].
Qed.

(** ** The order of the log *)

Section Facts.
Context `{E : StoreEnv} {L : AuditLaws}.

Definition seq_lt (a b : Rec) : Prop := (a.(r_seq) < b.(r_seq))%Z.

(** Sequence numbers grow, start at one, and stay below the sequence. *)
Record tenant_wf (db : Db) (tenant : runes) : Prop := {
  wf_sorted : StronglySorted seq_lt (records db tenant);
  wf_bounds : Forall (fun r => 1 <= r.(r_seq) <= default 0 (db.(sequences) !! tenant))%Z (records db tenant);
  wf_pos : (0 <= default 0 (db.(sequences) !! tenant))%Z }.

Lemma sorted_ordered db tenant : StronglySorted seq_lt (records db tenant) -> ordered db tenant = records db tenant.
Proof.
  intros Hs. unfold ordered. set (l := records db tenant) in *.
  assert (forall x y, x ∈ l -> y ∈ l -> seq_le x y -> seq_le y x -> x = y) as Huniq.
  { clear -Hs. induction Hs as [|a l Hl IH Ha]; [by intros x y ?%not_elem_of_nil|]. rewrite Forall_forall in Ha.
    unfold seq_le, seq_lt in *. intros x y [->|Hx]%elem_of_cons [->|Hy]%elem_of_cons; [done|..|by apply IH]; intros.
    - specialize (Ha y Hy). lia.
    - specialize (Ha x Hx). lia. }
  apply (StronglySorted_unique_strong seq_le).
  - intros x y. rewrite merge_sort_Permutation. auto.
  - apply StronglySorted_merge_sort; [intros x y z; unfold seq_le; lia|intros x y; unfold seq_le; lia].
  - clear Huniq. induction Hs as [|a l' Hl IH Ha]; constructor; [done|]. eapply Forall_impl; [exact Ha|].
    unfold seq_lt, seq_le. lia.
  - apply merge_sort_Permutation.
Qed.

Lemma records_insert db r t : records (insert_rec db r) t = records db t ++ (if decide (r.(r_tenant) = t) then [r] else []).
Proof. unfold records, insert_rec. cbn. rewrite filter_app, filter_cons, filter_nil. done. Qed.

(** ** Links *)

Definition scanned (db : Db) (tenant : runes) : list Row := scanRow tenant <$> records db tenant.

Lemma scanRow_hash t r : computeHash (scanRow t r) = (scanRow t r).(Hash).
Proof. done. Qed.

Lemma linked_snoc_intro rs r : linked rs -> computeHash r = r.(Hash) ->
  r.(PrevHash) = match last rs with None => GenesisPrevHash | Some p => p.(Hash) end -> linked (rs ++ [r]).
Proof.
  intros Hl Hc Hp i row [[Hlen Hi]|[-> <-]]%lookup_snoc_Some.
  - destruct (Hl i row Hi) as [? ?]. split; [done|]. by rewrite prev_link_app by lia.
  - split; [done|]. by rewrite prev_link_end, Hp.
Qed.

Lemma link_hash_text db t : hash_text (match last (scanned db t) with None => GenesisPrevHash | Some p => p.(Hash) end).
Proof.
  unfold scanned. rewrite fmap_last. destruct (last (records db t)); cbn; [|by left].
  right. unfold computeHash. eauto.
Qed.

(** What one insertion does: nothing but the sequence on an error; on success
    a record that links to the tail. *)
Lemma sealAndInsert_spec db t e clock db' res : tenant_wf db t -> sealAndInsert db t e clock = (db', res) ->
  db'.(sequences) = <[t := (default 0 (db.(sequences) !! t) + 1)%Z]> db.(sequences) /\
  db'.(receipt_tbl) = db.(receipt_tbl) /\ db'.(siem_acked) = db.(siem_acked) /\
  match res with
  | Err er => db'.(audit_log) = db.(audit_log) /\ er = ErrJsonb
  | Ok row => exists r, db'.(audit_log) = db.(audit_log) ++ [r] /\ r.(r_tenant) = t /\
      r.(r_seq) = (default 0 (db.(sequences) !! t) + 1)%Z /\ r.(r_type) = e.(e_type) /\
      (scanRow t r).(PrevHash) = match last (scanned db t) with None => GenesisPrevHash | Some p => p.(Hash) end /\
      jsonb (match e.(e_payload) with [] => runes_of "null" | p => p end) = Some r.(r_payload) /\
      row = set_hash (mkRow r.(r_id) r.(r_seq) t r.(r_type) r.(r_version) e.(e_payload) r.(r_created) (scanRow t r).(PrevHash) [] false)
              (computeHash (mkRow r.(r_id) r.(r_seq) t r.(r_type) r.(r_version) e.(e_payload) r.(r_created) (scanRow t r).(PrevHash) [] false))
  end.
Proof.
  intros Hwf. unfold sealAndInsert, scanTail. rewrite (sorted_ordered _ _ (wf_sorted _ _ Hwf)).
  rewrite <- (fmap_last (scanRow t)). change (scanRow t <$> records db t) with (scanned db t). cbn [nextval].
  set (link := match last (scanned db t) with Some t0 => linkHash t0 | None => GenesisPrevHash end).
  destruct (hash_text_decode link) as (bs & Hd & He); [apply link_hash_text|]. cbn [PrevHash set_hash]. rewrite Hd.
  destruct (jsonb _) as [stored|] eqn:Ej; [|intros [= <- <-]; done].
  destruct (jsonb (CanonicalPayload _)); intros [= <- <-]; [|done]. cbn. split_and!; [done..|].
  eexists. split; [done|]. change (PrevHash (scanRow t ?r)) with (hexEncode (r_prev r)).
  cbn [r_prev r_tenant r_seq r_type r_payload r_id r_version r_created]. rewrite He. split_and!; done.
Qed.

(** The log of every tenant is ordered and linked, without redactions. *)
Definition intact (db : Db) : Prop :=
  db.(receipt_tbl) = ∅ /\ forall t, tenant_wf db t /\ linked (scanned db t).

Lemma records_app db db' r t : db'.(audit_log) = db.(audit_log) ++ [r] ->
  records db' t = records db t ++ (if decide (r.(r_tenant) = t) then [r] else []).
Proof. intros Hl. unfold records. rewrite Hl, filter_app, filter_cons, filter_nil. done. Qed.

(** A growing sequence keeps the bounds. *)
Lemma tenant_wf_sequence db db' t t' : records db' t' = records db t' ->
  db'.(sequences) = <[t := (default 0 (db.(sequences) !! t) + 1)%Z]> db.(sequences) ->
  tenant_wf db t' -> tenant_wf db' t'.
Proof.
  intros Hr Hs [H1 H2 H3].
  assert (default 0 (sequences db !! t') <= default 0 (sequences db' !! t'))%Z as Hle.
  { rewrite Hs. destruct (decide (t' = t)) as [->|]; [rewrite lookup_insert_eq|rewrite lookup_insert_ne by done]; cbn; lia. }
  split; [by rewrite Hr| |lia]. rewrite Hr. eapply Forall_impl; [exact H2|]. intros r Hb. cbn in *. lia.
Qed.

Lemma tenant_wf_insert db db' r t : db'.(audit_log) = db.(audit_log) ++ [r] -> r.(r_tenant) = t ->
  r.(r_seq) = (default 0 (db.(sequences) !! t) + 1)%Z ->
  db'.(sequences) = <[t := (default 0 (db.(sequences) !! t) + 1)%Z]> db.(sequences) ->
  tenant_wf db t -> tenant_wf db' t.
Proof.
  intros Hl Ht Hq Hs [H1 H2 Hpos]. pose proof (records_app db db' r t Hl) as Hr. rewrite decide_True in Hr by done.
  split; [rewrite Hr..|rewrite Hs, lookup_insert_eq; cbn; lia].
  - apply StronglySorted_snoc; [done|]. eapply Forall_impl; [exact H2|]. intros x Hx. unfold seq_lt. cbn in *. lia.
  - rewrite Hs, lookup_insert_eq. cbn. apply Forall_app. split; [|by constructor; [lia|]].
    eapply Forall_impl; [exact H2|]. cbn. lia.
Qed.

Lemma sealAndInsert_intact db t e clock : intact db -> intact (sealAndInsert db t e clock).1.
Proof.
  intros [Hrc Hdb]. destruct (sealAndInsert db t e clock) as [db' res] eqn:Es. cbn.
  destruct (sealAndInsert_spec db t e clock db' res (proj1 (Hdb t)) Es) as (Hs & Hc & _ & Hres).
  split; [congruence|]. intros t'. destruct (Hdb t') as [Hwf Hlink]. destruct res as [row|er].
  - destruct Hres as (r & Hl & Ht & Hq & _ & Hp & _). destruct (decide (t = t')) as [->|Hne].
    + split; [by eapply tenant_wf_insert|]. unfold scanned. rewrite (records_app _ _ _ t' Hl), decide_True by done.
      rewrite fmap_app. apply linked_snoc_intro; [done|done|]. done.
    + assert (records db' t' = records db t') as Hr.
      { rewrite (records_app _ _ _ t' Hl), decide_False by congruence. apply app_nil_r. }
      split; [by eapply tenant_wf_sequence|]. unfold scanned. by rewrite Hr.
  - destruct Hres as [Hl _]. assert (records db' t' = records db t') as Hr by (unfold records; by rewrite Hl).
    split; [by eapply tenant_wf_sequence|]. unfold scanned. by rewrite Hr.
Qed.

Lemma sealAndInsert_err db t e clock db' er : tenant_wf db t -> sealAndInsert db t e clock = (db', Err er) -> rollback db db' = db'.
Proof.
  intros Hwf Es. destruct (sealAndInsert_spec db t e clock db' _ Hwf Es) as (Hs & Hc & Ha & Hl & _).
  destruct db'. unfold rollback. cbn in *. by subst.
Qed.

Lemma intact_rollback db db' : intact db ->
  (forall t, (default 0 (db.(sequences) !! t) <= default 0 (db'.(sequences) !! t))%Z) -> intact (rollback db db').
Proof.
  intros [Hrc Hdb] Hle. split; [done|]. intros t. destruct (Hdb t) as [[H1 H2 H3] Hlink]. specialize (Hle t). split; [|done].
  split; [done| |cbn; lia]. eapply Forall_impl; [exact H2|]. cbn. intros r Hr. lia.
Qed.

Lemma sealAndInsert_sequences db t e clock t' : intact db ->
  (default 0 (db.(sequences) !! t') <= default 0 ((sealAndInsert db t e clock).1.(sequences) !! t'))%Z.
Proof.
  intros [_ Hdb]. destruct (sealAndInsert db t e clock) as [db' res] eqn:Es.
  destruct (sealAndInsert_spec db t e clock db' res (proj1 (Hdb t)) Es) as (Hs & _). cbn. rewrite Hs.
  destruct (decide (t' = t)) as [->|]; [rewrite lookup_insert_eq|rewrite lookup_insert_ne by done]; cbn; lia.
Qed.

Lemma tryAppend_intact db t e clock l : intact db -> intact (tryAppend db t e clock l).1.
Proof.
  intros Hi. destruct l; [|done..]. unfold tryAppend. pose proof (sealAndInsert_intact db t e clock Hi) as Hi'.
  pose proof (sealAndInsert_sequences db t e clock) as Hs.
  destruct (sealAndInsert db t e clock) as [db' [row|er]]; cbn in *; [done|]. apply intact_rollback; auto.
Qed.

Lemma appendLoop_intact db t e clock n locks : intact db -> intact (appendLoop db t e clock n locks).1.
Proof.
  revert db n. induction locks as [|l locks IH]; intros db n Hi; [done|]. cbn.
  pose proof (tryAppend_intact db t e clock l Hi) as Hi'.
  destruct (tryAppend db t e clock l) as [db' [row|[]]]; cbn in *; auto.
Qed.

Lemma insertGroup_intact db t g : intact db ->
  intact (insertGroup db t g).1 /\
  forall t', (default 0 (db.(sequences) !! t') <= default 0 ((insertGroup db t g).1.(sequences) !! t'))%Z.
Proof.
  revert db. induction g as [|[e clock] g IH]; intros db Hi; [done|]. cbn.
  pose proof (sealAndInsert_intact db t e clock Hi) as Hi'. pose proof (sealAndInsert_sequences db t e clock) as Hs.
  destruct (sealAndInsert db t e clock) as [db' [row|er]]; cbn in *;
    [|split; [done|intros t'; by apply Hs]].
  destruct (IH db' Hi') as [? Hle]. split; [done|]. intros t'. specialize (Hle t'). specialize (Hs t' Hi). lia.
Qed.

Lemma appendGroups_intact db gs lock : intact db -> intact (appendGroups db gs lock).1.
Proof.
  revert db. induction gs as [|[t g] gs IH]; intros db Hi; [done|]. cbn. unfold appendGroup.
  destruct (insertGroup_intact db t g Hi) as [Hi' Hle].
  destruct (lock t); cbn; [|done..]. destruct (insertGroup db t g) as [db' [u|er]]; cbn in *; [by apply IH|].
  by apply intact_rollback.
Qed.

(** ** Verifying an intact log *)

Lemma linked_verifies t rs rc : linked rs -> Forall (fun r => r.(TenantID) = t) rs ->
  (Verify (ChainFromRows t rs rc)).(Integrity) = ChainVerified.
Proof.
  intros Hl Ht. set (c := ChainFromRows t rs rc).
  pose proof (verifyLoop_spec c [] (rows c) false eq_refl) as Hv. cbn [length] in Hv. cbn zeta in Hv.
  change (verifyLoop _ _ (last []) _ _) with (Verify c) in Hv.
  assert (forall row, row ∈ rs -> mismatch row = false) as Hm.
  { intros row [i Hi]%list_elem_of_lookup_1. unfold mismatch. apply bool_decide_eq_false. intros H. by apply H, (Hl i row Hi). }
  assert (first_broken c 0 (rows c) = None) as E0.
  { apply first_broken_None. intros j row Hj. rewrite Forall_lookup in Ht. split_and!; [by eapply Ht| |by apply (Hl j row Hj)].
    intros Hmm. rewrite Hm in Hmm; [done|]. by eapply list_elem_of_lookup_2. }
  rewrite E0 in Hv. destruct Hv as [-> _].
  assert (existsb mismatch (rows c) = false) as ->; [|done].
  apply not_true_is_false. intros (row & Hin & Hmm)%existsb_exists. rewrite Hm in Hmm; [done|]. by apply list_elem_of_In.
Qed.

Lemma linked_window prev rs : linked (prev :: rs) \/ (exists pre, linked (pre ++ prev :: rs)) ->
  windowLoop prev rs = (mkResult ChainVerified 0 NoDetail, no_gap).
Proof.
  intros H. assert (exists pre, linked (pre ++ prev :: rs)) as [pre Hl] by (destruct H; [by exists []|done]). clear H.
  revert pre prev Hl. induction rs as [|cur rs IH]; intros pre prev Hl; [done|]. cbn.
  destruct (Hl (length (pre ++ [prev])) cur) as [_ Hp].
  { change (prev :: cur :: rs) with ([prev] ++ cur :: rs). by rewrite app_assoc, list_lookup_middle. }
  change (prev :: cur :: rs) with ([prev] ++ cur :: rs) in Hp. rewrite app_assoc, prev_link_end, last_snoc in Hp.
  injection Hp as Hp. rewrite bool_decide_eq_false_2 by (intros H; by apply H).
  apply (IH (pre ++ [prev])). by rewrite <- app_assoc.
Qed.

Lemma sorted_lookup l i j a b : StronglySorted seq_lt l -> l !! i = Some a -> l !! j = Some b -> i < j -> seq_lt a b.
Proof.
  intros Hs. revert i j. induction Hs as [|x l Hl IH Hx]; intros [|i] [|j] Hi Hj Hij; try done; try lia.
  - injection Hi as ->. rewrite Forall_lookup in Hx. by eapply Hx.
  - eapply IH; [exact Hi|exact Hj|lia].
Qed.

(** Any window of a linked log with growing sequence numbers from one. *)
Lemma window_verifies db t n : tenant_wf db t -> linked (scanned db t) ->
  verifyChainWindow (drop n (scanned db t)) = (mkResult ChainVerified 0 NoDetail, no_gap).
Proof.
  intros Hwf Hl. destruct (drop n (scanned db t)) as [|r rs] eqn:Ed; [done|].
  assert (scanned db t = take n (scanned db t) ++ r :: rs) as Hs by (rewrite <- Ed; by rewrite take_drop).
  unfold verifyChainWindow. assert ((Seq r =? 1)%Z && bool_decide (PrevHash r <> GenesisPrevHash) = false) as ->.
  2: { apply linked_window. right. exists (take n (scanned db t)). by rewrite <- Hs. }
  destruct (Z.eqb_spec (Seq r) 1) as [Hq|]; [|done]. cbn [andb]. apply bool_decide_eq_false. intros H. apply H.
  assert (take n (scanned db t) = []) as Hnil.
  { destruct (take n (scanned db t)) as [|p pre] eqn:Et; [done|]. exfalso.
    assert (scanned db t !! 0 = Some p /\ scanned db t !! length (p :: pre) = Some r) as [H0 H1]
      by (split; rewrite Hs; [done|by rewrite list_lookup_middle]).
    unfold scanned in H0, H1. rewrite list_lookup_fmap in H0, H1.
    apply fmap_Some in H0 as (q & Hq0 & ->). apply fmap_Some in H1 as (q' & Hq1 & ->).
    pose proof (wf_bounds _ _ Hwf) as Hb. rewrite Forall_lookup in Hb. specialize (Hb 0 q Hq0).
    pose proof (sorted_lookup _ _ _ _ _ (wf_sorted _ _ Hwf) Hq0 Hq1) as Hlt. unfold seq_lt in Hlt. cbn in *. lia. }
  destruct (Hl 0 r) as [_ Hp]; [by rewrite Hs, Hnil|]. by injection Hp.
Qed.

(** A successful append inserted one record, once. *)
Lemma storeAppend_Ok db n t e clock lock db' row : tenant_wf db t -> storeAppend n db t e clock lock = (db', Ok row) ->
  sealAndInsert db t e clock = (db', Ok row) /\ tenant_wf db' t.
Proof.
  intros Hwf. unfold storeAppend. generalize 0 at 1. generalize (lock <$> seq 0 (S (Z.to_nat (withDefaults n)))).
  intros locks. induction locks as [|l locks IH]; intros k; [done|]. cbn [appendLoop].
  destruct l; cbn [tryAppend]; [|by apply IH|done]. destruct (sealAndInsert db t e clock) as [db1 [row1|er]] eqn:Es;
    destruct (sealAndInsert_spec db t e clock _ _ Hwf Es) as (Hs & _ & _ & Hr); [|destruct Hr as [_ ->]; done].
  intros [= <- <-]. split; [done|]. destruct Hr as (r & Hl & Ht & Hq & _). by eapply tenant_wf_insert.
Qed.

(** Neighbours in a list of rows. *)
Lemma lookup_pair {A} (l1 : list A) a b l2 : (l1 ++ a :: b :: l2) !! S (length l1) = Some b.
Proof. rewrite lookup_app_r by lia. by replace (S (length l1) - length l1) with 1 by lia. Qed.

Lemma prev_link_pair l1 a b l2 : prev_link (l1 ++ a :: b :: l2) (S (length l1)) = Some a.(Hash).
Proof. cbn. by rewrite list_lookup_middle. Qed.

Lemma linked_pair l1 a b l2 : linked (l1 ++ a :: b :: l2) -> b.(PrevHash) = a.(Hash).
Proof. intros H. destruct (H _ b (lookup_pair l1 a b l2)) as [_ Hp]. rewrite prev_link_pair in Hp. by injection Hp. Qed.

(** A pair that does not link breaks the chain. *)
Lemma unlinked_pair t rc l1 a b l2 : b.(PrevHash) <> a.(Hash) ->
  (Verify (ChainFromRows t (l1 ++ a :: b :: l2) rc)).(Integrity) = ChainBroken.
Proof.
  intros Hb. set (c := ChainFromRows _ _ _). destruct (decide (Integrity (Verify c) = ChainBroken)) as [|Hn]; [done|].
  destruct (proj1 (verify_not_broken c) Hn _ b (lookup_pair l1 a b l2)) as (_ & _ & Hp).
  cbn [rows ChainFromRows c] in Hp. rewrite prev_link_pair in Hp. by injection Hp as Hp.
Qed.

Lemma unlinked_head t rc a l : a.(PrevHash) <> GenesisPrevHash -> (Verify (ChainFromRows t (a :: l) rc)).(Integrity) = ChainBroken.
Proof.
  intros Hb. set (c := ChainFromRows _ _ _). destruct (decide (Integrity (Verify c) = ChainBroken)) as [|Hn]; [done|].
  destruct (proj1 (verify_not_broken c) Hn 0 a eq_refl) as (_ & _ & Hp). by injection Hp as Hp.
Qed.

(** ** The effect of a redaction *)

Lemma RedactDeadLettered_Ok db t seq np rec db' : RedactDeadLettered db t seq np rec = (db', Ok ()) ->
  exists orig p, hexDecode rec.(rr_original) = Some orig /\ jsonb np = Some p /\
    (default ∅ (db.(receipt_tbl) !! t)) !! seq = None /\
    db' = mkDb (update_payload db t seq p)
           (<[t := <[seq := (orig, rec.(rr_signature))]> (default ∅ (db.(receipt_tbl) !! t))]> db.(receipt_tbl)) db.(sequences) db.(siem_acked).
Proof.
  unfold RedactDeadLettered. destruct (decide (t = [])); [done|]. destruct (hexDecode (rr_original rec)) as [orig|]; [|done].
  destruct (hexDecode (rr_new rec)); [|done]. destruct (jsonb np) as [p|]; [|done]. destruct (jsonb (CanonicalPayload np)); [|done].
  destruct (decide _); [|done]. destruct (_ !! seq) eqn:El; [done|]. intros [= <-]. eauto 10.
Qed.

Lemma records_update db t seq p tbl sq sa : records (mkDb (update_payload db t seq p) tbl sq sa) t =
  (fun r => if decide (r.(r_seq) = seq) then set_payload r p else r) <$> records db t.
Proof.
  unfold records, update_payload. cbn [audit_log]. induction (audit_log db) as [|r l IH]; [done|]. rewrite fmap_cons, !filter_cons.
  destruct (decide (r_tenant r = t)) as [Ht|Ht].
  - rewrite decide_True by (repeat case_decide; done). rewrite fmap_cons, IH. f_equal. repeat case_decide; tauto.
  - rewrite decide_False by (repeat case_decide; done). done.
Qed.

(** Sequence numbers are distinct, so one record changes. *)
Lemma records_update_at db t pre r post p : StronglySorted seq_lt (records db t) -> records db t = pre ++ r :: post ->
  forall tbl sq sa, records (mkDb (update_payload db t r.(r_seq) p) tbl sq sa) t = pre ++ set_payload r p :: post.
Proof.
  intros Hs Hr tbl sq sa. rewrite records_update, Hr, fmap_app, fmap_cons, decide_True by done.
  assert (forall q, q ∈ pre \/ q ∈ post -> q.(r_seq) <> r.(r_seq)) as Hne.
  { assert (records db t !! length pre = Some r) as H0 by (by rewrite Hr, list_lookup_middle).
    intros q [[i Hi]%list_elem_of_lookup_1|[i Hi]%list_elem_of_lookup_1].
    - assert (i < length pre) by (by eapply lookup_lt_Some). assert (records db t !! i = Some q) as H1 by (by rewrite Hr, lookup_app_l).
      pose proof (sorted_lookup _ _ _ _ _ Hs H1 H0) as H2. unfold seq_lt in H2. specialize (H2 ltac:(done)). lia.
    - assert (records db t !! (length pre + S i) = Some q) as H1 by (rewrite Hr, lookup_app_r by lia; by replace (length pre + S i - length pre) with (S i) by lia).
      pose proof (sorted_lookup _ _ _ _ _ Hs H0 H1) as H2. unfold seq_lt in H2. specialize (H2 ltac:(lia)). lia. }
  assert (forall l : list Rec, (forall q, q ∈ l -> r_seq q <> r_seq r) ->
    (fun r0 => if decide (r_seq r0 = r_seq r) then set_payload r0 p else r0) <$> l = l) as Hid.
  { intros l Hl. rewrite <- (list_fmap_id l) at 2. apply list_fmap_ext. intros i q Hi. rewrite decide_False; [done|].
    apply Hl. by eapply list_elem_of_lookup_2. }
  rewrite !Hid; auto.
Qed.

Lemma tenant_wf_update db t pre r post p tbl sa : tenant_wf db t -> records db t = pre ++ r :: post ->
  tenant_wf (mkDb (update_payload db t r.(r_seq) p) tbl db.(sequences) sa) t.
Proof.
  intros [H1 H2 H3] Hr. split; [..|done]; rewrite records_update.
  - clear -H1. induction H1 as [|a l Hl IH Ha]; cbn; [constructor|]. constructor; [done|].
    apply Forall_fmap. eapply Forall_impl; [exact Ha|]. intros x Hx. unfold seq_lt in *. cbn. repeat case_decide; done.
  - apply Forall_fmap. eapply Forall_impl; [exact H2|]. intros x Hx. cbn in *. case_decide; done.
Qed.

Lemma prev_link_ext rs rs' i : Hash <$> rs = Hash <$> rs' -> prev_link rs i = prev_link rs' i.
Proof.
  intros H. destruct i as [|j]; [done|]. cbn. unfold linkHash.
  by rewrite <- (list_lookup_fmap Hash rs), <- (list_lookup_fmap Hash rs'), H.
Qed.

Lemma windowLoop_step prev a l : windowLoop prev (a :: l) =
  if bool_decide (a.(PrevHash) <> prev.(Hash)) then
    (broken a.(Seq) (if bool_decide (a.(Seq) <> wrap_u64 (prev.(Seq) + 1)) then NoLinkAcrossGap prev.(Seq) a.(Seq)
                     else NoLink a.(Seq) prev.(Seq)), mkGap prev.(Seq) a.(Seq) prev.(Timestamp) a.(Timestamp))
  else windowLoop a l.
Proof. done. Qed.

Lemma window_unlinked l1 a b l2 : b.(PrevHash) <> a.(Hash) ->
  (verifyChainWindow (l1 ++ a :: b :: l2)).1.(Integrity) = ChainBroken.
Proof.
  intros Hb. assert (Integrity (windowLoop a (b :: l2)).1 = ChainBroken) as H.
  { rewrite windowLoop_step. by rewrite bool_decide_eq_true_2. }
  assert (forall l prev, Integrity (windowLoop prev (l ++ a :: b :: l2)).1 = ChainBroken) as Hl.
  { induction l as [|x l IH]; intros prev; [change ([] ++ a :: b :: l2) with (a :: b :: l2)|change ((x :: l) ++ ?y) with (x :: (l ++ y))];
      rewrite windowLoop_step; case_bool_decide; done. }
  destruct l1 as [|x l1]; [change ([] ++ a :: b :: l2) with (a :: b :: l2)|change ((x :: l1) ++ ?y) with (x :: (l1 ++ y))];
    unfold verifyChainWindow; destruct (_ && _); done.
Qed.
End Facts.

Lemma find_app_old {A} (f : A -> bool) l k x : List.find f l = Some x -> List.find f (l ++ k) = Some x.
Proof. induction l as [|a l IH]; [done|]. cbn. by destruct (f a). Qed.

Lemma find_app_new {A} (f : A -> bool) l x : (forall y, y ∈ l -> f y = false) -> f x = true -> List.find f (l ++ [x]) = Some x.
Proof.
  induction l as [|a l IH]; intros Hl Hx; cbn; [by rewrite Hx|]. rewrite Hl by set_solver. apply IH; [|done].
  intros y Hy. apply Hl. set_solver.
Qed.

(** ** Theorems *)

(** Databases written by appends and batches, whatever fails in between. *)
Inductive reached `{E : StoreEnv} : Db -> Prop :=
| reached_new : reached (mkDb [] ∅ ∅ ∅)
| reached_append db n t e clock lock : reached db -> reached (storeAppend n db t e clock lock).1
| reached_batch db items lock : reached db -> reached (AppendBatch db items lock).1.

Lemma reached_intact `{E : StoreEnv} {L : AuditLaws} db : reached db -> intact db.
Proof.
  induction 1 as [|db n t e clock lock _ IH|db items lock _ IH]; [|by apply appendLoop_intact|by apply appendGroups_intact].
  split; [done|]. intros t. split; [split; [constructor|constructor|done]|]. intros i row Hi. done.
Qed.

Lemma intact_receipts `{E : StoreEnv} {L : AuditLaws} db t : intact db -> Receipts db t = ∅.
Proof. intros [H _]. unfold Receipts. rewrite H. done. Qed.

(** *** Operations that meet different canonicalisations *)

Definition again (E : StoreEnv) (canon : runes -> result JcsError runes) : StoreEnv :=
  {| store_audit := reread store_audit canon; jsonb := jsonb; IsRedactedPayload := IsRedactedPayload; sqlMarked := sqlMarked;
     namesUser := namesUser; sign := sign; classify := classify |}.

Section Outcomes.
Context (E : StoreEnv) {L : AuditLaws}.

(** What canonicalisation may come out as in one operation. *)
Context (outcomes : (runes -> result JcsError runes) -> Prop).

#[export] Instance again_laws canon : AuditLaws (E := reread store_audit canon).
Proof using L. split; [apply (sha_bytes (AuditLaws := L))|apply (sha_length (AuditLaws := L))]. Qed.

(** Each operation on the database meets an outcome of its own. *)
Inductive written : Db -> Prop :=
| written_new : written (mkDb [] ∅ ∅ ∅)
| written_append canon db n t e clock lock : outcomes canon -> written db -> written (storeAppend (E := again E canon) n db t e clock lock).1
| written_batch canon db items lock : outcomes canon -> written db -> written (AppendBatch (E := again E canon) db items lock).1.

(** The stored payloads have one canonical text, whichever way the maps are
    walked: none has two keys of one NFC form. *)
Definition stable (db : Db) : Prop :=
  forall r canon canon', r ∈ db.(audit_log) -> outcomes canon -> outcomes canon' -> canon r.(r_payload) = canon' r.(r_payload).

Lemma scan_again canon canon' t r : canon r.(r_payload) = canon' r.(r_payload) ->
  scanRow (E := again E canon) t r = scanRow (E := again E canon') t r.
Proof using Type.
  intros Hc. unfold scanRow. f_equal. unfold computeHash, canonicalBytes, CanonicalPayload. cbn [Payload canonicalize store_audit again reread].
  by rewrite Hc.
Qed.

Lemma scanned_again canon canon' db t : stable db -> outcomes canon -> outcomes canon' ->
  scanned (E := again E canon) db t = scanned (E := again E canon') db t.
Proof using Type.
  intros Hs Hc Hc'. unfold scanned. apply list_fmap_ext. intros i r Hi. apply scan_again. apply (Hs r); [|done|done].
  apply list_elem_of_lookup_2 in Hi. unfold records in Hi. apply list_elem_of_filter in Hi as [_ Hi]. exact Hi.
Qed.

Lemma intact_again canon canon' db : stable db -> outcomes canon -> outcomes canon' ->
  intact (E := again E canon) db -> intact (E := again E canon') db.
Proof using Type.
  intros Hs Hc Hc' [Hr Hdb]. split; [done|]. intros t. destruct (Hdb t) as [Hwf Hl]. split; [done|].
  intros i row Hi. pose proof (scanned_again canon canon' db t Hs Hc Hc') as Heq. rewrite <- Heq in Hi |- *.
  split; [|apply (Hl i row Hi)]. rewrite Heq in Hi. unfold scanned in Hi. rewrite list_lookup_fmap in Hi.
  apply fmap_Some in Hi as (r & _ & ->). apply scanRow_hash.
Qed.

(** Records are only added. *)
Lemma seal_grows canon db t e clock : audit_log db ⊆ audit_log (sealAndInsert (E := again E canon) db t e clock).1.
Proof using Type. clear L outcomes. unfold sealAndInsert. cbn. repeat case_match; cbn; set_solver. Qed.

Lemma append_grows canon db t e clock n locks : audit_log db ⊆ audit_log (appendLoop (E := again E canon) db t e clock n locks).1.
Proof using Type.
  revert db n. induction locks as [|l locks IH]; intros db n; [done|]. cbn [appendLoop].
  assert (audit_log db ⊆ audit_log (tryAppend (E := again E canon) db t e clock l).1) as Ht.
  { destruct l; [|done..]. unfold tryAppend. pose proof (seal_grows canon db t e clock) as Hs.
    destruct (sealAndInsert db t e clock) as [db' [row|er]]; done. }
  destruct (tryAppend db t e clock l) as [db' [row|[]]]; cbn [fst] in *; try done. etrans; [exact Ht|apply IH].
Qed.

Lemma group_grows canon db t g : audit_log db ⊆ audit_log (insertGroup (E := again E canon) db t g).1.
Proof using Type.
  revert db. induction g as [|[e clock] g IH]; intros db; [done|]. cbn [insertGroup].
  pose proof (seal_grows canon db t e clock) as Hs. destruct (sealAndInsert db t e clock) as [db' [row|er]]; [|done].
  cbn [fst] in *. etrans; [exact Hs|apply IH].
Qed.

Lemma batch_grows canon db gs lock : audit_log db ⊆ audit_log (appendGroups (E := again E canon) db gs lock).1.
Proof using Type.
  revert db. induction gs as [|[t g] gs IH]; intros db; [done|]. cbn [appendGroups]. unfold appendGroup.
  pose proof (group_grows canon db t g) as Hg. destruct (lock t); [|done..].
  destruct (insertGroup db t g) as [db' [u|er]]; cbn [fst] in *; [|done]. etrans; [exact Hg|apply IH].
Qed.

Lemma stable_sub db db' : audit_log db ⊆ audit_log db' -> stable db' -> stable db.
Proof using Type. intros Hsub Hs r canon canon' Hr. apply Hs. by apply Hsub. Qed.

Lemma written_intact db : written db -> stable db -> forall canon, outcomes canon -> intact (E := again E canon) db.
Proof using L.
  induction 1 as [|canon db n t e clock lock Hc _ IH|canon db items lock Hc _ IH]; intros Hs canon' Hc'.
  - split; [done|]. intros t. split; [split; [constructor|constructor|done]|]. intros i row Hi. done.
  - apply (intact_again canon); [done..|]. apply appendLoop_intact. apply IH; [|done].
    eapply stable_sub; [|exact Hs]. apply append_grows.
  - apply (intact_again canon); [done..|]. apply appendGroups_intact. apply IH; [|done].
    eapply stable_sub; [|exact Hs]. apply batch_grows.
Qed.
End Outcomes.

Lemma intact_verifies `{E : StoreEnv} {L : AuditLaws} db : intact db ->
  (forall t, (storeVerify db t).(Integrity) = ChainVerified) /\
  forall deleting lastN, existsb Broken (CheckChainContinuity db deleting) = false /\ CheckOnce db deleting lastN false = false.
Proof.
  intros Hr. pose proof Hr as [_ Hdb].
  assert (forall t, scanRow t <$> ordered db t = scanned db t) as Ho.
  { intros t. unfold scanned. by rewrite sorted_ordered by apply (Hdb t). }
  assert (forall t rc, (Verify (ChainFromRows t (scanned db t) rc)).(Integrity) = ChainVerified) as Hv.
  { intros t rc. apply linked_verifies; [apply (Hdb t)|]. apply Forall_fmap, Forall_true. done. }
  split.
  - intros t. unfold storeVerify, storeRows. rewrite intact_receipts, Ho by done. apply Hv.
  - intros deleting lastN. unfold CheckOnce. cbn [orb]. split; apply not_true_is_false;
      intros (res & Hin & Hb)%existsb_exists; apply list_elem_of_In, list_elem_of_fmap in Hin as (t & -> & _);
      unfold Broken in Hb; apply bool_decide_eq_true in Hb; cbn [cr_result] in Hb.
    + rewrite Ho, Hv in Hb. done.
    + unfold loadRecent in Hb. rewrite Ho in Hb. destruct (Hdb t) as [Hwf Hl]. destruct (_ <=? 0)%Z.
      * rewrite <- (drop_0 (scanned db t)), window_verifies in Hb; done.
      * rewrite window_verifies in Hb; done.
Qed.

(** C33. A log written by appends and batches, with any lock time-outs, failed
    inserts and sequence gaps, verifies for every tenant, and neither the
    startup nor the periodic continuity check, over a window of any size, finds
    a broken chain.  Every append and every check may canonicalise with another
    order of the maps it walks, as long as the stored payloads have one
    canonical text in all of them; [colliding_payload_breaks] is a payload that
    has not. *)
Theorem written_log_verifies (E : StoreEnv) {L : AuditLaws} outcomes db canon : written E outcomes db -> stable outcomes db -> outcomes canon ->
  (forall t, (storeVerify (E := again E canon) db t).(Integrity) = ChainVerified) /\
  forall deleting lastN, existsb Broken (CheckChainContinuity (E := again E canon) db deleting) = false /\
    CheckOnce (E := again E canon) db deleting lastN false = false.
Proof. intros Hw Hs Hc. apply intact_verifies. by eapply written_intact. Qed.

(** An append that succeeds is read back under the sequence number it
    returns, and the hash recomputed from the stored row is the hash that was
    returned, provided a [jsonb] column gives back a text with the same
    canonical form; earlier rows are unchanged. *)
Theorem append_readback `{E : StoreEnv} {L : AuditLaws} db n t e clock lock db' row :
  reached db -> (forall p q, jsonb (match p with [] => runes_of "null" | _ => p end) = Some q -> CanonicalPayload q = CanonicalPayload p) ->
  storeAppend n db t e clock lock = (db', Ok row) ->
  (exists row', Get db' t row.(Seq) = Ok row' /\ row'.(Hash) = row.(Hash) /\ row'.(PrevHash) = row.(PrevHash)) /\
  (forall seq r, Get db t seq = Ok r -> Get db' t seq = Ok r) /\ (forall t', t' <> t -> records db' t' = records db t').
Proof.
  intros Hr%reached_intact Hj Happ. destruct (proj2 Hr t) as [Hwf _].
  apply storeAppend_Ok in Happ as [Es _]; [|done]. rename db' into db1.
  destruct (sealAndInsert_spec db t e clock _ _ Hwf Es) as (Hs & _ & _ & r & Hl & Ht & Hq & _ & Hp & Hjs & ->).
  pose proof (records_app db db1 r t Hl) as Hrec. rewrite decide_True in Hrec by done.
  pose proof (wf_bounds _ _ Hwf) as Hb.
  assert (forall q, q ∈ records db t -> (q.(r_seq) =? r.(r_seq))%Z = false) as Hnot.
  { intros q Hin. rewrite Forall_forall in Hb. specialize (Hb q Hin). cbn in Hb. apply Z.eqb_neq. lia. }
  unfold Get. rewrite Hrec. split_and!.
  - exists (scanRow t r). cbn [Seq set_hash]. rewrite (find_app_new _ _ _ Hnot) by apply Z.eqb_refl. split_and!; [done| |done].
    unfold scanRow. cbn [Hash set_hash PrevHash]. unfold computeHash, canonicalBytes. cbn [Payload].
    rewrite (Hj (e_payload e) (r_payload r)); [done|]. rewrite <- Hjs. by destruct (e_payload e).
  - intros seq r0. destruct (List.find _ (records db t)) as [q|] eqn:Ef; [|done]. by rewrite (find_app_old _ _ _ _ Ef).
  - intros t' Hne. rewrite (records_app _ _ _ t' Hl), decide_False by congruence. apply app_nil_r.
Qed.

Section Redacting.
Context `{E : StoreEnv} {L : AuditLaws}.

Lemma sha256hex_nonempty x : sha256hex x <> [].
Proof.
  unfold sha256hex, hexEncode. intros H. pose proof (sha_length x) as Hn. destruct (sha256 x) as [|b bs]; [done|]. done.
Qed.

(** The rows [Store.Rows] gives after the redaction of one record. *)
Definition restored (t : runes) (r : Rec) (p : runes) : Row :=
  set_redacted (scanRow t (set_payload r p)) (scanRow t r).(Hash).

Lemma scanRow_decode t r orig : hexDecode (scanRow t r).(Hash) = Some orig -> hexEncode orig = (scanRow t r).(Hash).
Proof.
  intros H. destruct (hash_text_decode (scanRow t r).(Hash)) as (bs & Hd & He); [right; unfold scanRow, computeHash; cbn; eauto|].
  congruence.
Qed.

(** What is known after the redaction of [r] in an intact log: the records, the
    receipts, and the rows as the store reads them. *)
Lemma redact_effect db t pre r post np newHash sig db' : intact db -> records db t = pre ++ r :: post ->
  RedactDeadLettered db t r.(r_seq) np (mkReceiptRecord (scanRow t r).(Hash) newHash sig) = (db', Ok ()) ->
  exists p, jsonb np = Some p /\ tenant_wf db' t /\ records db' t = pre ++ set_payload r p :: post /\
    Receipts db' t = {[ r.(r_seq) := mkReceipt r.(r_seq) (scanRow t r).(Hash) sig ]}.
Proof.
  intros [Hrc Hdb] Hr Hok. destruct (RedactDeadLettered_Ok _ _ _ _ _ _ Hok) as (orig & p & Hd & Hp & _ & ->).
  destruct (Hdb t) as [Hwf _]. exists p. cbn in Hd. apply scanRow_decode in Hd. split_and!; [done| | |].
  - by eapply tenant_wf_update.
  - apply records_update_at; [apply (wf_sorted _ _ Hwf)|done].
  - unfold Receipts. cbn. rewrite lookup_insert_eq, Hrc, lookup_empty. cbn. rewrite insert_empty.
    apply map_eq. intros k. rewrite map_lookup_imap. destruct (decide (k = r_seq r)) as [->|Hk].
    + rewrite !lookup_singleton_eq. cbn. by rewrite Hd.
    + by rewrite !lookup_singleton_ne.
Qed.

Lemma applyReceipt_restored t r p sig : IsRedactedPayload p = true ->
  applyReceipt {[ r.(r_seq) := mkReceipt r.(r_seq) (scanRow t r).(Hash) sig ]} (scanRow t (set_payload r p)) = restored t r p.
Proof.
  intros Hm. unfold applyReceipt. change (Payload (scanRow t (set_payload r p))) with p. rewrite Hm.
  change (Seq (scanRow t (set_payload r p))) with (r_seq r). rewrite lookup_singleton_eq. cbn [OriginalHash].
  rewrite decide_True; [done|]. apply sha256hex_nonempty.
Qed.

Lemma applyReceipt_plain rc t l : Forall (fun r => IsRedactedPayload r.(r_payload) = false) l ->
  applyReceipt rc <$> (scanRow t <$> l) = scanRow t <$> l.
Proof.
  induction 1 as [|r l Hr _ IH]; [done|]. rewrite !fmap_cons, IH. f_equal. unfold applyReceipt.
  change (Payload (scanRow t r)) with (r_payload r). by rewrite Hr.
Qed.

Lemma verify_redacted c : (forall i row, c.(rows) !! i = Some row -> row_ok c i row) ->
  (exists row, row ∈ c.(rows) /\ mismatch row = true) -> (Verify c).(Integrity) = ChainRedactedGDPR.
Proof.
  intros Hok (row & Hin & Hm). pose proof (verifyLoop_spec c [] (rows c) false eq_refl) as Hv. cbn [length] in Hv. cbn zeta in Hv.
  change (verifyLoop _ _ (last []) _ _) with (Verify c) in Hv. rewrite (proj2 (first_broken_None c 0 (rows c)) Hok) in Hv.
  destruct Hv as [-> _]. assert (existsb mismatch (rows c) = true) as ->; [|done]. apply existsb_exists. exists row.
  split; [by apply list_elem_of_In|done].
Qed.

Lemma lookup_replace {A} (l1 : list A) x x' l2 i y : (l1 ++ x :: l2) !! i = Some y ->
  (i = length l1 /\ y = x) \/ (l1 ++ x' :: l2) !! i = Some y.
Proof.
  intros H. destruct (decide (i = length l1)) as [->|Hi]; [left; split; [done|]; rewrite list_lookup_middle in H by done; congruence|right].
  destruct (decide (i < length l1)); [by rewrite lookup_app_l in * by done|]. rewrite lookup_app_r in * by lia.
  destruct (i - length l1) eqn:En; [lia|done].
Qed.

(** The rows around a redacted one keep their links. *)
Lemma restored_verifies t l1 r p l2 sig : sig <> [] -> linked (l1 ++ scanRow t r :: l2) ->
  Forall (fun row => row.(TenantID) = t) (l1 ++ l2) -> (scanRow t (set_payload r p)).(Hash) <> (scanRow t r).(Hash) ->
  (Verify (ChainFromRows t (l1 ++ restored t r p :: l2)
     {[ r.(r_seq) := mkReceipt r.(r_seq) (scanRow t r).(Hash) sig ]})).(Integrity) = ChainRedactedGDPR.
Proof.
  intros Hsig Hl Ht Hne.
  assert (forall i, prev_link (l1 ++ restored t r p :: l2) i = prev_link (l1 ++ scanRow t r :: l2) i) as Hpl.
  { intros i. apply prev_link_ext. rewrite !fmap_app. done. }
  apply verify_redacted; cbn [rows ChainFromRows].
  - intros i row Hi. destruct (lookup_replace l1 _ (scanRow t r) l2 i row Hi) as [[-> ->]|Hi'].
    + destruct (Hl (length l1) (scanRow t r)) as [_ Hp]; [by rewrite list_lookup_middle|].
      split_and!; [done| |by rewrite Hpl]. intros _. unfold receiptedRedaction.
      change (Seq (restored t r p)) with (r_seq r). cbn [receipts ChainFromRows]. rewrite lookup_singleton_eq. cbn.
      by rewrite !bool_decide_eq_true_2.
    + destruct (Hl i row Hi') as [Hc Hp]. split_and!; [| |by rewrite Hpl].
      * destruct (lookup_replace l1 _ row l2 i row Hi) as [[_ ->]|_]; [done|].
        apply (list_elem_of_lookup_2 _ i) in Hi. rewrite Forall_forall in Ht.
        apply elem_of_app in Hi as [?|[->|?]%elem_of_cons]; [apply Ht; set_solver|done|apply Ht; set_solver].
      * intros Hm. unfold mismatch in Hm. apply bool_decide_eq_true in Hm. done.
  - exists (restored t r p). split; [set_solver|]. unfold mismatch. apply bool_decide_eq_true. exact Hne.
Qed.
End Redacting.

(** A lawful redaction, with a signed receipt, of a row that has a
    successor: [Store.Verify] reports [redacted_gdpr], but the continuity checks,
    which recompute the hash and do not read the receipts, report the chain
    broken, so the periodic check finds drift and, with hard fail enabled,
    stops the gateway. *)
Theorem redaction_breaks_continuity `{E : StoreEnv} {L : AuditLaws} db t pre r s post np newHash sig db' p :
  reached db -> records db t = pre ++ r :: s :: post -> sig <> [] ->
  RedactDeadLettered db t r.(r_seq) np (mkReceiptRecord (scanRow t r).(Hash) newHash sig) = (db', Ok ()) ->
  jsonb np = Some p -> IsRedactedPayload p = true ->
  Forall (fun q => IsRedactedPayload q.(r_payload) = false) (pre ++ s :: post) ->
  (scanRow t (set_payload r p)).(Hash) <> (scanRow t r).(Hash) ->
  (storeVerify db' t).(Integrity) = ChainRedactedGDPR /\
  (Verify (ChainFromRows t (scanRow t <$> ordered db' t) ∅)).(Integrity) = ChainBroken /\
  (verifyChainWindow (loadRecent db' t 0)).1.(Integrity) = ChainBroken /\
  forall deleting, t ∉ deleting -> shutsDown true db' deleting 0 false = true.
Proof.
  intros Hre%reached_intact Hr Hsig Hok Hp Hm Hplain Hne.
  destruct (redact_effect db t pre r (s :: post) np newHash sig db' Hre Hr Hok) as (p' & Hp' & Hwf & Hr' & Hrc).
  rewrite Hp in Hp'. injection Hp' as <-.
  assert (scanRow t <$> ordered db' t = (scanRow t <$> pre) ++ scanRow t (set_payload r p) :: scanRow t s :: (scanRow t <$> post)) as Ho.
  { rewrite sorted_ordered by apply Hwf. by rewrite Hr', fmap_app. }
  destruct (proj2 Hre t) as [_ Hlink]. unfold scanned in Hlink. rewrite Hr, fmap_app, !fmap_cons in Hlink.
  pose proof (linked_pair _ _ _ _ Hlink) as Hps.
  assert (forall x, Integrity (verifyChainWindow ((scanRow t <$> pre) ++ scanRow t (set_payload r p) :: scanRow t s :: x)).1 = ChainBroken) as Hw
    by (intros x; apply window_unlinked; congruence).
  split_and!.
  - unfold storeVerify, storeRows. rewrite Hrc, Ho. unfold applyReceipts. rewrite decide_False by (by rewrite map_size_singleton).
    rewrite fmap_app, !fmap_cons, applyReceipt_restored by done. apply Forall_app in Hplain as [P1 P2].
    pose proof (applyReceipt_plain {[ r.(r_seq) := mkReceipt r.(r_seq) (scanRow t r).(Hash) sig ]} t pre P1) as ->.
    pose proof (applyReceipt_plain {[ r.(r_seq) := mkReceipt r.(r_seq) (scanRow t r).(Hash) sig ]} t (s :: post) P2) as Hs.
    rewrite !fmap_cons in Hs. rewrite Hs. apply restored_verifies; [done|exact Hlink| |done].
    change (scanRow t s :: (scanRow t <$> post)) with (scanRow t <$> s :: post). rewrite <- fmap_app. apply Forall_fmap, Forall_true. done.
  - rewrite Ho. apply unlinked_pair. congruence.
  - unfold loadRecent. cbn [Z.leb Z.compare]. rewrite Ho. apply Hw.
  - intros deleting Hdel. unfold shutsDown, CheckOnce. cbn [orb]. rewrite andb_true_r. apply existsb_exists.
    eexists. split; [apply list_elem_of_In, list_elem_of_fmap; exists t; split; [done|]|].
    + unfold auditTenants. rewrite merge_sort_Permutation, list_elem_of_filter, elem_of_remove_dups. split; [done|].
      assert (set_payload r p ∈ records db' t) as Hin by (rewrite Hr'; set_solver).
      unfold records in Hin. apply list_elem_of_filter in Hin as [<- Hin]. by apply list_elem_of_fmap_2.
    + unfold Broken. apply bool_decide_eq_true. cbn [cr_result]. unfold loadRecent. cbn [Z.leb Z.compare]. rewrite Ho. apply Hw.
Qed.

(** Redacting the newest row breaks the chain: the redaction service
    appends its own event directly afterwards, and that row links to the hash
    recomputed from the redacted payload, while [Store.Verify] restores the
    original hash from the receipt. *)
Theorem redacting_tail_breaks_chain `{E : StoreEnv} {L : AuditLaws} cfg f db t job pre r at_ db' :
  reached db -> records db t = pre ++ [r] ->
  redactOne cfg f db t job (scanRow t r) at_ = (db', Ok ()) ->
  (forall p, jsonb (BuildRedactedPayload r.(r_type) (match classify (scanRow t r) with [] => runes_of "unknown" | c => c end) at_) = Some p ->
     IsRedactedPayload p = true /\ (scanRow t (set_payload r p)).(Hash) <> (scanRow t r).(Hash)) ->
  (storeVerify db' t).(Integrity) = ChainBroken.
Proof.
  intros Hre%reached_intact Hr Hok Hpay. unfold redactOne in Hok. destruct (signReceipt _ _ _ _ _ _ _) as [sig|]; [|done].
  destruct (RedactDeadLettered _ _ _ _ _) as [db1 [[]|]] eqn:E1; [|done].
  destruct (storeAppend _ db1 _ _ _ _) as [db2 [row1|]] eqn:E2; [|done].
  destruct (storeAppend _ db2 _ _ _ _) as [db3 [row2|]] eqn:E3; [|done]. injection Hok as <-.
  destruct (redact_effect db t pre r [] _ _ sig db1 Hre Hr E1) as (p & Hp & Hwf1 & Hr1 & Hrc1). destruct (Hpay p Hp) as [Hm Hne].
  destruct (storeAppend_Ok _ _ _ _ _ _ _ _ Hwf1 E2) as [S2 Hwf2]. destruct (storeAppend_Ok _ _ _ _ _ _ _ _ Hwf2 E3) as [S3 Hwf3].
  destruct (sealAndInsert_spec _ _ _ _ _ _ Hwf1 S2) as (_ & Hc2 & _ & s & Hl2 & Ht2 & _ & _ & Hps & _).
  destruct (sealAndInsert_spec _ _ _ _ _ _ Hwf2 S3) as (_ & Hc3 & _ & s' & Hl3 & Ht3 & _).
  assert (Receipts db3 t = Receipts db1 t) as Hrc3 by (unfold Receipts; by rewrite Hc3, Hc2).
  assert (records db3 t = pre ++ [set_payload r p; s; s']) as Hr3.
  { pose proof (records_app _ _ _ t Hl3) as H3. pose proof (records_app _ _ _ t Hl2) as H2.
    rewrite decide_True in H2 by done. rewrite decide_True in H3 by done. by rewrite H3, H2, Hr1, <- !app_assoc. }
  unfold storeVerify, storeRows. rewrite Hrc3, Hrc1, (sorted_ordered _ _ (wf_sorted _ _ Hwf3)), Hr3.
  unfold applyReceipts. rewrite decide_False by (by rewrite map_size_singleton).
  rewrite !fmap_app, !fmap_cons, applyReceipt_restored by done. apply unlinked_pair.
  assert (forall rc row, PrevHash (applyReceipt rc row) = PrevHash row) as Hap.
  { intros rc row. unfold applyReceipt. repeat case_match; done. }
  rewrite Hap, Hps. unfold scanned. rewrite fmap_last, Hr1, last_snoc. exact Hne.
Qed.

(** The retry budget: when every acquisition times out, the append fails with
    the number of attempts and writes nothing; otherwise the first acquisition
    that does not time out decides. *)
Theorem append_retry_budget `{E : StoreEnv} n db t e clock lock :
  let last_attempt := Z.to_nat (withDefaults n) in
  ((forall k, k <= last_attempt -> lock k = LockTimeout) ->
     storeAppend n db t e clock lock = (db, Err (ErrAuditUnavailable (S last_attempt)))) /\
  (forall k, k <= last_attempt -> lock k <> LockTimeout -> (forall j, j < k -> lock j = LockTimeout) ->
     storeAppend n db t e clock lock = tryAppend db t e clock (lock k)).
Proof.
  intros m. unfold storeAppend. fold m.
  assert (forall len start, (forall k, start <= k < start + len -> lock k = LockTimeout) ->
    appendLoop db t e clock start (lock <$> seq start len) = (db, Err (ErrAuditUnavailable (start + len)))) as Hall.
  { induction len as [|len IH]; intros start H; cbn; [by rewrite Nat.add_0_r|]. rewrite H by lia. cbn.
    rewrite IH by (intros k Hk; apply H; lia). do 3 f_equal. lia. }
  assert (forall l, l <> LockTimeout -> (tryAppend db t e clock l).2 <> Err ErrConcurrencyTimeout) as Hnt.
  { intros [] Hl; [|done|done]. cbn. unfold sealAndInsert. repeat case_match; simplify_eq; done. }
  split.
  - intros H. rewrite (Hall (S m) 0); [done|]. intros k Hk. apply H. lia.
  - intros k Hk Hl Hj. assert (forall len start, start <= k < start + len ->
      appendLoop db t e clock start (lock <$> seq start len) = tryAppend db t e clock (lock k)) as Hfirst; [|apply Hfirst; lia].
    induction len as [|len IH]; intros start Hs; [lia|]. cbn [seq fmap list_fmap appendLoop].
    destruct (decide (start = k)) as [->|Hne].
    + specialize (Hnt _ Hl). destruct (tryAppend db t e clock (lock k)) as [db' [row|[]]]; try done.
    + rewrite (Hj start) by lia. cbn [tryAppend]. apply IH. lia.
Qed.

(** A retention sweep deletes only rows of its tenant that are older than
    the cutoff of their class, never an erasure receipt when no cutoff is set
    for them, and, unless forced, no row above the acknowledged SIEM mark; it
    counts what it deletes and touches nothing else. *)
Theorem retention_sweep `{E : StoreEnv} db t o db' n : PruneRetention db t o = (db', Ok n) ->
  (forall r, r ∈ db.(audit_log) -> r ∉ db'.(audit_log) ->
     r.(r_tenant) = t /\ (r.(r_created) < (if isGDPR r then o.(GDPRCutoff) else o.(GeneralCutoff)))%Z /\
     (isGDPR r = true -> o.(GDPRCutoff) <> zero_time) /\
     (o.(SIEMConfigured) = true -> o.(Force) = false -> (r.(r_seq) <= default 0 (db.(siem_acked) !! t))%Z)) /\
  length db.(audit_log) = n + length db'.(audit_log) /\ (forall t', t' <> t -> records db' t' = records db t') /\
  db'.(receipt_tbl) = db.(receipt_tbl) /\ db'.(sequences) = db.(sequences).
Proof.
  unfold PruneRetention. destruct (decide (t = [])); [done|]. destruct (time_is_zero (GeneralCutoff o)); [done|].
  cbn. intros [= <- <-]. cbn. split_and!; [| | |done|done].
  - intros r Hin Hnot. rewrite list_elem_of_filter in Hnot.
    destruct (prunable db t o r) eqn:Ep; [|by destruct Hnot]. unfold prunable in Ep.
    apply andb_true_iff in Ep as [Ep Es]. apply andb_true_iff in Ep as [Et Ec]. apply bool_decide_eq_true in Et.
    unfold time_is_zero in *. destruct (isGDPR r), (o.(SIEMConfigured)), (o.(Force)); cbn in *; simplify_bool; unfold zero_time;
      split_and!; try done; try lia; tauto || (intros; lia).
  - rewrite <- length_app. apply Permutation_length. induction (audit_log db) as [|r l IH]; [done|].
    rewrite !filter_cons. destruct (prunable db t o r); [rewrite decide_True, decide_False by done|rewrite decide_False, decide_True by done].
    + by rewrite IH at 1.
    + by rewrite IH at 1; apply Permutation_middle.
  - intros t' Hne. unfold records. cbn. induction (audit_log db) as [|r l IH]; [done|]. rewrite !filter_cons.
    destruct (decide (r_tenant r = t')) as [<-|Hr].
    + rewrite decide_True.
      * rewrite filter_cons, decide_True by done. by rewrite IH.
      * unfold prunable. by rewrite bool_decide_eq_false_2.
    + destruct (decide _); [rewrite filter_cons, decide_False by done|]; done.
Qed.

Lemma filter_all {A} (P : A -> Prop) `{forall x, Decision (P x)} l : Forall P l -> filter P l = l.
Proof. induction 1 as [|x l Hx _ IH]; [done|]. by rewrite filter_cons, decide_True, IH by done. Qed.

Lemma filter_none {A} (P : A -> Prop) `{forall x, Decision (P x)} l : Forall (fun x => ~ P x) l -> filter P l = [].
Proof. induction 1 as [|x l Hx _ IH]; [done|]. by rewrite filter_cons, decide_False, IH by done. Qed.

Lemma records_filter db P t tbl sq sa `{forall x, Decision (P x)} :
  records (mkDb (filter P db.(audit_log)) tbl sq sa) t = filter P (records db t).
Proof. unfold records. cbn [audit_log]. rewrite !list_filter_filter. apply list_filter_iff. tauto. Qed.

Lemma StronglySorted_suffix (l1 l2 : list Rec) : StronglySorted seq_lt (l1 ++ l2) -> StronglySorted seq_lt l2.
Proof. induction l1 as [|x l1 IH]; [done|]. inversion 1; subst. by apply IH. Qed.

(** After a sweep has dropped the oldest rows, the full walk of [Verify]
    calls the rest broken, because its first row does not carry the sentinel;
    the windowed check, also over the full chain, calls it verified. *)
Theorem sweep_splits_the_checks `{E : StoreEnv} {L : AuditLaws} db t o db' n dropped d s kept lastN :
  reached db -> records db t = (dropped ++ [d]) ++ s :: kept ->
  Forall (fun r => prunable db t o r = true) (dropped ++ [d]) -> Forall (fun r => prunable db t o r = false) (s :: kept) ->
  PruneRetention db t o = (db', Ok n) -> (scanRow t d).(Hash) <> GenesisPrevHash ->
  (storeVerify db' t).(Integrity) = ChainBroken /\
  (verifyChainWindow (loadRecent db' t lastN)).1.(Integrity) = ChainVerified.
Proof.
  intros Hre%reached_intact Hr Hd Hk Hp Hg. destruct (proj2 Hre t) as [Hwf Hl].
  assert (records db' t = s :: kept /\ receipt_tbl db' = receipt_tbl db) as [Hr' Hrc].
  { unfold PruneRetention in Hp. destruct (decide (t = [])); [done|]. destruct (time_is_zero _); [done|]. injection Hp as <- _.
    split; [|done]. unfold delete_where. cbn [fst]. rewrite records_filter, Hr, filter_app.
    rewrite (filter_none _ (dropped ++ [d])), (filter_all _ (s :: kept)); [done|done|]. eapply Forall_impl; [exact Hd|]. cbn. congruence. }
  assert (Sorted_app := wf_sorted _ _ Hwf). rewrite Hr in Sorted_app.
  assert (StronglySorted seq_lt (records db' t)) as Hs' by (rewrite Hr'; by eapply StronglySorted_suffix).
  assert (scanRow t <$> ordered db' t = drop (length (dropped ++ [d])) (scanned db t)) as Ho.
  { rewrite sorted_ordered, Hr' by done. unfold scanned. rewrite Hr, fmap_app.
    rewrite <- (length_fmap (scanRow t)). by rewrite drop_app_length. }
  split.
  - assert (Receipts db' t = ∅) as Hrc0 by (unfold Receipts; by rewrite Hrc, (proj1 Hre)).
    unfold storeVerify, storeRows. rewrite Hrc0, (sorted_ordered _ _ Hs'), Hr'. apply unlinked_head.
    unfold scanned in Hl. rewrite Hr, <- app_assoc, fmap_app in Hl. cbn [app] in Hl. rewrite !fmap_cons in Hl.
    rewrite (linked_pair _ _ _ _ Hl). exact Hg.
  - assert (forall k, Integrity (verifyChainWindow (drop k (scanRow t <$> ordered db' t))).1 = ChainVerified) as Hw.
    { intros k. rewrite Ho, drop_drop. by rewrite window_verifies. }
    unfold loadRecent. destruct (_ <=? 0)%Z; [apply (Hw 0)|apply Hw].
Qed.

(** ** Witnesses *)

(** A stand-in for the environment: 32 bytes that sum up the text. *)
#[local] Instance wit_audit : AuditEnv :=
  {| canonicalize := Ok; compact := Some;
     sha256 := fun x => replicate 31 0%Z ++ [(foldr (fun c a => c + 3 * (a mod 256)) 0 x mod 256)%Z] |}.
#[local] Instance wit_store : StoreEnv :=
  {| store_audit := wit_audit; jsonb := Some; IsRedactedPayload := fun p => bool_decide (take 11 p = take 11 (BuildRedactedPayload [] [] 0));
     sqlMarked := fun _ => false; namesUser := fun _ _ => true; sign := fun _ => Some [1%Z]; classify := fun _ => [] |}.

#[local] Instance wit_laws : @AuditLaws wit_audit.
Proof.
  split; intros x; cbn [sha256 wit_audit].
  - apply Forall_app. split; [apply Forall_replicate; unfold byte; lia|]. apply Forall_singleton. apply Z.mod_pos_bound. lia.
  - by rewrite length_app, length_replicate.
Qed.

Definition wit_t : runes := [116%Z].
Definition wit_append (db : Db) (n : Z) : Db :=
  (storeAppend 0 db wit_t (mkEvent [n] [101%Z] (Itoa n) (n * Second)) 0 (fun _ => LockHeld)).1.
Definition wit_db (n : nat) : Db := foldl wit_append (mkDb [] ∅ ∅ ∅) (Z.of_nat <$> seq 1 n).

Lemma wit_reached n : reached (wit_db n).
Proof.
  unfold wit_db. assert (forall l db, reached db -> reached (foldl wit_append db l)) as H; [|apply H; constructor].
  induction l as [|x l IH]; intros db Hdb; [done|]. cbn [foldl]. apply IH. constructor. done.
Qed.

Definition wit_rec : Rec := mkRec [] 0 [] [] 0 [] [] [] OCSFPending.

(** Two outcomes: the text of the object with the keys U+212B and U+00C5, which
    have one NFC form, comes out in either order.  Other texts come out as they
    are. *)
Definition wit_nfc (s : runes) : runes := if decide (s = [8491%Z]) then [197%Z] else s.
Definition wit_members (swap : bool) : list (runes * json) :=
  if swap then [([197%Z], JBool true); ([8491%Z], JNull)] else [([8491%Z], JNull); ([197%Z], JBool true)].
Definition wit_colliding : runes := [123; 34; 8491; 34; 58; 110; 117; 108; 108; 44; 34; 197; 34; 58; 116; 114; 117; 101; 125]%Z.
Definition wit_canon (swap : bool) (raw : runes) : result JcsError runes :=
  if decide (raw = wit_colliding)
  then Canonicalize wit_nfc (fun _ => None) (fun _ => Some (JObject (wit_members swap), [])) raw
  else Ok raw.
Definition wit_outcomes (canon : runes -> result JcsError runes) : Prop := exists swap, canon = wit_canon swap.

(** Two events; [payload] is the first one's. *)
Definition wit_log (payload : runes) : Db :=
  let write swap db id p := (storeAppend (E := again wit_store (wit_canon swap)) 0 db wit_t (mkEvent [id] [101%Z] p (id * Second)) 0 (fun _ => LockHeld)).1 in
  write true (write false (mkDb [] ∅ ∅ ∅) 1%Z payload) 2%Z (runes_of "7").

Lemma wit_written payload : written wit_store wit_outcomes (wit_log payload).
Proof. apply (written_append _ _ (wit_canon true)); [by exists true|]. apply (written_append _ _ (wit_canon false)); [by exists false|]. constructor. Qed.

Lemma wit_stable : stable wit_outcomes (wit_log (runes_of "5")).
Proof.
  intros r canon canon' Hr [b ->] [b' ->].
  assert (Forall (fun r => r_payload r = runes_of "5" \/ r_payload r = runes_of "7") (audit_log (wit_log (runes_of "5")))) as Hall
    by (apply (bool_decide_unpack _); vm_compute; exact I).
  rewrite Forall_forall in Hall. destruct (Hall r Hr) as [Hp|Hp]; unfold wit_canon; rewrite Hp, !decide_False by (vm_compute; discriminate); reflexivity.
Qed.

Lemma written_log_verifies_witness :
  (storeVerify (E := again wit_store (wit_canon true)) (wit_log (runes_of "5")) wit_t).(Integrity) = ChainVerified /\
  length (records (wit_log (runes_of "5")) wit_t) = 2.
Proof.
  split; [|vm_compute; reflexivity].
  apply (written_log_verifies wit_store wit_outcomes (wit_log (runes_of "5")) (wit_canon true)); [apply wit_written|exact wit_stable|by exists true].
Defined.

(** A payload with two keys of one NFC form: the log as it was written, read by an
    operation that walks the map the other way, is reported as broken. *)
Lemma colliding_payload_breaks :
  written wit_store wit_outcomes (wit_log wit_colliding) /\
  (storeVerify (E := again wit_store (wit_canon true)) (wit_log wit_colliding) wit_t).(Integrity) = ChainVerified /\
  (storeVerify (E := again wit_store (wit_canon false)) (wit_log wit_colliding) wit_t).(Integrity) = ChainBroken.
Proof. split; [apply wit_written|]. vm_compute. by split. Qed.

Lemma append_readback_witness : exists db' row row',
  storeAppend 0 (wit_db 1) wit_t (mkEvent [9%Z] [101%Z] [49%Z] (9 * Second)) 0 (fun _ => LockHeld) = (db', Ok row) /\
  Get db' wit_t row.(Seq) = Ok row' /\ row'.(Hash) = row.(Hash).
Proof.
  destruct (storeAppend 0 (wit_db 1) wit_t (mkEvent [9%Z] [101%Z] [49%Z] (9 * Second)) 0 (fun _ => LockHeld)) as [db' [row|er]] eqn:Es;
    [|vm_compute in Es; discriminate Es].
  destruct (append_readback (wit_db 1) 0 wit_t (mkEvent [9%Z] [101%Z] [49%Z] (9 * Second)) 0 (fun _ => LockHeld) db' row (wit_reached 1)) as [(row' & Hg & Hh & _) _]; [|exact Es|].
  - intros p q. destruct p; intros [= <-]; reflexivity.
  - exists db', row, row'. split_and!; [reflexivity|exact Hg|exact Hh].
Defined.

Definition wit_at (db : Db) (i : nat) : Rec := default wit_rec (records db wit_t !! i).
Definition wit_payload : runes := BuildRedactedPayload [101%Z] (runes_of "unknown") (9 * Second).

Lemma redaction_breaks_continuity_witness : exists db',
  RedactDeadLettered (wit_db 2) wit_t 1 wit_payload (mkReceiptRecord (scanRow wit_t (wit_at (wit_db 2) 0)).(Hash) [] [1%Z]) = (db', Ok ()) /\
  (storeVerify db' wit_t).(Integrity) = ChainRedactedGDPR /\ shutsDown true db' [] 0 false = true.
Proof.
  set (r := wit_at (wit_db 2) 0). set (s := wit_at (wit_db 2) 1).
  destruct (RedactDeadLettered (wit_db 2) wit_t 1 wit_payload (mkReceiptRecord (scanRow wit_t r).(Hash) [] [1%Z])) as [db' [[]|er]] eqn:Ed;
    [|vm_compute in Ed; discriminate Ed].
  exists db'. destruct (redaction_breaks_continuity (wit_db 2) wit_t [] r s [] wit_payload [] [1%Z] db' wit_payload) as (H1 & _ & _ & H4).
  - apply wit_reached.
  - vm_compute. reflexivity.
  - discriminate.
  - exact Ed.
  - reflexivity.
  - vm_compute. reflexivity.
  - repeat constructor.
  - vm_compute. discriminate.
  - split_and!; [reflexivity|exact H1|apply H4, not_elem_of_nil].
Defined.

Definition wit_cfg : RedactCfg := mkRedactCfg [1%Z] [2%Z] 0.
Definition wit_fresh : Fresh := mkFresh [5%Z] [6%Z] [7%Z] (fun _ => LockHeld) (fun _ => LockHeld).

Lemma redacting_tail_breaks_chain_witness : exists db',
  redactOne wit_cfg wit_fresh (wit_db 2) wit_t [8%Z] (scanRow wit_t (wit_at (wit_db 2) 1)) (9 * Second) = (db', Ok ()) /\
  (storeVerify db' wit_t).(Integrity) = ChainBroken.
Proof.
  set (r := wit_at (wit_db 2) 1).
  destruct (redactOne wit_cfg wit_fresh (wit_db 2) wit_t [8%Z] (scanRow wit_t r) (9 * Second)) as [db' [[]|er]] eqn:Ed;
    [|vm_compute in Ed; discriminate Ed].
  exists db'. split; [reflexivity|].
  apply (redacting_tail_breaks_chain wit_cfg wit_fresh (wit_db 2) wit_t [8%Z] [wit_at (wit_db 2) 0] r (9 * Second) db').
  - apply wit_reached.
  - vm_compute. reflexivity.
  - exact Ed.
  - intros p Hp. vm_compute in Hp. injection Hp as <-. split; [vm_compute; reflexivity|vm_compute; discriminate].
Defined.

Definition wit_prune : PruneOptions := mkPrune (2 * Second) 0 true true.

Lemma retention_sweep_witness : exists db',
  PruneRetention (wit_db 2) wit_t wit_prune = (db', Ok 1) /\ length (wit_db 2).(audit_log) = 1 + length db'.(audit_log).
Proof.
  destruct (PruneRetention (wit_db 2) wit_t wit_prune) as [db' r] eqn:Ep.
  assert (r = Ok 1) as -> by (vm_compute in Ep; injection Ep as _ <-; reflexivity).
  exists db'. split; [reflexivity|]. apply (retention_sweep _ _ _ _ _ Ep).
Defined.

Lemma sweep_splits_the_checks_witness : exists db',
  PruneRetention (wit_db 2) wit_t wit_prune = (db', Ok 1) /\ (storeVerify db' wit_t).(Integrity) = ChainBroken /\
  (verifyChainWindow (loadRecent db' wit_t 0)).1.(Integrity) = ChainVerified.
Proof.
  destruct (PruneRetention (wit_db 2) wit_t wit_prune) as [db' r] eqn:Ep.
  assert (r = Ok 1) as -> by (vm_compute in Ep; injection Ep as _ <-; reflexivity).
  exists db'. split; [reflexivity|].
  apply (sweep_splits_the_checks (wit_db 2) wit_t wit_prune db' 1 [] (wit_at (wit_db 2) 0) (wit_at (wit_db 2) 1) [] 0).
  - apply wit_reached.
  - vm_compute. reflexivity.
  - repeat constructor.
  - repeat constructor.
  - exact Ep.
  - vm_compute. discriminate.
Defined.
