(* ===== verification/AuditPolicy.v ===== *)
(** * Audit settings ([pkg/audit/audit.go], [pkg/audit/integrity/periodic.go])

    The closed enumerations and the resolution of the retention window, the
    erasure-receipt floor and the integrity-check interval.  A setting arrives
    as text, so values outside the enumerations are possible. *)

From S2P Require Import Prelude.

Inductive ComplianceProfile := ComplianceNone | ComplianceSOC2 | ComplianceFedRAMP | ComplianceHIPAA.
Inductive RetentionPreset := PresetSOC2 | PresetFedRAMPHigh | PresetHIPAA | PresetNIS2DORA | PresetCustom.
#[export] Instance ComplianceProfile_eq_dec : EqDecision ComplianceProfile.
Proof. solve_decision. Defined.
#[export] Instance RetentionPreset_eq_dec : EqDecision RetentionPreset.
Proof. solve_decision. Defined.

Definition AllComplianceProfiles : list ComplianceProfile := [ComplianceNone; ComplianceSOC2; ComplianceFedRAMP; ComplianceHIPAA].
Definition AllRetentionPresets : list RetentionPreset := [PresetSOC2; PresetFedRAMPHigh; PresetHIPAA; PresetNIS2DORA; PresetCustom].

Definition profile_text (p : ComplianceProfile) : string :=
  match p with ComplianceNone => "none" | ComplianceSOC2 => "soc2" | ComplianceFedRAMP => "fedramp" | ComplianceHIPAA => "hipaa" end.
Definition preset_text (p : RetentionPreset) : string :=
  match p with PresetSOC2 => "soc2" | PresetFedRAMPHigh => "fedramp-high" | PresetHIPAA => "hipaa"
             | PresetNIS2DORA => "nis2-dora" | PresetCustom => "custom" end.

(** [IsValid]: the enumeration value of a text. *)
Definition parse_profile (s : string) : option ComplianceProfile := List.find (fun p => bool_decide (profile_text p = s)) AllComplianceProfiles.
Definition parse_preset (s : string) : option RetentionPreset := List.find (fun p => bool_decide (preset_text p = s)) AllRetentionPresets.

Definition IsRegulated (s : string) : bool := bool_decide (s ∈ ["soc2"; "fedramp"; "hipaa"]).
Definition RequiresSIEM (s : string) : bool := IsRegulated s.

Definition PresetDays (s : string) : Z :=
  match parse_preset s with
  | Some PresetSOC2 => 365 | Some PresetFedRAMPHigh => 1095 | Some PresetHIPAA => 2190 | Some PresetNIS2DORA => 1825
  | Some PresetCustom | None => 0
  end.

Definition ResolveRetentionDays (preset : string) (customDays : Z) : Z :=
  if (0 <? PresetDays preset)%Z then PresetDays preset
  else if (0 <? customDays)%Z then customDays
  else PresetDays "soc2".

Definition CompatibleProfiles (p : RetentionPreset) : list ComplianceProfile :=
  match p with
  | PresetSOC2 => [ComplianceSOC2; ComplianceFedRAMP]
  | PresetFedRAMPHigh => [ComplianceFedRAMP]
  | PresetHIPAA => [ComplianceHIPAA]
  | PresetNIS2DORA => [ComplianceNone; ComplianceSOC2]
  | PresetCustom => AllComplianceProfiles
  end.

Inductive PairingErr := BadPreset | BadProfile | Incompatible (compatible : list ComplianceProfile).

(** [None] is success. *)
Definition ValidatePairing (preset profile : string) : option PairingErr :=
  match parse_preset preset, parse_profile profile with
  | None, _ => Some BadPreset
  | _, None => Some BadProfile
  | Some p, Some c => if decide (c ∈ CompatibleProfiles p) then None else Some (Incompatible (CompatibleProfiles p))
  end.

Definition GDPRRetentionDefaultDays : Z := 2555.
Definition GDPRRetentionComplianceFloorDays : Z := 2190.

(** The days and the profile of a [GDPRRetentionFloorError]. *)
Definition ValidateGDPRRetentionDays (days : Z) (profiles : list string) : option (Z * string) :=
  let days := if (days <=? 0)%Z then GDPRRetentionDefaultDays else days in
  if (GDPRRetentionComplianceFloorDays <=? days)%Z then None
  else pair days <$> List.find IsRegulated profiles.

(** [None] is the start-up error. *)
Definition ResolveGrantCheckInterval (configured : Duration) (regulated : bool) : option Duration :=
  let def := if regulated then (60 * Second)%Z else (300 * Second)%Z in
  let max := if regulated then (120 * Second)%Z else (900 * Second)%Z in
  if (configured <=? 0)%Z then Some def
  else if (max <? configured)%Z then None
  else Some configured.

(** Whatever is configured, the retention window is positive, an accepted
    erasure-receipt setting keeps receipts at least as long as the floor under
    a regulated profile, and an accepted check interval is positive and within
    the maximum of the profile. *)
Theorem audit_settings_bounded preset custom days profiles configured regulated :
  (0 < ResolveRetentionDays preset custom)%Z /\
  (ValidateGDPRRetentionDays days profiles = None -> (exists p, p ∈ profiles /\ IsRegulated p = true) ->
     (days <= 0 \/ GDPRRetentionComplianceFloorDays <= days)%Z) /\
  (forall d, ResolveGrantCheckInterval configured regulated = Some d ->
     (0 < d <= (if regulated then 120 * Second else 900 * Second))%Z).
Proof.
  split_and!.
  - unfold ResolveRetentionDays. destruct (Z.ltb_spec 0 (PresetDays preset)); [done|]. destruct (Z.ltb_spec 0 custom); [done|]. reflexivity.
  - unfold ValidateGDPRRetentionDays. intros H (p & Hin & Hr). destruct (Z.leb_spec days 0); [by left|]. right.
    destruct (Z.leb_spec GDPRRetentionComplianceFloorDays days); [done|].
    destruct (List.find IsRegulated profiles) eqn:Ef; [done|]. rewrite list_elem_of_In in Hin.
    pose proof (List.find_none _ _ Ef p Hin). congruence.
  - intros d. unfold ResolveGrantCheckInterval, Second. destruct regulated; (destruct (Z.leb_spec configured 0); [intros [= <-]; lia|]);
      (match goal with |- context [(?a <? ?b)%Z] => destruct (Z.ltb_spec a b) end; [done|]); intros [= <-]; lia.
Qed.

(** Under the profile [none] only two presets are accepted. *)
Theorem pairing_sound preset : ValidatePairing preset "none" = None -> preset = "nis2-dora" \/ preset = "custom".
Proof.
  unfold ValidatePairing. destruct (parse_preset preset) as [p|] eqn:Ep; [|done].
  assert (preset = preset_text p) as ->.
  { unfold parse_preset in Ep. apply List.find_some in Ep as [_ Hb]. by apply bool_decide_eq_true in Hb. }
  destruct p; vm_compute; intros; try done; auto.
Qed.
