(* ===== verification/Cron.v ===== *)
(** * Cron schedules ([pkg/cron/cron.go])

    The five-field parser, which turns each field into a bit mask, and the
    search for the next minute at which a schedule fires.  The offset of the
    location's clock from UTC at an instant is an argument.

    Shown: the mask of a field is the set of values its terms describe; the
    search ends, and gives the earliest matching minute of its window. *)

From S2P Require Import Prelude Text Calendar.

(** ** Numbers *)

Definition digit_val (c : ascii) : option Z :=
  let n := Z.of_nat (nat_of_ascii c) in
  if ((48 <=? n) && (n <=? 57))%Z then Some (n - 48)%Z else None.

Fixpoint digits_val (acc : Z) (s : string) : option Z :=
  match s with
  | EmptyString => Some acc
  | String c s => d ← digit_val c; digits_val (10 * acc + d)%Z s
  end.

Definition unsigned (s : string) : option Z := if is_empty s then None else digits_val 0 s.

(** An optional sign and digits. *)
Definition signed_val (s : string) : option Z :=
  match s with
  | String c r => if Ascii.eqb c "+" then unsigned r
                  else if Ascii.eqb c "-" then Z.opp <$> unsigned r
                  else unsigned s
  | EmptyString => None
  end.

(** [strconv.Atoi]: in the range of [int64]. *)
Definition Atoi (s : string) : option Z :=
  v ← signed_val s; if ((min_int64 <=? v) && (v <=? max_int64))%Z then Some v else None.

(** ** Fields *)

(** [parseTerm]: low and high bound and step; [None] for the error. *)
Definition parseTerm (term : string) (min max : Z) : option (Z * Z * Z) :=
  bs ← match cut "/" term with
       | Some (base, rest) => step ← Atoi rest; if (step <? 1)%Z then None else Some (base, step)
       | None => Some (term, 1%Z)
       end;
  let '(base, step) := bs in
  lh ← (if decide (base = "*") then Some (min, max)
        else match cut "-" base with
             | Some (a, b) => if is_empty a then n ← Atoi base; Some (n, n)
                              else lo ← Atoi a; hi ← Atoi b; Some (lo, hi)
             | None => n ← Atoi base; Some (n, n)
             end);
  let '(lo, hi) := lh in
  if ((lo <? min) || (max <? hi) || (hi <? lo))%Z then None else Some (lo, hi, step).

(** [1 << uint(v)] as a [uint64]: a shift of 64 or more gives zero. *)
Definition bit64 (v : Z) : Z := if ((0 <=? v) && (v <? 64))%Z then Z.shiftl 1 v else 0%Z.

(** The loop over the values of a term; [v += step] wraps.  [None] is out of
    fuel, and [value_fuel] is enough. *)
Fixpoint setBits (fuel : nat) (mask v hi step : Z) : option Z :=
  match fuel with
  | O => None
  | S fuel => if (v <=? hi)%Z then setBits fuel (Z.lor mask (bit64 v)) (wrap64 (v + step)) hi step else Some mask
  end.

Definition value_fuel : nat := 200.

Fixpoint parseTerms (terms : list string) (mask min max : Z) : option Z :=
  match terms with
  | [] => Some mask
  | term :: terms =>
      '(lo, hi, step) ← parseTerm term min max;
      mask ← setBits value_fuel mask lo hi step;
      parseTerms terms mask min max
  end.

Definition parseField (spec : string) (min max : Z) : option Z := parseTerms (split "," spec) 0 min max.

(** ** Schedules *)

Record Schedule := mkSchedule {
  s_minute : Z; s_hour : Z; s_dom : Z; s_month : Z; s_dow : Z; domRestricted : bool; dowRestricted : bool }.

Definition Parse (expr : string) : option Schedule :=
  match fields expr with
  | [f0; f1; f2; f3; f4] =>
      minute ← parseField f0 0 59;
      hour ← parseField f1 0 23;
      dom ← parseField f2 1 31;
      month ← parseField f3 1 12;
      dow ← parseField f4 0 7;
      let dow := if (Z.land dow (Z.shiftl 1 7) =? 0)%Z then dow else Z.lor dow (Z.shiftl 1 0) in
      Some (mkSchedule minute hour dom month dow (negb (bool_decide (f2 = "*"))) (negb (bool_decide (f4 = "*"))))
  | _ => None
  end.

Definition has (mask v : Z) : bool := negb (Z.land mask (bit64 v) =? 0)%Z.

Definition nextSearchLimit : Duration := (4 * 365 * 24 * Hour)%Z.

Section Next.
(** Seconds the location's clock is ahead of UTC at an instant. *)
Variable offset : Time -> Z.

Definition local (t : Time) : Time := (t + offset t * Second)%Z.

Definition matches (s : Schedule) (t : Time) : bool :=
  let l := local t in
  if negb (has s.(s_minute) (minute_of l)) then false
  else if negb (has s.(s_hour) (hour_of l)) then false
  else if negb (has s.(s_month) (date l).(d_month)) then false
  else
    let domMatch := has s.(s_dom) (date l).(d_day) in
    let dowMatch := has s.(s_dow) (weekday l) in
    if s.(domRestricted) && s.(dowRestricted) then domMatch || dowMatch else domMatch && dowMatch.

(** The loop of [Next] in doubling rounds: [scan d] makes up to [2^d] turns. *)
Inductive scanned := Found (t : Time) | Past | More_ (t : Time).

Fixpoint scan (d : nat) (s : Schedule) (limit next : Time) : scanned :=
  match d with
  | O => if (next <? limit)%Z then (if matches s next then Found next else More_ (next + Minute)%Z) else Past
  | S d => match scan d s limit next with
           | More_ t => scan d s limit t
           | r => r
           end
  end.

Definition truncate (t : Time) : Time := (t - t mod Minute)%Z.

(** [None] is the error; 2^22 turns are more than the window has minutes. *)
Definition Next (s : Schedule) (t : Time) : option Time :=
  let next := (truncate t + Minute)%Z in
  match scan 22 s (next + nextSearchLimit)%Z next with
  | Found u => Some u
  | _ => None
  end.
End Next.

Example every_quarter : parseField "*/15" 0 59 = Some 35185445863425%Z.
Proof. vm_compute. reflexivity. Qed.
Example weekdays : Parse "0 2 * * 1-5" = Some (mkSchedule 1 4 4294967294 8190 62 false true).
Proof. vm_compute. reflexivity. Qed.

(** ** The mask of a term *)

Lemma bit64_spec v n : (0 <= v < 64)%Z -> Z.testbit (bit64 v) n = (n =? v)%Z.
Proof.
  intros Hv. unfold bit64. rewrite (proj2 (Z.leb_le 0 v)), (proj2 (Z.ltb_lt v 64)) by lia. cbn.
  rewrite Z.shiftl_1_l. rewrite Z.pow2_bits_eqb by lia. apply Z.eqb_sym.
Qed.

Lemma has_testbit mask v : (0 <= v < 64)%Z -> has mask v = Z.testbit mask v.
Proof.
  intros Hv. unfold has. destruct (Z.testbit mask v) eqn:Et.
  - destruct (Z.eqb_spec (Z.land mask (bit64 v)) 0) as [E|]; [|done]. apply (f_equal (fun z => Z.testbit z v)) in E.
    rewrite Z.land_spec, bit64_spec, Z.eqb_refl, Et, Z.bits_0 in E by done. done.
  - destruct (Z.eqb_spec (Z.land mask (bit64 v)) 0) as [|E]; [done|]. exfalso. apply E. apply Z.bits_inj'. intros n Hn.
    rewrite Z.land_spec, bit64_spec, Z.bits_0 by done. destruct (Z.eqb_spec n v) as [->|]; [by rewrite Et|by rewrite andb_false_r].
Qed.

(** The values of a term. *)
Definition covers (lo hi step n : Z) : bool := ((lo <=? n) && (n <=? hi) && ((n - lo) mod step =? 0))%Z.

(** Steps below this bound cannot wrap. *)
Definition safe_step (step : Z) : Prop := (1 <= step <= max_int64 - 64)%Z.

Lemma covers_step v hi step n : (1 <= step)%Z -> (v <= hi)%Z ->
  covers v hi step n = (n =? v)%Z || covers (v + step) hi step n.
Proof.
  intros Hs Hv. unfold covers. destruct (Z.eqb_spec n v) as [->|Hne].
  - rewrite Z.sub_diag, Z.mod_0_l, Z.leb_refl, (proj2 (Z.leb_le v hi)) by lia. done.
  - cbn [orb]. replace (n - (v + step))%Z with (n - v + (-1) * step)%Z by lia. rewrite Z_mod_plus_full.
    destruct (Z.leb_spec v n), (Z.leb_spec (v + step) n), (Z.leb_spec n hi); cbn; try done; try lia.
    apply Z.eqb_neq. rewrite Z.mod_small; lia.
Qed.

Lemma setBits_exact fuel mask v hi step : (0 <= v)%Z -> (hi < 64)%Z -> safe_step step -> (hi - v + 1 < Z.of_nat fuel)%Z -> 0 < fuel ->
  exists m, setBits fuel mask v hi step = Some m /\ forall n, Z.testbit m n = Z.testbit mask n || covers v hi step n.
Proof.
  intros Hv Hhi Hs. revert mask v Hv. induction fuel as [|fuel IH]; intros mask v Hv Hf Hpos; [lia|]. cbn.
  destruct (Z.leb_spec v hi) as [Hle|Hgt].
  - unfold safe_step in Hs. rewrite wrap64_id by (unfold_int64; lia).
    destruct (IH (Z.lor mask (bit64 v)) (v + step)%Z) as (m & Hm & Hb); [lia|lia|lia|]. exists m. split; [done|]. intros n.
    rewrite Hb, Z.lor_spec, bit64_spec, (covers_step v hi step n) by lia. by rewrite orb_assoc.
  - exists mask. split; [done|]. intros n. unfold covers.
    destruct (Z.leb_spec v n), (Z.leb_spec n hi); cbn; try (by rewrite orb_false_r); lia.
Qed.

(** A step so large that adding it wraps still ends. *)
Lemma setBits_wraps k : forall fuel mask v hi step, (v <= Z.of_nat k)%Z -> (-128 <= v <= 59)%Z -> (0 <= hi <= 59)%Z ->
  (max_int64 - 64 < step <= max_int64)%Z -> 2 * k + 2 <= fuel -> is_Some (setBits fuel mask v hi step).
Proof.
  induction k as [k IH] using lt_wf_ind. intros [|fuel] mask v hi step Hk Hv Hh Hs Hf; [lia|]. cbn [setBits].
  destruct (Z.leb_spec v hi) as [Hle|]; [|by eexists]. destruct fuel as [|fuel]; [lia|]. cbn [setBits].
  destruct (decide (v + step <= max_int64)%Z) as [Hno|Ho].
  - rewrite (wrap64_id (v + step)) by (unfold_int64; lia). destruct (Z.leb_spec (v + step) hi); [unfold_int64; lia|by eexists].
  - assert (wrap64 (v + step) = v + step - two64)%Z as E1.
    { unfold_int64. rewrite (Z.mod_eq (v + step + 9223372036854775808)) by lia.
      replace ((v + step + 9223372036854775808) / 18446744073709551616)%Z with 1%Z; [lia|].
      apply (Z.div_unique _ _ _ (v + step - 9223372036854775808)%Z); lia. }
    rewrite E1. destruct (Z.leb_spec (v + step - two64) hi); [|by eexists].
    rewrite wrap64_id by (unfold_int64; lia).
    assert (v + step - two64 + step <= v - 2)%Z by (unfold_int64; lia).
    destruct (decide (0 <= v - 2)%Z).
    + apply (IH (k - 2)); unfold_int64; lia.
    + destruct fuel as [|fuel]; [unfold_int64; lia|]. apply (IH 0); unfold_int64; lia.
Qed.

#[local] Arguments setBits : simpl never.

Lemma parseTerm_range term min max lo hi step : parseTerm term min max = Some (lo, hi, step) ->
  (min <= lo <= hi /\ hi <= max /\ 1 <= step <= max_int64)%Z.
Proof.
  assert (forall s v, Atoi s = Some v -> (v <= max_int64)%Z) as Hat.
  { intros s v. unfold Atoi. destruct (signed_val s) as [w|]; [|done]. cbn.
    destruct ((min_int64 <=? w) && (w <=? max_int64))%Z eqn:Eb; [|done]. intros [= <-]. simplify_bool. lia. }
  unfold parseTerm. intros H.
  destruct (match cut "/" term with Some _ => _ | None => _ end) as [[base st]|] eqn:Eb; [|done].
  assert (1 <= st <= max_int64)%Z as Hst.
  { destruct (cut "/" term) as [[a b]|]; [|injection Eb as _ <-; unfold_int64; lia].
    destruct (Atoi b) as [v|] eqn:Ev; [|done]. cbn in Eb. destruct (Z.ltb_spec v 1); [done|]. injection Eb as _ <-.
    specialize (Hat _ _ Ev). lia. }
  cbn in H. destruct (if decide (base = "*") then _ else _) as [[l h]|]; [|done]. cbn in H.
  destruct ((l <? min) || (max <? h) || (h <? l))%Z eqn:Er; [done|]. injection H as <- <- <-. simplify_bool. lia.
Qed.

(** The loop of a term ends for every step. *)
Lemma setBits_total mask lo hi step : (0 <= lo <= hi)%Z -> (hi <= 59)%Z -> (1 <= step <= max_int64)%Z ->
  is_Some (setBits value_fuel mask lo hi step).
Proof.
  intros Hl Hh Hs. destruct (decide (step <= max_int64 - 64)%Z).
  - destruct (setBits_exact value_fuel mask lo hi step) as (m & -> & _); [lia|lia|unfold safe_step; lia|unfold value_fuel; lia|unfold value_fuel; lia|].
    eexists. reflexivity.
  - apply (setBits_wraps (Z.to_nat lo)); unfold value_fuel; lia.
Qed.

Definition term_covers (min max n : Z) (term : string) : Prop :=
  exists lo hi step, parseTerm term min max = Some (lo, hi, step) /\ covers lo hi step n = true.

Definition safe_term (min max : Z) (term : string) : Prop :=
  forall lo hi step, parseTerm term min max = Some (lo, hi, step) -> safe_step step.

Lemma parseTerms_spec terms mask min max : (0 <= min)%Z -> (max <= 59)%Z ->
  (is_Some (parseTerms terms mask min max) <-> Forall (fun t => is_Some (parseTerm t min max)) terms) /\
  (Forall (safe_term min max) terms -> forall m, parseTerms terms mask min max = Some m ->
     forall n, Z.testbit m n = true <-> Z.testbit mask n = true \/ Exists (term_covers min max n) terms).
Proof.
  intros Hmin Hmax. revert mask. induction terms as [|t terms IH]; intros mask; cbn.
  { split; [split; [constructor|by eexists]|]. intros _ m [= <-] n. rewrite Exists_nil. tauto. }
  destruct (parseTerm t min max) as [[[lo hi] step]|] eqn:Et; cbn.
  2: { split; [|done]. split; [by intros [? ?]|]. intros H%Forall_cons. destruct H as [H _]. rewrite Et in H. by destruct H. }
  pose proof (parseTerm_range _ _ _ _ _ _ Et) as (R1 & R2 & R3).
  destruct (setBits_total mask lo hi step) as [m1 Hm1]; [lia|lia|lia|]. rewrite Hm1. cbn.
  destruct (IH m1) as [IH1 IH2]. split.
  - rewrite IH1, Forall_cons, Et. split; [intros; split; [by eexists|done]|tauto].
  - intros [Hsafe Hrest]%Forall_cons m Hm n. rewrite (IH2 Hrest m Hm n), Exists_cons.
    destruct (setBits_exact value_fuel mask lo hi step) as (m2 & Hm2 & Hbits);
      [lia|lia|by eapply Hsafe|unfold value_fuel; lia|unfold value_fuel; lia|]. assert (m2 = m1) as -> by congruence.
    rewrite Hbits, orb_true_iff. assert (term_covers min max n t <-> covers lo hi step n = true) as ->; [|tauto].
    unfold term_covers. rewrite Et. split; [by intros (? & ? & ? & [= -> -> ->] & ?)|eauto].
Qed.

(** A field parses exactly when each of its comma-separated terms does, and
    its mask then has a bit set exactly for the values that lie in the range of
    some term at a multiple of its step; no loop runs out, whatever the step. *)
Theorem parseField_exact spec min max : (0 <= min)%Z -> (max <= 59)%Z ->
  (is_Some (parseField spec min max) <-> Forall (fun t => is_Some (parseTerm t min max)) (split "," spec)) /\
  (Forall (safe_term min max) (split "," spec) -> forall mask, parseField spec min max = Some mask ->
     forall n, Z.testbit mask n = true <-> Exists (term_covers min max n) (split "," spec)).
Proof.
  intros Hmin Hmax. destruct (parseTerms_spec (split "," spec) 0 min max Hmin Hmax) as [H1 H2]. split; [done|].
  intros Hs mask Hm n. unfold parseField in *. rewrite (H2 Hs mask Hm n), Z.bits_0. split; [by intros [|]|by right].
Qed.

Lemma parseField_exact_witness : exists mask, parseField "10-20/5,30" 0 59 = Some mask /\
  Exists (term_covers 0 59 15) (split "," "10-20/5,30").
Proof.
  destruct (parseField_exact "10-20/5,30" 0 59) as [_ H]; [lia|lia|]. exists 1074824192%Z. split; [vm_compute; reflexivity|].
  assert (Forall (safe_term 0 59) ["10-20/5"; "30"]) as Hs.
  { apply Forall_cons_2; [|apply Forall_cons_2; [|apply Forall_nil_2]]; intros lo hi step Ht; vm_compute in Ht;
      injection Ht as <- <- <-; split; discriminate. }
  apply (H Hs 1074824192%Z); vm_compute; reflexivity.
Defined.

(** A step near the top of [int64] wraps: minute 57 is set although the term
    names minute 59 only. *)
Example step_wraps : exists mask, parseField "59/9223372036854775807" 0 59 = Some mask /\ Z.testbit mask 57 = true.
Proof. eexists. split; [vm_compute; reflexivity|reflexivity]. Qed.

(** ** The search *)

Section Search.
Variable offset : Time -> Z.
Abbreviation matches := (matches offset).
Abbreviation scan := (scan offset).

(** [w] is one of the minutes from [a] on, before [b]. *)
Definition minute_in (a b w : Time) : Prop := (a <= w < b)%Z /\ ((w - a) mod Minute = 0)%Z.

Lemma minute_in_step a b w : minute_in a b w -> w = a \/ minute_in (a + Minute) b w.
Proof.
  intros [Hr Hm]. destruct (decide (w = a)); [by left|right]. unfold Minute in *.
  pose proof (Z.div_mod (w - a) (60 * Second)). unfold Second in *. split.
  - destruct (decide (w < a + 60 * 1000000000)%Z); [|lia]. rewrite Z.mod_small in Hm; lia.
  - replace (w - (a + 60 * 1000000000))%Z with (w - a + (-1) * (60 * 1000000000))%Z by lia. by rewrite Z_mod_plus_full.
Qed.

Lemma minute_in_split a m b w : ((m - a) mod Minute = 0)%Z -> minute_in a b w -> minute_in a m w \/ minute_in m b w.
Proof.
  intros Hm [Hr Hw]. destruct (decide (w < m)%Z); [left|right]; (split; [lia|]); [done|].
  replace (w - m)%Z with ((w - a) - (m - a))%Z by lia. rewrite Zminus_mod, Hm, Hw. done.
Qed.

Definition turns (d : nat) : Time := (2 ^ Z.of_nat d * Minute)%Z.

Lemma turns_S d : turns (S d) = (turns d + turns d)%Z.
Proof. unfold turns. rewrite Nat2Z.inj_succ, Z.pow_succ_r by lia. lia. Qed.

Lemma turns_mod d : (turns d mod Minute = 0)%Z.
Proof. apply Z_mod_mult. Qed.

(** What [2^d] turns of the loop find. *)
Lemma scan_spec d s limit next :
  match scan d s limit next with
  | Found u => matches s u = true /\ minute_in next limit u /\ forall w, minute_in next u w -> matches s w = false
  | Past => forall w, minute_in next limit w -> matches s w = false
  | More_ t => t = (next + turns d)%Z /\ (t - Minute < limit)%Z /\ forall w, minute_in next t w -> matches s w = false
  end.
Proof.
  revert next. induction d as [|d IH]; intros next; cbn [Cron.scan].
  - destruct (Z.ltb_spec next limit) as [Hlt|Hge]; [|intros w [? _]; lia]. destruct (matches s next) eqn:Em.
    + split_and!; [done|split; [lia|by rewrite Z.sub_diag]|]. intros w [? _]. lia.
    + unfold turns. split_and!; [lia|unfold Minute, Second; lia|]. intros w Hw.
      destruct (minute_in_step _ _ _ Hw) as [->|[? _]]; [done|lia].
  - pose proof (IH next) as H1. destruct (scan d s limit next) as [u| |t]; [done|done|]. destruct H1 as (-> & Hl & Hn).
    assert (forall b w, minute_in next b w -> minute_in next (next + turns d) w \/ minute_in (next + turns d) b w) as Hsp.
    { intros b w. apply minute_in_split. replace (next + turns d - next)%Z with (turns d) by lia. apply turns_mod. }
    specialize (IH (next + turns d)%Z). destruct (scan d s limit (next + turns d)) as [u| |t'].
    + destruct IH as (Hm & [Hr Hmod] & Hn2). split_and!; [done| |].
      * split; [unfold turns, Minute, Second in *; lia|].
        replace (u - next)%Z with (u - (next + turns d) + turns d)%Z by lia. by rewrite Zplus_mod, Hmod, turns_mod.
      * intros w Hw. destruct (Hsp _ _ Hw); auto.
    + intros w Hw. destruct (Hsp _ _ Hw) as [|]; auto.
    + destruct IH as (-> & Hl2 & Hn2). rewrite turns_S. split_and!; [lia|lia|]. intros w Hw. destruct (Hsp _ _ Hw); auto.
Qed.
End Search.

(** Minutes after [t] are the minutes from the next whole minute on. *)
Lemma minute_after t w b : (w mod Minute = 0)%Z -> (t < w < b)%Z -> minute_in (truncate t + Minute) b w.
Proof.
  intros Hw Hr. unfold minute_in, truncate, Minute, Second in *. Z.div_mod_to_equations. lia.
Qed.

Lemma Next_exact offset s t :
  match Next offset s t with
  | Some u => matches offset s u = true /\ (t < u)%Z /\ (u mod Minute = 0)%Z /\ (u < truncate t + Minute + nextSearchLimit)%Z /\
              forall w, (w mod Minute = 0)%Z -> (t < w < u)%Z -> matches offset s w = false
  | None => forall w, (w mod Minute = 0)%Z -> (t < w < truncate t + Minute + nextSearchLimit)%Z -> matches offset s w = false
  end.
Proof.
  unfold Next. set (next := (truncate t + Minute)%Z).
  pose proof (scan_spec offset 22 s (next + nextSearchLimit) next) as H.
  destruct (scan offset 22 s (next + nextSearchLimit) next) as [u| |u].
  - destruct H as (Hm & [Hr Hmod] & Hn). split_and!; [done| | |lia|].
    + unfold next, truncate, Minute, Second in *. Z.div_mod_to_equations. lia.
    + unfold next, truncate, Minute, Second in *. Z.div_mod_to_equations. lia.
    + intros w Hw Hwr. by apply Hn, minute_after.
  - intros w Hw Hwr. by apply H, minute_after.
  - destruct H as (-> & Hl & _). exfalso. revert Hl. unfold turns, nextSearchLimit, Hour, Minute, Second. cbn. lia.
Qed.

(** C38. [Next] is total and exact: it returns the earliest whole minute
    strictly after the given time at which the schedule fires, in the given
    location, which is a minute of the search window, and fails exactly when no
    minute of the search window fires. *)
Theorem Next_earliest offset s t :
  match Next offset s t with
  | Some u => matches offset s u = true /\ (t < u)%Z /\ (u mod Minute = 0)%Z /\ (u < truncate t + Minute + nextSearchLimit)%Z /\
              forall w, (w mod Minute = 0)%Z -> (t < w < u)%Z -> matches offset s w = false
  | None => forall w, (w mod Minute = 0)%Z -> (t < w < truncate t + Minute + nextSearchLimit)%Z -> matches offset s w = false
  end /\
  (Next offset s t = None <-> forall w, (w mod Minute = 0)%Z -> (t < w < truncate t + Minute + nextSearchLimit)%Z -> matches offset s w = false).
Proof.
  pose proof (Next_exact offset s t) as H. destruct (Next offset s t) as [u|]; (split; [exact H|]); [|done].
  destruct H as (H1 & H2 & H3 & H4 & _). split; [done|]. intros Hn. by rewrite (Hn u H3 (conj H2 H4)) in H1.
Qed.

(** ** A leap day *)

Definition leap_schedule : Schedule := mkSchedule 1 1 (2 ^ 29) (2 ^ 2) 255 true false.

Lemma has_pow k v : (0 <= k)%Z -> (0 <= v < 64)%Z -> has (2 ^ k) v = true -> v = k.
Proof. intros Hk Hv. rewrite has_testbit, Z.pow2_bits_eqb by lia. by intros ->%Z.eqb_eq. Qed.

(** Midnight UTC of the date. *)
Definition midnight (y m d : Z) : Time := (days_of_date (mkDate y m d) * Day)%Z.

Lemma leap_match u : matches (fun _ => 0%Z) leap_schedule u = true ->
  minute_of u = 0%Z /\ hour_of u = 0%Z /\ (date_of_days (u / Day)).(d_month) = 2%Z /\ (date_of_days (u / Day)).(d_day) = 29%Z.
Proof.
  unfold matches, local. replace (u + 0 * Second)%Z with u by lia. cbn [s_minute s_hour s_month s_dom s_dow domRestricted dowRestricted leap_schedule andb].
  pose proof (clock_ranges u) as (Hh & Hm & _). pose proof (date_ranges (u / Day)) as [Hmo Hd]. cbn zeta in Hmo, Hd.
  unfold date. intros H.
  destruct (has 1 (minute_of u)) eqn:E1; [|done]. destruct (has 1 (hour_of u)) eqn:E2; [|done]. cbn [negb] in H.
  destruct (has (2 ^ 2) (d_month (date_of_days (u / Day)))) eqn:E3; [|done]. cbn [negb] in H.
  apply andb_true_iff in H as [H _].
  apply (has_pow 0) in E1, E2; [|lia..]. apply has_pow in E3, H; lia.
Qed.

(** No 29 February in the 1460 days after that of 2024. *)
Lemma next_leap_day i : 1 <= i < 1461 ->
  ~ ((date_of_days (738944 + Z.of_nat i)).(d_month) = 2%Z /\ (date_of_days (738944 + Z.of_nat i)).(d_day) = 29%Z).
Proof.
  pose (leap := fun i => let d := date_of_days (738944 + Z.of_nat i) in ((d.(d_month) =? 2) && (d.(d_day) =? 29))%Z).
  intros Hi [Hm Hd]. assert (forallb (fun i => negb (leap i)) (seq 1 1460) = true) as H by (vm_compute; reflexivity).
  rewrite forallb_forall in H. specialize (H i). rewrite in_seq in H. specialize (H ltac:(lia)).
  unfold leap in H. rewrite Hm, Hd in H. done.
Qed.

(** A schedule for 29 February fails on the day it fires: the search window
    is 1460 days, one day less than the four calendar years to the next leap
    day, although the schedule does fire then. *)
Theorem leap_day_missed :
  Parse "0 0 29 2 *" = Some leap_schedule /\
  Next (fun _ => 0%Z) leap_schedule (midnight 2024 2 29) = None /\
  matches (fun _ => 0%Z) leap_schedule (midnight 2028 2 29) = true.
Proof.
  split_and!; [vm_compute; reflexivity| |vm_compute; reflexivity].
  pose proof (Next_exact (fun _ => 0%Z) leap_schedule (midnight 2024 2 29)) as H.
  destruct (Next _ _ _) as [u|]; [|done]. exfalso. destruct H as (Hm & Hlt & Hmod & Hlim & _).
  destruct (leap_match u Hm) as (M & Hh & Hmo & Hd).
  change (midnight 2024 2 29) with (738944 * Day)%Z in *. 
  assert (738944 <= u / Day <= 738944 + 1460)%Z as Hk.
  { change (truncate (738944 * Day) + Minute + nextSearchLimit)%Z with 63970905660000000000%Z in Hlim. change Day with 86400000000000%Z in *.
    split; [apply Z.div_le_lower_bound; lia|apply Z.lt_succ_r, Z.div_lt_upper_bound; lia]. }
  destruct (decide (u / Day = 738944)%Z) as [E|E].
  - revert E M Hh Hmod Hlt. unfold minute_of, hour_of, Day, Hour, Minute, Second. cbn. intros.
    Z.div_mod_to_equations. lia.
  - apply (next_leap_day (Z.to_nat (u / Day - 738944))); [lia|].
    replace (738944 + Z.of_nat (Z.to_nat (u / Day - 738944)))%Z with (u / Day)%Z by lia. done.
Qed.
